(* ===== verification/_CoqProject ===== *)
-Q . S2P
Prelude.v
Closure.v
Partition.v
GoPath.v
Paths.v
Tree.v
Resource.v
Membership.v
Productions.v
Registrations.v
RegistrationInvariant.v
Notification.v
DependencyGraph.v
Diagnostic.v
StoreStatus.v
Names.v
Events.v
Warnings.v
Attribution.v
Decision.v
Scope.v
Static.v
Root.v
Backoff.v
Search.v
Outcome.v
Retry.v
History.v
Sweep.v
SourceIgnore.v
GitView.v
ConfigData.v
Documents.v
Images.v
Values.v
HelmValues.v
Diff.v
Pairing.v
Change.v
Egress.v
Artifacts.v
Tasks.v
KeyLocks.v
ResourceSetInputs.v
Schedule.v
DepWait.v
ReadInputs.v
Execution.v
