(* ===== verification/Prelude.v ===== *)
(** * A verification development of flate

    flate renders Flux GitOps repositories offline: it discovers the declarations of a
    cluster, reconciles Kustomizations, HelmReleases, ResourceSets and sources to a
    fixpoint without a cluster, and compares the output of two revisions.  This library
    models the part of the program that decides: what is alive in the store, what runs
    when, what may be read, and what is reported.  The sources are the Go packages under
    src/.

    ** The parts and how they meet

    The store (src/pkg/store) keeps, by [NamedResource], the declared objects, the
    conditions and the inventories of producers.  A publication recomputes which
    identities of an affected region are live ([Membership]) and tells the executions that
    read what it changed ([Registrations]), which an execution finds again as the inputs of
    its read set ([ReadInputs]); a condition write
    ([StoreStatus]) or a publication fires events to listeners ([Events]).  The scheduler
    (src/pkg/schedule) drives one body per resource on the task service ([Tasks]) until
    nothing changes ([Schedule]); a body that waits requires gates of its execution and is
    settled by what they conclude ([Execution]), which asks [DepWait], which reads the store's
    conditions and the drain level of the scheduler, and reports a missing or failed
    dependency as a diagnostic ([Diagnostic]).  Before a run, discovery selects the entry
    roots of a working tree ([Partition]), and the orchestrator keeps the dependsOn edges acyclic or marks their members failed ([DependencyGraph]).  Bodies read
    sources as confined trees ([Tree] over [GoPath]) or as views of Git commits ([GitView]), resolve paths under the policies of
    [Paths], fetch under the egress guard ([Egress]) and per-key locks ([KeyLocks]), expand
    substitutions from ConfigMaps and Secrets ([Values] over [ConfigData]), merge Helm values
    in place ([HelmValues]), compose the inputs of ResourceSets ([ResourceSetInputs]) and
    pair the files of sources with the copies an artifact asks for ([Artifacts]).  What remains unavailable on a side of a
    comparison is withheld on both ([Diff]), and the documents left are paired and compared
    ([Pairing] over [Documents]); the files that differ between the sides are found under
    their ignore rules ([Change] over [SourceIgnore]); advisories are collected and compacted for
    the report ([Warnings]).  A run keeps, per identity, what it decided to do about it
    ([Decision], from src/pkg/selection), at its end narrows the failures to what the
    request needs ([Scope], over the ancestry [Productions] finds in the store) and charges
    each to its cause ([Attribution]); its report labels what it names ([Names]).  Sources are acquired through a cache that repeats an attempt within
    its budget ([Retry]), remembers a remote failure for a while ([Outcome] over [Backoff])
    and finds accepted output by the paths it was made from ([History]); a sweep removes
    what its tags no longer reach ([Sweep]).

    ** Files

    - [Prelude]: tactics, hint databases, the [Compare] class with its laws (the order Go's
      comparison functions promise) and its instances, [sort_by], the bounded iteration
      [loop] with its rules [loop_spec], and list, option and string lemmas.
    - [GoPath]: the standard library's slash paths, as functions on strings.
    - [Paths]: internal/kustpath ([Resolve], [withinBase], [remoteReference]),
      pkg/source/safepath ([ArchiveName], [safepath_Contains]), internal/claimpath
      ([Groups]).
    - [Tree]: pkg/tree.  A [view] is its layers; [Builder]'s operations are the methods of
      builder.go; [resolve] is tree.go's, with its loop as [resolution_step].
    - [Search]: the standard library's binary search, which [History] and [ReadInputs] share.
    - [Resource]: pkg/manifest's identities ([NamedResource], with its [Compare]
      instance), drain levels and kind table.
    - [Membership]: pkg/store/membership.go and what it reads of emission.go,
      emission_read.go and artifact.go.  The shards are joined in one [Store] record, as the
      program holds all their locks during a publication.
    - [Productions]: the queries of pkg/store/emission_read.go and production_candidates.go
      over one snapshot of the store, with the representative of membership.go.
    - [Closure]: worklists and queues, as the lemmas that the traversals of [Scope] and
      [Partition] share.
    - [Partition]: the selection of entry roots in pkg/discovery/partition.go; what pins a root
      is a relation.
    - [Registrations]: pkg/store/registration.go with the captures, advances and demand
      writes of store.go, capture.go and assessment.go, one shard as a transition system.
      [RegistrationInvariant] is its invariant, [Notification] what executions are told.
    - [ReadInputs]: the inputs of a read set in pkg/store/capture.go and requirements.go, as
      handles into a heap.
    - [DependencyGraph]: pkg/orchestrator/depgraph.go.
    - [Diagnostic]: pkg/manifest/diagnostic.go and errors.go.
    - [StoreStatus]: pkg/store/status.go and status_message.go.
    - [Names]: internal/output/names.go with the names of the models in report.go: an [updater]
      is what the update function closes over.
    - [Events]: pkg/store/events.go, as a step relation over goroutines.
    - [Warnings]: pkg/store/warning.go and pkg/manifest/warning.go.
    - [Attribution]: the failures of pkg/selection/scope.go and result.go.
    - [Scope]: the closures of pkg/selection/scope.go with snapshot.go and the ancestry of
      project.go; a [side] is what they read of a [selectionSide].
    - [Static]: pkg/selection/static.go over pkg/loader/scope_eligibility.go: a [staticScope]
      is what its facts answer, a [reduction] what it writes.
    - [Root]: pkg/selection/root.go and root_public.go over the facts of facts.go.
    - [Decision]: pkg/selection/request.go and decision.go, the buckets of a decision as
      pointers into a heap; [after] is what one identity's standing becomes.
    - [Backoff], [Outcome], [Retry], [History]: pkg/source/cache (retry.go, outcome.go,
      machine.go, acquire_candidate.go, history.go) and internal/fetcherr.  An error value
      is a tree of the concrete types the package tells apart; [redact] is what a record
      keeps of one.
    - [Sweep]: pkg/source/cache/gc.go: a blob is what it refers to, and the result lists the
      writes of a collection in their order.
    - [SourceIgnore]: pkg/source/sourceignore, over trees of files.
    - [GitView]: the views of a commit in pkg/source/gittree (fs.go, shape.go), whose links are
      resolved as [Tree] does under the policies of [SourceIgnore].
    - [Change]: the detection of changes between two trees, pkg/change/detect.go with the
      scans of with_readers.go.
    - [ConfigData]: pkg/manifest/configmap.go and data.go; the record [Data] is the Go
      interface and the class [LawfulData] what its readers rely on; both kinds are
      instances.
    - [Values]: pkg/values; proved against [LawfulData].
    - [HelmValues]: the merging, the cache and the expansion of Helm values in
      pkg/values/values.go with pkg/manifest/deepcopy.go, over a heap of maps, as the program
      shares them and writes in place; proved against the class [LawfulHelm].
    - [Artifacts]: pkg/controllers/artifactgenerator (pathpattern.go, spec.go, the paths of
      copy.go): templates, their expansion over a listing, the decoding of a specification
      and the destinations of its copies.
    - [Documents]: decoded documents as trees, with what pkg/manifest reads, strips and
      compares of them (parse.go, strip.go, equality.go, emission.go).
    - [Images]: pkg/image and internal/imageutil, over [Documents].
    - [Diff]: internal/diffprep/suppress.go and docs.go.  [Pairing]: its normalization, pairing
      and changes.
    - [Egress]: pkg/source/ssrfguard.
    - [Tasks]: pkg/task.  [KeyLocks]: internal/keylock.  Both are transition systems whose
      steps are what a goroutine does between two scheduling points.
    - [ResourceSetInputs]: internal/resourcesetinput.
    - [Schedule]: pkg/schedule, as a step relation whose steps are the critical sections.
    - [DepWait]: pkg/depwait.
    - [Execution]: the gates, waits and settlement of pkg/controllers/base/execution.go, with
      dependencies.go: a [gathering] is what the loop over the gates carries, a [progress] that
      over the inputs, and an [Execution] what settling writes.

    ** What the theorems show

    - The store.  A publication leaves live exactly the supported identities of its region,
      so a cycle of producers keeps nothing alive ([reachability_exact]); the region is the
      closure of the change ([affected_exact]), and the coverage both rest on is complete
      whatever the order of Go's map iteration ([coverage_complete]).  An execution that
      reads registers on what it saw: it is told of every change once the sweep rests
      ([changes_delivered]), which it always can ([sweep_drains]), what it holds valid is
      present ([validity_sound]) and what it missed reaches it ([arrival]); one capture under
      a sweep starts out stale ([detached_head_unsynced]).  The index of its inputs agrees with
      a scan and its gates are exactly what it required ([requirements_exact]); an input
      attached over another is read instead of it ([attachInput_shadows]).  A status write is read back
      and fires exactly on a visible change ([UpdateStatus_readback]).  A listener gets
      every event once over all interleavings ([exactly_once], [deliveries_drain]).
      The productions of a resource are the distinct contributions gathered for it in order
      ([Productions_exact]), its parent the least of their owners ([RenderedParent_least]),
      and what admits an initial source is exact ([SourceAdmission_exact]).
      Advisory reports are exact ([compactWarnings_exact]), and independent of the order of
      collection ([compaction_deterministic]).
    - Reconciliation.  The incremental cycle cache equals a definition from scratch
      ([cycle_failures_exact], over [findPathLocked_exact]).  [Run] returns only when all is
      settled, never gets stuck, keeps its books and dispatches in order
      ([run_returns_settled], [run_never_stuck], [scheduler_bookkeeping],
      [dispatch_is_least]).  Raising the drain level only settles ([levels_refine]), the last
      one decides everything ([force_decides]), and the blocker search is exact
      ([blocksParent_exact]).  What an execution requires concludes
      on exactly its gates, whatever their order ([Require_exact]); its waits for inputs and
      for its declaration end and are charged to their causes ([AwaitData_exact],
      [requireDeclaration_exact]), and its settlement writes one status ([finish_exact]).
      The worker budget is exact, services progress, and waits end
      exactly at completion ([budget_exact], [service_progress], [BlockTillDone_exact]); keyed
      locks exclude exactly their holders ([keyed_exclusion]).
      Every failure of a run is a cause, the victim of one or in an advisory
      ([failureCauses_exact], [failures_accounted]), and including demands in a shared
      decision refines the demand on each identity ([include_refines]).
      Before a run, the reduction gives each file the least eligibility its graphs allow
      ([ReduceStatic_least]), whatever the order of the files ([ReduceStatic_order]); each
      package has a root above it ([packages_have_roots]), and a captured root is independent
      exactly when it is supported and no foreign owner supplies it ([Root_exact]); the entry
      roots selected cover all, whatever pins what ([unpinnedRoots_exact]).
      A restricted projection needs exactly the upward closure of what its request demands
      ([required_exact]); the memoized search for an unavailable ancestor equals the plain
      one, over cycles too ([walkUnavailable_exact]); emissions are grouped by their parents
      in order ([CollectEmissions_exact]).
    - The cache.  A recorded failure replays the same error without its diagnostics
      ([newOutcome_replays]); what is accepted from disk is bounded and clean
      ([accepted_bounded]); a replay is never recorded again ([replay_not_recorded]) nor
      retried ([replay_ends_acquisition]), and is fresh exactly until its wait is over
      ([freshness_exact], [backoffSchedule_exact]).  An acquisition ends within its attempts
      ([acquire_bounded]).  Provenance matches up to order and spelling of paths
      ([matches_exact]) and is reached by exactly what changes under it ([reaches_exact]).
      A sweep selects exactly the generations no remaining tag reaches ([selectSweep_exact])
      and removes them only after all that precedes succeeded ([Sweep_safe]).
    - Confinement.  No name leaves a tree ([resolve_confined], [resolution_terminates],
      [built_tree_wf], [AddFile_spec], [RemoveAll_prunes]), an archive
      ([ArchiveName_confined]), a root ([Contains_exact]) or a package ([Resolve_confined]).
      The egress guard blocks exactly its table ([blocked_exact], [control_exact]); a zone
      takes an IPv6 address out of the table's translation prefixes ([zone_escapes]), which
      the comment on [embeddedV4Blocked] does not say.
    - Artifacts.  A template matches a path exactly when substituting its captures renders
      it again ([matched_renders], [match_longest]); an expansion yields every product once,
      or the first error in the order of the listing ([expand_exact]); a specification is
      accepted exactly when each of its clauses holds ([decodeSpec_exact]), and the
      destination of a copy stays under its artifact ([copyDestination_confined]).
    - Helm values.  An expansion reads as the merge of its references and changes no map its
      caller could reach ([Expand_isolated], over [DeepCopyMap_exact]).
    - Comparison.  A pair has the last documents of its key and what they shadow is reported
      ([Prepare_exact]); two documents that differ in a leaf nothing strips are reported
      ([unreported_agree]); what renders alike is what agrees on the leaves its kind does not
      own ([output_exact]); its images are the strings that are references where they stand
      ([Extract_exact], [Collect_exact]).  The labels of a model are those of a report counted
      with its subjects ([bindModels_exact]) and tell the groups of a kind apart
      ([collisions_labelled]).  A detection holds exactly the files that differ, whatever the
      schedule of its workers ([Detect_exact], [Detect_contents]); ignore files are gathered
      with parents first ([NewFS_list], [parents_first]) and a policy restricted to some files
      decides as they do ([Select_restricted]).  A view of a commit shows exactly what its mode
      selects, with the links of a remote base resolved ([view_exact]), and reads what it shows
      ([ReadFile_exact], [drain_exact]).
    - Values and withholding.  [ExpandPostBuild_spec], [static_path_stable],
      [Lookup_captures_once], [WithSupplied_fills], [Secret_value_roundtrip],
      [Permute_cartesian] and [Suppress_exact] give the result of each operation on every
      branch.

    ** Bounds and fuel

    Loops that Go runs until a worklist is empty are [loop step fuel], whose [None] is
    exhaustion; each such definition computes its fuel from the input, and a theorem states
    that the result is never [None] for it: the region's expansion is bounded by the
    identities the store mentions ([universe]), a closure or a walk of [Scope] by the owners
    and inputs its snapshots mention, the reduction by three raises of each file, the ancestors
    of a package or a root by the owners and productions listed, the propagation by the region's states, the
    blocker search and the path search by the nodes of the graph, the resolution of a name
    by its text and those of the link targets it may follow, and the permutations by the
    product of the groups.  A deep copy is given one level more than
    the heap has maps, enough for one without cycles, and the loops over a template the
    length of its text.  [blocked] calls itself at most once, as an embedded address is
    an IPv4 one; the codec of failures refuses below its depth limit, a doubling wait
    leaves the 64-bit range within 63 turns, and a retry loop is given its attempts.  The
    marking of a sweep descends at most once through each blob, and a hashing worker strides
    at most once per job.  The concurrent parts have no fuel: they are relations, with progress
    theorems.

    ** Parameters

    Code outside src/ is an argument where it is called: the envsubst evaluator, the CEL
    engine, hashing, the fingerprints of sources (injective where a theorem says so), the
    Helm's merging and parsing of values (under the laws of [LawfulHelm]), Kubernetes' checks
    of names, the matching of globs, the codes of the registry client, the parsing of addresses, the unicode tables, the growth of slices, the admission and the publication an execution asks for,
    the validation of digests and names in the cache and what its disk holds, the reading and
    matching of ignore patterns, the modes, sizes and blobs of a Git store, the decoding of documents, the grammar of image references, the claims of pinned files,
    the quoting of a path, the bodies the scheduler runs, the resolver of scopes, the parsing and the equality of
    objects, and the sets a Go map iteration may yield in any order.

    ** Not modelled

    - The commit of a publication and the history of captures (publication*.go,
      capture_match.go, history.go, supply.go): the transaction around [Membership]'s
      decisions.  [Registrations] leaves out the authorities whose generation an emission
      supplies.
    - The reads of a capture and the reference facts ([Productions] queries one snapshot),
      prepared statuses and the counterparts of unpublished declarations ([Scope]).
    - The gathering of the evidence [Root] and [Static] read, the admission of declarations
      (the rest of src/pkg/selection), discovery but for [Partition], loading and
      the routing of changes to their readers (src/pkg/discovery, loader, the rest of change):
      they decide over parsed YAML documents.
    - The dispatch of an execution, the replay of its accepted output and its emissions
      ([Execution]).
    - Views of checkouts and of admitted bytes, their routing and their identity ([GitView]),
      and what the inputs of a read set observe ([ReadInputs]).
    - The reading and the writing of an artifact's copies, which are file systems.
    - Rendering through Helm, kustomize and templates, source acquisition, and the storage
      of the cache: third-party engines, networks and file systems.  The jitter of a wait
      is a floating-point number; the JSON and OCI form of a record is not modelled.
    - Command line, output but for [Names], and test support. *)

From stdpp Require Export base tactics list gmap strings sorting.
From Stdlib Require Export Lia.

(** ** Automation shared by the components *)

Create HintDb flate discriminated.
Create Rewrite HintDb flate_rw.

(** Case analysis on the scrutinee of the first [match] or [if] of the goal
    (or of a hypothesis), keeping the equation. *)
Ltac case_goal :=
  match goal with
  | |- context [match ?x with _ => _ end] => destruct x eqn:?
  end.

Ltac case_hyp H :=
  match type of H with
  | context [match ?x with _ => _ end] => destruct x eqn:?
  end.

(** Propositional reasoning up to equations. *)
Ltac prop_solve := intuition (subst; try done; try congruence).

(** Boolean conditions of the source, read as propositions. *)
Ltac bool_to_prop :=
  repeat match goal with
  | H : _ && _ = true |- _ => apply andb_true_iff in H as [? ?]
  | H : _ || _ = false |- _ => apply orb_false_iff in H as [? ?]
  | H : negb _ = true |- _ => apply negb_true_iff in H
  | H : negb _ = false |- _ => apply negb_false_iff in H
  | H : bool_decide _ = true |- _ => apply bool_decide_eq_true_1 in H
  | H : bool_decide _ = false |- _ => apply bool_decide_eq_false_1 in H
  end.

(** ** Three-way comparison

    Go compares with functions returning a negative, zero or positive [int];
    only the sign is ever used, so a comparison is a [comparison]. *)

Class Compare (A : Type) := compare : A → A → comparison.
#[global] Hint Mode Compare ! : typeclass_instances.

(** A comparison that is a strict total order with equality as its kernel. *)
Class LawfulCompare (A : Type) `{Compare A} : Prop := {
  compare_eq (x y : A) : compare x y = Eq ↔ x = y;
  compare_opp (x y : A) : compare y x = CompOpp (compare x y);
  compare_lt_trans (x y z : A) : compare x y = Lt → compare y z = Lt → compare x z = Lt;
}.

(** [cmp.Or] on comparison results: the first non-zero one. *)
Fixpoint cmp_or (cs : list comparison) : comparison :=
  match cs with
  | [] => Eq
  | Eq :: rest => cmp_or rest
  | c :: _ => c
  end.

Section lawful.
Context {A : Type} `{LawfulCompare A}.

Lemma compare_refl (x : A) : compare x x = Eq.
Proof. by apply compare_eq. Qed.

Lemma compare_gt_lt (x y : A) : compare x y = Gt ↔ compare y x = Lt.
Proof. rewrite (compare_opp x y). by destruct (compare x y). Qed.

Lemma compare_gt_trans (x y z : A) : compare x y = Gt → compare y z = Gt → compare x z = Gt.
Proof. rewrite !compare_gt_lt. intros Hxy Hyz. by eapply compare_lt_trans. Qed.

Lemma compare_irrefl (x : A) : compare x x ≠ Lt.
Proof. by rewrite compare_refl. Qed.

(** [x] sorts no later than [y]. *)
Definition cmp_le (x y : A) : Prop := compare x y ≠ Gt.

#[global] Instance cmp_le_dec : RelDecision cmp_le.
Proof. unfold cmp_le. intros x y. apply _. Defined.

#[global] Instance cmp_le_trans : Transitive cmp_le.
Proof.
  intros x y z Hxy Hyz. unfold cmp_le in *.
  destruct (compare x y) eqn:Exy; try done.
  - apply compare_eq in Exy. by subst.
  - destruct (compare y z) eqn:Eyz; try done.
    + apply compare_eq in Eyz. subst. by rewrite Exy.
    + by rewrite (compare_lt_trans _ _ _ Exy Eyz).
Qed.

#[global] Instance cmp_le_refl : Reflexive cmp_le.
Proof. intros x. unfold cmp_le. by rewrite compare_refl. Qed.

#[global] Instance cmp_le_total : Total cmp_le.
Proof. intros x y. unfold cmp_le. rewrite (compare_opp x y). destruct (compare x y); naive_solver. Qed.

#[global] Instance cmp_le_antisymm : AntiSymm (=) cmp_le.
Proof.
  intros x y Hxy Hyx. unfold cmp_le in *. rewrite (compare_opp x y) in Hyx.
  destruct (compare x y) eqn:E; try done. by apply compare_eq.
Qed.

End lawful.

#[export] Hint Resolve compare_refl : flate.

(** A lawful comparison pulls back along an injection. *)
Lemma lawful_inj {A B : Type} `{CA : Compare A} `{LawfulCompare B} (f : A → B) :
  (∀ x y, compare x y = compare (f x) (f y)) → Inj (=) (=) f → LawfulCompare A.
Proof.
  intros Hf Hinj. split; intros *; rewrite !Hf.
  - rewrite compare_eq. split; [apply (inj f) | by intros ->].
  - apply compare_opp.
  - apply compare_lt_trans.
Qed.

(** *** Instances *)

#[export] Instance string_compare : Compare string := String.compare.

Lemma ascii_compare_lt_trans (a b c : Ascii.ascii) :
  Ascii.compare a b = Lt → Ascii.compare b c = Lt → Ascii.compare a c = Lt.
Proof. unfold Ascii.compare. rewrite !N.compare_lt_iff. lia. Qed.

Lemma string_compare_refl (s : string) : String.compare s s = Eq.
Proof.
  induction s as [|a s IH]; [done|]. simpl. unfold Ascii.compare. by rewrite N.compare_refl.
Qed.

#[export] Instance string_lawful : LawfulCompare string.
Proof.
  split; unfold compare, string_compare.
  - intros x y. split; [apply String.compare_eq_iff|]. intros ->. apply string_compare_refl.
  - intros x y. apply String.compare_antisym.
  - intros x. induction x as [|a x IH]; intros [|b y] [|c z]; simpl; try done.
    destruct (Ascii.compare a b) eqn:Eab; try done.
    + apply Ascii.compare_eq_iff in Eab as ->.
      destruct (Ascii.compare b c); try done. apply IH.
    + intros _. destruct (Ascii.compare b c) eqn:Ebc; try done.
      * apply Ascii.compare_eq_iff in Ebc as ->. by rewrite Eab.
      * by rewrite (ascii_compare_lt_trans _ _ _ Eab Ebc).
Qed.

(** [slices.CompareFunc]: elementwise, a proper prefix is smaller. *)
Fixpoint compare_list {A} `{Compare A} (xs ys : list A) : comparison :=
  match xs, ys with
  | [], [] => Eq
  | [], _ :: _ => Lt
  | _ :: _, [] => Gt
  | x :: xs', y :: ys' => match compare x y with Eq => compare_list xs' ys' | c => c end
  end.

#[export] Instance list_compare {A} `{Compare A} : Compare (list A) := compare_list.

#[export] Instance prod_compare {A B} `{Compare A, Compare B} : Compare (A * B) :=
  λ p q, cmp_or [compare p.1 q.1; compare p.2 q.2].

Lemma compare_pair {A B} `{Compare A, Compare B} (a c : A) (b d : B) :
  compare (a, b) (c, d) = match compare a c with Eq => compare b d | r => r end.
Proof.
  unfold compare at 1, prod_compare. cbn [fst snd cmp_or].
  destruct (compare a c); try done. by destruct (compare b d).
Qed.

#[export] Instance list_lawful {A} `{LawfulCompare A} : LawfulCompare (list A).
Proof.
  split; unfold compare, list_compare.
  - intros x; induction x as [|a x IH]; intros [|b y]; try done. simpl.
    destruct (compare a b) eqn:E.
    + apply compare_eq in E as ->. rewrite IH. naive_solver.
    + split; [done|]. intros [=]; subst. by rewrite compare_refl in E.
    + split; [done|]. intros [=]; subst. by rewrite compare_refl in E.
  - intros x; induction x as [|a x IHx]; intros [|b y]; try done. simpl.
    rewrite (compare_opp a b). destruct (compare a b) eqn:E; simpl; try done.
  - intros x; induction x as [|a x IH]; intros [|b y] [|c z]; try done. simpl.
    destruct (compare a b) eqn:Eab; try done.
    + apply compare_eq in Eab as ->. destruct (compare b c); try done. apply IH.
    + intros _. destruct (compare b c) eqn:Ebc; try done.
      * apply compare_eq in Ebc as ->. by rewrite Eab.
      * by rewrite (compare_lt_trans _ _ _ Eab Ebc).
Qed.

#[export] Instance prod_lawful {A B} `{LawfulCompare A, LawfulCompare B} :
  LawfulCompare (A * B).
Proof.
  split.
  - intros [a b] [c d]. unfold compare, prod_compare; simpl.
    destruct (compare a c) eqn:E1; simpl.
    + apply compare_eq in E1 as ->. destruct (compare b d) eqn:E2; simpl.
      * apply compare_eq in E2 as ->. done.
      * split; [done|]. intros [=]; subst. by rewrite compare_refl in E2.
      * split; [done|]. intros [=]; subst. by rewrite compare_refl in E2.
    + split; [done|]. intros [=]; subst. by rewrite compare_refl in E1.
    + split; [done|]. intros [=]; subst. by rewrite compare_refl in E1.
  - intros [a b] [c d]. unfold compare, prod_compare; simpl.
    rewrite (compare_opp a c), (compare_opp b d).
    by destruct (compare a c), (compare b d).
  - intros [a b] [c d] [e f]. unfold compare, prod_compare; simpl.
    destruct (compare a c) eqn:E1; simpl; try done.
    + apply compare_eq in E1 as ->. destruct (compare c e) eqn:E2; simpl; try done.
      destruct (compare b d) eqn:E3; simpl; try done.
      destruct (compare d f) eqn:E4; simpl; try done.
      by rewrite (compare_lt_trans _ _ _ E3 E4).
    + intros _. destruct (compare c e) eqn:E2; simpl; try done.
      * apply compare_eq in E2 as ->. by rewrite E1.
      * by rewrite (compare_lt_trans _ _ _ E1 E2).
Qed.

(** ** Sorting

    [slices.SortFunc] and [slices.SortStableFunc]: insertion sort, which is
    stable; the sorts of the source whose keys are unique do not depend on
    stability. *)

Section sort_by.
Context {A : Type} (cmp : A → A → comparison).

Fixpoint insert_by (x : A) (l : list A) : list A :=
  match l with
  | [] => [x]
  | y :: l' => match cmp x y with Gt => y :: insert_by x l' | _ => x :: y :: l' end
  end.

Fixpoint sort_by (l : list A) : list A :=
  match l with
  | [] => []
  | x :: l' => insert_by x (sort_by l')
  end.

Lemma insert_by_perm x l : insert_by x l ≡ₚ x :: l.
Proof.
  induction l as [|y l IH]; [done|]. simpl. destruct (cmp x y); try done.
  rewrite IH. apply Permutation_swap.
Qed.

Lemma sort_by_perm l : sort_by l ≡ₚ l.
Proof. induction l as [|x l IH]; [done|]. simpl. by rewrite insert_by_perm, IH. Qed.

Lemma elem_of_sort_by x l : x ∈ sort_by l ↔ x ∈ l.
Proof. by rewrite sort_by_perm. Qed.

Lemma length_sort_by l : length (sort_by l) = length l.
Proof. by rewrite sort_by_perm. Qed.

(** The order a comparison sorts by. *)
Definition by_le (x y : A) : Prop := cmp x y ≠ Gt.

Lemma insert_by_sorted x l :
  (∀ a b, cmp a b = Gt → cmp b a ≠ Gt) → Sorted by_le l → Sorted by_le (insert_by x l).
Proof.
  intros Hopp. induction l as [|y l IH]; intros Hs; simpl; [repeat constructor|].
  apply Sorted_inv in Hs as [Hs Hhd].
  destruct (cmp x y) eqn:E.
  1,2: repeat constructor; try done; unfold by_le; by rewrite E.
  constructor; [by apply IH|].
  destruct l as [|z l]; simpl in *.
  - constructor. by apply Hopp.
  - destruct (cmp x z); constructor; try (by apply Hopp); by inversion Hhd.
Qed.

Lemma sort_by_sorted l :
  (∀ a b, cmp a b = Gt → cmp b a ≠ Gt) → Sorted by_le (sort_by l).
Proof. intros Hopp. induction l; [constructor | by apply insert_by_sorted]. Qed.

(** Elements that compare equal keep their order. *)
Lemma sort_by_stable (P : A → Prop) `{∀ x, Decision (P x)} l :
  (∀ a b, P a → P b → cmp a b ≠ Gt) → filter P (sort_by l) = filter P l.
Proof.
  intros Heq. assert (∀ x l, filter P (insert_by x l) = filter P (x :: l)) as Hins.
  { intros x k. induction k as [|y k IH]; [done|]. simpl insert_by.
    destruct (cmp x y) eqn:E; try done.
    destruct (decide (P y)) as [Hy|Hy].
    - assert (¬ P x) as Hx by (intros Hx; by apply (Heq x y)).
      rewrite filter_cons_True, IH by done. rewrite !filter_cons_False by done.
      by rewrite filter_cons_True.
    - rewrite filter_cons_False, IH by done. rewrite !filter_cons.
      by destruct (decide (P x)), (decide (P y)). }
  induction l as [|x l IH]; [done|]. simpl sort_by. rewrite Hins, !filter_cons.
  by rewrite IH.
Qed.

End sort_by.

(** Sorting by a lawful comparison: the result depends only on the multiset. *)
Section sort_lawful.
Context {A : Type} `{LawfulCompare A}.

Lemma compare_gt_flip (a b : A) : compare a b = Gt → compare b a ≠ Gt.
Proof. rewrite (compare_opp a b). by destruct (compare a b). Qed.

Lemma sort_lawful_sorted (l : list A) : Sorted cmp_le (sort_by compare l).
Proof. apply (sort_by_sorted compare). apply compare_gt_flip. Qed.

Lemma sort_by_unique (l k : list A) : l ≡ₚ k → sort_by compare l = sort_by compare k.
Proof.
  intros Hp. apply (StronglySorted_unique cmp_le).
  - apply (Sorted_StronglySorted _), sort_lawful_sorted.
  - apply (Sorted_StronglySorted _), sort_lawful_sorted.
  - by rewrite !sort_by_perm.
Qed.

Lemma sort_by_fixed (l : list A) : Sorted cmp_le l → sort_by compare l = l.
Proof.
  intros Hs. apply (StronglySorted_unique cmp_le).
  - apply (Sorted_StronglySorted _), sort_lawful_sorted.
  - by apply (Sorted_StronglySorted _).
  - by rewrite sort_by_perm.
Qed.

(** [slices.Compact], and its use after a sort. *)
Context `{EqDecision A}.

Fixpoint Compact (l : list A) : list A :=
  match l with
  | x :: ((y :: _) as l') => if bool_decide (x = y) then Compact l' else x :: Compact l'
  | _ => l
  end.

Lemma Compact_cons a b l :
  Compact (a :: b :: l) = if bool_decide (a = b) then Compact (b :: l) else a :: Compact (b :: l).
Proof. done. Qed.

(** [Compact] keeps the elements, and on a sorted list leaves each one once. *)
Lemma elem_of_Compact l x : x ∈ Compact l ↔ x ∈ l.
Proof.
  induction l as [|a l IH]; [done|]. destruct l as [|b l]; [done|]. rewrite Compact_cons.
  case_bool_decide as Hab; rewrite ?elem_of_cons, IH, !elem_of_cons; [subst; tauto|tauto].
Qed.

Lemma Compact_sorted l : Sorted cmp_le l → StronglySorted (λ a b : A, compare a b = Lt) (Compact l).
Proof.
  intros Hs%Sorted_StronglySorted; [|apply _]. induction Hs as [|a l Hs IH Ha]; [constructor|].
  destruct l as [|b l]; [by repeat constructor|]. rewrite Compact_cons. case_bool_decide as Hab; [done|].
  constructor; [done|]. apply Forall_forall. intros x Hx.
  rewrite elem_of_Compact in Hx. inversion Ha as [|? ? Hb Ha']; subst.
  assert (compare a b = Lt) as Hlt.
  { unfold cmp_le in Hb. destruct (compare a b) eqn:E; try done. by apply compare_eq in E. }
  apply elem_of_cons in Hx as [->|Hx]; [done|].
  apply StronglySorted_inv in Hs as [_ Hbl]. rewrite Forall_forall in Hbl. specialize (Hbl x Hx).
  unfold cmp_le in Hbl. destruct (compare b x) eqn:E; [|by eapply compare_lt_trans|done].
  apply compare_eq in E. by subst.
Qed.

(** A strictly sorted list is determined by its elements. *)
Lemma strictly_sorted_unique (l k : list A) :
  StronglySorted (λ a b, compare a b = Lt) l → StronglySorted (λ a b, compare a b = Lt) k →
  (∀ x, x ∈ l ↔ x ∈ k) → l = k.
Proof.
  intros Hl. revert k. induction Hl as [|a l Hl IH Ha]; intros k Hk Heq.
  { destruct k as [|b k]; [done|]. pose proof (proj2 (Heq b) ltac:(by left)) as Hx. by apply elem_of_nil in Hx. }
  destruct Hk as [|b k Hk Hb]; [pose proof (proj1 (Heq a) ltac:(by left)) as Hx; by apply elem_of_nil in Hx|].
  rewrite Forall_forall in Ha, Hb.
  assert (a = b) as ->.
  { destruct (proj1 (elem_of_cons _ _ _) (proj1 (Heq a) ltac:(by left))) as [|Hak]; [done|].
    destruct (proj1 (elem_of_cons _ _ _) (proj2 (Heq b) ltac:(by left))) as [|Hbl]; [done|].
    specialize (Ha b Hbl). specialize (Hb a Hak). exfalso.
    by apply (compare_irrefl a), (compare_lt_trans a b a). }
  f_equal. apply IH; [done|]. intros x. split; intros Hx.
  - destruct (proj1 (elem_of_cons _ _ _) (proj1 (Heq x) ltac:(by right))) as [->|]; [|done].
    by destruct (compare_irrefl b); apply Ha.
  - destruct (proj1 (elem_of_cons _ _ _) (proj2 (Heq x) ltac:(by right))) as [->|]; [|done].
    by destruct (compare_irrefl b); apply Hb.
Qed.

Lemma sorted_distinct_unique (l k : list A) : (∀ x, x ∈ l ↔ x ∈ k) →
  Compact (sort_by compare l) = Compact (sort_by compare k).
Proof.
  intros Heq. apply strictly_sorted_unique; [apply Compact_sorted, sort_lawful_sorted.. |].
  intros x. by rewrite !elem_of_Compact, !elem_of_sort_by.
Qed.

Lemma elem_of_sorted_distinct (l : list A) x : x ∈ Compact (sort_by compare l) ↔ x ∈ l.
Proof. by rewrite elem_of_Compact, elem_of_sort_by. Qed.

(** Distinct elements are sorted strictly. *)
Lemma sort_by_strict (l : list A) : NoDup l → StronglySorted (λ a b, compare a b = Lt) (sort_by compare l).
Proof.
  intros Hn. assert (NoDup (sort_by compare l)) as Hd by (by rewrite sort_by_perm).
  pose proof (Sorted_StronglySorted _ _ (sort_lawful_sorted l)) as Hs.
  induction Hs as [|a k _ IH Ha]; [constructor|]. apply NoDup_cons in Hd as [Hni Hd].
  constructor; [by apply IH|]. apply Forall_forall. intros x Hx. rewrite Forall_forall in Ha.
  specialize (Ha x Hx). unfold cmp_le in Ha. destruct (compare a x) eqn:E; try done.
  apply compare_eq in E. by subst.
Qed.

End sort_lawful.

#[export] Hint Rewrite @elem_of_sort_by @length_sort_by : flate_rw.

(** ** Loops

    A [for] loop of the source is a step function that either continues with a
    new loop state ([inl]) or leaves the loop with a result ([inr]).  [loop] runs
    it on fuel; [loop_spec] is the total-correctness rule: an invariant, a
    measure that decreases, and enough fuel give the result and its property. *)

Section loop.
Context {S R : Type} (step : S → S + R).

Fixpoint loop (fuel : nat) (s : S) : option R :=
  match step s with
  | inr r => Some r
  | inl s' => match fuel with O => None | Datatypes.S fuel' => loop fuel' s' end
  end.

Lemma loop_spec (Inv : S → Prop) (mu : S → nat) (Post : R → Prop) (fuel : nat) (s : S) :
  (∀ s s', Inv s → step s = inl s' → Inv s' ∧ mu s' < mu s) →
  (∀ s r, Inv s → step s = inr r → Post r) →
  Inv s → mu s ≤ fuel →
  ∃ r, loop fuel s = Some r ∧ Post r.
Proof.
  intros Hstep Hend. revert s. induction fuel as [|fuel IH]; intros s HI Hmu; simpl.
  - destruct (step s) as [s'|r] eqn:E; [|eauto].
    destruct (Hstep _ _ HI E). lia.
  - destruct (step s) as [s'|r] eqn:E; [|eauto].
    destruct (Hstep _ _ HI E). apply IH; [done|lia].
Qed.

(** The result does not depend on the fuel. *)
Lemma loop_det f1 f2 s r1 r2 : loop f1 s = Some r1 → loop f2 s = Some r2 → r1 = r2.
Proof.
  revert f2 s. induction f1 as [|f1 IH]; intros [|f2] s; simpl;
    destruct (step s) as [s'|r]; try congruence. apply IH.
Qed.

End loop.

(** ** Finite sets and maps of sets *)

Lemma size_difference_push {A} `{Countable A} (x : A) (D s : gset A) :
  x ∈ D → x ∉ s → S (size (D ∖ ({[x]} ∪ s))) = size (D ∖ s).
Proof.
  intros HD Hs.
  assert (D ∖ s = {[x]} ∪ (D ∖ ({[x]} ∪ s))) as ->.
  { apply set_eq. intros y. destruct (decide (y = x)); set_solver. }
  rewrite (size_union {[x]} (D ∖ ({[x]} ∪ s))) by set_solver.
  by rewrite size_singleton.
Qed.


Section weigh.
Context {K V : Type} `{Countable K} (f : V → nat).

(** The sum of a weight over the values of a map. *)
Definition weigh (m : gmap K V) : nat := map_fold (λ _ v n, f v + n) 0 m.

Lemma weigh_delete (m : gmap K V) k v : m !! k = Some v → weigh m = f v + weigh (delete k m).
Proof.
  intros Hk. unfold weigh. apply (map_fold_delete_L (λ _ v n, f v + n) 0 k v m); [|done].
  intros. lia.
Qed.

(** The weight of the entries whose key is outside [S]. *)
Definition weigh_out (S : gset K) (m : gmap K V) : nat := weigh (filter (λ kv, kv.1 ∉ S) m).

Lemma weigh_out_push (S : gset K) (m : gmap K V) k :
  k ∉ S → weigh_out ({[k]} ∪ S) m + from_option f 0 (m !! k) = weigh_out S m.
Proof.
  intros Hk. unfold weigh_out.
  assert (filter (λ kv, kv.1 ∉ {[k]} ∪ S) m = delete k (filter (λ kv, kv.1 ∉ S) m)) as ->.
  { apply map_eq. intros i. apply option_eq. intros x.
    rewrite lookup_delete_Some, !map_lookup_filter_Some. simpl. set_solver. }
  destruct (m !! k) as [v|] eqn:E; cbn [from_option].
  - rewrite (weigh_delete (filter _ m) k v); [lia|]. by rewrite map_lookup_filter_Some.
  - rewrite delete_id; [lia|]. apply map_lookup_filter_None. by left.
Qed.

Lemma weigh_out_empty (m : gmap K V) : weigh_out ∅ m = weigh m.
Proof.
  unfold weigh_out. f_equal. apply map_filter_id. intros. apply not_elem_of_empty.
Qed.
End weigh.

Section weight.
Context {K A : Type} `{Countable K, Countable A}.

(** The number of (key, element) pairs, and of those whose key is outside [S]. *)
Definition weight (m : gmap K (gset A)) : nat := weigh size m.
Definition weight_out (S : gset K) (m : gmap K (gset A)) : nat := weigh_out size S m.

Lemma weight_out_push (S : gset K) (m : gmap K (gset A)) k :
  k ∉ S → weight_out ({[k]} ∪ S) m + size (default ∅ (m !! k)) = weight_out S m.
Proof.
  intros Hk. unfold weight_out. rewrite <-(weigh_out_push size S m k Hk). f_equal.
  destruct (m !! k); [done|]. apply (size_empty (C:=gset A)).
Qed.

Lemma weight_out_empty (m : gmap K (gset A)) : weight_out ∅ m = weight m.
Proof. apply weigh_out_empty. Qed.
End weight.

(** ** Machine integers *)

(** Go's [int] and [int64] wrap around; [uint64] is reduced modulo 2^64. *)
Definition int64 (z : Z) : Z := ((z + 2 ^ 63) mod 2 ^ 64 - 2 ^ 63)%Z.
Definition uint64 (z : Z) : Z := (z mod 2 ^ 64)%Z.
Definition is_int64 (z : Z) : Prop := (- 2 ^ 63 ≤ z < 2 ^ 63)%Z.

Lemma int64_id z : is_int64 z → int64 z = z.
Proof. unfold is_int64, int64. intros ?. rewrite Z.mod_small; lia. Qed.

Lemma int64_range z : is_int64 (int64 z).
Proof.
  unfold is_int64, int64. pose proof (Z.mod_pos_bound (z + 2 ^ 63) (2 ^ 64)). lia.
Qed.

(** Wrapping is compatible with the ring operations. *)
Lemma int64_sub_add z : is_int64 z → int64 (int64 (z + 1) - 1) = z.
Proof.
  intros Hz. rewrite <-(int64_id z) at 2 by done. unfold int64.
  f_equal. rewrite <-(Z.add_opp_r _ (2 ^ 63)).
  replace ((z + 1 + 2 ^ 63) mod 2 ^ 64 + - 2 ^ 63 - 1 + 2 ^ 63)%Z
    with ((z + 1 + 2 ^ 63) mod 2 ^ 64 + (-1))%Z by lia.
  rewrite Zplus_mod_idemp_l. f_equal. lia.
Qed.

Lemma int64_pred_inj a b : is_int64 a → is_int64 b → int64 (a - 1) = int64 (b - 1) → a = b.
Proof.
  assert (∀ z, is_int64 z → z = (- 2 ^ 63)%Z ∨ int64 (z - 1) = (z - 1)%Z) as Hp.
  { intros z Hz. destruct (decide (z = (- 2 ^ 63)%Z)); [by left|right].
    apply int64_id. unfold is_int64 in *. lia. }
  intros Ha Hb. destruct (Hp a Ha) as [->|Ea], (Hp b Hb) as [->|Eb]; try done.
  - rewrite Eb. change (int64 (- 2 ^ 63 - 1)) with (2 ^ 63 - 1)%Z. unfold is_int64 in *. lia.
  - rewrite Ea. change (int64 (- 2 ^ 63 - 1)) with (2 ^ 63 - 1)%Z. unfold is_int64 in *. lia.
  - rewrite Ea, Eb. lia.
Qed.

(** ** Strings *)

Lemma length_string_app s t : String.length (s +:+ t) = String.length s + String.length t.
Proof. induction s as [|a s IH]; simpl; [done|]. by rewrite <-IH. Qed.

Lemma string_app_inj_r s1 s2 t : s1 +:+ t = s2 +:+ t → s1 = s2.
Proof.
  revert s2. induction s1 as [|a s1 IH]; intros [|b s2]; simpl; intros He; try done.
  - apply (f_equal String.length) in He.
    simpl in He. rewrite !length_string_app in He. simpl in He. lia.
  - apply (f_equal String.length) in He.
    simpl in He. rewrite !length_string_app in He. simpl in He. lia.
  - injection He as -> He. f_equal. by apply IH.
Qed.

(** ** Decidable equality *)

Lemma not_ne {A} `{EqDecision A} (x y : A) : ¬ x ≠ y ↔ x = y.
Proof. split; [apply dec_stable|by intros -> ?]. Qed.

#[export] Hint Rewrite @not_ne : flate_rw.

(** ** Prefixes *)

Lemma prefix_snoc_inv {A} (l k : list A) x :
  l `prefix_of` k ++ [x] → l = k ++ [x] ∨ l `prefix_of` k.
Proof.
  intros [rest He]. destruct rest as [|y rest _] using rev_ind.
  - left. by rewrite app_nil_r in He.
  - right. rewrite app_assoc in He. apply app_inj_tail in He as [-> _]. by exists rest.
Qed.

(** ** Filters *)

Lemma filter_all {A} (P : A → Prop) `{∀ x, Decision (P x)} (l : list A) :
  Forall P l → filter P l = l.
Proof. induction 1 as [|x l Hx _ IH]; [done|]. by rewrite filter_cons_True, IH. Qed.

Lemma Sorted_mono {A} (R R' : A → A → Prop) l :
  (∀ a b, R a b → R' a b) → Sorted R l → Sorted R' l.
Proof.
  intros Hr. induction 1 as [|a l _ IH Hhd]; [constructor|]. constructor; [done|].
  destruct Hhd; constructor. auto.
Qed.

Lemma elem_of_concat_map {A B} (f : A → list B) (l : list A) b :
  b ∈ concat (map f l) ↔ ∃ a, a ∈ l ∧ b ∈ f a.
Proof.
  induction l as [|a l IH]; cbn [map concat].
  - split; [by intros ?%elem_of_nil|]. by intros (? & ?%elem_of_nil & _).
  - rewrite elem_of_app, IH. split.
    + intros [Hb|(a' & Ha & Hb)]; [exists a|exists a']; rewrite elem_of_cons; auto.
    + intros (a' & [->|Ha]%elem_of_cons & Hb); [by left|right; eauto].
Qed.
