(* ===== verification/Closure.v ===== *)
(** * Worklists

    Traversals of the source keep a set of what they have seen and a list of what is still
    to be expanded.  A turn takes one pending element, from either end, and adds its
    successors that are new.  The lemmas hold for any way of taking, so that stacks, queues
    and indexed loops share them. *)

From S2P Require Import Prelude.

Section worklist.
Context {K : Type} `{Countable K} (succ : K → list K).

(** [add]: an element that was not seen is seen and pending. *)
Definition push (st : gset K * list K) (x : K) : gset K * list K :=
  if decide (x ∈ st.1) then st else ({[x]} ∪ st.1, st.2 ++ [x]).

Definition push_all (st : gset K * list K) (l : list K) : gset K * list K := foldl push st l.

(** The successor relation. *)
Definition leads (x y : K) : Prop := y ∈ succ x.

(** Everything seen is reachable from the seeds, and what is no longer pending has its
    successors seen. *)
Record walked (U : gset K) (seeds : K → Prop) (seen : gset K) (pending : list K) : Prop := {
  w_seeds x : seeds x → x ∈ seen;
  w_pending x : x ∈ pending → x ∈ seen;
  w_bound : seen ⊆ U;
  w_closed x y : x ∈ seen → x ∉ pending → leads x y → y ∈ seen;
  w_reach x : x ∈ seen → ∃ s, seeds s ∧ rtc leads s x;
}.

Lemma push_all_spec seen work l :
  ∃ new, push_all (seen, work) l = (seen ∪ list_to_set l, work ++ new) ∧ (∀ x, x ∈ new ↔ x ∈ l ∧ x ∉ seen) ∧ NoDup new.
Proof.
  revert seen work. induction l as [| a l IH]; intros seen work.
  { exists []. cbn. split; [by rewrite app_nil_r, union_empty_r_L |]. split; [| constructor]. intros x. rewrite elem_of_nil. tauto. }
  cbn [push_all foldl]. unfold push at 2. cbn [fst snd]. destruct (decide (a ∈ seen)) as [Ha | Ha].
  - destruct (IH seen work) as (new & E & Hn & Hd). exists new. unfold push_all in E. rewrite E. split; [f_equal; set_solver |].
    split; [| done]. intros x. rewrite Hn, elem_of_cons. split; [tauto |]. intros [[-> | ?] ?]; [done | tauto].
  - destruct (IH ({[a]} ∪ seen) (work ++ [a])) as (new & E & Hn & Hd). exists (a :: new). unfold push_all in E. rewrite E.
    split; [rewrite <- app_assoc; f_equal; set_solver |]. split.
    + intros x. rewrite !elem_of_cons, Hn. destruct (decide (x = a)) as [-> | Hx]; set_solver.
    + apply NoDup_cons. split; [| done]. rewrite Hn. set_solver.
Qed.

Lemma push_all_seen st l : (push_all st l).1 = st.1 ∪ list_to_set l.
Proof. destruct st as [seen work]. by destruct (push_all_spec seen work l) as (new & -> & _). Qed.

(** One turn: [x] is taken and its successors are added after what remains. *)
Lemma walked_turn U seeds seen pending x rest seen' pending' :
  (∀ a, a ∈ U → list_to_set (succ a) ⊆ U) → walked U seeds seen pending → pending ≡ₚ x :: rest →
  push_all (seen, rest) (succ x) = (seen', pending') →
  walked U seeds seen' pending' ∧ size (U ∖ seen') + length pending' < size (U ∖ seen) + length pending.
Proof.
  intros HU Hw Hp E. destruct (push_all_spec seen rest (succ x)) as (new & E' & Hn & Hd). rewrite E in E'. injection E' as -> ->.
  assert (x ∈ seen) as Hx by (apply (w_pending _ _ _ _ Hw); rewrite Hp; by left).
  assert (list_to_set (succ x) ⊆ U) as HsU by (apply HU, (w_bound _ _ _ _ Hw), Hx).
  split; [split |].
  - intros y Hy. apply elem_of_union_l. by apply (w_seeds _ _ _ _ Hw).
  - intros y Hy. apply elem_of_app in Hy. destruct Hy as [Hy | Hy].
    + apply elem_of_union_l, (w_pending _ _ _ _ Hw). rewrite Hp. by right.
    + apply Hn in Hy. apply elem_of_union_r, elem_of_list_to_set. tauto.
  - pose proof (w_bound _ _ _ _ Hw). set_solver.
  - intros a b Ha Hna Hab. destruct (decide (a = x)) as [-> | Hax]; [apply elem_of_union_r, elem_of_list_to_set, Hab |].
    destruct (decide (a ∈ seen)) as [Has | Has].
    + apply elem_of_union_l, (w_closed _ _ _ _ Hw a b Has); [| done]. rewrite Hp, elem_of_cons. intros [? | ?]; [done |].
      apply Hna, elem_of_app. by left.
    + exfalso. apply Hna, elem_of_app. right. apply Hn. split; [| done]. apply elem_of_union in Ha. rewrite elem_of_list_to_set in Ha. tauto.
  - intros a Ha. apply elem_of_union in Ha. destruct Ha as [Ha | Ha]; [by apply (w_reach _ _ _ _ Hw) |].
    apply elem_of_list_to_set in Ha. destruct (w_reach _ _ _ _ Hw x Hx) as (s & Hs & Hr). exists s. split; [done |]. by eapply rtc_r.
  - rewrite (Permutation_length Hp), length_app. cbn [length].
    assert (size (U ∖ seen) = size (U ∖ (seen ∪ list_to_set (succ x))) + length new) as ->; [| lia].
    assert (U ∖ seen = (U ∖ (seen ∪ list_to_set (succ x))) ∪ list_to_set new) as ->.
    { apply set_eq. intros y. rewrite elem_of_union, !elem_of_difference, elem_of_union, !elem_of_list_to_set, Hn.
      destruct (decide (y ∈ succ x)) as [Hy |]; [| tauto]. split; [tauto |]. intros [? | [? ?]]; [tauto |]. split; [| done].
      by apply HsU, elem_of_list_to_set. }
    rewrite size_union, (size_list_to_set new Hd); [done |].
    apply elem_of_disjoint. intros y Hy1 Hy2. apply elem_of_list_to_set, Hn in Hy2. apply elem_of_difference in Hy1. set_solver.
Qed.

(** When nothing is pending, what was seen is what the seeds reach. *)
Lemma walked_end U seeds seen : walked U seeds seen [] → ∀ x, x ∈ seen ↔ ∃ s, seeds s ∧ rtc leads s x.
Proof.
  intros Hw x. split; [apply (w_reach _ _ _ _ Hw) |]. intros (s & Hs & Hr).
  pose proof (w_seeds _ _ _ _ Hw s Hs) as Hin. clear Hs. induction Hr as [| a b c Hab _ IH]; [done |].
  apply IH, (w_closed _ _ _ _ Hw a b Hin); [by apply not_elem_of_nil | done].
Qed.

Lemma walked_start U seen work : (∀ x, x ∈ seen ↔ x ∈ work) → seen ⊆ U → walked U (.∈ seen) seen work.
Proof.
  intros Heq HU. split; [done | intros x; by apply Heq | done | |].
  - intros x y Hx Hn. destruct Hn. by apply Heq.
  - intros x Hx. by exists x.
Qed.

(** *** A stack *)

Definition pop_step (st : gset K * list K) : gset K * list K + gset K :=
  match last st.2 with
  | None => inr st.1
  | Some x => inl (push_all (st.1, removelast st.2) (succ x))
  end.

Lemma pop_loop U seen work : (∀ a, a ∈ U → list_to_set (succ a) ⊆ U) → (∀ x, x ∈ seen ↔ x ∈ work) → seen ⊆ U →
  ∃ r, loop pop_step (size U + length work) (seen, work) = Some r ∧ ∀ x, x ∈ r ↔ ∃ s, s ∈ seen ∧ rtc leads s x.
Proof.
  intros HU Hs HsU.
  apply (loop_spec pop_step (λ st, walked U (.∈ seen) st.1 st.2) (λ st, size (U ∖ st.1) + length st.2)).
  - intros [s w] st Hw. unfold pop_step. cbn [fst snd]. destruct (last w) as [x |] eqn:El; [| done]. intros [= <-].
    destruct (push_all (s, removelast w) (succ x)) as [s' w'] eqn:E. apply (walked_turn _ _ _ _ x (removelast w) _ _ HU Hw); [| done].
    apply last_Some in El. destruct El as [l ->]. rewrite removelast_last. symmetry. apply Permutation_cons_append.
  - intros [s w] r Hw. unfold pop_step. cbn [fst snd] in *. destruct (last w) eqn:El; [done |]. intros [= <-].
    apply last_None in El. subst w. by eapply walked_end.
  - by apply walked_start.
  - cbn [fst snd]. pose proof (subseteq_size (U ∖ seen) U ltac:(set_solver)). lia.
Qed.

(** *** A queue *)

Definition queue_step (st : gset K * list K) : gset K * list K + gset K :=
  match st.2 with
  | [] => inr st.1
  | x :: rest => inl (push_all (st.1, rest) (succ x))
  end.

Lemma queue_loop (U : gset K) seen work fuel : (∀ a, a ∈ U → list_to_set (succ a) ⊆ U) → (∀ x, x ∈ seen ↔ x ∈ work) → seen ⊆ U → size (U ∖ seen) + length work ≤ fuel →
  ∃ r, loop queue_step fuel (seen, work) = Some r ∧ ∀ x, x ∈ r ↔ ∃ s, s ∈ seen ∧ rtc leads s x.
Proof.
  intros HU Hs HsU Hfuel.
  apply (loop_spec queue_step (λ st, walked U (.∈ seen) st.1 st.2) (λ st, size (U ∖ st.1) + length st.2)).
  - intros [s [| x rest]] st Hw; [done |]. intros [= <-]. cbn [fst snd] in *. destruct (push_all (s, rest) (succ x)) as [s' w'] eqn:E. by apply (walked_turn _ _ _ _ x rest _ _ HU Hw).
  - intros [s [| x rest]] r Hw; [| done]. intros [= <-]. by eapply walked_end.
  - by apply walked_start.
  - done.
Qed.

(** From a start that counts as seen only when it is found again. *)
Lemma queue_from (U : gset K) x fuel : (∀ a, a ∈ U → list_to_set (succ a) ⊆ U) → x ∈ U → size U + 1 ≤ fuel →
  ∃ r : gset K, loop queue_step fuel (∅, [x]) = Some r ∧ ∀ y, y ∈ r ↔ tc leads x y.
Proof.
  intros HU Hx Hfuel. destruct fuel as [| fuel]; [lia |]. cbn [loop]. unfold queue_step at 1. cbn [fst snd]. destruct (push_all_spec ∅ [] (succ x)) as (new & -> & Hn & Hd).
  rewrite union_empty_l_L, app_nil_l. destruct (queue_loop U (list_to_set (succ x)) new fuel HU) as (r & Hr & Hin).
  - intros y. rewrite elem_of_list_to_set, Hn. set_solver.
  - by apply HU.
  - assert (list_to_set (succ x) =@{gset K} list_to_set new) as -> by (apply set_eq; intros y; rewrite !elem_of_list_to_set, Hn; set_solver).
    assert (list_to_set new ⊆ U) as Hsub by (intros y Hy; apply (HU x Hx), elem_of_list_to_set; apply elem_of_list_to_set, Hn in Hy; tauto).
    pose proof (size_difference U (list_to_set new) Hsub) as Hsz. rewrite (size_list_to_set new Hd) in Hsz. pose proof (subseteq_size _ _ Hsub) as Hle. rewrite (size_list_to_set new Hd) in Hle. lia.
  - exists r. split; [done |]. intros y. rewrite Hin. setoid_rewrite elem_of_list_to_set. split.
    + intros (s & Hs & Hsy). apply (tc_rtc_r _ s); [by apply tc_once | done].
    + intros Ht; destruct Ht as [a b Hab | a b c Hab Hrest]; [by exists b | exists b; split; [done | by apply tc_rtc]].
Qed.

(** *** A list that an index runs through *)

Definition index_step (st : (gset K * list K) * nat) : (gset K * list K) * nat + gset K * list K :=
  match st.1.2 !! st.2 with
  | None => inr st.1
  | Some x => inl (push_all st.1 (succ x), S st.2)
  end.

Lemma index_loop U seen work : (∀ a, a ∈ U → list_to_set (succ a) ⊆ U) → (∀ x, x ∈ seen ↔ x ∈ work) → seen ⊆ U →
  ∃ r, loop index_step (size U + length work) ((seen, work), 0) = Some r ∧
    (∀ x, x ∈ r.1 ↔ ∃ s, s ∈ seen ∧ rtc leads s x) ∧ (∀ x, x ∈ r.1 ↔ x ∈ r.2).
Proof.
  intros HU Hs HsU.
  apply (loop_spec index_step (λ st, walked U (.∈ seen) st.1.1 (drop st.2 st.1.2) ∧ ∀ x, x ∈ st.1.1 ↔ x ∈ st.1.2)
    (λ st, size (U ∖ st.1.1) + length (drop st.2 st.1.2)) (λ r, (∀ x, x ∈ r.1 ↔ ∃ s, s ∈ seen ∧ rtc leads s x) ∧ (∀ x, x ∈ r.1 ↔ x ∈ r.2))).
  - intros [[s w] i] st [Hw Hin]. unfold index_step. cbn [fst snd] in *. destruct (w !! i) as [x |] eqn:El; [| done]. intros [= <-].
    pose proof (drop_S w x i El) as Hd. destruct (push_all_spec s w (succ x)) as (new & E & Hn & _).
    destruct (push_all_spec s (drop (S i) w) (succ x)) as (new' & E' & _).
    assert (push_all (s, drop (S i) w) (succ x) = (s ∪ list_to_set (succ x), drop (S i) (w ++ new))) as E2.
    { apply lookup_lt_Some in El. rewrite drop_app_le by lia. clear -E. revert E. generalize (drop (S i) w) as d. intros d E.
      assert (∀ l (s : gset K) w d, ∃ new, push_all (s, w) l = (s ∪ list_to_set l, w ++ new) ∧ push_all (s, d) l = (s ∪ list_to_set l, d ++ new)) as Hsame.
      { clear. induction l as [| a l IH]; intros s w d; [exists []; cbn; rewrite union_empty_r_L, !app_nil_r; by split |].
        cbn [push_all foldl]. unfold push. cbn [fst snd]. destruct (decide (a ∈ s)).
        - destruct (IH s w d) as (new & H1 & H2). exists new. unfold push_all in H1, H2. unfold push in H1, H2. rewrite H1, H2. split; f_equal; set_solver.
        - destruct (IH ({[a]} ∪ s) (w ++ [a]) (d ++ [a])) as (new & H1 & H2). exists (a :: new). unfold push_all in H1, H2. unfold push in H1, H2.
          rewrite H1, H2, <- !app_assoc. split; f_equal; set_solver. }
      destruct (Hsame (succ x) s w d) as (n' & H1 & H2). rewrite E in H1. injection H1 as H1. apply app_inv_head in H1. by subst n'. }
    rewrite E. cbn [fst snd]. destruct (walked_turn _ _ _ _ x (drop (S i) w) _ _ HU Hw ltac:(by rewrite Hd) E2) as [H1 H2].
    split; [split; [done |] | done]. intros y. rewrite elem_of_union, elem_of_list_to_set, elem_of_app, Hin, Hn. rewrite Hin.
    destruct (decide (y ∈ w)); tauto.
  - intros [[s w] i] r [Hw Hin]. unfold index_step. cbn [fst snd] in *. destruct (w !! i) eqn:El; [done |]. intros [= <-].
    apply lookup_ge_None in El. rewrite drop_ge in Hw by done. split; [by eapply walked_end | done].
  - cbn [fst snd]. rewrite drop_0. split; [by apply walked_start | done].
  - cbn [fst snd]. rewrite drop_0. pose proof (subseteq_size (U ∖ seen) U ltac:(set_solver)). lia.
Qed.

End worklist.
