(* ===== verification/Partition.v ===== *)
(** * The partition of entry roots (pkg/discovery/partition.go)

    The packages that could be entries pin files of the working tree, which other packages
    may lie in.  An entry is taken that no other package owns but for those it owns itself;
    it and what it pins are no longer pending, until nothing is. *)

From S2P Require Import Prelude Closure.

(** [entryRoot], as far as its partition goes. *)
Record entryRoot {C : Type} := mkRoot { Path : string; pinned : C }.
Arguments entryRoot : clear implicits.
Arguments mkRoot {C}.

Section partition.
Context {C : Type} (claimed : entryRoot C → C → bool).

(** The roots whose pinned claims claim the root at an index. *)
Definition claimants (roots : list (entryRoot C)) (current : nat) : list nat :=
  List.filter (λ j, match roots !! current, roots !! j with Some r, Some o => claimed r o.(pinned) | _, _ => false end) (seq 0 (length roots)).

(** A row of [pinnedRootOwners]: the indices marked in it. *)
Definition row (roots : list (entryRoot C)) (i : nat) : option (gset nat) := loop (queue_step (claimants roots)) (length roots + 1) (∅, [i]).

Definition pinnedRootOwners (roots : list (entryRoot C)) : option (list (gset nat)) := mapM (row roots) (seq 0 (length roots)).

(** Whether every owner of an index is owned by it. *)
Definition independent (owners : list (gset nat)) (i : nat) : bool :=
  forallb (λ j, negb (bool_decide (j ∈ default ∅ (owners !! i)) && negb (bool_decide (i ∈ default ∅ (owners !! j))))) (seq 0 (length owners)).

(** The index that a turn of [unpinnedRoots] selects. *)
Definition selected (owners : list (gset nat)) : nat := default 0 (List.find (independent owners) (seq 0 (length owners))).

(** The loop of [unpinnedRoots]; [None] is an index out of range or a lack of fuel. *)
Fixpoint unpinned_loop (fuel : nat) (pending : list (entryRoot C)) : option (list (entryRoot C)) :=
  match pending, fuel with
  | [], _ => Some []
  | _, O => None
  | _, S fuel =>
      owners ← pinnedRootOwners pending; root ← pending !! selected owners;
      roots ← unpinned_loop fuel (List.filter (λ candidate, negb (bool_decide (candidate.(Path) = root.(Path)) || claimed candidate root.(pinned))) pending);
      Some (root :: roots)
  end.

(** [unpinnedRoots].  The roots are packages, one per path, so sorting them leaves one order. *)
Definition unpinnedRoots (pending : list (entryRoot C)) : option (list (entryRoot C)) := unpinned_loop (length pending) (sort_by (λ a b, compare a.(Path) b.(Path)) pending).
End partition.

Section partitioning.
Context {C : Type} (claimed : entryRoot C → C → bool).
Implicit Types (roots pending : list (entryRoot C)) (r o : entryRoot C).

(** A root of a list claims another of it. *)
Definition claims roots (r o : entryRoot C) : Prop := r ∈ roots ∧ o ∈ roots ∧ claimed r o.(pinned) = true.

(** [o] owns [r]: through the roots of the list, its claims reach it. *)
Definition owns roots (o r : entryRoot C) : Prop := tc (claims roots) r o.

Lemma elem_of_filter_bool {A} (f : A → bool) (l : list A) x : x ∈ List.filter f l ↔ x ∈ l ∧ f x = true.
Proof. rewrite !list_elem_of_In. apply List.filter_In. Qed.

Lemma claimants_spec roots i j : j ∈ claimants claimed roots i ↔ ∃ r o, roots !! i = Some r ∧ roots !! j = Some o ∧ claimed r o.(pinned) = true.
Proof.
  unfold claimants. rewrite elem_of_filter_bool, elem_of_seq. split.
  - intros [_ Hc]. destruct (roots !! i) as [r |]; [| done]. destruct (roots !! j) as [o |]; [| done]. by exists r, o.
  - intros (r & o & Hi & Hj & Hc). rewrite Hi, Hj. split; [| done]. apply lookup_lt_Some in Hj. lia.
Qed.

Lemma owns_index roots i j r o : roots !! i = Some r → roots !! j = Some o → tc (leads (claimants claimed roots)) i j ↔ owns roots o r.
Proof.
  intros Hi Hj. split.
  - intros Ht. revert r Hi. induction Ht as [a b Hab | a b c Hab _ IH]; intros r Hi; apply claimants_spec in Hab as (x & y & Hx & Hy & Hc); simplify_eq.
    + apply tc_once. split; [by eapply list_elem_of_lookup_2 |]. split; [by eapply list_elem_of_lookup_2 | done].
    + eapply tc_l; [| by apply IH]. split; [by eapply list_elem_of_lookup_2 |]. split; [by eapply list_elem_of_lookup_2 | done].
  - intros Ht. unfold owns in Ht. revert i Hi. induction Ht as [a b (Ha & Hb & Hc) | a b c (Ha & Hb & Hc) _ IH]; intros i Hi.
    + apply tc_once, claimants_spec. by exists a, b.
    + apply list_elem_of_lookup in Hb as [k Hk]. eapply tc_l; [apply claimants_spec; exists a, b; done |]. by apply IH.
Qed.

(** The rows are the owners. *)
Lemma pinnedRootOwners_spec roots : ∃ owners, pinnedRootOwners claimed roots = Some owners ∧ length owners = length roots ∧
  ∀ i j, j ∈ default ∅ (owners !! i) ↔ ∃ r o, roots !! i = Some r ∧ roots !! j = Some o ∧ owns roots o r.
Proof.
  set (U := list_to_set (seq 0 (length roots)) : gset nat).
  assert (∀ i, i < length roots → ∃ s, row claimed roots i = Some s ∧ ∀ j, j ∈ s ↔ tc (leads (claimants claimed roots)) i j) as Hrow.
  { intros i Hi. apply (queue_from (claimants claimed roots) U i).
    - intros a _ j Hj. apply elem_of_list_to_set, claimants_spec in Hj as (? & ? & _ & Hj & _). apply elem_of_list_to_set, elem_of_seq. apply lookup_lt_Some in Hj. lia.
    - apply elem_of_list_to_set, elem_of_seq. lia.
    - unfold U. rewrite size_list_to_set by apply NoDup_seq. rewrite length_seq. lia. }
  assert (∀ l, (∀ i, i ∈ l → i < length roots) → ∃ owners, mapM (row claimed roots) l = Some owners ∧ Forall2 (λ i s, row claimed roots i = Some s) l owners) as Hmap.
  { intros l. induction l as [| i l IH]; intros Hl; [exists []; by split |]. destruct (Hrow i (Hl i ltac:(by left))) as (s & Hs & _). destruct IH as (owners & Ho & Hf); [intros j Hj; apply Hl; by right |].
    exists (s :: owners). split; [cbn; by rewrite Hs, Ho | by constructor]. }
  destruct (Hmap (seq 0 (length roots))) as (owners & Ho & Hf); [intros i Hi; apply elem_of_seq in Hi; lia |]. exists owners. split; [done |].
  pose proof (Forall2_length _ _ _ Hf) as Hlen. rewrite length_seq in Hlen. split; [done |]. intros i j.
  destruct (decide (i < length roots)) as [Hlt | Hge].
  2: { rewrite lookup_ge_None_2 by lia. cbn [default]. split; [by intros ?%elem_of_empty |]. intros (r & o & Hi & _). apply lookup_lt_Some in Hi. lia. }
  destruct (Hrow i Hlt) as (s & Hs & Hin). rewrite Forall2_lookup in Hf. specialize (Hf i). rewrite lookup_seq_lt in Hf by done.
  inversion Hf as [a b Hab E1 E2 |]; subst. cbn in Hab. rewrite Hab in Hs. injection Hs as ->. cbn [default]. rewrite Hin. destruct (lookup_lt_is_Some_2 roots i Hlt) as [r Hi]. split.
  - intros Ht. assert (∃ o, roots !! j = Some o) as [o Hjo]. { clear -Ht. induction Ht as [x y Hxy | x y z _ _ IH]; [apply claimants_spec in Hxy as (? & o & _ & ? & _); by exists o | done]. }
    exists r, o. split; [done |]. split; [done |]. by apply (owns_index roots i j).
  - intros (r' & o & Hi' & Hj & Ho'). by apply (owns_index roots i j r' o).
Qed.

(** In a finite list some root owns all of its owners, and the first is selected. *)
Lemma selected_spec roots owners : roots ≠ [] → pinnedRootOwners claimed roots = Some owners →
  ∃ r, roots !! selected owners = Some r ∧ ∀ o, o ∈ roots → owns roots o r → owns roots r o.
Proof.
  intros Hne Hown. destruct (pinnedRootOwners_spec roots) as (owners' & Hown' & Hlen & Hspec). rewrite Hown in Hown'. injection Hown' as <-.
  set (R := λ j i : nat, j ∈ default ∅ (owners !! i)). assert (Transitive R) as Ht.
  { intros i j k (r & o & Hi & Hj & Ho)%Hspec (r' & o' & Hi' & Hj' & Ho')%Hspec. simplify_eq. apply Hspec. exists r', o. split; [done |]. split; [done |]. unfold owns in *. by eapply tc_trans. }
  assert (∀ i, independent owners i = true ↔ ∀ j, j < length roots → R j i → R i j) as Hind.
  { intros i. unfold independent. rewrite forallb_forall. setoid_rewrite <- list_elem_of_In. setoid_rewrite elem_of_seq. rewrite Hlen. split; intros Hj j Hlt.
    - specialize (Hj j ltac:(lia)). intros HR. unfold R in *. rewrite (bool_decide_true (j ∈ default ∅ (owners !! i))) in Hj by done. cbn in Hj. rewrite negb_involutive in Hj. by apply bool_decide_eq_true in Hj.
    - unfold R in Hj. destruct (bool_decide_reflect (j ∈ default ∅ (owners !! i))); [| done]. cbn. rewrite negb_involutive. apply bool_decide_eq_true. apply Hj; [lia | done]. }
  unfold selected. rewrite Hlen. destruct (List.find (independent owners) (seq 0 (length roots))) as [i |] eqn:Ef.
  - apply List.find_some in Ef as [Hin Hi]. apply list_elem_of_In, elem_of_seq in Hin. cbn [default]. destruct (lookup_lt_is_Some_2 roots i ltac:(lia)) as [r Hr]. exists r. split; [done |].
    intros o [j Hj]%list_elem_of_lookup Ho. assert (R i j) as HR by (apply (proj1 (Hind i) Hi); [by eapply lookup_lt_Some | apply Hspec; by exists r, o]). apply Hspec in HR as (? & ? & ? & ? & ?). by simplify_eq.
  - exfalso. assert (∀ i j, Decision (R i j)) as Hdec by (intros i j; unfold R; apply _). destruct (minimal_exists_elem_of R (list_to_set (seq 0 (length roots)) : gset nat)) as (i & Hi & Hmin).
    + intros He. destruct roots as [| r rs]; [done |]. apply (elem_of_empty (C := gset nat) 0). rewrite <- He. apply elem_of_list_to_set, elem_of_seq. cbn. lia.
    + apply elem_of_list_to_set in Hi. pose proof (List.find_none _ _ Ef i (proj1 (list_elem_of_In _ _) Hi)) as Hn. assert (independent owners i = true) as Ht'; [| congruence].
      apply Hind. intros j Hj HR. apply Hmin; [apply elem_of_list_to_set, elem_of_seq; lia | done].
Qed.

(** *** The loop *)

(** A root is taken care of by one that was selected. *)
Definition covered (root candidate : entryRoot C) : Prop := candidate.(Path) = root.(Path) ∨ claimed candidate root.(pinned) = true.

(** What a partition of pending roots is: each selected root is pending still, owned by no
    pending root that it does not own, and takes away what it covers. *)
Inductive partitions : list (entryRoot C) → list (entryRoot C) → Prop :=
  | partition_done : partitions [] []
  | partition_turn pending root rest roots : root ∈ pending → (∀ o, o ∈ pending → owns pending o root → owns pending root o) →
      (∀ c, c ∈ rest ↔ c ∈ pending ∧ ¬ covered root c) → rest `sublist_of` pending → partitions rest roots → partitions pending (root :: roots).

Lemma filter_sublist {A} (f : A → bool) (l : list A) : List.filter f l `sublist_of` l.
Proof. induction l as [| x l IH]; [done |]. cbn. destruct (f x); [by apply sublist_skip | by apply sublist_cons]. Qed.

Lemma filter_shorter {A} (f : A → bool) (l : list A) x : x ∈ l → f x = false → length (List.filter f l) < length l.
Proof.
  induction l as [| y l IH]; [by intros ?%elem_of_nil |]. pose proof (sublist_length _ _ (filter_sublist f l)) as Hle. intros [-> | Hx]%elem_of_cons Hf; cbn; [rewrite Hf; lia |]. specialize (IH Hx Hf). destruct (f y); cbn; lia.
Qed.

Lemma unpinned_loop_spec fuel pending : length pending ≤ fuel → ∃ roots, unpinned_loop claimed fuel pending = Some roots ∧ partitions pending roots.
Proof.
  revert pending. induction fuel as [| fuel IH]; intros pending Hlen; (destruct pending as [| p ps] eqn:Ep; [exists []; split; [done | constructor] |]); [cbn in Hlen; lia |].
  rewrite <- Ep in *. assert (pending ≠ []) as Hne by (by subst). destruct (pinnedRootOwners_spec pending) as (owners & Ho & _). destruct (selected_spec pending owners Hne Ho) as (root & Hr & Hind).
  assert (unpinned_loop claimed (S fuel) pending = owners ← pinnedRootOwners claimed pending; root ← pending !! selected owners;
      roots ← unpinned_loop claimed fuel (List.filter (λ candidate, negb (bool_decide (candidate.(Path) = root.(Path)) || claimed candidate root.(pinned))) pending); Some (root :: roots)) as -> by (by subst).
  rewrite Ho. cbn [mbind option_bind]. rewrite Hr. cbn [mbind option_bind]. set (rest := List.filter _ pending). assert (root ∈ pending) as Hin by (by eapply list_elem_of_lookup_2).
  assert (∀ c, c ∈ rest ↔ c ∈ pending ∧ ¬ covered root c) as Hrest.
  { intros c. unfold rest, covered. rewrite elem_of_filter_bool, negb_true_iff, orb_false_iff, bool_decide_eq_false. destruct (claimed c (pinned root)); naive_solver. }
  assert (length rest < length pending) as Hlt.
  { apply (filter_shorter _ _ root Hin). by rewrite bool_decide_true. }
  destruct (IH rest ltac:(lia)) as (roots & -> & Hp). exists (root :: roots). split; [done |]. eapply partition_turn; try done. apply filter_sublist.
Qed.

Lemma partitions_covered pending roots : partitions pending roots → (∀ r, r ∈ roots → r ∈ pending) ∧ (∀ c, c ∈ pending → ∃ r, r ∈ roots ∧ covered r c) ∧
  ∀ i j a b, i < j → roots !! i = Some a → roots !! j = Some b → ¬ covered a b.
Proof.
  induction 1 as [| pending root rest roots Hin Hind Hrest Hsub Hp (IH1 & IH2 & IH3)].
  { split_and!; [done | by intros c ?%elem_of_nil | by intros i j a b _ ?]. }
  split_and!.
  - intros r [-> | Hr]%elem_of_cons; [done |]. apply IH1, Hrest in Hr. tauto.
  - intros c Hc. assert (Decision (covered root c)) as Hd by (unfold covered; apply _). destruct (decide (covered root c)) as [Hcov | Hncov].
    + exists root. split; [by left | done].
    + destruct (IH2 c) as (r & Hr & Hcov'); [by apply Hrest |]. exists r. split; [by right | done].
  - intros i j a b Hij Ha Hb. destruct j as [| j]; [lia |]. cbn in Hb. destruct i as [| i]; cbn in Ha.
    + injection Ha as <-. apply list_elem_of_lookup_2 in Hb. apply IH1, Hrest in Hb. tauto.
    + apply (IH3 i j); [lia | done | done].
Qed.
End partitioning.

(** Claim C26: the entry roots of a working tree end up partitioned, whatever pins what: from
    those in the order of their paths, each one selected is owned, through what the pending
    roots pin, by no pending root that it does not own in turn, so the fallback to the first
    one is never needed; every root is covered by a selected one, which has its path or pins
    it, and no selected root is covered by one selected before it. *)
Theorem unpinnedRoots_exact {C} claimed (pending : list (entryRoot C)) : ∃ roots,
  unpinnedRoots claimed pending = Some roots ∧ partitions claimed (sort_by (λ a b, compare a.(Path) b.(Path)) pending) roots ∧
  (∀ r, r ∈ roots → r ∈ pending) ∧ (∀ c, c ∈ pending → ∃ r, r ∈ roots ∧ covered claimed r c) ∧
  ∀ i j a b, i < j → roots !! i = Some a → roots !! j = Some b → ¬ covered claimed a b.
Proof.
  destruct (unpinned_loop_spec claimed (length pending) (sort_by (λ a b, compare a.(Path) b.(Path)) pending)) as (roots & He & Hp); [by rewrite length_sort_by |].
  exists roots. split; [done |]. split; [done |]. destruct (partitions_covered claimed _ _ Hp) as (H1 & H2 & H3). split_and!; [| | done].
  - intros r Hr. apply H1 in Hr. by rewrite elem_of_sort_by in Hr.
  - intros c Hc. apply H2. by rewrite elem_of_sort_by.
Qed.

(** Two packages that pin each other, one they pin, and one that pins them all. *)
Section example_roots.
Let claimed (r : entryRoot (list string)) (claims : list string) : bool := bool_decide (r.(Path) ∈ claims).

Example pinned_roots : map Path <$> unpinnedRoots claimed
    [mkRoot "web" []; mkRoot "b" ["a"; "web"]; mkRoot "a" ["b"]; mkRoot "other" []; mkRoot "z" ["a"; "other"]] = Some ["z"; "b"].
Proof. vm_compute. reflexivity. Qed.
End example_roots.
