(* ===== verification/GoPath.v ===== *)
(** * Slash paths of the Go standard library

    The string functions of packages path, io/fs and strings that the program's
    path code calls, on the components of a slash path: [Split]/[Join] on "/",
    [Cut], [Clean], [Dir], [Base], [IsAbs] and [fs.ValidPath]. *)

From S2P Require Import Prelude.
From Stdlib Require Import Ascii.

Definition slash : ascii := ascii_of_nat 47.

(** [strings.Cut(s, "/")]: the part before the first slash, the rest, found. *)
Fixpoint Cut (s : string) : string * string * bool :=
  match s with
  | "" => ("", "", false)
  | String c s =>
      if bool_decide (c = slash) then ("", s, true)
      else let '(part, rest, found) := Cut s in (String c part, rest, found)
  end.

(** [strings.Split(s, "/")]. *)
Fixpoint Split (s : string) : list string :=
  match s with
  | "" => [""]
  | String c s =>
      if bool_decide (c = slash) then "" :: Split s
      else match Split s with p :: ps => String c p :: ps | [] => [String c ""] end
  end.

(** [strings.Join(ps, "/")]. *)
Fixpoint Join (ps : list string) : string :=
  match ps with
  | [] => ""
  | [p] => p
  | p :: ps => p +:+ String slash (Join ps)
  end.

Definition IsAbs (s : string) : bool :=
  match s with String c _ => bool_decide (c = slash) | "" => false end.

(** [strings.HasPrefix], [TrimPrefix] and [ContainsRune(s, 0)]. *)
Definition HasPrefix (s p : string) : bool := String.prefix p s.
Definition TrimPrefix (s p : string) : string :=
  if HasPrefix s p then String.substring (String.length p) (String.length s) s else s.
Fixpoint contains_nul (s : string) : bool :=
  match s with "" => false | String c s => bool_decide (c = zero) || contains_nul s end.

(** [path.Clean], on components: empty and dot components vanish, a dot-dot pops
    the one before it, or is dropped at the root, or is kept. *)
Fixpoint clean_parts (rooted : bool) (ps out : list string) : list string :=
  match ps with
  | [] => out
  | p :: ps =>
      if bool_decide (p = "") || bool_decide (p = ".") then clean_parts rooted ps out
      else if bool_decide (p = "..") then
        match last out with
        | Some q => if bool_decide (q = "..") then clean_parts rooted ps (out ++ [".."])
                    else clean_parts rooted ps (removelast out)
        | None => clean_parts rooted ps (if rooted then out else out ++ [".."])
        end
      else clean_parts rooted ps (out ++ [p])
  end.

Definition Clean (s : string) : string :=
  let rooted := IsAbs s in
  let body := Join (clean_parts rooted (Split s) []) in
  if rooted then String slash body else if bool_decide (body = "") then "." else body.

(** [path.Dir]: the cleaned text up to and including the last slash. *)
Definition Dir (s : string) : string :=
  match Split s with
  | [] | [_] => "."
  | ps => Clean (Join (removelast ps) +:+ String slash "")
  end.

(** [path.Base] of a path without trailing slashes. *)
Fixpoint trim_slashes (ps : list string) : list string :=
  match ps with
  | [] => []
  | p :: ps => match trim_slashes ps with
               | [] => if bool_decide (p = "") then [] else [p]
               | ps' => p :: ps'
               end
  end.

Definition Base (s : string) : string :=
  if bool_decide (s = "") then "."
  else match last (trim_slashes (Split s)) with None => String slash "" | Some b => b end.

(** [utf8.ValidString]. *)
Definition cont (c : ascii) : bool := let n := nat_of_ascii c in (128 <=? n) && (n <=? 191).
Definition within (lo hi : nat) (c : ascii) : bool :=
  let n := nat_of_ascii c in (lo <=? n) && (n <=? hi).

Fixpoint valid_utf8 (s : string) : bool :=
  match s with
  | "" => true
  | String c s =>
      if within 0 127 c then valid_utf8 s
      else match s with
           | "" => false
           | String c1 s =>
               if within 194 223 c then cont c1 && valid_utf8 s
               else match s with
                    | "" => false
                    | String c2 s =>
                        if within 224 239 c
                        then (if within 224 224 c then within 160 191 c1
                              else if within 237 237 c then within 128 159 c1 else cont c1) &&
                             cont c2 && valid_utf8 s
                        else match s with
                             | "" => false
                             | String c3 s =>
                                 within 240 244 c &&
                                 (if within 240 240 c then within 144 191 c1
                                  else if within 244 244 c then within 128 143 c1 else cont c1) &&
                                 cont c2 && cont c3 && valid_utf8 s
                             end
                    end
           end
  end.

Definition valid_part (p : string) : bool :=
  bool_decide (p ≠ "") && bool_decide (p ≠ ".") && bool_decide (p ≠ "..").

(** [fs.ValidPath]. *)
Definition ValidPath (s : string) : bool :=
  valid_utf8 s && (bool_decide (s = ".") || forallb valid_part (Split s)).

(** ** Components *)

Fixpoint no_slash (p : string) : Prop :=
  match p with "" => True | String c p => c ≠ slash ∧ no_slash p end.

Lemma Split_nonempty s : Split s ≠ [].
Proof. destruct s as [|c s]; simpl; [done|]. case_bool_decide; [done|]. by destruct (Split s). Qed.

Lemma Split_no_slash s : Forall no_slash (Split s).
Proof.
  induction s as [|c s IH]; simpl; [by constructor|].
  case_bool_decide; [by constructor|]. destruct (Split s) as [|p ps]; [by repeat constructor|].
  inversion IH; subst. by constructor.
Qed.

Lemma Join_cons p ps : ps ≠ [] → Join (p :: ps) = p +:+ String slash (Join ps).
Proof. by destruct ps. Qed.

Lemma Join_Split s : Join (Split s) = s.
Proof.
  induction s as [|c s IH]; simpl; [done|]. case_bool_decide as Hc.
  - rewrite Join_cons by apply Split_nonempty. simpl. by rewrite IH, Hc.
  - pose proof (Split_nonempty s). destruct (Split s) as [|p [|q ps]]; [done| |];
      simpl in *; by rewrite <-IH.
Qed.

Lemma Split_part p : no_slash p → Split p = [p].
Proof.
  induction p as [|c p IH]; simpl; [done|]. intros [Hc Hp].
  rewrite bool_decide_eq_false_2 by done. by rewrite IH.
Qed.

Lemma Split_app p s : no_slash p → Split (p +:+ String slash s) = p :: Split s.
Proof.
  induction p as [|c p IH]; [done|]. intros [Hc Hp].
  change (String c p +:+ String slash s) with (String c (p +:+ String slash s)).
  cbn [Split]. rewrite bool_decide_eq_false_2 by done. by rewrite IH.
Qed.

Lemma Split_Join ps : ps ≠ [] → Forall no_slash ps → Split (Join ps) = ps.
Proof.
  induction ps as [|p ps IH]; [done|]. intros _ Hf. apply Forall_cons in Hf as [Hp Hps].
  destruct ps as [|q ps]; [by apply Split_part|].
  rewrite Join_cons, Split_app by done. by rewrite IH.
Qed.

(** [Cut] peels the first component. *)
Lemma Cut_spec s :
  match Split s with
  | p :: ps => Cut s = (p, Join ps, bool_decide (ps ≠ []))
  | [] => False
  end.
Proof.
  induction s as [|c s IH]; simpl; [done|]. case_bool_decide as Hc.
  - rewrite Join_Split. rewrite bool_decide_eq_true_2; [done|]. apply Split_nonempty.
  - destruct (Split s) as [|p ps]; [done|]. by rewrite IH.
Qed.

Lemma Join_inj ps qs :
  ps ≠ [] → qs ≠ [] → Forall no_slash ps → Forall no_slash qs → Join ps = Join qs → ps = qs.
Proof. intros ? ? ? ? E. by rewrite <-(Split_Join ps), E, Split_Join. Qed.

(** ** Valid paths *)

(** The components of a valid path; the root is the empty list. *)
Definition parts_ok (ps : list string) : Prop := Forall (λ p, valid_part p = true ∧ no_slash p) ps.

(** The path of a component list. *)
Definition path_of (ps : list string) : string := match ps with [] => "." | _ => Join ps end.

Lemma valid_part_spec p : valid_part p = true ↔ p ≠ "" ∧ p ≠ "." ∧ p ≠ "..".
Proof. unfold valid_part. rewrite !andb_true_iff, !bool_decide_eq_true. tauto. Qed.

Lemma parts_no_slash ps : parts_ok ps → Forall no_slash ps.
Proof. intros Hp. eapply Forall_impl; [exact Hp|]. by intros ? [_ ?]. Qed.

Lemma parts_ok_app ps qs : parts_ok (ps ++ qs) ↔ parts_ok ps ∧ parts_ok qs.
Proof. apply Forall_app. Qed.

Lemma path_of_dot ps : parts_ok ps → path_of ps = "." → ps = [].
Proof.
  intros Hp. destruct ps as [|p [|q ps]]; [done| |].
  - simpl. intros ->. inversion Hp as [|? ? [Hv _]]; subst.
    by apply valid_part_spec in Hv as (_ & Hv & _).
  - unfold path_of. rewrite Join_cons by done. intros He. exfalso.
    inversion Hp as [|? ? [Hv Hs] _]; subst. apply valid_part_spec in Hv as (Hv & _).
    apply (f_equal String.length) in He. rewrite length_string_app in He.
    destruct p as [|c p]; [done|]. simpl in He. lia.
Qed.

Lemma path_of_inj ps qs : parts_ok ps → parts_ok qs → path_of ps = path_of qs → ps = qs.
Proof.
  intros Hp Hq He. destruct ps as [|p ps].
  { symmetry in He |- *. by apply path_of_dot in He. }
  destruct qs as [|q qs]; [by apply path_of_dot in He|].
  apply Join_inj; try done; by apply parts_no_slash.
Qed.

Lemma Split_path_of ps : parts_ok ps → ps ≠ [] → Split (path_of ps) = ps.
Proof. destruct ps; [done|]. intros Hp _. apply Split_Join; [done|by apply parts_no_slash]. Qed.

Lemma ValidPath_parts s : ValidPath s = true → ∃ ps, parts_ok ps ∧ s = path_of ps.
Proof.
  unfold ValidPath. rewrite andb_true_iff, orb_true_iff, bool_decide_eq_true, forallb_forall.
  intros [_ [->|Hv]]; [exists []; split; [constructor|done]|].
  exists (Split s). split.
  - apply Forall_forall. intros p Hp. split; [by apply Hv, list_elem_of_In|].
    pose proof (Split_no_slash s) as Hs. rewrite Forall_forall in Hs. auto.
  - pose proof (Split_nonempty s). unfold path_of. rewrite Join_Split. by destruct (Split s).
Qed.

(** Cleaning a valid path changes nothing. *)
Lemma clean_parts_valid rooted ps out :
  Forall (λ p, valid_part p = true) ps → clean_parts rooted ps out = out ++ ps.
Proof.
  intros Hp. revert out. induction Hp as [|p ps Hv _ IH]; intros out; simpl; [by rewrite app_nil_r|].
  apply valid_part_spec in Hv as (H1 & H2 & H3).
  rewrite !bool_decide_eq_false_2 by done. simpl. by rewrite IH, <-app_assoc.
Qed.

Lemma Join_snoc ps p : ps ≠ [] → Join (ps ++ [p]) = Join ps +:+ String slash p.
Proof.
  induction ps as [|q ps IH]; [done|]. intros _. destruct ps as [|r ps]; [done|].
  rewrite <-app_comm_cons, !Join_cons, IH by (done || by destruct ps).
  assert (∀ a b c : string, a +:+ String slash (b +:+ c) = (a +:+ String slash b) +:+ c) as Ha;
    [|apply Ha].
  intros a b c. induction a as [|x a IHa]; [done|].
  change (String x (a +:+ String slash (b +:+ c)) = String x ((a +:+ String slash b) +:+ c)).
  by f_equal.
Qed.

(** [current + "/" + part], or the bare part at the root. *)
Definition Child (current part : string) : string :=
  if bool_decide (current = ".") then part else current +:+ String slash part.

Lemma Child_path_of ps p : parts_ok ps → Child (path_of ps) p = path_of (ps ++ [p]).
Proof.
  intros Hp. unfold Child. destruct ps as [|q ps]; [done|].
  rewrite bool_decide_eq_false_2 by (intros He; by apply path_of_dot in He).
  unfold path_of. rewrite <-app_comm_cons. change (q :: ps ++ [p]) with ((q :: ps) ++ [p]).
  by rewrite Join_snoc.
Qed.

Lemma clean_parts_snoc_empty rooted ps out :
  Forall (λ p, valid_part p = true) ps → clean_parts rooted (ps ++ [""]) out = out ++ ps.
Proof.
  intros Hp. revert out. induction Hp as [|p ps Hv _ IH]; intros out; simpl; [by rewrite app_nil_r|].
  apply valid_part_spec in Hv as (H1 & H2 & H3).
  rewrite !bool_decide_eq_false_2 by done. simpl. by rewrite IH, <-app_assoc.
Qed.

Lemma parts_valid ps : parts_ok ps → Forall (λ p, valid_part p = true) ps.
Proof. intros Hp. eapply Forall_impl; [exact Hp|]. by intros ? [? _]. Qed.

Lemma Join_first ps : parts_ok ps → ps ≠ [] → IsAbs (Join ps) = false ∧ Join ps ≠ "".
Proof.
  intros Hp Hne. destruct ps as [|p ps]; [done|]. inversion Hp as [|? ? [Hv Hs] _]; subst.
  apply valid_part_spec in Hv as (Hv & _). destruct p as [|c p]; [done|]. destruct Hs as [Hc _].
  destruct ps as [|q ps]; [simpl|rewrite Join_cons by done;
    change (String c p +:+ String slash (Join (q :: ps)))
      with (String c (p +:+ String slash (Join (q :: ps)))); simpl];
    by rewrite bool_decide_eq_false_2.
Qed.

Lemma IsAbs_app s t : s ≠ "" → IsAbs (s +:+ t) = IsAbs s.
Proof. by destruct s. Qed.

Lemma Clean_path_of ps : parts_ok ps → Clean (path_of ps) = path_of ps.
Proof.
  intros Hp. destruct ps as [|p ps]; [done|]. unfold Clean.
  destruct (Join_first (p :: ps) Hp) as [Ha Hne]; [done|]. unfold path_of. rewrite Ha.
  rewrite Split_Join by (done || by apply parts_no_slash).
  rewrite clean_parts_valid by by apply parts_valid. by rewrite bool_decide_eq_false_2.
Qed.

Lemma Dir_path_of ps p : parts_ok (ps ++ [p]) → Dir (path_of (ps ++ [p])) = path_of ps.
Proof.
  intros Hp. unfold Dir. rewrite Split_path_of by (done || by destruct ps).
  destruct ps as [|q ps]; [done|]. apply parts_ok_app in Hp as [Hps _].
  destruct (Join_first (q :: ps) Hps) as [Ha Hne]; [done|].
  assert (removelast ((q :: ps) ++ [p]) = q :: ps) as Hr by apply removelast_last.
  cbn [app] in *. destruct (ps ++ [p]) as [|r rest] eqn:E; [by destruct ps|]. rewrite Hr.
  rewrite <-(Join_snoc (q :: ps) "") by done. unfold Clean.
  rewrite (Join_snoc (q :: ps) ""), IsAbs_app, Ha by done. rewrite <-(Join_snoc (q :: ps) "") by done.
  rewrite Split_Join; [|by destruct ps|].
  - rewrite clean_parts_snoc_empty by by apply parts_valid. simpl app.
    by rewrite bool_decide_eq_false_2.
  - apply Forall_app. split; [by apply parts_no_slash|by repeat constructor].
Qed.

Lemma Dir_root : Dir "." = ".".
Proof. done. Qed.

Lemma trim_slashes_valid ps : Forall (λ p, p ≠ "") ps → trim_slashes ps = ps.
Proof.
  induction 1 as [|p ps Hp _ IH]; simpl; [done|]. rewrite IH. destruct ps; [|done].
  by rewrite bool_decide_eq_false_2.
Qed.

Lemma Base_path_of ps p : parts_ok (ps ++ [p]) → Base (path_of (ps ++ [p])) = p.
Proof.
  intros Hp. unfold Base.
  assert (path_of (ps ++ [p]) = Join (ps ++ [p])) as -> by by destruct ps.
  destruct (Join_first (ps ++ [p]) Hp) as [_ Hne]; [by destruct ps|].
  rewrite bool_decide_eq_false_2 by done.
  rewrite Split_Join by first [by destruct ps|by apply parts_no_slash].
  rewrite trim_slashes_valid.
  - by rewrite last_snoc.
  - eapply Forall_impl; [exact Hp|]. intros x [Hv _]. by apply valid_part_spec in Hv as (? & _).
Qed.

(** ** Ancestors *)

(** [strings.HasPrefix(key, p + "/")] on valid paths: a proper descendant. *)
Lemma HasPrefix_app s p : HasPrefix s p = true ↔ ∃ t, s = p +:+ t.
Proof.
  unfold HasPrefix. revert s. induction p as [|c p IH]; intros s; simpl.
  - split; [by exists s|]. intros _. by destruct s.
  - destruct s as [|d s]; simpl; [split; [done|]; by intros [t [=]]|].
    destruct (ascii_dec c d) as [->|Hne].
    + rewrite IH. split; intros [t Ht]; exists t.
      * by rewrite Ht.
      * change (String d s = String d (p +:+ t)) in Ht. by injection Ht.
    + split; [done|]. intros [t Ht]. change (String d s = String c (p +:+ t)) in Ht. by injection Ht.
Qed.

Lemma string_app_assoc (a b c : string) : (a +:+ b) +:+ c = a +:+ (b +:+ c).
Proof.
  induction a as [|x a IH]; [done|].
  change (String x ((a +:+ b) +:+ c) = String x (a +:+ (b +:+ c))). by f_equal.
Qed.

Lemma Split_Join_app ps s :
  ps ≠ [] → Forall no_slash ps → Split (Join ps +:+ String slash s) = ps ++ Split s.
Proof.
  induction ps as [|p ps IH]; [done|]. intros _ Hf. apply Forall_cons in Hf as [Hp Hps].
  destruct ps as [|q ps]; [by apply Split_app|].
  rewrite Join_cons by done. rewrite string_app_assoc.
  change (String slash (Join (q :: ps)) +:+ String slash s)
    with (String slash (Join (q :: ps) +:+ String slash s)).
  rewrite Split_app by done. by rewrite IH.
Qed.

Lemma Join_app ps qs : ps ≠ [] → qs ≠ [] → Join (ps ++ qs) = Join ps +:+ String slash (Join qs).
Proof.
  intros Hp Hq. induction ps as [|p ps IH]; [done|]. destruct ps as [|r ps].
  - simpl app. by rewrite Join_cons.
  - rewrite <-app_comm_cons, !Join_cons, IH by done. by rewrite string_app_assoc.
Qed.

(** [strings.HasPrefix(key, p + "/")] holds exactly for the proper descendants. *)
Lemma HasPrefix_descendant ps qs :
  parts_ok ps → parts_ok qs → ps ≠ [] →
  HasPrefix (path_of qs) (path_of ps +:+ String slash "") = true ↔
  ps `prefix_of` qs ∧ qs ≠ ps.
Proof.
  intros Hps Hqs Hne. rewrite HasPrefix_app. unfold path_of at 2. destruct ps as [|p ps]; [done|].
  split.
  - intros [t Ht]. rewrite string_app_assoc in Ht.
    change (String slash "" +:+ t) with (String slash t) in Ht.
    destruct qs as [|q qs].
    { apply (f_equal Split) in Ht. rewrite Split_Join_app in Ht by (done || by apply parts_no_slash).
      change (Split (path_of [])) with ["."] in Ht. injection Ht as _ Ht.
      symmetry in Ht. apply app_eq_nil in Ht as [_ Ht]. by apply Split_nonempty in Ht. }
    apply (f_equal Split) in Ht. unfold path_of in Ht.
    rewrite Split_Join, Split_Join_app in Ht by (done || by apply parts_no_slash).
    rewrite Ht. split; [by apply prefix_app_r|]. intros He.
    apply (f_equal length) in He. rewrite length_app in He.
    pose proof (Split_nonempty t). destruct (Split t); simpl in *; [done|lia].
  - intros [[rest ->] Hdiff]. destruct rest as [|r rest]; [by rewrite app_nil_r in Hdiff|].
    exists (Join (r :: rest)). cbn [app path_of]. rewrite app_comm_cons, Join_app by done.
    by rewrite string_app_assoc.
Qed.

(** ** Cleaning introduces no NUL *)

Lemma contains_nul_app s t : contains_nul (s +:+ t) = contains_nul s || contains_nul t.
Proof.
  induction s as [|c s IH]; [done|].
  change (String c s +:+ t) with (String c (s +:+ t)). cbn [contains_nul]. by rewrite IH, orb_assoc.
Qed.

Lemma contains_nul_Join ps : contains_nul (Join ps) = existsb contains_nul ps.
Proof.
  induction ps as [|p ps IH]; [done|]. destruct ps as [|q ps]; [simpl; by rewrite orb_false_r|].
  rewrite Join_cons, contains_nul_app by done. cbn [contains_nul existsb].
  rewrite bool_decide_eq_false_2 by done. rewrite IH. done.
Qed.

Lemma clean_parts_nul rooted ps out :
  existsb contains_nul ps = false → existsb contains_nul out = false →
  existsb contains_nul (clean_parts rooted ps out) = false.
Proof.
  assert (∀ l, existsb contains_nul (removelast l) = true → existsb contains_nul l = true) as Hrl.
  { intros l. rewrite !existsb_exists. intros (x & Hx & He). exists x. split; [|done].
    destruct l as [|y l]; [done|]. rewrite (app_removelast_last y (l:=y :: l)) by done.
    apply in_or_app. by left. }
  revert out. induction ps as [|p ps IH]; intros out Hps Hout; [done|]. cbn [existsb] in Hps.
  apply orb_false_iff in Hps as [Hp Hps]. cbn [clean_parts].
  assert (existsb contains_nul (out ++ [".."]) = false) as Hup.
  { rewrite existsb_app, Hout. done. }
  repeat case_goal; apply IH; try done.
  - destruct (existsb contains_nul (removelast out)) eqn:E; [|done]. apply Hrl in E. congruence.
  - by rewrite existsb_app, Hout; simpl; rewrite Hp.
Qed.

Lemma Clean_nul s : contains_nul s = false → contains_nul (Clean s) = false.
Proof.
  intros Hs. assert (contains_nul (Join (clean_parts (IsAbs s) (Split s) [])) = false) as Hj.
  { rewrite contains_nul_Join. apply clean_parts_nul; [|done].
    by rewrite <-contains_nul_Join, Join_Split. }
  unfold Clean. destruct (IsAbs s); [cbn [contains_nul]; by rewrite Hj|]. by case_bool_decide.
Qed.
