(* ===== verification/Paths.v ===== *)
(** Lexical path policies: src/internal/kustpath/path.go (discovery references),
    src/pkg/source/safepath/safepath.go (archive names and confinement on disk) and
    src/internal/claimpath/path.go (claim prefixes).

    Paths are those of a Unix build, where [filepath] and [path] agree: the
    separator is "/", and [ToSlash] changes nothing. *)
From Stdlib Require Import Ascii.
From S2P Require Import Prelude GoPath.

(** ** The library's path functions, on components *)

(** The components of [Clean s]. *)
Definition parts (s : string) : list string := clean_parts (IsAbs s) (Split s) [].

(** [path.Join] and [filepath.Join] of two elements. *)
Definition Join2 (a b : string) : string :=
  if bool_decide (a = "") then if bool_decide (b = "") then "" else Clean b
  else Clean (a +:+ String slash b).

(** [filepath.Rel]: up to the common ancestor, then down; no answer when the base has
    unresolved parents left, or one path is absolute and the other not. *)
Fixpoint strip_common (bs ts : list string) : list string * list string :=
  match bs, ts with
  | b :: bs', t :: ts' => if bool_decide (b = t) then strip_common bs' ts' else (bs, ts)
  | _, _ => (bs, ts)
  end.

Definition Rel (base target : string) : option string :=
  if bool_decide (Clean base = Clean target) then Some "."
  else if negb (Bool.eqb (IsAbs base) (IsAbs target)) then None
  else match strip_common (parts base) (parts target) with
       | (b :: bs, ts) => if bool_decide (b = "..") then None
                          else Some (Join (replicate (S (length bs)) ".." ++ ts))
       | ([], ts) => Some (Join ts)
       end.

(** [strings.CutPrefix]. *)
Definition CutPrefix (s p : string) : string * bool :=
  if HasPrefix s p then (String.substring (String.length p) (String.length s) s, true) else (s, false).

(** [strings.Contains]. *)
Fixpoint Contains (s sub : string) : bool :=
  HasPrefix s sub || match s with "" => false | String _ s => Contains s sub end.

(** [strings.ToLower], as far as the letters of ASCII go: two other runes have one for
    their lower case, the dotted capital I and the Kelvin sign. *)
Definition lower_ascii (c : ascii) : ascii :=
  let n := nat_of_ascii c in if (65 <=? n) && (n <=? 90) then ascii_of_nat (n + 32) else c.

Fixpoint ToLower (s : string) : string :=
  match s with
  | "" => ""
  | String c s' =>
      match s' with
      | String d s'' =>
          if (nat_of_ascii c =? 196) && (nat_of_ascii d =? 176) then String "i" (ToLower s'')
          else match s'' with
               | String e s''' =>
                   if (nat_of_ascii c =? 226) && (nat_of_ascii d =? 132) && (nat_of_ascii e =? 170)
                   then String "k" (ToLower s''') else String (lower_ascii c) (ToLower s')
               | "" => String (lower_ascii c) (ToLower s')
               end
      | "" => String (lower_ascii c) (ToLower s')
      end
  end.

(** ** Discovery references: kustpath *)

Inductive Policy := Directory | File | Transformer | Claim | Root | Dependency.

#[export] Instance Policy_eq_dec : EqDecision Policy.
Proof. solve_decision. Defined.

Definition remoteReference (ref : string) : bool :=
  Contains ref "://" ||
  existsb (HasPrefix (ToLower ref)) ["git::"; "gh:"; "git@"; "github.com:"; "github.com/"].

Definition withinBase (base resolved : string) : bool :=
  let cleanBase := Clean base in
  let '(suffix, within) := CutPrefix resolved cleanBase in
  bool_decide (resolved = cleanBase) || within && HasPrefix suffix (String slash "").

Definition is_policy (p : Policy) (ps : list Policy) : bool := bool_decide (p ∈ ps).

(** The text [Resolve] joins under each policy. *)
Definition resolved_by (base ref : string) (policy : Policy) : string :=
  match policy with
  | Directory | File | Dependency => Join2 base (TrimPrefix ref "./")
  | Transformer | Claim => Join2 base ref
  | Root => Clean ref
  end.

Definition Resolve (base ref : string) (policy : Policy) : option string :=
  if is_policy policy [Directory; Transformer; Dependency] && remoteReference ref then None
  else
    let absolute := IsAbs ref in
    if bool_decide (policy ≠ Root) &&
       (bool_decide (ref = "") ||
        bool_decide (policy ≠ File) && bool_decide (policy ≠ Dependency) &&
        (absolute || Contains ref "://"))
    then None
    else if is_policy policy [File; Dependency] && absolute then Some (Clean ref)
    else
      let resolved := resolved_by base ref policy in
      if bool_decide (policy = File) && negb (withinBase base resolved) then None
      else if is_policy policy [Transformer; Claim; Root] &&
              (bool_decide (resolved = "..") || HasPrefix resolved "../" ||
               bool_decide (policy ≠ Root) && bool_decide (resolved = "."))
      then None
      else Some resolved.

(** ** Archive names and confinement: safepath *)

(** [strings.ContainsAny(name, "\x00\\")]. *)
Fixpoint contains_unsafe (s : string) : bool :=
  match s with
  | "" => false
  | String c s => bool_decide (c = zero) || bool_decide (nat_of_ascii c = 92) || contains_unsafe s
  end.

(** The loop that strips leading "./". *)
Fixpoint strip_dots (fuel : nat) (name : string) : string :=
  match fuel with
  | O => name
  | S fuel => if HasPrefix name "./" then strip_dots fuel (TrimPrefix name "./") else name
  end.

Definition letter (c : ascii) : bool :=
  let n := nat_of_ascii c in (97 <=? n) && (n <=? 122) || (65 <=? n) && (n <=? 90).

Definition drive (name : string) : bool :=
  match name with
  | String c (String d _) => bool_decide (nat_of_ascii d = 58) && letter c
  | _ => false
  end.

(** [inr] is the error that wraps [fs.ErrInvalid]; the loop drops two bytes a turn. *)
Definition ArchiveName (name : string) : string + unit :=
  if bool_decide (name = "") || contains_unsafe name then inr tt
  else if existsb (λ c, bool_decide (c = "..")) (Split name) then inr tt
  else
    let name := strip_dots (String.length name) name in
    if HasPrefix name (String slash "") || drive name then inr tt
    else inl (Clean name).

Definition Escaped (rel : string) : bool := bool_decide (rel = "..") || HasPrefix rel "../".

Definition safepath_Contains (root target : string) : bool :=
  match Rel root target with Some rel => negb (Escaped rel) | None => false end.

(** ** Claim prefixes: claimpath *)

(** [strings.LastIndexByte(s[:end], '/') + 1]: the end of the last slash before [end]. *)
Fixpoint last_slash (s : string) (i stop found : nat) : nat :=
  match s with
  | String c s =>
      if stop <=? i then found
      else last_slash s (S i) stop (if bool_decide (c = slash) then S i else found)
  | "" => found
  end.

Fixpoint groups_from {T} (groups : gmap string (list T)) (coordinate : string) (fuel stop : nat)
    : list (nat * list T) :=
  match fuel with
  | O => []
  | S fuel =>
      let group := default [] (groups !! String.substring 0 stop coordinate) in
      let rest := if bool_decide (stop = 0) then []
                  else groups_from groups coordinate fuel (last_slash coordinate 0 (stop - 1) 0) in
      match group with [] => rest | _ => (stop, group) :: rest end
  end.

(** The sequence [Groups] yields to a consumer that does not stop it; a turn lowers
    [end], so one turn for each of its values is enough. *)
Definition Groups {T} (groups : gmap string (list T)) (coordinate : string) : list (nat * list T) :=
  groups_from groups coordinate (S (String.length coordinate)) (String.length coordinate).

(** ** The shape of a cleaned path *)

(** Unresolved parents first, none of them on an absolute path, then plain components. *)
Definition cleaned (rooted : bool) (l : list string) : Prop :=
  ∃ k qs, l = replicate k ".." ++ qs ∧ parts_ok qs ∧ (rooted = true → k = 0).

Lemma dotdot_no_slash : no_slash "..".
Proof. by vm_compute. Qed.

Lemma cleaned_no_slash r l : cleaned r l → Forall no_slash l.
Proof.
  intros (k & qs & -> & Hq & _). apply Forall_app. split; [| by apply parts_no_slash].
  apply Forall_replicate, dotdot_no_slash.
Qed.

Lemma cleaned_nonempty r l : cleaned r l → Forall (λ p, p ≠ "") l.
Proof.
  intros (k & qs & -> & Hq & _). apply Forall_app. split; [by apply Forall_replicate |].
  eapply Forall_impl; [exact Hq |]. by intros p [[? _]%valid_part_spec _].
Qed.

Lemma cleaned_snoc r l p : cleaned r l → valid_part p = true → no_slash p → cleaned r (l ++ [p]).
Proof.
  intros (k & qs & -> & Hq & Hk) Hp Hs. exists k, (qs ++ [p]). rewrite app_assoc.
  split; [done |]. split; [| done]. apply parts_ok_app. split; [done |]. by constructor.
Qed.

(** What a parent component does to it. *)
Lemma cleaned_up r l : cleaned r l →
  cleaned r (match last l with
             | Some q => if bool_decide (q = "..") then l ++ [".."] else removelast l
             | None => if r then l else l ++ [".."]
             end).
Proof.
  intros (k & qs & -> & Hq & Hk). destruct qs as [| q qs _] using rev_ind.
  - rewrite app_nil_r. destruct k as [| k].
    + cbn. destruct r; [by exists 0, [] |]. exists 1, []. split; [done |]. by split.
    + rewrite replicate_S_end, last_snoc. cbn. exists (S (S k)), [].
      rewrite app_nil_r, <- replicate_S_end. split; [| split; [done |]].
      * change [".."] with (replicate 1 ".."). rewrite <- replicate_add. f_equal. lia.
      * intros Hr. specialize (Hk Hr). lia.
  - rewrite app_assoc, last_snoc. apply parts_ok_app in Hq as [Hq Hl].
    apply Forall_singleton in Hl as [(_ & _ & Hne)%valid_part_spec _].
    rewrite bool_decide_eq_false_2 by done. rewrite removelast_last. by exists k, qs.
Qed.

Lemma clean_parts_cleaned r ps out :
  Forall no_slash ps → cleaned r out → cleaned r (clean_parts r ps out).
Proof.
  intros Hps. revert out. induction Hps as [| p ps Hp _ IH]; intros out Hout; cbn [clean_parts]; [done |].
  destruct (bool_decide (p = "")) eqn:E1; [by apply IH |].
  destruct (bool_decide (p = ".")) eqn:E2; [by apply IH |]. cbn [orb].
  pose proof (cleaned_up r out Hout) as Hup.
  destruct (bool_decide (p = "..")) eqn:E3.
  - destruct (last out) as [q |]; [destruct (bool_decide (q = "..")) | destruct r]; by apply IH.
  - apply IH, cleaned_snoc; [done | | done]. unfold valid_part.
    apply bool_decide_eq_false in E1, E2, E3. by rewrite !bool_decide_eq_true_2.
Qed.

Lemma parts_cleaned s : cleaned (IsAbs s) (parts s).
Proof.
  apply clean_parts_cleaned; [apply Split_no_slash |]. exists 0, []. split; [done |]. by split; [constructor |].
Qed.

(** Cleaning leaves a cleaned list. *)
Lemma clean_parts_dotdots k out : Forall (λ p, p = "..") out →
  clean_parts false (replicate k "..") out = out ++ replicate k "..".
Proof.
  revert out. induction k as [| k IH]; intros out Hout; cbn [replicate clean_parts]; [by rewrite app_nil_r |].
  cbn [bool_decide orb]. change (bool_decide (".." = "")) with false. change (bool_decide (".." = ".")) with false.
  change (bool_decide (".." = "..")) with true. cbn [orb].
  assert (∀ q, last out = Some q → q = "..") as Hl.
  { intros q Hq. apply last_Some_elem_of in Hq. by eapply Forall_forall in Hout. }
  assert (clean_parts false (replicate k "..") (out ++ [".."]) = out ++ ".." :: replicate k "..") as Hgo.
  { rewrite IH by (apply Forall_app; split; [done | by constructor]). by rewrite <- app_assoc. }
  destruct (last out) as [q |]; [| done]. by rewrite (Hl q eq_refl).
Qed.

Lemma clean_parts_app r ps qs out :
  clean_parts r (ps ++ qs) out = clean_parts r qs (clean_parts r ps out).
Proof.
  revert out. induction ps as [| p ps IH]; intros out; cbn [app clean_parts]; [done |].
  repeat case_match; apply IH.
Qed.

Lemma clean_parts_fixed r l : cleaned r l → clean_parts r l [] = l.
Proof.
  intros (k & qs & -> & Hq & Hk). rewrite clean_parts_app.
  assert (clean_parts r (replicate k "..") [] = replicate k "..") as ->.
  { destruct r; [by rewrite (Hk eq_refl) |]. by apply clean_parts_dotdots. }
  by apply clean_parts_valid, parts_valid.
Qed.

Lemma Join_nil l : Forall (λ p, p ≠ "") l → Join l = "" → l = [].
Proof.
  intros Hf. destruct l as [| p [| q l]]; [done | |].
  - cbn. intros ->. by apply Forall_cons in Hf as [[] _].
  - rewrite Join_cons by done. apply Forall_cons in Hf as [Hp _]. by destruct p.
Qed.

Lemma Clean_text s :
  Clean s = if IsAbs s then String slash (Join (parts s))
            else match parts s with [] => "." | l => Join l end.
Proof.
  unfold Clean. fold (parts s). destruct (IsAbs s); [done |].
  pose proof (cleaned_nonempty _ _ (parts_cleaned s)) as Hne.
  case_bool_decide as Hj; [by rewrite (Join_nil _ Hne Hj) |]. by destruct (parts s).
Qed.

Lemma IsAbs_Join l : Forall no_slash l → Forall (λ p, p ≠ "") l → IsAbs (Join l) = false.
Proof.
  intros Hs Hne. destruct l as [| p l]; [done |].
  apply Forall_cons in Hs as [Hp _], Hne as [Hn _]. destruct p as [| c p]; [done |]. destruct Hp as [Hc _].
  destruct l; cbn; by apply bool_decide_eq_false.
Qed.

Lemma IsAbs_Clean s : IsAbs (Clean s) = IsAbs s.
Proof.
  rewrite Clean_text. pose proof (parts_cleaned s) as Hc. destruct (IsAbs s) eqn:Ha.
  - cbn. by apply bool_decide_eq_true.
  - pose proof (IsAbs_Join _ (cleaned_no_slash _ _ Hc) (cleaned_nonempty _ _ Hc)).
    by destruct (parts s).
Qed.

Lemma parts_Join l : cleaned false l → l ≠ [] → parts (Join l) = l.
Proof.
  intros Hc Hne. unfold parts.
  rewrite IsAbs_Join by (by eapply cleaned_no_slash || by eapply cleaned_nonempty).
  rewrite Split_Join by (done || by eapply cleaned_no_slash). by apply clean_parts_fixed.
Qed.

Lemma Split_slash s : Split (String slash s) = "" :: Split s.
Proof. cbn [Split]. by rewrite bool_decide_eq_true_2. Qed.

Lemma parts_slash_Join l : cleaned true l → parts (String slash (Join l)) = l.
Proof.
  intros Hc. unfold parts. replace (IsAbs (String slash (Join l))) with true
    by (symmetry; cbn; by apply bool_decide_eq_true).
  rewrite Split_slash. cbn [clean_parts]. rewrite bool_decide_eq_true_2 by done. cbn [orb].
  destruct l as [| p l]; [done |].
  rewrite Split_Join by (done || by eapply cleaned_no_slash). by apply clean_parts_fixed.
Qed.

(** Cleaning again changes nothing. *)
Lemma parts_Clean s : parts (Clean s) = parts s.
Proof.
  rewrite Clean_text. pose proof (parts_cleaned s) as Hc.
  destruct (IsAbs s); [by apply parts_slash_Join |].
  destruct (parts s) as [| p l]; [done |]. by apply parts_Join.
Qed.

Lemma Clean_idem s : Clean (Clean s) = Clean s.
Proof. by rewrite (Clean_text (Clean s)), IsAbs_Clean, parts_Clean, Clean_text. Qed.

Lemma Clean_eq s t : IsAbs s = IsAbs t → Clean s = Clean t ↔ parts s = parts t.
Proof.
  intros Ha. split; [intros He; by rewrite <- (parts_Clean s), He, parts_Clean |].
  intros Hp. by rewrite !Clean_text, Ha, Hp.
Qed.

(** [Escaped], and the tests of [Resolve], look at the first component. *)
Lemma escaped_Join l : l ≠ [] → Forall no_slash l →
  bool_decide (Join l = "..") || HasPrefix (Join l) "../" = bool_decide (head l = Some "..").
Proof.
  intros Hne Hs. apply Bool.eq_iff_eq_true. rewrite orb_true_iff, !bool_decide_eq_true, HasPrefix_app.
  split.
  - intros [Hj | [t Hj]]; apply (f_equal Split) in Hj; rewrite Split_Join in Hj by done; by subst.
  - destruct l as [| p l]; [done |]. intros [= ->].
    destruct l as [| q l]; [by left | right]. rewrite Join_cons by done. by exists (Join (q :: l)).
Qed.

(** ** Confinement on disk *)

Lemma strip_common_spec bs ts :
  ∃ pre, bs = pre ++ (strip_common bs ts).1 ∧ ts = pre ++ (strip_common bs ts).2 ∧
    match strip_common bs ts with (b :: _, t :: _) => b ≠ t | _ => True end.
Proof.
  revert ts. induction bs as [| b bs IH]; intros ts; cbn [strip_common].
  - exists []. by destruct ts.
  - destruct ts as [| t ts]; [by exists [] |]. case_bool_decide as Hbt; [subst t | by exists []].
    destruct (IH ts) as (pre & H1 & H2 & H3). exists (b :: pre).
    split; [by rewrite H1 at 1 |]. split; [by rewrite H2 at 1 | done].
Qed.

Lemma strip_common_prefix bs ts : bs `prefix_of` ts ↔ (strip_common bs ts).1 = [].
Proof.
  destruct (strip_common_spec bs ts) as (pre & H1 & H2 & H3).
  destruct (strip_common bs ts) as [bs' ts']. cbn [fst snd] in *. subst. split.
  - intros [l Hl]. rewrite <- app_assoc in Hl. apply app_inv_head in Hl. subst ts'.
    destruct bs' as [| b bs']; [done |]. by destruct H3.
  - intros ->. rewrite app_nil_r. by eexists.
Qed.

(** Confinement is the ancestor relation: under an absolute root, [Contains]
    holds exactly for the absolute targets whose cleaned components extend the
    root's, however either is written. *)
Theorem Contains_exact root target : IsAbs root = true →
  safepath_Contains root target = true ↔ IsAbs target = true ∧ parts root `prefix_of` parts target.
Proof.
  intros Hr. unfold safepath_Contains, Rel. rewrite Hr.
  destruct (IsAbs target) eqn:Ht.
  2: { case_bool_decide as He.
       - apply (f_equal IsAbs) in He. rewrite !IsAbs_Clean in He. congruence.
       - split; [done | by intros []]. }
  cbn [Bool.eqb negb]. case_bool_decide as He.
  { apply Clean_eq in He as ->; [| congruence]. split; [done |]. done. }
  rewrite strip_common_prefix. pose proof (strip_common_spec (parts root) (parts target)) as (pre & H1 & H2 & _).
  pose proof (parts_cleaned root) as (k1 & q1 & E1 & Ok1 & Hk1). rewrite Hr in Hk1.
  pose proof (parts_cleaned target) as (k2 & q2 & E2 & Ok2 & Hk2). rewrite Ht in Hk2.
  rewrite Hk1 in E1 by done. rewrite Hk2 in E2 by done. cbn in E1, E2. rewrite <- E1 in Ok1. rewrite <- E2 in Ok2.
  destruct (strip_common (parts root) (parts target)) as [bs ts]. cbn [fst snd] in *.
  rewrite H1 in Ok1. rewrite H2 in Ok2. apply parts_ok_app in Ok1 as [_ Ok1], Ok2 as [_ Ok2].
  destruct bs as [| b bs].
  - assert (ts ≠ []) as Hts.
    { intros ->. rewrite app_nil_r in H1, H2. apply He, Clean_eq; congruence. }
    unfold Escaped. rewrite escaped_Join by (done || by apply parts_no_slash).
    rewrite bool_decide_eq_false_2; [done |].
    destruct ts as [| t ts]; [done |]. apply Forall_cons in Ok2 as [[(_ & _ & ?)%valid_part_spec _] _]. by intros [=].
  - apply Forall_cons in Ok1 as [[(_ & _ & Hb)%valid_part_spec _] _].
    rewrite bool_decide_eq_false_2 by done. unfold Escaped. rewrite escaped_Join.
    + split; [done | by intros []].
    + done.
    + apply Forall_app. split; [apply Forall_replicate, dotdot_no_slash | by apply parts_no_slash].
Qed.

Example Contains_exact_witness :
  ["srv"; "repo"] `prefix_of` ["srv"; "repo"; "apps"] ∧ ¬ ["srv"; "repo"] `prefix_of` ["srv"; "repository"].
Proof.
  split.
  - exact (proj2 (proj1 (Contains_exact "/srv/./repo/" "/srv/repo/x/../apps" eq_refl) eq_refl)).
  - intros H. discriminate (proj2 (Contains_exact "/srv/repo" "/srv/repository" eq_refl) (conj eq_refl H)).
Defined.

(** ** Archive names *)

Lemma TrimPrefix_app p t : TrimPrefix (p +:+ t) p = t.
Proof.
  unfold TrimPrefix. replace (HasPrefix (p +:+ t) p) with true by (symmetry; apply HasPrefix_app; by exists t).
  assert (∀ n s, String.length s ≤ n → String.substring 0 n s = s) as Hall.
  { intros n s. revert n. induction s as [| c s IH]; intros [| n] Hn; cbn in *; try done; [lia |].
    f_equal. apply IH. lia. }
  assert (∀ n, String.length t ≤ n → String.substring (String.length p) n (p +:+ t) = t) as Hsub.
  { intros n Hn. induction p as [| c p IH]; [by apply Hall |]. exact IH. }
  apply Hsub. clear. induction p as [| c p IH]; [done |].
  change (String.length t ≤ S (String.length (p +:+ t))). lia.
Qed.

Lemma strip_dots_spec fuel name : String.length name ≤ fuel →
  ∃ k, Split name = replicate k "." ++ Split (strip_dots fuel name) ∧
    HasPrefix (strip_dots fuel name) "./" = false.
Proof.
  revert name. induction fuel as [| fuel IH]; intros name Hn; cbn [strip_dots].
  { destruct name; [by exists 0 | cbn in Hn; lia]. }
  destruct (HasPrefix name "./") eqn:Hp; [| by exists 0].
  apply HasPrefix_app in Hp as [t ->]. rewrite TrimPrefix_app.
  change ("./" +:+ t) with ("." +:+ String slash t) in *.
  destruct (IH t) as (k & Hk & Hf); [change (S (S (String.length t)) ≤ S fuel) in Hn; lia |].
  exists (S k). rewrite Split_app by by vm_compute. by rewrite Hk.
Qed.

(** Without parents, cleaning keeps the plain components. *)
Lemma clean_parts_plain r ps out : Forall (λ p, p ≠ "..") ps →
  clean_parts r ps out = out ++ filter (λ p, valid_part p = true) ps.
Proof.
  intros Hps. revert out. induction Hps as [| p ps Hp _ IH]; intros out; cbn [clean_parts].
  { by rewrite filter_nil, app_nil_r. }
  destruct (decide (valid_part p = true)) as [Hv | Hv].
  - rewrite filter_cons_True by done. apply valid_part_spec in Hv as (H1 & H2 & H3).
    rewrite !bool_decide_eq_false_2 by done. cbn [orb]. by rewrite IH, <- app_assoc.
  - rewrite filter_cons_False by done. rewrite (bool_decide_eq_false_2 (p = "..")) by done.
    destruct (bool_decide (p = "")) eqn:E1; [apply IH |].
    destruct (bool_decide (p = ".")) eqn:E2; [apply IH |].
    destruct Hv. apply bool_decide_eq_false in E1, E2. by apply valid_part_spec.
Qed.

Lemma unsafe_app s t : contains_unsafe (s +:+ t) = contains_unsafe s || contains_unsafe t.
Proof.
  induction s as [| c s IH]; [done |].
  change (String c s +:+ t) with (String c (s +:+ t)). cbn [contains_unsafe]. by rewrite IH, !orb_assoc.
Qed.

Lemma unsafe_Join ps : contains_unsafe (Join ps) = existsb contains_unsafe ps.
Proof.
  induction ps as [| p ps IH]; [done |]. destruct ps as [| q ps]; [cbn; by rewrite orb_false_r |].
  rewrite Join_cons, unsafe_app by done. change (String slash (Join (q :: ps))) with ("/" +:+ Join (q :: ps)).
  by rewrite unsafe_app, IH.
Qed.

Lemma drive_part p t : drive (p +:+ String slash t) = drive p.
Proof.
  destruct p as [| c [| d p]]; [| done | done].
  destruct t as [| d t]; [done |]. cbn. apply andb_false_r.
Qed.

Lemma drive_Join p ps : drive (Join (p :: ps)) = drive p.
Proof. destruct ps; [done |]. rewrite Join_cons by done. apply drive_part. Qed.

(** The checked name: no parents, not absolute, no drive, no leading "./". *)
Record checked (name : string) : Prop := {
  c_up : Forall (λ p, p ≠ "..") (Split name);
  c_abs : IsAbs name = false;
  c_drive : drive name = false;
  c_dot : HasPrefix name "./" = false;
  c_safe : contains_unsafe name = false;
}.

Lemma ArchiveName_checked name p : ArchiveName name = inl p →
  ∃ s, checked s ∧ p = Clean s ∧ name ≠ "" ∧ ∃ k, Split name = replicate k "." ++ Split s.
Proof.
  unfold ArchiveName. destruct (bool_decide (name = "")) eqn:E0; [done |].
  destruct (contains_unsafe name) eqn:E1; [done |]. cbn [orb].
  destruct (existsb _ _) eqn:E2; [done |]. destruct (_ || _) eqn:E3; [done |]. intros [= <-].
  destruct (strip_dots_spec (String.length name) name) as (k & Hk & Hd); [done |].
  set (s := strip_dots (String.length name) name) in *. apply orb_false_iff in E3 as [E3 E4].
  exists s. split; [| split; [done |]].
  - assert (Forall (λ p, p ≠ "..") (Split name)) as Hup.
    { apply Forall_forall. intros q Hq ->. apply not_true_iff_false in E2. apply E2, existsb_exists.
      exists "..". by split; [apply list_elem_of_In |]. }
    rewrite Hk in Hup. apply Forall_app in Hup as [_ Hup]. split; [done | | done | done |].
    + clear -E3. destruct s as [| c s]; [done |]. cbn in *. destruct (ascii_dec slash c); [by destruct s |].
      by apply bool_decide_eq_false.
    + rewrite <- (Join_Split name), Hk, unsafe_Join, existsb_app in E1.
      apply orb_false_iff in E1 as [_ E1]. by rewrite <- unsafe_Join, Join_Split in E1.
  - split; [by apply bool_decide_eq_false in E0 | by exists k].
Qed.

Lemma checked_clean s : checked s → ∃ ps, parts_ok ps ∧ Clean s = path_of ps ∧ drive (path_of ps) = false ∧
  contains_unsafe (path_of ps) = false ∧ ps = filter (λ p, valid_part p = true) (Split s).
Proof.
  intros [Hup Ha Hdr Hdot Hsafe]. set (ps := filter (λ p, valid_part p = true) (Split s)).
  assert (parts s = ps) as Hparts by (unfold parts; rewrite clean_parts_plain by done; done).
  assert (parts_ok ps) as Hok.
  { apply Forall_forall. intros p [Hv Hp]%list_elem_of_filter. split; [done |].
    by eapply Forall_forall in Hp; [| apply Split_no_slash]. }
  exists ps. split; [done |]. split; [by rewrite Clean_text, Ha, Hparts; destruct ps |].
  split; [| split; [| done]].
  - pose proof (Split_no_slash s) as Hsl. pose proof (Join_Split s) as Hj.
    destruct (Split s) as [| f rest] eqn:Hs; [done |]. apply Forall_cons in Hsl as [Hf Hrest].
    destruct (decide (valid_part f = true)) as [Hv | Hv].
    + unfold ps. rewrite filter_cons_True by done. cbn [path_of].
      rewrite drive_Join, <- (drive_Join f rest). by rewrite Hj.
    + destruct rest as [| g rest]; [unfold ps; rewrite filter_cons_False by done; by rewrite filter_nil |].
      exfalso. apply Hv. apply Forall_cons in Hup as [Hnu _]. apply valid_part_spec. rewrite <- Hj in Ha, Hdot.
      rewrite Join_cons in Ha, Hdot by done. split; [| split]; [intros -> | intros -> | done].
      * cbn in Ha. by apply bool_decide_eq_false in Ha.
      * apply not_true_iff_false in Hdot. apply Hdot, HasPrefix_app. by exists (Join (g :: rest)).
  - assert (existsb contains_unsafe ps = false) as Hu.
    { rewrite <- (Join_Split s), unsafe_Join in Hsafe. apply not_true_iff_false.
      intros (q & Hq & Hu)%existsb_exists. apply not_true_iff_false in Hsafe.
      apply Hsafe, existsb_exists. exists q. split; [| done].
      apply list_elem_of_In. apply list_elem_of_In in Hq. by apply list_elem_of_filter in Hq as [_ Hq]. }
    destruct ps as [| p ps']; [done |]. cbn [path_of]. by rewrite unsafe_Join.
Qed.

Lemma ArchiveName_path_of ps : parts_ok ps → drive (path_of ps) = false →
  contains_unsafe (path_of ps) = false → ArchiveName (path_of ps) = inl (path_of ps).
Proof.
  intros Hok Hdr Hsafe. destruct ps as [| p ps]; [by vm_compute |].
  pose proof (Split_path_of _ Hok ltac:(done)) as Hs. pose proof (Join_first _ Hok ltac:(done)) as [Ha Hne].
  change (Join (p :: ps)) with (path_of (p :: ps)) in Ha, Hne.
  assert (∀ x, HasPrefix (path_of (p :: ps)) (x +:+ String slash "") = true → no_slash x → valid_part x = true) as Hfirst.
  { intros x [t Ht]%HasPrefix_app Hx. rewrite string_app_assoc in Ht.
    change (String slash "" +:+ t) with (String slash t) in Ht. rewrite Ht, Split_app in Hs by done.
    injection Hs as -> _. by apply Forall_cons in Hok as [[? _] _]. }
  unfold ArchiveName. rewrite bool_decide_eq_false_2, Hsafe by done. cbn [orb].
  replace (existsb _ (Split _)) with false.
  2: { symmetry. apply not_true_iff_false. intros (q & Hq & Hu%bool_decide_eq_true)%existsb_exists. subst q.
       rewrite Hs in Hq. apply list_elem_of_In in Hq. eapply Forall_forall in Hok; [| exact Hq].
       by destruct Hok as [(_ & _ & ?)%valid_part_spec _]. }
  assert (HasPrefix (path_of (p :: ps)) "./" = false) as Hd.
  { apply not_true_iff_false. intros H. by specialize (Hfirst "." H ltac:(by vm_compute)). }
  replace (strip_dots _ _) with (path_of (p :: ps)).
  2: { destruct (String.length (path_of (p :: ps))); [done |]. cbn [strip_dots]. by rewrite Hd. }
  replace (HasPrefix (path_of (p :: ps)) (String slash "")) with false.
  2: { symmetry. apply not_true_iff_false. intros H. by specialize (Hfirst "" H I). }
  rewrite Hdr. cbn [orb]. by rewrite Clean_path_of.
Qed.

(** An archive name that is accepted is one inside the archive: plain
    components in canonical form, "." for the root entry, with no drive, backslash or
    NUL, holding exactly the components of the name that are neither empty nor ".".
    It is accepted again as itself. *)
Theorem ArchiveName_confined name p : ArchiveName name = inl p →
  ∃ ps, parts_ok ps ∧ p = path_of ps ∧ drive p = false ∧ contains_unsafe p = false ∧
    ps = filter (λ c, valid_part c = true) (Split name) ∧ ArchiveName p = inl p.
Proof.
  intros (s & Hs & -> & Hne & k & Hk)%ArchiveName_checked.
  destruct (checked_clean s Hs) as (ps & Hok & -> & Hdr & Hsafe & Hps).
  exists ps. split; [done |]. split; [done |]. split; [done |]. split; [done |]. split.
  - rewrite Hk, filter_app, Hps. replace (filter _ (replicate k ".")) with (@nil string); [done |].
    symmetry. clear. induction k as [| k IH]; [done |]. cbn [replicate]. by rewrite filter_cons_False.
  - by apply ArchiveName_path_of.
Qed.

Example ArchiveName_confined_witness : parts_ok ["charts"; "app"; "values.yaml"].
Proof.
  destruct (ArchiveName_confined "././charts//app/./values.yaml" "charts/app/values.yaml" eq_refl)
    as (ps & Hok & _ & _ & _ & Hps & _).
  vm_compute in Hps. by subst ps.
Defined.

(** ** Discovery references *)

Lemma Join2_clean a b : Join2 a b = "" ∧ a = "" ∧ b = "" ∨ Clean (Join2 a b) = Join2 a b.
Proof.
  unfold Join2. case_bool_decide; [case_bool_decide; [by left |] |]; right; apply Clean_idem.
Qed.

(** The escape test of [Resolve] on a cleaned text. *)
Lemma escape_test r : Clean r = r →
  bool_decide (r = "..") || HasPrefix r "../" = bool_decide (head (parts r) = Some "..").
Proof.
  intros Hr. pose proof (parts_cleaned r) as Hc. rewrite Clean_text in Hr.
  destruct (IsAbs r) eqn:Ha.
  - rewrite (bool_decide_eq_false_2 (head _ = _)).
    + rewrite <- Hr. rewrite bool_decide_eq_false_2 by (by intros [=]). by cbn.
    + destruct Hc as (k & qs & -> & Hq & Hk). rewrite (Hk eq_refl). cbn.
      destruct qs as [| q qs]; [done |]. apply Forall_cons in Hq as [[(_ & _ & ?)%valid_part_spec _] _]. by intros [=].
  - destruct (parts r) as [| p l] eqn:Hp; [by rewrite <- Hr |].
    rewrite <- Hr. apply escaped_Join; [done |]. by eapply cleaned_no_slash.
Qed.

Lemma CutPrefix_app s p : (CutPrefix s p).2 = true → s = p +:+ (CutPrefix s p).1.
Proof.
  unfold CutPrefix. destruct (HasPrefix s p) eqn:H; [| done]. intros _. cbn.
  pose proof H as [t Ht]%HasPrefix_app. pose proof (TrimPrefix_app p t) as Htrim.
  unfold TrimPrefix in Htrim. rewrite <- Ht, H in Htrim. by rewrite Htrim.
Qed.

(** Staying within a base is extending its components. *)
Lemma within_parts base r : Clean r = r → withinBase base r = true →
  IsAbs r = IsAbs base ∧ parts base `prefix_of` parts r.
Proof.
  intros Hr. unfold withinBase. destruct (CutPrefix r (Clean base)) as [suffix within] eqn:Hcut.
  rewrite orb_true_iff, andb_true_iff, bool_decide_eq_true.
  intros [-> | [-> [t ->]%HasPrefix_app]].
  { by rewrite IsAbs_Clean, parts_Clean. }
  pose proof (CutPrefix_app r (Clean base)) as Hc. rewrite Hcut in Hc. specialize (Hc eq_refl). cbn [fst] in Hc.
  change (String slash "" +:+ t) with (String slash t) in Hc.
  assert (IsAbs r = IsAbs base) as Ha.
  { rewrite Hc, IsAbs_app, IsAbs_Clean; [done |]. rewrite Clean_text. destruct (IsAbs base); [done |].
    pose proof (cleaned_nonempty _ _ (parts_cleaned base)) as Hne. destruct (parts base) as [| p l]; [done |].
    intros Hj. by apply Join_nil in Hj. }
  split; [done |].
  pose proof (cleaned_no_slash _ _ (parts_cleaned base)) as Hs.
  pose proof (cleaned_no_slash _ _ (parts_cleaned r)) as Hsr.
  destruct (decide (parts base = [])) as [-> | Hne]; [apply prefix_nil |].
  assert (parts r ≠ [] → Join (parts r) = Join (parts base) +:+ String slash t → parts base `prefix_of` parts r) as Hgo.
  { intros Hnr Hj. apply (f_equal Split) in Hj. rewrite Split_Join, Split_Join_app in Hj by done.
    rewrite Hj. by apply prefix_app_r. }
  rewrite <- Hr, (Clean_text r), (Clean_text base), Ha in Hc. destruct (IsAbs base).
  - change (String slash (Join (parts r)) = String slash (Join (parts base) +:+ String slash t)) in Hc.
    injection Hc as Hc. apply Hgo; [| done]. intros Hnil. rewrite Hnil in Hc. by destruct (Join (parts base)).
  - destruct (parts base) as [| p l]; [done |]. destruct (parts r) as [| q m]; [| by apply Hgo].
    exfalso. apply (f_equal Split) in Hc. rewrite Split_Join_app in Hc by done. cbn in Hc.
    injection Hc as _ Hc. symmetry in Hc. apply app_eq_nil in Hc as [_ Hc]. by apply Split_nonempty in Hc.
Qed.

(** Evaluates the tests of [Resolve] on a known policy. *)
Ltac policy_tests :=
  repeat match goal with
  | |- context [is_policy ?p ?l] =>
      let v := eval vm_compute in (is_policy p l) in change (is_policy p l) with v
  | |- context [@bool_decide (?p ≠ ?q) ?d] =>
      is_constructor p; let v := eval vm_compute in (@bool_decide (p ≠ q) d) in
      change (@bool_decide (p ≠ q) d) with v
  | |- context [@bool_decide (?p = ?q) ?d] =>
      is_constructor p; let v := eval vm_compute in (@bool_decide (p = q) d) in
      change (@bool_decide (p = q) d) with v
  end; cbn [andb orb negb resolved_by].

(** A resolved discovery reference respects its policy.  The result is a
    cleaned path (or the empty text of an empty base and "./"); a transformer, a
    claim and a root never leave the source upwards, and the first two are not the
    source itself; a relative file stays within its package, on components. *)
Theorem Resolve_confined base ref policy r : Resolve base ref policy = Some r →
  (Clean r = r ∨ r = "" ∧ base = "" ∧ TrimPrefix ref "./" = "") ∧
  match policy with
  | Transformer | Claim => head (parts r) ≠ Some ".." ∧ r ≠ "." ∧ IsAbs ref = false
  | Root => head (parts r) ≠ Some ".." ∧ r = Clean ref
  | File => if IsAbs ref then r = Clean ref
            else IsAbs r = IsAbs base ∧ parts base `prefix_of` parts r
  | Dependency => if IsAbs ref then r = Clean ref else r = Join2 base (TrimPrefix ref "./")
  | Directory => IsAbs ref = false ∧ r = Join2 base (TrimPrefix ref "./")
  end.
Proof.
  pose proof (Join2_clean base (TrimPrefix ref "./")) as Hjt. pose proof (Join2_clean base ref) as Hjr.
  pose proof (Clean_idem ref) as Hid.
  unfold Resolve. destruct (_ && remoteReference ref); [done |].
  destruct (bool_decide (ref = "")) eqn:Hempty.
  { cbn [orb]. apply bool_decide_eq_true in Hempty. subst ref. destruct policy; cbn; try done.
    intros [= <-]. split; [by left |]. done. }
  apply bool_decide_eq_false in Hempty. cbn [orb].
  destruct policy; policy_tests; destruct (IsAbs ref) eqn:Ha; cbn [andb orb negb]; try done.
  - destruct (Contains ref "://"); [done |]. intros [= <-]. split; [| done]. tauto.
  - intros [= <-]. split; [by left | done].
  - destruct (withinBase base (Join2 base (TrimPrefix ref "./"))) eqn:Hw; [| done]. intros [= <-].
    destruct Hjt as [(He & Hb & Ht) | Hclean].
    + split; [by right; rewrite He |]. exfalso. rewrite He, Hb in Hw. by vm_compute in Hw.
    + split; [by left |]. by apply within_parts.
  - destruct (Contains ref "://"); [done |].
    destruct Hjr as [(_ & _ & ?) | Hclean]; [done |]. rewrite escape_test by done.
    case_bool_decide as Hh; cbn [orb andb]; [done |].
    case_bool_decide; [done |]. intros [= <-]. split; [by left | done].
  - destruct (Contains ref "://"); [done |].
    destruct Hjr as [(_ & _ & ?) | Hclean]; [done |]. rewrite escape_test by done.
    case_bool_decide as Hh; cbn [orb andb]; [done |].
    case_bool_decide; [done |]. intros [= <-]. split; [by left | done].
  - rewrite escape_test by done. case_bool_decide as Hh; cbn [orb andb]; [done |]. intros [= <-]. split; [by left | done].
  - rewrite escape_test by done. case_bool_decide as Hh; cbn [orb andb]; [done |]. intros [= <-]. split; [by left | done].
  - intros [= <-]. split; [by left | done].
  - intros [= <-]. split; [| done]. tauto.
Qed.

Example Resolve_confined_witness :
  parts "/repo/apps" `prefix_of` parts "/repo/apps/base/kustomization.yaml".
Proof.
  exact (proj2 (proj2 (Resolve_confined "/repo/apps/" "./base/../base/kustomization.yaml" File _ eq_refl))).
Defined.

(** ** Claim prefixes *)

(** The end of a slash-terminated prefix, or of the empty one. *)
Definition boundary (s : string) (e : nat) : Prop :=
  e = 0 ∨ ∃ j, e = S j ∧ String.get j s = Some slash.

Lemma last_slash_spec s i stop found :
  let r := last_slash s i stop found in
  (r = found ∧ ∀ j, i ≤ j < stop → String.get (j - i) s ≠ Some slash) ∨
  ∃ j, r = S j ∧ i ≤ j < stop ∧ String.get (j - i) s = Some slash ∧
    ∀ j', j < j' < stop → String.get (j' - i) s ≠ Some slash.
Proof.
  revert i found. induction s as [| c s IH]; intros i found; cbn [last_slash].
  { left. split; [done |]. intros j _. by destruct (j - i). }
  destruct (Nat.leb_spec stop i) as [Hle | Hlt].
  { left. split; [done | lia]. }
  assert (∀ j, i < j → String.get (j - i) (String c s) = String.get (j - S i) s) as Hnext.
  { intros j Hj. replace (j - i) with (S (j - S i)) by lia. done. }
  destruct (IH (S i) (if bool_decide (c = slash) then S i else found)) as
    [[Hr Hno] | (j & Hr & Hj & Hget & Hno)]; rewrite Hr.
  - case_bool_decide as Hc.
    + right. exists i. split; [done |]. split; [lia |]. rewrite Nat.sub_diag. split; [by subst c |].
      intros j' Hj'. rewrite Hnext by lia. apply Hno. lia.
    + left. split; [done |]. intros j Hj. destruct (decide (j = i)) as [-> |].
      * rewrite Nat.sub_diag. cbn. congruence.
      * rewrite Hnext by lia. apply Hno. lia.
  - right. exists j. split; [done |]. split; [lia |]. rewrite Hnext by lia. split; [done |].
    intros j' Hj'. rewrite Hnext by lia. apply Hno. lia.
Qed.

(** The next value of [end] is the greatest boundary below this one. *)
Lemma last_slash_boundary s stop : 0 < stop →
  let r := last_slash s 0 (stop - 1) 0 in
  r < stop ∧ boundary s r ∧ ∀ e, e < stop → boundary s e → e ≤ r.
Proof.
  intros Hs. cbn zeta. destruct (last_slash_spec s 0 (stop - 1) 0) as [[-> Hno] | (j & -> & Hj & Hget & Hno)].
  - split; [lia |]. split; [by left |]. intros e He [-> | (j & -> & Hget)]; [lia |].
    destruct (Hno j); [lia |]. by rewrite Nat.sub_0_r.
  - rewrite Nat.sub_0_r in Hget. split; [lia |]. split; [right; by exists j |].
    intros e He [-> | (j' & -> & Hget')]; [lia |].
    destruct (decide (j < j')); [| lia]. destruct (Hno j'); [lia |]. by rewrite Nat.sub_0_r.
Qed.

Lemma groups_from_spec {T} (groups : gmap string (list T)) s fuel stop : stop < fuel →
  let l := groups_from groups s fuel stop in
  (∀ e g, (e, g) ∈ l ↔
     (e = stop ∨ e < stop ∧ boundary s e) ∧ groups !! String.substring 0 e s = Some g ∧ g ≠ []) ∧
  StronglySorted (λ a b, b.1 < a.1) l.
Proof.
  revert stop. induction fuel as [| fuel IH]; intros stop Hlt; [lia |]. cbn zeta. cbn [groups_from].
  set (rest := if bool_decide (stop = 0) then [] else _).
  assert ((∀ e g, (e, g) ∈ rest ↔
             (e < stop ∧ boundary s e) ∧ groups !! String.substring 0 e s = Some g ∧ g ≠ []) ∧
          StronglySorted (λ a b, b.1 < a.1) rest) as [Hin Hsort].
  { unfold rest. case_bool_decide as H0.
    - split; [| constructor]. intros e g. split; [by intros ?%elem_of_nil | lia].
    - destruct (last_slash_boundary s stop) as (Hr & Hb & Hmax); [lia |].
      destruct (IH (last_slash s 0 (stop - 1) 0)) as [Hin Hsort]; [lia |]. split; [| done].
      intros e g. rewrite Hin. split; intros [He Hg]; (split; [| done]).
      + destruct He as [-> | [? ?]]; [done | split; [lia | done]].
      + destruct He as [He Hbe]. pose proof (Hmax e He Hbe).
        destruct (decide (e = last_slash s 0 (stop - 1) 0)); [by left | right]. split; [lia | done]. }
  clearbody rest. destruct (groups !! String.substring 0 stop s) as [[| x g0] |] eqn:Hg; cbn [default id];
    (split; [| try done]).
  1, 4: intros e g; rewrite Hin; split; [by intros [[? ?] ?]; eauto |];
    intros [[-> | He] [Hl Hne]]; [congruence | done].
  - intros e g. rewrite elem_of_cons, Hin. split.
    + intros [[= -> ->] | [[? ?] ?]]; [| by eauto]. split; [by left | done].
    + intros [[-> | He] [Hl Hne]]; [left; congruence | by right].
  - constructor; [done |]. apply Forall_forall. intros [e g] [[? _] _]%Hin. done.
Qed.

(** [Groups] yields exactly the nonempty groups of the whole coordinate and of
    its slash-terminated prefixes, the empty one included, each once and longest
    first; its loop ends. *)
Theorem Groups_exact {T} (groups : gmap string (list T)) coordinate :
  (∀ e g, (e, g) ∈ Groups groups coordinate ↔
     (e = String.length coordinate ∨ e < String.length coordinate ∧ boundary coordinate e) ∧
     groups !! String.substring 0 e coordinate = Some g ∧ g ≠ []) ∧
  StronglySorted (λ a b, b.1 < a.1) (Groups groups coordinate).
Proof. apply groups_from_spec. lia. Qed.
