(* ===== verification/Tree.v ===== *)
(** * Confined in-memory filesystems (pkg/tree)

    An immutable tree is a stack of layers: each holds indexed nodes by path and
    masks removed subtrees of the layers below.  A builder is a private top layer.
    [resolve] follows symbolic links inside the tree, with eight traversals at
    most.  Foreign inputs (an [fs.FS] below the layers, and [Mount]) are not
    modelled: every lower here is an indexed tree.  A directory's index holds
    the names of its entries; the entry of a name is the node its path
    indexes. *)

From S2P Require Import Prelude GoPath.

Inductive ntype := TDir | TFile | TLink | TOther.

#[export] Instance ntype_eq_dec : EqDecision ntype.
Proof. solve_decision. Defined.

(** [node]: the type bits of [mode] are [n_type], the rest [n_perm]. *)
Record node := mkNode {
  n_name : string;
  n_type : ntype;
  n_perm : Z;
  n_data : string;
  n_target : string;
  n_children : list string;
}.

Definition IsDir (n : node) : bool := bool_decide (n.(n_type) = TDir).
Definition is_link (n : node) : bool := bool_decide (n.(n_type) = TLink).

Inductive cause := ErrNotExist | ErrInvalid | ErrEscape | ErrLoop | ErrConflict | ErrSealed.

#[export] Instance cause_eq_dec : EqDecision cause.
Proof. solve_decision. Defined.

(** [fs.PathError]. *)
Record path_error := mkPathError { e_op : string; e_path : string; e_err : cause }.

Record layer := mkLayer { nodes : gmap string node; removed : gset string }.

(** [view] without a foreign input: the layer and its lowers, top first. *)
Definition view : Type := list layer.

(** The ancestors walk of [masked]. *)
Fixpoint masked_from (removed : gset string) (fuel : nat) (p : string) : bool :=
  bool_decide (p ∈ removed) ||
  match fuel with
  | O => false
  | S fuel => if bool_decide (p = ".") then false else masked_from removed fuel (Dir p)
  end.

Definition masked (l : layer) (name : string) : bool :=
  masked_from l.(removed) (length (Split name)) name.

Fixpoint lookup (t : view) (name : string) : option node :=
  match t with
  | [] => None
  | l :: lower =>
      match l.(nodes) !! name with
      | Some n => Some n
      | None =>
          match lower with
          | [] => None
          | _ => if masked l name then None else lookup lower name
          end
      end
  end.

(** ** Resolution *)

Definition maxSymbolicLinkDepth : nat := 8.

Record pathResolution := mkRes {
  current : string;
  remaining : string;
  r_node : node;
  hops : nat;
}.

(** [followLink]. *)
Definition followLink (t : view) (r : pathResolution) (n : node) (rest : string) (found : bool)
    : pathResolution + cause :=
  if IsAbs n.(n_target) then inr ErrEscape
  else if maxSymbolicLinkDepth <? S r.(hops) then inr ErrLoop
  else
    let remaining := if found then n.(n_target) +:+ String slash rest else n.(n_target) in
    if bool_decide (n.(n_target) = "") then inr ErrNotExist
    else match lookup t r.(current) with
         | None => inr ErrNotExist
         | Some m => inl (mkRes r.(current) remaining m (S r.(hops)))
         end.

(** [advance]. *)
Definition advance (t : view) (follow : bool) (r : pathResolution) (part rest : string) (found : bool)
    : pathResolution + cause :=
  let next := Child r.(current) part in
  match lookup t next with
  | None => inr ErrNotExist
  | Some n =>
      if is_link n && (follow || found) then followLink t r n rest found
      else if found && negb (IsDir n) then inr ErrInvalid
      else inl (mkRes next rest n r.(hops))
  end.

(** One turn of the loop of [pathResolution.resolve]. *)
Definition resolution_step (t : view) (follow : bool) (r : pathResolution)
    : pathResolution + (string * node + cause) :=
  if bool_decide (r.(remaining) = "") then inr (inl (r.(current), r.(r_node)))
  else
    let '(part, rest, found) := Cut r.(remaining) in
    if bool_decide (part = "") || bool_decide (part = ".")
    then inl (mkRes r.(current) rest r.(r_node) r.(hops))
    else if bool_decide (part = "..") then
      if bool_decide (r.(current) = ".") then inr (inr ErrEscape)
      else match lookup t (Dir r.(current)) with
           | None => inr (inr ErrNotExist)
           | Some n => inl (mkRes (Dir r.(current)) rest n r.(hops))
           end
    else match advance t follow r part rest found with
         | inl r => inl r
         | inr e => inr (inr e)
         end.

(** The total length of the link targets, which with the hop limit bounds the loop. *)
Definition target_total (t : view) : nat :=
  foldr (λ l m, map_fold (λ _ n m, String.length n.(n_target) + m) 0 l.(nodes) + m) 0 t.

Definition resolve_slow (t : view) (name : string) (follow : bool) : string * node + cause :=
  match lookup t "." with
  | None => inr ErrNotExist
  | Some n =>
      default (inr ErrLoop)
        (loop (resolution_step t follow)
           (String.length name + maxSymbolicLinkDepth * (target_total t + 1))
           (mkRes "." name n 0))
  end.

(** [resolve], with its two indexed shortcuts. *)
Definition resolve (t : view) (name : string) (follow : bool) : string * node + cause :=
  if contains_nul name || bool_decide (name = "") then inr ErrInvalid
  else if IsAbs name then inr ErrEscape
  else
    let top := match t with [] => ∅ | l :: _ => l.(nodes) end in
    let hit (o : option node) := match o with
                                 | Some n => if negb follow || negb (is_link n) then Some n else None
                                 | None => None
                                 end in
    match (if ValidPath name then hit (top !! name) else None) with
    | Some n => inl (name, n)
    | None =>
        match (if ValidPath name then hit (lookup t name) else None) with
        | Some n => inl (name, n)
        | None => resolve_slow t name follow
        end
    end.

Definition Resolve (t : view) (name : string) : string + path_error :=
  match resolve t name true with
  | inl (p, _) => inl p
  | inr e => inr (mkPathError "resolve" name e)
  end.

Definition readNode (t : view) (op name : string) (follow : bool) : node + path_error :=
  if negb (ValidPath name) then inr (mkPathError op name ErrInvalid)
  else match resolve t name follow with
       | inr e => inr (mkPathError op name e)
       | inl (p, n) =>
           inl (if bool_decide (p ≠ name)
                then mkNode (Base name) n.(n_type) n.(n_perm) n.(n_data) n.(n_target) n.(n_children)
                else n)
       end.

Definition ReadFile (t : view) (name : string) : string + path_error :=
  match readNode t "readfile" name true with
  | inr e => inr e
  | inl n => if IsDir n then inr (mkPathError "readfile" name ErrInvalid) else inl n.(n_data)
  end.

Definition ReadDir (t : view) (name : string) : list string + path_error :=
  match readNode t "readdir" name true with
  | inr e => inr e
  | inl n => if negb (IsDir n) then inr (mkPathError "readdir" name ErrInvalid) else inl n.(n_children)
  end.

Definition Stat (t : view) (name : string) := readNode t "stat" name true.
Definition Lstat (t : view) (name : string) := readNode t "lstat" name false.

Definition ReadLink (t : view) (name : string) : string + path_error :=
  match readNode t "readlink" name false with
  | inr e => inr e
  | inl n => if negb (is_link n) then inr (mkPathError "readlink" name ErrInvalid) else inl n.(n_target)
  end.

(** ** Builders *)

Record Builder := mkBuilder { top : layer; lowers : view; sealed : bool }.

Definition b_view (b : Builder) : view := b.(top) :: b.(lowers).

Definition defaultDirectoryMode : Z := 493.
Definition symbolicLinkMode : Z := 511.

Definition new_directory (name : string) : node :=
  mkNode (Base name) TDir defaultDirectoryMode "" "" [].

(** [NewBuilder] over an indexed tree, or over nothing. *)
Definition NewBuilder (lower : option view) : Builder :=
  match lower with
  | None => mkBuilder (mkLayer {["." := mkNode "." TDir defaultDirectoryMode "" "" []]} ∅) [] false
  | Some t => mkBuilder (mkLayer ∅ ∅) t false
  end.

Definition set_node (name : string) (n : node) (b : Builder) : Builder :=
  mkBuilder (mkLayer (<[name := n]> b.(top).(nodes)) b.(top).(removed)) b.(lowers) b.(sealed).

(** [slices.BinarySearchFunc] and [slices.Insert] on the sorted index. *)
Fixpoint insert_child (name : string) (children : list string) : list string :=
  match children with
  | [] => [name]
  | c :: cs =>
      match compare name c with
      | Lt => name :: c :: cs
      | Eq => c :: cs
      | Gt => c :: insert_child name cs
      end
  end.

Definition with_children (cs : list string) (n : node) : node :=
  mkNode n.(n_name) n.(n_type) n.(n_perm) n.(n_data) n.(n_target) cs.

(** [put], given how a directory is obtained. *)
Definition put_with (directory : Builder → string → (Builder * node) + cause)
    (b : Builder) (name : string) (n : node) : Builder + cause :=
  if bool_decide (name ≠ ".") then
    match directory b (Dir name) with
    | inr e => inr e
    | inl (b, parent) =>
        inl (set_node name n
               (set_node (Dir name) (with_children (insert_child n.(n_name) parent.(n_children)) parent) b))
    end
  else inl (set_node name n b).

(** [directory]; the recursion climbs to the parent. *)
Fixpoint directory (fuel : nat) (b : Builder) (name : string) : (Builder * node) + cause :=
  match b.(top).(nodes) !! name with
  | Some n => if IsDir n then inl (b, n) else inr ErrConflict
  | None =>
      let created :=
        match lookup (b_view b) name with
        | Some lower => if IsDir lower then inl lower else inr ErrConflict
        | None => inl (new_directory name)
        end in
      match created, fuel with
      | inr e, _ => inr e
      | inl n, O => inr ErrInvalid
      | inl n, S fuel =>
          match put_with (directory fuel) b name n with
          | inr e => inr e
          | inl b => inl (b, n)
          end
      end
  end.

Definition depth (name : string) : nat := S (length (Split name)).

Definition put (b : Builder) (name : string) (n : node) : Builder + cause :=
  put_with (directory (depth name)) b name n.

Definition normalize (b : Builder) (op name : string) : string + path_error :=
  if b.(sealed) then inr (mkPathError op name ErrSealed)
  else
    let p := Clean name in
    if bool_decide (name = "") || contains_nul name || negb (ValidPath p)
    then inr (mkPathError op name ErrInvalid) else inl p.

Definition AddFile (b : Builder) (name data : string) (mtype : ntype) (perm : Z)
    : Builder + path_error :=
  match normalize b "addfile" name with
  | inr e => inr e
  | inl p =>
      if bool_decide (p = ".") || bool_decide (mtype ≠ TFile)
      then inr (mkPathError "addfile" name ErrInvalid)
      else if match lookup (b_view b) p with
              | Some n => bool_decide (n.(n_type) ≠ TFile) | None => false end
      then inr (mkPathError "addfile" name ErrConflict)
      else match put b p (mkNode (Base p) mtype perm data "" []) with
           | inr e => inr (mkPathError "addfile" name e)
           | inl b => inl b
           end
  end.

Definition AddSymlink (b : Builder) (name target : string) : Builder + path_error :=
  match normalize b "addsymlink" name with
  | inr e => inr e
  | inl p =>
      if bool_decide (p = ".") || contains_nul target
      then inr (mkPathError "addsymlink" name ErrInvalid)
      else if match lookup (b_view b) p with Some n => negb (is_link n) | None => false end
      then inr (mkPathError "addsymlink" name ErrConflict)
      else match put b p (mkNode (Base p) TLink symbolicLinkMode "" target []) with
           | inr e => inr (mkPathError "addsymlink" name e)
           | inl b => inl b
           end
  end.

(** The nodes a removal keeps. *)
Definition keeps (p key : string) : Prop :=
  p ≠ "." ∧ key ≠ p ∧ HasPrefix key (p +:+ String slash "") = false.

#[export] Instance keeps_dec p key : Decision (keeps p key).
Proof. unfold keeps. apply _. Defined.

Definition RemoveAll (b : Builder) (name : string) : Builder + path_error :=
  match normalize b "removeall" name with
  | inr e => inr e
  | inl p =>
      let kept := filter (λ kn, keeps p kn.1) b.(top).(nodes) in
      let b := mkBuilder (mkLayer kept ({[p]} ∪ b.(top).(removed))) b.(lowers) b.(sealed) in
      if bool_decide (p = ".")
      then inl (set_node "." (mkNode "." TDir defaultDirectoryMode "" "" []) b)
      else
        let parentPath := Dir p in
        match lookup (b_view b) parentPath with
        | None => inl b
        | Some n =>
            if negb (IsDir n) then inl b
            else match directory (depth parentPath) b parentPath with
                 | inr e => inr (mkPathError "removeall" name e)
                 | inl (b, parent) =>
                     inl (set_node parentPath
                            (with_children (filter (λ c, c ≠ Base p) parent.(n_children)) parent) b)
                 end
        end
  end.

(** [Build] transfers the view and leaves an empty sealed builder. *)
Definition Build (b : Builder) : (view * Builder) + path_error :=
  if b.(sealed) then inr (mkPathError "build" "." ErrSealed)
  else inl (b_view b, mkBuilder (mkLayer ∅ ∅) [] true).

(** ** Lookups *)

Section lookups.
Context (t : view).

(** A tree: the root is a directory, names are canonical, parents are directories. *)
Record wf : Prop := mkWf {
  wf_root : ∃ n, lookup t "." = Some n ∧ IsDir n = true;
  wf_name : ∀ name n, lookup t name = Some n → ∃ ps, parts_ok ps ∧ name = path_of ps;
  wf_parent : ∀ ps p n, parts_ok (ps ++ [p]) → lookup t (path_of (ps ++ [p])) = Some n →
    ∃ d, lookup t (path_of ps) = Some d ∧ IsDir d = true;
}.

Lemma wf_ancestor ps rest n :
  wf → rest ≠ [] → parts_ok (ps ++ rest) → lookup t (path_of (ps ++ rest)) = Some n →
  ∃ d, lookup t (path_of ps) = Some d ∧ IsDir d = true.
Proof.
  intros Hwf. revert n. induction rest as [|p rest IH] using rev_ind; intros n Hne Hok Hl; [done|].
  rewrite app_assoc in Hok, Hl. destruct (wf_parent Hwf _ _ _ Hok Hl) as (d & Hd & Hdir).
  destruct rest as [|q rest]; [rewrite app_nil_r in Hd; eauto|].
  apply parts_ok_app in Hok as [Hok _]. by apply (IH d).
Qed.

Lemma dir_not_link n : IsDir n = true → is_link n = false.
Proof. unfold IsDir, is_link. destruct (n_type n); by rewrite ?bool_decide_eq_true. Qed.
End lookups.

Lemma target_total_lookup t name n :
  lookup t name = Some n → String.length n.(n_target) ≤ target_total t.
Proof.
  induction t as [|l t IH]; simpl; [done|].
  destruct (nodes l !! name) as [m|] eqn:Hm.
  - intros [= ->]. unfold target_total; simpl. fold (target_total t).
    pose proof (weigh_delete (λ n, String.length (n_target n)) (nodes l) name n Hm) as Hw.
    unfold weigh in Hw. lia.
  - intros Hl. assert (String.length (n_target n) ≤ target_total t).
    { apply IH. destruct t; [done|]. by destruct (masked l name). }
    unfold target_total in *; simpl. lia.
Qed.

Lemma Cut_shorter s p r f : s ≠ "" → Cut s = (p, r, f) → String.length r < String.length s.
Proof.
  intros Hs. destruct s as [|c s]; [done|]. clear Hs. revert p r f c.
  induction s as [|d s IH]; intros p r f c; simpl.
  - destruct (bool_decide (c = slash)); intros [= _ <- _]; simpl; lia.
  - destruct (bool_decide (c = slash)) eqn:Hc; [intros [= _ <- _]; simpl; lia|].
    specialize (λ p r f, IH p r f d). simpl in IH.
    destruct (bool_decide (d = slash)); [intros [= _ <- _]; lia|].
    destruct (Cut s) as [[p' r'] f']. intros [= _ <- _].
    specialize (IH _ _ _ eq_refl). lia.
Qed.

(** ** The resolution loop *)

Section resolution.
Context (t : view) (follow : bool).
Hypothesis Hwf : wf t.

Definition res_inv (r : pathResolution) : Prop :=
  ∃ ps, parts_ok ps ∧ r.(current) = path_of ps ∧ lookup t r.(current) = Some r.(r_node) ∧
    r.(hops) ≤ maxSymbolicLinkDepth ∧
    (is_link r.(r_node) = true → follow = false ∧ r.(remaining) = "").

Definition res_measure (r : pathResolution) : nat :=
  String.length r.(remaining) + (maxSymbolicLinkDepth - r.(hops)) * (target_total t + 1).

Definition res_post (x : string * node + cause) : Prop :=
  match x with
  | inl (p, n) => (∃ ps, parts_ok ps ∧ p = path_of ps) ∧ lookup t p = Some n ∧
                  (follow = true → is_link n = false)
  | inr _ => True
  end.

Lemma advance_inl r part rest found r' :
  res_inv r → r.(remaining) ≠ "" → Cut r.(remaining) = (part, rest, found) →
  advance t follow r part rest found = inl r' →
  res_inv r' ∧ res_measure r' < res_measure r.
Proof.
  intros (ps & Hok & Hcur & Hl & Hh & Hlink) Hne Hcut. pose proof (Cut_shorter _ _ _ _ Hne Hcut) as Hsh.
  unfold advance. destruct (lookup t (Child (current r) part)) as [n|] eqn:Hn; [|done].
  destruct (is_link n && (follow || found)) eqn:Hfl.
  - unfold followLink. destruct (IsAbs _); [done|].
    destruct (Nat.ltb_spec maxSymbolicLinkDepth (S (hops r))); [done|].
    case_bool_decide; [done|]. rewrite Hl. intros [= <-]. split.
    + exists ps. simpl. split_and!; try done. intros Hk. by destruct (Hlink Hk).
    + unfold res_measure; simpl. pose proof (target_total_lookup _ _ _ Hn) as Ht.
      assert (String.length (if found then n_target n +:+ String slash rest else n_target n)
              ≤ target_total t + 1 + String.length rest) as Hlen.
      { destruct found; [rewrite length_string_app; simpl; lia|lia]. }
      assert (maxSymbolicLinkDepth - hops r = S (maxSymbolicLinkDepth - S (hops r))) as -> by lia.
      simpl. lia.
  - destruct (found && negb (IsDir n)) eqn:Hd; [done|]. intros [= <-].
    destruct (wf_name t Hwf _ _ Hn) as (qs & Hqs & Hq). split.
    + exists qs. simpl. split_and!; try done. intros Hk. rewrite Hk in Hfl. simpl in Hfl.
      apply orb_false_iff in Hfl as [-> ->]. split; [done|].
      pose proof (Cut_spec (remaining r)) as Hcs. destruct (Split (remaining r)) as [|p1 ps1]; [done|].
      rewrite Hcut in Hcs. injection Hcs as _ -> Hb. symmetry in Hb.
      apply bool_decide_eq_false, not_ne in Hb. by subst.
    + unfold res_measure; simpl. lia.
Qed.

Lemma resolution_inl r r' :
  res_inv r → resolution_step t follow r = inl r' → res_inv r' ∧ res_measure r' < res_measure r.
Proof.
  intros Hi. unfold resolution_step. case_bool_decide as Hne; [done|].
  destruct (Cut (remaining r)) as [[part rest] found] eqn:Hcut.
  pose proof (Cut_shorter _ _ _ _ Hne Hcut) as Hsh.
  assert (is_link (r_node r) = false) as Hnl.
  { destruct Hi as (ps & _ & _ & _ & _ & Hk). destruct (is_link (r_node r)); [|done].
    by destruct (Hk eq_refl). }
  destruct (_ || _).
  { intros [= <-]. destruct Hi as (ps & Hok & Hcur & Hl & Hh & _).
    split; [|unfold res_measure; simpl; lia]. exists ps. simpl. split_and!; try done. congruence. }
  case_bool_decide as Hdd.
  - case_bool_decide as Hroot; [done|].
    destruct (lookup t (Dir (current r))) as [n|] eqn:Hn; [|done]. intros [= <-].
    destruct Hi as (ps & Hok & Hcur & Hl & Hh & _).
    split; [|unfold res_measure; simpl; lia].
    destruct ps as [|p ps] using rev_ind; [done|]. clear IHps.
    rewrite Hcur, Dir_path_of in Hn |- * by done. rewrite Hcur in Hl.
    destruct (wf_parent t Hwf _ _ _ Hok Hl) as (d & Hd & Hdir).
    exists ps. simpl. apply parts_ok_app in Hok as [Hok _]. split_and!; try done.
    rewrite Hd in Hn. injection Hn as <-. apply dir_not_link in Hdir. congruence.
  - destruct (advance t follow r part rest found) as [r1|] eqn:Ha; [|done]. intros [= <-].
    by eapply advance_inl.
Qed.

Lemma resolution_inr r x : res_inv r → resolution_step t follow r = inr x → res_post x.
Proof.
  intros (ps & Hok & Hcur & Hl & Hh & Hlink). unfold resolution_step. case_bool_decide as Hne.
  - intros [= <-]. simpl. split_and!; [eauto|done|]. intros ->.
    destruct (is_link (r_node r)); [|done]. by destruct (Hlink eq_refl).
  - destruct (Cut (remaining r)) as [[part rest] found].
    repeat (case_match; simplify_eq; try done); by intros [= <-].
Qed.

(** The loop returns, within its fuel, a node of the tree. *)
Lemma resolution_loop name n :
  lookup t "." = Some n → IsDir n = true →
  ∃ x, loop (resolution_step t follow)
         (String.length name + maxSymbolicLinkDepth * (target_total t + 1)) (mkRes "." name n 0)
       = Some x ∧ res_post x.
Proof.
  intros Hr Hdir. apply (loop_spec _ res_inv res_measure).
  - apply resolution_inl.
  - apply resolution_inr.
  - exists []. simpl. split_and!; [constructor|done|done|lia|].
    intros Hk. apply dir_not_link in Hdir. congruence.
  - done.
Qed.

Lemma resolve_slow_post name : res_post (resolve_slow t name follow).
Proof.
  unfold resolve_slow. destruct (wf_root t Hwf) as (n & Hr & Hdir). rewrite Hr.
  by destruct (resolution_loop name n Hr Hdir) as (x & -> & Hx).
Qed.
End resolution.

(** ** The indexed shortcuts agree with the walk *)

Section shortcut.
Context (t : view) (follow : bool).
Hypothesis Hwf : wf t.

Lemma is_dot_part p : valid_part p = true → (bool_decide (p = "") || bool_decide (p = ".")) = false.
Proof. intros (H1 & H2 & _)%valid_part_spec. by rewrite !bool_decide_eq_false_2. Qed.

(** Walking down the remaining components of a path that exists. *)
Lemma walk_down rest ps m h n :
  parts_ok (ps ++ rest) → rest ≠ [] → lookup t (path_of (ps ++ rest)) = Some n →
  (follow = true → is_link n = false) →
  loop (resolution_step t follow) (length rest) (mkRes (path_of ps) (Join rest) m h)
  = Some (inl (path_of (ps ++ rest), n)).
Proof.
  revert ps m. induction rest as [|p rest IH]; intros ps m Hok Hne Hl Hlk; [done|].
  assert (parts_ok (p :: rest)) as Hpr by by apply parts_ok_app in Hok as [_ ?].
  assert (parts_ok ps) as Hps by by apply parts_ok_app in Hok as [? _].
  destruct (Join_first (p :: rest) Hpr) as [_ Hnonempty]; [done|].
  inversion Hpr as [|? ? [Hv Hs] Hrest]; subst.
  assert (Cut (Join (p :: rest)) = (p, Join rest, bool_decide (rest ≠ []))) as Hcut.
  { pose proof (Cut_spec (Join (p :: rest))) as Hc.
    by rewrite Split_Join in Hc by (done || by apply parts_no_slash). }
  assert (ps ++ p :: rest = (ps ++ [p]) ++ rest) as Happ by by rewrite <-app_assoc.
  cbn [loop length]. unfold resolution_step at 1. cbn [remaining current r_node hops].
  rewrite bool_decide_eq_false_2 by done. rewrite Hcut, is_dot_part by done.
  rewrite (bool_decide_eq_false_2 (p = "..")) by by apply valid_part_spec in Hv as (_ & _ & ?).
  unfold advance. cbn [current hops]. rewrite Child_path_of by done.
  destruct rest as [|q rest].
  - rewrite Hl. rewrite bool_decide_eq_false_2 by tauto. rewrite orb_false_r.
    assert (is_link n && follow = false) as ->.
    { destruct follow; [by rewrite Hlk|apply andb_false_r]. }
    cbn [andb negb length Join]. cbn [loop]. done.
  - rewrite Happ in Hl.
    destruct (wf_ancestor t (ps ++ [p]) (q :: rest) n Hwf) as (d & Hd & Hdir);
      [done|by rewrite <-Happ|done|].
    rewrite Hd, dir_not_link by done. rewrite bool_decide_eq_true_2 by done.
    rewrite Hdir. cbn [andb negb]. rewrite Happ. apply IH; try done. by rewrite <-Happ.
Qed.

Lemma resolve_slow_hit name n :
  ValidPath name = true → lookup t name = Some n → (follow = true → is_link n = false) →
  resolve_slow t name follow = inl (name, n).
Proof.
  intros Hv Hl Hlk. unfold resolve_slow. destruct (wf_root t Hwf) as (r & Hr & Hdir).
  rewrite Hr. destruct (resolution_loop t follow Hwf name r Hr Hdir) as (x & Hx & _).
  rewrite Hx. cbn [default from_option id].
  destruct (ValidPath_parts name Hv) as (ps & Hok & ->).
  destruct ps as [|p ps].
  - assert (loop (resolution_step t follow) 1 (mkRes "." "." r 0) = Some (inl (".", n))) as Hrun.
    { simpl path_of in Hl. rewrite Hr in Hl. by injection Hl as <-. }
    eapply loop_det; [exact Hx|exact Hrun].
  - pose proof (walk_down (p :: ps) [] r 0 n Hok ltac:(done) Hl Hlk) as Hrun.
    eapply loop_det; [exact Hx|exact Hrun].
Qed.

Lemma top_lookup name n :
  (match t with [] => ∅ | l :: _ => l.(nodes) end : gmap string node) !! name = Some n →
  lookup t name = Some n.
Proof. destruct t as [|l lower]; simpl; [done|]. by intros ->. Qed.
End shortcut.

(** ** Masks *)

Lemma masked_from_spec rm fuel ps :
  parts_ok ps → length ps ≤ fuel →
  masked_from rm fuel (path_of ps) = true ↔ ∃ qs, qs `prefix_of` ps ∧ path_of qs ∈ rm.
Proof.
  revert fuel. induction ps as [|p ps IH] using rev_ind; intros fuel Hok Hf.
  - assert (masked_from rm fuel (path_of []) = bool_decide ("." ∈ rm)) as ->.
    { destruct fuel; simpl; by rewrite orb_false_r. }
    rewrite bool_decide_eq_true. split; [by exists []|]. intros (qs & Hq & Hin).
    by apply prefix_nil_inv in Hq as ->.
  - rewrite length_app in Hf. simpl in Hf. destruct fuel as [|fuel]; [lia|]. cbn [masked_from].
    rewrite orb_true_iff, bool_decide_eq_true.
    rewrite (bool_decide_eq_false_2 (path_of (ps ++ [p]) = ".")).
    2:{ intros He. apply path_of_dot in He; [by destruct ps|done]. }
    rewrite Dir_path_of by done. rewrite IH by (lia || by apply parts_ok_app in Hok as [? _]).
    split.
    + intros [Hin|(qs & Hq & Hin)]; [by exists (ps ++ [p])|]. exists qs. split; [|done].
      etrans; [done|by apply prefix_app_r].
    + intros (qs & Hq & Hin). apply prefix_snoc_inv in Hq as [->|Hq]; [by left|right; eauto].
Qed.

Lemma masked_spec l ps :
  parts_ok ps → masked l (path_of ps) = true ↔
  ∃ qs, qs `prefix_of` ps ∧ path_of qs ∈ l.(removed).
Proof.
  intros Hok. unfold masked. apply masked_from_spec; [done|].
  destruct ps as [|p ps]; [simpl; lia|]. by rewrite Split_path_of.
Qed.

(** Masking is inherited by descendants. *)
Lemma masked_prefix l ps qs :
  parts_ok qs → ps `prefix_of` qs → masked l (path_of ps) = true → masked l (path_of qs) = true.
Proof.
  intros Hok Hp. assert (parts_ok ps) as Hps.
  { destruct Hp as [rest ->]. by apply parts_ok_app in Hok as [? _]. }
  rewrite !masked_spec by done. intros (rs & Hr & Hin). exists rs. split; [by etrans|done].
Qed.

(** ** The builder's invariant *)

(** What the builder's view sees below its top layer. *)
Definition below (b : Builder) (name : string) : option node :=
  if masked b.(top) name then None else lookup b.(lowers) name.

Lemma b_lookup b name :
  lookup (b_view b) name
  = match b.(top).(nodes) !! name with Some n => Some n | None => below b name end.
Proof.
  unfold b_view, below. simpl. destruct (nodes (top b) !! name); [done|].
  destruct (lowers b); [by destruct (masked _ _)|done].
Qed.

Record bwf (b : Builder) : Prop := mkBwf {
  bwf_lower : b.(lowers) = [] ∨ wf b.(lowers);
  bwf_root : ∃ n, lookup (b_view b) "." = Some n ∧ IsDir n = true;
  bwf_names : ∀ name n, b.(top).(nodes) !! name = Some n → ∃ ps, parts_ok ps ∧ name = path_of ps;
  (* the ancestors of an indexed node are indexed directories *)
  bwf_parents : ∀ ps p n, parts_ok (ps ++ [p]) → b.(top).(nodes) !! path_of (ps ++ [p]) = Some n →
    ∃ d, b.(top).(nodes) !! path_of ps = Some d ∧ IsDir d = true;
  (* an indexed non-directory hides no lower directory *)
  bwf_shadow : ∀ name n d, b.(top).(nodes) !! name = Some n → IsDir n = false →
    below b name = Some d → IsDir d = false;
}.

Lemma below_parent b ps p n :
  b.(lowers) = [] ∨ wf b.(lowers) → parts_ok (ps ++ [p]) → below b (path_of (ps ++ [p])) = Some n →
  ∃ d, below b (path_of ps) = Some d ∧ IsDir d = true.
Proof.
  intros Hlow Hok. unfold below. destruct (masked (top b) (path_of (ps ++ [p]))) eqn:Hm; [done|].
  destruct (masked (top b) (path_of ps)) eqn:Hm'.
  - by rewrite (masked_prefix _ ps (ps ++ [p])) in Hm by (done || by apply prefix_app_r).
  - destruct Hlow as [->|Hwf]; [done|]. by apply wf_parent.
Qed.

(** A builder's view is a tree. *)
Lemma bwf_wf b : bwf b → wf (b_view b).
Proof.
  intros [Hlow Hroot Hnames Hpar Hsh]. split; [done|..].
  - intros name n. rewrite b_lookup. destruct (nodes (top b) !! name) eqn:E; [eauto|].
    unfold below. destruct (masked _ _); [done|]. destruct Hlow as [->|Hwf]; [done|].
    by apply wf_name.
  - intros ps p n Hok. rewrite !b_lookup.
    destruct (nodes (top b) !! path_of (ps ++ [p])) as [m|] eqn:Em.
    + intros _. destruct (Hpar _ _ _ Hok Em) as (d & -> & Hd). eauto.
    + intros Hb. destruct (below_parent _ _ _ _ Hlow Hok Hb) as (d & Hd & Hdir).
      destruct (nodes (top b) !! path_of ps) as [m|] eqn:Ep; [|eauto].
      exists m. split; [done|]. destruct (IsDir m) eqn:Em'; [done|].
      by rewrite (Hsh _ _ _ Ep Em' Hd) in Hdir.
Qed.

(** ** Writing nodes *)

Definition indexed_dir (b : Builder) (name : string) : Prop :=
  ∃ d, b.(top).(nodes) !! name = Some d ∧ IsDir d = true.

Definition same_frame (b b' : Builder) : Prop :=
  b'.(lowers) = b.(lowers) ∧ b'.(top).(removed) = b.(top).(removed) ∧ b'.(sealed) = b.(sealed).

Lemma same_frame_below b b' name : same_frame b b' → below b' name = below b name.
Proof. intros (Hl & Hr & _). unfold below, masked. by rewrite Hl, Hr. Qed.

Lemma bwf_ancestors b ps rest n :
  bwf b → parts_ok (ps ++ rest) → b.(top).(nodes) !! path_of (ps ++ rest) = Some n →
  rest ≠ [] → indexed_dir b (path_of ps).
Proof.
  intros Hb. revert n. induction rest as [|p rest IH] using rev_ind; intros n Hok Hn Hne; [done|].
  rewrite app_assoc in Hok, Hn. destruct (bwf_parents b Hb _ _ _ Hok Hn) as (d & Hd & Hdir).
  destruct rest as [|q rest]; [rewrite app_nil_r in Hd; by exists d|].
  apply parts_ok_app in Hok as [Hok _]. by apply (IH d).
Qed.

(** Writing a directory over a directory or over nothing indexed. *)
Lemma set_dir_bwf b ps n :
  bwf b → parts_ok ps → IsDir n = true →
  (∀ ps' p, ps = ps' ++ [p] → indexed_dir b (path_of ps')) →
  bwf (set_node (path_of ps) n b).
Proof.
  intros [Hlow Hroot Hnames Hpar Hsh] Hok Hdir Hparent. split; [done|..].
  - rewrite b_lookup. unfold set_node; simpl. rewrite lookup_insert. case_decide as He; [eauto|].
    rewrite b_lookup in Hroot. done.
  - intros name m. unfold set_node; simpl. rewrite lookup_insert. case_decide; [|by eauto].
    intros _. eexists; by split.
  - intros qs q m Hqok. unfold set_node; simpl. rewrite !lookup_insert.
    destruct (decide (path_of ps = path_of qs)); [by eauto|].
    destruct (decide (path_of ps = path_of (qs ++ [q]))) as [He|]; [|by apply Hpar].
    intros _. apply path_of_inj in He; [|done..]. by eapply Hparent.
  - intros name m d. unfold set_node; simpl. rewrite lookup_insert.
    case_decide; [intros [= <-]; congruence|]. by apply Hsh.
Qed.

(** Writing a file or a link where no directory was visible. *)
Lemma set_leaf_bwf b ps n :
  bwf b → parts_ok ps → ps ≠ [] → IsDir n = false →
  (∀ ps' p, ps = ps' ++ [p] → indexed_dir b (path_of ps')) →
  (∀ d, b.(top).(nodes) !! path_of ps = Some d → IsDir d = false) →
  (∀ d, below b (path_of ps) = Some d → IsDir d = false) →
  bwf (set_node (path_of ps) n b).
Proof.
  intros [Hlow Hroot Hnames Hpar Hsh] Hok Hne Hdir Hparent Htop Hbel. split; [done|..].
  - rewrite b_lookup. unfold set_node; simpl. rewrite lookup_insert_ne.
    2:{ intros He. by apply path_of_dot in He. }
    by rewrite b_lookup in Hroot.
  - intros name m. unfold set_node; simpl. rewrite lookup_insert. case_decide; [|by eauto].
    intros _. eexists; by split.
  - intros qs q m Hqok. unfold set_node; simpl. rewrite !lookup_insert. intros Hm.
    destruct (decide (path_of ps = path_of (qs ++ [q]))) as [He|].
    + apply path_of_inj in He; [|done..]. destruct (Hparent _ _ He) as (d & Hd & Hdd).
      exists d. split; [|done]. rewrite decide_False; [done|]. intros Heq.
      apply path_of_inj in Heq; [|done|by apply parts_ok_app in Hqok as [? _]].
      subst ps. apply (f_equal length) in Heq. rewrite length_app in Heq. simpl in Heq. lia.
    + destruct (Hpar _ _ _ Hqok Hm) as (d & Hd & Hdd). exists d. split; [|done].
      rewrite decide_False; [done|]. intros Heq. rewrite <-Heq in Hd. apply Htop in Hd. congruence.
  - intros name m d. unfold set_node; simpl. rewrite lookup_insert.
    case_decide as He; [intros _ _ Hb; subst name; by apply Hbel|]. by apply Hsh.
Qed.

(** The path and its ancestors are indexed directories, and nothing else moved. *)
Definition made_dirs (b b' : Builder) (ps : list string) : Prop :=
  bwf b' ∧ same_frame b b' ∧
  (∀ qs, qs `prefix_of` ps → indexed_dir b' (path_of qs)) ∧
  (∀ name, (∀ qs, qs `prefix_of` ps → name ≠ path_of qs) →
     b'.(top).(nodes) !! name = b.(top).(nodes) !! name).

(** What makes it fail: a visible non-directory on the way. *)
Definition blocked (b : Builder) (ps : list string) : Prop :=
  ∃ qs m, qs `prefix_of` ps ∧ lookup (b_view b) (path_of qs) = Some m ∧ IsDir m = false.

Lemma parts_ok_prefix qs ps : parts_ok ps → qs `prefix_of` ps → parts_ok qs.
Proof. intros Hok [rest ->]. by apply parts_ok_app in Hok as [? _]. Qed.

(** Once the parent's directories are made, so is the directory itself. *)
Lemma made_dirs_snoc b b1 ps p n parent cs :
  parts_ok (ps ++ [p]) → made_dirs b b1 ps → IsDir n = true →
  b1.(top).(nodes) !! path_of ps = Some parent → IsDir parent = true →
  made_dirs b (set_node (path_of (ps ++ [p])) n (set_node (path_of ps) (with_children cs parent) b1))
    (ps ++ [p]).
Proof.
  intros Hok (Hb1 & (Hl & Hr & Hs) & Hpre & Hoth) Hn Hp Hpd.
  assert (parts_ok ps) as Hps by by apply parts_ok_app in Hok as [? _].
  assert (bwf (set_node (path_of ps) (with_children cs parent) b1)) as Hb2.
  { apply set_dir_bwf; try done. intros ps' q ->. apply Hpre. by apply prefix_app_r. }
  split; [|split; [done|split]].
  - apply set_dir_bwf; try done. intros ps' q He. apply app_inj_tail in He as [<- <-].
    unfold indexed_dir, set_node; simpl. rewrite lookup_insert_eq. by eexists.
  - intros qs Hq. apply prefix_snoc_inv in Hq as [->|Hq]; unfold indexed_dir, set_node; simpl.
    + rewrite lookup_insert_eq. by eexists.
    + rewrite !lookup_insert. case_decide; [by eexists|]. case_decide; [by eexists|]. by apply Hpre.
  - intros name Hname. unfold set_node; simpl. rewrite !lookup_insert_ne.
    + apply Hoth. intros qs Hq. apply Hname. etrans; [done|by apply prefix_app_r].
    + intros He. apply (Hname ps); [by apply prefix_app_r|done].
    + intros He. by apply (Hname (ps ++ [p])).
Qed.

Lemma directory_spec fuel b ps :
  bwf b → parts_ok ps → length ps < fuel →
  match directory fuel b (path_of ps) with
  | inl (b', n) => made_dirs b b' ps ∧ b'.(top).(nodes) !! path_of ps = Some n ∧ IsDir n = true
  | inr e => e = ErrConflict ∧ blocked b ps
  end.
Proof.
  intros Hb. revert ps. induction fuel as [|fuel IH]; intros ps Hok Hlen; [lia|].
  cbn [directory]. destruct (nodes (top b) !! path_of ps) as [n|] eqn:Hn.
  { destruct (IsDir n) eqn:Hd.
    - split; [|done]. split_and!; try done. intros qs [rest ->].
      destruct rest as [|r rest]; [rewrite app_nil_r in *; by exists n|].
      by eapply bwf_ancestors.
    - split; [done|]. exists ps, n. split_and!; [done|by rewrite b_lookup, Hn|done]. }
  assert (∀ n, IsDir n = true →
    match put_with (directory fuel) b (path_of ps) n with
    | inl b' => made_dirs b b' ps ∧ b'.(top).(nodes) !! path_of ps = Some n
    | inr e => e = ErrConflict ∧ blocked b ps
    end) as Hput.
  { intros n Hd. unfold put_with. destruct ps as [|p ps] using rev_ind.
    - simpl. split; [|unfold set_node; simpl; by rewrite lookup_insert_eq].
      split; [apply (set_dir_bwf b [] n); try done; intros ps' p He; by destruct ps'|].
      split; [done|]. split.
      + intros qs Hq. apply prefix_nil_inv in Hq as ->. unfold indexed_dir, set_node; simpl.
        rewrite lookup_insert_eq. by eexists.
      + intros name Hname. unfold set_node; simpl. rewrite lookup_insert_ne; [done|].
        intros He. by apply (Hname []).
    - clear IHps. rewrite bool_decide_eq_true_2.
      2:{ intros He. apply path_of_dot in He; [by destruct ps|done]. }
      rewrite Dir_path_of by done. rewrite length_app in Hlen. simpl in Hlen.
      specialize (IH ps ltac:(by apply parts_ok_app in Hok as [? _]) ltac:(lia)).
      destruct (directory fuel b (path_of ps)) as [[b1 parent]|e].
      + destruct IH as (Hm & Hp & Hpd). split; [by apply made_dirs_snoc|].
        unfold set_node; simpl. by rewrite lookup_insert_eq.
      + destruct IH as (-> & qs & m & Hq & Hm). split; [done|]. exists qs, m.
        split; [etrans; [done|by apply prefix_app_r]|done]. }
  assert (∀ n, IsDir n = true →
    match (match put_with (directory fuel) b (path_of ps) n with inr e => inr e | inl b => inl (b, n) end)
    with
    | inl (b', n) => made_dirs b b' ps ∧ b'.(top).(nodes) !! path_of ps = Some n ∧ IsDir n = true
    | inr e => e = ErrConflict ∧ blocked b ps
    end) as Hcr.
  { intros n Hd. specialize (Hput n Hd). destruct (put_with _ _ _ _); [|done]. by destruct Hput. }
  destruct (lookup (b_view b) (path_of ps)) as [lower|] eqn:Hl; [|by apply Hcr].
  destruct (IsDir lower) eqn:Hd; [by apply Hcr|]. split; [done|]. by exists ps, lower.
Qed.

(** ** Adding files and links *)

Lemma depth_path_of ps p : parts_ok (ps ++ [p]) → length ps < depth (path_of ps).
Proof.
  intros Hok. unfold depth. destruct ps as [|q ps]; [simpl; lia|].
  rewrite Split_path_of; [lia|by apply parts_ok_app in Hok as [? _]|done].
Qed.

(** Writing a leaf whose place holds no directory. *)
Lemma put_leaf_spec b ps p n :
  bwf b → parts_ok (ps ++ [p]) → IsDir n = false →
  (∀ d, lookup (b_view b) (path_of (ps ++ [p])) = Some d → IsDir d = false) →
  match put b (path_of (ps ++ [p])) n with
  | inl b' => bwf b' ∧ same_frame b b' ∧
      lookup (b_view b') (path_of (ps ++ [p])) = Some n ∧
      (∀ qs, qs `prefix_of` ps → indexed_dir b' (path_of qs)) ∧
      (∀ name, (∀ qs, qs `prefix_of` ps ++ [p] → name ≠ path_of qs) →
         lookup (b_view b') name = lookup (b_view b) name)
  | inr e => e = ErrConflict ∧ blocked b ps
  end.
Proof.
  intros Hb Hok Hn Hfree. unfold put, put_with. rewrite bool_decide_eq_true_2.
  2:{ intros He. apply path_of_dot in He; [by destruct ps|done]. }
  rewrite Dir_path_of by done. pose proof (depth_path_of _ _ Hok) as Hdep.
  assert (parts_ok ps) as Hps by by apply parts_ok_app in Hok as [? _].
  assert (length ps < depth (path_of (ps ++ [p]))) as Hfuel.
  { unfold depth. rewrite Split_path_of by (done || by destruct ps). rewrite length_app. simpl. lia. }
  pose proof (directory_spec _ b ps Hb Hps Hfuel) as Hd.
  destruct (directory _ b (path_of ps)) as [[b1 parent]|e]; [|done].
  destruct Hd as ((Hb1 & Hfr & Hpre & Hoth) & Hpar & Hpd).
  set (cs := insert_child _ _). set (b2 := set_node (path_of ps) (with_children cs parent) b1).
  assert (bwf b2) as Hb2.
  { apply set_dir_bwf; try done. intros ps' q ->. apply Hpre. by apply prefix_app_r. }
  assert (same_frame b b2) as Hfr2 by done.
  assert (∀ name, (∀ qs, qs `prefix_of` ps → name ≠ path_of qs) →
            nodes (top b2) !! name = nodes (top b) !! name) as Hoth2.
  { intros name Hname. unfold b2, set_node; simpl. rewrite lookup_insert_ne; [by apply Hoth|].
    intros He. by apply (Hname ps). }
  assert (∀ qs, qs `prefix_of` ps → indexed_dir b2 (path_of qs)) as Hpre2.
  { intros qs Hq. unfold indexed_dir, b2, set_node; simpl. rewrite lookup_insert.
    case_decide; [by eexists|by apply Hpre]. }
  assert (∀ qs, qs `prefix_of` ps → path_of (ps ++ [p]) ≠ path_of qs) as Hself.
  { intros qs Hq He. apply path_of_inj in He; [|done|by eapply parts_ok_prefix].
    rewrite <-He in Hq. by apply prefix_snoc_not in Hq. }
  assert (lookup (b_view b2) (path_of (ps ++ [p])) = lookup (b_view b) (path_of (ps ++ [p]))) as Hsame.
  { by rewrite !b_lookup, Hoth2, (same_frame_below b b2). }
  split; [|split; [done|split; [|split]]].
  - apply set_leaf_bwf; try done; [by destruct ps|..].
    + intros ps' q He. apply app_inj_tail in He as [<- <-]. by apply Hpre2.
    + intros d Hdn. apply Hfree. by rewrite <-Hsame, b_lookup, Hdn.
    + intros d Hdn. destruct (nodes (top b2) !! path_of (ps ++ [p])) as [m|] eqn:E.
      * destruct (IsDir d) eqn:Hdd; [|done]. rewrite <-Hdd.
        apply (bwf_shadow b2 Hb2 _ m d E); [|done]. apply Hfree. by rewrite <-Hsame, b_lookup, E.
      * apply Hfree. by rewrite <-Hsame, b_lookup, E.
  - rewrite b_lookup. unfold set_node; simpl. by rewrite lookup_insert_eq.
  - intros qs Hq. unfold indexed_dir, set_node; simpl. rewrite lookup_insert_ne by by apply Hself.
    by apply Hpre2.
  - intros name Hname. rewrite !b_lookup. unfold set_node at 1; simpl.
    rewrite lookup_insert_ne by (intros He; by apply (Hname (ps ++ [p]))).
    rewrite Hoth2 by (intros qs Hq; apply Hname; etrans; [done|by apply prefix_app_r]).
    by rewrite (same_frame_below b).
Qed.

(** A name a builder operation accepts is a canonical path, and not sealed. *)
Lemma normalize_spec b op name p :
  normalize b op name = inl p → b.(sealed) = false ∧ p = Clean name ∧ ∃ ps, parts_ok ps ∧ p = path_of ps.
Proof.
  unfold normalize. destruct (sealed b); [done|]. destruct (_ || _ || _) eqn:E; [done|].
  intros [= <-]. rewrite !orb_false_iff, negb_false_iff in E. destruct E as [_ Hv].
  split; [done|split; [done|]]. by apply ValidPath_parts.
Qed.

(** The leaf an operation adds, and what it does to every other path. *)
Definition added (b b' : Builder) (p : string) (n : node) : Prop :=
  bwf b' ∧ lookup (b_view b') p = Some n ∧
  ∃ ps, parts_ok ps ∧ p = path_of ps ∧
    (∀ qs, qs `prefix_of` ps → qs ≠ ps →
       ∃ d, lookup (b_view b') (path_of qs) = Some d ∧ IsDir d = true) ∧
    (∀ qs, parts_ok qs → ¬ qs `prefix_of` ps →
       lookup (b_view b') (path_of qs) = lookup (b_view b) (path_of qs)).

Lemma put_leaf_added b p n b' :
  bwf b → (∃ ps, parts_ok ps ∧ p = path_of ps) → p ≠ "." → IsDir n = false →
  (∀ d, lookup (b_view b) p = Some d → IsDir d = false) →
  put b p n = inl b' → added b b' p n.
Proof.
  intros Hb (ps & Hok & ->) Hroot Hn Hfree Hput.
  destruct ps as [|p ps _] using rev_ind; [done|].
  pose proof (put_leaf_spec b ps p n Hb Hok Hn Hfree) as Hs. rewrite Hput in Hs.
  destruct Hs as (Hb' & _ & Hl & Hpre & Hoth). split; [done|split; [done|]].
  exists (ps ++ [p]). split; [done|split; [done|split]].
  - intros qs Hq Hne. apply prefix_snoc_inv in Hq as [->|Hq]; [done|].
    destruct (Hpre qs Hq) as (d & Hd & Hdd). exists d. by rewrite b_lookup, Hd.
  - intros qs Hqok Hq. apply Hoth. intros rs Hr He.
    pose proof (parts_ok_prefix rs (ps ++ [p]) Hok Hr) as Hrs.
    apply path_of_inj in He; [|done|done]. subst rs. by apply Hq.
Qed.

Lemma AddFile_inv b name data mtype perm b' :
  bwf b → AddFile b name data mtype perm = inl b' →
  added b b' (Clean name) (mkNode (Base (Clean name)) TFile perm data "" []).
Proof.
  intros Hb. unfold AddFile. destruct (normalize b "addfile" name) as [p|] eqn:Hnorm; [|done].
  apply normalize_spec in Hnorm as (_ & -> & Hp).
  destruct (bool_decide (Clean name = ".") || bool_decide (mtype ≠ TFile)) eqn:E; [done|].
  rewrite orb_false_iff, !bool_decide_eq_false, not_ne in E. destruct E as [Hroot ->].
  destruct (match lookup _ _ with Some _ => _ | None => _ end) eqn:Hc; [done|].
  destruct (put _ _ _) as [b1|] eqn:Hput; [|done]. intros [= <-].
  eapply put_leaf_added; try done. intros d Hd. rewrite Hd in Hc.
  rewrite bool_decide_eq_false, not_ne in Hc. unfold IsDir. by rewrite Hc.
Qed.

Lemma AddSymlink_inv b name target b' :
  bwf b → AddSymlink b name target = inl b' →
  added b b' (Clean name) (mkNode (Base (Clean name)) TLink symbolicLinkMode "" target []).
Proof.
  intros Hb. unfold AddSymlink. destruct (normalize b "addsymlink" name) as [p|] eqn:Hnorm; [|done].
  apply normalize_spec in Hnorm as (_ & -> & Hp).
  destruct (bool_decide (Clean name = ".") || contains_nul target) eqn:E; [done|].
  apply orb_false_iff in E as [Hroot _]. apply bool_decide_eq_false in Hroot.
  destruct (match lookup _ _ with Some _ => _ | None => _ end) eqn:Hc; [done|].
  destruct (put _ _ _) as [b1|] eqn:Hput; [|done]. intros [= <-].
  eapply put_leaf_added; try done. intros d Hd. rewrite Hd, negb_false_iff in Hc.
  unfold is_link, IsDir in *. apply bool_decide_eq_true in Hc. by rewrite Hc.
Qed.

(** ** Removing *)

(** The builder after the masking, before the parent's index is updated. *)
Definition cut_tree (b : Builder) (p : string) : Builder :=
  mkBuilder (mkLayer (filter (λ kn, keeps p kn.1) b.(top).(nodes)) ({[p]} ∪ b.(top).(removed)))
    b.(lowers) b.(sealed).

Lemma keeps_spec ps qs :
  parts_ok ps → parts_ok qs → ps ≠ [] → keeps (path_of ps) (path_of qs) ↔ ¬ ps `prefix_of` qs.
Proof.
  intros Hps Hqs Hne. unfold keeps. rewrite <-not_true_iff_false, HasPrefix_descendant by done.
  split.
  - intros (_ & Hk & Hd) Hp. apply Hd. split; [done|]. by intros ->.
  - intros Hp. split_and!.
    + intros He. by apply path_of_dot in He.
    + intros He. apply path_of_inj in He; [|done..]. by subst.
    + by intros [? _].
Qed.

Lemma cut_nodes b ps qs :
  parts_ok ps → parts_ok qs → ps ≠ [] → ¬ ps `prefix_of` qs →
  (cut_tree b (path_of ps)).(top).(nodes) !! path_of qs = b.(top).(nodes) !! path_of qs.
Proof.
  intros Hps Hqs Hne Hp. simpl. apply option_eq. intros n. rewrite map_lookup_filter_Some. simpl.
  rewrite keeps_spec by done. tauto.
Qed.

Lemma cut_below b ps qs :
  parts_ok ps → parts_ok qs →
  below (cut_tree b (path_of ps)) (path_of qs)
  = if decide (ps `prefix_of` qs) then None else below b (path_of qs).
Proof.
  intros Hps Hqs. unfold below; simpl.
  assert (masked (top (cut_tree b (path_of ps))) (path_of qs)
          = bool_decide (ps `prefix_of` qs) || masked (top b) (path_of qs)) as Hm.
  { apply eq_true_iff_eq. rewrite orb_true_iff, bool_decide_eq_true, !masked_spec by done. simpl.
    split.
    - intros (rs & Hr & [Hin%elem_of_singleton|Hin]%elem_of_union); [left|right; eauto].
      apply path_of_inj in Hin; [by subst| |done]. by eapply parts_ok_prefix.
    - intros [Hp|(rs & Hr & Hin)]; [exists ps|exists rs]; (split; [done|]); set_solver. }
  unfold cut_tree in Hm; simpl in Hm. rewrite Hm.
  destruct (decide (ps `prefix_of` qs)) as [Hp|Hp].
  - by rewrite bool_decide_eq_true_2.
  - by rewrite bool_decide_eq_false_2.
Qed.

Lemma cut_lookup b ps qs :
  parts_ok ps → parts_ok qs → ps ≠ [] →
  lookup (b_view (cut_tree b (path_of ps))) (path_of qs)
  = if decide (ps `prefix_of` qs) then None else lookup (b_view b) (path_of qs).
Proof.
  intros Hps Hqs Hne. rewrite !b_lookup, cut_below by done.
  destruct (decide (ps `prefix_of` qs)) as [Hp|Hp].
  - destruct (nodes (top (cut_tree b (path_of ps))) !! path_of qs) as [n|] eqn:E; [|done].
    simpl in E. apply map_lookup_filter_Some in E as [_ E]. simpl in E. by apply keeps_spec in E.
  - by rewrite cut_nodes.
Qed.

Lemma cut_bwf b ps : bwf b → parts_ok ps → ps ≠ [] → bwf (cut_tree b (path_of ps)).
Proof.
  intros [Hlow Hroot Hnames Hpar Hsh] Hps Hne. split; [done|..].
  - change "." with (path_of []). rewrite cut_lookup by (done || constructor).
    rewrite decide_False by (intros Hp; by apply prefix_nil_inv in Hp). done.
  - intros name n [Hn _]%map_lookup_filter_Some. eauto.
  - intros qs q n Hok Hn. assert (parts_ok qs) as Hqs by by apply parts_ok_app in Hok as [? _].
    destruct (decide (ps `prefix_of` qs ++ [q])) as [Hp|Hp].
    { simpl in Hn. apply map_lookup_filter_Some in Hn as [_ Hk]. simpl in Hk.
      by apply keeps_spec in Hk. }
    rewrite cut_nodes in Hn by done. rewrite cut_nodes; [by eapply Hpar|done..|].
    intros Hp'. apply Hp. etrans; [done|by apply prefix_app_r].
  - intros name n d [Hn _]%map_lookup_filter_Some Hd Hb.
    destruct (Hnames _ _ Hn) as (qs & Hqs & ->). rewrite cut_below in Hb by done.
    case_decide; [done|]. by eapply Hsh.
Qed.

(** What a removal does to every path. *)
Definition pruned (b b' : Builder) (p : string) : Prop :=
  bwf b' ∧ ∃ ps, parts_ok ps ∧ p = path_of ps ∧
    (∀ qs, parts_ok qs → ps `prefix_of` qs → qs ≠ [] → lookup (b_view b') (path_of qs) = None) ∧
    (∀ qs, parts_ok qs → ¬ ps `prefix_of` qs → ¬ qs `prefix_of` ps →
       lookup (b_view b') (path_of qs) = lookup (b_view b) (path_of qs)) ∧
    (∀ qs, qs `prefix_of` ps → qs ≠ ps →
       IsDir <$> lookup (b_view b') (path_of qs) = IsDir <$> lookup (b_view b) (path_of qs)).

Lemma cut_pruned b ps : bwf b → parts_ok ps → ps ≠ [] → pruned b (cut_tree b (path_of ps)) (path_of ps).
Proof.
  intros Hb Hps Hne. split; [by apply cut_bwf|]. exists ps. split; [done|split; [done|]].
  split_and!.
  - intros qs Hqs Hp _. rewrite cut_lookup by done. by rewrite decide_True.
  - intros qs Hqs Hp _. rewrite cut_lookup by done. by rewrite decide_False.
  - intros qs Hp Hd. rewrite cut_lookup; [|done|by eapply parts_ok_prefix|done].
    rewrite decide_False; [done|]. intros Hp'. apply Hd. by apply (anti_symm prefix).
Qed.

(** The root's removal empties the view. *)
Lemma cut_root b : bwf b →
  pruned b (set_node "." (mkNode "." TDir defaultDirectoryMode "" "" []) (cut_tree b ".")) ".".
Proof.
  intros [Hlow _ _ _ _]. set (d := mkNode _ _ _ _ _ _). set (b' := set_node "." d (cut_tree b ".")).
  assert (∀ name n, nodes (top b') !! name = Some n → name = "." ∧ n = d) as Hn.
  { intros name n. unfold b', set_node; simpl. rewrite lookup_insert.
    case_decide; [intros Hs; injection Hs as <-; by split|].
    intros [_ (Hk & _)]%map_lookup_filter_Some. done. }
  split.
  - split; [done|..].
    + exists d. split; [|done]. rewrite b_lookup. unfold b', set_node; simpl. by rewrite lookup_insert_eq.
    + intros name n [-> _]%Hn. exists []; by split; [constructor|].
    + intros ps p n Hok [He _]%Hn. apply path_of_dot in He; [by destruct ps|done].
    + intros name n x [_ ->]%Hn Hd. done.
  - exists []. split; [constructor|split; [done|split_and!]].
    + intros qs Hok _ Hne. rewrite b_lookup. destruct (nodes (top b') !! path_of qs) eqn:E.
      * apply Hn in E as [He _]. by apply path_of_dot in He.
      * unfold below. assert (masked (top b') (path_of qs) = true) as ->; [|done].
        rewrite masked_spec by done. exists []. split; [apply prefix_nil|]. simpl. set_solver.
    + intros qs _ Hp. by destruct Hp; apply prefix_nil.
    + intros qs Hp%prefix_nil_inv Hd. done.
Qed.

Lemma RemoveAll_inv b name b' :
  bwf b → RemoveAll b name = inl b' → pruned b b' (Clean name).
Proof.
  intros Hb. unfold RemoveAll. destruct (normalize b "removeall" name) as [p|] eqn:Hnorm; [|done].
  apply normalize_spec in Hnorm as (_ & -> & ps & Hok & Hp). rewrite Hp.
  fold (cut_tree b (path_of ps)). case_bool_decide as Hroot.
  { intros [= <-]. rewrite Hroot. by apply cut_root. }
  destruct ps as [|p ps _] using rev_ind; [done|]. rewrite Dir_path_of by done.
  assert (ps ++ [p] ≠ []) as Hne by by destruct ps.
  assert (parts_ok ps) as Hps by by apply parts_ok_app in Hok as [? _].
  pose proof (cut_pruned b _ Hb Hok Hne) as Hcut.
  destruct (lookup _ (path_of ps)) as [m|] eqn:Hm; [|by intros [= <-]].
  destruct (IsDir m) eqn:Hmd; cbn [negb]; [|by intros [= <-]].
  pose proof (directory_spec _ _ ps (cut_bwf _ _ Hb Hok Hne) Hps (depth_path_of _ _ Hok)) as Hd.
  destruct (directory _ _ _) as [[b2 parent]|]; [|done]. destruct Hd as ((Hb2 & Hfr & Hpre & Hoth) & Hpar & Hpd).
  intros [= <-]. set (cs := filter _ _). set (b3 := set_node _ _ b2).
  assert (∀ qs, parts_ok qs → ¬ qs `prefix_of` ps →
            lookup (b_view b3) (path_of qs) = lookup (b_view (cut_tree b (path_of (ps ++ [p])))) (path_of qs)) as Hother.
  { intros qs Hqs Hq. assert (∀ rs, rs `prefix_of` ps → path_of qs ≠ path_of rs) as Hrs.
    { intros rs Hr He. apply path_of_inj in He; [by subst|done|exact (parts_ok_prefix _ _ Hps Hr)]. }
    rewrite !b_lookup. unfold b3, set_node at 1; simpl. rewrite lookup_insert_ne.
    2:{ intros He. by apply (Hrs ps). }
    rewrite Hoth by done. by rewrite (same_frame_below _ b3 _ Hfr). }
  split.
  - apply set_dir_bwf; try done. intros ps' q ->. apply Hpre. by apply prefix_app_r.
  - exists (ps ++ [p]). split; [done|split; [done|split_and!]].
    + intros qs Hqs Hq _. rewrite Hother, cut_lookup by
        (done || (intros Hq'; apply (prefix_snoc_not ps p); by etrans)). by rewrite decide_True.
    + intros qs Hqs Hq Hq'. rewrite Hother, cut_lookup; try done; [by rewrite decide_False|].
      intros Hp'. apply Hq'. etrans; [done|by apply prefix_app_r].
    + intros qs Hq Hd. apply prefix_snoc_inv in Hq as [->|Hq]; [done|].
      assert (parts_ok qs) as Hqs by exact (parts_ok_prefix _ _ Hps Hq).
      assert (IsDir <$> lookup (b_view b3) (path_of qs) = Some true) as ->.
      { rewrite b_lookup. unfold b3, set_node; simpl. rewrite lookup_insert.
        case_decide; [cbn; by f_equal|]. destruct (Hpre qs Hq) as (d & -> & Hdd). cbn. by f_equal. }
      rewrite cut_lookup in Hm by done. rewrite decide_False in Hm by apply prefix_snoc_not.
      destruct Hq as [rest ->]. destruct rest as [|r rest].
      * rewrite app_nil_r in Hm. rewrite Hm. cbn. by f_equal.
      * destruct (wf_ancestor (b_view b) qs (r :: rest) m (bwf_wf b Hb)) as (d & -> & Hdd); try done.
        cbn. by f_equal.
Qed.

(** ** Reading a builder's view *)

Lemma normalize_ok b op name p :
  normalize b op name = inl p →
  ValidPath p = true ∧ contains_nul p = false.
Proof.
  unfold normalize. destruct (sealed b); [done|]. destruct (_ || _ || _) eqn:E; [done|].
  intros [= <-]. rewrite !orb_false_iff, negb_false_iff in E. destruct E as [[_ Hn] Hv].
  split; [done|by apply Clean_nul].
Qed.

Lemma ValidPath_plain p : ValidPath p = true → p ≠ "" ∧ IsAbs p = false.
Proof.
  intros (ps & Hok & ->)%ValidPath_parts. destruct ps as [|q ps]; [done|].
  destruct (Join_first (q :: ps) Hok) as [Ha Hne]; done.
Qed.

(** A name the view indexes is resolved to itself, unless it is a link to follow. *)
Lemma resolve_hit t name follow n :
  wf t → ValidPath name = true → contains_nul name = false → lookup t name = Some n →
  (follow = true → is_link n = false) → resolve t name follow = inl (name, n).
Proof.
  intros Hwf Hv Hnul Hl Hlk. destruct (ValidPath_plain _ Hv) as [Hne Ha].
  unfold resolve. rewrite Hnul, Ha, Hv, bool_decide_eq_false_2 by done. cbn [orb].
  assert (negb follow || negb (is_link n) = true) as Hok.
  { destruct follow; [by rewrite Hlk|done]. }
  destruct ((match t with [] => ∅ | l :: _ => l.(nodes) end : gmap string node) !! name)
    as [m|] eqn:E.
  - apply (top_lookup t) in E; [|done]. rewrite Hl in E. injection E as <-. by rewrite Hok.
  - rewrite Hl, Hok. done.
Qed.

Lemma readNode_hit t op name follow n :
  wf t → ValidPath name = true → contains_nul name = false → lookup t name = Some n →
  (follow = true → is_link n = false) → readNode t op name follow = inl n.
Proof.
  intros Hwf Hv Hnul Hl Hlk. unfold readNode. rewrite Hv, (resolve_hit _ _ _ n) by done.
  cbn [negb]. by rewrite bool_decide_eq_false_2 by (intros He; by apply He).
Qed.

(** ** Construction sequences *)

(** The builders the package's API reaches over indexed lowers. *)
Inductive constructed : Builder → Prop :=
| c_empty : constructed (NewBuilder None)
| c_over t : wf t → constructed (NewBuilder (Some t))
| c_file b name data mtype perm b' :
    constructed b → AddFile b name data mtype perm = inl b' → constructed b'
| c_link b name target b' : constructed b → AddSymlink b name target = inl b' → constructed b'
| c_remove b name b' : constructed b → RemoveAll b name = inl b' → constructed b'.

Lemma bwf_NewBuilder_empty : bwf (NewBuilder None).
Proof.
  assert (∀ name n, nodes (top (NewBuilder None)) !! name = Some n → name = "." ∧ IsDir n = true) as Hn.
  { intros name n. cbn [NewBuilder top nodes]. by intros [<- <-]%lookup_singleton_Some. }
  split; [by left|..].
  - by eexists.
  - intros name n [-> _]%Hn. exists []. by split; [constructor|].
  - intros ps p n Hok [He _]%Hn. apply path_of_dot in He; [by destruct ps|done].
  - intros name n d [_ Hd]%Hn Hd'. congruence.
Qed.

Lemma bwf_NewBuilder_over t : wf t → bwf (NewBuilder (Some t)).
Proof.
  intros Hwf. split; [by right|..]; try done.
  destruct (wf_root t Hwf) as (n & Hn & Hd). exists n. split; [|done].
  rewrite b_lookup. unfold below, masked. cbn [top NewBuilder nodes removed lowers].
  rewrite lookup_empty. assert (masked_from ∅ (length (Split ".")) "." = false) as ->; [|done].
  done.
Qed.

Lemma constructed_bwf b : constructed b → bwf b.
Proof.
  induction 1 as [|t Hwf|b name data mtype perm b' _ IH Ha|b name target b' _ IH Ha|b name b' _ IH Ha].
  - apply bwf_NewBuilder_empty.
  - by apply bwf_NewBuilder_over.
  - by apply (AddFile_inv _ _ _ _ _ _ IH) in Ha as [? _].
  - by apply (AddSymlink_inv _ _ _ _ IH) in Ha as [? _].
  - by apply (RemoveAll_inv _ _ _ IH) in Ha as [? _].
Qed.

(** ** Properties *)

Definition is_inl {A B} (x : A + B) : bool := match x with inl _ => true | inr _ => false end.

(** A tree with a file, a link to its directory and a link out of the tree. *)
Definition sample : Builder :=
  match AddFile (NewBuilder None) "docs/./a.yaml" "text" TFile 420 with
  | inr _ => NewBuilder None
  | inl b => match AddSymlink b "cur" "docs" with
             | inr _ => NewBuilder None
             | inl b => match AddSymlink b "up" "../etc" with
                        | inr _ => NewBuilder None
                        | inl b => b
                        end
             end
  end.

Lemma sample_constructed : constructed sample.
Proof.
  unfold sample. destruct (AddFile _ _ _ _ _) as [b1|] eqn:E1; [|apply c_empty].
  destruct (AddSymlink b1 _ _) as [b2|] eqn:E2; [|apply c_empty].
  destruct (AddSymlink b2 _ _) as [b3|] eqn:E3; [|apply c_empty].
  eapply c_link; [|exact E3]. eapply c_link; [|exact E2]. eapply c_file; [apply c_empty|exact E1].
Qed.

Lemma sample_wf : wf (b_view sample).
Proof. apply bwf_wf, constructed_bwf, sample_constructed. Qed.

Lemma resolve_found t name follow p n :
  wf t → resolve t name follow = inl (p, n) →
  lookup t p = Some n ∧ (follow = true → is_link n = false) ∧
  ∃ ps, parts_ok ps ∧ p = path_of ps ∧
    ∀ qs, qs `prefix_of` ps → qs ≠ ps → ∃ d, lookup t (path_of qs) = Some d ∧ IsDir d = true.
Proof.
  intros Hwf Hr. assert (lookup t p = Some n ∧ (follow = true → is_link n = false)) as [Hl Hlk].
  { revert Hr. unfold resolve. destruct (_ || _); [done|]. destruct (IsAbs name); [done|].
    assert (∀ o, match (match o with
                        | Some n => if negb follow || negb (is_link n) then Some n else None
                        | None => None end) with
                 | Some k => o = Some k ∧ (follow = true → is_link k = false)
                 | None => True end) as Hhit.
    { intros [k|]; [|done]. by destruct follow, (is_link k) eqn:E. }
    destruct (if ValidPath name then _ else None) as [k|] eqn:E1.
    { intros [= <- <-]. destruct (ValidPath name); [|done].
      specialize (Hhit ((match t with [] => ∅ | l :: _ => l.(nodes) end : gmap string node) !! name)).
      rewrite E1 in Hhit. destruct Hhit as [Hl Hk]. split; [|done]. by apply (top_lookup t). }
    clear E1. destruct (if ValidPath name then _ else None) as [k|] eqn:E2.
    { intros [= <- <-]. destruct (ValidPath name); [|done]. specialize (Hhit (lookup t name)).
      by rewrite E2 in Hhit. }
    intros Hs. pose proof (resolve_slow_post t follow Hwf name) as Hp. rewrite Hs in Hp.
    by destruct Hp as (_ & ? & ?). }
  split; [done|split; [done|]].
  destruct (wf_name t Hwf _ _ Hl) as (ps & Hok & ->). exists ps. split; [done|split; [done|]].
  intros qs [rest ->] Hne. apply (wf_ancestor t qs rest n Hwf); try done.
  intros ->. by rewrite app_nil_r in Hne.
Qed.



(** On a tree the two indexed shortcuts change no answer: a relative name
    without NUL resolves as the component walk alone resolves it. *)
Theorem resolve_shortcuts t name follow :
  wf t → name ≠ "" → contains_nul name = false → IsAbs name = false →
  resolve t name follow = resolve_slow t name follow.
Proof.
  intros Hwf Hne Hnul Ha. unfold resolve. rewrite Hnul, Ha, bool_decide_eq_false_2 by done. cbn [orb].
  destruct (ValidPath name) eqn:Hv; [|done].
  assert (∀ o, (∀ n, o = Some n → lookup t name = Some n) →
    match (match o with
           | Some n => if negb follow || negb (is_link n) then Some n else None
           | None => None end) with
    | Some n => resolve_slow t name follow = inl (name, n)
    | None => True end) as Hhit.
  { intros [n|] Ho; [|done]. destruct (negb follow || negb (is_link n)) eqn:E; [|done].
    apply (resolve_slow_hit t follow Hwf); try done; [by apply Ho|].
    intros ->. by apply negb_true_iff in E. }
  pose proof (Hhit _ (top_lookup t Hwf name)) as H1. pose proof (Hhit (lookup t name) (λ n H, H)) as H2.
  destruct (match _ !! _ with Some _ => _ | None => _ end); [done|].
  destruct (match lookup t name with Some _ => _ | None => _ end); done.
Qed.

Lemma resolve_shortcuts_witness :
  resolve (b_view sample) "docs/a.yaml" true = resolve_slow (b_view sample) "docs/a.yaml" true.
Proof.
  apply resolve_shortcuts; [exact sample_wf|discriminate|reflexivity|reflexivity].
Defined.

(** Resolution terminates: in a tree the loop leaves with one answer,
    the one [resolve_slow] returns, on every fuel from the length of the name plus
    eight times the total length of the link targets, so the loop's fuel never
    decides an answer. *)
Theorem resolution_terminates t name follow fuel :
  wf t → String.length name + maxSymbolicLinkDepth * (target_total t + 1) ≤ fuel →
  ∃ n, lookup t "." = Some n ∧
    loop (resolution_step t follow) fuel (mkRes "." name n 0) = Some (resolve_slow t name follow).
Proof.
  intros Hwf Hf. destruct (wf_root t Hwf) as (n & Hn & Hd). exists n. split; [done|].
  destruct (loop_spec (resolution_step t follow) (res_inv t follow) (res_measure t)
              (λ _, True) fuel (mkRes "." name n 0)) as (x & Hx & _); try done.
  - by apply resolution_inl.
  - exists []. simpl. split_and!; [constructor|done|done|lia|].
    intros Hk. apply dir_not_link in Hd. congruence.
  - rewrite Hx. f_equal. unfold resolve_slow. rewrite Hn.
    destruct (resolution_loop t follow Hwf name n Hn Hd) as (y & Hy & _).
    rewrite Hy. cbn. by eapply loop_det.
Qed.

Lemma resolution_terminates_witness :
  ∃ n, lookup (b_view sample) "." = Some n ∧
    loop (resolution_step (b_view sample) true) 1000 (mkRes "." "cur/a.yaml" n 0)
    = Some (resolve_slow (b_view sample) "cur/a.yaml" true).
Proof.
  apply resolution_terminates; [exact sample_wf|]. vm_compute. lia.
Defined.

(** A name the builder accepts, and the error it answers otherwise. *)
Definition accepts (name : string) : bool :=
  negb (bool_decide (name = "") || contains_nul name || negb (ValidPath (Clean name))).

Lemma normalize_cases b op name :
  normalize b op name =
    if b.(sealed) then inr (mkPathError op name ErrSealed)
    else if accepts name then inl (Clean name) else inr (mkPathError op name ErrInvalid).
Proof. unfold normalize, accepts. destruct (sealed b); [done|]. by destruct (_ || _ || _). Qed.

(** Why a leaf cannot be placed: something else stands at the path (per [wrong]),
    or a non-directory stands on the way to it. *)
Definition occupied (b : Builder) (p : string) (wrong : node → bool) : Prop :=
  (∃ n, lookup (b_view b) p = Some n ∧ wrong n = true) ∨
  ∃ ps, parts_ok ps ∧ p = path_of ps ∧
    ∃ qs m, qs `prefix_of` ps ∧ qs ≠ ps ∧ lookup (b_view b) (path_of qs) = Some m ∧ IsDir m = false.

Lemma put_leaf_error b p n e :
  bwf b → (∃ ps, parts_ok ps ∧ p = path_of ps) → p ≠ "." → IsDir n = false →
  (∀ d, lookup (b_view b) p = Some d → IsDir d = false) →
  put b p n = inr e → e = ErrConflict ∧ occupied b p (λ _, false).
Proof.
  intros Hb (ps & Hok & ->) Hroot Hn Hfree Hput.
  destruct ps as [|p ps _] using rev_ind; [done|].
  pose proof (put_leaf_spec b ps p n Hb Hok Hn Hfree) as Hs. rewrite Hput in Hs.
  destruct Hs as (-> & qs & m & Hq & Hm & Hmd). split; [done|]. right.
  exists (ps ++ [p]). split; [done|split; [done|]]. exists qs, m. split_and!; try done.
  - etrans; [done|by apply prefix_app_r].
  - intros ->. by apply prefix_snoc_not in Hq.
Qed.

Lemma occupied_wrong b p w : occupied b p (λ _, false) → occupied b p w.
Proof. intros [(n & _ & H)|H]; [done|by right]. Qed.

(** AddFile on every branch.  A sealed builder, an unacceptable name, the
    root and a non-regular mode are refused; otherwise it either fails with a
    conflict that is really there, or succeeds, and then the view stays a tree, its
    other paths are unchanged, the ancestors are directories, and ReadFile reads the
    data back under the cleaned name. *)
Theorem AddFile_spec b name data mtype perm :
  bwf b →
  match AddFile b name data mtype perm with
  | inl b' =>
      added b b' (Clean name) (mkNode (Base (Clean name)) TFile perm data "" []) ∧
      ReadFile (b_view b') (Clean name) = inl data ∧
      b.(sealed) = false ∧ accepts name = true ∧ Clean name ≠ "." ∧ mtype = TFile
  | inr e =>
      e.(e_path) = name ∧
      (e.(e_err) = ErrSealed ∧ b.(sealed) = true ∨
       e.(e_err) = ErrInvalid ∧ (accepts name = false ∨ Clean name = "." ∨ mtype ≠ TFile) ∨
       e.(e_err) = ErrConflict ∧
         occupied b (Clean name) (λ n, bool_decide (n.(n_type) ≠ TFile)))
  end.
Proof.
  intros Hb. destruct (AddFile b name data mtype perm) as [b'|e] eqn:Ha.
  - pose proof (AddFile_inv _ _ _ _ _ _ Hb Ha) as Hadd. split; [exact Hadd|].
    unfold AddFile in Ha. destruct (normalize b "addfile" name) as [p|] eqn:Hnorm; [|done].
    pose proof (normalize_ok _ _ _ _ Hnorm) as [Hv Hnul].
    rewrite normalize_cases in Hnorm. destruct (sealed b); [done|].
    destruct (accepts name); [|done]. injection Hnorm as <-.
    destruct (bool_decide (Clean name = ".") || bool_decide (mtype ≠ TFile)) eqn:E; [done|].
    rewrite orb_false_iff, !bool_decide_eq_false, not_ne in E. destruct E as [Hroot ->].
    split; [|done]. destruct Hadd as (Hb' & Hl & _).
    unfold ReadFile. rewrite (readNode_hit _ _ _ _ _ (bwf_wf _ Hb') Hv Hnul Hl) by done. done.
  - revert Ha. unfold AddFile. rewrite normalize_cases. destruct (sealed b) eqn:Hs.
    { intros [= <-]. split; [done|]. by left. }
    destruct (accepts name) eqn:Hacc; [|intros [= <-]; split; [done|]; right; left; tauto].
    destruct (bool_decide (Clean name = ".") || bool_decide (mtype ≠ TFile)) eqn:E.
    { intros [= <-]. split; [done|]. right; left. split; [done|]. right.
      by rewrite orb_true_iff, !bool_decide_eq_true in E. }
    rewrite orb_false_iff, !bool_decide_eq_false, not_ne in E. destruct E as [Hroot ->].
    assert (normalize b "addfile" name = inl (Clean name)) as Hnorm.
    { by rewrite normalize_cases, Hs, Hacc. }
    apply normalize_spec in Hnorm as (_ & _ & Hp).
    destruct (match lookup _ _ with Some _ => _ | None => _ end) eqn:Hc.
    { intros [= <-]. split; [done|]. right; right. split; [done|]. left.
      destruct (lookup (b_view b) (Clean name)) as [n|]; [|done]. by exists n. }
    destruct (put _ _ _) as [b1|e1] eqn:Hput; [done|]. intros [= <-]. split; [done|].
    apply put_leaf_error in Hput as [-> Ho]; try done.
    + right; right. split; [done|]. by apply occupied_wrong.
    + intros d Hd. rewrite Hd in Hc. rewrite bool_decide_eq_false, not_ne in Hc.
      unfold IsDir. by rewrite Hc.
Qed.

Lemma AddFile_spec_witness :
  match AddFile sample "docs/b.yaml" "more" TFile 420 with
  | inl b' => ReadFile (b_view b') "docs/b.yaml" = inl "more"
  | inr _ => False
  end ∧
  match AddFile sample "cur/b.yaml" "more" TFile 420 with
  | inl b' => False
  | inr e => e.(e_err) = ErrConflict
  end.
Proof.
  pose proof (AddFile_spec sample "docs/b.yaml" "more" TFile 420
                (constructed_bwf _ sample_constructed)) as H1.
  split; [|vm_compute; reflexivity].
  assert (is_inl (AddFile sample "docs/b.yaml" "more" TFile 420) = true) as Hok by (vm_compute; reflexivity).
  destruct (AddFile sample "docs/b.yaml" "more" TFile 420) as [b'|e]; [|discriminate Hok].
  exact (proj1 (proj2 H1)).
Defined.

(** A symbolic link is stored lexically: where AddSymlink succeeds the view
    stays a tree, the ancestors are directories, other paths are unchanged, and
    ReadLink returns the very target given, dangling, absolute or escaping. *)
Theorem AddSymlink_roundtrip b name target b' :
  bwf b → AddSymlink b name target = inl b' →
  added b b' (Clean name) (mkNode (Base (Clean name)) TLink symbolicLinkMode "" target []) ∧
  ReadLink (b_view b') (Clean name) = inl target.
Proof.
  intros Hb Ha. pose proof (AddSymlink_inv _ _ _ _ Hb Ha) as Hadd. split; [exact Hadd|].
  unfold AddSymlink in Ha. destruct (normalize b "addsymlink" name) as [p|] eqn:Hnorm; [|done].
  pose proof (normalize_ok _ _ _ _ Hnorm) as [Hv Hnul].
  apply normalize_spec in Hnorm as (_ & -> & _).
  destruct Hadd as (Hb' & Hl & _). unfold ReadLink.
  by rewrite (readNode_hit _ _ _ _ _ (bwf_wf _ Hb') Hv Hnul Hl).
Qed.

Lemma AddSymlink_roundtrip_witness :
  match AddSymlink sample "docs/out" "/etc/passwd" with
  | inl b' => ReadLink (b_view b') "docs/out" = inl "/etc/passwd"
  | inr _ => False
  end.
Proof.
  pose proof (AddSymlink_roundtrip sample "docs/out" "/etc/passwd") as H.
  assert (is_inl (AddSymlink sample "docs/out" "/etc/passwd") = true) as Hok by (vm_compute; reflexivity).
  destruct (AddSymlink sample "docs/out" "/etc/passwd") as [b'|e]; [|discriminate Hok].
  exact (proj2 (H b' (constructed_bwf _ sample_constructed) eq_refl)).
Defined.

(** RemoveAll prunes exactly one subtree: nothing is visible at or below the
    path (below it, for the root), every path that is neither in the subtree nor an
    ancestor is unchanged, ancestors keep their kind, and what is built on the
    removed place afterwards never sees the lower descendants again. *)
Theorem RemoveAll_prunes b name b' :
  bwf b → RemoveAll b name = inl b' →
  pruned b b' (Clean name) ∧
  (∀ data perm b'' rest r ps,
     AddFile b' name data TFile perm = inl b'' → Clean name = path_of ps → Clean name ≠ "." →
     parts_ok (ps ++ r :: rest) → lookup (b_view b'') (path_of (ps ++ r :: rest)) = None).
Proof.
  intros Hb Hr. pose proof (RemoveAll_inv _ _ _ Hb Hr) as Hp. split; [done|].
  intros data perm b'' rest r ps Ha Hname Hroot Hok.
  destruct Hp as (Hb' & ps' & Hok' & Hps' & Hgone & _).
  destruct (AddFile_inv _ _ _ _ _ _ Hb' Ha) as (Hb'' & Hl & ps'' & Hok'' & Hps'' & _ & Hkeep).
  assert (parts_ok ps) as Hps by by apply parts_ok_app in Hok as [? _].
  assert (ps' = ps) as -> by (apply path_of_inj; [done|done|congruence]).
  assert (ps'' = ps) as -> by (apply path_of_inj; [done|done|congruence]).
  rewrite Hkeep; [|done|].
  - apply Hgone; [done|by apply prefix_app_r|]. by destruct ps.
  - intros [k Hk]. apply (f_equal length) in Hk. rewrite !length_app in Hk. simpl in Hk. lia.
Qed.

Lemma RemoveAll_prunes_witness :
  match RemoveAll sample "docs" with
  | inl b' => lookup (b_view b') "docs/a.yaml" = None
  | inr _ => False
  end.
Proof.
  pose proof (RemoveAll_prunes sample "docs") as H.
  assert (is_inl (RemoveAll sample "docs") = true) as Hok by (vm_compute; reflexivity).
  destruct (RemoveAll sample "docs") as [b'|e]; [|discriminate Hok].
  destruct (H b' (constructed_bwf _ sample_constructed) eq_refl) as [(_ & ps & Hps & He & Hgone & _) _].
  apply (path_of_inj ["docs"]) in He; [subst ps|by repeat constructor|exact Hps].
  apply (Hgone ["docs"; "a.yaml"]); [|by apply (prefix_app_r ["docs"] ["docs"] ["a.yaml"])|done].
  repeat constructor; done.
Defined.

(** Claim C40: whatever sequence of AddFile, AddSymlink and RemoveAll constructs a
    builder, Build transfers a tree, and the builder left behind is empty and
    refuses every further operation as sealed. *)
Theorem built_tree_wf b t b' :
  constructed b → Build b = inl (t, b') →
  wf t ∧ (∀ name, lookup t name = lookup (b_view b) name) ∧
  (∀ name, lookup (b_view b') name = None) ∧
  (∀ name data mtype perm, AddFile b' name data mtype perm = inr (mkPathError "addfile" name ErrSealed)) ∧
  (∀ name target, AddSymlink b' name target = inr (mkPathError "addsymlink" name ErrSealed)) ∧
  (∀ name, RemoveAll b' name = inr (mkPathError "removeall" name ErrSealed)) ∧
  Build b' = inr (mkPathError "build" "." ErrSealed).
Proof.
  intros Hc. unfold Build. destruct (sealed b); [done|]. intros [= <- <-].
  split; [by apply bwf_wf, constructed_bwf|]. done.
Qed.

Lemma built_tree_wf_witness :
  match Build sample with
  | inl (t, b') => wf t ∧ RemoveAll b' "docs" = inr (mkPathError "removeall" "docs" ErrSealed)
  | inr _ => False
  end.
Proof.
  pose proof (built_tree_wf sample) as H.
  assert (is_inl (Build sample) = true) as Hok by (vm_compute; reflexivity).
  destruct (Build sample) as [[t b']|e]; [|discriminate Hok].
  destruct (H t b' sample_constructed eq_refl) as (H1 & _ & _ & _ & _ & H6 & _).
  exact (conj H1 (H6 "docs")).
Defined.
