(* ===== verification/Resource.v ===== *)
(** * Resource identities and kinds (pkg/manifest/types.go, kind.go, constants.go)

    The identity every other component keys its state by, the order that makes
    the program deterministic, and the registry of the kinds it reconciles. *)

From S2P Require Import Prelude.

(** ** NamedResource *)

Record NamedResource := mkResource {
  Group : string;
  Kind : string;
  Namespace : string;
  Name : string;
}.

#[export] Instance NamedResource_eq_dec : EqDecision NamedResource.
Proof. solve_decision. Defined.

#[export] Instance NamedResource_countable : Countable NamedResource.
Proof.
  refine (inj_countable' (λ r, (r.(Group), r.(Kind), r.(Namespace), r.(Name)))
            (λ '(g, k, ns, n), mkResource g k ns n) _).
  by intros [].
Defined.

(** The zero value [NamedResource{}]. *)
Definition no_resource : NamedResource := mkResource "" "" "" "".

(** [NamedResource.Compare]: kind, group, namespace, name. *)
#[export] Instance NamedResource_Compare : Compare NamedResource := λ n other,
  cmp_or [compare n.(Kind) other.(Kind);
          compare n.(Group) other.(Group);
          compare n.(Namespace) other.(Namespace);
          compare n.(Name) other.(Name)].

#[export] Instance NamedResource_Lawful : LawfulCompare NamedResource.
Proof.
  apply (lawful_inj (λ r, (r.(Kind), (r.(Group), (r.(Namespace), r.(Name)))))).
  - intros [] []. cbv [compare NamedResource_Compare prod_compare string_compare]. simpl.
    repeat (case_match; simpl; try done).
  - by intros [] [] [=]; subst.
Qed.

(** ** Constants *)

Definition FluxKustomizeDomain := "kustomize.toolkit.fluxcd.io".
Definition HelmReleaseDomain := "helm.toolkit.fluxcd.io".
Definition SourceDomain := "source.toolkit.fluxcd.io".
Definition FluxOperatorDomain := "fluxcd.controlplane.io".
Definition CoreAPIVersion := "v1".
Definition DefaultNamespace := "flux-system".

(** [apix.GroupName], the group of the upstream CustomResourceDefinition API. *)
Definition apix_GroupName := "apiextensions.k8s.io".

(** [BootstrapSourceID]: the synthetic GitRepository of the working tree. *)
Definition BootstrapSourceID : NamedResource :=
  mkResource SourceDomain "GitRepository" DefaultNamespace DefaultNamespace.

(** The one-byte namespace [x00] of the internal root Kustomizations. *)
Definition internalKustomizationNamespace : string := String (Ascii.ascii_of_nat 0) "".

Definition internalKustomization (n : NamedResource) : bool :=
  bool_decide (n.(Group) = FluxKustomizeDomain) && bool_decide (n.(Kind) = "Kustomization") &&
  bool_decide (n.(Namespace) = internalKustomizationNamespace).

Definition ReportHidden (n : NamedResource) : bool :=
  internalKustomization n || bool_decide (n = BootstrapSourceID).

Definition IsCRD (n : NamedResource) : bool :=
  bool_decide (n.(Group) = apix_GroupName) && bool_decide (n.(Kind) = "CustomResourceDefinition").

(** [cmp.Or] on strings: the first non-empty one. *)
Definition or_string (ss : list string) : string :=
  default "" (list_find (λ s, s ≠ "") ss ≫= λ p, Some p.2).

(** [Resolve]: forced, authored and fallback namespace precedence. *)
Definition Resolve (id : NamedResource) (forced fallback : string) : NamedResource :=
  mkResource id.(Group) id.(Kind) (or_string [forced; id.(Namespace); fallback]) id.(Name).

Definition NamespacedName (n : NamedResource) : string :=
  if bool_decide (n.(Namespace) = "") || internalKustomization n then n.(Name)
  else n.(Namespace) +:+ "/" +:+ n.(Name).

Definition KindLabel (n : NamedResource) : string :=
  if bool_decide (n.(Group) = "") then n.(Kind) else n.(Kind) +:+ "." +:+ n.(Group).

Definition ResourceString (n : NamedResource) : string :=
  KindLabel n +:+ "/" +:+ NamespacedName n.

(** ** The kind registry *)

(** [KindInfo] (the unexported [apiVersion] is only set on queried objects and
    is a component of the scope lookup, not of the registry). *)
Record KindInfo := mkKind {
  k_Group : string;
  k_Kind : string;
  Tracked : bool;
  Runnable : bool;
  Status : bool;
  Discovery : bool;
  Test : bool;
  Parent : bool;
  Data : bool;
  Structural : bool;
  SourceOnly : bool;
  TransientOutput : bool;
  Render : bool;
  SourceArtifact : bool;
}.

#[export] Instance KindInfo_eq_dec : EqDecision KindInfo.
Proof. solve_decision. Defined.

(** The facts of a kind absent from the registry: every flag is false. *)
Definition untracked (g k : string) : KindInfo :=
  mkKind g k false false false false false false false false false false false false.

(** [kindEntry]: the decoder of an entry is the parser of its kind and is not
    part of the registry's facts; [binds_local] records whether [bindLocal] is set. *)
Record kindEntry := mkEntry { e_info : KindInfo; binds_local : bool }.

Definition initializeRenderKinds : list KindInfo := [
  {| k_Group := FluxKustomizeDomain; k_Kind := "Kustomization";
     Tracked := true; Runnable := true; Status := true; Discovery := true; Test := true;
     Parent := true; Data := false; Structural := true; SourceOnly := false;
     TransientOutput := false; Render := true; SourceArtifact := false |};
  {| k_Group := HelmReleaseDomain; k_Kind := "HelmRelease";
     Tracked := true; Runnable := true; Status := true; Discovery := false; Test := true;
     Parent := true; Data := false; Structural := false; SourceOnly := true;
     TransientOutput := true; Render := true; SourceArtifact := false |}].

(** A source kind: tracked, runnable, with status and discovery. *)
Definition sourceKind (kind : string) (test artifact : bool) : KindInfo :=
  {| k_Group := SourceDomain; k_Kind := kind;
     Tracked := true; Runnable := true; Status := true; Discovery := true; Test := test;
     Parent := false; Data := false; Structural := false; SourceOnly := false;
     TransientOutput := false; Render := false; SourceArtifact := artifact |}.

Definition initializeSourceKinds : list KindInfo := [
  sourceKind "GitRepository" true true;
  sourceKind "OCIRepository" true true;
  sourceKind "HelmRepository" true false;
  sourceKind "HelmChart" false false;
  sourceKind "ExternalArtifact" false true;
  sourceKind "Bucket" true true].

(** The input kinds in the order of their table indexes. *)
Definition initializeInputKinds : list KindInfo := [
  {| k_Group := FluxOperatorDomain; k_Kind := "ResourceSet";
     Tracked := true; Runnable := true; Status := false; Discovery := true; Test := false;
     Parent := true; Data := false; Structural := false; SourceOnly := false;
     TransientOutput := false; Render := false; SourceArtifact := false |};
  {| k_Group := FluxOperatorDomain; k_Kind := "ResourceSetInputProvider";
     Tracked := true; Runnable := false; Status := false; Discovery := true; Test := false;
     Parent := false; Data := false; Structural := false; SourceOnly := false;
     TransientOutput := false; Render := false; SourceArtifact := false |};
  {| k_Group := ""; k_Kind := "ConfigMap";
     Tracked := true; Runnable := false; Status := false; Discovery := false; Test := false;
     Parent := false; Data := true; Structural := false; SourceOnly := false;
     TransientOutput := false; Render := false; SourceArtifact := false |};
  {| k_Group := ""; k_Kind := "Secret";
     Tracked := true; Runnable := false; Status := false; Discovery := false; Test := false;
     Parent := false; Data := true; Structural := false; SourceOnly := false;
     TransientOutput := false; Render := false; SourceArtifact := false |};
  {| k_Group := "source.extensions.fluxcd.io"; k_Kind := "ArtifactGenerator";
     Tracked := true; Runnable := true; Status := true; Discovery := true; Test := false;
     Parent := false; Data := false; Structural := false; SourceOnly := false;
     TransientOutput := false; Render := false; SourceArtifact := false |}].

(** The [init] function: the three groups, then the local bindings. *)
Definition kindTable : list kindEntry :=
  (λ k, mkEntry k (bool_decide (k.(k_Kind) ∈ ["GitRepository"; "OCIRepository"; "Bucket"]))) <$>
    (initializeRenderKinds ++ initializeSourceKinds ++ initializeInputKinds).

(** [Kinds], in table order. *)
Definition Kinds : list KindInfo := map e_info kindTable.

(** [kindIndex]: built in table order, so a later entry of a kind would win. *)
Definition kindIndex : gmap string nat :=
  foldl (λ m p, <[p.2.(e_info).(k_Kind) := p.1]> m) ∅ (imap (λ i e, (i, e)) kindTable).

(** The entry a kind and group select. *)
Definition kindLookup (n : NamedResource) : option kindEntry :=
  match kindIndex !! n.(Kind) ≫= λ i, kindTable !! i with
  | Some e => if bool_decide (e.(e_info).(k_Group) = n.(Group)) then Some e else None
  | None => None
  end.

Definition KindInfoOf (n : NamedResource) : KindInfo :=
  match kindLookup n with
  | Some e => e.(e_info)
  | None => untracked n.(Group) n.(Kind)
  end.

Definition CanBindLocal (n : NamedResource) : bool :=
  match kindLookup n with
  | Some e => e.(binds_local) && bool_decide (n.(Name) ≠ "") && bool_decide (n.(Namespace) ≠ "")
  | None => false
  end.

(** What [kindIndex] records, checked entry by entry in both directions. *)
Lemma kindIndex_sound :
  map_Forall (λ k i, (k_Kind ∘ e_info) <$> (kindTable !! i) = Some k) kindIndex.
Proof. apply (bool_decide_unpack _). by vm_compute. Qed.

Lemma kindIndex_complete :
  Forall (λ p, kindIndex !! p.2.(e_info).(k_Kind) = Some p.1) (imap (λ i e, (i, e)) kindTable).
Proof. apply (bool_decide_unpack _). by vm_compute. Qed.

(** The registry lookup is exact: an identity selects an entry precisely when it
    has the entry's group and kind. *)
Lemma kindLookup_spec n e :
  kindLookup n = Some e ↔
  e ∈ kindTable ∧ e.(e_info).(k_Group) = n.(Group) ∧ e.(e_info).(k_Kind) = n.(Kind).
Proof.
  unfold kindLookup. split.
  - destruct (kindIndex !! Kind n) as [i|] eqn:Ei; simpl; [|done].
    pose proof (kindIndex_sound _ _ Ei) as Hk.
    destruct (kindTable !! i) as [e'|] eqn:Ee; simpl in *; [|done].
    case_bool_decide; [|done]. intros [= <-].
    split; [by eapply list_elem_of_lookup_2|]. split; [done|]. rewrite Ee in Hk. by injection Hk.
  - intros ([i Hi]%list_elem_of_lookup & Hg & Hk).
    assert (kindIndex !! Kind n = Some i) as ->.
    { rewrite <-Hk. pose proof kindIndex_complete as Hc. rewrite Forall_lookup in Hc.
      apply (Hc i (i, e)). by rewrite list_lookup_imap, Hi. }
    simpl. rewrite Hi. by rewrite bool_decide_eq_true_2.
Qed.

Lemma KindInfoOf_registered n e :
  e ∈ kindTable → e.(e_info).(k_Group) = n.(Group) → e.(e_info).(k_Kind) = n.(Kind) →
  KindInfoOf n = e.(e_info).
Proof. intros He Hg Hk. unfold KindInfoOf. by rewrite (proj2 (kindLookup_spec n e)). Qed.

Lemma KindInfoOf_unregistered n :
  (∀ e, e ∈ kindTable → e.(e_info).(k_Group) = n.(Group) → e.(e_info).(k_Kind) ≠ n.(Kind)) →
  KindInfoOf n = untracked n.(Group) n.(Kind).
Proof.
  intros Hn. unfold KindInfoOf. destruct (kindLookup n) as [e|] eqn:E; [|done].
  apply kindLookup_spec in E as (? & ? & ?). by destruct (Hn e).
Qed.

(** ** Drain levels *)

(** [DrainLevel]: how hard the DAG fixpoint classifies unmet dependencies. *)
Inductive DrainLevel := DrainNone | DrainCascade | DrainForce.

#[export] Instance DrainLevel_eq_dec : EqDecision DrainLevel.
Proof. solve_decision. Defined.

(** The [iota] value of a level; Go compares levels by it. *)
Definition drain_value (l : DrainLevel) : nat :=
  match l with DrainNone => 0 | DrainCascade => 1 | DrainForce => 2 end.

(** [a < b] on levels. *)
Definition drain_lt (a b : DrainLevel) : bool := drain_value a <? drain_value b.
