(* ===== verification/Membership.v ===== *)
(** Object membership of the store: src/pkg/store/membership.go, with the evidence it
    reads from src/pkg/store/emission.go, emission_read.go, artifact.go and store.go.

    A publication affects a region of identities: those it changes and all their
    inventories and discovered contributions lead to.  Within it the store decides
    anew which identities are live: those with an anchor of their own, and those a
    live producer declares.  Here are the region, its expansion, the seeds, the
    propagation and the visibility it leaves; the generations, the registrations and
    the events of a publication are not modelled. *)
From S2P Require Import Prelude Resource.

Section membership.

(** Manifests, by the identity [Named] gives them. *)
Context {O : Type} (Named : O → NamedResource).

(** ** Artifacts and bindings *)

(** A [*SourceArtifact]; the heap maps it to the facts [Input(ArtifactContent)] and
    [mutableMaterial] read. *)
Definition ptr := nat.

Record SourceArtifact := mkArtifact {
  a_FS : bool; a_Kind : string; a_Key : string; a_Content : string; a_Digest : string;
  a_LocalRoot : string; a_LocalPath : string; a_InputAlias : bool; material : option ptr;
}.

Record ArtifactInput := mkInput {
  in_Present : bool; in_Readable : bool; in_Kind : string; in_Key : string; in_Content : string;
  in_Digest : string; in_LocalRoot : string; in_LocalPath : string; in_InputAlias : bool;
}.

#[local] Instance ArtifactInput_eq_dec : EqDecision ArtifactInput.
Proof. solve_decision. Defined.

Definition heap := gmap ptr SourceArtifact.

Definition Input (h : heap) (p : option ptr) : ArtifactInput :=
  match p ≫= λ p, h !! p with
  | None => mkInput false false "" "" "" "" "" "" false
  | Some a => mkInput true a.(a_FS) a.(a_Kind) a.(a_Key) a.(a_Content) a.(a_Digest)
                a.(a_LocalRoot) a.(a_LocalPath) a.(a_InputAlias)
  end.

Definition mutableMaterial (h : heap) (p : option ptr) : option ptr :=
  p ← p; a ← h !! p;
  if bool_decide (a.(a_Content) ≠ "") || negb a.(a_FS) then None
  else Some (default p a.(material)).

Record sourceBinding := mkBinding {
  source : NamedResource;
  artifact : option ptr;
  mutable : option ptr;
}.

Definition no_binding : sourceBinding := mkBinding no_resource None None.

(** [sourceBinding.equal] of two bindings that are not nil. *)
Definition binding_equal (h : heap) (b other : sourceBinding) : bool :=
  bool_decide (b.(source) = other.(source)) && bool_decide (b.(mutable) = other.(mutable)) &&
  (bool_decide (b.(artifact) = other.(artifact)) ||
   bool_decide (Input h b.(artifact) = Input h other.(artifact))).

(** ** Inventories, discovery and cells *)

Record Production := mkProduction {
  Owner : NamedResource; Declaration : NamedResource; p_Authored : NamedResource; p_Source : NamedResource;
  p_Path : string; p_File : string;
}.

Record Child := mkChild { c_Obj : O; Generated : bool; c_Productions : list Production }.

Record admission := mkAdmission { child : Child; targets : list NamedResource; a_binding : sourceBinding }.

Record Emission := mkEmission {
  Children : list Child;
  entries : list admission;
  shadowed : list sourceBinding;
}.

Record producerSlot := mkSlot { current : option Emission; visible : bool; hidden : bool }.

Record footprint := mkFootprint { f_id : NamedResource; f_independent : bool }.

Record contributor := mkContributor { records : list footprint; binding : sourceBinding }.

(** The fields of a [DiscoveryRecord] membership reads. *)
Record DiscoveryRecord := mkRecord {
  Productions : list Production;
  Authored : NamedResource; r_File : string; Builder : string; BuilderOwner : NamedResource; Parent : NamedResource;
}.

Definition no_record : DiscoveryRecord := mkRecord [] no_resource "" "" no_resource no_resource.

(** An [objectCell]: [c_binding] is the resource its [binding] refers to and [c_support]
    whether it has a [support]; [boundSource] is [binding == nil ||
    binding.sourceCurrent()], and [boundSupport] likewise; [reference] holds the object
    of the reference and whether its policy reconciles; [retained] is the flag of
    [links]. *)
Record objectCell := mkCell {
  static : option O;
  reference : option (O * bool);
  classified : bool; excluded : bool; included : bool; ordinary : bool;
  rooted : bool; retired : bool; independent : bool;
  boundSource : bool; boundSupport : bool;
  c_binding : option NamedResource; c_support : bool; c_hidden : bool; retained : bool;
}.

Definition no_cell : objectCell :=
  mkCell None None false false false false false false false true true None false false false.

Definition bound (c : objectCell) : bool := c.(boundSource) && c.(boundSupport).
Definition ordinaryDemand (c : objectCell) : bool :=
  c.(ordinary) || negb c.(included) && negb c.(excluded).

Record membership := mkMember { m_slot : NamedResource; position_in : nat; declaration : bool }.

(** Shards, by the 32-bit FNV-1a hash of a kind. *)
Definition shardCount : N := 16.

Definition fnv32a (s : string) : N :=
  foldl (λ h c, (N.lxor h (Ascii.N_of_ascii c) * 16777619) mod 2 ^ 32)%N 2166136261%N (String.list_ascii_of_string s).

Definition kindShardIndex (kind : string) : N := N.land (fnv32a kind) (shardCount - 1).

Definition shardFor (id : NamedResource) : N := kindShardIndex id.(Kind).

(** The store, its shards joined; a [*producerSlot] is the slot of its identity, and
    [derived] holds the shards where a region's visibility was published. *)
Record Store := mkStore {
  artifacts : heap;
  slots : gmap NamedResource producerSlot;
  cells : gmap NamedResource objectCell;
  members : gmap NamedResource (list membership);
  coverage : gmap NamedResource contributor;
  index : option (gmap NamedResource DiscoveryRecord);
  derived : gset N;
}.

Definition cell_of (s : Store) (id : NamedResource) : objectCell := default no_cell (s.(cells) !! id).
Definition members_of (s : Store) (id : NamedResource) : list membership := default [] (s.(members) !! id).
Definition inventory (s : Store) (id : NamedResource) : option Emission :=
  slot ← s.(slots) !! id; slot.(current).

Definition contributionBinding (s : Store) (id : NamedResource) : sourceBinding :=
  match s.(coverage) !! id with Some c => c.(binding) | None => no_binding end.

(** [Emission.shadows]; a nil emission shadows nothing. *)
Definition shadows (h : heap) (e : option Emission) (b : sourceBinding) : bool :=
  match e with Some e => existsb (binding_equal h b) e.(shadowed) | None => false end.

Definition HasInventory (s : Store) (id : NamedResource) : bool := bool_decide (is_Some (inventory s id)).

Definition HasGeneratedObjects (s : Store) (id : NamedResource) : bool :=
  match inventory s id with Some e => existsb Generated e.(Children) | None => false end.

Definition LookupIndex (s : Store) (id : NamedResource) : option DiscoveryRecord :=
  i ← s.(index); i !! id.

(** [rawDeclarationAuthority]. *)
Definition rawDeclarationAuthority (s : Store) (id : NamedResource) (cl : bool) : bool :=
  let record := default no_record (LookupIndex s id) in
  let self := bool_decide (record.(BuilderOwner) = no_resource) || bool_decide (record.(BuilderOwner) = id) ||
    bool_decide (record.(Authored) = id) && bool_decide (record.(r_File) ≠ "") &&
    bool_decide (record.(Builder) ≠ "") && bool_decide (record.(r_File) ≠ record.(Builder)) in
  self && (cl || bool_decide (record.(Productions) = [])) ||
  existsb (λ p, bool_decide (p.(Owner) = no_resource) || self && bool_decide (p.(Owner) = id))
    record.(Productions).

(** [bootstrapSeed]: only the promotion of the bootstrap source declares it. *)
Definition bootstrapSeed (ps : list Production) : bool :=
  if existsb (λ p, bool_decide (p.(Owner) = no_resource) && bool_decide (p.(Declaration) = no_resource) &&
                   bool_decide (p.(p_Source) = BootstrapSourceID) && bool_decide (p.(p_Path) = "") &&
                   bool_decide (p.(p_File) = "")) ps
  then negb (existsb (λ p, bool_decide (p.(Owner) = no_resource) &&
                           (bool_decide (p.(p_Source) ≠ BootstrapSourceID) || bool_decide (p.(p_Path) ≠ "") ||
                            bool_decide (p.(p_File) ≠ ""))) ps)
  else bool_decide (ps ≠ []) &&
       negb (existsb (λ p, bool_decide (p.(Owner) ≠ no_resource) || bool_decide (p.(Declaration) ≠ no_resource) ||
                           bool_decide (p.(p_Source) ≠ BootstrapSourceID)) ps).

(** ** Regions *)

Record regionState := mkState {
  s_id : NamedResource; live : bool; s_static : bool; direct : bool; s_independent : bool;
}.

(** An [objectRegion]: past the capacity of its first storage it indexes its states. *)
Record objectRegion := mkRegion {
  positions : option (gmap NamedResource nat);
  states : list regionState;
  reserve : nat;
  capacity : nat;   (* cap(states) *)
}.

(** The capacity the runtime gives when [slices.Grow] asks for one. *)
Context (grow : nat → nat).

Definition newObjectRegion (cap storage : nat) : objectRegion :=
  if cap <=? storage then mkRegion None [] cap storage else mkRegion (Some ∅) [] 0 cap.

(** The linear search of a region without an index. *)
Fixpoint find_state (id : NamedResource) (ss : list regionState) (i : nat) : option nat :=
  match ss with
  | [] => None
  | st :: ss => if bool_decide (st.(s_id) = id) then Some i else find_state id ss (S i)
  end.

Definition position (r : objectRegion) (id : NamedResource) : option nat :=
  match r.(positions) with
  | Some m => m !! id
  | None => find_state id r.(states) 0
  end.

(** The index of the states, in order. *)
Fixpoint index_states (ss : list regionState) (i : nat) (m : gmap NamedResource nat) : gmap NamedResource nat :=
  match ss with
  | [] => m
  | st :: ss => index_states ss (S i) (<[st.(s_id) := i]> m)
  end.

Definition set_direct (b : bool) (st : regionState) : regionState :=
  mkState st.(s_id) st.(live) st.(s_static) (st.(direct) || b) st.(s_independent).

Definition region_add (r : objectRegion) (id : NamedResource) (dir indep : bool) : objectRegion :=
  match position r id with
  | Some i => mkRegion r.(positions) (alter (set_direct dir) i r.(states)) r.(reserve) r.(capacity)
  | None =>
      let full := bool_decide (length r.(states) = r.(capacity)) in
      let r := match r.(positions) with
               | None => if full
                         then mkRegion (Some (index_states r.(states) 0 ∅)) r.(states) r.(reserve)
                                (grow (Nat.max r.(reserve) (2 * length r.(states) + 1)))
                         else r
               | Some _ => r
               end in
      mkRegion ((λ m, <[id := length r.(states)]> m) <$> r.(positions))
        (r.(states) ++ [mkState id false false dir indep]) r.(reserve) r.(capacity)
  end.

(** [regionCapacityLocked]. *)
Definition capacity_of (s : Store) (id : NamedResource) : nat :=
  match inventory s id with
  | Some e => length e.(entries) + sum_list_with (λ a, length a.(targets)) e.(entries)
  | None => 0
  end +
  match s.(coverage) !! id with Some c => length c.(records) | None => 0 end.

Definition regionCapacity (s : Store) (r : objectRegion) : nat :=
  length r.(states) + sum_list_with (λ st, capacity_of s st.(s_id)) r.(states).

(** What an identity leads to: its inventory's objects and their targets, then the
    records discovery found it contributes, each with its independence. *)
Definition entry_targets (e : option Emission) : list NamedResource :=
  match e with
  | Some e => flat_map (λ a, Named a.(child).(c_Obj) :: a.(targets)) e.(entries)
  | None => []
  end.

Definition covered (s : Store) (id : NamedResource) : list footprint :=
  match s.(coverage) !! id with Some c => c.(records) | None => [] end.

Definition successors (s : Store) (id : NamedResource) : list (NamedResource * bool) :=
  map (λ t, (t, false)) (entry_targets (inventory s id)) ++
  map (λ f, (f.(f_id), f.(f_independent))) (covered s id).

(** One turn of [expandRegionLocked]'s loop, which runs while states are appended. *)
Definition expand_step (s : Store) (st : objectRegion * nat) : (objectRegion * nat) + objectRegion :=
  let '(r, i) := st in
  match r.(states) !! i with
  | None => inr r
  | Some x => inl (foldl (λ r t, region_add r t.1 false t.2) r (successors s x.(s_id)), S i)
  end.

(** The identities a region of this store can hold: the bound of the loop. *)
Definition universe (s : Store) (r : objectRegion) : gset NamedResource :=
  list_to_set (map s_id r.(states)) ∪
  list_to_set (flat_map (λ id, map fst (successors s id)) (elements (dom s.(slots) ∪ dom s.(coverage)))).

Definition expandRegion (s : Store) (r : objectRegion) : option objectRegion :=
  loop (expand_step s) (S (size (universe s r))) (r, 0).

(** [affectedLocked], up to the capture of its states' facts. *)
Definition affected (s : Store) (r : objectRegion) : option objectRegion :=
  let cap := regionCapacity s r in
  let r := mkRegion r.(positions) r.(states) cap r.(capacity) in
  expandRegion s
    (match r.(positions) with
     | Some _ => if r.(capacity) <? cap
                 then mkRegion (Some (index_states r.(states) 0 ∅)) r.(states) r.(reserve) (grow cap) else r
     | None => r
     end).

(** ** Reachability *)

(** What [staticProductionLocked] reads of the region: whether an identity is inside,
    and live. *)
Definition live_at (r : objectRegion) (id : NamedResource) : option bool :=
  i ← position r id; live <$> r.(states) !! i.

(** One production of [staticProductionLocked]: does it anchor [id]? *)
Definition production_anchors (s : Store) (r : objectRegion) (id : NamedResource) (p : Production) : bool :=
  bool_decide (p.(Owner) = no_resource) || bool_decide (p.(Owner) = id) ||
  match live_at r p.(Owner) with
  | Some l => l
  | None => match s.(slots) !! p.(Owner) with Some slot => negb slot.(hidden) | None => true end
  end &&
  negb (shadows s.(artifacts) (inventory s p.(Owner)) (contributionBinding s p.(Owner))).

Definition staticProduction (s : Store) (r : objectRegion) (id : NamedResource) (ps : list Production) : bool :=
  existsb (production_anchors s r id) ps || bool_decide (ps = []).

Definition staticAnchor (s : Store) (r : objectRegion) (id : NamedResource) : bool :=
  let cell := cell_of s id in
  if negb (bound cell) then false
  else if cell.(rooted) && bool_decide (is_Some cell.(static)) then true
  else if bool_decide (cell.(static) = None) then false
  else match LookupIndex s id with
       | None => true
       | Some rec =>
           if cell.(retired) && (bootstrapSeed rec.(Productions) || cell.(classified)) then false
           else if cell.(classified) then true
           else staticProduction s r id rec.(Productions)
       end.

Definition set_live (st : regionState) : regionState :=
  mkState st.(s_id) true st.(s_static) st.(direct) st.(s_independent).

(** The closure [add]: a state of the region that is not live yet becomes live, and its
    index joins the queue. *)
Definition add_live (st : objectRegion * list nat) (id : NamedResource) : objectRegion * list nat :=
  let '(r, queue) := st in
  match position r id with
  | Some i =>
      match r.(states) !! i with
      | Some x => if x.(live) then st
                  else (mkRegion r.(positions) (alter set_live i r.(states)) r.(reserve) r.(capacity),
                        queue ++ [i])
      | None => st
      end
  | None => st
  end.

(** Whether [seedReachabilityLocked] starts from an identity: an anchor, a reconciling
    reference, or a visible producer outside the region. *)
Definition seeded (s : Store) (r : objectRegion) (id : NamedResource) : bool :=
  staticAnchor s r id || match (cell_of s id).(reference) with Some d => d.2 | None => false end ||
  existsb (λ m, bool_decide (position r m.(m_slot) = None) &&
                match s.(slots) !! m.(m_slot) with Some slot => slot.(visible) | None => false end)
    (members_of s id).

Definition seedReachability (s : Store) (st : objectRegion * list nat) : objectRegion * list nat :=
  foldl (λ st id, if seeded s st.1 id then add_live st id else st) st (map s_id st.1.(states)).

(** What a live identity makes live: its inventory, and, unless the inventory shadows
    the binding discovery saw, the contributions that have a static declaration. *)
Definition live_targets (s : Store) (id : NamedResource) : list NamedResource :=
  let e := inventory s id in
  entry_targets e ++
  (if shadows s.(artifacts) e (contributionBinding s id) then []
   else filter (λ id, is_Some (cell_of s id).(static)) (map f_id (covered s id))).

Definition propagate_step (s : Store) (st : objectRegion * list nat * nat)
    : (objectRegion * list nat * nat) + (objectRegion * list nat) :=
  let '(r, queue, i) := st in
  match queue !! i with
  | None => inr (r, queue)
  | Some k =>
      match r.(states) !! k with
      | None => inr (r, queue)
      | Some x => inl (foldl add_live (r, queue) (live_targets s x.(s_id)), S i)
      end
  end.

(** Each state joins the queue once, which bounds the loop. *)
Definition propagateReachability (s : Store) (st : objectRegion * list nat) : option (objectRegion * list nat) :=
  loop (propagate_step s) (S (length st.1.(states))) (st, 0).

(** One turn of [publishRegionVisibilityLocked]. *)
Definition publish_state (st : Store * objectRegion) (i : nat) : Store * objectRegion :=
  let '(s, r) := st in
  match r.(states) !! i with
  | None => st
  | Some x =>
      let id := x.(s_id) in
      (mkStore s.(artifacts)
         (alter (λ slot, mkSlot slot.(current) x.(live) (negb x.(live))) id s.(slots))
         s.(cells) s.(members) s.(coverage) s.(index) ({[shardFor id]} ∪ s.(derived)),
       mkRegion r.(positions)
         (<[i := mkState id x.(live) (staticAnchor s r id) x.(direct) x.(s_independent)]> r.(states))
         r.(reserve) r.(capacity))
  end.

Definition publishRegionVisibility (s : Store) (r : objectRegion) : Store * objectRegion :=
  foldl publish_state (s, r) (seq 0 (length r.(states))).

(** [reachabilityLocked], up to the publication of each object. *)
Definition reachability (s : Store) (r : objectRegion) : option (Store * objectRegion) :=
  '(r, _) ← propagateReachability s (seedReachability s (r, []));
  Some (publishRegionVisibility s r).

(** ** Representatives *)

(** [captureMembersLocked]: the visible member whose producer comes last. *)
Definition choose_member (s : Store) (chosen : option membership) (m : membership) : option membership :=
  if m.(declaration) || negb (match s.(slots) !! m.(m_slot) with Some slot => slot.(visible) | None => false end)
  then chosen
  else match chosen with
       | None => Some m
       | Some c => match compare m.(m_slot) c.(m_slot) with Gt => Some m | _ => chosen end
       end.

Definition captureMembers (s : Store) (id : NamedResource) : option membership :=
  foldl (choose_member s) None (members_of s id).


(** ** Well-formed regions *)

Definition region_ids (r : objectRegion) : list NamedResource := map s_id r.(states).

(** Each identity once; the index, when there is one, is theirs. *)
Record region_wf (r : objectRegion) : Prop := {
  wf_nodup : NoDup (region_ids r);
  wf_index m : r.(positions) = Some m → ∀ id i, m !! id = Some i ↔ region_ids r !! i = Some id;
}.

Lemma find_state_spec id ss i : NoDup (map s_id ss) →
  ∀ k, find_state id ss i = Some k ↔ i ≤ k ∧ map s_id ss !! (k - i) = Some id.
Proof.
  revert i. induction ss as [| st ss IH]; intros i Hnd k; cbn [find_state map]; [by split; [| intros []] |].
  cbn [map] in Hnd. apply NoDup_cons in Hnd as [Hni Hnd]. case_bool_decide as Hid.
  - split.
    + intros [= <-]. split; [lia |]. rewrite Nat.sub_diag. by subst id.
    + intros [Hle Hk]. destruct (k - i) as [| d] eqn:E; [f_equal; lia |]. cbn in Hk.
      destruct Hni. subst id. by apply list_elem_of_lookup_2 in Hk.
  - rewrite IH by done. split; intros [Hle Hk].
    + split; [lia |]. by replace (k - i) with (S (k - S i)) by lia.
    + destruct (k - i) as [| d] eqn:E; [cbn in Hk; congruence |]. cbn in Hk.
      split; [lia |]. by replace (k - S i) with d by lia.
Qed.

Lemma position_spec r id i : region_wf r → position r id = Some i ↔ region_ids r !! i = Some id.
Proof.
  intros [Hnd Hix]. unfold position. destruct (positions r) as [m |] eqn:Hm; [by apply Hix |].
  rewrite find_state_spec by done. rewrite Nat.sub_0_r. split; [by intros [] | split; [lia | done]].
Qed.

Lemma position_None r id : region_wf r → position r id = None ↔ id ∉ region_ids r.
Proof.
  intros Hw. rewrite eq_None_not_Some, list_elem_of_lookup. split; intros Hn [i Hi]; apply Hn;
    exists i; by apply position_spec.
Qed.

Lemma index_states_spec ss i m : NoDup (map s_id ss) → (∀ id, id ∈ map s_id ss → m !! id = None) →
  ∀ id k, index_states ss i m !! id = Some k ↔ m !! id = Some k ∨ i ≤ k ∧ map s_id ss !! (k - i) = Some id.
Proof.
  revert i m. induction ss as [| st ss IH]; intros i m Hnd Hm id k; cbn [index_states map].
  { split; [by left |]. by intros [? | [_ ?]]. }
  cbn [map] in Hnd, Hm. apply NoDup_cons in Hnd as [Hni Hnd]. rewrite IH; [| done |].
  - rewrite lookup_insert_Some. split.
    + intros [[[<- <-] | [Hne Hk]] | [Hle Hk]]; [right; split; [lia |]; by rewrite Nat.sub_diag | by left |].
      right. split; [lia |]. by replace (k - i) with (S (k - S i)) by lia.
    + intros [Hk | [Hle Hk]].
      * left. right. split; [| done]. intros <-. rewrite Hm in Hk by set_solver. done.
      * destruct (k - i) as [| d] eqn:E; cbn in Hk.
        -- left. left. split; [congruence | lia].
        -- right. split; [lia |]. by replace (k - S i) with d by lia.
  - intros id' Hid. rewrite lookup_insert_ne; [apply Hm; set_solver | congruence].
Qed.

Lemma reindex_wf r n c : region_wf r → region_wf (mkRegion (Some (index_states r.(states) 0 ∅)) r.(states) n c).
Proof.
  intros [Hnd _]. split; [done |]. cbn. intros m [= <-] id i.
  rewrite index_states_spec, Nat.sub_0_r by (done || by intros). rewrite lookup_empty.
  split; [by intros [? | []] | right; split; [lia | done]].
Qed.

(** Representation changes do not matter. *)
Lemma wf_shape r1 r2 : region_wf r1 → positions r2 = positions r1 → region_ids r2 = region_ids r1 → region_wf r2.
Proof. intros [Hnd Hix] Hp Hi. split; rewrite ?Hp, ?Hi; done. Qed.

Lemma region_add_inside r id dir indep i : region_wf r → region_ids r !! i = Some id →
  region_add r id dir indep
  = mkRegion r.(positions) (alter (set_direct dir) i r.(states)) r.(reserve) r.(capacity).
Proof. intros Hw Hi. unfold region_add. apply position_spec in Hi as ->; [done | done]. Qed.

Lemma ids_alter f i ss : (∀ st, s_id (f st) = s_id st) → map s_id (alter f i ss) = map s_id ss.
Proof.
  intros Hf. revert i. induction ss as [| st ss IH]; intros [| i]; try done; cbn; [by rewrite Hf | by rewrite IH].
Qed.

Lemma region_add_outside r id dir indep : region_wf r → id ∉ region_ids r →
  region_wf (region_add r id dir indep) ∧
  states (region_add r id dir indep) = states r ++ [mkState id false false dir indep].
Proof.
  intros Hw Hid. unfold region_add. rewrite (proj2 (position_None r id Hw) Hid).
  set (r' := match positions r with Some _ => r | None => _ end).
  assert (region_wf r' ∧ states r' = states r) as [Hw' Hs'].
  { unfold r'. destruct (positions r) eqn:Hp; [done |]. case_bool_decide; [| done].
    split; [by apply reindex_wf | done]. }
  rewrite Hs'. split; [| done]. destruct Hw' as [Hnd Hix]. unfold region_ids in *. rewrite Hs' in *.
  split; unfold region_ids; cbn; rewrite map_app; cbn.
  - apply NoDup_app. split; [done |]. split; [set_solver | apply NoDup_singleton].
  - intros m Hm id' i. destruct (positions r') as [m0 |]; [| done]. injection Hm as <-.
    rewrite lookup_insert_Some, (Hix m0 eq_refl), lookup_app_Some, length_map.
    split.
    + intros [[<- <-] | [Hne Hi]]; [right | by left]. split; [done |]. by rewrite Nat.sub_diag.
    + intros [Hi | [Hle Hi]].
      * right. split; [| done]. intros <-. by apply list_elem_of_lookup_2 in Hi.
      * apply list_lookup_singleton_Some in Hi as [Hi <-]. left. split; [done | lia].
Qed.

(** What the expansion adds: a state that is neither direct nor live, at the end, unless
    the identity is inside already. *)
Lemma region_add_indirect r id indep : region_wf r →
  region_wf (region_add r id false indep) ∧
  states (region_add r id false indep)
  = if decide (id ∈ region_ids r) then states r else states r ++ [mkState id false false false indep].
Proof.
  intros Hw. destruct (decide (id ∈ region_ids r)) as [Hin | Hout]; [| by apply region_add_outside].
  apply list_elem_of_lookup in Hin as [i Hi]. rewrite (region_add_inside r id false indep i) by done. cbn.
  assert (∀ (ss : list regionState) (k : nat), alter (set_direct false) k ss = ss) as Hid.
  { intros ss. induction ss as [| st ss IH]; intros [| k]; try done; cbn; [| by rewrite IH].
    destruct st. unfold set_direct. cbn. by rewrite orb_false_r. }
  rewrite Hid. split; [| done]. by eapply wf_shape.
Qed.

(** ** The expansion is the closure *)

(** One identity leads to another. *)
Definition leads (s : Store) (a b : NamedResource) : Prop := ∃ indep, (b, indep) ∈ successors s a.

(** States the expansion appends. *)
Definition fresh_state (st : regionState) : Prop := st.(direct) = false ∧ st.(live) = false.

Lemma region_add_all r ts : region_wf r →
  let r' := foldl (λ r (t : NamedResource * bool), region_add r t.1 false t.2) r ts in
  region_wf r' ∧ (∃ new, states r' = states r ++ new ∧ Forall fresh_state new) ∧
  (∀ id, id ∈ region_ids r' ↔ id ∈ region_ids r ∨ id ∈ map fst ts).
Proof.
  revert r. induction ts as [| [t indep] ts IH]; intros r Hw; cbn zeta; cbn [foldl map fst snd].
  { split; [done |]. split; [exists []; by rewrite app_nil_r | set_solver]. }
  destruct (region_add_indirect r t indep Hw) as [Hw1 Hs1].
  destruct (IH _ Hw1) as (Hw' & (new & Hs' & Hnew) & Hids). split; [done |].
  assert (∀ id, id ∈ region_ids (region_add r t false indep) ↔ id ∈ region_ids r ∨ id = t) as Hids1.
  { intros id. unfold region_ids. rewrite Hs1. case_decide as Hin; [set_solver |].
    rewrite map_app. set_solver. }
  split.
  - rewrite Hs1 in Hs'. case_decide; [by exists new |].
    exists (mkState t false false false indep :: new). rewrite Hs', <- app_assoc. split; [done |]. by constructor.
  - intros id. rewrite Hids, Hids1. set_solver.
Qed.

Lemma successors_dom s a b indep : (b, indep) ∈ successors s a → a ∈ dom s.(slots) ∪ dom s.(coverage).
Proof.
  unfold successors, entry_targets, inventory, covered. rewrite elem_of_union, !elem_of_dom.
  destruct (slots s !! a) as [sl |]; [by left; eexists |].
  destruct (coverage s !! a) as [c |]; [by right; eexists |]. cbn. by intros ?%elem_of_nil.
Qed.

Lemma universe_closed s r a b : leads s a b → b ∈ universe s r.
Proof.
  intros [indep Hb]. unfold universe. apply elem_of_union. right. apply elem_of_list_to_set, list_elem_of_In, in_flat_map.
  exists a. split.
  - apply list_elem_of_In, elem_of_elements. by eapply successors_dom.
  - apply list_elem_of_In, list_elem_of_fmap. by exists (b, indep).
Qed.

(** The loop of the expansion: what is inside is reachable, and what was visited is
    closed. *)
Record expanding (s : Store) (r0 : objectRegion) (st : objectRegion * nat) : Prop := {
  ex_wf : region_wf st.1;
  ex_new : ∃ new, states st.1 = states r0 ++ new ∧ Forall fresh_state new;
  ex_sound id : id ∈ region_ids st.1 → ∃ a, a ∈ region_ids r0 ∧ rtc (leads s) a id;
  ex_closed i a b : i < st.2 → region_ids st.1 !! i = Some a → leads s a b → b ∈ region_ids st.1;
  ex_turn : st.2 ≤ length (states st.1);
}.

Lemma expanding_size s r0 st : expanding s r0 st → length (states st.1) ≤ size (universe s r0).
Proof.
  intros [[Hnd _] _ Hsound _ _]. rewrite <- (length_map s_id). fold (region_ids st.1).
  rewrite <- (size_list_to_set (C := gset NamedResource)) by done. apply subseteq_size. intros id Hid.
  apply elem_of_list_to_set in Hid. destruct (Hsound id Hid) as (a & Ha & Hr).
  apply rtc_inv_r in Hr as [<- | (b & _ & Hb)]; [| by eapply universe_closed].
  unfold universe. apply elem_of_union. left. by apply elem_of_list_to_set.
Qed.

Lemma expand_step_inl s r0 st st' : expanding s r0 st → expand_step s st = inl st' →
  expanding s r0 st' ∧ st'.2 = S st.2.
Proof.
  destruct st as [r i]. intros [Hw (new & Hs & Hnew) Hsound Hclosed Hturn] Hstep. cbn in *.
  destruct (states r !! i) as [x |] eqn:Hx; [| done]. injection Hstep as <-.
  destruct (region_add_all r (successors s (s_id x)) Hw) as (Hw' & (new' & Hs' & Hnew') & Hids).
  assert (region_ids r !! i = Some (s_id x)) as Hxi by (unfold region_ids; rewrite list_lookup_fmap, Hx; done).
  split; [| done]. split; cbn [fst snd].
  - done.
  - exists (new ++ new'). rewrite Hs', Hs, app_assoc. split; [done |]. by apply Forall_app.
  - intros id [Hid | Hid]%Hids; [by apply Hsound |].
    destruct (Hsound (s_id x)) as (a & Ha & Hr); [by eapply list_elem_of_lookup_2 |].
    exists a. split; [done |]. eapply rtc_r; [done |].
    apply list_elem_of_fmap in Hid as ([b indep] & -> & Hb). by exists indep.
  - intros k a b Hk Ha Hab. apply Hids.
    assert (region_ids r !! k = Some a) as Ha'.
    { unfold region_ids in *. rewrite Hs', map_app, lookup_app_l in Ha; [done |]. rewrite length_map.
      apply lookup_lt_Some in Hx. lia. }
    destruct (decide (k = i)) as [-> |].
    + right. rewrite Hxi in Ha'. injection Ha' as <-. destruct Hab as [indep Hb].
      apply list_elem_of_fmap. by exists (b, indep).
    + left. eapply (Hclosed k a b); [lia | done | done].
  - rewrite Hs', length_app. apply lookup_lt_Some in Hx. lia.
Qed.

Lemma expandRegion_spec s r : region_wf r →
  ∃ r', expandRegion s r = Some r' ∧ region_wf r' ∧
    (∃ new, states r' = states r ++ new ∧ Forall fresh_state new) ∧
    (∀ id, id ∈ region_ids r' ↔ ∃ a, a ∈ region_ids r ∧ rtc (leads s) a id).
Proof.
  intros Hw. unfold expandRegion.
  apply (loop_spec (expand_step s) (expanding s r) (λ st, S (size (universe s r)) - st.2)).
  - intros st st' He Hstep. destruct (expand_step_inl s r st st' He Hstep) as [He' Ht]. split; [done |].
    pose proof (expanding_size s r st' He'). destruct He' as [_ _ _ _ Hturn]. lia.
  - intros [r1 i] r2 [Hw1 Hnew Hsound Hclosed Hturn] Hstep. cbn in *.
    destruct (states r1 !! i) eqn:Hi; [done |]. injection Hstep as <-. split; [done |]. split; [done |].
    intros id. split; [by apply Hsound |]. intros (a & Ha & Hr).
    assert (a ∈ region_ids r1) as Ha1.
    { destruct Hnew as (new & Hs & _). unfold region_ids in *. rewrite Hs, map_app. set_solver. }
    clear Ha. induction Hr as [| a b c Hab _ IH]; [done |]. apply IH.
    apply list_elem_of_lookup in Ha1 as [k Hk]. eapply (Hclosed k); [| done | done].
    apply lookup_lt_Some in Hk. unfold region_ids in Hk. rewrite length_map in Hk.
    apply lookup_ge_None in Hi. lia.
  - split; cbn; [done | exists []; by rewrite app_nil_r | | lia | lia]. intros id Hid. by exists id.
  - cbn. lia.
Qed.

(** The affected region is the closure of what a publication changes.  The
    expansion terminates; each identity is in the region once, exactly the changed
    ones and those inventories and contributions lead to from them; the changed
    states come first, untouched, and the ones it appends are neither direct nor live. *)
Theorem affected_exact s r : region_wf r →
  ∃ r', affected s r = Some r' ∧ region_wf r' ∧
    (∃ new, states r' = states r ++ new ∧ Forall fresh_state new) ∧
    (∀ id, id ∈ region_ids r' ↔ ∃ a, a ∈ region_ids r ∧ rtc (leads s) a id).
Proof.
  intros Hw. unfold affected.
  set (r1 := match _ with Some _ => _ | None => _ end).
  assert (region_wf r1 ∧ states r1 = states r) as [Hw1 Hs1].
  { unfold r1. cbn. assert (region_wf (mkRegion (positions r) (states r) (regionCapacity s r) (capacity r)))
      by by eapply wf_shape.
    destruct (positions r) eqn:Hp; [| done]. case_match; [| done]. split; [by apply reindex_wf | done]. }
  destruct (expandRegion_spec s r1 Hw1) as (r' & He & Hw' & Hs' & Hids). exists r'.
  unfold region_ids in *. rewrite Hs1 in *. done.
Qed.

(** ** Liveness *)

Definition is_live (r : objectRegion) (id : NamedResource) : Prop :=
  ∃ i st, states r !! i = Some st ∧ s_id st = id ∧ live st = true.

(** Two regions of the same shape, and one that is live wherever the other is. *)
Definition same_shape (r1 r2 : objectRegion) : Prop :=
  positions r2 = positions r1 ∧ region_ids r2 = region_ids r1.

Definition below (r1 r2 : objectRegion) : Prop := same_shape r1 r2 ∧ ∀ id, is_live r1 id → is_live r2 id.

#[local] Instance below_preorder : PreOrder below.
Proof.
  split.
  - intros r. by repeat split.
  - intros r1 r2 r3 [[Hp Hi] Hl] [[Hp' Hi'] Hl']. split; [split; congruence | by auto].
Qed.

Lemma ids_lookup r i id : region_ids r !! i = Some id ↔ ∃ st, states r !! i = Some st ∧ s_id st = id.
Proof.
  unfold region_ids. rewrite list_lookup_fmap, fmap_Some.
  split; intros (st & ? & ?); by exists st.
Qed.

Lemma live_at_spec r id : region_wf r →
  match live_at r id with
  | Some true => is_live r id
  | Some false => id ∈ region_ids r ∧ ¬ is_live r id
  | None => id ∉ region_ids r
  end.
Proof.
  intros Hw. unfold live_at. destruct (position r id) as [i |] eqn:Hp; cbn; [| by apply position_None].
  apply position_spec in Hp; [| done]. pose proof Hp as (st & Hst & Hid)%ids_lookup. rewrite Hst. cbn.
  destruct (live st) eqn:Hl; [by exists i, st |].
  split; [by eapply list_elem_of_lookup_2 |]. intros (j & st' & Hst' & Hid' & Hl').
  assert (region_ids r !! j = Some id) as Hj by (apply ids_lookup; eauto).
  destruct Hw as [Hnd _]. assert (i = j) as -> by (by eapply NoDup_lookup). congruence.
Qed.

Lemma live_at_true r id : region_wf r → live_at r id = Some true ↔ is_live r id.
Proof.
  intros Hw. pose proof (live_at_spec r id Hw) as Hs. destruct (live_at r id) as [[] |]; split; try done.
  - by intros ?%Hs.
  - intros (i & st & Hst & Hid & _). destruct Hs. eapply list_elem_of_lookup_2, ids_lookup. eauto.
Qed.

Lemma live_at_None r id : region_wf r → live_at r id = None ↔ id ∉ region_ids r.
Proof.
  intros Hw. pose proof (live_at_spec r id Hw) as Hs. destruct (live_at r id) as [[] |]; split; try done.
  - destruct Hs as (i & st & Hst & Hid & _). intros []. eapply list_elem_of_lookup_2, ids_lookup. eauto.
  - by destruct Hs.
Qed.

Lemma is_live_inside r id : is_live r id → id ∈ region_ids r.
Proof. intros (i & st & Hst & Hid & _). eapply list_elem_of_lookup_2, ids_lookup. eauto. Qed.

(** The queue holds each live state's index once. *)
Definition queued (r : objectRegion) (queue : list nat) : Prop :=
  NoDup queue ∧ ∀ k, k ∈ queue ↔ ∃ st, states r !! k = Some st ∧ live st = true.

Lemma alter_live r i st : states r !! i = Some st →
  let r' := mkRegion r.(positions) (alter set_live i r.(states)) r.(reserve) r.(capacity) in
  same_shape r r' ∧ ∀ k st', states r' !! k = Some st' ∧ live st' = true ↔
    (states r !! k = Some st' ∧ live st' = true) ∧ k ≠ i ∨ k = i ∧ st' = set_live st.
Proof.
  intros Hst. cbn zeta. split; [split; [done | by apply ids_alter] |]. intros k st'. cbn [states].
  destruct (decide (k = i)) as [-> | Hne].
  - rewrite list_lookup_alter_eq, Hst. cbn. split.
    + intros [[= <-] _]. by right.
    + intros [[_ ?] | [_ ->]]; done.
  - rewrite list_lookup_alter_ne by done. split; [intros ?; by left |]. by intros [[? _] | [? _]].
Qed.

Lemma add_live_spec r queue id : region_wf r → queued r queue →
  let st' := add_live (r, queue) id in
  same_shape r st'.1 ∧ queued st'.1 st'.2 ∧ queue `prefix_of` st'.2 ∧
  (∀ x, is_live st'.1 x ↔ is_live r x ∨ x = id ∧ id ∈ region_ids r).
Proof.
  clear grow. intros Hw [Hnd Hq]. cbn zeta. unfold add_live.
  destruct (position r id) as [i |] eqn:Hp.
  2: { apply position_None in Hp; [| done]. cbn. split; [done |]. split; [done |]. split; [done |].
       intros x. split; [by left |]. by intros [? | [_ ?]]. }
  apply position_spec in Hp; [| done]. pose proof Hp as (st & Hst & Hid)%ids_lookup. rewrite Hst.
  assert (id ∈ region_ids r) as Hin by (by eapply list_elem_of_lookup_2).
  destruct (live st) eqn:Hl.
  { cbn. split; [done |]. split; [done |]. split; [done |]. intros x. split; [by left |].
    intros [? | [-> _]]; [done |]. by exists i, st. }
  destruct (alter_live r i st Hst) as [Hshape Hlive]. cbn [fst snd]. split; [done |].
  assert (i ∉ queue) as Hi by (intros (st' & Hst' & Hl')%Hq; congruence).
  split; [| split].
  - split; [apply NoDup_app; split; [done |]; split; [set_solver | apply NoDup_singleton] |].
    intros k. rewrite elem_of_app, Hq. setoid_rewrite Hlive. rewrite list_elem_of_singleton. split.
    + intros [(st' & Hst' & Hl') | ->]; [| by eauto].
      exists st'. left. split; [done |]. intros ->. congruence.
    + intros (st' & [[Hst' _] | [-> _]]); [by eauto | by right].
  - by eexists.
  - intros x. split.
    + intros (k & st' & Hk & Hx & Hl'). destruct (proj1 (Hlive k st') (conj Hk Hl')) as [[[Hk' _] _] | [-> ->]].
      * left. by exists k, st'.
      * right. cbn in Hx. split; congruence.
    + intros [(k & st' & Hk & Hx & Hl') | [-> _]].
      * exists k, st'. destruct (proj2 (Hlive k st')) as [? _]; [| done]. left. split; [done |]. intros ->. congruence.
      * exists i, (set_live st). destruct (proj2 (Hlive i (set_live st))) as [? _]; [by right | done].
Qed.

Lemma same_shape_wf r1 r2 : same_shape r1 r2 → region_wf r1 → region_wf r2.
Proof. intros [Hp Hi] Hw. by eapply wf_shape. Qed.

Lemma add_live_all r queue ids : region_wf r → queued r queue →
  let st' := foldl add_live (r, queue) ids in
  same_shape r st'.1 ∧ queued st'.1 st'.2 ∧ queue `prefix_of` st'.2 ∧
  (∀ x, is_live st'.1 x ↔ is_live r x ∨ x ∈ ids ∧ x ∈ region_ids r).
Proof.
  revert r queue. induction ids as [| id ids IH]; intros r queue Hw Hq; cbn zeta; cbn [foldl].
  { cbn. split; [done |]. split; [done |]. split; [done |]. intros x. set_solver. }
  destruct (add_live_spec r queue id Hw Hq) as (Hsh & Hq1 & Hpre & Hlive).
  destruct (add_live (r, queue) id) as [r1 q1]. cbn [fst snd] in *.
  destruct (IH r1 q1) as (Hsh' & Hq' & Hpre' & Hlive'); [by eapply same_shape_wf | done |].
  split; [destruct Hsh, Hsh'; split; congruence |]. split; [done |]. split; [by etrans |].
  intros x. rewrite Hlive', Hlive. destruct Hsh as [_ ->]. rewrite elem_of_cons. split.
  - intros [[? | [-> ?]] | [? ?]]; auto.
  - intros [? | [[-> | ?] ?]]; auto.
Qed.

(** ** Anchors grow with liveness *)

Lemma position_shape r1 r2 id : region_wf r1 → same_shape r1 r2 → position r2 id = position r1 id.
Proof.
  intros Hw1 Hs. pose proof (same_shape_wf _ _ Hs Hw1) as Hw2. destruct Hs as [_ Hi].
  apply option_eq. intros i. rewrite !position_spec by done. by rewrite Hi.
Qed.

Lemma live_at_below r1 r2 id : region_wf r1 → below r1 r2 →
  (live_at r1 id = Some true → live_at r2 id = Some true) ∧ (live_at r1 id = None ↔ live_at r2 id = None).
Proof.
  intros Hw1 [Hs Hl]. pose proof (same_shape_wf _ _ Hs Hw1) as Hw2.
  rewrite !live_at_true, !live_at_None by done. destruct Hs as [_ ->]. split; [apply Hl | done].
Qed.

Lemma production_mono s r1 r2 id p : region_wf r1 → below r1 r2 →
  production_anchors s r1 id p = true → production_anchors s r2 id p = true.
Proof.
  intros Hw Hb. unfold production_anchors.
  destruct (live_at_below r1 r2 (Owner p) Hw Hb) as [Hlive Hnone].
  rewrite !orb_true_iff, !andb_true_iff. intros [? | [Hl ?]]; [by left | right]. split; [| done].
  destruct (live_at r1 (Owner p)) as [[] |]; [by rewrite Hlive | done |]. by rewrite (proj1 Hnone eq_refl).
Qed.

(** An anchor that liveness brought rests on a live producer of the region. *)
Lemma production_gain s r1 r2 id p : region_wf r1 → below r1 r2 →
  production_anchors s r2 id p = true → production_anchors s r1 id p = false →
  p.(Owner) ≠ no_resource ∧ p.(Owner) ≠ id ∧ is_live r2 p.(Owner) ∧
  shadows s.(artifacts) (inventory s p.(Owner)) (contributionBinding s p.(Owner)) = false.
Proof.
  intros Hw Hb. unfold production_anchors.
  destruct (live_at_below r1 r2 (Owner p) Hw Hb) as [Hlive Hnone].
  pose proof (same_shape_wf _ _ (proj1 Hb) Hw) as Hw2.
  rewrite orb_true_iff, andb_true_iff, !orb_false_iff, !bool_decide_eq_false.
  intros Hgain [[H1 H2] Hlost]. split; [done |]. split; [done |].
  destruct Hgain as [Hg | [Hl Hsh]].
  { rewrite orb_true_iff, !bool_decide_eq_true in Hg. by destruct Hg. }
  apply negb_true_iff in Hsh. rewrite Hsh, andb_true_r in Hlost. split; [| done].
  destruct (live_at r2 (Owner p)) as [b |] eqn:E2.
  - subst b. by apply live_at_true.
  - rewrite (proj2 Hnone eq_refl) in Hlost. congruence.
Qed.

Lemma anchor_mono s r1 r2 id : region_wf r1 → below r1 r2 →
  staticAnchor s r1 id = true → staticAnchor s r2 id = true.
Proof.
  intros Hw Hb. unfold staticAnchor. repeat case_match; try done.
  unfold staticProduction. rewrite !orb_true_iff, !existsb_exists.
  intros [(p & Hp & Ha) | ?]; [left | by right]. exists p. split; [done |]. by eapply production_mono.
Qed.

Lemma anchor_gain s r1 r2 id : region_wf r1 → below r1 r2 →
  staticAnchor s r2 id = true → staticAnchor s r1 id = false →
  is_Some (cell_of s id).(static) ∧ ∃ rec p, LookupIndex s id = Some rec ∧ p ∈ rec.(Productions) ∧
    p.(Owner) ≠ no_resource ∧ p.(Owner) ≠ id ∧ is_live r2 p.(Owner) ∧
    shadows s.(artifacts) (inventory s p.(Owner)) (contributionBinding s p.(Owner)) = false.
Proof.
  intros Hw Hb. unfold staticAnchor. destruct (negb (bound (cell_of s id))); [done |].
  destruct (_ && _); [done |]. destruct (static (cell_of s id)) as [o |] eqn:Ho; [| done].
  rewrite bool_decide_eq_false_2 by done. destruct (LookupIndex s id) as [rec |]; [| done].
  destruct (_ && _); [done |]. destruct (classified (cell_of s id)); [done |].
  unfold staticProduction. rewrite orb_true_iff, orb_false_iff, existsb_exists. intros Hg [Hlost Hne].
  destruct Hg as [(p & Hp & Ha) | ?]; [| congruence]. split; [by eexists |]. exists rec, p.
  split; [done |]. split; [by apply list_elem_of_In |].
  assert (production_anchors s r1 id p = false) as Hl.
  { apply not_true_iff_false. intros Ht. apply not_true_iff_false in Hlost. apply Hlost, existsb_exists. eauto. }
  by eapply production_gain.
Qed.

Lemma seeded_mono s r1 r2 id : region_wf r1 → below r1 r2 → seeded s r1 id = true → seeded s r2 id = true.
Proof.
  intros Hw Hb. unfold seeded. rewrite !orb_true_iff, !existsb_exists.
  intros [[? | ?] | (m & Hm & Ha)]; [left; left; by eapply anchor_mono | by left; right | right].
  exists m. split; [done |]. destruct Hb as [Hs _]. by rewrite (position_shape r1 r2) by done.
Qed.

(** What the seeds gain is what a live producer of the region contributes. *)
Lemma seeded_gain s r1 r2 id : region_wf r1 → below r1 r2 →
  seeded s r2 id = true → seeded s r1 id = false → staticAnchor s r2 id = true ∧ staticAnchor s r1 id = false.
Proof.
  intros Hw Hb. unfold seeded. rewrite !orb_true_iff, !orb_false_iff.
  intros Hg [[Ha Hr] Hm]. split; [| done]. destruct Hg as [[? | ?] | He]; [done | congruence |].
  exfalso. apply not_true_iff_false in Hm. apply Hm. rewrite existsb_exists in *. destruct He as (m & Hin & Hp).
  exists m. split; [done |]. destruct Hb as [Hs _]. by rewrite (position_shape r1 r2) in Hp by done.
Qed.

(** ** Seeds and propagation *)

Lemma seed_spec s r queue ids : region_wf r → queued r queue → (∀ id, id ∈ ids → id ∈ region_ids r) →
  let st' := foldl (λ st id, if seeded s st.1 id then add_live st id else st) (r, queue) ids in
  below r st'.1 ∧ queued st'.1 st'.2 ∧
  (∀ id, id ∈ ids → seeded s r id = true → is_live st'.1 id) ∧
  (∀ id, is_live st'.1 id → is_live r id ∨ seeded s st'.1 id = true).
Proof.
  revert r queue. induction ids as [| id ids IH]; intros r queue Hw Hq Hin; cbn zeta; cbn [foldl].
  { cbn. split; [done |]. split; [done |]. split; [by intros ? ?%elem_of_nil | by left]. }
  set (st1 := if seeded s (r, queue).1 id then add_live (r, queue) id else (r, queue)).
  assert (below r st1.1 ∧ queued st1.1 st1.2 ∧ (seeded s r id = true → is_live st1.1 id) ∧
          (∀ x, is_live st1.1 x → is_live r x ∨ x = id ∧ seeded s r id = true)) as (Hb1 & Hq1 & Hs1 & Hl1).
  { unfold st1. cbn [fst]. destruct (seeded s r id) eqn:Hs.
    - destruct (add_live_spec r queue id Hw Hq) as (Hsh & Hq1 & _ & Hlive).
      assert (id ∈ region_ids r) as Hid by (apply Hin; set_solver).
      split; [split; [done |]; intros x Hx; apply Hlive; by left |]. split; [done |].
      split; [intros _; apply Hlive; by right |]. intros x [? | [-> _]]%Hlive; auto.
    - split; [done |]. split; [done |]. split; [done | by left]. }
  cbn [fst] in st1. destruct st1 as [r1 q1]. cbn [fst snd] in *.
  pose proof (same_shape_wf _ _ (proj1 Hb1) Hw) as Hw1.
  destruct (IH r1 q1 Hw1 Hq1) as (Hb2 & Hq2 & Hseed & Hlive).
  { intros x Hx. destruct Hb1 as [[_ ->] _]. apply Hin. set_solver. }
  split; [by etrans |]. split; [done |]. split.
  - intros x [-> | Hx]%elem_of_cons Hsx.
    + by apply (proj2 Hb2), Hs1.
    + apply Hseed; [done |]. by apply (seeded_mono s r r1).
  - intros x [Hx | ?]%Hlive; [| by right]. apply Hl1 in Hx as [? | [-> Hs]]; [by left | right].
    eapply seeded_mono; [exact Hw | by etrans | done].
Qed.

(** Live identities make others of the region live. *)
Definition spreads (s : Store) (r : objectRegion) (a b : NamedResource) : Prop :=
  b ∈ live_targets s a ∧ b ∈ region_ids r.

Record propagating (s : Store) (r0 : objectRegion) (st : objectRegion * list nat * nat) : Prop := {
  pr_below : below r0 st.1.1;
  pr_queued : queued st.1.1 st.1.2;
  pr_sound id : is_live st.1.1 id → ∃ a, is_live r0 a ∧ rtc (spreads s r0) a id;
  pr_closed i k x b : i < st.2 → st.1.2 !! i = Some k → region_ids st.1.1 !! k = Some x →
    spreads s r0 x b → is_live st.1.1 b;
  pr_turn : st.2 ≤ length st.1.2;
}.

Lemma queue_length r queue : queued r queue → length queue ≤ length (states r).
Proof.
  intros [Hnd Hq]. replace (length (states r)) with (length (seq 0 (length (states r)))) by apply length_seq.
  apply submseteq_length, NoDup_submseteq; [done |].
  intros k (st & Hst & _)%Hq. apply elem_of_seq. apply lookup_lt_Some in Hst. lia.
Qed.

Lemma shape_length r1 r2 : same_shape r1 r2 → length (states r2) = length (states r1).
Proof. intros [_ Hi]. rewrite <- (length_map s_id (states r2)), <- (length_map s_id (states r1)). unfold region_ids in Hi. by rewrite Hi. Qed.

Lemma propagate_inl s r0 st st' : region_wf r0 → propagating s r0 st → propagate_step s st = inl st' →
  propagating s r0 st' ∧ st'.2 = S st.2.
Proof.
  intros Hw0. destruct st as [[r queue] i]. intros [Hb Hq Hsound Hclosed Hturn] Hstep. cbn in *.
  destruct (queue !! i) as [k |] eqn:Hk; [| done]. destruct (states r !! k) as [x |] eqn:Hx; [| done].
  injection Hstep as <-. pose proof (same_shape_wf _ _ (proj1 Hb) Hw0) as Hw.
  destruct (add_live_all r queue (live_targets s (s_id x)) Hw Hq) as (Hsh & Hq' & [suffix Hpre] & Hlive).
  destruct (foldl add_live (r, queue) (live_targets s (s_id x))) as [r' q']. cbn [fst snd] in *. subst q'.
  pose proof (proj2 (proj1 Hb)) as Hids. split; [| done]. split; cbn [fst snd].
  - etrans; [exact Hb |]. split; [done |]. intros y Hy. apply Hlive. by left.
  - done.
  - intros id [Hid | [Ht Hin]]%Hlive; [by apply Hsound |].
    destruct (Hsound (s_id x)) as (a & Ha & Hr).
    { exists k, x. split; [done |]. split; [done |].
      destruct Hq as [_ Hq]. destruct (proj1 (Hq k)) as (x' & Hx' & Hl); [by eapply list_elem_of_lookup_2 |]. congruence. }
    exists a. split; [done |]. eapply rtc_r; [done |]. split; [done |]. by rewrite <- Hids.
  - intros j k' y b Hj Hk' Hy Hsp.
    assert (queue !! j = Some k') as Hkq.
    { rewrite lookup_app_l in Hk'; [done |]. apply lookup_lt_Some in Hk. lia. }
    assert (region_ids r !! k' = Some y) as Hyr by (destruct Hsh as [_ Hi]; by rewrite <- Hi).
    destruct (decide (j = i)) as [-> |].
    + rewrite Hk in Hkq. injection Hkq as <-. apply ids_lookup in Hyr as (x' & Hx' & <-).
      rewrite Hx in Hx'. injection Hx' as <-. apply Hlive. right. destruct Hsp as [? Hin]. by rewrite Hids.
    + apply Hlive. left. eapply (Hclosed j k' y b); [lia | done | done | done].
  - rewrite length_app. apply lookup_lt_Some in Hk. lia.
Qed.

Lemma propagate_spec s r queue : region_wf r → queued r queue →
  ∃ res, propagateReachability s (r, queue) = Some res ∧ below r res.1 ∧
    (∀ id, is_live res.1 id ↔ ∃ a, is_live r a ∧ rtc (spreads s r) a id).
Proof.
  intros Hw Hq. unfold propagateReachability.
  apply (loop_spec (propagate_step s) (propagating s r) (λ st, S (length (states r)) - st.2)).
  - intros st st' Hp Hstep. destruct (propagate_inl s r st st' Hw Hp Hstep) as [Hp' Ht]. split; [done |].
    destruct Hp' as [Hb' Hq' _ _ Hturn]. apply queue_length in Hq'.
    pose proof (shape_length _ _ (proj1 Hb')). lia.
  - intros [[r1 q] i] res [Hb Hq1 Hsound Hclosed Hturn] Hstep. cbn in *.
    assert (res = (r1, q) ∧ q !! i = None) as [-> Hi].
    { destruct (q !! i) as [k |] eqn:Hk; [| by injection Hstep as <-].
      destruct (states r1 !! k) as [x |] eqn:Hx; [done |]. exfalso. destruct Hq1 as [_ Hq1].
      destruct (proj1 (Hq1 k)) as (x' & Hx' & _); [by eapply list_elem_of_lookup_2 | congruence]. }
    split; [done |]. intros id. split; [apply Hsound |]. intros (a & Ha & Hr). apply (proj2 Hb) in Ha.
    clear Hstep. induction Hr as [| a b c Hab _ IH]; [done |]. apply IH.
    destruct Ha as (k & x & Hx & Hid & Hl). destruct Hq1 as [_ Hq1].
    destruct (proj1 (list_elem_of_lookup q k)) as [j Hj]; [apply Hq1; eauto |].
    eapply (Hclosed j k a b); [| done | apply ids_lookup; eauto | done].
    apply lookup_lt_Some in Hj. apply lookup_ge_None in Hi. lia.
  - split; cbn; [done | done | | lia | lia]. intros id Hid. by exists id.
  - cbn. lia.
Qed.

(** ** Liveness is the least closed set *)

(** Discovery's coverage holds every declaration under each of its foreign producers. *)
Definition covers (s : Store) : Prop := ∀ id rec p,
  LookupIndex s id = Some rec → p ∈ rec.(Productions) → p.(Owner) ≠ no_resource → p.(Owner) ≠ id →
  id ∈ map f_id (covered s p.(Owner)).

(** What a publication makes live: the identities seeded while nothing else is live, and
    what they spread to. *)
Definition reached (s : Store) (r : objectRegion) (id : NamedResource) : Prop :=
  ∃ a, a ∈ region_ids r ∧ seeded s r a = true ∧ rtc (spreads s r) a id.

(** A live producer that still anchors a declaration spreads to it. *)
Lemma gained_spreads s r1 r2 id : covers s → region_wf r1 → below r1 r2 → id ∈ region_ids r1 →
  seeded s r2 id = true → seeded s r1 id = false → ∃ o, is_live r2 o ∧ spreads s r1 o id.
Proof.
  intros Hc Hw Hb Hid Hs2 Hs1. destruct (seeded_gain s r1 r2 id Hw Hb Hs2 Hs1) as [Ha2 Ha1].
  destruct (anchor_gain s r1 r2 id Hw Hb Ha2 Ha1) as (Hst & rec & p & Hrec & Hp & Hne & Hni & Hl & Hsh).
  exists p.(Owner). split; [done |]. split; [| done]. unfold live_targets. rewrite Hsh.
  apply elem_of_app. right. apply list_elem_of_filter. split; [done |]. by eapply Hc.
Qed.

Lemma seed_reached s r0 : covers s → region_wf r0 → ∀ ids r queue, below r0 r → queued r queue →
  (∀ id, id ∈ ids → id ∈ region_ids r0) → (∀ id, is_live r id → reached s r0 id) →
  ∀ id, is_live (foldl (λ st id, if seeded s st.1 id then add_live st id else st) (r, queue) ids).1 id →
  reached s r0 id.
Proof.
  intros Hc Hw0 ids. induction ids as [| x ids IH]; intros r queue Hb Hq Hin Hl; cbn [foldl]; [done |].
  pose proof (same_shape_wf _ _ (proj1 Hb) Hw0) as Hw. cbn [fst].
  destruct (seeded s r x) eqn:Hs; [| apply IH; set_solver].
  destruct (add_live_spec r queue x Hw Hq) as (Hsh & Hq1 & _ & Hlive).
  destruct (add_live (r, queue) x) as [r1 q1]. cbn [fst snd] in *.
  apply IH; [| done | set_solver |].
  - etrans; [exact Hb |]. split; [done |]. intros y Hy. apply Hlive. by left.
  - intros id [? | [-> _]]%Hlive; [by apply Hl |].
    assert (x ∈ region_ids r0) as Hx by (apply Hin; set_solver).
    destruct (seeded s r0 x) eqn:Hs0; [by exists x; split; [done |]; split |].
    destruct (gained_spreads s r0 r x Hc Hw0 Hb Hx Hs Hs0) as (o & Ho & Hsp).
    destruct (Hl o Ho) as (a & Ha & Has & Hr). exists a. split; [done |]. split; [done |]. by eapply rtc_r.
Qed.

Definition nothing_live (r : objectRegion) : Prop := ∀ id, ¬ is_live r id.

Lemma queued_nil r : nothing_live r → queued r [].
Proof.
  intros Hn. split; [apply NoDup_nil_2 |]. intros k. split; [by intros ?%elem_of_nil |].
  intros (st & Hst & Hl). destruct (Hn (s_id st)). by exists k, st.
Qed.

Lemma reachable_live s r : covers s → region_wf r → nothing_live r →
  ∃ res, propagateReachability s (seedReachability s (r, [])) = Some res ∧ below r res.1 ∧
    (∀ id, is_live res.1 id ↔ reached s r id).
Proof.
  intros Hc Hw Hn. unfold seedReachability. cbn [fst].
  pose proof (queued_nil r Hn) as Hq.
  destruct (seed_spec s r [] (region_ids r) Hw Hq ltac:(done)) as (Hb & Hq1 & Hseed & _).
  pose proof (seed_reached s r Hc Hw (region_ids r) r [] ltac:(reflexivity) Hq ltac:(done)
                ltac:(by intros id ?%Hn)) as Hsound.
  fold (region_ids r). destruct (foldl _ (r, []) (region_ids r)) as [r1 q1]. cbn [fst snd] in *.
  pose proof (same_shape_wf _ _ (proj1 Hb) Hw) as Hw1.
  destruct (propagate_spec s r1 q1 Hw1 Hq1) as (res & Hp & Hb2 & Hlive).
  exists res. split; [done |]. split; [by etrans |].
  assert (∀ a b, spreads s r1 a b ↔ spreads s r a b) as Hsp.
  { intros a b. unfold spreads. by destruct (proj1 Hb) as [_ ->]. }
  intros id. rewrite Hlive. split.
  - intros (a & (a0 & Ha0 & Hs & Hr0)%Hsound & Hr). exists a0. split; [done |]. split; [done |].
    etrans; [exact Hr0 |]. revert Hr. apply rtc_subrel. intros x y. apply Hsp.
  - intros (a & Ha & Hs & Hr). exists a. split; [by apply Hseed |].
    revert Hr. apply rtc_subrel. intros x y. apply Hsp.
Qed.

(** ** What supports an identity

    The support of a publication, without worklists: producers declare, and some
    identities stand on their own. *)

(** [b] is an object or a target of [a]'s inventory, or a contribution of [a] that has a
    static declaration and whose binding the inventory does not shadow. *)
Definition declares (s : Store) (r : objectRegion) (a b : NamedResource) : Prop :=
  b ∈ region_ids r ∧
  ((∃ e x, inventory s a = Some e ∧ x ∈ e.(entries) ∧ (b = Named x.(child).(c_Obj) ∨ b ∈ x.(targets))) ∨
   (∃ f, f ∈ covered s a ∧ f.(f_id) = b) ∧ is_Some (cell_of s b).(static) ∧
   ∀ e x, inventory s a = Some e → x ∈ e.(shadowed) →
     binding_equal s.(artifacts) (contributionBinding s a) x = false).

(** A production outside the affected region, or of the object itself, that stands. *)
Definition produced (s : Store) (r : objectRegion) (id : NamedResource) (p : Production) : Prop :=
  p.(Owner) = no_resource ∨ p.(Owner) = id ∨
  p.(Owner) ∉ region_ids r ∧ (∀ slot, s.(slots) !! p.(Owner) = Some slot → slot.(hidden) = false) ∧
  ∀ e x, inventory s p.(Owner) = Some e → x ∈ e.(shadowed) →
    binding_equal s.(artifacts) (contributionBinding s p.(Owner)) x = false.

Definition stands (s : Store) (r : objectRegion) (id : NamedResource) : Prop :=
  let c := cell_of s id in
  bound c = true ∧ is_Some c.(static) ∧
  (c.(rooted) = true ∨ LookupIndex s id = None ∨
   ∃ rec, LookupIndex s id = Some rec ∧
     (c.(retired) = true → bootstrapSeed rec.(Productions) = false ∧ c.(classified) = false) ∧
     (c.(classified) = true ∨ rec.(Productions) = [] ∨ ∃ p, p ∈ rec.(Productions) ∧ produced s r id p)).

(** An identity the publication cannot take away: it stands, a reference reconciles it,
    or a visible producer outside the region declares it. *)
Definition starts (s : Store) (r : objectRegion) (id : NamedResource) : Prop :=
  stands s r id ∨ (snd <$> (cell_of s id).(reference)) = Some true ∨
  ∃ m slot, m ∈ members_of s id ∧ m.(m_slot) ∉ region_ids r ∧
    s.(slots) !! m.(m_slot) = Some slot ∧ slot.(visible) = true.

Definition supported (s : Store) (r : objectRegion) (id : NamedResource) : Prop :=
  ∃ a, a ∈ region_ids r ∧ starts s r a ∧ rtc (declares s r) a id.

Lemma shadows_false h e b : shadows h e b = false ↔
  ∀ e' x, e = Some e' → x ∈ e'.(shadowed) → binding_equal h b x = false.
Proof.
  destruct e as [e |]; cbn; [| by split; [intros _ ? ? [=] |]]. rewrite <- not_true_iff_false, existsb_exists. split.
  - intros Hn e' x [= <-] Hx. apply not_true_iff_false. intros Ht. apply Hn. exists x. by rewrite <- list_elem_of_In.
  - intros Hall (x & Hx%list_elem_of_In & Ht). rewrite (Hall e x eq_refl Hx) in Ht. discriminate Ht.
Qed.

Lemma elem_of_entry_targets e b : b ∈ entry_targets e ↔
  ∃ e' x, e = Some e' ∧ x ∈ e'.(entries) ∧ (b = Named x.(child).(c_Obj) ∨ b ∈ x.(targets)).
Proof.
  destruct e as [e |]; cbn; [| by split; [intros ?%elem_of_nil | intros (? & ? & [=] & _)]].
  rewrite list_elem_of_In, in_flat_map. split.
  - intros (x & Hx%list_elem_of_In & Hb). exists e, x. split; [done |]. split; [done |].
    cbn in Hb. rewrite <- list_elem_of_In in Hb. destruct Hb as [<- | Hb]; [by left | by right].
  - intros (? & x & [= <-] & Hx & Hb). exists x. split; [by apply list_elem_of_In |].
    cbn. rewrite <- list_elem_of_In. destruct Hb as [-> | Hb]; [by left | by right].
Qed.

Lemma spreads_declares s r a b : spreads s r a b ↔ declares s r a b.
Proof.
  unfold spreads, declares, live_targets. rewrite elem_of_app, elem_of_entry_targets.
  destruct (shadows _ _ _) eqn:Hs.
  - split.
    + intros [[He | ?%elem_of_nil] Hin]; [| done]. by split; [| left].
    + intros [Hin [He | (_ & _ & Hn)]]; split; auto. apply shadows_false in Hn. congruence.
  - rewrite list_elem_of_filter, list_elem_of_fmap. pose proof (proj1 (shadows_false _ _ _) Hs) as Hn. split.
    + intros [[He | [Hst (f & -> & Hf)]] Hin]; (split; [done |]); [by left | right]. by split; [exists f |].
    + intros [Hin [He | ((f & Hf & <-) & Hst & _)]]; (split; [| done]); [by left | right]. split; [done |]. by exists f.
Qed.

Lemma live_at_nothing r id : region_wf r → nothing_live r →
  live_at r id = if decide (id ∈ region_ids r) then Some false else None.
Proof.
  intros Hw Hn. pose proof (live_at_spec r id Hw) as Hs. destruct (live_at r id) as [[] |].
  - by apply Hn in Hs.
  - by rewrite decide_True by apply Hs.
  - by rewrite decide_False.
Qed.

Lemma production_produced s r id p : region_wf r → nothing_live r →
  production_anchors s r id p = true ↔ produced s r id p.
Proof.
  intros Hw Hn. unfold production_anchors, produced. rewrite live_at_nothing by done.
  rewrite !orb_true_iff, andb_true_iff, !bool_decide_eq_true, negb_true_iff, shadows_false, Logic.or_assoc.
  apply or_iff_compat_l, or_iff_compat_l. destruct (decide _) as [Hin | Hin]; [by split; intros [] |].
  destruct (slots s !! Owner p) as [slot |] eqn:Hs.
  - rewrite negb_true_iff. split.
    + intros [Hh Hsh]. split; [done |]. split; [by intros ? [= <-] | done].
    + intros (_ & Hh & Hsh). split; [by apply Hh | done].
  - split; [intros [_ Hsh] | by intros (_ & _ & Hsh)]. split; [done |]. split; [by intros ? [=] | done].
Qed.

Lemma anchor_stands s r id : region_wf r → nothing_live r → staticAnchor s r id = true ↔ stands s r id.
Proof.
  intros Hw Hn. unfold staticAnchor, stands. cbn zeta. destruct (bound (cell_of s id)); cbn [negb]; [| by split; [| intros []]].
  destruct (static (cell_of s id)) as [o |] eqn:Ho.
  2: { rewrite bool_decide_eq_false_2 by (by intros []). rewrite andb_false_r, bool_decide_eq_true_2 by done.
       split; [done |]. by intros (_ & [? [=]] & _). }
  rewrite bool_decide_eq_true_2 by done. rewrite andb_true_r, bool_decide_eq_false_2 by done.
  destruct (rooted _); [split; [by eauto | done] |].
  destruct (LookupIndex s id) as [rec |]; [| split; [by eauto | done]].
  assert (staticProduction s r id (Productions rec) = true ↔
    Productions rec = [] ∨ ∃ p, p ∈ Productions rec ∧ produced s r id p) as Hprod.
  { unfold staticProduction. rewrite orb_true_iff, bool_decide_eq_true, existsb_exists, Logic.or_comm.
    apply or_iff_compat_l. split; intros (p & Hp & Ha); exists p;
      (split; [by apply list_elem_of_In | by apply production_produced]). }
  split.
  - intros Ha. split; [done |]. split; [by eexists |]. right. right. exists rec. split; [done |].
    destruct (retired _), (classified _), (bootstrapSeed _); cbn in Ha; try done; (split; [done |]);
      solve [by left | right; by apply Hprod].
  - intros (_ & _ & [? | [? | (? & [= <-] & Hret & Hor)]]); [done | done |].
    destruct (retired (cell_of s id)).
    + destruct (Hret eq_refl) as [-> Hcl]. rewrite Hcl. apply Hprod. destruct Hor; [congruence | done].
    + cbn. destruct (classified _); [done |]. apply Hprod. by destruct Hor.
Qed.

Lemma seeded_starts s r id : region_wf r → nothing_live r → seeded s r id = true ↔ starts s r id.
Proof.
  intros Hw Hn. unfold seeded, starts. rewrite !orb_true_iff, Logic.or_assoc, anchor_stands by done.
  apply or_iff_compat_l.
  assert (match reference (cell_of s id) with Some d => d.2 | None => false end = true ↔ (snd <$> reference (cell_of s id)) = Some true) as ->.
  { destruct (reference (cell_of s id)) as [[? b] |]; cbn; [destruct b; naive_solver | naive_solver]. }
  apply or_iff_compat_l. rewrite existsb_exists. split.
  - intros (m & Hm%list_elem_of_In & [Hp%bool_decide_eq_true Hv]%andb_true_iff).
    destruct (slots s !! m_slot m) as [slot |] eqn:Hs; [| done]. exists m, slot. split; [done |].
    split; [by apply position_None | done].
  - intros (m & slot & Hm & Hp & Hs & Hv). exists m. split; [by apply list_elem_of_In |].
    rewrite Hs, Hv, andb_true_r. by apply bool_decide_eq_true, position_None.
Qed.

Lemma reached_supported s r id : region_wf r → nothing_live r → reached s r id ↔ supported s r id.
Proof.
  intros Hw Hn. unfold reached, supported.
  split; intros (a & Ha & Hs & Hr); exists a; (split; [done |]); (split; [by apply seeded_starts |]);
    (revert Hr; apply rtc_subrel; intros x y; apply spreads_declares).
Qed.

(** ** Publication of visibility *)

(** Stores that agree on all that anchors read outside a region. *)
Record same_outside (r : objectRegion) (s1 s2 : Store) : Prop := {
  so_artifacts : artifacts s2 = artifacts s1;
  so_cells : cells s2 = cells s1;
  so_members : members s2 = members s1;
  so_coverage : coverage s2 = coverage s1;
  so_index : index s2 = index s1;
  so_inventory id : inventory s2 id = inventory s1 id;
  so_slots id : id ∉ region_ids r → slots s2 !! id = slots s1 !! id;
}.

Lemma anchor_same s1 s2 r1 r2 id : region_wf r1 → same_outside r1 s1 s2 →
  (∀ x, live_at r2 x = live_at r1 x) → staticAnchor s2 r2 id = staticAnchor s1 r1 id.
Proof.
  intros Hw [Ha Hc Hm Hcov Hi Hinv Hs] Hl. unfold staticAnchor, cell_of, LookupIndex. rewrite Hc, Hi.
  assert (∀ p, production_anchors s2 r2 id p = production_anchors s1 r1 id p) as Hp.
  { intros p. unfold production_anchors, contributionBinding. rewrite Ha, Hcov, Hinv, Hl.
    destruct (live_at r1 (Owner p)) eqn:E; [done |]. by rewrite Hs by (by apply live_at_None). }
  repeat case_match; try done. unfold staticProduction. f_equal.
  generalize (Productions d). intros l. induction l as [| p l IH]; [done |]. cbn. by rewrite Hp, IH.
Qed.

Definition flag (st : regionState) (slot : producerSlot) : producerSlot :=
  mkSlot slot.(current) st.(live) (negb st.(live)).

Definition anchored (s : Store) (r : objectRegion) (st : regionState) : regionState :=
  mkState st.(s_id) st.(live) (staticAnchor s r st.(s_id)) st.(direct) st.(s_independent).

Record published (s : Store) (r : objectRegion) (n : nat) (st : Store * objectRegion) : Prop := {
  pb_outside : same_outside r s st.1;
  pb_positions : positions st.2 = positions r;
  pb_states i x : states r !! i = Some x →
    states st.2 !! i = Some (if decide (i < n) then anchored s r x else x);
  pb_length : length (states st.2) = length (states r);
  pb_slots i x : states r !! i = Some x →
    slots st.1 !! x.(s_id) = (if decide (i < n) then flag x <$> slots s !! x.(s_id) else slots s !! x.(s_id));
}.

Lemma published_live_at s r n st : region_wf r → published s r n st → ∀ x, live_at st.2 x = live_at r x.
Proof.
  intros Hw Hp x. destruct Hp as [_ Hpos Hst Hlen _].
  assert (region_ids st.2 = region_ids r) as Hids.
  { apply list_eq. intros i. unfold region_ids. rewrite !list_lookup_fmap.
    destruct (states r !! i) as [y |] eqn:Hy; [rewrite (Hst i y Hy); by case_decide |].
    apply lookup_ge_None in Hy. rewrite lookup_ge_None_2 by lia. done. }
  unfold live_at. rewrite (position_shape r st.2) by (done || by split).
  destruct (position r x) as [i |]; [| done]. cbn.
  destruct (states r !! i) as [y |] eqn:Hy; [rewrite (Hst i y Hy); by case_decide |].
  apply lookup_ge_None in Hy. by rewrite lookup_ge_None_2 by lia.
Qed.

Lemma publish_step s r n st : region_wf r → published s r n st → n < length (states r) →
  published s r (S n) (publish_state st n).
Proof.
  intros Hw Hp Hn. pose proof (published_live_at s r n st Hw Hp) as Hl.
  destruct st as [s1 r1]. destruct Hp as [Hout Hpos Hst Hlen Hsl]. cbn [fst snd] in *.
  destruct (lookup_lt_is_Some_2 _ _ Hn) as [x Hx]. unfold publish_state.
  pose proof (Hst n x Hx) as Hx1. rewrite decide_False in Hx1 by lia. rewrite Hx1.
  rewrite (anchor_same s s1 r r1) by done.
  assert (∀ i y, states r !! i = Some y → s_id y = s_id x → i = n) as Huniq.
  { intros i y Hy Hid. destruct Hw as [Hnd _]. eapply NoDup_lookup; [exact Hnd | |]; apply ids_lookup; eauto. }
  split; cbn [fst snd].
  - destruct Hout as [Ha Hc Hm Hcov Hi Hinv Hs]. split; cbn; try done.
    + intros id. unfold inventory in *. cbn. destruct (decide (id = s_id x)) as [-> | Hne].
      * rewrite lookup_alter_eq, <- Hinv. unfold inventory. by destruct (slots s1 !! s_id x).
      * rewrite lookup_alter_ne by done. apply Hinv.
    + intros id Hid. rewrite lookup_alter_ne; [by apply Hs |]. intros <-. apply Hid.
      eapply list_elem_of_lookup_2, ids_lookup. eauto.
  - done.
  - intros i y Hy. cbn [states]. destruct (decide (i = n)) as [-> | Hne].
    + rewrite list_lookup_insert_eq by (rewrite Hlen; done). rewrite decide_True by lia. by simplify_eq.
    + rewrite list_lookup_insert_ne by done. rewrite (Hst i y Hy).
      destruct (decide (i < n)); [by rewrite decide_True by lia | by rewrite decide_False by lia].
  - cbn [states]. by rewrite length_insert.
  - intros i y Hy. cbn [slots]. destruct (decide (i = n)) as [-> | Hne].
    + simplify_eq. rewrite lookup_alter_eq, (Hsl n x Hx). rewrite decide_False, decide_True by lia.
      by destruct (slots s !! s_id x).
    + rewrite lookup_alter_ne by (intros He; by apply Hne, (Huniq i y)).
      rewrite (Hsl i y Hy). destruct (decide (i < n)); [by rewrite decide_True by lia | by rewrite decide_False by lia].
Qed.

Lemma publish_spec s r : region_wf r → published s r (length (states r)) (publishRegionVisibility s r).
Proof.
  intros Hw. unfold publishRegionVisibility.
  assert (∀ n, n ≤ length (states r) → published s r n (foldl publish_state (s, r) (seq 0 n))) as Hall; [| by apply Hall].
  induction n as [| n IH]; intros Hn.
  - cbn. split; cbn; try done.
  - rewrite seq_S, foldl_snoc. apply publish_step; [done | apply IH; lia | lia].
Qed.


(** ** Discovery's coverage *)

(** [addDiscoveryCoverage] for one production of a record; [GetArtifact] is the store's
    artifact of a source. *)
Definition add_production (h : heap) (GetArtifact : NamedResource → option ptr) (fp : footprint)
    (cov : gmap NamedResource contributor) (p : Production) : gmap NamedResource contributor :=
  if bool_decide (p.(Owner) = no_resource) || bool_decide (p.(Owner) = fp.(f_id)) then cov
  else
    let c := default (mkContributor [] (mkBinding p.(p_Source) None None)) (cov !! p.(Owner)) in
    let rs := match last c.(records) with
              | Some r => if bool_decide (r.(f_id) = fp.(f_id)) then c.(records) else c.(records) ++ [fp]
              | None => c.(records) ++ [fp]
              end in
    let b := match GetArtifact p.(p_Source) ≫= λ a, (λ v, (a, v)) <$> h !! a with
             | Some (a, v) =>
                 mkBinding c.(binding).(source) (Some a)
                   (if bool_decide (v.(a_Content) = "") then mutableMaterial h (Some a) else c.(binding).(mutable))
             | None => c.(binding)
             end in
    <[p.(Owner) := mkContributor rs b]> cov.

Definition addDiscoveryCoverage h GetArtifact (cov : gmap NamedResource contributor) (fp : footprint)
    (ps : list Production) : gmap NamedResource contributor :=
  foldl (add_production h GetArtifact fp) cov ps.

(** One record of [discoveryCoverage]. *)
Definition add_record (s : Store) (GetArtifact : NamedResource → option ptr)
    (cov : gmap NamedResource contributor) (kv : NamedResource * DiscoveryRecord) : gmap NamedResource contributor :=
  if bool_decide (kv.2.(Productions) = []) then cov
  else addDiscoveryCoverage s.(artifacts) GetArtifact cov
         (mkFootprint kv.1 (rawDeclarationAuthority s kv.1 false)) kv.2.(Productions).

(** [discoveryCoverage], over the records in the order the map yields them; the caller
    then sorts each contributor's records. *)
Definition discoveryCoverage (s : Store) (GetArtifact : NamedResource → option ptr)
    (order : list (NamedResource * DiscoveryRecord)) : gmap NamedResource contributor :=
  foldl (add_record s GetArtifact) ∅ order.

Definition by_id (a b : footprint) : comparison := compare a.(f_id) b.(f_id).

Definition sorted_coverage (cov : gmap NamedResource contributor) : gmap NamedResource contributor :=
  (λ c, mkContributor (sort_by by_id c.(records)) c.(binding)) <$> cov.

(** [SetDiscoveryIndex]'s effect on the evidence. *)
Definition with_index (s : Store) (i : gmap NamedResource DiscoveryRecord) (cov : gmap NamedResource contributor) : Store :=
  mkStore s.(artifacts) s.(slots) s.(cells) s.(members) cov (Some i) s.(derived).

Definition recorded (cov : gmap NamedResource contributor) (o id : NamedResource) : Prop :=
  ∃ c, cov !! o = Some c ∧ id ∈ map f_id c.(records).

Lemma add_production_recorded h ga fp cov p :
  (∀ o id, recorded cov o id → recorded (add_production h ga fp cov p) o id) ∧
  (p.(Owner) ≠ no_resource → p.(Owner) ≠ fp.(f_id) → recorded (add_production h ga fp cov p) p.(Owner) fp.(f_id)).
Proof.
  unfold add_production. destruct (_ || _) eqn:E.
  { split; [done |]. intros H1 H2. apply orb_true_iff in E. rewrite !bool_decide_eq_true in E. by destruct E. }
  clear E. set (c := default _ _). set (rs := match last _ with Some _ => _ | None => _ end).
  set (b := match _ with Some _ => _ | None => _ end).
  assert (∀ id, id ∈ map f_id rs ↔ id ∈ map f_id c.(records) ∨ id = fp.(f_id)) as Hrs.
  { intros id. unfold rs. destruct (last (records c)) as [r |] eqn:Hl.
    - case_bool_decide as Hr; [| rewrite map_app; set_solver].
      split; [by left |]. intros [? | ->]; [done |]. rewrite <- Hr. apply last_Some_elem_of in Hl.
      apply list_elem_of_fmap. eauto.
    - rewrite map_app. set_solver. }
  split.
  - intros o id (c0 & Hc0 & Hid). destruct (decide (o = Owner p)) as [-> | Hne].
    + exists (mkContributor rs b). rewrite lookup_insert_eq. split; [done |]. apply Hrs. left.
      unfold c. by rewrite Hc0.
    + exists c0. by rewrite lookup_insert_ne.
  - intros _ _. exists (mkContributor rs b). rewrite lookup_insert_eq. split; [done |]. apply Hrs. by right.
Qed.

Lemma add_productions_recorded h ga fp ps cov :
  (∀ o id, recorded cov o id → recorded (addDiscoveryCoverage h ga cov fp ps) o id) ∧
  (∀ p, p ∈ ps → p.(Owner) ≠ no_resource → p.(Owner) ≠ fp.(f_id) →
     recorded (addDiscoveryCoverage h ga cov fp ps) p.(Owner) fp.(f_id)).
Proof.
  unfold addDiscoveryCoverage. revert cov. induction ps as [| q ps IH]; intros cov; cbn [foldl].
  { split; [done |]. by intros p ?%elem_of_nil. }
  destruct (add_production_recorded h ga fp cov q) as [Hkeep Hnew].
  destruct (IH (add_production h ga fp cov q)) as [Hkeep' Hnew'].
  split; [by auto |]. intros p [-> | Hp]%elem_of_cons H1 H2; auto.
Qed.

Lemma add_record_recorded s ga cov kv :
  (∀ o id, recorded cov o id → recorded (add_record s ga cov kv) o id) ∧
  (∀ p, p ∈ kv.2.(Productions) → p.(Owner) ≠ no_resource → p.(Owner) ≠ kv.1 →
     recorded (add_record s ga cov kv) p.(Owner) kv.1).
Proof.
  unfold add_record. case_bool_decide as Hps.
  { split; [done |]. rewrite Hps. by intros p ?%elem_of_nil. }
  apply (add_productions_recorded _ _ (mkFootprint kv.1 _)).
Qed.

Lemma records_recorded s ga order cov :
  (∀ o id, recorded cov o id → recorded (foldl (add_record s ga) cov order) o id) ∧
  (∀ kv p, kv ∈ order → p ∈ kv.2.(Productions) → p.(Owner) ≠ no_resource → p.(Owner) ≠ kv.1 →
     recorded (foldl (add_record s ga) cov order) p.(Owner) kv.1).
Proof.
  revert cov. induction order as [| x order IH]; intros cov; cbn [foldl].
  { split; [done |]. by intros kv p ?%elem_of_nil. }
  destruct (add_record_recorded s ga cov x) as [Hkeep Hnew].
  destruct (IH (add_record s ga cov x)) as [Hkeep' Hnew'].
  split; [by auto |]. intros kv p [-> | Hkv]%elem_of_cons Hp H1 H2; auto.
Qed.

(** The coverage discovery installs is complete, whatever the order its map
    is walked in: every declaration is recorded under each foreign producer that
    discovery found for it, which is what the reachability of a publication rests on. *)
Theorem coverage_complete s GetArtifact i order : order ≡ₚ map_to_list i →
  covers (with_index s i (sorted_coverage (discoveryCoverage s GetArtifact order))).
Proof.
  intros Ho id rec p Hrec Hp H1 H2. cbn in Hrec.
  assert ((id, rec) ∈ order) as Hin.
  { apply (elem_of_Permutation_proper _ _ _ Ho). by apply elem_of_map_to_list. }
  destruct (proj2 (records_recorded s GetArtifact order ∅) (id, rec) p Hin Hp H1 H2) as (c & Hc & Hid).
  unfold covered. cbn [coverage with_index]. unfold sorted_coverage, discoveryCoverage. rewrite lookup_fmap, Hc. cbn.
  apply list_elem_of_fmap in Hid as (f & Hfid & Hf). cbn [fst] in Hfid. subst id.
  apply list_elem_of_fmap. exists f. split; [done |]. by apply elem_of_sort_by.
Qed.

(** ** Representatives *)

(** A member that may stand for the object: not a bare declaration, of a visible producer. *)
Definition can_represent (s : Store) (m : membership) : bool :=
  negb m.(declaration) && match slots s !! m.(m_slot) with Some slot => slot.(visible) | None => false end.

Lemma negb_andb' a b : negb (negb a && b) = a || negb b.
Proof. by destruct a, b. Qed.

(** The representative member is decided by producer identity alone: it is a
    visible member that is no declaration, and no other such member's producer comes
    after its own. *)
Theorem captureMembers_greatest s id :
  let eligible m := m ∈ members_of s id ∧ can_represent s m = true in
  match captureMembers s id with
  | Some m => eligible m ∧ ∀ m', eligible m' → compare m'.(m_slot) m.(m_slot) ≠ Gt
  | None => ∀ m, ¬ eligible m
  end.
Proof.
  cbn zeta. unfold captureMembers. generalize (members_of s id) as ms. intros ms.
  induction ms as [| x ms IH] using rev_ind; [by intros m [?%elem_of_nil _] |].
  rewrite foldl_snoc. destruct (foldl (choose_member s) None ms) as [c |]; unfold choose_member;
    rewrite <- negb_andb'; fold (can_represent s x); destruct (can_represent s x) eqn:Hx; cbn [negb].
  - destruct IH as [[Hc Hok] Hmax]. destruct (compare (m_slot x) (m_slot c)) eqn:Hcmp.
    1, 2: split; [split; [apply elem_of_app; by left | done] |];
      intros m' [[Hm' | ->%list_elem_of_singleton]%elem_of_app Ho]; [by apply Hmax | by rewrite Hcmp].
    split; [split; [apply elem_of_app; right; by apply list_elem_of_singleton | done] |].
    intros m' [[Hm' | ->%list_elem_of_singleton]%elem_of_app Ho]; [| by rewrite compare_refl].
    intros Hgt. destruct (Hmax m'); [done |]. by eapply compare_gt_trans.
  - destruct IH as [[Hc Hok] Hmax]. split; [split; [apply elem_of_app; by left | done] |].
    intros m' [[Hm' | ->%list_elem_of_singleton]%elem_of_app Ho]; [by apply Hmax | congruence].
  - split; [split; [apply elem_of_app; right; by apply list_elem_of_singleton | done] |].
    intros m' [[Hm' | ->%list_elem_of_singleton]%elem_of_app Ho]; [by destruct (IH m') | by rewrite compare_refl].
  - intros m [[Hm | ->%list_elem_of_singleton]%elem_of_app Ho]; [by apply (IH m) | congruence].
Qed.

End membership.

(** ** A concrete store

    [wa] is an anchor whose inventory declares [wb], which declares [wc]; [wx] and [wy]
    only declare each other. *)
Definition w_id (n : string) : NamedResource := mkResource "g" "Kustomization" "ns" n.
Definition w_emission (n : string) : Emission (O := NamedResource) :=
  mkEmission [] [mkAdmission (mkChild (w_id n) false []) [] no_binding] [].
Definition w_slot (n : string) : producerSlot (O := NamedResource) := mkSlot (Some (w_emission n)) true false.
Definition w_store : Store (O := NamedResource) :=
  mkStore ∅ (list_to_map [(w_id "a", w_slot "b"); (w_id "b", w_slot "c"); (w_id "x", w_slot "y"); (w_id "y", w_slot "x")])
    {[w_id "a" := mkCell (Some (w_id "a")) None false false false false true false false true true None false false false]} ∅ ∅ None ∅.
Definition w_state (n : string) : regionState := mkState (w_id n) false false true false.
Definition w_region : objectRegion := mkRegion None (map w_state ["a"; "x"; "b"; "c"; "y"]) 0 5.

Lemma w_region_wf : region_wf w_region.
Proof.
  split; [| done]. refine (bool_decide_eq_true_1 _ _); by vm_compute.
Qed.

Example affected_exact_witness :
  ∃ r', affected id S w_store (mkRegion None [w_state "a"; w_state "y"] 0 2) = Some r' ∧
    w_id "c" ∈ region_ids r'.
Proof.
  destruct (affected_exact id S w_store (mkRegion None [w_state "a"; w_state "y"] 0 2)) as (r' & Hr & _ & _ & Hids).
  { split; [| done]. refine (bool_decide_eq_true_1 _ _); by vm_compute. }
  exists r'. split; [done |]. apply Hids. exists (w_id "a"). split; [by left |].
  apply (rtc_l _ _ (w_id "b")); [| apply (rtc_l _ _ (w_id "c")); [| apply rtc_refl]];
    exists false; refine (bool_decide_eq_true_1 _ _); by vm_compute.
Defined.


Example coverage_complete_witness :
  let p := mkProduction (w_id "owner") no_resource no_resource BootstrapSourceID "" "" in
  let i := {[w_id "a" := mkRecord [p] no_resource "" "" no_resource no_resource]} in
  w_id "a" ∈ map f_id (covered (with_index w_store i
    (sorted_coverage (discoveryCoverage w_store (λ _, None) (map_to_list i)))) (w_id "owner")).
Proof.
  intros p i. apply (coverage_complete w_store (λ _, None) i (map_to_list i) (Permutation_refl _) (w_id "a")
    (mkRecord [p] no_resource "" "" no_resource no_resource) p); [| by left | done | done].
  by vm_compute.
Defined.
