(* ===== verification/Productions.v ===== *)
(** Productions of a resource: src/pkg/store/emission_read.go and production_candidates.go,
    with the representative of src/pkg/store/membership.go and [Production] of
    src/pkg/manifest/discovery.go.

    A query gathers the discovered contributions to a resource, those recorded without a
    namespace that belong to the same family, and the accepted members of live producers.
    It borrows the discovered list while what it gathers is a prefix of it.  The queries
    read one snapshot of the store, without a read set. *)

From stdpp Require Import fin_maps.
From S2P Require Import Prelude Resource Membership.

(** [compareProduction]. *)
#[export] Instance Production_Compare : Compare Production := λ a b,
  cmp_or [compare a.(Owner) b.(Owner); compare a.(Declaration) b.(Declaration);
          compare a.(p_Source) b.(p_Source); compare a.(p_Authored) b.(p_Authored);
          compare a.(p_Path) b.(p_Path); compare a.(p_File) b.(p_File)].

#[export] Instance Production_eq_dec : EqDecision Production.
Proof. solve_decision. Defined.

#[export] Instance Production_Lawful : LawfulCompare Production.
Proof.
  apply (lawful_inj (λ p, (p.(Owner), (p.(Declaration), (p.(p_Source), (p.(p_Authored), (p.(p_Path), p.(p_File)))))))).
  - intros [] []. rewrite !compare_pair. unfold compare at 1, Production_Compare. simpl.
    repeat (match goal with |- context [match ?x with _ => _ end] => destruct x end; try done).
  - by intros [] [] [=]; subst.
Qed.

#[export] Instance production_inhabited : Inhabited Production :=
  populate (mkProduction no_resource no_resource no_resource no_resource "" "").

Section productions.
Context {O : Type} (Named : O → NamedResource).
Notation Store := (Store (O := O)).

(** ** Representatives *)

(** The entry a member points to in its producer's inventory. *)
Definition entry_of (s : Store) (m : membership) : option admission :=
  e ← inventory s m.(m_slot); e.(entries) !! m.(position_in).

Definition slot_visible (s : Store) (id : NamedResource) : bool :=
  match s.(slots) !! id with Some slot => slot.(visible) | None => false end.

(** [captureRepresentativeLocked] without a view: the object of the child it returns. *)
Definition captureRepresentative (s : Store) (id : NamedResource) (cell : objectCell) : option O :=
  let obj := if bound cell then cell.(static) else None in
  let referenced obj := match obj with Some _ => obj | None => fst <$> cell.(reference) end in
  let available := cell.(rooted) ||
    negb (bool_decide (shardFor id ∈ s.(derived))) && bool_decide (is_Some obj) in
  if bound cell && available then obj
  else if negb cell.(rooted) && negb cell.(retained) || negb (bound cell)
  then match captureMembers s id with
       | Some m => (λ a, a.(child).(c_Obj)) <$> entry_of s m
       | None => referenced (if cell.(retired) then None else obj)
       end
  else referenced obj.

(** [captureLocked] without a view. *)
Definition captureObject (s : Store) (id : NamedResource) (cell : objectCell) : option O :=
  if cell.(c_hidden) then fst <$> cell.(reference) else captureRepresentative s id cell.

Definition objectLocked (s : Store) (id : NamedResource) : option O :=
  let cell := cell_of s id in
  if negb (bool_decide (shardFor id ∈ s.(derived))) && bool_decide (cell.(c_binding) = None) &&
     (bool_decide (is_Some cell.(static)) || negb (bool_decide (is_Some cell.(reference))))
  then cell.(static)
  else captureObject s id cell.

Definition GetObject := objectLocked.

(** [Objects] and [ListObjects] with an empty group and kind; [range] is the order in
    which the cells of the shards are visited. *)
Definition Objects (range : gset NamedResource → list NamedResource) (s : Store) : list O :=
  omap (objectLocked s) (range (dom s.(cells))).

Definition by_name (a b : O) : comparison := compare (Named a) (Named b).

Definition ListObjects (range : gset NamedResource → list NamedResource) (s : Store) : list O :=
  sort_by by_name (Objects range s).

(** ** Results

    A [productionResult] under construction.  [out] is the discovered list until
    [owned]: its first [matched] elements are what was gathered. *)
Record query := mkQuery {
  q_id : NamedResource; q_source : NamedResource; q_parentOnly : bool; q_incoming : option (list Production);
}.

Record productionResult := mkResult {
  open : bool; qualified : bool; out : list Production; matched : nat; owned : bool; parent : NamedResource;
}.

(** [productionResult.reset]. *)
Definition result_reset (evidence : list Production) (r : productionResult) : productionResult :=
  mkResult r.(open) r.(qualified) evidence 0 false no_resource.

Definition parent_of_target (id : NamedResource) (p : Production) : bool :=
  bool_decide (p.(Owner) ≠ no_resource) && bool_decide (p.(Owner) ≠ id) &&
  bool_decide (p.(p_Authored) = no_resource) && bool_decide (p.(Declaration) = no_resource).

Section traversal.
Context (s : Store) (q : query).

(** [productionResult.add]. *)
Definition result_add (r : productionResult) (p : Production) : productionResult :=
  if negb (bool_decide (q.(q_source) = no_resource)) then r
  else if q.(q_parentOnly) then
    if parent_of_target q.(q_id) p &&
       (bool_decide (r.(parent) = no_resource) || bool_decide (compare p.(Owner) r.(parent) = Lt))
    then mkResult r.(open) r.(qualified) r.(out) r.(matched) r.(owned) p.(Owner)
    else r
  else if negb r.(owned) && bool_decide (r.(out) !! r.(matched) = Some p)
  then mkResult r.(open) r.(qualified) r.(out) (S r.(matched)) r.(owned) r.(parent)
  else if r.(owned) then mkResult r.(open) r.(qualified) (r.(out) ++ [p]) r.(matched) true r.(parent)
  else if bool_decide (p ∈ take r.(matched) r.(out)) then r
  else mkResult r.(open) r.(qualified) (take r.(matched) r.(out) ++ [p]) r.(matched) true r.(parent).

(** [addVisibleProduction]: discovered evidence of a producer that is hidden, or whose
    accepted inventory takes the contribution over, is left out. *)
Definition addVisibleProduction (r : productionResult) (p : Production) : productionResult :=
  match s.(coverage) !! p.(Owner) with
  | None => result_add r p
  | Some c =>
      let shadowing := shadows s.(artifacts) (inventory s p.(Owner)) c.(binding) in
      let closes := negb (bool_decide (q.(q_source) = no_resource)) && negb r.(qualified) &&
        bool_decide (p.(p_Source) = q.(q_source)) && shadowing in
      let r := if closes then mkResult false r.(qualified) r.(out) r.(matched) r.(owned) r.(parent) else r in
      if match s.(slots) !! p.(Owner) with Some slot => slot.(hidden) | None => false end || shadowing
      then r else result_add r p
  end.

(** [sameProductionContext]. *)
Definition sameProductionContext (a b : Production) : bool :=
  bool_decide (a.(p_Source) = b.(p_Source)) &&
  match s.(coverage) !! a.(Owner), s.(coverage) !! b.(Owner) with
  | Some ac, Some bc => binding_equal s.(artifacts) ac.(binding) bc.(binding)
  | _, _ => true
  end.

Definition bareProductionExcluded (p : Production) (id : NamedResource) : bool :=
  bool_decide (p.(p_Path) = "") || bool_decide (p.(p_Authored).(Namespace) ≠ "") ||
  negb (bool_decide (p.(p_Authored) = no_resource)) &&
  negb (bool_decide (Resolve p.(p_Authored) id.(Namespace) "" = id)).

Definition sameFamily (a b : Production) : bool :=
  bool_decide (a.(p_Source) = b.(p_Source)) &&
  (bool_decide (is_Some q.(q_incoming)) || bool_decide (a.(p_Path) = "") ||
   bool_decide (a.(p_File) = b.(p_File)) && bool_decide (a.(p_Authored) = b.(p_Authored))).

(** The test of the loop of [addBareProductions] on [p], with the productions before it
    and the first one taken. *)
Definition bare_matches (evidence prefix : list Production) (first : option Production) (p : Production) : bool :=
  let family a b := sameFamily a b && sameProductionContext a b in
  let known e := match evidence with
    | [] => match first with Some f => sameFamily f e | None => false end
    | _ => existsb (λ d, sameFamily d e) evidence
    end in
  match evidence with
  | [] => match first with Some f => family f p | None => true end
  | _ => existsb (λ e, family e p) evidence
  end ||
  existsb (λ e, negb (bool_decide (e.(p_Path) = "")) && bool_decide (e.(p_Authored).(Namespace) = "") &&
                sameFamily e p && negb (bool_decide (is_Some (s.(coverage) !! e.(Owner)))) && known e) prefix.

Definition bare_step (evidence : list Production) (st : list Production * option Production * productionResult)
    (p : Production) : list Production * option Production * productionResult :=
  let '(prefix, first, r) := st in
  if negb (bareProductionExcluded p q.(q_id)) && bare_matches evidence prefix first p
  then (prefix ++ [p], Some (default p first), addVisibleProduction r p)
  else (prefix ++ [p], first, r).

Definition addBareProductions (evidence bare : list Production) (r : productionResult) : productionResult :=
  (foldl (bare_step evidence) ([], None, r) bare).2.

(** What one member contributes; a visible producer has an inventory with its entry. *)
Definition member_productions (m : membership) : list Production :=
  if negb (slot_visible s m.(m_slot)) then []
  else match entry_of s m with
       | None => []
       | Some entry =>
           let source := entry.(a_binding).(source) in
           if m.(declaration)
           then [mkProduction m.(m_slot) (Named entry.(child).(c_Obj)) no_resource source "" ""]
           else (if existsb (λ p, bool_decide (p.(Owner) = m.(m_slot))) entry.(child).(c_Productions) then []
                 else [mkProduction m.(m_slot) no_resource no_resource source "" ""]) ++
                entry.(child).(c_Productions)
       end.

Definition addProductionMembers (provisional : bool) (r : productionResult) : productionResult :=
  let id := q.(q_id) in
  let cell := cell_of s id in
  if cell.(c_hidden) && negb (bool_decide (is_Some cell.(reference))) then result_reset [] r
  else
    let r := match cell.(static), cell.(c_binding) with
      | Some _, Some ref =>
          if negb cell.(c_support) && bool_decide (r.(out) = []) && bound cell
          then result_add r (mkProduction no_resource no_resource no_resource ref "" "") else r
      | _, _ => r
      end in
    let r := if bool_decide (is_Some cell.(static)) && cell.(retired) && (provisional || cell.(classified))
             then result_reset [] r else r in
    foldl (λ r m, foldl result_add r (member_productions m)) r (members_of s id).

(** [classifySource]. *)
Definition classifySource (provisional : bool) (r : productionResult) : productionResult :=
  let cell := cell_of s q.(q_id) in
  let qualified := bool_decide (is_Some cell.(static)) &&
    (cell.(classified) && bool_decide (cell.(c_binding) = Some q.(q_source)) ||
     provisional && bool_decide (q.(q_source) = BootstrapSourceID)) in
  mkResult (if qualified && cell.(retired) then false else r.(open)) qualified
    r.(out) r.(matched) r.(owned) r.(parent).

Fixpoint increasing (l : list Production) : bool :=
  match l with
  | a :: (b :: _) as l' => bool_decide (compare a b = Lt) && increasing l'
  | _ => true
  end.

(** [finishProductions]. *)
Definition finishProductions (r : productionResult) : productionResult :=
  let r := if r.(owned) then r
    else let out := take r.(matched) r.(out) in
         mkResult r.(open) r.(qualified) out r.(matched) (negb (increasing out)) r.(parent) in
  if r.(owned)
  then mkResult r.(open) r.(qualified) (Compact (sort_by compare r.(out))) r.(matched) true r.(parent)
  else r.

(** [incomingProductions]: the bare evidence an incoming child keeps. *)
Definition incoming_bare (evidence bare : list Production) : list Production :=
  if bool_decide (evidence = []) ||
     existsb (λ p, negb (bool_decide (p.(p_Path) = "")) &&
                   bool_decide (Resolve p.(p_Authored) q.(q_id).(Namespace) "" = q.(q_id))) evidence
  then [] else bare.

Definition without_namespace (id : NamedResource) : NamedResource := mkResource id.(Group) id.(Kind) "" id.(Name).

Definition indexed (index : option (gmap NamedResource DiscoveryRecord)) (id : NamedResource) : list Production :=
  Productions (default no_record (index ≫= λ i, i !! id)).

(** [visitProductions] without reads and without reference facts, from a fresh result;
    [index] is the argument, which when nil is the installed index. *)
Definition visitProductions (index : option (gmap NamedResource DiscoveryRecord)) (opened : bool) : productionResult :=
  let id := q.(q_id) in
  let index := match index with Some _ => index | None => s.(Membership.index) end in
  let evidence := indexed index id in
  let provisional := bootstrapSeed evidence in
  let bare := if bool_decide (id.(Namespace) = "") then [] else indexed index (without_namespace id) in
  let '(evidence, bare) := match q.(q_incoming) with
    | Some incoming => (incoming, incoming_bare incoming bare)
    | None => (evidence, bare)
    end in
  let r := classifySource provisional (mkResult opened false evidence 0 false no_resource) in
  let r := foldl (if bool_decide (is_Some q.(q_incoming)) then result_add else addVisibleProduction) r evidence in
  let r := addBareProductions evidence bare r in
  let r := if bool_decide (is_Some q.(q_incoming)) then r else addProductionMembers provisional r in
  finishProductions r.

End traversal.

(** ** Queries *)

Definition production_query (id : NamedResource) : query := mkQuery id no_resource false None.

Definition Productions_of (s : Store) (id : NamedResource) index : list Production :=
  (visitProductions s (production_query id) index false).(out).

Definition IncomingProductions (s : Store) (id : NamedResource) (incoming : list Production) index : list Production :=
  (visitProductions s (mkQuery id no_resource false (Some incoming)) index false).(out).

Definition RenderedParent (s : Store) (id : NamedResource) index : option NamedResource :=
  let parent := (visitProductions s (mkQuery id no_resource true None) index false).(parent) in
  if bool_decide (parent = no_resource) then None else Some parent.

Definition SourceAdmission (s : Store) (id source : NamedResource) : bool :=
  (visitProductions s (mkQuery id source false None) None true).(open).

(** [productionCandidatesLocked]; [names] lists the bucket of the group and kind. *)
Definition foreign (id : NamedResource) (ps : list Production) : bool :=
  existsb (λ p, negb (bool_decide (p.(Owner) = no_resource)) && negb (bool_decide (p.(Owner) = id))) ps.

Definition is_candidate (s : Store) (index : option (gmap NamedResource DiscoveryRecord)) (prospective : gset NamedResource)
    (id : NamedResource) : bool :=
  let bare := without_namespace id in
  bool_decide (id ∈ prospective) || bool_decide (bare ∈ prospective) ||
  foreign id (indexed index id) || bool_decide (id.(Namespace) ≠ "") && foreign id (indexed index bare) ||
  existsb (λ m, negb m.(declaration) && negb (bool_decide (m.(m_slot) = id)) && slot_visible s m.(m_slot)) (members_of s id).

Definition productionCandidates (s : Store) (names : list (string * string)) (group kind : string) index prospective : list O :=
  omap (λ n, let id := mkResource group kind n.1 n.2 in
             if is_candidate s index prospective id then objectLocked s id else None) names.

Definition ListProductionCandidates (s : Store) names group kind (index : option (gmap NamedResource DiscoveryRecord)) prospective : list O :=
  let index := match index with Some _ => index | None => s.(Membership.index) end in
  sort_by by_name (productionCandidates s names group kind index prospective).

(** ** What a traversal gathers

    The same selections as plain lists, without a result under construction. *)
Section gathering.
Context (s : Store) (q : query).

Definition shadowed_by (p : Production) : bool :=
  match s.(coverage) !! p.(Owner) with
  | Some c => shadows s.(artifacts) (inventory s p.(Owner)) c.(binding)
  | None => false
  end.

Definition unhidden (p : Production) : bool :=
  match s.(coverage) !! p.(Owner) with
  | Some _ => negb (match s.(slots) !! p.(Owner) with Some slot => slot.(hidden) | None => false end || shadowed_by p)
  | None => true
  end.

Definition take_step (evidence : list Production) (st : list Production * option Production * list Production)
    (p : Production) : list Production * option Production * list Production :=
  let '(prefix, first, l) := st in
  if negb (bareProductionExcluded p q.(q_id)) && bare_matches s q evidence prefix first p
  then (prefix ++ [p], Some (default p first), l ++ [p])
  else (prefix ++ [p], first, l).

Definition taken (evidence bare : list Production) : list Production :=
  (foldl (take_step evidence) ([], None, []) bare).2.

Lemma bare_spec evidence bare r :
  addBareProductions s q evidence bare r = foldl (addVisibleProduction s q) r (taken evidence bare).
Proof.
  unfold addBareProductions, taken.
  enough (∀ bare pf first r l, (foldl (bare_step s q evidence) (pf, first, foldl (addVisibleProduction s q) r l) bare).2 =
    foldl (addVisibleProduction s q) r (foldl (take_step evidence) (pf, first, l) bare).2) as H by apply (H bare [] None r []).
  clear. induction bare as [| p bare IH]; intros pf first r l; [done |]. cbn [foldl].
  unfold bare_step at 2, take_step at 2. destruct (_ && _); [| apply IH].
  rewrite <- IH, foldl_snoc. done.
Qed.

Definition visible_list (l : list Production) : list Production := filter unhidden l.

(** [addVisibleProduction] adds what is visible, and closes an admission. *)
Definition close (b : bool) (r : productionResult) : productionResult :=
  mkResult (r.(open) && b) r.(qualified) r.(out) r.(matched) r.(owned) r.(parent).

Definition stays_open (ql : bool) (p : Production) : bool :=
  bool_decide (q.(q_source) = no_resource) || ql || negb (bool_decide (p.(p_Source) = q.(q_source))) || negb (shadowed_by p).

Lemma add_visible_eq r p : addVisibleProduction s q r p =
  (let r := close (stays_open r.(qualified) p) r in if unhidden p then result_add q r p else r).
Proof.
  unfold addVisibleProduction, unhidden, stays_open, shadowed_by. destruct (coverage s !! Owner p) as [c |] eqn:Hc.
  - set (sh := shadows _ _ _). destruct r as [o ql ou m ow pa]. unfold close. cbn [open qualified out matched owned parent].
    destruct (bool_decide (q_source q = no_resource)), ql, (bool_decide (p_Source p = q_source q)), sh; cbn [negb andb orb];
      rewrite ?andb_true_r, ?andb_false_r, ?orb_true_r, ?orb_false_r; cbn [negb]; try done;
      by destruct (match slots s !! Owner p with Some slot => slot.(hidden) | None => false end).
  - destruct r. unfold close. cbn [open qualified out matched owned parent]. by rewrite !orb_true_r, andb_true_r.
Qed.

End gathering.

(** Invariants of a result and the list it has been given, kept by each addition. *)
Section invariant.
Context (s : Store) (q : query) (P : list Production → productionResult → Prop).
Context (P_add : ∀ l r p, P l r → P (l ++ [p]) (result_add q r p)) (P_close : ∀ l r b, P l r → P l (close b r)).

Lemma kept_adds l r ps : P l r → P (l ++ ps) (foldl (result_add q) r ps).
Proof.
  revert l r. induction ps as [| p ps IH]; intros l r H; [by rewrite app_nil_r |]. cbn [foldl].
  rewrite (cons_middle p l ps), (assoc_L (++)). by apply IH, P_add.
Qed.

Lemma kept_visible l r ps : P l r → P (l ++ visible_list s ps) (foldl (addVisibleProduction s q) r ps).
Proof.
  revert l r. induction ps as [| p ps IH]; intros l r H; [by rewrite app_nil_r |]. cbn [foldl]. unfold visible_list.
  rewrite filter_cons, add_visible_eq. cbv zeta.
  destruct (unhidden s p) eqn:E.
  - rewrite decide_True by done. rewrite (cons_middle p l), (assoc_L (++)). by apply IH, P_add, P_close.
  - rewrite decide_False by (by intros []). by apply IH, P_close.
Qed.

Lemma kept_members l r ms : P l r →
  P (l ++ concat (map (member_productions s) ms)) (foldl (λ r m, foldl (result_add q) r (member_productions s m)) r ms).
Proof.
  revert l r. induction ms as [| m ms IH]; intros l r H; [by rewrite app_nil_r |]. cbn [foldl map concat].
  rewrite (assoc_L (++)). by apply IH, kept_adds.
Qed.

End invariant.

(** *** Borrowing *)
Section borrowing.
Context (id : NamedResource) (incoming : option (list Production)).

Notation q := (mkQuery id no_resource false incoming).

Definition borrowed (r : productionResult) : list Production := if r.(owned) then r.(out) else take r.(matched) r.(out).

(** [r] holds the productions of [l]; until it owns its list this is a prefix of [evidence]. *)
Record holds (evidence l : list Production) (r : productionResult) : Prop := {
  h_elems p : p ∈ borrowed r ↔ p ∈ l;
  h_borrowed : r.(owned) = false → r.(out) = evidence;
  h_owned : r.(owned) = true → r.(out) ≠ [];
}.

Lemma holds_add evidence l r p : holds evidence l r → holds evidence (l ++ [p]) (result_add q r p).
Proof.
  intros [He Hb Ho]. unfold result_add, borrowed in *. cbn [q_source q_parentOnly]. rewrite bool_decide_true by done. cbn [negb].
  destruct r as [o ql ou m ow pa]. cbn [open qualified out matched owned parent] in *. destruct ow; cbn [negb andb].
  - split; cbn [open qualified out matched owned parent].
    + intros x. unfold borrowed. cbn. by rewrite !elem_of_app, He.
    + done.
    + intros _ Hn. by apply app_eq_nil in Hn as [_ ?].
  - case_bool_decide as Hm.
    + split; cbn [out owned]; [| by auto | done]. intros x. unfold borrowed. cbn [owned out matched].
      rewrite (take_S_r _ _ p) by done. by rewrite !elem_of_app, He.
    + case_bool_decide as Hin.
      * split; cbn [out owned]; [| by auto | done]. intros x. unfold borrowed. cbn [owned out matched].
        rewrite elem_of_app, <- He, list_elem_of_singleton. split; [by left |]. intros [? | ->]; done.
      * split; cbn [out owned]; [| done |].
        -- intros x. unfold borrowed. cbn [owned out]. by rewrite !elem_of_app, He.
        -- intros _ Hn. by apply app_eq_nil in Hn as [_ ?].
Qed.

Lemma holds_close evidence l r b : holds evidence l r → holds evidence l (close b r).
Proof. intros [? ? ?]; by split. Qed.

Lemma holds_empty evidence l r : holds evidence l r → r.(out) = [] ↔ evidence = [] ∧ l = [].
Proof.
  intros [He Hb Ho]. unfold borrowed in He. destruct (owned r) eqn:E.
  - split; [intros Hn; by destruct Ho |]. intros [_ ->]. destruct (out r) as [| p ou] eqn:Eo; [done |].
    exfalso. apply (elem_of_nil p), He. by left.
  - rewrite Hb by done. split; [| by intros [? _]]. intros ->. split; [done |]. rewrite Hb in He by done. rewrite take_nil in He.
    destruct l as [| p l]; [done |]. exfalso. apply (elem_of_nil p), He. by left.
Qed.

Lemma holds_reset evidence l r : holds evidence l r → holds [] [] (result_reset [] r).
Proof. intros _. split; [| done | done]. intros p. by unfold borrowed. Qed.

Lemma increasing_sorted l : increasing l = true → StronglySorted (λ a b : Production, compare a b = Lt) l.
Proof.
  induction l as [| a [| b l] IH]; intros H; [constructor | by repeat constructor |].
  cbn [increasing] in H. apply andb_true_iff in H as [Hab%bool_decide_eq_true Hl]. specialize (IH Hl).
  constructor; [done |]. apply StronglySorted_inv in IH as [_ Hb]. constructor; [done |].
  eapply Forall_impl; [exact Hb |]. intros x Hx. by apply (compare_lt_trans a b x).
Qed.

Lemma holds_finish evidence l r : holds evidence l r → (finishProductions r).(out) = Compact (sort_by compare l).
Proof.
  intros [He Hb Ho]. unfold finishProductions, borrowed in *. destruct r as [o ql ou m ow pa]. cbn [owned out matched] in *.
  destruct ow; cbn [owned out matched].
  - by apply sorted_distinct_unique.
  - destruct (increasing (take m ou)) eqn:E; cbn [negb owned out].
    + apply strictly_sorted_unique; [by apply increasing_sorted | apply Compact_sorted, sort_lawful_sorted |].
      intros x. by rewrite elem_of_sorted_distinct, He.
    + by apply sorted_distinct_unique.
Qed.

End borrowing.

(** *** Exactness *)

Section queries.
Context (s : Store) (id : NamedResource) (index : option (gmap NamedResource DiscoveryRecord)).

Definition used_index : option (gmap NamedResource DiscoveryRecord) :=
  match index with Some _ => index | None => s.(Membership.index) end.

Definition evidence_of : list Production := indexed used_index id.
Definition bare_of : list Production :=
  if bool_decide (id.(Namespace) = "") then [] else indexed used_index (without_namespace id).

(** The discovered evidence that nothing hides. *)
Definition discovered : list Production :=
  visible_list s evidence_of ++ visible_list s (taken s (production_query id) evidence_of bare_of).

Definition self_bound (empty : bool) : list Production :=
  let cell := cell_of s id in
  match cell.(static), cell.(c_binding) with
  | Some _, Some ref =>
      if negb cell.(c_support) && empty && bound cell
      then [mkProduction no_resource no_resource no_resource ref "" ""] else []
  | _, _ => []
  end.

(** What the query for [id] gathers: nothing for a hidden resource without a reference;
    otherwise the discovered evidence, unless the static declaration is retired, and the
    contributions of the live members.  A declaration bound to a source without any
    discovered evidence is its own production. *)
Definition contributed : list Production :=
  let cell := cell_of s id in
  if cell.(c_hidden) && negb (bool_decide (is_Some cell.(reference))) then []
  else
    (if bool_decide (is_Some cell.(static)) && cell.(retired) && (bootstrapSeed evidence_of || cell.(classified)) then []
     else discovered ++ self_bound (bool_decide (evidence_of = [] ∧ discovered = []))) ++
    concat (map (member_productions s) (members_of s id)).

Lemma visit_unfold q opened : q_id q = id → q_incoming q = None →
  visitProductions s q index opened =
    finishProductions (addProductionMembers s q (bootstrapSeed evidence_of)
      (foldl (addVisibleProduction s q)
         (foldl (addVisibleProduction s q) (classifySource s q (bootstrapSeed evidence_of) (mkResult opened false evidence_of 0 false no_resource)) evidence_of)
         (taken s q evidence_of bare_of))).
Proof. destruct q as [i so po inc]. cbn [q_id q_incoming]. intros -> ->. unfold visitProductions. cbn [q_id q_incoming]. by rewrite bare_spec. Qed.

Lemma members_unfold q provisional r : q_id q = id →
  addProductionMembers s q provisional r =
    let cell := cell_of s id in
    if cell.(c_hidden) && negb (bool_decide (is_Some cell.(reference))) then result_reset [] r
    else foldl (λ r m, foldl (result_add q) r (member_productions s m))
      (let r := foldl (result_add q) r (self_bound (bool_decide (r.(out) = []))) in
       if bool_decide (is_Some cell.(static)) && cell.(retired) && (provisional || cell.(classified)) then result_reset [] r else r)
      (members_of s id).
Proof.
  destruct q as [i so po inc]. cbn [q_id]. intros ->. unfold addProductionMembers, self_bound. cbn [q_id]. cbv zeta.
  generalize (cell_of s id). intros cell. destruct (c_hidden cell && negb (bool_decide (is_Some (reference cell)))); [done |].
  destruct (static cell) as [o |], (c_binding cell) as [ref |]; try done.
  by destruct (negb (c_support cell) && bool_decide (out r = []) && bound cell).
Qed.

(** A traversal keeps an invariant, whether or not it stops at the productions it has. *)
Lemma kept_gathered (q : query) (P : list Production → list Production → productionResult → Prop) r : q_id q = id →
  (∀ e l r p, P e l r → P e (l ++ [p]) (result_add q r p)) → (∀ e l r b, P e l r → P e l (close b r)) →
  (∀ e l r, P e l r → P [] [] (result_reset [] r)) →
  (∀ r, P evidence_of discovered r →
     ∀ ps, P evidence_of (discovered ++ self_bound (bool_decide (out r = []))) ps →
           P evidence_of (discovered ++ self_bound (bool_decide (evidence_of = [] ∧ discovered = []))) ps) →
  taken s q evidence_of bare_of = taken s (production_query id) evidence_of bare_of →
  P evidence_of [] r →
  ∃ evidence, P evidence contributed (addProductionMembers s q (bootstrapSeed evidence_of)
    (foldl (addVisibleProduction s q) (foldl (addVisibleProduction s q) r evidence_of) (taken s q evidence_of bare_of))).
Proof.
  intros Hid Hadd Hclose Hreset Hself Ht H. rewrite Ht. rewrite <- foldl_app.
  pose proof (kept_visible s q (P evidence_of) (Hadd _) (Hclose _) [] r
    (evidence_of ++ taken s (production_query id) evidence_of bare_of) H) as Hd.
  cbn [app] in Hd. unfold visible_list in Hd. rewrite filter_app in Hd. fold (visible_list s) in Hd.
  change (P evidence_of discovered (foldl (addVisibleProduction s q) r (evidence_of ++ taken s (production_query id) evidence_of bare_of))) in Hd.
  revert Hd. generalize (foldl (addVisibleProduction s q) r (evidence_of ++ taken s (production_query id) evidence_of bare_of)).
  clear r H Ht. intros r Hd. rewrite members_unfold by done. unfold contributed. cbv zeta. generalize (cell_of s id). intros cell.
  destruct (c_hidden cell && negb (bool_decide (is_Some (reference cell)))); [exists []; by eapply Hreset |].
  pose proof (Hself r Hd _ (kept_adds q (P evidence_of) (Hadd _) _ r (self_bound (bool_decide (out r = []))) Hd)) as H2.
  destruct (bool_decide (is_Some (static cell)) && retired cell && (bootstrapSeed evidence_of || classified cell)); [exists [] | exists evidence_of];
    (apply kept_members; [apply Hadd |]); [by eapply (Hreset evidence_of) | done].
Qed.

Lemma Productions_spec : Productions_of s id index = Compact (sort_by compare contributed).
Proof.
  unfold Productions_of. rewrite visit_unfold by done.
  edestruct (kept_gathered (production_query id) holds (classifySource s (production_query id) (bootstrapSeed evidence_of)
    (mkResult false false evidence_of 0 false no_resource))) as [ev H]; [done | | | | | done | | by eapply holds_finish].
  - intros. by apply holds_add.
  - intros. by apply holds_close.
  - intros. by eapply holds_reset.
  - intros r Hr ps. by rewrite (bool_decide_ext (out r = []) (evidence_of = [] ∧ discovered = [])) by (by apply holds_empty).
  - split; [| done | done]. intros p. unfold borrowed. cbn. by rewrite take_0.
Qed.

(** *** Parents *)

(** [x] is the least owner of the eligible productions of [l]. *)
Definition least_owner (l : list Production) (x : option NamedResource) : Prop :=
  match x with
  | None => ∀ p, p ∈ l → parent_of_target id p = false
  | Some x => (∃ p, p ∈ l ∧ parent_of_target id p = true ∧ p.(Owner) = x) ∧
      ∀ p, p ∈ l → parent_of_target id p = true → cmp_le x p.(Owner)
  end.

Lemma least_owner_ext l l' x : (∀ p, parent_of_target id p = true → p ∈ l ↔ p ∈ l') → least_owner l x → least_owner l' x.
Proof.
  intros He. destruct x as [x |]; cbn.
  - intros [(p & Hp & Ht & Hx) Hmin]. split; [exists p; by rewrite <- He | intros p' Hp' Ht'; apply Hmin; [by apply He | done]].
  - intros Hn p Hp. destruct (parent_of_target id p) eqn:E; [| done]. rewrite <- (Hn p); [done | by apply He].
Qed.

Definition parent_of_result (r : productionResult) : option NamedResource :=
  if bool_decide (r.(parent) = no_resource) then None else Some r.(parent).

Record leads (evidence l : list Production) (r : productionResult) : Prop := {
  l_parent : least_owner l (parent_of_result r);
  l_out : r.(out) = evidence;
  l_owned : r.(owned) = false;
}.

Notation pq := (mkQuery id no_resource true None).

Lemma leads_add evidence l r p : leads evidence l r → leads evidence (l ++ [p]) (result_add pq r p).
Proof.
  intros [Hp Ho Hw]. unfold result_add. cbn [q_source q_parentOnly q_id]. rewrite bool_decide_true by done. cbn [negb].
  destruct (parent_of_target id p) eqn:Et; cbn [andb].
  2: { split; [| done | done]. apply (least_owner_ext l); [| done]. intros x Hx. rewrite elem_of_app, list_elem_of_singleton.
       split; [by left | intros [? | ->]; [done | congruence]]. }
  assert (Owner p ≠ no_resource) as Hne.
  { unfold parent_of_target in Et. bool_to_prop. done. }
  unfold parent_of_result in Hp. destruct (bool_decide (parent r = no_resource)) eqn:En; cbn [orb].
  - split; [| done | done]. unfold parent_of_result. cbn [parent]. rewrite bool_decide_false by done. cbn in Hp |- *. split.
    + exists p. rewrite elem_of_app, list_elem_of_singleton. tauto.
    + intros p' Hp' Ht'. apply elem_of_app in Hp' as [Hp' | ->%list_elem_of_singleton]; [by rewrite Hp in Ht' | reflexivity].
  - destruct Hp as [(p0 & Hp0 & Ht0 & Hx0) Hmin]. destruct (bool_decide_reflect (compare (Owner p) (parent r) = Lt)) as [Hlt | Hlt]; (split; [| done | done]); unfold parent_of_result; cbn [parent].
    + rewrite bool_decide_false by done. split.
      * exists p. rewrite elem_of_app, list_elem_of_singleton. tauto.
      * intros p' Hp' Ht'. apply elem_of_app in Hp' as [Hp' | ->%list_elem_of_singleton]; [| reflexivity].
        transitivity (parent r); [| by apply Hmin]. unfold cmp_le. by rewrite Hlt.
    + rewrite En. split.
      * exists p0. rewrite elem_of_app. tauto.
      * intros p' Hp' Ht'. apply elem_of_app in Hp' as [Hp' | ->%list_elem_of_singleton]; [by apply Hmin |].
        unfold cmp_le. rewrite compare_gt_lt. done.
Qed.

Lemma self_bound_owner p b : parent_of_target id p = true → p ∉ self_bound b.
Proof.
  intros Hp Hin. unfold self_bound in Hin.
  destruct (static (cell_of s id)), (c_binding (cell_of s id)) as [ref |]; try by apply elem_of_nil in Hin.
  destruct (negb (c_support (cell_of s id)) && b && bound (cell_of s id)); [| by apply elem_of_nil in Hin].
  apply list_elem_of_singleton in Hin as ->. unfold parent_of_target in Hp. bool_to_prop. done.
Qed.

Lemma RenderedParent_contributed : least_owner contributed (RenderedParent s id index).
Proof.
  unfold RenderedParent. rewrite visit_unfold by done.
  edestruct (kept_gathered pq leads (classifySource s pq (bootstrapSeed evidence_of)
    (mkResult false false evidence_of 0 false no_resource))) as [ev H]; [done | | | | | done | |].
  - intros. by apply leads_add.
  - intros e l r b [? ? ?]. by split.
  - intros e l r [? ? ?]. split; [| done | done]. unfold parent_of_result. cbn. by intros p ?%elem_of_nil.
  - intros r Hr ps [Hl Ho Hw]. split; [| done | done]. revert Hl. apply least_owner_ext. intros p Hp.
    rewrite !elem_of_app. pose proof (self_bound_owner p (bool_decide (out r = [])) Hp).
    pose proof (self_bound_owner p (bool_decide (evidence_of = [] ∧ discovered = [])) Hp). tauto.
  - split; [| done | done]. unfold parent_of_result. cbn. by intros p ?%elem_of_nil.
  - destruct H as [Hl _ Hw]. unfold finishProductions. rewrite Hw. cbn [owned]. unfold parent_of_result in Hl.
    destruct (increasing _); cbn [negb]; exact Hl.
Qed.

Lemma RenderedParent_spec : least_owner (Productions_of s id index) (RenderedParent s id index).
Proof.
  apply (least_owner_ext contributed); [| apply RenderedParent_contributed]. intros p _. by rewrite Productions_spec, elem_of_sorted_distinct.
Qed.

(** The parent a resource is rendered by is the least owner, other than the
    resource, of those of its productions that carry no authored identity and no
    declaration, and there is none exactly when no production is of that kind: the
    query that only keeps the parent and the query that collects the productions
    agree. *)
Theorem RenderedParent_least : least_owner (Productions_of s id index) (RenderedParent s id index).
Proof. apply RenderedParent_spec. Qed.

(** The productions of a resource are the contributions gathered for it, each
    once and in the order of comparison, whether the traversal could borrow the
    discovered list up to its end or had to copy it. *)
Theorem Productions_exact : Productions_of s id index = Compact (sort_by compare contributed).
Proof. apply Productions_spec. Qed.

End queries.

(** *** Admission of initial sources *)

Lemma add_idle q r p : q_source q ≠ no_resource → result_add q r p = r.
Proof. intros Hq. unfold result_add. by rewrite bool_decide_false. Qed.

Lemma adds_idle q r ps : q_source q ≠ no_resource → foldl (result_add q) r ps = r.
Proof. intros Hq. revert r. induction ps as [| p ps IH]; intros r; [done |]. cbn [foldl]. by rewrite add_idle. Qed.

Lemma visible_closes s q r ps : q_source q ≠ no_resource →
  foldl (addVisibleProduction s q) r ps = close (forallb (stays_open s q r.(qualified)) ps) r.
Proof.
  intros Hq. revert r. induction ps as [| p ps IH]; intros r.
  { cbn. unfold close. rewrite andb_true_r. by destruct r. }
  cbn [foldl forallb]. rewrite add_visible_eq. cbv zeta. rewrite add_idle by done.
  replace (if unhidden s p then _ else _) with (close (stays_open s q (qualified r) p) r) by (by destruct (unhidden s p)).
  rewrite IH. unfold close. cbn. by rewrite andb_assoc.
Qed.

Lemma members_open s q b r : q_source q ≠ no_resource → open (finishProductions (addProductionMembers s q b r)) = open r.
Proof.
  intros Hq.
  assert (∀ r, open (finishProductions r) = open r) as Hf.
  { intros [o ql ou m ow pa]. unfold finishProductions. cbn [owned matched out]. destruct ow; [done |]. cbn [owned]. by destruct (negb (increasing (take m ou))). }
  assert (∀ ms r, foldl (λ r m, foldl (result_add q) r (member_productions s m)) r ms = r) as Hm.
  { induction ms as [| m ms IH]; intros r1; [done |]. cbn [foldl]. rewrite adds_idle by done. apply IH. }
  rewrite Hf, (members_unfold s (q_id q)) by done. cbv zeta. rewrite Hm, adds_idle by done.
  generalize (cell_of s (q_id q)). intros cell. destruct (c_hidden cell && negb (bool_decide (is_Some (reference cell)))); [done |].
  by destruct (bool_decide (is_Some (static cell)) && retired cell && (b || classified cell)).
Qed.

(** An initial source stays admitted unless the resource's static declaration, which it
    supplies, is retired, or, when it supplies none, a discovered contribution of the
    source was taken over by accepted inventory. *)
Theorem SourceAdmission_exact s id source : source ≠ no_resource →
  let cell := cell_of s id in
  let evidence := evidence_of s id None in
  let qualified := bool_decide (is_Some cell.(static)) &&
    (cell.(classified) && bool_decide (cell.(c_binding) = Some source) ||
     bootstrapSeed evidence && bool_decide (source = BootstrapSourceID)) in
  SourceAdmission s id source =
    if qualified then negb cell.(retired)
    else negb (existsb (λ p, bool_decide (p.(p_Source) = source) && shadowed_by s p)
           (evidence ++ taken s (production_query id) evidence (bare_of s id None))).
Proof.
  intros Hs. cbv zeta. unfold SourceAdmission. rewrite (visit_unfold s id None) by done.
  rewrite <- foldl_app, members_open, visible_closes by done. unfold close, classifySource. cbn [open qualified q_id q_source].
  generalize (bool_decide (is_Some (static (cell_of s id))) &&
    (classified (cell_of s id) && bool_decide (c_binding (cell_of s id) = Some source) ||
     bootstrapSeed (evidence_of s id None) && bool_decide (source = BootstrapSourceID))) as ql. intros ql.
  change (taken s (mkQuery id source false None)) with (taken s (production_query id)).
  generalize (evidence_of s id None ++ taken s (production_query id) (evidence_of s id None) (bare_of s id None)) as l. intros l.
  assert (forallb (stays_open s (mkQuery id source false None) ql) l =
    ql || negb (existsb (λ p, bool_decide (p.(p_Source) = source) && shadowed_by s p) l)) as ->.
  { unfold stays_open. cbn [q_source]. rewrite bool_decide_false by done.
    induction l as [| p l IH]; [by rewrite orb_true_r |]. cbn [forallb existsb]. rewrite IH.
    by destruct ql, (bool_decide (p_Source p = source)), (shadowed_by s p). }
  by destruct ql, (retired (cell_of s id)).
Qed.

(** *** Incoming declarations *)

(** An incoming child's own evidence is kept whole; bare evidence joins it only when no
    evidence of the child has a path and authors this very identity. *)
Theorem IncomingProductions_exact s id incoming index :
  IncomingProductions s id incoming index =
    Compact (sort_by compare (incoming ++ visible_list s
      (taken s (mkQuery id no_resource false (Some incoming)) incoming
         (incoming_bare (production_query id) incoming (bare_of s id index))))).
Proof.
  unfold IncomingProductions, visitProductions. cbn [q_incoming q_id]. rewrite bool_decide_true by eauto. rewrite bare_spec.
  apply (holds_finish incoming). apply kept_visible; [intros; by apply holds_add | intros; by apply holds_close |].
  apply (kept_adds _ (holds incoming) (λ l r p, holds_add id (Some incoming) incoming l r p) []).
  split; [| done | done]. intros p. unfold borrowed. cbn. by rewrite take_0.
Qed.

End productions.
