(* ===== verification/Registrations.v ===== *)
(** * Change notification (pkg/store/registration.go)

    An execution that reads the store registers on the authority of every fact it
    captures, or on the shard's absence when the fact is not there yet.  A writer
    advances an authority and queues its registrations; the sweep, at structural
    boundaries, tells each execution whose inputs changed, once.

    One shard is a transition system.  A writer's section under the write lock is one
    step, taken only while no reader is between its sampling and its link; a reader
    holds the read lock between those two.  [Retire] and the sweep's work on a detached
    chain hold no lock, and interleave with everything.  The authorities here are those
    that carry their own generation: the producer and reconciliation facets, the
    generations an emission supplies ([selected], [result]) and the rebasing of a
    writer's own captures ([advanceCollection]) are not modelled. *)

From stdpp Require Import fin_maps.
From S2P Require Import Prelude Resource.

Inductive facet :=
  | objectFacet | conditionFacet | contentFacet | revisionFacet | originFacet
  | acquisitionFacet | producerFacet | bucketFacet | reconciliationFacet.

#[export] Instance facet_eq_dec : EqDecision facet.
Proof. solve_decision. Defined.

Definition facet_code (f : facet) : nat :=
  match f with
  | objectFacet => 1 | conditionFacet => 2 | contentFacet => 3 | revisionFacet => 4 | originFacet => 5
  | acquisitionFacet => 6 | producerFacet => 7 | bucketFacet => 8 | reconciliationFacet => 9
  end.

#[export] Instance facet_countable : Countable facet.
Proof.
  refine (inj_countable' facet_code (λ n, match n with
    | 1 => objectFacet | 2 => conditionFacet | 3 => contentFacet | 4 => revisionFacet | 5 => originFacet
    | 6 => acquisitionFacet | 7 => producerFacet | 8 => bucketFacet | _ => reconciliationFacet end) _).
  by intros [].
Defined.

(** The authority of one facet of one identity; [None] below is the shard's absence. *)
Definition headKey : Type := NamedResource * facet.

(** ** The shard *)

(** [authority], with the demand of an object's cell. *)
Record authority := mkAuthority { generation : N; ordinaryDemand : bool }.

(** A cell that is neither included nor excluded has ordinary demand. *)
Definition no_authority : authority := mkAuthority 0 true.

Definition max_generation : N := 2 ^ 64 - 1.

(** [registrationHead]; its chain of registrations is a list. *)
Record registrationHead := mkHead {
  stamp : N;
  h_ordinary : bool;
  first : list nat;
  borrowed : bool;
}.

Inductive demand := demandUnread | demandQualification | demandOrdinary.

#[export] Instance demand_eq_dec : EqDecision demand.
Proof. solve_decision. Defined.

(** Where the reader of a registration is: it has sampled the fact; it links the
    registration, under the read lock; or the registration is linked. *)
Inductive reader_pc := Sampled | Linking | Linked.

#[export] Instance reader_pc_eq_dec : EqDecision reader_pc.
Proof. solve_decision. Defined.

(** A [registration]; [view] is the demand its capture saw. *)
Record registration := mkReg {
  key : headKey;
  absent : bool;
  r_generation : N;
  owner : nat;
  consumed : bool;
  ordinary : demand;
  view : bool;
  pc : reader_pc;
}.

Definition head_of (x : registration) : option headKey := if x.(absent) then None else Some x.(key).

(** The flags of a [ReadSet]. *)
Record readSet := mkReadSet { invalid : bool; delivered : bool; retired : bool }.

(** The chain [sweepRegistrations] walks: the registrations to come, those kept, and
    the dropped ones a traversal of the links still meets, before the first kept one
    and after the last. *)
Record chain := mkChain {
  swept : option headKey;
  cutoff : N;
  rest : list nat;
  lead : list nat;
  live : list nat;
  gap : list nat;
  requeue : bool;
}.

(** [Sweep]: idle, between two heads of the list it took, or inside one; [deliver] is
    whether its consumer still listens. *)
Inductive sweeper :=
  | Idle
  | Draining (heads : list (option headKey)) (deliver : bool)
  | Sweeping (heads : list (option headKey)) (deliver : bool) (ch : chain).

(** The shard.  [pendings] is the stack of queued heads and [pushing] holds the heads
    whose flag is set and whose push is under way. *)
Record config := mkConfig {
  authorities : gmap headKey authority;
  heads : gmap (option headKey) registrationHead;
  pendings : list (option headKey);
  pushing : list (option headKey);
  regs : gmap nat registration;
  readSets : gmap nat readSet;
  sweep : sweeper;
}.

Definition local_heads (w : sweeper) : list (option headKey) :=
  match w with Idle => [] | Draining hs _ => hs | Sweeping hs _ _ => hs end.

(** A head's flag [pending] is set from the start of its push until the sweep takes it. *)
Definition pending (c : config) (h : option headKey) : bool :=
  bool_decide (h ∈ c.(pushing) ++ c.(pendings) ++ local_heads c.(sweep)).

(** The chain the sweep holds, detached from its head. *)
Definition chain_of (c : config) : option chain :=
  match c.(sweep) with Sweeping _ _ ch => Some ch | _ => None end.

(** A head's flag [detached] is set while the sweep holds its chain. *)
Definition detached (c : config) (h : option headKey) : bool :=
  match chain_of c with Some ch => bool_decide (ch.(swept) = h) | None => false end.

(** What the links of a detached chain still meet. *)
Definition met (ch : option chain) (h : option headKey) : list nat :=
  match ch with
  | Some ch => if decide (ch.(swept) = h) then ch.(lead) ++ ch.(live) ++ ch.(gap) ++ ch.(rest) else []
  | None => []
  end.

(** [absence.watch]. *)
Definition watch (c : config) : list nat := met (chain_of c) None.

Definition New : config := mkConfig ∅ {[None := mkHead 0 false [] false]} [] [] ∅ ∅ Idle.

(** ** Updates *)

Definition set_authority (k : headKey) (a : authority) (c : config) : config :=
  mkConfig (<[k := a]> c.(authorities)) c.(heads) c.(pendings) c.(pushing) c.(regs) c.(readSets) c.(sweep).
Definition put_head (h : option headKey) (x : registrationHead) (c : config) : config :=
  mkConfig c.(authorities) (<[h := x]> c.(heads)) c.(pendings) c.(pushing) c.(regs) c.(readSets) c.(sweep).
Definition alter_head (h : option headKey) (f : registrationHead → registrationHead) (c : config) : config :=
  mkConfig c.(authorities) (alter f h c.(heads)) c.(pendings) c.(pushing) c.(regs) c.(readSets) c.(sweep).
Definition put_reg (r : nat) (x : registration) (c : config) : config :=
  mkConfig c.(authorities) c.(heads) c.(pendings) c.(pushing) (<[r := x]> c.(regs)) c.(readSets) c.(sweep).
Definition alter_set (o : nat) (f : readSet → readSet) (c : config) : config :=
  mkConfig c.(authorities) c.(heads) c.(pendings) c.(pushing) c.(regs) (alter f o c.(readSets)) c.(sweep).
Definition set_pushing (hs : list (option headKey)) (c : config) : config :=
  mkConfig c.(authorities) c.(heads) c.(pendings) hs c.(regs) c.(readSets) c.(sweep).
Definition set_pendings (hs : list (option headKey)) (c : config) : config :=
  mkConfig c.(authorities) c.(heads) hs c.(pushing) c.(regs) c.(readSets) c.(sweep).
Definition set_sweep (w : sweeper) (c : config) : config :=
  mkConfig c.(authorities) c.(heads) c.(pendings) c.(pushing) c.(regs) c.(readSets) w.

Definition set_stamp (g : N) (x : registrationHead) : registrationHead :=
  mkHead g x.(h_ordinary) x.(first) x.(borrowed).
Definition set_ordinary (b : bool) (x : registrationHead) : registrationHead :=
  mkHead x.(stamp) b x.(first) x.(borrowed).
Definition set_first (l : list nat) (x : registrationHead) : registrationHead :=
  mkHead x.(stamp) x.(h_ordinary) l x.(borrowed).
Definition set_borrowed (x : registrationHead) : registrationHead :=
  mkHead x.(stamp) x.(h_ordinary) x.(first) true.
Definition set_generation (g : N) (x : registration) : registration :=
  mkReg x.(key) x.(absent) g x.(owner) x.(consumed) x.(ordinary) x.(view) x.(pc).
Definition set_pc (p : reader_pc) (x : registration) : registration :=
  mkReg x.(key) x.(absent) x.(r_generation) x.(owner) x.(consumed) x.(ordinary) x.(view) p.
Definition invalidate (s : readSet) : readSet := mkReadSet true s.(delivered) s.(retired).
Definition set_delivered (s : readSet) : readSet := mkReadSet true true s.(retired).
Definition set_retired (s : readSet) : readSet := mkReadSet s.(invalid) s.(delivered) true.

(** ** Operations *)

Definition authority_of (c : config) (k : headKey) : authority := default no_authority (c.(authorities) !! k).

(** [authority.current]. *)
Definition current_generation (c : config) (k : headKey) : N :=
  match c.(heads) !! Some k with
  | Some x => N.max (authority_of c k).(generation) x.(stamp)
  | None => (authority_of c k).(generation)
  end.

(** [queue], up to the push that follows. *)
Definition queue (h : option headKey) (c : config) : config :=
  match c.(heads) !! h with
  | Some x => if (bool_decide (x.(first) ≠ []) || detached c h) && negb (pending c h)
              then set_pushing (h :: c.(pushing)) c else c
  | None => c
  end.

(** Without a lock the tests of [queue] may read a chain as it was: a head may be queued
    in vain, or not at all, which is no step. *)
Definition queue_unlocked (h : option headKey) (c : config) : config :=
  if bool_decide (is_Some (c.(heads) !! h)) && negb (pending c h) then set_pushing (h :: c.(pushing)) c else c.

(** A head without registrations takes the generation a reader sampled. *)
Definition sync (c : config) (h : option headKey) (g : N) (x : registrationHead) : registrationHead :=
  if bool_decide (x.(first) = []) && negb (detached c h) then set_stamp g x else x.

(** [advanceLocked]; [None] is the panic of an exhausted generation. *)
Definition advance (k : headKey) (c : config) : option config :=
  let g := current_generation c k in
  if decide (g = max_generation) then None
  else
    let c := match c.(heads) !! Some k with
             | Some _ => c
             | None => put_head (Some k) (mkHead g false [] false) c
             end in
    let c := set_authority k (mkAuthority (g + 1) (authority_of c k).(ordinaryDemand)) c in
    let c := alter_head (Some k) (λ x, if bool_decide (x.(first) ≠ []) || detached c (Some k) || x.(borrowed)
                                       then set_stamp (g + 1) x else x) c in
    Some (queue (Some k) c).

(** Whether an admission of [k] concerns a registration, in [admitAbsenceLocked]. *)
Definition admits (k : headKey) (admission : option nat) (x : registration) : bool :=
  (bool_decide (x.(key) = k) || bool_decide (k.2 = bucketFacet) && bool_decide (x.(key).1 = no_resource)) &&
  bool_decide (x.(r_generation) = 0%N) &&
  (bool_decide (k.2 ≠ bucketFacet) || bool_decide (Some x.(owner) ≠ admission)).

Definition admit_one (k : headKey) (admission : option nat) (g : N) (c : config) (r : nat) : config :=
  match c.(regs) !! r with
  | Some x => if admits k admission x then queue None (put_reg r (set_generation g x) c) else c
  | None => c
  end.

Definition admitAbsence (k : headKey) (admission : option nat) (c : config) : option config :=
  match c.(heads) !! None with
  | None => None
  | Some x =>
      if bool_decide (x.(first) = []) && bool_decide (watch c = []) then Some c
      else if decide (x.(stamp) = max_generation) then None
      else
        let g := (x.(stamp) + 1)%N in
        Some (foldl (admit_one k admission g) (alter_head None (set_stamp g) c) (x.(first) ++ watch c))
  end.

(** [registration.ordinaryCurrent] and [registration.current]. *)
Definition ordinaryCurrent (c : config) (x : registration) : bool :=
  match x.(ordinary) with
  | demandUnread => true
  | d => x.(absent) ||
         match c.(heads) !! head_of x with
         | Some h => bool_decide (h.(h_ordinary) = bool_decide (d = demandOrdinary))
         | None => true
         end
  end.

Definition current (c : config) (x : registration) : bool :=
  ordinaryCurrent c x &&
  (x.(consumed) ||
   match x.(absent), c.(heads) !! head_of x with
   | true, _ => bool_decide (x.(r_generation) = 0%N)
   | false, Some h => bool_decide (h.(stamp) = x.(r_generation))
   | false, None => true
   end).

(** Whether the sweep takes a registration to be changed. *)
Definition changed (c : config) (ch : chain) (x : registration) : bool :=
  if x.(absent) then bool_decide (x.(r_generation) ≠ 0%N) && bool_decide (x.(r_generation) <= ch.(cutoff))%N
  else bool_decide (x.(r_generation) ≠ ch.(cutoff)) || negb (ordinaryCurrent c x).

(** [ReadSet.Valid], of the set's registrations; a nil set is valid. *)
Definition Valid (c : config) (o : nat) : bool :=
  match c.(readSets) !! o with
  | None => true
  | Some s => negb s.(invalid) &&
      forallb (λ rx, bool_decide (rx.2.(owner) ≠ o) || bool_decide (rx.2.(pc) = Sampled) || current c rx.2)
        (map_to_list c.(regs))
  end.

(** ** Steps *)

Inductive event :=
  | Init (o : nat)
  | Observe (r o : nat) (k : headKey)      (* samples a fact other than an object *)
  | Capture (r o : nat) (k : headKey)      (* [Capture], up to the link *)
  | Activate (r : nat)                     (* [activate], up to the link *)
  | Link (r : nat)
  | OrdinaryDemand (r : nat)
  | Consume (r : nat)
  | Retain (r : nat)
  | Retire (o : nat)
  | Validate (o : nat) (accepted : bool)   (* [Valid], which latches its refusal *)
  | Queue (h : option headKey)             (* the flag set by a [queue] that holds no lock *)
  | Push (h : option headKey)              (* the push that ends a [queue] *)
  | SetDemand (k : headKey) (b : bool)     (* [SetIncluded]'s write of the demand *)
  | Advance (k : headKey)                  (* [advanceLocked] *)
  | Publish (k : headKey) (admission : option nat)
  | SweepBegin
  | SweepHead
  | SweepCell (more : bool)                (* [more] is what the consumer answers *)
  | SweepEnd
  | SweepDone.

(** The write lock is free of readers. *)
Definition no_reader (c : config) : Prop := map_Forall (λ _ x, x.(pc) ≠ Linking) c.(regs).

#[export] Instance no_reader_dec c : Decision (no_reader c) := _.

Definition new_reg (r o : nat) (c : config) : bool :=
  bool_decide (c.(regs) !! r = None) && bool_decide (is_Some (c.(readSets) !! o)).

Definition observe (r o : nat) (k : headKey) (c : config) : option config :=
  if new_reg r o c && bool_decide (k.2 ∉ [objectFacet; producerFacet; reconciliationFacet])
  then Some (put_reg r (mkReg k false (current_generation c k) o false demandUnread false Sampled) c)
  else None.

Definition capture (r o : nat) (k : headKey) (c : config) : option config :=
  if new_reg r o c && bool_decide (k.2 = objectFacet) then
    match c.(authorities) !! k with
    | None => Some (put_reg r (mkReg k true 0 o false demandUnread true Linking) c)
    | Some a =>
        let x := mkReg k false a.(generation) o false demandUnread a.(ordinaryDemand) in
        match c.(heads) !! Some k with
        | Some _ =>
            Some (put_reg r (x Linking)
                    (alter_head (Some k) (λ h, sync c (Some k) a.(generation) (set_ordinary a.(ordinaryDemand) h)) c))
        | None => Some (put_reg r (x Sampled) c)
        end
    end
  else None.

Definition activate (r : nat) (c : config) : option config :=
  x ← c.(regs) !! r;
  if decide (x.(pc) = Sampled) then
    let k := x.(key) in
    let g := current_generation c k in
    let c := if decide (g = x.(r_generation)) then c else alter_set x.(owner) invalidate c in
    Some match c.(heads) !! Some k with
         | Some _ => put_reg r (set_pc Linking x) (alter_head (Some k) (sync c (Some k) g) c)
         | None => put_reg r (mkReg k true 0 x.(owner) x.(consumed) x.(ordinary) x.(view) Linking) c
         end
  else None.

Definition link (r : nat) (c : config) : option config :=
  x ← c.(regs) !! r;
  if decide (x.(pc) = Linking)
  then Some (put_reg r (set_pc Linked x) (alter_head (head_of x) (λ h, set_first (r :: h.(first)) h) c))
  else None.

Definition demandOf (b : bool) : demand := if b then demandOrdinary else demandQualification.

(** [OrdinaryDemand], after its capture and up to its [queue]. *)
Definition ordinary_demand (r : nat) (c : config) : option config :=
  x ← c.(regs) !! r;
  if decide (x.(pc) = Linked ∧ x.(key).2 = objectFacet) then
    let x := mkReg x.(key) x.(absent) x.(r_generation) x.(owner) x.(consumed) (demandOf x.(view)) x.(view) x.(pc) in
    let c := put_reg r x c in
    Some (if ordinaryCurrent c x then c else alter_set x.(owner) invalidate c)
  else None.

Definition consume (r : nat) (c : config) : option config :=
  x ← c.(regs) !! r;
  Some (put_reg r (mkReg x.(key) x.(absent) x.(r_generation) x.(owner) true x.(ordinary) x.(view) x.(pc)) c).

Definition retain (r : nat) (c : config) : option config :=
  x ← c.(regs) !! r;
  Some (if decide (x.(pc) = Sampled) then c else if x.(absent) then c else alter_head (Some x.(key)) set_borrowed c).

Definition set_demand (k : headKey) (b : bool) (c : config) : config :=
  let c := set_authority k (mkAuthority (authority_of c k).(generation) b) c in
  match c.(heads) !! Some k with
  | Some _ => queue (Some k) (alter_head (Some k) (set_ordinary b) c)
  | None => c
  end.

(** A write that changes what readers see: the first one of an authority admits it. *)
Definition publish (k : headKey) (admission : option nat) (c : config) : option config :=
  c ← if bool_decide ((authority_of c k).(generation) = 0%N) || bool_decide (k.2 = bucketFacet)
      then admitAbsence k admission c else Some c;
  advance k c.

(** *** The sweep *)

(** The first section of [sweepHead]. *)
Definition sweep_head (h : option headKey) (hs : list (option headKey)) (deliver : bool) (c : config) : option config :=
  x ← c.(heads) !! h;
  Some (set_sweep (Sweeping hs deliver (mkChain h x.(stamp) x.(first) [] [] [] false)) (alter_head h (set_first []) c)).

(** One turn of [sweepRegistrations]. *)
Definition keep (ch : chain) (r : nat) (rs : list nat) (rq : bool) : chain :=
  if decide (ch.(live) = [])
  then mkChain ch.(swept) ch.(cutoff) rs ch.(gap) [r] [] rq
  else mkChain ch.(swept) ch.(cutoff) rs ch.(lead) (ch.(live) ++ [r]) [] rq.

Definition sweep_cell (more : bool) (hs : list (option headKey)) (deliver : bool) (ch : chain) (c : config) : option config :=
  match ch.(rest) with
  | [] => None
  | r :: rs =>
      x ← c.(regs) !! r; s ← c.(readSets) !! x.(owner);
      if negb s.(retired) && negb x.(consumed) then
        if changed c ch x && negb s.(delivered) then
          if deliver
          then Some (set_sweep (Sweeping hs more (keep ch r rs ch.(requeue))) (alter_set x.(owner) set_delivered c))
          else Some (set_sweep (Sweeping hs deliver (keep ch r rs true)) c)
        else Some (set_sweep (Sweeping hs deliver (keep ch r rs ch.(requeue))) c)
      else Some (set_sweep (Sweeping hs deliver
                   (mkChain ch.(swept) ch.(cutoff) rs ch.(lead) ch.(live) (ch.(gap) ++ [r]) ch.(requeue))) c)
  end.

(** The end of [sweepHead]: without a lock when nothing was kept. *)
Definition sweep_end (hs : list (option headKey)) (deliver : bool) (ch : chain) (c : config) : option config :=
  if decide (ch.(rest) = []) then
    if decide (ch.(live) = [] ∧ ch.(swept) ≠ None) then Some (set_sweep (Draining hs deliver) c)
    else if decide (no_reader c) then
      let c := set_sweep (Draining hs deliver)
                 (alter_head ch.(swept) (λ x, set_first (ch.(live) ++ x.(first)) x) c) in
      Some (if ch.(requeue) then queue ch.(swept) c else c)
    else None
  else None.

Definition locked (c : config) (o : option config) : option config := if decide (no_reader c) then o else None.

Definition step (c : config) (e : event) : option config :=
  match e with
  | Init o => if decide (c.(readSets) !! o = None)
              then Some (mkConfig c.(authorities) c.(heads) c.(pendings) c.(pushing) c.(regs)
                           (<[o := mkReadSet false false false]> c.(readSets)) c.(sweep)) else None
  | Observe r o k => observe r o k c
  | Capture r o k => capture r o k c
  | Activate r => activate r c
  | Link r => link r c
  | OrdinaryDemand r => ordinary_demand r c
  | Consume r => consume r c
  | Retain r => retain r c
  | Retire o => Some (alter_set o set_retired c)
  | Validate o accepted => Some (if Valid c o || accepted then c else alter_set o invalidate c)
  | Queue h => Some (queue_unlocked h c)
  | Push h => if decide (h ∈ c.(pushing))
              then Some (set_pendings (h :: c.(pendings)) (set_pushing (filter (λ h', h' ≠ h) c.(pushing)) c)) else None
  | SetDemand k b => locked c (Some (set_demand k b c))
  | Advance k => locked c (advance k c)
  | Publish k adm => locked c (publish k adm c)
  | SweepBegin => match c.(sweep) with
                  | Idle => Some (set_sweep (Draining c.(pendings) true) (set_pendings [] c))
                  | _ => None
                  end
  | SweepHead => match c.(sweep) with
                 | Draining (h :: hs) d => locked c (sweep_head h hs d c)
                 | _ => None
                 end
  | SweepCell more => match c.(sweep) with
                      | Sweeping hs d ch => sweep_cell more hs d ch c
                      | _ => None
                      end
  | SweepEnd => match c.(sweep) with
                | Sweeping hs d ch => sweep_end hs d ch c
                | _ => None
                end
  | SweepDone => match c.(sweep) with
                 | Draining [] _ => Some (set_sweep Idle c)
                 | _ => None
                 end
  end.

Fixpoint steps (c : config) (es : list event) : option config :=
  match es with
  | [] => Some c
  | e :: es => c ← step c e; steps c es
  end.
