(* ===== verification/RegistrationInvariant.v ===== *)
(** * The invariant of the shard's registrations (pkg/store/registration.go)

    What every step of every interleaving keeps, and what each step does beyond it. *)

From stdpp Require Import fin_maps.
From S2P Require Import Prelude Resource Registrations.

(** ** What every interleaving keeps *)

Definition firsts (c : config) (h : option headKey) : list nat :=
  match c.(heads) !! h with Some y => y.(first) | None => [] end.

(** The registrations of a head that the sweep holds. *)
Definition held (ch : option chain) (h : option headKey) : list nat :=
  match ch with Some ch => if decide (ch.(swept) = h) then ch.(live) ++ ch.(rest) else [] | None => [] end.
(** A registration whose execution still listens. *)
Definition listening (c : config) (x : registration) : Prop :=
  x.(consumed) = false ∧ ∃ s, c.(readSets) !! x.(owner) = Some s ∧ s.(retired) = false.

(** Some reader is linked, is linking, or is being swept: a write reaches the head. *)
Definition attached (c : config) (k : headKey) : Prop :=
  firsts c (Some k) ≠ [] ∨ detached c (Some k) = true ∨
  ∃ r x, c.(regs) !! r = Some x ∧ x.(pc) = Linking ∧ head_of x = Some k.

Definition engaged (c : config) (x : registration) : Prop := x.(pc) = Linking ∨ x.(pc) = Linked ∧ listening c x.

(** What a head says about one registration: it mirrors the authority, or it is behind
    the registration, or the execution knows its sample to be old. *)
Definition told (c : config) (x : registration) (s g : N) : Prop :=
  s = g ∨ (s < x.(r_generation))%N ∨
  (x.(r_generation) < g)%N ∧ ∃ rs, c.(readSets) !! x.(owner) = Some rs ∧ rs.(invalid) = true.

Definition gen_of (c : config) (k : headKey) : N := (authority_of c k).(generation).

Record inv (c : config) : Prop := {
  i_absence : is_Some (c.(heads) !! None);
  i_born k y : c.(heads) !! Some k = Some y → is_Some (c.(authorities) !! k) ∧ (y.(stamp) ≤ gen_of c k)%N;
  i_unborn k : c.(heads) !! Some k = None → gen_of c k = 0%N;
  i_told r x y : c.(regs) !! r = Some x → engaged c x → x.(absent) = false →
    c.(heads) !! Some x.(key) = Some y → told c x y.(stamp) (gen_of c x.(key));
  i_linked h r : r ∈ firsts c h ∨ r ∈ met (chain_of c) h →
    ∃ x, c.(regs) !! r = Some x ∧ x.(pc) = Linked ∧ head_of x = h;
  i_place r x : c.(regs) !! r = Some x → x.(pc) = Linked → listening c x →
    r ∈ firsts c (head_of x) ∨ r ∈ held (chain_of c) (head_of x);
  i_head r x : c.(regs) !! r = Some x → x.(pc) ≠ Sampled → is_Some (c.(heads) !! head_of x);
  i_owner r x : c.(regs) !! r = Some x → is_Some (c.(readSets) !! x.(owner));
  i_earlier r x : c.(regs) !! r = Some x → x.(absent) = false → (x.(r_generation) ≤ gen_of c x.(key))%N;
  i_arrived r x y : c.(regs) !! r = Some x → x.(absent) = true → c.(heads) !! None = Some y →
    (x.(r_generation) ≤ y.(stamp))%N;
  i_sampled r x : c.(regs) !! r = Some x → x.(pc) = Sampled →
    x.(absent) = false ∧ (x.(key).2 = objectFacet →
      c.(heads) !! Some x.(key) = None ∨ (x.(r_generation) < gen_of c x.(key))%N);
  i_demand r x y : c.(regs) !! r = Some x → x.(pc) ≠ Sampled → x.(absent) = false → x.(key).2 = objectFacet →
    c.(heads) !! Some x.(key) = Some y →
    y.(h_ordinary) = (authority_of c x.(key)).(ordinaryDemand) ∨ (x.(r_generation) < gen_of c x.(key))%N;
  i_object r x : c.(regs) !! r = Some x → x.(ordinary) ≠ demandUnread →
    x.(key).2 = objectFacet ∧ x.(pc) = Linked ∧ x.(ordinary) = demandOf x.(view);
  i_cutoff ch : chain_of c = Some ch → ∃ y, c.(heads) !! ch.(swept) = Some y ∧ (ch.(cutoff) ≤ y.(stamp))%N ∧
    (ch.(swept) ≠ None → y.(stamp) = ch.(cutoff) ∨ pending c ch.(swept) = true);
  i_rest ch r x : chain_of c = Some ch → r ∈ ch.(rest) → c.(regs) !! r = Some x → x.(absent) = true →
    (x.(r_generation) ≤ ch.(cutoff))%N ∨ pending c None = true;
}.

Lemma shard_New_inv : inv New.
Proof.
  split; cbn; try done.
  - intros k y Hk. by rewrite lookup_singleton_ne in Hk.
  - intros h r [Hr | Hr]; [| by apply elem_of_nil in Hr]. unfold firsts in Hr. cbn in Hr.
    destruct h as [k |]; [rewrite lookup_singleton_ne in Hr by done | rewrite lookup_singleton_eq in Hr];
      by apply elem_of_nil in Hr.
Qed.

(** The invariant reads only [retired] and [invalid] of the flags, and not the order of
    the queues. *)
Lemma shard_frame_inv c c' : inv c →
  authorities c' = authorities c → heads c' = heads c → regs c' = regs c → chain_of c' = chain_of c →
  (∀ h, pending c h = true → pending c' h = true) →
  (∀ o s, readSets c !! o = Some s → ∃ s', readSets c' !! o = Some s' ∧
     (retired s' = false → retired s = false) ∧ (invalid s = true → invalid s' = true)) →
  inv c'.
Proof.
  destruct c as [au hs pe pu rs ss sw], c' as [au' hs' pe' pu' rs' ss' sw']. cbn.
  intros Hi -> -> -> Hch Hp Hold.
  set (c := mkConfig au hs pe pu rs ss sw) in *. set (c' := mkConfig au hs pe' pu' rs ss' sw') in *.
  assert (∀ r x, rs !! r = Some x → listening c' x → listening c x) as Hl.
  { intros r x Hx [Hc (s' & Hs' & Hret)]. split; [done |]. destruct (i_owner c Hi r x Hx) as [s Hs].
    exists s. split; [done |]. destruct (Hold _ _ Hs) as (s1 & Hs1 & Hr & _). cbn in Hs'. apply Hr. congruence. }
  destruct Hi as [I1 I2 I3 I4 I5 I6 I7 I8 I9 I10 I11 I12 I13 I14 I15].
  split; rewrite ?Hch; [exact I1 | exact I2 | exact I3 | | exact I5 | | exact I7 | | exact I9 | exact I10
    | exact I11 | exact I12 | exact I13 | |].
  - intros r x y Hx He Ha Hy. assert (engaged c x) as He'.
    { destruct He as [| [Hpc Hls]]; [by left | right]. split; [done | by eapply Hl]. }
    destruct (I4 r x y Hx He' Ha Hy) as [| [| [Hlt (s & Hs & Hinv)]]]; [by left | right; by left | right; right].
    split; [done |]. destruct (Hold _ _ Hs) as (s' & Hs' & _ & Hi'). exists s'. auto.
  - intros r x Hx Hpc Hls. apply (I6 r x Hx Hpc). by eapply Hl.
  - intros r x Hx. destruct (I8 r x Hx) as [s Hs]. destruct (Hold _ _ Hs) as (s' & Hs' & _). by exists s'.
  - intros ch Hc. destruct (I14 ch Hc) as (y & Hy & Hcut & Hs). exists y. split; [done |]. split; [done |].
    intros Hn. destruct (Hs Hn); [by left | right; auto].
  - intros ch r x Hc Hin Hx Ha. destruct (I15 ch r x Hc Hin Hx Ha); [by left | right; auto].
Qed.

Lemma pending_spec c h : pending c h = true ↔ h ∈ pushing c ∨ h ∈ pendings c ∨ h ∈ local_heads (sweep c).
Proof. unfold pending. by rewrite bool_decide_eq_true, !elem_of_app. Qed.

Lemma queued_same c hs : let c' := set_pushing hs c in
  authorities c' = authorities c ∧ heads c' = heads c ∧ regs c' = regs c ∧ readSets c' = readSets c ∧
  sweep c' = sweep c ∧ (pushing c ⊆ hs → ∀ h, pending c h = true → pending c' h = true).
Proof. repeat split. intros Hs h. rewrite !pending_spec. cbn. intros [?%Hs | ?]; auto. Qed.

(** The flags of one read set, while its executions do not start to listen. *)
Lemma alter_set_inv c o f : inv c → (∀ s, retired (f s) = false → retired s = false) →
  (∀ s, invalid s = true → invalid (f s) = true) → inv (alter_set o f c).
Proof.
  intros Hi Hr Hd. apply (shard_frame_inv c); try done; cbn.
  intros o' s Hs. destruct (decide (o' = o)) as [-> |].
  - rewrite lookup_alter_eq, Hs. exists (f s). split; [done | auto].
  - rewrite lookup_alter_ne by done. by exists s.
Qed.

Lemma set_pushing_inv c hs : inv c → pushing c ⊆ hs → inv (set_pushing hs c).
Proof. intros Hi Hs. apply (shard_frame_inv c); try done; [by apply queued_same | eauto]. Qed.

Lemma queue_inv c h : inv c → inv (queue h c).
Proof. intros Hi. unfold queue. case_match; [| done]. case_match; [| done]. apply set_pushing_inv; [done | set_solver]. Qed.

Lemma queue_unlocked_inv c h : inv c → inv (queue_unlocked h c).
Proof. intros Hi. unfold queue_unlocked. case_match; [| done]. apply set_pushing_inv; [done | set_solver]. Qed.

Lemma push_inv c h : inv c →
  inv (set_pendings (h :: pendings c) (set_pushing (filter (λ h', h' ≠ h) (pushing c)) c)).
Proof.
  intros Hi. apply (shard_frame_inv c); try done; [| eauto].
  intros h'. rewrite !pending_spec. cbn. rewrite list_elem_of_filter, elem_of_cons.
  destruct (decide (h' = h)); naive_solver.
Qed.

Lemma begin_inv c : inv c → sweep c = Idle → inv (set_sweep (Draining (pendings c) true) (set_pendings [] c)).
Proof.
  intros Hi Hs. apply (shard_frame_inv c); try done; [by unfold chain_of; rewrite Hs | | eauto].
  intros h'. rewrite !pending_spec, Hs. cbn. naive_solver.
Qed.

Lemma done_inv c d : inv c → sweep c = Draining [] d → inv (set_sweep Idle c).
Proof.
  intros Hi Hs. apply (shard_frame_inv c); try done; [by unfold chain_of; rewrite Hs | | eauto].
  intros h'. by rewrite !pending_spec, Hs.
Qed.

Lemma init_inv c o : inv c → readSets c !! o = None →
  inv (mkConfig (authorities c) (heads c) (pendings c) (pushing c) (regs c)
         (<[o := mkReadSet false false false]> (readSets c)) (sweep c)).
Proof.
  intros Hi Ho. apply (shard_frame_inv c); try done; cbn.
  intros o' s Hs. rewrite lookup_insert_ne by congruence. by exists s.
Qed.

(** *** Registrations *)

(** A reader's registration before its link is in no chain. *)
Lemma put_reg_inv c r x : inv c → (∀ x0, regs c !! r = Some x0 → pc x0 = Sampled) → pc x ≠ Linked →
  ordinary x = demandUnread → is_Some (readSets c !! owner x) →
  (pc x = Linking → is_Some (heads c !! head_of x) ∧
     (absent x = false → ∀ y, heads c !! Some (key x) = Some y → told c x (stamp y) (gen_of c (key x)))) →
  (if absent x then r_generation x = 0%N else (r_generation x ≤ gen_of c (key x))%N) →
  (pc x = Sampled → absent x = false ∧
     ((key x).2 = objectFacet → heads c !! Some (key x) = None ∨ (r_generation x < gen_of c (key x))%N)) →
  (pc x = Linking → absent x = false → (key x).2 = objectFacet → ∀ y, heads c !! Some (key x) = Some y →
     h_ordinary y = ordinaryDemand (authority_of c (key x)) ∨ (r_generation x < gen_of c (key x))%N) →
  inv (put_reg r x c).
Proof.
  intros Hi Hold Hpc Hord Hown Hlk Hgen Hsam Hdem.
  assert (∀ r' x', regs (put_reg r x c) !! r' = Some x' → r' = r ∧ x' = x ∨ regs c !! r' = Some x') as Hreg.
  { intros r' x'. cbn. destruct (decide (r' = r)) as [-> |]; [rewrite lookup_insert_eq | rewrite lookup_insert_ne by done]; [| auto].
    intros [= <-]. by left. }
  assert (∀ r' x', regs c !! r' = Some x' → pc x' = Linked → regs (put_reg r x c) !! r' = Some x') as Hkeep.
  { intros r' x' Hx Hp. cbn. rewrite lookup_insert_ne; [done |]. intros <-. rewrite (Hold _ Hx) in Hp. done. }
  assert (pc x = Linking ∨ pc x = Sampled) as Hcases by (destruct (pc x); auto; done).
  destruct Hi as [I1 I2 I3 I4 I5 I6 I7 I8 I9 I10 I11 I12 I13 I14 I15].
  split; [exact I1 | exact I2 | exact I3 | | | | | | | | | | | exact I14 |].
  - intros r' x' y [[-> ->] | Hx]%Hreg He Ha Hy; [| by apply (I4 r')].
    destruct He as [Hp | [Hp _]]; [| done]. by apply (Hlk Hp).
  - intros h r' Hr. destruct (I5 h r' Hr) as (x' & Hx' & Hp & Hh). exists x'. auto.
  - intros r' x' [[-> ->] | Hx]%Hreg Hp; [done | by apply I6].
  - intros r' x' [[-> ->] | Hx]%Hreg Hp; [| by eapply I7]. apply Hlk. by destruct Hcases.
  - intros r' x' [[-> ->] | Hx]%Hreg; [done | by eapply I8].
  - intros r' x' [[-> ->] | Hx]%Hreg Ha; [by rewrite Ha in Hgen | by eapply I9].
  - intros r' x' y [[-> ->] | Hx]%Hreg Ha Hy; [rewrite Ha in Hgen; lia | by eapply I10].
  - intros r' x' [[-> ->] | Hx]%Hreg Hp; [by apply Hsam | by eapply I11].
  - intros r' x' y [[-> ->] | Hx]%Hreg Hp; [| by eapply I12]. destruct Hcases as [Hl |]; [| done].
    intros Ha Hf Hy. by apply (Hdem Hl Ha Hf y Hy).
  - intros r' x' [[-> ->] | Hx]%Hreg Ho; [done | by eapply I13].
  - intros ch r' x' Hc Hin Hx. destruct (I5 (swept ch) r') as (x0 & Hx0 & Hp0 & _).
    { right. change (chain_of c = Some ch) in Hc. rewrite Hc. cbn. rewrite decide_True by done.
      rewrite !elem_of_app. auto. }
    rewrite (Hkeep _ _ Hx0 Hp0) in Hx. injection Hx as <-. by eapply I15.
Qed.

(** Changes of a registration that keep its place; only an absence moves, when it is
    admitted. *)
Lemma change_inv c c' r x x' : inv c → regs c !! r = Some x →
  authorities c' = authorities c → heads c' = heads c → regs c' = <[r := x']> (regs c) →
  readSets c' = readSets c → sweep c' = sweep c → (∀ h, pending c h = true → pending c' h = true) →
  key x' = key x → absent x' = absent x → owner x' = owner x → pc x' = pc x →
  r_generation x' = r_generation x ∨
    absent x = true ∧ pending c' None = true ∧ r_generation x' ≠ 0%N ∧
    (∀ y, heads c !! None = Some y → (r_generation x' ≤ stamp y)%N) →
  (consumed x = true → consumed x' = true) → (ordinary x ≠ demandUnread → ordinary x' ≠ demandUnread) →
  (ordinary x' ≠ demandUnread → (key x).2 = objectFacet ∧ pc x = Linked ∧ ordinary x' = demandOf (view x')) → inv c'.
Proof.
  destruct c as [au hs pe pu rs ss sw], c' as [au' hs' pe' pu' rs' ss' sw']. cbn.
  intros Hi Hx -> -> -> -> -> Hpd Hk Ha Ho Hp Hgen Hc Hd Hd'.
  set (c := mkConfig au hs pe pu rs ss sw) in *.
  set (c' := mkConfig au hs pe' pu' (<[r := x']> rs) ss sw) in *.
  assert (∀ r' z', regs c' !! r' = Some z' → ∃ z, regs c !! r' = Some z ∧
    key z' = key z ∧ absent z' = absent z ∧ (absent z = false → r_generation z' = r_generation z) ∧
    owner z' = owner z ∧ pc z' = pc z ∧
    head_of z' = head_of z ∧ (listening c z' → listening c z) ∧
    (ordinary z' ≠ demandUnread → (key z).2 = objectFacet ∧ pc z = Linked ∧ ordinary z' = demandOf (view z'))) as Hreg.
  { intros r' z'. cbn. destruct (decide (r' = r)) as [-> |].
    - rewrite lookup_insert_eq. intros [= <-]. exists x. unfold head_of, listening. rewrite Ha, Hk, Ho.
      do 3 (split; [done |]). split; [intros Hf; destruct Hgen as [| [Ht _]]; congruence |].
      do 3 (split; [done |]). split; [| done]. intros [Hn ?]. split; [| done].
      destruct (consumed x) eqn:E; [| done]. by rewrite (Hc eq_refl) in Hn.
    - rewrite lookup_insert_ne by done. intros Hz. exists z'. do 8 (split; [done |]). by eapply (i_object c Hi). }
  assert (∀ r' z, regs c !! r' = Some z → ∃ z', regs c' !! r' = Some z' ∧
    key z' = key z ∧ absent z' = absent z ∧ (r_generation z ≠ 0%N → r_generation z' ≠ 0%N) ∧
    (absent z = false → r_generation z' = r_generation z) ∧ owner z' = owner z ∧ pc z' = pc z ∧
    head_of z' = head_of z ∧ (ordinary z ≠ demandUnread → ordinary z' ≠ demandUnread)) as Hreg'.
  { intros r' z Hz. cbn. destruct (decide (r' = r)) as [-> |].
    - rewrite lookup_insert_eq. exists x'. change (rs !! r = Some z) in Hz. rewrite Hx in Hz. injection Hz as <-.
      unfold head_of. rewrite Ha, Hk.
      do 3 (split; [done |]). split; [destruct Hgen as [-> | (_ & _ & ? & _)]; done |].
      split; [intros Hf; destruct Hgen as [| [Ht _]]; congruence |]. by do 3 (split; [done |]).
    - rewrite lookup_insert_ne by done. exists z. by do 8 (split; [done |]). }
  destruct Hi as [I1 I2 I3 I4 I5 I6 I7 I8 I9 I10 I11 I12 I13 I14 I15].
  split; [exact I1 | exact I2 | exact I3 | | | | | | | | | | | |].
  - intros r' z' y (z & Hz & E1 & E2 & E3 & E4 & E5 & _ & Hl & _)%Hreg He Hf Hy.
    rewrite E2 in Hf. rewrite E1 in Hy |- *. unfold told. rewrite E3, E4 by done. apply (I4 r' z y Hz); try done.
    unfold engaged in *. rewrite E5 in He. destruct He as [| []]; [by left | right; auto].
  - intros h r' Hr. destruct (I5 h r' Hr) as (z & Hz & Hzp & Hzh).
    destruct (Hreg' _ _ Hz) as (z' & Hz' & _ & _ & _ & _ & _ & E1 & E2 & _). exists z'. split; [done |]. split; congruence.
  - intros r' z' (z & Hz & _ & _ & _ & _ & E1 & E2 & Hl & _)%Hreg Hzp Hzl. rewrite E2.
    apply (I6 r' z Hz); [congruence | auto].
  - intros r' z' (z & Hz & _ & _ & _ & _ & E1 & E2 & _)%Hreg Hzp. rewrite E2. apply (I7 r' z Hz). congruence.
  - intros r' z' (z & Hz & _ & _ & _ & E & _)%Hreg. rewrite E. by apply (I8 r' z).
  - intros r' z' (z & Hz & E1 & E2 & E3 & _)%Hreg. rewrite E1, E2. intros Hf. rewrite E3 by done. by apply (I9 r' z).
  - intros r' z' y Hz' Ht Hy. destruct (decide (r' = r)) as [-> | Hne].
    + cbn in Hz'. rewrite lookup_insert_eq in Hz'. injection Hz' as <-. rewrite Ha in Ht.
      destruct Hgen as [-> | (_ & _ & _ & Hle)]; [by apply (I10 r x y Hx Ht) | by apply Hle].
    + cbn in Hz'. rewrite lookup_insert_ne in Hz' by done. by apply (I10 r' z').
  - intros r' z' (z & Hz & E1 & E2 & E3 & _ & E4 & _)%Hreg Hs. rewrite E4 in Hs.
    destruct (I11 r' z Hz Hs) as [Hf Hob]. rewrite E1, E2, E3 by done. by split.
  - intros r' z' y (z & Hz & E1 & E2 & E3 & _ & E4 & _)%Hreg. rewrite E1, E2, E4. intros Hs Hf. rewrite E3 by done.
    by apply (I12 r' z).
  - intros r' z' (z & Hz & E1 & E2 & E3 & _ & E4 & _ & _ & Hob)%Hreg. rewrite E1, E4. done.
  - intros ch Hch. destruct (I14 ch Hch) as (y & Hy & Hcut & Hs). exists y. split; [done |]. split; [done |].
    intros Hn. destruct (Hs Hn); [by left | right; auto].
  - intros ch r' z' Hch Hin Hz'. destruct (decide (r' = r)) as [-> | Hne].
    + cbn in Hz'. rewrite lookup_insert_eq in Hz'. injection Hz' as <-. rewrite Ha.
      intros Ht. destruct Hgen as [-> | (_ & Hpn & _)]; [| by right].
      destruct (I15 ch r x Hch Hin Hx Ht); [by left | right; auto].
    + cbn in Hz'. rewrite lookup_insert_ne in Hz' by done. intros Ht.
      destruct (I15 ch r' z' Hch Hin Hz' Ht); [by left | right; auto].
Qed.

Lemma mark_inv c r x x' : inv c → regs c !! r = Some x →
  key x' = key x → absent x' = absent x → r_generation x' = r_generation x → owner x' = owner x → pc x' = pc x →
  (consumed x = true → consumed x' = true) → (ordinary x ≠ demandUnread → ordinary x' ≠ demandUnread) →
  (ordinary x' ≠ demandUnread → (key x).2 = objectFacet ∧ pc x = Linked ∧ ordinary x' = demandOf (view x')) → inv (put_reg r x' c).
Proof. intros Hi Hx Hk Ha Hg Ho Hp. apply (change_inv c (put_reg r x' c) r x x'); auto. Qed.

(** *** Writers *)

Lemma earlier_object c : inv c → ∀ r x, regs c !! r = Some x → absent x = false → (r_generation x ≤ gen_of c (key x))%N.
Proof. intros Hi. apply Hi. Qed.

(** A write to the head of one authority, and to the authority. *)
Lemma write_inv c c' k y' a' : inv c →
  authorities c' = <[k := a']> (authorities c) → heads c' = <[Some k := y']> (heads c) →
  regs c' = regs c → readSets c' = readSets c → sweep c' = sweep c →
  (∀ h, pending c h = true → pending c' h = true) →
  first y' = firsts c (Some k) →
  (stamp y' ≤ generation a')%N →
  (attached c k → stamp y' = generation a' ∨
     ∃ y, heads c !! Some k = Some y ∧ stamp y' = stamp y ∧ gen_of c k = generation a') →
  (∀ y, heads c !! Some k = Some y → (stamp y ≤ stamp y')%N) →
  (gen_of c k < generation a')%N ∨
    gen_of c k = generation a' ∧ is_Some (heads c !! Some k) ∧
    (h_ordinary y' = ordinaryDemand a' ∨
     (∃ y, heads c !! Some k = Some y ∧ h_ordinary y' = h_ordinary y ∧ ordinaryDemand a' = ordinaryDemand (authority_of c k))) →
  (detached c (Some k) = true → pending c' (Some k) = true ∨ ∃ y, heads c !! Some k = Some y ∧ stamp y' = stamp y) →
  inv c'.
Proof.
  destruct c as [au hs pe pu rs ss sw], c' as [au' hs' pe' pu' rs' ss' sw']. cbn.
  intros Hi -> -> -> -> -> Hp Hf Hle Hmir Hmono Hgen Hpend.
  set (c := mkConfig au hs pe pu rs ss sw) in *.
  set (c' := mkConfig (<[k := a']> au) (<[Some k := y']> hs) pe' pu' rs ss sw) in *.
  assert (∀ h, firsts c' h = firsts c h) as Hfs.
  { intros h. unfold firsts. cbn. destruct (decide (h = Some k)) as [-> |]; [| by rewrite lookup_insert_ne].
    rewrite lookup_insert_eq. exact Hf. }
  assert (∀ k0, k0 ≠ k → authority_of c' k0 = authority_of c k0) as Hau.
  { intros k0 Hne. unfold authority_of. cbn. by rewrite lookup_insert_ne. }
  assert (authority_of c' k = a') as Hak by (unfold authority_of; cbn; by rewrite lookup_insert_eq).
  assert (∀ k0, (gen_of c k0 ≤ gen_of c' k0)%N) as Hgle.
  { intros k0. unfold gen_of at 2. destruct (decide (k0 = k)) as [-> | Hne]; [rewrite Hak | by rewrite Hau by done].
    destruct Hgen as [|[-> _]]; lia. }
  assert (∀ h z, hs !! h = Some z → ∃ z', <[Some k := y']> hs !! h = Some z' ∧ (stamp z ≤ stamp z')%N ∧ (h ≠ Some k → z' = z)) as Hhs.
  { intros h z Hz. destruct (decide (h = Some k)) as [-> |].
    - exists y'. rewrite lookup_insert_eq. split; [done |]. split; [by apply Hmono | done].
    - exists z. by rewrite lookup_insert_ne. }
  destruct Hi as [I1 I2 I3 I4 I5 I6 I7 I8 I9 I10 I11 I12 I13 I14 I15].
  split; [by cbn; rewrite lookup_insert_ne | | | | | | | exact I8 | | | | | exact I13 | |].
  - intros k0 z. cbn. destruct (decide (k0 = k)) as [-> | Hne].
    + rewrite !lookup_insert_eq. intros [= <-]. split; [by eexists |]. unfold gen_of. by rewrite Hak.
    + rewrite !lookup_insert_ne by congruence. unfold gen_of. rewrite Hau by done. apply I2.
  - intros k0. cbn. destruct (decide (k0 = k)) as [-> | Hne]; [by rewrite lookup_insert_eq |].
    rewrite lookup_insert_ne by congruence. unfold gen_of. rewrite Hau by done. apply I3.
  - intros r x z Hx He Hab Hz. cbn in Hz. destruct (decide (key x = k)) as [Hk | Hne].
    + rewrite Hk, lookup_insert_eq in Hz. injection Hz as <-. unfold gen_of. rewrite Hk, Hak.
      assert (attached c k) as Hat.
      { assert (head_of x = Some k) as Hh by (unfold head_of; by rewrite Hab, Hk).
        destruct He as [Hpc | [Hpc Hl]]; [right; right; eauto |].
        destruct (I6 r x Hx Hpc Hl) as [Hin | Hin]; rewrite Hh in Hin.
        - left. intros E. rewrite E in Hin. by apply elem_of_nil in Hin.
        - right. left. unfold detached, held in *. destruct (chain_of c) as [ch |]; [| by apply elem_of_nil in Hin].
          destruct (decide (swept ch = Some k)); [by apply bool_decide_eq_true | by apply elem_of_nil in Hin]. }
      destruct (Hmir Hat) as [-> | (y & Hy & -> & <-)]; [by left |].
      rewrite <- Hk. rewrite <- Hk in Hy. by apply (I4 r).
    + rewrite lookup_insert_ne in Hz by congruence. unfold gen_of. rewrite Hau by done. by apply (I4 r).
  - intros h r. rewrite Hfs. apply I5.
  - intros r x Hx Hpc Hl. rewrite Hfs. by apply I6.
  - intros r x Hx Hpc. destruct (I7 r x Hx Hpc) as [z Hz]. destruct (Hhs _ _ Hz) as (z' & Hz' & _). by eexists.
  - intros r x Hx Ha. etrans; [by eapply I9 | apply Hgle].
  - intros r x z Hx Ha. cbn. rewrite lookup_insert_ne by done. by apply (I10 r).
  - intros r x Hx Hs. destruct (I11 r x Hx Hs) as [Hab Hob]. split; [done |]. intros Hf'.
    pose proof (I9 r x Hx Hab) as Hearly. cbn. destruct (decide (key x = k)) as [Hk | Hne].
    + right. specialize (Hob Hf'). unfold gen_of. rewrite Hk, Hak. rewrite Hk in Hearly, Hob.
      destruct Hgen as [Hlt | (<- & [z Hz] & _)]; [lia |]. destruct Hob as [Hn | Hn]; [| done].
      discriminate (eq_trans (eq_sym Hz) Hn).
    + rewrite lookup_insert_ne by congruence. unfold gen_of. rewrite Hau by done. by apply Hob.
  - intros r x z Hx Hs Hab Hob. cbn. destruct (decide (key x = k)) as [Hk | Hne].
    + rewrite Hk, lookup_insert_eq. intros [= <-]. unfold gen_of. rewrite Hak.
      pose proof (I9 r x Hx Hab) as Hearly. rewrite Hk in Hearly.
      destruct Hgen as [Hlt | (He & _ & [Ho | (z & Hz & -> & ->)])]; [right; lia | by left |].
      rewrite <- He, <- Hk. rewrite <- Hk in Hz. by apply (I12 r).
    + rewrite lookup_insert_ne by congruence. unfold gen_of. rewrite Hau by done. by apply (I12 r).
  - intros ch Hch. destruct (I14 ch Hch) as (z & Hz & Hcut & Hs).
    destruct (Hhs _ _ Hz) as (z' & Hz' & Hst & Hsame). exists z'. split; [done |]. split; [cbn in *; lia |].
    intros Hn. destruct (decide (swept ch = Some k)) as [Hk | Hne].
    + destruct (Hs Hn) as [Heq | Hpd]; [| right; auto]. rewrite Hk in Hz, Hz' |- *.
      destruct (Hpend ltac:(unfold detached; change (chain_of c = Some ch) in Hch; rewrite Hch; by apply bool_decide_eq_true))
        as [| (y & Hy & Hst')]; [by right |]. left.
      cbn in Hz'. rewrite lookup_insert_eq in Hz'. injection Hz' as <-. cbn in Hz, Hy. congruence.
    + rewrite (Hsame Hne). destruct (Hs Hn); [by left | right; auto].
  - intros ch r x Hch Hin Hx Ha. destruct (I15 ch r x Hch Hin Hx Ha); [by left | right; auto].
Qed.

Lemma alter_insert (h : option headKey) (f : registrationHead → registrationHead) (m : gmap (option headKey) registrationHead) y :
  m !! h = Some y → alter f h m = <[h := f y]> m.
Proof.
  intros Hy. apply map_eq. intros i. destruct (decide (i = h)) as [-> |].
  - by rewrite lookup_alter_eq, lookup_insert_eq, Hy.
  - by rewrite lookup_alter_ne, lookup_insert_ne.
Qed.

(** Readers synchronise a head without registrations. *)
Lemma sync_write c k y b : inv c → heads c !! Some k = Some y →
  (∀ d, b = Some d → d = ordinaryDemand (authority_of c k)) →
  let f x := sync c (Some k) (gen_of c k) (match b with Some d => set_ordinary d x | None => x end) in
  inv (alter_head (Some k) f c) ∧ heads (alter_head (Some k) f c) !! Some k = Some (f y) ∧
  (stamp (f y) ≤ gen_of c k)%N ∧
  (stamp (f y) = stamp y ∨ firsts c (Some k) = [] ∧ detached c (Some k) = false) ∧
  h_ordinary (f y) = default (h_ordinary y) b ∧
  (∀ h, firsts (alter_head (Some k) f c) h = firsts c h).
Proof.
  intros Hi Hy Hb f. destruct (i_born c Hi k y Hy) as [[a Ha] Hst].
  assert (authority_of c k = a) as Hao by (unfold authority_of; by rewrite Ha).
  assert (first (f y) = first y) as Hf by (unfold f, sync; destruct b; case_match; done).
  assert (firsts c (Some k) = first y) as Hfs by (unfold firsts; by rewrite Hy).
  assert (stamp (f y) = stamp y ∨ first y = [] ∧ detached c (Some k) = false ∧ stamp (f y) = gen_of c k) as Hs.
  { unfold f, sync. destruct (bool_decide (first _ = []) && negb (detached c (Some k))) eqn:E; [right | left; by destruct b].
    apply andb_true_iff in E as [E1%bool_decide_eq_true E2%negb_true_iff]. by destruct b. }
  assert (heads (alter_head (Some k) f c) = <[Some k := f y]> (heads c)) as Hh by (by apply alter_insert).
  split; [| split; [by rewrite Hh, lookup_insert_eq | split; [| split; [| split]]]].
  - apply (write_inv c _ k (f y) a); try done.
    + cbn. by rewrite insert_id.
    + by rewrite Hfs.
    + rewrite <- Hao. change (stamp (f y) ≤ gen_of c k)%N. destruct Hs as [-> | (_ & _ & ->)]; lia.
    + intros _. rewrite <- Hao. change (generation (authority_of c k)) with (gen_of c k).
      destruct Hs as [| (_ & _ & ?)]; [right; by exists y | by left].
    + intros z Hz. rewrite Hz in Hy. injection Hy as ->. destruct Hs as [-> | (_ & _ & ->)]; lia.
    + right. unfold gen_of. rewrite Hao. split; [done |]. split; [by eexists |].
      destruct b as [d |].
      * left. rewrite <- Hao, <- (Hb d eq_refl). unfold f, sync. by case_match.
      * right. exists y. split; [done |]. split; [unfold f, sync; by case_match | done].
    + intros Hd. right. exists y. split; [done |]. destruct Hs as [| (_ & Hd' & _)]; [done | congruence].
  - destruct Hs as [-> | (_ & _ & ->)]; lia.
  - rewrite Hfs. destruct Hs as [| (? & ? & _)]; [by left | by right].
  - unfold f, sync. destruct b; by case_match.
  - intros h. unfold firsts at 1. rewrite Hh. destruct (decide (h = Some k)) as [-> |].
    + by rewrite lookup_insert_eq, Hf, Hfs.
    + by rewrite lookup_insert_ne.
Qed.

Lemma current_gen c k : inv c → current_generation c k = gen_of c k.
Proof.
  intros Hi. unfold current_generation. destruct (heads c !! Some k) as [y |] eqn:Hy; [| done].
  destruct (i_born c Hi k y Hy) as [_ Hst]. unfold gen_of in *. lia.
Qed.

(** *** Admissions *)

Lemma queue_pending c h y : heads c !! h = Some y → first y ≠ [] ∨ detached c h = true →
  pending (queue h c) h = true.
Proof.
  intros Hy Hat. unfold queue. rewrite Hy.
  assert (bool_decide (first y ≠ []) || detached c h = true) as ->.
  { apply orb_true_iff. destruct Hat; [left; by apply bool_decide_eq_true | by right]. }
  destruct (pending c h) eqn:Hp; [done |]. cbn. apply pending_spec. left. by left.
Qed.

Lemma queue_same c h : let c' := queue h c in
  authorities c' = authorities c ∧ heads c' = heads c ∧ regs c' = regs c ∧ readSets c' = readSets c ∧
  sweep c' = sweep c ∧ pendings c' = pendings c ∧ (∀ h', pending c h' = true → pending c' h' = true).
Proof.
  cbn zeta. unfold queue. destruct (heads c !! h); [| done]. destruct (_ && _); [| done].
  do 6 (split; [done |]). intros h'. rewrite !pending_spec. cbn. rewrite elem_of_cons. naive_solver.
Qed.

Lemma bump_inv c y g : inv c → heads c !! None = Some y → (stamp y ≤ g)%N → inv (alter_head None (set_stamp g) c).
Proof.
  destruct c as [au hs pe pu rs ss sw]. intros Hi Hy Hg. cbn in Hy. unfold alter_head. cbn.
  rewrite (alter_insert None (set_stamp g) hs y Hy).
  set (c := mkConfig au hs pe pu rs ss sw) in *. set (c' := mkConfig _ _ _ _ _ _ _).
  assert (∀ h, firsts c' h = firsts c h) as Hfs.
  { intros h. unfold firsts. cbn. destruct (decide (h = None)) as [-> |]; [| by rewrite lookup_insert_ne].
    by rewrite lookup_insert_eq, Hy. }
  destruct Hi as [I1 I2 I3 I4 I5 I6 I7 I8 I9 I10 I11 I12 I13 I14 I15].
  split; [by cbn; rewrite lookup_insert_eq; eexists | | | | | | | exact I8 | exact I9 | | | | exact I13 | | exact I15].
  - intros k z. cbn. rewrite lookup_insert_ne by done. apply I2.
  - intros k. cbn. rewrite lookup_insert_ne by done. apply I3.
  - intros r x z Hx He Ha. cbn. rewrite lookup_insert_ne by done. by apply (I4 r).
  - intros h r. rewrite Hfs. apply I5.
  - intros r x. rewrite Hfs. apply I6.
  - intros r x Hx Hp. cbn. destruct (decide (head_of x = None)) as [-> |]; [by rewrite lookup_insert_eq; eexists |].
    rewrite lookup_insert_ne by done. by eapply I7.
  - intros r x z Hx Ha. cbn. rewrite lookup_insert_eq. intros [= <-]. cbn. pose proof (I10 r x y Hx Ha Hy). lia.
  - intros r x Hx Hp. destruct (I11 r x Hx Hp) as [Hf Ho]. split; [done |]. cbn. by rewrite lookup_insert_ne.
  - intros r x z Hx Hp Ha Ho. cbn. rewrite lookup_insert_ne by done. by apply (I12 r).
  - intros ch Hch. destruct (I14 ch Hch) as (z & Hz & Hcut & Hs). cbn.
    destruct (decide (swept ch = None)) as [Hn | Hn].
    + rewrite Hn, lookup_insert_eq. exists (set_stamp g y). split; [done |]. rewrite Hn in Hz. cbn in Hz.
      rewrite Hy in Hz. injection Hz as <-. split; [cbn; lia | done].
    + rewrite lookup_insert_ne by done. by exists z.
Qed.

Definition in_absence (c : config) (r : nat) : Prop := r ∈ firsts c None ∨ r ∈ watch c.

Lemma absence_attached c r y : in_absence c r → heads c !! None = Some y → first y ≠ [] ∨ detached c None = true.
Proof.
  unfold in_absence, firsts, watch, detached. intros [Hr | Hr] Hy.
  - rewrite Hy in Hr. left. intros E. rewrite E in Hr. by apply elem_of_nil in Hr.
  - right. destruct (chain_of c) as [ch |]; cbn in Hr; [| by apply elem_of_nil in Hr].
    destruct (decide (swept ch = None)); [by apply bool_decide_eq_true | by apply elem_of_nil in Hr].
Qed.

(** What one admission leaves, for a list of the registrations of the absence. *)
Record admitted (k : headKey) (adm : option nat) (g : N) (c c' : config) : Prop := {
  ad_inv : inv c';
  ad_authorities : authorities c' = authorities c;
  ad_heads : heads c' = heads c;
  ad_sets : readSets c' = readSets c;
  ad_sweep : sweep c' = sweep c;
  ad_pendings : pendings c' = pendings c;
  ad_pending h : pending c h = true → pending c' h = true;
  ad_regs r x : regs c !! r = Some x →
    regs c' !! r = Some x ∨ pending c' None = true ∧ admits k adm x = true ∧ in_absence c r ∧
      regs c' !! r = Some (set_generation g x);
  ad_old r x' : regs c' !! r = Some x' → is_Some (regs c !! r);
}.

Lemma admit_one_spec k adm g c r y : inv c → heads c !! None = Some y → stamp y = g → g ≠ 0%N → in_absence c r →
  admitted k adm g c (admit_one k adm g c r) ∧
  ∀ x, regs c !! r = Some x → admits k adm x = true → regs (admit_one k adm g c r) !! r = Some (set_generation g x).
Proof.
  intros Hi Hy Hg H0 Hr. unfold admit_one.
  destruct (i_linked c Hi None r Hr) as (x & Hx & Hp & Hh). rewrite Hx.
  assert (absent x = true) as Ha by (unfold head_of in Hh; by destruct (absent x)).
  destruct (admits k adm x) eqn:Had; [| by split; [split; eauto | congruence]].
  pose proof (queue_same (put_reg r (set_generation g x) c) None) as (Q1 & Q2 & Q3 & Q4 & Q5 & Q6 & Q7).
  assert (pending (queue None (put_reg r (set_generation g x) c)) None = true) as Hpend.
  { eapply queue_pending; [exact Hy |]. by eapply absence_attached. }
  split.
  - split; try done.
    + eapply (change_inv c _ r x (set_generation g x)); try done.
      * right. split; [done |]. split; [done |]. split; [done |]. intros z Hz. rewrite Hy in Hz. injection Hz as <-. by rewrite Hg.
      * exact (i_object c Hi r x Hx).
    + intros r' x' Hx'. rewrite Q3. cbn. destruct (decide (r' = r)) as [-> |].
      * right. rewrite lookup_insert_eq. rewrite Hx in Hx'. injection Hx' as <-. done.
      * left. by rewrite lookup_insert_ne.
    + intros r' x'. rewrite Q3. cbn. destruct (decide (r' = r)) as [-> |]; [by rewrite Hx | rewrite lookup_insert_ne by done; eauto].
  - intros x' [= <-] _. rewrite Q3. cbn. by rewrite lookup_insert_eq.
Qed.

Lemma admits_set k adm g x : g ≠ 0%N → admits k adm (set_generation g x) = false.
Proof. intros Hg. unfold admits. cbn. rewrite (bool_decide_eq_false_2 (g = 0%N)) by done. by rewrite andb_false_r. Qed.

Lemma admit_all_spec k adm g c rs y : inv c → heads c !! None = Some y → stamp y = g → g ≠ 0%N →
  (∀ r, r ∈ rs → in_absence c r) →
  admitted k adm g c (foldl (admit_one k adm g) c rs) ∧
  ∀ r x, r ∈ rs → regs c !! r = Some x → admits k adm x = true →
    regs (foldl (admit_one k adm g) c rs) !! r = Some (set_generation g x).
Proof.
  intros Hi Hy Hg H0. revert c Hi Hy. induction rs as [| r rs IH]; intros c Hi Hy Hin.
  { split; [split; eauto | by intros r x ?%elem_of_nil]. }
  cbn [foldl]. destruct (admit_one_spec k adm g c r y Hi Hy Hg H0) as [A1 B1]; [apply Hin; by left |].
  set (c1 := admit_one k adm g c r) in *.
  assert (∀ r', in_absence c1 r' ↔ in_absence c r') as Habs.
  { intros r'. unfold in_absence, firsts, watch, chain_of. by rewrite (ad_heads _ _ _ _ _ A1), (ad_sweep _ _ _ _ _ A1). }
  destruct (IH c1) as [A2 B2]; [apply A1 | by rewrite (ad_heads _ _ _ _ _ A1) | |].
  { intros r' Hr'. apply Habs, Hin. by right. }
  set (c2 := foldl (admit_one k adm g) c1 rs) in *. destruct A1, A2. split.
  - split; try congruence; auto.
    + intros r' x Hx. destruct (ad_regs0 r' x Hx) as [Hx1 | (P1 & H1 & Hi1 & Hx1)].
      * destruct (ad_regs1 r' x Hx1) as [| (P2 & H2 & Hi2 & Hx2)]; [by left | right].
        split; [done |]. split; [done |]. split; [by apply Habs | done].
      * right. split; [auto |]. split; [done |]. split; [done |].
        destruct (ad_regs1 r' _ Hx1) as [| (_ & H2 & _)]; [done |]. by rewrite admits_set in H2.
    + intros r' x' Hx'. destruct (ad_old1 _ _ Hx') as [x1 Hx1]. by eapply ad_old0.
  - intros r' x [-> | Hr']%elem_of_cons Hx Had.
    + specialize (B1 x Hx Had). destruct (ad_regs1 r _ B1) as [| (_ & H2 & _)]; [done |]. by rewrite admits_set in H2.
    + destruct (ad_regs0 r' x Hx) as [Hx1 | (P1 & H1 & Hi1 & Hx1)]; [by apply B2 |].
      destruct (ad_regs1 r' _ Hx1) as [| (_ & H2 & _)]; [done |]. by rewrite admits_set in H2.
Qed.

Lemma detached_none c k : inv c → heads c !! Some k = None → ¬ attached c k.
Proof.
  intros Hi Hn [Hf | [Hd | (r & x & Hx & Hp & Hh)]].
  - unfold firsts in Hf. by rewrite Hn in Hf.
  - unfold detached in Hd. destruct (chain_of c) as [ch |] eqn:Hch; [| done]. apply bool_decide_eq_true in Hd.
    destruct (i_cutoff c Hi ch Hch) as (y & Hy & _). congruence.
  - destruct (i_head c Hi r x Hx) as [y Hy]; [by rewrite Hp |]. congruence.
Qed.

(** [advance] in one piece: the new authority, the new head, and what it queues. *)
Lemma advance_spec c k c' : inv c → no_reader c → advance k c = Some c' →
  inv c' ∧ gen_of c' k = (gen_of c k + 1)%N ∧ (gen_of c k ≠ max_generation) ∧
  (∀ k', k' ≠ k → authority_of c' k' = authority_of c k') ∧
  regs c' = regs c ∧ readSets c' = readSets c ∧ sweep c' = sweep c ∧
  (∀ h, pending c h = true → pending c' h = true) ∧
  (∀ h, h ≠ Some k → heads c' !! h = heads c !! h) ∧
  (∀ h, firsts c' h = firsts c h) ∧
  (attached c k → pending c' (Some k) = true ∧ ∃ y', heads c' !! Some k = Some y' ∧ stamp y' = gen_of c' k).
Proof.
  intros Hi Hnr. unfold advance. rewrite current_gen by done. destruct (decide _) as [| Hmax]; [done |]. cbn zeta.
  set (y := match heads c !! Some k with Some y => y | None => mkHead (gen_of c k) false [] false end).
  set (y' := if bool_decide (first y ≠ []) || detached c (Some k) || borrowed y then set_stamp (gen_of c k + 1) y else y).
  set (a' := mkAuthority (gen_of c k + 1) (ordinaryDemand (authority_of c k))).
  assert (alter_head (Some k) (λ x, if bool_decide (first x ≠ []) || detached c (Some k) || borrowed x
              then set_stamp (gen_of c k + 1) x else x)
            (set_authority k a' match heads c !! Some k with Some _ => c | None => put_head (Some k) (mkHead (gen_of c k) false [] false) c end)
          = put_head (Some k) y' (set_authority k a' c)) as Heq.
  { unfold y', y. destruct (heads c !! Some k) as [z |] eqn:Hz.
    - unfold alter_head. cbn. by rewrite (alter_insert _ _ _ _ Hz).
    - unfold alter_head, put_head. cbn. erewrite alter_insert by apply lookup_insert_eq. by rewrite insert_insert_eq. }
  assert (∀ c0, detached (set_authority k (mkAuthority (gen_of c k + 1) (ordinaryDemand (authority_of c0 k)))
      match heads c !! Some k with Some _ => c | None => put_head (Some k) (mkHead (gen_of c k) false [] false) c end) (Some k)
      = detached c (Some k)) as Hdet by (intros c0; by destruct (heads c !! Some k)).
  assert (authority_of match heads c !! Some k with Some _ => c | None => put_head (Some k) (mkHead (gen_of c k) false [] false) c end k
          = authority_of c k) as Hau by (by destruct (heads c !! Some k)).
  rewrite Hdet, Hau. fold a'. rewrite Heq. set (c1 := put_head (Some k) y' (set_authority k a' c)).
  assert (first y' = firsts c (Some k)) as Hf.
  { unfold y', y, firsts. by destruct (heads c !! Some k); case_match. }
  assert (heads c1 !! Some k = Some y') as Hy' by (cbn; by rewrite lookup_insert_eq).
  assert (heads c !! Some k = None → ¬ attached c k) as Hno by (by apply detached_none).
  pose proof (queue_same c1 (Some k)) as (Q1 & Q2 & Q3 & Q4 & Q5 & _ & Q7).
  assert (first y' ≠ [] ∨ detached c (Some k) = true → pending (queue (Some k) c1) (Some k) = true) as Hpd.
  { intros Hat. eapply queue_pending; [exact Hy' |]. exact Hat. }
  assert (attached c k → first y' ≠ [] ∨ detached c (Some k) = true) as Hat.
  { rewrite Hf. intros [? | [? | (r & x & Hx & Hp & _)]]; [by left | by right |]. by destruct (Hnr r x Hx). }
  assert (attached c k → stamp y' = (gen_of c k + 1)%N) as Hmst.
  { intros Ha. unfold y'. assert (bool_decide (first y ≠ []) || detached c (Some k) = true) as ->; [| done].
      apply orb_true_iff. destruct (Hat Ha) as [Hne | ?]; [left | by right]. apply bool_decide_eq_true.
      unfold y' in Hne. by case_match. }
  intros [= <-]. split; [| split; [| split; [done | split; [| split; [done | split; [done | split; [done | split; [| split]]]]]]]].
  - apply (write_inv c _ k y' a'); try done.
    + unfold y', y. cbn. destruct (heads c !! Some k) as [z |] eqn:Hz; [destruct (i_born c Hi k z Hz) as [_ ?] |]; case_match; cbn [stamp set_stamp]; lia.
    + intros Ha. left. by apply Hmst.
    + intros z Hz. destruct (i_born c Hi k z Hz) as [_ Hst]. unfold y', y. rewrite Hz. destruct (_ || borrowed z); cbn [stamp set_stamp]; lia.
    + left. change (gen_of c k < gen_of c k + 1)%N. lia.
    + intros Hd. left. apply Hpd. by right.
  - unfold gen_of, authority_of. rewrite Q1. cbn. by rewrite lookup_insert_eq.
  - intros k' Hne. unfold authority_of. rewrite Q1. cbn. by rewrite lookup_insert_ne.
  - intros h Hh. by apply Q7.
  - intros h Hne. rewrite Q2. cbn. by rewrite lookup_insert_ne.
  - split.
    + intros h. unfold firsts at 1. rewrite Q2. cbn. destruct (decide (h = Some k)) as [-> |].
      * by rewrite lookup_insert_eq.
      * by rewrite lookup_insert_ne.
    + intros Ha. split; [by apply Hpd, Hat |]. exists y'. rewrite Q2. split; [done |]. rewrite (Hmst Ha).
      unfold gen_of at 2. unfold authority_of. rewrite Q1. cbn. by rewrite lookup_insert_eq.
Qed.

Lemma headless_inv c k b : inv c → heads c !! Some k = None →
  inv (set_authority k (mkAuthority (generation (authority_of c k)) b) c).
Proof.
  intros Hi Hn. set (c' := set_authority _ _ c).
  assert (∀ k', gen_of c' k' = gen_of c k') as Hg.
  { intros k'. unfold gen_of, authority_of. cbn. destruct (decide (k' = k)) as [-> |]; [by rewrite lookup_insert_eq | by rewrite lookup_insert_ne]. }
  assert (∀ k', k' ≠ k → authority_of c' k' = authority_of c k') as Ha.
  { intros k' Hne. unfold authority_of. cbn. by rewrite lookup_insert_ne. }
  destruct Hi as [I1 I2 I3 I4 I5 I6 I7 I8 I9 I10 I11 I12 I13 I14 I15].
  split; [exact I1 | | | | exact I5 | exact I6 | exact I7 | exact I8 | | exact I10 | | | exact I13 | exact I14 | exact I15].
  - intros k' z Hz. rewrite Hg. destruct (I2 k' z Hz) as [[a Hau] ?]. split; [| done]. cbn.
    destruct (decide (k' = k)) as [-> |]; [by rewrite lookup_insert_eq | rewrite lookup_insert_ne by done; eauto].
  - intros k' Hk'. rewrite Hg. by apply I3.
  - intros r x z Hx He Hf Hz. rewrite Hg. by apply (I4 r).
  - intros r x Hx Hf. rewrite Hg. by apply (I9 r).
  - intros r x Hx Hp. destruct (I11 r x Hx Hp) as [Hf Ho]. split; [done |]. by rewrite Hg.
  - intros r x z Hx Hp Hf Ho Hz. rewrite Hg.
    assert (key x ≠ k) as Hne by (intros Hk; change (heads c !! Some (key x) = Some z) in Hz; by rewrite Hk, Hn in Hz).
    rewrite Ha by done. by apply (I12 r).
Qed.

Lemma set_demand_spec c k b : inv c → no_reader c → let c' := set_demand k b c in
  inv c' ∧ (∀ k', gen_of c' k' = gen_of c k') ∧
  authority_of c' k = mkAuthority (gen_of c k) b ∧ (∀ k', k' ≠ k → authority_of c' k' = authority_of c k') ∧
  regs c' = regs c ∧ readSets c' = readSets c ∧ sweep c' = sweep c ∧
  (∀ h, pending c h = true → pending c' h = true) ∧
  (∀ h, h ≠ Some k → heads c' !! h = heads c !! h) ∧
  (∀ h, firsts c' h = firsts c h) ∧
  (attached c k → pending c' (Some k) = true) ∧
  (∀ y, heads c !! Some k = Some y → heads c' !! Some k = Some (set_ordinary b y)).
Proof.
  intros Hi Hnr c'. set (a' := mkAuthority (gen_of c k) b).
  assert (∀ c0, authorities c0 = <[k := a']> (authorities c) →
    (∀ k', gen_of c0 k' = gen_of c k') ∧ authority_of c0 k = a' ∧ (∀ k', k' ≠ k → authority_of c0 k' = authority_of c k')) as Hau.
  { intros c0 H0. assert (∀ k', authority_of c0 k' = if decide (k' = k) then a' else authority_of c k') as Hall.
    { intros k'. unfold authority_of. rewrite H0. case_decide as Hk; [subst; by rewrite lookup_insert_eq | by rewrite lookup_insert_ne]. }
    split; [| split; [by rewrite Hall, decide_True | intros k' Hne; by rewrite Hall, decide_False]].
    intros k'. unfold gen_of. rewrite Hall. case_decide; [by subst k' | done]. }
  unfold c', set_demand in *. change (heads (set_authority k _ c) !! Some k) with (heads c !! Some k) in *.
  destruct (heads c !! Some k) as [y |] eqn:Hy.
  - set (c1 := alter_head (Some k) (set_ordinary b) (set_authority k (mkAuthority (generation (authority_of c k)) b) c)).
    pose proof (queue_same c1 (Some k)) as (Q1 & Q2 & Q3 & Q4 & Q5 & _ & Q7).
    assert (heads c1 = <[Some k := set_ordinary b y]> (heads c)) as Hh by (by apply alter_insert).
    assert (heads c1 !! Some k = Some (set_ordinary b y)) as Hy1 by (by rewrite Hh, lookup_insert_eq).
    assert (∀ h, firsts (queue (Some k) c1) h = firsts c h) as Hfs.
    { intros h. unfold firsts. rewrite Q2, Hh. destruct (decide (h = Some k)) as [-> |]; [by rewrite lookup_insert_eq, Hy | by rewrite lookup_insert_ne]. }
    destruct (Hau (queue (Some k) c1)) as (G1 & G2 & G3); [by rewrite Q1 |].
    split; [| do 6 (split; [done |]); split; [exact Q7 |]; split; [| split; [exact Hfs | split]]].
    + destruct (i_born c Hi k y Hy) as [_ Hst].
      apply (write_inv c _ k (set_ordinary b y) a'); try done.
      * by rewrite Q2.
      * unfold firsts. by rewrite Hy.
      * intros _. right. by exists y.
      * intros z Hz. rewrite Hy in Hz. by injection Hz as <-.
      * right. split; [done |]. split; [by eexists |]. by left.
      * intros Hd. right. by exists y.
    + intros h Hne. rewrite Q2, Hh. by rewrite lookup_insert_ne.
    + intros Hat. eapply queue_pending; [exact Hy1 |]. change (detached c1 (Some k)) with (detached c (Some k)).
      destruct Hat as [Hf | [Hd | (r & x & Hx & Hp & _)]]; [left | by right | by destruct (Hnr r x Hx)].
      unfold firsts in Hf. by rewrite Hy in Hf.
    + intros z [= <-]. by rewrite Q2.
  - destruct (Hau (set_authority k (mkAuthority (generation (authority_of c k)) b) c)) as (G1 & G2 & G3); [done |].
    split; [by apply headless_inv |]. do 9 (split; [done |]). split; [| done].
    intros Hat. by destruct (detached_none c k Hi Hy).
Qed.

Lemma admitAbsence_spec c k adm c' : inv c → admitAbsence k adm c = Some c' →
  inv c' ∧ authorities c' = authorities c ∧ readSets c' = readSets c ∧ sweep c' = sweep c ∧
  (∀ h, pending c h = true → pending c' h = true) ∧
  (∀ h, h ≠ None → heads c' !! h = heads c !! h) ∧ (∀ h, firsts c' h = firsts c h) ∧
  (∀ r x, regs c !! r = Some x → regs c' !! r = Some x ∨
     pending c' None = true ∧ admits k adm x = true ∧ in_absence c r ∧
     ∃ g, g ≠ 0%N ∧ regs c' !! r = Some (set_generation g x)) ∧
  (∀ r x', regs c' !! r = Some x' → is_Some (regs c !! r)) ∧
  (∀ r x, in_absence c r → regs c !! r = Some x → admits k adm x = true →
     ∃ g, g ≠ 0%N ∧ regs c' !! r = Some (set_generation g x)).
Proof.
  intros Hi. unfold admitAbsence. destruct (heads c !! None) as [y |] eqn:Hy; [| done].
  destruct (_ && _) eqn:Hempty.
  { intros [= <-]. split; [done |]. do 6 (split; [done |]). split; [by left |]. split; [eauto |].
    intros r x Hin. apply andb_true_iff in Hempty as [E1%bool_decide_eq_true E2%bool_decide_eq_true].
    exfalso. destruct Hin as [Hin | Hin]; [unfold firsts in Hin; rewrite Hy, E1 in Hin | rewrite E2 in Hin]; by apply elem_of_nil in Hin. }
  destruct (decide _) as [| Hmax]; [done |]. intros [= <-].
  set (g := (stamp y + 1)%N). set (c1 := alter_head None (set_stamp g) c).
  assert (inv c1) as Hi1 by (eapply bump_inv; [done | exact Hy | lia]).
  assert (heads c1 = <[None := set_stamp g y]> (heads c)) as Hh by (by apply alter_insert).
  assert (heads c1 !! None = Some (set_stamp g y)) as Hy1 by (by rewrite Hh, lookup_insert_eq).
  assert (∀ h, firsts c1 h = firsts c h) as Hfs.
  { intros h. unfold firsts. rewrite Hh. destruct (decide (h = None)) as [-> |]; [by rewrite lookup_insert_eq, Hy | by rewrite lookup_insert_ne]. }
  assert (∀ r, in_absence c1 r ↔ in_absence c r) as Habs by (intros r; unfold in_absence; by rewrite Hfs).
  assert (∀ r, r ∈ first y ++ watch c ↔ in_absence c r) as Hmem.
  { intros r. unfold in_absence, firsts. by rewrite elem_of_app, Hy. }
  destruct (admit_all_spec k adm g c1 (first y ++ watch c) (set_stamp g y)) as [[A1 A2 A3 A4 A5 A6 A7 A8 A9] B];
    [done | done | done | lia | |].
  { intros r Hr. by apply Habs, Hmem. }
  assert (g ≠ 0%N) as Hg0 by lia.
  split; [done |]. split; [done |]. split; [done |]. split; [done |]. split; [exact A7 |].
  split; [intros h Hne; rewrite A3, Hh; by rewrite lookup_insert_ne |].
  split; [intros h; unfold firsts at 1; rewrite A3; apply Hfs |].
  split; [| split; [exact A9 |]].
  - intros r x Hx. destruct (A8 r x Hx) as [| (P & Had & Hin & Hx')]; [by left | right].
    split; [done |]. split; [done |]. split; [by apply Habs | eauto].
  - intros r x Hin Hx Had. exists g. split; [done |]. apply B; [by apply Hmem | done | done].
Qed.

(** *** Readers *)

Lemma new_reg_spec r o c : new_reg r o c = true ↔ regs c !! r = None ∧ is_Some (readSets c !! o).
Proof. unfold new_reg. by rewrite andb_true_iff, !bool_decide_eq_true. Qed.

Lemma observe_inv r o k c c' : inv c → observe r o k c = Some c' → inv c'.
Proof.
  intros Hi. unfold observe. destruct (_ && _) eqn:E; [| done]. intros [= <-].
  apply andb_true_iff in E as [[Hn Ho]%new_reg_spec Hk%bool_decide_eq_true]. apply put_reg_inv; try done.
  - intros x0 Hx0. congruence.
  - cbn. rewrite current_gen by done. lia.
  - intros _. split; [done |]. intros Hob. cbn in Hob. destruct Hk. rewrite Hob. by left.
Qed.

Lemma capture_inv r o k c c' : inv c → capture r o k c = Some c' → inv c'.
Proof.
  intros Hi. unfold capture. destruct (_ && _) eqn:E; [| done].
  apply andb_true_iff in E as [[Hn Ho]%new_reg_spec Hk%bool_decide_eq_true].
  destruct (authorities c !! k) as [a |] eqn:Ha; cbn.
  2: { intros [= <-]. apply put_reg_inv; try done; [congruence |]. intros _. split; [apply Hi | done]. }
  assert (authority_of c k = a) as Hau by (unfold authority_of; by rewrite Ha).
  assert (gen_of c k = generation a) as Hg by (unfold gen_of; by rewrite Hau).
  destruct (heads c !! Some k) as [y |] eqn:Hy.
  - intros [= <-]. rewrite <- Hg.
    destruct (sync_write c k y (Some (ordinaryDemand a)) Hi Hy) as (Hi' & Hy' & Hs & _ & Ho' & _);
      [intros d [= <-]; by rewrite Hau |].
    apply put_reg_inv; try done; cbn [pc absent r_generation key head_of].
    + intros x0 Hx0. cbn in Hx0. congruence.
    + intros _. split; [by eexists |]. intros _ y' Hy''. pose proof (eq_trans (eq_sym Hy') Hy'') as [= <-].
      unfold told. cbn [r_generation]. change (gen_of (alter_head _ _ c) k) with (gen_of c k). lia.
    + apply N.le_refl.
    + intros _ _ _ y' Hy''. pose proof (eq_trans (eq_sym Hy') Hy'') as [= <-]. left.
      change (authority_of (alter_head _ _ c) k) with (authority_of c k). by rewrite Hau.
  - intros [= <-]. apply put_reg_inv; try done; cbn.
    + congruence.
    + change (generation a ≤ gen_of c k)%N. rewrite Hg. lia.
    + intros _. split; [done |]. by left.
Qed.

Lemma put_alter_commute r x o f c : put_reg r x (alter_set o f c) = alter_set o f (put_reg r x c).
Proof. done. Qed.

Lemma activate_inv r c c' : inv c → activate r c = Some c' → inv c'.
Proof.
  intros Hi. unfold activate. destruct (regs c !! r) as [x |] eqn:Hx; [| done]. cbn.
  destruct (decide (pc x = Sampled)) as [Hp |]; [| done]. rewrite current_gen by done.
  destruct (i_sampled c Hi r x Hx Hp) as [Hab Hob].
  assert (ordinary x = demandUnread) as Hord.
  { destruct (decide (ordinary x = demandUnread)) as [| Hne]; [done |]. destruct (i_object c Hi r x Hx Hne) as (_ & ? & _). congruence. }
  set (c0 := if decide (gen_of c (key x) = r_generation x) then c else alter_set (owner x) invalidate c).
  assert (inv c0) as Hi0 by (unfold c0; case_decide; [done | by apply alter_set_inv]).
  assert (heads c0 = heads c ∧ regs c0 = regs c ∧ (∀ k, gen_of c0 k = gen_of c k) ∧ (∀ k, authority_of c0 k = authority_of c k)
          ∧ (∀ h, sync c0 h = sync c h)) as (Eh & Er & Eg & Ea & Es) by (unfold c0; by case_decide).
  rewrite <- Eg.
  destruct (heads c !! Some (key x)) as [y |] eqn:Hy; intros [= <-].
  - rewrite Eh, Hy.
    destruct (sync_write c0 (key x) y None Hi0) as (Hi' & Hy' & Hs & _); [by rewrite Eh | done |].
    apply put_reg_inv; try done; cbn [pc set_pc absent r_generation key owner ordinary].
    + intros x0 Hx0. cbn in Hx0. rewrite Er in Hx0. congruence.
    + by apply (i_owner c0 Hi0 r); rewrite Er.
    + intros _. unfold head_of. cbn. rewrite Hab. split; [by eexists |]. intros _ y' Hy''.
      pose proof (eq_trans (eq_sym Hy') Hy'') as [= <-]. unfold told. cbn [r_generation set_pc owner].
      change (gen_of (alter_head _ _ c0) (key x)) with (gen_of c0 (key x)).
      destruct (decide (gen_of c (key x) = r_generation x)) as [He | Hne]; [rewrite <- Eg in He; lia |].
      right. right. pose proof (i_earlier c0 Hi0 r x ltac:(by rewrite Er) Hab). rewrite Eg in *. split; [lia |].
      destruct (i_owner c Hi r x Hx) as [s Hss]. exists (invalidate s). split; [| done].
      change (readSets c0 !! owner x = Some (invalidate s)). unfold c0. cbn. by rewrite lookup_alter_eq, Hss.
    + rewrite Hab. apply (i_earlier c0 Hi0 r); [by rewrite Er | done].
    + intros _ _ Hf' y' _. right. destruct (Hob Hf') as [Hn | Hlt]; [congruence |].
      change (r_generation x < gen_of c0 (key x))%N. by rewrite Eg.
  - rewrite Eh, Hy. apply put_reg_inv; try done; cbn.
    + intros x0 Hx0. rewrite Er in Hx0. congruence.
    + by apply (i_owner c0 Hi0 r); rewrite Er.
    + intros _. split; [apply Hi0 | done].
Qed.

Lemma link_inv r c c' : inv c → link r c = Some c' → inv c'.
Proof.
  intros Hi. unfold link. destruct (regs c !! r) as [x |] eqn:Hx; [| done]. cbn.
  destruct (decide (pc x = Linking)) as [Hp |]; [| done]. intros [= <-].
  destruct (i_head c Hi r x Hx) as [y Hy]; [by rewrite Hp |].
  destruct c as [au hs pe pu rs ss sw]. cbn in Hx, Hy. unfold alter_head, put_reg. cbn.
  rewrite (alter_insert _ _ hs y Hy). set (y' := set_first (r :: first y) y). set (x' := set_pc Linked x).
  set (c := mkConfig au hs pe pu rs ss sw) in *. set (c' := mkConfig _ _ _ _ _ _ _).
  assert (∀ h, firsts c' h = if decide (h = head_of x) then r :: firsts c h else firsts c h) as Hfs.
  { intros h. unfold firsts. cbn. case_decide as Hh; [subst h; by rewrite lookup_insert_eq, Hy | by rewrite lookup_insert_ne]. }
  assert (∀ r' z', regs c' !! r' = Some z' → r' = r ∧ z' = x' ∨ r' ≠ r ∧ regs c !! r' = Some z') as Hreg.
  { intros r' z'. cbn. destruct (decide (r' = r)) as [-> |]; [rewrite lookup_insert_eq; intros [= <-]; by left |].
    rewrite lookup_insert_ne by done. by right. }
  assert (∀ h z', heads c' !! h = Some z' → ∃ z, heads c !! h = Some z ∧ stamp z' = stamp z ∧ h_ordinary z' = h_ordinary z) as Hhd.
  { intros h z'. cbn. destruct (decide (h = head_of x)) as [-> |]; [rewrite lookup_insert_eq; intros [= <-]; by exists y |].
    rewrite lookup_insert_ne by done. intros Hz. by exists z'. }
  assert (∀ h z, heads c !! h = Some z → ∃ z', heads c' !! h = Some z' ∧ stamp z' = stamp z) as Hhd'.
  { intros h z Hz. cbn. destruct (decide (h = head_of x)) as [-> |]; [rewrite lookup_insert_eq | rewrite lookup_insert_ne by done; eauto].
    exists y'. by pose proof (eq_trans (eq_sym Hy) Hz) as [= <-]. }
  assert (head_of x' = head_of x) as Hhx by done.
  destruct Hi as [I1 I2 I3 I4 I5 I6 I7 I8 I9 I10 I11 I12 I13 I14 I15]. split.
  - destruct I1 as [z Hz]. destruct (Hhd' _ _ Hz) as (z' & -> & _). by eexists.
  - intros k z' (z & Hz & -> & _)%Hhd. by apply I2.
  - intros k Hk. apply I3. destruct (heads c !! Some k) as [z |] eqn:Hz; [| done]. destruct (Hhd' _ _ Hz) as (z' & Hz' & _). congruence.
  - intros r' w z' Hw He Ha (z & Hz & -> & _)%Hhd. destruct (Hreg _ _ Hw) as [[-> ->] | [Hne Hw']]; [| by apply (I4 r' w)].
    apply (I4 r x z Hx); [by left | done | done].
  - intros h r'. rewrite Hfs. intros Hr. cbn. destruct (decide (r' = r)) as [-> | Hne].
    + rewrite lookup_insert_eq. exists x'. split; [done |]. split; [done |]. rewrite Hhx. case_decide as Hh; [done |].
      destruct (I5 h r Hr) as (w & Hw & Hwp & _).
      pose proof (eq_trans (eq_sym Hx) Hw) as [= <-]. congruence.
    + rewrite lookup_insert_ne by done. apply I5. destruct Hr as [Hr | Hr]; [left | by right].
      case_decide; [by apply elem_of_cons in Hr as [? | ?] | done].
  - intros r' w Hw Hwp Hl. rewrite Hfs. destruct (Hreg _ _ Hw) as [[-> ->] | [Hne Hw']].
    + left. rewrite Hhx, decide_True by done. by left.
    + destruct (I6 r' w Hw' Hwp Hl) as [Hin | Hin]; [left | by right]. case_decide; [by right | done].
  - intros r' w Hw Hwp. assert (is_Some (heads c !! head_of w)) as [z Hz].
    { destruct (Hreg _ _ Hw) as [[-> ->] | [Hne Hw']]; [rewrite Hhx; by exists y | by apply (I7 r')]. }
    destruct (Hhd' _ _ Hz) as (z' & -> & _). by eexists.
  - intros r' w [[-> ->] | [Hne Hw]]%Hreg; [by apply (I8 r x) | by apply (I8 r')].
  - intros r' w [[-> ->] | [Hne Hw]]%Hreg; [by apply (I9 r x) | by apply (I9 r')].
  - intros r' w z' Hw Ha (z & Hz & -> & _)%Hhd. destruct (Hreg _ _ Hw) as [[-> ->] | [Hne Hw']]; [by apply (I10 r x z) | by apply (I10 r' w z)].
  - intros r' w [[-> ->] | [Hne Hw]]%Hreg Hwp; [done |]. destruct (I11 r' w Hw Hwp) as [Hf Ho]. split; [done |].
    intros Hob. destruct (Ho Hob) as [Hn | Hlt]; [left | by right].
    cbn. rewrite lookup_insert_ne; [done |]. intros E.
    rewrite <- E in Hn. discriminate (eq_trans (eq_sym Hy) Hn).
  - intros r' w z' Hw Hwp Hf Ho (z & Hz & _ & ->)%Hhd. destruct (Hreg _ _ Hw) as [[-> ->] | [Hne Hw']].
    + apply (I12 r x z); try done. by rewrite Hp.
    + by apply (I12 r' w z).
  - intros r' w [[-> ->] | [Hne Hw]]%Hreg Ho; [destruct (I13 r x Hx Ho) as (_ & ? & _); congruence | by apply (I13 r' w)].
  - intros ch Hch. destruct (I14 ch Hch) as (z & Hz & Hc & Hs). destruct (Hhd' _ _ Hz) as (z' & Hz' & E). exists z'. by rewrite E.
  - intros ch r' w Hch Hin Hw. destruct (Hreg _ _ Hw) as [[-> ->] | [Hne Hw']]; [| by apply (I15 ch r' w)].
    apply (I15 ch r x Hch Hin Hx).
Qed.

Lemma ordinary_demand_inv r c c' : inv c → ordinary_demand r c = Some c' → inv c'.
Proof.
  intros Hi. unfold ordinary_demand. destruct (regs c !! r) as [x |] eqn:Hx; [| done]. cbn.
  destruct (decide _) as [[Hp Hk] |]; [| done]. set (x' := mkReg _ _ _ _ _ _ _ _).
  assert (inv (put_reg r x' c)) as Hi'.
  { apply (mark_inv c r x x'); try done. intros _. unfold x'. cbn. by destruct (view x). }
  intros [= <-]. case_match; [done |]. by apply alter_set_inv.
Qed.

Lemma consume_inv r c c' : inv c → consume r c = Some c' → inv c'.
Proof.
  intros Hi. unfold consume. destruct (regs c !! r) as [x |] eqn:Hx; [| done]. intros [= <-].
  apply (mark_inv c r x); try done. exact (i_object c Hi r x Hx).
Qed.

Lemma retain_inv r c c' : inv c → retain r c = Some c' → inv c'.
Proof.
  intros Hi. unfold retain. destruct (regs c !! r) as [x |] eqn:Hx; [| done]. cbn.
  destruct (decide _) as [| Hp]; [by intros [= <-] |]. destruct (absent x) eqn:Ha; [by intros [= <-] |]. intros [= <-].
  destruct (i_head c Hi r x Hx Hp) as [y Hy]. unfold head_of in Hy. rewrite Ha in Hy.
  destruct (i_born c Hi _ y Hy) as [[a Hau] Hst].
  assert (authority_of c (key x) = a) as Hao by (unfold authority_of; by rewrite Hau).
  apply (write_inv c _ (key x) (set_borrowed y) a); try done; cbn.
  - by rewrite insert_id.
  - by apply alter_insert.
  - unfold firsts. by rewrite Hy.
  - by rewrite <- Hao.
  - intros _. right. exists y. unfold gen_of. by rewrite Hao.
  - intros z Hz. rewrite Hy in Hz. by injection Hz as <-.
  - right. unfold gen_of. rewrite Hao. split; [done |]. split; [by eexists |]. right. by exists y.
  - intros _. right. by exists y.
Qed.

(** *** The sweep *)

Lemma sweep_head_inv h hs d c c' : inv c → no_reader c → sweep c = Draining (h :: hs) d →
  sweep_head h hs d c = Some c' → inv c' ∧
  ∃ y, heads c !! h = Some y ∧ chain_of c' = Some (mkChain h (stamp y) (first y) [] [] [] false) ∧
    regs c' = regs c ∧ readSets c' = readSets c ∧ authorities c' = authorities c ∧
    (∀ h', h' ≠ h → pending c h' = true → pending c' h' = true) ∧
    (∀ h', firsts c' h' = if decide (h' = h) then [] else firsts c h') ∧
    (∀ h' z, heads c !! h' = Some z → ∃ z', heads c' !! h' = Some z' ∧ stamp z' = stamp z ∧ h_ordinary z' = h_ordinary z).
Proof.
  intros Hi Hnr Hsw. unfold sweep_head. destruct (heads c !! h) as [y |] eqn:Hy; [| done]. intros [= <-].
  assert (chain_of c = None) as Hno by (unfold chain_of; by rewrite Hsw).
  destruct c as [au hds pe pu rs ss sw]. cbn in Hy, Hsw. subst sw. unfold alter_head, set_sweep. cbn.
  rewrite (alter_insert _ _ hds y Hy). set (c := mkConfig au hds pe pu rs ss _) in *. set (c' := mkConfig _ _ _ _ _ _ _).
  assert (∀ h', firsts c' h' = if decide (h' = h) then [] else firsts c h') as Hfs.
  { intros h'. unfold firsts. cbn. case_decide as Hh; [subst h'; by rewrite lookup_insert_eq | by rewrite lookup_insert_ne]. }
  assert (∀ h' z, heads c !! h' = Some z → ∃ z', heads c' !! h' = Some z' ∧ stamp z' = stamp z ∧ h_ordinary z' = h_ordinary z) as Hhd.
  { intros h' z Hz. cbn. destruct (decide (h' = h)) as [-> |]; [rewrite lookup_insert_eq | rewrite lookup_insert_ne by done; eauto].
    pose proof (eq_trans (eq_sym Hy) Hz) as [= <-]. by exists (set_first [] y). }
  assert (∀ h' z', heads c' !! h' = Some z' → ∃ z, heads c !! h' = Some z ∧ stamp z' = stamp z ∧ h_ordinary z' = h_ordinary z) as Hhd'.
  { intros h' z'. cbn. destruct (decide (h' = h)) as [-> |]; [rewrite lookup_insert_eq; intros [= <-]; by exists y |].
    rewrite lookup_insert_ne by done. intros Hz. by exists z'. }
  assert (firsts c h = first y) as Hfy by (unfold firsts; change (heads c !! h) with (hds !! h); by rewrite Hy).
  split.
  2: { exists y. split; [done |]. do 4 (split; [done |]). split; [| by split].
       intros h' Hne. rewrite !pending_spec. cbn. rewrite elem_of_cons. naive_solver. }
  destruct Hi as [I1 I2 I3 I4 I5 I6 I7 I8 I9 I10 I11 I12 I13 I14 I15]. split.
  - destruct I1 as [z Hz]. destruct (Hhd _ _ Hz) as (z' & -> & _). by eexists.
  - intros k z' (z & Hz & -> & _)%Hhd'. by apply I2.
  - intros k Hk. apply I3. destruct (heads c !! Some k) as [z |] eqn:Hz; [| done]. destruct (Hhd _ _ Hz) as (z' & Hz' & _). congruence.
  - intros r x z' Hx He Ha (z & Hz & -> & _)%Hhd'. by apply (I4 r).
  - intros h' r Hr. apply I5. rewrite Hfs in Hr. left. destruct Hr as [Hr | Hr].
    + case_decide; [by apply elem_of_nil in Hr | done].
    + cbn in Hr. destruct (decide (h = h')) as [-> |]; [by rewrite Hfy | by apply elem_of_nil in Hr].
  - intros r x Hx Hp Hl. rewrite Hfs. destruct (I6 r x Hx Hp Hl) as [Hin | Hin].
    + case_decide as Hh; [right | by left]. cbn. rewrite decide_True by done. by rewrite <- Hfy, <- Hh.
    + by apply elem_of_nil in Hin.
  - intros r x Hx Hp. destruct (I7 r x Hx Hp) as [z Hz]. destruct (Hhd _ _ Hz) as (z' & -> & _). by eexists.
  - exact I8.
  - exact I9.
  - intros r x z' Hx Ha (z & Hz & -> & _)%Hhd'. by apply (I10 r).
  - intros r x Hx Hp. destruct (I11 r x Hx Hp) as [Hf Ho]. split; [done |]. intros Hob. destruct (Ho Hob) as [Hn | Hlt]; [left | by right].
    destruct (heads c' !! Some (key x)) as [z' |] eqn:Hz'; [| done]. destruct (Hhd' _ _ Hz') as (z & Hz & _). congruence.
  - intros r x z' Hx Hp Ha Ho (z & Hz & _ & ->)%Hhd'. by apply (I12 r).
  - exact I13.
  - intros ch [= <-]. cbn [swept cutoff]. exists (set_first [] y). cbn. rewrite lookup_insert_eq.
    split; [done |]. split; [done | by left].
  - intros ch r x [= <-] Hin Hx Ha. cbn [rest cutoff] in *. left. rewrite <- Hfy in Hin.
    destruct (I5 h r (or_introl Hin)) as (x0 & Hx0 & _ & Hh). pose proof (eq_trans (eq_sym Hx) Hx0) as [= <-].
    unfold head_of in Hh. rewrite Ha in Hh. subst h. by apply (I10 r x y).
Qed.

(** What a turn of the sweep leaves of the chain. *)
Definition turned (ch ch' : chain) (r : nat) (rs : list nat) : Prop :=
  swept ch' = swept ch ∧ cutoff ch' = cutoff ch ∧ rest ch' = rs ∧
  (∀ r', r' ∈ lead ch' ++ live ch' ++ gap ch' ++ rest ch' → r' ∈ lead ch ++ live ch ++ gap ch ++ rest ch) ∧
  (∀ r', r' ∈ live ch → r' ∈ live ch') ∧ (requeue ch = true → requeue ch' = true).

Lemma keep_turned ch r rs rq : rest ch = r :: rs → (requeue ch = true → rq = true) →
  turned ch (keep ch r rs rq) r rs ∧ r ∈ live (keep ch r rs rq) ∧ requeue (keep ch r rs rq) = rq.
Proof.
  intros Hr Hq. unfold keep, turned. destruct (decide (live ch = [])) as [-> |]; cbn; rewrite Hr.
  - split; [| by split; [left |]]. do 3 (split; [done |]). split; [| split; [by intros r' ?%elem_of_nil | done]].
    intros r'. rewrite !elem_of_app, !elem_of_cons. naive_solver.
  - split; [| split; [rewrite elem_of_app; right; by left | done]]. do 3 (split; [done |]). split; [| split; [| done]].
    + intros r'. rewrite !elem_of_app, !elem_of_cons, elem_of_nil. naive_solver.
    + intros r' ?. apply elem_of_app. by left.
Qed.

Lemma chain_inv c c' hs d ch hs' d' ch' r rs : inv c → sweep c = Sweeping hs d ch → sweep c' = Sweeping hs' d' ch' →
  local_heads (sweep c') = local_heads (sweep c) → rest ch = r :: rs → turned ch ch' r rs →
  authorities c' = authorities c → heads c' = heads c → regs c' = regs c →
  pushing c' = pushing c → pendings c' = pendings c →
  (∀ o s, readSets c !! o = Some s → ∃ s', readSets c' !! o = Some s' ∧
     (retired s' = false → retired s = false) ∧ (invalid s = true → invalid s' = true)) →
  (∀ x, regs c !! r = Some x → listening c x → r ∈ live ch') →
  inv c'.
Proof.
  intros Hi Hsw Hsw' Hloc Hrest (T1 & T2 & T3 & T4 & T5 & T6) Ha Hh Hr Hpu Hpe Hsets Hlive.
  assert (chain_of c = Some ch ∧ chain_of c' = Some ch') as [Hch Hch'] by (unfold chain_of; by rewrite Hsw, Hsw').
  assert (∀ h, pending c' h = pending c h) as Hp by (intros h; unfold pending; by rewrite Hpu, Hpe, Hloc).
  assert (∀ r x, regs c !! r = Some x → listening c' x → listening c x) as Hl.
  { intros r' x Hx [Hc (s' & Hs' & Hret)]. split; [done |]. destruct (i_owner c Hi r' x Hx) as [s Hs].
    exists s. split; [done |]. destruct (Hsets _ _ Hs) as (s1 & Hs1 & Hr1 & _). apply Hr1. congruence. }
  destruct c as [au hds pe pu rgs ss sw], c' as [au' hds' pe' pu' rgs' ss' sw']. cbn in Ha, Hh, Hr. subst au' hds' rgs'.
  set (c := mkConfig au hds pe pu rgs ss sw) in *. set (c' := mkConfig au hds pe' pu' rgs ss' sw') in *.
  destruct Hi as [I1 I2 I3 I4 I5 I6 I7 I8 I9 I10 I11 I12 I13 I14 I15].
  split; [exact I1 | exact I2 | exact I3 | | | | exact I7 | | exact I9 | exact I10 | exact I11 | exact I12 | exact I13 | |].
  - intros r' x y Hx He Hab Hy. assert (engaged c x) as He'.
    { destruct He as [| [Hpc Hls]]; [by left | right]. split; [done | by eapply Hl]. }
    destruct (I4 r' x y Hx He' Hab Hy) as [| [| [Hlt (s & Hs & Hinv)]]]; [by left | right; by left | right; right].
    split; [done |]. destruct (Hsets _ _ Hs) as (s' & Hs' & _ & Hi'). exists s'. auto.
  - intros h r' [Hin | Hin]; [by apply I5; left |]. apply I5. right. rewrite Hch, Hch' in *. cbn in *. rewrite T1 in Hin.
    case_decide; [by apply T4 | done].
  - intros r' x Hx Hpc Hls. destruct (I6 r' x Hx Hpc) as [Hin | Hin]; [by eapply Hl | by left |]. right.
    rewrite Hch, Hch' in *. cbn in *. rewrite T1. case_decide; [| done]. rewrite T3. apply elem_of_app.
    rewrite Hrest in Hin. apply elem_of_app in Hin as [Hin | [-> | Hin]%elem_of_cons]; [left; auto | left | by right].
    apply (Hlive x Hx). by eapply Hl.
  - intros r' x Hx. destruct (I8 r' x Hx) as [s Hs]. destruct (Hsets _ _ Hs) as (s' & Hs' & _). by exists s'.
  - intros ch0. rewrite Hch'. intros [= <-]. rewrite T1, T2, Hp. by apply I14.
  - intros ch0 r' x. rewrite Hch'. intros [= <-] Hin Hx Hab. rewrite T2, Hp. apply (I15 ch r' x Hch); [| done | done].
    rewrite Hrest. right. by rewrite <- T3.
Qed.

Lemma told_set c o : ∀ o' s, readSets c !! o' = Some s → ∃ s', alter set_delivered o (readSets c) !! o' = Some s' ∧
  (retired s' = false → retired s = false) ∧ (invalid s = true → invalid s' = true).
Proof.
  intros o' s Hs. destruct (decide (o' = o)) as [-> |].
  - rewrite lookup_alter_eq, Hs. by exists (set_delivered s).
  - rewrite lookup_alter_ne by done. by exists s.
Qed.

(** One turn: what it does to the chain and to the execution it concerns. *)
Lemma sweep_cell_spec more hs d ch c c' : inv c → sweep c = Sweeping hs d ch → sweep_cell more hs d ch c = Some c' →
  inv c' ∧ authorities c' = authorities c ∧ heads c' = heads c ∧ regs c' = regs c ∧
  pushing c' = pushing c ∧ pendings c' = pendings c ∧
  ∃ r rs x s d' ch', rest ch = r :: rs ∧ regs c !! r = Some x ∧ readSets c !! x.(owner) = Some s ∧
    sweep c' = Sweeping hs d' ch' ∧ turned ch ch' r rs ∧
    (if negb s.(retired) && negb x.(consumed) && changed c ch x && negb s.(delivered)
     then if d then d' = more ∧ readSets c' = alter set_delivered x.(owner) (readSets c) ∧ requeue ch' = requeue ch
               else d' = false ∧ readSets c' = readSets c ∧ r ∈ live ch' ∧ requeue ch' = true
     else d' = d ∧ readSets c' = readSets c ∧ requeue ch' = requeue ch).
Proof.
  intros Hi Hsw. unfold sweep_cell. destruct (rest ch) as [| r rs] eqn:Hrest; [done |].
  destruct (regs c !! r) as [x |] eqn:Hx; [| done]. cbn. destruct (readSets c !! owner x) as [s |] eqn:Hs; [| done]. cbn.
  destruct (keep_turned ch r rs (requeue ch) Hrest ltac:(done)) as (K1 & K2 & K3).
  destruct (keep_turned ch r rs true Hrest ltac:(done)) as (K4 & K5 & K6).
  assert (∀ o s, readSets c !! o = Some s → ∃ s', readSets c !! o = Some s' ∧
     (retired s' = false → retired s = false) ∧ (invalid s = true → invalid s' = true)) as Hid by eauto.
  destruct (negb (retired s) && negb (consumed x)) eqn:Hlisten; cbn.
  - destruct (changed c ch x && negb (delivered s)) eqn:Hch.
    + destruct d; intros [= <-].
      * split; [apply (chain_inv c _ _ _ _ hs more (keep ch r rs (requeue ch)) r rs Hi Hsw); try done; [by rewrite Hsw | apply told_set] |].
        do 5 (split; [done |]). exists r, rs, x, s, more, (keep ch r rs (requeue ch)).
        by rewrite <- andb_assoc, Hlisten, Hch.
      * split; [apply (chain_inv c _ _ _ _ hs false (keep ch r rs true) r rs Hi Hsw); try done; by rewrite Hsw |].
        do 5 (split; [done |]). exists r, rs, x, s, false, (keep ch r rs true). by rewrite <- andb_assoc, Hlisten, Hch.
    + intros [= <-]. split; [apply (chain_inv c _ _ _ _ hs d (keep ch r rs (requeue ch)) r rs Hi Hsw); try done; by rewrite Hsw |].
      do 5 (split; [done |]). exists r, rs, x, s, d, (keep ch r rs (requeue ch)). by rewrite <- andb_assoc, Hlisten, Hch.
  - set (ch' := mkChain _ _ _ _ _ _ _). assert (turned ch ch' r rs) as Ht.
    { unfold turned, ch'. cbn. rewrite Hrest. do 3 (split; [done |]). split; [| by split].
      intros r'. rewrite !elem_of_app, !elem_of_cons, elem_of_nil. naive_solver. }
    intros [= <-]. split; [apply (chain_inv c _ _ _ _ hs d ch' r rs Hi Hsw); try done; [by rewrite Hsw |] |].
    + intros x' Hx' [Hc (s' & Hs' & Hret)]. rewrite Hx in Hx'. injection Hx' as <-. rewrite Hs in Hs'. injection Hs' as <-.
      by rewrite Hc, Hret in Hlisten.
    + do 5 (split; [done |]). exists r, rs, x, s, d, ch'. by rewrite <- andb_assoc, Hlisten.
Qed.

Lemma sweep_end_spec hs d ch c c' : inv c → sweep c = Sweeping hs d ch → sweep_end hs d ch c = Some c' →
  inv c' ∧ authorities c' = authorities c ∧ regs c' = regs c ∧ readSets c' = readSets c ∧
  sweep c' = Draining hs d ∧ rest ch = [] ∧ pendings c' = pendings c ∧
  (∀ h, pending c h = true → pending c' h = true) ∧
  (requeue ch = true → live ch ≠ [] → pending c' (swept ch) = true) ∧ (requeue ch = false → pushing c' = pushing c) ∧
  (∀ h' z, heads c !! h' = Some z → ∃ z', heads c' !! h' = Some z' ∧ stamp z' = stamp z ∧ h_ordinary z' = h_ordinary z).
Proof.
  intros Hi Hsw. unfold sweep_end. destruct (decide (rest ch = [])) as [Hrest |]; [| done].
  assert (chain_of c = Some ch) as Hch by (unfold chain_of; by rewrite Hsw).
  destruct (i_cutoff c Hi ch Hch) as (y & Hy & _).
  set (c1 := set_sweep (Draining hs d) (alter_head (swept ch) (λ x, set_first (live ch ++ first x) x) c)).
  assert (heads c1 = <[swept ch := set_first (live ch ++ first y) y]> (heads c)) as Hh.
  { exact (alter_insert _ (λ x, set_first (live ch ++ first x) x) _ y Hy). }
  assert (∀ h, pending c1 h = pending c h) as Hp by (intros h; unfold pending; cbn; by rewrite Hsw).
  assert (∀ h', firsts c1 h' = if decide (h' = swept ch) then live ch ++ firsts c h' else firsts c h') as Hfs.
  { intros h'. unfold firsts. rewrite Hh. case_decide as E; [subst h'; by rewrite lookup_insert_eq, Hy | by rewrite lookup_insert_ne]. }
  assert (∀ h' z, heads c !! h' = Some z → ∃ z', heads c1 !! h' = Some z' ∧ stamp z' = stamp z ∧ h_ordinary z' = h_ordinary z) as Hhd.
  { intros h' z Hz. rewrite Hh. destruct (decide (h' = swept ch)) as [-> |]; [rewrite lookup_insert_eq | rewrite lookup_insert_ne by done; eauto].
    rewrite Hy in Hz. injection Hz as <-. by eexists. }
  assert (∀ h' z', heads c1 !! h' = Some z' → ∃ z, heads c !! h' = Some z ∧ stamp z' = stamp z ∧ h_ordinary z' = h_ordinary z) as Hhd'.
  { intros h' z'. rewrite Hh. destruct (decide (h' = swept ch)) as [-> |]; [rewrite lookup_insert_eq; intros [= <-]; by exists y |].
    rewrite lookup_insert_ne by done. eauto. }
  assert (inv c1) as Hi1.
  { destruct Hi as [I1 I2 I3 I4 I5 I6 I7 I8 I9 I10 I11 I12 I13 I14 I15].
    split; [| | | | | | | exact I8 | exact I9 | | | | exact I13 | done | done].
    - destruct I1 as [z Hz]. destruct (Hhd _ _ Hz) as (z' & -> & _). by eexists.
    - intros k z' (z & Hz & -> & _)%Hhd'. by apply I2.
    - intros k Hk. apply (I3 k). destruct (heads c !! Some k) as [z |] eqn:Hz; [| done]. destruct (Hhd _ _ Hz) as (z' & Hz' & _). congruence.
    - intros r x z' Hx He Ha (z & Hz & -> & _)%Hhd'. by apply (I4 r).
    - intros h r [Hin | Hin]; [| by apply elem_of_nil in Hin]. rewrite Hfs in Hin. case_decide as Hsh; [| apply I5; by left].
      apply elem_of_app in Hin as [Hin | Hin]; [| apply I5; by left]. apply I5. right. rewrite Hch. cbn.
      rewrite decide_True by done. rewrite !elem_of_app. auto.
    - intros r x Hx Hpc Hl. left. rewrite Hfs. destruct (I6 r x Hx Hpc Hl) as [Hin | Hin].
      + case_decide; [apply elem_of_app; by right | done].
      + rewrite Hch in Hin. cbn in Hin. rewrite Hrest, app_nil_r in Hin.
        destruct (decide (swept ch = head_of x)); [| by apply elem_of_nil in Hin]. rewrite decide_True by done. apply elem_of_app. by left.
    - intros r x Hx Hpc. destruct (I7 r x Hx Hpc) as [z Hz]. destruct (Hhd _ _ Hz) as (z' & -> & _). by eexists.
    - intros r x z' Hx Ha (z & Hz & -> & _)%Hhd'. by apply (I10 r).
    - intros r x Hx Hpc. destruct (I11 r x Hx Hpc) as [Hf Ho]. split; [done |]. intros Hob. destruct (Ho Hob) as [Hn | Hlt]; [left | by right].
      destruct (heads c1 !! Some (key x)) as [z' |] eqn:Hz'; [| done]. destruct (Hhd' _ _ Hz') as (z & Hz & _). congruence.
    - intros r x z' Hx Hpc Ha Ho (z & Hz & _ & ->)%Hhd'. by apply (I12 r). }
  destruct (decide _) as [[Hl Hn] | Hl].
  - intros [= <-]. assert (set_sweep (Draining hs d) c = c1) as ->.
    { unfold c1, alter_head, set_sweep. cbn. f_equal. rewrite (alter_insert _ _ _ _ Hy), insert_id; [done |].
      rewrite Hy, Hl. by destruct y. }
    split; [done |]. do 6 (split; [done |]). split; [intros h; by rewrite Hp |]. by split.
  - destruct (decide (no_reader c)); [| done]. fold c1. destruct (requeue ch) eqn:Hrq; intros [= <-].
    + pose proof (queue_same c1 (swept ch)) as (Q1 & Q2 & Q3 & Q4 & Q5 & Q6 & Q7).
      split; [by apply queue_inv |]. split; [done |]. split; [done |]. split; [done |]. split; [by rewrite Q5 |].
      split; [done |]. split; [by rewrite Q6 |]. split; [intros h Hpd; apply Q7; by rewrite Hp |]. split; [| split; [done |]].
      * intros _ Hne. eapply queue_pending; [by rewrite Hh; apply lookup_insert_eq |]. left. cbn. by destruct (live ch).
      * intros h' z Hz. rewrite Q2. by apply Hhd.
    + split; [done |]. do 6 (split; [done |]). split; [intros h; by rewrite Hp |]. by split.
Qed.

Lemma shard_step_inv c e c' : inv c → step c e = Some c' → inv c'.
Proof.
  intros Hi. destruct e; cbn [step]; unfold locked.
  - case_decide; [| done]. intros [= <-]. by apply init_inv.
  - by apply observe_inv.
  - by apply capture_inv.
  - by apply activate_inv.
  - by apply link_inv.
  - by apply ordinary_demand_inv.
  - by apply consume_inv.
  - by apply retain_inv.
  - intros [= <-]. by apply alter_set_inv.
  - intros [= <-]. case_match; [done | by apply alter_set_inv].
  - intros [= <-]. by apply queue_unlocked_inv.
  - case_decide; [| done]. intros [= <-]. by apply push_inv.
  - case_decide; [| done]. intros [= <-]. by apply set_demand_spec.
  - case_decide; [| done]. intros Ha. by eapply advance_spec.
  - case_decide as Hnr; [| done]. unfold publish. intros (c1 & H1 & H2)%bind_Some.
    destruct (_ || _); [| injection H1 as <-; by eapply advance_spec].
    destruct (admitAbsence_spec c k admission c1 Hi H1) as (Hi1 & _ & _ & _ & _ & _ & _ & Hr & Ho & _).
    eapply advance_spec; [exact Hi1 | | exact H2]. intros r x' Hx'. destruct (Ho r x' Hx') as [x Hx].
    destruct (Hr r x Hx) as [Hx1 | (_ & _ & _ & g & _ & Hx1)]; rewrite Hx1 in Hx'; injection Hx' as <-; apply (Hnr r x Hx).
  - destruct (sweep c) eqn:Hs; [| done | done]. intros [= <-]. by apply begin_inv.
  - destruct (sweep c) as [| [| h hs] d |] eqn:Hs; try done. case_decide; [| done].
    intros Hh. by eapply sweep_head_inv.
  - destruct (sweep c) eqn:Hs; try done. intros Hh. by eapply sweep_cell_spec.
  - destruct (sweep c) eqn:Hs; try done. intros Hh. by eapply sweep_end_spec.
  - destruct (sweep c) as [| [|] d |] eqn:Hs; try done. intros [= <-]. by eapply done_inv.
Qed.

Lemma steps_inv c es c' : inv c → steps c es = Some c' → inv c'.
Proof.
  revert c. induction es as [| e es IH]; intros c Hi; cbn [steps]; [by intros [= <-] |].
  intros (c1 & H1 & H2)%bind_Some. eapply IH; [| exact H2]. by eapply shard_step_inv.
Qed.

Lemma run_inv es c : steps New es = Some c → inv c.
Proof. apply steps_inv, shard_New_inv. Qed.

(** A listening registration keeps its head attached. *)
Lemma placed_attached c r x : inv c → regs c !! r = Some x → pc x = Linked → listening c x → absent x = false →
  attached c (key x).
Proof.
  intros Hi Hx Hp Hl Ha. assert (head_of x = Some (key x)) as Hh by (unfold head_of; by rewrite Ha).
  destruct (i_place c Hi r x Hx Hp Hl) as [Hin | Hin]; rewrite Hh in Hin.
  - left. intros E. rewrite E in Hin. by apply elem_of_nil in Hin.
  - right. left. unfold detached, held in *. destruct (chain_of c) as [ch |]; [| by apply elem_of_nil in Hin].
    destruct (decide (swept ch = Some (key x))); [by apply bool_decide_eq_true | by apply elem_of_nil in Hin].
Qed.
