(* ===== verification/Notification.v ===== *)
(** * What executions are told (pkg/store/registration.go)

    A registration is followed through every interleaving; the sweep is shown to finish; and
    the two give what an execution may rely on.  Concrete runs close the file. *)

From stdpp Require Import fin_maps.
From S2P Require Import Prelude Resource Registrations RegistrationInvariant.

(** ** One registration, followed *)

Definition mirrored (c : config) (x : registration) : Prop :=
  x.(absent) = false → ∃ y, c.(heads) !! Some x.(key) = Some y ∧ y.(stamp) = gen_of c x.(key).

(** The sweep has still to see the registration, or the registration has been left for
    another sweep. *)
Definition seen_later (c : config) (r : nat) (x : registration) : Prop :=
  ∃ ch, chain_of c = Some ch ∧ ch.(swept) = head_of x ∧ (r ∈ ch.(rest) ∨ r ∈ ch.(live) ∧ ch.(requeue) = true).

Definition owed (c : config) (r : nat) (x : registration) : Prop :=
  current c x = true ∨ pending c (head_of x) = true ∨ seen_later c r x.

(** From a moment it was current, with demand [d] recorded: the registration is dead, its
    execution has been told, or it is current or due. *)
Definition tracked (r : nat) (d : demand) (c : config) : Prop :=
  ∃ x s, c.(regs) !! r = Some x ∧ x.(pc) = Linked ∧ c.(readSets) !! x.(owner) = Some s ∧
    (d = demandUnread ∧ x.(ordinary) ≠ d ∨ x.(consumed) = true ∨ s.(retired) = true ∨ s.(delivered) = true ∨
     x.(ordinary) = d ∧ mirrored c x ∧ owed c r x).

(** How a registration's fields may move. *)
Definition moved (x x' : registration) : Prop :=
  x'.(pc) = x.(pc) ∧ x'.(key) = x.(key) ∧ x'.(absent) = x.(absent) ∧ x'.(owner) = x.(owner) ∧
  (x'.(ordinary) = x.(ordinary) ∨ x.(ordinary) = demandUnread ∧ x'.(ordinary) ≠ demandUnread) ∧
  (x'.(consumed) = x.(consumed) ∨ x'.(consumed) = true).

Definition sets_grow (c c' : config) : Prop := ∀ o s, c.(readSets) !! o = Some s → ∃ s', c'.(readSets) !! o = Some s' ∧
  (s.(retired) = true → s'.(retired) = true) ∧ (s.(delivered) = true → s'.(delivered) = true).

Lemma sets_grow_refl c c' : readSets c' = readSets c → sets_grow c c'.
Proof. intros E o s. rewrite E. eauto. Qed.

(** The cases in which nothing is owed any more persist. *)
Lemma tracked_dead r d c c' : inv c → tracked r d c → sets_grow c c' →
  (∀ x, regs c !! r = Some x → pc x = Linked → ∃ x', regs c' !! r = Some x' ∧ moved x x') →
  (∀ x x' s', regs c !! r = Some x → pc x = Linked → listening c x → ordinary x = d → mirrored c x → owed c r x →
     regs c' !! r = Some x' → moved x x' → ordinary x' = d → consumed x' = false →
     readSets c' !! owner x = Some s' → retired s' = false → delivered s' = false →
     mirrored c' x' ∧ owed c' r x') →
  tracked r d c'.
Proof.
  intros Hi (x & s & Hx & Hp & Hs & Hcases) Hsets Hreg Hlive.
  destruct (Hreg x Hx Hp) as (x' & Hx' & Hm). pose proof Hm as (M1 & M2 & M3 & M4 & M5 & M6).
  destruct (Hsets _ _ Hs) as (s' & Hs' & Hret & Hdel).
  exists x', s'. split; [done |]. split; [congruence |]. split; [by rewrite M4 |].
  destruct Hcases as [[-> Hne] | [Hc | [Hr | [Hd | (Ho & Hmir & How)]]]].
  - left. split; [done |]. destruct M5 as [-> | [_ ?]]; done.
  - right. left. destruct M6 as [-> |]; done.
  - right. right. left. auto.
  - right. right. right. left. auto.
  - destruct (retired s') eqn:E1; [auto |]. destruct (delivered s') eqn:E2; [auto |].
    destruct (consumed x') eqn:E3; [auto |].
    destruct (decide (ordinary x' = d)) as [Ho' | Hne]; [| left; split; [destruct M5 as [| [? _]]; congruence | done]].
    right. right. right. right. split; [done |]. apply (Hlive x x' s'); try done.
    split; [destruct M6; congruence |]. exists s. split; [done |]. destruct (retired s); [by specialize (Hret eq_refl) | done].
Qed.

Lemma current_unfold c x : consumed x = false → absent x = false → ∀ y, heads c !! Some (key x) = Some y →
  current c x = ordinaryCurrent c x && bool_decide (stamp y = r_generation x).
Proof. intros Hc Ha y Hy. unfold current, head_of. by rewrite Hc, Ha, Hy. Qed.

Lemma ordinaryCurrent_head c c' x y y' : absent x = false →
  heads c !! Some (key x) = Some y → heads c' !! Some (key x) = Some y' →
  h_ordinary y' = h_ordinary y → ordinaryCurrent c' x = ordinaryCurrent c x.
Proof. intros Ha Hy Hy' E. unfold ordinaryCurrent, head_of. rewrite Ha, Hy, Hy', E. done. Qed.

Lemma ordinaryCurrent_unread c x : ordinary x = demandUnread → ordinaryCurrent c x = true.
Proof. intros Ho. unfold ordinaryCurrent. by rewrite Ho. Qed.

(** Steps other than the sweep's keep a live registration owed, when its head either
    keeps what it says or is queued. *)
Lemma tracked_write r d c c' : inv c → tracked r d c → sets_grow c c' → sweep c' = sweep c →
  (∀ h, pending c h = true → pending c' h = true) →
  (∀ x, regs c !! r = Some x → pc x = Linked → ∃ x', regs c' !! r = Some x' ∧ moved x x' ∧
     (r_generation x' = r_generation x ∨ absent x = true ∧ pending c' None = true)) →
  (∀ x y, regs c !! r = Some x → pc x = Linked → listening c x → absent x = false →
     heads c !! Some (key x) = Some y → stamp y = gen_of c (key x) →
     ∃ y', heads c' !! Some (key x) = Some y' ∧ stamp y' = gen_of c' (key x) ∧
       (pending c' (Some (key x)) = true ∨ stamp y' = stamp y ∧
          (h_ordinary y' = h_ordinary y ∨
           (key x).2 = objectFacet ∧ h_ordinary y' = ordinaryDemand (authority_of c (key x))))) →
  tracked r d c'.
Proof.
  intros Hi Ht Hsets Hsw Hpend Hreg Hhead. apply (tracked_dead r d c c' Hi Ht Hsets).
  { intros x Hx Hp. destruct (Hreg x Hx Hp) as (x' & Hx' & Hm & _). eauto. }
  intros x x' s' Hx Hp Hl Ho Hmir How Hx' Hm Ho' Hc' Hs' Hr' Hd'.
  destruct (Hreg x Hx Hp) as (x1 & Hx1 & _ & Hgen). rewrite Hx1 in Hx'. injection Hx' as ->.
  destruct Hm as (M1 & M2 & M3 & M4 & M5 & M6).
  assert (head_of x' = head_of x) as Hh by (unfold head_of; by rewrite M2, M3).
  assert (owed c r x → current c x = false → owed c' r x') as Hother.
  { intros [? | [Hpd | (ch & Hch & Hsh & Hin)]] Hf; [congruence | right; left; rewrite Hh; auto |].
    right. right. exists ch. rewrite Hh. split; [| done]. unfold chain_of in *. by rewrite Hsw. }
  destruct (absent x) eqn:Ha.
  - split; [intros; congruence |]. destruct (current c x) eqn:Hcur; [| by apply Hother].
    destruct Hgen as [Hgen | [_ Hpd]]; [left | right; left; rewrite Hh; unfold head_of; by rewrite Ha].
    assert (consumed x = false) as Hc by (by destruct Hl).
    unfold current, ordinaryCurrent in *. rewrite Ha, Hc in Hcur. rewrite M3, Hc', Hgen.
    destruct (ordinary x') ; cbn in *; destruct (ordinary x); cbn in *; congruence.
  - destruct Hgen as [Hgen | [? _]]; [| done].
    destruct (Hmir Ha) as (y & Hy & Hst). destruct (Hhead x y Hx Hp Hl Ha Hy Hst) as (y' & Hy' & Hst' & Hor).
    split; [intros _; exists y'; rewrite M2; done |].
    destruct (current c x) eqn:Hcur; [| by apply Hother].
    destruct Hor as [Hpd | [Heq Hord]]; [right; left; rewrite Hh; unfold head_of; by rewrite Ha | left].
    assert (consumed x = false) as Hc by (by destruct Hl).
    rewrite (current_unfold c x Hc Ha y Hy) in Hcur. apply andb_true_iff in Hcur as [Hoc Hg%bool_decide_eq_true].
    rewrite (current_unfold c' x' Hc' ltac:(congruence) y') by (by rewrite M2).
    rewrite Hgen, Heq. apply andb_true_iff. split; [| by apply bool_decide_eq_true].
    assert (ordinaryCurrent c' x' = ordinaryCurrent c' x) as ->.
    { unfold ordinaryCurrent. by rewrite Hh, M3, Ha, Ho, Ho'. }
    destruct (decide (ordinary x = demandUnread)) as [Hu | Hu]; [by apply ordinaryCurrent_unread |].
    rewrite (ordinaryCurrent_head c c' x y y'); [done | done | done | done |].
    destruct Hord as [| [Hobj Hd]]; [done |]. rewrite Hd.
    destruct (i_demand c Hi r x y Hx) as [-> | Hlt]; [by rewrite Hp | done | done | done | done |]. lia.
Qed.

Lemma moved_refl x : moved x x.
Proof. repeat split; by left. Qed.

(** Where nothing but the queues and the sets changes. *)
Lemma tracked_same r d c c' : inv c → tracked r d c → sets_grow c c' →
  authorities c' = authorities c → heads c' = heads c → regs c' = regs c → sweep c' = sweep c →
  (∀ h, pending c h = true → pending c' h = true) → tracked r d c'.
Proof.
  intros Hi Ht Hsets Ha Hh Hr Hsw Hp. apply (tracked_write r d c c'); try done.
  - intros x Hx _. rewrite Hr. exists x. split; [done |]. split; [apply moved_refl | by left].
  - intros x y Hx _ _ _ Hy Hst. rewrite Hh. exists y. split; [done |]. unfold gen_of, authority_of. rewrite Ha.
    split; [done |]. right. split; [done |]. by left.
Qed.

Lemma sets_grow_alter c o f : (∀ s, retired s = true → retired (f s) = true) →
  (∀ s, delivered s = true → delivered (f s) = true) → sets_grow c (alter_set o f c).
Proof.
  intros Hr Hd o' s Hs. cbn. destruct (decide (o' = o)) as [-> |].
  - rewrite lookup_alter_eq, Hs. exists (f s). auto.
  - rewrite lookup_alter_ne by done. by exists s.
Qed.

(** A write to one registration that is not [r], or that marks [r]. *)
Lemma kept_put c r r0 x0 x : regs c !! r = Some x → (r = r0 → moved x x0 ∧ r_generation x0 = r_generation x) →
  ∃ x', <[r0 := x0]> (regs c) !! r = Some x' ∧ moved x x' ∧ r_generation x' = r_generation x.
Proof.
  intros Hx Hr. destruct (decide (r = r0)) as [-> |].
  - rewrite lookup_insert_eq. exists x0. split; [done |]. by apply Hr.
  - rewrite lookup_insert_ne by done. exists x. split; [done |]. by split; [apply moved_refl |].
Qed.

Lemma tracked_put r d c r0 x0 : inv c → tracked r d c →
  (∀ x, regs c !! r0 = Some x → pc x = Linked → moved x x0 ∧ r_generation x0 = r_generation x) →
  tracked r d (put_reg r0 x0 c).
Proof.
  intros Hi Ht H0. apply (tracked_write r d c _ Hi Ht); try done.
  - by apply sets_grow_refl.
  - intros x Hx Hp. destruct (kept_put c r r0 x0 x Hx) as (x' & Hx' & Hm & Hg).
    { intros ->. by apply H0. }
    exists x'. split; [done |]. split; [done | by left].
  - intros x y Hx _ _ _ Hy Hst. exists y. split; [done |]. split; [done |]. right. split; [done |]. by left.
Qed.

(** A head that keeps its stamp, or a head nobody tracked is on. *)
Lemma tracked_head r d c k f : inv c → tracked r d c →
  (∀ y, heads c !! Some k = Some y →
     (stamp (f y) = stamp y ∨ firsts c (Some k) = [] ∧ detached c (Some k) = false) ∧
     (h_ordinary (f y) = h_ordinary y ∨ k.2 = objectFacet ∧ h_ordinary (f y) = ordinaryDemand (authority_of c k))) →
  tracked r d (alter_head (Some k) f c).
Proof.
  intros Hi Ht Hf. apply (tracked_write r d c _ Hi Ht); try done.
  - by apply sets_grow_refl.
  - intros x Hx _. exists x. split; [done |]. split; [apply moved_refl | by left].
  - intros x y Hx Hp Hl Ha Hy Hst. destruct (decide (key x = k)) as [Hk | Hne].
    + rewrite Hk in *. destruct (Hf y Hy) as [[Hs | [Hn Hd]] Ho].
      * exists (f y). cbn. rewrite lookup_alter_eq, Hy. split; [done |]. rewrite Hs. split; [done |]. by right.
      * destruct (placed_attached c r x Hi Hx Hp Hl Ha) as [Hat | [Hat | (r' & x' & Hx' & Hp' & Hh')]];
          [by rewrite Hk in Hat | rewrite Hk in Hat; congruence |].
        exfalso. destruct (i_place c Hi r x Hx Hp Hl) as [Hin | Hin]; unfold head_of in Hin; rewrite Ha, Hk in Hin.
        -- rewrite Hn in Hin. by apply elem_of_nil in Hin.
        -- unfold held, detached in *. destruct (chain_of c) as [ch |]; [| by apply elem_of_nil in Hin].
           apply bool_decide_eq_false in Hd. rewrite decide_False in Hin by done. by apply elem_of_nil in Hin.
    + exists y. cbn. rewrite lookup_alter_ne by congruence. split; [done |]. split; [done |]. right. split; [done |]. by left.
Qed.

Lemma tracked_advance r d c k c' : inv c → no_reader c → tracked r d c → advance k c = Some c' → tracked r d c'.
Proof.
  intros Hi Hnr Ht Had. destruct (advance_spec c k c' Hi Hnr Had) as (Hi' & Hg & _ & Hau & Hr & Hs & Hsw & Hp & Hh & Hf & Hat).
  apply (tracked_write r d c _ Hi Ht); try done.
  - by apply sets_grow_refl.
  - intros x Hx _. rewrite Hr. exists x. split; [done |]. split; [apply moved_refl | by left].
  - intros x y Hx Hpc Hl Ha Hy Hst. destruct (decide (key x = k)) as [Hk | Hne].
    + pose proof (placed_attached c r x Hi Hx Hpc Hl Ha) as Hatt. rewrite Hk in *.
      destruct (Hat Hatt) as (Hpd & y' & Hy' & Hst'). exists y'. split; [done |]. split; [done | by left].
    + exists y. rewrite Hh by congruence. split; [done |]. unfold gen_of in *. rewrite Hau by done.
      split; [done |]. right. split; [done |]. by left.
Qed.

Lemma tracked_admit r d c k adm c' : inv c → tracked r d c → admitAbsence k adm c = Some c' → tracked r d c'.
Proof.
  intros Hi Ht Had. destruct (admitAbsence_spec c k adm c' Hi Had) as (_ & Ha & Hs & Hsw & Hp & Hh & _ & Hr & _ & _).
  apply (tracked_write r d c _ Hi Ht); try done.
  - by apply sets_grow_refl.
  - intros x Hx Hpc. destruct (Hr r x Hx) as [Hx' | (Hpd & _ & Hin & g & _ & Hx')].
    + exists x. split; [done |]. split; [apply moved_refl | by left].
    + exists (set_generation g x). split; [done |]. split; [repeat split; by left |]. right. split; [| done].
      destruct (i_linked c Hi None r Hin) as (x1 & Hx1 & _ & Hh1). rewrite Hx in Hx1. injection Hx1 as <-.
      unfold head_of in Hh1. by destruct (absent x).
  - intros x y Hx _ _ _ Hy Hst. exists y. rewrite Hh by done. split; [done |]. unfold gen_of, authority_of in *. rewrite Ha.
    split; [done |]. right. split; [done |]. by left.
Qed.

Lemma tracked_demand r d c k b : inv c → no_reader c → tracked r d c → tracked r d (set_demand k b c).
Proof.
  intros Hi Hnr Ht. destruct (set_demand_spec c k b Hi Hnr) as (_ & Hg & _ & Hau & Hr & Hs & Hsw & Hp & Hh & _ & Hat & Hk').
  apply (tracked_write r d c _ Hi Ht); try done.
  - by apply sets_grow_refl.
  - intros x Hx _. rewrite Hr. exists x. split; [done |]. split; [apply moved_refl | by left].
  - intros x y Hx Hpc Hl Ha Hy Hst. rewrite Hg. destruct (decide (key x = k)) as [Hk | Hne].
    + rewrite Hk in *. exists (set_ordinary b y). split; [by apply Hk' |]. split; [done |]. left. apply Hat.
      rewrite <- Hk. by eapply placed_attached.
    + exists y. rewrite Hh by congruence. split; [done |]. split; [done |]. right. split; [done |]. by left.
Qed.

Lemma tracked_link r d c r0 c' : inv c → tracked r d c → link r0 c = Some c' → tracked r d c'.
Proof.
  intros Hi Ht. unfold link. destruct (regs c !! r0) as [x0 |] eqn:Hx0; [| done]. cbn.
  destruct (decide (pc x0 = Linking)) as [Hp0 |]; [| done]. intros [= <-]. apply (tracked_write r d c _ Hi Ht); try done.
  - by apply sets_grow_refl.
  - intros x Hx Hp. exists x. cbn. rewrite lookup_insert_ne by congruence. split; [done |]. split; [apply moved_refl | by left].
  - intros x y Hx _ _ _ Hy Hst. cbn. destruct (decide (Some (key x) = head_of x0)) as [E | E].
    + rewrite <- E, lookup_alter_eq, Hy. exists (set_first (r0 :: first y) y). split; [done |]. split; [done |].
      right. split; [done |]. by left.
    + exists y. rewrite lookup_alter_ne by done. split; [done |]. split; [done |]. right. split; [done |]. by left.
Qed.

Lemma sync_keeps c k g y : stamp (sync c (Some k) g y) = stamp y ∨ first y = [] ∧ detached c (Some k) = false.
Proof.
  unfold sync. destruct (_ && _) eqn:E; [right | by left].
  by apply andb_true_iff in E as [E1%bool_decide_eq_true E2%negb_true_iff].
Qed.

Lemma sync_ordinary c k g y : h_ordinary (sync c k g y) = h_ordinary y.
Proof. unfold sync. by case_match. Qed.

Lemma tracked_capture r d c r0 o k c' : inv c → tracked r d c → capture r0 o k c = Some c' → tracked r d c'.
Proof.
  intros Hi Ht. unfold capture. destruct (_ && _) eqn:E; [| done].
  apply andb_true_iff in E as [[Hn Ho]%new_reg_spec Hk%bool_decide_eq_true].
  destruct (authorities c !! k) as [a |] eqn:Ha; cbn; [| intros [= <-]; apply tracked_put; [done | done | congruence]].
  assert (authority_of c k = a) as Hau by (unfold authority_of; by rewrite Ha).
  destruct (heads c !! Some k) as [y |] eqn:Hy; intros [= <-]; [| apply tracked_put; [done | done | congruence]].
  assert (gen_of c k = generation a) as Hg by (unfold gen_of; by rewrite Hau). rewrite <- Hg.
  apply tracked_put.
  - apply (sync_write c k y (Some (ordinaryDemand a)) Hi Hy). intros d0 [= <-]. by rewrite Hau.
  - apply tracked_head; [done | done |]. intros z Hz. split.
    + destruct (sync_keeps c k (gen_of c k) (set_ordinary (ordinaryDemand a) z)) as [| [? ?]]; [by left | right].
      unfold firsts. by rewrite Hz.
    + right. split; [done |]. rewrite sync_ordinary. by rewrite Hau.
  - cbn. congruence.
Qed.

Lemma tracked_activate r d c r0 c' : inv c → tracked r d c → activate r0 c = Some c' → tracked r d c'.
Proof.
  intros Hi Ht. unfold activate. destruct (regs c !! r0) as [x0 |] eqn:Hx0; [| done]. cbn.
  destruct (decide (pc x0 = Sampled)) as [Hp0 |]; [| done]. rewrite current_gen by done.
  set (c0 := if decide (gen_of c (key x0) = r_generation x0) then c else alter_set (owner x0) invalidate c).
  assert (inv c0) as Hi0 by (unfold c0; case_decide; [done | by apply alter_set_inv]).
  assert (tracked r d c0) as Ht0.
  { unfold c0. case_decide; [done |]. apply (tracked_same r d c); try done. by apply sets_grow_alter. }
  assert (heads c0 = heads c ∧ regs c0 = regs c ∧ (∀ k, gen_of c0 k = gen_of c k)) as (Eh & Er & Eg) by (unfold c0; by case_decide).
  rewrite <- Eg, Eh. destruct (heads c !! Some (key x0)) as [y |] eqn:Hy; intros [= <-].
  - apply tracked_put.
    + apply (sync_write c0 (key x0) y None Hi0); [by rewrite Eh | done].
    + apply tracked_head; [done | done |]. intros z Hz. split; [| left; apply sync_ordinary].
      destruct (sync_keeps c0 (key x0) (gen_of c0 (key x0)) z) as [| [? ?]]; [by left | right].
      unfold firsts. by rewrite Hz.
    + intros x Hx. cbn in Hx. rewrite Er in Hx. congruence.
  - apply tracked_put; [done | done |]. intros x Hx. rewrite Er in Hx. congruence.
Qed.

Lemma tracked_marks r d c r0 c' : inv c → tracked r d c →
  ordinary_demand r0 c = Some c' ∨ consume r0 c = Some c' ∨ retain r0 c = Some c' → tracked r d c'.
Proof.
  intros Hi Ht. unfold ordinary_demand, consume, retain. destruct (regs c !! r0) as [x0 |] eqn:Hx0; cbn; [| by intros [| []]].
  intros [Hs | [Hs | Hs]].
  - destruct (decide _) as [[Hp Hk] |]; [| done].
    set (x1 := mkReg (key x0) (absent x0) (r_generation x0) (owner x0) (consumed x0) (demandOf (view x0)) (view x0) (pc x0)) in *.
    assert (tracked r d (put_reg r0 x1 c)) as Ht1.
    { apply tracked_put; [done | done |]. intros x Hx Hpx. rewrite Hx0 in Hx. injection Hx as <-. split; [| done].
      do 4 (split; [done |]). split; [| by left]. cbn. destruct (decide (ordinary x0 = demandUnread)) as [Hu | Hu].
      - right. split; [done |]. by destruct (view x0).
      - left. by destruct (i_object c Hi r0 x0 Hx0 Hu) as (_ & _ & ->). }
    assert (inv (put_reg r0 x1 c)) as Hi1.
    { apply (mark_inv c r0 x0 x1); try done. intros _. cbn. by destruct (view x0). }
    injection Hs as <-. case_match; [done |]. apply (tracked_same r d _ _ Hi1 Ht1); try done. by apply sets_grow_alter.
  - injection Hs as <-. apply tracked_put; [done | done |]. intros x Hx Hpx. rewrite Hx0 in Hx. injection Hx as <-.
    split; [| done]. do 4 (split; [done |]). split; [by left | by right].
  - destruct (decide _) as [| Hp]; [by injection Hs as <- |]. destruct (absent x0) eqn:Ha; [by injection Hs as <- |].
    injection Hs as <-. apply tracked_head; [done | done |]. intros y _. split; by left.
Qed.

Lemma current_same c c' x : absent x = false → consumed x = false → mirrored c x →
  (∀ h' z, heads c !! h' = Some z → ∃ z', heads c' !! h' = Some z' ∧ stamp z' = stamp z ∧ h_ordinary z' = h_ordinary z) →
  current c' x = current c x.
Proof.
  intros Ha Hc Hm Hh. destruct (Hm Ha) as (y & Hy & _). destruct (Hh _ _ Hy) as (y' & Hy' & Hs & Ho).
  rewrite (current_unfold c x Hc Ha y Hy), (current_unfold c' x Hc Ha y' Hy'), Hs.
  by rewrite (ordinaryCurrent_head c c' x y y').
Qed.

Lemma current_absent c c' x : absent x = true → current c' x = current c x.
Proof. intros Ha. unfold current, ordinaryCurrent. rewrite Ha. by destruct (ordinary x). Qed.

(** Steps of the sweep keep what the heads say. *)
Lemma tracked_sweep r d c c' : inv c → tracked r d c → sets_grow c c' →
  authorities c' = authorities c → regs c' = regs c →
  (∀ h' z, heads c !! h' = Some z → ∃ z', heads c' !! h' = Some z' ∧ stamp z' = stamp z ∧ h_ordinary z' = h_ordinary z) →
  (∀ x s', regs c !! r = Some x → pc x = Linked → listening c x → mirrored c x → current c x = false → owed c r x →
     readSets c' !! owner x = Some s' → retired s' = false → delivered s' = false →
     pending c' (head_of x) = true ∨ seen_later c' r x) →
  tracked r d c'.
Proof.
  intros Hi Ht Hsets Ha Hr Hh Hnext. apply (tracked_dead r d c c' Hi Ht Hsets).
  { intros x Hx _. rewrite Hr. exists x. split; [done | apply moved_refl]. }
  intros x x' s' Hx Hp Hl Ho Hmir How Hx' Hm _ Hc' Hs' Hret Hdel. rewrite Hr, Hx in Hx'. injection Hx' as <-.
  split.
  - intros Hab. destruct (Hmir Hab) as (y & Hy & Hst). destruct (Hh _ _ Hy) as (y' & Hy' & E & _). exists y'.
    split; [done |]. unfold gen_of, authority_of in *. by rewrite E, Ha.
  - assert (current c' x = current c x) as Heq.
    { destruct (absent x) eqn:Hab; [by apply current_absent | by apply current_same]. }
    destruct (current c x) eqn:Hcur; [by left | right]. by apply (Hnext x s').
Qed.

(** What is held and not current is changed, or its head is queued. *)
Lemma held_changed c ch r x : inv c → chain_of c = Some ch → swept ch = head_of x → r ∈ rest ch →
  regs c !! r = Some x → listening c x → mirrored c x → current c x = false →
  changed c ch x = true ∨ pending c (head_of x) = true.
Proof.
  intros Hi Hch Hsh Hin Hx Hl Hmir Hcur. assert (consumed x = false) as Hc by (by destruct Hl). unfold changed.
  destruct (absent x) eqn:Ha.
  - assert (r_generation x ≠ 0%N) as H0.
    { intros H0. unfold current, ordinaryCurrent in Hcur. rewrite Ha, Hc, H0 in Hcur. by destruct (ordinary x). }
    assert (head_of x = None) as Hn by (unfold head_of; by rewrite Ha).
    destruct (i_rest c Hi ch r x Hch Hin Hx Ha) as [Hle | Hp]; [left | right; by rewrite Hn].
    apply andb_true_iff. split; by apply bool_decide_eq_true.
  - destruct (Hmir Ha) as (y & Hy & _). assert (head_of x = Some (key x)) as Hk by (unfold head_of; by rewrite Ha).
    rewrite (current_unfold c x Hc Ha y Hy) in Hcur. apply andb_false_iff in Hcur as [Ho | Hg%bool_decide_eq_false].
    + left. by rewrite Ho, orb_true_r.
    + destruct (i_cutoff c Hi ch Hch) as (y1 & Hy1 & _ & Hs). rewrite Hsh, Hk in Hy1, Hs. rewrite Hy in Hy1. injection Hy1 as <-.
      destruct (Hs ltac:(done)) as [E | Hp]; [left | right; by rewrite Hk].
      apply orb_true_iff. left. apply bool_decide_eq_true. congruence.
Qed.

Lemma tracked_step r d c e c' : inv c → tracked r d c → step c e = Some c' → tracked r d c'.
Proof.
  intros Hi Ht. destruct e; cbn [step]; unfold locked.
  - case_decide as Hn; [| done]. intros [= <-]. apply (tracked_same r d c); try done.
    intros o' s Hs. cbn. rewrite lookup_insert_ne by congruence. eauto.
  - unfold observe. destruct (_ && _) eqn:E; [| done]. apply andb_true_iff in E as [[Hn _]%new_reg_spec _].
    intros [= <-]. apply tracked_put; [done | done | congruence].
  - by apply tracked_capture.
  - by apply tracked_activate.
  - by apply tracked_link.
  - intros Hs. eapply tracked_marks; eauto.
  - intros Hs. eapply tracked_marks; eauto.
  - intros Hs. eapply tracked_marks; eauto.
  - intros [= <-]. apply (tracked_same r d c); try done. by apply sets_grow_alter.
  - intros [= <-]. case_match; [done |]. apply (tracked_same r d c); try done. by apply sets_grow_alter.
  - intros [= <-]. unfold queue_unlocked. case_match; [| done]. apply (tracked_same r d c); try done; [by apply sets_grow_refl |].
    apply queued_same. set_solver.
  - case_decide; [| done]. intros [= <-]. apply (tracked_same r d c); try done; [by apply sets_grow_refl |].
    intros h'. rewrite !pending_spec. cbn. rewrite list_elem_of_filter, elem_of_cons. destruct (decide (h' = h)); naive_solver.
  - case_decide; [| done]. intros [= <-]. by apply tracked_demand.
  - case_decide; [| done]. by apply tracked_advance.
  - case_decide as Hnr; [| done]. unfold publish. intros (c1 & H1 & H2)%bind_Some.
    destruct (_ || _); [| injection H1 as <-; by eapply tracked_advance].
    pose proof (tracked_admit r d c k admission c1 Hi Ht H1) as Ht1.
    destruct (admitAbsence_spec c k admission c1 Hi H1) as (Hi1 & _ & _ & _ & _ & _ & _ & Hr & Ho & _).
    eapply tracked_advance; [exact Hi1 | | exact Ht1 | exact H2]. intros r' x' Hx'. destruct (Ho r' x' Hx') as [x Hx].
    destruct (Hr r' x Hx) as [Hx1 | (_ & _ & _ & g & _ & Hx1)]; rewrite Hx1 in Hx'; injection Hx' as <-; apply (Hnr r' x Hx).
  - destruct (sweep c) eqn:Hs; [| done | done]. intros [= <-]. apply (tracked_sweep r d c); try done; [by apply sets_grow_refl | eauto |].
    intros x s' Hx Hp Hl Hm Hcur [? | [Hpd | (ch & Hch & _)]] _ _ _; [congruence | left | by unfold chain_of in Hch; rewrite Hs in Hch].
    revert Hpd. rewrite !pending_spec, Hs. cbn. naive_solver.
  - destruct (sweep c) as [| [| h hs] d0 |] eqn:Hs; try done. case_decide as Hnr; [| done]. intros Hh.
    destruct (sweep_head_inv h hs d0 c c' Hi Hnr Hs Hh) as (_ & y & Hy & Hch & Hr & Hset & Ha & Hp & _ & Hhd).
    apply (tracked_sweep r d c); try done; [by apply sets_grow_refl |].
    assert (chain_of c = None) as Hno by (unfold chain_of; by rewrite Hs).
    intros x s' Hx Hpc Hl Hm Hcur [? | [Hpd | (ch & Hch' & _)]] _ _ _; [congruence | | congruence].
    destruct (decide (head_of x = h)) as [<- | Hne]; [right | left; by apply Hp].
    eexists. split; [exact Hch |]. split; [done |]. left. cbn. destruct (i_place c Hi r x Hx Hpc Hl) as [Hin | Hin].
    + unfold firsts in Hin. by rewrite Hy in Hin.
    + rewrite Hno in Hin. by apply elem_of_nil in Hin.
  - destruct (sweep c) as [| | hs d0 ch] eqn:Hs; try done. intros Hc.
    destruct (sweep_cell_spec more hs d0 ch c c' Hi Hs Hc) as (_ & Ha & Hh & Hr & Hpu & Hpe & r0 & rs & x0 & s0 & d' & ch' & Hrest & Hx0 & Hs0 & Hs' & (T1 & T2 & T3 & T4 & T5 & T6) & Hcase).
    assert (chain_of c = Some ch ∧ chain_of c' = Some ch') as [Hch Hch'] by (unfold chain_of; by rewrite Hs, Hs').
    assert (∀ h, pending c' h = pending c h) as Hp by (intros h; unfold pending; by rewrite Hpu, Hpe, Hs, Hs').
    apply (tracked_sweep r d c); try done.
    + destruct (_ && negb (delivered s0)).
      * destruct d0; [| by apply sets_grow_refl; destruct Hcase as (_ & ? & _)]. destruct Hcase as (_ & Hrs & _).
        intros o s Hs1. rewrite Hrs. by apply (sets_grow_alter c (owner x0) set_delivered).
      * by apply sets_grow_refl; destruct Hcase as (_ & ? & _).
    + intros h' z Hz. rewrite Hh. eauto.
    + intros x s' Hx Hpc Hl Hm Hcur [? | [Hpd | (ch1 & Hch1 & Hsh & Hin)]] Hsx Hret Hdel; [congruence | left; by rewrite Hp |].
      rewrite Hch in Hch1. injection Hch1 as <-.
      assert (∀ (Hin' : r ∈ rest ch' ∨ r ∈ live ch' ∧ requeue ch' = true), seen_later c' r x) as Hlater.
      { intros Hin'. exists ch'. by rewrite T1. }
      destruct Hin as [Hin | [Hin Hrq]]; [| right; apply Hlater; right; auto].
      rewrite Hrest in Hin. apply elem_of_cons in Hin as [-> | Hin]; [| right; apply Hlater; left; by rewrite T3].
      rewrite Hx0 in Hx. injection Hx as <-.
      destruct (held_changed c ch r0 x0 Hi Hch Hsh ltac:(rewrite Hrest; by left) Hx0 Hl Hm Hcur) as [Hchg | Hpd]; [| left; by rewrite Hp].
      destruct Hl as [Hcons (s1 & Hs1 & Hret1)]. rewrite Hs0 in Hs1. injection Hs1 as <-.
      rewrite Hret1, Hcons, Hchg in Hcase. cbn in Hcase. destruct (delivered s0) eqn:Hd0; cbn in Hcase.
      * destruct Hcase as (_ & Hrs & _). rewrite Hrs, Hs0 in Hsx. injection Hsx as <-. congruence.
      * destruct d0.
        -- destruct Hcase as (_ & Hrs & _). rewrite Hrs, lookup_alter_eq, Hs0 in Hsx. injection Hsx as <-. done.
        -- destruct Hcase as (_ & _ & Hlive & Hrq). right. apply Hlater. by right.
  - destruct (sweep c) as [| | hs d0 ch] eqn:Hs; try done. intros Hc.
    destruct (sweep_end_spec hs d0 ch c c' Hi Hs Hc) as (_ & Ha & Hr & Hset & Hs' & Hrest & _ & Hp & Hq & _ & Hhd).
    apply (tracked_sweep r d c); try done; [by apply sets_grow_refl |].
    intros x s' Hx Hpc Hl Hm Hcur [? | [Hpd | (ch1 & Hch1 & Hsh & Hin)]] _ _ _; left; [congruence | auto |].
    unfold chain_of in Hch1. rewrite Hs in Hch1. injection Hch1 as <-. rewrite <- Hsh.
    destruct Hin as [Hin | [Hin Hrq]]; [rewrite Hrest in Hin; by apply elem_of_nil in Hin |].
    apply Hq; [done |]. intros E. rewrite E in Hin. by apply elem_of_nil in Hin.
  - destruct (sweep c) as [| [|] d0 |] eqn:Hs; try done. intros [= <-].
    apply (tracked_sweep r d c); try done; [by apply sets_grow_refl | eauto |].
    intros x s' Hx Hpc Hl Hm Hcur [? | [Hpd | (ch1 & Hch1 & _)]] _ _ _; left; [congruence | | by unfold chain_of in Hch1; rewrite Hs in Hch1].
    revert Hpd. by rewrite !pending_spec, Hs.
Qed.

Lemma tracked_steps r d c es c' : inv c → tracked r d c → steps c es = Some c' → tracked r d c'.
Proof.
  revert c. induction es as [| e es IH]; intros c Hi Ht; cbn [steps]; [by intros [= <-] |].
  intros (c1 & H1 & H2)%bind_Some. eapply IH; [by eapply shard_step_inv | by eapply tracked_step | exact H2].
Qed.

(** ** The sweep can always finish *)

(** Heads are never forgotten, and only a head is queued. *)
Definition grows (c c' : config) : Prop :=
  (∀ h, is_Some (heads c !! h) → is_Some (heads c' !! h)) ∧
  (∀ h, pending c' h = true → pending c h = true ∨ is_Some (heads c' !! h)).

Definition queued_born (c : config) : Prop := ∀ h, pending c h = true → is_Some (heads c !! h).

Lemma grows_refl c c' : heads c' = heads c → (∀ h, pending c' h = true → pending c h = true) → grows c c'.
Proof. intros Hh Hp. split; [by rewrite Hh | auto]. Qed.

Lemma grows_trans c1 c2 c3 : grows c1 c2 → grows c2 c3 → grows c1 c3.
Proof. intros [H1 P1] [H2 P2]. split; [auto |]. intros h [Hp |]%P2; [| by right]. destruct (P1 h Hp); auto. Qed.

Lemma grows_born c c' : grows c c' → queued_born c → queued_born c'.
Proof. intros [H P] Hq h [Hp |]%P; auto. Qed.

Lemma grows_alter c c' h f : heads c' = alter f h (heads c) → (∀ h', pending c' h' = true → pending c h' = true) → grows c c'.
Proof. intros E Hp. split; [| auto]. intros h'. by rewrite E, lookup_alter_is_Some. Qed.

Lemma grows_queue c h : grows c (queue h c).
Proof.
  unfold queue. destruct (heads c !! h) as [y |] eqn:Hy; [| by apply grows_refl]. case_match; [| by apply grows_refl].
  split; [done |]. intros h'. rewrite !pending_spec. cbn. rewrite elem_of_cons. intros [[-> |] |]; [right; by eexists | auto | auto].
Qed.

Lemma grows_queue_unlocked c h : grows c (queue_unlocked h c).
Proof.
  unfold queue_unlocked. case_match eqn:E; [| by apply grows_refl]. apply andb_true_iff in E as [E%bool_decide_eq_true _].
  split; [done |]. intros h'. rewrite !pending_spec. cbn. rewrite elem_of_cons. intros [[-> |] |]; auto.
Qed.

Lemma grows_advance c k c' : advance k c = Some c' → grows c c'.
Proof.
  unfold advance. case_decide; [done |]. intros [= <-]. eapply grows_trans; [| apply grows_queue].
  eapply grows_trans; [| eapply grows_alter; done]. split.
  - intros h Hh. cbn. destruct (heads c !! Some k); [done |]. cbn. apply lookup_insert_is_Some'. auto.
  - intros h Hp. left. revert Hp. rewrite !pending_spec. cbn. by destruct (heads c !! Some k).
Qed.

Lemma grows_admit_one k adm g c r : grows c (admit_one k adm g c r).
Proof.
  unfold admit_one. case_match; [| by apply grows_refl]. case_match; [| by apply grows_refl].
  eapply grows_trans; [| apply grows_queue]. by apply grows_refl.
Qed.

Lemma grows_admit c k adm c' : admitAbsence k adm c = Some c' → grows c c'.
Proof.
  unfold admitAbsence. destruct (heads c !! None); [| done]. case_match; [intros [= <-]; by apply grows_refl |].
  case_decide; [done |]. intros [= <-]. eapply grows_trans; [by eapply (grows_alter c (alter_head None (set_stamp (stamp r + 1)) c)) |].
  generalize (alter_head None (set_stamp (stamp r + 1)) c). generalize (first r ++ watch c).
  intros rs. induction rs as [| r' rs IH]; intros c0; cbn [foldl]; [by apply grows_refl |].
  eapply grows_trans; [apply grows_admit_one | apply IH].
Qed.

Lemma grows_sweep c e c' : match e with SweepBegin | SweepHead | SweepCell _ | SweepEnd | SweepDone => True | _ => False end →
  step c e = Some c' → grows c c'.
Proof.
  destruct e; cbn [step]; try done; intros _; destruct (sweep c) as [| hs d | hs d ch] eqn:Hs; try done.
  - intros [= <-]. apply grows_refl; [done |]. intros h. rewrite !pending_spec, Hs. cbn. rewrite elem_of_nil. tauto.
  - destruct hs as [| h hs]; [done |]. unfold locked. case_decide; [| done]. unfold sweep_head.
    destruct (heads c !! h); [| done]. intros [= <-]. eapply grows_alter; [done |].
    intros h'. rewrite !pending_spec, Hs. cbn. rewrite elem_of_cons. tauto.
  - unfold sweep_cell. destruct (rest ch) as [| r rs]; [done |]. intros (x & _ & (s & _ & E)%bind_Some)%bind_Some.
    assert (heads c' = heads c ∧ pushing c' = pushing c ∧ pendings c' = pendings c ∧ local_heads (sweep c') = hs) as (E1 & E2 & E3 & E4).
    { repeat case_match; injection E as <-; by repeat split. }
    apply grows_refl; [done |]. intros h. by rewrite !pending_spec, Hs, E2, E3, E4.
  - unfold sweep_end. case_decide; [| done]. case_decide.
    { intros [= <-]. apply grows_refl; [done |]. intros h. by rewrite !pending_spec, Hs. }
    case_decide; [| done]. intros E. eapply grows_trans; [eapply (grows_alter c (set_sweep (Draining hs d)
      (alter_head (swept ch) (λ x, set_first (live ch ++ first x) x) c))); [done |] |].
    { intros h. by rewrite !pending_spec, Hs. }
    destruct (requeue ch); injection E as <-; [apply grows_queue | by apply grows_refl].
  - destruct hs; [| done]. intros [= <-]. apply grows_refl; [done |]. intros h. by rewrite !pending_spec, Hs.
Qed.

Lemma grows_step c e c' : step c e = Some c' → grows c c'.
Proof.
  destruct e; try (by apply grows_sweep); cbn [step]; unfold locked.
  - case_decide; [| done]. intros [= <-]. by apply grows_refl.
  - unfold observe. case_match; [| done]. intros [= <-]. by apply grows_refl.
  - unfold capture. case_match; [| done]. destruct (authorities c !! k); [| intros [= <-]; by apply grows_refl].
    destruct (heads c !! Some k); intros [= <-]; [by eapply grows_alter | by apply grows_refl].
  - unfold activate. destruct (regs c !! r) as [x |]; [| done]. cbn. case_decide; [| done].
    set (c0 := if decide _ then c else _). assert (grows c c0) as H0 by (unfold c0; case_decide; by apply grows_refl).
    intros [= <-]. eapply grows_trans; [exact H0 |].
    destruct (heads c0 !! Some (key x)); [by eapply grows_alter | by apply grows_refl].
  - unfold link. destruct (regs c !! r) as [x |]; [| done]. cbn. case_decide; [| done]. intros [= <-]. by eapply grows_alter.
  - unfold ordinary_demand. destruct (regs c !! r) as [x |]; [| done]. cbn. case_decide; [| done]. intros [= <-].
    case_match; by apply grows_refl.
  - unfold consume. destruct (regs c !! r) as [x |]; [| done]. intros [= <-]. by apply grows_refl.
  - unfold retain. destruct (regs c !! r) as [x |]; [| done]. cbn. intros [= <-].
    case_decide; [by apply grows_refl |]. case_match; [by apply grows_refl | by eapply grows_alter].
  - intros [= <-]. by apply grows_refl.
  - intros [= <-]. case_match; by apply grows_refl.
  - intros [= <-]. apply grows_queue_unlocked.
  - case_decide; [| done]. intros [= <-]. apply grows_refl; [done |]. intros h'. rewrite !pending_spec. cbn.
    rewrite list_elem_of_filter, elem_of_cons. intros [[_ ?] | [[-> |] |]]; auto.
  - case_decide; [| done]. intros [= <-]. unfold set_demand.
    eapply (grows_trans _ (set_authority k (mkAuthority (generation (authority_of c k)) b) c)); [by apply grows_refl |].
    cbn [heads set_authority]. destruct (heads c !! Some k); [| by apply grows_refl].
    eapply grows_trans; [| apply grows_queue]. by eapply grows_alter.
  - case_decide; [| done]. by apply grows_advance.
  - case_decide; [| done]. unfold publish. intros (c1 & H1 & H2)%bind_Some.
    apply (grows_trans _ c1); [| by apply (grows_advance c1 k)].
    destruct (_ || _); [by eapply grows_admit | injection H1 as <-; by apply grows_refl].
Qed.

Lemma run_born es c : steps New es = Some c → queued_born c.
Proof.
  assert (∀ es c0, queued_born c0 → steps c0 es = Some c → queued_born c) as H.
  { clear es. intros es. induction es as [| e es IH]; intros c0 Hq; cbn [steps]; [by intros [= <-] |].
    intros (c1 & H1 & H2)%bind_Some. apply (IH c1); [| done]. by eapply grows_born; [eapply grows_step |]. }
  apply H. intros h Hp. rewrite pending_spec in Hp. cbn in Hp. rewrite !elem_of_nil in Hp. tauto.
Qed.

Lemma grows_steps c es c' : steps c es = Some c' → grows c c'.
Proof.
  revert c. induction es as [| e es IH]; intros c; cbn [steps]; [by intros [= <-]; apply grows_refl |].
  intros (c1 & H1 & H2)%bind_Some. eapply grows_trans; [by eapply grows_step | by apply IH].
Qed.

Definition quiet (c : config) : Prop := c.(sweep) = Idle ∧ c.(pendings) = [] ∧ c.(pushing) = [].

(** The sweep's own steps, with a consumer that keeps listening, and the pushes that are
    under way. *)
Definition sweeps (e : event) : bool :=
  match e with Push _ | SweepBegin | SweepHead | SweepCell true | SweepEnd | SweepDone => true | _ => false end.

Lemma steps_app c es1 es2 c1 : steps c es1 = Some c1 → steps c (es1 ++ es2) = steps c1 es2.
Proof.
  revert c. induction es1 as [| e es1 IH]; intros c; cbn [steps app]; [by intros [= ->] |].
  intros (c' & H1 & H2)%bind_Some. rewrite H1. cbn. by apply IH.
Qed.

(** [c'] is reached by the sweep alone, which changes no registration. *)
Definition swept_to (c c' : config) : Prop :=
  ∃ es, forallb sweeps es = true ∧ steps c es = Some c' ∧ inv c' ∧ regs c' = regs c.

Lemma swept_step c e c1 c' : inv c → sweeps e = true → step c e = Some c1 → regs c1 = regs c →
  swept_to c1 c' → swept_to c c'.
Proof.
  intros Hi He H1 Hr (es & Hes & Hs & Hi' & Hr'). exists (e :: es). cbn. rewrite He, H1. cbn.
  split; [done |]. split; [done |]. split; [done | congruence].
Qed.

Lemma swept_refl c : inv c → swept_to c c.
Proof. intros Hi. by exists []. Qed.

Lemma swept_trans c1 c2 c3 : swept_to c1 c2 → swept_to c2 c3 → swept_to c1 c3.
Proof.
  intros (es1 & E1 & S1 & I1 & R1) (es2 & E2 & S2 & I2 & R2). exists (es1 ++ es2).
  rewrite forallb_app, E1, E2. split; [done |]. split; [by rewrite (steps_app _ _ _ c2) |]. split; [done | congruence].
Qed.

(** While the consumer listens, a sweep queues nothing. *)
Definition leaves_queues (d : bool) (c c' : config) : Prop := d = true → pendings c' = pendings c ∧ pushing c' = pushing c.

Lemma finish_chain n : ∀ c hs d ch, inv c → no_reader c → sweep c = Sweeping hs d ch → length (rest ch) = n →
  ∃ c' d', swept_to c c' ∧ sweep c' = Draining hs d' ∧ (d = true → d' = true) ∧
    leaves_queues (d && negb (requeue ch)) c c'.
Proof.
  induction n as [| n IH]; intros c hs d ch Hi Hnr Hs Hn; destruct (rest ch) as [| r rs] eqn:Hrest; try done.
  - assert (∃ c', step c SweepEnd = Some c') as [c' Hc'].
    { cbn. rewrite Hs. unfold sweep_end. rewrite decide_True by done. destruct (decide _); [by eexists |].
      rewrite decide_True by done. by eexists. }
    pose proof Hc' as Hc''. cbn in Hc'. rewrite Hs in Hc'.
    destruct (sweep_end_spec hs d ch c c' Hi Hs Hc') as (Hi' & _ & Hr & _ & Hs' & _ & Hpe & _ & _ & Hpu & _).
    exists c', d. split; [by apply (swept_step c SweepEnd c'); [| | | | apply swept_refl] |].
    split; [done |]. split; [done |]. intros [-> Hq%negb_true_iff]%andb_true_iff. split; [done | by apply Hpu].
  - assert (chain_of c = Some ch) as Hch by (unfold chain_of; by rewrite Hs).
    destruct (i_linked c Hi (swept ch) r) as (x & Hx & _ & _).
    { right. rewrite Hch. cbn. rewrite decide_True by done. rewrite !elem_of_app, Hrest, elem_of_cons. auto. }
    destruct (i_owner c Hi r x Hx) as [s Hset].
    assert (∃ c1, step c (SweepCell true) = Some c1) as [c1 Hc1].
    { cbn. rewrite Hs. unfold sweep_cell. rewrite Hrest, Hx. cbn. rewrite Hset. cbn. repeat case_match; by eexists. }
    pose proof Hc1 as Hc1'. cbn in Hc1'. rewrite Hs in Hc1'.
    destruct (sweep_cell_spec true hs d ch c c1 Hi Hs Hc1')
      as (Hi1 & _ & _ & Hr1 & Hpu & Hpe & r0 & rs0 & x0 & s0 & d1 & ch1 & Hrest0 & _ & _ & Hs1 & (_ & _ & T3 & _) & Hcase).
    rewrite Hrest in Hrest0. injection Hrest0 as <- <-.
    destruct (IH c1 hs d1 ch1) as (c' & d' & Hsw & Hs' & Hd & Hq); [done | by unfold no_reader; rewrite Hr1 | done | by rewrite T3; injection Hn | ].
    exists c', d'. split; [by apply (swept_step c (SweepCell true) c1) |]. split; [done |].
    assert (d = true → d1 = true ∧ requeue ch1 = requeue ch) as Hd1.
    { intros ->. destruct (_ && _); [by destruct Hcase as (-> & _ & ->) | by destruct Hcase as (-> & _ & ->)]. }
    split; [intros Ht; apply Hd; by apply Hd1 |]. intros [Ht Hq0]%andb_true_iff. destruct (Hd1 Ht) as [-> E].
    destruct Hq as [Q1 Q2]; [by rewrite E |]. split; congruence.
Qed.

Lemma finish_list : ∀ hs c d, inv c → no_reader c → sweep c = Draining hs d →
  (∀ h, h ∈ hs → is_Some (heads c !! h)) →
  ∃ c', swept_to c c' ∧ sweep c' = Idle ∧ leaves_queues d c c'.
Proof.
  induction hs as [| h hs IH]; intros c d Hi Hnr Hs Hhs.
  - assert (step c SweepDone = Some (set_sweep Idle c)) as Hst by (cbn; by rewrite Hs).
    exists (set_sweep Idle c). split; [| by split].
    apply (swept_step c SweepDone (set_sweep Idle c)); try done. by eapply swept_refl, done_inv.
  - destruct (Hhs h ltac:(by left)) as [y Hy].
    assert (∃ c1, step c SweepHead = Some c1) as [c1 Hc1].
    { cbn. rewrite Hs. unfold locked. rewrite decide_True by done. unfold sweep_head. rewrite Hy. by eexists. }
    pose proof Hc1 as Hc1'. cbn in Hc1'. rewrite Hs in Hc1'. unfold locked in Hc1'. rewrite decide_True in Hc1' by done.
    destruct (sweep_head_inv h hs d c c1 Hi Hnr Hs Hc1') as (Hi1 & y1 & _ & Hch & Hr1 & _ & _ & _ & _ & Hhd).
    assert (pendings c1 = pendings c ∧ pushing c1 = pushing c ∧ ∃ ch, sweep c1 = Sweeping hs d ch ∧ requeue ch = false) as (Q1 & Q2 & ch & Hs1 & Hrq).
    { unfold sweep_head in Hc1'. rewrite Hy in Hc1'. injection Hc1' as <-. split; [done |]. split; [done |]. by eexists. }
    destruct (finish_chain _ c1 hs d ch Hi1 ltac:(by unfold no_reader; rewrite Hr1) Hs1 eq_refl) as (c2 & d2 & Hsw & Hs2 & Hd2 & Hq2).
    pose proof Hsw as (es2 & _ & Hst2 & Hi2 & Hr2).
    destruct (IH c2 d2 Hi2) as (c3 & Hsw3 & Hs3 & Hq3); [by unfold no_reader; rewrite Hr2, Hr1 | done | |].
    { intros h' Hh'. apply (grows_steps c1 es2 c2 Hst2). destruct (Hhs h' ltac:(by right)) as [z Hz].
      destruct (Hhd _ _ Hz) as (z1 & Hz1 & _). by exists z1. }
    exists c3. split; [by apply (swept_step c SweepHead c1); [| | | | apply (swept_trans c1 c2 c3)] |]. split; [done |].
    intros ->. rewrite Hrq in Hq2. destruct (Hq2 eq_refl) as [E1 E2]. destruct (Hq3 (Hd2 eq_refl)) as [E3 E4]. split; congruence.
Qed.

Lemma push_all n : ∀ c, inv c → length (pushing c) = n →
  ∃ c', swept_to c c' ∧ sweep c' = sweep c ∧ pushing c' = [].
Proof.
  induction n as [n IH] using lt_wf_ind; intros c Hi Hn. destruct (pushing c) as [| h hs] eqn:Hpu.
  { exists c. split; [by apply swept_refl | by split]. }
  set (c1 := set_pendings (h :: pendings c) (set_pushing (filter (λ h', h' ≠ h) (pushing c)) c)).
  assert (step c (Push h) = Some c1) as Hst by (cbn; rewrite decide_True; [done | rewrite Hpu; by left]).
  destruct (IH (length (pushing c1))) with (c := c1) as (c' & Hsw & Hs & Hp); [| by apply push_inv | done |].
  - cbn. rewrite Hpu, filter_cons_False by (intros []; done). subst n. cbn. apply Nat.lt_succ_r, length_filter.
  - exists c'. split; [by apply (swept_step c (Push h) c1) | by split].
Qed.

Lemma finish_sweep c : inv c → queued_born c → no_reader c → ∃ c', swept_to c c' ∧ sweep c' = Idle.
Proof.
  intros Hi Hq Hnr. destruct (sweep c) as [| hs d | hs d ch] eqn:Hs.
  - exists c. split; [by apply swept_refl | done].
  - destruct (finish_list hs c d Hi Hnr Hs) as (c' & Hsw & Hs' & _); [| by exists c'].
    intros h Hh. apply Hq, pending_spec. rewrite Hs. by do 2 right.
  - destruct (finish_chain _ c hs d ch Hi Hnr Hs eq_refl) as (c1 & d1 & Hsw1 & Hs1 & _).
    pose proof Hsw1 as (es & _ & Hst & Hi1 & Hr1).
    destruct (finish_list hs c1 d1 Hi1) as (c' & Hsw & Hs' & _); [by unfold no_reader; rewrite Hr1 | done | |].
    + intros h Hh. apply (grows_steps c es c1 Hst), Hq, pending_spec. rewrite Hs. by do 2 right.
    + exists c'. split; [by apply (swept_trans c c1 c') | done].
Qed.

(** Claim C39: while no reader holds the lock, the sweep can always come to rest: from any
    reachable state of the shard, steps of the sweep alone - turns of its chains with a
    consumer that listens, and the pushes under way - lead to a state where the sweep is
    idle and nothing is queued.  No head keeps requeueing itself, and no registration is
    lost or changed by it. *)
Theorem sweep_drains es c : steps New es = Some c → no_reader c →
  ∃ es' c', forallb sweeps es' = true ∧ steps c es' = Some c' ∧ quiet c' ∧ regs c' = regs c.
Proof.
  intros Hr Hnr. pose proof (run_inv es c Hr) as Hi. pose proof (run_born es c Hr) as Hq.
  destruct (finish_sweep c Hi Hq Hnr) as (c1 & Hsw1 & Hs1). pose proof Hsw1 as (es1 & _ & Hst1 & Hi1 & Hr1).
  destruct (push_all _ c1 Hi1 eq_refl) as (c2 & Hsw2 & Hs2 & Hp2). pose proof Hsw2 as (es2 & _ & Hst2 & Hi2 & Hr2).
  set (c3 := set_sweep (Draining (pendings c2) true) (set_pendings [] c2)).
  assert (step c2 SweepBegin = Some c3) as Hst3 by (cbn; by rewrite Hs2, Hs1).
  assert (inv c3) as Hi3 by (apply begin_inv; congruence).
  destruct (finish_list (pendings c2) c3 true Hi3) as (c4 & Hsw4 & Hs4 & Hq4); [| done | |].
  { unfold no_reader. cbn. by rewrite Hr2, Hr1. }
  { intros h Hh. assert (queued_born c2) as Hb by (eapply grows_born; [by eapply grows_steps | by eapply grows_born; [eapply grows_steps |]]).
    apply Hb, pending_spec. auto. }
  destruct (swept_trans c c1 c4 Hsw1) as (es' & Hes' & Hst' & _ & Hr').
  { apply (swept_trans c1 c2 c4 Hsw2). by apply (swept_step c2 SweepBegin c3). }
  exists es', c4. destruct (Hq4 eq_refl) as [E1 E2]. split; [done |]. split; [done |]. split; [| done].
  split; [done |]. split; [exact E1 | rewrite E2; exact Hp2].
Qed.

(** ** What executions learn *)

Lemma Valid_current c o r x : Valid c o = true → regs c !! r = Some x → owner x = o → pc x ≠ Sampled →
  is_Some (readSets c !! o) → current c x = true ∧ ∀ s, readSets c !! o = Some s → invalid s = false.
Proof.
  intros Hv Hx Ho Hp [s Hs]. unfold Valid in Hv. rewrite Hs in Hv. apply andb_true_iff in Hv as [Hinv%negb_true_iff Hall].
  split; [| by intros s' [= <-]%(eq_trans (eq_sym Hs))]. rewrite forallb_forall in Hall.
  specialize (Hall (r, x)). cbn in Hall. rewrite !orb_true_iff, !bool_decide_eq_true in Hall.
  destruct Hall as [[|] |]; [| congruence | done | done].
  by apply list_elem_of_In, elem_of_map_to_list.
Qed.


(** Claim C6: no change is lost.  Take an execution with a linked registration that is
    current while the execution's reads are known to be good; whatever happens afterwards,
    once the sweep has come to rest the execution has been told, unless it stopped
    listening, or its registration is current still, under the same demand.  Advances,
    admissions of absent facts, changes of demand, the chain the sweep holds detached, a
    consumer that refuses a delivery and is owed another, and writes made in the middle of
    a sweep are all covered. *)
Theorem changes_delivered es c r x es' c' x' s' : steps New es = Some c →
  regs c !! r = Some x → pc x = Linked → listening c x → current c x = true →
  (∀ s, readSets c !! owner x = Some s → invalid s = false) →
  steps c es' = Some c' → quiet c' → regs c' !! r = Some x' → ordinary x' = ordinary x →
  readSets c' !! owner x' = Some s' → listening c' x' → current c' x' = false → delivered s' = true.
Proof.
  intros Hr Hx Hp Hl Hcur Hinv Hs (Q1 & Q2 & Q3) Hx' Ho' Hs' Hl' Hcur'. pose proof (run_inv es c Hr) as Hi.
  destruct (i_owner c Hi r x Hx) as [s Hset].
  assert (tracked r (ordinary x) c) as Ht.
  { exists x, s. split; [done |]. split; [done |]. split; [done |]. do 4 right. split; [done |]. split; [| by left].
    intros Ha. destruct (i_head c Hi r x Hx) as [y Hy]; [congruence |].
    assert (head_of x = Some (key x)) as Hk by (unfold head_of; by rewrite Ha). rewrite Hk in Hy.
    exists y. split; [done |].
    rewrite (current_unfold c x (proj1 Hl) Ha y Hy) in Hcur. apply andb_true_iff in Hcur as [_ Hst%bool_decide_eq_true].
    destruct (i_told c Hi r x y Hx ltac:(by right) Ha Hy) as [| [Hlt | (_ & s1 & Hs1 & Hinv')]]; [done | lia |].
    by rewrite (Hinv s1 Hs1) in Hinv'. }
  destruct (tracked_steps r (ordinary x) c es' c' Hi Ht Hs) as (x1 & s1 & Hx1 & Hp1 & Hs1 & Hcase).
  rewrite Hx' in Hx1. injection Hx1 as <-. rewrite Hs' in Hs1. injection Hs1 as <-.
  destruct Hl' as [Hc' (s1 & Hs1 & Hret)]. rewrite Hs' in Hs1. injection Hs1 as <-.
  destruct Hcase as [[Hd Hn] | [? | [? | [? | (_ & _ & [? | [Hpd | (ch & Hch & _)]])]]]].
  - by rewrite Ho' in Hn.
  - congruence.
  - congruence.
  - done.
  - congruence.
  - rewrite pending_spec, Q1, Q2, Q3 in Hpd. cbn in Hpd. rewrite !elem_of_nil in Hpd. tauto.
  - unfold chain_of in Hch. by rewrite Q1 in Hch.
Qed.

(** An arrival reaches those that found nothing.  When a write first gives a fact
    an authority, every execution that registered on the fact's absence, or on a listing
    of every name when a bucket changes, and still listens is no longer current, and the
    absence is queued for the sweep; a bucket's own admission alone is left as it was. *)
Theorem arrival es c k adm c' r x : steps New es = Some c → step c (Publish k adm) = Some c' →
  gen_of c k = 0%N ∨ k.2 = bucketFacet →
  regs c !! r = Some x → pc x = Linked → listening c x → absent x = true → r_generation x = 0%N →
  key x = k ∨ k.2 = bucketFacet ∧ (key x).1 = no_resource →
  k.2 ≠ bucketFacet ∨ adm ≠ Some (owner x) →
  ∃ x', regs c' !! r = Some x' ∧ current c' x' = false ∧ pending c' None = true.
Proof.
  intros Hr Hst Hnew Hx Hp Hl Ha Hg Hkey Hadm. pose proof (run_inv es c Hr) as Hi.
  cbn [step] in Hst. unfold locked in Hst. case_decide as Hnr; [| done]. unfold publish in Hst.
  apply bind_Some in Hst as (c1 & H1 & H2). rewrite (proj2 (orb_true_iff _ _)) in H1 by (rewrite !bool_decide_eq_true; exact Hnew).
  assert (in_absence c r) as Hin.
  { assert (head_of x = None) as Hn by (unfold head_of; by rewrite Ha).
    destruct (i_place c Hi r x Hx Hp Hl) as [Hf | Hf]; rewrite Hn in Hf; [by left | right].
    unfold watch, met. unfold held in Hf. destruct (chain_of c) as [ch |]; [| done]. case_decide; [| done].
    revert Hf. rewrite !elem_of_app. tauto. }
  assert (admits k adm x = true) as Hadmits.
  { unfold admits. rewrite !andb_true_iff, !orb_true_iff, !andb_true_iff, !bool_decide_eq_true.
    split; [split |]; [naive_solver | done |]. destruct Hadm; [by left | right; congruence]. }
  destruct (admitAbsence_spec c k adm c1 Hi H1) as (Hi1 & _ & _ & _ & Hpd & _ & _ & Hmay & Hold & Hmust).
  destruct (Hmust r x Hin Hx Hadmits) as (g & Hg0 & Hx1).
  assert (pending c1 None = true) as Hp1.
  { destruct (Hmay r x Hx) as [E |]; [| tauto]. rewrite E in Hx1. injection Hx1 as Ex. rewrite Ex in Hg. cbn in Hg. done. }
  assert (no_reader c1) as Hnr1.
  { intros r' x'' Hx''. destruct (Hold r' x'' Hx'') as [z Hz]. destruct (Hmay r' z Hz) as [E | (_ & _ & _ & g' & _ & E)];
      rewrite E in Hx''; injection Hx'' as <-; apply (Hnr r' z Hz). }
  destruct (advance_spec c1 k c' Hi1 Hnr1 H2) as (_ & _ & _ & _ & Hregs & _ & _ & Hpd' & _).
  exists (set_generation g x). rewrite Hregs. split; [done |]. split; [| by apply Hpd'].
  unfold current. cbn. rewrite Ha, (proj1 Hl), bool_decide_eq_false_2 by done. by rewrite andb_false_r.
Qed.

(** ** Concrete runs *)

Definition key_a : headKey := (mkResource "" "Service" "ns" "a", objectFacet).
Definition bucket_key : headKey := (no_resource, bucketFacet).

(** An execution reads a fact, the fact changes, and the sweep tells the execution. *)
Definition run_read : list event :=
  [Init 0; Publish key_a None; Capture 0 0 key_a; Link 0].
Definition run_told : list event :=
  [Advance key_a; Push (Some key_a); SweepBegin; SweepHead; SweepCell true; SweepEnd; SweepDone].

(** An execution looks for a fact that is not there yet. *)
Definition run_missing : list event := [Init 0; Capture 0 0 key_a; Link 0].

(** A head whose only registration retires while the fact changes twice, and a second
    execution that captures the fact during the sweep of the empty head. *)
Definition run_detached : list event :=
  [Init 0; Init 1; Publish key_a None; Capture 0 0 key_a; Link 0; Retire 0;
   Queue (Some key_a); Push (Some key_a); SweepBegin; SweepHead; Advance key_a; Push (Some key_a);
   SweepCell true; SweepEnd; Advance key_a; SweepDone; SweepBegin; SweepHead;
   Capture 1 1 key_a; Link 1; SweepEnd; SweepDone].

(** What a run leaves of one registration: its state, whether it is current, whether the
    execution's reads are valid and the authority's generation. *)
Definition outcome (es : list event) (r o : nat) : option (registration * readSet * bool * bool * N) :=
  c ← steps New es; x ← regs c !! r; s ← readSets c !! o;
  Some (x, s, current c x, Valid c o, gen_of c (key x)).

Definition state (es : list event) : config := default New (steps New es).
Definition reg_at (es : list event) (r : nat) : registration :=
  default (mkReg key_a true 0 0 true demandUnread false Sampled) (regs (state es) !! r).

(** A run that the model allows reaches its state; this is decided without spelling the
    state out. *)
Lemma state_reached es c es' : steps New es = Some c → bool_decide (is_Some (steps c es')) = true →
  steps c es' = Some (state (es ++ es')).
Proof.
  intros Hs [c' Hc']%bool_decide_eq_true. unfold state. by rewrite (steps_app _ _ _ _ Hs), Hc'.
Qed.

Lemma state_step es c e : steps New es = Some c → bool_decide (is_Some (step c e)) = true →
  step c e = Some (state (es ++ [e])).
Proof.
  intros Hs [c' Hc']%bool_decide_eq_true. unfold state. rewrite (steps_app _ _ _ _ Hs). cbn. by rewrite Hc'.
Qed.

Lemma state_run es : bool_decide (is_Some (steps New es)) = true → steps New es = Some (state es).
Proof. by apply (state_reached []). Qed.

(** A head that is swept empty is not synchronised, so a capture made meanwhile is taken to
    be old: its registration carries the authority's present generation and nothing is
    queued any more, yet the execution's reads are not valid and it is not told. *)
Example detached_head_unsynced :
  quiet (state run_detached) ∧ listening (state run_detached) (reg_at run_detached 1) ∧
  r_generation (reg_at run_detached 1) = gen_of (state run_detached) key_a ∧
  Valid (state run_detached) 1 = false ∧ delivered <$> (readSets (state run_detached) !! 1) = Some false.
Proof.
  split; [split; [by vm_compute |]; split; by vm_compute |].
  split; [split; [by vm_compute |]; eexists; split; by vm_compute |]. split; [by vm_compute |]. split; by vm_compute.
Qed.


Lemma changes_delivered_witness : let c' := state (run_read ++ run_told) in
  delivered (default (mkReadSet false false false) (readSets c' !! 0)) = true.
Proof.
  assert (bool_decide (is_Some (steps New run_read)) = true) as H1 by by vm_compute.
  assert (bool_decide (is_Some (steps (state run_read) run_told)) = true) as H2 by by vm_compute.
  refine (changes_delivered run_read (state run_read) 0 (reg_at run_read 0) run_told (state (run_read ++ run_told))
            (reg_at (run_read ++ run_told) 0)
            (default (mkReadSet false false false) (readSets (state (run_read ++ run_told)) !! 0))
            (state_run run_read H1) _ _ _ _ _ (state_reached run_read _ run_told (state_run run_read H1) H2) _ _ _ _ _ _).
  1-2: by vm_compute.
  - split; [by vm_compute |]. exists (mkReadSet false false false). split; by vm_compute.
  - by vm_compute.
  - intros s Hs. vm_compute in Hs. by injection Hs as <-.
  - split; [by vm_compute |]; split; by vm_compute.
  - by vm_compute.
  - by vm_compute.
  - by vm_compute.
  - split; [by vm_compute |]. exists (mkReadSet true true false). split; by vm_compute.
  - by vm_compute.
Defined.

Lemma arrival_witness : ∃ x', regs (state (run_missing ++ [Publish key_a None])) !! 0 = Some x' ∧
  current (state (run_missing ++ [Publish key_a None])) x' = false ∧
  pending (state (run_missing ++ [Publish key_a None])) None = true.
Proof.
  assert (bool_decide (is_Some (steps New run_missing)) = true) as H1 by by vm_compute.
  assert (bool_decide (is_Some (step (state run_missing) (Publish key_a None))) = true) as H2 by by vm_compute.
  apply (arrival run_missing (state run_missing) key_a None _ 0 (reg_at run_missing 0) (state_run _ H1)
           (state_step _ _ _ (state_run _ H1) H2)).
  - left. by vm_compute. - by vm_compute. - by vm_compute.
  - split; [by vm_compute |]. exists (mkReadSet false false false). split; by vm_compute.
  - by vm_compute. - by vm_compute. - left. by vm_compute. - left. by vm_compute.
Defined.

Lemma sweep_drains_witness : ∃ es' c', forallb sweeps es' = true ∧
  steps (state (run_read ++ [Advance key_a])) es' = Some c' ∧ quiet c' ∧
  regs c' = regs (state (run_read ++ [Advance key_a])).
Proof.
  assert (bool_decide (is_Some (steps New (run_read ++ [Advance key_a]))) = true) as H1 by by vm_compute.
  apply (sweep_drains _ _ (state_run _ H1)).
  apply (bool_decide_unpack (no_reader (state (run_read ++ [Advance key_a])))). by vm_compute.
Defined.
