(* ===== verification/DependencyGraph.v ===== *)
(** * The dependsOn graph (pkg/orchestrator/depgraph.go)

    [dependencyGraph] keeps the same-kind dependsOn edges and, incrementally,
    the set of resources that sit on a dependency cycle, each with the cycle it
    is reported under.  Every operation runs under the graph's mutex for its
    whole body, so an operation is one atomic state transformer; Go's map
    iteration order is the order of [elements], on which no result depends
    except through the sorted traversals, which are modelled as written.

    The abstract specification is [on_cycle]: a from-scratch definition of
    cycle membership.  [graph_ok] states that the cached failures are exactly
    it, and [ReplaceEdges] is shown to preserve it. *)

From S2P Require Import Prelude Resource.

Abbreviation NR := NamedResource (only parsing).

(** A [dependencyCycle] is immutable after publication and the paths of
    distinct cycles are distinct, so the pointer is its path; [None] is the nil
    pointer a freshly marked member holds until it is revalidated. *)
Record dependencyGraph := mkGraph {
  outEdges : gmap NR (gset NR);
  failed : gmap NR (option (list NR));
}.

Definition newDependencyGraph : dependencyGraph := mkGraph ∅ ∅.

(** [outEdges[src]], the empty set when absent. *)
Definition out (oe : gmap NR (gset NR)) (src : NR) : gset NR := default ∅ (oe !! src).

(** [len(g.outEdges[dst]) == 0]. *)
Definition terminal (oe : gmap NR (gset NR)) (dst : NR) : bool := bool_decide (out oe dst = ∅).

Definition edgeSetEqual (oldSet : gset NR) (deps : list NR) : bool :=
  forallb (λ d, bool_decide (d ∈ oldSet)) deps &&
  forallb (λ k, bool_decide (k ∈ deps)) (elements oldSet).

Definition sortedNeighbors (edges : gset NR) : list NR := sort_by compare (elements edges).

(** ** Does a new edge of [id] close a cycle? *)

(** The seeding loop over [outEdges[id]]; [None] is the early [return true]. *)
Fixpoint seed_new (oe : gmap NR (gset NR)) (id : NR) (oldSet : gset NR) (dsts : list NR)
    (seen : gset NR) (queue : list NR) : option (gset NR * list NR) :=
  match dsts with
  | [] => Some (seen, queue)
  | dst :: rest =>
      if bool_decide (dst ∈ oldSet) || terminal oe dst then seed_new oe id oldSet rest seen queue
      else if bool_decide (dst = id) then None
      else seed_new oe id oldSet rest ({[dst]} ∪ seen) (queue ++ [dst])
  end.

(** The inner loop over the edges of one queued node. *)
Fixpoint scan_edges (oe : gmap NR (gset NR)) (id : NR) (dsts : list NR)
    (seen : gset NR) (queue : list NR) : option (gset NR * list NR) :=
  match dsts with
  | [] => Some (seen, queue)
  | dst :: rest =>
      if bool_decide (dst = id) then None
      else if bool_decide (dst ∉ seen) && negb (terminal oe dst)
      then scan_edges oe id rest ({[dst]} ∪ seen) (queue ++ [dst])
      else scan_edges oe id rest seen queue
  end.

(** One turn of the breadth-first loop; the queue is the part still ahead. *)
Definition closes_step (oe : gmap NR (gset NR)) (id : NR) (s : gset NR * list NR)
    : gset NR * list NR + bool :=
  match s.2 with
  | [] => inr false
  | src :: rest =>
      match scan_edges oe id (elements (out oe src)) s.1 rest with
      | None => inr true
      | Some s' => inl s'
      end
  end.

Definition closesCycleLocked (oe : gmap NR (gset NR)) (id : NR) (oldSet : gset NR) : bool :=
  match seed_new oe id oldSet (elements (out oe id)) ∅ [] with
  | None => true
  | Some s => default false (loop (closes_step oe id) (size oe + size oe) s)
  end.

(** ** Marking the members of the cycles through [id] *)

Record forward := mkForward {
  incoming : gmap NR (list NR);
  reachable : gset NR;
  fqueue : list NR;
}.

(** The inner loop over the edges of [src]. *)
Definition forward_edge (oe : gmap NR (gset NR)) (src : NR) (f : forward) (dst : NR) : forward :=
  if terminal oe dst then f
  else
    let incoming' := <[dst := default [] (f.(incoming) !! dst) ++ [src]]> f.(incoming) in
    if bool_decide (dst ∈ f.(reachable)) then mkForward incoming' f.(reachable) f.(fqueue)
    else mkForward incoming' ({[dst]} ∪ f.(reachable)) (f.(fqueue) ++ [dst]).

Definition forward_step (oe : gmap NR (gset NR)) (f : forward) : forward + forward :=
  match f.(fqueue) with
  | [] => inr f
  | src :: rest =>
      inl (foldl (forward_edge oe src) (mkForward f.(incoming) f.(reachable) rest)
             (elements (out oe src)))
  end.

(** The backward loop: mark, enqueue the reverse edges, consume them. *)
Definition backward_step
    (s : gmap NR (option (list NR)) * gmap NR (list NR) * list NR)
    : gmap NR (option (list NR)) * gmap NR (list NR) * list NR + gmap NR (option (list NR)) :=
  let '(fl, inc, queue) := s in
  match queue with
  | [] => inr fl
  | member :: rest =>
      inl (<[member := None]> fl, delete member inc, rest ++ default [] (inc !! member))
  end.

(** The number of reverse edges, which bounds the backward loop. *)
Definition reverse_edges (inc : gmap NR (list NR)) : nat :=
  map_fold (λ _ l n, length l + n) 0 inc.

Definition markCycleMembersLocked (g : dependencyGraph) (id : NR) : dependencyGraph :=
  let f := default (mkForward ∅ {[id]} [])
             (loop (forward_step g.(outEdges)) (size g.(outEdges) + 1)
                (mkForward ∅ {[id]} [id])) in
  mkGraph g.(outEdges)
    (default g.(failed)
       (loop backward_step (reverse_edges f.(incoming) + 1)
          (g.(failed), f.(incoming), [id]))).

(** ** The sorted depth-first path search *)

(** A frame is a node and the children it has not tried yet. *)
Record dfs := mkDfs { visited : gset NR; stack : list (NR * list NR) }.

Definition dfs_step (oe : gmap NR (gset NR)) (start target : NR) (s : dfs)
    : dfs + option (list NR) :=
  match s.(stack) with
  | [] => inr None
  | (_, []) :: below => inl (mkDfs s.(visited) below)
  | (n, next :: children) :: below =>
      let stack' := (n, children) :: below in
      if bool_decide (next = target) then inr (Some (reverse (stack'.*1) ++ [target]))
      else if bool_decide (next ∈ s.(visited)) || bool_decide (next = start)
      then inl (mkDfs s.(visited) stack')
      else inl (mkDfs ({[next]} ∪ s.(visited)) ((next, sortedNeighbors (out oe next)) :: stack'))
  end.

Definition findPathLocked (oe : gmap NR (gset NR)) (start target : NR) : option (list NR) :=
  default None
    (loop (dfs_step oe start target) (2 * weight oe + 2)
       (mkDfs ∅ [(start, sortedNeighbors (out oe start))])).

(** ** Revalidation *)

(** [slices.MinFunc] and [slices.Index] on a non-empty path. *)
Definition min_member (path : list NR) : NR :=
  match sort_by compare path with [] => no_resource | m :: _ => m end.

Definition index_of (x : NR) (path : list NR) : nat :=
  default 0 (list_find (x =.) path ≫= λ p, Some p.1).

(** [slices.Concat(path[first:len(path)-1], path[:first+1])]. *)
Definition rotate_cycle (path : list NR) : list NR :=
  let first := index_of (min_member path) path in
  drop first (take (length path - 1) path) ++ take (first + 1) path.

(** One member of the found path. *)
Definition label_member (cycle : list NR)
    (s : gset NR * gmap NR (option (list NR))) (member : NR)
    : gset NR * gmap NR (option (list NR)) :=
  if bool_decide (member ∈ s.1) then s
  else ({[member]} ∪ s.1, <[member := Some cycle]> s.2).

(** One turn of the loop over the sorted failed keys. *)
Definition revalidate_one (oe : gmap NR (gset NR))
    (s : gset NR * gmap NR (option (list NR))) (id : NR)
    : gset NR * gmap NR (option (list NR)) :=
  if bool_decide (id ∈ s.1) then s
  else match findPathLocked oe id id with
       | None => (s.1, delete id s.2)
       | Some path => foldl (label_member (rotate_cycle path)) s path
       end.

Definition revalidateFailedLocked (g : dependencyGraph) : dependencyGraph :=
  mkGraph g.(outEdges)
    (foldl (revalidate_one g.(outEdges)) (∅, g.(failed))
       (sort_by compare (elements (dom g.(failed))))).2.

(** ** The exported operations *)

Definition ReplaceEdges (g : dependencyGraph) (id : NR) (deps : list NR) : dependencyGraph :=
  let oldSet := out g.(outEdges) id in
  if edgeSetEqual oldSet deps then g
  else
    let newSet : gset NR := list_to_set deps in
    let oe := if bool_decide (size newSet = 0) then delete id g.(outEdges)
              else <[id := newSet]> g.(outEdges) in
    let g := mkGraph oe g.(failed) in
    let removed := existsb (λ dst, bool_decide (dst ∉ newSet)) (elements oldSet) in
    let found := closesCycleLocked oe id oldSet in
    let g := if found then markCycleMembersLocked g id else g in
    if bool_decide (size g.(failed) ≠ 0) && (removed || found)
    then revalidateFailedLocked g else g.

Definition Failures (g : dependencyGraph) : gmap NR (option (list NR)) := g.(failed).

(** ** The abstract graph *)

Section graph.
Context (oe : gmap NR (gset NR)).

Definition edge (a b : NR) : Prop := b ∈ out oe a.

(** The specification of cycle membership. *)
Definition on_cycle (n : NR) : Prop := tc edge n n.

Lemma terminal_false dst : terminal oe dst = false ↔ ∃ x, edge dst x.
Proof.
  unfold terminal, edge. rewrite bool_decide_eq_false.
  split; [apply set_choose_L | intros [x Hx] He]. rewrite He in Hx. set_solver.
Qed.

Lemma terminal_true dst : terminal oe dst = true ↔ ∀ x, ¬ edge dst x.
Proof. unfold terminal, edge. rewrite bool_decide_eq_true. set_solver. Qed.

Lemma nonterminal_dom dst : terminal oe dst = false → dst ∈ dom oe.
Proof.
  rewrite terminal_false. intros [x Hx]. unfold edge, out in Hx.
  apply elem_of_dom. destruct (oe !! dst); [eauto | set_solver].
Qed.

(** Reaching a node by at least one edge makes the source non-terminal. *)
Lemma rtc_nonterminal a b : rtc edge a b → a ≠ b → terminal oe a = false.
Proof. intros Hr Hne. destruct Hr as [|x y z Hxy _]; [done|]. apply terminal_false. eauto. Qed.

(** A set that keeps every non-terminal successor and has no edge to [id] never
    reaches [id]. *)
Lemma closed_avoids (S : gset NR) (id : NR) :
  (∀ x y, x ∈ S → edge x y → y ≠ id ∧ (terminal oe y = false → y ∈ S)) →
  ∀ x, x ∈ S → x ≠ id → ¬ rtc edge x id.
Proof.
  intros Hcl x Hx Hne Hr. revert Hx Hne.
  induction Hr as [|x y z Hxy Hyz IH]; intros Hx Hne; [done|].
  destruct (Hcl _ _ Hx Hxy) as [Hy HS]. apply IH; [done| |done].
  apply HS. by eapply rtc_nonterminal.
Qed.

(** The keys not seen yet: the measure of the breadth-first loops. *)
Definition unseen (seen : gset NR) : nat := size (dom oe ∖ seen).

Lemma unseen_push dst seen :
  terminal oe dst = false → dst ∉ seen → S (unseen ({[dst]} ∪ seen)) = unseen seen.
Proof.
  intros Ht Hs. apply size_difference_push; [by apply nonterminal_dom | done].
Qed.

Lemma unseen_le seen : unseen seen ≤ size oe.
Proof. unfold unseen. rewrite <-size_dom. apply subseteq_size. set_solver. Qed.

(** *** Breadth-first search for a closing edge *)

Lemma seed_new_spec id old dsts seen queue :
  match seed_new oe id old dsts seen queue with
  | None => id ∈ dsts ∧ id ∉ old
  | Some (seen', queue') =>
      ∃ new, queue' = queue ++ new ∧ seen' = list_to_set new ∪ seen ∧
        (∀ x, x ∈ new ↔ x ∈ dsts ∧ x ∉ old ∧ terminal oe x = false) ∧ id ∉ new ∧
        (NoDup dsts → NoDup new)
  end.
Proof.
  revert seen queue. induction dsts as [|d dsts IH]; intros seen queue; simpl.
  { exists []. rewrite (right_id_L [] (++)). split_and!; try set_solver; try constructor. }
  destruct (bool_decide_reflect (d ∈ old)); simpl.
  { specialize (IH seen queue). case_match; [|set_solver]. destruct p as [seen' queue'].
    destruct IH as (new & -> & -> & Hnew & Hid & Hnd). exists new. split_and!; try done.
    - intros x. rewrite Hnew, elem_of_cons. prop_solve.
    - intros [_ ?]%NoDup_cons. auto. }
  destruct (terminal oe d) eqn:Et.
  { specialize (IH seen queue). case_match; [|set_solver]. destruct p as [seen' queue'].
    destruct IH as (new & -> & -> & Hnew & Hid & Hnd). exists new. split_and!; try done.
    - intros x. rewrite Hnew, elem_of_cons. prop_solve.
    - intros [_ ?]%NoDup_cons. auto. }
  case_bool_decide; [subst; set_solver|].
  specialize (IH ({[d]} ∪ seen) (queue ++ [d])). case_match; [|set_solver].
  destruct p as [seen' queue']. destruct IH as (new & -> & -> & Hnew & Hid & Hnd).
  exists (d :: new). split_and!.
  - by rewrite <-(assoc_L (++)).
  - simpl. by rewrite (assoc_L (∪)), (comm_L (∪) (list_to_set new)).
  - intros x. rewrite !elem_of_cons, Hnew. prop_solve.
  - rewrite elem_of_cons. prop_solve.
  - intros [Hd ?]%NoDup_cons. apply NoDup_cons. split; [|auto]. rewrite Hnew. prop_solve.
Qed.

Lemma scan_edges_spec id dsts seen queue :
  match scan_edges oe id dsts seen queue with
  | None => id ∈ dsts
  | Some (seen', queue') =>
      id ∉ dsts ∧ seen ⊆ seen' ∧
      (∃ new, queue' = queue ++ new ∧ seen' = list_to_set new ∪ seen ∧
        (∀ x, x ∈ new → x ∈ dsts ∧ x ≠ id) ∧
        unseen seen' + length new = unseen seen) ∧
      (∀ x, x ∈ dsts → terminal oe x = false → x ∈ seen')
  end.
Proof.
  revert seen queue. induction dsts as [|d dsts IH]; intros seen queue; simpl.
  { split_and!; try done; [set_solver| |set_solver]. exists [].
    rewrite (right_id_L [] (++)). split_and!; try set_solver; simpl; try lia. }
  case_bool_decide; [subst; set_solver|].
  destruct (bool_decide (d ∉ seen) && negb (terminal oe d)) eqn:Ec.
  - bool_to_prop. specialize (IH ({[d]} ∪ seen) (queue ++ [d])).
    case_match; [|set_solver]. destruct p as [seen' queue'].
    destruct IH as (Hid & Hsub & (new & -> & -> & Hnew & Hmu) & Hcl). split_and!.
    + rewrite elem_of_cons. prop_solve.
    + set_solver.
    + exists (d :: new). split_and!.
      * by rewrite <-(assoc_L (++)).
      * simpl. by rewrite (assoc_L (∪)), (comm_L (∪) (list_to_set new)).
      * intros x [->|Hx]%elem_of_cons; [split; [left|done]|].
        destruct (Hnew x Hx). split; [by right|done].
      * rewrite <-(unseen_push d seen) by done. simpl. lia.
    + intros x [->|Hx]%elem_of_cons; [set_solver|auto].
  - specialize (IH seen queue). case_match; [|by right]. destruct p as [seen' queue'].
    destruct IH as (Hid & Hsub & (new & -> & -> & Hnew & Hmu) & Hcl). split_and!.
    + rewrite elem_of_cons. prop_solve.
    + set_solver.
    + exists new. split_and!; try done.
      intros x Hx. destruct (Hnew x Hx). split; [by right|done].
    + intros x [->|Hx]%elem_of_cons Ht; [|auto].
      rewrite Ht, andb_true_r in Ec. bool_to_prop. apply Hsub. by destruct (decide (d ∈ seen)).
Qed.

Section closes.
Context (id : NR) (old : gset NR).

(** The invariant of the breadth-first loop: everything seen is reachable by a
    new edge of [id], and everything seen and no longer queued is expanded. *)
Definition closes_inv (s : gset NR * list NR) : Prop :=
  (∀ x, x ∈ s.1 → x ≠ id ∧ ∃ d, edge id d ∧ d ∉ old ∧ rtc edge d x) ∧
  (∀ x, x ∈ s.2 → x ∈ s.1) ∧
  (∀ x y, x ∈ s.1 → x ∉ s.2 → edge x y → y ≠ id ∧ (terminal oe y = false → y ∈ s.1)) ∧
  (∀ d, edge id d → d ∉ old → d ≠ id ∧ (terminal oe d = false → d ∈ s.1)).

Definition closes_spec : Prop := ∃ d, edge id d ∧ d ∉ old ∧ rtc edge d id.

Lemma closes_step_inl s s' :
  closes_inv s → closes_step oe id s = inl s' →
  closes_inv s' ∧ unseen s'.1 + length s'.2 < unseen s.1 + length s.2.
Proof.
  destruct s as [seen [|src rest]]; [done|]. unfold closes_step; simpl.
  intros (Hreach & Hq & Hcl & Hnewd) Hs.
  pose proof (scan_edges_spec id (elements (out oe src)) seen rest) as Hscan.
  destruct (scan_edges _ _ _ _ _) as [[seen' q']|]; [|done]. injection Hs as <-. simpl.
  destruct Hscan as (Hid & Hsub & (new & -> & -> & Hnew & Hmu) & Hterm).
  assert (src ∈ seen) as Hsrc by (apply Hq; left).
  split; [split_and!; simpl|].
  - intros x [Hx|Hx]%elem_of_union; [|auto]. rewrite elem_of_list_to_set in Hx.
    destruct (Hnew x Hx) as [Hex Hne]. split; [done|].
    destruct (Hreach src Hsrc) as (_ & d & ? & ? & ?). exists d. split_and!; [done..|].
    eapply rtc_r; [done|]. by apply elem_of_elements in Hex.
  - intros x [Hx|Hx]%elem_of_app; apply elem_of_union; [right | left].
    + apply Hq. by right.
    + by rewrite elem_of_list_to_set.
  - intros x y Hx Hnq Hxy. rewrite elem_of_app in Hnq. destruct (decide (x = src)) as [->|Hne].
    + assert (y ∈ elements (out oe src)) as Hy by by apply elem_of_elements.
      split; [by intros ->|auto].
    + apply elem_of_union in Hx as [Hx|Hx].
      { rewrite elem_of_list_to_set in Hx. prop_solve. }
      destruct (Hcl x y) as [? Hin]; [done| |done|].
      { simpl. rewrite elem_of_cons. prop_solve. }
      split; [done|]. intros Ht. apply elem_of_union. right. auto.
  - intros d Hd Hnold. destruct (Hnewd d Hd Hnold) as [? Hin]. split; [done|].
    intros Ht. apply elem_of_union. right. auto.
  - rewrite length_app. lia.
Qed.

Lemma closes_step_inr s r :
  closes_inv s → closes_step oe id s = inr r → r = true ↔ closes_spec.
Proof.
  destruct s as [seen queue]. intros (Hreach & Hq & Hcl & Hnewd). unfold closes_step; simpl.
  destruct queue as [|src rest].
  - intros [= <-]. split; [done|]. intros (d & Hd & Hnold & Hr). exfalso.
    destruct (Hnewd d Hd Hnold) as [Hne Hin].
    eapply (closed_avoids seen id); [ |apply Hin; by eapply rtc_nonterminal|done|done].
    intros x y Hx. apply Hcl; [done|]. apply not_elem_of_nil.
  - pose proof (scan_edges_spec id (elements (out oe src)) seen rest) as Hscan.
    destruct (scan_edges _ _ _ _ _) as [[seen' q']|]; [done|]. intros [= <-].
    split; [intros _|done]. destruct (Hreach src) as (_ & d & ? & ? & ?); [apply Hq; left|].
    exists d. split_and!; [done..|]. eapply rtc_r; [done|]. by apply elem_of_elements in Hscan.
Qed.

(** The breadth-first search terminates and decides whether a new edge closes a cycle. *)
Lemma closesCycleLocked_spec : closesCycleLocked oe id old = true ↔ closes_spec.
Proof.
  unfold closesCycleLocked.
  pose proof (seed_new_spec id old (elements (out oe id)) ∅ []) as Hseed.
  destruct (seed_new _ _ _ _ _ _) as [[seen queue]|].
  - destruct Hseed as (new & -> & -> & Hnew & Hid & Hnd). simpl.
    destruct (loop_spec (closes_step oe id) closes_inv (λ s, unseen s.1 + length s.2)
      (λ r, r = true ↔ closes_spec) (size oe + size oe) (list_to_set new ∪ ∅, new))
      as (r & -> & Hr); simpl; try done.
    + apply closes_step_inl.
    + apply closes_step_inr.
    + split_and!; simpl.
      * intros x. rewrite (right_id_L ∅ (∪)), elem_of_list_to_set. intros Hx.
        split; [by intros ->|]. apply Hnew in Hx as (Hx & ? & ?).
        exists x. split_and!; [by apply elem_of_elements in Hx|done|done].
      * intros x Hx. set_solver.
      * intros x y. rewrite (right_id_L ∅ (∪)), elem_of_list_to_set. done.
      * intros d Hd Hnold. split.
        { intros ->. apply Hid, Hnew. split_and!; [by apply elem_of_elements|done|].
          apply terminal_false. eauto. }
        intros Ht. rewrite (right_id_L ∅ (∪)), elem_of_list_to_set. apply Hnew.
        split_and!; [by apply elem_of_elements|done|done].
    + pose proof (unseen_le (list_to_set new ∪ ∅)).
      assert (length new ≤ size oe); [|lia].
      rewrite <-(size_list_to_set (C:=gset NR)) by apply Hnd, NoDup_elements.
      rewrite <-size_dom. apply subseteq_size. intros x. rewrite elem_of_list_to_set.
      intros (_ & _ & Ht)%Hnew. by apply nonterminal_dom.
  - destruct Hseed as [Hid Hnold]. split; [intros _|done].
    exists id. split_and!; [by apply elem_of_elements in Hid|done|done].
Qed.

End closes.

(** *** Marking *)

Definition sources (inc : gmap NR (list NR)) (y : NR) : list NR := default [] (inc !! y).

Lemma forward_edges_spec src dsts f :
  let f' := foldl (forward_edge oe src) f dsts in
  (∃ new, f'.(reachable) = list_to_set new ∪ f.(reachable) ∧ f'.(fqueue) = f.(fqueue) ++ new ∧
     (∀ x, x ∈ new → x ∈ dsts)) ∧
  unseen f'.(reachable) + length f'.(fqueue) = unseen f.(reachable) + length f.(fqueue) ∧
  (∀ y s, s ∈ sources f.(incoming) y → s ∈ sources f'.(incoming) y) ∧
  (∀ y s, s ∈ sources f'.(incoming) y → s ∈ sources f.(incoming) y ∨ s = src ∧ y ∈ dsts) ∧
  (∀ y, y ∈ dsts → terminal oe y = false → y ∈ f'.(reachable) ∧ src ∈ sources f'.(incoming) y).
Proof.
  revert f. induction dsts as [|d dsts IH]; intros f; simpl.
  { split_and!; try set_solver; try lia. exists []. rewrite (right_id_L [] (++)).
    split_and!; set_solver. }
  specialize (IH (forward_edge oe src f d)); simpl in IH.
  assert (∀ y, sources (forward_edge oe src f d).(incoming) y =
    sources f.(incoming) y ++ (if bool_decide (y = d) && negb (terminal oe d) then [src] else [])) as Hsrc.
  { intros y. unfold forward_edge, sources. destruct (terminal oe d); simpl.
    { by rewrite andb_false_r, (right_id_L [] (++)). }
    rewrite andb_true_r. destruct (decide (y = d)) as [->|Hne].
    - rewrite (bool_decide_eq_true_2 (d = d)) by done.
      case_bool_decide; simpl; by rewrite lookup_insert_eq.
    - rewrite (bool_decide_eq_false_2 (y = d)), (right_id_L [] (++)) by done.
      case_bool_decide; simpl; by rewrite lookup_insert_ne. }
  destruct IH as ((new & Hr & Hq & Hnew) & Hmu & Hkeep & Honly & Hall).
  assert (∃ new0, (forward_edge oe src f d).(reachable) = list_to_set new0 ∪ f.(reachable) ∧
    (forward_edge oe src f d).(fqueue) = f.(fqueue) ++ new0 ∧ (∀ x, x ∈ new0 → x = d) ∧
    unseen (forward_edge oe src f d).(reachable) + length (forward_edge oe src f d).(fqueue)
      = unseen f.(reachable) + length f.(fqueue) ∧
    (terminal oe d = false → d ∈ (forward_edge oe src f d).(reachable)))
    as (new0 & Hr0 & Hq0 & Hnew0 & Hmu0 & Hd0).
  { unfold forward_edge. destruct (terminal oe d) eqn:Et.
    { exists []. simpl. rewrite (left_id_L ∅ (∪)), (right_id_L [] (++)).
      split_and!; try done. by intros ? ?%not_elem_of_nil. }
    case_bool_decide as Hdr; simpl.
    - exists []. simpl. rewrite (left_id_L ∅ (∪)), (right_id_L [] (++)).
      split_and!; try done. by intros ? ?%not_elem_of_nil.
    - exists [d]. simpl. rewrite (right_id_L ∅ (∪)), length_app. simpl. split_and!; try done.
      + by intros x ?%list_elem_of_singleton.
      + pose proof (unseen_push d f.(reachable) Et Hdr). lia.
      + intros _. set_solver. }
  split_and!.
  - exists (new0 ++ new). rewrite list_to_set_app_L, Hr, Hq, Hr0, Hq0, (assoc_L (++)). split_and!; [|done|].
    + clear. set_solver.
    + intros x [->%Hnew0|?%Hnew]%elem_of_app; [left|by right].
  - lia.
  - intros y s Hs. apply Hkeep. rewrite Hsrc. apply elem_of_app. by left.
  - intros y s [Hs|[-> Hy]]%Honly.
    + rewrite Hsrc in Hs. apply elem_of_app in Hs as [Hs|Hs]; [by left|]. right.
      case_match eqn:Ec; [|by apply not_elem_of_nil in Hs]. bool_to_prop. subst.
      apply list_elem_of_singleton in Hs. split; [done|left].
    + right. split; [done|by right].
  - intros y [->|Hy]%elem_of_cons Ht; [|auto]. split.
    + rewrite Hr. apply elem_of_union. right. auto.
    + apply Hkeep. rewrite Hsrc, bool_decide_eq_true_2, Ht by done.
      apply elem_of_app. right. by apply list_elem_of_singleton.
Qed.

Definition forward_inv (id : NR) (f : forward) : Prop :=
  id ∈ f.(reachable) ∧
  (∀ x, x ∈ f.(reachable) → rtc edge id x) ∧
  (∀ x, x ∈ f.(fqueue) → x ∈ f.(reachable)) ∧
  (∀ y s, s ∈ sources f.(incoming) y → s ∈ f.(reachable) ∧ edge s y) ∧
  (∀ x y, x ∈ f.(reachable) → x ∉ f.(fqueue) → edge x y → terminal oe y = false →
     y ∈ f.(reachable) ∧ x ∈ sources f.(incoming) y).

Lemma forward_step_inl id f f' :
  forward_inv id f → forward_step oe f = inl f' →
  forward_inv id f' ∧
  unseen f'.(reachable) + length f'.(fqueue) < unseen f.(reachable) + length f.(fqueue).
Proof.
  destruct f as [inc re [|src rest]]; [done|]. unfold forward_step; simpl.
  intros (Hid & Hreach & Hq & Hinc & Hcl) [= <-]. simpl in *.
  pose proof (forward_edges_spec src (elements (out oe src)) (mkForward inc re rest)) as Hs.
  simpl in Hs. destruct (foldl _ _ _) as [inc' re' q']; simpl in *.
  destruct Hs as ((new & -> & -> & Hnew) & Hmu & Hkeep & Honly & Hall).
  assert (src ∈ re) as Hsrc by (apply Hq; left).
  split; [split_and!; simpl|lia].
  - apply elem_of_union. by right.
  - intros x [Hx|Hx]%elem_of_union; [|auto]. rewrite elem_of_list_to_set in Hx.
    eapply rtc_r; [by apply Hreach|]. apply Hnew in Hx. by apply elem_of_elements in Hx.
  - intros x [Hx|Hx]%elem_of_app; apply elem_of_union.
    + right. apply Hq. by right.
    + left. by rewrite elem_of_list_to_set.
  - intros y s [Hs|[-> Hy]]%Honly.
    + destruct (Hinc y s Hs). split; [|done]. apply elem_of_union. by right.
    + split; [apply elem_of_union; by right|]. by apply elem_of_elements in Hy.
  - intros x y Hx Hnq Hxy Ht. rewrite elem_of_app in Hnq. destruct (decide (x = src)) as [->|Hne].
    + apply Hall; [|done]. by apply elem_of_elements.
    + apply elem_of_union in Hx as [Hx|Hx].
      { rewrite elem_of_list_to_set in Hx. prop_solve. }
      destruct (Hcl x y) as [? Hin]; [done| |done|done|].
      { rewrite elem_of_cons. prop_solve. }
      split; [apply elem_of_union; by right|]. auto.
Qed.

(** The forward pass terminates; what it leaves is closed under non-terminal edges. *)
Lemma forward_spec id :
  ∃ f, loop (forward_step oe) (size oe + 1) (mkForward ∅ {[id]} [id]) = Some f ∧
    forward_inv id f ∧ f.(fqueue) = [].
Proof.
  apply (loop_spec _ (forward_inv id) (λ f, unseen f.(reachable) + length f.(fqueue))).
  - apply forward_step_inl.
  - intros [inc re [|src rest]] r HI; [|done]. by intros [= <-].
  - split_and!; simpl.
    + set_solver.
    + intros x ->%elem_of_singleton. constructor.
    + intros x ->%list_elem_of_singleton. set_solver.
    + intros y s. unfold sources. rewrite lookup_empty. by intros ?%not_elem_of_nil.
    + intros x y ->%elem_of_singleton []. by apply list_elem_of_singleton.
  - simpl. pose proof (unseen_le {[id]}). lia.
Qed.

Lemma reverse_edges_delete (inc : gmap NR (list NR)) k :
  reverse_edges inc = length (sources inc k) + reverse_edges (delete k inc).
Proof.
  unfold sources. destruct (inc !! k) as [l|] eqn:E; simpl.
  - unfold reverse_edges.
    apply (map_fold_delete_L (λ _ l n, length l + n) 0 k l inc); [|done]. intros. lia.
  - by rewrite delete_id.
Qed.

Section backward.
Context (id : NR) (inc0 : gmap NR (list NR)) (fl0 : gmap NR (option (list NR))) (R : NR → Prop).
Context (Hinc0 : ∀ y s, s ∈ sources inc0 y → R s ∧ edge s y).

(** The invariant of the backward loop; [M] is the set marked so far. *)
Definition backward_inv
    (s : gmap NR (option (list NR)) * gmap NR (list NR) * list NR) : Prop :=
  let '(fl, inc, queue) := s in
  ∃ M : gset NR,
    (∀ x, fl !! x = if bool_decide (x ∈ M) then Some None else fl0 !! x) ∧
    (∀ y, inc !! y = inc0 !! y ∨ inc !! y = None ∧ y ∈ M) ∧
    (∀ x, x ∈ M ∨ x ∈ queue → rtc edge x id ∧ (R x ∨ x = id)) ∧
    (∀ y s, y ∈ M → s ∈ sources inc0 y → s ∈ M ∨ s ∈ queue) ∧
    (id ∈ M ∨ id ∈ queue).

Definition backward_post (fl : gmap NR (option (list NR))) : Prop :=
  ∃ M : gset NR,
    (∀ x, fl !! x = if bool_decide (x ∈ M) then Some None else fl0 !! x) ∧
    (∀ x, x ∈ M → rtc edge x id ∧ (R x ∨ x = id)) ∧
    (∀ y s, y ∈ M → s ∈ sources inc0 y → s ∈ M) ∧ id ∈ M.

Lemma backward_step_inl s s' :
  backward_inv s → backward_step s = inl s' →
  backward_inv s' ∧ reverse_edges s'.1.2 + length s'.2 < reverse_edges s.1.2 + length s.2.
Proof.
  destruct s as [[fl inc] [|m rest]]; [done|]. intros (M & Hfl & Hinc & Hreach & Hcl & Hid) [= <-].
  simpl. split.
  - exists ({[m]} ∪ M). split_and!.
    + intros x. rewrite lookup_insert. destruct (decide (m = x)) as [->|Hne].
      * by rewrite bool_decide_eq_true_2 by set_solver.
      * rewrite Hfl, (bool_decide_ext (x ∈ M) (x ∈ {[m]} ∪ M)); [done|].
        rewrite elem_of_union, elem_of_singleton. prop_solve.
    + intros y. rewrite lookup_delete. destruct (decide (m = y)) as [->|Hne].
      * right. split; [done|]. set_solver.
      * destruct (Hinc y) as [?|[? ?]]; [by left|right]. split; [done|]. set_solver.
    + assert (∀ x, x ∈ sources inc m → x ∈ sources inc0 m) as Hsub.
      { intros x. unfold sources. destruct (Hinc m) as [->|[-> _]]; [done|]. by intros ?%not_elem_of_nil. }
      assert (rtc edge m id ∧ (R m ∨ m = id)) as [Hm HRm] by (apply Hreach; right; left).
      intros x [[->%elem_of_singleton|Hx]%elem_of_union|[Hx|Hx]%elem_of_app].
      * done.
      * apply Hreach. by left.
      * apply Hreach. right. by right.
      * apply Hsub, Hinc0 in Hx as [HR He]. split; [by eapply rtc_l|by left].
    + intros y s. rewrite !elem_of_union, !elem_of_singleton, elem_of_app.
      intros [->|Hy] Hs.
      * destruct (Hinc m) as [Heq|[_ Hm]].
        { unfold sources in Hs. rewrite <-Heq in Hs. by right; right. }
        destruct (Hcl m s Hm Hs) as [?|Hs'%elem_of_cons]; tauto.
      * destruct (Hcl y s Hy Hs) as [?|Hs'%elem_of_cons]; tauto.
    + destruct Hid as [?|[->|?]%elem_of_cons].
      * left. set_solver.
      * left. set_solver.
      * right. apply elem_of_app. by left.
  - rewrite length_app, (reverse_edges_delete inc m). unfold sources. lia.
Qed.

Lemma backward_spec :
  ∃ fl, loop backward_step (reverse_edges inc0 + 1) (fl0, inc0, [id]) = Some fl ∧ backward_post fl.
Proof.
  apply (loop_spec _ backward_inv (λ s, reverse_edges s.1.2 + length s.2)).
  - apply backward_step_inl.
  - intros [[fl inc] [|m rest]] r; [|done]. intros (M & Hfl & _ & Hreach & Hcl & Hid) [= <-].
    exists M. split_and!; [done| | |].
    + intros x Hx. apply Hreach. by left.
    + intros y s Hy Hs. by destruct (Hcl y s Hy Hs) as [Hm|Hm%not_elem_of_nil].
    + by destruct Hid as [Hm|Hm%not_elem_of_nil].
  - exists ∅. split_and!.
    + intros x. by rewrite bool_decide_eq_false_2 by set_solver.
    + by left.
    + intros x [Hx|Hx%list_elem_of_singleton]; [set_solver|]. subst x. split; [constructor|by right].
    + set_solver.
    + right. by apply list_elem_of_singleton.
  - simpl. lia.
Qed.

End backward.

(** Marking terminates and marks exactly the nodes on a common cycle with [id]. *)
Lemma markCycleMembersLocked_spec fl id :
  terminal oe id = false →
  let g' := markCycleMembersLocked (mkGraph oe fl) id in
  g'.(outEdges) = oe ∧
  ∀ x, (rtc edge id x ∧ rtc edge x id → g'.(failed) !! x = Some None) ∧
       (¬ (rtc edge id x ∧ rtc edge x id) → g'.(failed) !! x = fl !! x).
Proof.
  intros Htid. simpl. split; [done|]. unfold markCycleMembersLocked; simpl.
  destruct (forward_spec id) as (f & Hf & (Hid & Hreach & _ & Hinc & Hcl) & Hq).
  rewrite Hf; simpl.
  destruct (backward_spec id f.(incoming) fl (λ x, x ∈ f.(reachable)) Hinc)
    as (fl' & -> & M & Hfl & HM & HMcl & HidM); simpl.
  assert (∀ x, terminal oe x = false → rtc edge id x → x ∈ f.(reachable)) as Hfull.
  { intros x Ht Hr. revert x Hr Ht. apply (rtc_ind_r (λ x, terminal oe x = false → _)); [done|].
    intros x y Hr Hxy IH Ht. apply (Hcl x y); [|by rewrite Hq; apply not_elem_of_nil|done|done].
    apply IH, terminal_false. eauto. }
  assert (∀ x, x ∈ M ↔ rtc edge id x ∧ rtc edge x id) as Hiff.
  { intros x. split.
    - intros Hx. destruct (HM x Hx) as [? [?| ->]]; [auto|]. by split; [constructor|].
    - intros [Hix Hxi]. revert Hix. induction Hxi as [|x y z Hxy Hyz IH]; intros Hix; [done|].
      assert (terminal oe x = false) as Htx by (apply terminal_false; eauto).
      apply (HMcl y).
      { apply IH; try done. by eapply rtc_r. }
      apply (Hcl x y); [by apply Hfull|by rewrite Hq; apply not_elem_of_nil|done|].
      destruct (decide (y = z)) as [->|Hne]; [done|]. by eapply rtc_nonterminal. }
  intros x. rewrite Hfl, <-Hiff. case_bool_decide; prop_solve.
Qed.

(** *** Depth-first path search *)

(** A walk: every consecutive pair is an edge. *)
Fixpoint walk (p : list NR) : Prop :=
  match p with
  | x :: (y :: _) as p' => edge x y ∧ walk p'
  | _ => True
  end.

(** The nodes of a stack, top first, form a walk downwards. *)
Fixpoint stack_walk (l : list NR) : Prop :=
  match l with
  | y :: (x :: _) as l' => edge x y ∧ stack_walk l'
  | _ => True
  end.

Lemma walk_snoc p x y : walk (p ++ [x]) → edge x y → walk (p ++ [x; y]).
Proof.
  induction p as [|a [|b p] IH]; simpl; [done|..].
  - intros [? _] ?. done.
  - intros [? Hp] ?. split; [done|]. by apply IH.
Qed.

Lemma stack_walk_reverse l : stack_walk l → walk (reverse l).
Proof.
  induction l as [|y [|x l] IH]; [done..|]. intros [Hxy Hl].
  rewrite !reverse_cons in *. rewrite <-(assoc_L (++)). apply walk_snoc; [|done].
  apply IH, Hl.
Qed.

Lemma elem_of_sortedNeighbors y s : y ∈ sortedNeighbors s ↔ y ∈ s.
Proof. unfold sortedNeighbors. by rewrite elem_of_sort_by, elem_of_elements. Qed.

Lemma length_sortedNeighbors s : length (sortedNeighbors s) = size s.
Proof. unfold sortedNeighbors. by rewrite length_sort_by. Qed.

Section path.
Context (start target : NR).

Definition dfs_inv (s : dfs) : Prop :=
  stack_walk s.(stack).*1 ∧
  (s.(stack) = [] ∨ last s.(stack).*1 = Some start) ∧
  (∀ n ch y, (n, ch) ∈ s.(stack) → y ∈ ch → edge n y) ∧
  (∀ x y, x ∈ s.(visited) ∨ x = start → edge x y →
     y ≠ target ∧ (y ∈ s.(visited) ∨ y = start) ∨ ∃ ch, (x, ch) ∈ s.(stack) ∧ y ∈ ch).

Definition frames (st : list (NR * list NR)) : nat :=
  foldr (λ f n, 2 * length f.2 + 1 + n) 0 st.

Definition dfs_measure (s : dfs) : nat :=
  2 * weight_out (s.(visited) ∪ {[start]}) oe + frames s.(stack).

Lemma dfs_step_inl s s' :
  dfs_inv s → dfs_step oe start target s = inl s' → dfs_inv s' ∧ dfs_measure s' < dfs_measure s.
Proof.
  destruct s as [vis [|[n [|next ch]] below]]; [done|..];
    intros (Hw & Hlast & Hch & Hcov); unfold dfs_step; simpl.
  - intros [= <-]. split; [split_and!; simpl in *|unfold dfs_measure; simpl; lia].
    + destruct below as [|f below]; [done|]. simpl in *. by destruct Hw.
    + destruct below as [|f below]; [by left|right]. destruct Hlast as [|Hlast]; [done|].
      by destruct below.
    + intros n' ch' y Hin. apply (Hch n' ch'). by right.
    + intros x y Hx Hxy. destruct (Hcov x y Hx Hxy) as [?|(ch' & Hin & Hy)]; [by left|right].
      apply elem_of_cons in Hin as [[= -> ->]|Hin]; [by apply not_elem_of_nil in Hy|eauto].
  - case_bool_decide as Ht; [done|].
    assert (edge n next) as Hedge by (apply (Hch n (next :: ch)); left).
    assert (∀ n' ch' y, (n', ch') ∈ (n, ch) :: below → y ∈ ch' → edge n' y) as Hch'.
    { intros n' ch' y [[= -> ->]|Hin]%elem_of_cons Hy; [|by apply (Hch n' ch'); [right|]].
      apply (Hch n (next :: ch)); [left|by right]. }
    assert (∀ x y, x ∈ vis ∨ x = start → edge x y →
      y ≠ target ∧ (y ∈ vis ∨ y = start) ∨ (∃ ch', (x, ch') ∈ (n, ch) :: below ∧ y ∈ ch') ∨
      y = next) as Hcov'.
    { intros x y Hx Hxy. destruct (Hcov x y Hx Hxy) as [?|(ch' & Hin & Hy)]; [by left|right].
      apply elem_of_cons in Hin as [[= -> ->]|Hin].
      - apply elem_of_cons in Hy as [->|Hy]; [by right|left]. exists ch. split; [left|done].
      - left. exists ch'. split; [by right|done]. }
    destruct (bool_decide (next ∈ vis) || bool_decide (next = start)) eqn:Ev; intros [= <-].
    + split; [split_and!; simpl in *; try done|unfold dfs_measure; simpl; lia].
      * right. by destruct Hlast.
      * intros x y Hx Hxy. destruct (Hcov' x y Hx Hxy) as [?|[?| ->]]; [by left|by right|left].
        split; [done|]. apply orb_true_iff in Ev as [Ev|Ev]; apply bool_decide_eq_true_1 in Ev; auto.
    + bool_to_prop. split; [split_and!; simpl in *; try done|].
      * right. by destruct Hlast.
      * intros n' ch' y [[= -> ->]|Hin]%elem_of_cons Hy; [|by eapply Hch'].
        by apply elem_of_sortedNeighbors.
      * intros x y Hx Hxy.
        assert (x = next ∨ x ∈ vis ∨ x = start) as [->|Hx'].
        { destruct Hx as [[Hx%elem_of_singleton|Hx]%elem_of_union|Hx]; auto. }
        { right. exists (sortedNeighbors (out oe next)). split; [left|]. by apply elem_of_sortedNeighbors. }
        destruct (Hcov' x y Hx' Hxy) as [[? [?|?]]|[(ch' & ? & ?)| ->]].
        -- left. split; [done|left]. apply elem_of_union. by right.
        -- left. auto.
        -- right. exists ch'. split; [by right|done].
        -- left. split; [done|left]. apply elem_of_union. left. by apply elem_of_singleton.
      * unfold dfs_measure; simpl. rewrite length_sortedNeighbors.
        pose proof (weight_out_push (vis ∪ {[start]}) oe next) as Hp.
        rewrite <-(assoc_L (∪)). specialize (Hp ltac:(set_solver)). unfold out. lia.
Qed.

(** What a path search result means. *)
Definition path_post (r : option (list NR)) : Prop :=
  match r with
  | Some p => walk p ∧ head p = Some start ∧ last p = Some target ∧ 2 ≤ length p
  | None => ¬ tc edge start target
  end.

Lemma dfs_step_inr s r : dfs_inv s → dfs_step oe start target s = inr r → path_post r.
Proof.
  destruct s as [vis [|[n [|next ch]] below]]; intros (Hw & Hlast & Hch & Hcov);
    unfold dfs_step; simpl; [|done|].
  - intros [= <-]. simpl. intros Htc.
    assert (∀ x z, tc edge x z → x ∈ vis ∨ x = start → z ≠ target) as Hno.
    { intros x z Hxz. induction Hxz as [x y Hxy|x y z Hxy Hyz IH]; intros Hx.
      - destruct (Hcov x y Hx Hxy) as [[? _]|(ch & Hin & _)]; [done|].
        by apply not_elem_of_nil in Hin.
      - apply IH. destruct (Hcov x y Hx Hxy) as [[_ ?]|(ch & Hin & _)]; [done|].
        by apply not_elem_of_nil in Hin. }
    by eapply Hno; [done|right|].
  - repeat case_match; try done. intros [= <-]. bool_to_prop. subst next. csimpl in *.
    assert (edge n target) as Hedge by (apply (Hch n (target :: ch)); left).
    destruct Hlast as [|Hlast]; [done|]. rewrite reverse_cons, <-(assoc_L (++)). split_and!.
    + apply walk_snoc; [|done]. rewrite <-reverse_cons. by apply stack_walk_reverse.
    + rewrite last_cons in Hlast. destruct (last below.*1) as [x|] eqn:El.
      * injection Hlast as ->. apply last_Some in El as [l ->].
        by rewrite reverse_snoc.
      * injection Hlast as ->. apply last_None in El as ->. done.
    + by rewrite last_app.
    + rewrite length_app. simpl. lia.
Qed.

(** The search terminates; it finds a walk with at least one edge or proves there is none. *)
Lemma findPathLocked_spec : path_post (findPathLocked oe start target).
Proof.
  unfold findPathLocked.
  destruct (loop_spec (dfs_step oe start target) dfs_inv dfs_measure path_post
    (2 * weight oe + 2) (mkDfs ∅ [(start, sortedNeighbors (out oe start))]))
    as (r & -> & Hr); [apply dfs_step_inl|apply dfs_step_inr| | |done].
  - split_and!; simpl.
    + done.
    + by right.
    + intros n ch y [= -> ->]%list_elem_of_singleton. by rewrite elem_of_sortedNeighbors.
    + intros x y [?| ->] Hxy; [set_solver|]. right. eexists. split; [by left|].
      by apply elem_of_sortedNeighbors.
  - unfold dfs_measure; simpl. rewrite length_sortedNeighbors, (left_id_L ∅ (∪)).
    pose proof (weight_out_push ∅ oe start ltac:(set_solver)) as Hp.
    rewrite (right_id_L ∅ (∪)), weight_out_empty in Hp. unfold out. lia.
Qed.

End path.

(** *** Labels *)

(** A closed walk along edges: what a cycle report shows. *)
Definition closed_walk (p : list NR) : Prop :=
  walk p ∧ 2 ≤ length p ∧ head p = last p.

Lemma walk_app p q x :
  walk (p ++ x :: q) ↔ walk (p ++ [x]) ∧ walk (x :: q).
Proof.
  induction p as [|a p IH]; simpl; [by split; [intros ?|intros [_ ?]]|].
  destruct p as [|b p]; simpl in *; [|rewrite IH]; tauto.
Qed.

Lemma walk_rtc p x y : walk p → head p = Some x → y ∈ p → rtc edge x y.
Proof.
  revert x. induction p as [|a p IH]; intros x Hw Hh Hy; [done|].
  injection Hh as ->. apply elem_of_cons in Hy as [->|Hy]; [done|].
  destruct p as [|b p]; [by apply not_elem_of_nil in Hy|]. destruct Hw as [Hxb Hw].
  eapply rtc_l; [done|]. by apply IH.
Qed.

Lemma walk_rtc_last p y z : walk p → y ∈ p → last p = Some z → rtc edge y z.
Proof.
  intros Hw [i Hi]%list_elem_of_lookup Hl. apply take_drop_middle in Hi.
  rewrite <-Hi in Hw. apply walk_app in Hw as [_ Hw].
  eapply walk_rtc; [done|done|]. rewrite <-Hi, last_app_cons in Hl.
  apply last_Some in Hl as [l Hl]. rewrite Hl. apply elem_of_app. right. by left.
Qed.

(** Every member of a closed walk is on a cycle. *)
Lemma walk_tc p x y :
  walk p → head p = Some x → last p = Some y → 2 ≤ length p → tc edge x y.
Proof.
  destruct p as [|a [|b p]]; simpl; [lia..|]. intros [Hab Hw] [= ->] Hl _.
  eapply tc_rtc_r; [by apply tc_once|]. eapply (walk_rtc_last (b :: p)); [done|left|done].
Qed.

Lemma closed_walk_on_cycle p x : closed_walk p → x ∈ p → on_cycle x.
Proof.
  intros (Hw & Hlen & Hhl) Hx. destruct p as [|a [|b p]]; simpl in Hlen; try lia.
  assert (last (a :: b :: p) = Some a) as Hl by by rewrite <-Hhl.
  assert (rtc edge a x) as Hax by by eapply walk_rtc.
  assert (rtc edge x a) as Hxa by by eapply walk_rtc_last.
  destruct Hw as [Hab Hw].
  assert (rtc edge b a) as Hba.
  { eapply (walk_rtc_last (b :: p)); [done|left|done]. }
  unfold on_cycle. eapply tc_rtc_l; [done|]. eapply tc_rtc_r; [|done].
  eapply tc_rtc_r; [by apply tc_once|done].
Qed.

(** What a member is reported under: a closed walk through it that starts at its
    least member. *)
Definition label_ok (x : NR) (p : list NR) : Prop :=
  closed_walk p ∧ x ∈ p ∧ ∃ m, head p = Some m ∧ ∀ y, y ∈ p → cmp_le m y.

Lemma min_member_spec (p : list NR) :
  p ≠ [] → min_member p ∈ p ∧ ∀ y, y ∈ p → cmp_le (min_member p) y.
Proof.
  intros Hp. unfold min_member. destruct (sort_by compare p) as [|m l] eqn:E.
  { by apply (f_equal length) in E; rewrite length_sort_by in E; destruct p. }
  assert (m ∈ p) as Hm by (rewrite <-(elem_of_sort_by compare), E; left).
  split; [done|]. intros y. rewrite <-(elem_of_sort_by compare), E.
  intros [->|Hy]%elem_of_cons; [done|].
  pose proof (sort_lawful_sorted p) as Hs. rewrite E in Hs.
  apply (Sorted_StronglySorted _) in Hs. apply StronglySorted_inv in Hs as [_ Hall].
  rewrite Forall_forall in Hall. auto.
Qed.

Lemma index_of_spec x (p : list NR) :
  x ∈ p → ∃ a b, p = a ++ x :: b ∧ length a = index_of x p ∧ x ∉ a.
Proof.
  intros Hx. unfold index_of. destruct (list_find (x =.) p) as [[i y]|] eqn:E; simpl.
  - apply list_find_Some in E as (Hi & <- & Hno). exists (take i p), (drop (S i) p). split_and!.
    + by rewrite take_drop_middle.
    + rewrite length_take_le; [done|]. by apply Nat.lt_le_incl, lookup_lt_is_Some; eauto.
    + intros [j Hj]%list_elem_of_lookup. apply lookup_take_Some in Hj as [Hj ?]. by eapply Hno.
  - apply list_find_None in E. rewrite Forall_forall in E. by destruct (E x Hx).
Qed.

Lemma rotate_cycle_spec p id :
  walk p → head p = Some id → last p = Some id → 2 ≤ length p →
  ∀ x, x ∈ p → label_ok x (rotate_cycle p).
Proof.
  intros Hw Hh Hl Hlen x Hx.
  destruct (min_member_spec p) as [Hmin Hle]; [by intros ->|].
  destruct (index_of_spec (min_member p) p Hmin) as (a & b & Hp & Ha & Hna).
  unfold rotate_cycle. rewrite <-Ha. set (m := min_member p) in *. clearbody m.
  assert (∃ b', b = b' ++ [id]) as [b' ->].
  { destruct b as [|b0 b] using rev_ind.
    - exfalso. rewrite Hp, last_snoc in Hl. injection Hl as ->.
      destruct a as [|a0 a]; simpl in *; [rewrite Hp in Hlen; simpl in Hlen; lia|].
      rewrite Hp in Hh. injection Hh as ->. apply Hna. left.
    - rewrite Hp, app_comm_cons, (assoc_L (++)), last_snoc in Hl. injection Hl as ->. by exists b. }
  assert (take (length p - 1) p = a ++ m :: b') as ->.
  { rewrite Hp, app_comm_cons, (assoc_L (++)). rewrite length_app. simpl.
    rewrite Nat.add_sub. apply take_app_length. }
  assert (take (length a + 1) p = a ++ [m]) as ->.
  { rewrite Hp, (cons_middle m a), (assoc_L (++)). apply take_app_length'. by rewrite length_app. }
  rewrite drop_app_length, <-app_comm_cons.
  assert (∀ y, y ∈ m :: b' ++ a ++ [m] → y ∈ p) as Hsub.
  { intros y. rewrite Hp. clear. set_solver. }
  split_and!; [split_and!|..].
  - destruct a as [|a0 a].
    + rewrite Hp in Hh. injection Hh as ->. by rewrite Hp in Hw.
    + rewrite Hp in Hh. injection Hh as ->. rewrite Hp in Hw.
      change ((id :: a) ++ m :: b' ++ [id]) with (id :: (a ++ m :: (b' ++ [id]))) in Hw.
      apply (walk_app (id :: a) (b' ++ [id]) m) in Hw as [Hw1 Hw2].
      apply (walk_app (m :: b') (a ++ [m]) id). done.
  - simpl. rewrite !length_app. simpl. lia.
  - simpl. by rewrite (assoc_L (++)), app_comm_cons, last_snoc.
  - rewrite Hp in Hx, Hh. destruct a as [|a0 a]; simpl in *.
    + injection Hh as ->. set_solver.
    + injection Hh as ->. set_solver.
  - exists m. split; [done|]. auto.
Qed.

Lemma label_members_spec c path chk fl :
  let s := foldl (label_member c) (chk, fl) path in
  (∀ x, x ∈ s.1 ↔ x ∈ chk ∨ x ∈ path) ∧
  (∀ x, s.2 !! x = if bool_decide (x ∈ path ∧ x ∉ chk) then Some (Some c) else fl !! x).
Proof.
  revert chk fl. induction path as [|y path IH]; intros chk fl; simpl.
  { split; intros x; [set_solver|done]. }
  assert (label_member c (chk, fl) y
          = if bool_decide (y ∈ chk) then (chk, fl) else ({[y]} ∪ chk, <[y:=Some c]> fl)) as -> by done.
  case_bool_decide as Hy.
  - destruct (IH chk fl) as [IH1 IH2]. split; intros x.
    + rewrite IH1, elem_of_cons. prop_solve.
    + rewrite IH2. erewrite bool_decide_ext; [done|]. rewrite elem_of_cons. prop_solve.
  - destruct (IH ({[y]} ∪ chk) (<[y:=Some c]> fl)) as [IH1 IH2]. split; intros x.
    + rewrite IH1, elem_of_cons, elem_of_union, elem_of_singleton. prop_solve.
    + rewrite IH2, lookup_insert. destruct (decide (y = x)) as [->|Hne].
      * rewrite bool_decide_eq_false_2 by set_solver. rewrite bool_decide_eq_true_2; [done|].
        split; [left|done].
      * erewrite bool_decide_ext; [done|]. rewrite elem_of_cons, elem_of_union, elem_of_singleton.
        prop_solve.
Qed.

(** Revalidation, as an invariant over the keys already visited. *)
Lemma revalidate_fold keys fl0 :
  let s := foldl (revalidate_one oe) (∅, fl0) keys in
  (∀ x, x ∈ s.1 → ∃ p, s.2 !! x = Some (Some p) ∧ label_ok x p) ∧
  (∀ x, x ∈ keys → x ∉ s.1 → s.2 !! x = None ∧ ¬ on_cycle x) ∧
  (∀ x, x ∉ keys → x ∉ s.1 → s.2 !! x = fl0 !! x).
Proof.
  induction keys as [|k keys IH] using rev_ind; simpl.
  { split_and!; [set_solver| |done]. by intros x ?%not_elem_of_nil. }
  rewrite foldl_app; simpl. destruct (foldl _ _ keys) as [chk fl]; simpl in *.
  destruct IH as (Hchk & Hdone & Hrest). unfold revalidate_one; simpl.
  case_bool_decide as Hk.
  { split_and!; [done| |].
    - intros x [Hx| ->%list_elem_of_singleton]%elem_of_app; [auto|done].
    - intros x Hx. apply Hrest. rewrite elem_of_app in Hx. prop_solve. }
  pose proof (findPathLocked_spec k k) as Hp. destruct (findPathLocked oe k k) as [p|]; simpl in *.
  - destruct Hp as (Hw & Hh & Hl & Hlen).
    destruct (label_members_spec (rotate_cycle p) p chk fl) as [H1 H2].
    assert (∀ x, x ∈ p → label_ok x (rotate_cycle p)) as Hrot by by apply (rotate_cycle_spec _ k).
    assert (k ∈ p) as Hkp by (destruct p; [done|injection Hh as ->; left]).
    split_and!.
    + intros x Hx. rewrite H2. case_bool_decide as Hc; [naive_solver|].
      apply Hchk. apply H1 in Hx. destruct (decide (x ∈ chk)); [done|]. tauto.
    + intros x [Hx| ->%list_elem_of_singleton]%elem_of_app Hn; rewrite H1 in Hn; [|tauto].
      rewrite H2, bool_decide_eq_false_2 by tauto. apply Hdone; tauto.
    + intros x Hx Hn. rewrite H1 in Hn. rewrite H2, bool_decide_eq_false_2 by tauto.
      rewrite elem_of_app in Hx. apply Hrest; tauto.
  - split_and!.
    + intros x Hx. rewrite lookup_delete_ne by (by intros ->). auto.
    + intros x [Hx| ->%list_elem_of_singleton]%elem_of_app Hn.
      * destruct (Hdone x Hx Hn). split; [|done]. rewrite lookup_delete. by case_decide.
      * by rewrite lookup_delete_eq.
    + intros x Hx Hn. rewrite elem_of_app, list_elem_of_singleton in Hx.
      rewrite lookup_delete_ne by (intros ->; tauto). apply Hrest; tauto.
Qed.

Lemma revalidateFailedLocked_spec fl :
  let g' := revalidateFailedLocked (mkGraph oe fl) in
  g'.(outEdges) = oe ∧
  (∀ x v, g'.(failed) !! x = Some v → ∃ p, v = Some p ∧ label_ok x p) ∧
  (∀ x, x ∈ dom fl → on_cycle x → x ∈ dom g'.(failed)).
Proof.
  simpl. split; [done|].
  pose proof (revalidate_fold (sort_by compare (elements (dom fl))) fl) as Hf. simpl in Hf.
  unfold revalidateFailedLocked; simpl. destruct (foldl _ _ _) as [chk fl']; simpl in *.
  destruct Hf as (Hchk & Hdone & Hrest).
  assert (∀ x, x ∈ sort_by compare (elements (dom fl)) ↔ x ∈ dom fl) as Hkeys.
  { intros x. by rewrite elem_of_sort_by, elem_of_elements. }
  split.
  - intros x v Hx. destruct (decide (x ∈ chk)) as [Hc|Hc].
    + destruct (Hchk x Hc) as (p & Hp & ?). rewrite Hp in Hx. injection Hx as <-. eauto.
    + destruct (decide (x ∈ dom fl)) as [Hd|Hd].
      * destruct (Hdone x); [by apply Hkeys|done|]. congruence.
      * rewrite Hrest in Hx by (rewrite ?Hkeys; done). by apply not_elem_of_dom in Hd; rewrite Hd in Hx.
  - intros x Hd Hcyc. apply elem_of_dom. destruct (decide (x ∈ chk)) as [Hc|Hc].
    + destruct (Hchk x Hc) as (p & -> & _). eauto.
    + destruct (Hdone x); [by apply Hkeys|done|done].
Qed.

End graph.

(** ** The cached failures are the cycle members *)

(** The representation invariant of [dependencyGraph]. *)
Definition graph_ok (g : dependencyGraph) : Prop :=
  (∀ x, x ∈ dom g.(failed) ↔ on_cycle g.(outEdges) x) ∧
  (∀ x v, g.(failed) !! x = Some v → ∃ p, v = Some p ∧ label_ok g.(outEdges) x p).

Lemma label_on_cycle oe x p : label_ok oe x p → on_cycle oe x.
Proof. intros (Hc & Hx & _). by eapply closed_walk_on_cycle. Qed.

Lemma rtc_edge_mono oe oe' x y :
  (∀ a b, edge oe a b → edge oe' a b) → rtc (edge oe) x y → rtc (edge oe') x y.
Proof. intros Hm. induction 1; [done|]. eapply rtc_l; eauto. Qed.

Lemma tc_edge_mono oe oe' x y :
  (∀ a b, edge oe a b → edge oe' a b) → tc (edge oe) x y → tc (edge oe') x y.
Proof. intros Hm. induction 1; [apply tc_once|eapply tc_l]; eauto. Qed.

Lemma walk_mono oe oe' p : (∀ a b, edge oe a b → edge oe' a b) → walk oe p → walk oe' p.
Proof.
  intros Hm. induction p as [|a [|b p] IH]; simpl; [done..|]. intros [Hab Hw].
  split; [by apply Hm|by apply IH].
Qed.

Lemma label_ok_mono oe oe' x p :
  (∀ a b, edge oe a b → edge oe' a b) → label_ok oe x p → label_ok oe' x p.
Proof. intros Hm ((Hw & ?) & ?). split; [split; [by eapply walk_mono|done]|done]. Qed.

(** A cycle whose edges are all accounted for by another graph is one of it. *)
Lemma cycle_edges oe oe' x y :
  (∀ a b, edge oe' a b → rtc (edge oe') y a → rtc (edge oe') b y → edge oe a b) →
  tc (edge oe') x y → rtc (edge oe') y x → tc (edge oe) x y.
Proof.
  intros Ho. induction 1 as [x y Hxy|x z y Hxz Hzy IH]; intros Hyx.
  - apply tc_once. by apply Ho.
  - eapply tc_l; [apply Ho|apply IH]; try done.
    + by apply tc_rtc.
    + eapply rtc_r; done.
Qed.

Lemma forallb_True_Forall {A} (P : A → Prop) `{∀ x, Decision (P x)} l :
  forallb (λ x, bool_decide (P x)) l = true ↔ Forall P l.
Proof.
  rewrite forallb_forall, Forall_forall. split; intros Hl x Hx.
  - by apply (bool_decide_eq_true_1 (P x)), Hl, list_elem_of_In.
  - by apply bool_decide_eq_true_2, Hl, list_elem_of_In.
Qed.

Lemma edgeSetEqual_spec old deps :
  edgeSetEqual old deps = true ↔ old = list_to_set deps.
Proof.
  unfold edgeSetEqual. rewrite andb_true_iff, !forallb_True_Forall. split.
  - intros [H1 H2]. rewrite Forall_forall in H1, H2. apply set_eq. intros x.
    rewrite elem_of_list_to_set. split; intros Hx; [|by apply H1].
    by apply H2, elem_of_elements.
  - intros ->. rewrite !Forall_forall. split; intros x Hx; [by apply elem_of_list_to_set|].
    by apply elem_of_elements, elem_of_list_to_set in Hx.
Qed.

(** The edges [ReplaceEdges] installs. *)
Definition installed (oe : gmap NR (gset NR)) (id : NR) (newSet : gset NR) : gmap NR (gset NR) :=
  if bool_decide (size newSet = 0) then delete id oe else <[id := newSet]> oe.

Lemma out_installed oe id newSet x :
  out (installed oe id newSet) x = if decide (x = id) then newSet else out oe x.
Proof.
  unfold installed, out. case_bool_decide as Hs; destruct (decide (x = id)) as [->|Hx].
  - rewrite lookup_delete_eq. symmetry. by apply leibniz_equiv, size_empty_iff.
  - by rewrite lookup_delete_ne.
  - by rewrite lookup_insert_eq.
  - by rewrite lookup_insert_ne.
Qed.

Section replace.
Context (oe : gmap NR (gset NR)) (id : NR) (newSet : gset NR).
Let oe' := installed oe id newSet.
Let old := out oe id.

Lemma edge_installed a b :
  edge oe' a b ↔ if decide (a = id) then b ∈ newSet else edge oe a b.
Proof. unfold edge, oe'. rewrite out_installed. by destruct (decide _). Qed.

Lemma replace_old_edge a b :
  edge oe' a b → edge oe a b ∨ (a = id ∧ b ∉ old).
Proof.
  rewrite edge_installed. destruct (decide (a = id)) as [->|]; [|by left].
  intros _. destruct (decide (b ∈ old)); [by left|by right].
Qed.

(** Cycles of the new graph are old, or pass through [id] by a new edge. *)
Lemma replace_cycle_old x :
  ¬ closes_spec oe' id old → on_cycle oe' x → on_cycle oe x.
Proof.
  intros Hn Hx. eapply cycle_edges; [|exact Hx|done].
  intros a b Hab Hxa Hbx. destruct (replace_old_edge a b Hab) as [|[-> Hb]]; [done|].
  destruct Hn. exists b. split_and!; [done..|]. by etrans.
Qed.

Lemma replace_tc x y :
  tc (edge oe') x y → tc (edge oe) x y ∨ (rtc (edge oe') x id ∧ rtc (edge oe') id y).
Proof.
  induction 1 as [x y Hxy|x z y Hxz Hzy IH].
  - destruct (replace_old_edge x y Hxy) as [|[-> _]]; [left; by apply tc_once|right].
    split; [done|by apply rtc_once].
  - destruct (replace_old_edge x z Hxz) as [Ho|[-> _]].
    + destruct IH as [|[Hz ?]]; [left; by eapply tc_l|right].
      split; [by eapply rtc_l|done].
    + right. split; [done|]. eapply rtc_l; [done|by apply tc_rtc].
Qed.

Lemma replace_cycle_kept x :
  old ⊆ newSet → on_cycle oe x → on_cycle oe' x.
Proof.
  intros Hs. apply tc_edge_mono. intros a b Hab. apply edge_installed.
  destruct (decide (a = id)) as [->|]; [by apply Hs|done].
Qed.
End replace.

Lemma revalidated_ok oe fl :
  (∀ x, on_cycle oe x → x ∈ dom fl) → graph_ok (revalidateFailedLocked (mkGraph oe fl)).
Proof.
  intros Hdom. destruct (revalidateFailedLocked_spec oe fl) as (Hoe & Hl & Hc).
  unfold graph_ok. rewrite Hoe. split; [|done]. intros x. split.
  - intros [v Hv]%elem_of_dom. destruct (Hl x v Hv) as (p & _ & Hp). by eapply label_on_cycle.
  - auto.
Qed.

Lemma ReplaceEdges_ok g id deps : graph_ok g → graph_ok (ReplaceEdges g id deps).
Proof.
  destruct g as [oe fl]. intros [Hd Hl]. unfold ReplaceEdges; simpl in *.
  destruct (edgeSetEqual _ _); [by split|].
  set (newSet := list_to_set deps : gset NR).
  change (if bool_decide (size newSet = 0) then delete id oe else <[id := newSet]> oe)
    with (installed oe id newSet).
  set (oe' := installed oe id newSet). set (old := out oe id).
  set (g1 := if closesCycleLocked oe' id old then _ else _).
  assert (g1.(outEdges) = oe' ∧ (∀ x, on_cycle oe' x → x ∈ dom g1.(failed)) ∧
          (closesCycleLocked oe' id old = false → g1.(failed) = fl ∧
           ∀ x, on_cycle oe' x → on_cycle oe x)) as (Hoe & Hcov & Hno).
  { subst g1. destruct (closesCycleLocked oe' id old) eqn:Hf.
    - apply closesCycleLocked_spec in Hf as (d & Hid & _ & _).
      assert (terminal oe' id = false) as Ht by (apply terminal_false; eauto).
      destruct (markCycleMembersLocked_spec oe' fl id Ht) as [Ho Hm].
      split_and!; [done| |done]. intros x Hx. apply elem_of_dom.
      destruct (replace_tc oe id newSet x x Hx) as [Hold|[Hxi Hix]].
      + apply Hd, elem_of_dom in Hold. destruct Hold as [v Hv].
        destruct ((markCycleMembersLocked (mkGraph oe' fl) id).(failed) !! x) eqn:E; [eauto|].
        rewrite (proj2 (Hm x)) in E; [congruence|]. intros Hs. by rewrite (proj1 (Hm x) Hs) in E.
      + rewrite (proj1 (Hm x)); [eauto|by split].
    - assert (¬ closes_spec oe' id old) as Hn by (rewrite <-closesCycleLocked_spec, Hf; done).
      split_and!; simpl; [done| |intros _; split; [done|]];
        intros x Hx; [apply Hd|]; by apply (replace_cycle_old oe id newSet). }
  set (removed := existsb _ _).
  destruct (bool_decide (size g1.(failed) ≠ 0) && (removed || _)) eqn:Hc.
  { destruct g1 as [oe1 fl1]; simpl in *; subst oe1. by apply revalidated_ok. }
  apply andb_false_iff in Hc as [Hc|Hc].
  - apply bool_decide_eq_false in Hc. apply dec_stable, map_size_empty_iff in Hc.
    rewrite Hc in Hcov. split; rewrite Hc, ?Hoe.
    + intros x. split; [by rewrite dom_empty_L, elem_of_empty|auto].
    + intros x v. by rewrite lookup_empty.
  - apply orb_false_iff in Hc as [Hr Hf]. destruct (Hno Hf) as [Hfl Hold].
    assert (old ⊆ newSet) as Hsub.
    { intros x Hx. apply elem_of_elements in Hx. unfold removed in Hr.
      destruct (decide (x ∈ newSet)) as [|Hn]; [done|].
      rewrite <-not_true_iff_false, existsb_exists in Hr. destruct Hr.
      exists x. split; [by apply list_elem_of_In|by apply bool_decide_eq_true_2]. }
    split; rewrite Hoe, Hfl.
    + intros x. rewrite Hd. split; [by apply replace_cycle_kept|auto].
    + intros x v Hv. destruct (Hl x v Hv) as (p & -> & Hp). exists p. split; [done|].
      eapply label_ok_mono; [|done]. intros a b Hab. apply edge_installed.
      destruct (decide (a = id)) as [->|]; [by apply Hsub|done].
Qed.

Lemma newDependencyGraph_ok : graph_ok newDependencyGraph.
Proof.
  split; simpl; [|intros x v; by rewrite lookup_empty]. intros x.
  rewrite dom_empty_L, elem_of_empty. split; [done|].
  intros Hx. destruct Hx as [x y Hxy|x y z Hxy _]; unfold edge, out in Hxy;
    by rewrite lookup_empty in Hxy.
Qed.

Lemma ReplaceEdges_outEdges g id deps x :
  out (ReplaceEdges g id deps).(outEdges) x
  = if decide (x = id) then list_to_set deps else out g.(outEdges) x.
Proof.
  unfold ReplaceEdges. destruct (edgeSetEqual _ _) eqn:He.
  - apply edgeSetEqual_spec in He. destruct (decide (x = id)) as [->|]; [done|done].
  - destruct (closesCycleLocked _ _ _), (_ && _); simpl; apply out_installed.
Qed.

(** ** Histories of registrations *)

(** The preflight calls [ReplaceEdges] once per arriving or replayed object. *)
Definition run_edges (ops : list (NR * list NR)) : dependencyGraph :=
  foldl (λ g op, ReplaceEdges g op.1 op.2) newDependencyGraph ops.

(** What a history declares: the last dependency list given to each resource. *)
Definition declared (ops : list (NR * list NR)) (x : NR) : gset NR :=
  foldl (λ s op, if decide (x = op.1) then list_to_set op.2 else s) ∅ ops.

Lemma run_edges_ok ops : graph_ok (run_edges ops).
Proof.
  unfold run_edges. induction ops as [|[id deps] ops IH] using rev_ind.
  - apply newDependencyGraph_ok.
  - rewrite foldl_snoc. by apply ReplaceEdges_ok.
Qed.

Lemma run_edges_out ops x : out (run_edges ops).(outEdges) x = declared ops x.
Proof.
  unfold run_edges, declared. induction ops as [|[id deps] ops IH] using rev_ind.
  - unfold out. simpl. by rewrite lookup_empty.
  - rewrite !foldl_snoc, ReplaceEdges_outEdges. simpl. by rewrite IH.
Qed.

(** ** Properties *)

(** Claim C1: after any sequence of edge replacements, the incrementally
    maintained failure cache holds exactly the resources lying on a dependency
    cycle of the last declared dependency lists (computed from scratch), and
    each of them is reported with a closed walk of those edges that passes
    through it and starts at its least member. *)
Theorem cycle_failures_exact (ops : list (NR * list NR)) :
  (∀ x, x ∈ dom (Failures (run_edges ops)) ↔ tc (λ a b, b ∈ declared ops a) x x) ∧
  (∀ x v, Failures (run_edges ops) !! x = Some v →
     ∃ p, v = Some p ∧ label_ok (run_edges ops).(outEdges) x p).
Proof.
  destruct (run_edges_ok ops) as [Hd Hl]. split; [|done]. intros x. unfold Failures. rewrite Hd.
  unfold on_cycle. assert (∀ y, tc (edge (run_edges ops).(outEdges)) x y
                               ↔ tc (λ a b, b ∈ declared ops a) x y) as Ht; [|apply Ht].
  intros y. unfold edge. split; (induction 1; [apply tc_once|eapply tc_l]); eauto;
    first [by rewrite <-run_edges_out|by rewrite run_edges_out].
Qed.

(** The iterative sorted depth-first search terminates with a path of at
    least one edge from the start to the target when there is one, and with no
    path exactly when the target is unreachable. *)
Theorem findPathLocked_exact (oe : gmap NR (gset NR)) (start target : NR) :
  (findPathLocked oe start target = None ↔ ¬ tc (edge oe) start target) ∧
  (∀ p, findPathLocked oe start target = Some p →
     walk oe p ∧ head p = Some start ∧ last p = Some target ∧ 2 ≤ length p).
Proof.
  pose proof (findPathLocked_spec oe start target) as Hs. unfold path_post in Hs.
  destruct (findPathLocked oe start target) as [p|]; split; try done.
  - destruct Hs as (Hw & Hh & Hl & Hlen). split; [done|]. intros []. by eapply walk_tc.
  - by intros ? [= <-].
Qed.

(** Three resources of one namespace; [a] and [b] depend on each other, [c] on [a]. *)
Definition ks_named (n : string) : NR := mkResource FluxKustomizeDomain "Kustomization" "flux-system" n.

Definition two_cycle : list (NR * list NR) :=
  [(ks_named "a", [ks_named "b"]); (ks_named "c", [ks_named "a"]);
   (ks_named "b", [ks_named "a"])].

Lemma cycle_failures_exact_witness :
  ks_named "a" ∈ dom (Failures (run_edges two_cycle)) ∧
  tc (λ a b, b ∈ declared two_cycle a) (ks_named "a") (ks_named "a").
Proof.
  assert (ks_named "a" ∈ dom (Failures (run_edges two_cycle))) as H.
  { apply elem_of_dom. vm_compute. eauto. }
  split; [exact H|]. apply (proj1 (cycle_failures_exact two_cycle) (ks_named "a")), H.
Defined.

Lemma findPathLocked_exact_witness :
  walk (run_edges two_cycle).(outEdges) [ks_named "c"; ks_named "a"; ks_named "b"].
Proof.
  apply (proj2 (findPathLocked_exact (run_edges two_cycle).(outEdges) (ks_named "c") (ks_named "b"))).
  vm_compute. reflexivity.
Defined.
