(* ===== verification/Diagnostic.v ===== *)
(** * Failure diagnostics (pkg/manifest/diagnostic.go, pkg/manifest/errors.go)

    The captured, detached context of a failure: a leaf message or a tree of
    dependency causes.  Go values are copied by assignment, so [Clone], which
    detaches the cause slices, is the identity on the value it returns. *)

From S2P Require Import Prelude Resource.

Record DiagnosticIdentity := mkDiagnosticIdentity {
  d_ID : NamedResource;
  d_Resource : NamedResource;
  d_Path : string;
}.

Inductive DiagnosticReason := mkReason {
  r_Subject : DiagnosticIdentity;
  r_Message : string;
  r_Causes : list DiagnosticReason;
}.

(** Induction that reaches the causes. *)
Lemma DiagnosticReason_rect' (P : DiagnosticReason → Prop) :
  (∀ s m cs, Forall P cs → P (mkReason s m cs)) → ∀ r, P r.
Proof.
  intros Hstep. fix IH 1. intros [s m cs]. apply Hstep.
  induction cs as [|c cs IHcs]; constructor; [apply IH|exact IHcs].
Qed.

(** [DiagnosticIdentity{}] and [DiagnosticReason{}], what a missing key reads as. *)
Definition zero_identity : DiagnosticIdentity := mkDiagnosticIdentity no_resource no_resource "".
Definition zero_reason : DiagnosticReason := mkReason zero_identity "" [].

(** [DiagnosticFor(id, nil)]: no declaration to take display context from. *)
Definition DiagnosticForAbsent (id : NamedResource) : DiagnosticIdentity :=
  mkDiagnosticIdentity id id "".

Definition capturedDiagnostic (id resource : NamedResource) (path : string) (captured : bool)
    : DiagnosticIdentity :=
  if captured then mkDiagnosticIdentity id resource path else mkDiagnosticIdentity id id "".

(** [strings.Join]. *)
Definition strings_Join (parts : list string) (sep : string) : string :=
  match parts with
  | [] => ""
  | p :: ps => foldl (λ acc x, acc +:+ sep +:+ x) p ps
  end.

Section render.
(** [fmt]'s [%q] verb, Go's quoted string syntax. *)
Context (quote : string → string).

Definition DiagnosticIdentity_String (d : DiagnosticIdentity) : string :=
  if bool_decide (d.(d_Resource) = no_resource) then "entry path " +:+ quote d.(d_Path)
  else if bool_decide (d.(d_Path) ≠ "")
  then ResourceString d.(d_Resource) +:+ " (entry path " +:+ quote d.(d_Path) +:+ ")"
  else ResourceString d.(d_Resource).

Definition DiagnosticIdentity_Label (d : DiagnosticIdentity) : string :=
  if bool_decide (d.(d_Resource) = no_resource) || bool_decide (d.(d_Path) ≠ "")
  then DiagnosticIdentity_String d
  else d.(d_Resource).(Kind) +:+ " " +:+ NamespacedName d.(d_Resource).

Fixpoint DiagnosticReason_String (r : DiagnosticReason) : string :=
  let message :=
    match r.(r_Causes) with
    | [] => or_string [r.(r_Message); "unknown error"]
    | causes => "dependencies failed: " +:+ strings_Join (map DiagnosticReason_String causes) "; "
    end in
  DiagnosticIdentity_String r.(r_Subject) +:+ ": " +:+ message.

(** [DependencyFailedError]. *)
Record DependencyFailedError := mkDependencyFailed {
  Failed : list NamedResource;
  Reasons : gmap NamedResource DiagnosticReason;
}.

(** [e.Reasons[f]], with its subject filled in when it was not captured. *)
Definition subject_reason (e : DependencyFailedError) (f : NamedResource) : DiagnosticReason :=
  let reason := default zero_reason (e.(Reasons) !! f) in
  if bool_decide (reason.(r_Subject).(d_ID) = no_resource)
  then mkReason (DiagnosticForAbsent f) reason.(r_Message) reason.(r_Causes)
  else reason.

Definition DependencyFailedError_Error (e : DependencyFailedError) : string :=
  match e.(Failed) with
  | [] => "dependencies failed"
  | failed =>
      "dependencies failed: " +:+
      strings_Join (map (λ f, DiagnosticReason_String (subject_reason e f)) failed) "; "
  end.
End render.

(** [slices.CompareFunc]. *)
Section compare_func.
Context {A : Type} (cmp : A → A → comparison).

Fixpoint CompareFunc (a b : list A) : comparison :=
  match a, b with
  | [], [] => Eq
  | [], _ :: _ => Lt
  | _ :: _, [] => Gt
  | x :: a, y :: b => match cmp x y with Eq => CompareFunc a b | c => c end
  end.
End compare_func.

Fixpoint DiagnosticReason_Compare (r other : DiagnosticReason) : comparison :=
  cmp_or [compare r.(r_Subject).(d_ID) other.(r_Subject).(d_ID);
          compare r.(r_Message) other.(r_Message);
          CompareFunc DiagnosticReason_Compare r.(r_Causes) other.(r_Causes)].

(** ** The order of reasons *)

Lemma DiagnosticReason_Compare_unfold r o :
  DiagnosticReason_Compare r o =
  cmp_or [compare r.(r_Subject).(d_ID) o.(r_Subject).(d_ID);
          compare r.(r_Message) o.(r_Message);
          CompareFunc DiagnosticReason_Compare r.(r_Causes) o.(r_Causes)].
Proof. by destruct r, o. Qed.

Lemma CompareFunc_opp {A} (cmp : A → A → comparison) a b :
  Forall (λ x, ∀ y, cmp y x = CompOpp (cmp x y)) a →
  CompareFunc cmp b a = CompOpp (CompareFunc cmp a b).
Proof.
  intros Ha. revert b. induction Ha as [|x a Hx _ IH]; intros [|y b]; simpl; try done.
  rewrite Hx, IH. by destruct (cmp x y).
Qed.

Lemma DiagnosticReason_Compare_opp r : ∀ o,
  DiagnosticReason_Compare o r = CompOpp (DiagnosticReason_Compare r o).
Proof.
  induction r as [s m cs IH] using DiagnosticReason_rect'. intros o.
  rewrite (DiagnosticReason_Compare_unfold o), (DiagnosticReason_Compare_unfold _ o).
  cbn [r_Subject r_Message r_Causes].
  rewrite (compare_opp s.(d_ID)), (compare_opp m), (CompareFunc_opp _ cs) by done.
  destruct (compare s.(d_ID) _), (compare m _), (CompareFunc _ cs _); done.
Qed.

(** What the order identifies: the reasons without their display context. *)
Fixpoint bare (r : DiagnosticReason) : DiagnosticReason :=
  mkReason (DiagnosticForAbsent r.(r_Subject).(d_ID)) r.(r_Message) (map bare r.(r_Causes)).

Lemma cmp_or_one c : cmp_or [c] = c.
Proof. by destruct c. Qed.

Lemma cmp_or_eq a b c : cmp_or [a; b; c] = Eq ↔ a = Eq ∧ b = Eq ∧ c = Eq.
Proof. destruct a, b, c; simpl; naive_solver. Qed.

Lemma CompareFunc_eq cmp (a b : list DiagnosticReason) :
  Forall (λ x, ∀ y, cmp x y = Eq ↔ bare x = bare y) a →
  CompareFunc cmp a b = Eq ↔ map bare a = map bare b.
Proof.
  intros Ha. revert b. induction Ha as [|x a Hx _ IH]; intros [|y b]; simpl; try done.
  specialize (Hx y). destruct (cmp x y).
  - rewrite (proj1 Hx eq_refl), IH. split; [by intros ->|by intros [= ->]].
  - split; [done|]. intros [= Hb _]. by apply Hx in Hb.
  - split; [done|]. intros [= Hb _]. by apply Hx in Hb.
Qed.

Lemma DiagnosticReason_Compare_eq r : ∀ o,
  DiagnosticReason_Compare r o = Eq ↔ bare r = bare o.
Proof.
  induction r as [s m cs IH] using DiagnosticReason_rect'. intros [s' m' cs'].
  rewrite DiagnosticReason_Compare_unfold, cmp_or_eq, !compare_eq, (CompareFunc_eq _ cs) by done.
  simpl. split; [by intros (-> & -> & ->)|]. intros [= H1 H2 H3]. done.
Qed.

(** The order only reads the bare tree, so equal reasons are interchangeable. *)
Lemma DiagnosticReason_Compare_bare r : ∀ o,
  DiagnosticReason_Compare (bare r) (bare o) = DiagnosticReason_Compare r o.
Proof.
  induction r as [s m cs IH] using DiagnosticReason_rect'. intros [s' m' cs'].
  rewrite (DiagnosticReason_Compare_unfold (bare _) (bare _)),
    (DiagnosticReason_Compare_unfold (mkReason s m cs)).
  cbn [bare r_Subject r_Message r_Causes d_ID DiagnosticForAbsent]. assert (CompareFunc DiagnosticReason_Compare (map bare cs) (map bare cs')
                 = CompareFunc DiagnosticReason_Compare cs cs') as ->; [|done].
  revert cs'. induction IH as [|x cs Hx _ IHcs]; intros [|y cs']; simpl; try done.
  by rewrite Hx, IHcs.
Qed.

Lemma Compare_eq_l x y z :
  DiagnosticReason_Compare x y = Eq → DiagnosticReason_Compare x z = DiagnosticReason_Compare y z.
Proof.
  intros Hb%DiagnosticReason_Compare_eq.
  by rewrite <-(DiagnosticReason_Compare_bare x), Hb, DiagnosticReason_Compare_bare.
Qed.

Lemma Compare_eq_r x y z :
  DiagnosticReason_Compare y z = Eq → DiagnosticReason_Compare x y = DiagnosticReason_Compare x z.
Proof.
  intros He. rewrite (DiagnosticReason_Compare_opp y x), (DiagnosticReason_Compare_opp z x).
  by rewrite (Compare_eq_l y z x).
Qed.

Lemma CompareFunc_trans (a b c : list DiagnosticReason) :
  Forall (λ x, ∀ y z, DiagnosticReason_Compare x y = Lt → DiagnosticReason_Compare y z = Lt →
                 DiagnosticReason_Compare x z = Lt) a →
  CompareFunc DiagnosticReason_Compare a b = Lt → CompareFunc DiagnosticReason_Compare b c = Lt →
  CompareFunc DiagnosticReason_Compare a c = Lt.
Proof.
  intros Ha. revert b c. induction Ha as [|x a Hx _ IH]; intros [|y b] [|z c]; simpl; try done.
  destruct (DiagnosticReason_Compare x y) eqn:E1; [|
    destruct (DiagnosticReason_Compare y z) eqn:E2; try done|done].
  - rewrite <-(Compare_eq_l x y z) by done. destruct (DiagnosticReason_Compare x z); eauto.
  - by rewrite <-(Compare_eq_r x y z), E1.
  - by rewrite (Hx y z).
Qed.

(** One lawful key of a lexicographic order. *)
Lemma cmp_or_step {B} `{LawfulCompare B} (x y z : B) l1 l2 l3 :
  (cmp_or l1 = Lt → cmp_or l2 = Lt → cmp_or l3 = Lt) →
  cmp_or (compare x y :: l1) = Lt → cmp_or (compare y z :: l2) = Lt →
  cmp_or (compare x z :: l3) = Lt.
Proof.
  intros Hl. destruct (compare x y) eqn:E1; [apply compare_eq in E1 as ->| |done].
  - simpl. by destruct (compare y z); eauto.
  - destruct (compare y z) eqn:E2; [apply compare_eq in E2 as ->; simpl; by rewrite E1| |done].
    simpl. by rewrite (compare_lt_trans x y z).
Qed.

Lemma DiagnosticReason_Compare_trans r : ∀ o p,
  DiagnosticReason_Compare r o = Lt → DiagnosticReason_Compare o p = Lt →
  DiagnosticReason_Compare r p = Lt.
Proof.
  induction r as [s m cs IH] using DiagnosticReason_rect'. intros [s' m' cs'] [s'' m'' cs''].
  rewrite !DiagnosticReason_Compare_unfold. cbn [r_Subject r_Message r_Causes].
  pose proof (CompareFunc_trans cs cs' cs'' IH) as Hc.
  apply (cmp_or_step s.(d_ID)), (cmp_or_step m). by rewrite !cmp_or_one.
Qed.

(** ** Properties *)

(** [DiagnosticReason.Compare] is a total order on failure reasons up to
    their display context: it is antisymmetric and transitive through nested
    causes, and equates exactly the reasons with the same identities, messages
    and causes. *)
Theorem DiagnosticReason_Compare_order :
  (∀ r o, DiagnosticReason_Compare o r = CompOpp (DiagnosticReason_Compare r o)) ∧
  (∀ r o p, DiagnosticReason_Compare r o ≠ Gt → DiagnosticReason_Compare o p ≠ Gt →
     DiagnosticReason_Compare r p ≠ Gt) ∧
  (∀ r o, DiagnosticReason_Compare r o = Eq ↔ bare r = bare o).
Proof.
  split_and!; [apply DiagnosticReason_Compare_opp| |apply DiagnosticReason_Compare_eq].
  intros r o p Hro Hop. destruct (DiagnosticReason_Compare r o) eqn:E1; [|
    destruct (DiagnosticReason_Compare o p) eqn:E2; try done|done].
  - by rewrite (Compare_eq_l r o p).
  - by rewrite <-(Compare_eq_r r o p), E1.
  - by rewrite (DiagnosticReason_Compare_trans r o p).
Qed.
