(* ===== verification/StoreStatus.v ===== *)
(** * Resource status in the store (pkg/store/status.go, status_message.go)

    The condition table of the store: what a resource's conditions are, the
    [StatusInfo] rollup read from the Ready condition, and the write path
    [setConditionLocked] with its no-op, provenance and in-place rules.  Every
    operation holds the lock of the one shard that owns the identity, so it is
    an atomic transformer; shards partition the identities, so one map stands
    for all of them. *)

From stdpp Require Import pretty.
From S2P Require Import Prelude Resource Diagnostic.

Inductive Status := StatusUnset | StatusPending | StatusReady | StatusFailed.

#[export] Instance Status_eq_dec : EqDecision Status.
Proof. solve_decision. Defined.

Definition ReasonSkipped := "Skipped".
Definition ReasonUnchanged := "Unchanged".
Definition ReasonSuspended := "Suspended".
Definition ReasonSucceeded := "Succeeded".
Definition ReasonFailed := "Failed".
Definition ReasonReconciling := "Reconciling".
Definition ConditionReady := "Ready".
Definition ConditionHealthy := "Healthy".
(** [metav1.ConditionStatus]. *)
Definition ConditionTrue := "True".
Definition ConditionFalse := "False".
Definition ConditionUnknown := "Unknown".

(** [dependencyCause] and [dependencyFailure]: immutable, so shared by value. *)
Definition dependencyCause : Type := NamedResource * DiagnosticReason.
Definition dependencyFailure : Type := list dependencyCause.

Record StatusInfo := mkInfo {
  i_Status : Status;
  i_Reason : string;
  i_Message : string;
  i_failure : option dependencyFailure;
  i_applyingObjects : Z;
}.

Definition no_info : StatusInfo := mkInfo StatusUnset "" "" None 0.

Inductive OutcomeClass :=
  | OutcomePending | OutcomePassed | OutcomeFailed | OutcomeBlocked
  | OutcomeSkipped | OutcomeUnchanged | OutcomeSuspended.

#[export] Instance OutcomeClass_eq_dec : EqDecision OutcomeClass.
Proof. solve_decision. Defined.

Definition IsDependencyFailure (i : StatusInfo) : bool := bool_decide (is_Some i.(i_failure)).

Definition Outcome (i : StatusInfo) : OutcomeClass :=
  match i.(i_Status) with
  | StatusFailed => if IsDependencyFailure i then OutcomeBlocked else OutcomeFailed
  | StatusReady =>
      if bool_decide (i.(i_Reason) = ReasonSkipped) then OutcomeSkipped
      else if bool_decide (i.(i_Reason) = ReasonUnchanged) then OutcomeUnchanged
      else if bool_decide (i.(i_Reason) = ReasonSuspended) then OutcomeSuspended
      else OutcomePassed
  | StatusPending | StatusUnset => OutcomePending
  end.

Definition IsUnavailable (i : StatusInfo) : bool :=
  match Outcome i with
  | OutcomeFailed | OutcomeBlocked | OutcomeSkipped | OutcomeSuspended => true
  | OutcomePending | OutcomePassed | OutcomeUnchanged => false
  end.

Definition BlockedBy (i : StatusInfo) : list NamedResource :=
  match i.(i_failure) with None => [] | Some causes => causes.*1 end.

(** ** Progress text that is not formatted until it is read *)

(** [strconv.AppendInt] in base 10 is [pretty]. *)
Definition appendApplying (buffer : string) (objects : Z) : string :=
  buffer +:+ "applying " +:+ pretty (int64 (objects - 1)) +:+ " objects".

Definition ApplyingStatus (objects : Z) : StatusInfo :=
  mkInfo StatusPending ReasonReconciling "" None (int64 (objects + 1)).

Definition StatusInfo_String (i : StatusInfo) : string :=
  if bool_decide (i.(i_applyingObjects) = 0%Z) then i.(i_Message)
  else appendApplying "" i.(i_applyingObjects).

Definition sameMessage (left : string) (leftObjects : Z) (right : string) (rightObjects : Z)
    : bool :=
  if bool_decide (leftObjects = rightObjects)
  then bool_decide (leftObjects ≠ 0%Z) || bool_decide (left = right)
  else if bool_decide (leftObjects ≠ 0%Z) && bool_decide (rightObjects ≠ 0%Z) then false
  else
    let '(objects, literal) :=
      if bool_decide (leftObjects = 0%Z) then (rightObjects, left) else (leftObjects, right) in
    bool_decide (appendApplying "" objects = literal).

(** ** Failure provenance *)

Definition DependencyReason (i : StatusInfo) (subject : DiagnosticIdentity) : DiagnosticReason :=
  match i.(i_failure) with
  | None => mkReason subject (StatusInfo_String i) []
  | Some causes => mkReason subject "" causes.*2
  end.

Definition newDependencyFailure (dep : DependencyFailedError) : option dependencyFailure :=
  if bool_decide (dep.(Failed) = []) then None
  else Some (sort_by (λ a b, compare a.1 b.1)
               (map (λ id, (id, subject_reason dep id)) dep.(Failed))).

(** [same]; nil is [None]. *)
Definition same (f o : option dependencyFailure) : bool :=
  match f, o with
  | None, None => true
  | Some f, Some o => bool_decide (f.*1 = o.*1)
  | _, _ => false
  end.

(** ** Conditions *)

(** [metav1.Condition]; the transition time is carried, never read. *)
Record Condition := mkCondition {
  c_Type : string;
  c_Status : string;
  c_ObservedGeneration : Z;
  c_LastTransitionTime : Z;
  c_Reason : string;
  c_Message : string;
}.

Definition with_message (m : string) (c : Condition) : Condition :=
  mkCondition c.(c_Type) c.(c_Status) c.(c_ObservedGeneration) c.(c_LastTransitionTime)
    c.(c_Reason) m.

Definition readyCondition (status : Status) (reason message : string) : Condition :=
  let '(st, r) :=
    match status with
    | StatusReady => (ConditionTrue, ReasonSucceeded)
    | StatusFailed => (ConditionFalse, ReasonFailed)
    | StatusPending | StatusUnset => (ConditionUnknown, ReasonReconciling)
    end in
  mkCondition ConditionReady st 0 0 (if bool_decide (reason ≠ "") then reason else r) message.

(** [state] is nil until the record is initialized; only its generation is
    modelled (the registration links of an authority are another component). *)
Record conditionRecord := mkRecord {
  generation : option Z;
  applyingObjects : Z;
  conditions : list Condition;
  failure : option dependencyFailure;
}.

(** The zero [conditionRecord], what a missing map key reads as. *)
Definition no_record : conditionRecord := mkRecord None 0 [] None.

Definition statusInfo (r : conditionRecord) : option StatusInfo :=
  '(_, c) ← list_find (λ c, c.(c_Type) = ConditionReady) r.(conditions);
  Some (if bool_decide (c.(c_Status) = ConditionTrue)
        then mkInfo StatusReady c.(c_Reason) c.(c_Message) None r.(applyingObjects)
        else if bool_decide (c.(c_Status) = ConditionFalse)
        then mkInfo StatusFailed c.(c_Reason) c.(c_Message) r.(failure) r.(applyingObjects)
        else mkInfo StatusPending c.(c_Reason) c.(c_Message) None r.(applyingObjects)).

Definition conditionEqual (a b : Condition) : bool :=
  bool_decide (a.(c_Type) = b.(c_Type)) && bool_decide (a.(c_Status) = b.(c_Status)) &&
  bool_decide (a.(c_Reason) = b.(c_Reason)) && bool_decide (a.(c_Message) = b.(c_Message)) &&
  bool_decide (a.(c_ObservedGeneration) = b.(c_ObservedGeneration)).

Definition project (r : conditionRecord) (cs : list Condition) : list Condition :=
  if bool_decide (r.(applyingObjects) ≠ 0%Z)
  then map (λ c, if bool_decide (c.(c_Type) = ConditionReady)
                 then with_message (StatusInfo_String (mkInfo StatusUnset "" "" None
                                                         r.(applyingObjects))) c
                 else c) cs
  else cs.

Definition conditionChanged (r : conditionRecord) (previous cond : Condition) (ready : bool)
    (objects' : Z) : bool :=
  let messageChanged :=
    if ready then negb (sameMessage previous.(c_Message) r.(applyingObjects)
                          cond.(c_Message) objects')
    else bool_decide (previous.(c_Message) ≠ cond.(c_Message)) in
  messageChanged || bool_decide (previous.(c_Status) ≠ cond.(c_Status)) ||
  bool_decide (previous.(c_Reason) ≠ cond.(c_Reason)) ||
  bool_decide (previous.(c_ObservedGeneration) ≠ cond.(c_ObservedGeneration)).

Definition retainsFailure (f : option dependencyFailure) (failureChanged : bool)
    (cond previous : Condition) : bool :=
  bool_decide (is_Some f) && negb failureChanged &&
  bool_decide (previous.(c_Status) = cond.(c_Status)) &&
  bool_decide (previous.(c_Reason) = cond.(c_Reason)).

Definition clearApplyingMessage (cond : Condition) (ready : bool) (objects : Z) : Condition :=
  if ready && bool_decide (objects ≠ 0%Z) then with_message "" cond else cond.

(** [advanceLocked]: the 64-bit generation, [None] when it would wrap (a panic). *)
Definition advanceLocked (r : conditionRecord) : option conditionRecord :=
  g ← r.(generation);
  if bool_decide (g = 2 ^ 64 - 1)%Z then None
  else Some (mkRecord (Some (g + 1)%Z) r.(applyingObjects) r.(conditions) r.(failure)).

(** [initializeConditionsLocked]; [canAdmit] is what the absence head answers. *)
Definition initializeConditionsLocked (canAdmit : bool) (r : conditionRecord)
    : option conditionRecord :=
  match r.(generation) with
  | Some _ => Some r
  | None => if canAdmit then Some (mkRecord (Some 0%Z) r.(applyingObjects) [] r.(failure))
            else None
  end.

(** The write of one condition.  The first condition of the same type is
    overwritten in place; the record is re-assigned only when its provenance
    changed.  The result is the stored record and whether the write is
    observable; [None] is a panic on an exhausted generation. *)
Definition setConditionLocked (canAdmit : bool) (record : conditionRecord) (condValue : Condition)
    (objects' : Z) (f : option dependencyFailure) : option (conditionRecord * bool) :=
  let ready := bool_decide (condValue.(c_Type) = ConditionReady) in
  let objectsChanged := ready && bool_decide (record.(applyingObjects) ≠ objects') in
  let cond := clearApplyingMessage condValue ready objects' in
  let failureChanged := ready && negb (same record.(failure) f) in
  match list_find (λ c, c.(c_Type) = cond.(c_Type)) record.(conditions) with
  | Some (i, previous) =>
      let changed := conditionChanged record previous cond ready objects' in
      if retainsFailure f failureChanged cond previous then Some (record, false)
      else
        record ← (if changed || failureChanged then advanceLocked record else Some record);
        let cs := if changed || objectsChanged then <[i := cond]> record.(conditions)
                  else record.(conditions) in
        let provenance := failureChanged || objectsChanged in
        Some (mkRecord record.(generation)
                (if provenance then objects' else record.(applyingObjects)) cs
                (if provenance then f else record.(failure)),
              changed || failureChanged)
  | None =>
      record ← initializeConditionsLocked canAdmit record;
      record ← advanceLocked record;
      Some (mkRecord record.(generation)
              (if ready then objects' else record.(applyingObjects))
              (record.(conditions) ++ [cond])
              (if failureChanged then f else record.(failure)), true)
  end.

(** ** The store's operations *)

(** What the status operations read of the store: the condition records, and,
    from the membership component, which identities have a hidden representative
    and which have an object. *)
Record Store := mkStore {
  records : gmap NamedResource conditionRecord;
  hidden : gset NamedResource;
  objects : gset NamedResource;
}.

Definition record_of (s : Store) (id : NamedResource) : conditionRecord :=
  default no_record (s.(records) !! id).

Definition set_record (id : NamedResource) (r : conditionRecord) (s : Store) : Store :=
  mkStore (<[id := r]> s.(records)) s.(hidden) s.(objects).

(** [setCondition]: the new store and the StatusUpdated payload it dispatches. *)
Definition setCondition (canAdmit : bool) (id : NamedResource) (cond : Condition) (objects' : Z)
    (f : option dependencyFailure) (s : Store) : option (Store * option StatusInfo) :=
  '(r, changed) ← setConditionLocked canAdmit (record_of s id) cond objects' f;
  let s' := set_record id r s in
  Some (s', if changed && negb (bool_decide (id ∈ s.(hidden)))
            then Some (default no_info (statusInfo r)) else None).

Definition UpdateStatus canAdmit id (info : StatusInfo) s :=
  setCondition canAdmit id (readyCondition info.(i_Status) info.(i_Reason) info.(i_Message))
    info.(i_applyingObjects) None s.

(** The error of [UpdateFailure] is its text and, when it is one, the
    [DependencyFailedError] found in its chain. *)
Definition UpdateFailure canAdmit id (message : string) (dep : option DependencyFailedError) s :=
  setCondition canAdmit id (readyCondition StatusFailed "" message) 0
    (dep ≫= newDependencyFailure) s.

Definition SetCondition canAdmit id (cond : Condition) s := setCondition canAdmit id cond 0 None s.

Definition GetStatus (s : Store) (id : NamedResource) : option StatusInfo :=
  if bool_decide (id ∈ s.(hidden)) then None else statusInfo (record_of s id).

(** [ReportStatus]; [reportHidden] is the declaration policy of the identity. *)
Definition ReportStatus (reportHidden : NamedResource → bool) (s : Store) (id : NamedResource)
    : StatusInfo * bool :=
  (default no_info (GetStatus s id), reportHidden id).

Definition FailedResources (s : Store) : gmap NamedResource StatusInfo :=
  map_imap (λ id r,
    if bool_decide (id ∉ s.(objects)) then None
    else i ← statusInfo r; if bool_decide (i.(i_Status) = StatusFailed) then Some i else None)
    s.(records).

(** ** Progress text *)

Lemma appendApplying_inj a b :
  is_int64 a → is_int64 b → appendApplying "" a = appendApplying "" b → a = b.
Proof.
  intros Ha Hb He. unfold appendApplying in He. apply (inj (String.append _)) in He.
  apply (inj (String.append _)), string_app_inj_r, (inj pretty) in He.
  by apply int64_pred_inj.
Qed.

(** The visible text of a message stored with its object count. *)
Definition visible (message : string) (objects' : Z) : string :=
  if bool_decide (objects' = 0%Z) then message else appendApplying "" objects'.

(** [sameMessage] is equality of the visible texts. *)
Lemma sameMessage_spec l lo r ro :
  is_int64 lo → is_int64 ro →
  sameMessage l lo r ro = true ↔ visible l lo = visible r ro.
Proof.
  intros Hl Hr. unfold sameMessage, visible.
  case_bool_decide as Heq; [subst ro|].
  { rewrite orb_true_iff, !bool_decide_eq_true. case_bool_decide; tauto. }
  case_bool_decide as Hl0; case_bool_decide as Hr0; simpl; repeat case_bool_decide;
    try congruence; try tauto; try (split; congruence).
  split; [done|]. by intros ?%appendApplying_inj.
Qed.

(** ** What a reader observes of the Ready condition *)

(** The condition's fields with the visible message, and the blocking identities. *)
Definition observable : Type := string * string * string * Z * option (list NamedResource).

Definition blockers (f : option dependencyFailure) : option (list NamedResource) :=
  (λ cs, cs.*1) <$> f.

Definition observe (r : conditionRecord) : option observable :=
  '(_, c) ← list_find (λ c, c.(c_Type) = ConditionReady) r.(conditions);
  Some (c.(c_Status), c.(c_Reason), visible c.(c_Message) r.(applyingObjects),
        c.(c_ObservedGeneration), blockers r.(failure)).

Definition requested (cond : Condition) (objects' : Z) (f : option dependencyFailure) : observable :=
  (cond.(c_Status), cond.(c_Reason), visible cond.(c_Message) objects',
   cond.(c_ObservedGeneration), blockers f).

Lemma same_spec f o : same f o = true ↔ blockers f = blockers o.
Proof.
  destruct f as [f|], o as [o|]; simpl; try done. rewrite bool_decide_eq_true.
  split; [by intros ->|by intros [= ->]].
Qed.

(** The representation invariant of a record. *)
Definition record_ok (r : conditionRecord) : Prop :=
  NoDup (map c_Type r.(conditions)) ∧
  match r.(generation) with
  | None => r = no_record
  | Some g => (0 < g < 2 ^ 64)%Z
  end ∧
  (observe r = None → r.(applyingObjects) = 0%Z ∧ r.(failure) = None) ∧
  is_int64 r.(applyingObjects).

Lemma list_find_set {A} (P : A → Prop) `{∀ x, Decision (P x)} (l : list A) i x y :
  list_find P l = Some (i, x) → P y → list_find P (<[i:=y]> l) = Some (i, y).
Proof.
  intros (Hi & _ & Hno)%list_find_Some Hy. apply list_find_Some.
  rewrite list_lookup_insert_eq by (apply lookup_lt_is_Some; eauto). split_and!; try done.
  intros j z Hj Hlt. rewrite list_lookup_insert_ne in Hj by lia. by eapply Hno.
Qed.

Lemma conditionChanged_spec r previous cond objects' :
  is_int64 r.(applyingObjects) → is_int64 objects' →
  conditionChanged r previous cond true objects' = false ↔
  visible previous.(c_Message) r.(applyingObjects) = visible cond.(c_Message) objects' ∧
  previous.(c_Status) = cond.(c_Status) ∧ previous.(c_Reason) = cond.(c_Reason) ∧
  previous.(c_ObservedGeneration) = cond.(c_ObservedGeneration).
Proof.
  intros Hr Ho. unfold conditionChanged.
  rewrite !orb_false_iff, !bool_decide_eq_false, negb_false_iff, sameMessage_spec by done.
  rewrite !not_ne. tauto.
Qed.

(** Clearing the text of a condition that carries a count is not visible. *)
Lemma visible_clear cond objects' :
  visible (clearApplyingMessage cond true objects').(c_Message) objects'
  = visible cond.(c_Message) objects'.
Proof. unfold clearApplyingMessage, visible. by repeat case_bool_decide. Qed.

Lemma clear_fields cond ready objects' :
  let c := clearApplyingMessage cond ready objects' in
  c.(c_Type) = cond.(c_Type) ∧ c.(c_Status) = cond.(c_Status) ∧ c.(c_Reason) = cond.(c_Reason) ∧
  c.(c_ObservedGeneration) = cond.(c_ObservedGeneration).
Proof. unfold clearApplyingMessage. by destruct (_ && _). Qed.

Lemma advance_fields r r' :
  advanceLocked r = Some r' →
  r'.(conditions) = r.(conditions) ∧ r'.(applyingObjects) = r.(applyingObjects) ∧
  r'.(failure) = r.(failure).
Proof.
  unfold advanceLocked. destruct (generation r); simpl; [|done].
  case_bool_decide; [done|]. by intros [= <-].
Qed.

(** The in-place write of an existing Ready condition. *)
Lemma written_observed r i previous cond' cond objects' f gen (b := bool_decide (r.(applyingObjects) ≠ objects')) :
  list_find (λ c, c.(c_Type) = ConditionReady) r.(conditions) = Some (i, previous) →
  cond'.(c_Type) = ConditionReady → is_int64 r.(applyingObjects) → is_int64 objects' →
  cond'.(c_Status) = cond.(c_Status) → cond'.(c_Reason) = cond.(c_Reason) →
  cond'.(c_ObservedGeneration) = cond.(c_ObservedGeneration) →
  visible cond'.(c_Message) objects' = visible cond.(c_Message) objects' →
  let fch := negb (same r.(failure) f) in
  let ch := conditionChanged r previous cond' true objects' in
  observe (mkRecord gen
             (if fch || b then objects' else r.(applyingObjects))
             (if ch || b then <[i := cond']> r.(conditions) else r.(conditions))
             (if fch || b then f else r.(failure)))
  = Some (requested cond objects' f).
Proof.
  intros Hfind Hty Hr Ho Hs Hre Hg Hv fch ch.
  assert (blockers (if fch || b then f else r.(failure)) = blockers f) as Hbl.
  { destruct (fch || b) eqn:E; [done|]. apply orb_false_iff in E as [E _].
    unfold fch in E. by rewrite negb_false_iff, same_spec in E. }
  assert ((if fch || b then objects' else r.(applyingObjects)) = objects') as ->.
  { destruct (fch || b) eqn:E; [done|]. apply orb_false_iff in E as [_ E].
    unfold b in E. by rewrite bool_decide_eq_false, not_ne in E. }
  unfold observe, requested; cbn [conditions applyingObjects failure]. rewrite Hbl.
  destruct (ch || b) eqn:Ech.
  - rewrite (list_find_set _ _ _ previous) by done. cbn. by rewrite Hs, Hre, Hg, Hv.
  - apply orb_false_iff in Ech as [Ech Eb]. rewrite Hfind. cbn.
    unfold b in Eb. rewrite bool_decide_eq_false, not_ne in Eb.
    apply conditionChanged_spec in Ech as (Hm & H1 & H2 & H3); [|done..].
    rewrite Eb in Hm. by rewrite Hm, H1, H2, H3, Hs, Hre, Hg, Hv.
Qed.

(** The effect of writing the Ready condition, as a reader observes it. *)
Lemma set_ready_spec ca r cond objects' f r' ch :
  record_ok r → is_int64 objects' → cond.(c_Type) = ConditionReady →
  setConditionLocked ca r cond objects' f = Some (r', ch) →
  (ch = false ↔ observe r' = observe r) ∧
  (observe r' = Some (requested cond objects' f) ∨
   (r' = r ∧ ∃ cs, f = Some cs ∧ blockers r.(failure) = Some cs.*1)).
Proof.
  intros Hok Hint Hty. unfold setConditionLocked. rewrite Hty.
  rewrite (bool_decide_eq_true_2 (ConditionReady = _)) by done. cbn [andb].
  destruct (clear_fields cond true objects') as (Ht & Hs & Hre & Hg).
  pose proof (visible_clear cond objects') as Hv.
  set (cond' := clearApplyingMessage cond true objects') in *. clearbody cond'.
  rewrite Ht, Hty. unfold observe at 2.
  destruct (list_find _ (conditions r)) as [[i previous]|] eqn:Hfind; cbn [mbind option_bind].
  - assert (is_int64 r.(applyingObjects)) as Hr by apply Hok.
    pose proof (conditionChanged_spec r previous cond' objects' Hr Hint) as Hch.
    set (fch := negb (same (failure r) f)). 
    assert (fch = false ↔ blockers (failure r) = blockers f) as Hfch
      by (unfold fch; by rewrite negb_false_iff, same_spec).
    destruct (retainsFailure f fch cond' previous) eqn:Hret.
    + intros [= <- <-]. unfold observe. rewrite Hfind. split; [done|]. right. split; [done|].
      unfold retainsFailure in Hret. rewrite !andb_true_iff, !bool_decide_eq_true in Hret.
      destruct Hret as [[[[cs ->] Hn] _] _]. exists cs. split; [done|].
      apply Hfch. by destruct fch.
    + assert (∀ r1 b, (if conditionChanged r previous cond' true objects' || fch
                       then advanceLocked r else Some r) = Some r1 →
        r' = mkRecord r1.(generation)
               (if fch || b then objects' else r1.(applyingObjects))
               (if conditionChanged r previous cond' true objects' || b
                then <[i := cond']> r1.(conditions) else r1.(conditions))
               (if fch || b then f else r1.(failure)) →
        b = bool_decide (r.(applyingObjects) ≠ objects') →
        observe r' = Some (requested cond objects' f)) as Hobs.
      { intros r1 b H1 -> ->.
        assert (conditions r1 = conditions r ∧ applyingObjects r1 = applyingObjects r ∧
                failure r1 = failure r) as (-> & -> & ->).
        { destruct (_ || fch); [by apply advance_fields|by injection H1 as <-]. }
        apply (written_observed r i previous cond' cond objects' f); try done.
        by rewrite Ht. }
      destruct (if _ || fch then advanceLocked r else Some r) as [r1|] eqn:H1; [|done].
      cbn [mbind option_bind]. intros [= <- <-].
      erewrite (Hobs r1 _ eq_refl eq_refl eq_refl). split; [|by left].
      rewrite orb_false_iff, Hch, Hfch, Hv, Hs, Hre, Hg. unfold requested.
      split; [by intros [(-> & -> & -> & ->) ->]|by intros [= -> -> -> -> ->]].
  - intros Hset.
    assert (observe r = None) as Hno by (unfold observe; by rewrite Hfind).
    destruct Hok as (_ & Hgen & Hclean & _). destruct (Hclean Hno) as [Ha Hf].
    destruct (initializeConditionsLocked ca r) as [r1|] eqn:Hinit; [|done]. cbn in Hset.
    assert (conditions r1 = conditions r ∧ failure r1 = failure r) as [Hc1 Hf1].
    { unfold initializeConditionsLocked in Hinit. destruct (generation r) eqn:Hgr; [by simplify_eq|].
      by destruct ca; simplify_eq. }
    destruct (advanceLocked r1) as [r2|] eqn:Hadv; [|done]. cbn in Hset.
    destruct (advance_fields _ _ Hadv) as (Hc2 & _ & Hf2). injection Hset as <- <-.
    assert (observe (mkRecord (generation r2) objects' (conditions r2 ++ [cond'])
              (if negb (same (failure r) f) then f else failure r2))
            = Some (requested cond objects' f)) as ->; [|split; [done|by left]].
    unfold observe; cbn [conditions applyingObjects failure].
    rewrite Hc2, Hc1, list_find_app_r by done. cbn [list_find]. rewrite Ht, Hty.
    rewrite decide_True by done. cbn. unfold requested. rewrite Hv, Hs, Hre, Hg.
    destruct (same (failure r) f) eqn:Hsame; [|done].
    cbn [negb]. rewrite Hf2, Hf1. by apply same_spec in Hsame as ->.
Qed.

(** ** Writing a condition of another type *)

Lemma list_find_set_other {A} (P Q : A → Prop) `{∀ x, Decision (P x), ∀ x, Decision (Q x)}
    (l : list A) i x y :
  list_find P l = Some (i, x) → ¬ Q x → ¬ Q y →
  snd <$> list_find Q (<[i:=y]> l) = snd <$> list_find Q l.
Proof.
  intros (Hi & _ & _)%list_find_Some Hx Hy. revert i Hi.
  induction l as [|z l IH]; intros [|i] Hi; simplify_eq/=.
  - by rewrite !decide_False by done.
  - destruct (decide (Q z)); [done|]. specialize (IH i Hi).
    destruct (list_find Q (<[i:=y]> l)) as [[]|], (list_find Q l) as [[]|]; simplify_eq/=; congruence.
Qed.

(** [observe] reads only the first Ready condition. *)
Lemma observe_ext r r' :
  snd <$> list_find (λ c, c.(c_Type) = ConditionReady) r'.(conditions)
  = snd <$> list_find (λ c, c.(c_Type) = ConditionReady) r.(conditions) →
  r'.(applyingObjects) = r.(applyingObjects) → r'.(failure) = r.(failure) →
  observe r' = observe r.
Proof.
  intros Hf Ha Hfl. unfold observe. rewrite Ha, Hfl.
  destruct (list_find _ (conditions r')) as [[]|], (list_find _ (conditions r)) as [[]|];
    by simplify_eq/=.
Qed.

Lemma set_other_spec ca r cond objects' f r' ch :
  record_ok r → cond.(c_Type) ≠ ConditionReady →
  setConditionLocked ca r cond objects' f = Some (r', ch) →
  observe r' = observe r ∧ r'.(applyingObjects) = r.(applyingObjects) ∧
  r'.(failure) = r.(failure).
Proof.
  intros (_ & Hgen & _) Hty. unfold setConditionLocked.
  rewrite (bool_decide_eq_false_2 (_ = ConditionReady)) by done. cbn [andb].
  destruct (clear_fields cond false objects') as (Ht & _).
  set (cond' := clearApplyingMessage cond false objects') in *. clearbody cond'.
  destruct (list_find _ (conditions r)) as [[i previous]|] eqn:Hfind.
  - destruct (retainsFailure _ _ _ _); [by intros [= <- <-]|].
    destruct (if _ || false then advanceLocked r else Some r) as [r1|] eqn:H1; [|done].
    cbn. intros [= <- <-].
    assert (conditions r1 = conditions r ∧ applyingObjects r1 = applyingObjects r ∧
            failure r1 = failure r) as (Hc & Ha & Hf).
    { destruct (_ || false); [by apply advance_fields|by injection H1 as <-]. }
    split; [|done]. apply observe_ext; cbn [conditions applyingObjects failure]; [|done..].
    rewrite Hc. destruct (_ || _); [|done].
    pose proof Hfind as (_ & Hp & _)%list_find_Some.
    eapply (list_find_set_other _ _ _ _ _ _ Hfind); congruence.
  - destruct (initializeConditionsLocked ca r) as [r1|] eqn:Hinit; [|done]. cbn.
    assert (conditions r1 = conditions r ∧ applyingObjects r1 = applyingObjects r ∧
            failure r1 = failure r) as (Hc1 & Ha1 & Hf1).
    { unfold initializeConditionsLocked in Hinit. destruct (generation r) eqn:Hgr; [by simplify_eq|].
      by destruct ca; simplify_eq. }
    destruct (advanceLocked r1) as [r2|] eqn:Hadv; [|done]. cbn.
    destruct (advance_fields _ _ Hadv) as (Hc2 & Ha2 & Hf2). intros [= <- <-].
    split; [|by cbn; rewrite Ha2, Hf2].
    apply observe_ext; cbn [conditions applyingObjects failure]; [|congruence..].
    rewrite Hc2, Hc1.
    destruct (list_find (λ c, c.(c_Type) = ConditionReady) (conditions r)) as [[j c]|] eqn:E.
    + by rewrite (list_find_app_l _ _ _ _ _ E).
    + rewrite (list_find_app_r _ _ _ E). cbn. by rewrite decide_False by congruence.
Qed.

(** ** The record invariant *)

Lemma advance_generation r r' g :
  advanceLocked r = Some r' → r.(generation) = Some g → (0 ≤ g < 2 ^ 64)%Z →
  ∃ g', r'.(generation) = Some g' ∧ (0 < g' < 2 ^ 64)%Z.
Proof.
  unfold advanceLocked. intros Hadv Hg Hr. rewrite Hg in Hadv. cbn in Hadv.
  case_bool_decide; [done|]. injection Hadv as <-. cbn. eexists. split; [done|]. lia.
Qed.

Lemma set_types (l : list Condition) i previous cond :
  l !! i = Some previous → cond.(c_Type) = previous.(c_Type) →
  map c_Type (<[i := cond]> l) = map c_Type l.
Proof.
  revert i. induction l as [|c l IH]; intros [|i]; simpl; try done.
  - by intros [= ->] ->.
  - intros. f_equal. by apply IH.
Qed.

Lemma setConditionLocked_ok ca r cond objects' f r' ch :
  record_ok r → is_int64 objects' →
  setConditionLocked ca r cond objects' f = Some (r', ch) → record_ok r'.
Proof.
  intros Hok Hint Hset.
  assert ((observe r' = None → r'.(applyingObjects) = 0%Z ∧ r'.(failure) = None)) as Hclean.
  { destruct (decide (cond.(c_Type) = ConditionReady)) as [Hty|Hty].
    - destruct (set_ready_spec _ _ _ _ _ _ _ Hok Hint Hty Hset) as [_ [->|[-> _]]]; [done|].
      apply Hok.
    - destruct (set_other_spec _ _ _ _ _ _ _ Hok Hty Hset) as (-> & -> & ->). apply Hok. }
  destruct Hok as (Hnd & Hgen & _ & Hra).
  unfold setConditionLocked in Hset.
  set (ready := bool_decide _) in Hset.
  destruct (clear_fields cond ready objects') as (Ht & _).
  set (cond' := clearApplyingMessage cond ready objects') in *. clearbody cond'.
  destruct (list_find _ (conditions r)) as [[i previous]|] eqn:Hfind.
  - destruct (retainsFailure _ _ _ _); [by injection Hset as <- <-|].
    destruct (if _ || _ then advanceLocked r else Some r) as [r1|] eqn:H1; [|done].
    cbn in Hset.
    destruct (generation r) as [g|] eqn:Hgr; [|by subst r].
    assert (conditions r1 = conditions r ∧ applyingObjects r1 = applyingObjects r ∧
            ∃ g', generation r1 = Some g' ∧ (0 < g' < 2 ^ 64)%Z) as (Hc & Ha & g' & Hg' & Hrg).
    { destruct (_ || _); [|injection H1 as <-; eauto].
      destruct (advance_fields _ _ H1) as (-> & -> & _).
      destruct (advance_generation _ _ _ H1 Hgr) as (g' & ? & ?); [lia|eauto]. }
    pose proof Hfind as (Hi & Hp & _)%list_find_Some.
    injection Hset as <- <-. split; [|split; [|split; [exact Hclean|]]].
    + cbn [conditions]. rewrite Hc. case_goal; [|done]. by rewrite (set_types _ _ previous).
    + cbn. by rewrite Hg'.
    + cbn [applyingObjects]. rewrite Ha. by case_goal.
  - destruct (initializeConditionsLocked ca r) as [r1|] eqn:Hinit; [|done]. cbn in Hset.
    destruct (advanceLocked r1) as [r2|] eqn:Hadv; [|done]. cbn in Hset.
    assert (conditions r1 = conditions r ∧ applyingObjects r1 = applyingObjects r ∧
            ∃ g, generation r1 = Some g ∧ (0 ≤ g < 2 ^ 64)%Z) as (Hc1 & Ha1 & g & Hg1 & Hrg).
    { unfold initializeConditionsLocked in Hinit. destruct (generation r) as [g|] eqn:Hgr.
      - injection Hinit as <-. rewrite Hgr. split_and!; eauto with lia.
      - destruct ca; [|done]. subst r. injection Hinit as <-. cbn. split_and!; eauto with lia. }
    destruct (advance_fields _ _ Hadv) as (Hc2 & Ha2 & Hf2).
    destruct (advance_generation _ _ _ Hadv Hg1 Hrg) as (g2 & Hg2 & Hr2).
    injection Hset as <- <-. split; [|split; [|split; [exact Hclean|]]].
    + cbn. rewrite Hc2, Hc1, map_app. apply NoDup_app. split_and!; [done| |apply NoDup_singleton].
      intros x (c & -> & Hc)%list_elem_of_fmap Hx%list_elem_of_singleton.
      apply list_find_None in Hfind. rewrite Forall_forall in Hfind. by apply (Hfind c).
    + cbn. by rewrite Hg2.
    + cbn. rewrite Ha2, Ha1. by destruct ready.
Qed.

(** ** The store invariant *)

Definition store_ok (s : Store) : Prop := ∀ id, record_ok (record_of s id).

Lemma no_record_ok : record_ok no_record.
Proof. split_and!; try done. constructor. Qed.

Lemma record_of_set id r s x :
  record_of (set_record id r s) x = if decide (x = id) then r else record_of s x.
Proof.
  unfold record_of; simpl. rewrite lookup_insert. destruct (decide (id = x)), (decide (x = id)); simpl; congruence.
Qed.

(** [observe] is what [statusInfo] rolls up. *)
Lemma statusInfo_observe r :
  match statusInfo r, observe r with
  | None, None => True
  | Some i, Some (st, reason, message, _, bl) =>
      i.(i_Status) = (if bool_decide (st = ConditionTrue) then StatusReady
                      else if bool_decide (st = ConditionFalse) then StatusFailed
                      else StatusPending) ∧
      i.(i_Reason) = reason ∧ StatusInfo_String i = message ∧
      (i.(i_Status) = StatusFailed → blockers i.(i_failure) = bl)
  | _, _ => False
  end.
Proof.
  unfold statusInfo, observe. destruct (list_find _ _) as [[j c]|]; [|done]. cbn.
  repeat case_bool_decide; split_and!; done.
Qed.

(** Provenance is only rolled up for a failure. *)
Lemma statusInfo_failure r i :
  statusInfo r = Some i → is_Some i.(i_failure) → i.(i_Status) = StatusFailed.
Proof.
  unfold statusInfo. destruct (list_find _ _) as [[j c]|]; [|done]. cbn. intros [= <-] [f Hf].
  repeat case_bool_decide; done.
Qed.

Lemma setCondition_inv ca id cond objects' f s s' ev :
  setCondition ca id cond objects' f s = Some (s', ev) →
  ∃ r ch, setConditionLocked ca (record_of s id) cond objects' f = Some (r, ch) ∧
    s' = set_record id r s ∧
    ev = (if ch && negb (bool_decide (id ∈ s.(hidden)))
          then Some (default no_info (statusInfo r)) else None).
Proof.
  unfold setCondition. intros H. apply bind_Some in H as ([r ch] & H & [= <- <-]). by eexists _, _.
Qed.

(** The record a Failed rollup comes from. *)
Lemma failed_record r i :
  statusInfo r = Some i → i.(i_Status) = StatusFailed →
  ∃ j c, list_find (λ c, c.(c_Type) = ConditionReady) r.(conditions) = Some (j, c) ∧
    c.(c_Status) = ConditionFalse ∧ c.(c_Reason) = i.(i_Reason) ∧ i.(i_failure) = r.(failure).
Proof.
  unfold statusInfo. destruct (list_find _ _) as [[j c]|]; [|done]. cbn. intros [= <-].
  repeat case_bool_decide; simpl; try done. intros _. by exists j, c.
Qed.

Lemma newDependencyFailure_nonempty dep f : newDependencyFailure dep = Some f → f ≠ [].
Proof.
  unfold newDependencyFailure. case_bool_decide as He; [done|]. intros [= <-] Hn.
  apply (f_equal length) in Hn. rewrite length_sort_by, length_map in Hn. by destruct (Failed dep).
Qed.

(** A failure with the same blockers, status and reason is retained as it is. *)
Lemma set_retained ca r cond objects' f j c :
  list_find (λ c, c.(c_Type) = ConditionReady) r.(conditions) = Some (j, c) →
  cond.(c_Type) = ConditionReady → c.(c_Status) = cond.(c_Status) →
  c.(c_Reason) = cond.(c_Reason) → same r.(failure) (Some f) = true →
  setConditionLocked ca r cond objects' (Some f) = Some (r, false).
Proof.
  intros Hfind Hty Hst Hre Hsame. unfold setConditionLocked. rewrite Hty.
  rewrite (bool_decide_eq_true_2 (ConditionReady = _)) by done. cbn [andb].
  destruct (clear_fields cond true objects') as (Ht & Hs & Hr & _).
  set (cond' := clearApplyingMessage cond true objects') in *. clearbody cond'.
  rewrite Ht, Hty, Hfind, Hsame. unfold retainsFailure. rewrite Hs, Hr.
  rewrite (bool_decide_eq_true_2 (is_Some _)) by eauto.
  rewrite (bool_decide_eq_true_2 (c_Status c = _)) by done.
  by rewrite (bool_decide_eq_true_2 (c_Reason c = _)).
Qed.

(** The status a write is read back as. *)
Definition stored_status (st : Status) : Status :=
  match st with StatusReady => StatusReady | StatusFailed => StatusFailed
              | StatusPending | StatusUnset => StatusPending end.

(** ** Properties *)

(** Claim C10: [UpdateStatus] is read back exactly: afterwards the identity shows the
    written status, reason (the status's normal one when empty), visible text
    (formatted progress included) and no blockers; no other identity changes, the
    record invariant (one condition per type, a live generation, provenance only
    with a Ready condition) is preserved, and the StatusUpdated event is
    dispatched exactly when the representative is visible and what a reader
    observes of it changed. *)
Theorem UpdateStatus_readback ca id info s s' ev :
  store_ok s → is_int64 info.(i_applyingObjects) →
  UpdateStatus ca id info s = Some (s', ev) →
  store_ok s' ∧
  (id ∉ s.(hidden) → ∃ i, GetStatus s' id = Some i ∧
     i.(i_Status) = stored_status info.(i_Status) ∧
     i.(i_Reason) = (readyCondition info.(i_Status) info.(i_Reason) "").(c_Reason) ∧
     StatusInfo_String i = StatusInfo_String info ∧ i.(i_failure) = None) ∧
  (∀ x, x ≠ id → record_of s' x = record_of s x) ∧
  (ev = None ↔ id ∈ s.(hidden) ∨ observe (record_of s' id) = observe (record_of s id)).
Proof.
  intros Hok Hint (r & ch & Hset & -> & ->)%setCondition_inv.
  set (cond := readyCondition _ _ _) in *.
  assert (c_Type cond = ConditionReady) as Hty by by destruct (i_Status info).
  destruct (set_ready_spec _ _ _ _ _ _ _ (Hok id) Hint Hty Hset) as [Hch [Hobs|[_ (? & [=] & _)]]].
  split; [|split; [|split]].
  - intros x. rewrite record_of_set. destruct (decide (x = id)) as [->|]; [|done].
    by eapply setConditionLocked_ok.
  - intros Hh. unfold GetStatus. simpl. rewrite bool_decide_eq_false_2 by done.
    rewrite record_of_set, decide_True by done.
    pose proof (statusInfo_observe r) as Hi. rewrite Hobs in Hi. unfold requested in Hi.
    destruct (statusInfo r) as [i|] eqn:Hsi; [|done]. exists i. split; [done|].
    destruct Hi as (H1 & H2 & H3 & H4).
    split; [by rewrite H1; unfold cond; destruct (i_Status info)|].
    split; [by rewrite H2; unfold cond; destruct (i_Status info)|].
    split; [by rewrite H3; unfold cond; destruct (i_Status info)|].
    destruct (i_failure i) eqn:E; [|done].
    specialize (H4 (statusInfo_failure _ _ Hsi ltac:(rewrite E; eauto))). done.
  - intros x Hx. by rewrite record_of_set, decide_False.
  - rewrite record_of_set, decide_True by done. rewrite <-Hch.
    destruct ch; cbn [andb]; [|tauto]. case_bool_decide; cbn; [tauto|].
    split; [done|]. by intros [|].
Qed.

(** An unchanged blocker set retains its first diagnostic, which bounds
    cyclic propagation: when the identity already failed because of exactly the
    same dependencies, [UpdateFailure] changes nothing and dispatches nothing,
    whatever the new error text is. *)
Theorem UpdateFailure_retained ca id message dep f s s' ev i :
  store_ok s → newDependencyFailure dep = Some f →
  statusInfo (record_of s id) = Some i → i.(i_Status) = StatusFailed →
  i.(i_Reason) = ReasonFailed → BlockedBy i = f.*1 →
  UpdateFailure ca id message (Some dep) s = Some (s', ev) →
  record_of s' id = record_of s id ∧ ev = None.
Proof.
  intros Hok Hf Hi Hst Hre Hbl (r & ch & Hset & -> & ->)%setCondition_inv.
  rewrite record_of_set, decide_True by done.
  cbn [mbind option_bind] in Hset. rewrite Hf in Hset.
  destruct (failed_record _ _ Hi Hst) as (j & c & Hfind & Hcs & Hcr & Hfl).
  assert (same (failure (record_of s id)) (Some f) = true) as Hsame.
  { apply same_spec. rewrite <-Hfl. apply newDependencyFailure_nonempty in Hf.
    unfold BlockedBy in Hbl. destruct (i_failure i); simpl; [by rewrite Hbl|].
    destruct f; [done|]. by simplify_eq/=. }
  rewrite (set_retained _ _ _ _ _ j c) in Hset; try done; [by simplify_eq|by simpl; congruence].
Qed.

(** The unformatted progress counter is indistinguishable from the text it
    stands for: two message/count pairs are the same message exactly when their
    visible texts are equal. *)
Theorem sameMessage_exact l lo r ro :
  is_int64 lo → is_int64 ro →
  sameMessage l lo r ro = true ↔
  StatusInfo_String (mkInfo StatusPending "" l None lo)
  = StatusInfo_String (mkInfo StatusPending "" r None ro).
Proof. apply sameMessage_spec. Qed.

(** [FailedResources] reports an identity exactly when its object is still
    in the store and its rollup is Failed, so a late write never resurrects a
    deleted resource. *)
Theorem FailedResources_exact s id i :
  FailedResources s !! id = Some i ↔
  id ∈ s.(objects) ∧ i.(i_Status) = StatusFailed ∧ statusInfo (record_of s id) = Some i.
Proof.
  unfold FailedResources, record_of. rewrite map_lookup_imap.
  destruct (records s !! id) as [r|]; simpl; [|by split; [|intros (_ & _ & [=])]].
  case_bool_decide as Ho; [by split; [|intros [? _]]|].
  destruct (statusInfo r) as [i'|]; simpl; [|naive_solver].
  case_bool_decide; naive_solver.
Qed.

(** A deferred progress status reads as the text with its object count, for
    every 64-bit count but -1 (whose successor is the empty counter). *)
Theorem ApplyingStatus_text n :
  is_int64 n → n ≠ (-1)%Z →
  StatusInfo_String (ApplyingStatus n) = "applying " +:+ pretty n +:+ " objects".
Proof.
  intros Hn Hne. unfold StatusInfo_String, ApplyingStatus, appendApplying; cbn [i_applyingObjects].
  rewrite bool_decide_eq_false_2, int64_sub_add; [done|done|].
  intros H0. apply Hne. rewrite <-(int64_sub_add n Hn), H0. reflexivity.
Qed.

(** ** Witnesses *)

Definition hr_app : NamedResource := mkResource HelmReleaseDomain "HelmRelease" "apps" "web".
Definition hr_db : NamedResource := mkResource HelmReleaseDomain "HelmRelease" "apps" "db".
Definition empty_store : Store := mkStore ∅ ∅ {[hr_app]}.
Definition db_failed : DependencyFailedError := mkDependencyFailed [hr_db] ∅.
Definition failed_store : Store :=
  from_option fst empty_store (UpdateFailure true hr_app "boom" (Some db_failed) empty_store).

Lemma empty_store_ok : store_ok empty_store.
Proof. intros id. unfold record_of. simpl. rewrite lookup_empty. apply no_record_ok. Qed.

Lemma failed_store_ok : store_ok failed_store.
Proof.
  intros x. unfold failed_store.
  destruct (UpdateFailure _ _ _ _ _) as [[s' ev]|] eqn:E; [|apply empty_store_ok].
  apply setCondition_inv in E as (r & ch & Hset & -> & _). cbn [fst from_option].
  rewrite record_of_set. destruct (decide (x = hr_app)); [|apply empty_store_ok].
  refine (setConditionLocked_ok _ _ _ _ _ _ _ (empty_store_ok hr_app) _ Hset). unfold is_int64; lia.
Qed.

Lemma UpdateStatus_readback_witness :
  ∃ s' ev i, UpdateStatus true hr_app (ApplyingStatus 3) empty_store = Some (s', ev) ∧
    GetStatus s' hr_app = Some i ∧ StatusInfo_String i = StatusInfo_String (ApplyingStatus 3).
Proof.
  eexists _, _. assert (UpdateStatus true hr_app (ApplyingStatus 3) empty_store = Some _) as H
    by reflexivity.
  destruct (UpdateStatus_readback true hr_app (ApplyingStatus 3) empty_store _ _
    empty_store_ok ltac:(vm_compute; split; [discriminate|reflexivity]) H) as (_ & Hi & _).
  destruct (Hi (not_elem_of_empty hr_app)) as (i & Hg & _ & _ & Hs & _).
  exists i. split; [exact H|]. split; [exact Hg|exact Hs].
Defined.

Lemma UpdateFailure_retained_witness :
  ∃ s' ev, UpdateFailure true hr_app "another text" (Some db_failed) failed_store = Some (s', ev) ∧
    ev = None.
Proof.
  eexists _, _.
  assert (UpdateFailure true hr_app "another text" (Some db_failed) failed_store = Some _) as H
    by reflexivity.
  split; [exact H|].
  eapply (UpdateFailure_retained true hr_app "another text" db_failed _ failed_store _ _ _
    failed_store_ok); [| | | | |exact H]; reflexivity.
Defined.

Lemma sameMessage_exact_witness :
  sameMessage "" 4 "applying 3 objects" 0 = true ∧ is_int64 4.
Proof.
  assert (is_int64 4) as H4 by (vm_compute; split; [discriminate|reflexivity]).
  split; [|exact H4]. apply (sameMessage_exact "" 4 "applying 3 objects" 0 H4);
    vm_compute; [split; [discriminate|reflexivity]|reflexivity].
Defined.

Lemma FailedResources_exact_witness :
  ∃ i, FailedResources failed_store !! hr_app = Some i ∧ Outcome i = OutcomeBlocked.
Proof.
  eexists. split; [apply FailedResources_exact; split; [|split]|].
  - vm_compute. reflexivity.
  - instantiate (1 := default no_info (statusInfo (record_of failed_store hr_app))). reflexivity.
  - reflexivity.
  - reflexivity.
Defined.

Lemma ApplyingStatus_text_witness :
  StatusInfo_String (ApplyingStatus 3) = "applying 3 objects".
Proof.
  apply (ApplyingStatus_text 3); [vm_compute; split; [discriminate|reflexivity]|discriminate].
Defined.
