(* ===== verification/Names.v ===== *)
(** * The labels of printed subjects (internal/output/names.go and the names of report.go)

    A report prints each subject by its kind and name.  Kinds that occur in more than one
    group are printed with their group, and the occurrences that decide it are counted once
    and adjusted for what one model or warning calls its subjects. *)

From S2P Require Import Prelude Resource Diagnostic.

(** ** Counting *)

(** [nameCount]: the count of the first group seen of a kind, and of the others. *)
Record nameCount := mkCount { group : string; count : Z; distinct : Z; others : gmap string Z }.

(** [adjust], with whether the kind now collides, or no longer does. *)
Definition adjust (e : nameCount) (g : string) (delta : Z) : bool * nameCount :=
  let before := if bool_decide (e.(group) ≠ g) then default 0%Z (e.(others) !! g) else e.(count) in
  let after := (before + delta)%Z in
  let '(count', others') := if bool_decide (e.(group) = g) then (after, e.(others)) else (e.(count), <[g := after]> e.(others)) in
  let distinct' :=
    if bool_decide (before = 0%Z) && (0 <? after)%Z then (e.(distinct) + 1)%Z
    else if (0 <? before)%Z && bool_decide (after = 0%Z) then (e.(distinct) - 1)%Z else e.(distinct) in
  (negb (Bool.eqb (1 <? distinct')%Z (1 <? e.(distinct))%Z), mkCount e.(group) count' distinct' others').

(** What [nameOccurrenceUpdater] closes over. *)
Record updater := mkUpdater { indices : gmap string nat; counts : list nameCount; collisions : gset string }.

Definition nameOccurrenceUpdater : updater := mkUpdater ∅ [] ∅.

(** Its [update]; [None] is an index out of range. *)
Definition update (u : updater) (kind g : string) (delta : Z) : option updater :=
  let '(index, indices', counts') := match u.(indices) !! kind with
    | Some i => (i, u.(indices), u.(counts))
    | None => let i := length u.(counts) in (i, <[kind := i]> u.(indices), u.(counts) ++ [mkCount g 0 0 ∅])
    end in
  e ← counts' !! index;
  let '(changed, e) := adjust e g delta in
  let collisions' := if changed then if (1 <? e.(distinct))%Z then {[kind]} ∪ u.(collisions) else u.(collisions) ∖ {[kind]} else u.(collisions) in
  Some (mkUpdater indices' (<[index := e]> counts') collisions').

Definition subjects_of : Type := gmap NamedResource DiagnosticIdentity.

(** The resource that an identity is printed as. *)
Definition shown (subjects : subjects_of) (raw : NamedResource) : NamedResource :=
  match subjects !! raw with Some subject => subject.(d_Resource) | None => raw end.

Fixpoint update_all (u : updater) (l : list (NamedResource * Z)) : option updater :=
  match l with [] => Some u | (id, delta) :: l => u ← update u id.(Kind) id.(Group) delta; update_all u l end.

(** [collectNameOccurrences], over the clusters with their subjects. *)
Definition collectNameOccurrences (u : updater) (clusters : list (list NamedResource * subjects_of)) : option updater :=
  update_all u (concat (map (λ c, map (λ raw, (shown c.2 raw, 1%Z)) c.1) clusters)).

(** [adjustNameOccurrences], in an order of its map. *)
Fixpoint adjustNameOccurrences (u : updater) (occurrences : list (NamedResource * Z)) (from to : subjects_of) : option updater :=
  match occurrences with
  | [] => Some u
  | (raw, count) :: rest =>
      let before := shown from raw in let after := shown to raw in
      u ← (if bool_decide (before ≠ after) then u ← update u before.(Kind) before.(Group) (- count); update u after.(Kind) after.(Group) count else Some u);
      adjustNameOccurrences u rest from to
  end.

(** The occurrences of an inventory, as [collectContexts] counts them. *)
Definition occurrences_of (inventory : list NamedResource) : gmap NamedResource Z :=
  foldl (λ m raw, <[raw := (default 0 (m !! raw) + 1)%Z]> m) ∅ inventory.

(** ** Labels *)

Section labels.
Context (quote : string → string).

Record Subject := mkSubject { s_ID : NamedResource; s_Kind : string; s_Name : string }.

(** [subjectLabels]. *)
Definition subjectLabels (resource : NamedResource) (path prefix : string) (collisions : gset string) : string * string :=
  let '(kind, name) :=
    if bool_decide (resource = no_resource) then ("entry", "path " +:+ quote path)
    else (resource.(Kind), NamespacedName resource +:+ (if bool_decide (path ≠ "") then " (entry path " +:+ quote path +:+ ")" else "")) in
  (if bool_decide (kind ∈ collisions) then KindLabel resource else kind, prefix +:+ name).

(** [prepareGroupNames]. *)
Definition prepareGroupNames (prefix : string) (inventory : list NamedResource) (subjects : subjects_of) (collisions : gset string) : gmap NamedResource Subject :=
  foldl (λ names id,
    if bool_decide (id = no_resource) then names
    else
      let subject := default (DiagnosticForAbsent id) (subjects !! id) in
      let '(kind, name) := subjectLabels subject.(d_Resource) subject.(d_Path) prefix collisions in
      <[id := mkSubject id kind name]> names) ∅ inventory.

(** The models of one cluster in [bindModels]: each that has subjects is prepared with its
    own, and the counts are put back; [order] is what a range over the map yields. *)
Fixpoint bindModels (prefix : string) (inventory : list NamedResource) (occurrences : list (NamedResource * Z)) (own : subjects_of) (u : updater) (models : list (option subjects_of))
    : option (updater * list (option (gmap NamedResource Subject))) :=
  match models with
  | [] => Some (u, [])
  | None :: models => '(u, names) ← bindModels prefix inventory occurrences own u models; Some (u, None :: names)
  | Some subjects :: models =>
      u ← adjustNameOccurrences u occurrences own subjects;
      let prepared := prepareGroupNames prefix inventory subjects u.(collisions) in
      u ← adjustNameOccurrences u occurrences subjects own;
      '(u, names) ← bindModels prefix inventory occurrences own u models;
      Some (u, Some prepared :: names)
  end.
End labels.

(** ** What is counted *)

(** The occurrences of a kind in a group. *)
Definition tally : Type := string → string → Z.

Definition add (f : tally) (id : NamedResource) (delta : Z) : tally := λ k g, (f k g + if bool_decide (id.(Kind) = k ∧ id.(Group) = g) then delta else 0)%Z.

(** The groups that a kind occurs in. *)
Definition groups_of (f : tally) (k : string) (S : gset string) : Prop := ∀ g, g ∈ S ↔ (0 < f k g)%Z.

Definition read (e : nameCount) (g : string) : Z := if bool_decide (e.(group) = g) then e.(count) else default 0%Z (e.(others) !! g).

Record counted (f : tally) (k : string) (e : nameCount) : Prop := mkCounted {
  ct_read : ∀ g, read e g = f k g;
  ct_groups : ∃ S, groups_of f k S ∧ e.(distinct) = Z.of_nat (size S);
}.

(** An updater counts a tally: a kind collides exactly when it occurs in several groups. *)
Record counting (f : tally) (u : updater) : Prop := mkCounting {
  cn_nonneg : ∀ k g, (0 ≤ f k g)%Z;
  cn_known : ∀ k i, u.(indices) !! k = Some i → ∃ e, u.(counts) !! i = Some e ∧ counted f k e;
  cn_other : ∀ k, u.(indices) !! k = None → ∀ g, f k g = 0%Z;
  cn_inj : ∀ k k' i, u.(indices) !! k = Some i → u.(indices) !! k' = Some i → k = k';
  cn_collisions : ∀ k, k ∈ u.(collisions) ↔ ∃ S, groups_of f k S ∧ 1 < size S;
}.

Section counts.
Implicit Types (f : tally) (u : updater) (k g : string) (id : NamedResource).

Lemma groups_unique f k S T : groups_of f k S → groups_of f k T → S = T.
Proof. intros HS HT. apply set_eq. intros g. by rewrite (HS g), (HT g). Qed.

Lemma add_same f id delta : add f id delta id.(Kind) id.(Group) = (f id.(Kind) id.(Group) + delta)%Z.
Proof. unfold add. by rewrite bool_decide_true. Qed.

Lemma add_other f id delta k g : (k, g) ≠ (id.(Kind), id.(Group)) → add f id delta k g = f k g.
Proof. intros Hne. unfold add. rewrite bool_decide_false; [lia |]. intros [<- <-]. done. Qed.

Lemma adjust_counted f id delta e : counted f id.(Kind) e → (∀ g, 0 ≤ f id.(Kind) g)%Z → (0 ≤ f id.(Kind) id.(Group) + delta)%Z →
  let '(changed, e') := adjust e id.(Group) delta in counted (add f id delta) id.(Kind) e' ∧ changed = negb (Bool.eqb (1 <? e'.(distinct))%Z (1 <? e.(distinct))%Z).
Proof.
  intros [Hr (S & HS & Hd)] Hn Ha. unfold adjust. set (before := if bool_decide (group e ≠ Group id) then _ else _).
  assert (before = f id.(Kind) id.(Group)) as Hb.
  { rewrite <- Hr. unfold before, read. destruct (bool_decide_reflect (group e = Group id)); [by rewrite (bool_decide_false (group e ≠ Group id)) by (by intros []) | by rewrite bool_decide_true]. }
  rewrite Hb. clear Hb before. set (before := f (Kind id) (Group id)) in *. set (pair := if bool_decide (group e = Group id) then _ else _). destruct pair as [count' others'] eqn:Ep.
  set (d' := if _ && _ then (distinct e + 1)%Z else _). cbn [distinct]. split; [| done]. split.
  - intros g. unfold pair in Ep. unfold read. cbn [group count others]. destruct (decide (g = Group id)) as [-> | Hg].
    + rewrite add_same. destruct (bool_decide_reflect (group e = Group id)); injection Ep as <- <-; [done |]. by rewrite lookup_insert_eq.
    + rewrite add_other by congruence. rewrite <- Hr. unfold read. destruct (bool_decide_reflect (group e = Group id)) as [Hge | Hge]; injection Ep as <- <-; [by rewrite Hge, !bool_decide_false by congruence |].
      destruct (bool_decide_reflect (group e = g)); [done | by rewrite lookup_insert_ne by congruence].
  - pose proof (Hn (Group id)) as Hnb. fold before in Hnb. assert (∀ T, (∀ g, g ≠ Group id → g ∈ T ↔ g ∈ S) → (Group id ∈ T ↔ (0 < before + delta)%Z) → groups_of (add f id delta) (Kind id) T) as HT.
    { intros T Hother Hself g. destruct (decide (g = Group id)) as [-> | Hg]; [by rewrite add_same |]. rewrite add_other by congruence. rewrite Hother by done. apply HS. }
    cbn [distinct]. unfold d'. destruct (bool_decide_reflect (before = 0%Z)) as [E0 | E0]; cbn [andb]; [destruct (Z.ltb_spec 0 (before + delta)) as [Hp | Hp] |].
    + exists ({[Group id]} ∪ S). split; [apply HT; set_solver |]. assert (Group id ∉ S) as Hni by (rewrite (HS (Group id)); fold before; lia). rewrite size_union, size_singleton by set_solver. lia.
    + exists S. split; [apply HT; [done |]; rewrite (HS (Group id)); fold before; lia |]. rewrite (proj2 (Z.ltb_ge 0 before)) by lia. cbn [andb]. done.
    + assert (Group id ∈ S) as Hi by (apply HS; fold before; lia). rewrite (proj2 (Z.ltb_lt 0 before)) by lia. cbn [andb]. destruct (bool_decide_reflect (before + delta = 0)%Z).
      * exists (S ∖ {[Group id]}). split; [apply HT; [intros g Hg; rewrite elem_of_difference, elem_of_singleton; tauto | rewrite elem_of_difference, elem_of_singleton; split; [tauto | lia]] |].
        rewrite size_difference by (by apply singleton_subseteq_l). rewrite size_singleton. assert (size S ≠ 0) by (intros Hz%size_empty_inv; by apply (Hz (Group id)) in Hi; apply elem_of_empty in Hi). lia.
      * exists S. split; [apply HT; [done |]; rewrite (HS (Group id)); fold before; lia | done].
Qed.
End counts.

Section updates.
Implicit Types (f : tally) (u : updater) (k g : string) (id : NamedResource) (l : list (NamedResource * Z)).

Lemma add_kind f id delta k g : k ≠ id.(Kind) → add f id delta k g = f k g.
Proof. intros Hk. apply add_other. congruence. Qed.

Lemma update_counting f u id delta : counting f u → (0 ≤ f id.(Kind) id.(Group) + delta)%Z → ∃ u', update u id.(Kind) id.(Group) delta = Some u' ∧ counting (add f id delta) u'.
Proof.
  intros [Hn Hknown Hother Hinj Hcol] Hd. unfold update. set (k := Kind id) in *. set (g := Group id) in *.
  set (st := match indices u !! k with Some i => _ | None => _ end). destruct st as [[i ind] cs] eqn:Est.
  assert (∃ e, cs !! i = Some e ∧ counted f k e ∧ ind !! k = Some i ∧ (∀ k', k' ≠ k → ind !! k' = u.(indices) !! k') ∧ (∀ k' j, k' ≠ k → u.(indices) !! k' = Some j → j ≠ i ∧ cs !! j = u.(counts) !! j)) as (e & Hi & He & Hik & Hio & Hco).
  { unfold st in Est. destruct (indices u !! k) as [j |] eqn:Ej; injection Est as <- <- <-.
    - destruct (Hknown k j Ej) as (e & Hj & He). exists e. split_and!; try done. intros k' j' Hk' Hj'. split; [| done]. intros ->. by apply Hk', (Hinj k' k j).
    - exists (mkCount g 0 0 ∅). split; [by rewrite lookup_app_r, Nat.sub_diag by done |]. split; [| split; [apply lookup_insert_eq |]].
      + split; [intros g'; rewrite (Hother k Ej); unfold read; cbn; case_bool_decide; [done | by rewrite lookup_empty] |]. exists ∅. split; [| by rewrite size_empty]. intros g'. rewrite (Hother k Ej), elem_of_empty. lia.
      + split; [intros k' Hk'; by rewrite lookup_insert_ne |]. intros k' j' Hk' Hj'. destruct (Hknown k' j' Hj') as (e' & He' & _). apply lookup_lt_Some in He' as Hlt. split; [lia | by rewrite lookup_app_l]. }
  rewrite Hi. cbn [mbind option_bind]. pose proof (adjust_counted f id delta e He (λ g', Hn (Kind id) g') Hd) as Ha. fold g in Ha. destruct (adjust e g delta) as [changed e']. destruct Ha as [He' Hch].
  eexists. split; [reflexivity |]. split; cbn [indices counts collisions].
  - intros k' g'. destruct (decide ((k', g') = (Kind id, Group id))) as [[= -> ->] | Hne]; [rewrite add_same; done | rewrite add_other by done; apply Hn].
  - intros k' j Hj. destruct (decide (k' = k)) as [-> | Hk'].
    + rewrite Hik in Hj. injection Hj as <-. exists e'. split; [apply list_lookup_insert_eq; by eapply lookup_lt_Some | done].
    + rewrite Hio in Hj by done. destruct (Hco k' j Hk' Hj) as [Hji Hcj]. destruct (Hknown k' j Hj) as (x & Hx & Hcx). exists x. rewrite list_lookup_insert_ne, Hcj by done. split; [done |].
      destruct Hcx as [Hr (S & HS & Hs)]. split; [intros g'; by rewrite add_kind | exists S; split; [intros g'; rewrite add_kind by done; apply HS | done]].
  - intros k' Hk' g'. assert (k' ≠ k) as Hne by congruence. rewrite add_kind by done. apply Hother. by rewrite <- Hio.
  - intros k1 k2 j H1 H2. destruct (decide (k1 = k)) as [-> | Hn1], (decide (k2 = k)) as [-> | Hn2]; [done | | |].
    + rewrite Hik in H1. injection H1 as <-. rewrite Hio in H2 by done. by destruct (Hco k2 i Hn2 H2).
    + rewrite Hik in H2. injection H2 as <-. rewrite Hio in H1 by done. by destruct (Hco k1 i Hn1 H1).
    + rewrite Hio in H1, H2 by done. by eapply Hinj.
  - intros k'. destruct (decide (k' = k)) as [-> | Hk'].
    + destruct He as [_ (S & HS & Hs)], He' as [_ (T & HT & Ht)]. assert (k ∈ u.(collisions) ↔ 1 < size S) as Hold.
      { rewrite Hcol. split; [intros (S' & HS' & ?); by rewrite (groups_unique f k S S') | intros ?; by exists S]. }
      assert ((∃ S', groups_of (add f id delta) k S' ∧ 1 < size S') ↔ 1 < size T) as -> by (split; [intros (S' & HS' & ?); by rewrite (groups_unique (add f id delta) k T S') | intros ?; by exists T]).
      rewrite Ht, Hs in Hch. rewrite Ht. destruct (Z.ltb_spec 1 (Z.of_nat (size T))), (Z.ltb_spec 1 (Z.of_nat (size S))); cbn in Hch; subst changed;
        rewrite ?elem_of_union, ?elem_of_difference, ?elem_of_singleton, ?Hold; split; try lia; try tauto; intros; lia || (exfalso; lia) || tauto.
    + assert ((∃ S', groups_of (add f id delta) k' S' ∧ 1 < size S') ↔ ∃ S', groups_of f k' S' ∧ 1 < size S') as ->.
      { split; intros (S' & HS' & ?); exists S'; (split; [| done]); intros g'; [rewrite <- (add_kind f id delta) by done | rewrite add_kind by done]; apply HS'. }
      rewrite <- Hcol. destruct changed; [| done]. destruct (1 <? _)%Z; set_solver.
Qed.

Definition total l : tally := λ k g, foldr (λ x n, ((if bool_decide (x.1.(Kind) = k ∧ x.1.(Group) = g) then x.2 else 0) + n)%Z) 0%Z l.
Definition plus (a b : tally) : tally := λ k g, (a k g + b k g)%Z.

Lemma total_cons id d l k g : total ((id, d) :: l) k g = ((if bool_decide (id.(Kind) = k ∧ id.(Group) = g) then d else 0) + total l k g)%Z.
Proof. done. Qed.

Lemma counting_ext f f' u : (∀ k g, f k g = f' k g) → counting f u → counting f' u.
Proof.
  intros He [H1 H2 H3 H4 H5]. assert (∀ k S, groups_of f k S ↔ groups_of f' k S) as Hg by (intros k S; unfold groups_of; by setoid_rewrite He). split.
  - intros k g. by rewrite <- He.
  - intros k i Hi. destruct (H2 k i Hi) as (e & Hx & [Hr (S & HS & ?)]). exists e. split; [done |]. split; [intros g; by rewrite Hr | exists S; by rewrite <- Hg].
  - intros k Hk g. rewrite <- He. by apply H3.
  - done.
  - intros k. rewrite H5. by setoid_rewrite Hg.
Qed.

Lemma counting_collisions f u u' : counting f u → counting f u' → u.(collisions) = u'.(collisions).
Proof. intros H H'. apply set_eq. intros k. by rewrite (cn_collisions _ _ H), (cn_collisions _ _ H'). Qed.

Lemma counting_start : counting (λ _ _, 0%Z) nameOccurrenceUpdater.
Proof.
  split; cbn; try done; try (intros; by simplify_map_eq). intros k. rewrite elem_of_empty. split; [done |]. intros (S & HS & Hlt). assert (S = ∅) as -> by (apply set_eq; intros g; rewrite (HS g), elem_of_empty; lia). by rewrite size_empty in Hlt; lia.
Qed.

Lemma total_nonneg l k g : (∀ x, x ∈ l → 0 ≤ x.2)%Z → (0 ≤ total l k g)%Z.
Proof.
  induction l as [| x l IH]; intros Hl; [done |]. cbn. specialize (IH (λ y Hy, Hl y ltac:(by right))). pose proof (Hl x ltac:(by left)). unfold total in IH. case_bool_decide; lia.
Qed.

Lemma total_perm l l' k g : l ≡ₚ l' → total l k g = total l' k g.
Proof. induction 1; cbn in *; unfold total in *; lia. Qed.

Lemma total_app l l' k g : total (l ++ l') k g = (total l k g + total l' k g)%Z.
Proof. induction l as [| x l IH]; [done |]. cbn in *. unfold total in *. lia. Qed.

Lemma update_all_counting f u l : counting f u → (∀ x, x ∈ l → 0 ≤ x.2)%Z → ∃ u', update_all u l = Some u' ∧ counting (plus f (total l)) u'.
Proof.
  revert f u. induction l as [| [id d] l IH]; intros f u Hu Hl.
  - exists u. split; [done |]. apply (counting_ext f); [| done]. intros k g. unfold plus. cbn. lia.
  - pose proof (Hl (id, d) ltac:(by left)) as Hd. cbn in Hd. pose proof (cn_nonneg _ _ Hu (Kind id) (Group id)). destruct (update_counting f u id d Hu ltac:(lia)) as (u1 & He & H1).
    destruct (IH _ _ H1 (λ x Hx, Hl x ltac:(by right))) as (u' & He' & H'). exists u'. cbn [update_all]. rewrite He. split; [done |]. eapply counting_ext, H'. intros k g. unfold plus, add. rewrite total_cons. lia.
Qed.

(** The occurrences that a list of identities stands for, as they are shown. *)
Definition shown_as (s : subjects_of) l : list (NamedResource * Z) := map (λ x, (shown s x.1, x.2)) l.

Lemma adjust_counting base u occ from to : (∀ k g, 0 ≤ base k g)%Z → (∀ x, x ∈ occ → 0 ≤ x.2)%Z → counting (plus base (total (shown_as from occ))) u →
  ∃ u', adjustNameOccurrences u occ from to = Some u' ∧ counting (plus base (total (shown_as to occ))) u'.
Proof.
  revert base u. induction occ as [| [raw c] occ IH]; intros base u Hb Hc Hu; [by exists u |]. cbn [adjustNameOccurrences]. pose proof (Hc (raw, c) ltac:(by left)) as Hcr. cbn in Hcr. assert (∀ x, x ∈ occ → 0 ≤ x.2)%Z as Hc' by (intros x Hx; apply Hc; by right).
  set (base' := add base (shown to raw) c). assert (∀ k g, 0 ≤ base' k g)%Z as Hb' by (intros k g; unfold base', add; specialize (Hb k g); case_bool_decide; lia).
  assert (∀ v, counting (plus base' (total (shown_as from occ))) v → ∃ u', adjustNameOccurrences v occ from to = Some u' ∧ counting (plus base (total (shown_as to ((raw, c) :: occ)))) u') as Hrest.
  { intros v Hv. destruct (IH base' v Hb' Hc' Hv) as (u' & He & Hu'). exists u'. split; [done |]. eapply counting_ext, Hu'. intros k g. unfold plus, base', add, shown_as. cbn [map fst snd]. rewrite total_cons. lia. }
  assert (∀ k g, 0 ≤ total (shown_as from occ) k g)%Z as Ht by (intros k g; apply total_nonneg; intros x (y & -> & Hy)%list_elem_of_fmap; exact (Hc' y Hy)).
  case_bool_decide as Hne.
  - set (f := plus base (total (shown_as from ((raw, c) :: occ)))) in *. assert (0 ≤ f (Kind (shown from raw)) (Group (shown from raw)) + - c)%Z as H0.
    { unfold f, plus, shown_as. cbn [map fst snd]. rewrite total_cons, bool_decide_true by done. specialize (Hb (Kind (shown from raw)) (Group (shown from raw))). specialize (Ht (Kind (shown from raw)) (Group (shown from raw))). unfold shown_as in Ht. lia. }
    destruct (update_counting f u (shown from raw) (- c) Hu H0) as (u1 & -> & H1). cbn [mbind option_bind]. pose proof (cn_nonneg _ _ H1 (Kind (shown to raw)) (Group (shown to raw))).
    destruct (update_counting _ u1 (shown to raw) c H1 ltac:(lia)) as (u2 & -> & H2). cbn [mbind option_bind]. apply Hrest. eapply counting_ext, H2. intros k g. unfold f, base', plus, add, shown_as. cbn [map fst snd]. rewrite total_cons. repeat case_bool_decide; lia.
  - cbn [mbind option_bind]. apply Hrest. eapply counting_ext, Hu. intros k g. assert (add (λ _ _, 0%Z) (shown from raw) c k g = add (λ _ _, 0%Z) (shown to raw) c k g) as He by (by rewrite Hne).
    unfold base', plus, add, shown_as in *. cbn [map fst snd]. rewrite total_cons. lia.
Qed.
End updates.

Section occurrences.
Implicit Types (inventory : list NamedResource) (s : subjects_of) (k g : string) (m : gmap NamedResource Z).

(** One occurrence of each identity, as it is shown. *)
Definition each s inventory : list (NamedResource * Z) := map (λ raw, (shown s raw, 1%Z)) inventory.

Lemma shown_perm s l l' k g : l ≡ₚ l' → total (shown_as s l) k g = total (shown_as s l') k g.
Proof. intros Hp. apply total_perm. unfold shown_as. by rewrite Hp. Qed.

Lemma count_one s m raw k g :
  total (shown_as s (map_to_list (<[raw := (default 0 (m !! raw) + 1)%Z]> m))) k g = (total (shown_as s (map_to_list m)) k g + total (each s [raw]) k g)%Z.
Proof.
  destruct (m !! raw) as [c |] eqn:Er; cbn [default].
  - rewrite (shown_perm s (map_to_list (<[raw := (c + 1)%Z]> m)) ((raw, c + 1)%Z :: map_to_list (delete raw m))), (shown_perm s (map_to_list m) ((raw, c) :: map_to_list (delete raw m))).
    + unfold each, shown_as. cbn [map fst snd]. rewrite !total_cons. case_bool_decide; cbn; lia.
    + symmetry. by apply map_to_list_delete.
    + rewrite <- insert_delete_eq. apply map_to_list_insert. apply lookup_delete_eq.
  - rewrite (shown_perm s _ ((raw, 0 + 1)%Z :: map_to_list m)) by (by apply map_to_list_insert). unfold each, shown_as. cbn [map fst snd]. rewrite !total_cons. case_bool_decide; cbn; lia.
Qed.

Lemma occurrences_total s inventory k g : total (shown_as s (map_to_list (occurrences_of inventory))) k g = total (each s inventory) k g.
Proof.
  induction inventory as [| raw inventory IH] using rev_ind; [unfold occurrences_of; cbn [foldl]; by rewrite map_to_list_empty |]. unfold occurrences_of in *. rewrite foldl_snoc, count_one, IH. unfold each. by rewrite map_app, total_app.
Qed.

Lemma occurrences_nonneg inventory x : x ∈ map_to_list (occurrences_of inventory) → (0 ≤ x.2)%Z.
Proof.
  destruct x as [raw c]. rewrite elem_of_map_to_list. cbn [snd]. revert raw c. induction inventory as [| r inventory IH] using rev_ind; intros raw c; unfold occurrences_of in *; [cbn [foldl]; by rewrite lookup_empty |].
  rewrite foldl_snoc. intros [[-> <-] | [_ Hc]]%lookup_insert_Some; [| by eapply IH]. destruct (foldl _ _ inventory !! raw) as [c' |] eqn:E; [apply IH in E; cbn; lia | cbn; lia].
Qed.

(** The tally of clusters. *)
Definition shown_all (clusters : list (list NamedResource * subjects_of)) : list NamedResource := concat (map (λ c, map (shown c.2) c.1) clusters).

Definition tally_of (clusters : list (list NamedResource * subjects_of)) : tally := total (concat (map (λ c, each c.2 c.1) clusters)).

Lemma collect_counting clusters : ∃ u, collectNameOccurrences nameOccurrenceUpdater clusters = Some u ∧ counting (tally_of clusters) u.
Proof.
  destruct (update_all_counting (λ _ _, 0%Z) nameOccurrenceUpdater (concat (map (λ c, each c.2 c.1) clusters)) counting_start) as (u & He & Hu).
  - intros x Hx. apply list_elem_of_In, List.in_concat in Hx as (l & Hl & Hx). apply List.in_map_iff in Hl as (c & <- & _). apply List.in_map_iff in Hx as (raw & <- & _). done.
  - exists u. split; [exact He |]. eapply counting_ext, Hu. intros k g. unfold plus, tally_of. lia.
Qed.

(** A tally is positive where something is shown. *)
Lemma tally_positive clusters k g : (0 < tally_of clusters k g)%Z ↔ ∃ x, x ∈ shown_all clusters ∧ x.(Kind) = k ∧ x.(Group) = g.
Proof.
  unfold tally_of, shown_all. assert (concat (map (λ c, each c.2 c.1) clusters) = map (λ x, (x, 1%Z)) (concat (map (λ c, map (shown c.2) c.1) clusters))) as ->.
  { induction clusters as [| c clusters IH]; [done |]. cbn [map concat]. rewrite IH, map_app. f_equal. unfold each. by rewrite map_map. }
  induction (concat (map (λ c, map (shown c.2) c.1) clusters)) as [| x l IH]; [split; [cbn; lia | intros (x & Hx & _); by apply elem_of_nil in Hx] |].
  cbn [map]. rewrite total_cons. pose proof (total_nonneg (map (λ x, (x, 1%Z)) l) k g) as Hn. assert (0 ≤ total (map (λ x, (x, 1%Z)) l) k g)%Z as Hn' by (apply Hn; by intros y (z & -> & _)%list_elem_of_fmap).
  setoid_rewrite elem_of_cons. case_bool_decide as Hx.
  - split; [intros _; exists x; tauto | lia].
  - rewrite Z.add_0_l, IH. split; [intros (y & ? & ?); exists y; tauto | intros (y & [-> | ?] & ?); [tauto | by exists y]].
Qed.

Lemma counting_collides clusters u k : counting (tally_of clusters) u → k ∈ u.(collisions) ↔ ∃ x y, x ∈ shown_all clusters ∧ y ∈ shown_all clusters ∧ x.(Kind) = k ∧ y.(Kind) = k ∧ x.(Group) ≠ y.(Group).
Proof.
  intros Hu. rewrite (cn_collisions _ _ Hu). split.
  - intros (S & HS & Hlt). destruct (size_pos_elem_of S) as [g Hg]; [lia |]. assert (0 < size (S ∖ {[g]})) as Hlt' by (rewrite size_difference by (by apply singleton_subseteq_l); rewrite size_singleton; lia).
    destruct (size_pos_elem_of _ Hlt') as [g' Hg']. apply elem_of_difference in Hg' as [Hg' Hne]. rewrite elem_of_singleton in Hne. apply HS, tally_positive in Hg as (x & ? & ? & ?). apply HS, tally_positive in Hg' as (y & ? & ? & ?).
    exists x, y. split_and!; try done. congruence.
  - intros (x & y & Hx & Hy & Hkx & Hky & Hne). set (S := list_to_set (map Group (filter (λ z, z.(Kind) = k) (shown_all clusters))) : gset string). exists S. split.
    + intros g. unfold S. rewrite elem_of_list_to_set, list_elem_of_fmap, tally_positive. setoid_rewrite list_elem_of_filter. naive_solver.
    + assert ({[x.(Group)]} ∪ {[y.(Group)]} ⊆ S) as Hsub.
      { intros g [->%elem_of_singleton | ->%elem_of_singleton]%elem_of_union; apply elem_of_list_to_set, list_elem_of_fmap; [exists x | exists y]; by rewrite list_elem_of_filter. }
      apply subseteq_size in Hsub. rewrite size_union, !size_singleton in Hsub by set_solver. lia.
Qed.

Lemma tally_replace pre post inventory s k g : tally_of (pre ++ (inventory, s) :: post) k g = (tally_of pre k g + tally_of post k g + total (each s inventory) k g)%Z.
Proof. unfold tally_of. rewrite map_app, concat_app. cbn [map concat fst snd]. rewrite !total_app. lia. Qed.

Lemma tally_nonneg clusters k g : (0 ≤ tally_of clusters k g)%Z.
Proof. apply total_nonneg. intros x Hx. apply list_elem_of_In, List.in_concat in Hx as (l & Hl & Hx). apply List.in_map_iff in Hl as (c & <- & _). apply List.in_map_iff in Hx as (raw & <- & _). done. Qed.

(** Adjusting one cluster leaves what collecting it with the other subjects would. *)
Lemma adjust_cluster pre post inventory from to order u : order ≡ₚ map_to_list (occurrences_of inventory) → counting (tally_of (pre ++ (inventory, from) :: post)) u →
  ∃ u', adjustNameOccurrences u order from to = Some u' ∧ counting (tally_of (pre ++ (inventory, to) :: post)) u'.
Proof.
  intros Ho Hu. assert (∀ s k g, total (shown_as s order) k g = total (each s inventory) k g) as Ht by (intros s k g; rewrite (shown_perm s order _ k g Ho); apply occurrences_total).
  destruct (adjust_counting (λ k g, (tally_of pre k g + tally_of post k g)%Z) u order from to) as (u' & He & Hu').
  - intros k g. pose proof (tally_nonneg pre k g). pose proof (tally_nonneg post k g). lia.
  - intros x Hx. apply (occurrences_nonneg inventory). by rewrite <- Ho.
  - eapply counting_ext, Hu. intros k g. unfold plus. by rewrite tally_replace, Ht.
  - exists u'. split; [done |]. eapply counting_ext, Hu'. intros k g. unfold plus. by rewrite tally_replace, Ht.
Qed.

Lemma bindModels_spec quote pre post prefix inventory own order models u : order ≡ₚ map_to_list (occurrences_of inventory) → counting (tally_of (pre ++ (inventory, own) :: post)) u →
  ∃ u' names, bindModels quote prefix inventory order own u models = Some (u', names) ∧ counting (tally_of (pre ++ (inventory, own) :: post)) u' ∧
    Forall2 (λ model name, match model with
      | Some subjects => ∃ v, collectNameOccurrences nameOccurrenceUpdater (pre ++ (inventory, subjects) :: post) = Some v ∧ name = Some (prepareGroupNames quote prefix inventory subjects v.(collisions))
      | None => name = None
      end) models names.
Proof.
  intros Ho. revert u. induction models as [| [s |] models IH]; intros u Hu; cbn [bindModels].
  - exists u, []. split; [done |]. by split.
  - destruct (adjust_cluster pre post inventory own s order u Ho Hu) as (u1 & -> & H1). cbn [mbind option_bind]. destruct (adjust_cluster pre post inventory s own order u1 Ho H1) as (u2 & -> & H2). cbn [mbind option_bind].
    destruct (IH u2 H2) as (u' & names & -> & Hu' & Hf). cbn [mbind option_bind]. eexists u', _. split; [reflexivity |]. split; [done |]. constructor; [| done].
    destruct (collect_counting (pre ++ (inventory, s) :: post)) as (v & Hv & Hcv). exists v. split; [done |]. by rewrite (counting_collisions _ _ _ H1 Hcv).
  - destruct (IH u Hu) as (u' & names & -> & Hu' & Hf). cbn [mbind option_bind]. eexists u', _. split; [reflexivity |]. split; [done |]. by constructor.
Qed.
End occurrences.

(** Claim C27: the occurrences of a report are counted once.  A kind collides exactly when
    what is shown of the clusters has it in two groups; and whatever order the counts are
    adjusted in, each model of a cluster is labelled as if the whole report had been counted
    anew with the subjects of that model, and afterwards as before. *)
Theorem bindModels_exact quote pre post prefix inventory own order models : order ≡ₚ map_to_list (occurrences_of inventory) →
  let clusters s := pre ++ (inventory, s) :: post in
  ∃ u u' names, collectNameOccurrences nameOccurrenceUpdater (clusters own) = Some u ∧ bindModels quote prefix inventory order own u models = Some (u', names) ∧ u'.(collisions) = u.(collisions) ∧
  (∀ k, k ∈ u.(collisions) ↔ ∃ x y, x ∈ shown_all (clusters own) ∧ y ∈ shown_all (clusters own) ∧ x.(Kind) = k ∧ y.(Kind) = k ∧ x.(Group) ≠ y.(Group)) ∧
  Forall2 (λ model name, match model with
    | Some subjects => ∃ v, collectNameOccurrences nameOccurrenceUpdater (clusters subjects) = Some v ∧ name = Some (prepareGroupNames quote prefix inventory subjects v.(collisions))
    | None => name = None
    end) models names.
Proof.
  intros Ho clusters. destruct (collect_counting (clusters own)) as (u & He & Hu). destruct (bindModels_spec quote pre post prefix inventory own order models u Ho Hu) as (u' & names & Hb & Hu' & Hf).
  exists u, u', names. split; [done |]. split; [done |]. split; [by apply (counting_collisions _ _ _ Hu' Hu) |]. split; [intros k; by apply counting_collides | done].
Qed.

Lemma kind_dot_neq k g : k = k +:+ "." +:+ g → False.
Proof. induction k as [| c k IH]; [done |]. intros H. injection H. exact IH. Qed.

Lemma label_kind quote r p prefix c : r ≠ no_resource → (subjectLabels quote r p prefix c).1 = if bool_decide (r.(Kind) ∈ c) then KindLabel r else r.(Kind).
Proof. intros Hr. unfold subjectLabels. by rewrite bool_decide_false by done. Qed.

(** Two shown resources of one kind in two groups are never labelled alike. *)
Theorem collisions_labelled quote clusters u x y px py prefix : collectNameOccurrences nameOccurrenceUpdater clusters = Some u → x ∈ shown_all clusters → y ∈ shown_all clusters →
  x.(Kind) = y.(Kind) → x.(Group) ≠ y.(Group) → x ≠ no_resource → y ≠ no_resource → (subjectLabels quote x px prefix u.(collisions)).1 ≠ (subjectLabels quote y py prefix u.(collisions)).1.
Proof.
  intros He Hx Hy Hk Hg Hxn Hyn. destruct (collect_counting clusters) as (u' & He' & Hu). rewrite He in He'. injection He' as <-.
  assert (x.(Kind) ∈ u.(collisions)) as Hc by (apply (counting_collides clusters u _ Hu); exists x, y; split_and!; done). rewrite !label_kind by done. rewrite <- Hk, !bool_decide_true by done.
  unfold KindLabel. rewrite <- Hk. destruct (bool_decide_reflect (x.(Group) = "")) as [Ex | Ex], (bool_decide_reflect (y.(Group) = "")) as [Ey | Ey]; [congruence | | |]; intros H.
  - by apply kind_dot_neq in H.
  - symmetry in H. by apply kind_dot_neq in H.
  - apply (inj (String.append _)) in H. by injection H.
Qed.

(** A cluster with two Services of different groups, of which a model shows one as another
    kind. *)
Section example_names.
Let service : NamedResource := mkResource "" "Service" "apps" "web".
Let knative : NamedResource := mkResource "serving.knative.dev" "Service" "apps" "web".
Let entry : NamedResource := mkResource "apps" "Deployment" "apps" "web".
Let inventory := [service; knative; service].
Let subjects : subjects_of := {[knative := mkDiagnosticIdentity knative entry ""]}.

Example two_services : match collectNameOccurrences nameOccurrenceUpdater [(inventory, ∅)] with
  | Some u => match bindModels (λ s, s) "" inventory (map_to_list (occurrences_of inventory)) ∅ u [Some ∅; Some subjects; None] with
      | Some (u', [Some a; Some b; None]) => (elements u'.(collisions), s_Kind <$> a !! service, s_Kind <$> b !! service)
      | _ => ([], None, None)
      end
  | None => ([], None, None)
  end = (["Service"], Some "Service", Some "Service").
Proof. vm_compute. reflexivity. Qed.

Lemma bindModels_exact_witness : ∃ u u' names, collectNameOccurrences nameOccurrenceUpdater [(inventory, ∅)] = Some u ∧
  bindModels (λ s, s) "" inventory (map_to_list (occurrences_of inventory)) ∅ u [Some subjects; None] = Some (u', names) ∧ u'.(collisions) = u.(collisions).
Proof.
  destruct (bindModels_exact (λ s, s) [] [] "" inventory ∅ (map_to_list (occurrences_of inventory)) [Some subjects; None] ltac:(reflexivity)) as (u & u' & names & H1 & H2 & H3 & _).
  exists u, u', names. split; [exact H1 |]. split; [exact H2 | exact H3].
Defined.
End example_names.
