(* ===== verification/Events.v ===== *)
(** * Store events (pkg/store/events.go)

    Listener sets with immutable snapshots, the dispatches a writer captures
    under its shard lock and runs after unlocking, and the registration that
    replays the existing state.  A critical section (one shard's write lock, or
    all of them) is one atomic action; the invocations it leaves behind are a
    thread that runs later, interleaved with every other one.

    The store's state is a parameter of the section: the replayable payloads of a
    state ([snapshotForReplay]) are an argument, given for the status events by
    [collectReplay] on the condition records.  Payloads that are an [*Emission] and
    have become stale, which the object replay drops, are not modelled. *)

From S2P Require Import Prelude Resource Diagnostic StoreStatus.

Definition EventObjectAdded : Z := 1.
Definition EventStatusUpdated : Z := 2.
Definition EventArtifactUpdated : Z := 3.
Definition numEventKinds : Z := 3.

Section events.
Context {St P : Type} (snapshotForReplay : Z → St → list (NamedResource * P)).

(** A listener, of which only whether it panics is visible to the store. *)
Definition Listener : Type := NamedResource → P → bool.

Record listenerEntry := mkEntry { e_id : Z; fn : Listener }.

Record listenerSet := mkSet { snapshot : list listenerEntry; nextID : Z }.

Definition newListenerSet : listenerSet := mkSet [] 0.

Definition add (l : listenerSet) (f : Listener) : listenerSet * Z :=
  let id := int64 (l.(nextID) + 1) in
  (mkSet (l.(snapshot) ++ [mkEntry id f]) id, id).

Definition remove (l : listenerSet) (id : Z) : listenerSet :=
  match list_find (λ e, e.(e_id) = id) l.(snapshot) with
  | None => l
  | Some (i, _) => mkSet (delete i l.(snapshot)) l.(nextID)
  end.

(** One pending invocation: the entry captured in a snapshot, and its arguments.
    The event kind is recorded for the proofs, to tell handles of different sets apart. *)
Record call := mkCall { c_event : Z; c_entry : listenerEntry; c_id : NamedResource; c_payload : P }.

Record eventDispatch := mkDispatch {
  d_event : Z;
  d_id : NamedResource;
  listeners : list listenerEntry;
  payload : P;
}.

(** [eventDispatch.run], as the invocations it makes in order. *)
Definition run (e : eventDispatch) : list call :=
  map (λ entry, mkCall e.(d_event) entry e.(d_id) e.(payload)) e.(listeners).

Definition dispatchEvents (events : list eventDispatch) : list call :=
  concat (map run (sort_by (λ a b, compare a.(d_id) b.(d_id)) events)).

(** The store as the event operations see it, the goroutines that still owe
    invocations, the invocations made, and the panics that were logged. *)
Record config := mkConfig {
  store : St;
  sets : gmap Z listenerSet;
  threads : list (list call);
  invoked : list call;
  panics : list NamedResource;
}.

Definition initial (s : St) : config :=
  mkConfig s
    (<[EventObjectAdded := newListenerSet]> (<[EventStatusUpdated := newListenerSet]>
       {[EventArtifactUpdated := newListenerSet]})) [] [] [].

(** [fireUnderLock] with the payload its caller adds. *)
Definition fireUnderLock (c : config) (f : Z * NamedResource * P) : option eventDispatch :=
  set ← c.(sets) !! f.1.1; Some (mkDispatch f.1.1 f.1.2 set.(snapshot) f.2).

Definition spawn (c : config) (calls : list call) : config :=
  mkConfig c.(store) c.(sets) (c.(threads) ++ [calls]) c.(invoked) c.(panics).

Definition set_listeners (c : config) (event : Z) (l : listenerSet) : config :=
  mkConfig c.(store) (<[event := l]> c.(sets)) c.(threads) c.(invoked) c.(panics).

(** [AddListener]; [None] is its panic. *)
Definition AddListener (c : config) (event : Z) (f : Listener) (flush : bool)
    : option (config * Z) :=
  if (event <? 1)%Z || (numEventKinds <? event)%Z then None
  else
    set ← c.(sets) !! event;
    let '(set, handle) := add set f in
    let c := set_listeners c event set in
    Some (if flush
          then spawn c (map (λ ip, mkCall event (mkEntry handle f) ip.1 ip.2)
                          (snapshotForReplay event c.(store)))
          else c,
          handle).

(** A writer's critical section: the new state, and the events it fires. *)
Definition write (c : config) (s : St) (fired : list (Z * NamedResource * P)) : option config :=
  events ← mapM (fireUnderLock c) fired;
  Some (spawn (mkConfig s c.(sets) c.(threads) c.(invoked) c.(panics)) (dispatchEvents events)).

(** The function [AddListener] returns. *)
Definition Unsubscribe (c : config) (event handle : Z) : option config :=
  set ← c.(sets) !! event; Some (set_listeners c event (remove set handle)).

(** [safeInvoke]: the listener's panic is logged, and the goroutine goes on. *)
Definition safeInvoke (c : config) (k : call) : config :=
  mkConfig c.(store) c.(sets) c.(threads) (c.(invoked) ++ [k])
    (if k.(c_entry).(fn) k.(c_id) k.(c_payload) then c.(panics) ++ [k.(c_id)] else c.(panics)).

Definition deliver (c : config) (i : nat) : option config :=
  match c.(threads) !! i with
  | Some (k :: rest) =>
      Some (safeInvoke (mkConfig c.(store) c.(sets) (<[i := rest]> c.(threads)) c.(invoked) c.(panics)) k)
  | _ => None
  end.

(** What happens, in the order of the critical sections and the invocations. *)
Inductive action :=
  | Write (s : St) (fired : list (Z * NamedResource * P))
  | Add (event : Z) (f : Listener) (flush : bool)
  | Remove (event handle : Z)
  | Deliver (i : nat).

Definition exec (c : config) (a : action) : option config :=
  match a with
  | Write s fired => write c s fired
  | Add event f flush => fst <$> AddListener c event f flush
  | Remove event handle => Unsubscribe c event handle
  | Deliver i => deliver c i
  end.

Fixpoint exec_all (c : config) (h : list action) : option config :=
  match h with
  | [] => Some c
  | a :: h => c ← exec c a; exec_all c h
  end.

(** ** What a listener is owed *)

Definition calls_of (event h : Z) (l : list call) : list (NamedResource * P) :=
  (λ k, (k.(c_id), k.(c_payload))) <$>
    filter (λ k, k.(c_event) = event ∧ k.(c_entry).(e_id) = h) l.

(** The events of the kind fired up to the listener's removal. *)
Definition fired_of (event : Z) (fired : list (Z * NamedResource * P)) : list (NamedResource * P) :=
  (λ f, (f.1.2, f.2)) <$> filter (λ f, f.1.1 = event) fired.

Fixpoint fired_until (event h : Z) (hist : list action) : list (NamedResource * P) :=
  match hist with
  | [] => []
  | Write _ fired :: hist => fired_of event fired ++ fired_until event h hist
  | Remove e h' :: hist => if bool_decide (e = event ∧ h' = h) then [] else fired_until event h hist
  | _ :: hist => fired_until event h hist
  end.

Definition pending (c : config) : list call := concat c.(threads).

Definition quiescent (c : config) : Prop := pending c = [].

(** Handles are positive, unique in a set and no greater than the last one given. *)
Definition set_ok (c : config) (event : Z) (n : nat) : Prop :=
  ∀ l, c.(sets) !! event = Some l →
    (0 ≤ l.(nextID) ≤ Z.of_nat n)%Z ∧ NoDup (map e_id l.(snapshot)) ∧
    (∀ e, e ∈ l.(snapshot) → e.(e_id) ≤ l.(nextID))%Z ∧
    (∀ k, k ∈ c.(invoked) ++ pending c → k.(c_event) = event → k.(c_entry).(e_id) ≤ l.(nextID))%Z.

Definition ok (c : config) (n : nat) : Prop := ∀ event, set_ok c event n.

Definition registered (c : config) (event h : Z) : bool :=
  match c.(sets) !! event with
  | Some l => bool_decide (h ∈ map e_id l.(snapshot))
  | None => false
  end.

(** A handle the set has already given out. *)
Definition known (c : config) (event h : Z) : Prop :=
  ∃ l, c.(sets) !! event = Some l ∧ (h ≤ l.(nextID))%Z.

Definition owed (c : config) (event h : Z) : list (NamedResource * P) :=
  calls_of event h (c.(invoked) ++ pending c).

Lemma calls_of_app event h l k : calls_of event h (l ++ k) = calls_of event h l ++ calls_of event h k.
Proof. unfold calls_of. by rewrite filter_app, fmap_app. Qed.

#[local] Instance calls_of_proper event h : Proper ((≡ₚ) ==> (≡ₚ)) (calls_of event h).
Proof. intros l k Hp. unfold calls_of. by rewrite Hp. Qed.

Lemma pending_spawn c calls : pending (spawn c calls) = pending c ++ calls.
Proof. unfold pending, spawn. simpl. rewrite concat_app. simpl. by rewrite app_nil_r. Qed.

(** Running the head of a thread moves one call from the pending to the made ones. *)
Lemma deliver_perm c i c' :
  deliver c i = Some c' →
  c'.(invoked) ++ pending c' ≡ₚ c.(invoked) ++ pending c ∧ c'.(sets) = c.(sets) ∧ c'.(store) = c.(store).
Proof.
  unfold deliver. destruct (threads c !! i) as [[|k rest]|] eqn:Hi; try done. intros [= <-].
  split; [|done]. unfold pending; simpl. rewrite <-app_assoc. apply Permutation_app_head.
  rewrite <-(take_drop_middle _ _ _ Hi) at 2.
  rewrite insert_take_drop by (by eapply lookup_lt_Some).
  rewrite !concat_app. simpl. rewrite Permutation_middle. done.
Qed.

Lemma dispatchEvents_perm events : dispatchEvents events ≡ₚ concat (map run events).
Proof.
  unfold dispatchEvents. rewrite <-!flat_map_concat_map.
  apply Permutation_flat_map. apply sort_by_perm.
Qed.

(** An immutable snapshot with unique handles holds a listener at most once. *)
Lemma calls_of_run event h d :
  NoDup (map e_id d.(listeners)) →
  calls_of event h (run d)
  = if bool_decide (d.(d_event) = event ∧ h ∈ map e_id d.(listeners)) then [(d.(d_id), d.(payload))] else [].
Proof.
  unfold calls_of, run. intros Hnd. induction (listeners d) as [|e l IH].
  { rewrite bool_decide_eq_false_2; [done|]. intros [_ H]. by apply elem_of_nil in H. }
  cbn [map] in *. apply NoDup_cons in Hnd as [Hne Hnd].
  destruct (decide (d_event d = event ∧ e_id e = h)) as [[He Hh]|Hd].
  - rewrite filter_cons_True by done. cbn [fmap list_fmap]. rewrite IH by done.
    rewrite bool_decide_eq_false_2 by (intros [_ Hin]; by rewrite <-Hh in Hin).
    rewrite bool_decide_eq_true_2; [done|]. split; [done|]. rewrite <-Hh. left.
  - rewrite filter_cons_False by done. rewrite IH by done.
    assert (bool_decide (d_event d = event ∧ h ∈ map e_id l)
            = bool_decide (d_event d = event ∧ h ∈ e_id e :: map e_id l)) as ->; [|done].
    apply bool_decide_ext. rewrite elem_of_cons. split; [tauto|].
    intros [He [->|Hin]]; [|tauto]. by destruct Hd.
Qed.

Lemma calls_of_fired c event h n fired events :
  ok c n → mapM (fireUnderLock c) fired = Some events →
  calls_of event h (concat (map run events)) = if registered c event h then fired_of event fired else [].
Proof.
  intros Hok. revert events. induction fired as [|f fired IH]; intros events; simpl.
  { intros [= <-]. by destruct (registered c event h). }
  destruct (fireUnderLock c f) as [d|] eqn:Hd; [|done]. simpl.
  destruct (mapM _ fired) as [ds|]; [|done]. intros [= <-]. cbn [map concat].
  rewrite calls_of_app, (IH ds) by done. unfold fireUnderLock in Hd.
  destruct (sets c !! f.1.1) as [l|] eqn:Hl; [|done]. injection Hd as <-.
  rewrite calls_of_run by by destruct (Hok _ _ Hl) as (_ & ? & _).
  cbn [d_event listeners d_id payload]. unfold fired_of.
  destruct (decide (f.1.1 = event)) as [Hev|Hev];
    [rewrite filter_cons_True by done|rewrite filter_cons_False by done].
  - subst event. unfold registered. rewrite Hl.
    destruct (decide (h ∈ map e_id (snapshot l))) as [Hr|Hr];
      [rewrite !bool_decide_eq_true_2 by tauto|rewrite !bool_decide_eq_false_2 by tauto]; done.
  - rewrite bool_decide_eq_false_2 by tauto. done.
Qed.

(** With unique handles, removing drops exactly the entry of the handle. *)
Lemma remove_snapshot l id :
  NoDup (map e_id l.(snapshot)) →
  (remove l id).(snapshot) = filter (λ e, e.(e_id) ≠ id) l.(snapshot) ∧
  (remove l id).(nextID) = l.(nextID).
Proof.
  unfold remove. intros Hnd.
  destruct (list_find _ (snapshot l)) as [[i e]|] eqn:Hf; cbn [snapshot nextID]; (split; [|done]).
  - apply list_find_Some in Hf as (Hi & He & _). revert Hnd.
    rewrite <-(take_drop_middle _ _ _ Hi) at 1. rewrite map_app. cbn [map].
    intros (_ & Hd1 & Hnd)%NoDup_app. apply NoDup_cons in Hnd as [Hd2 _].
    rewrite delete_take_drop. rewrite <-(take_drop_middle _ _ _ Hi) at 3.
    rewrite filter_app, filter_cons_False by tauto.
    rewrite !filter_all; [done|apply Forall_forall; intros x Hx Hex..].
    + apply Hd2. rewrite He, <-Hex. by apply list_elem_of_fmap_2.
    + apply (Hd1 (e_id x)); [by apply list_elem_of_fmap_2|]. rewrite Hex, He. left.
  - apply list_find_None in Hf. by rewrite filter_all.
Qed.

(** A fired event's calls go to entries of the set at that time. *)
Lemma in_dispatchEvents c n fired events k :
  ok c n → mapM (fireUnderLock c) fired = Some events → k ∈ dispatchEvents events →
  ∃ l, c.(sets) !! k.(c_event) = Some l ∧ (k.(c_entry).(e_id) ≤ l.(nextID))%Z.
Proof.
  intros Hok Hm. rewrite dispatchEvents_perm, <-flat_map_concat_map, list_elem_of_In, in_flat_map.
  intros (d & Hd & Hk). apply list_elem_of_In in Hd. unfold run in Hk.
  apply in_map_iff in Hk as (e & <- & He). cbn [c_event c_entry].
  apply mapM_Some in Hm. destruct (proj1 (list_elem_of_lookup _ _) Hd) as [i Hi].
  destruct (Forall2_lookup_r _ _ _ _ _ Hm Hi) as (f & _ & Hf). unfold fireUnderLock in Hf.
  destruct (sets c !! f.1.1) as [l|] eqn:Hl; [|done]. injection Hf as <-. cbn [d_event listeners] in *.
  exists l. split; [done|]. destruct (Hok _ _ Hl) as (_ & _ & Hin & _).
  apply Hin. by apply list_elem_of_In.
Qed.

Lemma set_ok_mono c event n : set_ok c event n → set_ok c event (S n).
Proof. intros Hok l Hl. destruct (Hok l Hl) as (H1 & H2 & H3 & H4). split_and!; try done; lia. Qed.

Lemma ok_mono c n : ok c n → ok c (S n).
Proof. intros Hok event. by apply set_ok_mono. Qed.

Lemma ok_spawn c n calls :
  ok c n →
  (∀ k, k ∈ calls → ∃ l, c.(sets) !! k.(c_event) = Some l ∧ (k.(c_entry).(e_id) ≤ l.(nextID))%Z) →
  ok (spawn c calls) n.
Proof.
  intros Hok Hc event l Hl. cbn [spawn sets] in Hl. destruct (Hok event l Hl) as (H1 & H2 & H3 & H4).
  split_and!; try done; try lia. intros k. rewrite pending_spawn. cbn [invoked spawn].
  rewrite app_assoc. intros [Hk|Hk]%elem_of_app Hev; [by apply H4|].
  destruct (Hc k Hk) as (l' & Hl' & Hle). rewrite Hev, Hl in Hl'. by injection Hl' as <-.
Qed.

Lemma ok_set c n ev l l' :
  ok c n → c.(sets) !! ev = Some l →
  (l.(nextID) ≤ l'.(nextID) ≤ Z.of_nat (S n))%Z → NoDup (map e_id l'.(snapshot)) →
  (∀ e, e ∈ l'.(snapshot) → e.(e_id) ≤ l'.(nextID))%Z →
  ok (set_listeners c ev l') (S n).
Proof.
  intros Hok Hl Hid Hnd Hin event k Hk. unfold set_listeners in Hk; cbn [sets] in Hk.
  apply lookup_insert_Some in Hk as [[<- <-]|[Hne Hk]]; [|by apply ok_mono in Hok; apply Hok].
  destruct (Hok ev l Hl) as (H1 & _ & _ & H4). split_and!; try done; [lia..|].
  intros k Hk Hev. etrans; [by apply H4|lia].
Qed.

Lemma exec_ok c a c' n :
  ok c n → (Z.of_nat (S n) < 2 ^ 63)%Z → exec c a = Some c' → ok c' (S n).
Proof.
  intros Hok Hn He. destruct a as [s fired|ev f flush|ev h|i]; cbn [exec] in He.
  - unfold write in He. destruct (mapM _ fired) as [events|] eqn:Hm; [|done]. injection He as <-.
    apply ok_mono, ok_spawn; [done|]. intros k. by apply (in_dispatchEvents c n fired events).
  - destruct (AddListener c ev f flush) as [[c1 h]|] eqn:Ha; [|done]. injection He as <-.
    unfold AddListener in Ha. destruct (_ || _); [done|].
    destruct (sets c !! ev) as [l|] eqn:Hl; [|done]. cbn in Ha. injection Ha as <- <-.
    destruct (Hok ev l Hl) as (H1 & H2 & H3 & H4).
    rewrite int64_id by (unfold is_int64; lia). set (l' := mkSet _ _).
    assert (ok (set_listeners c ev l') (S n)) as Hok'.
    { apply (ok_set c n ev l); unfold l'; cbn [snapshot nextID]; try done; [lia|..].
      - rewrite map_app. apply NoDup_app. split; [done|split; [|apply NoDup_singleton]].
        intros x (e & -> & He)%list_elem_of_fmap. cbn. rewrite list_elem_of_singleton.
        intros Hx. apply H3 in He. lia.
      - intros e [He|He%list_elem_of_singleton]%elem_of_app; [apply H3 in He; lia|].
        subst e. cbn. lia. }
    destruct flush; [|done]. apply ok_spawn; [done|].
    intros k (ip & <- & _)%list_elem_of_In%in_map_iff. exists l'. cbn. by rewrite lookup_insert_eq.
  - unfold Unsubscribe in He. destruct (sets c !! ev) as [l|] eqn:Hl; [|done]. injection He as <-.
    destruct (Hok ev l Hl) as (H1 & H2 & H3 & H4). destruct (remove_snapshot l h H2) as [Hs Hid].
    apply (ok_set c n ev l); try done; rewrite ?Hid, ?Hs; [lia|..].
    + eapply sublist_NoDup; [exact H2|]. apply (fmap_sublist e_id), sublist_filter.
    + intros e [_ He]%list_elem_of_filter. by apply H3.
  - apply deliver_perm in He as (Hp & Hs & _). apply ok_mono. intros event l. rewrite Hs. intros Hl.
    destruct (Hok event l Hl) as (H1 & H2 & H3 & H4). split_and!; try done; try lia.
    intros k. rewrite Hp. apply H4.
Qed.

(** Each action's effect on what one listener is owed, and on its registration. *)
Definition owes (c : config) (event h : Z) (a : action) : list (NamedResource * P) :=
  match a with
  | Write _ fired => if registered c event h then fired_of event fired else []
  | _ => []
  end.

Definition removes (event h : Z) (a : action) : bool :=
  match a with Remove e h' => bool_decide (e = event ∧ h' = h) | _ => false end.

Lemma calls_of_none event h l :
  (∀ k, k ∈ l → ¬ (k.(c_event) = event ∧ k.(c_entry).(e_id) = h)) → calls_of event h l = [].
Proof.
  intros Hl. unfold calls_of. induction l as [|k l IH]; [done|].
  rewrite filter_cons_False by (apply Hl; left). apply IH. intros k' Hk'. apply Hl. by right.
Qed.

Lemma exec_owed c a c' n event h :
  ok c n → (Z.of_nat (S n) < 2 ^ 63)%Z → known c event h → exec c a = Some c' →
  owed c' event h ≡ₚ owed c event h ++ owes c event h a.
Proof.
  intros Hok Hn (l0 & Hl0 & Hh) He. unfold owed.
  destruct a as [s fired|ev f flush|ev h'|i]; cbn [exec owes] in *; rewrite ?app_nil_r.
  - unfold write in He. destruct (mapM _ fired) as [events|] eqn:Hm; [|done]. injection He as <-.
    rewrite pending_spawn. cbn [invoked spawn].
    change (pending (mkConfig s c.(sets) c.(threads) c.(invoked) c.(panics))) with (pending c).
    rewrite app_assoc, (calls_of_app event h (_ ++ _)), dispatchEvents_perm.
    by rewrite (calls_of_fired c event h n fired events).
  - destruct (AddListener c ev f flush) as [[c1 h1]|] eqn:Ha; [|done]. injection He as <-.
    unfold AddListener in Ha. destruct (_ || _); [done|].
    destruct (sets c !! ev) as [l|] eqn:Hl; [|done]. cbn in Ha. injection Ha as <- <-.
    destruct (Hok ev l Hl) as (H1 & _). rewrite int64_id by (unfold is_int64; lia).
    destruct flush; [|done]. rewrite pending_spawn. cbn [invoked spawn set_listeners].
    rewrite app_assoc, calls_of_app, (calls_of_none event h (map _ _)), app_nil_r; [done|].
    intros k (ip & <- & _)%list_elem_of_In%in_map_iff. cbn. intros [-> Heq].
    rewrite Hl in Hl0. injection Hl0 as <-. lia.
  - unfold Unsubscribe in He. destruct (sets c !! ev); [|done]. by injection He as <-.
  - apply deliver_perm in He as (Hp & _). by rewrite Hp.
Qed.

Lemma exec_registered c a c' n event h :
  ok c n → (Z.of_nat (S n) < 2 ^ 63)%Z → known c event h → exec c a = Some c' →
  registered c' event h = registered c event h && negb (removes event h a) ∧ known c' event h.
Proof.
  intros Hok Hn (l0 & Hl0 & Hh) He.
  destruct a as [s fired|ev f flush|ev h'|i]; cbn [exec removes negb] in *; rewrite ?andb_true_r.
  - unfold write in He. destruct (mapM _ fired) as [events|]; [|done]. injection He as <-.
    split; [done|]. by exists l0.
  - destruct (AddListener c ev f flush) as [[c1 h1]|] eqn:Ha; [|done]. injection He as <-.
    unfold AddListener in Ha. destruct (_ || _); [done|].
    destruct (sets c !! ev) as [l|] eqn:Hl; [|done]. cbn in Ha. injection Ha as <- <-.
    destruct (Hok ev l Hl) as (H1 & _). rewrite int64_id by (unfold is_int64; lia).
    assert (∀ c2, sets c2 = <[ev := mkSet (snapshot l ++ [mkEntry (nextID l + 1) f]) (nextID l + 1)]> (sets c) →
      registered c2 event h = registered c event h ∧ known c2 event h) as Hc.
    { intros c2 Hc2. unfold registered, known. rewrite Hc2, lookup_insert. case_decide as Hev.
      - subst event. rewrite Hl in Hl0 |- *. injection Hl0 as <-. cbn [snapshot].
        split; [|eexists; split; [done|cbn; lia]]. apply bool_decide_ext.
        rewrite map_app, elem_of_app. cbn. rewrite list_elem_of_singleton. split; [|tauto].
        intros [?|Hx]; [done|lia].
      - split; [done|eauto]. }
    by destruct flush; apply Hc.
  - unfold Unsubscribe in He. destruct (sets c !! ev) as [l|] eqn:Hl; [|done]. injection He as <-.
    destruct (Hok ev l Hl) as (H1 & H2 & _). destruct (remove_snapshot l h' H2) as [Hs Hid].
    unfold registered, known, set_listeners. cbn [sets]. rewrite lookup_insert. case_decide as Hev.
    + subst event. rewrite Hl in Hl0 |- *. injection Hl0 as <-. rewrite Hs.
      split; [|eexists; split; [done|by rewrite Hid]].
      apply eq_true_iff_eq. rewrite andb_true_iff, negb_true_iff, !bool_decide_eq_true, bool_decide_eq_false.
      rewrite !list_elem_of_fmap. split.
      * intros (e & -> & [Hne Hin]%list_elem_of_filter). split; [eauto|]. intros [_ Hx]. congruence.
      * intros [(e & -> & Hin) Hne]. exists e. split; [done|]. apply list_elem_of_filter.
        split; [|done]. intros Hx. apply Hne. by split.
    + rewrite (bool_decide_eq_false_2 (ev = event ∧ _)) by tauto. rewrite andb_true_r. eauto.
  - apply deliver_perm in He as (_ & Hs & _). unfold registered, known. rewrite Hs. split; [done|eauto].
Qed.

Lemma owed_run hist c c' n event h :
  ok c n → (Z.of_nat (n + length hist) < 2 ^ 63)%Z → known c event h → exec_all c hist = Some c' →
  owed c' event h
  ≡ₚ owed c event h ++ (if registered c event h then fired_until event h hist else []).
Proof.
  revert c n. induction hist as [|a hist IH]; intros c n Hok Hn Hk; cbn [exec_all].
  { intros [= <-]. destruct (registered c event h); by rewrite app_nil_r. }
  destruct (exec c a) as [c1|] eqn:He; [|done]. cbn. intros Hrun. cbn [length] in Hn.
  assert (Z.of_nat (S n) < 2 ^ 63)%Z as Hn' by lia.
  destruct (exec_registered c a c1 n event h Hok Hn' Hk He) as [Hr Hk'].
  pose proof (exec_ok c a c1 n Hok Hn' He) as Hok'.
  rewrite (IH c1 (S n)) by (try done; lia).
  rewrite (exec_owed c a c1 n event h Hok Hn' Hk He), Hr, <-app_assoc. apply Permutation_app_head.
  destruct a as [s fired|ev f flush|ev h'|i]; cbn [owes removes fired_until];
    try (destruct (registered c event h); done).
  destruct (registered c event h); [|done]. by case_bool_decide.
Qed.

(** The configurations the API reaches keep the handle bookkeeping. *)
Lemma initial_ok s : ok (initial s) 0.
Proof.
  intros event l Hl.
  assert (l = newListenerSet) as ->.
  { cbn [initial sets] in Hl.
    apply lookup_insert_Some in Hl as [[_ <-]|[_ Hl]]; [done|].
    apply lookup_insert_Some in Hl as [[_ <-]|[_ Hl]]; [done|].
    by apply lookup_singleton_Some in Hl as [_ <-]. }
  cbn. split_and!; [lia|lia|constructor|..].
  - intros e He. by apply elem_of_nil in He.
  - intros k Hk. by apply elem_of_nil in Hk.
Qed.

Lemma exec_all_ok hist c c' n :
  ok c n → (Z.of_nat (n + length hist) < 2 ^ 63)%Z → exec_all c hist = Some c' →
  ok c' (n + length hist).
Proof.
  revert c n. induction hist as [|a hist IH]; intros c n Hok Hn; cbn [exec_all length].
  { intros [= <-]. by rewrite Nat.add_0_r. }
  destruct (exec c a) as [c1|] eqn:He; [|done]. cbn. intros Hrun. cbn [length] in Hn.
  replace (n + S (length hist)) with (S n + length hist) by lia.
  apply (IH c1); [|lia|done]. apply (exec_ok c a c1 n); [done|lia|done].
Qed.

(** A new handle is registered, fresh, and owed exactly its replay. *)
Lemma AddListener_fresh c n event f flush c' h :
  ok c n → (Z.of_nat (S n) < 2 ^ 63)%Z → AddListener c event f flush = Some (c', h) →
  registered c' event h = true ∧ known c' event h ∧
  owed c' event h = if flush then snapshotForReplay event c.(store) else [].
Proof.
  intros Hok Hn. unfold AddListener. destruct (_ || _); [done|].
  destruct (sets c !! event) as [l|] eqn:Hl; [|done]. cbn. intros [= <- <-].
  destruct (Hok event l Hl) as (H1 & _ & _ & H4). rewrite int64_id by (unfold is_int64; lia).
  assert (calls_of event (nextID l + 1) (invoked c ++ pending c) = []) as Hnone.
  { apply calls_of_none. intros k Hk [Hev Hid]. specialize (H4 k Hk Hev). lia. }
  assert (∀ c2, sets c2 = <[event := mkSet (snapshot l ++ [mkEntry (nextID l + 1) f]) (nextID l + 1)]> (sets c) →
    registered c2 event (nextID l + 1) = true ∧ known c2 event (nextID l + 1)) as Hreg.
  { intros c2 Hc2. unfold registered, known. rewrite Hc2, lookup_insert_eq. split.
    - apply bool_decide_eq_true. cbn [snapshot]. rewrite map_app. apply elem_of_app. right. left.
    - eexists. split; [done|]. cbn. lia. }
  destruct flush; (split; [by apply Hreg|split; [by apply Hreg|]]); [|exact Hnone].
  unfold owed. rewrite pending_spawn. cbn [invoked spawn].
  rewrite app_assoc, calls_of_app. unfold set_listeners at 1 2; cbn [invoked].
  change (pending (mkConfig _ _ c.(threads) _ _)) with (pending c). rewrite Hnone.
  unfold calls_of. rewrite filter_all.
  - cbn [app]. rewrite <-list_fmap_compose.
    induction (snapshotForReplay event (store c)) as [|[id p] ips IH]; [done|]. cbn. by f_equal.
  - apply Forall_forall. by intros k (ip & <- & _)%list_elem_of_In%in_map_iff.
Qed.

(** ** Properties *)


(** Every pending invocation can be made, whatever the listeners do: from
    any configuration, as many deliveries as there are pending invocations lead
    to a quiescent one, and they change neither the state nor the listener sets. *)
Theorem deliveries_drain c :
  ∃ hist c', Forall (λ a, match a with Deliver _ => True | _ => False end) hist ∧
    exec_all c hist = Some c' ∧ quiescent c' ∧ length hist = length (pending c) ∧
    c'.(sets) = c.(sets) ∧ c'.(store) = c.(store).
Proof.
  remember (length (pending c)) as n eqn:Hn. revert c Hn. induction n as [|n IH]; intros c Hn.
  { exists [], c. split; [constructor|]. split; [done|]. split; [|done].
    by apply nil_length_inv. }
  assert (∃ i k rest, threads c !! i = Some (k :: rest)) as (i & k & rest & Hi).
  { destruct (pending c) as [|k ks] eqn:Hp; [done|]. clear Hn IH. unfold pending in Hp.
    induction (threads c) as [|[|k' t] ts IHt]; [done|..].
    - cbn in Hp. destruct (IHt Hp) as (i & ?). by exists (S i).
    - by exists 0, k', t. }
  assert (∃ c1, deliver c i = Some c1) as [c1 Hd] by (unfold deliver; rewrite Hi; eauto).
  destruct (deliver_perm c i c1 Hd) as (Hp & Hs & Hst).
  assert (length (invoked c1) = S (length (invoked c))) as Hl.
  { unfold deliver in Hd. rewrite Hi in Hd. injection Hd as <-. cbn. rewrite length_app. cbn. lia. }
  apply Permutation_length in Hp. rewrite !length_app in Hp.
  destruct (IH c1) as (hist & c' & Hf & Hr & Hq & Hlen & Hs' & Hst'); [lia|].
  exists (Deliver i :: hist), c'. split; [by constructor|]. split.
  { cbn [exec_all exec]. by rewrite Hd. }
  split; [done|]. cbn. split; [lia|]. split; congruence.
Qed.

(** A batch is dispatched in identity order; the events of one identity keep
    the order they were fired in, and each event reaches its listeners in
    registration order. *)
Theorem dispatchEvents_order events :
  ∃ sorted, dispatchEvents events = concat (map run sorted) ∧ sorted ≡ₚ events ∧
    Sorted (λ a b, compare a.(d_id) b.(d_id) ≠ Gt) sorted ∧
    (∀ id, filter (λ d, d.(d_id) = id) sorted = filter (λ d, d.(d_id) = id) events) ∧
    (∀ d, map c_entry (run d) = d.(listeners)).
Proof.
  eexists. split; [reflexivity|]. split; [apply sort_by_perm|]. split_and!.
  - apply (sort_by_sorted (λ a b, compare a.(d_id) b.(d_id))). intros a b. apply compare_gt_flip.
  - intros id. apply sort_by_stable. intros a b -> ->. by rewrite compare_refl.
  - intros d. unfold run. rewrite map_map. cbn. apply map_id.
Qed.
End events.

Arguments Write {_ _}.
Arguments Add {_ _}.
Arguments Remove {_ _}.
Arguments Deliver {_ _}.

(** ** The replay of the status events *)

(** [collectReplay]; Go's map iteration order is the order of [map_to_list], and
    only the multiset of the result is claimed. *)
Definition collectReplay {Sh V P : Type} (shards : list Sh) (derived : Sh → bool)
    (hidden : Sh → NamedResource → bool) (pick : Sh → gmap NamedResource V)
    (conv : Sh → NamedResource → V → option P) : list (NamedResource * P) :=
  concat (map (λ sh,
    omap (λ kv, if derived sh && hidden sh kv.1 then None
                else p ← conv sh kv.1 kv.2; Some (kv.1, p)) (map_to_list (pick sh))) shards).

(** [snapshotForReplay] on the status events; [StoreStatus.hidden] holds the hidden
    identities of derived shards, and its one map stands for every shard's. *)
Definition snapshotForReplay (event : Z) (s : StoreStatus.Store) : list (NamedResource * StatusInfo) :=
  if bool_decide (event = EventStatusUpdated)
  then collectReplay [s] (λ _, true) (λ s id, bool_decide (id ∈ s.(StoreStatus.hidden)))
         records (λ _ _ r, statusInfo r)
  else [].

(** The status replay is what a reader sees: it holds, once each, exactly the
    identities whose status GetStatus reads, with that status. *)
Theorem status_replay_exact s :
  NoDup (map fst (snapshotForReplay EventStatusUpdated s)) ∧
  ∀ id i, (id, i) ∈ snapshotForReplay EventStatusUpdated s ↔ GetStatus s id = Some i.
Proof.
  unfold snapshotForReplay, collectReplay. rewrite bool_decide_eq_true_2 by done.
  cbn [map concat]. rewrite app_nil_r. split.
  - pose proof (NoDup_fst_map_to_list (records s)) as Hnd.
    induction (map_to_list (records s)) as [|[id r] l IH]; [constructor|].
    cbn [map fmap list_fmap fst] in Hnd. apply NoDup_cons in Hnd as [Hne Hnd]. cbn [omap list_omap fst snd].
    assert (∀ x, x ∈ map fst (omap (λ kv, if true && bool_decide (kv.1 ∈ StoreStatus.hidden s) then None
        else p ← statusInfo kv.2; Some (kv.1, p)) l) → x ∈ fst <$> l) as Hsub.
    { intros x (y & -> & Hy)%list_elem_of_fmap. apply list_elem_of_omap in Hy as ([k v] & Hk & Hy).
      cbn in Hy. destruct (bool_decide _); [done|]. destruct (statusInfo v); [|done].
      injection Hy as <-. by apply (list_elem_of_fmap_2 fst l (k, v)). }
    destruct (true && _); [by apply IH|]. destruct (statusInfo r); [|by apply IH].
    cbn. apply NoDup_cons. split; [|by apply IH]. intros Hin. by apply Hne, Hsub.
  - intros id i. rewrite list_elem_of_omap. unfold GetStatus, record_of. cbn [andb]. split.
    + intros ([k r] & Hk & He). cbn in He. apply elem_of_map_to_list in Hk.
      destruct (bool_decide _) eqn:Hh; [done|]. destruct (statusInfo r) eqn:Hr; [|done].
      injection He as -> ->. by rewrite Hh, Hk.
    + destruct (bool_decide _) eqn:Hh; [done|]. destruct (records s !! id) as [r|] eqn:Hr; [|done].
      cbn. intros Hi. exists (id, r). split; [by apply elem_of_map_to_list|]. cbn. by rewrite Hh, Hi.
Qed.

(** A run: a pending status stands when a panicking listener registers with flush,
    and a writer makes it ready before the replay is delivered. *)
Definition sample_id : NamedResource := mkResource "" "Kustomization" "ns" "a".

Definition sample_store (c : Condition) : StoreStatus.Store :=
  StoreStatus.mkStore {[sample_id := mkRecord (Some 1%Z) 0 [c] None]} ∅ ∅.

Definition sample_ready : StatusInfo := mkInfo StatusReady "Succeeded" "done" None 0.

Definition sample_before : list (action (St:=StoreStatus.Store) (P:=StatusInfo)) :=
  [Write (sample_store (readyCondition StatusPending "" "")) []].

Definition sample_after : list (action (St:=StoreStatus.Store) (P:=StatusInfo)) :=
  [Write (sample_store (readyCondition StatusReady "" "done"))
     [(EventStatusUpdated, sample_id, sample_ready)];
   Deliver 2; Deliver 1].

Definition sample_run (check : config → config → Z → Prop) : Prop :=
  match exec_all snapshotForReplay (initial (sample_store (readyCondition StatusUnset "" ""))) sample_before with
  | Some c1 =>
      match AddListener snapshotForReplay c1 EventStatusUpdated (λ _ _, true) true with
      | Some (c2, h) =>
          match exec_all snapshotForReplay c2 sample_after with
          | Some c => check c1 c h
          | None => False
          end
      | None => False
      end
  | None => False
  end.

Lemma sample_runs : sample_run (λ c1 c h, pending c = [] ∧ length (invoked c) = 2 ∧ length (panics c) = 2).
Proof. vm_compute. done. Qed.

