(* ===== verification/Warnings.v ===== *)
(** * Advisories (pkg/store/warning.go, pkg/manifest/warning.go)

    The warnings the store collects: each complete payload is retained once, and a
    reader sees them sorted and compacted, one per payload with the number of its
    origins, and one per object for unreadable SOPS keys.  What [Warnings] gathers
    from assessments and publications arrives here as lists. *)

From S2P Require Import Prelude Resource Diagnostic.

Definition WarnSOPSUnreadable := "SOPSUnreadable".
Definition WarnConflictingProducers := "ConflictingProducers".
Definition WarnDuplicateDocument := "DuplicateDocument".

Record Warning := mkWarning {
  w_Resource : NamedResource;
  w_Subject : DiagnosticIdentity;
  w_Related : list NamedResource;
  w_Category : string;
  w_Message : string;
  w_Detail : list string;
  w_Count : Z;
}.

Definition CompareWarning (a b : Warning) : comparison :=
  cmp_or [compare a.(w_Category) b.(w_Category);
          compare a.(w_Resource) b.(w_Resource);
          compare a.(w_Related) b.(w_Related);
          compare a.(w_Message) b.(w_Message);
          compare a.(w_Detail) b.(w_Detail)].

(** ** Collecting *)

(** [warningKey]: resource, category, message, and the encoded detail and related. *)
Definition warningKey : Type := NamedResource * string * string * string * string.

(** [warnIndex] and [warnOrder]. *)
Record collected := mkCollected { warnIndex : gset warningKey; warnOrder : list Warning }.

Section add.
(** [fmt]'s [%q] verb on a list of strings, and [json.Marshal] of identities. *)
Context (quote_list : list string → string) (marshal : list NamedResource → string).

Definition warning_key (w : Warning) : warningKey :=
  (w.(w_Resource), w.(w_Category), w.(w_Message),
   match w.(w_Detail) with [] => "" | d => quote_list d end,
   match w.(w_Related) with [] => "" | r => marshal r end).

Definition AddWarning (w : Warning) (s : collected) : collected :=
  if bool_decide (warning_key w ∈ s.(warnIndex)) then s
  else mkCollected ({[warning_key w]} ∪ s.(warnIndex))
         (s.(warnOrder) ++
          [mkWarning w.(w_Resource) w.(w_Subject) w.(w_Related) w.(w_Category) w.(w_Message)
             w.(w_Detail) 1]).
End add.

(** ** Compacting *)

Section compact.
(** [DiagnosticFor] of an identity and the object the store holds for it. *)
Context (diagnostic : NamedResource → DiagnosticIdentity).

(** A group's first warning, with its count reset and its subject captured. *)
Definition start (w : Warning) : Warning :=
  mkWarning w.(w_Resource)
    (if bool_decide (w.(w_Subject).(d_ID) = no_resource) && bool_decide (w.(w_Resource) ≠ no_resource)
     then diagnostic w.(w_Resource) else w.(w_Subject))
    w.(w_Related) w.(w_Category) w.(w_Message) w.(w_Detail) 1.

(** The condition under which a following warning joins the group of [head]. *)
Definition joins (head x : Warning) : bool :=
  bool_decide (head.(w_Category) = WarnSOPSUnreadable) &&
  bool_decide (x.(w_Category) = head.(w_Category)) &&
  bool_decide (x.(w_Resource) = head.(w_Resource))
  || bool_decide (CompareWarning head x = Eq).

Definition absorb (w x : Warning) : Warning :=
  if bool_decide (w.(w_Category) = WarnSOPSUnreadable)
  then mkWarning w.(w_Resource) w.(w_Subject) w.(w_Related) w.(w_Category) w.(w_Message)
         (w.(w_Detail) ++ x.(w_Detail)) w.(w_Count)
  else mkWarning w.(w_Resource) w.(w_Subject) w.(w_Related) w.(w_Category) w.(w_Message)
         w.(w_Detail) (int64 (w.(w_Count) + 1)).

Definition finish (w : Warning) : Warning :=
  if bool_decide (w.(w_Category) = WarnSOPSUnreadable)
  then mkWarning w.(w_Resource) w.(w_Subject) w.(w_Related) w.(w_Category) w.(w_Message)
         (Compact (sort_by compare w.(w_Detail))) w.(w_Count)
  else w.

(** The loop, at a group with first element [head] and accumulated warning [w]. *)
Fixpoint compact_run (head w : Warning) (rest : list Warning) : list Warning :=
  match rest with
  | [] => [finish w]
  | x :: rest =>
      if joins head x then compact_run head (absorb w x) rest
      else finish w :: compact_run x (start x) rest
  end.

Definition compactWarnings (out : list Warning) : list Warning :=
  match out with [] => [] | x :: rest => compact_run x (start x) rest end.
End compact.

(** [appendAssessmentWarnings]: each accepted assessment's warnings, once each. *)
Definition append_bundle (out warnings : list Warning) : list Warning :=
  out ++ foldl (λ acc w, if existsb (λ x, bool_decide (CompareWarning x w = Eq)) acc then acc
                         else acc ++ [w]) [] warnings.

Definition appendAssessmentWarnings (assessments : list (list Warning)) (out : list Warning)
    : list Warning :=
  foldl append_bundle out assessments.

(** The tail of [Warnings]. *)
Definition sorted_compacted (diagnostic : NamedResource → DiagnosticIdentity) (out : list Warning)
    : list Warning :=
  compactWarnings diagnostic (sort_by CompareWarning out).

(** ** The order of warnings *)

Definition wkey (w : Warning) : string * (NamedResource * (list NamedResource * (string * list string))) :=
  (w.(w_Category), (w.(w_Resource), (w.(w_Related), (w.(w_Message), w.(w_Detail))))).

Lemma CompareWarning_key a b : CompareWarning a b = compare (wkey a) (wkey b).
Proof.
  unfold CompareWarning, wkey. rewrite !compare_pair. cbn [cmp_or].
  repeat (case_match; try done).
Qed.

(** What identifies a compacted warning: for SOPS the object, otherwise the payload. *)
Definition gkey (w : Warning) : string * (NamedResource * (list NamedResource * (string * list string))) :=
  if bool_decide (w.(w_Category) = WarnSOPSUnreadable)
  then (w.(w_Category), (w.(w_Resource), ([], ("", []))))
  else wkey w.

Definition warning_le (a b : Warning) : Prop := CompareWarning a b ≠ Gt.

Lemma joins_gkey head x : joins head x = true ↔ gkey x = gkey head.
Proof.
  unfold joins. rewrite orb_true_iff, !andb_true_iff, !bool_decide_eq_true, CompareWarning_key, compare_eq.
  unfold gkey, wkey. split.
  - intros [[[Hs Hc] Hr]|He].
    + rewrite Hc, Hs, Hr. by rewrite bool_decide_eq_true_2.
    + injection He as -> -> -> -> ->. done.
  - case_bool_decide as Hx; case_bool_decide as Hh; intros [= Hc Hr]; try congruence.
    + left. by rewrite Hc, Hr.
    + right. congruence.
Qed.

(** Sorting by the payload sorts by what is grouped. *)
Lemma gkey_mono a b : warning_le a b → cmp_le (gkey a) (gkey b).
Proof.
  unfold warning_le, cmp_le. rewrite CompareWarning_key. unfold gkey, wkey.
  destruct (decide (w_Category a = w_Category b)) as [Hc|Hc].
  - rewrite Hc. case_bool_decide; [|done]. rewrite !compare_pair, compare_refl.
    by destruct (compare (w_Resource a) (w_Resource b)).
  - assert (compare (w_Category a) (w_Category b) ≠ Eq) as Hne by by rewrite compare_eq.
    repeat case_bool_decide; rewrite !compare_pair; by destruct (compare (w_Category a) _).
Qed.

(** ** Groups *)

Lemma foldl_absorb_same w run :
  let r := foldl absorb w run in
  r.(w_Category) = w.(w_Category) ∧ r.(w_Resource) = w.(w_Resource) ∧ r.(w_Related) = w.(w_Related) ∧
  r.(w_Message) = w.(w_Message) ∧ r.(w_Subject) = w.(w_Subject).
Proof.
  cbn. revert w. induction run as [|x run IH]; intros w; [done|]. cbn [foldl].
  destruct (IH (absorb w x)) as (-> & -> & -> & -> & ->).
  unfold absorb. by destruct (bool_decide _).
Qed.

Lemma foldl_absorb_sops w run :
  w.(w_Category) = WarnSOPSUnreadable →
  (foldl absorb w run).(w_Detail) = w.(w_Detail) ++ concat (map w_Detail run) ∧
  (foldl absorb w run).(w_Count) = w.(w_Count).
Proof.
  revert w. induction run as [|x run IH]; intros w Hw; cbn [foldl map concat].
  - by rewrite app_nil_r.
  - assert (absorb w x = mkWarning w.(w_Resource) w.(w_Subject) w.(w_Related) w.(w_Category)
              w.(w_Message) (w.(w_Detail) ++ x.(w_Detail)) w.(w_Count)) as Ha.
    { unfold absorb. by rewrite bool_decide_eq_true_2. }
    rewrite Ha. set (w' := mkWarning _ _ _ _ _ _ _). destruct (IH w' Hw) as [-> ->].
    cbn. by rewrite <-app_assoc.
Qed.

Lemma foldl_absorb_count w run :
  w.(w_Category) ≠ WarnSOPSUnreadable → (0 ≤ w.(w_Count))%Z →
  (w.(w_Count) + Z.of_nat (length run) < 2 ^ 63)%Z →
  (foldl absorb w run).(w_Detail) = w.(w_Detail) ∧
  (foldl absorb w run).(w_Count) = (w.(w_Count) + Z.of_nat (length run))%Z.
Proof.
  revert w. induction run as [|x run IH]; intros w Hw H0 Hn; cbn [foldl length] in *.
  - split; [done|lia].
  - assert (absorb w x = mkWarning w.(w_Resource) w.(w_Subject) w.(w_Related) w.(w_Category)
              w.(w_Message) w.(w_Detail) (w.(w_Count) + 1)) as Ha.
    { unfold absorb. rewrite bool_decide_eq_false_2 by done.
      by rewrite int64_id by (unfold is_int64; lia). }
    rewrite Ha. destruct (IH (mkWarning w.(w_Resource) w.(w_Subject) w.(w_Related) w.(w_Category)
      w.(w_Message) w.(w_Detail) (w.(w_Count) + 1)) Hw) as [-> ->]; cbn; [lia|lia|]. split; [done|lia].
Qed.

Section groups.
Context (diagnostic : NamedResource → DiagnosticIdentity).

(** The group of a head takes the warnings that share its key, up to the first that does not. *)
Lemma compact_run_split head w rest :
  ∃ run tail, rest = run ++ tail ∧ Forall (λ x, gkey x = gkey head) run ∧
    match tail with [] => True | x :: _ => gkey x ≠ gkey head end ∧
    compact_run diagnostic head w rest = finish (foldl absorb w run) :: compactWarnings diagnostic tail.
Proof.
  revert w. induction rest as [|x rest IH]; intros w.
  { exists [], []. by split_and!. }
  cbn [compact_run]. destruct (joins head x) eqn:Hj.
  - apply joins_gkey in Hj. destruct (IH (absorb w x)) as (run & tail & -> & Hf & Ht & ->).
    exists (x :: run), tail. split_and!; try done. by constructor.
  - exists [], (x :: rest). split_and!; try done. intros He. apply joins_gkey in He. congruence.
Qed.

(** Induction over the groups of a sorted list: no later warning shares an earlier group's key. *)
Lemma groups_ind (P : list Warning → list Warning → Prop) :
  P [] [] →
  (∀ x run tail,
     Forall (λ y, gkey y = gkey x) run → Forall (λ y, compare (gkey x) (gkey y) = Lt) tail →
     Sorted warning_le tail → P tail (compactWarnings diagnostic tail) →
     P (x :: run ++ tail)
       (finish (foldl absorb (start diagnostic x) run) :: compactWarnings diagnostic tail)) →
  ∀ out, Sorted warning_le out → P out (compactWarnings diagnostic out).
Proof.
  intros Hnil Hstep out. remember (length out) as n eqn:Hn. revert out Hn.
  induction n as [n IHn] using lt_wf_ind. intros [|x rest] -> Hs; [done|].
  cbn [compactWarnings]. destruct (compact_run_split x (start diagnostic x) rest)
    as (run & tail & -> & Hrun & Htail & ->).
  assert (StronglySorted (λ a b, cmp_le (gkey a) (gkey b)) (x :: run ++ tail)) as Hss.
  { apply Sorted_StronglySorted; [intros a b c; apply cmp_le_trans|].
    eapply Sorted_mono; [|exact Hs]. apply gkey_mono. }
  assert (Sorted warning_le tail) as Hst.
  { apply Sorted_inv in Hs as [Hs _]. clear -Hs. induction run as [|y run IH]; [done|].
    apply Sorted_inv in Hs as [Hs _]. by apply IH. }
  apply Hstep; try done.
  - apply StronglySorted_inv in Hss as [Hss Hx].
    destruct tail as [|t tail]; [constructor|]. apply Forall_app in Hx as [_ Hx].
    assert (StronglySorted (λ a b, cmp_le (gkey a) (gkey b)) (t :: tail)) as Ht.
    { clear -Hss. induction run as [|y run IH]; [done|]. apply StronglySorted_inv in Hss as [? _]. auto. }
    apply StronglySorted_inv in Ht as [_ Ht]. rewrite Forall_forall in Ht, Hx.
    apply Forall_forall. intros u Hu.
    assert (gkey u ≠ gkey x) as Hne.
    { apply elem_of_cons in Hu as [->|Hu]; [done|]. intros Heq. apply Htail.
      apply (anti_symm cmp_le); [|apply Hx; left]. rewrite <-Heq. by apply Ht. }
    specialize (Hx u Hu). unfold cmp_le in Hx. destruct (compare (gkey x) (gkey u)) eqn:E; try done.
    by apply compare_eq in E.
  - apply (IHn (length tail)); [cbn; rewrite length_app; lia|done|done].
Qed.

(** One group's compacted warning. *)
Lemma group_gkey x run :
  (Z.of_nat (S (length run)) < 2 ^ 63)%Z →
  gkey (finish (foldl absorb (start diagnostic x) run)) = gkey x.
Proof.
  intros Hn. destruct (foldl_absorb_same (start diagnostic x) run) as (Hc & Hr & Hrel & Hm & _).
  cbn in Hc, Hr, Hrel, Hm. unfold finish. rewrite Hc. case_bool_decide as Hs.
  - unfold gkey. cbn [w_Category w_Resource]. rewrite Hr, Hs. by rewrite !bool_decide_eq_true_2.
  - destruct (foldl_absorb_count (start diagnostic x) run) as [Hd _]; [done|cbn; lia|cbn; lia|].
    unfold gkey, wkey. by rewrite Hc, Hr, Hrel, Hm, Hd, bool_decide_eq_false_2.
Qed.
End groups.

(** ** Properties *)

(** What a compacted warning says of the collected ones [out] it stands for. *)
Definition summarizes (out : list Warning) (w : Warning) : Prop :=
  if bool_decide (w.(w_Category) = WarnSOPSUnreadable)
  then w.(w_Count) = 1%Z ∧ StronglySorted (λ a b : string, compare a b = Lt) w.(w_Detail) ∧
       ∀ d, d ∈ w.(w_Detail) ↔ ∃ x, x ∈ out ∧ gkey x = gkey w ∧ d ∈ x.(w_Detail)
  else w.(w_Count) = Z.of_nat (length (filter (λ x, gkey x = gkey w) out)).

Lemma group_summarizes diagnostic x run tail :
  (Z.of_nat (S (length run)) < 2 ^ 63)%Z →
  Forall (λ y, gkey y = gkey x) run → Forall (λ y, gkey y ≠ gkey x) tail →
  summarizes (x :: run ++ tail) (finish (foldl absorb (start diagnostic x) run)).
Proof.
  intros Hn Hrun Htail. pose proof (group_gkey diagnostic x run Hn) as Hk. unfold summarizes.
  rewrite Hk. destruct (foldl_absorb_same (start diagnostic x) run) as (Hc & _). cbn in Hc.
  assert (w_Category (finish (foldl absorb (start diagnostic x) run)) = w_Category x) as Hcat.
  { unfold finish. by case_bool_decide. }
  rewrite Hcat. rewrite Forall_forall in Htail. case_bool_decide as Hs.
  - destruct (foldl_absorb_sops (start diagnostic x) run Hs) as [Hd Hcount].
    unfold finish. rewrite Hc, bool_decide_eq_true_2 by done. cbn [w_Count w_Detail].
    rewrite Hcount, Hd. split; [done|split].
    + apply Compact_sorted, sort_lawful_sorted.
    + intros d. rewrite elem_of_Compact, elem_of_sort_by, elem_of_app. cbn [start w_Detail].
      rewrite elem_of_concat_map. rewrite Forall_forall in Hrun. split.
      * intros [Hd'|(y & Hy & Hd')]; [exists x; split; [left|done]|].
        exists y. split; [right; apply elem_of_app; by left|]. split; [by apply Hrun|done].
      * intros (y & [->|[Hy|Hy]%elem_of_app]%elem_of_cons & Hg & Hd'); [by left|right; eauto|].
        by apply Htail in Hy.
  - destruct (foldl_absorb_count (start diagnostic x) run) as [_ Hcount]; [done|cbn; lia|cbn; lia|].
    unfold finish. rewrite Hc, bool_decide_eq_false_2 by done. rewrite Hcount. cbn [start w_Count].
    rewrite filter_cons_True, filter_app by done. rewrite (filter_all _ run) by done.
    assert (filter (λ y, gkey y = gkey x) tail = []) as ->.
    { clear -Htail. induction tail as [|t tail IH]; [done|].
      rewrite filter_cons_False by (apply Htail; left). apply IH. intros y Hy. apply Htail. by right. }
    rewrite app_nil_r. cbn [length]. lia.
Qed.

(** A warning of the tail is summarized alike when a group of another key precedes it. *)
Lemma summarizes_cons out head w :
  Forall (λ x, gkey x ≠ gkey w) head → summarizes out w → summarizes (head ++ out) w.
Proof.
  intros Hh. unfold summarizes. rewrite Forall_forall in Hh. case_bool_decide.
  - intros (? & ? & Hd). split_and!; try done. intros d. rewrite Hd. split.
    + intros (x & Hx & ?). exists x. split; [apply elem_of_app; by right|done].
    + intros (x & [Hx|Hx]%elem_of_app & Hg & ?); [by apply Hh in Hx|eauto].
  - intros ->. do 2 f_equal. rewrite filter_app.
    assert (filter (λ y, gkey y = gkey w) head = []) as ->; [|done].
    clear -Hh. induction head as [|t head IH]; [done|].
    rewrite filter_cons_False by (apply Hh; left). apply IH. intros y Hy. apply Hh. by right.
Qed.

(** Compaction is exact.  On sorted warnings the result holds, in strict
    order, one warning for each payload collected, counting its origins, and one for
    each object with unreadable SOPS keys, listing the sorted union of their keys. *)
Theorem compactWarnings_exact diagnostic out :
  Sorted warning_le out → (Z.of_nat (length out) < 2 ^ 63)%Z →
  StronglySorted (λ a b, compare (gkey a) (gkey b) = Lt) (compactWarnings diagnostic out) ∧
  (∀ k, k ∈ map gkey (compactWarnings diagnostic out) ↔ k ∈ map gkey out) ∧
  Forall (summarizes out) (compactWarnings diagnostic out).
Proof.
  intros Hs. revert out Hs.
  apply (groups_ind diagnostic (λ out res, (Z.of_nat (length out) < 2 ^ 63)%Z →
    StronglySorted (λ a b, compare (gkey a) (gkey b) = Lt) res ∧
    (∀ k, k ∈ map gkey res ↔ k ∈ map gkey out) ∧ Forall (summarizes out) res));
    [intros _; split_and!; [constructor|done|constructor]|].
  intros x run tail Hrun Htail _ IH Hn. cbn [length] in Hn. rewrite length_app in Hn.
  destruct IH as (IH1 & IH2 & IH3); [lia|].
  pose proof (group_gkey diagnostic x run ltac:(lia)) as Hk.
  assert (∀ w, w ∈ compactWarnings diagnostic tail → compare (gkey x) (gkey w) = Lt) as Hlt.
  { intros w Hw. apply (list_elem_of_fmap_2 gkey), IH2, list_elem_of_fmap in Hw as (y & -> & Hy).
    rewrite Forall_forall in Htail. by apply Htail. }
  split; [|split].
  - constructor; [done|]. apply Forall_forall. intros w Hw. rewrite Hk. by apply Hlt.
  - intros k. cbn [map]. rewrite map_app, !elem_of_cons, elem_of_app, Hk, IH2. split; [tauto|].
    intros [?|[Hr|?]]; [by left| |by right]. left.
    apply list_elem_of_fmap in Hr as (y & -> & Hy). rewrite Forall_forall in Hrun. by apply Hrun.
  - constructor.
    + apply group_summarizes; [lia|done|]. eapply Forall_impl; [exact Htail|]. intros y Hy He.
      cbv beta in Hy. rewrite He in Hy. by apply compare_irrefl in Hy.
    + apply Forall_forall. intros w Hw. change (x :: run ++ tail) with ((x :: run) ++ tail).
      specialize (Hlt w Hw). apply summarizes_cons; [|rewrite Forall_forall in IH3; by apply IH3].
      assert (gkey x ≠ gkey w) as Hne by (intros He; rewrite He in Hlt; by apply compare_irrefl in Hlt).
      constructor; [done|]. eapply Forall_impl; [exact Hrun|]. intros y ->. done.
Qed.

Definition sample_warning (category : string) (detail : list string) : Warning :=
  mkWarning (mkResource "" "Secret" "ns" "a") zero_identity [] category "unreadable" detail 7.

Lemma compactWarnings_exact_witness :
  Forall (summarizes [sample_warning "Other" ["k"]; sample_warning "Other" ["k"];
                      sample_warning WarnSOPSUnreadable ["b"]; sample_warning WarnSOPSUnreadable ["c"; "a"]])
    (compactWarnings DiagnosticForAbsent
       [sample_warning "Other" ["k"]; sample_warning "Other" ["k"];
        sample_warning WarnSOPSUnreadable ["b"]; sample_warning WarnSOPSUnreadable ["c"; "a"]]).
Proof.
  refine (proj2 (proj2 (compactWarnings_exact DiagnosticForAbsent _ _ _))).
  - repeat constructor; vm_compute; discriminate.
  - vm_compute. reflexivity.
Defined.

(** What a reader sees of a compacted warning, apart from its display subject. *)
Definition shown (w : Warning) := (wkey w, w.(w_Count)).

Lemma gkey_wkey a b : wkey a = wkey b → gkey a = gkey b.
Proof. unfold gkey, wkey. by intros [= -> -> -> -> ->]. Qed.

Lemma wkey_fields a b :
  wkey a = wkey b →
  a.(w_Category) = b.(w_Category) ∧ a.(w_Resource) = b.(w_Resource) ∧ a.(w_Related) = b.(w_Related) ∧
  a.(w_Message) = b.(w_Message) ∧ a.(w_Detail) = b.(w_Detail).
Proof. unfold wkey. by intros [= -> -> -> -> ->]. Qed.

Lemma compact_run_shown diagnostic rest1 rest2 head1 head2 w1 w2 :
  Forall2 (λ a b, wkey a = wkey b) rest1 rest2 → wkey head1 = wkey head2 → shown w1 = shown w2 →
  map shown (compact_run diagnostic head1 w1 rest1) = map shown (compact_run diagnostic head2 w2 rest2).
Proof.
  intros Hr. revert head1 head2 w1 w2.
  induction Hr as [|x1 x2 rest1 rest2 Hx _ IH]; intros head1 head2 w1 w2 Hh Hw.
  - cbn. f_equal. unfold shown in Hw. injection Hw as H1 H2 H3 H4 H5 H6.
    unfold finish, shown, wkey. rewrite H1. case_bool_decide; cbn; by rewrite ?H1, ?H2, ?H3, ?H4, ?H5, ?H6.
  - cbn [compact_run]. assert (joins head1 x1 = joins head2 x2) as ->.
    { apply eq_true_iff_eq. rewrite !joins_gkey. by rewrite (gkey_wkey _ _ Hx), (gkey_wkey _ _ Hh). }
    destruct (wkey_fields _ _ Hx) as (X1 & X2 & X3 & X4 & X5).
    unfold shown in Hw. injection Hw as H1 H2 H3 H4 H5 H6. destruct (joins head2 x2).
    + apply IH; [done|]. unfold absorb, shown, wkey. rewrite H1.
      case_bool_decide; cbn; by rewrite ?H1, ?H2, ?H3, ?H4, ?H5, ?H6, ?X5.
    + cbn [map]. f_equal; [|apply IH; [done|]].
      * unfold finish, shown, wkey. rewrite H1. case_bool_decide; cbn; by rewrite ?H1, ?H2, ?H3, ?H4, ?H5, ?H6.
      * unfold shown, start, wkey. cbn. by rewrite X1, X2, X3, X4, X5.
Qed.

(** The order in which warnings were collected is invisible: however the same
    payloads are gathered, sorted (with any algorithm, stable or not) and compacted, a
    reader sees the same warnings in the same order; only the display subject of a
    payload may come from any of its origins. *)
Theorem compaction_deterministic diagnostic out1 out2 :
  map wkey out1 ≡ₚ map wkey out2 → Sorted warning_le out1 → Sorted warning_le out2 →
  map shown (compactWarnings diagnostic out1) = map shown (compactWarnings diagnostic out2).
Proof.
  intros Hp H1 H2.
  assert (∀ out, Sorted warning_le out → StronglySorted cmp_le (map wkey out)) as Hss.
  { intros out Hs. apply Sorted_StronglySorted; [apply _|].
    induction Hs as [|a l _ IH Hhd]; [constructor|]. cbn. constructor; [done|].
    destruct Hhd as [|b l Hb]; constructor. unfold warning_le in Hb. by rewrite CompareWarning_key in Hb. }
  assert (map wkey out1 = map wkey out2) as He.
  { by apply (StronglySorted_unique cmp_le); [apply Hss|apply Hss|]. }
  assert (Forall2 (λ a b, wkey a = wkey b) out1 out2) as Hf.
  { clear -He. revert out2 He. induction out1 as [|a l IH]; intros [|b l'] He; try done.
    cbn in He. constructor; [|apply IH; exact (f_equal (@List.tl _) He)].
    exact (f_equal (λ l, default (wkey a) (head l)) He). }
  destruct Hf as [|x1 x2 r1 r2 Hx Hr]; [done|]. cbn [compactWarnings].
  apply compact_run_shown; [done|done|].
  destruct (wkey_fields _ _ Hx) as (X1 & X2 & X3 & X4 & X5).
  unfold shown, start, wkey. cbn. by rewrite X1, X2, X3, X4, X5.
Qed.

(** The payload of a warning, and the sequence of first occurrences: the specification of collecting. *)
Definition reset (w : Warning) : Warning :=
  mkWarning w.(w_Resource) w.(w_Subject) w.(w_Related) w.(w_Category) w.(w_Message) w.(w_Detail) 1.

Definition first_seen (ws : list Warning) : list Warning :=
  foldl (λ acc w, if bool_decide (wkey w ∈ map wkey acc) then acc else acc ++ [reset w]) [] ws.

Lemma compaction_deterministic_witness :
  map shown (compactWarnings DiagnosticForAbsent
               [sample_warning "Other" ["k"]; sample_warning WarnSOPSUnreadable ["b"]])
  = map shown (compactWarnings DiagnosticForAbsent
               [reset (sample_warning "Other" ["k"]); reset (sample_warning WarnSOPSUnreadable ["b"])]).
Proof.
  apply compaction_deterministic.
  - reflexivity.
  - repeat constructor; vm_compute; discriminate.
  - repeat constructor; vm_compute; discriminate.
Defined.

(** AddWarning refines the sequence of first occurrences: after any calls the
    retained warnings are the first of each complete payload, in arrival order, each with
    count one.  It relies on [%q] and [json.Marshal] giving different non-empty texts to
    different lists. *)
Theorem AddWarning_first_seen quote_list marshal ws :
  Inj (=) (=) quote_list → Inj (=) (=) marshal →
  (∀ l, quote_list l ≠ "") → (∀ l, marshal l ≠ "") →
  (foldl (λ s w, AddWarning quote_list marshal w s) (mkCollected ∅ []) ws).(warnOrder) = first_seen ws.
Proof.
  intros Hq Hm Hq0 Hm0.
  assert (∀ a b, warning_key quote_list marshal a = warning_key quote_list marshal b ↔ wkey a = wkey b) as Hkey.
  { intros a b. unfold warning_key, wkey. split.
    - intros [= -> -> -> Hd Hr].
      assert (w_Detail a = w_Detail b) as ->.
      { destruct (w_Detail a), (w_Detail b); try done; [by destruct (Hq0 (s :: l))|by destruct (Hq0 (s :: l))|].
        by apply Hq. }
      assert (w_Related a = w_Related b) as ->; [|done].
      destruct (w_Related a), (w_Related b); try done;
        [by destruct (Hm0 (n :: l))|by destruct (Hm0 (n :: l))|]. by apply Hm.
    - by intros [= -> -> -> -> ->]. }
  unfold first_seen. set (f := λ s w, AddWarning quote_list marshal w s).
  assert (∀ s, (∀ k, k ∈ s.(warnIndex) ↔ k ∈ map (warning_key quote_list marshal) s.(warnOrder)) →
    (foldl f s ws).(warnOrder) =
    foldl (λ acc w, if bool_decide (wkey w ∈ map wkey acc) then acc else acc ++ [reset w])
      s.(warnOrder) ws) as Hgen; [|apply (Hgen (mkCollected ∅ [])); cbn; set_solver].
  induction ws as [|w ws IH]; intros s Hs; [done|]. cbn [foldl]. unfold f at 2, AddWarning.
  assert (bool_decide (warning_key quote_list marshal w ∈ warnIndex s)
          = bool_decide (wkey w ∈ map wkey (warnOrder s))) as Hb.
  { apply bool_decide_ext. rewrite Hs, !list_elem_of_fmap.
    split; intros (x & Hx & Hin); exists x; (split; [by apply Hkey|done]). }
  rewrite Hb. destruct (bool_decide (wkey w ∈ map wkey (warnOrder s))); [by apply IH|].
  rewrite IH; [done|].
  intros k. cbn [warnIndex warnOrder]. rewrite map_app, elem_of_app, elem_of_union, Hs. cbn [map].
  rewrite elem_of_singleton, list_elem_of_singleton. tauto.
Qed.

(** A text that determines the list it renders: each element behind its length in unary. *)
Fixpoint unary (n : nat) (s : string) : string :=
  match n with O => String (Ascii.ascii_of_nat 48) s | S n => String (Ascii.ascii_of_nat 49) (unary n s) end.

Definition encode_list (l : list string) : string :=
  foldr (λ x acc, unary (String.length x) (x +:+ acc)) "!" l.

Lemma unary_inj n m s t : unary n s = unary m t → n = m ∧ s = t.
Proof.
  revert m. induction n as [|n IH]; intros [|m]; cbn; try done; [by intros [= ->]|].
  intros H. injection H as H. destruct (IH m H) as [-> ->]. done.
Qed.

Lemma string_app_split a b s t :
  String.length a = String.length b → a +:+ s = b +:+ t → a = b ∧ s = t.
Proof.
  revert b. induction a as [|c a IH]; intros [|d b] Hl He; try done.
  injection Hl as Hl.
  change (String c (a +:+ s) = String d (b +:+ t)) in He. injection He as -> He.
  by destruct (IH b Hl He) as [-> ->].
Qed.

Lemma encode_list_inj : Inj (=) (=) encode_list.
Proof.
  intros l. induction l as [|x l IH]; intros [|y k]; cbn [encode_list foldr]; try done.
  - by destruct (String.length y).
  - by destruct (String.length x).
  - intros (Hn & He)%unary_inj. destruct (string_app_split _ _ _ _ Hn He) as [-> He'].
    f_equal. by apply IH.
Qed.

Definition encode_resources (l : list NamedResource) : string :=
  encode_list (concat (map (λ r, [r.(Group); r.(Kind); r.(Namespace); r.(Name)]) l)).

Lemma encode_resources_inj : Inj (=) (=) encode_resources.
Proof.
  intros l k He%encode_list_inj. revert k He.
  induction l as [|[g1 k1 n1 m1] l IH]; intros [|[g2 k2 n2 m2] k]; try done.
  cbn. intros [= -> -> -> -> He]. f_equal. by apply IH.
Qed.

Lemma encode_list_nonempty l : encode_list l ≠ "".
Proof. destruct l as [|x l]; cbn; [done|]. by destruct (String.length x). Qed.

Lemma AddWarning_first_seen_witness :
  (foldl (λ s w, AddWarning encode_list encode_resources w s) (mkCollected ∅ [])
     [sample_warning "Other" ["k"]; sample_warning "Other" []; sample_warning "Other" ["k"]]).(warnOrder)
  = first_seen [sample_warning "Other" ["k"]; sample_warning "Other" []; sample_warning "Other" ["k"]].
Proof.
  exact (AddWarning_first_seen encode_list encode_resources _ encode_list_inj encode_resources_inj
           encode_list_nonempty (λ l, encode_list_nonempty _)).
Defined.
