(* ===== verification/Attribution.v ===== *)
(** * Failure attribution (pkg/selection/scope.go, result.go)

    After a run, each failure is charged to what caused it.  A failed resource that only
    waited for others is blocked; its roots are the resources, failed or missing, at the
    end of its chain of blockers, and a closed cycle of blockers is its own root.  The
    order in which Go ranges over a map is a parameter of the definitions that depend on
    it. *)

From stdpp Require Import fin_maps pretty.
From S2P Require Import Prelude Resource Diagnostic StoreStatus Warnings.

Notation resource_map A := (gmap NamedResource A).

Definition newline : string := String (Ascii.ascii_of_nat 10) "".

(** ** Walking the blockers *)

Section blocked.
Context (blocked : resource_map (list NamedResource)).

Definition blockers_of (n : NamedResource) : list NamedResource := default [] (blocked !! n).

(** The loop of [rootsOf]'s closure [walk], on the blockers of one resource. *)
Fixpoint walk_deps (walk : NamedResource → gset NamedResource → list NamedResource →
                          option (gset NamedResource * list NamedResource))
    (deps : list NamedResource) (seen : gset NamedResource) (out : list NamedResource)
    : option (gset NamedResource * list NamedResource) :=
  match deps with
  | [] => Some (seen, out)
  | dep :: deps =>
      if decide (dep ∈ seen) then walk_deps walk deps seen out
      else
        let seen := {[dep]} ∪ seen in
        match blocked !! dep with
        | Some _ => r ← walk dep seen out; walk_deps walk deps r.1 r.2
        | None => walk_deps walk deps seen (out ++ [dep])
        end
  end.

Fixpoint walk (fuel : nat) (n : NamedResource) (seen : gset NamedResource) (out : list NamedResource)
    : option (gset NamedResource * list NamedResource) :=
  match fuel with
  | O => None
  | S fuel => walk_deps (walk fuel) (blockers_of n) seen out
  end.

(** A walk goes down once per blocked resource. *)
Definition walk_fuel : nat := S (size blocked).

Definition rootsOf (id : NamedResource) : option (list NamedResource) :=
  snd <$> walk walk_fuel id {[id]} [].

Definition add_victim (id : NamedResource) (byRoot : resource_map (list NamedResource)) (root : NamedResource)
    : resource_map (list NamedResource) :=
  <[root := default [] (byRoot !! root) ++ [id]]> byRoot.

Fixpoint collect_victims (order : list NamedResource) (byRoot : resource_map (list NamedResource))
    : option (resource_map (list NamedResource)) :=
  match order with
  | [] => Some byRoot
  | id :: order => roots ← rootsOf id; collect_victims order (foldl (add_victim id) byRoot roots)
  end.

Definition sorted_victims (byRoot : resource_map (list NamedResource)) : resource_map (list NamedResource) :=
  (λ ids, Compact (sort_by compare ids)) <$> byRoot.

Definition rootVictims (range : gset NamedResource → list NamedResource) : option (resource_map (list NamedResource)) :=
  byRoot ← collect_victims (range (dom blocked)) ∅; Some (sorted_victims byRoot).

(** The closure [reaches] of [markDependencyCycles], and [slices.ContainsFunc] on it. *)
Fixpoint any_reaches (reaches : NamedResource → gset NamedResource → option (bool * gset NamedResource))
    (deps : list NamedResource) (seen : gset NamedResource) : option (bool * gset NamedResource) :=
  match deps with
  | [] => Some (false, seen)
  | dep :: deps => r ← reaches dep seen; if r.1 : bool then Some (true, r.2) else any_reaches reaches deps r.2
  end.

Fixpoint reaches (fuel : nat) (id dep : NamedResource) (seen : gset NamedResource) : option (bool * gset NamedResource) :=
  match fuel with
  | O => None
  | S fuel =>
      if decide (dep = id) then Some (true, seen)
      else if decide (dep ∈ seen) then Some (false, seen)
      else any_reaches (reaches fuel id) (blockers_of dep) ({[dep]} ∪ seen)
  end.

Definition on_cycle (id : NamedResource) : option bool :=
  fst <$> any_reaches (reaches (S (size blocked)) id) (blockers_of id) ∅.

(** [markDependencyCycles], ranging over [failed]. *)
Fixpoint markDependencyCycles (order : list NamedResource) (covered cycles : gset NamedResource)
    : option (gset NamedResource) :=
  match order with
  | [] => Some cycles
  | id :: order =>
      if decide (id ∈ covered) then markDependencyCycles order covered cycles
      else c ← on_cycle id;
           markDependencyCycles order covered (if c : bool then {[id]} ∪ cycles else cycles)
  end.

End blocked.

(** ** Causes *)

Section causes.
(** [Result.Diagnostic] as text, and the order in which a map's keys are met. *)
Context (diagnostic : NamedResource → string) (range : gset NamedResource → list NamedResource).

Definition set_message (m : string) (i : StatusInfo) : StatusInfo :=
  mkInfo i.(i_Status) i.(i_Reason) m i.(i_failure) i.(i_applyingObjects).

Definition cycle_message (peers : list NamedResource) : string :=
  "dependency cycle: blocked by " +:+ strings_Join (map diagnostic (sort_by compare peers)) ", ".

(** The resources a root accounts for. *)
Definition covered_by (byRoot : resource_map (list NamedResource)) : gset NamedResource :=
  dom byRoot ∪ ⋃ (map (λ kv, list_to_set kv.2) (map_to_list byRoot)).

(** [failureCauses]: the causes with their victims, and the failures with the messages of
    the cycles it found. *)
Definition failureCauses (failed : resource_map StatusInfo) (blocked : resource_map (list NamedResource))
    : option (resource_map (list NamedResource) * resource_map StatusInfo) :=
  byRoot ← rootVictims blocked range;
  let covered := covered_by byRoot ∪ (dom failed ∖ dom blocked) in
  cycles ← markDependencyCycles blocked (range (dom failed)) covered ∅;
  let view := filter (λ kv, kv.1 ∉ cycles) blocked in
  let message id info := if decide (id ∈ cycles) then set_message (cycle_message (blockers_of blocked id)) info else info in
  let failed' := map_imap (λ id info, Some (message id info)) failed in
  byRoot ← (if decide (cycles = ∅) then Some byRoot else rootVictims view range);
  let rest := filter (λ kv, view !! kv.1 = None ∧ byRoot !! kv.1 = None) failed in
  Some (byRoot ∪ ((λ _, []) <$> rest), failed').

End causes.

(** [BlockedCount]. *)
Definition BlockedCount (failed : resource_map StatusInfo) (blocked causes : resource_map (list NamedResource)) : Z :=
  (Z.of_nat (size blocked) - Z.of_nat (size (filter (λ kv, is_Some (failed !! kv.1) ∧ is_Some (blocked !! kv.1)) causes)))%Z.

(** ** Failures in and out of scope *)

Definition WarnUnrelatedFailure := "UnrelatedFailure".

Section scope.
(** [Result.Subjects], [fmt]'s [%q] verb and the order in which a map's keys are met. *)
Context (Subjects : resource_map DiagnosticIdentity) (quote : string → string)
        (range : gset NamedResource → list NamedResource).

Definition Diagnostic (id : NamedResource) : DiagnosticIdentity := default (DiagnosticForAbsent id) (Subjects !! id).
Definition diagnostic (id : NamedResource) : string := DiagnosticIdentity_String quote (Diagnostic id).

Definition failure_warning (id : NamedResource) (related : list NamedResource) (message : string) (detail : list string) : Warning :=
  mkWarning id (Diagnostic id) related WarnUnrelatedFailure message detail 0.

(** What the three loops of [unrelatedFailures] share. *)
Definition report : Type := gset NamedResource * list Warning.

Section unrelated.
Context (raw_failed : resource_map StatusInfo) (raw_blocked : resource_map (list NamedResource))
        (unrelated : resource_map StatusInfo) (required : gset NamedResource)
        (byRoot : resource_map (list NamedResource)).

(** [unrelatedWarningChildren], as the related identities. *)
Definition unrelated_children (root : NamedResource) : list NamedResource :=
  filter (λ id, is_Some (unrelated !! id)) (default [] (byRoot !! root)).

(** A failure outside the scope that nothing blocks. *)
Definition report_failure (st : report) (id : NamedResource) : report :=
  match raw_blocked !! id, unrelated !! id, raw_failed !! id with
  | None, Some _, Some info =>
      let related := unrelated_children id in
      (list_to_set related ∪ {[id]} ∪ st.1, st.2 ++ [failure_warning id related info.(i_Message) (map diagnostic related)])
  | _, _, _ => st
  end.

(** A root that is missing. *)
Definition report_missing (st : report) (root : NamedResource) : report :=
  if decide (is_Some (raw_failed !! root) ∨ root ∈ required) then st
  else
    let related := unrelated_children root in
    (list_to_set related ∪ st.1,
     if decide (related = []) then st.2
     else st.2 ++ [failure_warning root related "not found; required by" (map diagnostic related)]).

(** A blocked failure that no warning mentions yet. *)
Definition report_blocked (covered : gset NamedResource) (id : NamedResource) : list Warning :=
  match unrelated !! id with
  | Some info =>
      if decide (id ∈ covered) then []
      else
        let deps := Compact (sort_by compare (blockers_of raw_blocked id)) in
        [failure_warning id deps info.(i_Message) (map (λ dep, "blocked by " +:+ diagnostic dep) deps)]
  | None => []
  end.

Definition by_resource (a b : Warning) : comparison := compare a.(w_Resource) b.(w_Resource).

Definition report_all : list Warning :=
  let st := foldl report_failure (∅, []) (range (dom raw_failed)) in
  let st := foldl report_missing st (range (dom byRoot)) in
  sort_by by_resource (st.2 ++ concat (map (report_blocked st.1) (range (dom unrelated)))).

End unrelated.

Definition unrelatedFailures (raw_failed : resource_map StatusInfo) (raw_blocked : resource_map (list NamedResource))
    (unrelated : resource_map StatusInfo) (required : gset NamedResource) : option (list Warning) :=
  byRoot ← rootVictims raw_blocked range;
  Some (report_all raw_failed raw_blocked unrelated required byRoot).

(** What [prepareFailures] leaves in a [Result]. *)
Record failures := mkFailures {
  Failed : resource_map StatusInfo;
  Blocked : resource_map (list NamedResource);
  Unrelated : list Warning;
  Causes : resource_map (list NamedResource);
}.

(** [required] is [requiredClosure]'s answer, when the request is restricted. *)
Definition is_needed (required : option (gset NamedResource)) (id : NamedResource) : bool :=
  match required with Some r => bool_decide (id ∈ r) | None => true end.

(** The maps [prepareFailures] fills; [includes] are the namespaces of the side. *)
Definition needed_failures required (run_failed : resource_map StatusInfo) : resource_map StatusInfo :=
  filter (λ kv, is_needed required kv.1 = true) run_failed.
Definition needed_blocked (failed : resource_map StatusInfo) (run_blocked : resource_map (list NamedResource))
    : resource_map (list NamedResource) := filter (λ kv, is_Some (failed !! kv.1) ∧ kv.2 ≠ []) run_blocked.
Definition unrelated_failures (includes : string → bool) required (run_failed : resource_map StatusInfo) : resource_map StatusInfo :=
  filter (λ kv, is_needed required kv.1 = false ∧ includes kv.1.(Namespace) = true) run_failed.

Definition prepareFailures (includes : string → bool) (required : option (gset NamedResource))
    (run_failed : resource_map StatusInfo) (run_blocked : resource_map (list NamedResource)) : option failures :=
  if decide (run_failed = ∅) then Some (mkFailures ∅ ∅ [] ∅)
  else
    let failed := needed_failures required run_failed in
    let blocked := needed_blocked failed run_blocked in
    let unrelated := unrelated_failures includes required run_failed in
    warnings ← (if decide (unrelated = ∅) then Some []
                else unrelatedFailures run_failed run_blocked unrelated (default ∅ required));
    r ← failureCauses diagnostic range failed blocked;
    Some (mkFailures r.2 blocked warnings r.1).

(** [selectedFailures]: the text of the error, when there is one. *)
Definition failure_line (f : failures) (root : NamedResource) : string :=
  match f.(Failed) !! root with
  | Some info => diagnostic root +:+ ": " +:+ StatusInfo_String info
  | None => diagnostic root +:+ ": not found"
  end.

Definition selectedFailures (f : failures) : option string :=
  if decide (f.(Failed) = ∅) then None
  else
    let msgs := sort_by compare (map (failure_line f) (range (dom f.(Causes)))) in
    let blocked := BlockedCount f.(Failed) f.(Blocked) f.(Causes) in
    Some ("reconcile completed with " +:+ pretty (length msgs) +:+ " failure(s)" +:+
          (match msgs with [] => "" | _ => ":" +:+ newline +:+ "  " +:+ strings_Join msgs (newline +:+ "  ") end) +:+
          (if bool_decide (0 < blocked)%Z
           then newline +:+ "  (+" +:+ pretty blocked +:+ " blocked by failed/missing dependencies)" else "")).

End scope.

(** ** Chains of blockers *)

Section chains.
Context (blocked : resource_map (list NamedResource)).

Definition edge (n d : NamedResource) : Prop := d ∈ blockers_of blocked n.

Lemma edge_blocked n d : edge n d → is_Some (blocked !! n).
Proof. unfold edge, blockers_of. destruct (blocked !! n); [done |]. by intros ?%elem_of_nil. Qed.

(** What a walk over [deps] does to what it has seen. *)
Definition explored (deps : list NamedResource) (seen seen' : gset NamedResource) : Prop :=
  seen ⊆ seen' ∧ (∀ d, d ∈ deps → d ∈ seen') ∧
  ∀ x, x ∈ seen' → x ∉ seen → (∃ d, d ∈ deps ∧ rtc edge d x) ∧ ∀ y, edge x y → y ∈ seen'.

Definition ends_in (seen seen' : gset NamedResource) (out out' : list NamedResource) : Prop :=
  ∃ new, out' = out ++ new ∧ NoDup new ∧ ∀ x, x ∈ new ↔ x ∈ seen' ∧ x ∉ seen ∧ blocked !! x = None.

Lemma explored_nil seen : explored [] seen seen.
Proof. split; [done |]. split; [by intros d ?%elem_of_nil | done]. Qed.

Lemma explored_skip d deps seen seen' : d ∈ seen → explored deps seen seen' → explored (d :: deps) seen seen'.
Proof.
  intros Hd (H1 & H2 & H3). split; [done |]. split.
  - intros x [-> |]%elem_of_cons; auto.
  - intros x Hx Hn. destruct (H3 x Hx Hn) as [(e & He & Hr) Hy]. split; [| done]. exists e. split; [by right | done].
Qed.

(** One more dependency, whose own blockers were explored first. *)
Lemma explored_cons d deps seen s1 s2 : d ∉ seen → explored (blockers_of blocked d) ({[d]} ∪ seen) s1 → explored deps s1 s2 →
  explored (d :: deps) seen s2.
Proof.
  intros Hd (A1 & A2 & A3) (B1 & B2 & B3). assert (d ∈ s1) as Hd1 by set_solver. split; [set_solver |]. split.
  - intros x [-> |]%elem_of_cons; auto.
  - intros x Hx Hn. destruct (decide (x ∈ s1)) as [Hx1 | Hx1].
    + destruct (decide (x = d)) as [-> | Hne].
      * split; [exists d; split; [by left | done] |]. intros y Hy. by apply B1, A2.
      * destruct (A3 x Hx1 ltac:(set_solver)) as [(e & He & Hr) Hy].
        split; [exists d; split; [by left | by eapply rtc_l] |]. intros y Hxy. by apply B1, Hy.
    + destruct (B3 x Hx Hx1) as [(e & He & Hr) Hy]. split; [| done]. exists e. split; [by right | done].
Qed.

Lemma ends_in_cons d seen s1 s2 out o1 o2 : d ∉ seen → {[d]} ∪ seen ⊆ s1 → s1 ⊆ s2 →
  ends_in ({[d]} ∪ seen) s1 out o1 → ends_in s1 s2 o1 o2 → is_Some (blocked !! d) → ends_in seen s2 out o2.
Proof.
  intros Hd Hs1 Hs2 (n1 & -> & N1 & E1) (n2 & -> & N2 & E2) [l Hl]. exists (n1 ++ n2). split; [by rewrite app_assoc |]. split.
  - apply NoDup_app. split; [done |]. split; [| done]. intros x [? _]%E1 (_ & ? & _)%E2. done.
  - intros x. rewrite elem_of_app, E1, E2. destruct (decide (x = d)) as [-> |]; [rewrite Hl; set_solver |].
    destruct (decide (x ∈ s1)); set_solver.
Qed.

Lemma ends_in_leaf d seen s2 out o2 : d ∉ seen → blocked !! d = None → {[d]} ∪ seen ⊆ s2 →
  ends_in ({[d]} ∪ seen) s2 (out ++ [d]) o2 → ends_in seen s2 out o2.
Proof.
  intros Hd Hl Hs (new & -> & N & E). exists (d :: new). split; [by rewrite <- app_assoc |]. split.
  - apply NoDup_cons. split; [| done]. rewrite E. set_solver.
  - intros x. rewrite elem_of_cons, E. destruct (decide (x = d)) as [-> |]; set_solver.
Qed.

Lemma walk_deps_spec fuel deps seen out :
  (∀ n seen out, size (dom blocked ∖ seen) < fuel → ∃ seen' out', walk blocked fuel n seen out = Some (seen', out') ∧
     explored (blockers_of blocked n) seen seen' ∧ ends_in seen seen' out out') →
  size (dom blocked ∖ seen) ≤ fuel →
  ∃ seen' out', walk_deps blocked (walk blocked fuel) deps seen out = Some (seen', out') ∧
    explored deps seen seen' ∧ ends_in seen seen' out out'.
Proof.
  intros Hwalk. revert seen out. induction deps as [| d deps IH]; intros seen out Hf; cbn [walk_deps].
  { exists seen, out. split; [done |]. split; [apply explored_nil |]. exists []. split; [by rewrite app_nil_r |].
    split; [constructor |]. intros x. rewrite elem_of_nil. tauto. }
  destruct (decide (d ∈ seen)) as [Hd | Hd].
  { destruct (IH seen out Hf) as (s' & o' & E & He & Ho). exists s', o'. split; [done |]. split; [by apply explored_skip | done]. }
  destruct (blocked !! d) as [l |] eqn:Hl.
  - assert (d ∈ dom blocked) as Hdom by (apply elem_of_dom; by eexists).
    pose proof (size_difference_push d (dom blocked) seen Hdom Hd) as Hsz.
    destruct (Hwalk d ({[d]} ∪ seen) out ltac:(lia)) as (s1 & o1 & E1 & He1 & Ho1).
    pose proof He1 as (Hs1 & _). rewrite E1. cbn.
    assert (size (dom blocked ∖ s1) ≤ fuel) as Hf1.
    { transitivity (size (dom blocked ∖ ({[d]} ∪ seen))); [| lia]. apply subseteq_size. set_solver. }
    destruct (IH s1 o1 Hf1) as (s2 & o2 & E2 & He2 & Ho2). pose proof He2 as (Hs2 & _). exists s2, o2. split; [done |].
    split; [by eapply explored_cons |]. by eapply ends_in_cons.
  - assert (size (dom blocked ∖ ({[d]} ∪ seen)) ≤ fuel) as Hf1.
    { transitivity (size (dom blocked ∖ seen)); [| done]. apply subseteq_size. set_solver. }
    destruct (IH ({[d]} ∪ seen) (out ++ [d]) Hf1) as (s2 & o2 & E2 & He2 & Ho2). pose proof He2 as (Hs2 & _).
    exists s2, o2. split; [done |]. split; [| by eapply ends_in_leaf].
    apply (explored_cons d deps seen ({[d]} ∪ seen)); [done | | done].
    unfold blockers_of. rewrite Hl. apply explored_nil.
Qed.

Lemma walk_spec fuel : ∀ n seen out, size (dom blocked ∖ seen) < fuel →
  ∃ seen' out', walk blocked fuel n seen out = Some (seen', out') ∧
    explored (blockers_of blocked n) seen seen' ∧ ends_in seen seen' out out'.
Proof.
  induction fuel as [| fuel IH]; intros n seen out Hf; [lia |]. cbn [walk]. apply walk_deps_spec; [apply IH | lia].
Qed.

(** A set closed under the edges holds whatever is reached from it. *)
Lemma closed_reach (s : gset NamedResource) x y : (∀ a b, a ∈ s → edge a b → b ∈ s) → rtc edge x y → x ∈ s → y ∈ s.
Proof. intros Hc. induction 1; eauto. Qed.

Lemma tc_first x y : tc edge x y → ∃ z, edge x z ∧ rtc edge z y.
Proof. destruct 1 as [x y H | x z y H H']; [exists y | exists z]; (split; [done |]); [done | by apply tc_rtc]. Qed.

Lemma tc_l_rtc x z y : edge x z → rtc edge z y → tc edge x y.
Proof. intros H H'. revert x H. induction H' as [z | z w y Hzw H' IH]; intros x H; [by apply tc_once |]. eapply tc_l; eauto. Qed.

(** [rootsOf] gives, once each, the resources at the ends of the blocker chains. *)
Lemma rootsOf_spec id : ∃ roots, rootsOf blocked id = Some roots ∧ NoDup roots ∧
  ∀ x, x ∈ roots ↔ x ≠ id ∧ blocked !! x = None ∧ tc edge id x.
Proof.
  unfold rootsOf, walk_fuel. destruct (walk_spec (S (size blocked)) id {[id]} []) as (s & o & E & (H1 & H2 & H3) & new & -> & N & En).
  { rewrite <- size_dom. apply Nat.lt_succ_r, subseteq_size. set_solver. }
  rewrite E. exists new. split; [done |]. split; [done |]. intros x. rewrite En. split.
  - intros (Hx & Hn & Hl). split; [set_solver |]. split; [done |]. destruct (H3 x Hx Hn) as [(d & Hd & Hr) _]. by apply (tc_l_rtc id d).
  - intros (Hne & Hl & (d & Hd & Hr)%tc_first). split; [| set_solver].
    apply (closed_reach s d x); [| done | by apply H2]. intros a b Ha Hab.
    destruct (decide (a = id)) as [-> |]; [by apply H2 |]. by apply (H3 a Ha ltac:(set_solver)).
Qed.

(** ** Victims *)

(** [root] accounts for [id]. *)
Definition victim (id root : NamedResource) : Prop := blocked !! root = None ∧ tc edge id root.

Definition at_root (m : resource_map (list NamedResource)) (root : NamedResource) : list NamedResource :=
  default [] (m !! root).

Lemma add_victims_spec id roots m : let m' := foldl (add_victim id) m roots in
  (∀ root x, x ∈ at_root m' root ↔ x ∈ at_root m root ∨ x = id ∧ root ∈ roots) ∧
  ((∀ root l, m !! root = Some l → l ≠ []) → ∀ root l, m' !! root = Some l → l ≠ []).
Proof.
  revert m. induction roots as [| r roots IH]; intros m; cbn [foldl].
  { split; [| done]. intros root x. rewrite elem_of_nil. tauto. }
  destruct (IH (add_victim id m r)) as [H1 H2]. split.
  - intros root x. rewrite H1, elem_of_cons. unfold at_root, add_victim. destruct (decide (root = r)) as [-> |].
    + rewrite lookup_insert_eq. cbn. rewrite elem_of_app, list_elem_of_singleton. tauto.
    + rewrite lookup_insert_ne by done. tauto.
  - intros Hm. apply H2. intros root l. unfold add_victim. destruct (decide (root = r)) as [-> |].
    + rewrite lookup_insert_eq. intros [= <-]. by destruct (default [] _).
    + rewrite lookup_insert_ne by done. apply Hm.
Qed.

Lemma collect_victims_spec order m : (∀ root l, m !! root = Some l → l ≠ []) →
  ∃ m', collect_victims blocked order m = Some m' ∧
  (∀ root x, x ∈ at_root m' root ↔ x ∈ at_root m root ∨ x ∈ order ∧ victim x root) ∧
  (∀ root l, m' !! root = Some l → l ≠ []).
Proof.
  revert m. induction order as [| id order IH]; intros m Hm; cbn [collect_victims].
  { exists m. split; [done |]. split; [| done]. intros root x. rewrite elem_of_nil. tauto. }
  destruct (rootsOf_spec id) as (roots & -> & _ & Hroots). cbn.
  destruct (add_victims_spec id roots m) as [A1 A2].
  destruct (IH _ (A2 Hm)) as (m' & E & B1 & B2). exists m'. split; [done |]. split; [| done].
  intros root x. rewrite B1, A1, elem_of_cons. unfold victim. split.
  - intros [[| [-> (_ & Hn & Ht)%Hroots]] |]; tauto.
  - intros [| [[-> |] [Hn Ht]]]; [tauto | | tauto]. left. right. split; [done |]. apply Hroots. split; [| done].
    intros ->. apply tc_first in Ht as (z & Hz%edge_blocked & _). rewrite Hn in Hz. by destruct Hz.
Qed.

(** The map a range over the blocked resources gives, whatever its order. *)
Definition victims_exact (m : resource_map (list NamedResource)) : Prop :=
  (∀ root ids, m !! root = Some ids → ids ≠ [] ∧ StronglySorted (λ a b, compare a b = Lt) ids) ∧
  ∀ root id, id ∈ at_root m root ↔ victim id root.

Lemma rootVictims_spec range : (∀ X : gset NamedResource, range X ≡ₚ elements X) →
  ∃ m, rootVictims blocked range = Some m ∧ victims_exact m.
Proof.
  intros Hrange. unfold rootVictims. destruct (collect_victims_spec (range (dom blocked)) ∅) as (m & -> & H1 & H2).
  { intros root l. by rewrite lookup_empty. }
  cbn. eexists. split; [done |]. unfold sorted_victims. split.
  - intros root ids (l & <- & Hl)%lookup_fmap_Some. split.
    + intros Hnil. apply (H2 root l Hl). destruct l as [| x l]; [done |]. exfalso.
      pose proof (proj2 (elem_of_sorted_distinct (x :: l) x) ltac:(by left)) as Hx. rewrite Hnil in Hx. by apply elem_of_nil in Hx.
    + apply Compact_sorted, sort_lawful_sorted.
  - intros root id. transitivity (id ∈ at_root m root).
    + unfold at_root. rewrite lookup_fmap. destruct (m !! root) as [l |]; [| done]. apply elem_of_sorted_distinct.
    + rewrite H1. unfold at_root. rewrite lookup_empty, elem_of_nil, Hrange, elem_of_elements, elem_of_dom. split; [tauto |].
      intros Hv. right. split; [| done]. destruct Hv as [_ (z & Hz & _)%tc_first]. by eapply edge_blocked.
Qed.

Lemma victims_exact_unique m1 m2 : victims_exact m1 → victims_exact m2 → m1 = m2.
Proof.
  intros [A1 A2] [B1 B2]. apply map_eq. intros root.
  assert (∀ id, id ∈ at_root m1 root ↔ id ∈ at_root m2 root) as Heq by (intros id; by rewrite A2, B2).
  unfold at_root in Heq. destruct (m1 !! root) as [l1 |] eqn:E1, (m2 !! root) as [l2 |] eqn:E2; cbn in Heq; [| | | done].
  - f_equal. apply strictly_sorted_unique; [by eapply A1 | by eapply B1 | done].
  - destruct (A1 _ _ E1) as [Hn _]. destruct l1 as [| x l1]; [done |]. pose proof (proj1 (Heq x) ltac:(by left)) as Hx. by apply elem_of_nil in Hx.
  - destruct (B1 _ _ E2) as [Hn _]. destruct l2 as [| x l2]; [done |]. pose proof (proj2 (Heq x) ltac:(by left)) as Hx. by apply elem_of_nil in Hx.
Qed.

(** ** Cycles *)

Definition reach_spec (id : NamedResource) (deps : list NamedResource) (seen : gset NamedResource)
    (b : bool) (seen' : gset NamedResource) : Prop :=
  seen ⊆ seen' ∧
  if b then ∃ d, d ∈ deps ∧ rtc edge d id
  else (∀ d, d ∈ deps → d ∈ seen' ∧ d ≠ id) ∧ ∀ x, x ∈ seen' → x ∉ seen → x ≠ id ∧ ∀ y, edge x y → y ∈ seen' ∧ y ≠ id.

Lemma any_reaches_spec fuel id :
  (∀ d seen, id ∉ seen → size (dom blocked ∖ seen) < fuel →
     ∃ b seen', reaches blocked fuel id d seen = Some (b, seen') ∧ reach_spec id [d] seen b seen') →
  ∀ deps seen, id ∉ seen → (deps = [] ∨ size (dom blocked ∖ seen) < fuel) →
    ∃ b seen', any_reaches (reaches blocked fuel id) deps seen = Some (b, seen') ∧ reach_spec id deps seen b seen'.
Proof.
  intros Hreach deps. induction deps as [| e deps IH]; intros seen Hid Hf; cbn [any_reaches].
  { exists false, seen. split; [done |]. split; [done |]. split; [by intros x ?%elem_of_nil | done]. }
  destruct Hf as [| Hf]; [done |]. destruct (Hreach e seen Hid Hf) as (b & s1 & -> & Hs1 & Hb). cbn. destruct b.
  { exists true, s1. split; [done |]. split; [done |]. destruct Hb as (x & ->%list_elem_of_singleton & Hx).
    exists e. split; [by left | done]. }
  destruct Hb as [Hb1 Hb2]. destruct (Hb1 e ltac:(by left)) as [He1 He2]. destruct (IH s1) as (b & s2 & -> & Hs2 & Hb).
  { intros Hin. by destruct (Hb2 id Hin). }
  { right. eapply Nat.le_lt_trans; [| exact Hf]. apply subseteq_size. set_solver. }
  exists b, s2. split; [done |]. split; [by transitivity s1 |]. destruct b.
  - destruct Hb as (x & Hx & Hr). exists x. split; [by right | done].
  - destruct Hb as [Hc1 Hc2]. split; [intros x [-> |]%elem_of_cons; [split; [by apply Hs2 | done] | by apply Hc1] |].
    intros x Hx Hn. destruct (decide (x ∈ s1)) as [Hx1 |]; [| by apply Hc2].
    destruct (Hb2 x Hx1 Hn) as [? Hy]. split; [done |]. intros y Hxy. destruct (Hy y Hxy). split; [by apply Hs2 | done].
Qed.

Lemma reaches_spec fuel id : ∀ d seen, id ∉ seen → size (dom blocked ∖ seen) < fuel →
  ∃ b seen', reaches blocked fuel id d seen = Some (b, seen') ∧ reach_spec id [d] seen b seen'.
Proof.
  induction fuel as [| fuel IH]; intros d seen Hid Hf; [lia |]. cbn [reaches].
  destruct (decide (d = id)) as [-> | Hne].
  { exists true, seen. split; [done |]. split; [done |]. exists id. split; [by left | done]. }
  destruct (decide (d ∈ seen)) as [Hd | Hd].
  { exists false, seen. split; [done |]. split; [done |]. split; [by intros x ->%list_elem_of_singleton | done]. }
  destruct (any_reaches_spec fuel id IH (blockers_of blocked d) ({[d]} ∪ seen)) as (b & s & -> & Hs & Hb).
  { rewrite elem_of_union, elem_of_singleton. intros [-> |]; done. }
  { destruct (blocked !! d) as [l |] eqn:Hl; [right | left; unfold blockers_of; by rewrite Hl].
    assert (d ∈ dom blocked) as Hdom by (apply elem_of_dom; by eexists).
    pose proof (size_difference_push d (dom blocked) seen Hdom Hd). lia. }
  assert (d ∈ s ∧ seen ⊆ s) as [Hds Hss] by (split; [apply Hs, elem_of_union_l, elem_of_singleton; done | by transitivity ({[d]} ∪ seen); [apply union_subseteq_r |]]).
  exists b, s. split; [done |]. split; [done |]. destruct b.
  - destruct Hb as (x & Hx & Hr). exists d. split; [by left |]. by eapply rtc_l.
  - destruct Hb as [Hc1 Hc2]. split; [by intros x ->%list_elem_of_singleton |].
    intros x Hx Hn. destruct (decide (x = d)) as [-> | Hxd]; [split; [done | apply Hc1] |]. apply Hc2; [done |].
    rewrite elem_of_union, elem_of_singleton. tauto.
Qed.

Lemma on_cycle_spec id : ∃ b, on_cycle blocked id = Some b ∧ (b = true ↔ tc edge id id).
Proof.
  unfold on_cycle. destruct (any_reaches_spec (S (size blocked)) id (reaches_spec _ id) (blockers_of blocked id) ∅)
    as (b & s & -> & _ & Hb); [apply not_elem_of_empty | |].
  { right. rewrite <- size_dom. apply Nat.lt_succ_r, subseteq_size. apply subseteq_difference_l. done. }
  exists b. split; [done |]. destruct b; (split; [try done | try done]).
  - intros _. destruct Hb as (d & Hd & Hr). by apply (tc_l_rtc id d).
  - intros (d & Hd & Hr)%tc_first. destruct Hb as [Hb1 Hb2]. exfalso.
    assert (id ∈ filter (λ x, x ≠ id) s) as Hin; [| by apply elem_of_filter in Hin as [? _]].
    apply (closed_reach (filter (λ x, x ≠ id) s) d id); [| done |].
    + intros x y [_ Hx]%elem_of_filter Hxy. apply elem_of_filter. destruct (Hb2 x Hx (not_elem_of_empty x)) as [_ Hy].
      destruct (Hy y Hxy). done.
    + apply elem_of_filter. destruct (Hb1 d Hd). done.
Qed.

Lemma markDependencyCycles_spec order covered cycles :
  ∃ cycles', markDependencyCycles blocked order covered cycles = Some cycles' ∧
  ∀ x, x ∈ cycles' ↔ x ∈ cycles ∨ x ∈ order ∧ x ∉ covered ∧ tc edge x x.
Proof.
  revert cycles. induction order as [| id order IH]; intros cycles; cbn [markDependencyCycles].
  { exists cycles. split; [done |]. intros x. rewrite elem_of_nil. tauto. }
  destruct (decide (id ∈ covered)) as [Hc | Hc].
  { destruct (IH cycles) as (c & -> & H). exists c. split; [done |]. intros x. rewrite H, elem_of_cons.
    split; [tauto |]. intros [| [[-> |] ?]]; tauto. }
  destruct (on_cycle_spec id) as (b & -> & Hb). cbn. destruct (IH (if b then {[id]} ∪ cycles else cycles)) as (c & -> & H).
  exists c. split; [done |]. intros x. rewrite H, elem_of_cons. destruct b.
  - rewrite elem_of_union, elem_of_singleton. destruct Hb as [Hb _]. specialize (Hb eq_refl). naive_solver.
  - split; [tauto |]. intros [| [[-> |] [? Ht]]]; [tauto | by apply Hb in Ht | tauto].
Qed.

End chains.

(** ** What each failure is charged to *)

Section charged.
Context (failed : resource_map StatusInfo) (blocked : resource_map (list NamedResource)).

(** A failed resource on a cycle from which only blocked resources are reached. *)
Definition closed_cycle (x : NamedResource) : Prop :=
  is_Some (failed !! x) ∧ tc (edge blocked) x x ∧ ∀ y, rtc (edge blocked) x y → is_Some (blocked !! y).

(** Where a chain of blockers ends. *)
Definition terminal (x : NamedResource) : Prop := blocked !! x = None ∨ closed_cycle x.

Definition passes (n d : NamedResource) : Prop := edge blocked n d ∧ ¬ closed_cycle n.

Definition charged (id root : NamedResource) : Prop := terminal root ∧ tc passes id root.

Definition is_cause (root : NamedResource) : Prop := terminal root ∧ (is_Some (failed !! root) ∨ ∃ id, charged id root).

Lemma tc_ext (R S : NamedResource → NamedResource → Prop) x y : (∀ a b, R a b ↔ S a b) → tc R x y ↔ tc S x y.
Proof.
  intros H. split; induction 1 as [x y Hxy | x z y Hxz _ IH]; [apply tc_once | eapply tc_l; [| exact IH] | apply tc_once | eapply tc_l; [| exact IH]];
    by apply H.
Qed.

(** A cycle is closed when no unblocked resource is reached from it. *)
Lemma closed_cycle_uncovered x : is_Some (failed !! x) → tc (edge blocked) x x →
  closed_cycle x ↔ ∀ root, ¬ victim blocked x root.
Proof.
  intros Hf Ht. split.
  - intros (_ & _ & Hc) root [Hn Hr]. destruct (Hc root) as [l Hl]; [by apply tc_rtc | congruence].
  - intros Hv. split; [done |]. split; [done |]. intros y Hy. destruct (blocked !! y) as [l |] eqn:Hl; [by eexists |].
    destruct (Hv y). split; [done |]. destruct Hy as [x | x z y Hxz Hzy]; [done | by apply (tc_l_rtc blocked x z)].
Qed.

Lemma reaches_open x y : blocked !! y = None → tc (edge blocked) x y → tc passes x y.
Proof.
  intros Hy. assert (∀ x, tc (edge blocked) x y → ¬ closed_cycle x) as Hopen.
  { intros z Hz (_ & _ & Hc). destruct (Hc y) as [l Hl]; [by apply tc_rtc | congruence]. }
  intros Ht. induction Ht as [x y Hxy | x z y Hxz Hzy IH].
  - apply tc_once. split; [done |]. by apply Hopen, tc_once.
  - eapply tc_l; [| by apply IH]. split; [done |]. apply Hopen. by eapply tc_l.
Qed.

(** From resources that are all blocked by something, a cycle is reached. *)
Lemma cycle_reached n : ∀ x (path : gset NamedResource), size (dom blocked ∖ path) ≤ n →
  (∀ y, rtc (edge blocked) x y → blockers_of blocked y ≠ []) → (∀ p, p ∈ path → tc (edge blocked) p x) →
  ∃ c, rtc (edge blocked) x c ∧ tc (edge blocked) c c.
Proof.
  induction n as [| n IH]; intros x path Hn Hb Hp; (destruct (decide (x ∈ path)) as [Hx | Hx]; [exists x; split; [done | by apply Hp] |]);
    destruct (blockers_of blocked x) as [| y ys] eqn:Hd; try (by destruct (Hb x)).
  - assert (x ∈ dom blocked ∖ path) as Hin by (apply elem_of_difference; split; [apply elem_of_dom, (edge_blocked blocked x y); unfold edge; rewrite Hd; by left | done]).
    assert (dom blocked ∖ path = ∅) as He by (apply leibniz_equiv, size_empty_inv; lia). rewrite He in Hin. by apply elem_of_empty in Hin.
  - assert (edge blocked x y) as Hxy by (unfold edge; rewrite Hd; by left).
    assert (x ∈ dom blocked) as Hdom by (by apply elem_of_dom, (edge_blocked blocked x y)).
    pose proof (size_difference_push x (dom blocked) path Hdom Hx) as Hsz.
    destruct (IH y ({[x]} ∪ path)) as (c & Hc & Hcc); [lia | | |].
    + intros z Hz. apply Hb. by eapply rtc_l.
    + intros p [->%elem_of_singleton | Hpp]%elem_of_union; [by apply tc_once |]. eapply tc_r; [by apply Hp | done].
    + exists c. split; [by eapply rtc_l | done].
Qed.

Lemma first_closed (cycles : gset NamedResource) x c : (∀ y, y ∈ cycles ↔ closed_cycle y) →
  rtc (edge blocked) x c → closed_cycle c → closed_cycle x ∨ ∃ c', closed_cycle c' ∧ tc passes x c'.
Proof.
  intros Hcy. induction 1 as [c | x z c Hxz Hzc IH]; intros Hc; [by left |].
  destruct (decide (x ∈ cycles)) as [Hx%Hcy | Hx]; [by left | right]. rewrite Hcy in Hx.
  destruct (IH Hc) as [Hz | (c' & Hc' & Ht)]; [exists z | exists c']; (split; [done |]).
  - by apply tc_once.
  - by eapply tc_l.
Qed.

(** Every blocked failure has a cause. *)
Lemma every_charged (cycles : gset NamedResource) : (∀ y, y ∈ cycles ↔ closed_cycle y) →
  dom blocked ⊆ dom failed → (∀ id deps, blocked !! id = Some deps → deps ≠ []) →
  ∀ id, is_Some (failed !! id) → terminal id ∨ ∃ root, charged id root.
Proof.
  intros Hcy Hsub Hne id Hf. destruct (blocked !! id) as [l |] eqn:Hl; [| by do 2 left].
  destruct (rootsOf_spec blocked id) as (roots & _ & _ & Hroots). destruct roots as [| r roots].
  - assert (∀ y, rtc (edge blocked) id y → is_Some (blocked !! y)) as Hall.
    { intros y Hy. destruct (blocked !! y) as [k |] eqn:Hk; [by eexists |]. exfalso.
      assert (y ≠ id) as Hyid by congruence. apply (not_elem_of_nil y), Hroots. split; [done |]. split; [done |].
      destruct Hy as [x | x z y Hxz Hzy]; [done | by apply (tc_l_rtc blocked x z)]. }
    destruct (cycle_reached (size (dom blocked)) id ∅) as (c & Hc & Hcc).
    + apply subseteq_size, subseteq_difference_l. done.
    + intros y [k Hk]%Hall. unfold blockers_of. rewrite Hk. by eapply Hne.
    + intros p ?%elem_of_empty. done.
    + assert (closed_cycle c) as Hclosed.
      { split; [| split; [done |]].
        - apply elem_of_dom, Hsub, elem_of_dom, Hall. done.
        - intros y Hy. apply Hall. by etransitivity. }
      destruct (first_closed cycles id c Hcy Hc Hclosed) as [| (c' & Hc' & Ht)]; [left; by right | right].
      exists c'. split; [by right | done].
  - destruct (proj1 (Hroots r) ltac:(by left)) as (_ & Hn & Ht). right. exists r. split; [by left |]. by apply reaches_open.
Qed.

End charged.

(** ** The causes *)

Section exact.
Context (diagnostic : NamedResource → string) (range : gset NamedResource → list NamedResource).
Context (range_keys : ∀ X : gset NamedResource, range X ≡ₚ elements X).
Context (failed : resource_map StatusInfo) (blocked : resource_map (list NamedResource)).

Lemma elem_of_covered_by m x : x ∈ covered_by m ↔ is_Some (m !! x) ∨ ∃ root, x ∈ at_root m root.
Proof.
  unfold covered_by. rewrite elem_of_union, elem_of_dom, elem_of_union_list. apply Morphisms_Prop.or_iff_morphism; [done |]. split.
  - intros (X & ([root l] & -> & Hin)%list_elem_of_fmap & Hx). exists root. apply elem_of_map_to_list in Hin.
    unfold at_root. rewrite Hin. by apply elem_of_list_to_set in Hx.
  - intros [root Hx]. unfold at_root in Hx. destruct (m !! root) as [l |] eqn:Hl; [| by apply elem_of_nil in Hx].
    exists (list_to_set l). split; [| by apply elem_of_list_to_set].
    apply list_elem_of_fmap. exists (root, l). split; [done | by apply elem_of_map_to_list].
Qed.

Definition without (cycles : gset NamedResource) : resource_map (list NamedResource) := filter (λ kv, kv.1 ∉ cycles) blocked.

Lemma cycles_closed m (cycles : gset NamedResource) : victims_exact blocked m →
  (∀ x, x ∈ cycles ↔ x ∈ range (dom failed) ∧ x ∉ covered_by m ∪ (dom failed ∖ dom blocked) ∧ tc (edge blocked) x x) →
  ∀ x, x ∈ cycles ↔ closed_cycle failed blocked x.
Proof.
  intros [Hne Hm] Hc x. rewrite Hc, range_keys, elem_of_elements, elem_of_dom. split.
  - intros (Hf & Hn & Ht). apply closed_cycle_uncovered; [done | done |]. intros root Hv. apply Hn.
    apply elem_of_union_l, elem_of_covered_by. right. exists root. by apply Hm.
  - intros Hcl. pose proof Hcl as (Hf & Ht & Hall). split; [done |]. split; [| done].
    assert (is_Some (blocked !! x)) as Hb by (by apply Hall).
    rewrite elem_of_union, elem_of_difference, elem_of_covered_by, !elem_of_dom.
    intros [[[l Hl] | [root Hr]] | [_ Hn]]; [| | done].
    + destruct (Hne x l Hl) as [Hnil _]. destruct l as [| y l]; [done |].
      assert (y ∈ at_root m x) as Hy by (unfold at_root; rewrite Hl; by left).
      apply Hm in Hy as [Hn _]. rewrite Hn in Hb. by destruct Hb.
    + apply Hm in Hr. by apply (closed_cycle_uncovered failed blocked x Hf Ht) in Hr.
Qed.

(** Without the closed cycles the walk meets exactly the passing steps. *)
Lemma without_spec (cycles : gset NamedResource) : (∀ x, x ∈ cycles ↔ closed_cycle failed blocked x) →
  (∀ x, without cycles !! x = None ↔ terminal failed blocked x) ∧
  ∀ id root, victim (without cycles) id root ↔ charged failed blocked id root.
Proof.
  intros Hc. assert (∀ x, without cycles !! x = None ↔ terminal failed blocked x) as Hn.
  { intros x. unfold without, terminal. rewrite map_lookup_filter_None, <- Hc. cbn. split.
    - intros [| Hx]; [by left |]. destruct (blocked !! x) as [l |] eqn:Hl; [| by left]. right.
      destruct (decide (x ∈ cycles)); [done |]. by destruct (Hx l eq_refl).
    - intros [| Hx]; [by left | right]. intros l _ Hnot. done. }
  split; [done |]. intros id root. unfold victim, charged. rewrite Hn. apply and_iff_compat_l, tc_ext. intros a b.
  unfold passes, edge, blockers_of, without. rewrite map_lookup_filter, <- Hc. destruct (blocked !! a) as [l |]; cbn.
  - case_guard; cbn; [tauto |]. rewrite elem_of_nil. tauto.
  - rewrite elem_of_nil. tauto.
Qed.

Lemma at_root_union (m : resource_map (list NamedResource)) (rest : resource_map StatusInfo) root :
  (∀ x, is_Some (rest !! x) → m !! x = None) →
  at_root (m ∪ ((λ _, []) <$> rest)) root = at_root m root.
Proof.
  intros Hd. unfold at_root. rewrite lookup_union, lookup_fmap. destruct (m !! root) as [l |] eqn:Hm; [by destruct (rest !! root) |].
  by destruct (rest !! root).
Qed.

(** Failure attribution is exact, whatever the order in which Go ranges over its
    maps.  The causes are the resources at which a chain of blockers ends and which failed
    or which some failure is charged to: those that nothing blocks, and the closed cycles
    of blockers; each cause lists, sorted and once each, exactly the failures charged to
    it; and of the failures only those on a closed cycle get another message, which names
    their blockers. *)
Theorem failureCauses_exact : ∃ causes failed',
  failureCauses diagnostic range failed blocked = Some (causes, failed') ∧
  (∀ root, is_Some (causes !! root) ↔ is_cause failed blocked root) ∧
  (∀ root id, id ∈ at_root causes root ↔ charged failed blocked id root) ∧
  (∀ root ids, causes !! root = Some ids → StronglySorted (λ a b, compare a b = Lt) ids) ∧
  (∀ id info, failed !! id = Some info →
     (closed_cycle failed blocked id → failed' !! id = Some (set_message (cycle_message diagnostic (blockers_of blocked id)) info)) ∧
     (¬ closed_cycle failed blocked id → failed' !! id = Some info)) ∧
  dom failed' = dom failed.
Proof.
  unfold failureCauses. destruct (rootVictims_spec blocked range range_keys) as (m & E & Hm). rewrite E. cbn [mbind option_bind].
  destruct (markDependencyCycles_spec blocked (range (dom failed)) (covered_by m ∪ (dom failed ∖ dom blocked)) ∅) as (cycles & Ec & Hc).
  rewrite Ec. cbn [mbind option_bind]. clear Ec.
  assert (∀ x, x ∈ cycles ↔ closed_cycle failed blocked x) as Hcl.
  { apply (cycles_closed m cycles Hm). intros x. rewrite Hc. split; [| tauto]. intros [?%elem_of_empty |]; done. }
  clear Hc. change (filter (λ kv, kv.1 ∉ cycles) blocked) with (without cycles).
  destruct (without_spec cycles Hcl) as [Hterm Hch].
  assert (∃ m2, (if decide (cycles = ∅) then Some m else rootVictims (without cycles) range) = Some m2 ∧ victims_exact (without cycles) m2) as (m2 & -> & [Hs2 Hm2]).
  { case_decide as He; [| by apply rootVictims_spec]. exists m. split; [done |].
    assert (without cycles = blocked) as ->; [| done]. unfold without. apply map_filter_id. intros i x _. rewrite He. apply not_elem_of_empty. }
  cbn [mbind option_bind]. set (rest := filter _ failed). set (failed' := map_imap _ failed).
  assert (∀ x, is_Some (rest !! x) ↔ is_Some (failed !! x) ∧ terminal failed blocked x ∧ m2 !! x = None) as Hrest.
  { intros x. rewrite <- Hterm. unfold rest. rewrite map_lookup_filter. destruct (failed !! x) as [i |]; cbn.
    - case_guard; cbn; (split; [| tauto]); [tauto | by intros [? ?]].
    - split; [by intros [? ?] | by intros [[? ?] _]]. }
  assert (∀ x, is_Some (m2 !! x) ↔ ∃ id, charged failed blocked id x) as Hdom.
  { intros x. split.
    - intros [ids Hids]. destruct (Hs2 x ids Hids) as [Hne _]. destruct ids as [| id ids]; [done |].
      exists id. apply Hch, Hm2. unfold at_root. rewrite Hids. by left.
    - intros [id Hid]. apply Hch, Hm2 in Hid. unfold at_root in Hid. destruct (m2 !! x); [done |]. by apply elem_of_nil in Hid. }
  exists (m2 ∪ ((λ _, []) <$> rest)), failed'. split; [done |]. split; [| split; [| split; [| split]]].
  - intros root. rewrite lookup_union_is_Some, lookup_fmap, fmap_is_Some, Hrest, Hdom. unfold is_cause. split.
    + intros [[id Hid] | (Hf & Ht & _)]; [split; [apply Hid | by right; exists id] | by split; [| left]].
    + intros [Ht [Hf | Hid]]; [| by left]. destruct (m2 !! root) as [l |] eqn:Hl; [| by right].
      left. apply Hdom. by eexists.
  - intros root id. rewrite at_root_union by (intros x Hx; by apply Hrest). by rewrite Hm2.
  - intros root ids. rewrite lookup_union_Some_raw, lookup_fmap. intros [Hl | [_ (x & _ & ->)%fmap_Some]]; [by eapply Hs2 | constructor].
  - intros id info Hi. unfold failed'. rewrite map_lookup_imap, Hi. cbn. rewrite <- Hcl. split; intros Hx; by case_decide.
  - apply set_eq. intros x. rewrite !elem_of_dom. unfold failed'. rewrite map_lookup_imap. by destruct (failed !! x).
Qed.
End exact.

(** ** Every failure is accounted for *)

Section accounted.
Context (Subjects : resource_map DiagnosticIdentity) (quote : string → string)
        (range : gset NamedResource → list NamedResource).
Context (range_keys : ∀ X : gset NamedResource, range X ≡ₚ elements X).

Section unrelated.
Context (raw_failed : resource_map StatusInfo) (raw_blocked : resource_map (list NamedResource))
        (unrelated : resource_map StatusInfo) (required : gset NamedResource)
        (byRoot : resource_map (list NamedResource)).

Definition mentions (w : Warning) (id : NamedResource) : Prop := w.(w_Resource) = id ∨ id ∈ w.(w_Related).

(** What has been covered is mentioned, and each warning is about another resource. *)
Definition reported (st : report) : Prop :=
  (∀ id, id ∈ st.1 → ∃ w, w ∈ st.2 ∧ mentions w id) ∧ NoDup (map w_Resource st.2).

Lemma reported_add related st w : reported st → w_Resource w ∉ map w_Resource st.2 →
  (∀ id, id ∈ related → mentions w id) → reported (related ∪ st.1, st.2 ++ [w]).
Proof.
  intros [H1 H2] Hn Hw. split; cbn.
  - intros id [Hid | (w' & Hw' & Hm)%H1]%elem_of_union.
    + exists w. rewrite elem_of_app, list_elem_of_singleton. auto.
    + exists w'. rewrite elem_of_app. auto.
  - rewrite map_app. apply NoDup_app. split; [done |]. split; [| apply NoDup_singleton].
    intros x Hx ->%list_elem_of_singleton. done.
Qed.

Definition about (P : NamedResource → Prop) (st : report) : Prop := ∀ w, w ∈ st.2 → P (w_Resource w).

Lemma report_failures_spec order : NoDup order → (∀ id, is_Some (unrelated !! id) → is_Some (raw_failed !! id)) →
  let st := foldl (report_failure Subjects quote raw_failed raw_blocked unrelated byRoot) (∅, []) order in
  reported st ∧ about (λ x, is_Some (unrelated !! x) ∧ x ∈ st.1) st ∧
  (∀ id, id ∈ order → raw_blocked !! id = None → is_Some (unrelated !! id) → id ∈ st.1).
Proof.
  intros Hnd Hsub.
  assert (∀ order st, NoDup order → reported st → about (λ x, is_Some (unrelated !! x) ∧ x ∈ st.1) st →
    (∀ id, id ∈ order → id ∉ map w_Resource st.2) →
    let st' := foldl (report_failure Subjects quote raw_failed raw_blocked unrelated byRoot) st order in
    reported st' ∧ about (λ x, is_Some (unrelated !! x) ∧ x ∈ st'.1) st' ∧ st.1 ⊆ st'.1 ∧
    (∀ id, id ∈ order → raw_blocked !! id = None → is_Some (unrelated !! id) → id ∈ st'.1)) as H.
  { clear Hnd order. intros order. induction order as [| id order IH]; intros st Hnd Hr Ha Hf; cbn [foldl].
    { split; [done |]. split; [done |]. split; [done |]. by intros x ?%elem_of_nil. }
    apply NoDup_cons in Hnd as [Hid Hnd].
    set (st1 := report_failure Subjects quote raw_failed raw_blocked unrelated byRoot st id).
    assert (reported st1 ∧ about (λ x, is_Some (unrelated !! x) ∧ x ∈ st1.1) st1 ∧ st.1 ⊆ st1.1 ∧
      (∀ x, x ∈ order → x ∉ map w_Resource st1.2) ∧
      (raw_blocked !! id = None → is_Some (unrelated !! id) → id ∈ st1.1)) as (A1 & A2 & A3 & A4 & A5).
    { unfold st1, report_failure. destruct (raw_blocked !! id) eqn:Eb.
      { do 3 (split; [done |]). split; [intros x Hx; apply Hf; by right | done]. }
      destruct (unrelated !! id) as [u |] eqn:Eu.
      2:{ do 3 (split; [done |]). split; [intros x Hx; apply Hf; by right | by intros _ [? ?]]. }
      destruct (Hsub id ltac:(by eexists)) as [info ->]. split; [| split; [| split; [| split]]].
      - apply reported_add; [done | apply Hf; by left |]. intros x [Hx | ->%elem_of_singleton]%elem_of_union; [right | by left].
        by apply elem_of_list_to_set in Hx.
      - intros w [Hw | ->%list_elem_of_singleton]%elem_of_app; [| cbn; rewrite Eu; split; [by eexists | set_solver]].
        destruct (Ha w Hw). cbn. split; [done | set_solver].
      - cbn. set_solver.
      - intros x Hx. cbn. rewrite map_app, elem_of_app. intros [Hin | ->%list_elem_of_singleton]; [| done].
        revert Hin. apply Hf. by right.
      - intros _ _. cbn. set_solver. }
    destruct (IH st1 Hnd A1 A2 A4) as (B1 & B2 & B3 & B4). split; [done |]. split; [done |]. split; [by transitivity (st1.1) |].
    intros x [-> | Hx]%elem_of_cons Hb Hu; [by apply B3, A5 | by apply B4]. }
  destruct (H order (∅, []) Hnd) as (B1 & B2 & _ & B4); [| | | done].
  - split; [by intros id ?%elem_of_empty | constructor].
  - by intros w ?%elem_of_nil.
  - intros id _. apply not_elem_of_nil.
Qed.

Lemma report_missing_spec order st : NoDup order → reported st → about (λ x, is_Some (raw_failed !! x)) st →
  let st' := foldl (report_missing Subjects quote raw_failed unrelated required byRoot) st order in
  reported st' ∧ st.1 ⊆ st'.1 ∧
  about (λ x, x ∈ map w_Resource st.2 ∨ raw_failed !! x = None ∧ x ∉ required) st'.
Proof.
  assert (∀ order st0 st, NoDup order → reported st → about (λ x, is_Some (raw_failed !! x)) st0 →
    about (λ x, x ∈ map w_Resource st0.2 ∨ raw_failed !! x = None ∧ x ∉ required) st →
    (∀ x, x ∈ order → raw_failed !! x = None → x ∉ map w_Resource st.2) →
    let st' := foldl (report_missing Subjects quote raw_failed unrelated required byRoot) st order in
    reported st' ∧ st.1 ⊆ st'.1 ∧ about (λ x, x ∈ map w_Resource st0.2 ∨ raw_failed !! x = None ∧ x ∉ required) st') as H.
  { clear order st. intros order st0. induction order as [| id order IH]; intros st Hnd Hr H0 Ha Hf; cbn [foldl]; [done |].
    apply NoDup_cons in Hnd as [Hid Hnd]. unfold report_missing at 2 4 6.
    destruct (decide _) as [Hd | Hd]; [apply IH; try done; intros x Hx; apply Hf; by right |].
    assert (raw_failed !! id = None ∧ id ∉ required) as [Hn Hreq].
    { split; [destruct (raw_failed !! id); [destruct Hd; left; by eexists | done] | tauto]. }
    set (related := unrelated_children unrelated byRoot id). destruct (decide (related = [])) as [E | E].
    - rewrite E. cbn [list_to_set]. rewrite (left_id_L ∅ (∪)). rewrite <- surjective_pairing. apply IH; try done. intros x Hx. apply Hf. by right.
    - set (w := failure_warning _ _ _ _ _).
      destruct (IH (list_to_set related ∪ st.1, st.2 ++ [w])) as (B1 & B2 & B3); [done | | done | | |].
      + apply reported_add; [done | by apply Hf; [left |] |]. intros x Hx. right. by apply elem_of_list_to_set in Hx.
      + intros x [Hx | ->%list_elem_of_singleton]%elem_of_app; [by apply Ha | by right].
      + intros x Hx Hxn. cbn. rewrite map_app, elem_of_app. intros [Hin | ->%list_elem_of_singleton]; [| done].
        revert Hin. apply Hf; [by right | done].
      + split; [done |]. split; [set_solver | done]. }
  intros Hnd Hr Ha. apply H; [done | done | done | |].
  - intros w Hw. left. by apply list_elem_of_fmap_2.
  - intros x _ Hn (w & -> & Hw)%list_elem_of_fmap. destruct (Ha w Hw) as [i Hi]. congruence.
Qed.

Lemma elem_of_blocked_reports covered order w :
  w ∈ concat (map (report_blocked Subjects quote raw_blocked unrelated covered) order) →
  w_Resource w ∈ order ∧ is_Some (unrelated !! w_Resource w) ∧ w_Resource w ∉ covered.
Proof.
  rewrite elem_of_concat_map. intros (id & Hid & Hw). unfold report_blocked in Hw.
  destruct (unrelated !! id) eqn:Eu; [| by apply elem_of_nil in Hw]. case_decide as Hc; [by apply elem_of_nil in Hw |].
  apply list_elem_of_singleton in Hw as ->. cbn. rewrite Eu. done.
Qed.

Lemma NoDup_blocked_reports covered order : NoDup order →
  NoDup (map w_Resource (concat (map (report_blocked Subjects quote raw_blocked unrelated covered) order))).
Proof.
  induction 1 as [| id order Hid Hnd IH]; [constructor |]. cbn. rewrite map_app. apply NoDup_app.
  unfold report_blocked at 1 2. destruct (unrelated !! id); [case_decide |]; cbn.
  1, 3: (split; [constructor |]; split; [by intros x ?%elem_of_nil | done]).
  split; [apply NoDup_singleton |]. split; [| done].
  intros x ->%list_elem_of_singleton (w & -> & Hw)%list_elem_of_fmap. by apply elem_of_blocked_reports in Hw as [? _].
Qed.

(** The warnings: each failure out of scope is mentioned, and no resource has two. *)
Lemma report_all_spec : (∀ id, is_Some (unrelated !! id) → is_Some (raw_failed !! id)) →
  let ws := report_all Subjects quote range raw_failed raw_blocked unrelated required byRoot in
  (∀ id, is_Some (unrelated !! id) → ∃ w, w ∈ ws ∧ mentions w id) ∧ NoDup (map w_Resource ws) ∧
  Sorted (by_le by_resource) ws ∧
  ∀ w, w ∈ ws → is_Some (unrelated !! w_Resource w) ∨ raw_failed !! w_Resource w = None ∧ w_Resource w ∉ required.
Proof.
  intros Hsub. unfold report_all. cbv zeta.
  assert (∀ X, NoDup (range X)) as Hnd by (intros X; rewrite range_keys; apply NoDup_elements).
  destruct (report_failures_spec (range (dom raw_failed)) (Hnd _) Hsub) as (A1 & A2 & A3).
  set (st1 := foldl (report_failure Subjects quote raw_failed raw_blocked unrelated byRoot) (∅, []) (range (dom raw_failed))) in *.
  destruct (report_missing_spec (range (dom byRoot)) st1 (Hnd _) A1) as (B1 & B2 & B3).
  { intros w Hw. destruct (A2 w Hw). by apply Hsub. }
  set (st2 := foldl (report_missing Subjects quote raw_failed unrelated required byRoot) st1 (range (dom byRoot))) in *. set (ws3 := concat _).
  assert (∀ w, w ∈ ws3 → w_Resource w ∈ range (dom unrelated) ∧ is_Some (unrelated !! w_Resource w) ∧ w_Resource w ∉ st2.1) as C.
  { intros w Hw. by apply elem_of_blocked_reports in Hw. }
  split; [| split; [| split]].
  - intros id Hu. assert (id ∈ range (dom unrelated)) as Hid by (by rewrite range_keys, elem_of_elements, elem_of_dom).
    destruct (decide (id ∈ st2.1)) as [Hin | Hin].
    + destruct B1 as [B1 _]. destruct (B1 id Hin) as (w & Hw & Hm). exists w. rewrite elem_of_sort_by, elem_of_app. auto.
    + destruct Hu as [info Hu].
      eassert (_ ∈ report_blocked Subjects quote raw_blocked unrelated st2.1 id) as Hw.
      { unfold report_blocked. rewrite Hu, decide_False by done. by left. }
      eexists. split; [rewrite elem_of_sort_by, elem_of_app; right; apply elem_of_concat_map; exists id; split; [done | exact Hw] | by left].
  - rewrite (Permutation_map w_Resource (sort_by_perm by_resource _)), map_app. apply NoDup_app.
    split; [apply B1 |]. split; [| apply NoDup_blocked_reports, Hnd].
    intros x (w & -> & Hw)%list_elem_of_fmap (w' & E & Hw')%list_elem_of_fmap. destruct (C w' Hw') as (_ & Hu & Hn). rewrite <- E in Hu, Hn.
    destruct (B3 w Hw) as [(w1 & E1 & Hw1)%list_elem_of_fmap | [Hf _]].
    + destruct (A2 w1 Hw1) as [_ Hin]. rewrite <- E1 in Hin. by apply Hn, B2.
    + apply Hsub in Hu. rewrite Hf in Hu. by destruct Hu.
  - apply sort_by_sorted. intros a b. unfold by_resource. apply compare_gt_flip.
  - intros w. rewrite elem_of_sort_by, elem_of_app. intros [Hw | Hw]; [| left; by apply C].
    destruct (B3 w Hw) as [(w1 & E1 & Hw1)%list_elem_of_fmap |]; [left | by right]. rewrite E1. by apply A2.
Qed.

End unrelated.

(** ** What a result says *)

Lemma terminal_not_charged failed blocked id root : charged failed blocked id root → ¬ terminal failed blocked id.
Proof.
  intros [_ Ht]. assert (∃ z, edge blocked id z ∧ ¬ closed_cycle failed blocked id) as (z & Hz & Hn).
  { destruct Ht as [x y [? ?] | x z y [? ?] _]; eauto. }
  intros [Hb |]; [| done]. apply edge_blocked in Hz as [l Hl]. congruence.
Qed.

Lemma BlockedCount_spec failed blocked causes : dom blocked ⊆ dom failed →
  (∀ id, is_Some (failed !! id) → blocked !! id = None → is_Some (causes !! id)) →
  BlockedCount failed blocked causes = Z.of_nat (size (filter (λ kv, causes !! kv.1 = None) failed)).
Proof.
  intros Hsub Hcause. unfold BlockedCount. rewrite <- !size_dom.
  assert (dom (filter (λ kv, is_Some (failed !! kv.1) ∧ is_Some (blocked !! kv.1)) causes) = dom blocked ∩ dom causes) as ->.
  { apply set_eq. intros x. rewrite elem_of_intersection, !elem_of_dom, map_lookup_filter.
    destruct (causes !! x) as [l |]; cbn; [| split; [by intros [? ?] | by intros [_ [? ?]]]].
    case_guard as Hg; cbn; [split; [intros _; split; [tauto | by eexists] | by eexists] |].
    split; [by intros [? ?] |]. intros [Hb _]. destruct Hg. split; [| done]. apply elem_of_dom, Hsub. by apply elem_of_dom. }
  assert (dom (filter (λ kv, causes !! kv.1 = None) failed) = dom blocked ∖ dom causes) as ->.
  { apply set_eq. intros x. rewrite elem_of_difference, !elem_of_dom, map_lookup_filter. split.
    - destruct (failed !! x) as [i |] eqn:Hf; cbn; [| by intros [? ?]]. case_guard as Hg; cbn; [| by intros [? ?]]. intros _.
      rewrite Hg. split; [| by intros [? ?]]. destruct (blocked !! x) eqn:Hb; [by eexists |].
      destruct (Hcause x) as [c Hc]; [by eexists | done | congruence].
    - intros [Hb Hn]. assert (is_Some (failed !! x)) as [i ->] by (by apply elem_of_dom, Hsub, elem_of_dom). cbn.
      rewrite option_guard_True; [by eexists |]. destruct (causes !! x); [destruct Hn; by eexists | done]. }
  pose proof (size_difference_alt (dom blocked) (dom causes)). pose proof (subseteq_size (dom blocked ∩ dom causes) (dom blocked) ltac:(apply intersection_subseteq_l)). lia.
Qed.

(** The causes and victims of a run's own failures. *)
Lemma attributed failed blocked : dom blocked ⊆ dom failed → (∀ id deps, blocked !! id = Some deps → deps ≠ []) →
  ∃ causes failed', failureCauses (diagnostic Subjects quote) range failed blocked = Some (causes, failed') ∧
  dom failed' = dom failed ∧
  (∀ id, is_Some (failed !! id) →
     (is_Some (causes !! id) ∧ ∀ root, id ∉ at_root causes root) ∨ (causes !! id = None ∧ ∃ root, id ∈ at_root causes root)) ∧
  BlockedCount failed' blocked causes = Z.of_nat (size (filter (λ kv, causes !! kv.1 = None) failed')).
Proof.
  intros Hsub Hne.
  destruct (failureCauses_exact (diagnostic Subjects quote) range range_keys failed blocked) as (causes & failed' & E & C1 & C2 & _ & _ & C5).
  exists causes, failed'. split; [done |]. split; [done |]. split.
  - intros id Hf. destruct (rootVictims_spec blocked range range_keys) as (m & _ & Hm).
    destruct (markDependencyCycles_spec blocked (range (dom failed)) (covered_by m ∪ (dom failed ∖ dom blocked)) ∅) as (cycles & _ & Hc).
    destruct (every_charged failed blocked cycles) with (id := id) as [Ht | [root Hr]]; [| done | done | done | left | right].
    + apply (cycles_closed range range_keys failed blocked m cycles Hm). intros x. rewrite Hc. split; [| tauto].
      intros [?%elem_of_empty |]; done.
    + split; [apply C1; split; [done | by left] |]. intros root Hr%C2. by apply terminal_not_charged in Hr.
    + split; [| exists root; by apply C2]. destruct (causes !! id) as [l |] eqn:Hl; [| done]. exfalso.
      apply (terminal_not_charged failed blocked id root Hr), (C1 id). by eexists.
  - apply BlockedCount_spec; [by rewrite C5 |]. intros id Hf Hb. apply C1. split; [by left | left].
    apply elem_of_dom. rewrite <- C5. by apply elem_of_dom.
Qed.


End accounted.

(** The text of the error does not depend on the order of the causes. *)
Lemma selectedFailures_order Subjects quote range1 range2 f :
  (∀ X : gset NamedResource, range1 X ≡ₚ range2 X) →
  selectedFailures Subjects quote range1 f = selectedFailures Subjects quote range2 f.
Proof.
  intros Hr. unfold selectedFailures. case_decide; [done |].
  by rewrite (sort_by_unique _ _ (Permutation_map (failure_line Subjects quote f) (Hr (dom (Causes f))))).
Qed.

(** ** A concrete run *)

Definition node (n : string) : NamedResource := mkResource "g" "K" "n" n.
Definition failure (m : string) : StatusInfo := mkInfo StatusFailed ReasonFailed m None 0.

(** [a] and [b] wait for each other and [c] for [a]; [d] failed; [e] waits for [m], which
    does not exist, and for [d]. *)
Definition run_failed : resource_map StatusInfo :=
  {[node "a" := failure "waits"; node "b" := failure "waits"; node "c" := failure "waits"; node "d" := failure "bad"; node "e" := failure "waits"]}.
Definition run_blocked : resource_map (list NamedResource) :=
  {[node "a" := [node "b"]; node "b" := [node "a"]; node "c" := [node "a"]; node "e" := [node "m"; node "d"]]}.

Lemma failureCauses_exact_witness : ∃ causes failed',
  failureCauses Name elements run_failed run_blocked = Some (causes, failed') ∧
  (map_to_list causes ≡ₚ [(node "a", [node "c"]); (node "b", []); (node "d", [node "e"]); (node "m", [node "e"])]) ∧
  (i_Message <$> failed' !! node "a" = Some "dependency cycle: blocked by b") ∧
  (∀ root id, id ∈ at_root causes root ↔ charged run_failed run_blocked id root).
Proof.
  destruct (failureCauses_exact Name elements (λ X, reflexivity (elements X)) run_failed run_blocked) as (causes & failed' & E & _ & H & _).
  exists causes, failed'. split; [exact E |].
  assert (default (∅, ∅) (failureCauses Name elements run_failed run_blocked) = (causes, failed')) as E' by (rewrite E; done).
  split; [| split; [| exact H]].
  - change causes with (causes, failed').1. rewrite <- E'. apply (bool_decide_unpack _). vm_compute. exact I.
  - change failed' with (causes, failed').2. rewrite <- E'. vm_compute. reflexivity.
Defined.

