(* ===== verification/Decision.v ===== *)
(** * Requests and decisions (pkg/selection/request.go, decision.go)

    What a run is asked for, and what it has decided to do about each identity.  A
    decision is immutable once published, and its successor shares the buckets it did
    not change: the maps live in a heap, and a decision holds pointers to them. *)

From stdpp Require Import fin_maps.
From S2P Require Import Prelude Resource.

(** ** Requests *)

Record Request := mkRequest { Roots : list NamedResource; Changed_only : bool; Labels : gmap string string }.

Section request.
Context (s : Request).

(** [s.Roots[0]], of a request that has roots. *)
Definition root0 : NamedResource := default no_resource (head s.(Roots)).

Definition includesRenderKinds (named : bool) : bool :=
  (negb named || bool_decide (root0.(Name) = "")) &&
  forallb (λ root, (negb named || bool_decide (root.(Name) = "")) && bool_decide (root.(Namespace) = root0.(Namespace))) s.(Roots) &&
  forallb (λ kind, negb kind.(Render) ||
             existsb (λ root, bool_decide (root.(Group) = kind.(k_Group)) && bool_decide (root.(Kind) = kind.(k_Kind))) s.(Roots))
    Kinds.

Definition root_matches (id : NamedResource) (named : bool) (root : NamedResource) : bool :=
  bool_decide (root.(Group) = id.(Group)) && bool_decide (root.(Kind) = id.(Kind)) &&
  (negb named || bool_decide (root.(Name) = "") || bool_decide (root.(Name) = id.(Name))) &&
  (bool_decide (root.(Namespace) = "") || bool_decide (id.(Namespace) = "") || bool_decide (root.(Namespace) = id.(Namespace))).

Definition matches (id : NamedResource) (named : bool) : bool :=
  if bool_decide (s.(Roots) = []) then true
  else if existsb (root_matches id named) s.(Roots) then true
  else if includesRenderKinds named
  then bool_decide (root0.(Namespace) = "") || bool_decide (id.(Namespace) = "") || bool_decide (id.(Namespace) = root0.(Namespace))
  else false.

Definition Matches (id : NamedResource) : bool := matches id true.
Definition MatchesScope (id : NamedResource) : bool := matches id false.

End request.

(** ** Decisions *)

Definition needed : N := 1.
Definition selected : N := 2.
Definition dirty : N := 4.
Definition ordinary : N := 8.
Definition promoted : N := 16.

Definition has (roles bit : N) : bool := bool_decide (N.land roles bit ≠ 0%N).

Definition decisionBuckets : nat := 64.

Notation ptr := nat (only parsing).
Notation bucket := (gmap NamedResource N) (only parsing).
Notation heap := (gmap ptr bucket) (only parsing).

(** A [Decision]; a bucket is [nil] or a pointer to its map.  The seed is in [hash]. *)
Record Decision := mkDecision { buckets : list (option ptr); revision : Z; execution : bool }.

(** [Admission], of the lists [include] reads. *)
Record Admission := mkAdmission {
  Needed : list NamedResource; Selected : list NamedResource; Dirty : list NamedResource; Ordinary : list NamedResource;
}.

Section decision.
(** [maphash.Comparable] with the decision's seed. *)
Context (hash : NamedResource → N).

Definition bucket_of (id : NamedResource) : nat := N.to_nat (hash id `mod` N.of_nat decisionBuckets).

Definition read (h : heap) (p : option ptr) : bucket := default ∅ (p ≫= λ p, h !! p).

Definition bucket_at (h : heap) (bs : list (option ptr)) (b : nat) : bucket := read h (default None (bs !! b)).

(** [roles]; a nil decision has every role but [promoted]. *)
Definition roles (h : heap) (d : option Decision) (id : NamedResource) : N :=
  match d with
  | None => N.lor (N.lor needed selected) (N.lor dirty ordinary)
  | Some d => default 0%N (bucket_at h d.(buckets) (bucket_of id) !! id)
  end.

Definition Reconcile h d id : bool := has (roles h d id) needed.
Definition Output h d id : bool := has (roles h d id) selected.
Definition Changed h d id : bool := has (roles h d id) dirty.
Definition OrdinaryDemand h d id : bool := has (roles h d id) ordinary.

Definition Ordering h (d : option Decision) id (present indexed : bool) : bool :=
  match d with None => true | Some _ => Reconcile h d id || negb present && negb indexed end.

(** [namespaces]: the selected ones, of every bucket. *)
Definition namespaces h (d : option Decision) : gset string :=
  match d with
  | None => ∅
  | Some d =>
      ⋃ (map (λ p, list_to_set (omap (λ kv : NamedResource * N,
                 if has kv.2 selected && negb (ReportHidden kv.1) && bool_decide (kv.1.(Namespace) ≠ "")
                 then Some kv.1.(Namespace) else None) (map_to_list (read h p)))) d.(buckets))
  end.

(** *** Inclusion *)

(** The roles an identity gets, in [includeRole]. *)
Definition add_role (committed : N) (execution : bool) (role previous : N) : N :=
  let r := N.lor (N.lor previous needed) role in
  let r := if bool_decide (role = selected) then N.lor r ordinary else r in
  let r := if has committed needed && negb (has committed ordinary) && has r ordinary && execution && negb (has r dirty)
           then N.lor r (N.lor dirty promoted) else r in
  if bool_decide (role = dirty) then N.ldiff r promoted else r.

(** Whether the change of an identity's roles concerns the store. *)
Definition admits_roles (committed r : N) (execution : bool) : bool :=
  execution && (negb (has committed needed) || bool_decide (N.land committed ordinary ≠ N.land r ordinary) ||
                negb (has committed dirty) && has r dirty).

(** The decision under construction, with the buckets it has copied. *)
Record construction := mkConstruction { c_heap : heap; c_buckets : list (option ptr); copied : list bool }.

Definition committed_roles h (d : Decision) (id : NamedResource) : N :=
  if d.(execution) then roles h (Some d) id else 0%N.

(** [includeRole]: with the construction, whether it changed and whether it admitted. *)
Definition includeRole (d : Decision) (c : construction) (id : NamedResource) (role : N) (execution : bool)
    : construction * bool * bool :=
  let b := bucket_of id in
  let previous := default 0%N (bucket_at c.(c_heap) c.(c_buckets) b !! id) in
  let committed := committed_roles c.(c_heap) d id in
  let r := add_role committed execution role previous in
  if bool_decide (previous = r) then (c, false, false)
  else
    let c := if default false (c.(copied) !! b) then c
             else let p := fresh (dom c.(c_heap)) in
                  mkConstruction (<[p := read c.(c_heap) (default None (c.(c_buckets) !! b))]> c.(c_heap))
                    (<[b := Some p]> c.(c_buckets)) (<[b := true]> c.(copied)) in
    let h := match default None (c.(c_buckets) !! b) with
             | Some p => alter (insert id r) p c.(c_heap)
             | None => c.(c_heap)
             end in
    (mkConstruction h c.(c_buckets) c.(copied), true, admits_roles committed r execution).

Definition axes (update : Admission) (execution : bool) : list (NamedResource * N) :=
  let axis role := map (λ id, (id, role)) in
  axis ordinary update.(Ordinary) ++ axis needed update.(Needed) ++
  (if execution then axis selected update.(Selected) ++ axis dirty update.(Dirty) else []).

Definition include_one (d : Decision) (execution : bool) (st : construction * bool * list NamedResource)
    (ax : NamedResource * N) : construction * bool * list NamedResource :=
  let '(c, changed, included) := st in
  if bool_decide (ax.1 = no_resource) then st
  else
    let '(c, updated, admitted) := includeRole d c ax.1 ax.2 execution in
    (c, changed || updated, if admitted : bool then included ++ [ax.1] else included).

(** [include]; [None] is the receiver itself. *)
Definition include (h : heap) (d : Decision) (update : Admission) (execution' : bool)
    : heap * option Decision * list NamedResource :=
  if d.(execution) && negb execution' then (h, None, [])
  else
    let start := if execution' && negb d.(execution) then replicate decisionBuckets None else d.(buckets) in
    let nextExecution := d.(execution) || execution' in
    let '(c, changed, included) :=
      foldl (include_one d execution') (mkConstruction h start (replicate decisionBuckets false),
                                        negb (bool_decide (d.(execution) = nextExecution)), [])
        (axes update execution') in
    if changed : bool
    then (c.(c_heap), Some (mkDecision c.(c_buckets) (uint64 (d.(revision) + 1)) nextExecution),
          Compact (sort_by compare included))
    else (h, None, []).

End decision.

(** ** The flat decision that the buckets represent *)

Section flat.
Context (hash : NamedResource → N).

(** The buckets give each identity the roles of [f]. *)
Definition reads (h : heap) (bs : list (option ptr)) (f : NamedResource → N) : Prop :=
  ∀ id, default 0%N (bucket_at h bs (bucket_of hash id) !! id) = f id.

(** One inclusion on roles kept in a plain function. *)
Definition flat_one (committed : NamedResource → N) (execution : bool)
    (st : (NamedResource → N) * bool * list NamedResource) (ax : NamedResource * N)
    : (NamedResource → N) * bool * list NamedResource :=
  let '(f, changed, included) := st in
  let r := add_role (committed ax.1) execution ax.2 (f ax.1) in
  if bool_decide (ax.1 = no_resource) || bool_decide (f ax.1 = r) then st
  else (λ x, if bool_decide (x = ax.1) then r else f x, true,
        if admits_roles (committed ax.1) r execution then included ++ [ax.1] else included).

Lemma bucket_of_lt id : bucket_of hash id < decisionBuckets.
Proof. unfold bucket_of, decisionBuckets. pose proof (N.mod_lt (hash id) 64 ltac:(done)). lia. Qed.

(** What a published decision satisfies. *)
Record published (h : heap) (d : Decision) : Prop := {
  p_length : length d.(buckets) = decisionBuckets;
  p_valid b p : d.(buckets) !! b = Some (Some p) → is_Some (h !! p);
  p_home b p m id r : d.(buckets) !! b = Some (Some p) → h !! p = Some m → m !! id = Some r → b = bucket_of hash id;
  p_roles id : (roles hash h (Some d) id < 32)%N;
}.

(** A construction over the heap [h0]: the maps of [h0] are as they were, and the copied
    buckets are maps of its own. *)
Record building (h0 : heap) (c : construction) : Prop := {
  b_length : length c.(c_buckets) = decisionBuckets;
  b_copied : length c.(copied) = decisionBuckets;
  b_kept p m : h0 !! p = Some m → c.(c_heap) !! p = Some m;
  b_valid b p : c.(c_buckets) !! b = Some (Some p) → is_Some (c.(c_heap) !! p);
  b_home b p m id r : c.(c_buckets) !! b = Some (Some p) → c.(c_heap) !! p = Some m → m !! id = Some r → b = bucket_of hash id;
  b_own b : c.(copied) !! b = Some true → ∃ p, c.(c_buckets) !! b = Some (Some p) ∧ h0 !! p = None;
  b_apart b1 b2 p : c.(copied) !! b1 = Some true → c.(c_buckets) !! b1 = Some (Some p) →
    c.(c_buckets) !! b2 = Some (Some p) → b1 = b2;
}.

Lemma read_some h p m : h !! p = Some m → read h (Some p) = m.
Proof. unfold read. cbn. by intros ->. Qed.

Lemma bucket_at_some h bs b o : bs !! b = Some o → bucket_at h bs b = read h o.
Proof. unfold bucket_at. by intros ->. Qed.

(** A bucket is copied before it is first written. *)
Lemma own_bucket h0 c b f : building h0 c → reads c.(c_heap) c.(c_buckets) f → b < decisionBuckets →
  let c' := if default false (c.(copied) !! b) then c
            else let p := fresh (dom c.(c_heap)) in
                 mkConstruction (<[p := read c.(c_heap) (default None (c.(c_buckets) !! b))]> c.(c_heap))
                   (<[b := Some p]> c.(c_buckets)) (<[b := true]> c.(copied)) in
  building h0 c' ∧ reads c'.(c_heap) c'.(c_buckets) f ∧ c'.(copied) !! b = Some true.
Proof.
  intros Hb Hr Hlt. cbv zeta. destruct (copied c !! b) as [[] |] eqn:Ec; cbn [from_option id]; cbv zeta.
  { done. }
  2:{ apply lookup_ge_None in Ec. rewrite (b_copied _ _ Hb) in Ec. lia. }
  set (p := fresh (dom (c_heap c))). assert (c_heap c !! p = None) as Hp by (apply not_elem_of_dom, is_fresh). clearbody p.
  assert (∀ b' q, c_buckets c !! b' = Some (Some q) → q ≠ p) as Hne.
  { intros b' q Hq ->. destruct (b_valid _ _ Hb _ _ Hq). congruence. }
  split; [split; cbn [c_heap c_buckets copied] | split].
  - by rewrite length_insert, (b_length _ _ Hb).
  - by rewrite length_insert, (b_copied _ _ Hb).
  - intros q m Hq. rewrite (fin_maps.lookup_insert_ne (c_heap c)); [by apply (b_kept _ _ Hb) |]. intros <-. apply (b_kept _ _ Hb) in Hq. congruence.
  - intros b' q. destruct (decide (b' = b)) as [-> |].
    + rewrite list_lookup_insert_eq by (by rewrite (b_length _ _ Hb)). intros [= <-]. rewrite (fin_maps.lookup_insert_eq (c_heap c)). by eexists.
    + rewrite list_lookup_insert_ne by done. intros Hq. rewrite (fin_maps.lookup_insert_ne (c_heap c)) by (intros E; by apply (Hne _ _ Hq)). by eapply (b_valid _ _ Hb).
  - intros b' q m id r. destruct (decide (b' = b)) as [-> |].
    + rewrite list_lookup_insert_eq by (by rewrite (b_length _ _ Hb)). intros [= <-]. rewrite (fin_maps.lookup_insert_eq (c_heap c)). intros [= <-].
      destruct (c_buckets c !! b) as [[q |] |] eqn:Eq; [| done | done]. change (default None (Some (Some q))) with (Some q).
      destruct (b_valid _ _ Hb _ _ Eq) as [m Hm]. rewrite (read_some _ _ _ Hm). by apply (b_home _ _ Hb _ _ _ _ _ Eq).
    + rewrite list_lookup_insert_ne by done. intros Hq. rewrite (fin_maps.lookup_insert_ne (c_heap c)) by (intros E; by apply (Hne _ _ Hq)).
      by apply (b_home _ _ Hb).
  - intros b'. destruct (decide (b' = b)) as [-> |].
    + rewrite !list_lookup_insert_eq by (by rewrite ?(b_length _ _ Hb), ?(b_copied _ _ Hb)). intros _. exists p. split; [done |].
      destruct (h0 !! p) as [m |] eqn:E; [| done]. apply (b_kept _ _ Hb) in E. congruence.
    + rewrite !list_lookup_insert_ne by done. apply (b_own _ _ Hb).
  - intros b1 b2 q. destruct (decide (b1 = b)) as [-> |], (decide (b2 = b)) as [-> |]; [done | | |].
    + rewrite (list_lookup_insert_ne (c_buckets c) b b2) by done. rewrite !list_lookup_insert_eq by (by rewrite ?(b_length _ _ Hb), ?(b_copied _ _ Hb)).
      intros _ [= <-] Hq. by destruct (Hne _ _ Hq).
    + rewrite !(list_lookup_insert_ne _ b b1) by done. rewrite list_lookup_insert_eq by (by rewrite (b_length _ _ Hb)).
      intros _ Hq [= <-]. by destruct (Hne _ _ Hq).
    + rewrite !list_lookup_insert_ne by done. apply (b_apart _ _ Hb).
  - intros id. rewrite <- Hr. f_equal. unfold bucket_at. cbn. set (b' := bucket_of hash id).
    destruct (decide (b' = b)) as [E | E].
    + rewrite E, list_lookup_insert_eq by (by rewrite (b_length _ _ Hb)). cbn. unfold read at 1. cbn. by rewrite (fin_maps.lookup_insert_eq (c_heap c)).
    + rewrite list_lookup_insert_ne by done. destruct (c_buckets c !! b') as [[q |] |] eqn:Eq; [| done | done]. cbn.
      unfold read. cbn. rewrite (fin_maps.lookup_insert_ne (c_heap c)) by (intros Hpq; by apply (Hne _ _ Eq)). done.
  - cbn. by rewrite list_lookup_insert_eq by (by rewrite (b_copied _ _ Hb)).
Qed.

(** A write to an own bucket changes one identity. *)
Lemma write_bucket h0 c id r f : building h0 c → reads c.(c_heap) c.(c_buckets) f →
  c.(copied) !! bucket_of hash id = Some true →
  let h := match default None (c.(c_buckets) !! bucket_of hash id) with
           | Some p => alter (insert id r) p c.(c_heap) | None => c.(c_heap) end in
  building h0 (mkConstruction h c.(c_buckets) c.(copied)) ∧
  reads h c.(c_buckets) (λ x, if bool_decide (x = id) then r else f x).
Proof.
  intros Hb Hr Hc. cbv zeta. destruct (b_own _ _ Hb _ Hc) as (p & Hp & Hnew). rewrite Hp. change (default None (Some (Some p))) with (Some p). cbv iota.
  destruct (b_valid _ _ Hb _ _ Hp) as [m Hm]. split; [split; cbn [c_heap c_buckets copied] |].
  - apply (b_length _ _ Hb).
  - apply (b_copied _ _ Hb).
  - intros q m' Hq. rewrite (fin_maps.lookup_alter_ne _ (c_heap c)) by (intros ->; congruence). by apply (b_kept _ _ Hb).
  - intros b q Hq. rewrite (fin_maps.lookup_alter_is_Some _ (c_heap c)). by eapply (b_valid _ _ Hb).
  - intros b q m' x r' Hq Hm' Hx. destruct (decide (q = p)) as [-> | Hqp].
    + rewrite (fin_maps.lookup_alter_eq _ (c_heap c)), Hm in Hm'. injection Hm' as <-. rewrite <- (b_apart _ _ Hb _ _ p Hc Hp Hq).
      destruct (decide (x = id)) as [-> | Hxid]; [done |]. rewrite (fin_maps.lookup_insert_ne m) in Hx by done. by apply (b_home _ _ Hb _ _ _ _ _ Hp Hm Hx).
    + rewrite (fin_maps.lookup_alter_ne _ (c_heap c)) in Hm' by done. by apply (b_home _ _ Hb _ _ _ _ _ Hq Hm' Hx).
  - apply (b_own _ _ Hb).
  - apply (b_apart _ _ Hb).
  - intros x. unfold bucket_at. destruct (decide (bucket_of hash x = bucket_of hash id)) as [E | E].
    + assert (alter (insert id r) p (c_heap c) !! p = Some (<[id := r]> m)) as Ea.
      { pose proof (fin_maps.lookup_alter_eq (insert id r) (c_heap c) p) as Ea. rewrite Hm in Ea. exact Ea. }
      rewrite E, Hp. change (default None (Some (Some p))) with (Some p). rewrite (read_some _ _ _ Ea). case_bool_decide as Hx.
      * subst x. by rewrite (fin_maps.lookup_insert_eq m).
      * rewrite (fin_maps.lookup_insert_ne m) by done. rewrite <- (Hr x). unfold bucket_at. rewrite E, Hp. change (default None (Some (Some p))) with (Some p). by rewrite (read_some _ _ _ Hm).
    + rewrite bool_decide_eq_false_2 by (intros ->; done). rewrite <- (Hr x). unfold bucket_at.
      destruct (c_buckets c !! bucket_of hash x) as [[q |] |] eqn:Eq; [| done | done]. cbn. unfold read. cbn.
      rewrite (fin_maps.lookup_alter_ne _ (c_heap c)); [done |]. intros <-. apply E. symmetry. by apply (b_apart _ _ Hb _ _ p).
Qed.

(** What the maps of a published decision have is what the construction still reads. *)
Lemma committed_kept h0 c d id : building h0 c → published h0 d →
  committed_roles hash c.(c_heap) d id = committed_roles hash h0 d id.
Proof.
  intros Hb Hp. unfold committed_roles. destruct (execution d); [| done]. unfold roles. f_equal. unfold bucket_at.
  destruct (buckets d !! bucket_of hash id) as [[p |] |] eqn:E; [| done | done]. change (default None (Some (Some p))) with (Some p).
  destruct (p_valid _ _ Hp _ _ E) as [m Hm]. by rewrite (read_some _ _ _ Hm), (read_some _ _ _ (b_kept _ _ Hb _ _ Hm)).
Qed.

(** The two folds in step: a decision under construction and the flat one. *)
Definition in_step (h0 : heap) (st : construction * bool * list NamedResource)
    (sf : (NamedResource → N) * bool * list NamedResource) : Prop :=
  building h0 st.1.1 ∧ reads st.1.1.(c_heap) st.1.1.(c_buckets) sf.1.1 ∧ st.1.2 = sf.1.2 ∧ st.2 = sf.2.

Lemma include_one_in_step h0 d execution st sf ax : published h0 d → in_step h0 st sf →
  in_step h0 (include_one hash d execution st ax) (flat_one (committed_roles hash h0 d) execution sf ax).
Proof.
  destruct st as [[c ch] inc], sf as [[f ch'] inc'], ax as [id role]. intros Hp (Hb & Hr & Hc & Hi). cbn in Hb, Hr, Hc, Hi. subst ch' inc'.
  unfold include_one, flat_one, includeRole. cbn [fst snd]. rewrite (committed_kept _ _ _ _ Hb Hp), (Hr id).
  case_bool_decide as Hz; [done |]. cbn [orb]. case_bool_decide as Hf.
  { rewrite orb_false_r. done. }
  pose proof (own_bucket h0 c (bucket_of hash id) f Hb Hr (bucket_of_lt id)) as Hown. cbv zeta in Hown.
  destruct Hown as (Hb' & Hr' & Hc'). rewrite orb_true_r.
  destruct (write_bucket h0 _ id (add_role (committed_roles hash h0 d id) execution role (f id)) f Hb' Hr' Hc') as [Hb2 Hr2].
  split; [exact Hb2 |]. split; [exact Hr2 |]. done.
Qed.

Lemma include_in_step h0 d execution axs st sf : published h0 d → in_step h0 st sf →
  in_step h0 (foldl (include_one hash d execution) st axs) (foldl (flat_one (committed_roles hash h0 d) execution) sf axs).
Proof. intros Hp. revert st sf. induction axs as [| ax axs IH]; intros st sf Hs; [done |]. cbn. by apply IH, include_one_in_step. Qed.

End flat.

(** ** Roles as bits: the finite facts *)

Definition below : list N := map N.of_nat (seq 0 32).

Lemma below_32 (P : N → bool) : forallb P below = true → ∀ n, (n < 32)%N → P n = true.
Proof. rewrite forallb_forall. intros H n Hn. apply H, in_map_iff. exists (N.to_nat n). rewrite in_seq. lia. Qed.

Definition role_list : list N := [ordinary; needed; selected; dirty].

(** The roles never go back: a measure that every change raises. *)
Definition standing_measure (r : N) : N := (2 * N.land r 15 + (if has r promoted then 0 else 1))%N.

Definition contains (c r : N) : bool := bool_decide (N.land (N.land c 15) r = N.land c 15).

Definition rises (c : N) (execution : bool) (r r' : N) : Prop :=
  (r' < 32)%N ∧ contains c r' = true ∧ (standing_measure r ≤ standing_measure r')%N ∧
  (standing_measure r = standing_measure r' → r = r') ∧
  (admits_roles c r execution = true → admits_roles c r' execution = true).

Definition rises_b (c : N) (execution : bool) (r r' : N) : bool :=
  bool_decide (r' < 32)%N && contains c r' && bool_decide (standing_measure r ≤ standing_measure r')%N &&
  (negb (bool_decide (standing_measure r = standing_measure r')) || bool_decide (r = r')) &&
  (negb (admits_roles c r execution) || admits_roles c r' execution).

Lemma rises_b_sound c execution r r' : rises_b c execution r r' = true → rises c execution r r'.
Proof.
  unfold rises_b, rises. rewrite !andb_true_iff, !orb_true_iff, !negb_true_iff, !bool_decide_eq_true, bool_decide_eq_false.
  intros ((((H1 & H2) & H3) & [H4 | H4]) & [H5 | H5]); repeat split; try done; congruence.
Qed.

Lemma rises_refl c execution r : (r < 32)%N → contains c r = true → rises c execution r r.
Proof. by repeat split. Qed.

Lemma rises_trans c execution r1 r2 r3 : rises c execution r1 r2 → rises c execution r2 r3 → rises c execution r1 r3.
Proof.
  intros (A1 & A2 & A3 & A4 & A5) (B1 & B2 & B3 & B4 & B5). repeat split; try done; [lia | | by eauto].
  intros E. rewrite A4 by lia. apply B4. lia.
Qed.

Lemma add_role_rises c execution role r : (c < 32)%N → (r < 32)%N → contains c r = true → role ∈ role_list →
  rises c execution r (add_role c execution role r).
Proof.
  intros Hc Hr Hcr Hrole. apply rises_b_sound.
  pose proof (below_32 (λ c, forallb (λ r, negb (contains c r) || forallb (λ role, rises_b c execution r (add_role c execution role r)) role_list)
    below) ltac:(destruct execution; by vm_compute) c Hc) as H1.
  cbv beta in H1. pose proof (below_32 _ H1 r Hr) as H2. cbv beta in H2. rewrite Hcr in H2. cbn [negb orb] in H2.
  rewrite forallb_forall in H2. by apply H2, list_elem_of_In.
Qed.

Lemma add_role_idem c execution role r : (c < 32)%N → (r < 32)%N → role ∈ role_list →
  add_role c execution role (add_role c execution role r) = add_role c execution role r.
Proof.
  intros Hc Hr Hrole.
  pose proof (below_32 (λ c, forallb (λ r, forallb (λ role, bool_decide (add_role c execution role (add_role c execution role r) = add_role c execution role r)) role_list)
    below) ltac:(destruct execution; by vm_compute) c Hc) as H1.
  cbv beta in H1. pose proof (below_32 _ H1 r Hr) as H2. cbv beta in H2.
  rewrite forallb_forall in H2. apply list_elem_of_In, H2 in Hrole. by apply bool_decide_eq_true in Hrole.
Qed.

(** ** The flat fold in closed form *)

(** The roles an axis list gives an identity, in order. *)
Definition roles_of (x : NamedResource) (axs : list (NamedResource * N)) : list N :=
  omap (λ ax, if bool_decide (ax.1 = x) && negb (bool_decide (x = no_resource)) then Some ax.2 else None) axs.

Definition add_roles (c : N) (execution : bool) (r : N) (roles : list N) : N := foldl (λ r role, add_role c execution role r) r roles.

Lemma add_roles_rises c execution r roles : (c < 32)%N → (r < 32)%N → contains c r = true → Forall (.∈ role_list) roles →
  rises c execution r (add_roles c execution r roles).
Proof.
  intros Hc Hr Hcr Hf. revert r Hr Hcr. induction Hf as [| role roles Hrole Hf IH]; intros r Hr Hcr; [by apply rises_refl |].
  cbn. pose proof (add_role_rises c execution role r Hc Hr Hcr Hrole) as Hg. eapply rises_trans; [exact Hg |].
  destruct Hg as (H1 & H2 & _). by apply IH.
Qed.

Lemma roles_of_roles x axs : Forall (λ ax : NamedResource * N, ax.2 ∈ role_list) axs → Forall (.∈ role_list) (roles_of x axs).
Proof.
  rewrite !Forall_forall. intros H r Hr. apply list_elem_of_omap in Hr. destruct Hr as (ax & Hax & E).
  destruct (bool_decide (ax.1 = x) && negb (bool_decide (x = no_resource))); [| done]. injection E as <-. by apply H.
Qed.

Section fold.
Context (committed : NamedResource → N) (execution : bool).
Context (Hcommitted : ∀ x, (committed x < 32)%N).

Definition flat_ok (f : NamedResource → N) : Prop := ∀ x, (f x < 32)%N ∧ contains (committed x) (f x) = true.

Lemma flat_one_roles st ax x : (flat_one committed execution st ax).1.1 x = add_roles (committed x) execution (st.1.1 x) (roles_of x [ax]).
Proof.
  destruct st as [[f ch] inc], ax as [id role]. unfold flat_one, roles_of. cbn [omap list_omap fst snd].
  destruct (decide (id = x)) as [<- | Hne].
  - rewrite (bool_decide_eq_true_2 (id = id)) by done. destruct (decide (id = no_resource)) as [Hz | Hz].
    + rewrite !(bool_decide_eq_true_2 (id = no_resource)) by done. done.
    + rewrite !(bool_decide_eq_false_2 (id = no_resource)) by done. cbn. case_bool_decide as E; cbn; [done |].
      by rewrite bool_decide_eq_true_2.
  - rewrite (bool_decide_eq_false_2 (id = x)) by done. cbn. case_match; [done |]. cbn. by rewrite bool_decide_eq_false_2 by congruence.
Qed.

Lemma roles_of_cons x ax axs : roles_of x (ax :: axs) = roles_of x [ax] ++ roles_of x axs.
Proof. unfold roles_of. cbn. by destruct (bool_decide (ax.1 = x) && negb (bool_decide (x = no_resource))). Qed.

Lemma add_roles_app c r l1 l2 : add_roles c execution r (l1 ++ l2) = add_roles c execution (add_roles c execution r l1) l2.
Proof. unfold add_roles. by rewrite foldl_app. Qed.

Lemma flat_one_flags st ax : let st' := flat_one committed execution st ax in
  (st'.1.2 = true ↔ st.1.2 = true ∨ st'.1.1 ax.1 ≠ st.1.1 ax.1) ∧
  (∀ x, x ≠ ax.1 → st'.1.1 x = st.1.1 x) ∧
  (∀ x, x ∈ st'.2 ↔ x ∈ st.2 ∨ st'.1.1 x ≠ st.1.1 x ∧ admits_roles (committed x) (st'.1.1 x) execution = true).
Proof.
  destruct st as [[f ch] inc], ax as [id role]. cbv zeta. unfold flat_one. cbn [fst snd].
  set (r := add_role (committed id) execution role (f id)).
  destruct (bool_decide (id = no_resource) || bool_decide (f id = r)) eqn:E; cbn [fst snd].
  { repeat split; intuition. }
  apply orb_false_iff in E. destruct E as [_ E]. apply bool_decide_eq_false in E. repeat split.
  - intros _. right. rewrite bool_decide_eq_true_2 by done. done.
  - intros x Hx. by rewrite bool_decide_eq_false_2.
  - intros Hx. destruct (admits_roles (committed id) r execution) eqn:Ea; [| by left].
    apply elem_of_app in Hx. destruct Hx as [Hx | Hx]; [by left |]. apply list_elem_of_singleton in Hx. subst x.
    right. rewrite bool_decide_eq_true_2 by done. split; [congruence | done].
  - case_bool_decide as Hx.
    + subst x. intros [H | [_ H]]; [destruct (admits_roles (committed id) r execution); [apply elem_of_app; by left | done] |].
      rewrite H. apply elem_of_app. right. by apply list_elem_of_singleton.
    + intros [H | [H _]]; [| done]. destruct (admits_roles (committed id) r execution); [apply elem_of_app; by left | done].
Qed.

(** The fold: final roles, whether anything changed, and what is reported. *)
Lemma flat_fold axs st : Forall (λ ax : NamedResource * N, ax.2 ∈ role_list) axs → flat_ok st.1.1 →
  let st' := foldl (flat_one committed execution) st axs in
  (∀ x, st'.1.1 x = add_roles (committed x) execution (st.1.1 x) (roles_of x axs)) ∧
  (st'.1.2 = true ↔ st.1.2 = true ∨ ∃ x, st'.1.1 x ≠ st.1.1 x) ∧
  (∀ x, x ∈ st'.2 ↔ x ∈ st.2 ∨ st'.1.1 x ≠ st.1.1 x ∧ admits_roles (committed x) (st'.1.1 x) execution = true).
Proof.
  intros Hf. revert st. induction Hf as [| ax axs Hax Hf IH]; intros st Hok; cbv zeta.
  { cbn. repeat split; try (by left); intros [H | H]; try done; [destruct H as [x H]; done | by destruct H]. }
  cbn [foldl]. set (st1 := flat_one committed execution st ax).
  assert (∀ x, st1.1.1 x = add_roles (committed x) execution (st.1.1 x) (roles_of x [ax])) as H1 by apply flat_one_roles.
  assert (∀ x, rises (committed x) execution (st.1.1 x) (st1.1.1 x)) as G1.
  { intros x. rewrite H1. destruct (Hok x). apply add_roles_rises; try done. apply roles_of_roles. by constructor. }
  assert (flat_ok st1.1.1) as Hok1 by (intros x; by destruct (G1 x) as (? & ? & _)).
  destruct (IH st1 Hok1) as (I1 & I2 & I3). set (st' := foldl (flat_one committed execution) st1 axs) in *.
  assert (∀ x, rises (committed x) execution (st1.1.1 x) (st'.1.1 x)) as G2.
  { intros x. rewrite I1. destruct (Hok1 x). apply add_roles_rises; try done. by apply roles_of_roles. }
  assert (∀ x, st'.1.1 x ≠ st.1.1 x ↔ st'.1.1 x ≠ st1.1.1 x ∨ st1.1.1 x ≠ st.1.1 x) as Hne.
  { intros x. destruct (G1 x) as (_ & _ & L1 & E1 & _), (G2 x) as (_ & _ & L2 & E2 & _). split.
    - intros H. destruct (decide (st'.1.1 x = st1.1.1 x)) as [E | E]; [right; congruence | by left].
    - intros H E. rewrite E in L2, E2. destruct H as [H | H].
      + apply H. rewrite E. symmetry. apply E2. lia.
      + apply H. symmetry. apply E1. lia. }
  destruct (flat_one_flags st ax) as (F1 & F2 & F3). fold st1 in F1, F2, F3. split; [| split].
  - intros x. by rewrite I1, H1, (roles_of_cons x ax axs), add_roles_app.
  - rewrite I2, F1. split.
    + intros [[H | H] | [x H]]; [by left | right; exists ax.1 | right; exists x]; apply Hne; by auto.
    + intros [H | [x H]]; [by left; left |]. apply Hne in H. destruct H as [H | H]; [right; by exists x |].
      left. right. destruct (decide (x = ax.1)) as [-> | Hx]; [done |]. by rewrite F2 in H.
  - intros x. rewrite I3, F3. destruct (G2 x) as (_ & _ & _ & _ & A2). split.
    + intros [[H | [H Ha]] | [H Ha]]; [by left | right | right]; (split; [apply Hne; by auto | by auto]).
    + intros [H | [H Ha]]; [by left; left |]. apply Hne in H.
      destruct (decide (st'.1.1 x = st1.1.1 x)) as [E | E]; [| by right]. left. right. rewrite <- E. split; [| done].
      destruct H; congruence.
Qed.

End fold.

(** ** What inclusion promises *)

Record Standing := mkStanding { s_needed : bool; s_selected : bool; s_dirty : bool; s_ordinary : bool; s_promoted : bool }.

#[export] Instance Standing_eq_dec : EqDecision Standing.
Proof. solve_decision. Defined.

Definition standing_of (r : N) : Standing := mkStanding (has r needed) (has r selected) (has r dirty) (has r ordinary) (has r promoted).

Definition nothing : Standing := mkStanding false false false false false.

(** The demand on one identity: [was] tells whether the decision already executes.  One
    that was only prerequisite so far, and is ordinary now, is to run again: it is
    [woken], which counts as dirty, and as promoted unless it is dirty in its own right. *)
Definition demand (was execution : bool) (p : Standing) (o n s d : bool) : Standing :=
  let s := s && execution in
  let d := d && execution in
  let woken := was && execution && p.(s_needed) && negb p.(s_ordinary) && (o || s) && negb p.(s_dirty) in
  mkStanding (p.(s_needed) || o || n || s || d) (p.(s_selected) || s) (p.(s_dirty) || d || woken) (p.(s_ordinary) || o || s)
    ((p.(s_promoted) || woken) && negb d).

Definition requested (l : list NamedResource) (id : NamedResource) : bool := bool_decide (id ∈ l) && negb (bool_decide (id = no_resource)).

(** Where an inclusion starts: a decision that begins to execute forgets its preparation. *)
Definition before (was execution : bool) (p : Standing) : Standing := if execution && negb was then nothing else p.

Definition after (was execution : bool) (update : Admission) (id : NamedResource) (p : Standing) : Standing :=
  if was && negb execution then p
  else demand was execution (before was execution p) (requested update.(Ordinary) id) (requested update.(Needed) id)
         (requested update.(Selected) id) (requested update.(Dirty) id).

(** Whether the store has to hear of it. *)
Definition concerns (was : bool) (p p' : Standing) : bool :=
  negb was || negb p.(s_needed) || xorb p.(s_ordinary) p'.(s_ordinary) || negb p.(s_dirty) && p'.(s_dirty).

Lemma standing_inj r r' : (r < 32)%N → (r' < 32)%N → standing_of r = standing_of r' → r = r'.
Proof.
  intros Hr Hr' E.
  pose proof (below_32 (λ r, forallb (λ r', negb (bool_decide (standing_of r = standing_of r')) || bool_decide (r = r')) below) ltac:(by vm_compute) r Hr) as H.
  cbv beta in H. pose proof (below_32 _ H r' Hr') as H2. cbv beta in H2. rewrite bool_decide_eq_true_2 in H2 by done. by apply bool_decide_eq_true in H2.
Qed.

(** One axis adds its role once, however often it lists the identity. *)
Lemma roles_of_axis c execution r x role l : (c < 32)%N → (r < 32)%N → contains c r = true → role ∈ role_list →
  add_roles c execution r (roles_of x (map (λ id, (id, role)) l)) = if requested l x then add_role c execution role r else r.
Proof.
  intros Hc Hr Hcr Hrole.
  assert (∀ l, add_roles c execution (add_role c execution role r) (roles_of x (map (λ id, (id, role)) l)) = add_role c execution role r) as Hidem.
  { clear l. induction l as [| id l IH]; [done |]. unfold roles_of in *. cbn.
    destruct (bool_decide (id = x) && negb (bool_decide (x = no_resource))); cbn; [by rewrite add_role_idem | done]. }
  unfold requested. induction l as [| id l IH]; [by rewrite bool_decide_eq_false_2 by apply not_elem_of_nil |].
  specialize (Hidem l). unfold roles_of in Hidem.
  cbn [map]. rewrite roles_of_cons, add_roles_app. unfold roles_of in *. cbn. destruct (decide (x = no_resource)) as [-> | Hx].
  { rewrite (bool_decide_eq_true_2 (no_resource = no_resource)) in * by done. rewrite !andb_false_r in *. done. }
  rewrite (bool_decide_eq_false_2 (x = no_resource)) in * by done. cbn [negb] in *. rewrite !andb_true_r in *.
  destruct (decide (id = x)) as [-> | Hne].
  - rewrite (bool_decide_eq_true_2 (x = x)), (bool_decide_eq_true_2 (x ∈ x :: l)) by (done || by left). cbn. apply Hidem.
  - rewrite (bool_decide_eq_false_2 (id = x)) by done. cbn. rewrite IH, (bool_decide_ext (x ∈ id :: l) (x ∈ l)); [done |]. rewrite elem_of_cons. naive_solver.
Qed.

(** The four axes in order. *)
Definition add_if (c : N) (execution : bool) (role : N) (b : bool) (r : N) : N := if b then add_role c execution role r else r.

Definition add_axes (c : N) (execution : bool) (p : N) (o n s d : bool) : N :=
  let r := add_if c execution needed n (add_if c execution ordinary o p) in
  if execution then add_if c execution dirty d (add_if c execution selected s r) else r.

Definition bools : list bool := [true; false].

Lemma forall_bools (P : bool → bool) : forallb P bools = true → ∀ b, P b = true.
Proof. cbn. intros H b. rewrite !andb_true_iff in H. destruct b; tauto. Qed.

Definition axes_meet (was execution : bool) (p : N) (o n s d : bool) : bool :=
  let c := if was then p else 0%N in
  let r := add_axes c execution p o n s d in
  bool_decide (standing_of r = demand was execution (standing_of p) o n s d) &&
  Bool.eqb (admits_roles c r execution) (execution && concerns was (standing_of p) (standing_of r)).

Lemma axes_demand was execution p o n s d : (p < 32)%N → was && negb execution = false → (execution && negb was = true → p = 0%N) →
  let c := if was then p else 0%N in
  standing_of (add_axes c execution p o n s d) = demand was execution (standing_of p) o n s d ∧
  admits_roles c (add_axes c execution p o n s d) execution =
    execution && concerns was (standing_of p) (standing_of (add_axes c execution p o n s d)).
Proof.
  intros Hp Hw Hz c.
  assert (axes_meet was execution p o n s d = true) as H; [| unfold axes_meet in H; apply andb_true_iff in H; destruct H as [H1 H2];
    split; [by apply bool_decide_eq_true in H1 | by apply eqb_prop]].
  pose proof (below_32 (λ p, forallb (λ was, forallb (λ execution, was && negb execution || execution && negb was && negb (bool_decide (p = 0%N)) ||
    forallb (λ o, forallb (λ n, forallb (λ s, forallb (λ d, axes_meet was execution p o n s d) bools) bools) bools) bools) bools) bools)
    ltac:(by vm_compute) p Hp) as H.
  cbv beta in H. pose proof (forall_bools _ (forall_bools _ H was) execution) as H1. cbv beta in H1. rewrite Hw in H1.
  destruct (execution && negb was) eqn:E; [rewrite (bool_decide_eq_true_2 (p = 0%N)) in H1 by auto |]; cbn [negb andb orb] in H1;
    exact (forall_bools _ (forall_bools _ (forall_bools _ (forall_bools _ H1 o) n) s) d).
Qed.

(** ** Inclusion refines the demand *)

Section refine.
Context (hash : NamedResource → N).

Definition standing h (d : Decision) (id : NamedResource) : Standing := standing_of (roles hash h (Some d) id).

Lemma start_reads h d e : published hash h d →
  let start := if e && negb d.(execution) then replicate decisionBuckets None else d.(buckets) in
  building hash h (mkConstruction h start (replicate decisionBuckets false)) ∧
  reads hash h start (λ id, if e && negb d.(execution) then 0%N else roles hash h (Some d) id).
Proof.
  intros Hp start. assert (∀ b, replicate decisionBuckets false !! b = Some true → False) as Hf.
  { intros b Hb. apply lookup_replicate in Hb. by destruct Hb. }
  split; [split; cbn [c_heap c_buckets copied] |].
  - unfold start. destruct (e && negb (execution d)); [apply length_replicate | apply Hp].
  - apply length_replicate.
  - done.
  - unfold start. destruct (e && negb (execution d)); [intros b p Hb; apply lookup_replicate in Hb; by destruct Hb | apply Hp].
  - unfold start. destruct (e && negb (execution d)); [intros b p m id r Hb; apply lookup_replicate in Hb; by destruct Hb | apply Hp].
  - intros b Hb. by destruct (Hf b).
  - intros b1 b2 p Hb. by destruct (Hf b1).
  - intros id. unfold start. destruct (e && negb (execution d)); [| done]. unfold bucket_at. by destruct (replicate decisionBuckets None !! bucket_of hash id) as [o |] eqn:E;
      [apply lookup_replicate in E; destruct E as [-> _] |].
Qed.

Lemma reads_roles h bs rev e f id : reads hash h bs f → roles hash h (Some (mkDecision bs rev e)) id = f id.
Proof. intros H. apply H. Qed.

Lemma axes_roles update execution : Forall (λ ax : NamedResource * N, ax.2 ∈ role_list) (axes update execution).
Proof.
  apply Forall_forall. intros ax H. unfold axes in H. unfold role_list. rewrite !elem_of_app in H. rewrite !list_elem_of_fmap in H.
  destruct H as [(? & -> & _) | [(? & -> & _) | H]]; [by repeat constructor .. |]. destruct execution; [| by apply not_elem_of_nil in H].
  rewrite !elem_of_app, !list_elem_of_fmap in H. destruct H as [(? & -> & _) | (? & -> & _)]; by repeat constructor.
Qed.

Lemma roles_of_app x l1 l2 : roles_of x (l1 ++ l2) = roles_of x l1 ++ roles_of x l2.
Proof. apply omap_app. Qed.

Lemma axes_add c update execution p x : (c < 32)%N → (p < 32)%N → contains c p = true →
  add_roles c execution p (roles_of x (axes update execution)) =
  add_axes c execution p (requested update.(Ordinary) x) (requested update.(Needed) x) (requested update.(Selected) x) (requested update.(Dirty) x).
Proof.
  intros Hc Hp Hcp. unfold axes, add_axes. cbv zeta.
  assert (∀ role l r, role ∈ role_list → (r < 32)%N → contains c r = true →
    add_roles c execution r (roles_of x (map (λ id, (id, role)) l)) = add_if c execution role (requested l x) r ∧
    (add_if c execution role (requested l x) r < 32)%N ∧ contains c (add_if c execution role (requested l x) r) = true) as step.
  { intros role l r Hrole Hr Hcr. rewrite roles_of_axis by done. unfold add_if. split; [done |]. destruct (requested l x); [| done].
    destruct (add_role_rises c execution role r Hc Hr Hcr Hrole) as (? & ? & _). done. }
  rewrite !roles_of_app, !add_roles_app.
  destruct (step ordinary (Ordinary update) p) as (-> & H1 & H2); [by repeat constructor | done.. |].
  destruct (step needed (Needed update) _ ltac:(by repeat constructor) H1 H2) as (-> & H3 & H4). destruct execution; [| done].
  rewrite roles_of_app, add_roles_app.
  destruct (step selected (Selected update) _ ltac:(by repeat constructor) H3 H4) as (-> & H5 & H6).
  by destruct (step dirty (Dirty update) _ ltac:(by repeat constructor) H5 H6) as (-> & _ & _).
Qed.

(** What an inclusion of [update] leaves: the new decision, or none when nothing changed,
    over a heap in which every map that existed is as it was. *)
Record included_by (update : Admission) (e : bool) (h : heap) (d : Decision) (h' : heap) (d' : option Decision)
    (included : list NamedResource) : Prop := {
  i_published : published hash h' (default d d');
  i_kept p m : h !! p = Some m → h' !! p = Some m;
  i_standing id : standing h' (default d d') id = after d.(execution) e update id (standing h d id);
  i_execution : (default d d').(execution) = d.(execution) || e;
  i_same : d' = None ↔ d.(execution) || e = d.(execution) ∧
    ∀ id, after d.(execution) e update id (standing h d id) = before d.(execution) e (standing h d id);
  i_none : d' = None → h' = h ∧ included = [];
  i_revision d2 : d' = Some d2 → d2.(revision) = uint64 (d.(revision) + 1);
  i_sorted : StronglySorted (λ a b : NamedResource, compare a b = Lt) included;
  i_included id : id ∈ included ↔ e = true ∧
    after d.(execution) e update id (standing h d id) ≠ before d.(execution) e (standing h d id) ∧
    concerns d.(execution) (before d.(execution) e (standing h d id)) (after d.(execution) e update id (standing h d id)) = true;
}.

Lemma contains_refl r : (r < 32)%N → contains r r = true.
Proof. apply (below_32 (λ r, contains r r)). by vm_compute. Qed.

Lemma contains_zero r : (r < 32)%N → contains 0 r = true.
Proof. apply (below_32 (λ r, contains 0 r)). by vm_compute. Qed.

(** The start and the committed roles of an identity, for a decision that goes on. *)
Lemma start_roles h d e id : published hash h d → d.(execution) && negb e = false →
  let p := if e && negb d.(execution) then 0%N else roles hash h (Some d) id in
  committed_roles hash h d id = (if d.(execution) then p else 0%N) ∧ (p < 32)%N ∧
  (committed_roles hash h d id < 32)%N ∧ contains (committed_roles hash h d id) p = true ∧
  standing_of p = before d.(execution) e (standing h d id) ∧ (e && negb d.(execution) = true → p = 0%N).
Proof.
  intros Hp Hw. pose proof (p_roles _ _ _ Hp id) as Hr. unfold before, standing, committed_roles. cbv zeta.
  destruct (execution d), e; try done; cbn [andb negb]; repeat split; try done;
    first [by apply contains_refl | by apply contains_zero].
Qed.

Lemma building_published h c rev e f : building hash h c → reads hash c.(c_heap) c.(c_buckets) f → (∀ id, (f id < 32)%N) →
  published hash c.(c_heap) (mkDecision c.(c_buckets) rev e).
Proof.
  intros Hb Hr Hf. split; [apply Hb | apply Hb | apply Hb |]. intros id. rewrite (reads_roles _ _ _ _ _ _ Hr). apply Hf.
Qed.

End refine.

Section theorems.
Context (hash : NamedResource → N).

Lemma include_runs h d update e : published hash h d → d.(execution) && negb e = false →
  let start := λ id, if e && negb d.(execution) then 0%N else roles hash h (Some d) id in
  let final := λ id, after d.(execution) e update id (standing hash h d id) in
  let '(c, changed, included) := foldl (include_one hash d e)
    (mkConstruction h (if e && negb d.(execution) then replicate decisionBuckets None else d.(buckets)) (replicate decisionBuckets false),
     negb (bool_decide (d.(execution) = d.(execution) || e)), []) (axes update e) in
  building hash h c ∧ (∃ f, reads hash c.(c_heap) c.(c_buckets) f ∧ (∀ id, (f id < 32)%N) ∧ (∀ id, standing_of (f id) = final id)) ∧
  (changed = true ↔ d.(execution) || e ≠ d.(execution) ∨ ∃ id, final id ≠ before d.(execution) e (standing hash h d id)) ∧
  (∀ id, id ∈ included ↔ e = true ∧ final id ≠ before d.(execution) e (standing hash h d id) ∧
    concerns d.(execution) (before d.(execution) e (standing hash h d id)) (final id) = true).
Proof.
  intros Hp Hw start final. set (committed := committed_roles hash h d).
  set (st := (mkConstruction h _ _, _, [])).
  set (sf := (start, negb (bool_decide (execution d = execution d || e)), @nil NamedResource)).
  destruct (start_reads hash h d e Hp) as [Hb Hr].
  assert (in_step hash h st sf) as Hs by (split; [exact Hb |]; split; [exact Hr | done]).
  pose proof (include_in_step hash h d e (axes update e) st sf Hp Hs) as (Hb' & Hr' & Hc' & Hi').
  assert (∀ id, (committed id < 32)%N) as Hc by (intros id; by destruct (start_roles hash h d e id Hp Hw) as (_ & _ & ? & _)).
  assert (flat_ok committed sf.1.1) as Hok by (intros id; destruct (start_roles hash h d e id Hp Hw) as (_ & ? & _ & ? & _); done).
  destruct (flat_fold committed e Hc (axes update e) sf (axes_roles update e) Hok) as (F1 & F2 & F3).
  set (sf' := foldl (flat_one committed e) sf (axes update e)) in *.
  change (foldl (flat_one (committed_roles hash h d) e) sf (axes update e)) with sf' in Hr', Hc', Hi'.
  assert (∀ id, standing_of (sf'.1.1 id) = final id ∧ (sf'.1.1 id < 32)%N ∧
    admits_roles (committed id) (sf'.1.1 id) e = e && concerns d.(execution) (before d.(execution) e (standing hash h d id)) (final id)) as Hfin.
  { intros id. destruct (start_roles hash h d e id Hp Hw) as (S1 & S2 & S3 & S4 & S5 & S6). rewrite F1.
    change (sf.1.1 id) with (start id). rewrite axes_add by done. fold committed in S1.
    destruct (axes_demand (execution d) e (start id) (requested (Ordinary update) id) (requested (Needed update) id)
      (requested (Selected update) id) (requested (Dirty update) id) S2 Hw S6) as [D1 D2].
    rewrite S1. change (if e && negb (execution d) then 0%N else roles hash h (Some d) id) with (start id).
    assert (standing_of (add_axes (if execution d then start id else 0%N) e (start id) (requested (Ordinary update) id)
      (requested (Needed update) id) (requested (Selected update) id) (requested (Dirty update) id)) = final id) as Hst.
    { rewrite D1. unfold final, after. rewrite Hw. f_equal. exact S5. }
    split; [exact Hst |]. split; [| rewrite D2, Hst; f_equal; f_equal; exact S5].
    change (if e && negb (execution d) then 0%N else roles hash h (Some d) id) with (start id) in S1. rewrite <- S1.
    rewrite <- axes_add by done. by apply (add_roles_rises (committed id) e (start id) _ S3 S2 S4), roles_of_roles, axes_roles. }
  assert (∀ id, sf'.1.1 id ≠ start id ↔ final id ≠ before d.(execution) e (standing hash h d id)) as Hne.
  { intros id. destruct (Hfin id) as (<- & Hlt & _), (start_roles hash h d e id Hp Hw) as (_ & S2 & _ & _ & <- & _).
    split; intros H E; apply H; [by apply standing_inj | rewrite E; done]. }
  destruct (foldl (include_one hash d e) st (axes update e)) as [[c ch] inc]. cbn [fst snd] in *. subst ch inc.
  split; [done |]. split; [exists sf'.1.1; repeat split; [done | apply Hfin.. ] |]. split.
  - rewrite F2. unfold sf. cbn [fst snd]. rewrite negb_true_iff, bool_decide_eq_false. split.
    + intros [H | [x H]]; [left; congruence | right; exists x; by apply Hne].
    + intros [H | [x H]]; [left; congruence | right; exists x; by apply Hne].
  - intros id. rewrite F3. change (sf.2) with (@nil NamedResource). rewrite elem_of_nil. destruct (Hfin id) as (_ & _ & ->).
    rewrite andb_true_iff. change (sf.1.1 id) with (start id). rewrite (Hne id). tauto.
Qed.

Lemma include_in h d update e h' d' included : published hash h d → include hash h d update e = (h', d', included) →
  included_by hash update e h d h' d' included.
Proof.
  intros Hp. unfold include. destruct (execution d && negb e) eqn:Hw.
  { intros [= <- <- <-]. apply andb_true_iff in Hw. destruct Hw as [Hx He]. apply negb_true_iff in He. subst e.
    assert (∀ id, after (execution d) false update id (standing hash h d id) = standing hash h d id) as Ha by (intros id; unfold after; by rewrite Hx).
    split; [done | done | intros id; by rewrite Ha | cbn; by rewrite Hx | | done | done | constructor | ].
    - split; [| done]. intros _. rewrite Hx. split; [done |]. intros id. rewrite <- Hx, Ha. by unfold before.
    - intros id. split; [intros H; by apply elem_of_nil in H | by intros [[=] _]]. }
  pose proof (include_runs h d update e Hp Hw) as Hrun. cbv zeta in Hrun. cbv zeta.
  destruct (foldl _ _ _) as [[c ch] inc]. destruct Hrun as (Hb & (f & Hr & Hf & Hst) & Hch & Hinc).
  destruct ch; intros [= <- <- <-].
  - split; cbn [default from_option]; try done.
    + by eapply building_published.
    + apply Hb.
    + intros id. rewrite <- Hst. unfold standing. f_equal. exact (Hr id).
    + split; [done |]. intros [H1 H2]. destruct (proj1 Hch eq_refl) as [H | [id H]]; [done | by destruct (H (H2 id))].
    + by intros d2 [= <-].
    + apply Compact_sorted, sort_lawful_sorted.
    + intros id. by rewrite elem_of_sorted_distinct.
  - assert (execution d || e = execution d) as Hx by (destruct (decide (execution d || e = execution d)) as [| H]; [done | by discriminate (proj2 Hch (or_introl H))]).
    assert (∀ id, after (execution d) e update id (standing hash h d id) = before (execution d) e (standing hash h d id)) as Hsame.
    { intros id. destruct (decide (after (execution d) e update id (standing hash h d id) = before (execution d) e (standing hash h d id))) as [| H]; [done |].
      discriminate (proj2 Hch (or_intror (ex_intro _ id H))). }
    split; cbn [default from_option]; try done.
    + intros id. rewrite Hsame. unfold before. destruct (execution d), e; done.
    + constructor.
    + intros id. split; [intros H; by apply elem_of_nil in H | intros (_ & H & _); by destruct (H (Hsame id))].
Qed.

(** Claim C11: including demands in a decision refines the demand on each identity, one by
    one: whatever the hash puts in one bucket, the decision it gives has, for every
    identity, the standing the demands leave it; the maps of the decisions published before
    are as they were; the receiver comes back exactly when no standing changes and
    execution does not begin; and the identities reported are, sorted and without
    duplicates, those whose standing changes in a way the store has to hear of. *)
Theorem include_refines h d update e h' d' included : published hash h d → include hash h d update e = (h', d', included) →
  included_by hash update e h d h' d' included.
Proof. apply include_in. Qed.

End theorems.

(** ** What is read off a decision *)

(** The selected namespaces are those of the selected identities that reports
    show: every bucket is looked at, and each identity is in the bucket it hashes to. *)
Theorem namespaces_exact hash h d ns : published hash h d →
  ns ∈ namespaces h (Some d) ↔
  ns ≠ "" ∧ ∃ id, id.(Namespace) = ns ∧ Output hash h (Some d) id = true ∧ ReportHidden id = false.
Proof.
  intros Hp. unfold namespaces. rewrite elem_of_union_list. split.
  - intros (X & HX & Hns). apply list_elem_of_fmap in HX. destruct HX as (o & -> & Ho).
    apply elem_of_list_to_set, list_elem_of_omap in Hns. destruct Hns as ([id r] & Hid & E). apply elem_of_map_to_list in Hid. cbn [fst snd] in E.
    destruct (has r selected && negb (ReportHidden id) && bool_decide (Namespace id ≠ "")) eqn:Eb; [| done]. injection E as <-.
    rewrite !andb_true_iff, negb_true_iff, bool_decide_eq_true in Eb. destruct Eb as [[H1 H2] H3].
    split; [done |]. exists id. split; [done |]. split; [| done].
    apply list_elem_of_lookup in Ho. destruct Ho as [b Hb]. destruct o as [p |]; [| change (read h None) with (∅ : gmap NamedResource N) in Hid; by rewrite lookup_empty in Hid].
    destruct (p_valid _ _ _ Hp _ _ Hb) as [m Hm]. rewrite (read_some _ _ _ Hm) in Hid.
    unfold Output, roles. rewrite <- (p_home _ _ _ Hp _ _ _ _ _ Hb Hm Hid). rewrite (bucket_at_some _ _ _ _ Hb), (read_some _ _ _ Hm), Hid. exact H1.
  - intros (Hne & id & Hns & Hout & Hrep). unfold Output, roles, bucket_at in Hout.
    destruct (buckets d !! bucket_of hash id) as [o |] eqn:Eb; [| by vm_compute in Hout]. change (default None (Some o)) with o in Hout.
    destruct (read h o !! id) as [r |] eqn:Er; [| by vm_compute in Hout]. cbn in Hout.
    eexists. split; [apply list_elem_of_fmap; exists o; split; [reflexivity | by eapply list_elem_of_lookup_2] |].
    apply elem_of_list_to_set, list_elem_of_omap. exists (id, r). split; [by apply elem_of_map_to_list |]. cbn [fst snd].
    rewrite Hout, Hrep, bool_decide_eq_true_2 by (by rewrite Hns). cbn. by rewrite Hns.
Qed.

(** What a request selects is in its scope, and a request that names no object selects
    its whole scope. *)
Lemma Matches_scope s id :
  (Matches s id = true → MatchesScope s id = true) ∧
  (Forall (λ root, root.(Name) = "") s.(Roots) → Matches s id = MatchesScope s id).
Proof.
  assert (∀ root, root_matches id true root = true → root_matches id false root = true) as Hroot.
  { intros root. unfold root_matches. rewrite !andb_true_iff. tauto. }
  assert (includesRenderKinds s true = true → includesRenderKinds s false = true) as Hkinds.
  { unfold includesRenderKinds. rewrite !andb_true_iff. intros [[_ H] HK]. split; [split; [done |] | done].
    rewrite forallb_forall in *. intros root Hr. specialize (H root Hr). cbn in *. rewrite andb_true_iff in H. tauto. }
  unfold Matches, MatchesScope, matches. case_bool_decide as Hnil; [done |]. split.
  - destruct (existsb (root_matches id true) (Roots s)) eqn:E.
    + intros _. apply existsb_exists in E. destruct E as (root & H1 & H2).
      rewrite (proj2 (existsb_exists (root_matches id false) (Roots s)) (ex_intro _ root (conj H1 (Hroot _ H2)))). done.
    + destruct (includesRenderKinds s true); [| done]. rewrite (Hkinds eq_refl). by destruct (existsb (root_matches id false) (Roots s)).
  - intros Hall. rewrite Forall_forall in Hall.
    assert (∀ root, root ∈ Roots s → root_matches id true root = root_matches id false root) as Heq.
    { intros root Hr. unfold root_matches. by rewrite (Hall root Hr), (bool_decide_eq_true_2 ("" = "")). }
    assert (existsb (root_matches id true) (Roots s) = existsb (root_matches id false) (Roots s)) as ->.
    { clear Hnil Hkinds. induction (Roots s) as [| a l IH]; [done |]. cbn. rewrite Heq by (by left). f_equal. apply IH; intros; [apply Hall | apply Heq]; by right. }
    assert (includesRenderKinds s true = includesRenderKinds s false) as ->; [| done].
    unfold includesRenderKinds, root0. destruct (Roots s) as [| a l]; [done |].
    change (default no_resource (head (a :: l))) with a. rewrite (Hall a) by (by left). rewrite (bool_decide_eq_true_2 ("" = "")) by done. f_equal. f_equal.
    apply eq_true_iff_eq. rewrite !forallb_forall. split; intros H root Hr; specialize (H root Hr); cbn in *;
      rewrite (Hall root) in * by (by apply list_elem_of_In); done.
Qed.

(** ** Witnesses *)

Definition w_hash (id : NamedResource) : N := N.of_nat (String.length id.(Name)).
Definition w_a : NamedResource := mkResource "K" "g" "ns" "a".
Definition w_b : NamedResource := mkResource "K" "g" "nt" "b".
Definition w_start : Decision := mkDecision (replicate decisionBuckets None) 0 true.
Definition w_decision : heap * option Decision * list NamedResource :=
  include w_hash ∅ w_start (mkAdmission [w_a] [] [] []) true.

Lemma w_start_published : published w_hash ∅ w_start.
Proof.
  split; [done | intros b p H | intros b p m id r H |]; try by (apply lookup_replicate in H; destruct H).
  intros id. unfold roles, bucket_at. cbn [buckets w_start]. destruct (replicate decisionBuckets None !! bucket_of w_hash id) as [o |] eqn:E; [| done].
  apply lookup_replicate in E. by destruct E as [-> _].
Qed.

Definition w_h : heap := w_decision.1.1.
Definition w_d : Decision := default w_start w_decision.1.2.
Definition w_next : heap * option Decision * list NamedResource := include w_hash w_h w_d (mkAdmission [w_b] [w_a] [] []) true.

Lemma triple_eta {A B C} (x : A * B * C) : x = (x.1.1, x.1.2, x.2).
Proof. by destruct x as [[]]. Qed.

Lemma w_published : published w_hash w_h w_d.
Proof. apply (i_published _ _ _ _ _ _ _ _ (include_in w_hash ∅ w_start _ true _ _ _ w_start_published (triple_eta w_decision))). Qed.

(** [w_a] is a prerequisite first; selecting it later, in a step that also adds [w_b],
    wakes it. *)
Lemma include_refines_witness : published w_hash w_h w_d ∧
  included_by w_hash (mkAdmission [w_b] [w_a] [] []) true w_h w_d w_next.1.1 w_next.1.2 w_next.2 ∧
  roles w_hash w_h (Some w_d) w_a = needed ∧ roles w_hash w_next.1.1 (Some (default w_d w_next.1.2)) w_a = 31%N ∧ w_next.2 = [w_a; w_b].
Proof.
  split; [exact w_published |]. split; [exact (include_refines w_hash w_h w_d _ true _ _ _ w_published (triple_eta w_next)) |]. by vm_compute.
Defined.

Lemma namespaces_exact_witness : published w_hash w_h w_d ∧
  ("ns" ∈ namespaces w_h (Some w_d) ↔
   "ns" ≠ "" ∧ ∃ id, id.(Namespace) = "ns" ∧ Output w_hash w_h (Some w_d) id = true ∧ ReportHidden id = false).
Proof. split; [exact w_published |]. exact (namespaces_exact w_hash w_h w_d "ns" w_published). Defined.
