(* ===== verification/Scope.v ===== *)
(** The scope of a projection: src/pkg/selection/scope.go ([requiredClosure] and the walks
    below it), with the ancestry of snapshot.go and project.go.

    A comparison projects two completed runs.  A restricted request answers only for what
    its roots need: the selected resources, what they render, and from there upwards the
    producers and the required inputs of each.  Here are that closure and the search for
    an unavailable ancestor, over the membership, the productions and the statuses of a
    run's store.  The order in which Go ranges over a map is a parameter. *)

From stdpp Require Import fin_maps.
From S2P Require Import Prelude Closure Resource Membership Productions StoreStatus Decision.

(** ** Snapshots *)

Section scope.
Context {O : Type} (Named : O → NamedResource) (hash : NamedResource → N).
Context (range : gset NamedResource → list NamedResource).

Notation record_index := (gmap NamedResource DiscoveryRecord).

(** The facts of a [Snapshot] and of its [selectionSide] that scoping reads.
    [accepted_inputs] holds, by origin, whether the reads of its accepted assessment are
    valid, and its inputs with whether each is required. *)
Record side := mkSide {
  sd_Store : Membership.Store (O := O);
  sd_conditions : StoreStatus.Store;
  sd_accepted : gmap NamedResource (bool * list (NamedResource * bool));
  sd_Index : option record_index;
  sd_heap : Decision.heap;
  sd_Decision : option Decision;
  sd_Producer : NamedResource; sd_Key : NamedResource;
  sd_Failed : gmap NamedResource StatusInfo;
  sd_roots : list NamedResource;
  sd_namespaces : option (gset string);
}.

Definition Lookup (index : option record_index) (id : NamedResource) : DiscoveryRecord :=
  default Membership.no_record (index ≫= λ i, i !! id).

Definition records (index : option record_index) : list NamedResource :=
  match index with Some i => range (dom i) | None => [] end.

(** [RequiredInputs]. *)
Definition RequiredInputs (s : side) (id : NamedResource) : list NamedResource :=
  match s.(sd_accepted) !! id with
  | Some (true, inputs) => map fst (filter (λ i, i.2 = true) inputs)
  | _ => []
  end.

Definition parentOf (s : side) (id : NamedResource) : option NamedResource :=
  let record := Lookup s.(sd_Index) id in
  if bool_decide (record.(Parent) ≠ no_resource) then Some record.(Parent)
  else RenderedParent Named s.(sd_Store) id s.(sd_Index).

(** [Decision.restricted], [Reconcile] and [Output]. *)
Definition restricted (s : side) : bool := bool_decide (is_Some s.(sd_Decision)).
Definition side_Reconcile (s : side) (id : NamedResource) : bool := Decision.Reconcile hash s.(sd_heap) s.(sd_Decision) id.
Definition side_Output (s : side) (id : NamedResource) : bool := Decision.Output hash s.(sd_heap) s.(sd_Decision) id.

Definition includes (s : side) (namespace : string) : bool :=
  bool_decide (namespace = "") ||
  match s.(sd_namespaces) with None => true | Some ns => bool_decide (namespace ∈ ns) end.

(** *** Children *)

Definition add_child (parent child : NamedResource) (m : gmap NamedResource (list NamedResource))
    : gmap NamedResource (list NamedResource) := <[parent := default [] (m !! parent) ++ [child]]> m.

Definition add_object (s : side) (m : gmap NamedResource (list NamedResource)) (obj : O) : gmap NamedResource (list NamedResource) :=
  foldl (λ m p, if parent_of_target (Named obj) p then add_child p.(Owner) (Named obj) m else m)
    m (Productions_of Named s.(sd_Store) (Named obj) s.(sd_Index)).

Definition add_record (s : side) (m : gmap NamedResource (list NamedResource)) (child : NamedResource) : gmap NamedResource (list NamedResource) :=
  let record := Lookup s.(sd_Index) child in
  if bool_decide (record.(Parent) ≠ no_resource) then add_child record.(Parent) child m else m.

Definition childrenByParent (s : side) : gmap NamedResource (list NamedResource) :=
  let m := foldl (add_object s) ∅ (ListObjects Named range s.(sd_Store)) in
  let m := foldl (add_record s) m (records s.(sd_Index)) in
  (λ ids, Compact (sort_by compare ids)) <$> m.

(** *** Comparison keys *)

Definition comparisonKey (s : side) (id : NamedResource) : NamedResource :=
  if bool_decide (s.(sd_Producer) ≠ no_resource) && bool_decide (id = s.(sd_Producer)) then s.(sd_Key) else id.

Definition actualProducer (s : side) (key : NamedResource) : NamedResource :=
  if bool_decide (s.(sd_Producer) ≠ no_resource) && bool_decide (s.(sd_Key) = key) then s.(sd_Producer) else key.

Definition localStatus (s : side) (id : NamedResource) : StatusInfo :=
  match s.(sd_Failed) !! id with
  | Some info => info
  | None => default no_info (GetStatus s.(sd_conditions) id)
  end.

(** ** The required closure *)

Section required.
Context (s : side) (intent : Request).

Notation root := (root0 intent).
Notation queue := (gset NamedResource * list NamedResource)%type.

(** [requiredSelection.seed]. *)
Definition seeds (id : NamedResource) : bool :=
  negb (bool_decide (root.(Name) = "") && restricted s && negb (side_Output s id)) &&
  Matches intent id && includes s id.(Namespace).

Definition seed (q : queue) (id : NamedResource) : queue := if seeds id then push q id else q.

Definition seedRoots (q : queue) : queue :=
  foldl seed q (s.(sd_roots) ++ records s.(sd_Index) ++ range (dom s.(sd_Failed))).

Definition selectedChild (child : NamedResource) : bool :=
  if bool_decide (root.(Name) ≠ "") then true
  else if restricted s then side_Output s child
  else includes s child.(Namespace).

Definition down (children : gmap NamedResource (list NamedResource)) (id : NamedResource) : list NamedResource :=
  filter (λ c, selectedChild c = true) (default [] (children !! id)).

(** What the loops can reach, for their fuel. *)
Definition all_children (children : gmap NamedResource (list NamedResource)) : gset NamedResource :=
  list_to_set (concat (map snd (map_to_list children))).

Definition index_owners (index : option record_index) : gset NamedResource :=
  list_to_set (concat (map (λ kv, kv.2.(Parent) :: map Owner kv.2.(Membership.Productions)) (map_to_list (default ∅ index)))).

Definition member_owners (st : Membership.Store (O := O)) : gset NamedResource :=
  list_to_set (concat (map (λ kv, map Owner (concat (map (member_productions Named st) kv.2))) (map_to_list st.(members)))).

Definition owners (s : side) : gset NamedResource :=
  index_owners s.(sd_Index) ∪ index_owners s.(sd_Store).(Membership.index) ∪ member_owners s.(sd_Store).

Definition inputs (s : side) : gset NamedResource :=
  list_to_set (concat (map (λ kv, map fst kv.2.2) (map_to_list s.(sd_accepted)))).

Definition expandChildren (children : gmap NamedResource (list NamedResource)) (q : queue) : option queue :=
  loop (index_step (down children)) (size (q.1 ∪ all_children children) + length q.2) (q, 0).

(** [addOtherParents]: up the other run's ancestry while this run has no object. *)
Definition climb_step (other : side) (st : NamedResource * gset NamedResource * queue)
    : NamedResource * gset NamedResource * queue + queue :=
  let '(id, visited, q) := st in
  if bool_decide (is_Some (GetObject s.(sd_Store) id)) || bool_decide (id ∈ visited) then inr q
  else
    match parentOf other id with
    | None => inr q
    | Some parent =>
        let actual := actualProducer s (comparisonKey other parent) in
        let q := push q actual in
        if bool_decide (actual ≠ parent) then inr q else inl (parent, {[id]} ∪ visited, q)
    end.

Definition addOtherParents (other : side) (id : NamedResource) (q : queue) : option queue :=
  loop (climb_step other) (S (S (size (owners other)))) (id, ∅, q).

Fixpoint seedOther (other : side) (ids : list NamedResource) (q : queue) : option queue :=
  match ids with
  | [] => Some q
  | id :: ids =>
      let q := if restricted s && side_Output other id then push q id else q in
      q ← addOtherParents other id q; seedOther other ids q
  end.

Definition up (id : NamedResource) : list NamedResource := option_list (parentOf s id) ++ RequiredInputs s id.

Definition expandPrerequisites (q : queue) : option (gset NamedResource) :=
  loop (pop_step up) (size (q.1 ∪ owners s ∪ inputs s) + length q.2) q.

Definition requiredClosure (other : option side) : option (gset NamedResource) :=
  let q := seedRoots (∅, []) in
  let children := childrenByParent s in
  let q := if bool_decide (root.(Name) ≠ "")
    then foldl seed q (concat (map (λ p, default [] (children !! p)) (range (dom children)))) else q in
  q ← (if bool_decide (root.(Name) ≠ "") || bool_decide (root.(Namespace) ≠ "") then expandChildren children q else Some q);
  let entry := s.(sd_Producer) in
  let q := if bool_decide (entry ≠ no_resource) && restricted s && side_Reconcile s entry then push q entry else q in
  q ← match other with Some other => seedOther other other.(sd_roots) q | None => Some q end;
  expandPrerequisites q.

(** The argument [prepareFailures] computes for a run that has failures. *)
Definition required (other : option side) : option (option (gset NamedResource)) :=
  if bool_decide (root.(Name) ≠ "") || bool_decide (root.(Namespace) ≠ "") || restricted s
  then Some <$> requiredClosure other else Some None.

End required.

(** ** Ancestry *)

Lemma taken_incl (st : Membership.Store (O := O)) q evidence bare p : p ∈ taken st q evidence bare → p ∈ bare.
Proof.
  unfold taken.
  enough (∀ bare pf first l, p ∈ (foldl (take_step st q evidence) (pf, first, l) bare).2 → p ∈ l ∨ p ∈ bare) as H.
  { intros Hp. destruct (H _ _ _ _ Hp) as [?%elem_of_nil | ?]; done. }
  clear. induction bare as [| b bare IH]; intros pf first l Hp; [by left |]. cbn [foldl] in Hp. unfold take_step at 2 in Hp.
  destruct (_ && _); apply IH in Hp; rewrite ?elem_of_app, ?list_elem_of_singleton in Hp; rewrite elem_of_cons; tauto.
Qed.

Lemma indexed_owner index id p : p ∈ indexed index id → p.(Owner) ∈ index_owners index.
Proof.
  unfold indexed, index_owners. destruct index as [i |]; cbn; [| by intros ?%elem_of_nil].
  destruct (i !! id) as [rec |] eqn:E; cbn; [| by intros ?%elem_of_nil]. intros Hp.
  apply elem_of_list_to_set, list_elem_of_In, in_concat. eexists. split.
  - apply in_map_iff. exists (id, rec). split; [done |]. by apply list_elem_of_In, elem_of_map_to_list.
  - right. by apply in_map, list_elem_of_In.
Qed.

Lemma member_owner (st : Membership.Store (O := O)) id p : p ∈ concat (map (member_productions Named st) (members_of st id)) → p.(Owner) ∈ member_owners st.
Proof.
  unfold members_of, member_owners. destruct (members st !! id) as [ms |] eqn:E; cbn; [| by intros ?%elem_of_nil]. intros Hp.
  apply elem_of_list_to_set, list_elem_of_In, in_concat. eexists. split.
  - apply in_map_iff. exists (id, ms). split; [done |]. by apply list_elem_of_In, elem_of_map_to_list.
  - by apply in_map, list_elem_of_In.
Qed.

Lemma parentOf_owner (s : side) id x : parentOf s id = Some x → x ∈ owners s.
Proof.
  unfold parentOf, owners. case_bool_decide as Hp.
  - intros [= <-]. rewrite !elem_of_union. left. left. unfold Lookup in *. destruct (sd_Index s) as [i |]; [| done]. cbn in Hp |- *.
    destruct (i !! id) as [rec |] eqn:E; [| done]. cbn in Hp |- *. unfold index_owners.
    apply elem_of_list_to_set, list_elem_of_In, in_concat. eexists. split.
    + apply in_map_iff. exists (id, rec). split; [done |]. by apply list_elem_of_In, elem_of_map_to_list.
    + by left.
  - intros E. pose proof (RenderedParent_contributed Named (sd_Store s) id (sd_Index s)) as H. rewrite E in H.
    destruct H as [(p & Hin & Ht & <-) _]. unfold contributed in Hin. cbv zeta in Hin.
    assert (∀ p, p ∈ indexed (used_index (sd_Store s) (sd_Index s)) id ∨
                 p ∈ indexed (used_index (sd_Store s) (sd_Index s)) (without_namespace id) →
                 p.(Owner) ∈ index_owners (sd_Index s) ∪ index_owners (Membership.index (sd_Store s))) as Hi.
    { intros p0 Hp0. assert (Owner p0 ∈ index_owners (used_index (sd_Store s) (sd_Index s))) as Ho by (destruct Hp0 as [H | H]; by eapply indexed_owner).
      unfold used_index in Ho. rewrite elem_of_union. destruct (sd_Index s); [by left | by right]. }
    destruct (c_hidden _ && _); [by apply elem_of_nil in Hin |]. apply elem_of_app in Hin as [Hin | Hin].
    2: { rewrite !elem_of_union. right. by eapply member_owner. }
    apply elem_of_union_l, Hi.
    destruct (bool_decide _ && _ && _); [by apply elem_of_nil in Hin |]. apply elem_of_app in Hin as [Hin | Hin].
    + unfold discovered, visible_list, evidence_of, bare_of in Hin. apply elem_of_app in Hin as [Hin | Hin]; apply list_elem_of_filter in Hin as [_ Hin].
      * by left.
      * apply taken_incl in Hin. right. by case_bool_decide; [apply elem_of_nil in Hin |].
    + by apply self_bound_owner in Hin.
Qed.

Lemma RequiredInputs_inputs (s : side) id x : x ∈ RequiredInputs s id → x ∈ inputs s.
Proof.
  unfold RequiredInputs, inputs. destruct (sd_accepted s !! id) as [[[] l] |] eqn:E; try by intros ?%elem_of_nil.
  intros Hx. apply elem_of_list_to_set, list_elem_of_In, in_concat. eexists. split.
  - apply in_map_iff. exists (id, (true, l)). split; [done |]. by apply list_elem_of_In, elem_of_map_to_list.
  - cbn. apply list_elem_of_In. apply list_elem_of_fmap in Hx as (i & -> & Hi). apply list_elem_of_filter in Hi as [_ Hi].
    apply list_elem_of_fmap. by exists i.
Qed.


(** ** Children *)

Section exact.
Context (range_keys : ∀ X : gset NamedResource, range X ≡ₚ elements X).

Lemma elem_of_range X x : x ∈ range X ↔ x ∈ X.
Proof. by rewrite range_keys, elem_of_elements. Qed.

Definition kids (m : gmap NamedResource (list NamedResource)) (p : NamedResource) : list NamedResource := default [] (m !! p).

Lemma add_child_spec m p c q x : x ∈ kids (add_child p c m) q ↔ x ∈ kids m q ∨ p = q ∧ x = c.
Proof.
  unfold kids, add_child. destruct (decide (p = q)) as [-> | Hn].
  - rewrite fin_maps.lookup_insert_eq. change (default [] (Some (?l ++ [c]))) with (l ++ [c]). rewrite elem_of_app, list_elem_of_singleton. tauto.
  - rewrite fin_maps.lookup_insert_ne by done. tauto.
Qed.

(** [p] renders [c]: an eligible production of the visible object [c] is [p]'s, or [p] is
    the strict parent discovery recorded. *)
Definition renders (s : side) (p c : NamedResource) : Prop :=
  (∃ id obj, is_Some (cells (sd_Store s) !! id) ∧ GetObject (sd_Store s) id = Some obj ∧ Named obj = c ∧
     ∃ pr, pr ∈ Productions_of Named (sd_Store s) c (sd_Index s) ∧ parent_of_target c pr = true ∧ pr.(Owner) = p) ∨
  (p ≠ no_resource ∧ (Lookup (sd_Index s) c).(Parent) = p).

Lemma add_object_spec s m obj p x : x ∈ kids (add_object s m obj) p ↔
  x ∈ kids m p ∨ x = Named obj ∧
    ∃ pr, pr ∈ Productions_of Named (sd_Store s) (Named obj) (sd_Index s) ∧ parent_of_target (Named obj) pr = true ∧ pr.(Owner) = p.
Proof.
  unfold add_object. generalize (Productions_of Named (sd_Store s) (Named obj) (sd_Index s)) as l. intros l. revert m.
  induction l as [| pr l IH]; intros m; [cbn; split; [by left | intros [? | (_ & pr & ?%elem_of_nil & _)]; done] |].
  cbn [foldl]. rewrite IH. destruct (parent_of_target (Named obj) pr) eqn:E.
  - rewrite add_child_spec. setoid_rewrite elem_of_cons. naive_solver.
  - setoid_rewrite elem_of_cons. naive_solver congruence.
Qed.

Lemma add_record_spec s m c p x : x ∈ kids (add_record s m c) p ↔
  x ∈ kids m p ∨ x = c ∧ p ≠ no_resource ∧ (Lookup (sd_Index s) c).(Parent) = p.
Proof.
  unfold add_record. case_bool_decide as H; [rewrite add_child_spec; naive_solver | naive_solver].
Qed.

Lemma elem_of_records index c : c ∈ records index ↔ is_Some (index ≫= λ i, i !! c).
Proof.
  unfold records. destruct index as [i |]; cbn; [by rewrite elem_of_range, elem_of_dom |]. rewrite elem_of_nil. split; [done | by intros []].
Qed.

(** The children of a producer, each once in order, however the maps are ranged over. *)
Lemma childrenByParent_spec s p x : x ∈ kids (childrenByParent s) p ↔ renders s p x.
Proof.
  unfold childrenByParent, kids. rewrite lookup_fmap. set (m := foldl _ _ _).
  assert (x ∈ kids m p ↔ renders s p x) as Hm; [| unfold kids in Hm; destruct (m !! p) as [l |]; cbn in *; by rewrite ?elem_of_sorted_distinct].
  unfold m. clear m.
  assert (∀ l m, x ∈ kids (foldl (add_record s) m l) p ↔ x ∈ kids m p ∨ x ∈ l ∧ p ≠ no_resource ∧ (Lookup (sd_Index s) x).(Parent) = p) as Hr.
  { induction l as [| c l IH]; intros m; [cbn; rewrite elem_of_nil; tauto |]. cbn [foldl].
    rewrite IH, add_record_spec, elem_of_cons. naive_solver. }
  assert (∀ l m, x ∈ kids (foldl (add_object s) m l) p ↔ x ∈ kids m p ∨ ∃ obj, obj ∈ l ∧ x = Named obj ∧
    ∃ pr, pr ∈ Productions_of Named (sd_Store s) (Named obj) (sd_Index s) ∧ parent_of_target (Named obj) pr = true ∧ pr.(Owner) = p) as Ho.
  { induction l as [| o l IH]; intros m; [cbn; split; [by left | intros [? | (obj & ?%elem_of_nil & _)]; done] |]. cbn [foldl].
    rewrite IH, add_object_spec. setoid_rewrite elem_of_cons. naive_solver. }
  rewrite Hr, Ho. unfold renders. rewrite elem_of_records. unfold kids. rewrite lookup_empty. cbn [default]. change (default [] None) with (@nil NamedResource).
  rewrite elem_of_nil. unfold ListObjects, Objects. setoid_rewrite elem_of_sort_by. setoid_rewrite list_elem_of_omap. setoid_rewrite elem_of_range.
  setoid_rewrite elem_of_dom. unfold GetObject. split.
  - intros [[[] | (obj & (id & Hid & Hobj) & -> & Hpr)] | (_ & Hp & Hx)]; [left | right; done]. by exists id, obj.
  - intros [(id & obj & Hid & Hobj & <- & Hpr) | [Hp Hx]].
    + left. right. exists obj. split; [by exists id |]. done.
    + right. split; [| done]. unfold Lookup in Hx. destruct (sd_Index s ≫= λ i, i !! x); [done |]. by subst p.
Qed.

(** A visible resource, filed under its own name, is among the children of its parent. *)
Lemma parent_renders s id p obj : GetObject (sd_Store s) id = Some obj → Named obj = id → is_Some (cells (sd_Store s) !! id) →
  parentOf s id = Some p → renders s p id.
Proof.
  intros Hobj Hn Hc. unfold parentOf. case_bool_decide as Hp; [intros [= <-]; by right |]. intros E.
  pose proof (RenderedParent_spec Named (sd_Store s) id (sd_Index s)) as H. rewrite E in H.
  destruct H as [(pr & Hin & Ht & Hx) _]. left. exists id, obj. split; [done |]. split; [done |]. split; [done |]. by exists pr.
Qed.

(** ** The closure *)

Section closure.
Context (s : side) (intent : Request).

Notation queue := (gset NamedResource * list NamedResource)%type.

(** A queue that holds everything it has seen. *)
Definition full (q : queue) : Prop := ∀ x, x ∈ q.1 ↔ x ∈ q.2.

Lemma push_full q a : full q → full (push q a) ∧ ∀ x, x ∈ (push q a).1 ↔ x ∈ q.1 ∨ x = a.
Proof.
  intros Hq. unfold push. destruct (decide (a ∈ q.1)) as [Ha | Ha].
  - split; [done |]. intros x. split; [by left | by intros [? | ->]].
  - split; intros x; cbn [fst snd].
    + rewrite elem_of_union, elem_of_app, elem_of_singleton, list_elem_of_singleton, (Hq x). tauto.
    + rewrite elem_of_union, elem_of_singleton. tauto.
Qed.

Lemma seed_fold l q : full q → full (foldl (seed s intent) q l) ∧
  ∀ x, x ∈ (foldl (seed s intent) q l).1 ↔ x ∈ q.1 ∨ x ∈ l ∧ seeds s intent x = true.
Proof.
  revert q. induction l as [| a l IH]; intros q Hq; [split; [done |]; intros x; cbn; rewrite elem_of_nil; tauto |]. cbn [foldl].
  unfold seed at 2 4. destruct (seeds s intent a) eqn:E.
  - destruct (push_full q a Hq) as [Hf Hx]. destruct (IH _ Hf) as [Hf' Hx']. split; [done |]. intros x. rewrite Hx', Hx, elem_of_cons.
    split; [intros [[? | ->] | [? ?]]; tauto | intros [? | [[-> | ?] ?]]; tauto].
  - destruct (IH _ Hq) as [Hf' Hx']. split; [done |]. intros x. rewrite Hx', elem_of_cons.
    split; [intros [? | [? ?]]; tauto | intros [? | [[-> | ?] ?]]; [tauto | congruence | tauto]].
Qed.

(** The ancestry of the other run that this run has no objects for. *)
Definition absent (x : NamedResource) : Prop := GetObject (sd_Store s) x = None.

Definition counterpart (other : side) (p : NamedResource) : NamedResource := actualProducer s (comparisonKey other p).

Definition climbs (other : side) (a b : NamedResource) : Prop := absent a ∧ parentOf other a = Some b ∧ counterpart other b = b.

Definition meets (other : side) (a t : NamedResource) : Prop := absent a ∧ ∃ p, parentOf other a = Some p ∧ t = counterpart other p.

Record climbing (other : side) (start : NamedResource) (q0 : queue) (st : NamedResource * gset NamedResource * queue) : Prop := {
  cl_full : full st.2;
  cl_start : start = st.1.1 ∨ start ∈ st.1.2;
  cl_reach x : x = st.1.1 ∨ x ∈ st.1.2 → rtc (climbs other) start x;
  cl_next x y : x ∈ st.1.2 → climbs other x y → y = st.1.1 ∨ y ∈ st.1.2;
  cl_seen t : t ∈ st.2.1 ↔ t ∈ q0.1 ∨ ∃ x, x ∈ st.1.2 ∧ meets other x t;
  cl_bound : st.1.2 ⊆ {[start]} ∪ owners other;
  cl_head : st.1.1 ∈ {[start]} ∪ owners other;
}.

Lemma climbing_end other start q0 id (visited : gset NamedResource) (q q' : queue) : climbing other start q0 (id, visited, q) →
  (∀ t, t ∈ q'.1 ↔ t ∈ q.1 ∨ meets other id t ∧ id ∉ visited) → (id ∈ visited ∨ ∀ y, ¬ climbs other id y) →
  ∀ t, t ∈ q'.1 ↔ t ∈ q0.1 ∨ ∃ x, rtc (climbs other) start x ∧ meets other x t.
Proof.
  intros [Hf Hst Hre Hn Hse _ _] Hq' Hend t. cbn [fst snd] in *. rewrite Hq', Hse.
  assert (∀ a x, rtc (climbs other) a x → a = id ∨ a ∈ visited → x = id ∨ x ∈ visited) as Hall.
  { intros a x Hx. induction Hx as [| a b c Hab _ IH]; [done |]. intros Ha. apply IH. destruct Hend as [Hv | Hno].
    - apply (Hn a); [| done]. by destruct Ha as [-> |].
    - destruct Ha as [-> | Ha]; [by destruct (Hno b) | by apply (Hn a)]. }
  split.
  - intros [[? | (x & Hx & Hm)] | [Hm _]]; [by left | right; exists x; split; [apply Hre; by right | done] |].
    right. exists id. split; [apply Hre; by left | done].
  - intros [? | (x & Hx & Hm)]; [by left; left |]. destruct (decide (x ∈ visited)) as [Hv | Hv]; [left; right; by exists x |].
    destruct (Hall start x Hx Hst) as [-> |]; [by right | done].
Qed.

Lemma addOtherParents_spec other start q : full q → ∃ r, addOtherParents s other start q = Some r ∧ full r ∧
  ∀ t, t ∈ r.1 ↔ t ∈ q.1 ∨ ∃ x, rtc (climbs other) start x ∧ meets other x t.
Proof.
  intros Hq. unfold addOtherParents.
  apply (loop_spec (climb_step s other) (climbing other start q) (λ st, size (({[start]} ∪ owners other) ∖ st.1.2))
    (λ r, full r ∧ ∀ t, t ∈ r.1 ↔ t ∈ q.1 ∨ ∃ x, rtc (climbs other) start x ∧ meets other x t)).
  - intros [[id visited] q1] st Hc. unfold climb_step.
    destruct (bool_decide (is_Some _) || bool_decide (id ∈ visited)) eqn:Eg; [done |]. bool_to_prop.
    assert (absent id) as Ha by (unfold absent; destruct (GetObject (sd_Store s) id); [by exfalso; eauto | done]).
    destruct (parentOf other id) as [parent |] eqn:Ep; [| done]. case_bool_decide as Hact; [done |]. intros [= <-].
    fold (counterpart other parent) in *.
    destruct Hc as [Hf Hst Hre Hn Hse Hbo Hhe]. cbn [fst snd] in *. destruct (push_full q1 (counterpart other parent) Hf) as [Hf' Hx'].
    split.
    + assert (climbs other id parent) as Hcl by done. split; cbn [fst snd].
      * done.
      * rewrite elem_of_union, elem_of_singleton. right. destruct Hst; [by left | by right].
      * intros x. rewrite elem_of_union, elem_of_singleton. intros [-> | [-> | Hx]]; [eapply rtc_r; [apply Hre; by left | done] | apply Hre; by left | apply Hre; by right].
      * intros x y. rewrite !elem_of_union, !elem_of_singleton. intros [-> | Hx] Hxy; [| destruct (Hn x y Hx Hxy); tauto].
        destruct Hxy as (_ & Hxy & _). rewrite Ep in Hxy. injection Hxy as <-. by left.
      * intros t. rewrite Hx', Hse. setoid_rewrite elem_of_union. setoid_rewrite elem_of_singleton. split.
        -- intros [[? | (x & Hx & Hm)] | ->]; [by left | right; exists x; tauto |]. right. exists id. split; [by left |]. split; [done |]. by exists parent.
        -- intros [? | (x & [-> | Hx] & Hm)]; [by left; left | | left; right; by exists x]. right.
           destruct Hm as [_ (p & Hp & ->)]. rewrite Ep in Hp. by injection Hp as <-.
      * apply union_subseteq. split; [by apply singleton_subseteq_l | done].
      * apply elem_of_union_r. by eapply parentOf_owner.
    + cbn [fst snd]. rewrite <- (size_difference_push id ({[start]} ∪ owners other) visited) by done. lia.
  - intros [[id visited] q1] r Hc. unfold climb_step.
    destruct (bool_decide (is_Some _)) eqn:E1; cbn [orb].
    { intros [= <-]. split; [apply Hc |]. bool_to_prop. apply (climbing_end other start q id visited q1 q1 Hc).
      - intros t. split; [by left |]. intros [? | [[Ha _] _]]; [done |]. destruct E1 as [? E1]. by rewrite Ha in E1.
      - right. intros y [Ha _]. destruct E1 as [? E1]. by rewrite Ha in E1. }
    assert (absent id) as Ha by (bool_to_prop; unfold absent; destruct (GetObject (sd_Store s) id); [by exfalso; eauto | done]).
    destruct (bool_decide_reflect (id ∈ visited)) as [Hv | Hv].
    { intros [= <-]. split; [apply Hc |]. apply (climbing_end other start q id visited q1 q1 Hc); [| by left].
      intros t. split; [by left | by intros [? | [_ ?]]]. }
    destruct (parentOf other id) as [parent |] eqn:Ep.
    2: { intros [= <-]. split; [apply Hc |]. apply (climbing_end other start q id visited q1 q1 Hc).
         - intros t. split; [by left |]. intros [? | [(_ & p & Hp & _) _]]; [done | by rewrite Ep in Hp].
         - right. intros y (_ & Hy & _). by rewrite Ep in Hy. }
    destruct (bool_decide_reflect (actualProducer s (comparisonKey other parent) ≠ parent)) as [Hact | Hact]; [| done]. intros [= <-]. fold (counterpart other parent) in *.
    destruct (push_full q1 (counterpart other parent) (cl_full _ _ _ _ Hc)) as [Hf' Hx']. split; [done |].
    apply (climbing_end other start q id visited q1 _ Hc).
    + intros t. rewrite Hx'. split; [intros [? | ->]; [by left | right; split; [| done]; split; [done | by exists parent]] |].
      intros [? | [(_ & p & Hp & ->) _]]; [by left |]. rewrite Ep in Hp. injection Hp as <-. by right.
    + right. intros y (_ & Hy & Hc'). rewrite Ep in Hy. by injection Hy as <-.
  - split; cbn [fst snd]; [done | by left | | | | |].
    + intros x [-> | ?%not_elem_of_empty]; [apply rtc_refl | done].
    + by intros x y ?%not_elem_of_empty.
    + intros t. split; [by left |]. by intros [? | (x & ?%not_elem_of_empty & _)].
    + apply empty_subseteq.
    + apply elem_of_union_l. by apply elem_of_singleton.
  - cbn [fst snd]. rewrite difference_empty_L. pose proof (size_union_alt {[start]} (owners other)) as Hsz. rewrite size_singleton in Hsz.
    pose proof (subseteq_size (owners other ∖ {[start]}) (owners other) ltac:(set_solver)). lia.
Qed.

Lemma seedOther_spec other ids q : full q → ∃ r, seedOther s other ids q = Some r ∧ full r ∧
  ∀ t, t ∈ r.1 ↔ t ∈ q.1 ∨ ∃ id, id ∈ ids ∧
    (restricted s = true ∧ side_Output other id = true ∧ t = id ∨ ∃ x, rtc (climbs other) id x ∧ meets other x t).
Proof.
  revert q. induction ids as [| id ids IH]; intros q Hq.
  { exists q. split; [done |]. split; [done |]. intros t. split; [by left |]. by intros [? | (id & ?%elem_of_nil & _)]. }
  cbn [seedOther]. set (q1 := if restricted s && _ then _ else _).
  assert (full q1 ∧ ∀ t, t ∈ q1.1 ↔ t ∈ q.1 ∨ restricted s = true ∧ side_Output other id = true ∧ t = id) as [Hf1 Hx1].
  { unfold q1. destruct (restricted s), (side_Output other id); cbn [andb]; [| split; [done | intros t; naive_solver]..].
    destruct (push_full q id Hq) as [Hf Hx]. split; [done |]. intros t. rewrite Hx. tauto. }
  clearbody q1. destruct (addOtherParents_spec other id q1 Hf1) as (q2 & -> & Hf2 & Hx2). cbn [mbind option_bind].
  destruct (IH q2 Hf2) as (r & -> & Hf & Hx). exists r. split; [done |]. split; [done |]. intros t. rewrite Hx, Hx2, Hx1.
  split.
  - intros [[[? | H] | H] | (i & Hi & H)]; [by left | | |]; right; [exists id | exists id | exists i]; (split; [first [by left | by right] |]); tauto.
  - intros [? | (i & Hi & H)]; [tauto |]. apply elem_of_cons in Hi as [-> | Hi]; [tauto | right; by exists i].
Qed.

Lemma elem_down children a b : b ∈ down s intent children a ↔ selectedChild s intent b = true ∧ b ∈ kids children a.
Proof. unfold down, kids. by rewrite list_elem_of_filter. Qed.

Lemma expandChildren_spec children q : full q → ∃ r, expandChildren s intent children q = Some r ∧ full r ∧
  ∀ x, x ∈ r.1 ↔ ∃ y, y ∈ q.1 ∧ rtc (Closure.leads (down s intent children)) y x.
Proof.
  intros Hq. unfold expandChildren. destruct q as [seen work]. cbn [fst snd].
  destruct (index_loop (down s intent children) (seen ∪ all_children children) seen work) as (r & Hr & Hx & Hf); [| done | set_solver |].
  - intros a _ b Hb. apply elem_of_list_to_set, elem_down in Hb as [_ Hb]. apply elem_of_union_r. unfold kids in Hb.
    destruct (children !! a) as [l |] eqn:E; [| by apply elem_of_nil in Hb].
    apply elem_of_list_to_set, list_elem_of_In, in_concat. exists l. split; [| by apply list_elem_of_In].
    apply in_map_iff. exists (a, l). split; [done |]. by apply list_elem_of_In, elem_of_map_to_list.
  - exists r. split; [done |]. split; [exact Hf | done].
Qed.

Lemma expandPrerequisites_spec q : full q → ∃ r, expandPrerequisites s q = Some r ∧
  ∀ x, x ∈ r ↔ ∃ y, y ∈ q.1 ∧ rtc (Closure.leads (up s)) y x.
Proof.
  intros Hq. unfold expandPrerequisites. destruct q as [seen work]. cbn [fst snd].
  apply (pop_loop (up s) (seen ∪ owners s ∪ inputs s) seen work); [| done | set_solver].
  intros a _ b Hb. apply elem_of_list_to_set, elem_of_app in Hb as [Hb | Hb].
  - apply elem_of_union_l, elem_of_union_r. destruct (parentOf s a) as [p |] eqn:E; cbn in Hb; [| by apply elem_of_nil in Hb].
    apply list_elem_of_singleton in Hb as ->. by eapply parentOf_owner.
  - apply elem_of_union_r. by eapply RequiredInputs_inputs.
Qed.

(** *** What a request needs *)

Notation root := (root0 intent).

(** [p] renders [c], which the request selects. *)
Definition selects (p c : NamedResource) : Prop := selectedChild s intent c = true ∧ renders s p c.

(** [x] needs [y]: its producer, or an input its accepted assessment required. *)
Definition needs (x y : NamedResource) : Prop := parentOf s x = Some y ∨ y ∈ RequiredInputs s x.

(** The identities the side knows: its roots, its index, its failures and, for a request by
    name, everything that is rendered. *)
Definition known (x : NamedResource) : Prop :=
  x ∈ sd_roots s ∨ is_Some (sd_Index s ≫= λ i, i !! x) ∨ is_Some (sd_Failed s !! x) ∨
  root.(Name) ≠ "" ∧ ∃ p, renders s p x.

(** What the request demands in its own right. *)
Definition demanded (other : option side) (t : NamedResource) : Prop :=
  (∃ x, known x ∧ seeds s intent x = true ∧
     (if bool_decide (root.(Name) ≠ "" ∨ root.(Namespace) ≠ "") then rtc selects x t else x = t)) ∨
  (t = sd_Producer s ∧ t ≠ no_resource ∧ restricted s = true ∧ side_Reconcile s t = true) ∨
  ∃ o id, other = Some o ∧ id ∈ sd_roots o ∧
    (restricted s = true ∧ side_Output o id = true ∧ t = id ∨ ∃ x, rtc (climbs o) id x ∧ meets o x t).

Lemma rtc_iff {A} (R S : A → A → Prop) x y : (∀ a b, R a b ↔ S a b) → rtc R x y ↔ rtc S x y.
Proof. intros H. split; apply rtc_subrel; intros a b; apply H. Qed.

Lemma requiredClosure_spec other : ∃ r, requiredClosure s intent other = Some r ∧
  ∀ x, x ∈ r ↔ ∃ t, demanded other t ∧ rtc needs t x.
Proof.
  unfold requiredClosure. set (children := childrenByParent s).
  destruct (seed_fold (sd_roots s ++ records (sd_Index s) ++ range (dom (sd_Failed s))) (∅, [])) as [Hf0 Hx0].
  { intros x. cbn. by rewrite elem_of_nil. }
  fold (seedRoots s intent (∅, [])) in Hf0, Hx0. set (q0 := seedRoots s intent (∅, [])) in *. clearbody q0.
  set (q1 := if bool_decide (Name root ≠ "") then _ else q0).
  assert (full q1 ∧ ∀ x, x ∈ q1.1 ↔ known x ∧ seeds s intent x = true) as [Hf1 Hx1].
  { assert (∀ x, x ∈ q0.1 ↔ (x ∈ sd_roots s ∨ is_Some (sd_Index s ≫= λ i, i !! x) ∨ is_Some (sd_Failed s !! x)) ∧ seeds s intent x = true) as Hx0'.
    { intros x. rewrite Hx0, !elem_of_app, elem_of_records, elem_of_range, elem_of_dom. cbn [fst]. rewrite elem_of_empty. tauto. }
    unfold q1, known. destruct (bool_decide_reflect (Name root ≠ "")) as [Hn | Hn].
    - destruct (seed_fold (concat (map (λ p, kids children p) (range (dom children)))) q0 Hf0) as [Hf Hx]. split; [done |].
      intros x. unfold kids in Hx at 1. rewrite Hx, Hx0'. fold (kids children).
      assert (x ∈ concat (map (λ p, kids children p) (range (dom children))) ↔ ∃ p, renders s p x) as ->; [| tauto].
      rewrite list_elem_of_In, in_concat. split.
      + intros (l & Hl & Hin). apply in_map_iff in Hl as (p & <- & _). exists p. by apply childrenByParent_spec, list_elem_of_In.
      + intros (p & Hp). apply childrenByParent_spec in Hp. exists (kids children p). split; [| by apply list_elem_of_In].
        apply in_map_iff. exists p. split; [done |]. apply list_elem_of_In, elem_of_range, elem_of_dom. unfold kids in Hp. fold children in Hp.
        destruct (children !! p); [done | by apply elem_of_nil in Hp].
    - split; [done |]. intros x. rewrite Hx0'. tauto. }
  clearbody q1. clear q0 Hf0 Hx0.
  assert (∃ q2, (if bool_decide (Name root ≠ "") || bool_decide (Namespace root ≠ "") then expandChildren s intent children q1 else Some q1) = Some q2 ∧
    full q2 ∧ ∀ t, t ∈ q2.1 ↔ ∃ x, known x ∧ seeds s intent x = true ∧
      (if bool_decide (root.(Name) ≠ "" ∨ root.(Namespace) ≠ "") then rtc selects x t else x = t)) as (q2 & -> & Hf2 & Hx2).
  { rewrite <- bool_decide_or. destruct (bool_decide _).
    - destruct (expandChildren_spec children q1 Hf1) as (r & Hr & Hf & Hx). exists r. split; [done |]. split; [done |].
      intros t. rewrite Hx. setoid_rewrite Hx1. split; intros (x & H); exists x.
      all: assert (rtc (Closure.leads (down s intent children)) x t ↔ rtc selects x t) as Hrt by
        (apply rtc_iff; intros a b; unfold Closure.leads; rewrite elem_down; unfold selects, children; by rewrite childrenByParent_spec).
      all: rewrite Hrt in *; tauto.
    - exists q1. split; [done |]. split; [done |]. intros t. rewrite Hx1. split; [intros []; by exists t | by intros (x & ? & ? & ->)]. }
  cbn [mbind option_bind]. set (q3 := if _ && _ && _ then push q2 _ else q2).
  assert (full q3 ∧ ∀ t, t ∈ q3.1 ↔ t ∈ q2.1 ∨ t = sd_Producer s ∧ t ≠ no_resource ∧ restricted s = true ∧ side_Reconcile s t = true) as [Hf3 Hx3].
  { unfold q3. destruct (bool_decide_reflect (sd_Producer s ≠ no_resource)); cbn [andb]; [| split; [done | intros t; split; [by left | intros [? | (-> & ? & _)]; done]]].
    destruct (restricted s) eqn:Er; cbn [andb]; [| split; [done | intros t; split; [by left | by intros [? | (_ & _ & ? & _)]]]].
    destruct (side_Reconcile s (sd_Producer s)) eqn:Ec; [| split; [done | intros t; split; [by left | intros [? | (-> & _ & _ & ?)]; congruence]]].
    destruct (push_full q2 (sd_Producer s) Hf2) as [Hf Hx]. split; [done |]. intros t. rewrite Hx. split; [intros [? | ->]; tauto | tauto]. }
  clearbody q3.
  assert (∃ q4, match other with Some o => seedOther s o (sd_roots o) q3 | None => Some q3 end = Some q4 ∧ full q4 ∧ ∀ t, t ∈ q4.1 ↔ demanded other t)
    as (q4 & -> & Hf4 & Hx4).
  { unfold demanded. destruct other as [o |].
    - destruct (seedOther_spec o (sd_roots o) q3 Hf3) as (r & -> & Hf & Hx). exists r. split; [done |]. split; [done |]. intros t.
      rewrite Hx, Hx3, Hx2. split; [| intros [? | [? | (o' & id & [= <-] & Hid & H)]]; [tauto | tauto | right; by exists id]].
      intros [[? | ?] | (id & Hid & H)]; [tauto | tauto |]. right. right. by exists o, id.
    - exists q3. split; [done |]. split; [done |]. intros t. rewrite Hx3, Hx2. split; [tauto |]. by intros [? | [? | (? & ? & ? & _)]]; [tauto | tauto |]. }
  cbn [mbind option_bind]. destruct (expandPrerequisites_spec q4 Hf4) as (r & -> & Hx). exists r. split; [done |]. intros x. rewrite Hx.
  setoid_rewrite Hx4.
  assert (∀ t, rtc (Closure.leads (up s)) t x ↔ rtc needs t x) as Hrt; [| by setoid_rewrite Hrt].
  intros t. apply rtc_iff. intros a b. unfold Closure.leads, up, needs. rewrite elem_of_app.
  destruct (parentOf s a) as [p |]; cbn; [rewrite list_elem_of_singleton; naive_solver | rewrite elem_of_nil; naive_solver].
Qed.

End closure.

(** Claim C12: a restricted projection answers for exactly what its request needs.  The
    traversals terminate, and the closure holds an identity exactly when it is reached,
    through producers and required inputs, from one the request demands: a known identity
    the request matches, with what it renders when the roots name a resource or a
    namespace; the run's own producer when the decision reconciles it; or, in a comparison,
    the other run's selected roots and the first of their ancestors this run knows.
    Prerequisites are not expanded downwards, and the order in which maps are ranged over
    does not matter. *)
Theorem required_exact s intent other : ∃ r, requiredClosure s intent other = Some r ∧
  ∀ x, x ∈ r ↔ ∃ t, demanded s intent other t ∧ rtc (needs s) t x.
Proof. apply requiredClosure_spec. Qed.

End exact.

(** ** Unavailable ancestors *)

Section unavailable.
Context (run owner : side).

(** What the walk reads at [id]: the producer this run has for the entry of the owner. *)
Definition producer_at (id : NamedResource) : NamedResource :=
  if bool_decide (owner.(sd_Producer) = id) then actualProducer run owner.(sd_Key) else id.

Definition status_at (id : NamedResource) : StatusInfo := localStatus run (producer_at id).

Definition next_at (id : NamedResource) : option NamedResource :=
  parentOf (if bool_decide (producer_at id ≠ id) then run else owner) (producer_at id).

Notation memo := (gmap NamedResource StatusInfo).

(** The loop of [walkUnavailable]; its result is [unavailable] with the path and the memo
    at the break. *)
Definition walk_step (st : NamedResource * memo * list NamedResource)
    : NamedResource * memo * list NamedResource + StatusInfo * memo * list NamedResource :=
  let '(id, resolved, path) := st in
  match resolved !! id with
  | Some info => inr (info, resolved, path)
  | None =>
      let resolved := <[id := no_info]> resolved in
      let path := path ++ [id] in
      if IsUnavailable (status_at id) then inr (status_at id, resolved, path)
      else match next_at id with
           | None => inr (no_info, resolved, path)
           | Some parent => inl (parent, resolved, path)
           end
  end.

Definition walk_fuel : nat := S (S (size (owners run ∪ owners owner))).

Definition walkUnavailable (id : NamedResource) (resolved : memo) : option (StatusInfo * memo * list NamedResource) :=
  '(unavailable, resolved, path) ← loop walk_step walk_fuel (id, resolved, []);
  Some (unavailable, foldl (λ m parent, <[parent := unavailable]> m) resolved path, path).

(** [info] is the status of the first unavailable identity up from [id]. *)
Inductive blocked_by (info : StatusInfo) : NamedResource → Prop :=
  | blocked_here id : IsUnavailable (status_at id) = true → status_at id = info → blocked_by info id
  | blocked_above id parent : IsUnavailable (status_at id) = false → next_at id = Some parent →
      blocked_by info parent → blocked_by info id.

(** What [walkUnavailable] answers: that status, or none. *)
Definition availability (id : NamedResource) (info : StatusInfo) : Prop :=
  IsUnavailable info = true ∧ blocked_by info id ∨ info = no_info ∧ ∀ info', ¬ blocked_by info' id.

Definition memo_ok (m : memo) : Prop := map_Forall availability m.

Lemma blocked_det info info' id : blocked_by info id → blocked_by info' id → info = info'.
Proof.
  intros H. revert info'. induction H as [id Hu <- | id parent Hu Hn _ IH]; intros info' H'; destruct H' as [id Hu' <- | id parent' Hu' Hn' H']; try congruence.
  apply IH. by simplify_eq.
Qed.

Lemma blocked_unavailable info id : blocked_by info id → IsUnavailable info = true.
Proof. by induction 1 as [id Hu <- |]. Qed.

Lemma availability_fun id info info' : availability id info → availability id info' → info = info'.
Proof.
  intros [[Hu Hb] | [-> Hn]] [[Hu' Hb'] | [-> Hn']]; [by eapply blocked_det | by destruct (Hn' info) | by destruct (Hn info') | done].
Qed.

Lemma availability_above id parent info : IsUnavailable (status_at id) = false → next_at id = Some parent →
  availability parent info ↔ availability id info.
Proof.
  intros Hu Hn. assert (∀ i, blocked_by i id ↔ blocked_by i parent) as Hb.
  { intros i. split; [|by apply blocked_above]. intros H. destruct H as [id Hu' | id p _ Hn' H]; [congruence |]. by simplify_eq. }
  unfold availability. setoid_rewrite Hb. done.
Qed.

(** The walk: the path so far is a chain of available identities; the memo is the one it
    started with, with a zero entry for each of them. *)
Record walking (start : NamedResource) (m0 : memo) (st : NamedResource * memo * list NamedResource) : Prop := {
  wk_memo id : st.1.2 !! id = if decide (id ∈ st.2) then Some no_info else m0 !! id;
  wk_path id : id ∈ st.2 → IsUnavailable (status_at id) = false ∧ m0 !! id = None ∧ ∃ p, next_at id = Some p ∧ (p ∈ st.2 ∨ p = st.1.1);
  wk_chain info id : id ∈ st.2 → availability st.1.1 info → availability id info;
  wk_start : start ∈ st.2 ∨ start = st.1.1;
  wk_bound id : id ∈ st.2 ∨ id = st.1.1 → id = start ∨ id ∈ owners run ∪ owners owner;
}.

Lemma next_owner id p : next_at id = Some p → p ∈ owners run ∪ owners owner.
Proof.
  unfold next_at. intros H%parentOf_owner. rewrite elem_of_union.
  destruct (bool_decide (producer_at id ≠ id)); [by left | by right].
Qed.

Lemma closed_path start m0 id m path : walking start m0 (id, m, path) → id ∈ path → ∀ x info, x ∈ path → ¬ blocked_by info x.
Proof.
  intros Hw Hin x info Hx Hb. induction Hb as [y Hu _ | y p _ Hn _ IH].
  - destruct (wk_path _ _ _ Hw y Hx) as [? _]. congruence.
  - destruct (wk_path _ _ _ Hw y Hx) as (_ & _ & p' & Hp' & Hp''). cbn [fst snd] in Hp''. simplify_eq.
    apply IH. by destruct Hp'' as [| ->].
Qed.

Lemma memo_fill (m : memo) (path : list NamedResource) info id :
  foldl (λ m parent, <[parent := info]> m) m path !! id = if decide (id ∈ path) then Some info else m !! id.
Proof.
  clear hash range run owner Named.
  revert m. induction path as [| a path IH]; intros m; [by rewrite decide_False by apply not_elem_of_nil |]. cbn [foldl]. rewrite IH.
  destruct (decide (id = a)) as [-> | Hn].
  - rewrite (decide_True (P := a ∈ a :: path)) by (by left). rewrite fin_maps.lookup_insert_eq. by destruct (decide (a ∈ path)).
  - rewrite fin_maps.lookup_insert_ne by done. apply decide_ext. rewrite elem_of_cons. tauto.
Qed.

Lemma ascent_spec start m0 : memo_ok m0 → ∃ r, loop walk_step walk_fuel (start, m0, []) = Some r ∧
  availability start r.1.1 ∧ (∀ x, x ∈ r.2 → availability x r.1.1) ∧
  ∀ x, r.1.2 !! x = if decide (x ∈ r.2) then Some no_info else m0 !! x.
Proof.
  clear hash range.
  intros Hm0. set (U := {[start]} ∪ (owners run ∪ owners owner)).
  apply (loop_spec walk_step (λ st, walking start m0 st) (λ st, size (U ∖ list_to_set st.2))
    (λ r, availability start r.1.1 ∧ (∀ x, x ∈ r.2 → availability x r.1.1) ∧ ∀ x, r.1.2 !! x = if decide (x ∈ r.2) then Some no_info else m0 !! x)).
  - intros [[id m] path] st Hw. unfold walk_step. destruct (m !! id) as [info |] eqn:Em; [done |].
    destruct (IsUnavailable (status_at id)) eqn:Eu; [done |]. destruct (next_at id) as [p |] eqn:En; [| done]. intros [= <-].
    pose proof (wk_memo _ _ _ Hw id) as Hid. cbn [fst snd] in Hid. rewrite Em in Hid. destruct (decide (id ∈ path)) as [| Hni]; [done |].
    split.
    + destruct Hw as [Hm Hp Hc Hs Hb]. cbn [fst snd] in *. split; cbn [fst snd].
      * intros x. destruct (decide (x = id)) as [-> | Hx].
        -- rewrite fin_maps.lookup_insert_eq, decide_True; [done |]. rewrite elem_of_app, list_elem_of_singleton. by right.
        -- rewrite fin_maps.lookup_insert_ne, Hm by done. apply decide_ext. rewrite elem_of_app, list_elem_of_singleton. tauto.
      * intros x Hx. apply elem_of_app in Hx as [Hx | ->%list_elem_of_singleton].
        -- destruct (Hp x Hx) as (? & ? & p' & ? & Hp'). split; [done |]. split; [done |]. exists p'. split; [done |].
           left. rewrite elem_of_app, list_elem_of_singleton. destruct Hp'; tauto.
        -- split; [done |]. split; [done |]. exists p. split; [done |]. by right.
      * intros info x Hx Ha. assert (availability id info) as Hid' by (by apply (availability_above id p)).
        apply elem_of_app in Hx as [Hx | ->%list_elem_of_singleton]; [by apply Hc | done].
      * left. rewrite elem_of_app, list_elem_of_singleton. destruct Hs; tauto.
      * intros x [Hx | ->]; [| right; by eapply next_owner]. apply Hb. rewrite elem_of_app, list_elem_of_singleton in Hx. tauto.
    + cbn [snd]. rewrite list_to_set_app_L. cbn [list_to_set]. rewrite union_empty_r_L, (union_comm_L (list_to_set path)).
      rewrite <- (size_difference_push id U (list_to_set path)); [lia | | by rewrite elem_of_list_to_set].
      unfold U. rewrite elem_of_union, elem_of_singleton. apply (wk_bound _ _ _ Hw id). by right.
  - intros [[id m] path] r Hw. unfold walk_step.
    assert (∀ info, availability id info → availability start info ∧ ∀ x, x ∈ path → availability x info) as Hup.
    { intros info Ha. assert (∀ x, x ∈ path → availability x info) as Hx by (intros x Hx; by apply (wk_chain _ _ _ Hw)). split; [| done].
      destruct (wk_start _ _ _ Hw) as [Hs | ->]; [by apply Hx | done]. }
    destruct (m !! id) as [info |] eqn:Em.
    { intros [= <-]. cbn [fst snd]. pose proof (wk_memo _ _ _ Hw id) as Hid. cbn [fst snd] in Hid. rewrite Em in Hid.
      assert (availability id info) as Ha.
      { destruct (decide (id ∈ path)) as [Hin |]; [| by apply (Hm0 id)]. injection Hid as ->. right. split; [done |].
        intros info. by apply (closed_path start m0 id m path Hw Hin). }
      destruct (Hup info Ha) as [? ?]. split; [done |]. split; [done |]. intros x. apply (wk_memo _ _ _ Hw). }
    assert (∀ x, <[id := no_info]> m !! x = if decide (x ∈ path ++ [id]) then Some no_info else m0 !! x) as Hm'.
    { intros x. destruct (decide (x = id)) as [-> | Hx].
      - rewrite fin_maps.lookup_insert_eq, decide_True; [done |]. rewrite elem_of_app, list_elem_of_singleton. by right.
      - rewrite fin_maps.lookup_insert_ne by done. rewrite (wk_memo _ _ _ Hw). cbn [snd]. apply decide_ext. rewrite elem_of_app, list_elem_of_singleton. tauto. }
    assert (∀ info, availability id info → availability start info ∧ ∀ x, x ∈ path ++ [id] → availability x info) as Hup'.
    { intros info Ha. destruct (Hup info Ha) as [? ?]. split; [done |]. intros x Hx. apply elem_of_app in Hx as [? | ->%list_elem_of_singleton]; [by auto | done]. }
    destruct (IsUnavailable (status_at id)) eqn:Eu.
    { intros [= <-]. cbn [fst snd]. destruct (Hup' (status_at id)) as [? ?]; [| done]. left. split; [done |]. by apply blocked_here. }
    destruct (next_at id) as [p |] eqn:En; [done |]. intros [= <-]. cbn [fst snd]. destruct (Hup' no_info) as [? ?]; [| done].
    right. split; [done |]. intros info Hb. destruct Hb as [id Hu _ | id p _ Hn _]; congruence.
  - split; cbn [fst snd]; try by (intros; exfalso; eapply not_elem_of_nil).
    + intros x. by rewrite decide_False by apply not_elem_of_nil.
    + by right.
    + intros x [?%elem_of_nil | ->]; [done | by left].
  - unfold walk_fuel, U. cbn [snd list_to_set]. rewrite difference_empty_L, size_union_alt, size_singleton.
    pose proof (subseteq_size ((owners run ∪ owners owner) ∖ {[start]}) (owners run ∪ owners owner) ltac:(set_solver)). lia.
Qed.

(** Claim C13: the search for an unavailable ancestor ends, and whatever the memo of earlier
    searches held, it answers the status of the first unavailable identity on the way up,
    or no status when there is none, also when the ancestry is cyclic.  What it memoizes
    is right for every identity, so later searches may share it. *)
Theorem walkUnavailable_exact start m0 : memo_ok m0 →
  ∃ info m path, walkUnavailable start m0 = Some (info, m, path) ∧
    availability start info ∧ memo_ok m ∧ m0 ⊆ m.
Proof.
  intros Hm0. destruct (ascent_spec start m0 Hm0) as ([[info m] path] & E & Ha & Hp & Hm). unfold walkUnavailable. rewrite E.
  cbn [mbind option_bind fst snd] in *. exists info, (foldl (λ m parent, <[parent := info]> m) m path), path.
  assert (∀ x, foldl (λ m parent, <[parent := info]> m) m path !! x = if decide (x ∈ path) then Some info else m0 !! x) as Hl.
  { intros x. rewrite memo_fill, Hm. by destruct (decide (x ∈ path)). }
  split; [done |]. split; [done |]. split.
  - intros x i Hx. rewrite Hl in Hx. destruct (decide (x ∈ path)) as [Hin |]; [| by apply Hm0]. injection Hx as <-. by apply Hp.
  - apply map_subseteq_spec. intros x i Hx. rewrite Hl. destruct (decide (x ∈ path)) as [Hin |]; [| done].
    f_equal. by apply (availability_fun x); [apply Hp | apply Hm0].
Qed.

End unavailable.

(** ** Emissions *)

Section emissions.
Context {D : Type} (s : side).

(** An [EmissionFacts]: the emitter with its [DocumentScope], the reporting parent, and the
    documents with their identities. *)
Record EmissionFacts := mkEmissionFacts {
  em_Emitter : O; em_DocumentScope : bool; em_Parent : O; em_Documents : list (D * NamedResource);
}.

(** The documents committed membership admits, with the parent that reports each. *)
Definition admits_document (e : EmissionFacts) (d : D * NamedResource) : bool :=
  e.(em_DocumentScope) || side_Output s (Named e.(em_Emitter)) || side_Reconcile s d.2.

Definition collect_document (parent : O) (st : gmap NamedResource nat * list (O * list D)) (d : D)
    : gmap NamedResource nat * list (O * list D) :=
  let '(positions, batches) := st in
  let '(position, positions, batches) := match positions !! Named parent with
    | Some position => (position, positions, batches)
    | None => (length batches, <[Named parent := length batches]> positions, batches ++ [(parent, [])])
    end in
  (positions, alter (λ b, (b.1, b.2 ++ [d])) position batches).

Definition CollectEmissions (emissions : list EmissionFacts) : list (O * list D) :=
  (foldl (λ st e, foldl (λ st d, if admits_document e d then collect_document e.(em_Parent) st d.1 else st) st e.(em_Documents))
     (∅, []) emissions).2.

(** The admitted documents in order, each with its reporting parent. *)
Definition admitted (emissions : list EmissionFacts) : list (O * D) :=
  concat (map (λ e, map (λ d, (e.(em_Parent), d.1)) (filter (λ d, admits_document e d = true) e.(em_Documents))) emissions).

Definition documents_of (l : list (O * D)) (id : NamedResource) : list D :=
  map snd (filter (λ pd, Named pd.1 = id) l).

(** The parents in the order they first report a document. *)
Fixpoint first_parents (l : list (O * D)) (seen : list NamedResource) : list O :=
  match l with
  | [] => []
  | pd :: l => if decide (Named pd.1 ∈ seen) then first_parents l seen
               else pd.1 :: first_parents l (Named pd.1 :: seen)
  end.

Lemma first_parents_snoc l pd seen : first_parents (l ++ [pd]) seen =
  first_parents l seen ++ (if decide (Named pd.1 ∈ seen ∨ Named pd.1 ∈ map (Named ∘ fst) l) then [] else [pd.1]).
Proof.
  revert seen. induction l as [| a l IH]; intros seen.
  - cbn. destruct (decide (Named pd.1 ∈ seen)) as [H | H].
    + by rewrite decide_True by tauto.
    + rewrite decide_False; [done |]. rewrite elem_of_nil. tauto.
  - cbn [first_parents app map]. rewrite !IH. destruct (decide (Named a.1 ∈ seen)) as [H | H].
    + f_equal. apply decide_ext. rewrite elem_of_cons. cbn. split; [tauto |]. intros [? | [-> | ?]]; tauto.
    + cbn [app]. f_equal. f_equal. apply decide_ext. rewrite !elem_of_cons. cbn. tauto.
Qed.

Record collected (l : list (O * D)) (st : gmap NamedResource nat * list (O * list D)) : Prop := {
  co_batches : st.2 = map (λ p, (p, documents_of l (Named p))) (first_parents l []);
  co_position id i : st.1 !! id = Some i ↔ (Named ∘ fst) <$> st.2 !! i = Some id;
}.

Lemma first_parents_in l seen p : p ∈ first_parents l seen → Named p ∈ map (Named ∘ fst) l ∧ Named p ∉ seen.
Proof.
  revert seen. induction l as [| a l IH]; intros seen; cbn [first_parents map]; [by intros ?%elem_of_nil |].
  rewrite elem_of_cons. destruct (decide (Named a.1 ∈ seen)) as [Ha | Ha].
  - intros H%IH. tauto.
  - intros Hp. apply elem_of_cons in Hp as [-> | Hp%IH]; [by split; [left |] |]. rewrite elem_of_cons in Hp. tauto.
Qed.

Lemma in_first_parents l seen id : id ∈ map (Named ∘ fst) l → id ∉ seen → ∃ p, p ∈ first_parents l seen ∧ Named p = id.
Proof.
  revert seen. induction l as [| a l IH]; intros seen; cbn [first_parents map]; [by intros ?%elem_of_nil |].
  intros Hid Hs. destruct (decide (Named a.1 ∈ seen)) as [Ha | Ha].
  - apply elem_of_cons in Hid as [-> | Hid]; [done | by apply IH].
  - destruct (decide (id = Named a.1)) as [-> | Hne]; [exists a.1; split; [by left | done] |].
    apply elem_of_cons in Hid as [-> | Hid]; [done |].
    destruct (IH (Named a.1 :: seen) Hid) as (p & Hp & Hn); [rewrite elem_of_cons; tauto |]. exists p. split; [by right | done].
Qed.

Lemma documents_of_snoc l pd id :
  documents_of (l ++ [pd]) id = documents_of l id ++ (if decide (Named pd.1 = id) then [pd.2] else []).
Proof. unfold documents_of. rewrite filter_app, map_app. f_equal. rewrite filter_cons, filter_nil. by destruct (decide _). Qed.


Lemma documents_of_none l id : id ∉ map (Named ∘ fst) l → documents_of l id = [].
Proof.
  induction l as [| a l IH]; [done |]. cbn [map]. rewrite not_elem_of_cons. intros [Hne Hl]. unfold documents_of in *.
  rewrite filter_cons_False; [by apply IH | by intros <-].
Qed.

Lemma collected_position l st id : collected l st → st.1 !! id = None ↔ id ∉ map (Named ∘ fst) l.
Proof.
  intros [Hb Hp]. split.
  - intros Hn Hin. destruct (in_first_parents l [] id Hin) as (p & Hpf & <-); [by apply not_elem_of_nil |].
    apply list_elem_of_lookup in Hpf as [i Hi]. assert (st.1 !! Named p = Some i) as H; [| by rewrite Hn in H].
    apply Hp. by rewrite Hb, list_lookup_fmap, Hi.
  - intros Hni. destruct (st.1 !! id) as [i |] eqn:E; [| done]. apply Hp in E. rewrite Hb, list_lookup_fmap in E.
    destruct (first_parents l [] !! i) as [p |] eqn:Ei; [| done]. injection E as <-. destruct Hni.
    apply list_elem_of_lookup_2 in Ei. apply (proj1 (first_parents_in l [] p Ei)).
Qed.

Lemma collect_step l st parent d : collected l st → collected (l ++ [(parent, d)]) (collect_document parent st d).
Proof.
  intros Hc. pose proof (collected_position l st (Named parent) Hc) as Hnone. destruct Hc as [Hb Hp]. destruct st as [positions batches].
  cbn [fst snd] in *. unfold collect_document. destruct (positions !! Named parent) as [i |] eqn:Epos.
  - assert (Named parent ∈ map (Named ∘ fst) l) as Hin.
    { destruct (decide (Named parent ∈ map (Named ∘ fst) l)) as [| Hn]; [done |]. by apply Hnone in Hn. }
    pose proof (proj1 (Hp _ _) Epos) as Hi. split; cbn [fst snd].
    + rewrite first_parents_snoc. rewrite decide_True by (by right). rewrite app_nil_r. rewrite Hb in *.
      apply list_eq. intros j. rewrite list_lookup_fmap. destruct (decide (i = j)) as [<- | Hij].
      * rewrite list_lookup_alter_eq, list_lookup_fmap. rewrite list_lookup_fmap in Hi. destruct (first_parents l [] !! i) as [p |]; [| done].
        cbn in Hi |- *. injection Hi as Hi. rewrite documents_of_snoc. cbn [fst snd]. by rewrite decide_True by done.
      * rewrite list_lookup_alter_ne, list_lookup_fmap by done. destruct (first_parents l [] !! j) as [p |] eqn:Ej; [| done].
        cbn. rewrite documents_of_snoc. cbn [fst snd]. rewrite decide_False, app_nil_r; [done |]. intros Hn. destruct Hij.
        assert (positions !! Named p = Some j) as Hj by (apply Hp; by rewrite list_lookup_fmap, Ej). rewrite <- Hn in Hj. congruence.
    + intros id j. rewrite Hp. destruct (decide (i = j)) as [<- | Hij].
      * rewrite list_lookup_alter_eq. by destruct (batches !! i).
      * by rewrite list_lookup_alter_ne.
  - assert (Named parent ∉ map (Named ∘ fst) l) as Hin by (by apply Hnone).
    assert (alter (λ b : O * list D, (b.1, b.2 ++ [d])) (length batches) (batches ++ [(parent, [])]) = batches ++ [(parent, [d])]) as ->.
    { rewrite <- (Nat.add_0_r (length batches)) at 1. rewrite alter_app_r. done. }
    split; cbn [fst snd].
    + rewrite first_parents_snoc. rewrite decide_False by (rewrite elem_of_nil; tauto). rewrite map_app. cbn [map fst].
      rewrite documents_of_snoc, (documents_of_none l) by done. cbn [fst snd app]. rewrite decide_True by done. f_equal. rewrite Hb.
      apply map_ext_in. intros p Hpin. rewrite documents_of_snoc. cbn [fst snd]. rewrite decide_False, app_nil_r; [done |].
      intros Hn. apply Hin. rewrite Hn. by apply (first_parents_in l []), list_elem_of_In.
    + intros id j. destruct (decide (id = Named parent)) as [-> | Hne].
      * rewrite fin_maps.lookup_insert_eq. split; [intros [= <-]; rewrite list_lookup_middle by done; done |]. intros Hj.
        destruct (decide (j < length batches)) as [Hlt | Hge].
        -- rewrite lookup_app_l in Hj by done. apply Hp in Hj. congruence.
        -- apply not_lt in Hge. rewrite lookup_app_r in Hj by lia. destruct (j - length batches) eqn:Ej; [f_equal; lia | by destruct n].
      * rewrite fin_maps.lookup_insert_ne by done. rewrite Hp. destruct (decide (j < length batches)) as [Hlt | Hge].
        -- by rewrite lookup_app_l.
        -- apply not_lt in Hge. rewrite (lookup_ge_None_2 batches) by lia. split; [done |]. intros Hj. rewrite lookup_app_r in Hj by lia.
           destruct (j - length batches) as [| n]; [cbn in Hj; congruence | by destruct n].
Qed.

(** The emissions a projection collects are grouped by the parent that reports
    them, the parents in the order in which they first report an admitted document and
    each with exactly its admitted documents, in the order they were emitted. *)
Theorem CollectEmissions_exact emissions :
  CollectEmissions emissions =
    map (λ p, (p, documents_of (admitted emissions) (Named p))) (first_parents (admitted emissions) []).
Proof.
  unfold CollectEmissions. set (step := λ st e, _).
  enough (collected (admitted emissions) (foldl step (∅, []) emissions)) as [H _] by exact H.
  induction emissions as [| e es IH] using rev_ind; [by split; [| intros id i; cbn; rewrite lookup_empty, lookup_nil] |].
  rewrite foldl_snoc. unfold admitted. rewrite map_app, concat_app. cbn [map concat]. rewrite app_nil_r. fold (admitted es).
  revert IH. generalize (foldl step (∅, []) es) as st. generalize (admitted es) as l. unfold step.
  induction (em_Documents e) as [| d ds IHd]; intros l st Hc; [by rewrite filter_nil, app_nil_r |]. cbn [foldl]. rewrite filter_cons.
  destruct (admits_document e d) eqn:Ed.
  - rewrite decide_True by done. cbn [map]. rewrite (cons_middle _ l), (assoc_L (++)). by apply IHd, collect_step.
  - rewrite decide_False by done. by apply IHd.
Qed.

End emissions.
End scope.

(** ** A concrete comparison side

    [a] is declared by [b] and required [c]; [c] failed. *)
Definition w_hash (id : NamedResource) : N := 0.
Definition w_record (parent : NamedResource) : DiscoveryRecord := Membership.mkRecord [] no_resource "" "" no_resource parent.
Definition w_side : side (O := NamedResource) :=
  mkSide (Membership.mkStore ∅ ∅ ∅ ∅ ∅ None ∅) (StoreStatus.mkStore ∅ ∅ ∅)
    {[w_id "a" := (true, [(w_id "c", true); (w_id "d", false)])]} (Some {[w_id "a" := w_record (w_id "b")]})
    ∅ None no_resource no_resource {[w_id "c" := mkInfo StatusFailed "Failed" "" None 0]} [w_id "a"] None.
Definition w_intent : Request := mkRequest [mkResource "g" "Kustomization" "" "a"] false ∅.

Example required_exact_witness :
  ∃ r, requiredClosure id w_hash elements w_side w_intent None = Some r ∧ w_id "b" ∈ r ∧ w_id "c" ∈ r.
Proof.
  destruct (required_exact id w_hash elements (λ X, Permutation_refl _) w_side w_intent None) as (r & E & Hr).
  assert (demanded id w_hash w_side w_intent None (w_id "a")) as Hd.
  { left. exists (w_id "a"). split; [left; by left |]. split; [by vm_compute |].
    destruct (bool_decide _); [apply rtc_refl | done]. }
  exists r. split; [done |]. split; apply Hr; exists (w_id "a"); (split; [done |]); apply rtc_once.
  - left. by vm_compute.
  - right. by left.
Defined.

Example walkUnavailable_exact_witness :
  ∃ info m path, walkUnavailable id w_side w_side (w_id "c") {[w_id "b" := no_info]} = Some (info, m, path) ∧ i_Status info = StatusFailed.
Proof.
  destruct (walkUnavailable_exact id w_side w_side (w_id "c") {[w_id "b" := no_info]}) as (info & m & path & E & Ha & _ & _).
  { intros i x Hx. apply lookup_singleton_Some in Hx as [<- <-]. right. split; [done |]. intros info H.
    assert (IsUnavailable (status_at w_side w_side (w_id "b")) = false) as Hu by by vm_compute.
    assert (next_at id w_side w_side (w_id "b") = None) as Hn by by vm_compute.
    inversion H; congruence. }
  exists info, m, path. split; [done |].
  destruct Ha as [[_ Hb] | [_ Hn]].
  - inversion Hb as [? _ <- | ? ? Hu]; [done | discriminate Hu].
  - exfalso. apply (Hn (mkInfo StatusFailed "Failed" "" None 0)). apply blocked_here; by vm_compute.
Defined.
