(* ===== verification/Static.v ===== *)
(** Static membership: src/pkg/selection/static.go, over the storage of
    src/pkg/loader/scope_eligibility.go.

    Before anything is rendered, the files of a repository are classified by the graphs
    that visit them: an owner that is eligible raises the files it reaches.  Owners share
    physical walks, whose contexts remember what they were raised to.  The facts a scope
    answers (claims, index records, directory files) are a record; what [read] does for
    the caller does not change them, and the caller completes every read. *)

From S2P Require Import Prelude GoPath Resource.

Inductive RootEligibility := RootUnknown | RootInactive | RootEligible | RootIndependent.

#[export] Instance RootEligibility_eq_dec : EqDecision RootEligibility.
Proof. solve_decision. Defined.

Definition rank (e : RootEligibility) : nat :=
  match e with RootUnknown => 0 | RootInactive => 1 | RootEligible => 2 | RootIndependent => 3 end.

Record StaticFile := mkFile { Loaded : bool; ObjectsKnown : bool; HasObjects : bool }.

Record StaticVisit := mkVisit {
  File : string; LocalFile : string; Origin : string; v_Dir : string; Resource : bool;
}.

(** A [StaticContribution] with its visits, the walk it shares and the input it belongs to. *)
Record StaticContribution := mkContribution {
  c_Owner : NamedResource; c_Source : NamedResource; Visits : list StaticVisit;
  Unshared : bool; MembershipOnly : bool; context : nat; input : option nat;
}.

Record StaticTraversal := mkTraversal { Reached : RootEligibility; Controlled : bool }.

Definition no_traversal : StaticTraversal := mkTraversal RootUnknown false.

Record KSClaim := mkClaim { Prefix : string; ID : NamedResource }.

(** The facts of a [staticScope]. *)
Record staticScope := mkScope {
  Document : string → StaticFile;
  PlainEntry : string;
  Terminal : string → bool;
  DirectoryFile : string → string;
  Coordinate : string → string;
  Claims : list KSClaim;
  Owner : NamedResource → string * bool;
  Replaced : NamedResource → bool;
  Declared : NamedResource → bool;
  Contributions : list StaticContribution;
  Inputs : nat;
}.

(** What the reduction writes. *)
Record reduction := mkReduction {
  eligibility : gmap string RootEligibility;
  walks : gmap nat StaticTraversal;
  active : gmap nat bool;
  input_active : gmap nat bool;
  inactive : bool;
}.

Definition Eligibility (r : reduction) (file : string) : RootEligibility := default RootUnknown (r.(eligibility) !! file).

Definition SetEligibility (file : string) (state : RootEligibility) (r : reduction) : reduction :=
  mkReduction (<[file := state]> r.(eligibility)) r.(walks) r.(active) r.(input_active) r.(inactive).

Definition Traversal (r : reduction) (c : StaticContribution) : StaticTraversal := default no_traversal (r.(walks) !! c.(context)).

Definition SetTraversal (c : StaticContribution) (t : StaticTraversal) (r : reduction) : reduction :=
  mkReduction r.(eligibility) (<[c.(context) := t]> r.(walks)) r.(active) r.(input_active) r.(inactive).

Definition SetActive (i : nat) (c : StaticContribution) (b : bool) (r : reduction) : reduction :=
  mkReduction r.(eligibility) r.(walks) (<[i := b]> r.(active))
    (match c.(input) with Some k => <[k := b]> r.(input_active) | None => r.(input_active) end) r.(inactive).

Definition ResetStatic (r : reduction) : reduction := mkReduction ∅ ∅ r.(active) r.(input_active) r.(inactive).

Section static.
Context (scope : staticScope).

Definition markFile (r : reduction) (file : string) (state : RootEligibility) : bool * reduction :=
  if rank state <=? rank (Eligibility r file) then (false, r) else (true, SetEligibility file state r).

(** The files one resource visit marks. *)
Definition marked (v : StaticVisit) : list string := v.(File) :: (if bool_decide (v.(LocalFile) = "") then [] else [v.(LocalFile)]).

Definition mark_all (state : RootEligibility) (st : bool * reduction) (file : string) : bool * reduction :=
  let '(b, r) := markFile st.2 file state in (b || st.1, r).

Definition owner_visit (owner : string) (v : StaticVisit) : bool :=
  bool_decide (owner = v.(File)) || bool_decide (v.(Origin) ≠ "") && bool_decide (owner = v.(Origin)).

(** One visit of [controlContribution]; the flag is [controlled]. *)
Definition control_visit (c : StaticContribution) (owner : string) (declared : bool) (st : bool * reduction) (v : StaticVisit)
    : bool * reduction :=
  let '(controlled, r) := st in
  if negb v.(Resource) then (controlled, (markFile r v.(File) RootInactive).2)
  else if bool_decide (c.(c_Owner) = no_resource) || declared || owner_visit owner v then (false, r)
  else (controlled, (foldl (mark_all RootInactive) (false, r) (marked v)).2).

Definition controlContribution (r : reduction) (c : StaticContribution) : reduction :=
  let traversal := Traversal r c in
  if negb c.(Unshared) && traversal.(Controlled) then r
  else
    let owner := (scope.(Owner) c.(c_Owner)).1 in
    let declared := c.(MembershipOnly) && scope.(Declared) c.(c_Source) in
    let controlled := negb (bool_decide (c.(c_Owner) = no_resource)) && negb declared in
    let '(controlled, r) := foldl (control_visit c owner declared) (controlled, r) c.(Visits) in
    if controlled && negb c.(Unshared) then SetTraversal c (mkTraversal traversal.(Reached) true) r else r.

(** One file of [seedFiles]. *)
Definition seed_state (file : string) : RootEligibility :=
  if existsb (λ claim, HasPrefix (scope.(Coordinate) file) claim.(Prefix) &&
                       negb (bool_decide ((scope.(Owner) claim.(ID)).1 = file))) scope.(Claims)
  then RootInactive else RootEligible.

Definition seed_file (r : reduction) (file : string) : reduction :=
  let doc := scope.(Document) file in
  if bool_decide (scope.(PlainEntry) ≠ "") && bool_decide (Dir file = scope.(PlainEntry)) && doc.(Loaded) &&
     negb (scope.(Terminal) file)
  then (markFile r file RootEligible).2
  else if negb (bool_decide (Eligibility r file = RootUnknown)) || negb doc.(ObjectsKnown) then r
  else if negb (bool_decide (scope.(DirectoryFile) (Dir file) = "")) || scope.(Terminal) file then r
  else (markFile r file (seed_state file)).2.

(** The directories [seedFiles] yields to its caller. *)
Definition seed_read (r : reduction) (file : string) : list string :=
  let doc := scope.(Document) file in
  if bool_decide (scope.(PlainEntry) ≠ "") && bool_decide (Dir file = scope.(PlainEntry)) && doc.(Loaded) &&
     negb (scope.(Terminal) file) || negb (bool_decide (Eligibility r file = RootUnknown)) || negb doc.(ObjectsKnown)
  then [] else [Dir file].

Definition owner_enabled (r : reduction) (owner : string) : bool :=
  bool_decide (owner = "") || (2 <=? rank (Eligibility r owner)).

(** [contributionClaims] of a contribution with visits: the claims over its directory. *)
Definition covering_claims (c : StaticContribution) : list KSClaim :=
  filter (λ claim, HasPrefix (match c.(Visits) with v :: _ => v.(v_Dir) | [] => "" end +:+ "/") claim.(Prefix) = true) scope.(Claims).

Definition contributionClaims (r : reduction) (c : StaticContribution) : bool * bool :=
  let claims := covering_claims c in
  (negb (bool_decide (claims = [])), existsb (λ claim, owner_enabled r (scope.(Owner) claim.(ID)).1) claims).

Definition ownerless (c : StaticContribution) : bool :=
  bool_decide (c.(c_Owner) = no_resource) && negb c.(MembershipOnly) && negb (bool_decide (c.(Visits) = [])).

Definition propagateContribution (r : reduction) (ic : nat * StaticContribution) : bool * reduction :=
  let '(i, c) := ic in
  let '(owner, indexed) := scope.(Owner) c.(c_Owner) in
  let ownerEligible := negb indexed || owner_enabled r owner in
  let is_active := bool_decide (c.(c_Owner) = no_resource) || ownerEligible || scope.(Replaced) c.(c_Owner) in
  let '(is_active, unowned) :=
    if ownerless c then let '(claimed, enabled) := contributionClaims r c in (negb claimed || enabled, negb claimed)
    else (is_active, false) in
  let r := SetActive i c is_active r in
  if negb is_active then (false, r)
  else
    let reach := if unowned then RootIndependent else RootEligible in
    let traversal := Traversal r c in
    if negb c.(Unshared) && (rank reach <=? rank traversal.(Reached)) then (false, r)
    else
      let r := if c.(Unshared) then r else SetTraversal c (mkTraversal reach traversal.(Controlled)) r in
      foldl (λ st v, if v.(Resource) then foldl (mark_all reach) st (marked v) else st) (false, r) c.(Visits).

Definition propagate_all (r : reduction) : bool * reduction :=
  foldl (λ st ic, let '(b, r) := propagateContribution st.2 ic in (b || st.1, r)) (false, r)
    (zip (seq 0 (length scope.(Contributions))) scope.(Contributions)).

Definition propagate_step (r : reduction) : reduction + reduction :=
  let '(changed, r) := propagate_all r in if changed then inl r else inr r.

(** What a contribution can raise, for the fuel of the loop: each turn but the last raises one
    of these files, and a file is raised at most three times. *)
Definition reachable_files : gset string :=
  list_to_set (concat (map (λ c, concat (map marked c.(Visits))) scope.(Contributions))).

Definition propagate (r : reduction) : option reduction := loop propagate_step (3 * size reachable_files) r.

Definition finish_file (r : reduction) (file : string) : reduction :=
  if bool_decide (Eligibility r file = RootUnknown) && (scope.(Document) file).(HasObjects)
  then (markFile r file RootInactive).2 else r.

Definition InputActive (r : reduction) (i : nat) : bool := default false (r.(input_active) !! i).

Definition finishStatic (order : list string) (r : reduction) : reduction :=
  let r := mkReduction r.(eligibility) r.(walks) r.(active) r.(input_active)
             (existsb (λ i, negb (InputActive r i)) (seq 0 scope.(Inputs))) in
  foldl finish_file r order.

(** [ReduceStatic]; the orders are those in which the two loops range over the files. *)
Definition ReduceStatic (order order' : list string) (r : reduction) : option reduction :=
  let r := foldl controlContribution (ResetStatic r) scope.(Contributions) in
  let r := foldl seed_file r order in
  r ← propagate r;
  Some (finishStatic order' r).

End static.

(** ** Marks *)

Definition max_e (a b : RootEligibility) : RootEligibility := if rank a <=? rank b then b else a.

Lemma rank_max a b : rank (max_e a b) = Nat.max (rank a) (rank b).
Proof. unfold max_e. destruct (Nat.leb_spec (rank a) (rank b)); lia. Qed.

Lemma rank_inj a b : rank a = rank b → a = b.
Proof. by destruct a, b. Qed.

Lemma max_same a b : rank a ≤ rank b → max_e a b = b.
Proof. unfold max_e. destruct (Nat.leb_spec (rank a) (rank b)); [done | lia]. Qed.

Lemma Eligibility_Set f g e r : Eligibility (SetEligibility f e r) g = if decide (g = f) then e else Eligibility r g.
Proof.
  unfold Eligibility, SetEligibility. cbn [eligibility]. destruct (decide (g = f)) as [-> | Hn].
  - by rewrite lookup_insert_eq.
  - by rewrite lookup_insert_ne.
Qed.

(** What a step leaves alone besides eligibilities. *)
Definition same_rest (r r' : reduction) : Prop :=
  walks r' = walks r ∧ active r' = active r ∧ input_active r' = input_active r ∧ inactive r' = inactive r.

#[global] Instance same_rest_trans : Transitive same_rest.
Proof. intros r1 r2 r3 (?&?&?&?) (?&?&?&?). unfold same_rest. repeat split; congruence. Qed.

Lemma markFile_spec r f e : let '(b, r') := markFile r f e in
  b = bool_decide (rank (Eligibility r f) < rank e) ∧ same_rest r r' ∧
  ∀ g, Eligibility r' g = if decide (g = f) then max_e e (Eligibility r g) else Eligibility r g.
Proof.
  unfold markFile. destruct (Nat.leb_spec (rank e) (rank (Eligibility r f))) as [H | H].
  - split; [by rewrite bool_decide_false by lia |]. split; [by repeat split |].
    intros g. destruct (decide (g = f)) as [-> |]; [by rewrite max_same | done].
  - split; [by rewrite bool_decide_true by lia |]. split; [by repeat split |]. intros g. rewrite Eligibility_Set.
    destruct (decide (g = f)) as [-> |]; [| done]. unfold max_e. by destruct (Nat.leb_spec (rank e) (rank (Eligibility r f))); [lia |].
Qed.

Lemma marks_spec e l b r : let '(b', r') := foldl (mark_all e) (b, r) l in
  b' = b || bool_decide (Exists (λ f, rank (Eligibility r f) < rank e) l) ∧ same_rest r r' ∧
  ∀ g, Eligibility r' g = if decide (g ∈ l) then max_e e (Eligibility r g) else Eligibility r g.
Proof.
  revert b r. induction l as [| f l IH]; intros b r.
  { cbn [foldl]. split; [rewrite bool_decide_false, orb_false_r; [done | by intros H%Exists_nil] |]. split; [by repeat split |].
    intros g. by rewrite decide_False by apply not_elem_of_nil. }
  cbn [foldl]. unfold mark_all at 2. cbn [fst snd]. pose proof (markFile_spec r f e) as Hm. destruct (markFile r f e) as [b1 r1].
  destruct Hm as (-> & Hs1 & He1). specialize (IH (bool_decide (rank (Eligibility r f) < rank e) || b) r1).
  destruct (foldl (mark_all e) _ l) as [b' r']. destruct IH as (-> & Hs & He). split; [| split; [by etrans |]].
  - rewrite (orb_comm (bool_decide _) b), <- orb_assoc, <- bool_decide_or. f_equal. apply bool_decide_ext. split.
    + rewrite Exists_cons. intros [H | H]; [by left |]. destruct (decide (rank (Eligibility r f) < rank e)); [by left | right].
      eapply Exists_impl; [exact H |]. intros g Hg. cbn in Hg |- *. rewrite He1 in Hg. destruct (decide (g = f)) as [-> |]; [rewrite rank_max in Hg; lia | done].
    + rewrite Exists_cons. destruct (decide (rank (Eligibility r f) < rank e)) as [| Hge]; [by left | intros [? | H]; [done | right]].
      eapply Exists_impl; [exact H |]. intros g Hg. cbn in Hg |- *. rewrite He1. destruct (decide (g = f)) as [-> |]; [done | done].
  - intros g. rewrite He, He1. destruct (decide (g = f)) as [-> | Hn].
    + rewrite (decide_True (P := f ∈ f :: l)) by by left. destruct (decide (f ∈ l)); [| done]. rewrite max_same; [done |]. rewrite rank_max. lia.
    + destruct (decide (g ∈ l)); [by rewrite decide_True by by right |]. rewrite decide_False; [done |]. rewrite elem_of_cons. tauto.
Qed.

(** The files a contribution can mark. *)
Definition marks (c : StaticContribution) : list string :=
  concat (map (λ v, if v.(Resource) then marked v else []) c.(Visits)).

Lemma visits_marks e c st :
  foldl (λ st v, if v.(Resource) then foldl (mark_all e) st (marked v) else st) st c.(Visits) = foldl (mark_all e) st (marks c).
Proof.
  unfold marks. generalize (Visits c) as vs. intros vs. revert st. induction vs as [| v vs IH]; intros st; [done |].
  cbn [foldl map concat]. rewrite foldl_app, IH. by destruct (Resource v).
Qed.

(** ** Propagation *)

Section propagation.
Context (scope : staticScope).

(** Contributions that share a walk visit the same files. *)
Definition shares : Prop := ∀ c c', c ∈ scope.(Contributions) → c' ∈ scope.(Contributions) →
  c.(Unshared) = false → c'.(Unshared) = false → c.(context) = c'.(context) → c.(Visits) = c'.(Visits).

Context (Hshares : shares).

Definition unowned (c : StaticContribution) : bool := ownerless c && bool_decide (covering_claims scope c = []).
Definition reach (c : StaticContribution) : RootEligibility := if unowned c then RootIndependent else RootEligible.

(** Whether a contribution is active, with the owners [E] finds eligible. *)
Definition is_active (E : string → RootEligibility) (c : StaticContribution) : Prop :=
  let enabled owner := owner = "" ∨ 2 ≤ rank (E owner) in
  if ownerless c then covering_claims scope c = [] ∨ ∃ claim, claim ∈ covering_claims scope c ∧ enabled (scope.(Owner) claim.(ID)).1
  else c.(c_Owner) = no_resource ∨ (scope.(Owner) c.(c_Owner)).2 = false ∨ enabled (scope.(Owner) c.(c_Owner)).1 ∨
       scope.(Replaced) c.(c_Owner) = true.

#[global] Instance is_active_dec E c : Decision (is_active E c).
Proof.
  unfold is_active. destruct (ownerless c).
  - destruct (decide (covering_claims scope c = [])); [left; by left |].
    destruct (decide (Exists (λ claim, (scope.(Owner) claim.(ID)).1 = "" ∨ 2 ≤ rank (E (scope.(Owner) claim.(ID)).1)) (covering_claims scope c))) as [H | H].
    + left. right. by apply Exists_exists in H.
    + right. intros [? | ?]; [done |]. apply H. by apply Exists_exists.
  - apply _.
Defined.

(** Recorded walks are not ahead of the files they visit. *)
Definition walks_ok (r : reduction) : Prop := ∀ c f, c ∈ scope.(Contributions) → c.(Unshared) = false → f ∈ marks c →
  rank (Reached (Traversal r c)) ≤ rank (Eligibility r f).

Lemma enabled_spec r owner : owner_enabled r owner = true ↔ owner = "" ∨ 2 ≤ rank (Eligibility r owner).
Proof. unfold owner_enabled. by rewrite orb_true_iff, bool_decide_eq_true, Nat.leb_le. Qed.

Lemma contribution_spec r i c : c ∈ scope.(Contributions) → walks_ok r →
  let '(b, r') := propagateContribution scope r (i, c) in
  walks_ok r' ∧ active r' = <[i := bool_decide (is_active (Eligibility r) c)]> (active r) ∧
  (∀ g, Eligibility r' g = if decide (is_active (Eligibility r) c ∧ g ∈ marks c) then max_e (reach c) (Eligibility r g) else Eligibility r g) ∧
  (b = true ↔ is_active (Eligibility r) c ∧ ∃ f, f ∈ marks c ∧ rank (Eligibility r f) < rank (reach c)).
Proof.
  intros Hc Hw. unfold propagateContribution. destruct (Owner scope (c_Owner c)) as [owner indexed] eqn:Eo.
  set (act := if ownerless c then _ else _).
  assert (∃ a, act = (a, unowned c) ∧ (a = true ↔ is_active (Eligibility r) c)) as (a & -> & Ha).
  { unfold act, is_active, unowned, contributionClaims. rewrite Eo. cbn [fst snd]. destruct (ownerless c); cbn [andb].
    - rewrite negb_involutive. eexists. split; [reflexivity |]. rewrite orb_true_iff, bool_decide_eq_true, existsb_exists.
      setoid_rewrite list_elem_of_In. by setoid_rewrite enabled_spec.
    - eexists. split; [reflexivity |]. rewrite !orb_true_iff, bool_decide_eq_true, negb_true_iff, enabled_spec. tauto. }
  set (r1 := SetActive i c a r).
  assert (active r1 = <[i := bool_decide (is_active (Eligibility r) c)]> (active r)) as Hact.
  { cbn. f_equal. destruct a; symmetry; [by apply bool_decide_eq_true, Ha | apply bool_decide_eq_false]. intros H%Ha. done. }
  assert (∀ g, Eligibility r1 g = Eligibility r g) as He1 by done.
  assert (∀ c', Traversal r1 c' = Traversal r c') as Ht1 by done.
  destruct a; cbn [negb].
  2: { assert (¬ is_active (Eligibility r) c) as Hn by (intros H%Ha; done). split; [done |]. split; [done |]. split; [| by split; [| intros []]].
       intros g. rewrite decide_False by tauto. done. }
  assert (is_active (Eligibility r) c) as Hy by (by apply Ha). fold (reach c). clearbody r1.
  destruct (negb (Unshared c) && (rank (reach c) <=? rank (Reached (Traversal r1 c)))) eqn:Eg.
  - apply andb_true_iff in Eg as [Hu%negb_true_iff Hle%Nat.leb_le]. rewrite Ht1 in Hle.
    assert (∀ f, f ∈ marks c → rank (reach c) ≤ rank (Eligibility r f)) as Hge.
    { intros f Hf. specialize (Hw c f Hc Hu Hf). lia. }
    split; [intros c' f; rewrite Ht1, He1; apply Hw |]. split; [done |]. split.
    + intros g. rewrite He1. destruct (decide _) as [[_ Hg] |]; [| done]. by rewrite max_same by auto.
    + split; [done |]. intros [_ (f & Hf & Hlt)]. specialize (Hge f Hf). lia.
  - set (r2 := if Unshared c then r1 else _). rewrite visits_marks. pose proof (marks_spec (reach c) (marks c) false r2) as Hm.
    destruct (foldl (mark_all (reach c)) (false, r2) (marks c)) as [b r']. destruct Hm as (-> & (Hwk & Hak & _ & _) & He). cbn [orb].
    assert (∀ g, Eligibility r2 g = Eligibility r g) as He2 by (intros g; unfold r2; destruct (Unshared c); apply He1).
    assert (active r2 = active r1) as Ha2 by (unfold r2; by destruct (Unshared c)).
    split; [| split; [by rewrite Hak, Ha2 | split]].
    + intros c' f Hc' Hu' Hf. unfold Traversal. rewrite Hwk, He, He2.
      assert (rank (Reached (Traversal r c')) ≤ rank (Eligibility r f)) as Hold by (by apply Hw).
      assert (rank (Eligibility r f) ≤ rank (if decide (f ∈ marks c) then max_e (reach c) (Eligibility r f) else Eligibility r f)) as Hup.
      { destruct (decide _); [rewrite rank_max |]; lia. }
      unfold r2. destruct (Unshared c) eqn:Hu; [fold (Traversal r1 c'); rewrite Ht1; lia |]. cbn [walks SetTraversal].
      destruct (decide (context c' = context c)) as [Hx | Hx].
      * rewrite Hx, lookup_insert_eq. change (default no_traversal (Some ?t)) with t. cbn [Reached].
        assert (f ∈ marks c) as Hfc by (unfold marks in *; by rewrite (Hshares c c')).
        rewrite decide_True, rank_max by done. lia.
      * rewrite lookup_insert_ne by done. fold (Traversal r1 c'). rewrite Ht1. lia.
    + intros g. rewrite He, He2. apply decide_ext. tauto.
    + rewrite bool_decide_eq_true, Exists_exists. setoid_rewrite He2. tauto.
Qed.

(** What files earn, from a base: the least eligibility the active contributions allow. *)
Inductive earns (base : string → RootEligibility) : string → RootEligibility → Prop :=
  | earns_base f : earns base f (base f)
  | earns_claimed c f : c ∈ scope.(Contributions) → ownerless c = true → f ∈ marks c →
      (covering_claims scope c = [] ∨ ∃ claim, claim ∈ covering_claims scope c ∧
         ((scope.(Owner) claim.(ID)).1 = "" ∨ ∃ e, earns base (scope.(Owner) claim.(ID)).1 e ∧ 2 ≤ rank e)) →
      earns base f (reach c)
  | earns_owned c f : c ∈ scope.(Contributions) → ownerless c = false → f ∈ marks c →
      (c.(c_Owner) = no_resource ∨ (scope.(Owner) c.(c_Owner)).2 = false ∨ (scope.(Owner) c.(c_Owner)).1 = "" ∨
       scope.(Replaced) c.(c_Owner) = true ∨ ∃ e, earns base (scope.(Owner) c.(c_Owner)).1 e ∧ 2 ≤ rank e) →
      earns base f (reach c).

Lemma earns_active base E c f : c ∈ scope.(Contributions) → f ∈ marks c → (∀ g, earns base g (E g)) → is_active E c → earns base f (reach c).
Proof.
  intros Hc Hf HE Ha. unfold is_active in Ha. destruct (ownerless c) eqn:Eo.
  - eapply earns_claimed; [done.. |]. destruct Ha as [? | (claim & Hin & [? | ?])]; [by left | right; exists claim; split; [done | by left] |].
    right. exists claim. split; [done |]. right. by exists (E (Owner scope (ID claim)).1).
  - eapply earns_owned; [done.. |]. destruct Ha as [? | [? | [[? | ?] | ?]]]; [tauto | tauto | tauto | | tauto].
    do 4 right. by exists (E (Owner scope (c_Owner c)).1).
Qed.

(** [E] is the least eligibility above [base] the contributions leave unchanged. *)
Definition settled (base E : string → RootEligibility) : Prop :=
  (∀ f, earns base f (E f)) ∧ ∀ f e, earns base f e → rank e ≤ rank (E f).

Lemma settled_closed base E : (∀ f, earns base f (E f)) → (∀ f, rank (base f) ≤ rank (E f)) →
  (∀ c f, c ∈ scope.(Contributions) → is_active E c → f ∈ marks c → rank (reach c) ≤ rank (E f)) → settled base E.
Proof.
  intros He Hb Hc. split; [done |]. fix IH 3. intros f e H. destruct H as [f | c f Hin Ho Hf Ha | c f Hin Ho Hf Ha]; [apply Hb | |].
  - apply Hc; [done | | done]. unfold is_active. rewrite Ho. destruct Ha as [? | (claim & Hcl & [? | (e & Hearn & Hr)])]; [by left | right; exists claim; split; [done | by left] |].
    right. exists claim. split; [done |]. right. specialize (IH _ _ Hearn). lia.
  - apply Hc; [done | | done]. unfold is_active. rewrite Ho. destruct Ha as [? | [? | [? | [? | (e & Hearn & Hr)]]]]; [tauto.. |].
    right. right. left. right. specialize (IH _ _ Hearn). lia.
Qed.

(** The measure of the loop: how far the reachable files can still be raised. *)
Definition headroom (r : reduction) : nat :=
  sum_list_with (λ f, 3 - rank (Eligibility r f)) (elements (reachable_files scope)).

Lemma headroom_le r r' : (∀ f, rank (Eligibility r f) ≤ rank (Eligibility r' f)) → headroom r' ≤ headroom r.
Proof.
  intros H. unfold headroom. induction (elements (reachable_files scope)) as [| f l IH]; [done |]. cbn. specialize (H f). lia.
Qed.

Lemma headroom_lt r r' f : (∀ f, rank (Eligibility r f) ≤ rank (Eligibility r' f)) → f ∈ reachable_files scope →
  rank (Eligibility r f) < rank (Eligibility r' f) → headroom r' < headroom r.
Proof.
  intros H Hf Hlt. apply elem_of_elements in Hf. unfold headroom.
  assert (∀ f, rank (Eligibility r' f) ≤ 3) as H3 by (intros g; destruct (Eligibility r' g); cbn; lia).
  induction (elements (reachable_files scope)) as [| g l IH]; [by apply elem_of_nil in Hf |]. cbn. apply elem_of_cons in Hf as [-> | Hf].
  - pose proof (H3 g). assert (sum_list_with (λ f, 3 - rank (Eligibility r' f)) l ≤ sum_list_with (λ f, 3 - rank (Eligibility r f)) l); [| lia].
    clear -H. induction l as [| x l IH]; [done |]. cbn. specialize (H x). lia.
  - specialize (IH Hf). specialize (H g). lia.
Qed.

Lemma marks_reachable c f : c ∈ scope.(Contributions) → f ∈ marks c → f ∈ reachable_files scope.
Proof.
  intros Hc Hf. unfold reachable_files. apply elem_of_list_to_set, list_elem_of_In, in_concat.
  apply list_elem_of_In, in_concat in Hf as (l & Hl & Hf). apply in_map_iff in Hl as (v & <- & Hv).
  destruct (Resource v); [| done]. eexists. split; [apply in_map_iff; exists c; split; [reflexivity | by apply list_elem_of_In] |].
  apply in_concat. exists (marked v). split; [by apply in_map | done].
Qed.

(** A turn over all contributions. *)
Record turned (base : string → RootEligibility) (r0 : reduction) (n : nat) (st : bool * reduction) : Prop := {
  t_walks : walks_ok st.2;
  t_earned f : earns base f (Eligibility st.2 f);
  t_up f : rank (Eligibility r0 f) ≤ rank (Eligibility st.2 f);
  t_changed : st.1 = true → headroom st.2 < headroom r0;
  t_same : st.1 = false → ∀ f, Eligibility st.2 f = Eligibility r0 f;
  t_closed c f i : st.1 = false → scope.(Contributions) !! i = Some c → i < n → is_active (Eligibility r0) c → f ∈ marks c →
    rank (reach c) ≤ rank (Eligibility r0 f);
  t_active c i : st.1 = false → scope.(Contributions) !! i = Some c → i < n →
    active st.2 !! i = Some (bool_decide (is_active (Eligibility r0) c));
}.

Lemma is_active_ext E E' c : (∀ f, E f = E' f) → is_active E c ↔ is_active E' c.
Proof. intros H. unfold is_active. destruct (ownerless c); [setoid_rewrite H | rewrite !H]; done. Qed.

Lemma turn_step base r0 n st c : scope.(Contributions) !! n = Some c → turned base r0 n st →
  turned base r0 (S n) (let '(b, r) := propagateContribution scope st.2 (n, c) in (b || st.1, r)).
Proof.
  intros Hn [Hw He Hu Hch Hsame Hcl Hac]. destruct st as [b0 r]. cbn [fst snd] in *.
  assert (c ∈ scope.(Contributions)) as Hc by (by apply list_elem_of_lookup_2 in Hn).
  pose proof (contribution_spec r n c Hc Hw) as Hs. destruct (propagateContribution scope r (n, c)) as [b r'].
  destruct Hs as (Hw' & Hact & He' & Hb).
  assert (∀ f, rank (Eligibility r f) ≤ rank (Eligibility r' f)) as Hup.
  { intros f. rewrite He'. destruct (decide _); [rewrite rank_max |]; lia. }
  assert (b = false → ∀ f, Eligibility r' f = Eligibility r f) as Hsame'.
  { intros -> f. rewrite He'. destruct (decide _) as [[Ha Hf] |]; [| done]. apply max_same.
    destruct (decide (rank (Eligibility r f) < rank (reach c))) as [Hlt |]; [| lia].
    assert (false = true) as [=]. apply Hb. split; [done |]. by exists f. }
  split; cbn [fst snd].
  - done.
  - intros f. rewrite He'. destruct (decide _) as [[Ha Hf] |]; [| apply He]. unfold max_e. destruct (_ <=? _); [apply He |].
    by apply (earns_active base (Eligibility r)).
  - intros f. specialize (Hu f). specialize (Hup f). lia.
  - intros Hor. destruct b0.
    + specialize (Hch eq_refl). pose proof (headroom_le r r' Hup). lia.
    + rewrite orb_false_r in Hor. destruct (proj1 Hb Hor) as [Ha (f & Hf & Hlt)].
      apply (headroom_lt r0 r' f); [intros g; specialize (Hu g); specialize (Hup g); lia | by apply (marks_reachable c) |].
      rewrite He', decide_True, rank_max by done. rewrite <- Hsame by done. lia.
  - intros [-> ->]%orb_false_iff f. rewrite Hsame' by done. by apply Hsame.
  - intros c' f i [-> ->]%orb_false_iff Hi Hlt Ha Hf. destruct (decide (i = n)) as [-> | Hne]; [| apply (Hcl c' f i); [done.. | lia | done | done]].
    assert (c' = c) as -> by congruence. destruct (decide (rank (Eligibility r0 f) < rank (reach c))) as [Hlt' |]; [| lia].
    assert (false = true) as [=]. apply Hb. split; [apply (is_active_ext (Eligibility r) (Eligibility r0)); [by apply Hsame | done] |].
    exists f. split; [done |]. by rewrite Hsame.
  - intros c' i [-> ->]%orb_false_iff Hi Hlt. rewrite Hact. destruct (decide (i = n)) as [-> | Hne].
    + assert (c' = c) as -> by congruence. rewrite lookup_insert_eq. f_equal. apply bool_decide_ext, is_active_ext. by apply Hsame.
    + rewrite lookup_insert_ne by done. apply Hac; [done.. | lia].
Qed.


Lemma turn_all base r : walks_ok r → (∀ f, earns base f (Eligibility r f)) →
  turned base r (length scope.(Contributions)) (propagate_all scope r).
Proof.
  intros Hw He. unfold propagate_all.
  enough (∀ l k st, drop k scope.(Contributions) = l → turned base r k st → turned base r (k + length l)
    (foldl (λ st ic, let '(b, r) := propagateContribution scope st.2 ic in (b || st.1, r)) st (zip (seq k (length l)) l))) as H.
  { apply (H _ 0); [by rewrite drop_0 |]. split; cbn; try done. intros; lia. intros; lia. }
  induction l as [| c l IH]; intros k st Hd Ht; cbn [length seq zip zip_with foldl]; [by rewrite Nat.add_0_r |].
  rewrite <- Nat.add_succ_comm. apply IH.
  - assert (drop (S k) scope.(Contributions) = drop 1 (drop k scope.(Contributions))) as ->; [rewrite drop_drop; f_equal; lia | by rewrite Hd].
  - apply turn_step; [| done]. pose proof (lookup_drop scope.(Contributions) k 0) as H0. rewrite Hd, Nat.add_0_r in H0. by rewrite <- H0.
Qed.

Lemma propagation_ends base r : walks_ok r → (∀ f, Eligibility r f = base f) →
  ∃ r', propagate scope r = Some r' ∧ settled base (Eligibility r') ∧
    ∀ i c, scope.(Contributions) !! i = Some c → active r' !! i = Some (bool_decide (is_active (Eligibility r') c)).
Proof.
  intros Hw Hb. unfold propagate.
  apply (loop_spec (propagate_step scope) (λ r1, walks_ok r1 ∧ (∀ f, earns base f (Eligibility r1 f)) ∧ ∀ f, rank (base f) ≤ rank (Eligibility r1 f)) headroom
    (λ r', settled base (Eligibility r') ∧ ∀ i c, scope.(Contributions) !! i = Some c → active r' !! i = Some (bool_decide (is_active (Eligibility r') c)))).
  - intros r1 r2 (Hw1 & He1 & Hb1). unfold propagate_step. pose proof (turn_all base r1 Hw1 He1) as Ht.
    destruct (propagate_all scope r1) as [[] r3]; [| done]. intros [= <-]. split; [split; [apply Ht | split; [apply Ht |]] | by apply Ht].
    intros f. pose proof (t_up _ _ _ _ Ht f). cbn [snd] in *. specialize (Hb1 f). lia.
  - intros r1 r2 (Hw1 & He1 & Hb1). unfold propagate_step. pose proof (turn_all base r1 Hw1 He1) as Ht.
    destruct (propagate_all scope r1) as [[] r3]; [done |]. intros [= <-].
    pose proof (t_same _ _ _ _ Ht eq_refl) as Hs. cbn [snd] in Hs. split.
    + apply settled_closed; [apply Ht | intros f; rewrite Hs; apply Hb1 |].
      intros c f Hc Ha Hf. rewrite Hs. apply list_elem_of_lookup in Hc as [i Hi].
      apply (t_closed _ _ _ _ Ht c f i); [done | done | by apply lookup_lt_Some in Hi | | done].
      by apply (is_active_ext (Eligibility r3) (Eligibility r1)).
    + intros i c Hi. pose proof (t_active _ _ _ _ Ht c i eq_refl Hi (lookup_lt_Some _ _ _ Hi)) as Hac. cbn [snd] in Hac. rewrite Hac. f_equal.
      apply bool_decide_ext, is_active_ext. intros f. by rewrite Hs.
  - split; [done |]. split; [intros f; rewrite Hb; apply earns_base | intros f; by rewrite Hb].
  - unfold headroom. change (size (reachable_files scope)) with (length (elements (reachable_files scope))).
    induction (elements (reachable_files scope)) as [| f l IH]; [done |]. cbn. lia.
Qed.

(** ** Control and seeds *)

(** A file some contribution takes out of free membership: what it reads besides resources,
    and the resources of an owner that is not itself the file. *)
Definition held_by (c : StaticContribution) (v : StaticVisit) : list string :=
  if v.(Resource)
  then if bool_decide (c.(c_Owner) = no_resource) || c.(MembershipOnly) && scope.(Declared) c.(c_Source) ||
          owner_visit (scope.(Owner) c.(c_Owner)).1 v then [] else marked v
  else [v.(File)].

Definition held (c : StaticContribution) : list string := concat (map (held_by c) c.(Visits)).

Definition held_all (l : list StaticContribution) : list string := concat (map held l).

Definition files_of (v : StaticVisit) : list string := if v.(Resource) then marked v else [v.(File)].

Lemma held_files c v f : f ∈ held_by c v → f ∈ files_of v.
Proof. unfold held_by, files_of. destruct (Resource v); [| done]. destruct (_ || _); [by intros ?%elem_of_nil | done]. Qed.

Lemma control_visits c vs b r :
  let owner := (scope.(Owner) c.(c_Owner)).1 in
  let declared := c.(MembershipOnly) && scope.(Declared) c.(c_Source) in
  let '(b', r') := foldl (control_visit c owner declared) (b, r) vs in
  same_rest r r' ∧
  (∀ f, Eligibility r' f = if decide (f ∈ concat (map (held_by c) vs)) then max_e RootInactive (Eligibility r f) else Eligibility r f) ∧
  (b' = true → ∀ v, v ∈ vs → held_by c v = files_of v).
Proof.
  cbv zeta. revert b r. induction vs as [| v vs IH]; intros b r.
  { cbn [foldl map concat]. split; [by repeat split |]. split; [intros f; by rewrite decide_False by apply not_elem_of_nil | by intros _ v ?%elem_of_nil]. }
  cbn [foldl map concat].
  set (st := control_visit _ _ _ (b, r) v).
  assert (same_rest r st.2 ∧ (∀ f, Eligibility st.2 f = if decide (f ∈ held_by c v) then max_e RootInactive (Eligibility r f) else Eligibility r f) ∧
    (st.1 = true → held_by c v = files_of v)) as (Hs & He & Hb).
  { unfold st, control_visit, held_by, files_of. destruct (Resource v); cbn [negb].
    - destruct (_ || _ || _); cbn [fst snd].
      + split; [by repeat split |]. split; [intros f; by rewrite decide_False by apply not_elem_of_nil | done].
      + pose proof (marks_spec RootInactive (marked v) false r) as Hm. destruct (foldl (mark_all RootInactive) (false, r) (marked v)) as [b1 r1].
        destruct Hm as (_ & Hs & He). cbn [snd]. split; [done |]. split; [done | done].
    - pose proof (markFile_spec r (File v) RootInactive) as Hm. destruct (markFile r (File v) RootInactive) as [b1 r1]. destruct Hm as (_ & Hs & He).
      cbn [fst snd]. split; [done |]. split; [| done]. intros f. rewrite He. apply decide_ext. by rewrite list_elem_of_singleton. }
  destruct st as [b1 r1]. cbn [fst snd] in *. specialize (IH b1 r1).
  destruct (foldl _ (b1, r1) vs) as [b2 r2] eqn:E. destruct IH as (Hs2 & He2 & Hb2). split; [by etrans |]. split.
  - intros f. rewrite He2, He. destruct (decide (f ∈ held_by c v)) as [Hv | Hv].
    + rewrite (decide_True (P := f ∈ held_by c v ++ _)) by (rewrite elem_of_app; by left). destruct (decide _); [| done].
      rewrite max_same; [done |]. rewrite rank_max. lia.
    + apply decide_ext. rewrite elem_of_app. tauto.
  - intros Hb' w Hw. apply elem_of_cons in Hw as [-> | Hw]; [| by apply Hb2]. apply Hb.
    clear -E Hb'. subst b2. revert b1 r1 E. induction vs as [| v vs IH]; intros b1 r1 E; [by injection E |]. cbn [foldl] in E.
    destruct (control_visit _ _ _ (b1, r1) v) as [b3 r3] eqn:Ev. specialize (IH _ _ E). subst b3. unfold control_visit in Ev.
    destruct (Resource v); cbn [negb] in Ev; [destruct (_ || _ || _); congruence | congruence].
Qed.

(** Only controlled walks are recorded, and all of their files are marked. *)
Record controlled_ok (l : list StaticContribution) (r : reduction) : Prop := {
  k_elig f : Eligibility r f = if decide (f ∈ held_all l) then RootInactive else RootUnknown;
  k_walks c v f : c ∈ scope.(Contributions) → c.(Unshared) = false → Controlled (Traversal r c) = true →
    v ∈ c.(Visits) → f ∈ files_of v → f ∈ held_all l;
  k_reached c : Reached (Traversal r c) = RootUnknown;
}.

Lemma control_step l r c : c ∈ scope.(Contributions) → controlled_ok l r → controlled_ok (l ++ [c]) (controlContribution scope r c).
Proof.
  intros Hc [He Hw Hr].
  assert (∀ f, f ∈ held_all (l ++ [c]) ↔ f ∈ held_all l ∨ f ∈ held c) as Hall.
  { intros f. unfold held_all. rewrite map_app, concat_app, elem_of_app. cbn. by rewrite app_nil_r. }
  unfold controlContribution. destruct (negb (Unshared c) && Controlled (Traversal r c)) eqn:Eg.
  - apply andb_true_iff in Eg as [Hu%negb_true_iff Hk].
    assert (∀ f, f ∈ held c → f ∈ held_all l) as Hin.
    { intros f Hf. unfold held in Hf. apply elem_of_concat_map in Hf as (v & Hv & Hf). apply (Hw c v f); [done.. |]. by eapply held_files. }
    split; [intros f; rewrite He; apply decide_ext; rewrite Hall; specialize (Hin f); tauto | | done].
    intros c' v f. rewrite Hall. intros. left. by apply (Hw c' v f).
  - set (b0 := negb (bool_decide (c_Owner c = no_resource)) && negb (MembershipOnly c && Declared scope (c_Source c))).
    pose proof (control_visits c c.(Visits) b0 r) as Hv. cbv zeta in Hv.
    destruct (foldl _ (b0, r) (Visits c)) as [b r']. destruct Hv as ((Hwk & _) & He' & Hb).
    assert (∀ f, Eligibility r' f = if decide (f ∈ held_all (l ++ [c])) then RootInactive else RootUnknown) as Hel.
    { intros f. rewrite He', He. fold (held c). destruct (decide (f ∈ held c)) as [Hh | Hh].
      - rewrite (decide_True (P := f ∈ held_all (l ++ [c]))) by (rewrite Hall; by right). by destruct (decide (f ∈ held_all l)).
      - apply decide_ext. rewrite Hall. tauto. }
    assert (∀ c', Traversal r' c' = Traversal r c') as Ht by (intros c'; unfold Traversal; by rewrite Hwk).
    destruct (b && negb (Unshared c)) eqn:Es.
    + apply andb_true_iff in Es as [-> Hu%negb_true_iff]. split; [done | |].
      * intros c' v f Hc' Hu'. unfold Traversal. cbn [SetTraversal walks]. destruct (decide (context c' = context c)) as [Hx | Hx].
        -- intros _ Hv Hf. rewrite Hall. right. rewrite (Hshares c' c Hc' Hc Hu' Hu Hx) in Hv. unfold held. apply elem_of_concat_map.
           exists v. split; [done |]. by rewrite Hb.
        -- rewrite lookup_insert_ne by done. fold (Traversal r' c'). rewrite Ht, Hall. intros. left. by apply (Hw c' v f).
      * intros c'. unfold Traversal. cbn [SetTraversal walks]. destruct (decide (context c' = context c)) as [Hx | Hx].
        -- rewrite Hx, lookup_insert_eq. apply Hr.
        -- rewrite lookup_insert_ne by done. fold (Traversal r' c'). rewrite Ht. apply Hr.
    + split; [done | | intros c'; rewrite Ht; apply Hr]. intros c' v f. rewrite Ht, Hall. intros. left. by apply (Hw c' v f).
Qed.

Lemma control_all r : controlled_ok scope.(Contributions) (foldl (controlContribution scope) (ResetStatic r) scope.(Contributions)).
Proof.
  enough (∀ l k, k ++ l = scope.(Contributions) → ∀ r, controlled_ok k r → controlled_ok scope.(Contributions) (foldl (controlContribution scope) r l)) as H.
  { apply (H _ []); [done |]. split; [intros f; by rewrite decide_False by apply not_elem_of_nil | done | done]. }
  induction l as [| c l IH]; intros k Hk r0 H0; [rewrite app_nil_r in Hk; by subst k |]. cbn [foldl].
  apply (IH (k ++ [c])); [by rewrite <- app_assoc |]. apply control_step; [| done]. rewrite <- Hk, elem_of_app. right. by left.
Qed.

(** What a file is seeded with, from its state after the control of owners. *)
Definition seeded (e : RootEligibility) (file : string) : RootEligibility :=
  let doc := scope.(Document) file in
  if bool_decide (scope.(PlainEntry) ≠ "") && bool_decide (Dir file = scope.(PlainEntry)) && doc.(Loaded) &&
     negb (scope.(Terminal) file)
  then max_e RootEligible e
  else if bool_decide (e = RootUnknown) && doc.(ObjectsKnown) && bool_decide (scope.(DirectoryFile) (Dir file) = "") &&
          negb (scope.(Terminal) file)
  then seed_state scope file else e.

Lemma seed_step r file : same_rest r (seed_file scope r file) ∧
  ∀ f, Eligibility (seed_file scope r file) f = if decide (f = file) then seeded (Eligibility r f) f else Eligibility r f.
Proof.
  unfold seed_file, seeded.
  destruct (bool_decide (PlainEntry scope ≠ "") && bool_decide (Dir file = PlainEntry scope) && Loaded (Document scope file) && negb (Terminal scope file)) eqn:E1.
  - pose proof (markFile_spec r file RootEligible) as Hm. destruct (markFile r file RootEligible) as [b r']. destruct Hm as (_ & Hs & He).
    split; [done |]. intros f. cbn [snd]. rewrite He. destruct (decide (f = file)) as [-> |]; [by rewrite E1 | done].
  - destruct (bool_decide (Eligibility r file = RootUnknown)) eqn:E2; cbn [negb orb andb].
    2: { split; [by repeat split |]. intros f. destruct (decide (f = file)) as [-> |]; [by rewrite E1, E2 | done]. }
    destruct (ObjectsKnown (Document scope file)) eqn:E3; cbn [negb].
    2: { split; [by repeat split |]. intros f. destruct (decide (f = file)) as [-> |]; [by rewrite E1, E2, E3 | done]. }
    destruct (bool_decide (DirectoryFile scope (Dir file) = "")) eqn:E4; cbn [negb orb].
    2: { split; [by repeat split |]. intros f. destruct (decide (f = file)) as [-> |]; [by rewrite E1, E2, E3, E4 | done]. }
    destruct (Terminal scope file) eqn:E5.
    { split; [by repeat split |]. intros f. destruct (decide (f = file)) as [-> |]; [by rewrite E5, E1, E2, E3, E4 | done]. }
    pose proof (markFile_spec r file (seed_state scope file)) as Hm. destruct (markFile r file (seed_state scope file)) as [b r']. destruct Hm as (_ & Hs & He).
    split; [done |]. intros f. cbn [snd]. rewrite He. destruct (decide (f = file)) as [-> |]; [| done].
    rewrite E5, E1, E2, E3, E4. cbn [andb negb]. apply bool_decide_eq_true in E2. rewrite E2. unfold seed_state. by destruct (existsb _ _).
Qed.

Lemma seeded_idem e f : seeded (seeded e f) f = seeded e f.
Proof.
  unfold seeded. destruct (_ && _ && _ && negb _).
  - unfold max_e at 1 2. by destruct e.
  - destruct (ObjectsKnown _), (bool_decide (DirectoryFile _ _ = "")), (Terminal scope f); rewrite ?andb_false_r, ?andb_true_r; try done.
    destruct (bool_decide (e = RootUnknown)) eqn:E; [| by rewrite E]. cbn [andb negb]. unfold seed_state. by destruct (existsb _ _).
Qed.

Lemma seed_all r order : same_rest r (foldl (seed_file scope) r order) ∧
  ∀ f, Eligibility (foldl (seed_file scope) r order) f = if decide (f ∈ order) then seeded (Eligibility r f) f else Eligibility r f.
Proof.
  revert r. induction order as [| file order IH]; intros r.
  { split; [by repeat split |]. intros f. by rewrite decide_False by apply not_elem_of_nil. }
  cbn [foldl]. destruct (seed_step r file) as [Hs He], (IH (seed_file scope r file)) as [Hs' He']. split; [by etrans |].
  intros f. rewrite He', He. destruct (decide (f = file)) as [-> | Hn].
  - rewrite (decide_True (P := file ∈ file :: order)) by by left. destruct (decide _); [by rewrite seeded_idem | done].
  - apply decide_ext. rewrite elem_of_cons. tauto.
Qed.


(** ** The reduction *)

(** What is known of a file before owners propagate. *)
Definition base_of (order : list string) (f : string) : RootEligibility :=
  let e := if decide (f ∈ held_all scope.(Contributions)) then RootInactive else RootUnknown in
  if decide (f ∈ order) then seeded e f else e.

(** A file with objects that nothing reached is inactive. *)
Definition finished (order : list string) (E : string → RootEligibility) (f : string) : RootEligibility :=
  if decide (f ∈ order ∧ E f = RootUnknown ∧ (scope.(Document) f).(HasObjects) = true) then RootInactive else E f.

Lemma finish_all order r : active (foldl (finish_file scope) r order) = active r ∧
  ∀ f, Eligibility (foldl (finish_file scope) r order) f = finished order (Eligibility r) f.
Proof.
  revert r. induction order as [| file order IH]; intros r.
  { split; [done |]. intros f. unfold finished. rewrite decide_False; [done |]. by intros [?%elem_of_nil _]. }
  cbn [foldl]. destruct (IH (finish_file scope r file)) as [Ha He].
  assert (active (finish_file scope r file) = active r ∧
    ∀ f, Eligibility (finish_file scope r file) f = finished [file] (Eligibility r) f) as [Ha1 He1].
  { unfold finish_file, finished. destruct (bool_decide (Eligibility r file = RootUnknown) && HasObjects (Document scope file)) eqn:E.
    - apply andb_true_iff in E as [Eu%bool_decide_eq_true Eo]. pose proof (markFile_spec r file RootInactive) as Hm.
      destruct (markFile r file RootInactive) as [b r']. destruct Hm as (_ & (_ & Hact & _) & Hel). split; [done |]. intros f. cbn [snd]. rewrite Hel.
      destruct (decide (f = file)) as [-> | Hn].
      + rewrite decide_True by (split; [by left | done]). by rewrite Eu.
      + rewrite decide_False; [done |]. by intros [?%list_elem_of_singleton _].
    - split; [done |]. intros f. rewrite decide_False; [done |]. intros (->%list_elem_of_singleton & Hu & Ho).
      by rewrite bool_decide_true, Ho in E by done. }
  split; [by rewrite Ha |]. intros f. rewrite He. unfold finished. rewrite He1. unfold finished.
  destruct (decide (f ∈ [file] ∧ Eligibility r f = RootUnknown ∧ HasObjects (Document scope f) = true)) as [(Hf & Hu & Ho) | Hn].
  - rewrite decide_False by (by intros (_ & [=] & _)). apply list_elem_of_singleton in Hf as ->.
    rewrite decide_True by (split; [by left | done]). done.
  - apply decide_ext. rewrite elem_of_cons. rewrite list_elem_of_singleton in Hn. tauto.
Qed.

Lemma settled_unique base E E' : settled base E → settled base E' → ∀ f, E f = E' f.
Proof. intros [H1 H2] [H1' H2'] f. apply rank_inj. specialize (H2 f _ (H1' f)). specialize (H2' f _ (H1 f)). lia. Qed.

Lemma ReduceStatic_spec order order' r : ∃ r' E, ReduceStatic scope order order' r = Some r' ∧ settled (base_of order) E ∧
  (∀ f, Eligibility r' f = finished order' E f) ∧
  ∀ i c, scope.(Contributions) !! i = Some c → active r' !! i = Some (bool_decide (is_active E c)).
Proof.
  unfold ReduceStatic. destruct (control_all r) as [He Hw Hr]. set (r1 := foldl (controlContribution scope) _ _) in *.
  destruct (seed_all r1 order) as [(Hwk & _) He2]. set (r2 := foldl (seed_file scope) r1 order) in *.
  destruct (propagation_ends (base_of order) r2) as (r3 & -> & Hs & Ha).
  - intros c f _ _ _. unfold Traversal. rewrite Hwk. fold (Traversal r1 c). rewrite Hr. cbn. lia.
  - intros f. rewrite He2, He. done.
  - cbn [mbind option_bind]. unfold finishStatic. set (r4 := mkReduction _ _ _ _ _). destruct (finish_all order' r4) as [Ha4 He4].
    exists (foldl (finish_file scope) r4 order'), (Eligibility r3). split; [done |]. split; [done |]. split; [done |].
    intros i c Hi. rewrite Ha4. by apply Ha.
Qed.

End propagation.

(** Claim C16: the reduction ends and gives every file the least eligibility that its base
    (the control of owners, then the seeds) and the active contributions allow: a file is
    raised exactly by contributions whose owner, or a claim over whose directory, is itself
    raised that far, so owners cannot make each other eligible in a circle; a file with
    objects that nothing reached is inactive, and each contribution is recorded active
    exactly when that least state activates it.  Sharing the walks loses nothing. *)
Theorem ReduceStatic_least scope order order' r : shares scope →
  ∃ r' E, ReduceStatic scope order order' r = Some r' ∧ settled scope (base_of scope order) E ∧
    (∀ f, Eligibility r' f = finished scope order' E f) ∧
    ∀ i c, scope.(Contributions) !! i = Some c → active r' !! i = Some (bool_decide (is_active scope E c)).
Proof. intros H. by apply ReduceStatic_spec. Qed.

(** The orders in which the files are ranged over do not matter. *)
Theorem ReduceStatic_order scope o1 o1' o2 o2' r r1 r2 : shares scope →
  (∀ f, f ∈ o1 ↔ f ∈ o2) → (∀ f, f ∈ o1' ↔ f ∈ o2') →
  ReduceStatic scope o1 o1' r = Some r1 → ReduceStatic scope o2 o2' r = Some r2 → ∀ f, Eligibility r1 f = Eligibility r2 f.
Proof.
  intros Hsh Ho Ho' H1 H2 f.
  destruct (ReduceStatic_spec scope Hsh o1 o1' r) as (r1' & E1 & Hr1 & Hs1 & He1 & _).
  destruct (ReduceStatic_spec scope Hsh o2 o2' r) as (r2' & E2 & Hr2 & Hs2 & He2 & _). simplify_eq.
  assert (∀ g, base_of scope o1 g = base_of scope o2 g) as Hb by (intros g; unfold base_of; by apply decide_ext).
  assert (∀ g, E1 g = E2 g) as HE.
  { apply (settled_unique scope (base_of scope o1)); [done |].
    assert (∀ g e, earns scope (base_of scope o1) g e ↔ earns scope (base_of scope o2) g e) as Hearn; [| destruct Hs2 as [Ha Hb2]; split; [intros g; by apply Hearn | intros g e Hg; by apply Hb2, Hearn]].
    assert (∀ b b', (∀ g, b g = b' g) → ∀ g e, earns scope b g e → earns scope b' g e) as Himp; [| intros g e; split; apply Himp; [done | intros x; by rewrite Hb]].
    intros b b' Hbb. fix IH 3. intros g e H. destruct H as [g | c g Hin Hw Hg Ha | c g Hin Hw Hg Ha].
    - rewrite Hbb. apply earns_base.
    - eapply earns_claimed; [done.. |]. destruct Ha as [? | (claim & ? & [? | (e & He & ?)])]; [by left | right; exists claim; split; [done | by left] |].
      right. exists claim. split; [done |]. right. exists e. split; [by apply IH | done].
    - eapply earns_owned; [done.. |]. destruct Ha as [? | [? | [? | [? | (e & He & ?)]]]]; [tauto.. |]. do 4 right. exists e. split; [by apply IH | done]. }
  rewrite He1, He2. unfold finished. rewrite HE. apply decide_ext. by rewrite Ho'.
Qed.

(** ** A concrete scope

    The owner [o], declared in [o.yaml], visits [a.yaml]; nothing owns [o.yaml], and [b.yaml]
    is read by a graph without owner. *)
Definition w_scope : staticScope :=
  let o := mkResource FluxKustomizeDomain "Kustomization" "flux-system" "o" in
  mkScope (λ f, mkFile true true true) "" (λ _, false) (λ _, "") id []
    (λ id, if bool_decide (id = o) then ("r/o.yaml", true) else ("", false)) (λ _, false) (λ _, false)
    [mkContribution o no_resource [mkVisit "r/a.yaml" "" "" "r" true] false false 0 None;
     mkContribution no_resource no_resource [mkVisit "r/b.yaml" "" "" "r" true] false false 1 None] 0.

Example ReduceStatic_least_witness : ∃ r', ReduceStatic w_scope ["r/o.yaml"; "r/a.yaml"] ["r/c.yaml"] (mkReduction ∅ ∅ ∅ ∅ false) = Some r' ∧
  Eligibility r' "r/c.yaml" = RootInactive.
Proof.
  destruct (ReduceStatic_least w_scope ["r/o.yaml"; "r/a.yaml"] ["r/c.yaml"] (mkReduction ∅ ∅ ∅ ∅ false)) as (r' & E & Hr & Hs & He & _).
  { intros c c' Hc Hc' _ _ Hx. cbn in Hc, Hc'.
    apply elem_of_cons in Hc as [-> | ->%list_elem_of_singleton]; apply elem_of_cons in Hc' as [-> | ->%list_elem_of_singleton]; done. }
  exists r'. split; [exact Hr |].
  assert (match ReduceStatic w_scope ["r/o.yaml"; "r/a.yaml"] ["r/c.yaml"] (mkReduction ∅ ∅ ∅ ∅ false) with
          | Some r => Eligibility r "r/c.yaml" = RootInactive | None => True end) as H by by vm_compute.
  by rewrite Hr in H.
Defined.

Example reduction_example :
  (λ r, map (Eligibility r) ["r/o.yaml"; "r/a.yaml"; "r/b.yaml"]) <$>
    ReduceStatic w_scope ["r/o.yaml"; "r/a.yaml"] [] (mkReduction ∅ ∅ ∅ ∅ false)
  = Some [RootEligible; RootEligible; RootIndependent].
Proof. by vm_compute. Qed.
