(* ===== verification/Root.v ===== *)
(** Root membership: src/pkg/selection/root.go and root_public.go, with the facts of facts.go.

    A root is a declaration that enters a run on its own.  It is classified from the
    physical scope that declares it; a captured run then asks whether its source supports
    it and whether an owner supplies it instead.  Objects are abstract: their equality and
    the parsing of an application are parameters, as is the scope of a kind. *)

From Stdlib Require Import Ascii.
From S2P Require Import Prelude GoPath Paths Resource Membership Productions Static.

(** ** Facts *)

Record OccurrenceID := mkOccurrence { oc_Source : string; oc_File : string; oc_Document : Z; oc_Item : Z }.

#[export] Instance OccurrenceID_eq_dec : EqDecision OccurrenceID.
Proof. solve_decision. Defined.

Definition no_occurrence : OccurrenceID := mkOccurrence "" "" 0 0.

(** The fields of a [DiscoveryRecord] a classification reads. *)
Record RootRecord := mkRootRecord {
  rr_Path : string; rr_Authored : NamedResource; rr_Parent : NamedResource; rr_BuilderOwner : NamedResource;
}.

Record RootOwnerFacts := mkOwnerFacts {
  ow_Identity : NamedResource; ow_Authored : NamedResource; ow_Path : string; ow_Indexed : bool; ow_Initial : bool;
}.

(** [Records] holds the authored identity of each record. *)
Record RootScopeFacts := mkRootScope {
  sf_Path : string; sf_Eligibility : RootEligibility; sf_Owners : list RootOwnerFacts;
  sf_Peers : list (list NamedResource); sf_Records : gmap NamedResource NamedResource;
  sf_Claims : gmap string (list NamedResource); sf_Claim : string;
  sf_Loaded : bool; sf_Bootstrap : bool; sf_Initial : bool; sf_Terminal : bool; sf_NamespaceEligible : bool;
  sf_NativeOperand : bool; sf_NativeEntry : bool; sf_EntryKustomize : bool; sf_Application : bool;
  sf_LocalApplication : bool; sf_SameEntryOrigin : bool; sf_Prepared : bool; sf_Candidate : bool; sf_Compact : bool;
  sf_PackageKnown : bool; sf_PackagePaths : list string; sf_PackageOwners : list (list nat); sf_PackageIndex : nat;
  sf_PackageRoot : bool; sf_PackageEligible : bool; sf_PackageRunnable : bool; sf_NativePackage : bool;
}.

Record NativeRootFacts := mkNativeRoot {
  nr_Path : string; nr_Owners : list NamedResource; nr_Claims : list KSClaim;
  nr_Entry : bool; nr_Built : bool; nr_Selected : bool; nr_Excluded : bool; nr_Component : bool;
}.

Record RootSourceSupport := mkSupport { ss_Allowed : bool; ss_Available : bool; ss_Origin : string }.

Record EmissionPolicy := mkPolicy { ep_Namespace : string; ep_InternalNamespace : bool; ep_ExcludeChildren : bool }.

(** The artifact of an input: the fields [OriginPath] reads. *)
Record RootInput := mkRootInput { ri_LocalPath : string; ri_LocalRoot : string; ri_InputAlias : bool; ri_Content : string }.

(** ** Substitution references *)

Definition ident_start (c : ascii) : bool :=
  let n := N_of_ascii c in (65 <=? n)%N && (n <=? 90)%N || (97 <=? n)%N && (n <=? 122)%N || (n =? 95)%N.

Definition ident_char (c : ascii) : bool :=
  ident_start c || (48 <=? N_of_ascii c)%N && (N_of_ascii c <=? 57)%N.

(** What follows the first character of a variable: more of it, then a brace or a colon. *)
Fixpoint ident_ends (s : string) : bool :=
  match s with
  | EmptyString => false
  | String c s => (c =? "}")%char || (c =? ":")%char || ident_char c && ident_ends s
  end.

(** The expression of [envsubstReferenceRE], anchored at the start of [s]. *)
Definition reference_at (s : string) : bool :=
  match s with String "$" (String "{" (String c s)) => ident_start c && ident_ends s | _ => false end.

Fixpoint HasEnvsubstReference (s : string) : bool :=
  match s with EmptyString => false | String _ rest => reference_at s || HasEnvsubstReference rest end.

Example envsubst_references :
  map HasEnvsubstReference ["${NS}"; "a-${X_1:-d}"; "${}"; "$NS"; "${1a}"; "${a b}"] = [true; true; false; false; false; false].
Proof. reflexivity. Qed.

Section root.
Context {O : Type} (Equal : O → O → bool) (parseApplication : string → option O).
Context (Namespaced : NamedResource → bool).

(** The accepted output of an owner; [valid] is whether its reads are. *)
Record RootOutput := mkOutput { ro_Complete : bool; ro_Failures : bool; ro_valid : bool; ro_Children : list O }.

(** A [RootCoveringOwner]; [co_Policy] is the emission policy of its object, when it has
    one, and [co_Applications] the application recorded for each identity. *)
Record RootCoveringOwner := mkCovering {
  cv_Identity : NamedResource; cv_Present : bool; cv_Policy : option EmissionPolicy; cv_Productions : list Production;
  cv_Path : string; cv_Root : string; cv_Applications : gmap NamedResource string; cv_Replaced : bool;
  cv_Output : option RootOutput; cv_Input : option RootInput;
}.

Record RootEvidence := mkEvidence {
  ev_Native : option NativeRootFacts; ev_Identity : NamedResource; ev_Record : RootRecord; ev_StaticRecord : RootRecord;
  ev_StaticRecordKnown : bool; ev_Occurrence : OccurrenceID; ev_Scope : RootScopeFacts;
  ev_InitialScope : option RootScopeFacts; ev_InitialOccurrence : OccurrenceID;
  ev_Productions : list Production; ev_LiveProductions : list Production; ev_Declaration : option O;
  ev_Sources : list RootSourceSupport; ev_CoveringOwners : list RootCoveringOwner;
  ev_Supplied : bool; ev_Incoming : bool; ev_Needed : bool; ev_StaticOwner : bool; ev_DeclarationSource : string;
  ev_Captured : bool; ev_Stale : bool;
}.

(** A [RootResult]; of the occurrence only the declaration is kept. *)
Record RootResult := mkRootResult {
  rs_NeedsOwnerSupport : bool; rs_Construction : bool; rs_InitialAdmitted : bool; rs_InitialIndependent : bool;
  rs_InitialEntry : bool; rs_Owner : NamedResource; rs_Occurrence : OccurrenceID;
  rs_Admitted : bool; rs_Independent : bool; rs_Entry : bool; rs_PackageRoot : bool;
}.

Definition classified (owner : NamedResource) (occurrence : OccurrenceID) (admitted independent entry package : bool) : RootResult :=
  mkRootResult false false false false false owner occurrence admitted independent entry package.

Definition no_result : RootResult := classified no_resource no_occurrence false false false false.

(** ** Packages *)

(** The loop of [packageAncestors]: the queue, what was seen and the ancestors.  An index
    beyond the slice, where Go panics, has no owners here; no builder of the facts stores one. *)
Definition ancestor_step (owners : list (list nat)) (root : nat) (st : list nat * gset nat * list nat)
    : list nat * gset nat * list nat + list nat :=
  let '(queue, seen, ancestors) := st in
  match queue with
  | [] => inr ancestors
  | owner :: queue =>
      if bool_decide (owner = root) || bool_decide (owner ∈ seen) then inl (queue, seen, ancestors)
      else inl (queue ++ default [] (owners !! owner), {[owner]} ∪ seen, ancestors ++ [owner])
  end.

(** Each owner's list is appended at most once. *)
Definition ancestor_fuel (owners : list (list nat)) (root : nat) : nat :=
  length (default [] (owners !! root)) + length (concat owners).

Definition packageAncestors (owners : list (list nat)) (root : nat) : option (list nat) :=
  loop (ancestor_step owners root) (ancestor_fuel owners root) (default [] (owners !! root), ∅, []).

Definition package_path (scope : RootScopeFacts) (i : nat) : string := default "" (scope.(sf_PackagePaths) !! i).

Definition string_lt (a b : string) : bool := bool_decide (compare a b = Lt).

(** [packageIndependent]; a result is missing only when the traversals ran out of fuel. *)
Definition package_ok (scope : RootScopeFacts) (owner : nat) : option bool :=
  above ← packageAncestors scope.(sf_PackageOwners) owner;
  Some (bool_decide (scope.(sf_PackageIndex) ∈ above) &&
        negb (string_lt (package_path scope owner) (package_path scope scope.(sf_PackageIndex)))).

Fixpoint all_ok (check : nat → option bool) (l : list nat) : option bool :=
  match l with
  | [] => Some true
  | x :: l => b ← check x; if (b : bool) then all_ok check l else Some false
  end.

Definition packageIndependent (scope : RootScopeFacts) : option bool :=
  if negb scope.(sf_PackageEligible) then Some false
  else above ← packageAncestors scope.(sf_PackageOwners) scope.(sf_PackageIndex); all_ok (package_ok scope) above.

(** ** Classification *)

Definition selfClaim (id authored : NamedResource) (records : gmap NamedResource NamedResource) : bool :=
  bool_decide (id = authored) || bool_decide (default no_resource (records !! id) = authored).

(** One owner of the loop of [scopeOwner]. *)
Definition owns (id authored : NamedResource) (scope : RootScopeFacts) (owner : RootOwnerFacts) : bool :=
  negb (bool_decide (owner.(ow_Identity) = id) || selfClaim owner.(ow_Identity) authored scope.(sf_Records)) &&
  (scope.(sf_Bootstrap) && negb (bool_decide (owner.(ow_Path) = scope.(sf_Path))) ||
   negb (KindInfoOf id).(Structural) ||
   negb (existsb (λ group, bool_decide (owner.(ow_Identity) ∈ group) &&
                           existsb (λ peer, selfClaim peer authored scope.(sf_Records)) group) scope.(sf_Peers))).

Definition scopeOwner (id authored : NamedResource) (scope : RootScopeFacts) : NamedResource :=
  match filter (λ owner, owns id authored scope owner = true) scope.(sf_Owners) with
  | owner :: _ => owner.(ow_Identity)
  | [] => no_resource
  end.

Definition initialRootIndependent (ev : RootEvidence) (owner : NamedResource) : option bool :=
  let scope := ev.(ev_Scope) in
  if negb scope.(sf_Initial) || bool_decide (scope.(sf_Eligibility) = RootInactive) then Some false
  else if negb (bool_decide (owner = no_resource)) &&
          existsb (λ candidate, negb (selfClaim candidate.(ow_Identity) ev.(ev_Record).(rr_Authored) scope.(sf_Records)) &&
                                (negb candidate.(ow_Indexed) || candidate.(ow_Initial))) scope.(sf_Owners)
  then Some false
  else
    outside ← (if scope.(sf_PackageKnown) then
                 if scope.(sf_NativePackage) then Some true
                 else independent ← packageIndependent scope; Some (negb independent)
               else Some false);
    if (outside : bool) then Some false
    else if negb scope.(sf_EntryKustomize) || scope.(sf_Bootstrap) then Some (negb scope.(sf_NativeOperand))
    else Some (scope.(sf_Application) &&
               (negb scope.(sf_NativeOperand) && negb (KindInfoOf ev.(ev_Identity)).(Structural) ||
                scope.(sf_LocalApplication) && scope.(sf_SameEntryOrigin))).

(** [classifyAuthoredRoot]; [previous] is the answer of the initial scope, when there is one. *)
Definition classifyAuthoredRoot (previous : option RootResult) (ev : RootEvidence) : option RootResult :=
  let scope := ev.(ev_Scope) in
  let owner := scopeOwner ev.(ev_Identity) ev.(ev_Record).(rr_Authored) scope in
  let admitted := negb (bool_decide (scope.(sf_Eligibility) = RootInactive)) && bool_decide (owner = no_resource) in
  let admitted := admitted ||
    negb (bool_decide (scope.(sf_Eligibility) = RootInactive)) && (KindInfoOf ev.(ev_Identity)).(Discovery) &&
    negb scope.(sf_EntryKustomize) && scope.(sf_Loaded) && negb scope.(sf_Bootstrap) in
  match previous with
  | Some previous =>
      if previous.(rs_Independent) then Some (classified owner previous.(rs_Occurrence) admitted true false false)
      else Some (classified owner ev.(ev_Occurrence) admitted false false false)
  | None =>
      independent ← initialRootIndependent ev owner;
      Some (classified owner ev.(ev_Occurrence) admitted independent false false)
  end.

Definition classify (previous : option RootResult) (ev : RootEvidence) : option RootResult :=
  let scope := ev.(ev_Scope) in
  let record := ev.(ev_Record) in
  if negb scope.(sf_NamespaceEligible) || scope.(sf_Terminal) then Some no_result
  else if scope.(sf_NativeEntry) then Some (classified no_resource ev.(ev_Occurrence) true true false false)
  else if scope.(sf_PackageRoot) then
    independent ← packageIndependent scope;
    Some (classified no_resource no_occurrence (independent && scope.(sf_PackageRunnable)) independent false true)
  else if bool_decide (record.(rr_Path) = "") then
    let native := scope.(sf_Compact) && ReportHidden record.(rr_Parent) && bool_decide (record.(rr_Parent) = record.(rr_BuilderOwner)) in
    let admitted := bool_decide (record.(rr_Authored) = no_resource) &&
      (bool_decide (record.(rr_Parent) = no_resource) || native) && scope.(sf_Candidate) in
    Some (classified no_resource ev.(ev_Occurrence) admitted admitted false false)
  else classifyAuthoredRoot previous ev.

(** The evidence of the initial scope. *)
Definition initial_evidence (ev : RootEvidence) (scope : RootScopeFacts) : RootEvidence :=
  mkEvidence ev.(ev_Native) ev.(ev_Identity) ev.(ev_Record) ev.(ev_StaticRecord) ev.(ev_StaticRecordKnown)
    ev.(ev_InitialOccurrence) scope None ev.(ev_InitialOccurrence) ev.(ev_Productions) ev.(ev_LiveProductions)
    ev.(ev_Declaration) ev.(ev_Sources) ev.(ev_CoveringOwners) ev.(ev_Supplied) ev.(ev_Incoming) ev.(ev_Needed)
    ev.(ev_StaticOwner) ev.(ev_DeclarationSource) ev.(ev_Captured) ev.(ev_Stale).

(** [classifyRoot], which calls itself once, on the initial scope. *)
Definition classifyRoot (ev : RootEvidence) : option RootResult :=
  match ev.(ev_InitialScope) with
  | Some scope => previous ← classify None (initial_evidence ev scope); classify (Some previous) ev
  | None => classify None ev
  end.

Definition rootConstruction (root : option NativeRootFacts) : bool :=
  match root with
  | None => false
  | Some root =>
      if root.(nr_Excluded) || root.(nr_Selected) || root.(nr_Built) || root.(nr_Component) && negb root.(nr_Entry) then false
      else if root.(nr_Entry)
      then negb (existsb (λ claim, HasPrefix (root.(nr_Path) +:+ "/") claim.(Prefix)) root.(nr_Claims))
      else bool_decide (root.(nr_Owners) = [])
  end.

(** ** Owners of a captured root *)

(** [filepath.IsLocal] on Unix. *)
Definition IsLocal (name : string) : bool :=
  negb (IsAbs name) && negb (bool_decide (name = "")) && negb (Escaped (Clean name)).

Definition Materializer (p : Production) (target : NamedResource) : NamedResource :=
  if negb (bool_decide (p.(Declaration) = no_resource)) && negb (bool_decide (p.(p_File) = "")) && negb (IsLocal p.(p_File))
  then no_resource
  else if bool_decide (target.(Group) = SourceDomain) && bool_decide (p.(Declaration) = no_resource) &&
          (negb (bool_decide (p.(p_Path) = "")) || negb (bool_decide (p.(p_File) = "")))
  then no_resource
  else p.(Membership.Owner).

(** The loop of [rootAncestor]: the list grows with the ancestors of the element at the cursor. *)
Definition materialized_by (ev : RootEvidence) (id : NamedResource) : list NamedResource :=
  concat (map (λ candidate, map (λ p, Materializer p candidate.(cv_Identity)) candidate.(cv_Productions))
    (filter (λ candidate, candidate.(cv_Identity) = id) ev.(ev_CoveringOwners))).

Fixpoint add_ancestors (target : NamedResource) (ancestors pending : list NamedResource) : list NamedResource + bool :=
  match ancestors with
  | [] => inl pending
  | ancestor :: ancestors =>
      if bool_decide (ancestor = target) then inr true
      else if negb (bool_decide (ancestor = no_resource)) && negb (bool_decide (ancestor ∈ pending))
      then add_ancestors target ancestors (pending ++ [ancestor])
      else add_ancestors target ancestors pending
  end.

Definition ancestry_step (ev : RootEvidence) (st : list NamedResource * nat) : list NamedResource * nat + bool :=
  match st.1 !! st.2 with
  | None => inr false
  | Some id =>
      match add_ancestors ev.(ev_Identity) (materialized_by ev id) st.1 with
      | inl pending => inl (pending, S st.2)
      | inr found => inr found
      end
  end.

Definition ancestry_fuel (ev : RootEvidence) : nat :=
  S (length (concat (map cv_Productions ev.(ev_CoveringOwners)))).

Definition rootAncestor (ev : RootEvidence) (owner : NamedResource) : option bool :=
  loop (ancestry_step ev) (ancestry_fuel ev) ([owner], 0).

Definition publicRootPeer (ev : RootEvidence) (owner : NamedResource) : option bool :=
  let id := ev.(ev_Identity) in
  let scope := ev.(ev_Scope) in
  ancestor ← (if (KindInfoOf id).(Resource.Parent) then rootAncestor ev owner else Some false);
  if (ancestor : bool) then Some true
  else if negb (KindInfoOf id).(Structural) || negb scope.(sf_Application) || negb scope.(sf_LocalApplication) then Some false
  else
    let group := default [] (scope.(sf_Claims) !! scope.(sf_Claim)) in
    Some (bool_decide (owner ∈ group) &&
          existsb (λ peer, bool_decide (peer = id) || selfClaim peer ev.(ev_Record).(rr_Authored) scope.(sf_Records)) group).

Definition MatchesNamespace (p : EmissionPolicy) (target : NamedResource) : bool :=
  p.(ep_InternalNamespace) || p.(ep_ExcludeChildren) || bool_decide (p.(ep_Namespace) = "") ||
  HasEnvsubstReference p.(ep_Namespace) || bool_decide (target.(Namespace) = "") || negb (Namespaced target) ||
  bool_decide (target.(Namespace) = p.(ep_Namespace)).

Definition OriginPath (a : RootInput) (file : string) : string :=
  if negb (bool_decide (a.(ri_LocalRoot) = "")) && (a.(ri_InputAlias) || bool_decide (a.(ri_Content) = "")) then
    if bool_decide (a.(ri_LocalRoot) = a.(ri_LocalPath)) then Clean file
    else if bool_decide (file = a.(ri_LocalPath)) then Clean a.(ri_LocalRoot)
    else Join2 a.(ri_LocalRoot) (default "" (Rel a.(ri_LocalPath) file))
  else file.

Definition containsRoot (root target : string) : bool :=
  match Rel root target with
  | Some relative => negb (bool_decide (relative = "..")) && negb (HasPrefix relative "../")
  | None => false
  end.

Definition rootCoversPath (ev : RootEvidence) (candidate : RootCoveringOwner) : bool :=
  match candidate.(cv_Input) with
  | None => false
  | Some input =>
      if bool_decide (ev.(ev_Record).(rr_Path) = "") then false
      else
        let source := or_string [ev.(ev_DeclarationSource); ev.(ev_Occurrence).(oc_Source);
                                 match ev.(ev_Sources) with s :: _ => s.(ss_Origin) | [] => "" end] in
        if negb (bool_decide (source = input.(ri_LocalPath))) && negb (bool_decide (source = candidate.(cv_Root))) then false
        else
          let file := OriginPath input ev.(ev_Record).(rr_Path) in
          containsRoot candidate.(cv_Root) candidate.(cv_Path) && containsRoot candidate.(cv_Path) file
  end.

Definition coveringRoot (ev : RootEvidence) (candidate : RootCoveringOwner) : bool :=
  if negb candidate.(cv_Present) || negb (bool_decide (is_Some candidate.(cv_Input))) || bool_decide (candidate.(cv_Path) = "") ||
     negb (existsb (λ p, let owner := Materializer p candidate.(cv_Identity) in
                         negb (bool_decide (owner = no_resource)) && negb (bool_decide (owner = candidate.(cv_Identity))))
             candidate.(cv_Productions))
  then false
  else match candidate.(cv_Policy) with
       | Some policy => MatchesNamespace policy ev.(ev_Identity) && rootCoversPath ev candidate
       | None => false
       end.

(** The first of [l] that [check] finds an owner in. *)
Fixpoint first_owner {A} (check : A → option (option NamedResource)) (l : list A) : option NamedResource :=
  match l with
  | [] => Some no_resource
  | x :: l => r ← check x; match r with Some owner => Some owner | None => first_owner check l end
  end.

Definition publicRootOwner (ev : RootEvidence) (occurrence : OccurrenceID) : option NamedResource :=
  let id := ev.(ev_Identity) in
  let record := ev.(ev_Record) in
  let native := ReportHidden record.(rr_Parent) && bool_decide (record.(rr_Parent) = record.(rr_BuilderOwner)) && ev.(ev_Scope).(sf_Prepared) in
  let productions := if bool_decide (occurrence = no_occurrence) then ev.(ev_Productions) else ev.(ev_LiveProductions) in
  owner ← first_owner (λ production,
      let owner := Materializer production id in
      let owner := if bool_decide (owner = no_resource) && ev.(ev_StaticOwner) then production.(Membership.Owner) else owner in
      if native && bool_decide (owner = record.(rr_BuilderOwner)) then Some None
      else if bool_decide (owner = no_resource) || bool_decide (owner = id) then Some None
      else peer ← publicRootPeer ev owner; Some (if (peer : bool) then None else Some owner)) productions;
  if negb (bool_decide (owner = no_resource)) then Some owner
  else if bool_decide (record.(rr_Path) = "") then Some no_resource
  else first_owner (λ candidate,
      if bool_decide (candidate.(cv_Identity) = id) || negb (coveringRoot ev candidate) then Some None
      else peer ← publicRootPeer ev candidate.(cv_Identity);
           Some (if (peer : bool) then None else Some candidate.(cv_Identity))) ev.(ev_CoveringOwners).

(** ** Support *)

Definition acceptedRootApplication (ev : RootEvidence) (declared : O) (candidate : RootCoveringOwner) (output : RootOutput) : bool :=
  if negb ev.(ev_Incoming) && existsb (λ child, Equal child declared) output.(ro_Children) then true
  else if negb candidate.(cv_Replaced) then false
  else match candidate.(cv_Applications) !! ev.(ev_Identity) with
       | None => false
       | Some application =>
           if bool_decide (application = "") then false
           else match parseApplication application with Some parsed => Equal parsed declared | None => false end
       end.

Definition acceptedRootEntry (ev : RootEvidence) (occurrence : OccurrenceID) : bool :=
  match ev.(ev_Declaration) with
  | None => false
  | Some declared =>
      negb (bool_decide (occurrence = no_occurrence)) &&
      existsb (λ candidate, match candidate.(cv_Output) with
        | None => false
        | Some output =>
            output.(ro_Complete) && negb output.(ro_Failures) && output.(ro_valid) &&
            existsb (λ p, bool_decide (p.(Membership.Owner) = candidate.(cv_Identity)) &&
                          negb (bool_decide (candidate.(cv_Identity) = ev.(ev_Identity)))) ev.(ev_Productions) &&
            acceptedRootApplication ev declared candidate output
        end) ev.(ev_CoveringOwners)
  end.

(** The loop over the two sources: whether one is allowed before or at the first that is also
    available, and whether there is such a one. *)
Fixpoint source_support (sources : list RootSourceSupport) (is_open supported : bool) : bool * bool :=
  match sources with
  | [] => (is_open, supported)
  | source :: sources =>
      if source.(ss_Allowed) && source.(ss_Available) then (true, true)
      else source_support sources (is_open || source.(ss_Allowed)) supported
  end.

Definition supportRoot (ev : RootEvidence) (r : RootResult) (owner : NamedResource) (accepted : bool) : RootResult :=
  if ev.(ev_Stale) then no_result
  else if ev.(ev_Supplied) then classified no_resource no_occurrence true true true false
  else if negb r.(rs_Independent) then r
  else
    let unlocated := bool_decide (r.(rs_Occurrence) = no_occurrence) && negb ev.(ev_Scope).(sf_NativeEntry) in
    let '(is_open, supported) := source_support ev.(ev_Sources) unlocated unlocated in
    let owned := negb (bool_decide (owner = no_resource)) in
    let supported := supported && negb owned in
    let entry := supported || accepted in
    mkRootResult r.(rs_NeedsOwnerSupport) r.(rs_Construction) r.(rs_InitialAdmitted) r.(rs_InitialIndependent) r.(rs_InitialEntry)
      (if supported then no_resource else if owned then owner else r.(rs_Owner))
      (if entry then r.(rs_Occurrence) else no_occurrence)
      (supported || r.(rs_Admitted) && is_open && negb owned) supported entry r.(rs_PackageRoot).

(** [Root]; [captured] is the part of it that a captured run adds. *)
Definition set_independent (b : bool) (r : RootResult) : RootResult :=
  mkRootResult r.(rs_NeedsOwnerSupport) r.(rs_Construction) r.(rs_InitialAdmitted) r.(rs_InitialIndependent) r.(rs_InitialEntry)
    r.(rs_Owner) r.(rs_Occurrence) r.(rs_Admitted) b r.(rs_Entry) r.(rs_PackageRoot).

Definition captured (ev : RootEvidence) (r : RootResult) : option RootResult :=
  let r := if bool_decide (r.(rs_Occurrence) = no_occurrence) then set_independent r.(rs_Admitted) r else r in
  let needsOwners := negb ev.(ev_Stale) && r.(rs_Independent) && negb ev.(ev_Supplied) && negb ev.(ev_Scope).(sf_NativeEntry) in
  owner ← (if needsOwners then publicRootOwner ev r.(rs_Occurrence) else Some no_resource);
  let accepted := needsOwners && acceptedRootEntry ev ev.(ev_Occurrence) in
  let r := supportRoot ev r owner accepted in
  Some (mkRootResult needsOwners r.(rs_Construction) r.(rs_InitialAdmitted) r.(rs_InitialIndependent) r.(rs_InitialEntry)
          r.(rs_Owner) r.(rs_Occurrence) r.(rs_Admitted) r.(rs_Independent) r.(rs_Entry) r.(rs_PackageRoot)).

Definition classification (ev : RootEvidence) : RootEvidence :=
  mkEvidence ev.(ev_Native) ev.(ev_Identity) (if ev.(ev_StaticRecordKnown) then ev.(ev_StaticRecord) else ev.(ev_Record))
    ev.(ev_StaticRecord) ev.(ev_StaticRecordKnown)
    ev.(ev_Occurrence) ev.(ev_Scope) ev.(ev_InitialScope) ev.(ev_InitialOccurrence) ev.(ev_Productions) ev.(ev_LiveProductions)
    ev.(ev_Declaration) ev.(ev_Sources) ev.(ev_CoveringOwners) ev.(ev_Supplied) ev.(ev_Incoming) ev.(ev_Needed)
    ev.(ev_StaticOwner) ev.(ev_DeclarationSource) ev.(ev_Captured) ev.(ev_Stale).

Definition Root (ev : RootEvidence) : option RootResult :=
  initial ← classifyRoot (classification ev);
  r ← (if ev.(ev_Captured) then captured ev initial else Some initial);
  let known := ev.(ev_StaticRecordKnown) in
  let independent := known && initial.(rs_Independent) in
  let silent := bool_decide (r.(rs_Occurrence) = no_occurrence) && negb ev.(ev_Needed) && negb ev.(ev_Supplied) &&
    negb ev.(ev_Scope).(sf_NativeEntry) in
  Some (mkRootResult r.(rs_NeedsOwnerSupport) (rootConstruction ev.(ev_Native)) (known && initial.(rs_Admitted)) independent
          (ev.(ev_Scope).(sf_NativeEntry) || independent && negb (bool_decide (initial.(rs_Occurrence) = no_occurrence)))
          r.(rs_Owner) r.(rs_Occurrence) r.(rs_Admitted) r.(rs_Independent) (negb silent && r.(rs_Entry)) r.(rs_PackageRoot)).

(** ** Packages: the closure *)

Section packages.
Context (owners : list (list nat)).

Definition owners_of (i : nat) : list nat := default [] (owners !! i).
Definition above (i j : nat) : Prop := j ∈ owners_of i.

(** The lists still to be appended. *)
Definition pending_lists (seen : gset nat) : nat :=
  sum_list_with (λ i, if decide (i ∈ seen) then 0 else length (owners_of i)) (seq 0 (length owners)).

Lemma pending_add x seen : x ∉ seen → pending_lists ({[x]} ∪ seen) + length (owners_of x) ≤ pending_lists seen.
Proof.
  intros Hx. unfold pending_lists. destruct (decide (x < length owners)) as [Hlt | Hge].
  2: { assert (owners_of x = []) as -> by (unfold owners_of; by rewrite lookup_ge_None_2 by lia). cbn. rewrite Nat.add_0_r.
       generalize (seq 0 (length owners)). intros l. induction l as [| i l IH]; [done |]. cbn.
       destruct (decide (i ∈ seen)); [rewrite decide_True by set_solver | destruct (decide (i ∈ {[x]} ∪ seen))]; lia. }
  assert (x ∈ seq 0 (length owners)) as Hin by (apply elem_of_seq; lia). revert Hin. pose proof (NoDup_seq 0 (length owners)) as Hnd. revert Hnd.
  generalize (seq 0 (length owners)). intros l Hnd Hin. induction l as [| i l IH]; [by apply elem_of_nil in Hin |].
  apply NoDup_cons in Hnd as [Hni Hnd]. cbn. apply elem_of_cons in Hin as [-> | Hin].
  - rewrite decide_True by set_solver. rewrite (decide_False (P := i ∈ seen)) by done.
    assert (sum_list_with (λ j, if decide (j ∈ {[i]} ∪ seen) then 0 else length (owners_of j)) l ≤
            sum_list_with (λ j, if decide (j ∈ seen) then 0 else length (owners_of j)) l); [| lia].
    clear. induction l as [| j l IH]; [done |]. cbn.
    destruct (decide (j ∈ seen)); [rewrite decide_True by set_solver | destruct (decide (j ∈ {[i]} ∪ seen))]; lia.
  - specialize (IH Hnd Hin). assert (i ≠ x) as Hne by (by intros ->).
    destruct (decide (i ∈ seen)); [rewrite decide_True by set_solver | rewrite decide_False by set_solver]; lia.
Qed.

Lemma pending_empty : pending_lists ∅ = length (concat owners).
Proof.
  unfold pending_lists, owners_of.
  enough (∀ l k, (∀ j, default [] (owners !! (k + j)) = default [] (l !! j)) →
    sum_list_with (λ i, if decide (i ∈ (∅ : gset nat)) then 0 else length (default [] (owners !! i))) (seq k (length l)) = length (concat l)) as H
    by (by apply (H owners 0)).
  induction l as [| x l IH]; intros k Hk; [done |]. cbn [length seq sum_list_with concat]. rewrite decide_False by set_solver.
  rewrite length_app. pose proof (Hk 0) as H0. rewrite Nat.add_0_r in H0. rewrite H0. cbn. f_equal. apply IH. intros j.
  rewrite Nat.add_succ_comm. exact (Hk (Datatypes.S j)).
Qed.

Record ascending (root : nat) (st : list nat * gset nat * list nat) : Prop := {
  as_seen x : x ∈ st.1.2 ↔ x ∈ st.2;
  as_root : root ∉ st.1.2;
  as_reach x : x ∈ st.1.1 ∨ x ∈ st.1.2 → tc above root x;
  as_closed x y : x = root ∨ x ∈ st.1.2 → above x y → y = root ∨ y ∈ st.1.2 ∨ y ∈ st.1.1;
}.

Lemma packageAncestors_spec root : ∃ l, packageAncestors owners root = Some l ∧ ∀ x, x ∈ l ↔ x ≠ root ∧ tc above root x.
Proof.
  unfold packageAncestors.
  apply (loop_spec (ancestor_step owners root) (ascending root) (λ st, length st.1.1 + pending_lists st.1.2)
    (λ l, ∀ x, x ∈ l ↔ x ≠ root ∧ tc above root x)).
  - intros [[queue seen] l] st [Hs Hr Hre Hc]. cbn [fst snd] in *. unfold ancestor_step. destruct queue as [| x queue]; [done |].
    destruct (bool_decide (x = root) || bool_decide (x ∈ seen)) eqn:E; intros [= <-]; cbn [fst snd].
    + split; [| cbn; lia]. apply orb_true_iff in E. rewrite !bool_decide_eq_true in E. split; cbn [fst snd]; [done | done | |].
      * intros y [Hy | Hy]; apply Hre; [left; by right | by right].
      * intros a b Ha Hab. destruct (Hc a b Ha Hab) as [? | [? | Hb]]; [tauto.. |].
        apply elem_of_cons in Hb as [-> |]; [destruct E; tauto | tauto].
    + apply orb_false_iff in E as [Hxr%bool_decide_eq_false Hxs%bool_decide_eq_false].
      assert (tc above root x) as Hx by (apply Hre; left; by left). split.
      * split; cbn [fst snd].
        -- intros y. rewrite elem_of_union, elem_of_singleton, elem_of_app, list_elem_of_singleton, Hs. tauto.
        -- rewrite elem_of_union, elem_of_singleton. intros [<- | ?]; done.
        -- intros y. rewrite elem_of_app, elem_of_union, elem_of_singleton. intros [[Hy | Hy] | [-> | Hy]].
           ++ apply Hre. left. by right.
           ++ eapply tc_r; [exact Hx | exact Hy].
           ++ done.
           ++ apply Hre. by right.
        -- intros a b. rewrite !elem_of_union, !elem_of_singleton, elem_of_app. intros Ha Hab.
           destruct (decide (a = x)) as [-> | Hax]; [do 3 right; exact Hab |].
           assert (a = root ∨ a ∈ seen) as Ha' by tauto. destruct (Hc a b Ha' Hab) as [? | [? | Hb]]; [tauto.. |].
           apply elem_of_cons in Hb as [-> |]; tauto.
      * rewrite length_app. cbn [length]. pose proof (pending_add x seen Hxs). unfold owners_of in H. lia.
  - intros [[queue seen] l] r [Hs Hr Hre Hc]. cbn [fst snd] in *. unfold ancestor_step. destruct queue as [| x queue]; [| by destruct (_ || _)].
    intros [= <-] x. rewrite <- Hs. split; [intros Hx; split; [by intros -> | apply Hre; by right] |]. intros [Hx Ht].
    assert (∀ a b, tc above a b → a = root ∨ a ∈ seen → b = root ∨ b ∈ seen) as Hcl.
    { intros a b Hab. induction Hab as [a b Hab | a b c Hab _ IH]; intros Ha.
      - destruct (Hc a b Ha Hab) as [? | [? | ?%elem_of_nil]]; tauto.
      - apply IH. destruct (Hc a b Ha Hab) as [? | [? | ?%elem_of_nil]]; tauto. }
    destruct (Hcl root x Ht) as [? |]; [by left | done | done].
  - split; cbn [fst snd].
    + intros x. rewrite elem_of_nil. set_solver.
    + set_solver.
    + intros x [Hx | Hx]; [by apply tc_once | set_solver].
    + intros x y [-> | Hx] Hxy; [right; by right | set_solver].
  - cbn [fst snd]. unfold ancestor_fuel. rewrite pending_empty. unfold owners_of. lia.
Qed.


(** The packages reachable from [root], itself included. *)
Definition reachable (root : nat) : gset nat := {[root]} ∪ list_to_set (default [] (packageAncestors owners root)).

Lemma elem_of_reachable root x : x ∈ reachable root ↔ rtc above root x.
Proof.
  unfold reachable. destruct (packageAncestors_spec root) as (l & -> & Hl). change (default [] (Some l)) with l.
  rewrite elem_of_union, elem_of_singleton, elem_of_list_to_set, Hl, rtc_tc.
  destruct (decide (x = root)) as [-> | Hx]; [tauto |]. split; [intros [? | [_ ?]]; [done | by right] | intros [? | ?]; [by subst | by right]].
Qed.

#[local] Instance rtc_above_dec a b : Decision (rtc above a b).
Proof. refine (cast_if (decide (b ∈ reachable a))); abstract (by rewrite <- elem_of_reachable). Defined.

(** [x] is the top of its component: whatever is above it also is below it, and not before
    it in the order of the paths. *)
Definition top (path : nat → string) (x : nat) : Prop :=
  ∀ a, a ≠ x → tc above x a → tc above a x ∧ compare (path a) (path x) ≠ Lt.

Lemma first_path (path : nat → string) (l : list nat) : l ≠ [] → ∃ m, m ∈ l ∧ ∀ a, a ∈ l → compare (path a) (path m) ≠ Lt.
Proof.
  induction l as [| x l IH]; [done |]. intros _. destruct l as [| y l].
  - exists x. split; [by left |]. intros a ->%list_elem_of_singleton. by rewrite compare_refl.
  - destruct IH as (m & Hm & Hmin); [done |]. destruct (compare (path x) (path m)) eqn:E.
    1, 3: exists m; split; [by right |]; intros a Ha; apply elem_of_cons in Ha as [-> | Ha]; [by rewrite E | by apply Hmin].
    exists x. split; [by left |]. intros a Ha. apply elem_of_cons in Ha as [-> | Ha]; [by rewrite compare_refl |].
    intros Hlt. apply (Hmin a Ha). by eapply compare_lt_trans.
Qed.

(** Every package has a top above it. *)
Lemma top_above path i : ∃ r, rtc above i r ∧ top path r.
Proof.
  remember (size (reachable i)) as n eqn:Hn. revert i Hn. induction (lt_wf n) as [n _ IH]. intros i ->.
  destruct (decide (Exists (λ a, ¬ rtc above a i) (elements (reachable i)))) as [Hex | Hall].
  - apply Exists_exists in Hex as (a & Ha & Hn). apply elem_of_elements, elem_of_reachable in Ha.
    assert (size (reachable a) < size (reachable i)) as Hlt.
    { apply subset_size. split.
      - intros y Hy%elem_of_reachable. apply elem_of_reachable. by etrans.
      - intros Hsub. apply Hn, elem_of_reachable, Hsub, elem_of_reachable. done. }
    destruct (IH _ Hlt a eq_refl) as (r & Hr & Ht). exists r. split; [by etrans | done].
  - assert (∀ a, rtc above i a → rtc above a i) as Hback.
    { intros a Ha. destruct (decide (rtc above a i)); [done |]. destruct Hall. apply Exists_exists. exists a.
      split; [by apply elem_of_elements, elem_of_reachable | done]. }
    destruct (first_path path (elements (reachable i))) as (m & Hm & Hmin).
    { assert (i ∈ elements (reachable i)) as Hi by (by apply elem_of_elements, elem_of_reachable). intros E. rewrite E in Hi. by apply elem_of_nil in Hi. }
    apply elem_of_elements, elem_of_reachable in Hm. exists m. split; [done |]. intros a Hne Hat.
    assert (rtc above i a) as Hia by (etrans; [exact Hm | by apply tc_rtc]).
    split; [| by apply Hmin, elem_of_elements, elem_of_reachable].
    assert (rtc above a m) as Ham by (etrans; [by apply Hback | done]). apply rtc_tc in Ham as [-> |]; done.
Qed.

End packages.

Lemma all_ok_spec check (P : nat → Prop) l : (∀ x, x ∈ l → ∃ b, check x = Some b ∧ (b = true ↔ P x)) →
  ∃ b, all_ok check l = Some b ∧ (b = true ↔ ∀ x, x ∈ l → P x).
Proof.
  intros H. induction l as [| x l IH]; [exists true; split; [done |]; split; [by intros _ x ?%elem_of_nil | done] |]. cbn [all_ok].
  destruct (H x) as (b & -> & Hb); [by left |]. destruct IH as (b' & Hb' & Hl); [intros y Hy; apply H; by right |].
  cbn [mbind option_bind]. setoid_rewrite elem_of_cons. destruct b.
  - exists b'. split; [done |]. rewrite Hl. split; [intros Ha y [-> | Hy]; [by apply Hb | by apply Ha] | intros Ha y Hy; apply Ha; by right].
  - exists false. split; [done |]. split; [done |]. intros Ha. apply Hb, Ha. by left.
Qed.

Lemma packageIndependent_spec scope : ∃ b, packageIndependent scope = Some b ∧
  (b = true ↔ scope.(sf_PackageEligible) = true ∧ top scope.(sf_PackageOwners) (package_path scope) scope.(sf_PackageIndex)).
Proof.
  unfold packageIndependent. destruct (sf_PackageEligible scope); cbn [negb]; [| exists false; split; [done |]; split; [done | by intros [? _]]].
  set (owners := sf_PackageOwners scope). set (root := sf_PackageIndex scope). set (path := package_path scope).
  destruct (packageAncestors_spec owners root) as (l & -> & Hl). cbn [mbind option_bind].
  destruct (all_ok_spec (package_ok scope) (λ a, tc (above owners) a root ∧ compare (path a) (path root) ≠ Lt) l) as (b & Hb & Hiff).
  { intros a Ha%Hl. unfold package_ok. fold owners root path. destruct (packageAncestors_spec owners a) as (la & -> & Hla). cbn [mbind option_bind].
    eexists. split; [reflexivity |]. rewrite andb_true_iff, bool_decide_eq_true, Hla, negb_true_iff. unfold string_lt. rewrite bool_decide_eq_false.
    destruct Ha as [Hne _]. split; [intros [[_ ?] ?]; done | intros [? ?]; split; [split; [congruence | done] | done]]. }
  exists b. split; [done |]. rewrite Hiff. unfold top. split.
  - intros H. split; [done |]. intros a Hne Ha. by apply H, Hl.
  - intros [_ H] a [Hne Ha]%Hl. by apply H.
Qed.

(** ** Ancestors of a root *)

Lemma add_ancestors_spec target l pending : NoDup pending →
  match add_ancestors target l pending with
  | inr b => b = true ∧ target ∈ l
  | inl pending' => target ∉ l ∧ NoDup pending' ∧ pending `prefix_of` pending' ∧
      ∀ x, x ∈ pending' ↔ x ∈ pending ∨ x ∈ l ∧ x ≠ no_resource
  end.
Proof.
  revert pending. induction l as [| a l IH]; intros pending Hnd; cbn [add_ancestors].
  - split; [by intros ?%elem_of_nil | split; [done | split; [done |]]]. intros x. rewrite elem_of_nil. tauto.
  - case_bool_decide as Ha; [by split; [| subst; left] |].
    destruct (negb (bool_decide (a = no_resource)) && negb (bool_decide (a ∈ pending))) eqn:E.
    + apply andb_true_iff in E as [Hz%negb_true_iff%bool_decide_eq_false Hn%negb_true_iff%bool_decide_eq_false].
      assert (NoDup (pending ++ [a])) as Hnd'.
      { apply NoDup_app. split; [done |]. split; [| apply NoDup_singleton]. intros x Hx ->%list_elem_of_singleton. done. }
      specialize (IH _ Hnd'). destruct (add_ancestors target l (pending ++ [a])) as [p' | b].
      * destruct IH as (Ht & Hp & Hpre & Hin). split; [by rewrite not_elem_of_cons |]. split; [done |].
        split; [etrans; [apply prefix_app_r; reflexivity | exact Hpre] |]. intros x. rewrite Hin, elem_of_app, list_elem_of_singleton, elem_of_cons.
        split; [intros [[? | ->] | [? ?]]; tauto | intros [? | [[-> | ?] ?]]; tauto].
      * destruct IH as [-> ?]. split; [done | by right].
    + specialize (IH _ Hnd). destruct (add_ancestors target l pending) as [p' | b].
      * destruct IH as (Ht & Hp & Hpre & Hin). split; [by rewrite not_elem_of_cons |]. split; [done |]. split; [done |].
        intros x. rewrite Hin, elem_of_cons. split; [tauto |]. intros [? | [[-> | ?] Hz]]; [by left | | by right].
        left. rewrite (bool_decide_false _ Hz) in E. cbn in E. by apply negb_false_iff, bool_decide_eq_true in E.
      * destruct IH as [-> ?]. split; [done | by right].
Qed.

(** [b] materializes [a]. *)
Definition materializes (ev : RootEvidence) (a b : NamedResource) : Prop := b ∈ materialized_by ev a ∧ b ≠ no_resource.

Definition descends (ev : RootEvidence) (owner : NamedResource) : Prop :=
  ∃ a, rtc (materializes ev) owner a ∧ ev.(ev_Identity) ∈ materialized_by ev a.

Definition all_materializers (ev : RootEvidence) : list NamedResource :=
  concat (map (λ candidate, map (λ p, Materializer p candidate.(cv_Identity)) candidate.(cv_Productions)) ev.(ev_CoveringOwners)).

Lemma materialized_by_sub ev id : materialized_by ev id ⊆ all_materializers ev.
Proof.
  intros x. unfold materialized_by, all_materializers. rewrite !list_elem_of_In, !in_concat. intros (l & (c & <- & Hc)%in_map_iff & Hx).
  eexists. split; [| exact Hx]. apply in_map_iff. exists c. split; [done |]. apply list_elem_of_In. apply list_elem_of_In, list_elem_of_filter in Hc. tauto.
Qed.

Lemma all_materializers_length ev : Datatypes.S (length (all_materializers ev)) = ancestry_fuel ev.
Proof.
  unfold ancestry_fuel, all_materializers. f_equal. induction (ev_CoveringOwners ev) as [| c l IH]; [done |]. cbn [map concat].
  by rewrite !length_app, IH, length_map.
Qed.

Record climbing (ev : RootEvidence) (owner : NamedResource) (st : list NamedResource * nat) : Prop := {
  cl_start : owner ∈ st.1;
  cl_nodup : NoDup st.1;
  cl_reach x : x ∈ st.1 → rtc (materializes ev) owner x;
  cl_sub x : x ∈ st.1 → x ∈ owner :: all_materializers ev;
  cl_done i x : st.1 !! i = Some x → i < st.2 → ev.(ev_Identity) ∉ materialized_by ev x ∧ ∀ y, materializes ev x y → y ∈ st.1;
}.

Lemma rootAncestor_spec ev owner : ∃ b, rootAncestor ev owner = Some b ∧ (b = true ↔ descends ev owner).
Proof.
  unfold rootAncestor.
  apply (loop_spec (ancestry_step ev) (climbing ev owner) (λ st, ancestry_fuel ev - st.2) (λ b, b = true ↔ descends ev owner)).
  - intros [pending i] st [Hst Hnd Hre Hsub Hdone]. unfold ancestry_step. cbn [fst snd] in *. destruct (pending !! i) as [id |] eqn:El; [| done].
    pose proof (add_ancestors_spec (ev_Identity ev) (materialized_by ev id) pending Hnd) as Hadd.
    destruct (add_ancestors _ _ _) as [pending' | b]; [| done]. intros [= <-]. destruct Hadd as (Ht & Hnd' & [new ->] & Hin). split.
    + split; cbn [fst snd].
      * apply elem_of_app. by left.
      * done.
      * intros x [Hx | [Hx Hz]]%Hin; [by apply Hre |]. eapply rtc_r; [apply Hre; by eapply list_elem_of_lookup_2 | by split].
      * intros x [Hx | [Hx Hz]]%Hin; [by apply Hsub |]. right. by eapply materialized_by_sub.
      * intros j x Hj Hlt. destruct (decide (j = i)) as [-> | Hne].
        -- rewrite (lookup_app_l_Some _ _ _ _ El) in Hj. injection Hj as <-. split; [done |]. intros y [Hy Hz]. apply Hin. by right.
        -- assert (pending !! j = Some x) as Hj'.
           { rewrite lookup_app_l in Hj; [done |]. apply lookup_lt_Some in El. lia. }
           destruct (Hdone j x Hj') as [H1 H2]; [lia |]. split; [done |]. intros y Hy. apply elem_of_app. left. by apply H2.
    + cbn [snd]. apply lookup_lt_Some in El. assert (length pending ≤ ancestry_fuel ev); [| lia].
      rewrite <- all_materializers_length. apply (submseteq_length pending (owner :: all_materializers ev)). by apply NoDup_submseteq.
  - intros [pending i] b [Hst Hnd Hre Hsub Hdone]. unfold ancestry_step. cbn [fst snd] in *. destruct (pending !! i) as [id |] eqn:El.
    + pose proof (add_ancestors_spec (ev_Identity ev) (materialized_by ev id) pending Hnd) as Hadd.
      destruct (add_ancestors _ _ _) as [| b']; [done |]. intros [= <-]. destruct Hadd as [-> Hid]. split; [| done]. intros _.
      exists id. split; [apply Hre; by eapply list_elem_of_lookup_2 | done].
    + intros [= <-]. split; [done |]. intros (a & Ha & Hid). exfalso. apply lookup_ge_None in El.
      assert (∀ x, x ∈ pending → ev_Identity ev ∉ materialized_by ev x ∧ ∀ y, materializes ev x y → y ∈ pending) as Hcl.
      { intros x [j Hj]%list_elem_of_lookup. apply (Hdone j x Hj). apply lookup_lt_Some in Hj. lia. }
      assert (a ∈ pending) as Hap; [| by destruct (Hcl a Hap)].
      clear Hid Hre Hsub. induction Ha as [| x y z Hxy _ IH]; [done |]. apply IH. by destruct (Hcl x Hst) as [_ ?]; auto.
  - split; cbn [fst snd].
    + by left.
    + apply NoDup_singleton.
    + intros x ->%list_elem_of_singleton. reflexivity.
    + intros x ->%list_elem_of_singleton. by left.
    + intros j x _ Hj. lia.
  - cbn [snd]. lia.
Qed.

(** ** The owner of a captured root *)

Definition local_peer (ev : RootEvidence) (owner : NamedResource) : bool :=
  let scope := ev.(ev_Scope) in
  let group := default [] (scope.(sf_Claims) !! scope.(sf_Claim)) in
  (KindInfoOf ev.(ev_Identity)).(Structural) && scope.(sf_Application) && scope.(sf_LocalApplication) && bool_decide (owner ∈ group) &&
  existsb (λ peer, bool_decide (peer = ev.(ev_Identity)) || selfClaim peer ev.(ev_Record).(rr_Authored) scope.(sf_Records)) group.

(** [owner] descends from the root, or shares its local claim. *)
Definition peer (ev : RootEvidence) (owner : NamedResource) : Prop :=
  (KindInfoOf ev.(ev_Identity)).(Resource.Parent) = true ∧ descends ev owner ∨ local_peer ev owner = true.

Lemma publicRootPeer_spec ev owner : ∃ b, publicRootPeer ev owner = Some b ∧ (b = true ↔ peer ev owner).
Proof.
  unfold publicRootPeer, peer, local_peer. destruct (rootAncestor_spec ev owner) as (b & -> & Hb).
  destruct (Resource.Parent _), b; cbn [mbind option_bind]; [exists true; tauto | | |];
    (destruct (Structural _), (sf_Application _), (sf_LocalApplication _); cbn [negb orb andb]; eexists; (split; [reflexivity |]); rewrite <- ?Hb; naive_solver).
Qed.

Lemma first_owner_spec {A} (check : A → option (option NamedResource)) (good : A → NamedResource → Prop) l :
  (∀ x, x ∈ l → ∃ r, check x = Some r ∧ ∀ o, r = Some o ↔ good x o) →
  ∃ o, first_owner check l = Some o ∧ ((∃ x, x ∈ l ∧ good x o) ∨ o = no_resource ∧ ∀ x o, x ∈ l → ¬ good x o).
Proof.
  intros H. induction l as [| x l IH]; [exists no_resource; split; [done |]; right; split; [done |]; by intros x o ?%elem_of_nil |].
  cbn [first_owner]. destruct (H x) as (r & -> & Hr); [by left |]. cbn [mbind option_bind]. destruct r as [o |].
  - exists o. split; [done |]. left. exists x. split; [by left | by apply Hr].
  - destruct IH as (o & Ho & [(y & Hy & Hg) | [Hn Hall]]); [intros y Hy; apply H; by right | |]; exists o; (split; [done |]).
    + left. exists y. split; [by right | done].
    + right. split; [done |]. intros y o' Hy. apply elem_of_cons in Hy as [-> | Hy]; [| by apply Hall]. intros Hg. by apply Hr in Hg.
Qed.

Definition production_owner (ev : RootEvidence) (p : Production) : NamedResource :=
  let owner := Materializer p ev.(ev_Identity) in
  if bool_decide (owner = no_resource) && ev.(ev_StaticOwner) then p.(Membership.Owner) else owner.

Definition native_builder (ev : RootEvidence) : bool :=
  let record := ev.(ev_Record) in
  ReportHidden record.(rr_Parent) && bool_decide (record.(rr_Parent) = record.(rr_BuilderOwner)) && ev.(ev_Scope).(sf_Prepared).

Definition root_productions (ev : RootEvidence) (occurrence : OccurrenceID) : list Production :=
  if bool_decide (occurrence = no_occurrence) then ev.(ev_Productions) else ev.(ev_LiveProductions).

(** A production of the root is an owner's. *)
Definition produced_by (ev : RootEvidence) (p : Production) (owner : NamedResource) : Prop :=
  owner = production_owner ev p ∧ owner ≠ no_resource ∧ owner ≠ ev.(ev_Identity) ∧ ¬ peer ev owner ∧
  ¬ (native_builder ev = true ∧ owner = ev.(ev_Record).(rr_BuilderOwner)).

(** The path of an owner covers the root. *)
Definition covered_by (ev : RootEvidence) (candidate : RootCoveringOwner) (owner : NamedResource) : Prop :=
  owner = candidate.(cv_Identity) ∧ owner ≠ ev.(ev_Identity) ∧ coveringRoot ev candidate = true ∧ ¬ peer ev owner.

(** An owner other than the root supplies it. *)
Definition foreign (ev : RootEvidence) (occurrence : OccurrenceID) (owner : NamedResource) : Prop :=
  (∃ p, p ∈ root_productions ev occurrence ∧ produced_by ev p owner) ∨
  ev.(ev_Record).(rr_Path) ≠ "" ∧ ∃ candidate, candidate ∈ ev.(ev_CoveringOwners) ∧ covered_by ev candidate owner.

Lemma publicRootOwner_spec ev occurrence : (∀ c, c ∈ ev.(ev_CoveringOwners) → c.(cv_Identity) ≠ no_resource) →
  ∃ owner, publicRootOwner ev occurrence = Some owner ∧
    (foreign ev occurrence owner ∧ owner ≠ no_resource ∨ owner = no_resource ∧ ∀ o, ¬ foreign ev occurrence o).
Proof.
  intros Hid. unfold publicRootOwner. fold (root_productions ev occurrence). fold (native_builder ev).
  match goal with |- context [first_owner ?f (root_productions ev occurrence)] =>
    destruct (first_owner_spec f (produced_by ev) (root_productions ev occurrence)) as (o1 & -> & H1) end.
  { intros p _. cbv zeta. fold (production_owner ev p). set (owner := production_owner ev p). unfold produced_by. fold owner.
    destruct (native_builder ev && bool_decide (owner = rr_BuilderOwner (ev_Record ev))) eqn:En.
    { exists None. split; [done |]. intros o. split; [done |]. intros (-> & _ & _ & _ & Hn). apply andb_true_iff in En as [? ?%bool_decide_eq_true]. by destruct Hn. }
    destruct (bool_decide (owner = no_resource) || bool_decide (owner = ev_Identity ev)) eqn:Eo.
    { exists None. split; [done |]. intros o. split; [done |]. intros (-> & Hz & Hi & _). by rewrite (bool_decide_false _ Hz), (bool_decide_false _ Hi) in Eo. }
    destruct (publicRootPeer_spec ev owner) as (b & -> & Hb). cbn [mbind option_bind]. eexists. split; [reflexivity |]. intros o.
    apply orb_false_iff in Eo as [Hz%bool_decide_eq_false Hi%bool_decide_eq_false]. destruct b.
    - split; [done |]. intros (-> & _ & _ & Hp & _). destruct Hp. by apply Hb.
    - split; [| by intros (-> & _)]. intros [= <-]. split; [done |]. split; [done |]. split; [done |]. split; [rewrite <- Hb; done |].
      intros [Hnb Ho]. rewrite Hnb, (bool_decide_true _ Ho) in En. done. }
  cbn [mbind option_bind]. destruct H1 as [(p & Hp & Hg) | [-> Hno]].
  - assert (o1 ≠ no_resource) as Hz by apply Hg. rewrite (bool_decide_false _ Hz). cbn [negb]. exists o1. split; [done |]. left. split; [| done].
    left. by exists p.
  - rewrite bool_decide_true by done. cbn [negb]. case_bool_decide as Hpath.
    + exists no_resource. split; [done |]. right. split; [done |]. intros o [(p & Hp & Hg) | [? _]]; [by apply (Hno p o) | done].
    + match goal with |- context [first_owner ?f (ev_CoveringOwners ev)] =>
        destruct (first_owner_spec f (covered_by ev) (ev_CoveringOwners ev)) as (o2 & -> & H2) end.
      { intros c _. unfold covered_by. set (owner := cv_Identity c).
        destruct (bool_decide (owner = ev_Identity ev) || negb (coveringRoot ev c)) eqn:Eo.
        { exists None. split; [done |]. intros o. split; [done |]. intros (-> & Hi & Hc & _). by rewrite (bool_decide_false _ Hi), Hc in Eo. }
        apply orb_false_iff in Eo as [Hi%bool_decide_eq_false Hc%negb_false_iff].
        destruct (publicRootPeer_spec ev owner) as (b & -> & Hb). cbn [mbind option_bind]. eexists. split; [reflexivity |]. intros o. destruct b.
        - split; [done |]. intros (-> & _ & _ & Hp). destruct Hp. by apply Hb.
        - split; [| by intros (-> & _)]. intros [= <-]. split; [done |]. split; [done |]. split; [done |]. rewrite <- Hb. done. }
      exists o2. split; [done |]. destruct H2 as [(c & Hc & Hg) | [-> Hno2]].
      * left. split; [right; split; [done |]; by exists c |]. destruct Hg as [-> _]. by apply Hid.
      * right. split; [done |]. intros o [(p & Hp & Hg) | [_ (c & Hc & Hg)]]; [by apply (Hno p o) | by apply (Hno2 c o)].
Qed.

(** ** Roots *)

Lemma initialRootIndependent_total ev owner : ∃ b, initialRootIndependent ev owner = Some b.
Proof.
  unfold initialRootIndependent. destruct (packageIndependent_spec (ev_Scope ev)) as (b & -> & _).
  destruct (negb (sf_Initial (ev_Scope ev)) || _); [by eexists |]. destruct (negb (bool_decide (owner = _)) && _); [by eexists |].
  destruct (sf_PackageKnown (ev_Scope ev)), (sf_NativePackage (ev_Scope ev)); try destruct b; cbn [mbind option_bind negb]; try (by eexists);
    destruct (negb (sf_EntryKustomize (ev_Scope ev)) || _); by eexists.
Qed.

Lemma classify_total previous ev : ∃ r, classify previous ev = Some r.
Proof.
  unfold classify, classifyAuthoredRoot. destruct (packageIndependent_spec (ev_Scope ev)) as (b & -> & _).
  destruct (initialRootIndependent_total ev (scopeOwner (ev_Identity ev) (rr_Authored (ev_Record ev)) (ev_Scope ev))) as (b' & ->).
  cbn [mbind option_bind]. destruct (negb (sf_NamespaceEligible (ev_Scope ev)) || _); [by eexists |]. destruct (sf_NativeEntry (ev_Scope ev)); [by eexists |].
  destruct (sf_PackageRoot (ev_Scope ev)); [by eexists |]. case_bool_decide; [by eexists |].
  destruct previous as [previous |]; [destruct (rs_Independent previous) |]; by eexists.
Qed.

Lemma classifyRoot_total ev : ∃ r, classifyRoot ev = Some r.
Proof.
  unfold classifyRoot. destruct (ev_InitialScope ev) as [scope |]; [| apply classify_total].
  destruct (classify_total None (initial_evidence ev scope)) as (r & ->). apply classify_total.
Qed.

Lemma source_support_spec sources b s :
  (source_support sources b s).2 = true ↔ s = true ∨ ∃ x, x ∈ sources ∧ x.(ss_Allowed) = true ∧ x.(ss_Available) = true.
Proof.
  revert b. induction sources as [| x l IH]; intros b; cbn [source_support snd].
  - setoid_rewrite elem_of_nil. naive_solver.
  - setoid_rewrite elem_of_cons. destruct (ss_Allowed x && ss_Available x) eqn:E; cbn [snd].
    + apply andb_true_iff in E. split; [intros _; right; exists x; tauto | done].
    + rewrite IH. apply andb_false_iff in E. split; [intros [? | (y & ? & ?)]; [by left | right; exists y; tauto] |].
      intros [? | (y & [-> | Hy] & H1 & H2)]; [by left | destruct E; congruence | right; by exists y].
Qed.

(** What the classification alone makes a member. *)
Definition member (initial : RootResult) : bool :=
  if bool_decide (initial.(rs_Occurrence) = no_occurrence) then initial.(rs_Admitted) else initial.(rs_Independent).

(** The declaration of a root is supported: it has no location, or one of its sources is
    both allowed and available. *)
Definition supported (ev : RootEvidence) (initial : RootResult) : Prop :=
  initial.(rs_Occurrence) = no_occurrence ∧ ev.(ev_Scope).(sf_NativeEntry) = false ∨
  ∃ source, source ∈ ev.(ev_Sources) ∧ source.(ss_Allowed) = true ∧ source.(ss_Available) = true.

Definition qualifies (ev : RootEvidence) (initial : RootResult) : Prop :=
  ev.(ev_Stale) = false ∧ (ev.(ev_Supplied) = true ∨
    member initial = true ∧ supported ev initial ∧
    (ev.(ev_Scope).(sf_NativeEntry) = true ∨ ∀ owner, ¬ foreign ev initial.(rs_Occurrence) owner)).

Lemma supportRoot_spec ev r owner accepted : let r' := supportRoot ev r owner accepted in
  (r'.(rs_Independent) = true ↔ ev.(ev_Stale) = false ∧ (ev.(ev_Supplied) = true ∨
     r.(rs_Independent) = true ∧ supported ev r ∧ owner = no_resource)) ∧
  (r'.(rs_Independent) = true → r'.(rs_Admitted) = true ∧ r'.(rs_Owner) = no_resource ∧ r'.(rs_Entry) = true) ∧
  (r.(rs_Entry) = false → r'.(rs_Entry) = true → r'.(rs_Independent) = true ∨ r'.(rs_Occurrence) = r.(rs_Occurrence) ∧ accepted = true).
Proof.
  cbv zeta. unfold supportRoot, supported. destruct (ev_Stale ev); [cbn; naive_solver |]. destruct (ev_Supplied ev); [cbn; naive_solver |].
  destruct (rs_Independent r) eqn:Hi; cbn [negb]; [| rewrite Hi; naive_solver].
  set (unlocated := bool_decide (rs_Occurrence r = no_occurrence) && negb (sf_NativeEntry (ev_Scope ev))).
  pose proof (source_support_spec (ev_Sources ev) unlocated unlocated) as Hs.
  destruct (source_support _ _ _) as [is_open s]. cbn [snd] in Hs. cbn [rs_Independent rs_Admitted rs_Owner rs_Entry rs_Occurrence].
  assert (unlocated = true ↔ rs_Occurrence r = no_occurrence ∧ sf_NativeEntry (ev_Scope ev) = false) as Hu.
  { unfold unlocated. by rewrite andb_true_iff, bool_decide_eq_true, negb_true_iff. }
  rewrite !negb_involutive. destruct (decide (owner = no_resource)) as [Ho | Ho].
  - rewrite (bool_decide_true _ Ho), andb_true_r. split; [| split].
    + rewrite Hs, Hu. split; [intros H; split; [done |]; by right | by intros [_ [? | (_ & ? & _)]]].
    + intros H. destruct s; [done |]. exfalso. enough (false = true) by done. apply Hs. by rewrite Hu.
    + intros _. destruct s; [by left |]. cbn. intros ->. by right.
  - rewrite (bool_decide_false _ Ho), andb_false_r. cbn [orb negb]. split; [naive_solver |]. split; [done |]. intros _ ->. by right.
Qed.

(** Membership of a captured root. *)
Lemma Root_captured_spec ev : (∀ c, c ∈ ev.(ev_CoveringOwners) → c.(cv_Identity) ≠ no_resource) → ev.(ev_Captured) = true →
  ∃ initial r, classifyRoot (classification ev) = Some initial ∧ Root ev = Some r ∧
    (r.(rs_Independent) = true ↔ qualifies ev initial) ∧
    (r.(rs_Independent) = true → r.(rs_Admitted) = true ∧ r.(rs_Owner) = no_resource).
Proof.
  intros Hid Hcap. unfold Root. destruct (classifyRoot_total (classification ev)) as (initial & ->). rewrite Hcap. cbn [mbind option_bind].
  exists initial. unfold captured, qualifies, member. cbv zeta.
  set (r0 := if bool_decide (rs_Occurrence initial = no_occurrence) then set_independent (rs_Admitted initial) initial else initial).
  assert (rs_Occurrence r0 = rs_Occurrence initial) as Eocc by (unfold r0; by case_bool_decide).
  assert (rs_Independent r0 = if bool_decide (rs_Occurrence initial = no_occurrence) then rs_Admitted initial else rs_Independent initial) as Eind
    by (unfold r0; by case_bool_decide).
  set (needs := negb (ev_Stale ev) && rs_Independent r0 && negb (ev_Supplied ev) && negb (sf_NativeEntry (ev_Scope ev))).
  destruct (publicRootOwner_spec ev (rs_Occurrence r0) Hid) as (owner & Ho & Hof).
  assert (∃ o, (if needs then publicRootOwner ev (rs_Occurrence r0) else Some no_resource) = Some o ∧ (needs = true → o = owner) ∧ (needs = false → o = no_resource))
    as (o & -> & Ho1 & Ho2) by (destruct needs; eexists; (split; [first [exact Ho | reflexivity] | done])).
  cbn [mbind option_bind]. destruct (supportRoot_spec ev r0 o (needs && acceptedRootEntry ev (ev_Occurrence ev))) as (Hi & Ha & _).
  eexists. split; [done |]. split; [reflexivity |]. cbn [rs_Independent rs_Admitted rs_Owner]. split; [| intros H; by destruct (Ha H) as (? & ? & _)].
  rewrite Hi, <- Eind, <- Eocc. unfold supported. rewrite Eocc. clear Hi Ha.
  destruct (ev_Stale ev); [naive_solver |]. destruct (ev_Supplied ev); [naive_solver |]. destruct (rs_Independent r0); [| naive_solver].
  destruct (sf_NativeEntry (ev_Scope ev)); cbn in needs, Ho1, Ho2; unfold needs in Ho1, Ho2; [rewrite (Ho2 eq_refl); tauto |].
  rewrite (Ho1 eq_refl), Eocc in *. destruct Hof as [[Hf Hz] | [-> Hno]]; [| tauto]. split; [intros (_ & [? | (_ & _ & ?)]); done |].
  intros (_ & [? | (_ & _ & [? | Hn])]); [done | done |]. by destruct (Hn owner).
Qed.

(** The scope of the package [i] of the same graph. *)
Definition at_package (i : nat) (scope : RootScopeFacts) : RootScopeFacts :=
  mkRootScope scope.(sf_Path) scope.(sf_Eligibility) scope.(sf_Owners) scope.(sf_Peers) scope.(sf_Records) scope.(sf_Claims)
    scope.(sf_Claim) scope.(sf_Loaded) scope.(sf_Bootstrap) scope.(sf_Initial) scope.(sf_Terminal) scope.(sf_NamespaceEligible)
    scope.(sf_NativeOperand) scope.(sf_NativeEntry) scope.(sf_EntryKustomize) scope.(sf_Application) scope.(sf_LocalApplication)
    scope.(sf_SameEntryOrigin) scope.(sf_Prepared) scope.(sf_Candidate) scope.(sf_Compact) scope.(sf_PackageKnown)
    scope.(sf_PackagePaths) scope.(sf_PackageOwners) i scope.(sf_PackageRoot) scope.(sf_PackageEligible) scope.(sf_PackageRunnable)
    scope.(sf_NativePackage).

End root.

(** ** Properties *)

(** Claim C15: in an eligible package graph, every package has an independent one among
    itself and the packages above it, so each package is reached from a root; and two
    independent packages one of which is above the other have the same path, so a cycle
    of packages has one root up to its path. *)
Theorem packages_have_roots scope : scope.(sf_PackageEligible) = true →
  (∀ i, ∃ r, rtc (above scope.(sf_PackageOwners)) i r ∧ packageIndependent (at_package r scope) = Some true) ∧
  (∀ r r', packageIndependent (at_package r scope) = Some true → packageIndependent (at_package r' scope) = Some true →
    rtc (above scope.(sf_PackageOwners)) r r' → package_path scope r = package_path scope r').
Proof.
  intros He. assert (∀ r, packageIndependent (at_package r scope) = Some true ↔ top (sf_PackageOwners scope) (package_path scope) r) as H.
  { intros r. destruct (packageIndependent_spec (at_package r scope)) as (b & -> & Hb). cbn in Hb. change (package_path (at_package r scope)) with (package_path scope) in Hb.
    split; [intros [= ->]; by apply Hb | intros Ht; f_equal; by apply Hb]. }
  split.
  - intros i. destruct (top_above (sf_PackageOwners scope) (package_path scope) i) as (r & Hr & Ht). exists r. by rewrite H.
  - intros r r'. rewrite !H. intros Hr Hr' Hrr. destruct (decide (r = r')) as [-> | Hne]; [done |].
    apply rtc_tc in Hrr as [? | Hrr]; [done |]. destruct (Hr r' ltac:(congruence) Hrr) as [Hback Hle]. destruct (Hr' r Hne Hback) as [_ Hge].
    destruct (compare (package_path scope r) (package_path scope r')) eqn:E; [by apply compare_eq | done |]. by apply compare_gt_lt in E.
Qed.


(** ** A root *)

Definition example_scope : RootScopeFacts :=
  mkRootScope "" RootEligible [] [] ∅ ∅ "" false false false false true false false false false false false false true false
    true ["a"; "b"; "c"] [[1]; [0]; [1]] 2 false true true false.

Definition example_root (live : list Production) (sources : list RootSourceSupport) : RootEvidence (O := unit) :=
  mkEvidence None (mkResource "" "ConfigMap" "ns" "x") (mkRootRecord "" no_resource no_resource no_resource)
    (mkRootRecord "" no_resource no_resource no_resource) false (mkOccurrence "src" "a.yaml" 0 0) example_scope None no_occurrence
    [] live None sources [] false false false false "" true false.

Definition run_root (ev : RootEvidence (O := unit)) : option RootResult := Root (λ _ _, true) (λ _, None) (λ _, true) ev.

Definition apps : NamedResource := mkResource "kustomize.toolkit.fluxcd.io" "Kustomization" "ns" "apps".

Definition from_apps : Production := mkProduction apps no_resource no_resource no_resource "" "".

Example run_example :
  (λ r, (r.(rs_Independent), r.(rs_Owner))) <$> run_root (example_root [] [mkSupport true true "src"]) = Some (true, no_resource) ∧
  (λ r, (r.(rs_Independent), r.(rs_Admitted))) <$> run_root (example_root [] [mkSupport true false "src"]) = Some (false, true) ∧
  (λ r, (r.(rs_Independent), r.(rs_Owner))) <$> run_root (example_root [from_apps] [mkSupport true true "src"]) = Some (false, apps) ∧
  map (λ i, packageIndependent (at_package i example_scope)) [0; 1; 2] = [Some true; Some false; Some false].
Proof. by vm_compute. Qed.

Lemma packages_have_roots_witness : example_scope.(sf_PackageEligible) = true ∧
  ∃ r, rtc (above example_scope.(sf_PackageOwners)) 2 r ∧ packageIndependent (at_package r example_scope) = Some true.
Proof. split; [reflexivity |]. exact (proj1 (packages_have_roots example_scope eq_refl) 2). Defined.

