(* ===== verification/Backoff.v ===== *)
(** * Waits between attempts (pkg/source/cache/retry.go, outcome.go)

    The doubling schedule of waits, on 64-bit durations in nanoseconds, and the deadline it
    gives a recorded failure.  An instant is its nanoseconds since January 1 of year 1 in
    UTC, with the offset of its zone. *)

From S2P Require Import Prelude.

Open Scope Z_scope.

Definition Millisecond : Z := 1000000.
Definition Second : Z := 1000 * Millisecond.
Definition Minute : Z := 60 * Second.

Definition defaultMaximumBackoff : Z := 15 * Minute.
Definition defaultMinimumBackoff : Z := 750 * Millisecond.

Record retrySchedule := mkSchedule { delay : Z; ceiling : Z }.

(** A turn of the doubling loop, on the attempts left and the delay. *)
Definition backoff_step (maximum : Z) (s : Z * Z) : Z * Z + Z :=
  let '(attempt, delay) := s in
  if attempt <=? 0 then inr delay
  else if int64 (maximum - delay) <=? delay then inr maximum
  else inl (attempt - 1, int64 (delay * 2)).

(** Every turn at least doubles a positive delay, so a 64-bit one leaves in time. *)
Definition backoff_fuel : nat := 63.

Definition backoffSchedule (attempt minimum maximum : Z) : option retrySchedule :=
  let maximum := if maximum <=? 0 then defaultMaximumBackoff else maximum in
  let minimum := if minimum <=? 0 then defaultMinimumBackoff else minimum in
  delay ← loop (backoff_step maximum) backoff_fuel (attempt, Z.min minimum maximum);
  Some (mkSchedule delay maximum).

Definition MaxUint32 : Z := 4294967295.

Definition nextOutcomeCount (count : Z) : Z := if bool_decide (count = MaxUint32) then count else count + 1.

(** *** Instants *)

Record time := mkTime { ns : Z; offset : Z }.

Definition IsZero (t : time) : bool := bool_decide (t.(ns) = 0).
Definition Before (t u : time) : bool := t.(ns) <? u.(ns).
Definition After (t u : time) : bool := u.(ns) <? t.(ns).
Definition Add (t : time) (d : Z) : time := mkTime (t.(ns) + d) t.(offset).

(** [Year], by the proleptic Gregorian calendar, in the zone of the instant. *)
Definition days_before_year (y : Z) : Z := let p := y - 1 in 365 * p + p / 4 - p / 100 + p / 400.
Definition days (t : time) : Z := (t.(ns) + t.(offset) * Second) / (24 * 60 * Minute).

(** The year is the last one that begins by that day; it is within one of the estimate
    by the mean length of a year. *)
Definition Year (t : time) : Z :=
  let d := days t in
  let y := 400 * d / 146097 + 1 in
  if days_before_year (y + 1) <=? d then y + 1 else if days_before_year y <=? d then y else y - 1.

(** [outcomeDeadline]. *)
Definition outcomeDeadline (completed : time) (count : Z) : option (time * bool) :=
  if IsZero completed || (Year completed <? 1) || (9999 <? Year completed) || negb (bool_decide (completed.(offset) = 0)) || bool_decide (count = 0)
  then Some (mkTime 0 0, false)
  else
    schedule ← backoffSchedule (count - 1) 0 0;
    let deadline := Add completed schedule.(delay) in
    Some (deadline, (Year deadline <=? 9999) && After deadline completed).

(** ** The schedule *)

Definition int64_max : Z := 9223372036854775807.

Ltac i64 := unfold is_int64, int64_max in *; lia.

(** [min(maximum, minimum * 2^attempt)], with the defaults for nonpositive bounds. *)
Definition bounded_double (attempt minimum maximum : Z) : Z :=
  let maximum := if maximum <=? 0 then defaultMaximumBackoff else maximum in
  let minimum := if minimum <=? 0 then defaultMinimumBackoff else minimum in
  Z.min maximum (minimum * 2 ^ attempt).

Section schedule.
Context (maximum : Z) (Hmax : 0 < maximum <= int64_max).

Definition backoff_inv (target : Z) (s : Z * Z) : Prop :=
  0 <= s.1 ∧ 0 < s.2 <= maximum ∧ Z.min maximum (s.2 * 2 ^ s.1) = target.

Definition backoff_measure (s : Z * Z) : nat := Z.to_nat (63 - Z.log2 s.2).

Lemma log2_small d : 0 < d <= int64_max → 0 <= Z.log2 d <= 62.
Proof.
  intros Hd. split; [apply Z.log2_nonneg |]. assert (Z.log2 d < 63); [| lia]. apply Z.log2_lt_pow2; [lia |].
  change (2 ^ 63) with 9223372036854775808. unfold int64_max in Hd. lia.
Qed.

Lemma backoff_step_inv target s s' : backoff_inv target s → backoff_step maximum s = inl s' → backoff_inv target s' ∧ (backoff_measure s' < backoff_measure s)%nat.
Proof.
  destruct s as [a d]. intros (Ha & Hd & Ht). cbn [fst snd] in *. unfold backoff_step.
  destruct (a <=? 0) eqn:E1; [done |]. unfold int64_max in Hmax. rewrite (int64_id (maximum - d)) by i64.
  destruct (maximum - d <=? d) eqn:E2; [done |]. intros [= <-]. apply Z.leb_gt in E1, E2.
  rewrite int64_id by i64. unfold backoff_inv, backoff_measure. cbn [fst snd].
  assert (2 ^ a = 2 * 2 ^ (a - 1)) as E by (rewrite <- Z.pow_succ_r by lia; f_equal; lia).
  split; [split; [lia | split; [lia |]] |].
  - rewrite <- Ht, E. f_equal. lia.
  - rewrite (Z.mul_comm d 2), Z.log2_double by lia. pose proof (log2_small d ltac:(unfold int64_max; lia)). lia.
Qed.

Lemma backoff_step_end target s r : backoff_inv target s → backoff_step maximum s = inr r → r = target.
Proof.
  destruct s as [a d]. intros (Ha & Hd & Ht). cbn [fst snd] in *. unfold backoff_step.
  destruct (a <=? 0) eqn:E1.
  - intros [= <-]. assert (a = 0) as -> by lia. rewrite Z.pow_0_r in Ht. lia.
  - unfold int64_max in Hmax. rewrite (int64_id (maximum - d)) by i64. destruct (maximum - d <=? d) eqn:E2; [| done]. intros [= <-].
    apply Z.leb_gt in E1. apply Z.leb_le in E2.
    assert (2 ^ a = 2 * 2 ^ (a - 1)) as E by (rewrite <- Z.pow_succ_r by lia; f_equal; lia).
    assert (0 < 2 ^ (a - 1)) by (apply Z.pow_pos_nonneg; lia). rewrite <- Ht, E. nia.
Qed.

Lemma backoff_runs attempt minimum : 0 <= attempt → 0 < minimum →
  loop (backoff_step maximum) backoff_fuel (attempt, Z.min minimum maximum) = Some (Z.min maximum (minimum * 2 ^ attempt)).
Proof.
  intros Ha Hm.
  destruct (loop_spec (backoff_step maximum) (backoff_inv (Z.min maximum (minimum * 2 ^ attempt))) backoff_measure
    (λ r, r = Z.min maximum (minimum * 2 ^ attempt)) backoff_fuel (attempt, Z.min minimum maximum)) as (r & -> & ->); [| | | | done].
  - apply backoff_step_inv.
  - apply backoff_step_end.
  - split; [done |]. cbn [fst snd]. split; [lia |]. assert (0 < 2 ^ attempt) by (apply Z.pow_pos_nonneg; lia).
    destruct (Z.min_spec minimum maximum) as [[_ ->] | [Hle ->]]; [done |]. rewrite !Z.min_l; nia.
  - unfold backoff_measure, backoff_fuel. cbn [snd]. pose proof (log2_small (Z.min minimum maximum) ltac:(lia)). lia.
Qed.

End schedule.

Lemma backoffSchedule_spec attempt minimum maximum : 0 <= attempt → minimum <= int64_max → maximum <= int64_max →
  ∃ s, backoffSchedule attempt minimum maximum = Some s ∧ s.(delay) = bounded_double attempt minimum maximum ∧
    0 < s.(delay) <= s.(ceiling) ∧ s.(ceiling) = (if maximum <=? 0 then defaultMaximumBackoff else maximum).
Proof.
  intros Ha Hmin Hmax. unfold backoffSchedule, bounded_double. cbv zeta.
  set (M := if maximum <=? 0 then defaultMaximumBackoff else maximum). set (m := if minimum <=? 0 then defaultMinimumBackoff else minimum).
  assert (0 < M <= int64_max) as HM. { unfold M. destruct (maximum <=? 0) eqn:E; [by vm_compute | lia]. }
  assert (0 < m) as Hm. { unfold m. destruct (minimum <=? 0) eqn:E; [by vm_compute | lia]. }
  rewrite (backoff_runs M HM attempt m Ha Hm). eexists. split; [reflexivity |]. cbn [delay ceiling]. split; [done |]. split; [| done].
  assert (0 < 2 ^ attempt) by (apply Z.pow_pos_nonneg; lia). nia.
Qed.

(** Whatever the number of attempts and the bounds, the doubling loop ends within
    63 turns, never leaves the 64-bit range, and gives the smaller of the maximum and the
    minimum doubled once per attempt; nonpositive bounds stand for the defaults. *)
Theorem backoffSchedule_exact attempt minimum maximum : 0 <= attempt → minimum <= int64_max → maximum <= int64_max →
  ∃ s, backoffSchedule attempt minimum maximum = Some s ∧ s.(delay) = bounded_double attempt minimum maximum ∧
    0 < s.(delay) <= s.(ceiling) ∧ s.(ceiling) = (if maximum <=? 0 then defaultMaximumBackoff else maximum).
Proof. apply backoffSchedule_spec. Qed.

(** ** Deadlines *)

(** The first instant of year 10000. *)
Definition year_10000 : Z := days_before_year 10000 * (24 * 60 * Minute).

Lemma days_before_year_step n : days_before_year n <= days_before_year (n + 1).
Proof. unfold days_before_year. cbv zeta. Z.to_euclidean_division_equations. lia. Qed.

Lemma days_before_year_mono y y' : y <= y' → days_before_year y <= days_before_year y'.
Proof.
  intros H. replace y' with (y + Z.of_nat (Z.to_nat (y' - y))) by lia. induction (Z.to_nat (y' - y)) as [| k IH]; [by rewrite Z.add_0_r |].
  etrans; [exact IH |]. replace (y + Z.of_nat (S k)) with (y + Z.of_nat k + 1) by lia. apply days_before_year_step.
Qed.

Lemma Year_spec t : days_before_year (Year t) <= days t < days_before_year (Year t + 1).
Proof.
  unfold Year. set (d := days t). clearbody d. cbv zeta.
  destruct (days_before_year (400 * d / 146097 + 1 + 1) <=? d) eqn:E1; [| destruct (days_before_year (400 * d / 146097 + 1) <=? d) eqn:E2].
  - apply Z.leb_le in E1. split; [done |]. clear E1. unfold days_before_year. cbv zeta. Z.to_euclidean_division_equations. lia.
  - apply Z.leb_le in E2. apply Z.leb_gt in E1. done.
  - apply Z.leb_gt in E2. replace (400 * d / 146097 + 1 - 1 + 1) with (400 * d / 146097 + 1) by lia. split; [| done].
    clear. unfold days_before_year. cbv zeta. Z.to_euclidean_division_equations. lia.
Qed.

(** For instants of UTC the year is in the range of the calendar exactly between the
    bounds. *)
Lemma Year_bounds t : t.(offset) = 0 → (1 <= Year t ↔ 0 <= t.(ns)) ∧ (Year t <= 9999 ↔ t.(ns) < year_10000).
Proof.
  intros Ho. pose proof (Year_spec t) as [H1 H2]. unfold days in *. rewrite Ho in *. change (0 * Second) with 0 in *. rewrite Z.add_0_r in *.
  set (D := 24 * 60 * Minute) in *. assert (0 < D) as HD by done. set (d := ns t / D) in *.
  assert (D * d <= ns t < D * d + D) as Hd. { unfold d. pose proof (Z.mul_div_le (ns t) D HD). pose proof (Z.mul_succ_div_gt (ns t) D HD). lia. }
  split.
  - split.
    + intros H. pose proof (days_before_year_mono 1 (Year t) H) as Hm. change (days_before_year 1) with 0 in Hm. nia.
    + intros H. destruct (decide (1 <= Year t)) as [| Hn]; [done |]. pose proof (days_before_year_mono (Year t + 1) 1 ltac:(lia)) as Hm.
      change (days_before_year 1) with 0 in Hm. nia.
  - unfold year_10000. fold D. split.
    + intros H. pose proof (days_before_year_mono (Year t + 1) 10000 ltac:(lia)) as Hm. nia.
    + intros H. destruct (decide (Year t <= 9999)) as [| Hn]; [done |]. pose proof (days_before_year_mono 10000 (Year t) ltac:(lia)) as Hm. nia.
Qed.

(** The wait after a failure, by its count. *)
Definition outcome_delay (count : Z) : Z := bounded_double (count - 1) 0 0.

Lemma outcomeDeadline_exact completed count : 0 <= count →
  ∃ deadline valid, outcomeDeadline completed count = Some (deadline, valid) ∧
    (valid = true ↔ completed.(offset) = 0 ∧ count ≠ 0 ∧ 0 < completed.(ns) ∧ completed.(ns) + outcome_delay count < year_10000) ∧
    (valid = true → deadline = Add completed (outcome_delay count)).
Proof.
  intros Hc. unfold outcomeDeadline.
  assert (0 <= count → count ≠ 0 → ∃ s, backoffSchedule (count - 1) 0 0 = Some s ∧ s.(delay) = outcome_delay count ∧ 0 < outcome_delay count) as Hs.
  { intros H1 H2. destruct (backoffSchedule_spec (count - 1) 0 0 ltac:(lia) ltac:(by vm_compute) ltac:(by vm_compute)) as (s & E & Hd & Hp & _).
    exists s. unfold outcome_delay. rewrite <- Hd. split; [done |]. split; [done | lia]. }
  unfold IsZero. destruct (bool_decide_reflect (ns completed = 0)) as [E0 | E0]; cbn [orb].
  { eexists _, false. split; [done |]. split; [| done]. split; [done | lia]. }
  destruct (bool_decide_reflect (offset completed = 0)) as [Eo | Eo]; cbn [negb].
  2:{ rewrite !orb_true_r. eexists _, false. split; [done |]. split; [| done]. split; [done | tauto]. }
  destruct (bool_decide_reflect (count = 0)) as [Ec | Ec]; rewrite ?orb_false_r.
  { rewrite !orb_true_r. eexists _, false. split; [done |]. split; [| done]. split; [done | tauto]. }
  destruct (Hs Hc Ec) as (s & -> & Hd & Hpos). destruct (Year_bounds completed Eo) as [Y1 Y2].
  destruct (Year completed <? 1) eqn:Ey1; cbn [orb].
  { eexists _, false. split; [done |]. split; [| done]. split; [done |]. lia. }
  destruct (9999 <? Year completed) eqn:Ey2; cbn [orb].
  { eexists _, false. split; [done |]. split; [| done]. split; [done |]. lia. }
  cbn [mbind option_bind]. eexists _, _. split; [reflexivity |]. rewrite Hd. destruct (Year_bounds (Add completed (outcome_delay count)) Eo) as [_ Y4].
  cbn [Add ns] in Y4. unfold After. cbn [Add ns]. rewrite andb_true_iff, Z.leb_le, Z.ltb_lt. split; [| done]. split; intros H; split_and!; try done; lia.
Qed.

Lemma backoffSchedule_exact_witness : (0 <= 3 ∧ 0 <= int64_max ∧ 0 <= int64_max) ∧
  ∃ s, backoffSchedule 3 0 0 = Some s ∧ s.(delay) = bounded_double 3 0 0 ∧ 0 < s.(delay) <= s.(ceiling) ∧
    s.(ceiling) = (if 0 <=? 0 then defaultMaximumBackoff else 0).
Proof. split; [by vm_compute |]. apply (backoffSchedule_exact 3 0 0); by vm_compute. Defined.
