(* ===== verification/Search.v ===== *)
(** * Searching sorted lists

    [slices.BinarySearchFunc], which the sources call on lists they keep sorted, with what
    it finds. *)

From S2P Require Import Prelude.

Section search.
Context {A : Type} (cmp : A → comparison).

Definition search_step (x : list A) (s : nat * nat) : nat * nat + nat :=
  let '(i, j) := s in
  if Nat.ltb i j then
    let h := ((i + j) / 2)%nat in
    match x !! h with
    | Some y => if bool_decide (cmp y = Lt) then inl (S h, j) else inl (i, h)
    | None => inr i
    end
  else inr i.

(** The index, and whether the element there is equal. *)
Definition BinarySearchFunc (x : list A) : option (nat * bool) :=
  i ← loop (search_step x) (length x) (0, length x);
  Some (i, match x !! i with Some y => bool_decide (cmp y = Eq) | None => false end).

End search.

(** ** Searching a sorted list *)

Section search_facts.
Context {A : Type} (cmp : A → comparison) (x : list A).

(** Everything before an element that is not after the target is before the target. *)
Definition searchable : Prop := ∀ a b y z, a < b → x !! a = Some y → x !! b = Some z → cmp z ≠ Gt → cmp y = Lt.

Context (Hx : searchable).

Definition search_inv (s : nat * nat) : Prop :=
  s.1 ≤ s.2 ∧ s.2 ≤ length x ∧ (∀ k y, k < s.1 → x !! k = Some y → cmp y = Lt) ∧ (∀ k y, s.2 ≤ k → x !! k = Some y → cmp y ≠ Lt).

Lemma search_step_inv s s' : search_inv s → search_step cmp x s = inl s' → search_inv s' ∧ s'.2 - s'.1 < s.2 - s.1.
Proof.
  destruct s as [i j]. intros (H1 & H2 & H3 & H4). cbn [fst snd] in *. unfold search_step. destruct (Nat.ltb_spec i j) as [Hij |]; [| done].
  assert (i ≤ (i + j) / 2 ∧ (i + j) / 2 < j) as [Hh1 Hh2].
  { split; [apply Nat.div_le_lower_bound; lia | apply Nat.Div0.div_lt_upper_bound; lia]. }
  set (h := (i + j) / 2) in *. clearbody h. destruct (x !! h) as [y |] eqn:Ey; [| done].
  case_bool_decide as Hc; intros [= <-]; (split; [| cbn [fst snd]; lia]); (split; [| split; [| split]]); cbn [fst snd]; try lia.
  - intros k z Hk Hz. destruct (decide (k = h)) as [-> | Hne]; [congruence |].
    apply (Hx k h z y ltac:(lia) Hz Ey). by rewrite Hc.
  - done.
  - done.
  - intros k z Hk Hz. destruct (decide (k = h)) as [-> | Hne]; [congruence |]. intros Hlt. apply Hc.
    apply (Hx h k y z ltac:(lia) Ey Hz). by rewrite Hlt.
Qed.

Lemma search_step_end s r : search_inv s → search_step cmp x s = inr r → r = s.1 ∧ s.1 = s.2.
Proof.
  destruct s as [i j]. intros (H1 & H2 & H3 & H4). cbn [fst snd] in *. unfold search_step. destruct (Nat.ltb_spec i j) as [Hij |].
  - assert ((i + j) / 2 < length x) as Hh. { assert ((i + j) / 2 < j) by (apply Nat.Div0.div_lt_upper_bound; lia). lia. }
    destruct (x !! ((i + j) / 2)) as [y |] eqn:Ey; [by case_bool_decide |]. apply lookup_ge_None in Ey. lia.
  - intros [= <-]. split; [done | lia].
Qed.

(** The search ends where the elements before the target end. *)
Lemma BinarySearchFunc_position : ∃ i, BinarySearchFunc cmp x = Some (i, match x !! i with Some y => bool_decide (cmp y = Eq) | None => false end) ∧
  i ≤ length x ∧ (∀ k y, k < i → x !! k = Some y → cmp y = Lt) ∧ (∀ k y, i ≤ k → x !! k = Some y → cmp y ≠ Lt).
Proof.
  destruct (loop_spec (search_step cmp x) search_inv (λ s, s.2 - s.1) (λ r, search_inv (r, r)) (length x) (0, length x)) as (i & Hl & Hi).
  - apply search_step_inv.
  - intros s r Hs Hr. destruct (search_step_end _ _ Hs Hr) as [-> E]. by destruct s as [a b]; cbn in E |- *; rewrite <- E in Hs.
  - split; [cbn; lia |]. split; [done |]. split; [intros k y Hk; cbn in Hk; lia |]. intros k y Hk Hy. cbn in Hk. apply lookup_lt_Some in Hy. lia.
  - cbn. lia.
  - exists i. unfold BinarySearchFunc. rewrite Hl. destruct Hi as (_ & ? & ? & ?). done.
Qed.

(** The search finds an equal element when there is one. *)
Lemma BinarySearchFunc_spec : ∃ i found, BinarySearchFunc cmp x = Some (i, found) ∧
  (found = true → ∃ y, x !! i = Some y ∧ cmp y = Eq) ∧ (∀ k y, x !! k = Some y → cmp y = Eq → found = true ∧ k = i).
Proof.
  destruct BinarySearchFunc_position as (i & Hs & Hi & H3 & H4). eexists _, _. split; [exact Hs |]. split.
  - destruct (x !! i) as [y |]; [| done]. intros H. apply bool_decide_eq_true in H. by exists y.
  - intros k y Hk Hy. assert (k = i) as ->.
    { destruct (decide (k < i)); [by specialize (H3 _ _ l Hk); congruence |]. destruct (decide (k = i)); [done |].
      assert (i < k) as Hik by lia. destruct (lookup_lt_is_Some_2 x i) as [z Hz]; [apply lookup_lt_Some in Hk; lia |].
      exfalso. apply (H4 i z ltac:(lia) Hz). apply (Hx i k z y Hik Hz Hk). by rewrite Hy. }
    rewrite Hk. split; [by apply bool_decide_eq_true | done].
Qed.

End search_facts.
