(* ===== verification/Outcome.v ===== *)
(** * Cached failures (pkg/source/cache/outcome.go, machine.go, internal/fetcherr)

    A failed acquisition is recorded as a tree of causes, from which a later run replays
    the failure.  Recording keeps what classifies a failure and drops its diagnostics:
    [encode] walks an error along its wrappers, [decode] rebuilds one, and both go through
    one table of kinds with the same limits on nodes and depth.  Error values are a tree of
    the concrete types the codec knows; any other type is [Other]. *)

From S2P Require Import Prelude Backoff.

Open Scope Z_scope.

(** ** Errors *)

(** The sentinel values that errors are compared with: those of the codec, and those of
    the retry policy and of credentials. *)
Inductive sentinel_error :=
  | ECONNRESET | ECONNREFUSED | ETIMEDOUT | ErrDeadlineExceeded | ErrUnexpectedEOF
  | ErrFlux | ErrInput | ErrObjectNotFound | ErrMissingSecret | ErrSourceSkipped
  | ErrShortWrite | Canceled | DeadlineExceeded | ErrAuthenticationRequired | ErrAuthorizationFailed | ErrBasicCredentialNotFound.

#[export] Instance sentinel_error_eq_dec : EqDecision sentinel_error.
Proof. solve_decision. Defined.

(** [errcode.Error], a code of an OCI registry's answer. *)
Record ErrorCode := mkErrorCode { ec_Code : string; ec_Message : string; ec_Detail : string }.

(** An error value: the nil interface, or a value of one of the concrete types.  A wrapper
    of [fmt.Errorf] keeps its format in place of the text made from it. *)
Inductive error :=
  | Nil
  | Sentinel (s : sentinel_error)
  | ManifestError (category cause : error) (message : string)
  | TerminalError (err : error) (attempted : bool)
  | ProducerError (err : error)
  | MachineError (cause : error)
  | UrlError (op url : string) (err : error)
  | OpError (op net source addr : string) (err : error)
  | SyscallError (syscall : string) (err : error)
  | DNSError (text name server : string) (isTimeout isTemporary isNotFound : bool) (unwrapErr : error)
  | ResponseError (status : Z) (op : string) (err : error) (message : string)
  | ErrorResponse (method url : string) (status : Z) (errors : list ErrorCode)
  | Codes (errors : list ErrorCode)
  | Code (e : ErrorCode)
  | CodePointer (e : ErrorCode)
  | FmtWrap (format : string) (err : error)
  | FmtWraps (format : string) (errs : list error)
  | Join (errs : list error)
  | CacheError (err : error)
  | PathError (op path : string) (err : error)
  | MinioErrorResponse (code : string)
  | Other (text : string).

(** Comparison with a sentinel. *)
Definition is_sentinel (s : sentinel_error) (err : error) : bool :=
  match err with Sentinel s' => bool_decide (s = s') | _ => false end.

Definition is_nil (err : error) : bool := match err with Nil => true | _ => false end.

(** [errors.AsType[*machineError]] finds one. *)
Fixpoint has_machine (err : error) : bool :=
  match err with
  | MachineError _ => true
  | ManifestError category cause _ => has_machine category || has_machine cause
  | TerminalError err _ | ProducerError err | UrlError _ _ err | OpError _ _ _ _ err | SyscallError _ err
  | DNSError _ _ _ _ _ _ err | ResponseError _ _ err _ | FmtWrap _ err | CacheError err | PathError _ _ err => has_machine err
  | FmtWraps _ errs | Join errs => existsb has_machine errs
  | _ => false
  end.

Definition MachineCredentialErr (cause : error) : error :=
  if is_nil cause then Nil else if has_machine cause then cause else MachineError cause.

(** *** Responses *)

Inductive StatusClass := Terminal | Client | Transient.

#[export] Instance StatusClass_eq_dec : EqDecision StatusClass.
Proof. solve_decision. Defined.

Definition Classify (status : Z) : StatusClass :=
  if bool_decide (status = 429) || (500 <=? status) && (status <? 600) then Transient
  else if (400 <=? status) && (status <? 500) then Client
  else Terminal.

(** ** The record *)

Definition outcomeNodeLimit : Z := 128.
Definition outcomeDepthLimit : nat := 16.
Definition wrapOutcome : string := "wrap".
Definition joinOutcome : string := "join".

Inductive outcomeCause := mkCause {
  Kind : string; Op : string; Network : string; Status : Z; o_Code : string; Temporary : bool; NotFound : bool;
  Children : list outcomeCause;
}.

Definition set_Children (n : outcomeCause) (children : list outcomeCause) : outcomeCause :=
  mkCause n.(Kind) n.(Op) n.(Network) n.(Status) n.(o_Code) n.(Temporary) n.(NotFound) children.

(** The constructors of [outcomeNode]. *)
Definition of_kind (kind : string) : outcomeCause := mkCause kind "" "" 0 "" false false [].

Definition outcomeOp (op : string) : string :=
  if bool_decide (op ∈ ["GET"; "HEAD"; "POST"; "PUT"; "DELETE"; "PATCH"; "Get"; "Head"; "Post"; "Put"; "Delete"; "Patch";
                        "read"; "write"; "dial"; "connect"; "accept"; "readfrom"; "writeto"; "recvfrom"; "sendto"])
  then op else "".

Definition outcomeNetwork (network : string) : string :=
  if bool_decide (network ∈ ["tcp"; "tcp4"; "tcp6"; "udp"; "udp4"; "udp6"; "ip"; "ip4"; "ip6"]) then network else "".

(** ** The table of kinds *)

(** [outcomeContext], a set of two bits. *)
Record outcomeContext := mkContext { transport : bool; status : bool }.

Definition no_context : outcomeContext := mkContext false false.
Definition outcomeTransport : outcomeContext := mkContext true false.
Definition outcomeStatus : outcomeContext := mkContext false true.

(** [a|b], and [a&b == b]. *)
Definition join_context (a b : outcomeContext) : outcomeContext := mkContext (a.(transport) || b.(transport)) (a.(status) || b.(status)).
Definition has_context (a b : outcomeContext) : bool := implb b.(transport) a.(transport) && implb b.(status) a.(status).

Record outcomeCodec := mkCodec {
  minChildren : Z; maxChildren : Z; enter : outcomeContext; require : outcomeContext;
  transient : bool; code : bool; terminal : bool; remote : bool;
  sentinel : option sentinel_error;
  build : outcomeCause → list error → option error;
}.

(** [children[0]], of a codec that has one. *)
Definition child (children : list error) : error := default Nil (head children).

(** A codec of one child that enters no context, and a sentinel's. *)
Definition wrapper (terminal : bool) (enter : outcomeContext) (build : outcomeCause → error → error) : outcomeCodec :=
  mkCodec 1 1 enter no_context false false terminal false None (λ n children, Some (build n (child children))).
Definition leaf (remote : bool) (require : outcomeContext) (s : sentinel_error) : outcomeCodec :=
  mkCodec 0 0 no_context require false false false remote (Some s) (λ _ _, None).

Definition build_join (children : list error) : error :=
  match children with
  | [category; cause] => if is_sentinel ErrFlux category then ManifestError category cause "" else Join children
  | _ => Join children
  end.

Definition build_response (n : outcomeCause) (children : list error) : option error :=
  match child children with
  | Nil => Some (ErrorResponse n.(Op) "" n.(Status) [])
  | Codes errors => Some (ErrorResponse n.(Op) "" n.(Status) errors)
  | _ => None
  end.

Fixpoint build_codes (children : list error) : option (list ErrorCode) :=
  match children with
  | [] => Some []
  | Code e :: children => l ← build_codes children; Some (e :: l)
  | _ :: _ => None
  end.

Definition outcomeCodecs : list (string * outcomeCodec) := [
  ("terminal", wrapper true no_context (λ _ e, TerminalError e false));
  ("producer", wrapper false no_context (λ _ e, ProducerError e));
  ("machine", wrapper false no_context (λ _ e, MachineCredentialErr e));
  ("url", wrapper false outcomeTransport (λ n e, UrlError n.(Op) "" e));
  ("net", wrapper false outcomeTransport (λ n e, OpError n.(Op) n.(Network) "" "" e));
  ("syscall", wrapper false no_context (λ n e, SyscallError n.(Op) e));
  (wrapOutcome, wrapper false no_context (λ _ e, FmtWrap "remote acquisition: %w" e));
  (joinOutcome, mkCodec 1 outcomeNodeLimit no_context no_context false false false false None (λ _ children, Some (build_join children)));
  ("dns", mkCodec 0 1 no_context no_context false false false true None
     (λ n children, Some (DNSError "remote timeout" "" "" true n.(Temporary) n.(NotFound) (child children))));
  ("status", mkCodec 0 1 outcomeStatus no_context true false false true None
     (λ n children, Some (ResponseError n.(Status) n.(Op) (child children) "")));
  ("response", mkCodec 0 1 no_context outcomeStatus true false false false None build_response);
  ("codes", mkCodec 0 outcomeNodeLimit no_context outcomeStatus false false false false None
     (λ _ children, Codes <$> build_codes children));
  ("code", mkCodec 0 0 no_context outcomeStatus false true false false None (λ n _, Some (Code (mkErrorCode n.(o_Code) "" ""))));
  ("code-pointer", mkCodec 0 0 no_context outcomeStatus false true false false None
     (λ n _, Some (CodePointer (mkErrorCode n.(o_Code) "" ""))));
  ("reset", leaf true no_context ECONNRESET);
  ("refused", leaf true no_context ECONNREFUSED);
  ("timeout", leaf true no_context ETIMEDOUT);
  ("deadline", leaf true no_context ErrDeadlineExceeded);
  ("eof", leaf true outcomeTransport ErrUnexpectedEOF);
  ("flux", leaf false no_context ErrFlux)].

Definition codec_of (kind : string) : option outcomeCodec :=
  snd <$> List.find (λ kc, bool_decide (kc.1 = kind)) outcomeCodecs.

(** The kind of a sentinel, in the table. *)
Definition kind_of_sentinel (s : sentinel_error) : option string :=
  fst <$> List.find (λ kc, bool_decide (kc.2.(sentinel) = Some s)) outcomeCodecs.

(** ** Nodes *)

Definition manifestOutcomeNode (category cause : error) : outcomeCause * list error :=
  if is_nil cause then (of_kind wrapOutcome, [category])
  else if is_nil category then (of_kind wrapOutcome, [cause])
  else (of_kind joinOutcome, [category; cause]).

Definition wrappedOutcomeNode (err : error) : option (outcomeCause * list error) :=
  match err with
  | Sentinel s => kind ← kind_of_sentinel s; Some (of_kind kind, [])
  | FmtWrap _ err => Some (of_kind wrapOutcome, [err])
  | FmtWraps _ errs | Join errs => Some (of_kind joinOutcome, errs)
  | _ => None
  end.

(** [if e != nil { children = ... }]. *)
Definition optional (err : error) : list error := if is_nil err then [] else [err].

Definition outcomeNode (err : error) : option (outcomeCause * list error) :=
  match err with
  | ManifestError category cause _ => Some (manifestOutcomeNode category cause)
  | TerminalError err _ => Some (of_kind "terminal", [err])
  | ProducerError err => Some (of_kind "producer", [err])
  | MachineError cause => Some (of_kind "machine", [cause])
  | UrlError op _ err => Some (mkCause "url" (outcomeOp op) "" 0 "" false false [], [err])
  | OpError op net _ _ err => Some (mkCause "net" (outcomeOp op) (outcomeNetwork net) 0 "" false false [], [err])
  | SyscallError syscall err => Some (mkCause "syscall" (outcomeOp syscall) "" 0 "" false false [], [err])
  | DNSError _ _ _ isTimeout isTemporary isNotFound unwrapErr =>
      if negb isTimeout then None else Some (mkCause "dns" "" "" 0 "" isTemporary isNotFound [], optional unwrapErr)
  | ResponseError status op err _ => Some (mkCause "status" (outcomeOp op) "" status "" false false [], optional err)
  | ErrorResponse method _ status errors =>
      Some (mkCause "response" (outcomeOp method) "" status "" false false [], if bool_decide (0 < length errors)%nat then [Codes errors] else [])
  | Codes errors => if bool_decide (outcomeNodeLimit < Z.of_nat (length errors)) then None else Some (of_kind "codes", map Code errors)
  | Code e => Some (mkCause "code" "" "" 0 e.(ec_Code) false false [], [])
  | CodePointer e => Some (mkCause "code-pointer" "" "" 0 e.(ec_Code) false false [], [])
  | Nil | Sentinel _ | FmtWrap _ _ | FmtWraps _ _ | Join _ | CacheError _ | PathError _ _ _ | MinioErrorResponse _ | Other _ => wrappedOutcomeNode err
  end.

(** ** Encoding and decoding *)

Record outcomeCodecState := mkState { nodes : Z; s_terminal : bool; s_remote : bool }.

Definition start : outcomeCodecState := mkState 0 false false.

Section codec.
(** The codes of [errcode] that [outcomeCode] lists. *)
Context (errorCodes : list string).

Definition outcomeCode (code : string) : bool := bool_decide (code ∈ errorCodes).

(** [kind]: the state after it, and the codec of a node that is allowed there. *)
Definition kind (c : outcomeCodecState) (n : outcomeCause) (children : Z) (scope : outcomeContext) (depth : nat)
    : outcomeCodecState * option outcomeCodec :=
  let c := mkState (c.(nodes) + 1) c.(s_terminal) c.(s_remote) in
  match codec_of n.(Kind) with
  | None => (c, None)
  | Some k =>
      if bool_decide (outcomeDepthLimit < depth)%nat || (children <? k.(minChildren)) || (k.(maxChildren) <? children) ||
         (outcomeNodeLimit - c.(nodes) <? children) || negb (has_context scope k.(require)) ||
         k.(transient) && negb (bool_decide (Classify n.(Status) = Transient)) || k.(code) && negb (outcomeCode n.(o_Code))
      then (c, None)
      else (mkState c.(nodes) (c.(s_terminal) || k.(terminal)) (c.(s_remote) || k.(remote)), Some k)
  end.

(** The loop over the children, of either direction. *)
Fixpoint each {A B} (f : outcomeCodecState → A → outcomeCodecState * option B) (c : outcomeCodecState) (l : list A)
    : outcomeCodecState * option (list B) :=
  match l with
  | [] => (c, Some [])
  | x :: l =>
      match f c x with
      | (c, None) => (c, None)
      | (c, Some y) => match each f c l with (c, None) => (c, None) | (c, Some ys) => (c, Some (y :: ys)) end
      end
  end.

(** What [encode] refuses at once. *)
Definition refused (err : error) : bool :=
  match err with TerminalError _ attempted => negb attempted | _ => false end ||
  is_sentinel ErrInput err || is_sentinel ErrObjectNotFound err || is_sentinel ErrMissingSecret err || is_sentinel ErrSourceSkipped err.

(** [encode] and [decode]; below the depth limit [kind] refuses, so the fuel that
    [codec_fuel] gives is never spent. *)
Fixpoint encode (fuel : nat) (c : outcomeCodecState) (err : error) (scope : outcomeContext) (depth : nat)
    : outcomeCodecState * option outcomeCause :=
  match fuel with
  | O => (c, None)
  | S fuel =>
      if refused err then (c, None)
      else
        match outcomeNode err with
        | None => (c, None)
        | Some (n, children) =>
            match kind c n (Z.of_nat (length children)) scope depth with
            | (c, None) => (c, None)
            | (c, Some k) =>
                match each (λ c child, encode fuel c child (join_context scope k.(enter)) (S depth)) c children with
                | (c, None) => (c, None)
                | (c, Some l) => (c, Some (set_Children n l))
                end
            end
        end
  end.

(** [reflect.DeepEqual(n, shape)], the children of both being those of [n]. *)
Definition same_shape (n shape : outcomeCause) : bool :=
  bool_decide (n.(Kind) = shape.(Kind)) && bool_decide (n.(Op) = shape.(Op)) && bool_decide (n.(Network) = shape.(Network)) &&
  bool_decide (n.(Status) = shape.(Status)) && bool_decide (n.(o_Code) = shape.(o_Code)) &&
  bool_decide (n.(Temporary) = shape.(Temporary)) && bool_decide (n.(NotFound) = shape.(NotFound)).

Fixpoint decode (fuel : nat) (c : outcomeCodecState) (n : outcomeCause) (scope : outcomeContext) (depth : nat)
    : outcomeCodecState * option error :=
  match fuel with
  | O => (c, None)
  | S fuel =>
      match kind c n (Z.of_nat (length n.(Children))) scope depth with
      | (c, None) => (c, None)
      | (c, Some k) =>
          match each (λ c child, decode fuel c child (join_context scope k.(enter)) (S depth)) c n.(Children) with
          | (c, None) => (c, None)
          | (c, Some children) =>
              let children := if bool_decide (k.(maxChildren) = 1) && bool_decide (children = []) then [Nil] else children in
              let result := match k.(sentinel) with Some s => Some (Sentinel s) | None => k.(build) n children end in
              match result with
              | None => (c, None)
              | Some result =>
                  match outcomeNode result with
                  | Some (shape, _) => if same_shape n shape then (c, Some result) else (c, None)
                  | None => (c, None)
                  end
              end
          end
      end
  end.

Definition codec_fuel : nat := S outcomeDepthLimit.

End codec.

(** ** Records of failures *)

Definition prefix : string := "flate.".

(** The fields of [ocispec.Descriptor] that are read. *)
Record Descriptor := mkDescriptor { MediaType : string; Digest : string; Size : Z; Annotations : gmap string string }.

Record outcomeRecord := mkRecord { Version : Z; Completed : time; Count : Z; Cause : outcomeCause }.

Record outcome := mkOutcome { record : outcomeRecord; lastGood : Descriptor; observed : time; invalid : bool }.

Record outcomeFreshness := mkFreshness { fresh : bool; valid : bool }.

Definition zero_time : time := mkTime 0 0.

(** [observe]: the outcome after it, and what it says. *)
Definition observe (o : outcome) (now : time) : option (outcome * outcomeFreshness) :=
  r ← outcomeDeadline o.(record).(Completed) o.(record).(Count);
  let '(deadline, ok) := r in
  let invalid := if negb ok || Before now o.(record).(Completed) || negb (IsZero o.(observed)) && Before now o.(observed)
                 then true else o.(invalid) in
  Some (mkOutcome o.(record) o.(lastGood) now invalid, mkFreshness (negb invalid && Before now deadline) (negb invalid)).

Section outcomes.
(** [digest.Digest.Validate], and whether a text is the canonical form of the UUID it
    parses to. *)
Context (errorCodes : list string) (digest_valid uuid_canonical : string → bool).

Definition outcomeLayer (desc : Descriptor) : Descriptor * bool :=
  let none := mkDescriptor "" "" 0 ∅ in
  if bool_decide (desc.(Digest) = "") then (none, true)
  else if negb (digest_valid desc.(Digest)) || (desc.(Size) <? 0) || negb (bool_decide (desc.(MediaType) = "application/octet-stream"))
  then (none, false)
  else
    let id := default "" (desc.(Annotations) !! (prefix +:+ "git-generation")) in
    if bool_decide (id = "") then (mkDescriptor desc.(MediaType) desc.(Digest) desc.(Size) ∅, true)
    else if negb (uuid_canonical id) then (none, false)
    else (mkDescriptor desc.(MediaType) desc.(Digest) desc.(Size) {[prefix +:+ "git-generation" := id]}, true).

(** [newOutcome]; the inner [None] is its nil. *)
Definition newOutcome (err : error) (completed : time) (count : Z) (lastGood : Descriptor) : option (option outcome) :=
  r ← outcomeDeadline completed count;
  Some (if negb r.2 then None
        else match encode errorCodes codec_fuel start err no_context 1 with
             | (c, Some cause) =>
                 if negb c.(s_terminal) || negb c.(s_remote) then None
                 else let '(layer, ok) := outcomeLayer lastGood in
                      if negb ok then None else Some (mkOutcome (mkRecord 1 completed count cause) layer zero_time false)
             | (_, None) => None
             end).

(** [replay]. *)
Definition replay (o : outcome) : error := default Nil (decode errorCodes codec_fuel start o.(record).(Cause) no_context 1).2.

(** What both [encode] of an outcome and [readOutcome] require of its record. *)
Definition accepts (r : outcomeRecord) : option bool :=
  d ← outcomeDeadline r.(Completed) r.(Count);
  Some (match decode errorCodes codec_fuel start r.(Cause) no_context 1 with
        | (c, Some _) => c.(s_terminal) && c.(s_remote) && bool_decide (r.(Version) = 1) && d.2
        | (_, None) => false
        end).

End outcomes.

(** ** What a record keeps of an error *)

Definition redact_code (e : ErrorCode) : ErrorCode := mkErrorCode e.(ec_Code) "" "".

(** The error that a record replays: the same wrappers, without diagnostics. *)
Fixpoint redact (err : error) : error :=
  match err with
  | Nil => Nil
  | Sentinel s => Sentinel s
  | ManifestError category cause _ =>
      if is_nil cause then FmtWrap "remote acquisition: %w" (redact category)
      else if is_nil category then FmtWrap "remote acquisition: %w" (redact cause)
      else build_join [redact category; redact cause]
  | TerminalError err _ => TerminalError (redact err) false
  | ProducerError err => ProducerError (redact err)
  | MachineError cause => MachineError (redact cause)
  | UrlError op _ err => UrlError (outcomeOp op) "" (redact err)
  | OpError op net _ _ err => OpError (outcomeOp op) (outcomeNetwork net) "" "" (redact err)
  | SyscallError syscall err => SyscallError (outcomeOp syscall) (redact err)
  | DNSError _ _ _ isTimeout isTemporary isNotFound unwrapErr =>
      DNSError "remote timeout" "" "" isTimeout isTemporary isNotFound (redact unwrapErr)
  | ResponseError status op err _ => ResponseError status (outcomeOp op) (redact err) ""
  | ErrorResponse method _ status errors => ErrorResponse (outcomeOp method) "" status (map redact_code errors)
  | Codes errors => Codes (map redact_code errors)
  | Code e => Code (redact_code e)
  | CodePointer e => CodePointer (redact_code e)
  | FmtWrap _ err => FmtWrap "remote acquisition: %w" (redact err)
  | FmtWraps _ errs | Join errs => build_join (map redact errs)
  | CacheError err => CacheError (redact err)
  | PathError _ _ err => PathError "" "" (redact err)
  | MinioErrorResponse _ => MinioErrorResponse ""
  | Other _ => Other ""
  end.

(** [MachineCredentialErr] is the only maker of a machine error, and never nests two. *)
Fixpoint well_made (err : error) : bool :=
  match err with
  | MachineError cause => negb (has_machine cause) && well_made cause
  | ManifestError category cause _ => well_made category && well_made cause
  | TerminalError err _ | ProducerError err | UrlError _ _ err | OpError _ _ _ _ err | SyscallError _ err
  | DNSError _ _ _ _ _ _ err | ResponseError _ _ err _ | FmtWrap _ err | CacheError err | PathError _ _ err => well_made err
  | FmtWraps _ errs | Join errs => forallb well_made errs
  | _ => true
  end.

(** A terminal error that replays a failure is somewhere in the tree. *)
Fixpoint replayed (err : error) : bool :=
  match err with
  | TerminalError err attempted => negb attempted || replayed err
  | ManifestError category cause _ => replayed category || replayed cause
  | ProducerError err | MachineError err | UrlError _ _ err | OpError _ _ _ _ err | SyscallError _ err
  | DNSError _ _ _ _ _ _ err | ResponseError _ _ err _ | FmtWrap _ err | CacheError err | PathError _ _ err => replayed err
  | FmtWraps _ errs | Join errs => existsb replayed errs
  | _ => false
  end.

(** A record without free text: every field has one of the listed values. *)
Fixpoint clean (errorCodes : list string) (n : outcomeCause) : bool :=
  match codec_of n.(Kind) with Some _ => true | None => false end &&
  bool_decide (outcomeOp n.(Op) = n.(Op)) && bool_decide (outcomeNetwork n.(Network) = n.(Network)) &&
  (bool_decide (n.(Status) = 0) || bool_decide (Classify n.(Status) = Transient)) &&
  (bool_decide (n.(o_Code) = "") || bool_decide (n.(o_Code) ∈ errorCodes)) && forallb (clean errorCodes) n.(Children).

Fixpoint node_count (n : outcomeCause) : Z := 1 + foldr (λ n z, node_count n + z) 0 n.(Children).
Fixpoint height (n : outcomeCause) : nat := S (foldr (λ n m, Nat.max (height n) m) O n.(Children)).

(** ** Induction on errors *)

Section error_induction.
Context (P : error → Prop).
Context (Hnil : P Nil) (Hsentinel : ∀ s, P (Sentinel s)) (Hmanifest : ∀ a b m, P a → P b → P (ManifestError a b m))
  (Hterminal : ∀ e b, P e → P (TerminalError e b)) (Hproducer : ∀ e, P e → P (ProducerError e)) (Hmachine : ∀ e, P e → P (MachineError e))
  (Hurl : ∀ o u e, P e → P (UrlError o u e)) (Hop : ∀ o n s a e, P e → P (OpError o n s a e)) (Hsys : ∀ o e, P e → P (SyscallError o e))
  (Hdns : ∀ t n s a b c e, P e → P (DNSError t n s a b c e)) (Hstatus : ∀ s o e m, P e → P (ResponseError s o e m))
  (Hresponse : ∀ m u s l, P (ErrorResponse m u s l)) (Hcodes : ∀ l, P (Codes l)) (Hcode : ∀ c, P (Code c)) (Hpointer : ∀ c, P (CodePointer c))
  (Hwrap : ∀ f e, P e → P (FmtWrap f e)) (Hwraps : ∀ f l, Forall P l → P (FmtWraps f l)) (Hjoin : ∀ l, Forall P l → P (Join l))
  (Hcache : ∀ e, P e → P (CacheError e)) (Hpath : ∀ o p e, P e → P (PathError o p e)) (Hminio : ∀ c, P (MinioErrorResponse c)) (Hother : ∀ t, P (Other t)).

Fixpoint error_induction (err : error) : P err :=
  let all := fix all (l : list error) : Forall P l :=
    match l with [] => Forall_nil_2 P | e :: l => Forall_cons_2 P e l (error_induction e) (all l) end in
  match err with
  | Nil => Hnil
  | Sentinel s => Hsentinel s
  | ManifestError a b m => Hmanifest a b m (error_induction a) (error_induction b)
  | TerminalError e b => Hterminal e b (error_induction e)
  | ProducerError e => Hproducer e (error_induction e)
  | MachineError e => Hmachine e (error_induction e)
  | UrlError o u e => Hurl o u e (error_induction e)
  | OpError o n s a e => Hop o n s a e (error_induction e)
  | SyscallError o e => Hsys o e (error_induction e)
  | DNSError t n s a b c e => Hdns t n s a b c e (error_induction e)
  | ResponseError s o e m => Hstatus s o e m (error_induction e)
  | ErrorResponse m u s l => Hresponse m u s l
  | Codes l => Hcodes l
  | Code c => Hcode c
  | CodePointer c => Hpointer c
  | FmtWrap f e => Hwrap f e (error_induction e)
  | FmtWraps f l => Hwraps f l (all l)
  | Join l => Hjoin l (all l)
  | CacheError e => Hcache e (error_induction e)
  | PathError o p e => Hpath o p e (error_induction e)
  | MinioErrorResponse c => Hminio c
  | Other t => Hother t
  end.

End error_induction.

Lemma existsb_ext_Forall {A} (f g : A → bool) (h : A → A) l : Forall (λ x, f (h x) = g x) l → existsb f (map h l) = existsb g l.
Proof. induction 1 as [| x l Hx _ IH]; [done |]. cbn. by rewrite Hx, IH. Qed.

Lemma has_machine_build_join l : has_machine (build_join l) = existsb has_machine l.
Proof. destruct l as [| a [| b [| c l]]]; try done. unfold build_join. destruct (is_sentinel ErrFlux a); cbn; [by rewrite orb_false_r | done]. Qed.

Lemma replayed_build_join l : replayed (build_join l) = existsb replayed l.
Proof. destruct l as [| a [| b [| c l]]]; try done. unfold build_join. destruct (is_sentinel ErrFlux a); cbn; [by rewrite orb_false_r | done]. Qed.

Lemma is_nil_true e : is_nil e = true → e = Nil.
Proof. by destruct e. Qed.

(** Redaction keeps machine errors where they are. *)
Lemma has_machine_redact err : has_machine (redact err) = has_machine err.
Proof.
  induction err using error_induction; cbn [redact has_machine]; try done; rewrite ?has_machine_build_join; try (by apply existsb_ext_Forall).
  destruct (is_nil err2) eqn:E2; [apply is_nil_true in E2; subst; cbn; by rewrite IHerr1, orb_false_r |].
  destruct (is_nil err1) eqn:E1; [apply is_nil_true in E1; by subst |].
  rewrite has_machine_build_join. cbn. by rewrite IHerr1, IHerr2, orb_false_r.
Qed.

Section codec_facts.
Context (errorCodes : list string).

(** ** The loop over children *)

Lemma each_length {A B} (f : outcomeCodecState → A → outcomeCodecState * option B) c l c' ys : each f c l = (c', Some ys) → length ys = length l.
Proof.
  revert c ys. induction l as [| x l IH]; intros c ys; cbn; [by intros [= <- <-] |].
  destruct (f c x) as [c1 [y |]]; [| done]. destruct (each f c1 l) as [c2 [ys' |]] eqn:E; [| done]. intros [= <- <-]. cbn. f_equal. by eapply IH.
Qed.

(** Two loops in step, over what the first produces. *)
Lemma each_sim {A B C} (f : outcomeCodecState → A → outcomeCodecState * option B) (g : outcomeCodecState → B → outcomeCodecState * option C) (h : A → C) l :
  (∀ c x c' y, x ∈ l → f c x = (c', Some y) → g c y = (c', Some (h x))) →
  ∀ c c' ys, each f c l = (c', Some ys) → each g c ys = (c', Some (map h l)).
Proof.
  induction l as [| x l IH]; intros Hf c c' ys; cbn; [by intros [= <- <-] |].
  destruct (f c x) as [c1 [y |]] eqn:Ex; [| done]. destruct (each f c1 l) as [c2 [ys' |]] eqn:E; [| done]. intros [= <- <-]. cbn.
  rewrite (Hf _ _ _ _ ltac:(by left) Ex). rewrite (IH (λ c x c' y Hx, Hf c x c' y ltac:(by right)) _ _ _ E). done.
Qed.

Lemma each_Forall {A B} (f : outcomeCodecState → A → outcomeCodecState * option B) (P : A → Prop) :
  (∀ c x c' y, f c x = (c', Some y) → P x) → ∀ l c c' ys, each f c l = (c', Some ys) → Forall P l.
Proof.
  intros Hf l. induction l as [| x l IH]; intros c c' ys; cbn; [constructor |].
  destruct (f c x) as [c1 [y |]] eqn:Ex; [| done]. destruct (each f c1 l) as [c2 [ys' |]] eqn:E; [| done]. intros _. constructor; [by eapply Hf | by eapply IH].
Qed.

End codec_facts.

(** ** Rebuilding one node *)

Definition pad (k : outcomeCodec) (children : list error) : list error :=
  if bool_decide (k.(maxChildren) = 1) && bool_decide (children = []) then [Nil] else children.

Definition rebuilt (k : outcomeCodec) (n : outcomeCause) (children : list error) : option error :=
  match k.(sentinel) with Some s => Some (Sentinel s) | None => k.(build) n (pad k children) end.

Lemma is_nil_build_join l : is_nil (build_join l) = false.
Proof. destruct l as [| a [| b [| c l]]]; try done. unfold build_join. by destruct (is_sentinel ErrFlux a). Qed.

Lemma is_nil_redact err : is_nil (redact err) = is_nil err.
Proof.
  destruct err; try done; cbn [redact]; rewrite ?is_nil_build_join; try done.
  destruct (is_nil err2); [done |]. destruct (is_nil err1); [done |]. by rewrite is_nil_build_join.
Qed.

Lemma outcomeOp_idem op : outcomeOp (outcomeOp op) = outcomeOp op.
Proof. unfold outcomeOp at 2. case_bool_decide as H; [done |]. symmetry. unfold outcomeOp at 1. rewrite bool_decide_eq_false_2 by done. by vm_compute. Qed.

Lemma outcomeNetwork_idem op : outcomeNetwork (outcomeNetwork op) = outcomeNetwork op.
Proof. unfold outcomeNetwork at 2. case_bool_decide as H; [done |]. symmetry. unfold outcomeNetwork at 1. rewrite bool_decide_eq_false_2 by done. by vm_compute. Qed.

Lemma same_shape_refl n l : same_shape (set_Children n l) n = true.
Proof. destruct n. unfold same_shape. cbn. by rewrite !bool_decide_eq_true_2. Qed.

Lemma build_codes_map errors : build_codes (map redact (map Code errors)) = Some (map redact_code errors).
Proof. induction errors as [| e l IH]; [done |]. cbn. by rewrite IH. Qed.

Lemma build_join_node l : (∀ e, e ∈ l → is_nil e = false) → ∃ ch, outcomeNode (build_join l) = Some (of_kind joinOutcome, ch).
Proof.
  intros Hl. destruct l as [| a [| b [| c l]]]; try by eexists. unfold build_join.
  destruct (is_sentinel ErrFlux a) eqn:E; [| by eexists]. cbn. unfold manifestOutcomeNode.
  rewrite (Hl b), (Hl a) by (rewrite !elem_of_cons; auto). by eexists.
Qed.

Lemma map_redact_not_nil l : (∀ e, e ∈ l → is_nil e = false) → ∀ e, e ∈ map redact l → is_nil e = false.
Proof. intros Hl e He. apply list_elem_of_fmap in He. destruct He as (x & -> & Hx). rewrite is_nil_redact. by apply Hl. Qed.

(** A node that was encoded is rebuilt as its redaction, and passes the check of its shape. *)
Lemma rebuild err n ch k l : outcomeNode err = Some (n, ch) → codec_of n.(Kind) = Some k → (∀ e, e ∈ ch → is_nil e = false) →
  well_made err = true →
  rebuilt k (set_Children n l) (map redact ch) = Some (redact err) ∧
  ∃ shape ch', outcomeNode (redact err) = Some (shape, ch') ∧ same_shape (set_Children n l) shape = true.
Proof.
  intros Hn Hk Hnil Hwf. destruct err; try done.
  - destruct s; cbn in Hn; try done; injection Hn as <- <-; vm_compute in Hk; injection Hk as <-; (split; [done | by repeat eexists]).
  - cbn in Hn. unfold manifestOutcomeNode in Hn. cbn [redact]. destruct (is_nil err2) eqn:E2; [| destruct (is_nil err1) eqn:E1].
    + injection Hn as <- <-. vm_compute in Hk; injection Hk as <-. split; [done | by repeat eexists].
    + injection Hn as <- <-. vm_compute in Hk; injection Hk as <-. split; [done | by repeat eexists].
    + injection Hn as <- <-. vm_compute in Hk; injection Hk as <-. split; [done |].
      destruct (build_join_node [redact err1; redact err2]) as [ch Hch].
      { apply (map_redact_not_nil [err1; err2]). intros e He. apply Hnil, He. }
      eexists _, ch. split; [exact Hch |]. by vm_compute.
  - injection Hn as <- <-. vm_compute in Hk; injection Hk as <-. split; [done | by repeat eexists].
  - injection Hn as <- <-. vm_compute in Hk; injection Hk as <-. split; [done | by repeat eexists].
  - injection Hn as <- <-. vm_compute in Hk; injection Hk as <-. cbn in Hwf. apply andb_true_iff in Hwf. destruct Hwf as [Hm _].
    split; [| by repeat eexists]. change (Some (MachineCredentialErr (redact err)) = Some (MachineError (redact err))). unfold MachineCredentialErr.
    rewrite is_nil_redact, (Hnil err) by (by left). rewrite has_machine_redact. apply negb_true_iff in Hm. by rewrite Hm.
  - injection Hn as <- <-. vm_compute in Hk; injection Hk as <-. split; [done |]. eexists _, _. split; [done |]. cbn.
    rewrite outcomeOp_idem. unfold same_shape. cbn. by rewrite !bool_decide_eq_true_2.
  - injection Hn as <- <-. vm_compute in Hk; injection Hk as <-. split; [done |]. eexists _, _. split; [done |]. cbn.
    rewrite outcomeOp_idem, outcomeNetwork_idem. unfold same_shape. cbn. by rewrite !bool_decide_eq_true_2.
  - injection Hn as <- <-. vm_compute in Hk; injection Hk as <-. split; [done |]. eexists _, _. split; [done |]. cbn.
    rewrite outcomeOp_idem. unfold same_shape. cbn. by rewrite !bool_decide_eq_true_2.
  - cbn in Hn. destruct isTimeout; [| done]. injection Hn as <- <-. vm_compute in Hk; injection Hk as <-. split.
    + unfold optional. destruct (is_nil err) eqn:E; [apply is_nil_true in E; by subst | done].
    + eexists _, _. split; [done |]. cbn. unfold same_shape. cbn. by rewrite !bool_decide_eq_true_2.
  - injection Hn as <- <-. vm_compute in Hk; injection Hk as <-. split.
    + unfold optional. destruct (is_nil err) eqn:E; [apply is_nil_true in E; by subst | done].
    + eexists _, _. split; [done |]. cbn. rewrite outcomeOp_idem. unfold same_shape. cbn. by rewrite !bool_decide_eq_true_2.
  - injection Hn as <- <-. vm_compute in Hk; injection Hk as <-. split.
    + destruct errors as [| e errors]; [done |]. rewrite bool_decide_eq_true_2 by (cbn; lia). done.
    + eexists _, _. split; [done |]. cbn. rewrite outcomeOp_idem. unfold same_shape. cbn. by rewrite !bool_decide_eq_true_2.
  - cbn in Hn. case_bool_decide as Hlen; [done |]. injection Hn as <- <-. change (codec_of (Kind (of_kind "codes"))) with
      (Some (mkCodec 0 outcomeNodeLimit no_context outcomeStatus false false false false None (λ _ children, Codes <$> build_codes children))) in Hk.
    injection Hk as <-. split.
    + unfold rebuilt, pad. cbn [sentinel build maxChildren]. change (bool_decide (outcomeNodeLimit = 1)) with false. cbn [andb]. by rewrite build_codes_map.
    + eexists _, _. cbn. rewrite length_map, bool_decide_eq_false_2 by done. split; [done |]. by vm_compute.
  - injection Hn as <- <-. vm_compute in Hk; injection Hk as <-. split; [done |]. eexists _, _. split; [done |].
    cbn. unfold same_shape. cbn. by rewrite !bool_decide_eq_true_2.
  - injection Hn as <- <-. vm_compute in Hk; injection Hk as <-. split; [done |]. eexists _, _. split; [done |].
    cbn. unfold same_shape. cbn. by rewrite !bool_decide_eq_true_2.
  - injection Hn as <- <-. vm_compute in Hk; injection Hk as <-. split; [done | by repeat eexists].
  - injection Hn as <- <-. vm_compute in Hk; injection Hk as <-. split; [done |].
    destruct (build_join_node (map redact errs) (map_redact_not_nil _ Hnil)) as [ch Hch]. eexists _, ch. split; [exact Hch |]. by vm_compute.
  - injection Hn as <- <-. vm_compute in Hk; injection Hk as <-. split; [done |].
    destruct (build_join_node (map redact errs) (map_redact_not_nil _ Hnil)) as [ch Hch]. eexists _, ch. split; [exact Hch |]. by vm_compute.
Qed.

Section round_trip.
Context (errorCodes : list string).

Lemma kind_codec c n m scope d c' k : kind errorCodes c n m scope d = (c', Some k) → codec_of n.(Kind) = Some k.
Proof. unfold kind. destruct (codec_of (Kind n)) as [k' |]; [| done]. case_match; [done |]. by intros [= _ <-]. Qed.

Lemma encode_nil fuel c scope d : (encode errorCodes fuel c Nil scope d).2 = None.
Proof. by destruct fuel. Qed.

(** What one level of [encode] says when it succeeds. *)
Lemma encode_inv fuel c err scope d c' n : encode errorCodes fuel c err scope d = (c', Some n) →
  ∃ fuel' n0 ch c1 k l, fuel = S fuel' ∧ refused err = false ∧ outcomeNode err = Some (n0, ch) ∧
    kind errorCodes c n0 (Z.of_nat (length ch)) scope d = (c1, Some k) ∧
    each (λ c child, encode errorCodes fuel' c child (join_context scope k.(enter)) (S d)) c1 ch = (c', Some l) ∧ n = set_Children n0 l.
Proof.
  destruct fuel as [| fuel]; [done |]. cbn [encode]. destruct (refused err) eqn:Hr; [done |].
  destruct (outcomeNode err) as [[n0 ch] |] eqn:Hn; [| done].
  destruct (kind errorCodes c n0 (Z.of_nat (length ch)) scope d) as [c1 [k |]] eqn:Hk; [| done].
  destruct (each _ c1 ch) as [c2 [l |]] eqn:He; [| done]. intros [= <- <-]. by exists fuel, n0, ch, c1, k, l.
Qed.

(** What one level of [decode] says when it succeeds. *)
Lemma decode_inv fuel c n scope d c' err : decode errorCodes fuel c n scope d = (c', Some err) →
  ∃ fuel' c1 k ch shape ch', fuel = S fuel' ∧ kind errorCodes c n (Z.of_nat (length n.(Children))) scope d = (c1, Some k) ∧
    each (λ c child, decode errorCodes fuel' c child (join_context scope k.(enter)) (S d)) c1 n.(Children) = (c', Some ch) ∧
    rebuilt k n ch = Some err ∧ outcomeNode err = Some (shape, ch') ∧ same_shape n shape = true.
Proof.
  destruct fuel as [| fuel]; [done |]. cbn [decode].
  destruct (kind errorCodes c n (Z.of_nat (length (Children n))) scope d) as [c1 [k |]] eqn:Hk; [| done].
  destruct (each _ c1 (Children n)) as [c2 [ch |]] eqn:He; [| done]. fold (pad k ch). fold (rebuilt k n ch).
  destruct (rebuilt k n ch) as [r |] eqn:Hr; [| done]. destruct (outcomeNode r) as [[shape ch'] |] eqn:Hn; [| done].
  destruct (same_shape n shape) eqn:Hs; [| done]. intros [= <- <-]. by exists fuel, c1, k, ch, shape, ch'.
Qed.

Lemma decode_intro fuel c n scope d c1 k c' ch err shape ch' :
  kind errorCodes c n (Z.of_nat (length n.(Children))) scope d = (c1, Some k) →
  each (λ c child, decode errorCodes fuel c child (join_context scope k.(enter)) (S d)) c1 n.(Children) = (c', Some ch) →
  rebuilt k n ch = Some err → outcomeNode err = Some (shape, ch') → same_shape n shape = true →
  decode errorCodes (S fuel) c n scope d = (c', Some err).
Proof.
  intros Hk He Hr Hn Hs. cbn [decode]. rewrite Hk, He. fold (pad k ch). fold (rebuilt k n ch). by rewrite Hr, Hn, Hs.
Qed.

(** The children of a well made error are well made. *)
Lemma well_made_children err n ch : well_made err = true → outcomeNode err = Some (n, ch) → Forall (λ e, well_made e = true) ch.
Proof.
  intros Hwf Hn. destruct err; cbn in Hwf, Hn; try (by injection Hn as <- <-; repeat constructor); try done.
  - destruct s; try done; injection Hn as <- <-; constructor.
  - apply andb_true_iff in Hwf. destruct Hwf as [H1 H2]. unfold manifestOutcomeNode in Hn.
    destruct (is_nil err2); [injection Hn as <- <-; by repeat constructor |]. destruct (is_nil err1); injection Hn as <- <-; by repeat constructor.
  - apply andb_true_iff in Hwf. destruct Hwf as [_ H]. injection Hn as <- <-. by repeat constructor.
  - destruct isTimeout; [| done]. injection Hn as <- <-. unfold optional. destruct (is_nil err); by repeat constructor.
  - injection Hn as <- <-. unfold optional. destruct (is_nil err); by repeat constructor.
  - injection Hn as <- <-. case_bool_decide; by repeat constructor.
  - case_bool_decide; [done |]. injection Hn as <- <-. apply Forall_forall. intros e He. apply list_elem_of_fmap in He. by destruct He as (x & -> & _).
  - injection Hn as <- <-. apply Forall_forall. intros e He. rewrite forallb_forall in Hwf. by apply Hwf, list_elem_of_In.
  - injection Hn as <- <-. apply Forall_forall. intros e He. rewrite forallb_forall in Hwf. by apply Hwf, list_elem_of_In.
Qed.

Lemma encode_decode fuel : ∀ c err scope d c' n, well_made err = true → encode errorCodes fuel c err scope d = (c', Some n) →
  decode errorCodes fuel c n scope d = (c', Some (redact err)).
Proof.
  induction fuel as [| fuel IH]; intros c err scope d c' n Hwf He; [done |].
  destruct (encode_inv _ _ _ _ _ _ _ He) as (? & n0 & ch & c1 & k & l & [= <-] & _ & Hn & Hk & Hl & ->).
  pose proof (kind_codec _ _ _ _ _ _ _ Hk) as Hc.
  assert (∀ e, e ∈ ch → is_nil e = false) as Hnil.
  { apply Forall_forall. eapply each_Forall; [| exact Hl]. intros c2 x c3 y Hx. destruct (is_nil x) eqn:E; [| done].
    apply is_nil_true in E. subst x. pose proof (encode_nil fuel c2 (join_context scope (enter k)) (S d)) as H. cbv beta in Hx. by rewrite Hx in H. }
  destruct (rebuild err n0 ch k l Hn Hc Hnil Hwf) as (Hr & shape & ch' & Hs & Hsame).
  pose proof (well_made_children _ _ _ Hwf Hn) as Hch. rewrite Forall_forall in Hch.
  refine (decode_intro _ _ _ _ _ _ k _ (map redact ch) _ _ _ _ _ Hr Hs Hsame).
  - cbn [set_Children Children]. rewrite (each_length _ _ _ _ _ Hl). by destruct n0.
  - cbn [set_Children Children]. refine (each_sim _ _ redact ch _ _ _ _ Hl). intros c2 x c3 y Hx. by apply IH, Hch.
Qed.

(** The record of an error replays it without its diagnostics: decoding what
    was encoded succeeds, in the same state, with the redaction of the error. *)
Theorem outcome_round_trip err c n : well_made err = true →
  encode errorCodes codec_fuel start err no_context 1 = (c, Some n) →
  decode errorCodes codec_fuel start n no_context 1 = (c, Some (redact err)).
Proof. apply encode_decode. Qed.

(** ** Limits *)

Lemma each_nodes f l : (∀ c x c' (y : error), x ∈ l → f c x = (c', Some y) → c'.(nodes) = c.(nodes) + node_count x ∧ c'.(nodes) <= outcomeNodeLimit) →
  ∀ c c' ys, each f c l = (c', Some ys) → c.(nodes) <= outcomeNodeLimit →
  c'.(nodes) = c.(nodes) + foldr (λ n z, node_count n + z) 0 l ∧ c'.(nodes) <= outcomeNodeLimit.
Proof.
  induction l as [| x l IH]; intros Hf c c' ys; cbn; [intros [= <- <-]; lia |].
  destruct (f c x) as [c1 [y |]] eqn:Ex; [| done]. destruct (each f c1 l) as [c2 [ys' |]] eqn:E; [| done]. intros [= <- <-] Hc.
  destruct (Hf _ _ _ _ ltac:(by left) Ex) as [H1 H2].
  destruct (IH (λ c x c' y Hx, Hf c x c' y ltac:(by right)) _ _ _ E H2) as [H3 H4]. lia.
Qed.

Lemma kind_nodes c n m scope d c' k : 0 <= m → kind errorCodes c n m scope d = (c', Some k) →
  c'.(nodes) = c.(nodes) + 1 ∧ c'.(nodes) + m <= outcomeNodeLimit ∧ (d <= outcomeDepthLimit)%nat.
Proof.
  intros Hm. unfold kind. destruct (codec_of (Kind n)) as [k' |]; [| done]. case_match eqn:E; [done |]. intros [= <- <-]. cbn.
  rewrite !orb_false_iff, bool_decide_eq_false in E. destruct E as ((((((E1 & _) & _) & E2) & _) & _) & _). cbn in E2. lia.
Qed.

Lemma height_bound (d b : nat) l : (d < b)%nat → Forall (λ x, (S d + height x <= b)%nat) l →
  (d + S (foldr (λ n m, Nat.max (height n) m) O l) <= b)%nat.
Proof. intros Hd. induction 1 as [| x l Hx _ IH]; cbn; lia. Qed.

Lemma decode_limits fuel : ∀ c n scope d c' err, decode errorCodes fuel c n scope d = (c', Some err) →
  c'.(nodes) = c.(nodes) + node_count n ∧ c'.(nodes) <= outcomeNodeLimit ∧ (d + height n <= S outcomeDepthLimit)%nat.
Proof.
  induction fuel as [| fuel IH]; intros c n scope d c' err He; [done |].
  destruct (decode_inv _ _ _ _ _ _ _ He) as (? & c1 & k & ch & shape & ch' & [= <-] & Hk & Hl & _).
  destruct (kind_nodes _ _ _ _ _ _ _ (Nat2Z.is_nonneg _) Hk) as (H1 & H2 & H3).
  destruct (each_nodes _ (Children n) (λ c x c' y _ H, let '(conj a (conj b _)) := IH c x _ _ c' y H in conj a b) _ _ _ Hl ltac:(lia)) as [H4 H5].
  assert (Forall (λ x, (S d + height x <= S outcomeDepthLimit)%nat) (Children n)) as Hh.
  { eapply each_Forall; [| exact Hl]. intros c2 x c3 y Hx. by destruct (IH _ _ _ _ _ _ Hx) as (_ & _ & ?). }
  assert ((d + S (foldr (λ n m, Nat.max (height n) m) O (Children n)) <= S outcomeDepthLimit)%nat) as Hd.
  { apply height_bound; [lia | exact Hh]. }
  destruct n. cbn in *. lia.
Qed.

End round_trip.

(** A codec's property of some node of a record. *)
Fixpoint flag (p : outcomeCodec → bool) (n : outcomeCause) : bool :=
  match codec_of n.(Kind) with Some k => p k | None => false end || existsb (flag p) n.(Children).

Lemma codec_of_in kd k : codec_of kd = Some k → List.In (kd, k) outcomeCodecs.
Proof.
  unfold codec_of. intros H. apply fmap_Some in H. destruct H as ([kd' k'] & H & ->). apply List.find_some in H.
  destruct H as [H1 H2]. cbn in H2. apply bool_decide_eq_true in H2. cbn. by subst.
Qed.

(** Case analysis on the kind of a node that has a codec. *)
Ltac by_kind H :=
  apply codec_of_in in H; cbn [outcomeCodecs List.In] in H;
  repeat (destruct H as [H | H]; [injection H as <- <- |]); [.. | done].

Lemma build_codes_inv ch l : build_codes ch = Some l → ch = map Code l.
Proof.
  revert l. induction ch as [| e ch IH]; intros l; [by intros [= <-] |]. cbn. destruct e; try done.
  destruct (build_codes ch) as [l' |]; [| done]. intros [= <-]. cbn. by rewrite <- IH.
Qed.

Lemma short_list {A} (l : list A) : Z.of_nat (length l) <= 1 → l = [] ∨ ∃ x, l = [x].
Proof. destruct l as [| x [| y l]]; [by left | right; by exists x |]. cbn. lia. Qed.

Lemma replayed_child ch : Z.of_nat (length ch) <= 1 → replayed (child ch) = existsb replayed ch.
Proof. intros H. destruct (short_list ch H) as [-> | [x ->]]; [done |]. cbn. by rewrite orb_false_r. Qed.

Lemma child_pad k ch : child (pad k ch) = child ch.
Proof. unfold pad. destruct ch; [| by rewrite andb_false_r]. by destruct (bool_decide _). Qed.

Lemma replayed_MachineCredentialErr err : replayed (MachineCredentialErr err) = replayed err.
Proof. unfold MachineCredentialErr. destruct (is_nil err) eqn:E; [apply is_nil_true in E; by subst |]. by destruct (has_machine err). Qed.

Lemma replayed_Codes l : existsb replayed (map Code l) = false.
Proof. by induction l. Qed.

Lemma rebuilt_replayed kd k n ch err : codec_of kd = Some k → Z.of_nat (length ch) <= k.(maxChildren) → rebuilt k n ch = Some err →
  replayed err = k.(terminal) || existsb replayed ch.
Proof.
  intros Hk Hlen. by_kind Hk; unfold rebuilt; cbn [sentinel build wrapper leaf terminal maxChildren] in *; rewrite ?child_pad;
    try (intros [= <-]; cbn [replayed negb orb]; rewrite ?replayed_MachineCredentialErr; first [done | by apply replayed_child]);
    try (by destruct ch; [intros [= <-] | cbn in Hlen; lia]).
  - intros [= <-]. rewrite replayed_build_join. unfold pad. by rewrite bool_decide_eq_false_2.
  - unfold build_response. rewrite child_pad. destruct (short_list ch Hlen) as [-> | [x ->]]; [by intros [= <-] |].
    cbn. destruct x; try done; by intros [= <-].
  - unfold pad. rewrite bool_decide_eq_false_2 by done. cbn [andb]. intros H. apply fmap_Some in H. destruct H as (l & Hl & ->).
    apply build_codes_inv in Hl. subst ch. by rewrite replayed_Codes.
Qed.

Lemma outcomeNode_replayed err n ch : outcomeNode err = Some (n, ch) →
  replayed err = match err with TerminalError _ attempted => negb attempted | _ => false end || existsb replayed ch.
Proof.
  intros Hn. destruct err; cbn in Hn |- *; try done; try (by injection Hn as <- <-; cbn; rewrite ?orb_false_r).
  - destruct s; try done; by injection Hn as <- <-.
  - unfold manifestOutcomeNode in Hn. destruct (is_nil err2) eqn:E2; [apply is_nil_true in E2; subst; injection Hn as <- <-; cbn; by rewrite !orb_false_r |].
    destruct (is_nil err1) eqn:E1; [apply is_nil_true in E1; subst |]; injection Hn as <- <-; cbn; by rewrite !orb_false_r.
  - destruct isTimeout; [| done]. injection Hn as <- <-. unfold optional. destruct (is_nil err) eqn:E; [apply is_nil_true in E; by subst |].
    cbn. by rewrite orb_false_r.
  - injection Hn as <- <-. unfold optional. destruct (is_nil err) eqn:E; [apply is_nil_true in E; by subst |]. cbn. by rewrite orb_false_r.
  - injection Hn as <- <-. by destruct (bool_decide _).
  - case_bool_decide; [done |]. injection Hn as <- <-. by rewrite replayed_Codes.
Qed.

Lemma each_Forall2 {A B} (f : outcomeCodecState → A → outcomeCodecState * option B) (R : A → B → Prop) :
  (∀ c x c' y, f c x = (c', Some y) → R x y) → ∀ l c c' ys, each f c l = (c', Some ys) → Forall2 R l ys.
Proof.
  intros Hf l. induction l as [| x l IH]; intros c c' ys; cbn; [intros [= _ <-]; constructor |].
  destruct (f c x) as [c1 [y |]] eqn:Ex; [| done]. destruct (each f c1 l) as [c2 [ys' |]] eqn:E; [| done].
  intros [= _ <-]. constructor; [by eapply Hf | by eapply IH].
Qed.

Lemma existsb_Forall2 {A B} (p : A → bool) (q : B → bool) l ys : Forall2 (λ x y, q y = p x) l ys → existsb q ys = existsb p l.
Proof. induction 1 as [| x y l ys H _ IH]; [done |]. cbn. by rewrite H, IH. Qed.

Section replay.
Context (errorCodes : list string).

Lemma kind_max c n m scope d c' k : kind errorCodes c n m scope d = (c', Some k) → k.(minChildren) <= m <= k.(maxChildren).
Proof.
  unfold kind. destruct (codec_of (Kind n)) as [k' |]; [| done]. case_match eqn:E; [done |]. intros [= _ <-].
  rewrite !orb_false_iff in E. destruct E as ((((((_ & E1) & E2) & _) & _) & _) & _). lia.
Qed.

Lemma decode_replayed fuel : ∀ c n scope d c' err, decode errorCodes fuel c n scope d = (c', Some err) → replayed err = flag terminal n.
Proof.
  induction fuel as [| fuel IH]; intros c n scope d c' err He; [done |].
  destruct (decode_inv _ _ _ _ _ _ _ _ He) as (? & c1 & k & ch & shape & ch' & [= <-] & Hk & Hl & Hr & _).
  pose proof (kind_codec _ _ _ _ _ _ _ _ Hk) as Hc. pose proof (kind_max _ _ _ _ _ _ _ Hk) as [_ Hmax].
  rewrite <- (each_length _ _ _ _ _ Hl) in Hmax. rewrite (rebuilt_replayed _ _ _ _ _ Hc Hmax Hr).
  destruct n. cbn [flag Kind Children] in *. rewrite Hc. f_equal.
  apply existsb_Forall2. eapply each_Forall2; [| exact Hl]. intros c2 x c3 y Hx. by apply IH in Hx.
Qed.

Lemma encode_replayed fuel : ∀ c err scope d c' n, encode errorCodes fuel c err scope d = (c', Some n) → replayed err = false.
Proof.
  induction fuel as [| fuel IH]; intros c err scope d c' n He; [done |].
  destruct (encode_inv _ _ _ _ _ _ _ _ He) as (? & n0 & ch & c1 & k & l & [= <-] & Href & Hn & _ & Hl & _).
  rewrite (outcomeNode_replayed _ _ _ Hn).
  assert (Forall (λ e, replayed e = false) ch) as Hch by (eapply each_Forall; [| exact Hl]; intros c2 x c3 y Hx; by apply IH in Hx).
  assert (existsb replayed ch = false) as ->. { clear -Hch. induction Hch as [| x l Hx _ IHl]; [done |]. cbn. by rewrite Hx, IHl. }
  unfold refused in Href. rewrite !orb_false_iff in Href. destruct Href as [[[[H _] _] _] _]. by rewrite H.
Qed.

(** The flags of the state say what the record holds. *)
Lemma each_flags (p : outcomeCodec → bool) (get : outcomeCodecState → bool) f l :
  (∀ c x c' (y : error), x ∈ l → f c x = (c', Some y) → get c' = get c || flag p x) →
  ∀ c c' ys, each f c l = (c', Some ys) → get c' = get c || existsb (flag p) l.
Proof.
  induction l as [| x l IH]; intros Hf c c' ys; cbn; [intros [= <- _]; by rewrite orb_false_r |].
  destruct (f c x) as [c1 [y |]] eqn:Ex; [| done]. destruct (each f c1 l) as [c2 [ys' |]] eqn:E; [| done]. intros [= <- _].
  rewrite (IH (λ c x c' y Hx, Hf c x c' y ltac:(by right)) _ _ _ E), (Hf _ _ _ _ ltac:(by left) Ex). by rewrite orb_assoc.
Qed.

Lemma decode_flags fuel : ∀ c n scope d c' err, decode errorCodes fuel c n scope d = (c', Some err) →
  c'.(s_terminal) = c.(s_terminal) || flag terminal n ∧ c'.(s_remote) = c.(s_remote) || flag remote n.
Proof.
  induction fuel as [| fuel IH]; intros c n scope d c' err He; [done |].
  destruct (decode_inv _ _ _ _ _ _ _ _ He) as (? & c1 & k & ch & shape & ch' & [= <-] & Hk & Hl & _).
  pose proof (kind_codec _ _ _ _ _ _ _ _ Hk) as Hc.
  assert (c1.(s_terminal) = c.(s_terminal) || k.(terminal) ∧ c1.(s_remote) = c.(s_remote) || k.(remote)) as [H1 H2].
  { unfold kind in Hk. rewrite Hc in Hk. case_match; [done |]. by injection Hk as <-. }
  pose proof (each_flags terminal s_terminal _ _ (λ c x c' y _ Hx, proj1 (IH c x _ _ c' y Hx)) _ _ _ Hl) as H3.
  pose proof (each_flags remote s_remote _ _ (λ c x c' y _ Hx, proj2 (IH c x _ _ c' y Hx)) _ _ _ Hl) as H4.
  destruct n. cbn [flag Kind Children] in *. rewrite H3, H4, H1, H2, Hc, <- !orb_assoc. done.
Qed.

(** ** Cleanliness *)

Lemma outcomeNode_clean err n ch k : outcomeNode err = Some (n, ch) → codec_of n.(Kind) = Some k →
  outcomeOp n.(Op) = n.(Op) ∧ outcomeNetwork n.(Network) = n.(Network) ∧ (n.(Status) = 0 ∨ k.(transient) = true) ∧
  (n.(o_Code) = "" ∨ k.(code) = true).
Proof.
  intros Hn Hk. destruct err; cbn in Hn; try done;
    try (injection Hn as <- <-; vm_compute in Hk; injection Hk as <-; cbn; rewrite ?outcomeOp_idem, ?outcomeNetwork_idem; by auto).
  - destruct s; try done; injection Hn as <- <-; vm_compute in Hk; injection Hk as <-; cbn; by auto.
  - unfold manifestOutcomeNode in Hn. destruct (is_nil err2); [| destruct (is_nil err1)]; injection Hn as <- <-; vm_compute in Hk; injection Hk as <-; cbn; by auto.
  - destruct isTimeout; [| done]. injection Hn as <- <-; vm_compute in Hk; injection Hk as <-; cbn; by auto.
  - case_bool_decide; [done |]. injection Hn as <- <-; vm_compute in Hk; injection Hk as <-; cbn; by auto.
Qed.

Lemma decode_clean fuel : ∀ c n scope d c' err, decode errorCodes fuel c n scope d = (c', Some err) → clean errorCodes n = true.
Proof.
  induction fuel as [| fuel IH]; intros c n scope d c' err He; [done |].
  destruct (decode_inv _ _ _ _ _ _ _ _ He) as (? & c1 & k & ch & shape & ch' & [= <-] & Hk & Hl & _ & Hn & Hs).
  pose proof (kind_codec _ _ _ _ _ _ _ _ Hk) as Hc.
  assert (forallb (clean errorCodes) (Children n) = true) as Hch.
  { apply forallb_forall. assert (Forall (λ x, clean errorCodes x = true) (Children n)) as H.
    { eapply each_Forall; [| exact Hl]. intros c2 x c3 y Hx. by apply IH in Hx. }
    rewrite Forall_forall in H. intros x Hx. by apply H, list_elem_of_In. }
  unfold same_shape in Hs. rewrite !andb_true_iff, !bool_decide_eq_true in Hs. destruct Hs as ((((((E1 & E2) & E3) & E4) & E5) & _) & _).
  destruct (outcomeNode_clean _ _ _ k Hn) as (C1 & C2 & C3 & C4); [by rewrite <- E1 |].
  unfold kind in Hk. rewrite Hc in Hk. case_match eqn:Eb; [done |]. rewrite !orb_false_iff in Eb. destruct Eb as ((_ & Et) & Ecode).
  destruct n as [kd op net st co te nf l]. cbn [clean Kind Op Network Status o_Code Children] in *. rewrite Hc, Hch. subst op net.
  rewrite !andb_true_iff, !orb_true_iff, !bool_decide_eq_true. repeat split; try done.
  - rewrite E4. destruct C3 as [-> | C3]; [by left |]. rewrite C3 in Et. cbn in Et. right. apply negb_false_iff, bool_decide_eq_true in Et. congruence.
  - rewrite E5. destruct C4 as [-> | C4]; [by left |]. rewrite C4 in Ecode. cbn in Ecode. right.
    apply negb_false_iff, bool_decide_eq_true in Ecode. congruence.
Qed.

End replay.

(** ** What records promise *)

Section promises.
Context (errorCodes : list string) (digest_valid uuid_canonical : string → bool).

Lemma newOutcome_inv err completed count last o : newOutcome errorCodes digest_valid uuid_canonical err completed count last = Some (Some o) →
  ∃ c cause layer deadline, outcomeDeadline completed count = Some (deadline, true) ∧
    encode errorCodes codec_fuel start err no_context 1 = (c, Some cause) ∧ c.(s_terminal) = true ∧ c.(s_remote) = true ∧
    outcomeLayer digest_valid uuid_canonical last = (layer, true) ∧ o = mkOutcome (mkRecord 1 completed count cause) layer zero_time false.
Proof.
  unfold newOutcome. destruct (outcomeDeadline completed count) as [[deadline [|]] |] eqn:Ed; try done. cbn [mbind option_bind snd negb].
  destruct (encode errorCodes codec_fuel start err no_context 1) as [c [cause |]]; [| done].
  destruct (s_terminal c) eqn:Et; [| done]. destruct (s_remote c) eqn:Er; [| done]. cbn [negb orb].
  destruct (outcomeLayer digest_valid uuid_canonical last) as [layer [|]] eqn:El; [| done]. intros [= <-]. by exists c, cause, layer, deadline.
Qed.

(** What reading back an accepted record relies on. *)
Lemma accepts_inv r : accepts errorCodes r = Some true →
  ∃ c err, decode errorCodes codec_fuel start r.(Cause) no_context 1 = (c, Some err) ∧ c.(s_terminal) = true ∧ c.(s_remote) = true.
Proof.
  unfold accepts. destruct (outcomeDeadline _ _) as [d |]; [| done]. cbn [mbind option_bind].
  destruct (decode errorCodes codec_fuel start (Cause r) no_context 1) as [c [err |]]; [| done]. intros [= H].
  rewrite !andb_true_iff in H. exists c, err. tauto.
Qed.

(** Claim C32: what is recorded of a failed acquisition is accepted when it is read back,
    and replays the same error without its diagnostics: the same wrappers in the same
    places, with only the operations, networks, statuses and codes that are listed. *)
Theorem newOutcome_replays err completed count last o : well_made err = true → 0 <= count →
  newOutcome errorCodes digest_valid uuid_canonical err completed count last = Some (Some o) →
  accepts errorCodes o.(record) = Some true ∧ replay errorCodes o = redact err ∧ o.(record).(Completed) = completed ∧
  o.(record).(Count) = count ∧ (o.(lastGood).(Digest) = "" ∨ digest_valid o.(lastGood).(Digest) = true).
Proof.
  intros Hwf Hc H. apply newOutcome_inv in H. destruct H as (c & cause & layer & deadline & Hd & He & Ht & Hr & Hl & ->).
  pose proof (encode_decode _ _ _ _ _ _ _ _ Hwf He) as Hdec. cbn [record Completed Count lastGood].
  split; [| split; [| split; [done | split; [done |]]]].
  - unfold accepts. cbn [Cause Completed Count Version]. rewrite Hd, Hdec. cbn [mbind option_bind]. by rewrite Ht, Hr.
  - unfold replay. cbn [record Cause]. by rewrite Hdec.
  - unfold outcomeLayer in Hl. destruct (bool_decide_reflect (Digest last = "")) as [E | E]; [injection Hl as <-; by left |].
    destruct (digest_valid (Digest last)) eqn:Ev; [| done]. cbn [negb orb] in Hl.
    right. repeat case_match; try done; by injection Hl as <-.
Qed.

(** Claim C33: a record that is accepted, whoever wrote it, has at most 128 nodes in at
    most 16 levels and no free text, and has a terminal wrapper and a remote failure. *)
Theorem accepted_bounded r : accepts errorCodes r = Some true →
  node_count r.(Cause) <= outcomeNodeLimit ∧ (height r.(Cause) <= outcomeDepthLimit)%nat ∧ clean errorCodes r.(Cause) = true ∧
  flag terminal r.(Cause) = true ∧ flag remote r.(Cause) = true.
Proof.
  intros H. destruct (accepts_inv _ H) as (c & err & Hdec & Ht & Hr).
  destruct (decode_limits _ _ _ _ _ _ _ _ Hdec) as (H1 & H2 & H3). destruct (decode_flags _ _ _ _ _ _ _ _ Hdec) as [H4 H5].
  cbn in H1, H4, H5. split; [lia |]. split; [lia |]. split; [by eapply decode_clean |]. split; congruence.
Qed.

(** A failure that is only replayed is never recorded as a new one, so a record
    does not renew itself without an attempt. *)
Theorem replay_not_recorded o completed count last : accepts errorCodes o.(record) = Some true → 0 <= count →
  newOutcome errorCodes digest_valid uuid_canonical (replay errorCodes o) completed count last = Some None.
Proof.
  intros H Hc. destruct (accepts_inv _ H) as (c & err & Hdec & Ht & _).
  unfold replay. rewrite Hdec. cbn [snd]. change (default Nil (Some err)) with err.
  destruct (newOutcome errorCodes digest_valid uuid_canonical err completed count last) as [[o' |] |] eqn:E; [| done |].
  - apply newOutcome_inv in E. destruct E as (c' & cause & layer & deadline & _ & He & _).
    apply encode_replayed in He. rewrite (decode_replayed _ _ _ _ _ _ _ _ Hdec) in He.
    destruct (decode_flags _ _ _ _ _ _ _ _ Hdec) as [H4 _]. cbn in H4. congruence.
  - unfold newOutcome in E. destruct (outcomeDeadline_exact completed count Hc) as (d & v & Hd & _). by rewrite Hd in E.
Qed.

End promises.

(** ** Freshness *)

(** A run of observations, and what the last one said. *)
Fixpoint observe_all (o : outcome) (nows : list time) (last : outcomeFreshness) : option (outcome * outcomeFreshness) :=
  match nows with
  | [] => Some (o, last)
  | now :: nows => r ← observe o now; observe_all r.1 nows r.2
  end.

(** The clock never went back. *)
Fixpoint forward (t : Z) (nows : list time) : bool :=
  match nows with [] => true | now :: nows => (t <=? now.(ns)) && forward now.(ns) nows end.

(** The earliest instant the next observation may have. *)
Definition floor_of (o : outcome) : Z := if IsZero o.(observed) then o.(record).(Completed).(ns) else o.(observed).(ns).

(** An outcome whose observations so far are at or after its completion. *)
Definition sound (o : outcome) : Prop := 0 < o.(record).(Completed).(ns) ∧ (o.(invalid) = false → o.(record).(Completed).(ns) <= floor_of o).

Lemma observe_step o now deadline : outcomeDeadline o.(record).(Completed) o.(record).(Count) = Some (deadline, true) → sound o →
  let i := o.(invalid) || negb (floor_of o <=? now.(ns)) in
  observe o now = Some (mkOutcome o.(record) o.(lastGood) now i, mkFreshness (negb i && Before now deadline) (negb i)) ∧
  sound (mkOutcome o.(record) o.(lastGood) now i) ∧ (i = false → floor_of (mkOutcome o.(record) o.(lastGood) now i) = now.(ns)).
Proof.
  intros Hd [Hpos Hs] i. unfold observe. rewrite Hd. cbn [mbind option_bind negb orb].
  assert ((if Before now (Completed (record o)) || negb (IsZero (observed o)) && Before now (observed o) then true else invalid o) = i) as ->.
  { unfold i, floor_of, Before in *. destruct (invalid o); [by destruct ((ns now <? ns (Completed (record o))) || negb (IsZero (observed o)) && (ns now <? ns (observed o))) |]. specialize (Hs eq_refl). cbn [orb].
    destruct (IsZero (observed o)); cbn [negb andb]; rewrite ?orb_false_r, Z.leb_antisym, negb_involutive.
    - by destruct (ns now <? ns (Completed (record o))).
    - destruct (ns now <? ns (observed o)) eqn:E; [by rewrite orb_true_r |]. rewrite orb_false_r.
      destruct (ns now <? ns (Completed (record o))) eqn:E2; [lia | done]. }
  split; [done |].
  assert (i = false → 0 < ns now ∧ ns (Completed (record o)) <= ns now) as Hi.
  { unfold i. rewrite orb_false_iff, negb_false_iff, Z.leb_le. intros [H1 H2]. specialize (Hs H1). lia. }
  assert (i = false → floor_of (mkOutcome (record o) (lastGood o) now i) = ns now) as Hf.
  { intros H. destruct (Hi H). unfold floor_of, IsZero. cbn [observed record]. rewrite bool_decide_eq_false_2 by lia. done. }
  split; [| done]. split; [done |]. cbn [invalid record]. intros H. rewrite (Hf H). by apply Hi.
Qed.

Lemma observe_all_spec nows now : ∀ o last deadline, outcomeDeadline o.(record).(Completed) o.(record).(Count) = Some (deadline, true) → sound o →
  let i := o.(invalid) || negb (forward (floor_of o) (nows ++ [now])) in
  ∃ o', observe_all o (nows ++ [now]) last = Some (o', mkFreshness (negb i && Before now deadline) (negb i)) ∧ o'.(record) = o.(record) ∧ o'.(lastGood) = o.(lastGood).
Proof.
  induction nows as [| n nows IH]; intros o last deadline Hd Hs i.
  - destruct (observe_step o now deadline Hd Hs) as [E _]. cbn [observe_all app]. rewrite E. cbn [mbind option_bind fst snd].
    eexists. split; [unfold i; cbn [app forward]; rewrite !andb_true_r; reflexivity | by split].
  - destruct (observe_step o n deadline Hd Hs) as (E & Hs' & Hf). cbn [observe_all app]. rewrite E. cbn [mbind option_bind fst snd].
    set (o1 := mkOutcome _ _ _ _) in *. destruct (IH o1 (mkFreshness (negb (invalid o || negb (floor_of o <=? ns n)) && Before n deadline) (negb (invalid o || negb (floor_of o <=? ns n)))) deadline Hd Hs') as (o' & E' & R1 & R2).
    exists o'. split; [| by split]. rewrite E'. unfold i. cbn [app forward].
    assert (invalid o1 || negb (forward (floor_of o1) (nows ++ [now])) = invalid o || negb ((floor_of o <=? ns n) && forward (ns n) (nows ++ [now]))) as ->; [| done].
    cbn [o1 invalid]. destruct (invalid o); [done |]. cbn [orb]. destruct (floor_of o <=? ns n) eqn:El; [| done]. cbn [negb orb andb]. rewrite Hf; [done |]. done.
Qed.

(** A recorded failure is fresh at an observation exactly when no observation,
    this one included, saw the clock before its completion or before an earlier
    observation, and the wait for its count is not over; once a rollback was seen it stays
    invalid, wherever the clock goes. *)
Theorem freshness_exact r last nows now f : 0 <= r.(Count) →
  observe_all (mkOutcome r last zero_time false) (nows ++ [now]) (mkFreshness false false) = Some f →
  (f.2.(valid) = true ↔ r.(Completed).(offset) = 0 ∧ r.(Count) ≠ 0 ∧ 0 < r.(Completed).(ns) ∧
     r.(Completed).(ns) + outcome_delay r.(Count) < year_10000 ∧ forward r.(Completed).(ns) (nows ++ [now]) = true) ∧
  (f.2.(fresh) = true ↔ f.2.(valid) = true ∧ now.(ns) < r.(Completed).(ns) + outcome_delay r.(Count)).
Proof.
  intros Hc. destruct (outcomeDeadline_exact r.(Completed) r.(Count) Hc) as (deadline & ok & Hd & Hok & Hdl). destruct ok.
  - destruct (proj1 Hok eq_refl) as (K1 & K2 & K3 & K4).
    assert (sound (mkOutcome r last zero_time false)) as Hs by (split; [exact K3 |]; intros _; exact (Z.le_refl (ns (Completed r)))).
    destruct (observe_all_spec nows now (mkOutcome r last zero_time false) (mkFreshness false false) deadline Hd Hs) as (o' & -> & _).
    intros [= <-]. change (floor_of (mkOutcome r last zero_time false)) with (ns (Completed r)). cbn [snd valid fresh invalid orb].
    rewrite negb_involutive, andb_true_iff, (Hdl eq_refl). unfold Before. cbn [Add ns]. rewrite Z.ltb_lt. tauto.
  - intros Hf.
    assert (∀ nows o l o' l', observe_all o nows l = Some (o', l') → o.(record) = r → nows ≠ [] → l'.(valid) = false ∧ l'.(fresh) = false) as Hbad.
    { clear Hf. intros l0. induction l0 as [| n l0 IH]; intros o l o' l' E Hr Hne; [done |]. cbn [observe_all] in E. unfold observe in E.
      rewrite Hr, Hd in E. cbn [mbind option_bind negb orb fst snd] in E. destruct l0 as [| n' l0]; [by injection E as <- <- |].
      by apply (IH _ _ _ _ E). }
    destruct f as [o' l']. destruct (Hbad _ _ _ _ _ Hf eq_refl) as [H1 H2]; [by destruct nows |]. cbn [snd]. rewrite H1, H2.
    split; [split; [done |] | split; [done | by intros [? _]]]. intros (K1 & K2 & K3 & K4 & _). by apply Hok.
Qed.

(** ** Witnesses *)

Definition w_codes : list string := ["BLOB_UNKNOWN"].
Definition w_true (_ : string) : bool := true.
Definition w_failure : error :=
  TerminalError (ProducerError (FmtWrap "fetch secret: %w" (UrlError "Get" "https://u:p@host" (MachineError (OpError "dial" "tcp" "a" "b" (Sentinel ECONNREFUSED)))))) true.
Definition w_completed : time := mkTime 1000 0.
Definition w_last : Descriptor := mkDescriptor "" "" 0 ∅.
Definition w_outcome : outcome :=
  default (mkOutcome (mkRecord 0 w_completed 0 (of_kind "")) w_last zero_time false)
    (default None (newOutcome w_codes w_true w_true w_failure w_completed 1 w_last)).

Lemma newOutcome_replays_witness : well_made w_failure = true ∧ 0 <= 1 ∧
  accepts w_codes w_outcome.(record) = Some true ∧ replay w_codes w_outcome = redact w_failure.
Proof.
  split; [by vm_compute |]. split; [lia |].
  destruct (newOutcome_replays w_codes w_true w_true w_failure w_completed 1 w_last w_outcome ltac:(by vm_compute) ltac:(lia) ltac:(by vm_compute)) as (H1 & H2 & _).
  by split.
Defined.

Lemma accepted_bounded_witness : accepts w_codes w_outcome.(record) = Some true ∧
  node_count w_outcome.(record).(Cause) <= outcomeNodeLimit ∧ clean w_codes w_outcome.(record).(Cause) = true.
Proof.
  assert (accepts w_codes w_outcome.(record) = Some true) as H by (by vm_compute). split; [exact H |].
  destruct (accepted_bounded w_codes _ H) as (H1 & _ & H2 & _). by split.
Defined.

Lemma replay_not_recorded_witness : accepts w_codes w_outcome.(record) = Some true ∧ 0 <= 2 ∧
  newOutcome w_codes w_true w_true (replay w_codes w_outcome) w_completed 2 w_last = Some None.
Proof.
  assert (accepts w_codes w_outcome.(record) = Some true) as H by (by vm_compute). split; [exact H |]. split; [lia |].
  apply (replay_not_recorded w_codes w_true w_true w_outcome w_completed 2 w_last H). lia.
Defined.

Lemma freshness_exact_witness : ∃ f, 0 <= w_outcome.(record).(Count) ∧
  observe_all (mkOutcome w_outcome.(record) w_last zero_time false) [mkTime 2000 0; mkTime 3000 0] (mkFreshness false false) = Some f ∧
  (f.2.(fresh) = true ↔ f.2.(valid) = true ∧ 3000 < 1000 + outcome_delay 1) ∧ f.2.(fresh) = true.
Proof.
  eexists. split; [by vm_compute |]. split; [by vm_compute |]. split; [| by vm_compute].
  refine (proj2 (freshness_exact w_outcome.(record) w_last [mkTime 2000 0] (mkTime 3000 0) _ _ _)); by vm_compute.
Defined.
