(* ===== verification/Retry.v ===== *)
(** * Retries (pkg/source/cache/retry.go, acquire_candidate.go, machine.go, internal/fetcherr)

    Which failures are worth another attempt, what becomes of the last one, and the loop
    that repeats an acquisition within its attempts. *)

From S2P Require Import Prelude Backoff Outcome.

Open Scope Z_scope.

(** ** Walking an error *)

Section errors.
(** oras-go's codes for refused credentials, and whether its types unwrap. *)
Context (ErrorCodeUnauthorized ErrorCodeDenied : string) (response_unwraps codes_unwrap : bool).

(** The nodes [errors.Is] and [errors.AsType] visit, in their order. *)
Fixpoint walk (err : error) : list error :=
  let codes (errors : list ErrorCode) := Codes errors :: (if codes_unwrap then map Code errors else []) in
  match err with
  | Nil => []
  | Sentinel (ErrInput | ErrObjectNotFound | ErrMissingSecret | ErrSourceSkipped) => [err; Sentinel ErrFlux]
  | ManifestError category cause _ => err :: walk category ++ walk cause
  | TerminalError e _ | ProducerError e | CacheError e => err :: Sentinel ErrFlux :: walk e
  | MachineError e | UrlError _ _ e | OpError _ _ _ _ e | SyscallError _ e | DNSError _ _ _ _ _ _ e
  | ResponseError _ _ e _ | FmtWrap _ e | PathError _ _ e => err :: walk e
  | FmtWraps _ errs | Join errs => err :: concat (map walk errs)
  | ErrorResponse _ _ _ errors => err :: (if response_unwraps then codes errors else [])
  | Codes errors => codes errors
  | Sentinel _ | Code _ | CodePointer _ | MinioErrorResponse _ | Other _ => [err]
  end.

(** [errors.AsType], by what it looks for. *)
Definition AsType {A} (as_type : error → option A) (err : error) : option A := head (omap as_type (walk err)).

Definition as_terminal (e : error) : option bool := match e with TerminalError _ attempted => Some attempted | _ => None end.
Definition as_producer (e : error) : option error := match e with ProducerError err => Some err | _ => None end.
Definition as_path (e : error) : option string := match e with PathError _ path _ => Some path | _ => None end.
Definition as_response (e : error) : option Z := match e with ResponseError status _ _ _ => Some status | _ => None end.
Definition as_oci_response (e : error) : option Z := match e with ErrorResponse _ _ status _ => Some status | _ => None end.
Definition as_codes (e : error) : option (list ErrorCode) := match e with Codes errors => Some errors | _ => None end.
Definition as_code (e : error) : option ErrorCode := match e with Code e => Some e | _ => None end.
Definition as_minio (e : error) : option string := match e with MinioErrorResponse code => Some code | _ => None end.

(** Whether some node is the sentinel itself. *)
Definition holds (s : sentinel_error) (err : error) : bool := existsb (is_sentinel s) (walk err).

(** The codes of HTTP. *)
Definition refused_status (status : Z) : bool := bool_decide (status = 401) || bool_decide (status = 403).
Definition refused_code (e : ErrorCode) : bool :=
  bool_decide (e.(ec_Code) = ErrorCodeUnauthorized) || bool_decide (e.(ec_Code) = ErrorCodeDenied).

Definition credentialsUnavailable (err : error) : bool :=
  holds ErrAuthenticationRequired err || holds ErrAuthorizationFailed err || holds ErrBasicCredentialNotFound err ||
  match AsType as_response err with Some status => refused_status status | None => false end ||
  match AsType as_oci_response err with Some status => refused_status status | None => false end ||
  match AsType as_codes err with Some codes => existsb refused_code codes | None => false end ||
  match AsType as_code err with Some e => refused_code e | None => false end ||
  match AsType as_minio err with Some code => bool_decide (code = "AccessDenied") | None => false end.

(** [errors.Is], with the method [Is] of a machine error. *)
Definition Is (s : sentinel_error) (err : error) : bool :=
  existsb (λ e, is_sentinel s e ||
    match e with MachineError cause => bool_decide (s = ErrMissingSecret) && credentialsUnavailable cause | _ => false end) (walk err).

(** *** Classes of failed responses *)

(** The three bits of a [StatusClass] set. *)
Record classes := mkClasses { c_terminal : bool; c_client : bool; c_transient : bool }.

Definition class_of (c : StatusClass) : classes :=
  match c with Terminal => mkClasses true false false | Client => mkClasses false true false | Transient => mkClasses false false true end.
Definition no_classes : classes := mkClasses false false false.
Definition join_classes (a b : classes) : classes :=
  mkClasses (a.(c_terminal) || b.(c_terminal)) (a.(c_client) || b.(c_client)) (a.(c_transient) || b.(c_transient)).

(** [classes = Classify(response.StatusCode)] for the first response in the error. *)
Definition first_response (err : error) : classes :=
  match AsType as_response err with Some status => class_of (Classify status) | None => no_classes end.

(** [Classes]: a node that unwraps to a list is the first such node of its own walk. *)
Fixpoint Classes (err : error) : classes :=
  join_classes (first_response err)
    match err with
    | ManifestError category cause _ => join_classes (Classes category) (Classes cause)
    | TerminalError e _ | ProducerError e | CacheError e => Classes e
    | MachineError e | UrlError _ _ e | OpError _ _ _ _ e | SyscallError _ e | DNSError _ _ _ _ _ _ e
    | ResponseError _ _ e _ | FmtWrap _ e | PathError _ _ e => Classes e
    | FmtWraps _ errs | Join errs => foldr (λ e c, join_classes (Classes e) c) no_classes errs
    | Nil | Sentinel _ | ErrorResponse _ _ _ _ | Codes _ | Code _ | CodePointer _ | MinioErrorResponse _ | Other _ => no_classes
    end.

(** *** Timeouts of the standard library's network errors *)

(** [Timeout], of a value that has the method. *)
Fixpoint Timeout (err : error) : option bool :=
  match err with
  | UrlError _ _ e | OpError _ _ _ _ e | SyscallError _ e | PathError _ _ e => Some (default false (Timeout e))
  | DNSError _ _ _ isTimeout _ _ _ => Some isTimeout
  | Sentinel (ETIMEDOUT | ErrDeadlineExceeded | DeadlineExceeded) => Some true
  | Sentinel (ECONNRESET | ECONNREFUSED) => Some false
  | _ => None
  end.

(** The types that are a [net.Error], which also have a method [Temporary]. *)
Definition as_net (e : error) : option error :=
  match e with
  | UrlError _ _ _ | OpError _ _ _ _ _ | DNSError _ _ _ _ _ _ _
  | Sentinel (ETIMEDOUT | ErrDeadlineExceeded | DeadlineExceeded | ECONNRESET | ECONNREFUSED) => Some e
  | _ => None
  end.

(** ** The policy *)

Definition some {A} (o : option A) : bool := match o with Some _ => true | None => false end.

Definition retryable (err : error) : bool :=
  if some (AsType as_terminal err) then false
  else if some (AsType as_path err) then false
  else
    let classes := Classes err in
    if Is ErrShortWrite err || Is Canceled err || Is DeadlineExceeded err || Is ErrInput err || Is ErrObjectNotFound err ||
       Is ErrMissingSecret err || Is ErrSourceSkipped err || classes.(c_terminal) || classes.(c_client) then false
    else if classes.(c_transient) then true
    else if match AsType as_net err with Some network => default false (Timeout network) | None => false end then true
    else Is ECONNRESET err || Is ECONNREFUSED err || Is ErrUnexpectedEOF err.

(** [classifyAttemptFailure]: the first producer error of an acyclic error contains that
    error only when it is that error. *)
Definition classifyAttemptFailure (err : error) (attempts : Z) : error :=
  match err with
  | ProducerError _ =>
      if negb (some (AsType as_terminal err)) && retryable err && (attempts <=? 1) then TerminalError err true else err
  | _ => CacheError err
  end.

(** What [producePayload] makes of a producer's failure. *)
Definition producer_failure (machine : bool) (err : error) : error :=
  match err with
  | ProducerError cause => if machine || credentialsUnavailable cause then ProducerError (MachineCredentialErr cause) else err
  | _ => err
  end.

(** *** The loop of [acquire] *)

Section acquire.
(** What one acquisition gives: for its number and the attempts that remain, an entry or a
    failure; and whether the context is done after the wait that follows it. *)
Context {E : Type} (acquireOnce : nat → Z → E + error) (finished : nat → option error).

Inductive acquired := Acquired (e : E) | Refused (err : error).

(** A turn of the loop, on the number of the attempt: what it returns, or [None] to go on. *)
Definition acquire_turn (attempts : Z) (attempt : nat) : option acquired :=
  match acquireOnce attempt (attempts - (Z.of_nat attempt - 1)) with
  | inl e => Some (Acquired e)
  | inr err =>
      if some (AsType as_terminal err) then Some (Refused err)
      else if negb (some (AsType as_producer err)) || negb (retryable err) then Some (Refused err)
      else match finished attempt with
           | Some cause => Some (Refused (TerminalError (Join [err; cause]) true))
           | None => None
           end
  end.

Definition acquire_step (attempts : Z) (attempt : nat) : nat + nat * acquired :=
  match acquire_turn attempts attempt with Some r => inr (attempt, r) | None => inl (S attempt) end.

(** [acquire]: with the number of the attempt it ended at. *)
Definition acquire (fuel : nat) (retry_attempts : Z) (ceiling : bool) : option (nat * acquired) :=
  let attempts := Z.max 1 retry_attempts in
  let attempts := if ceiling then 1 else attempts in
  loop (acquire_step attempts) fuel 1%nat.

End acquire.

End errors.

(** ** Proofs *)

Section facts.
Context (ErrorCodeUnauthorized ErrorCodeDenied : string) (response_unwraps codes_unwrap : bool).

Notation visited := (walk response_unwraps codes_unwrap).
Notation collected := (Classes response_unwraps codes_unwrap).
Notation find_type := (AsType response_unwraps codes_unwrap).
Notation retried := (retryable ErrorCodeUnauthorized ErrorCodeDenied response_unwraps codes_unwrap).
Notation classified := (classifyAttemptFailure ErrorCodeUnauthorized ErrorCodeDenied response_unwraps codes_unwrap).

Definition in_classes (c : StatusClass) (s : classes) : bool :=
  match c with Terminal => s.(c_terminal) | Client => s.(c_client) | Transient => s.(c_transient) end.

Lemma in_join c a b : in_classes c (join_classes a b) = in_classes c a || in_classes c b.
Proof. by destruct c. Qed.

(** A failed response of the class is among the nodes. *)
Definition has_response (c : StatusClass) (l : list error) : bool :=
  existsb (λ e, match as_response e with Some status => bool_decide (Classify status = c) | None => false end) l.

Lemma has_response_app c l1 l2 : has_response c (l1 ++ l2) = has_response c l1 || has_response c l2.
Proof. apply existsb_app. Qed.

(** The first response of a list is one of the list. *)
Lemma first_in c l : in_classes c (match head (omap as_response l) with Some status => class_of (Classify status) | None => no_classes end) = true →
  has_response c l = true.
Proof.
  induction l as [| e l IH]; [by destruct c |]. unfold has_response. cbn [existsb omap list_omap]. change (list_omap error Z as_response l) with (omap as_response l).
  destruct (as_response e) as [status |]; [| exact IH]. cbn [head]. intros H.
  apply orb_true_iff. left. apply bool_decide_eq_true. by destruct c, (Classify status).
Qed.

Lemma first_or c e l b : b = has_response c l →
  in_classes c (match head (omap as_response (e :: l)) with Some status => class_of (Classify status) | None => no_classes end) || b = has_response c (e :: l).
Proof.
  intros ->. pose proof (first_in c (e :: l)) as H. destruct (in_classes c _) eqn:E; [by rewrite H |]. cbn [orb].
  unfold has_response. cbn [existsb]. cbn [omap list_omap] in E. destruct (as_response e) as [status |]; [| done]. cbn [head] in E.
  rewrite bool_decide_eq_false_2; [done |]. intros <-. by destruct (Classify status).
Qed.

Lemma has_response_codes c errors : has_response c (Codes errors :: (if codes_unwrap then map Code errors else [])) = false.
Proof. unfold has_response. cbn [existsb as_response orb]. destruct codes_unwrap; [| done]. by induction errors. Qed.

Lemma in_none c : in_classes c no_classes = false.
Proof. by destruct c. Qed.

Lemma first_none c l : has_response c l = false →
  in_classes c (match head (omap as_response l) with Some status => class_of (Classify status) | None => no_classes end) = false.
Proof. intros H. destruct (in_classes c _) eqn:E; [| done]. apply first_in in E. congruence. Qed.

Lemma Classes_list c errs : Forall (λ e, in_classes c (collected e) = has_response c (visited e)) errs →
  in_classes c (foldr (λ e c, join_classes (collected e) c) no_classes errs) = has_response c (concat (map visited errs)).
Proof. induction 1 as [| e errs H _ IH]; [apply in_none |]. cbn [foldr map concat]. by rewrite in_join, has_response_app, H, IH. Qed.

Lemma Classes_walk c err : in_classes c (collected err) = has_response c (visited err).
Proof.
  induction err using error_induction; try (by destruct c);
    try (cbn [Classes]; rewrite in_join; unfold first_response, AsType; cbn [walk]; apply first_or; exact IHerr).
  - destruct s; by destruct c.
  - cbn [Classes]. rewrite in_join. unfold first_response, AsType. cbn [walk]. apply first_or. by rewrite in_join, IHerr1, IHerr2, has_response_app.
  - cbn [Classes]. rewrite in_join, in_none, orb_false_r. unfold first_response, AsType. cbn [walk].
    assert (∀ b : bool, has_response c (ErrorResponse m u s l :: (if b then Codes l :: (if codes_unwrap then map Code l else []) else [])) = false) as H.
    { intros b. unfold has_response. cbn [existsb as_response orb]. destruct b; [apply has_response_codes | done]. }
    rewrite H. apply first_none, H.
  - cbn [Classes]. rewrite in_join, in_none, orb_false_r. unfold first_response, AsType. cbn [walk].
    rewrite has_response_codes. apply first_none, has_response_codes.
  - cbn [Classes]. rewrite in_join. unfold first_response, AsType. cbn [walk]. apply first_or. by apply Classes_list.
  - cbn [Classes]. rewrite in_join. unfold first_response, AsType. cbn [walk]. apply first_or. by apply Classes_list.
Qed.

(** The classes of an error are those of every failed response it holds, however
    it is wrapped or joined. *)
Theorem Classes_exact c err : in_classes c (collected err) = true ↔ ∃ status op e message,
  ResponseError status op e message ∈ visited err ∧ Classify status = c.
Proof.
  rewrite Classes_walk. unfold has_response. rewrite existsb_exists. split.
  - intros (x & Hx & H). destruct x; try done. apply bool_decide_eq_true in H. eexists _, _, _, _. split; [by apply list_elem_of_In | done].
  - intros (status & op & e & message & Hin & <-). eexists. split; [by apply list_elem_of_In |]. by apply bool_decide_eq_true.
Qed.

(** ** Replayed failures *)

Lemma AsType_some {A} (f : error → option A) err : some (find_type f err) = existsb (λ e, some (f e)) (visited err).
Proof. unfold AsType. induction (visited err) as [| e l IH]; [done |]. cbn. by destruct (f e). Qed.

Lemma replayed_terminal err : replayed err = true → some (find_type as_terminal err) = true.
Proof.
  rewrite AsType_some. assert (∀ l, Forall (λ e, replayed e = true → existsb (λ e, some (as_terminal e)) (visited e) = true) l →
    existsb replayed l = true → existsb (λ e, some (as_terminal e)) (concat (map visited l)) = true) as Hlist.
  { induction 1 as [| e l H _ IH]; [done |]. cbn [existsb map concat]. rewrite existsb_app, !orb_true_iff. intros [H1 | H1]; auto. }
  induction err using error_induction; cbn [replayed walk existsb as_terminal some orb]; try done; try exact IHerr; try exact (Hlist l H).
  - rewrite existsb_app, !orb_true_iff. intros [H | H]; auto.
Qed.

Lemma terminal_not_retried err : some (find_type as_terminal err) = true → retried err = false.
Proof. unfold retryable. by intros ->. Qed.

(** ** The loop *)

Section loop.
Context {E : Type} (acquireOnce : nat → Z → E + error) (finished : nat → option error).

(** The failures after which [acquire] does not go on. *)
Definition ends (err : error) : bool :=
  some (find_type as_terminal err) || negb (some (find_type as_producer err)) || negb (retried err).

(** What a failed acquisition returns: an attempt's failure, classified by the attempts
    that remain, or one that ends the loop. *)
Definition classified_failures : Prop :=
  ∀ n r err, acquireOnce n r = inr err → ends err = true ∨ ∃ cause, err = classified (ProducerError cause) r.

Notation turn := (acquire_turn ErrorCodeUnauthorized ErrorCodeDenied response_unwraps codes_unwrap acquireOnce finished).
Notation run := (acquire ErrorCodeUnauthorized ErrorCodeDenied response_unwraps codes_unwrap acquireOnce finished).

Lemma last_failure_ends cause r : r <= 1 → ends (classified (ProducerError cause) r) = true.
Proof.
  intros Hr. unfold classifyAttemptFailure, ends. rewrite (proj2 (Z.leb_le r 1) Hr), andb_true_r.
  destruct (some (find_type as_terminal (ProducerError cause))) eqn:Et; cbn [negb andb]; [by rewrite Et |].
  destruct (retried (ProducerError cause)) eqn:Er; [| by rewrite Er, !orb_true_r]. by rewrite AsType_some.
Qed.

Lemma turn_ends attempts n err : acquireOnce n (attempts - (Z.of_nat n - 1)) = inr err → ends err = true → turn attempts n = Some (Refused err).
Proof.
  unfold acquire_turn, ends. intros ->. destruct (some (find_type as_terminal err)); [done |]. cbn [orb]. by intros ->.
Qed.

Lemma acquire_runs retry ceiling : classified_failures →
  let attempts := if ceiling : bool then 1 else Z.max 1 retry in
  ∃ n r, run (Z.to_nat attempts) retry ceiling = Some (n, r) ∧ (1 <= n)%nat ∧ Z.of_nat n <= attempts ∧ turn attempts n = Some r ∧
    ∀ m, (1 <= m < n)%nat → turn attempts m = None.
Proof.
  intros Hc attempts. assert (1 <= attempts) as Ha by (unfold attempts; destruct ceiling; lia).
  assert (∃ p, run (Z.to_nat attempts) retry ceiling = Some p ∧ ((1 <= p.1)%nat ∧ Z.of_nat p.1 <= attempts ∧ turn attempts p.1 = Some p.2 ∧
    ∀ m, (1 <= m < p.1)%nat → turn attempts m = None)) as ([n r] & H1 & H2); [| by exists n, r].
  unfold acquire. fold attempts.
  apply (loop_spec _ (λ n, (1 <= n)%nat ∧ Z.of_nat n <= attempts ∧ ∀ m, (1 <= m < n)%nat → turn attempts m = None)
    (λ n, Z.to_nat (attempts - Z.of_nat n))).
  - intros n n' (H1 & H2 & H3). unfold acquire_step. destruct (turn attempts n) as [r |] eqn:Et; [done |]. intros [= <-].
    assert (Z.of_nat n < attempts) as Hlt.
    { destruct (decide (Z.of_nat n = attempts)) as [Heq |]; [| lia]. exfalso. revert Et. unfold acquire_turn.
      destruct (acquireOnce n (attempts - (Z.of_nat n - 1))) as [e | err] eqn:Ea; [done |].
      assert (ends err = true) as He. { destruct (Hc _ _ _ Ea) as [| [cause ->]]; [done |]. apply last_failure_ends. lia. }
      unfold ends in He. destruct (some (find_type as_terminal err)); [done |]. cbn [orb] in He. by rewrite He. }
    split; [split; [lia |]; split; [lia |] | lia]. intros m Hm. destruct (decide (m = n)) as [-> |]; [done |]. apply H3. lia.
  - intros n [n' r] (H1 & H2 & H3). unfold acquire_step. destruct (turn attempts n) as [r' |] eqn:Et; [| done]. by intros [= <- <-].
  - split; [lia |]. split; [lia |]. lia.
  - lia.
Qed.


End loop.

(** A failure replayed from the cache ends an acquisition at the attempt that
    meets it, whatever attempts remain. *)
Theorem replay_ends_acquisition {E} (acquireOnce : nat → Z → E + error) finished errorCodes o attempts n :
  accepts errorCodes o.(record) = Some true → acquireOnce n (attempts - (Z.of_nat n - 1)) = inr (replay errorCodes o) →
  acquire_turn ErrorCodeUnauthorized ErrorCodeDenied response_unwraps codes_unwrap acquireOnce finished attempts n = Some (Refused (replay errorCodes o)) ∧
  retried (replay errorCodes o) = false.
Proof.
  intros Ha Hn. destruct (accepts_inv _ _ Ha) as (c & err & Hdec & Ht & _).
  assert (replay errorCodes o = err) as Hr by (unfold replay; by rewrite Hdec). rewrite Hr in *.
  assert (some (find_type as_terminal err) = true) as Hterm.
  { apply replayed_terminal. rewrite (decode_replayed _ _ _ _ _ _ _ _ Hdec). destruct (decode_flags _ _ _ _ _ _ _ _ Hdec) as [H _]. cbn in H. congruence. }
  split; [| by apply terminal_not_retried]. apply turn_ends; [done |]. unfold ends. by rewrite Hterm.
Qed.

End facts.

(** ** Witnesses *)

Definition w_acquire (n : nat) (r : Z) : unit + error :=
  if bool_decide (n = 3)%nat then inl tt else inr (classifyAttemptFailure "U" "D" true true (ProducerError (Sentinel ECONNRESET)) r).


Lemma replay_ends_acquisition_witness : ∃ n : nat, accepts w_codes w_outcome.(record) = Some true ∧
  acquire_turn "U" "D" true true (λ _ _, inr (replay w_codes w_outcome) : unit + error) (λ _, None) 5 n = Some (Refused (replay w_codes w_outcome)).
Proof.
  exists 1%nat. assert (accepts w_codes w_outcome.(record) = Some true) as H by (by vm_compute). split; [exact H |].
  exact (proj1 (replay_ends_acquisition "U" "D" true true (λ _ _, inr (replay w_codes w_outcome) : unit + error) (λ _, None) w_codes w_outcome 5 1 H eq_refl)).
Defined.
