(* ===== verification/History.v ===== *)
(** * Accepted source paths (pkg/source/cache/history.go)

    An accepted inventory is stored with the source paths it was made from, so that a
    later run finds the producers a change may reach.  [record] makes that provenance,
    [matches] tells whether a stored one is still that of an inventory, and [reaches] finds
    the changed paths it covers. *)

From stdpp Require Import pretty.
From S2P Require Import Prelude Search GoPath Resource.

(** ** Evidence *)

Record SourceIdentity := mkIdentity { si_Kind : string; si_URL : string; si_Key : string; si_Root : string }.

#[export] Instance SourceIdentity_eq_dec : EqDecision SourceIdentity.
Proof. solve_decision. Defined.
#[export] Instance SourceIdentity_countable : Countable SourceIdentity.
Proof. by refine (inj_countable' (λ s, (si_Kind s, si_URL s, si_Key s, si_Root s)) (λ '(a, b, c, d), mkIdentity a b c d) _); intros []. Defined.

Definition no_source : SourceIdentity := mkIdentity "" "" "" "".

Record SourceEvidence := mkEvidence { Source : SourceIdentity; Path : string; Subtree : bool }.

#[export] Instance SourceEvidence_eq_dec : EqDecision SourceEvidence.
Proof. solve_decision. Defined.

(** [RenderHistory]; a nil slice of sources is [None]. *)
Record RenderHistory := mkHistory { Owner : NamedResource; Sources : option (list SourceEvidence) }.

Record historyPath := mkPath { hp_Path : string; hp_Subtree : bool }.

#[export] Instance historyPath_eq_dec : EqDecision historyPath.
Proof. solve_decision. Defined.

(** The order of [record]: by path, a subtree after a file. *)
#[export] Instance historyPath_compare : Compare historyPath := λ a b,
  match compare a.(hp_Path) b.(hp_Path) with
  | Eq => match a.(hp_Subtree), b.(hp_Subtree) with true, false => Gt | false, true => Lt | _, _ => Eq end
  | order => order
  end.

Record historyPaths := mkPaths { hs_Source : string; hs_Paths : list historyPath }.

Record historyRecord := mkHistoryRecord {
  identity : string; identities : gmap SourceIdentity string; r_Acceptance : string; r_Build : string; r_Owner : NamedResource; r_Sources : list historyPaths;
}.

Section history.
(** [manifest.Fingerprint] on a source identity, and the identity of this build. *)
Context (Fingerprint : SourceIdentity → string) (processIdentity : string).

(** [id := identities[source]; if id == "" { ... }]. *)
Definition identify (identities : gmap SourceIdentity string) (source : SourceIdentity) : gmap SourceIdentity string * string :=
  let id := default "" (identities !! source) in
  if bool_decide (id = "") then (<[source := Fingerprint source]> identities, Fingerprint source) else (identities, id).

Definition record_one (st : gmap SourceIdentity string * gmap string (list historyPath)) (evidence : SourceEvidence)
    : gmap SourceIdentity string * gmap string (list historyPath) :=
  if bool_decide (evidence.(Source) = no_source) then st
  else
    let '(identities, id) := identify st.1 evidence.(Source) in
    let file := Clean evidence.(Path) in
    if negb (ValidPath file) then (identities, st.2)
    else (identities, <[id := default [] (st.2 !! id) ++ [mkPath file evidence.(Subtree)]]> st.2).

Definition record (h : RenderHistory) (acceptance : string) : option historyRecord :=
  match h.(Sources) with
  | None => None
  | Some sources =>
      if bool_decide (acceptance = "") then None
      else
        let '(identities, paths) := foldl record_one (∅, ∅) sources in
        Some (mkHistoryRecord "" identities acceptance processIdentity h.(Owner)
                (map (λ source, mkPaths source (Compact (sort_by compare (default [] (paths !! source))))) (sort_by compare (elements (dom paths)))))
  end.

(** One evidence of [matches], against the recorded paths of its source. *)
Definition recorded (r : historyRecord) (evidence : SourceEvidence) : option bool :=
  let file := Clean evidence.(Path) in
  if bool_decide (evidence.(Source) = no_source) || negb (ValidPath file) then Some true
  else
    let source := default "" (r.(identities) !! evidence.(Source)) in
    if bool_decide (source = "") then Some false
    else
      f ← BinarySearchFunc (λ paths, compare paths.(hs_Source) source) r.(r_Sources);
      Some (f.2 && match r.(r_Sources) !! f.1 with
                   | Some paths => bool_decide (mkPath file evidence.(Subtree) ∈ paths.(hs_Paths))
                   | None => false
                   end).

(** One recorded path of [matches], against the evidence. *)
Definition evidenced (r : historyRecord) (sources : list SourceEvidence) (source : string) (file : historyPath) : bool :=
  existsb (λ evidence, bool_decide (default "" (r.(identities) !! evidence.(Source)) = source) &&
                       bool_decide (Clean evidence.(Path) = file.(hp_Path)) && bool_decide (evidence.(Subtree) = file.(hp_Subtree))) sources.

Fixpoint all_recorded (r : historyRecord) (sources : list SourceEvidence) : option bool :=
  match sources with
  | [] => Some true
  | evidence :: sources => ok ← recorded r evidence; if ok : bool then all_recorded r sources else Some false
  end.

Definition matches (r : option historyRecord) (h : RenderHistory) (acceptance : string) : option bool :=
  match h.(Sources) with
  | None => Some (match r with None => true | Some _ => false end)
  | Some sources =>
      if bool_decide (acceptance = "") then Some (match r with None => true | Some _ => false end)
      else
        match r with
        | None => Some false
        | Some r =>
            if negb (bool_decide (r.(r_Owner) = h.(Owner)) && bool_decide (r.(r_Acceptance) = acceptance) && bool_decide (r.(r_Build) = processIdentity))
            then Some false
            else
              ok ← all_recorded r sources;
              Some (ok && forallb (λ source, forallb (evidenced r sources source.(hs_Source)) source.(hs_Paths)) r.(r_Sources))
        end
  end.

(** *** What a change reaches *)

Definition change_one (st : gmap SourceIdentity string * gmap string (list SourceEvidence)) (evidence : SourceEvidence)
    : gmap SourceIdentity string * gmap string (list SourceEvidence) :=
  if bool_decide (evidence.(Source) = no_source) then st
  else
    let '(identities, id) := identify st.1 evidence.(Source) in
    let file := Clean evidence.(Path) in
    if negb (ValidPath file) then (identities, st.2)
    else (identities, <[id := default [] (st.2 !! id) ++ [mkEvidence evidence.(Source) file evidence.(Subtree)]]> st.2).

Definition changedHistoryPaths (query : list SourceEvidence) : gmap string (list SourceEvidence) := (foldl change_one (∅, ∅) query).2.

(** Whether a recorded path covers a changed one. *)
Definition covers (root : historyPath) (path : string) : bool :=
  ValidPath root.(hp_Path) &&
  (bool_decide (path = root.(hp_Path)) ||
   root.(hp_Subtree) && (bool_decide (root.(hp_Path) = ".") || HasPrefix path (root.(hp_Path) +:+ String slash ""))).

Definition reaches (r : historyRecord) (changes : gmap string (list SourceEvidence)) : list SourceEvidence :=
  concat (map (λ source, filter (λ evidence, existsb (λ root, covers root evidence.(Path)) source.(hs_Paths) = true)
                           (default [] (changes !! source.(hs_Source)))) r.(r_Sources)).

End history.

#[export] Instance historyPath_lawful : LawfulCompare historyPath.
Proof.
  apply (lawful_inj (λ p, (p.(hp_Path), if p.(hp_Subtree) then "1" else "0"))).
  - intros [p s] [q t]. rewrite compare_pair. unfold compare at 1, historyPath_compare. cbn [hp_Path hp_Subtree].
    by destruct (compare p q), s, t.
  - by intros [p []] [q []] [=]; subst.
Qed.

(** ** What a record holds *)

Section history_facts.
Context (Fingerprint : SourceIdentity → string) (processIdentity : string).
Context (Hinj : Inj (=) (=) Fingerprint) (Hne : ∀ s, Fingerprint s ≠ "").

Definition accepted (e : SourceEvidence) : bool := negb (bool_decide (e.(Source) = no_source)) && ValidPath (Clean e.(Path)).
Definition tidy (e : SourceEvidence) : historyPath := mkPath (Clean e.(Path)) e.(Subtree).

(** The evidence that counts, by source and cleaned path. *)
Definition evidence_of (l : list SourceEvidence) : list (SourceIdentity * historyPath) :=
  map (λ e, (e.(Source), tidy e)) (filter (λ e, accepted e = true) l).

Lemma elem_of_evidence s p l : (s, p) ∈ evidence_of l ↔ ∃ e, e ∈ l ∧ accepted e = true ∧ e.(Source) = s ∧ tidy e = p.
Proof.
  unfold evidence_of. rewrite list_elem_of_fmap. split.
  - intros (e & [= -> ->] & He). apply list_elem_of_filter in He. exists e. tauto.
  - intros (e & H1 & H2 & <- & <-). exists e. split; [done |]. by apply list_elem_of_filter.
Qed.

(** What the two folds of the loop keep, for any value kept per evidence. *)
Definition ids_ok (l : list SourceEvidence) (ids : gmap SourceIdentity string) : Prop :=
  ∀ s, ids !! s = if bool_decide (s ≠ no_source ∧ s ∈ map Source l) then Some (Fingerprint s) else None.

Lemma ids_step l ids e : ids_ok l ids →
  ids_ok (l ++ [e]) (if bool_decide (e.(Source) = no_source) then ids else (identify Fingerprint ids e.(Source)).1) ∧
  (e.(Source) ≠ no_source → (identify Fingerprint ids e.(Source)).2 = Fingerprint e.(Source)).
Proof.
  intros H. unfold identify. pose proof (H (Source e)) as He.
  assert (∀ s, s ∈ map Source (l ++ [e]) ↔ s ∈ map Source l ∨ s = Source e) as Hin.
  { intros s. rewrite map_app, elem_of_app. cbn. by rewrite list_elem_of_singleton. }
  destruct (bool_decide_reflect (Source e = no_source)) as [Hz | Hz].
  - split; [| done]. intros s. rewrite (H s). rewrite (bool_decide_ext _ (s ≠ no_source ∧ s ∈ map Source (l ++ [e]))); [done |].
    rewrite Hin. split; [tauto |]. intros [? [? | ->]]; [done | by destruct Hz].
  - rewrite He. destruct (bool_decide_reflect (Source e ≠ no_source ∧ Source e ∈ map Source l)) as [[_ Hl] | Hl]; cbn [from_option].
    + rewrite (bool_decide_eq_false_2 (Fingerprint (Source e) = "")) by apply Hne. split; [| done]. intros s. cbn [fst]. rewrite (H s).
      rewrite (bool_decide_ext _ (s ≠ no_source ∧ s ∈ map Source (l ++ [e]))); [done |]. rewrite Hin. split; [tauto |]. intros [? [? | ->]]; done.
    + rewrite (bool_decide_eq_true_2 ("" = "")) by done. split; [| done]. intros s. cbn [fst]. destruct (decide (s = Source e)) as [-> | Hs].
      * rewrite lookup_insert_eq, bool_decide_eq_true_2; [done |]. split; [done |]. apply Hin. by right.
      * rewrite lookup_insert_ne by done. rewrite (H s). rewrite (bool_decide_ext _ (s ≠ no_source ∧ s ∈ map Source (l ++ [e]))); [done |].
        rewrite Hin. naive_solver.
Qed.

(** The values kept per source. *)
Definition kept_ok {V} (value : SourceEvidence → V) (l : list SourceEvidence) (m : gmap string (list V)) : Prop :=
  (∀ id v, v ∈ default [] (m !! id) ↔ ∃ e, e ∈ l ∧ accepted e = true ∧ Fingerprint e.(Source) = id ∧ value e = v) ∧
  (∀ id, m !! id ≠ Some []).

Lemma kept_step {V} (value : SourceEvidence → V) l m e : kept_ok value l m →
  kept_ok value (l ++ [e]) (if accepted e then <[Fingerprint e.(Source) := default [] (m !! Fingerprint e.(Source)) ++ [value e]]> m else m).
Proof.
  intros [H1 H2]. destruct (accepted e) eqn:Ea; split.
  - intros id v. destruct (decide (id = Fingerprint (Source e))) as [-> | Hid].
    + rewrite lookup_insert_eq. change (default [] (Some ?x)) with x. rewrite elem_of_app, H1, list_elem_of_singleton. split.
      * intros [(e' & H & ?) | ->]; [exists e'; rewrite elem_of_app; tauto | exists e; rewrite elem_of_app, list_elem_of_singleton; tauto].
      * intros (e' & H & ? & ? & ?). apply elem_of_app in H. rewrite list_elem_of_singleton in H. destruct H as [H | ->]; [left; by exists e' | by right].
    + rewrite lookup_insert_ne by done. rewrite H1. split.
      * intros (e' & H & ?). exists e'. rewrite elem_of_app. tauto.
      * intros (e' & H & ? & ? & ?). apply elem_of_app in H. rewrite list_elem_of_singleton in H. destruct H as [H | ->]; [by exists e' | congruence].
  - intros id. destruct (decide (id = Fingerprint (Source e))) as [-> | Hid].
    + rewrite lookup_insert_eq. intros [= E]. by apply app_eq_nil in E as [_ E].
    + rewrite lookup_insert_ne by done. apply H2.
  - intros id v. rewrite H1. split.
    + intros (e' & H & ?). exists e'. rewrite elem_of_app. tauto.
    + intros (e' & H & ? & ? & ?). apply elem_of_app in H. rewrite list_elem_of_singleton in H. destruct H as [H | ->]; [by exists e' | congruence].
  - apply H2.
Qed.

Lemma record_one_step l st e : ids_ok l st.1 → kept_ok tidy l st.2 →
  ids_ok (l ++ [e]) (record_one Fingerprint st e).1 ∧ kept_ok tidy (l ++ [e]) (record_one Fingerprint st e).2.
Proof.
  intros Hi Hk. destruct (ids_step l st.1 e Hi) as [Hi' Hid]. pose proof (kept_step tidy l st.2 e Hk) as Hk'.
  unfold record_one, accepted in *. destruct (bool_decide_reflect (Source e = no_source)) as [Hz | Hz]; cbn [negb andb] in *; [by split |].
  specialize (Hid Hz). destruct (identify Fingerprint st.1 (Source e)) as [ids id]. cbn [fst snd] in *. subst id.
  by destruct (ValidPath (Clean (Path e))).
Qed.

Lemma change_one_step l st e : ids_ok l st.1 → kept_ok (λ e, mkEvidence e.(Source) (Clean e.(Path)) e.(Subtree)) l st.2 →
  ids_ok (l ++ [e]) (change_one Fingerprint st e).1 ∧
  kept_ok (λ e, mkEvidence e.(Source) (Clean e.(Path)) e.(Subtree)) (l ++ [e]) (change_one Fingerprint st e).2.
Proof.
  intros Hi Hk. destruct (ids_step l st.1 e Hi) as [Hi' Hid].
  pose proof (kept_step (λ e, mkEvidence e.(Source) (Clean e.(Path)) e.(Subtree)) l st.2 e Hk) as Hk'.
  unfold change_one, accepted in *. destruct (bool_decide_reflect (Source e = no_source)) as [Hz | Hz]; cbn [negb andb] in *; [by split |].
  specialize (Hid Hz). destruct (identify Fingerprint st.1 (Source e)) as [ids id]. cbn [fst snd] in *. subst id.
  by destruct (ValidPath (Clean (Path e))).
Qed.

Lemma fold_ok {S} (f : S → SourceEvidence → S) (P : list SourceEvidence → S → Prop) s0 l :
  P [] s0 → (∀ l s e, P l s → P (l ++ [e]) (f s e)) → P l (foldl f s0 l).
Proof. intros H0 Hs. induction l as [| e l IH] using rev_ind; [done |]. rewrite foldl_app. by apply Hs. Qed.

Lemma ids_empty : ids_ok [] ∅.
Proof. intros s. rewrite lookup_empty, bool_decide_eq_false_2; [done |]. intros [_ H]. by apply elem_of_nil in H. Qed.

Lemma kept_empty {V} (value : SourceEvidence → V) : kept_ok value [] ∅.
Proof.
  split; [| intros id; by rewrite lookup_empty]. intros id v. rewrite lookup_empty. split; [intros H; by apply elem_of_nil in H |].
  intros (e & H & _). by apply elem_of_nil in H.
Qed.

End history_facts.

(** ** Records and their matches *)

Section record_facts.
Context (Fingerprint : SourceIdentity → string) (processIdentity : string).
Context (Hinj : Inj (=) (=) Fingerprint) (Hne : ∀ s, Fingerprint s ≠ "").

(** No provenance: without sources, or without an acceptance. *)
Definition plain (h : RenderHistory) (acceptance : string) : bool :=
  match h.(Sources) with None => true | Some _ => bool_decide (acceptance = "") end.

Definition sources_of (h : RenderHistory) : list SourceEvidence := default [] h.(Sources).

(** What the record of evidence is. *)
Record recorded_as (l : list SourceEvidence) (r : historyRecord) : Prop := {
  ra_ids : ids_ok Fingerprint l r.(identities);
  ra_sorted : StronglySorted (λ a b, compare a.(hs_Source) b.(hs_Source) = Lt) r.(r_Sources);
  ra_paths id p : (∃ paths, paths ∈ r.(r_Sources) ∧ paths.(hs_Source) = id ∧ p ∈ paths.(hs_Paths)) ↔
    ∃ s, Fingerprint s = id ∧ (s, p) ∈ evidence_of l;
}.

Lemma record_is h acceptance r : record Fingerprint processIdentity h acceptance = Some r →
  plain h acceptance = false ∧ r.(r_Owner) = h.(Owner) ∧ r.(r_Acceptance) = acceptance ∧ r.(r_Build) = processIdentity ∧ recorded_as (sources_of h) r.
Proof.
  unfold record, plain, sources_of. destruct (Sources h) as [l |]; [| done]. cbn [from_option]. change (default [] (Some l)) with l.
  destruct (bool_decide (acceptance = "")); [done |].
  pose proof (fold_ok (record_one Fingerprint) (λ l st, ids_ok Fingerprint l st.1 ∧ kept_ok Fingerprint tidy l st.2) (∅, ∅) l
    (conj (ids_empty Fingerprint) (kept_empty Fingerprint tidy)) (λ l st e H, record_one_step Fingerprint Hne l st e (proj1 H) (proj2 H))) as [Hi Hk].
  destruct (foldl (record_one Fingerprint) (∅, ∅) l) as [ids paths]. cbn [fst snd] in *. intros [= <-]. cbn. do 4 (split; [done |]).
  split; cbn [identities r_Sources].
  - exact Hi.
  - assert (StronglySorted (λ a b : string, compare a b = Lt) (sort_by compare (elements (dom paths)))) as Hs by apply sort_by_strict, NoDup_elements.
    induction Hs as [| a k _ IH Ha]; [constructor |]. cbn [map]. constructor; [exact IH |]. apply Forall_forall. intros y Hy.
    apply list_elem_of_fmap in Hy. destruct Hy as (b & -> & Hb). cbn. rewrite Forall_forall in Ha. by apply Ha.
  - intros id p. destruct Hk as [Hk Hz]. split.
    + intros (ps & Hps & <- & Hp). apply list_elem_of_fmap in Hps. destruct Hps as (k & -> & _). cbn [hs_Source hs_Paths] in *.
      rewrite elem_of_sorted_distinct in Hp. apply Hk in Hp. destruct Hp as (e & H1 & H2 & H3 & H4).
      exists (Source e). split; [done |]. apply elem_of_evidence. by exists e.
    + intros (s & <- & Hs). apply elem_of_evidence in Hs. destruct Hs as (e & H1 & H2 & <- & <-).
      assert (tidy e ∈ default [] (paths !! Fingerprint (Source e))) as Hin by (apply Hk; by exists e).
      eexists. split; [apply list_elem_of_fmap; exists (Fingerprint (Source e)); split; [reflexivity |] |].
      * rewrite elem_of_sort_by. apply elem_of_elements, elem_of_dom. destruct (paths !! Fingerprint (Source e)); [by eexists | by apply elem_of_nil in Hin].
      * split; [done |]. cbn [hs_Paths]. by rewrite elem_of_sorted_distinct.
Qed.

Section matching.
Context (l : list SourceEvidence) (r : historyRecord) (Hr : recorded_as l r).

Lemma sources_searchable target : searchable (λ paths, compare paths.(hs_Source) target) r.(r_Sources).
Proof.
  intros a b y z Hab Hy Hz Hc.
  assert (compare y.(hs_Source) z.(hs_Source) = Lt) as Hlt.
  { pose proof (ra_sorted _ _ Hr) as Hs. revert a b Hab Hy Hz. induction Hs as [| x k _ IH Hx]; intros a b Hab Hy Hz; [done |].
    destruct b as [| b]; [lia |]. cbn in Hz. destruct a as [| a]; cbn in Hy.
    - injection Hy as <-. rewrite Forall_forall in Hx. apply Hx. by eapply list_elem_of_lookup_2.
    - apply (IH a b); [lia | done | done]. }
  destruct (compare (hs_Source z) target) eqn:E; [| | done].
  - apply compare_eq in E. by rewrite <- E.
  - by eapply compare_lt_trans.
Qed.

Lemma source_id s : default "" (r.(identities) !! s) = (if bool_decide (s ≠ no_source ∧ s ∈ map Source l) then Fingerprint s else "").
Proof. rewrite (ra_ids _ _ Hr). by case_bool_decide. Qed.

Lemma evidence_source s p : (s, p) ∈ evidence_of l → s ≠ no_source ∧ s ∈ map Source l.
Proof.
  intros H. apply elem_of_evidence in H. destruct H as (e & H1 & H2 & <- & _). unfold accepted in H2. apply andb_true_iff in H2. destruct H2 as [H2 _].
  apply negb_true_iff, bool_decide_eq_false in H2. split; [done |]. apply list_elem_of_fmap. by exists e.
Qed.

Lemma recorded_exact e : ∃ b, recorded r e = Some b ∧ (b = true ↔ (accepted e = true → (e.(Source), tidy e) ∈ evidence_of l)).
Proof.
  unfold recorded, accepted. destruct (bool_decide_reflect (Source e = no_source)) as [Hz | Hz]; cbn [orb negb andb]; [by exists true |].
  destruct (ValidPath (Clean (Path e))) eqn:Hv; cbn [negb]; [| by exists true].
  rewrite source_id. destruct (bool_decide_reflect (Source e ≠ no_source ∧ Source e ∈ map Source l)) as [Hs | Hs].
  2:{ exists false. rewrite bool_decide_eq_true_2 by done. split; [done |]. split; [done |]. intros H. destruct Hs. by eapply evidence_source, (H eq_refl). }
  rewrite bool_decide_eq_false_2 by apply Hne.
  destruct (BinarySearchFunc_spec _ _ (sources_searchable (Fingerprint (Source e)))) as (i & found & -> & Hf & Hall). cbn [mbind option_bind fst snd].
  eexists. split; [reflexivity |]. split.
  - intros H _. apply andb_true_iff in H. destruct H as [-> H]. destruct (Hf eq_refl) as (y & Hy & Hc). rewrite Hy in H. apply bool_decide_eq_true in H.
    apply compare_eq in Hc. destruct (proj1 (ra_paths _ _ Hr (Fingerprint (Source e)) (mkPath (Clean (Path e)) (Subtree e)))) as (s & Hs' & Hin).
    { exists y. split; [by eapply list_elem_of_lookup_2 |]. by split. }
    apply Hinj in Hs'. by subst s.
  - intros H. specialize (H eq_refl). destruct (proj2 (ra_paths _ _ Hr (Fingerprint (Source e)) (tidy e))) as (y & Hy & Hsrc & Hp); [by exists (Source e) |].
    apply list_elem_of_lookup in Hy. destruct Hy as [k Hk]. destruct (Hall k y Hk) as [-> ->]; [by apply compare_eq |].
    rewrite Hk. apply bool_decide_eq_true. exact Hp.
Qed.

Lemma all_recorded_exact l' : ∃ b, all_recorded r l' = Some b ∧ (b = true ↔ ∀ x, x ∈ evidence_of l' → x ∈ evidence_of l).
Proof.
  assert (∃ b, all_recorded r l' = Some b ∧ (b = true ↔ ∀ e, e ∈ l' → accepted e = true → (e.(Source), tidy e) ∈ evidence_of l)) as (b & Hb & H).
  { induction l' as [| e l' IH]; [exists true; split; [done |]; split; [intros _ e H; by apply elem_of_nil in H | done] |].
    destruct (recorded_exact e) as (b1 & E1 & H1), IH as (b2 & E2 & H2). cbn [all_recorded]. rewrite E1. cbn [mbind option_bind]. destruct b1.
    - exists b2. split; [done |]. rewrite H2. split.
      + intros H x Hx. apply elem_of_cons in Hx. destruct Hx as [-> | Hx]; [by apply H1 | by apply H].
      + intros H x Hx. apply H. by right.
    - exists false. split; [done |]. split; [done |]. intros H. apply H1. apply H. by left. }
  exists b. split; [done |]. rewrite H. split.
  - intros Ha [s p] Hx. apply elem_of_evidence in Hx. destruct Hx as (e & H1 & H2 & <- & <-). by apply Ha.
  - intros Ha e He Hacc. apply Ha, elem_of_evidence. by exists e.
Qed.

Lemma evidenced_exact l' s p : s ≠ no_source ∧ s ∈ map Source l → ValidPath p.(hp_Path) = true →
  evidenced r l' (Fingerprint s) p = true ↔ (s, p) ∈ evidence_of l'.
Proof.
  intros Hs Hv. unfold evidenced. rewrite existsb_exists, elem_of_evidence. split.
  - intros (e & He & H). rewrite !andb_true_iff, !bool_decide_eq_true in H. destruct H as [[H1 H2] H3]. rewrite source_id in H1.
    destruct (bool_decide_reflect (Source e ≠ no_source ∧ Source e ∈ map Source l)) as [[Hz _] |]; [| by destruct (Hne s)].
    apply Hinj in H1. exists e. split; [by apply list_elem_of_In |]. unfold accepted. rewrite H2, Hv, bool_decide_eq_false_2 by done. split; [done |].
    split; [done |]. unfold tidy. rewrite H2, H3. by destruct p.
  - intros (e & He & Ha & <- & <-). exists e. split; [by apply list_elem_of_In |]. rewrite source_id, (bool_decide_eq_true_2 _ Hs).
    by rewrite !bool_decide_eq_true_2.
Qed.

Lemma all_evidenced_exact l' :
  forallb (λ source, forallb (evidenced r l' source.(hs_Source)) source.(hs_Paths)) r.(r_Sources) = true ↔ ∀ x, x ∈ evidence_of l → x ∈ evidence_of l'.
Proof.
  assert (∀ s p, (s, p) ∈ evidence_of l → ValidPath p.(hp_Path) = true) as Hvalid.
  { intros s p H. apply elem_of_evidence in H. destruct H as (e & _ & H & _ & <-). unfold accepted in H. apply andb_true_iff in H. apply H. }
  rewrite forallb_forall. split.
  - intros H [s p] Hx. destruct (proj2 (ra_paths _ _ Hr (Fingerprint s) p)) as (y & Hy & Hsrc & Hp); [by exists s |].
    specialize (H y (proj1 (list_elem_of_In _ _) Hy)). rewrite forallb_forall in H. specialize (H p (proj1 (list_elem_of_In _ _) Hp)).
    rewrite Hsrc in H. apply evidenced_exact in H; [done | by eapply evidence_source | by eapply Hvalid].
  - intros H y Hy. apply list_elem_of_In in Hy. apply forallb_forall. intros p Hp. apply list_elem_of_In in Hp.
    destruct (proj1 (ra_paths _ _ Hr (hs_Source y) p)) as (s & <- & Hs); [by exists y |].
    apply evidenced_exact; [by eapply evidence_source | by eapply Hvalid | by apply H].
Qed.

End matching.

(** A stored provenance matches an inventory exactly when the inventory is
    accepted under the same key for the same owner and has, after cleaning its paths and
    leaving out what names no source or no valid path, the same set of evidence: order,
    repetition and spelling of paths do not matter. *)
Theorem matches_exact h acceptance h' acceptance' :
  ∃ b, matches processIdentity (record Fingerprint processIdentity h acceptance) h' acceptance' = Some b ∧
  (b = true ↔ (plain h acceptance = true ∧ plain h' acceptance' = true) ∨
     (plain h acceptance = false ∧ plain h' acceptance' = false ∧ h.(Owner) = h'.(Owner) ∧ acceptance = acceptance' ∧
      ∀ x, x ∈ evidence_of (sources_of h) ↔ x ∈ evidence_of (sources_of h'))).
Proof.
  assert (record Fingerprint processIdentity h acceptance = None ↔ plain h acceptance = true) as Hnone.
  { unfold record, plain. destruct (Sources h) as [l |]; [| done]. destruct (bool_decide (acceptance = "")); [done |]. by destruct (foldl _ _ l). }
  unfold matches. destruct (record Fingerprint processIdentity h acceptance) as [r |] eqn:Er.
  - destruct (record_is _ _ _ Er) as (Hp & Ho & Ha & Hb & Hr). rewrite Hp. unfold plain.
    destruct (Sources h') as [l' |] eqn:El; [| exists false; split; [done |]; split; [done | naive_solver]].
    assert (sources_of h' = l') as -> by (unfold sources_of; by rewrite El).
    destruct (bool_decide_reflect (acceptance' = "")) as [-> | Hacc].
    { exists false. split; [done |]. split; [done | naive_solver]. }
    rewrite Ho, Ha, Hb, (bool_decide_eq_true_2 (processIdentity = processIdentity)) by done. rewrite andb_true_r.
    destruct (bool_decide_reflect (Owner h = Owner h')) as [E1 | E1]; [| exists false; split; [done |]; split; [done | naive_solver]].
    destruct (bool_decide_reflect (acceptance = acceptance')) as [E2 | E2]; [| exists false; split; [done |]; split; [done | naive_solver]].
    cbn [negb andb]. destruct (all_recorded_exact _ _ Hr l') as (b & -> & Hall). cbn [mbind option_bind]. eexists. split; [reflexivity |].
    rewrite andb_true_iff, Hall, (all_evidenced_exact _ _ Hr l'). split.
    + intros [H1 H2]. right. split_and!; try done. intros x. split; [apply H2 | apply H1].
    + intros [[? ?] | (_ & _ & _ & _ & H)]; [done |]. split; intros x Hx; by apply H.
  - rewrite (proj1 Hnone eq_refl). unfold plain. destruct (Sources h') as [l' |]; [| exists true; split; [done |]; naive_solver].
    destruct (bool_decide_reflect (acceptance' = "")) as [-> | Hacc].
    + exists true. split; [done |]. naive_solver.
    + exists false. split; [done |]. split; [done |]. intros [[_ ?] | [? _]]; done.
Qed.

(** ** Changes *)

(** A path covers another when it is it, or, for a subtree, an ancestor of it. *)
Lemma covers_exact p path : ValidPath p.(hp_Path) = true → ValidPath path = true →
  covers p path = true ↔ ∃ ps rest, parts_ok (ps ++ rest) ∧ p.(hp_Path) = path_of ps ∧ path = path_of (ps ++ rest) ∧ (rest = [] ∨ p.(hp_Subtree) = true).
Proof.
  intros Hv Hv'. destruct (ValidPath_parts _ Hv) as (ps & Hps & Ep), (ValidPath_parts _ Hv') as (qs & Hqs & Eq).
  unfold covers. rewrite Hv. cbn [andb]. rewrite orb_true_iff, andb_true_iff, orb_true_iff, !bool_decide_eq_true. split.
  - intros [H | [Hs [H | H]]].
    + exists qs, []. rewrite app_nil_r. split_and!; try done; [by rewrite <- Eq | by left].
    + exists [], qs. cbn [app]. split_and!; try done. by right.
    + destruct ps as [| x ps'].
      { exfalso. rewrite Ep, Eq in H. apply HasPrefix_app in H. destruct H as [t Ht]. destruct qs as [| q qs]; [done |].
        apply (f_equal Split) in Ht. rewrite (Split_path_of (q :: qs)) in Ht by done.
        change ((path_of [] +:+ String slash "") +:+ t) with ("." +:+ String slash t) in Ht. rewrite Split_app in Ht by done.
        injection Ht as Hq _. apply Forall_inv in Hqs. destruct Hqs as [Hq' _]. apply valid_part_spec in Hq'. tauto. }
      rewrite Ep, Eq in H. apply HasPrefix_descendant in H; try done. destruct H as [[rest ->] _].
      exists (x :: ps'), rest. split_and!; try done. by right.
  - intros (us & rest & Hus & E1 & E2 & Hrest). assert (parts_ok us ∧ parts_ok rest) as [Hu Hre] by (by apply parts_ok_app).
    rewrite E1, E2. destruct Hrest as [-> | Hs]; [left; by rewrite app_nil_r |].
    destruct rest as [| x rest]; [left; by rewrite app_nil_r |]. right. split; [done |]. destruct us as [| u us]; [by left |]. right.
    apply HasPrefix_descendant; try done. split; [by apply prefix_app_r |]. intros E. apply (f_equal length) in E. rewrite length_app in E. cbn in E. lia.
Qed.

Definition cleaned (e : SourceEvidence) : SourceEvidence := mkEvidence e.(Source) (Clean e.(Path)) e.(Subtree).

Lemma changed_exact q id e : e ∈ default [] (changedHistoryPaths Fingerprint q !! id) ↔ ∃ e0, e0 ∈ q ∧ accepted e0 = true ∧ Fingerprint e0.(Source) = id ∧ cleaned e0 = e.
Proof.
  pose proof (fold_ok (change_one Fingerprint) (λ l st, ids_ok Fingerprint l st.1 ∧ kept_ok Fingerprint cleaned l st.2) (∅, ∅) q
    (conj (ids_empty Fingerprint) (kept_empty Fingerprint cleaned)) (λ l st e H, change_one_step Fingerprint Hne l st e (proj1 H) (proj2 H))) as [_ [Hk _]].
  apply Hk.
Qed.

(** A recorded inventory is reached by exactly the changed paths, cleaned, that
    are one of its paths of the same source or lie under one of its subtrees. *)
Theorem reaches_exact h acceptance r q e : record Fingerprint processIdentity h acceptance = Some r →
  e ∈ reaches r (changedHistoryPaths Fingerprint q) ↔
  ∃ e0 p ps rest, e0 ∈ q ∧ accepted e0 = true ∧ cleaned e0 = e ∧ (e.(Source), p) ∈ evidence_of (sources_of h) ∧
    parts_ok (ps ++ rest) ∧ p.(hp_Path) = path_of ps ∧ e.(Path) = path_of (ps ++ rest) ∧ (rest = [] ∨ p.(hp_Subtree) = true).
Proof.
  intros Er. destruct (record_is _ _ _ Er) as (_ & _ & _ & _ & Hr).
  assert (∀ s p, (s, p) ∈ evidence_of (sources_of h) → ValidPath p.(hp_Path) = true) as Hvalid.
  { intros s p H. apply elem_of_evidence in H. destruct H as (e' & _ & H & _ & <-). unfold accepted in H. apply andb_true_iff in H. apply H. }
  assert (∀ e0, accepted e0 = true → ValidPath (cleaned e0).(Path) = true) as Hclean.
  { intros e0 H. unfold accepted in H. apply andb_true_iff in H. apply H. }
  unfold reaches. rewrite elem_of_concat_map. split.
  - intros (y & Hy & He). apply list_elem_of_filter in He. destruct He as [Hc He]. apply changed_exact in He. destruct He as (e0 & H1 & H2 & H3 & <-).
    apply existsb_exists in Hc. destruct Hc as (p & Hp & Hcov). apply list_elem_of_In in Hp.
    destruct (proj1 (ra_paths _ _ Hr (hs_Source y) p)) as (s & Hs & Hin); [by exists y |]. rewrite <- Hs in H3. apply Hinj in H3. subst s.
    apply covers_exact in Hcov; [| by eapply Hvalid | by apply Hclean]. destruct Hcov as (ps & rest & ?). exists e0, p, ps, rest. by split_and!; try apply H.
  - intros (e0 & p & ps & rest & H1 & H2 & <- & Hin & Hparts). destruct (proj2 (ra_paths _ _ Hr (Fingerprint (Source e0)) p)) as (y & Hy & Hsrc & Hp); [by exists (Source e0) |].
    exists y. split; [done |]. apply list_elem_of_filter. split.
    + apply existsb_exists. exists p. split; [by apply list_elem_of_In |]. apply covers_exact; [by eapply Hvalid | by apply Hclean | by exists ps, rest].
    + rewrite Hsrc. apply changed_exact. by exists e0.
Qed.

End record_facts.

(** ** Witnesses *)

(** An injective stand-in for the fingerprint: the fields with a separator they lack. *)
Definition w_fingerprint (s : SourceIdentity) : string :=
  "#" +:+ pretty (N.pos (encode (s.(si_Kind), s.(si_URL), s.(si_Key), s.(si_Root)))).

#[export] Instance w_fingerprint_inj : Inj (=) (=) w_fingerprint.
Proof.
  intros [a b c d] [a' b' c' d'] H. unfold w_fingerprint in H. apply (inj (String.append "#")) in H.
  apply (inj pretty) in H. injection H as H. apply (inj encode) in H. by injection H as -> -> -> ->.
Qed.

Lemma w_fingerprint_ne s : w_fingerprint s ≠ "".
Proof. done. Qed.

Definition w_source : SourceIdentity := mkIdentity "k" "" "" "".
Definition w_history : RenderHistory := mkHistory (mkResource "g" "k" "n" "x") (Some [mkEvidence w_source "a/./b" true; mkEvidence no_source "z" false]).
Definition w_history' : RenderHistory := mkHistory (mkResource "g" "k" "n" "x") (Some [mkEvidence w_source "a//b" true; mkEvidence w_source "a/b/" true]).

Lemma matches_exact_witness : Inj (=) (=) w_fingerprint ∧ (∀ s, w_fingerprint s ≠ "") ∧
  (∃ b, matches "B" (record w_fingerprint "B" w_history "A") w_history' "A" = Some b) ∧
  matches "B" (record w_fingerprint "B" w_history "A") w_history' "A" = Some true.
Proof.
  split; [apply _ |]. split; [exact w_fingerprint_ne |].
  destruct (matches_exact w_fingerprint "B" _ w_fingerprint_ne w_history "A" w_history' "A") as (b & Hb & _).
  split; [by exists b |]. by vm_compute.
Defined.

Definition w_record : historyRecord :=
  default (mkHistoryRecord "" ∅ "" "" no_resource []) (record w_fingerprint "B" w_history "A").

Lemma reaches_exact_witness : ∃ r, record w_fingerprint "B" w_history "A" = Some r ∧
  (mkEvidence w_source "a/b/c" false ∈ reaches r (changedHistoryPaths w_fingerprint [mkEvidence w_source "./a/b/c" false]) ↔
   ∃ e0 p ps rest, e0 ∈ [mkEvidence w_source "./a/b/c" false] ∧ accepted e0 = true ∧ cleaned e0 = mkEvidence w_source "a/b/c" false ∧
     (w_source, p) ∈ evidence_of (sources_of w_history) ∧ parts_ok (ps ++ rest) ∧ p.(hp_Path) = path_of ps ∧ "a/b/c" = path_of (ps ++ rest) ∧
     (rest = [] ∨ p.(hp_Subtree) = true)) ∧
  reaches r (changedHistoryPaths w_fingerprint [mkEvidence w_source "./a/b/c" false]) = [mkEvidence w_source "a/b/c" false].
Proof.
  exists w_record. assert (record w_fingerprint "B" w_history "A" = Some w_record) as E by reflexivity. split; [exact E |].
  split; [exact (reaches_exact w_fingerprint "B" _ w_fingerprint_ne w_history "A" w_record _ _ E) | by vm_compute].
Defined.
