(* ===== verification/Sweep.v ===== *)
(** * Collecting the cache (pkg/source/cache/gc.go)

    A sweep retires the tags that were not used for a while and removes the Git generations
    that no remaining tag reaches.  The layout on disk is the input: the blobs with what they
    lead to, the tags, and the outcomes of the file system; the writes a sweep makes are its
    trace.  A cancelled context only ends a selection early with an error and is left out. *)

From S2P Require Import Prelude.

(** ** The store *)

(** A descriptor: its digest, and the generation its annotation names, or nothing. *)
Record descriptor := mkDescriptor { digest : string; generation : string }.

#[export] Instance descriptor_eq_dec : EqDecision descriptor.
Proof. solve_decision. Defined.

(** A blob: when it was modified, and what [content.Successors] reads from it. *)
Record blob := mkBlob { ModTime : Z; successors : option (list descriptor) }.

(** What [os.Stat] answers about a path. *)
Inductive presence := Present | Absent | Failing.

Record layout := mkLayout {
  blobs : gmap string blob;
  Tags : option (list string);
  Resolve : string → option descriptor;
  (** The entries of the generations' directory, and the bytes below one. *)
  entries : option (list (string * bool));
  bytes_of : string → option Z;
}.

Inductive visit_error := BadGeneration (id : string) | BadDigest (d : string) | MissingBlob (d : string) | UnreadableBlob (d : string).

Inductive sweep_error :=
  | EmptyRoot | RootFailure | StoreFailure | LockFailure | Busy | UnreadableStore | ListFailure
  | UnresolvedTag (tag : string) | InvalidTag (tag : string) | MissingTag (tag : string) | WalkFailure (tag : string) (e : visit_error)
  | EntriesFailure | SizeFailure (id : string) | WritableFailure.

Section sweep.
(** Whether [uuid.Parse] gives a text back, and [digest.Validate] accepts one; where a
    generation is. *)
Context (canonical valid_digest : string → bool) (generationPath : string → string).
Context (disk : layout).

Definition accessInterval : Z := 1000000000.

(** ** Marking *)

Record marks := mkMarks { retained : gset string; seen : gmap string bool }.

(** The loop over the children. *)
Fixpoint visit_all (visit : marks → descriptor → option (marks * option visit_error)) (s : marks) (children : list descriptor)
    : option (marks * option visit_error) :=
  match children with
  | [] => Some (s, None)
  | child :: children =>
      '(s, e) ← visit s child;
      match e with Some e => Some (s, Some e) | None => visit_all visit s children end
  end.

(** The part of [visit] past the test of what was seen. *)
Definition expand (visit : marks → descriptor → option (marks * option visit_error)) (keep : bool) (s : marks) (desc : descriptor)
    : option (marks * option visit_error) :=
  let s := mkMarks s.(retained) (<[desc.(digest) := keep]> s.(seen)) in
  if negb (valid_digest desc.(digest)) then Some (s, Some (BadDigest desc.(digest)))
  else
    match disk.(blobs) !! desc.(digest) with
    | None => Some (s, Some (MissingBlob desc.(digest)))
    | Some b =>
        match b.(successors) with
        | None => Some (s, Some (UnreadableBlob desc.(digest)))
        | Some children => visit_all visit s children
        end
    end.

(** [visit]; the fuel bounds the depth. *)
Fixpoint visit (fuel : nat) (keep : bool) (s : marks) (desc : descriptor) : option (marks * option visit_error) :=
  match fuel with
  | 0 => None
  | S fuel =>
      let id := desc.(generation) in
      if negb (bool_decide (id = "")) && negb (canonical id) then Some (s, Some (BadGeneration id))
      else
        let s := if negb (bool_decide (id = "")) && keep then mkMarks ({[id]} ∪ s.(retained)) s.(seen) else s in
        match s.(seen) !! desc.(digest) with
        | Some kept => if kept || negb keep then Some (s, None) else expand (visit fuel keep) keep s desc
        | None => expand (visit fuel keep) keep s desc
        end
  end.

(** ** Selecting *)

Record selection := mkSelection { se_marks : marks; se_tags : list string; generations : list string; Bytes : Z }.

(** Whether a tag of an age is kept; the zero cutoff keeps all. *)
Definition keeps (cutoff mtime : Z) : bool := (cutoff =? 0)%Z || (cutoff <? mtime)%Z.

Definition depth_bound : nat := S (S (size disk.(blobs))).

(** [selectTag]. *)
Definition selectTag (cutoff : Z) (s : selection) (tag : string) : option (selection + sweep_error) :=
  match disk.(Resolve) tag with
  | None => Some (inr (UnresolvedTag tag))
  | Some desc =>
      if negb (valid_digest desc.(digest)) then Some (inr (InvalidTag tag))
      else
        match disk.(blobs) !! desc.(digest) with
        | None => Some (inr (MissingTag tag))
        | Some info =>
            let keep := keeps cutoff info.(ModTime) in
            '(m, e) ← visit depth_bound keep s.(se_marks) desc;
            Some (match e with
                  | Some e => inr (WalkFailure tag e)
                  | None => inl (mkSelection m (if keep then s.(se_tags) else s.(se_tags) ++ [tag]) s.(generations) s.(Bytes))
                  end)
        end
  end.

(** [selectGeneration]. *)
Definition selectGeneration (s : selection) (entry : string * bool) : selection + sweep_error :=
  let '(id, is_dir) := entry in
  if negb (canonical id) || negb is_dir then inl s
  else if bool_decide (id ∈ s.(se_marks).(retained)) then inl s
  else
    match disk.(bytes_of) id with
    | None => inr (SizeFailure id)
    | Some n => inl (mkSelection s.(se_marks) s.(se_tags) (s.(generations) ++ [generationPath id]) (int64 (s.(Bytes) + n)))
    end.

(** The two loops of [selectSweep]. *)
Fixpoint selectTags (cutoff : Z) (s : selection) (tags : list string) : option (selection + sweep_error) :=
  match tags with
  | [] => Some (inl s)
  | tag :: tags => r ← selectTag cutoff s tag; match r with inl s => selectTags cutoff s tags | inr e => Some (inr e) end
  end.

Fixpoint selectGenerations (s : selection) (es : list (string * bool)) : selection + sweep_error :=
  match es with
  | [] => inl s
  | entry :: es => match selectGeneration s entry with inl s => selectGenerations s es | inr e => inr e end
  end.

Definition cutoff_of (maxAge now : Z) : Z := if (0 <? maxAge)%Z then (now - maxAge - accessInterval)%Z else 0%Z.

Definition nothing : selection := mkSelection (mkMarks ∅ ∅) [] [] 0.

(** [selectSweep]; [now] is the time since the zero of [time.Time], in nanoseconds. *)
Definition selectSweep (maxAge now : Z) : option (selection + sweep_error) :=
  match disk.(Tags) with
  | None => Some (inr ListFailure)
  | Some tags =>
      r ← selectTags (cutoff_of maxAge now) nothing tags;
      Some (match r with
            | inr e => inr e
            | inl s => match disk.(entries) with None => inr EntriesFailure | Some es => selectGenerations s es end
            end)
  end.

(** [SweepResult.Removed]: the tags and the generations by their absolute paths. *)
Definition Removed (absolute : string → string) (s : selection) : list string :=
  sort_by compare (s.(se_tags) ++ map absolute s.(generations)).

(** ** Applying *)

(** A write of a sweep, and whether it succeeds. *)
Inductive action := Untag (tag : string) | GC | SaveIndex | RemoveAll (path : string).

#[export] Instance action_eq_dec : EqDecision action.
Proof. solve_decision. Defined.

Context (succeeds : action → bool).

(** The failures among some writes. *)
Definition failures (l : list action) : list action := filter (λ a, succeeds a = false) l.

(** [apply]: the writes made, in order, and those that failed. *)
Definition apply (s : selection) : list action * list action :=
  let untags := map Untag s.(se_tags) in
  match failures untags with
  | [] =>
      if negb (succeeds GC) then (untags ++ [GC], [GC])
      else if negb (succeeds SaveIndex) then (untags ++ [GC; SaveIndex], [SaveIndex])
      else let removals := map RemoveAll s.(generations) in (untags ++ [GC; SaveIndex] ++ removals, failures removals)
  | failed => (untags, failed)
  end.

(** ** Sweeping *)

(** The cache as [Sweep] finds it: what its checks answer before the store is read. *)
Record found := mkFound {
  root : string; root_stat : presence; root_opens : bool; store_stat : presence;
  try_lock : option bool; store_reads : bool; store_opens : bool;
}.

(** [Sweep]: the selection, the writes, those that failed, and the error. *)
Definition Sweep (f : found) (maxAge now : Z) (dry_run : bool) : option (selection * list action * list action * option sweep_error) :=
  let ends e := Some (nothing, [], [], e) in
  if bool_decide (f.(root) = "") then ends (Some EmptyRoot)
  else
    match f.(root_stat) with
    | Absent => ends None
    | Failing => ends (Some RootFailure)
    | Present =>
        if negb f.(root_opens) then ends (Some RootFailure)
        else
          match f.(store_stat), (if dry_run then Some true else f.(try_lock)) with
          | Absent, _ => ends None
          | Failing, _ => ends (Some StoreFailure)
          | Present, None => ends (Some LockFailure)
          | Present, Some false => ends (Some Busy)
          | Present, Some true =>
              if negb f.(store_reads) then ends (Some UnreadableStore)
              else
                r ← selectSweep maxAge now;
                match r with
                | inr e => ends (Some e)
                | inl s =>
                    if dry_run then Some (s, [], [], None)
                    else if negb f.(store_opens) then Some (s, [], [], Some WritableFailure)
                    else let '(writes, failed) := apply s in Some (s, writes, failed, None)
                end
          end
    end.

End sweep.

(** ** Reachability *)

Section marking.
Context (canonical valid_digest : string → bool) (disk : layout).
Abbreviation visits := (visit canonical valid_digest disk).
Implicit Types (s : marks) (x y : descriptor) (d : string) (G : gset string).

Definition children d : list descriptor := default [] (disk.(blobs) !! d ≫= successors).

Definition leads x y : Prop := y ∈ children x.(digest).
Abbreviation reaches := (rtc leads).

(** A descriptor that a walk passes without an error. *)
Definition named x : Prop := x.(generation) = "" ∨ canonical x.(generation) = true.
Definition readable d : Prop := valid_digest d = true ∧ is_Some (disk.(blobs) !! d ≫= successors).
Definition sound x : Prop := named x ∧ readable x.(digest).

(** A descriptor that was walked, and whose generation is retained if it is kept. *)
Definition walked s (keep : bool) x : Prop :=
  named x ∧ (∃ kept, s.(seen) !! x.(digest) = Some kept ∧ (kept || negb keep) = true) ∧
  (keep = true → x.(generation) ≠ "" → x.(generation) ∈ s.(retained)).

(** What a walk never undoes. *)
Definition grows s s' : Prop :=
  s.(retained) ⊆ s'.(retained) ∧
  ∀ d k, s.(seen) !! d = Some k → ∃ k', s'.(seen) !! d = Some k' ∧ (k' || negb k) = true.

(** Outside the digests a walk is in the middle of, the children of what was seen were
    walked, kept if it was. *)
Definition closed G s : Prop :=
  ∀ d k, s.(seen) !! d = Some k → d ∉ G → readable d ∧ ∀ y, y ∈ children d → walked s k y.

#[local] Instance grows_refl : Reflexive grows.
Proof. intros s. split; [done |]. intros d k Hk. exists k. by destruct k. Qed.

#[local] Instance grows_trans : Transitive grows.
Proof.
  intros s1 s2 s3 [R12 S12] [R23 S23]. split; [by transitivity (retained s2) |]. intros d k Hk.
  destruct (S12 d k Hk) as (k2 & H2 & L2). destruct (S23 d k2 H2) as (k3 & H3 & L3). exists k3. split; [done |]. by destruct k, k2, k3.
Qed.

Lemma walked_grows s s' keep x : grows s s' → walked s keep x → walked s' keep x.
Proof.
  intros [Hr Hs] (Hn & (k & Hk & Hl) & Hg). split; [done |]. split; [| set_solver].
  destruct (Hs _ _ Hk) as (k' & Hk' & Hl'). exists k'. split; [done |]. by destruct k, k', keep.
Qed.

(** What a walk adds. *)
Definition adds (keep : bool) x s s' : Prop :=
  (∀ id, id ∈ s'.(retained) → id ∈ s.(retained) ∨ keep = true ∧ id ≠ "" ∧ ∃ y, reaches x y ∧ y.(generation) = id) ∧
  ∀ d k, s'.(seen) !! d = Some k → s.(seen) !! d = Some k ∨ k = keep.

Lemma adds_trans keep x s1 s2 s3 : adds keep x s1 s2 → adds keep x s2 s3 → adds keep x s1 s3.
Proof.
  intros [R12 S12] [R23 S23]. split.
  - intros id Hid. destruct (R23 id Hid) as [Hid' |]; [by apply R12 | by right].
  - intros d k Hk. destruct (S23 d k Hk) as [Hk' |]; [by apply S12 | by right].
Qed.

Lemma adds_child keep x y s s' : leads x y → adds keep y s s' → adds keep x s s'.
Proof.
  intros Hxy [R S]. split; [| done]. intros id Hid. destruct (R id Hid) as [? | (? & ? & z & Hz & ?)]; [by left | right].
  split_and!; [done.. |]. exists z. split; [| done]. by eapply rtc_l.
Qed.

(** What a walk of a descriptor guarantees. *)
Definition walks G (keep : bool) s x (r : option (marks * option visit_error)) : Prop :=
  ∃ s' e, r = Some (s', e) ∧ grows s s' ∧ adds keep x s s' ∧
    match e with
    | None => closed G s' ∧ walked s' keep x
    | Some _ => ∃ y, reaches x y ∧ ¬ sound y
    end.

Definition active G (keep : bool) s : Prop := ∀ d, d ∈ G → ∃ kept, s.(seen) !! d = Some kept ∧ (kept || negb keep) = true.

Lemma active_grows G keep s s' : grows s s' → active G keep s → active G keep s'.
Proof.
  intros [_ Hs] Ha d Hd. destruct (Ha d Hd) as (k & Hk & Hl). destruct (Hs _ _ Hk) as (k' & Hk' & Hl'). exists k'. split; [done |]. by destruct k, k', keep.
Qed.

Lemma visit_all_spec G keep x f l s : (∀ y, y ∈ l → leads x y) →
  (∀ s y, closed G s → active G keep s → y ∈ l → walks G keep s y (f s y)) → closed G s → active G keep s →
  ∃ s' e, visit_all f s l = Some (s', e) ∧ grows s s' ∧ adds keep x s s' ∧
    match e with
    | None => closed G s' ∧ ∀ y, y ∈ l → walked s' keep y
    | Some _ => ∃ y, reaches x y ∧ ¬ sound y
    end.
Proof.
  intros Hl Hf. revert s. induction l as [| y l IH]; intros s Hc Ha; cbn [visit_all].
  { exists s, None. split_and!; [done.. | split; by left | done |]. intros y Hy. by apply elem_of_nil in Hy. }
  destruct (Hf s y Hc Ha) as (s1 & e1 & -> & Hg1 & Ha1 & He1); [by left |]. cbn [mbind option_bind].
  assert (leads x y) as Hxy by (apply Hl; by left). pose proof (adds_child _ _ _ _ _ Hxy Ha1) as Hr1. destruct e1 as [e1 |].
  - exists s1, (Some e1). split_and!; [done.. |]. destruct He1 as (z & Hz & Hns). exists z. split; [by eapply rtc_l | done].
  - destruct He1 as [Hc1 Hw1]. destruct (IH ltac:(intros z Hz; apply Hl; by right) ltac:(intros s0 z H0 H1 Hz; apply Hf; [done.. | by right]) s1) as (s2 & e2 & -> & Hg2 & Hr2 & He2);
      [done | by eapply active_grows |].
    exists s2, e2. split; [done |]. split; [by etrans |]. split; [by eapply adds_trans |].
    destruct e2 as [e2 |]; [done |]. destruct He2 as [Hc2 Hw2]. split; [done |]. intros z [-> | Hz]%elem_of_cons; [by eapply walked_grows | by apply Hw2].
Qed.

(** The annotation of a kept descriptor is retained first. *)
Definition named_marks (keep : bool) s x : marks :=
  if negb (bool_decide (x.(generation) = "")) && keep then mkMarks ({[x.(generation)]} ∪ s.(retained)) s.(seen) else s.

Lemma named_marks_spec keep s x : grows s (named_marks keep s x) ∧ adds keep x s (named_marks keep s x) ∧
  (named_marks keep s x).(seen) = s.(seen) ∧ (keep = true → x.(generation) ≠ "" → x.(generation) ∈ (named_marks keep s x).(retained)).
Proof.
  unfold named_marks. case_bool_decide as Hx; destruct keep; cbn [negb andb]; try (split_and!; [done | split; by left | done | done]).
  split_and!; [| | done | set_solver].
  - split; [set_solver |]. intros d k Hk. exists k. by destruct k.
  - split; [| by left]. cbn. intros id [->%elem_of_singleton | Hid]%elem_of_union; [right | by left]. split_and!; [done.. |]. by exists x.
Qed.

Lemma closed_grows G s s' : grows s s' → s'.(seen) = s.(seen) → closed G s → closed G s'.
Proof.
  intros Hg He Hc d k Hk Hd. rewrite He in Hk. destruct (Hc d k Hk Hd) as [Hr Hy]. split; [done |]. intros y Hin. eapply walked_grows; [done | by apply Hy].
Qed.

(** A digest that is not active becomes so. *)
Lemma mark_spec G keep s x : closed G s → active G keep s →
  (∀ k, s.(seen) !! x.(digest) = Some k → (k || negb keep) = false) →
  let s' := mkMarks s.(retained) (<[x.(digest) := keep]> s.(seen)) in
  grows s s' ∧ adds keep x s s' ∧ closed ({[x.(digest)]} ∪ G) s' ∧ active ({[x.(digest)]} ∪ G) keep s' ∧ x.(digest) ∉ G.
Proof.
  intros Hc Ha Hx s'. assert (grows s s') as Hg.
  { split; [done |]. intros d k Hk. destruct (decide (d = x.(digest))) as [-> | Hd].
    - exists keep. cbn. rewrite lookup_insert_eq. split; [done |]. specialize (Hx k Hk). by destruct k, keep.
    - exists k. cbn. rewrite lookup_insert_ne by done. by destruct k. }
  split_and!; [done | | | |].
  - split; [by left |]. intros d k Hk. cbn in Hk. destruct (decide (d = x.(digest))) as [-> | Hd];
      [rewrite lookup_insert_eq in Hk; injection Hk as <-; by right | rewrite lookup_insert_ne in Hk by done; by left].
  - intros d k Hk Hd. cbn in Hk. rewrite lookup_insert_ne in Hk by set_solver. destruct (Hc d k Hk) as [Hr Hy]; [set_solver |].
    split; [done |]. intros y Hin. eapply walked_grows; [done | by apply Hy].
  - intros d Hd. cbn. destruct (decide (d = x.(digest))) as [-> | Hn]; [exists keep; rewrite lookup_insert_eq; by destruct keep |].
    rewrite lookup_insert_ne by done. apply Ha. set_solver.
  - intros Hd. destruct (Ha _ Hd) as (k & Hk & Hl). specialize (Hx k Hk). congruence.
Qed.

Lemma expand_walks G keep fuel s0 s x :
  (∀ G s x, closed G s → active G keep s → size (dom disk.(blobs) ∖ G) < fuel → walks G keep s x (visits fuel keep s x)) →
  closed G s → active G keep s → size (dom disk.(blobs) ∖ G) < S fuel →
  named x → (keep = true → x.(generation) ≠ "" → x.(generation) ∈ s.(retained)) →
  (∀ k, s.(seen) !! x.(digest) = Some k → (k || negb keep) = false) → grows s0 s → adds keep x s0 s →
  walks G keep s0 x (expand valid_digest disk (visits fuel keep) keep s x).
Proof.
  intros IH Hc Ha Hf Hn Hr Hx Hg0 Ha0. destruct (mark_spec G keep s x Hc Ha Hx) as (Hg & Had & Hc' & Ha' & Hd).
  unfold expand. set (s1 := mkMarks (retained s) (<[x.(digest) := keep]> (seen s))) in *. cbn zeta.
  assert (grows s0 s1) as Hg1 by (by etrans). assert (adds keep x s0 s1) as Ha1 by (by eapply adds_trans).
  assert (∀ e, ¬ readable x.(digest) → walks G keep s0 x (Some (s1, Some e))) as Hbad.
  { intros e Hb. exists s1, (Some e). split_and!; [done.. |]. exists x. split; [done |]. by intros [_ ?]. }
  destruct (valid_digest x.(digest)) eqn:Hv; cbn [negb]; [| by apply Hbad; intros [? _]; congruence].
  destruct (blobs disk !! x.(digest)) as [b |] eqn:Eb; [| apply Hbad; intros [_ Hb]; rewrite Eb in Hb; by destruct Hb].
  destruct (successors b) as [l |] eqn:El; [| apply Hbad; intros [_ Hb]; rewrite Eb in Hb; cbn in Hb; rewrite El in Hb; by destruct Hb].
  assert (children x.(digest) = l) as Hl by (unfold children; rewrite Eb; cbn; by rewrite El).
  destruct (visit_all_spec ({[x.(digest)]} ∪ G) keep x (visits fuel keep) l s1) as (s2 & e & -> & Hg2 & Ha2 & He).
  - intros y Hy. unfold leads. by rewrite Hl.
  - intros s' y Hcs Has _. apply IH; [done.. |]. apply elem_of_dom_2 in Eb.
    eapply Nat.lt_le_trans; [| apply Nat.lt_succ_r, Hf]. apply subset_size. split; [set_solver |]. set_solver.
  - done.
  - done.
  - exists s2, e. split; [done |]. split; [by etrans |]. split; [by eapply adds_trans |]. destruct e as [e |]; [done |]. destruct He as [Hc2 Hw2].
    assert (readable x.(digest)) as Hrd by (split; [done | rewrite Eb; cbn; by rewrite El]). split.
    + intros d k Hk Hdg. destruct (decide (d = x.(digest))) as [-> | Hne]; [| apply Hc2; [done | set_solver]].
      split; [done |]. intros y Hy. rewrite Hl in Hy. specialize (Hw2 y Hy).
      assert (k = keep) as ->; [| done]. destruct Ha2 as [_ Ha2]. destruct (Ha2 _ _ Hk) as [E | E]; [| done]. cbn in E. rewrite lookup_insert_eq in E. by injection E.
    + split; [done |]. split.
      * destruct Hg2 as [_ Hg2]. destruct (Hg2 x.(digest) keep) as (k' & Hk' & Hl'); [cbn; apply lookup_insert_eq |]. by exists k'.
      * intros Hk Hgen. destruct Hg2 as [Hg2 _]. by apply Hg2, Hr.
Qed.

(** With fuel for the blobs that are not being walked, a walk ends and does what it should. *)
Lemma visit_spec fuel keep : ∀ G s x, closed G s → active G keep s → size (dom disk.(blobs) ∖ G) < fuel → walks G keep s x (visits fuel keep s x).
Proof.
  induction fuel as [| fuel IH]; intros G s x Hc Ha Hf; [lia |]. cbn [visit].
  destruct (negb (bool_decide (x.(generation) = "")) && negb (canonical x.(generation))) eqn:En.
  { bool_to_prop. exists s, (Some (BadGeneration x.(generation))). split_and!; [done.. | split; by left |]. exists x. split; [done |]. intros [[? | ?] _]; congruence. }
  assert (named x) as Hn.
  { unfold named. destruct (bool_decide_reflect (x.(generation) = "")) as [Hg | Hg]; [by left | right]. cbn in En. by apply negb_false_iff in En. }
  cbn zeta. fold (named_marks keep s x). destruct (named_marks_spec keep s x) as (Hg1 & Ha1 & Hs1 & Hr1). set (s1 := named_marks keep s x) in *.
  pose proof (closed_grows _ _ _ Hg1 Hs1 Hc) as Hc1. pose proof (active_grows _ _ _ _ Hg1 Ha) as Hac1.
  destruct (seen s1 !! x.(digest)) as [kept |] eqn:Ek.
  - destruct (kept || negb keep) eqn:Eq.
    + exists s1, None. split_and!; [done.. |]. split; [done |]. split; [by exists kept | done].
    + eapply expand_walks; eauto. intros k Hk. rewrite Ek in Hk. by injection Hk as <-.
  - eapply expand_walks; eauto. intros k Hk. congruence.
Qed.
End marking.

(** ** Selections *)

Section selecting.
Context (canonical valid_digest : string → bool) (generationPath : string → string) (disk : layout).
Abbreviation leads := (leads disk).
Abbreviation reaches := (rtc leads).
Abbreviation sound := (sound canonical valid_digest disk).
Abbreviation walked := (walked canonical).
Abbreviation closed := (closed canonical valid_digest disk).
Implicit Types (m : marks) (s : selection) (x y : descriptor) (tag id : string).

Lemma walked_weaken m k keep y : (k || negb keep) = true → walked m k y → walked m keep y.
Proof.
  intros Hk (Hn & (kept & Hs & Hl) & Hr). split; [done |]. split; [exists kept; split; [done |]; by destruct kept, k, keep |].
  intros ->. destruct k; [by apply Hr | done].
Qed.

(** What a walked descriptor reaches was walked, and is sound. *)
Lemma walked_reaches m keep x y : closed ∅ m → walked m keep x → reaches x y → walked m keep y.
Proof.
  intros Hc Hw Hr. induction Hr as [| x z y Hxz _ IH]; [done |]. apply IH. destruct Hw as (_ & (k & Hk & Hl) & _).
  destruct (Hc _ _ Hk (not_elem_of_empty _)) as [_ Hy]. eapply walked_weaken; [done | by apply Hy].
Qed.

Lemma walked_sound m keep x : closed ∅ m → walked m keep x → sound x.
Proof. intros Hc (Hn & (k & Hk & _) & _). split; [done |]. by destruct (Hc _ _ Hk (not_elem_of_empty _)). Qed.

Section cutoff.
Context (cutoff : Z).

(** Whether a tag is retired. *)
Definition expired tag : bool :=
  match disk.(Resolve) tag with
  | Some desc => match disk.(blobs) !! desc.(digest) with Some b => negb (keeps cutoff b.(ModTime)) | None => false end
  | None => false
  end.

(** A tag whose walk has nothing to refuse. *)
Definition tag_sound tag : Prop := ∃ desc, disk.(Resolve) tag = Some desc ∧ ∀ y, reaches desc y → sound y.

(** A generation that a tag reaches, and one that a tag that stays reaches. *)
Definition tag_reaches tag id : Prop := id ≠ "" ∧ ∃ desc y, disk.(Resolve) tag = Some desc ∧ reaches desc y ∧ y.(generation) = id.
Definition live (tags : list string) id : Prop := ∃ tag, tag ∈ tags ∧ expired tag = false ∧ tag_reaches tag id.

(** What selecting a tag leaves. *)
Definition tag_selected m tag : Prop := ∃ desc, disk.(Resolve) tag = Some desc ∧ walked m (negb (expired tag)) desc.

Definition selected s (tags : list string) (r : option (selection + sweep_error)) : Prop :=
  ∃ res, r = Some res ∧
    match res with
    | inl s' => closed ∅ s'.(se_marks) ∧ grows s.(se_marks) s'.(se_marks) ∧
        (∀ id, id ∈ s'.(se_marks).(retained) → id ∈ s.(se_marks).(retained) ∨ live tags id) ∧
        (∀ tag, tag ∈ tags → tag_selected s'.(se_marks) tag) ∧
        s'.(se_tags) = s.(se_tags) ++ filter (λ tag, expired tag = true) tags ∧
        s'.(generations) = s.(generations) ∧ s'.(Bytes) = s.(Bytes)
    | inr _ => ∃ tag, tag ∈ tags ∧ ¬ tag_sound tag
    end.

Lemma selectTag_spec s tag : closed ∅ s.(se_marks) → selected s [tag] (selectTag canonical valid_digest disk cutoff s tag).
Proof.
  intros Hc. unfold selectTag, selected. destruct (Resolve disk tag) as [desc |] eqn:Er.
  2:{ eexists. split; [done |]. exists tag. split; [by left |]. intros (desc & Hd & _). congruence. }
  assert (∀ e, ¬ sound desc → ∃ res, Some (inr e : selection + sweep_error) = Some res ∧ match res with inl _ => False | inr _ => ∃ t, t ∈ [tag] ∧ ¬ tag_sound t end) as Hbad.
  { intros e Hns. eexists. split; [done |]. exists tag. split; [by left |]. intros (desc' & Hd & Hs). rewrite Er in Hd. injection Hd as <-. by apply Hns, Hs. }
  destruct (valid_digest desc.(digest)) eqn:Ev; cbn [negb].
  2:{ destruct (Hbad (InvalidTag tag)) as (? & [= <-] & ?); [intros [_ [? _]]; congruence | eauto]. }
  destruct (blobs disk !! desc.(digest)) as [b |] eqn:Eb.
  2:{ destruct (Hbad (MissingTag tag)) as (? & [= <-] & ?); [intros [_ [_ Hs]]; rewrite Eb in Hs; by destruct Hs | eauto]. }
  assert (expired tag = negb (keeps cutoff (ModTime b))) as He by (unfold expired; by rewrite Er, Eb).
  set (keep := keeps cutoff (ModTime b)) in *. cbn zeta.
  destruct (visit_spec canonical valid_digest disk (depth_bound disk) keep ∅ (se_marks s) desc) as (m & e & -> & Hg & [Ha _] & Hm); [done | intros d Hd; set_solver | |].
  { unfold depth_bound. rewrite difference_empty_L, size_dom. lia. }
  cbn [mbind option_bind]. destruct e as [e |].
  - eexists. split; [done |]. cbn. exists tag. split; [by left |]. intros (desc' & Hd & Hs). rewrite Er in Hd. injection Hd as <-.
    destruct Hm as (y & Hy & Hns). by apply Hns, Hs.
  - destruct Hm as [Hc' Hw]. eexists. split; [done |]. cbn [se_marks se_tags generations Bytes]. split_and!; [done | done | | | | done | done].
    + intros id Hid. destruct (Ha id Hid) as [? | (Hk & Hne & y & Hy & Hgen)]; [by left | right]. exists tag. split; [by left |].
      split; [by rewrite He, Hk |]. split; [done |]. exists desc, y. split_and!; done.
    + intros tag' ->%list_elem_of_singleton. exists desc. split; [done |]. by rewrite He, negb_involutive.
    + cbn [filter list_filter]. case_decide as Hd; rewrite He in Hd; destruct keep; try done; by rewrite app_nil_r.
Qed.

Lemma selectTags_spec s tags : closed ∅ s.(se_marks) → selected s tags (selectTags canonical valid_digest disk cutoff s tags).
Proof.
  revert s. induction tags as [| tag tags IH]; intros s Hc; cbn [selectTags].
  { eexists. split; [done |]. cbn. split_and!; [done | apply grows_refl | by left | | by rewrite app_nil_r | done | done]. intros tag Ht. by apply elem_of_nil in Ht. }
  destruct (selectTag_spec s tag Hc) as (r & -> & Hr). cbn [mbind option_bind]. destruct r as [s1 | e].
  - destruct Hr as (Hc1 & Hg1 & Hr1 & Hs1 & Ht1 & Hn1 & Hb1). destruct (IH s1 Hc1) as (r & -> & Hr). eexists. split; [done |]. destruct r as [s2 | e].
    + destruct Hr as (Hc2 & Hg2 & Hr2 & Hs2 & Ht2 & Hn2 & Hb2). split_and!; [done | by eapply grows_trans | | | | congruence | congruence].
      * intros id Hid. destruct (Hr2 id Hid) as [Hid' | (t & Ht & Hl)]; [destruct (Hr1 id Hid') as [| (t & Ht & Hl)]; [by left |] |];
          right; exists t; (split; [| done]); [apply list_elem_of_singleton in Ht as ->; by left | by right].
      * intros t [-> | Ht]%elem_of_cons; [| by apply Hs2]. destruct (Hs1 tag) as (desc & Hd & Hw); [by left |]. exists desc. split; [done |]. by eapply walked_grows.
      * rewrite Ht2, Ht1, <- app_assoc, <- filter_app. done.
    + destruct Hr as (t & Ht & Hns). exists t. split; [by right | done].
  - eexists. split; [done |]. destruct Hr as (t & ->%list_elem_of_singleton & Hns). exists tag. split; [by left | done].
Qed.

(** What is retained in the end is what a tag that stays reaches. *)
Lemma retained_live m tags id : closed ∅ m → (∀ id, id ∈ m.(retained) → live tags id) → (∀ tag, tag ∈ tags → tag_selected m tag) →
  id ∈ m.(retained) ↔ live tags id.
Proof.
  intros Hc Hr Hs. split; [apply Hr |]. intros (tag & Ht & He & Hne & desc & y & Hd & Hy & <-).
  destruct (Hs tag Ht) as (desc' & Hd' & Hw). rewrite Hd in Hd'. injection Hd' as <-. rewrite He in Hw.
  destruct (walked_reaches _ _ _ _ Hc Hw Hy) as (_ & _ & Hg). by apply Hg.
Qed.

Lemma selectGenerations_spec s es :
  match selectGenerations canonical generationPath disk s es with
  | inl s' => s'.(se_marks) = s.(se_marks) ∧ s'.(se_tags) = s.(se_tags) ∧
      ∀ p, p ∈ s'.(generations) ↔ p ∈ s.(generations) ∨ ∃ id, (id, true) ∈ es ∧ canonical id = true ∧ id ∉ s.(se_marks).(retained) ∧ p = generationPath id
  | inr _ => ∃ id, (id, true) ∈ es ∧ canonical id = true ∧ id ∉ s.(se_marks).(retained) ∧ disk.(bytes_of) id = None
  end.
Proof.
  revert s. induction es as [| [id dir] es IH]; intros s; cbn [selectGenerations].
  { split_and!; [done..|]. intros p. split; [by left |]. intros [? | (id & Hin & _)]; [done | by apply elem_of_nil in Hin]. }
  unfold selectGeneration. destruct (negb (canonical id) || negb dir) eqn:Ec.
  { pose proof (IH s) as Hs. destruct (selectGenerations _ _ _ s es) as [s' | e].
    - destruct Hs as (Hm & Ht & Hp). split_and!; [done.. |]. intros p. rewrite Hp. split; (intros [? | (i & Hi & Hci & Hri & ->)]; [by left | right; exists i]).
      + split_and!; [by right | done..].
      + apply elem_of_cons in Hi as [[= -> <-] | Hi]; [| split_and!; done]. rewrite Hci in Ec. done.
    - destruct Hs as (i & Hi & ?). exists i. split; [by right | done]. }
  apply orb_false_iff in Ec as [Hcan%negb_false_iff Hdir%negb_false_iff]. subst dir. case_bool_decide as Hret.
  { pose proof (IH s) as Hs. destruct (selectGenerations _ _ _ s es) as [s' | e].
    - destruct Hs as (Hm & Ht & Hp). split_and!; [done.. |]. intros p. rewrite Hp. split; (intros [? | (i & Hi & Hci & Hri & ->)]; [by left | right; exists i]).
      + split_and!; [by right | done..].
      + apply elem_of_cons in Hi as [[= ->] | Hi]; [done |]. split_and!; done.
    - destruct Hs as (i & Hi & ?). exists i. split; [by right | done]. }
  destruct (bytes_of disk id) as [n |] eqn:En; [| exists id; split_and!; [by left | done..]].
  pose proof (IH (mkSelection (se_marks s) (se_tags s) (generations s ++ [generationPath id]) (int64 (Bytes s + n)))) as Hs.
  destruct (selectGenerations _ _ _ _ es) as [s' | e]; cbn [se_marks se_tags generations] in Hs.
  - destruct Hs as (Hm & Ht & Hp). split_and!; [done.. |]. intros p. rewrite Hp, elem_of_app, list_elem_of_singleton. split.
    + intros [[? | ->] | (i & Hi & Hci & Hri & ->)]; [by left | right; exists id; split_and!; [by left | done..] | right; exists i; split_and!; [by right | done..]].
    + intros [? | (i & [[= ->] | Hi]%elem_of_cons & Hci & Hri & ->)]; [left; by left | left; by right | right; exists i; split_and!; done].
  - destruct Hs as (i & Hi & ?). exists i. split; [by right | done].
Qed.
End cutoff.

(** What a selection is of a store: every tag was walked without a refusal, the tags retired
    are those that are not kept, and the generations to be removed are those with a canonical
    name that no tag that stays reaches. *)
Definition selection_of (cutoff : Z) s : Prop := ∃ tags es, disk.(Tags) = Some tags ∧ disk.(entries) = Some es ∧
  (∀ tag, tag ∈ tags → tag_sound tag) ∧ s.(se_tags) = filter (λ tag, expired cutoff tag = true) tags ∧
  ∀ p, p ∈ s.(generations) ↔ ∃ id, (id, true) ∈ es ∧ canonical id = true ∧ p = generationPath id ∧ ¬ live cutoff tags id.

(** Why a selection fails. *)
Definition selection_fails (cutoff : Z) : Prop := disk.(Tags) = None ∨ ∃ tags, disk.(Tags) = Some tags ∧
  ((∃ tag, tag ∈ tags ∧ ¬ tag_sound tag) ∨ disk.(entries) = None ∨
   ∃ es id, disk.(entries) = Some es ∧ (id, true) ∈ es ∧ canonical id = true ∧ ¬ live cutoff tags id ∧ disk.(bytes_of) id = None).

Lemma selectSweep_spec maxAge now : ∃ r, selectSweep canonical valid_digest generationPath disk maxAge now = Some r ∧
  match r with inl s => selection_of (cutoff_of maxAge now) s | inr _ => selection_fails (cutoff_of maxAge now) end.
Proof.
  unfold selectSweep. set (cutoff := cutoff_of maxAge now). destruct (Tags disk) as [tags |] eqn:Et; [| eexists; split; [done | by left]].
  destruct (selectTags_spec cutoff nothing tags) as (r & -> & Hr); [intros d k Hk; cbn in Hk; by rewrite lookup_empty in Hk |]. cbn [mbind option_bind].
  destruct r as [s | e]; [| eexists; split; [done |]; right; exists tags; split; [done | by left]].
  destruct Hr as (Hc & _ & Hret & Hsel & Htags & Hgen & _). cbn [se_marks se_tags generations nothing app] in *.
  assert (∀ id, id ∈ retained (se_marks s) ↔ live cutoff tags id) as Hlive.
  { intros id. apply retained_live; [done | | done]. intros i Hi. destruct (Hret i Hi) as [Hi' | ?]; [cbn in Hi'; set_solver | done]. }
  eexists. split; [done |]. destruct (entries disk) as [es |] eqn:Ee; [| right; exists tags; split; [done | right; by left]].
  pose proof (selectGenerations_spec s es) as Hs. destruct (selectGenerations _ _ _ s es) as [s' | e].
  - destruct Hs as (Hm & Ht & Hp). exists tags, es. split_and!; [done | done | | by rewrite Ht |].
    + intros tag Htag. destruct (Hsel tag Htag) as (desc & Hd & Hw). exists desc. split; [done |]. intros y Hy. by eapply walked_sound, walked_reaches.
    + intros p. rewrite Hp, Hgen. split; [intros [Hn | (id & ? & ? & Hnr & ->)]; [by apply elem_of_nil in Hn |] | intros (id & ? & ? & -> & Hnl); right].
      * exists id. rewrite <- Hlive. split_and!; done.
      * exists id. rewrite Hlive. split_and!; done.
  - destruct Hs as (id & Hi & Hci & Hnr & Hb). right. exists tags. split; [done |]. right. right. exists es, id. rewrite <- Hlive. split_and!; done.
Qed.
End selecting.

(** ** Sweeps *)

Section claims.
Context (canonical valid_digest : string → bool) (generationPath : string → string) (disk : layout) (succeeds : action → bool).

Lemma failures_none l : failures succeeds l = [] ↔ ∀ a, a ∈ l → succeeds a = true.
Proof.
  unfold failures. split.
  - intros Hn a Ha. destruct (succeeds a) eqn:E; [done |]. assert (a ∈ filter (λ a, succeeds a = false) l) as Hf by (by apply list_elem_of_filter).
    rewrite Hn in Hf. by apply elem_of_nil in Hf.
  - intros Ha. destruct (filter _ l) as [| a k] eqn:E; [done |]. assert (a ∈ filter (λ a, succeeds a = false) l) as [Hf Hin]%list_elem_of_filter by (rewrite E; by left).
    rewrite Ha in Hf; done.
Qed.

(** A generation is removed only after every other write succeeded. *)
Lemma apply_removes s p : RemoveAll p ∈ (apply succeeds s).1 →
  (apply succeeds s).1 = map Untag s.(se_tags) ++ [GC; SaveIndex] ++ map RemoveAll s.(generations) ∧ p ∈ s.(generations) ∧
  ∀ a, a ∈ map Untag s.(se_tags) ++ [GC; SaveIndex] → succeeds a = true.
Proof.
  unfold apply. assert (RemoveAll p ∉ map Untag (se_tags s)) as Hu by (intros (t & ? & _)%list_elem_of_In%in_map_iff; done).
  destruct (failures succeeds (map Untag (se_tags s))) as [| a l] eqn:Ef; [| done]. pose proof (proj1 (failures_none _) Ef) as Hall.
  destruct (succeeds GC) eqn:Eg; cbn [negb fst]; [| intros [? | Hin]%elem_of_app; [done | apply list_elem_of_singleton in Hin; done]].
  destruct (succeeds SaveIndex) eqn:Es; cbn [negb fst]; [| intros [? | Hin]%elem_of_app; [done |]; apply elem_of_cons in Hin as [? | Hin]; [done | apply list_elem_of_singleton in Hin; done]].
  intros Hin. split; [done |]. split.
  - apply elem_of_app in Hin as [? | Hin]; [done |]. cbn in Hin. apply elem_of_cons in Hin as [? | [? | Hin]%elem_of_cons]; [done.. |].
    apply list_elem_of_In, in_map_iff in Hin as (q & [= ->] & Hq). by apply list_elem_of_In.
  - intros a [Ha | Ha]%elem_of_app; [by apply Hall |]. apply elem_of_cons in Ha as [-> | Ha]; [done |]. by apply list_elem_of_singleton in Ha as ->.
Qed.

(** Claim C31: a selection always ends; it fails only over what cannot be read, and otherwise
    every tag was walked whole, the tags retired are those that are too old, and the
    generations to be removed are exactly those no tag that stays reaches. *)
Theorem selectSweep_exact maxAge now : ∃ r, selectSweep canonical valid_digest generationPath disk maxAge now = Some r ∧
  match r with
  | inl s => selection_of canonical valid_digest generationPath disk (cutoff_of maxAge now) s
  | inr _ => selection_fails canonical valid_digest disk (cutoff_of maxAge now)
  end.
Proof. apply selectSweep_spec. Qed.

(** Claim C30: a sweep that removes a generation is no dry run, has untagged every tag that
    reaches it, collected the store and saved its index before, all with success; so no
    failure leaves a tag with a generation it lacks. *)
Theorem Sweep_safe f maxAge now dry_run s writes failed e p :
  Sweep canonical valid_digest generationPath disk succeeds f maxAge now dry_run = Some (s, writes, failed, e) → RemoveAll p ∈ writes →
  dry_run = false ∧ writes = map Untag s.(se_tags) ++ [GC; SaveIndex] ++ map RemoveAll s.(generations) ∧
  (∀ a, a ∈ map Untag s.(se_tags) ++ [GC; SaveIndex] → succeeds a = true) ∧
  ∃ id, p = generationPath id ∧ ∀ tags tag, disk.(Tags) = Some tags → tag ∈ tags → tag_reaches disk tag id → tag ∈ s.(se_tags).
Proof.
  intros Hs Hp. assert (∀ a : action, a ∉ []) as Hno by (intros a; apply not_elem_of_nil).
  unfold Sweep in Hs. destruct (bool_decide (root f = "")); [by injection Hs as _ <- _ _; destruct (Hno _ Hp) |].
  destruct (root_stat f); [| by injection Hs as _ <- _ _; destruct (Hno _ Hp) ..].
  destruct (root_opens f); cbn [negb] in Hs; [| by injection Hs as _ <- _ _; destruct (Hno _ Hp)].
  destruct (store_stat f); [| by injection Hs as _ <- _ _; destruct (Hno _ Hp) ..].
  destruct (if dry_run then Some true else try_lock f) as [[] |]; [| by injection Hs as _ <- _ _; destruct (Hno _ Hp) ..].
  destruct (store_reads f); cbn [negb] in Hs; [| by injection Hs as _ <- _ _; destruct (Hno _ Hp)].
  destruct (selectSweep_spec canonical valid_digest generationPath disk maxAge now) as (r & Hr & Hsel). rewrite Hr in Hs. cbn [mbind option_bind] in Hs.
  destruct r as [s' | e']; [| by injection Hs as _ <- _ _; destruct (Hno _ Hp)].
  destruct dry_run; [by injection Hs as _ <- _ _; destruct (Hno _ Hp) |]. split; [done |].
  destruct (store_opens f); cbn [negb] in Hs; [| by injection Hs as _ <- _ _; destruct (Hno _ Hp)].
  destruct (apply succeeds s') as [ws fs] eqn:Ea. injection Hs as <- <- _ _. pose proof (apply_removes s' p) as Hrm. rewrite Ea in Hrm. cbn [fst] in Hrm.
  destruct (Hrm Hp) as (Hw & Hgen & Hok). split; [done |]. split; [done |].
  destruct Hsel as (tags & es & Ht & He & _ & Htags & Hp'). destruct (proj1 (Hp' p) Hgen) as (id & _ & _ & -> & Hnl). exists id. split; [done |].
  intros tags' tag Ht' Hin Hre. rewrite Ht in Ht'. injection Ht' as <-. rewrite Htags. apply list_elem_of_filter. split; [| done].
  destruct (expired disk _ tag) eqn:Ex; [done |]. destruct Hnl. by exists tag.
Qed.
End claims.

(** ** A store *)

(** Two tags share a generation below one of them; the other tag is old. *)
Definition example_disk : layout := {|
  blobs := {["sha256:a" := mkBlob 100 (Some [mkDescriptor "sha256:g" "gen-1"]); "sha256:b" := mkBlob 5000000000 (Some [mkDescriptor "sha256:h" "gen-2"]);
             "sha256:g" := mkBlob 100 (Some []); "sha256:h" := mkBlob 100 (Some [mkDescriptor "sha256:g" "gen-1"]) ]};
  Tags := Some ["old"; "new"];
  Resolve := λ tag, if bool_decide (tag = "old") then Some (mkDescriptor "sha256:a" "gen-0") else Some (mkDescriptor "sha256:b" "");
  entries := Some [("gen-0", true); ("gen-1", true); ("gen-2", true); ("gen-3", true); ("tmp", false)];
  bytes_of := λ _, Some 10%Z;
|}.

Definition is_canonical (id : string) : bool := bool_decide (id ≠ "tmp").
Definition example_found : found := mkFound "/cache" Present true Present (Some true) true true.
Definition example_path (id : string) : string := "oci/git/" +:+ id.

(** The old tag goes, with its own generation and the one nothing names; what the other tag
    shares with it stays. *)
Example example_sweep :
  (λ r, let '(s, writes, _, _) := r in (writes, s.(Bytes))) <$>
    Sweep is_canonical (λ _, true) example_path example_disk (λ _, true) example_found 1000000000 6000000000 false =
  Some ([Untag "old"; GC; SaveIndex; RemoveAll "oci/git/gen-0"; RemoveAll "oci/git/gen-3"], 20%Z).
Proof. vm_compute. reflexivity. Qed.

(** When the tag cannot be removed nothing else is. *)
Example example_failure :
  (λ r, let '(_, writes, failed, _) := r in (writes, failed)) <$>
    Sweep is_canonical (λ _, true) example_path example_disk (λ a, bool_decide (a ≠ Untag "old")) example_found 1000000000 6000000000 false =
  Some ([Untag "old"], [Untag "old"]).
Proof. vm_compute. reflexivity. Qed.

Example Sweep_safe_witness : ∃ s writes failed e,
  Sweep is_canonical (λ _, true) example_path example_disk (λ _, true) example_found 1000000000 6000000000 false = Some (s, writes, failed, e) ∧
  ∃ id, "oci/git/gen-0" = example_path id ∧ ∀ tags tag, example_disk.(Tags) = Some tags → tag ∈ tags → tag_reaches example_disk tag id → tag ∈ s.(se_tags).
Proof.
  eexists _, _, _, _. split; [vm_compute; reflexivity |].
  eapply (Sweep_safe is_canonical (λ _, true) example_path example_disk (λ _, true) example_found 1000000000 6000000000 false); [vm_compute; reflexivity |].
  do 3 right. left.
Defined.
