(* ===== verification/SourceIgnore.v ===== *)
(** * The ignore policy of a source (pkg/source/sourceignore/matcher.go)

    The ignore files of a tree, gathered by a walk or from a list of their names, make one
    list of patterns in an order that does not depend on how they were found.  Reading
    patterns and matching them is upstream code and a parameter. *)

From Stdlib Require Import Ascii.
From S2P Require Import Prelude GoPath.

(** ** Inputs *)

(** An [fs.FS]: a file has a size, and a content when it can be read; a directory lists its
    entries, when it can, but holds them even then. *)
Inductive entry := File (size : Z) (content : option string) | Folder (lists : bool) (entries : list (string * entry)).

Definition find_entry (name : string) (es : list (string * entry)) : option entry :=
  snd <$> List.find (λ e, bool_decide (e.1 = name)) es.

Fixpoint lookup_parts (e : entry) (ps : list string) : option entry :=
  match ps, e with
  | [], _ => Some e
  | p :: ps, Folder _ es => e ← find_entry p es; lookup_parts e ps
  | _ :: _, File _ _ => None
  end.

(** [fs.ReadFile]: the content, a missing file or another failure. *)
Inductive file_read := Content (data : string) | NotExist | ReadFailure.

Definition ReadFile (input : entry) (name : string) : file_read :=
  match lookup_parts input (Split name) with
  | Some (File _ (Some data)) => Content data
  | Some _ => ReadFailure
  | None => NotExist
  end.

Definition IgnoreFile := ".sourceignore".

Section policy.
(** Upstream's patterns and matchers. *)
Context {P Mat : Type} (ReadPatterns : string → list string → list P) (VCSPatterns : list P).
Context (NewMatcher : list P → Mat) (NewDefaultMatcher : Mat) (UpstreamMatch : Mat → list string → bool → bool).
(** Whether a text is blank, for [strings.TrimSpace]. *)
Context (blank : string → bool).

Record policyFile := mkPolicyFile { Path : string; PolicyData : string }.

(** A [Matcher]; [ends] are the numbers of patterns up to the end of each file. *)
Record Matcher := mkMatcher {
  matcher : Mat; patterns : list P; extra : list P; withDefaults : bool; evidence : list policyFile; ends : list nat;
}.

Inductive policy_error := ReadError (name : string) | ListError (dir : string).

(** The separators of a text are one fewer than its parts. *)
Definition policyDepth (dir : string) : nat := if bool_decide (dir = ".") then 0 else S (length (Split dir) - 1).

Definition comparePolicyFiles (a b : string) : comparison :=
  cmp_or [Nat.compare (policyDepth (Dir a)) (policyDepth (Dir b)); compare (Dir a) (Dir b)].

(** ** Loading *)

(** [readPolicy]: the evidence with the file, if it exists. *)
Definition readPolicy (input : entry) (name : string) (evidence : list policyFile) : list policyFile + policy_error :=
  match ReadFile input name with
  | Content data => inl (evidence ++ [mkPolicyFile name data])
  | NotExist => inl evidence
  | ReadFailure => inr (ReadError name)
  end.

(** [loadPolicy] of the folder at a path. *)
Fixpoint loadPolicy (input : entry) (dir : string) (folder : entry) (evidence : list policyFile) : list policyFile + policy_error :=
  match folder with
  | File _ _ => inr (ListError dir)
  | Folder lists es =>
      if lists then
        let below := fix below (es : list (string * entry)) (evidence : list policyFile) : list policyFile + policy_error :=
          match es with
          | [] => inl evidence
          | (name, e) :: es =>
              match e with
              | File _ _ => below es evidence
              | Folder _ _ =>
                  if bool_decide (name = ".git") then below es evidence
                  else match loadPolicy input (Child dir name) e evidence with inl evidence => below es evidence | inr e => inr e end
              end
          end in
        match find_entry IgnoreFile es with
        | Some _ => match readPolicy input (Child dir IgnoreFile) evidence with inl evidence => below es evidence | inr e => inr e end
        | None => below es evidence
        end
      else
        match readPolicy input (Child dir IgnoreFile) evidence with inl _ => inr (ListError dir) | inr e => inr e end
  end.

(** The reading of the files of a list. *)
Fixpoint readPolicies (input : entry) (names : list string) (evidence : list policyFile) : list policyFile + policy_error :=
  match names with
  | [] => inl evidence
  | name :: names => match readPolicy input name evidence with inl evidence => readPolicies input names evidence | inr e => inr e end
  end.

(** ** Matching *)

Definition buildMatcher (withDefaults : bool) (extra patterns : list P) : Mat :=
  let patterns := patterns ++ extra in
  if withDefaults then match patterns with [] => NewDefaultMatcher | _ => NewMatcher (VCSPatterns ++ patterns) end
  else NewMatcher patterns.

Definition WithExtra (m : Matcher) (text : string) : Matcher :=
  let extra := if blank text then [] else ReadPatterns text [] in
  mkMatcher (buildMatcher m.(withDefaults) extra m.(patterns)) m.(patterns) extra m.(withDefaults) m.(evidence) m.(ends).

Definition domain (file : policyFile) : list string :=
  let dir := Dir file.(Path) in if bool_decide (dir = ".") then [] else Split dir.

Definition file_patterns (file : policyFile) : list P := ReadPatterns file.(PolicyData) (domain file).

(** The loop over the evidence: the patterns, and where those of each file end. *)
Fixpoint gather (patterns : list P) (evidence : list policyFile) : list P * list nat :=
  match evidence with
  | [] => (patterns, [])
  | file :: evidence =>
      let patterns := patterns ++ file_patterns file in
      let '(all, ends) := gather patterns evidence in (all, length patterns :: ends)
  end.

Definition NewFS (input : entry) (files : option (list string)) (extra : string) (withDefaults : bool) : Matcher + policy_error :=
  match (match files with
         | None => loadPolicy input "." input []
         | Some files => readPolicies input (sort_by comparePolicyFiles files) []
         end) with
  | inr e => inr e
  | inl evidence =>
      let evidence := sort_by (λ a b, comparePolicyFiles a.(Path) b.(Path)) evidence in
      let '(patterns, ends) := gather [] evidence in
      inl (WithExtra (mkMatcher NewDefaultMatcher patterns [] withDefaults evidence ends) extra)
  end.

Definition Match (m : Matcher) (rel : string) (isDir : bool) : bool := UpstreamMatch m.(matcher) (Split rel) isDir.

(** The patterns of the files of a list, by where they end. *)
Fixpoint restrict (files : list string) (patterns : list P) (start : nat) (evidence : list policyFile) (ends : list nat) : list P :=
  match evidence, ends with
  | file :: evidence, stop :: ends =>
      (if bool_decide (file.(Path) ∈ files) then take (stop - start) (drop start patterns) else []) ++ restrict files patterns stop evidence ends
  | _, _ => []
  end.

(** [Select]; [None] is a nil list. *)
Definition Select {V} (policy : Matcher) (candidates : gmap string V) (files : option (list string)) : gmap string V :=
  let m := match files with
           | Some files =>
               if existsb (λ file, negb (bool_decide (file.(Path) ∈ files))) policy.(evidence)
               then buildMatcher policy.(withDefaults) policy.(extra) (restrict files policy.(patterns) 0 policy.(evidence) policy.(ends))
               else policy.(matcher)
           | None => policy.(matcher)
           end in
  filter (λ kv, UpstreamMatch m (Split kv.1) false = false) candidates.

(** [PruneDir]. *)
Definition PruneDir (name : string) (scan : bool) : bool :=
  bool_decide (name ≠ ".") && HasPrefix name "." || bool_decide (name = "node_modules") ||
  scan && (bool_decide (name = "templates") || bool_decide (name = "crds")).

End policy.

(** ** Trees of files *)

(** Induction that reaches the entries of a folder. *)
Fixpoint entry_ind' (Q : entry → Prop) (HF : ∀ n c, Q (File n c)) (HD : ∀ lists es, Forall (λ e, Q e.2) es → Q (Folder lists es)) (e : entry) : Q e :=
  match e with
  | File n c => HF n c
  | Folder lists es => HD lists es ((fix go (es : list (string * entry)) : Forall (λ e, Q e.2) es :=
      match es with [] => Forall_nil_2 _ | e :: es => Forall_cons_2 _ e es (entry_ind' Q HF HD e.2) (go es) end) es)
  end.

(** The names in a folder are distinct and valid. *)
Inductive wf_entry : entry → Prop :=
  | wf_file n c : wf_entry (File n c)
  | wf_folder lists es : NoDup es.*1 → parts_ok es.*1 → Forall (λ e, wf_entry e.2) es → wf_entry (Folder lists es).

Section loading.
Context (input : entry).
Implicit Types (ev : list policyFile) (ps qs : list string).

(** An ignore file below a folder. *)
Definition ignore_file ps (f : policyFile) : Prop := ∃ qs, parts_ok qs ∧ f.(Path) = path_of (ps ++ qs ++ [IgnoreFile]) ∧ ReadFile input f.(Path) = Content f.(PolicyData).

Definition found ps ev new : Prop := ∃ more, new = ev ++ more ∧ NoDup (map Path more) ∧ Forall (ignore_file ps) more.

Lemma ignore_ok : parts_ok [IgnoreFile].
Proof. repeat constructor. all: discriminate. Qed.

Lemma readPolicy_found ps ev ev' : parts_ok ps → readPolicy input (Child (path_of ps) IgnoreFile) ev = inl ev' → 
  ev' = ev ∨ ∃ data, ev' = ev ++ [mkPolicyFile (path_of (ps ++ [IgnoreFile])) data] ∧ ReadFile input (path_of (ps ++ [IgnoreFile])) = Content data.
Proof.
  intros Hps. unfold readPolicy. rewrite Child_path_of by done. destruct (ReadFile input _) as [data | |] eqn:E; intros [= <-]; [right; by exists data | by left].
Qed.

(** Files below different entries of a folder differ, and from its own. *)
Lemma below_distinct ps name name' qs qs' : parts_ok ps → parts_ok (name :: qs) → parts_ok (name' :: qs') →
  path_of (ps ++ name :: qs ++ [IgnoreFile]) = path_of (ps ++ name' :: qs' ++ [IgnoreFile]) → name = name'.
Proof.
  intros Hps H1 H2 He. apply path_of_inj in He.
  - apply app_inv_head in He. by injection He.
  - apply parts_ok_app. split; [done |]. apply (parts_ok_app (name :: qs)). split; [done | apply ignore_ok].
  - apply parts_ok_app. split; [done |]. apply (parts_ok_app (name' :: qs')). split; [done | apply ignore_ok].
Qed.

(** What the loop over the folders of a folder finds. *)
Definition found_below ps (names : list string) ev ev' : Prop := ∃ more, ev' = ev ++ more ∧ NoDup (map Path more) ∧
  ∀ f, f ∈ more → ∃ name qs, name ∈ names ∧ parts_ok (name :: qs) ∧ f.(Path) = path_of (ps ++ name :: qs ++ [IgnoreFile]) ∧ ReadFile input f.(Path) = Content f.(PolicyData).

Lemma found_below_nil ps ev : found_below ps [] ev ev.
Proof. exists []. rewrite app_nil_r. split_and!; [done | constructor |]. intros f Hf. by apply elem_of_nil in Hf. Qed.

Lemma found_below_skip ps name names ev ev' : found_below ps names ev ev' → found_below ps (name :: names) ev ev'.
Proof.
  intros (more & -> & Hd & Hf). exists more. split_and!; [done.. |]. intros f Hin. destruct (Hf f Hin) as (n & qs & Hn & ?). exists n, qs.
  split; [by right | done].
Qed.

Lemma found_below_cons ps name names ev ev1 ev2 : parts_ok ps → parts_ok [name] → name ∉ names →
  found (ps ++ [name]) ev ev1 → found_below ps names ev1 ev2 → found_below ps (name :: names) ev ev2.
Proof.
  intros Hps Hname Hnin (l1 & -> & Hd1 & Hf1) (l2 & -> & Hd2 & Hf2). exists (l1 ++ l2). rewrite <- app_assoc. split; [done |].
  assert (∀ f, f ∈ l1 → ∃ qs, parts_ok (name :: qs) ∧ f.(Path) = path_of (ps ++ name :: qs ++ [IgnoreFile]) ∧ ReadFile input f.(Path) = Content f.(PolicyData)) as H1.
  { intros f Hin. destruct (proj1 (Forall_forall _ _) Hf1 f Hin) as (qs & Hq & Hp & Hr). exists qs. rewrite <- app_assoc in Hp. split; [by apply (parts_ok_app [name]) | done]. }
  split.
  - rewrite map_app. apply NoDup_app. split_and!; [done | | done]. intros p Hp1 Hp2.
    apply list_elem_of_In, in_map_iff in Hp1 as (f & <- & Hf%list_elem_of_In). apply list_elem_of_In, in_map_iff in Hp2 as (g & Hg & Hgin%list_elem_of_In).
    destruct (H1 f Hf) as (qs & Hq & Hp & _). destruct (Hf2 g Hgin) as (n & qs' & Hn & Hq' & Hp' & _). apply Hnin. rewrite Hp, Hp' in Hg.
    apply below_distinct in Hg; [by subst | done..].
  - intros f [Hf | Hf]%elem_of_app.
    + destruct (H1 f Hf) as (qs & ?). exists name, qs. split; [by left | done].
    + destruct (Hf2 f Hf) as (n & qs & ? & ?). exists n, qs. split; [by right | done].
Qed.

(** The own file of a folder comes with those below. *)
Lemma found_own ps names ev ev1 ev2 : parts_ok ps →
  (ev1 = ev ∨ ∃ data, ev1 = ev ++ [mkPolicyFile (path_of (ps ++ [IgnoreFile])) data] ∧ ReadFile input (path_of (ps ++ [IgnoreFile])) = Content data) →
  found_below ps names ev1 ev2 → found ps ev ev2.
Proof.
  intros Hps Hown (l & -> & Hd & Hf).
  assert (Forall (ignore_file ps) l) as Hl.
  { apply Forall_forall. intros f Hin. destruct (Hf f Hin) as (n & qs & _ & Hq & Hp & Hr). exists (n :: qs). split_and!; done. }
  destruct Hown as [-> | (data & -> & Hr)]; [by exists l |]. eexists. rewrite <- app_assoc. split; [done |]. split.
  - cbn [map app]. apply NoDup_cons. split; [| done]. intros (f & Hp & Hin%list_elem_of_In)%list_elem_of_In%in_map_iff.
    destruct (Hf f Hin) as (n & qs & _ & Hq & Hp' & _). cbn in Hp. rewrite Hp' in Hp. apply path_of_inj in Hp.
    + apply app_inv_head in Hp. by destruct qs.
    + apply parts_ok_app. split; [done |]. apply (parts_ok_app (n :: qs)). split; [done | apply ignore_ok].
    + apply parts_ok_app. split; [done | apply ignore_ok].
  - constructor; [| done]. exists []. split_and!; [constructor | done | done].
Qed.

Lemma loadPolicy_spec e : ∀ ps ev ev', parts_ok ps → wf_entry e → loadPolicy input (path_of ps) e ev = inl ev' → found ps ev ev'.
Proof.
  induction e as [n c | lists es IH] using entry_ind'; intros ps ev ev' Hps Hwf; [done |]. inversion Hwf as [| ? ? Hnd Hok Hall]; subst.
  cbn [loadPolicy]. destruct lists; [| by destruct (readPolicy input _ _)].
  set (below := fix below (es : list (string * entry)) (evidence : list policyFile) {struct es} : list policyFile + policy_error := _).
  assert (∀ ev ev', below es ev = inl ev' → found_below ps es.*1 ev ev') as Hbelow.
  { clear Hwf. clear ev ev'. induction es as [| [name e] es IHes]; intros ev ev'; cbn [below].
    { intros [= <-]. apply found_below_nil. }
    inversion IH as [| ? ? IHe IHtl]; subst. inversion Hall as [| ? ? Hwe Hwtl]; subst. cbn [fmap list_fmap fst] in Hnd, Hok |- *.
    apply NoDup_cons in Hnd as [Hnin Hnd]. apply (parts_ok_app [name]) in Hok as [Hname Hok].
    specialize (IHes IHtl Hnd Hok Hwtl). destruct e as [n c | lists' es']; [intros Hb; by apply found_below_skip, IHes |].
    case_bool_decide; [intros Hb; by apply found_below_skip, IHes |]. rewrite Child_path_of by done.
    destruct (loadPolicy input (path_of (ps ++ [name])) (Folder lists' es') ev) as [ev1 | er] eqn:E1; [| done]. intros Hb.
    eapply found_below_cons; [done | done | done | | by apply IHes]. eapply IHe; [by apply parts_ok_app | done | done]. }
  destruct (find_entry IgnoreFile es).
  - destruct (readPolicy input (Child (path_of ps) IgnoreFile) ev) as [ev1 | er] eqn:Er; [| done]. intros Hb.
    eapply found_own; [done | by apply readPolicy_found | by apply Hbelow].
  - intros Hb. eapply found_own; [done | by left | by apply Hbelow].
Qed.
End loading.

(** ** The order of the evidence *)

#[local] Instance nat_compare : Compare nat := Nat.compare.

#[local] Instance nat_lawful : LawfulCompare nat.
Proof.
  split; unfold compare, nat_compare.
  - intros a b. apply Nat.compare_eq_iff.
  - intros a b. rewrite Nat.compare_antisym. done.
  - intros a b c. rewrite !Nat.compare_lt_iff. lia.
Qed.

Definition place (name : string) : nat * string := (policyDepth (Dir name), Dir name).

Lemma comparePolicyFiles_place a b : comparePolicyFiles a b = compare (place a) (place b).
Proof. reflexivity. Qed.

Section order.
Context {P Mat : Type} (ReadPatterns : string → list string → list P) (VCSPatterns : list P).
Context (NewMatcher : list P → Mat) (NewDefaultMatcher : Mat) (UpstreamMatch : Mat → list string → bool → bool) (blank : string → bool).
Implicit Types (input : entry) (l k : list policyFile).
Abbreviation New := (NewFS ReadPatterns VCSPatterns NewMatcher NewDefaultMatcher blank).

Definition by_place (a b : policyFile) : comparison := comparePolicyFiles a.(Path) b.(Path).
Definition placed (a b : policyFile) : Prop := cmp_le (place a.(Path)) (place b.(Path)).

#[local] Instance placed_trans : Transitive placed.
Proof. intros a b c. unfold placed. by etrans. Qed.

Lemma placed_sorted l : Sorted placed (sort_by by_place l).
Proof. apply (sort_by_sorted by_place). intros a b. unfold by_place. rewrite !comparePolicyFiles_place. apply compare_gt_flip. Qed.

(** Ignore files are placed by the folder they are in. *)
Lemma place_inj input ps f g : parts_ok ps → ignore_file input ps f → ignore_file input ps g → place f.(Path) = place g.(Path) → f = g.
Proof.
  intros Hps (qs & Hq & Hp & Hr) (qs' & Hq' & Hp' & Hr') He. assert (f.(Path) = g.(Path)) as Hfg.
  { unfold place in He. injection He as _ He. rewrite Hp, Hp', !app_assoc in He.
    assert (∀ qs, parts_ok qs → parts_ok ((ps ++ qs) ++ [IgnoreFile])) as Hok by (intros rs Hrs; apply parts_ok_app; split; [by apply parts_ok_app | apply ignore_ok]).
    rewrite !Dir_path_of in He by (by apply Hok). apply path_of_inj in He; [| apply parts_ok_app; by split | apply parts_ok_app; by split].
    rewrite Hp, Hp', !app_assoc. by rewrite He. }
  rewrite Hfg in Hr. rewrite Hr in Hr'. injection Hr' as Hd. destruct f, g. cbn [Path PolicyData] in Hfg, Hd. by rewrite Hfg, Hd.
Qed.

(** However the files were found, their order is the same. *)
Lemma evidence_unique input l k : l ≡ₚ k → Forall (ignore_file input []) l → sort_by by_place l = sort_by by_place k.
Proof.
  intros Hp Hf. apply (Sorted_unique_strong placed); [| apply placed_sorted..| by rewrite !sort_by_perm].
  intros a b Ha Hb Hab Hba. rewrite sort_by_perm in Ha. rewrite sort_by_perm, <- Hp in Hb.
  eapply (place_inj input []); [constructor | by eapply Forall_forall | by eapply Forall_forall |]. by apply (anti_symm cmp_le).
Qed.

Lemma readPolicies_spec input names ev : (∀ n, n ∈ names → ReadFile input n ≠ ReadFailure) →
  readPolicies input names ev = inl (ev ++ omap (λ n, match ReadFile input n with Content d => Some (mkPolicyFile n d) | _ => None end) names).
Proof.
  revert ev. induction names as [| n names IH]; intros ev Hn; cbn; [by rewrite app_nil_r |]. unfold readPolicy.
  destruct (ReadFile input n) as [d | |] eqn:E; [| | by destruct (Hn n); [left |]].
  - rewrite IH by (intros n' Hn'; apply Hn; by right). by rewrite <- app_assoc.
  - by rewrite IH by (intros n' Hn'; apply Hn; by right).
Qed.

Definition read_file input (n : string) : option policyFile := match ReadFile input n with Content d => Some (mkPolicyFile n d) | _ => None end.

Lemma read_files_nodup input (names : list string) : NoDup names → NoDup (omap (read_file input) names).
Proof.
  induction names as [| n names IH]; intros Hd; [constructor |]. apply NoDup_cons in Hd as [Hn Hd]. cbn.
  destruct (read_file input n) as [f |] eqn:E; [| by apply IH]. apply NoDup_cons. split; [| by apply IH].
  intros (n' & Hn' & Hr)%list_elem_of_omap. apply Hn. unfold read_file in *. destruct (ReadFile input n), (ReadFile input n'); simplify_eq. done.
Qed.

(** A list that names the ignore files of a tree, each once, and otherwise only files that do
    not exist, gives the policy of the walk. *)
Theorem NewFS_list input files extra withDefaults m : wf_entry input → New input None extra withDefaults = inl m →
  NoDup files → (∀ f, f ∈ m.(evidence) → f.(Path) ∈ files) → (∀ n, n ∈ files → ReadFile input n = NotExist ∨ n ∈ map Path m.(evidence)) →
  New input (Some files) extra withDefaults = inl m.
Proof.
  intros Hwf Hm Hnd Hin Hout. unfold NewFS in *.
  destruct (loadPolicy input "." input []) as [ev | er] eqn:El; [| done].
  destruct (loadPolicy_spec input input [] [] ev) as (more & -> & Hdm & Hfm); [constructor | done | done |]. cbn [app] in *.
  change (λ a b : policyFile, comparePolicyFiles (Path a) (Path b)) with by_place in *.
  assert (∀ f, f ∈ more ↔ f ∈ evidence m) as Hev.
  { destruct (gather ReadPatterns [] (sort_by by_place more)) as [pats ends]. injection Hm as <-. cbn. intros f. by rewrite elem_of_sort_by. }
  rewrite readPolicies_spec.
  2:{ intros n Hn. rewrite elem_of_sort_by in Hn. destruct (Hout n Hn) as [-> | Hin']; [done |].
      apply list_elem_of_In, in_map_iff in Hin' as (f & <- & Hf%list_elem_of_In). apply Hev in Hf. destruct (proj1 (Forall_forall _ _) Hfm f Hf) as (_ & _ & _ & Hr). by rewrite Hr. }
  cbn [app]. fold (read_file input).
  assert (omap (read_file input) (sort_by comparePolicyFiles files) ≡ₚ more) as Hp.
  {
    apply NoDup_Permutation; [apply read_files_nodup; by rewrite sort_by_perm | by eapply NoDup_fmap_1 |]. intros f. rewrite list_elem_of_omap. split.
    + intros (n & Hn & Hf). rewrite elem_of_sort_by in Hn. unfold read_file in Hf. destruct (Hout n Hn) as [E | Hin']; [by rewrite E in Hf |].
      apply list_elem_of_In, in_map_iff in Hin' as (g & <- & Hg%list_elem_of_In). apply Hev in Hg. destruct (proj1 (Forall_forall _ _) Hfm g Hg) as (_ & _ & _ & Hr).
      rewrite Hr in Hf. injection Hf as <-. by destruct g.
    + intros Hf. exists (Path f). rewrite elem_of_sort_by. split; [by apply Hin, Hev |]. destruct (proj1 (Forall_forall _ _) Hfm f Hf) as (_ & _ & _ & Hr).
      unfold read_file. rewrite Hr. by destruct f. }
  by rewrite <- (evidence_unique input more _ (symmetry Hp) Hfm).
Qed.

(** *** Restricting a policy *)

Lemma gather_spec ps l : (gather ReadPatterns ps l).1 = ps ++ concat (map (file_patterns ReadPatterns) l).
Proof.
  revert ps. induction l as [| f l IH]; intros ps; cbn; [by rewrite app_nil_r |]. specialize (IH (ps ++ file_patterns ReadPatterns f)).
  destruct (gather ReadPatterns _ l) as [all ends]. cbn in *. by rewrite IH, <- app_assoc.
Qed.

(** Slicing the patterns by where the files end gives those of each file. *)
Lemma restrict_spec files ps l rest : 
  restrict files ((gather ReadPatterns ps l).1 ++ rest) (length ps) l (gather ReadPatterns ps l).2 =
  concat (map (file_patterns ReadPatterns) (filter (λ f, f.(Path) ∈ files) l)).
Proof.
  revert ps. induction l as [| f l IH]; intros ps; cbn [gather]; [done |]. specialize (IH (ps ++ file_patterns ReadPatterns f)).
  pose proof (gather_spec (ps ++ file_patterns ReadPatterns f) l) as Hg.
  destruct (gather ReadPatterns _ l) as [all ends]. cbn [fst snd restrict] in *. rewrite IH, length_app. subst all.
  cbn [filter list_filter]. case_decide as Hf; [rewrite bool_decide_true by done | by rewrite bool_decide_false by done].
  cbn [map concat]. f_equal. rewrite <- !app_assoc, drop_app_length. replace (length ps + length (file_patterns ReadPatterns f) - length ps) with (length (file_patterns ReadPatterns f)) by lia.
  by rewrite take_app_length.
Qed.

(** [Select] under a list of files removes what the policy of those files alone excludes. *)
Theorem Select_restricted {V} input files0 text defaults m (candidates : gmap string V) files : New input files0 text defaults = inl m →
  Select VCSPatterns NewMatcher NewDefaultMatcher UpstreamMatch m candidates (Some files) =
  filter (λ kv, UpstreamMatch (buildMatcher VCSPatterns NewMatcher NewDefaultMatcher defaults (if blank text then [] else ReadPatterns text [])
    (concat (map (file_patterns ReadPatterns) (filter (λ f, f.(Path) ∈ files) m.(evidence))))) (Split kv.1) false = false) candidates.
Proof.
  intros Hm. unfold NewFS in Hm. match type of Hm with match ?x with _ => _ end = _ => destruct x as [ev | er]; [| done] end.
  set (l := sort_by _ ev) in *. pose proof (gather_spec [] l) as Hg. pose proof (restrict_spec files [] l []) as Hr. rewrite app_nil_r in Hr.
  destruct (gather ReadPatterns [] l) as [pats stops]. cbn [fst snd length app] in *. injection Hm as <-. unfold Select, WithExtra. cbn [evidence patterns extra withDefaults ends matcher].
  rewrite Hr. destruct (existsb _ l) eqn:Ex; [done |].
  assert (filter (λ f, Path f ∈ files) l = l) as ->; [| by rewrite Hg].
  apply filter_all, Forall_forall. intros f Hf. destruct (decide (Path f ∈ files)) as [| Hn]; [done |]. exfalso.
  assert (existsb (λ file, negb (bool_decide (Path file ∈ files))) l = true) as Ht; [| congruence].
  apply existsb_exists. exists f. split; [by apply list_elem_of_In |]. by rewrite bool_decide_false.
Qed.

(** *** Parents first *)

Lemma policyDepth_path_of ps : parts_ok ps → policyDepth (path_of ps) = length ps.
Proof.
  intros Hp. unfold policyDepth. case_bool_decide as Hd; [by apply path_of_dot in Hd as -> |].
  destruct ps as [| p ps]; [done |]. rewrite Split_path_of by done. cbn. lia.
Qed.

(** The rules of a folder come before those of the folders below it. *)
Theorem parents_first input files text defaults m ps qs i j f g : New input files text defaults = inl m →
  m.(evidence) !! i = Some f → m.(evidence) !! j = Some g → parts_ok ps → parts_ok qs → qs ≠ [] →
  f.(Path) = path_of (ps ++ [IgnoreFile]) → g.(Path) = path_of (ps ++ qs ++ [IgnoreFile]) → i < j.
Proof.
  intros Hm Hi Hj Hps Hqs Hne Hf Hg. destruct (decide (i < j)) as [| Hij]; [done |]. exfalso.
  unfold NewFS in Hm. match type of Hm with match ?x with _ => _ end = _ => destruct x as [ev | er]; [| done] end.
  change (sort_by _ ev) with (sort_by by_place ev) in *. pose proof (placed_sorted ev) as Hs. set (l := sort_by by_place ev) in *.
  destruct (gather ReadPatterns [] l) as [pats stops]. injection Hm as <-. cbn [evidence WithExtra] in Hi, Hj.
  assert (policyDepth (Dir (Path g)) = length ps + length qs ∧ policyDepth (Dir (Path f)) = length ps) as [Hdg Hdf].
  { rewrite Hf, Hg, app_assoc. rewrite !Dir_path_of by (rewrite !parts_ok_app; pose proof ignore_ok; tauto).
    rewrite !policyDepth_path_of by (rewrite ?parts_ok_app; tauto). by rewrite length_app. }
  assert (0 < length qs) as Hl by (destruct qs; [done | cbn; lia]).
  destruct (decide (i = j)) as [-> | Hn]; [assert (f = g) as -> by congruence; lia |].
  assert (placed g f) as Hpl.
  { apply (Sorted_StronglySorted _) in Hs. eapply (StronglySorted_app_1_elem_of placed (take i l) (drop i l)); [by rewrite take_drop | |].
    - apply list_elem_of_lookup. exists j. rewrite lookup_take_lt; [done | lia].
    - apply list_elem_of_lookup. exists 0. by rewrite lookup_drop, Nat.add_0_r. }
  unfold placed, cmp_le, place in Hpl. rewrite compare_pair in Hpl. unfold compare at 1, nat_compare in Hpl. rewrite Hdg, Hdf in Hpl.
  by rewrite (proj2 (Nat.compare_gt_iff _ _)) in Hpl by lia.
Qed.
End order.

(** ** A tree *)

Definition example_tree : entry := Folder true
  [(".git", Folder true [(".sourceignore", File 4 (Some "hidden"))]); (".sourceignore", File 4 (Some "root"));
   ("apps", Folder true [(".sourceignore", File 4 (Some "apps")); ("web", Folder true [(".sourceignore", File 4 (Some "web"))])]); ("zeta", File 0 None)].

(** The walk and a list in another order give one policy; the tree of Git is not entered. *)
Example example_policy :
  let new files := NewFS (λ data domain, [(data, domain)]) [] (λ ps, ps) [] (λ s, bool_decide (s = "")) example_tree files "" false in
  new None = new (Some ["apps/web/.sourceignore"; "none/.sourceignore"; "apps/.sourceignore"; ".sourceignore"]) ∧
  (match new None with inl m => m.(patterns) | inr _ => [] end) = [("root", []); ("apps", ["apps"]); ("web", ["apps"; "web"])].
Proof. split; vm_compute; reflexivity. Qed.
