(* ===== verification/GitView.v ===== *)
(** * Views of a committed tree (pkg/source/gittree: fs.go, shape.go)

    A view indexes the entries of a commit by their paths, is shaped once for its use and
    read as a file system.  The view of a commit without a checkout and without admitted
    bytes beside it is modelled.  Links are resolved in a [Tree] over the raw view; the
    policy is one of [SourceIgnore].  Names are taken to be UTF-8, and sizes that cannot be
    read are left to [Lstat]. *)

From Stdlib Require Import Ascii.
From S2P Require Import Prelude GoPath Tree SourceIgnore.

(** ** Commits *)

Record tree_entry := mkTreeEntry { te_name : string; te_hash : string; te_mode : Z }.

(** A tree object with the trees below it, unless the storage lacks it. *)
Inductive git_tree := MissingTree | GitTree (entries : list (tree_entry * git_tree)).

(** [filemode.Submodule]. *)
Definition Submodule : Z := 57344.

(** [gitNode]: the type of its mode, and its children by their paths. *)
Record gitNode := mkGitNode { g_name : string; g_hash : string; g_type : ntype; g_children : list string }.

Definition with_g_children (cs : list string) (n : gitNode) : gitNode := mkGitNode n.(g_name) n.(g_hash) n.(g_type) cs.

Inductive view_error := MalformedName (name : string) | MalformedMode (name : string) | MissingObject (prefix : string) | UnreadableLink (name : string)
  | LinkFailure (e : path_error) | NilNode (name : string).

Definition add_child (prefix name : string) (nodes : gmap string gitNode) : gmap string gitNode :=
  alter (λ n, with_g_children (n.(g_children) ++ [name]) n) prefix nodes.

(** The order of entries by [gitEntry.Name]. *)
Definition compare_entries (a b : string) : comparison := compare (Base a) (Base b).

Definition sort_children (n : gitNode) : gitNode := with_g_children (sort_by compare_entries n.(g_children)) n.

(** What [strings.ContainsAny(name, "/\x00")] finds. *)
Fixpoint unsafe_name (s : string) : bool :=
  match s with "" => false | String c s => bool_decide (c = slash) || bool_decide (c = zero) || unsafe_name s end.

Definition malformed_name (name : string) : bool := negb (valid_part name) || unsafe_name name.

Section walk.
(** [filemode.FileMode.ToOSFileMode], by the type it gives. *)
Context (ToOSFileMode : Z → option ntype).
Context (commit : string).

(** [walkCommit]: the nodes, the details of the warnings and the failure, if any. *)
Fixpoint walkCommit (t : git_tree) (prefix : string) (nodes : gmap string gitNode)
    : gmap string gitNode * list (list string) * option view_error :=
  match t with
  | MissingTree => (nodes, [], Some (MissingObject prefix))
  | GitTree es =>
      let '(nodes, warnings, failure) :=
        (fix below (es : list (tree_entry * git_tree)) (nodes : gmap string gitNode) : gmap string gitNode * list (list string) * option view_error :=
           match es with
           | [] => (nodes, [], None)
           | (e, sub) :: es =>
               if malformed_name e.(te_name) then (nodes, [], Some (MalformedName e.(te_name)))
               else
                 let name := Child prefix e.(te_name) in
                 match ToOSFileMode e.(te_mode) with
                 | None => (nodes, [], Some (MalformedMode name))
                 | Some ty =>
                     if (e.(te_mode) =? Submodule)%Z
                     then let '(nodes, warnings, failure) := below es nodes in (nodes, [name; commit] :: warnings, failure)
                     else if bool_decide (ty = TOther) then below es nodes
                     else
                       let nodes := add_child prefix name (<[name := mkGitNode e.(te_name) e.(te_hash) ty []]> nodes) in
                       if bool_decide (ty = TDir) then
                         let '(nodes, nested, failure) := walkCommit sub name nodes in
                         match failure with
                         | Some _ => (nodes, nested, failure)
                         | None => let '(nodes, warnings, failure) := below es nodes in (nodes, nested ++ warnings, failure)
                         end
                       else below es nodes
                 end
           end) es nodes in
      (if failure then nodes else alter sort_children prefix nodes, warnings, failure)
  end.

(** The part of [newTree] that indexes a commit. *)
Definition newTree (t : git_tree) : gmap string gitNode * list (list string) * option view_error :=
  walkCommit t "." {["." := mkGitNode "." "" TDir []]}.
End walk.

(** ** Shaping *)

Inductive ViewMode := Source | RemoteBase | Direct.

#[export] Instance ViewMode_eq_dec : EqDecision ViewMode.
Proof. solve_decision. Defined.

(** [NormalizeSparsePaths]: everything from the first path with a leading dot is trimmed. *)
Fixpoint NormalizeSparsePaths (paths : list string) : list string :=
  match paths with
  | [] => []
  | p :: ps => if HasPrefix p "./" then map (λ p, TrimPrefix p "./") (p :: ps) else p :: NormalizeSparsePaths ps
  end.

(** [list]: the children of each directory from the names of the nodes. *)
Definition list_child (nodes : gmap string gitNode) (name : string) : gmap string gitNode :=
  if bool_decide (name = ".") then nodes else add_child (Dir name) name nodes.

Definition list_nodes (nodes : gmap string gitNode) : gmap string gitNode :=
  sort_children <$> foldl list_child (with_g_children [] <$> nodes) (map_to_list nodes).*1.

Section shape.
Context {P Mat : Type} (UpstreamMatch : Mat → list string → bool → bool).
Context (ReadBlob : string → option string).
Implicit Types (matcher : Matcher (P := P) (Mat := Mat)).

Definition directVisible (ty : ntype) : bool := negb (bool_decide (ty = TLink)).

Definition sourceVisible (sparse : list string) (name : string) (ty : ntype) matcher : bool :=
  negb (bool_decide (ty = TLink)) && (bool_decide (sparse = []) || existsb (HasPrefix name) sparse) && negb (Match UpstreamMatch matcher name false).

(** [visible]: no directory above is pruned. *)
Fixpoint unpruned (fuel : nat) (parent : string) : bool :=
  match fuel with
  | 0 => true
  | S fuel => if bool_decide (parent = ".") then true else if PruneDir (Base parent) false then false else unpruned fuel (Dir parent)
  end.

Definition visible (name : string) : bool := unpruned (length (Split name)) (Dir name).

Definition selectVisible (mode : ViewMode) (sparse : list string) (name : string) (ty : ntype) matcher : bool :=
  match mode with Direct => directVisible ty | Source => sourceVisible sparse name ty matcher | RemoteBase => visible name end.

(** The raw view as the lower of a builder. *)
Definition raw_node (n : gitNode) : node :=
  mkNode n.(g_name) n.(g_type) 0 "" (if bool_decide (n.(g_type) = TLink) then default "" (ReadBlob n.(g_hash)) else "") (map Base n.(g_children)).

Definition raw_view (nodes : gmap string gitNode) : view := [mkLayer (raw_node <$> nodes) ∅].

(** [blobLink] with [ReadLink]'s tests, for a link of a commit. *)
Definition ReadLink (nodes : gmap string gitNode) (name : string) : string + view_error :=
  match nodes !! name with
  | Some n => if bool_decide (n.(g_type) = TLink) then match ReadBlob n.(g_hash) with Some target => inl target | None => inr (UnreadableLink name) end
              else inr (LinkFailure (mkPathError "readlink" name ErrInvalid))
  | None => inr (LinkFailure (mkPathError "readlink" name ErrNotExist))
  end.

(** One link of [resolveLinks]. *)
Definition resolve_link (nodes : gmap string gitNode) (links : Builder + view_error) (name : string) : Builder + view_error :=
  match links, nodes !! name with
  | inl links, Some n =>
      if bool_decide (n.(g_type) = TLink) then
        match ReadLink nodes name with
        | inr e => inr e
        | inl target =>
            match RemoveAll links name with
            | inr e => inr (LinkFailure e)
            | inl links => match AddSymlink links name target with inr e => inr (LinkFailure e) | inl links => inl links end
            end
        end
      else inl links
  | links, _ => links
  end.

Definition resolveLinks (nodes : gmap string gitNode) (names : list string) : Builder + view_error :=
  foldl (resolve_link nodes) (inl (NewBuilder (Some (raw_view nodes)))) names.

(** [resolveSelectedNode]: whether the node stays, with the nodes after it; the builder reads
    the nodes as they are now. *)
Definition resolveSelectedNode (nodes : gmap string gitNode) (name : string) (n : gitNode) (links : layer)
    : (gmap string gitNode * bool) + view_error :=
  if negb (bool_decide (n.(g_type) = TLink)) then inl (nodes, true)
  else
    match Resolve (links :: raw_view nodes) name with
    | inr e => if bool_decide (e.(e_err) = ErrEscape) || bool_decide (e.(e_err) = ErrNotExist) then inl (nodes, false) else inr (LinkFailure e)
    | inl resolved =>
        match nodes !! resolved with
        | None => inr (NilNode resolved)
        | Some target =>
            if bool_decide (target.(g_type) = TFile)
            then inl (<[name := mkGitNode (Base name) target.(g_hash) target.(g_type) []]> nodes, true)
            else inl (nodes, false)
        end
    end.

(** The parents a selected name keeps. *)
Fixpoint keep_parents (fuel : nat) (parent : string) (kept : gset string) : gset string :=
  match fuel with
  | 0 => kept
  | S fuel => if bool_decide (parent = ".") then kept else keep_parents fuel (Dir parent) ({[parent]} ∪ kept)
  end.

Record selected := mkSelected { s_nodes : gmap string gitNode; denied : gset string; kept : gset string }.

(** One name of [selectNodes]. *)
Definition select_node (mode : ViewMode) (sparse : list string) matcher (links : layer) (s : selected + view_error) (name : string) : selected + view_error :=
  match s with
  | inr e => inr e
  | inl s =>
      match s.(s_nodes) !! name with
      | None => inr (NilNode name)
      | Some n =>
          let denied := if bool_decide (n.(g_type) = TLink) && negb (bool_decide (mode = RemoteBase)) then {[name]} ∪ s.(denied) else s.(denied) in
          if bool_decide (n.(g_type) = TDir) || negb (selectVisible mode sparse name n.(g_type) matcher) then inl (mkSelected s.(s_nodes) denied s.(kept))
          else
            match resolveSelectedNode s.(s_nodes) name n links with
            | inr e => inr e
            | inl (nodes, false) => inl (mkSelected nodes denied s.(kept))
            | inl (nodes, true) => inl (mkSelected nodes denied (keep_parents (length (Split name)) name s.(kept)))
            end
      end
  end.

Definition selectNodes (mode : ViewMode) (sparse : list string) matcher (links : layer) (nodes : gmap string gitNode) (names : list string) : selected + view_error :=
  foldl (select_node mode sparse matcher links) (inl (mkSelected nodes ∅ {["."]})) names.

(** A view: its nodes and the links it denies. *)
Record gitView := mkGitView { v_nodes : gmap string gitNode; v_denied : gset string }.

(** [shape]; only a remote base has links. *)
Definition shape (mode : ViewMode) (sparse : list string) matcher (nodes : gmap string gitNode) : gitView + view_error :=
  let names := sort_by compare (map_to_list nodes).*1 in
  let sparse := if bool_decide (mode = Source) then NormalizeSparsePaths sparse else sparse in
  match (if bool_decide (mode = RemoteBase) then match resolveLinks nodes names with inl b => inl b.(top) | inr e => inr e end else inl (mkLayer ∅ ∅)) with
  | inr e => inr e
  | inl links =>
      match selectNodes mode sparse matcher links nodes names with
      | inr e => inr e
      | inl s => inl (mkGitView (list_nodes (filter (λ kn, kn.1 ∈ s.(kept)) s.(s_nodes))) s.(denied))
      end
  end.
End shape.

(** ** Reading *)

Inductive read_cause := FsNotExist | FsInvalid | FsPermission | FsObject | FsClosed | FsEOF.

(** An [fs.PathError], or an error that names no path. *)
Inductive fs_error := PathError (op path : string) (cause : read_cause) | Plain (cause : read_cause).

Section reads.
Context (ObjectSize : string → option Z) (ReadBlob : string → option string).

(** [missingInfo]: a name at or below a denied link is not told to be missing. *)
Fixpoint denied_above (fuel : nat) (denied : gset string) (parent : string) : bool :=
  match fuel with
  | 0 => false
  | S fuel => if bool_decide (parent = ".") then false else if bool_decide (parent ∈ denied) then true else denied_above fuel denied (Dir parent)
  end.

Definition missingInfo (v : gitView) (name : string) : fs_error :=
  PathError "stat" name (if denied_above (length (Split name)) v.(v_denied) name then FsPermission else FsNotExist).

(** [Lstat]: the node and its size; that of a directory is zero. *)
Definition Lstat (v : gitView) (name : string) : (gitNode * Z) + fs_error :=
  if negb (ValidPath name) then inr (PathError "lstat" name FsInvalid)
  else
    match v.(v_nodes) !! name with
    | None => inr (missingInfo v name)
    | Some n =>
        if bool_decide (n.(g_type) = TDir) then inl (n, 0%Z)
        else match ObjectSize n.(g_hash) with Some size => inl (n, size) | None => inr (Plain FsObject) end
    end.

Definition Stat (v : gitView) (name : string) : (gitNode * Z) + fs_error :=
  match Lstat v name with inr (PathError _ path cause) => inr (PathError "stat" path cause) | r => r end.

Definition ReadDir (v : gitView) (name : string) : list string + fs_error :=
  if negb (ValidPath name) then inr (PathError "readdir" name FsInvalid)
  else
    match Lstat v name with
    | inr e => inr e
    | inl (n, _) => if bool_decide (n.(g_type) = TDir) then inl n.(g_children) else inr (PathError "readdir" name FsInvalid)
    end.

(** [gitFile]: what is left to read, for a file, or the entries and the cursor. *)
Record gitFile := mkGitFile { closed : bool; f_info : gitNode; f_reader : option string; f_entries : list string; cursor : nat }.

Definition Open (v : gitView) (name : string) : gitFile + fs_error :=
  if match v.(v_nodes) !! name with Some n => bool_decide (n.(g_type) = TLink) | None => false end
  then inr (PathError "open" name FsNotExist)
  else
    match Lstat v name with
    | inr e => inr e
    | inl (n, _) =>
        if bool_decide (n.(g_type) = TDir) then inl (mkGitFile false n None n.(g_children) 0)
        else match ReadBlob n.(g_hash) with Some data => inl (mkGitFile false n (Some data) [] 0) | None => inr (Plain FsObject) end
    end.

Definition Close (f : gitFile) : gitFile * option read_cause :=
  if f.(closed) then (f, Some FsClosed) else (mkGitFile true f.(f_info) None [] f.(cursor), None).

(** [io.ReadAll] of a file: the rest of its content. *)
Definition ReadAll (f : gitFile) : string + read_cause :=
  if f.(closed) then inr FsClosed else match f.(f_reader) with Some data => inl data | None => inr FsInvalid end.

Definition ReadFile (v : gitView) (name : string) : string + fs_error :=
  match Open v name with
  | inr e => inr e
  | inl f => match ReadAll f with inl data => inl data | inr e => inr (Plain e) end
  end.

(** [gitFile.ReadDir]: some entries from the cursor on, or all that are left. *)
Definition FileReadDir (f : gitFile) (n : Z) : gitFile * (list string + read_cause) :=
  if f.(closed) then (f, inr FsClosed)
  else if negb (bool_decide (f.(f_info).(g_type) = TDir)) then (f, inr FsInvalid)
  else if (0 <? n)%Z && (f.(cursor) =? length f.(f_entries)) then (f, inr FsEOF)
  else
    let stop := if (0 <? n)%Z then length f.(f_entries) `min` (f.(cursor) + Z.to_nat n) else length f.(f_entries) in
    (mkGitFile false f.(f_info) f.(f_reader) f.(f_entries) stop, inl (take (stop - f.(cursor)) (drop f.(cursor) f.(f_entries)))).
End reads.

(** ** The entries of a commit *)

(** Induction that reaches the trees of a tree. *)
Fixpoint git_tree_ind' (Q : git_tree → Prop) (HM : Q MissingTree) (HT : ∀ es, Forall (λ e, Q e.2) es → Q (GitTree es)) (t : git_tree) : Q t :=
  match t with
  | MissingTree => HM
  | GitTree es => HT es ((fix go (es : list (tree_entry * git_tree)) : Forall (λ e, Q e.2) es :=
      match es with [] => Forall_nil_2 _ | e :: es => Forall_cons_2 _ e es (git_tree_ind' Q HM HT e.2) (go es) end) es)
  end.

(** The names in a tree are distinct. *)
Inductive wf_git : git_tree → Prop :=
  | wf_missing : wf_git MissingTree
  | wf_git_tree es : NoDup (te_name ∘ fst <$> es) → Forall (λ e, wf_git e.2) es → wf_git (GitTree es).

Section commits.
Context (ToOSFileMode : Z → option ntype) (commit : string).
Implicit Types (t : git_tree) (e : tree_entry) (ps qs : list string) (N : gmap string gitNode).

(** The type an entry is indexed under, unless it is left out. *)
Definition entry_type e : option ntype :=
  if (e.(te_mode) =? Submodule)%Z then None else match ToOSFileMode e.(te_mode) with Some TOther => None | o => o end.

Definition find_tree (name : string) (es : list (tree_entry * git_tree)) : option (tree_entry * git_tree) :=
  List.find (λ pe : tree_entry * git_tree, bool_decide (pe.1.(te_name) = name)) es.

(** The entry at a path below a tree, through directories. *)
Fixpoint entry_at t ps : option (tree_entry * ntype) :=
  match ps, t with
  | p :: ps, GitTree es =>
      '(e, sub) ← find_tree p es; ty ← entry_type e;
      match ps with [] => Some (e, ty) | _ => if bool_decide (ty = TDir) then entry_at sub ps else None end
  | _, _ => None
  end.

(** What a node keeps of its entry. *)
Definition sig (n : gitNode) : string * string * ntype := (n.(g_name), n.(g_hash), n.(g_type)).

Lemma sig_children (f : gitNode → gitNode) k N name : (∀ n, sig (f n) = sig n) → sig <$> alter f k N !! name = sig <$> N !! name.
Proof.
  intros Hf. destruct (decide (k = name)) as [<- | Hne]; [| by rewrite lookup_alter_ne].
  rewrite lookup_alter_eq. destruct (N !! k); cbn; [by rewrite Hf | done].
Qed.

Lemma sig_add_child prefix name' N name : sig <$> add_child prefix name' N !! name = sig <$> N !! name.
Proof. by apply sig_children. Qed.

(** The nodes below a path, beside those that were there. *)
Definition indexed ps (x : string * string * ntype) (name : string) t : Prop :=
  ∃ qs e ty, parts_ok qs ∧ qs ≠ [] ∧ name = path_of (ps ++ qs) ∧ entry_at t qs = Some (e, ty) ∧ x = (e.(te_name), e.(te_hash), ty).

Definition vacant ps N : Prop := ∀ qs, parts_ok qs → qs ≠ [] → N !! path_of (ps ++ qs) = None.

Lemma unsafe_name_no_slash s : unsafe_name s = false → no_slash s.
Proof.
  induction s as [| c s IH]; [done |]. cbn. rewrite !orb_false_iff, !bool_decide_eq_false. intros [[? _] ?]. split; [done | by apply IH].
Qed.

Lemma malformed_name_ok name : malformed_name name = false → parts_ok [name].
Proof.
  unfold malformed_name. rewrite orb_false_iff, negb_false_iff. intros [Hv Hu]. constructor; [| constructor]. split; [done | by apply unsafe_name_no_slash].
Qed.

Lemma find_tree_spec name es e sub : NoDup (te_name ∘ fst <$> es) → find_tree name es = Some (e, sub) ↔ (e, sub) ∈ es ∧ e.(te_name) = name.
Proof.
  unfold find_tree. induction es as [| [e' sub'] es IH]; intros Hd; cbn; [split; [done | by intros [?%elem_of_nil _]] |].
  apply NoDup_cons in Hd as [Hk Hd]. rewrite elem_of_cons. case_bool_decide as Hn.
  - split; [intros [= -> ->]; split; [by left | done] |]. intros [[[= -> ->] | Hin] He]; [done |]. destruct Hk. cbn. rewrite Hn, <- He.
    apply list_elem_of_fmap. by exists (e, sub).
  - rewrite IH by done. split; [intros [? ?]; split; [by right | done] |]. intros [[[= -> ->] | ?] ?]; done.
Qed.
End commits.

Section walking.
Context (ToOSFileMode : Z → option ntype) (commit : string).
Implicit Types (t : git_tree) (e : tree_entry) (ps qs : list string) (N : gmap string gitNode).
Abbreviation walks := (walkCommit ToOSFileMode commit).
Abbreviation index := (indexed ToOSFileMode).

(** What one entry adds. *)
Definition entry_adds ps e (sub : git_tree) (x : string * string * ntype) (name : string) : Prop :=
  parts_ok [e.(te_name)] ∧ ∃ ty, entry_type ToOSFileMode e = Some ty ∧
    (name = path_of (ps ++ [e.(te_name)]) ∧ x = (e.(te_name), e.(te_hash), ty) ∨ ty = TDir ∧ index (ps ++ [e.(te_name)]) x name sub).

Lemma indexed_tree ps x name es : NoDup (te_name ∘ fst <$> es) →
  index ps x name (GitTree es) ↔ ∃ e sub, (e, sub) ∈ es ∧ entry_adds ps e sub x name.
Proof.
  intros Hd. split.
  - intros (qs & e & ty & Hq & Hne & -> & He & ->). destruct qs as [| q qs]; [done |]. cbn [entry_at] in He.
    destruct (find_tree q es) as [[e0 sub] |] eqn:Ef; [| done]. cbn [mbind option_bind] in He.
    destruct (entry_type ToOSFileMode e0) as [ty0 |] eqn:Et; [| done]. cbn [mbind option_bind] in He.
    apply find_tree_spec in Ef as [Hin <-]; [| done]. apply (parts_ok_app [_]) in Hq as [Hq1 Hq]. exists e0, sub. split; [done |]. split; [done |]. exists ty0. split; [done |].
    destruct qs as [| q qs]; [injection He as <- <-; by left |]. right.
    destruct (bool_decide_reflect (ty0 = TDir)) as [-> | Hn]; [| done]. split; [done |]. exists (q :: qs), e, ty. split_and!; [done | done | by rewrite <- app_assoc | done | done].
  - intros (e & sub & Hin & Hp & ty & Ht & Hc). assert (find_tree e.(te_name) es = Some (e, sub)) as Hf by by apply find_tree_spec.
    destruct Hc as [[-> ->] | [-> (qs & e' & ty' & Hq & Hne & -> & He & ->)]].
    + exists [e.(te_name)], e, ty. split_and!; [done | done | done | | done]. cbn [entry_at]. by rewrite Hf; cbn; rewrite Ht.
    + exists (e.(te_name) :: qs), e', ty'. split_and!; [by apply (parts_ok_app [_]) | done | by rewrite <- app_assoc | | done].
      cbn [entry_at]. rewrite Hf. cbn. rewrite Ht. cbn. by destruct qs.
Qed.

Lemma indexed_below ps x name t : index ps x name t → ∃ qs, parts_ok qs ∧ qs ≠ [] ∧ name = path_of (ps ++ qs).
Proof. intros (qs & _ & _ & ? & ? & ? & _). eauto. Qed.

(** The places below the entries of a list. *)
Definition free_below ps (es : list (tree_entry * git_tree)) N : Prop :=
  ∀ e sub qs, (e, sub) ∈ es → parts_ok [e.(te_name)] → parts_ok qs → N !! path_of (ps ++ e.(te_name) :: qs) = None.

Lemma sig_None N name : N !! name = None ↔ ∀ x, sig <$> N !! name ≠ Some x.
Proof. destruct (N !! name); cbn; split; [done | intros H; by destruct (H (sig g)) | intros _ x; done | done]. Qed.

Lemma adds_below ps e sub x name : entry_adds ps e sub x name → ∃ qs, parts_ok qs ∧ name = path_of (ps ++ e.(te_name) :: qs).
Proof.
  intros (Hp & ty & _ & [[-> _] | [_ (qs & Hq & _ & ->)%indexed_below]]); [exists []; by split; [constructor |] | exists qs; split; [done | by rewrite <- app_assoc]].
Qed.

Lemma free_step ps e sub es N N' : parts_ok ps → (∀ e' sub', (e', sub') ∈ es → parts_ok [e.(te_name)] → e'.(te_name) ≠ e.(te_name)) → free_below ps ((e, sub) :: es) N →
  (∀ name x, sig <$> N' !! name = Some x ↔ sig <$> N !! name = Some x ∨ entry_adds ps e sub x name) → free_below ps es N'.
Proof.
  intros Hps Hne Hf HN e' sub' qs Hin Hp Hq. apply sig_None. intros x Hx. apply HN in Hx as [Hx | Hx].
  - rewrite (Hf e' sub' qs) in Hx by (done || by right). done.
  - pose proof (proj1 Hx) as Hpe. apply adds_below in Hx as (rs & Hr & He). apply path_of_inj in He; [| by rewrite parts_ok_app; split; [| by apply (parts_ok_app [_])]..].
    apply app_inv_head in He. injection He as He _. by apply (Hne _ _ Hin Hpe).
Qed.

Lemma walkCommit_spec t : ∀ ps N N' ws, parts_ok ps → wf_git t → vacant ps N → walks t (path_of ps) N = (N', ws, None) →
  ∀ name x, sig <$> N' !! name = Some x ↔ sig <$> N !! name = Some x ∨ index ps x name t.
Proof.
  induction t as [| es IH] using git_tree_ind'; intros ps N N' ws Hps Hwf Hv; cbn [walkCommit]; [done |].
  inversion Hwf as [| ? Hd Hall]; subst.
  set (loop := fix below (es : list (tree_entry * git_tree)) (nodes : gmap string gitNode) {struct es} : gmap string gitNode * list (list string) * option view_error := _).
  assert (∀ es0 N N' ws, NoDup (te_name ∘ fst <$> es0) → Forall (λ pe, wf_git pe.2) es0 →
    Forall (λ pe, ∀ ps N N' ws, parts_ok ps → wf_git pe.2 → vacant ps N → walks pe.2 (path_of ps) N = (N', ws, None) →
      ∀ name x, sig <$> N' !! name = Some x ↔ sig <$> N !! name = Some x ∨ index ps x name pe.2) es0 →
    free_below ps es0 N → loop es0 N = (N', ws, None) →
    ∀ name x, sig <$> N' !! name = Some x ↔ sig <$> N !! name = Some x ∨ ∃ e sub, (e, sub) ∈ es0 ∧ entry_adds ps e sub x name) as Hloop.
  { clear es IH N N' ws Hwf Hv Hd Hall. induction es0 as [| [e sub] es IH]; intros N N' ws Hd Hall HI Hf; cbn [loop].
    { intros [= <- <-] name x. split; [by left |]. intros [? | (? & ? & ?%elem_of_nil & _)]; done. }
    cbn [fmap list_fmap] in Hd. apply NoDup_cons in Hd as [Hk Hd]. inversion Hall as [| ? ? Hw Hall']; subst. inversion HI as [| ? ? HIe HI']; subst. cbn [snd] in *.
    destruct (malformed_name (te_name e)) eqn:Em; [done |]. pose proof (malformed_name_ok _ Em) as Hp.
    assert (∀ e' sub', (e', sub') ∈ es → parts_ok [e.(te_name)] → e'.(te_name) ≠ e.(te_name)) as Hne.
    { intros e' sub' Hin _ He. apply Hk. cbn. rewrite <- He. apply list_elem_of_fmap. by exists (e', sub'). }
    assert (∀ N1 N' ws, (∀ name x, sig <$> N1 !! name = Some x ↔ sig <$> N !! name = Some x ∨ entry_adds ps e sub x name) → loop es N1 = (N', ws, None) →
      ∀ name x, sig <$> N' !! name = Some x ↔ sig <$> N !! name = Some x ∨ ∃ e0 sub0, (e0, sub0) ∈ (e, sub) :: es ∧ entry_adds ps e0 sub0 x name) as Hrest.
    { intros N1 N2 ws2 HN Hl name x. rewrite (IH N1 N2 ws2) by (done || by eapply free_step). rewrite HN. split.
      - intros [[? | ?] | (e0 & sub0 & ? & ?)]; [by left | right; exists e, sub; split; [by left | done] | right; exists e0, sub0; split; [by right | done]].
      - intros [? | (e0 & sub0 & [[= -> ->] | ?]%elem_of_cons & ?)]; [by left; left | by left; right | right; by exists e0, sub0]. }
    rewrite Child_path_of by done. destruct (ToOSFileMode (te_mode e)) as [ty |] eqn:Et; [| done].
    destruct (Z.eqb_spec (te_mode e) Submodule) as [Hs | Hs].
    { destruct (loop es N) as [[N2 ws2] failure] eqn:El. intros [= <- <- ->]. apply (Hrest N N2 ws2); [| done]. intros name x. split; [by left |].
      intros [? | (_ & ty' & Ht & _)]; [done |]. unfold entry_type in Ht. by rewrite (proj2 (Z.eqb_eq _ _) Hs) in Ht. }
    assert (entry_type ToOSFileMode e = match ty with TOther => None | _ => Some ty end) as Het.
    { unfold entry_type. rewrite (proj2 (Z.eqb_neq _ _) Hs), Et. by destruct ty. }
    destruct (bool_decide_reflect (ty = TOther)) as [-> | Ho].
    { intros El. apply (Hrest N N' ws); [| done]. intros name x. split; [by left |]. intros [? | (_ & ty' & Ht & _)]; [done |]. by rewrite Het in Ht. }
    assert (entry_type ToOSFileMode e = Some ty) as Het' by (rewrite Het; by destruct ty).
    set (N1 := add_child (path_of ps) (path_of (ps ++ [te_name e])) (<[path_of (ps ++ [te_name e]) := mkGitNode (te_name e) (te_hash e) ty []]> N)).
    assert (N !! path_of (ps ++ [te_name e]) = None) as Hfree by (apply (Hf e sub []); [by left | done | constructor]).
    assert (∀ name x, sig <$> N1 !! name = Some x ↔ sig <$> N !! name = Some x ∨ name = path_of (ps ++ [te_name e]) ∧ x = (te_name e, te_hash e, ty)) as HN1.
    { intros name x. unfold N1. rewrite sig_add_child. destruct (decide (name = path_of (ps ++ [te_name e]))) as [-> | Hn].
      - rewrite lookup_insert_eq, Hfree. cbn. split; [intros [= <-]; by right | intros [? | [_ ->]]; done].
      - rewrite lookup_insert_ne by done. tauto. }
    destruct (bool_decide_reflect (ty = TDir)) as [-> | Hdir].
    - destruct (walks sub (path_of (ps ++ [te_name e])) N1) as [[N2 nested] [failure |]] eqn:Ew; [done |].
      destruct (loop es N2) as [[N3 ws3] failure] eqn:El. intros [= <- <- ->]. apply (Hrest N2 N3 ws3); [| done]. intros name x.
      rewrite (HIe (ps ++ [te_name e]) N1 N2 nested); [| by apply parts_ok_app | done | | done].
      + rewrite HN1. split.
        * intros [[? | [-> ->]] | Hi]; [by left | right; split; [done |]; exists TDir; split; [done | by left] | right; split; [done |]; exists TDir; split; [done | by right]].
        * intros [? | (_ & ty & Ht & [[-> ->] | [-> ?]])]; [by left; left | | by right]. rewrite Het' in Ht. injection Ht as <-. left. by right.
      + intros qs Hq Hqn. apply sig_None. intros y Hx. apply HN1 in Hx as [Hx | [He _]].
        * rewrite <- app_assoc in Hx. change ([te_name e] ++ qs) with (te_name e :: qs) in Hx. rewrite (Hf e sub qs) in Hx by (done || by left). done.
        * apply path_of_inj in He; [| by rewrite !parts_ok_app | by rewrite parts_ok_app]. rewrite <- (app_nil_r (ps ++ _)) in He at 2. by apply app_inv_head in He.
    - intros El. apply (Hrest N1 N' ws); [| done]. intros name x. rewrite HN1. split.
      + intros [? | [-> ->]]; [by left | right]. split; [done |]. exists ty. split; [done | by left].
      + intros [? | (_ & ty' & Ht & [[-> ->] | [-> ?]])]; [by left | |]; rewrite Het' in Ht; [injection Ht as <-; by right | congruence]. }
  destruct (loop es N) as [[N1 ws1] [failure |]] eqn:El; [done |]. intros [= <- <-] name x. rewrite sig_children by done.
  rewrite (Hloop es N N1 ws1), indexed_tree by (done || (intros e sub qs _ Hp Hq; apply Hv; [by apply (parts_ok_app [_]) | done])). done.
Qed.

(** The shape of an index: canonical paths below a root directory, under directories. *)
Record wf_nodes N : Prop := mkWfNodes {
  wn_root : ∃ n, N !! "." = Some n ∧ n.(g_type) = TDir;
  wn_name : ∀ name, is_Some (N !! name) → ∃ ps, parts_ok ps ∧ name = path_of ps;
  wn_parent : ∀ ps p, parts_ok (ps ++ [p]) → is_Some (N !! path_of (ps ++ [p])) → ∃ d, N !! path_of ps = Some d ∧ d.(g_type) = TDir;
  wn_type : ∀ name n, N !! name = Some n → n.(g_type) ≠ TOther;
}.

Lemma entry_type_other e : entry_type ToOSFileMode e ≠ Some TOther.
Proof. unfold entry_type. destruct (_ =? _)%Z; [done |]. by destruct (ToOSFileMode (te_mode e)) as [[] |]. Qed.

Lemma entry_at_type qs : ∀ t e ty, entry_at ToOSFileMode t qs = Some (e, ty) → ty ≠ TOther.
Proof.
  induction qs as [| q qs IH]; intros [| es] e ty; cbn [entry_at]; try done.
  destruct (find_tree q es) as [[e0 sub] |]; [| done]. cbn [mbind option_bind]. destruct (entry_type _ e0) as [ty0 |] eqn:Et; [| done]. cbn [mbind option_bind].
  destruct qs as [| q' qs]; [intros [= <- <-] ->; by apply entry_type_other in Et |]. case_bool_decide; [apply IH | done].
Qed.

Lemma entry_at_parent qs q : ∀ t x, qs ≠ [] → entry_at ToOSFileMode t (qs ++ [q]) = Some x → ∃ e, entry_at ToOSFileMode t qs = Some (e, TDir).
Proof.
  induction qs as [| p qs IH]; intros [| es] x Hne; cbn [entry_at app]; try done.
  destruct (find_tree p es) as [[e0 sub] |]; [| done]. cbn [mbind option_bind]. destruct (entry_type _ e0) as [ty0 |] eqn:Et; [| done]. cbn [mbind option_bind].
  destruct qs as [| p' qs].
  - cbn [app]. case_bool_decide as Hd; [intros _; exists e0; by rewrite Hd | done].
  - cbn [app]. case_bool_decide as Hd; [| done]. intros Hx. by apply (IH sub x).
Qed.

(** A successful walk indexes the entries of the commit, and nothing else. *)
Lemma newTree_spec t N ws : wf_git t → newTree ToOSFileMode commit t = (N, ws, None) →
  ∀ name x, sig <$> N !! name = Some x ↔ name = "." ∧ x = (".", "", TDir) ∨ index [] x name t.
Proof.
  intros Hwf Hw name x. assert (vacant [] {["." := mkGitNode "." "" TDir []]}) as Hv.
  { intros qs Hq Hqn. apply lookup_singleton_ne. intros He. symmetry in He. by apply path_of_dot in He. }
  rewrite (walkCommit_spec t [] _ N ws (Forall_nil_2 _) Hwf Hv Hw name x).
  destruct (decide (name = ".")) as [-> | Hn]; [rewrite lookup_singleton_eq | rewrite lookup_singleton_ne by done]; cbn; [| intuition done].
  split; [intros [[= <-] | ?]; [by left | by right] | intros [[_ ->] | ?]; [by left | by right]].
Qed.

Lemma newTree_wf t N ws : wf_git t → newTree ToOSFileMode commit t = (N, ws, None) → wf_nodes N.
Proof.
  intros Hwf Hw. pose proof (newTree_spec t N ws Hwf Hw) as Hs. split.
  - destruct (N !! ".") as [n |] eqn:En.
    + assert (sig <$> N !! "." = Some (".", "", TDir)) as Hd by (apply Hs; by left). rewrite En in Hd. injection Hd as _ _ Hd. by exists n.
    + assert (sig <$> N !! "." = Some (".", "", TDir)) as Hd by (apply Hs; by left). by rewrite En in Hd.
  - intros name [n Hn]. assert (sig <$> N !! name = Some (sig n)) as [[-> _] | Hi]%Hs by by rewrite Hn.
    + exists []. by split; [constructor |].
    + apply indexed_below in Hi as (qs & ? & _ & ->). by exists qs.
  - intros ps p Hok [n Hn]. assert (sig <$> N !! path_of (ps ++ [p]) = Some (sig n)) as [[He _] | Hi]%Hs by by rewrite Hn.
    + apply path_of_dot in He; [by destruct ps | done].
    + destruct Hi as (qs & e & ty & Hq & Hne & He & Ha & _). apply path_of_inj in He; [cbn [app] in He; subst qs | done..].
      destruct ps as [| p0 ps].
      * assert (sig <$> N !! "." = Some (".", "", TDir)) as Hd by (apply Hs; by left). destruct (N !! ".") as [d |] eqn:Ed; [| done]. injection Hd as _ _ Hd. by exists d.
      * apply entry_at_parent in Ha as (e' & Ha); [| done]. assert (sig <$> N !! path_of (p0 :: ps) = Some (te_name e', te_hash e', TDir)) as Hd.
        { apply Hs. right. exists (p0 :: ps), e', TDir. split_and!; [| done..]. by apply parts_ok_app in Hok as [? _]. }
        destruct (N !! path_of (p0 :: ps)) as [d |] eqn:Ed; [| done]. injection Hd as _ _ Hd. by exists d.
  - intros name n Hn. assert (sig <$> N !! name = Some (sig n)) as [[_ He] | Hi]%Hs by by rewrite Hn.
    + injection He as _ _ ->. done.
    + destruct Hi as (qs & e & ty & _ & _ & _ & Ha & He). injection He as _ _ ->. by eapply entry_at_type.
Qed.
End walking.

(** ** Listings *)

Section listings.
Implicit Types (N M : gmap string gitNode) (names : list string).

Lemma list_children names M name :
  (foldl list_child M names) !! name = (λ n, with_g_children (n.(g_children) ++ filter (λ c, c ≠ "." ∧ Dir c = name) names) n) <$> M !! name.
Proof.
  revert M. induction names as [| c names IH]; intros M; cbn [foldl].
  - destruct (M !! name) as [[] |]; cbn; [by rewrite app_nil_r | done].
  - rewrite IH. unfold list_child. case_bool_decide as Hc.
    + rewrite filter_cons_False by tauto. done.
    + unfold add_child. destruct (decide (Dir c = name)) as [Hd | Hd].
      * rewrite Hd, lookup_alter_eq, filter_cons_True by done. destruct (M !! name) as [n |]; cbn; [| done]. by rewrite <- app_assoc.
      * by rewrite lookup_alter_ne, filter_cons_False by tauto.
Qed.

Lemma list_nodes_lookup N name :
  list_nodes N !! name = (λ n, with_g_children (sort_by compare_entries (filter (λ c, c ≠ "." ∧ Dir c = name) (map_to_list N).*1)) n) <$> N !! name.
Proof. unfold list_nodes. rewrite lookup_fmap, list_children, lookup_fmap. by destruct (N !! name). Qed.

Lemma map_insert_by {A B} (f : A → B) (cmp : B → B → comparison) x (l : list A) :
  map f (insert_by (λ a b, cmp (f a) (f b)) x l) = insert_by cmp (f x) (map f l).
Proof. induction l as [| y l IH]; [done |]. cbn. destruct (cmp (f x) (f y)); cbn; [done | done | by rewrite IH]. Qed.

Lemma map_sort_by {A B} (f : A → B) (cmp : B → B → comparison) (l : list A) : map f (sort_by (λ a b, cmp (f a) (f b)) l) = sort_by cmp (map f l).
Proof. induction l as [| x l IH]; [done |]. cbn [sort_by map]. by rewrite map_insert_by, IH. Qed.

Lemma path_parts ps : parts_ok ps → ps ≠ [] → ∃ qs q, ps = qs ++ [q] ∧ Dir (path_of ps) = path_of qs ∧ Base (path_of ps) = q.
Proof.
  intros Hok Hne. destruct ps as [| q qs _] using rev_ind; [done |]. exists qs, q. split; [done |]. by rewrite Dir_path_of, Base_path_of.
Qed.

Lemma keys_elem {V} (m : gmap string V) name : name ∈ (map_to_list m).*1 ↔ is_Some (m !! name).
Proof.
  split.
  - intros ([k v] & -> & Hkv%elem_of_map_to_list)%list_elem_of_fmap. by eexists.
  - intros [v Hv]. apply list_elem_of_fmap. exists (name, v). by rewrite elem_of_map_to_list.
Qed.

(** The children of a node are the names right below it, in the order of their last parts. *)
Lemma list_nodes_spec N : wf_nodes N → (∀ name, sig <$> list_nodes N !! name = sig <$> N !! name) ∧
  ∀ name n, list_nodes N !! name = Some n →
    (∀ c, c ∈ n.(g_children) ↔ is_Some (N !! c) ∧ c ≠ "." ∧ Dir c = name) ∧ StronglySorted (λ a b, compare a b = Lt) (map Base n.(g_children)).
Proof.
  intros Hwf. split; [intros name; rewrite list_nodes_lookup; by destruct (N !! name) |].
  intros name n. rewrite list_nodes_lookup. destruct (N !! name) as [n0 |]; [| done]. intros [= <-]. cbn [g_children with_g_children]. split.
  - intros c. rewrite elem_of_sort_by, list_elem_of_filter, keys_elem. tauto.
  - unfold compare_entries. rewrite map_sort_by. apply sort_by_strict.
    assert (∀ names, NoDup names → (∀ c, c ∈ names → is_Some (N !! c)) → NoDup (map Base (filter (λ c, c ≠ "." ∧ Dir c = name) names))) as Hn.
    { induction names as [| c names IH]; intros Hd Hk; [constructor |]. apply NoDup_cons in Hd as [Hc Hd].
      specialize (IH Hd ltac:(intros c' Hc'; apply Hk; by right)). destruct (decide (c ≠ "." ∧ Dir c = name)) as [Hf | Hf]; [rewrite filter_cons_True by done | by rewrite filter_cons_False by done].
      cbn. apply NoDup_cons. split; [| done]. intros (c' & He & [[Hn' Hdir'] Hin]%list_elem_of_filter)%list_elem_of_fmap.
      destruct (wn_name _ Hwf c) as (ps & Hps & ->); [apply Hk; by left |]. destruct (wn_name _ Hwf c') as (ps' & Hps' & ->); [apply Hk; by right |].
      destruct Hf as [Hne Hdir]. destruct (path_parts ps) as (qs & q & -> & Hqd & Hqb); [done | by intros -> |]. destruct (path_parts ps') as (qs' & q' & -> & Hqd' & Hqb'); [done | by intros -> |].
      rewrite Hqb, Hqb' in He. rewrite Hqd in Hdir. rewrite Hqd', <- Hdir in Hdir'. apply path_of_inj in Hdir'; [| by apply parts_ok_app in Hps' as [? _] | by apply parts_ok_app in Hps as [? _]].
      subst. done. }
    apply Hn; [apply NoDup_fst_map_to_list | intros c; apply keys_elem].
Qed.
End listings.

(** ** Links *)

(** A view answers by its lookups alone. *)
Lemma resolve_ext l t t' name follow : wf (l :: t) → (∀ p, lookup (l :: t') p = lookup (l :: t) p) → resolve (l :: t') name follow = resolve (l :: t) name follow.
Proof.
  intros Hwf Hl. assert (wf (l :: t')) as Hwf'.
  { destruct Hwf as [Hr Hn Hp]. split; [by rewrite Hl | intros p n; rewrite Hl; apply Hn | intros ps p n; rewrite !Hl; apply Hp]. }
  unfold resolve. rewrite Hl. destruct (_ || _); [done |]. destruct (IsAbs name); [done |]. cbv zeta iota beta.
  do 2 (match goal with |- match ?x with Some _ => _ | None => _ end = _ => destruct x; [done |] end).
  set (fuel := String.length name + maxSymbolicLinkDepth * (target_total (l :: t) + target_total (l :: t') + 1)).
  destruct (resolution_terminates (l :: t) name follow fuel Hwf) as (n & Hn & H1); [unfold fuel, maxSymbolicLinkDepth; lia |].
  destruct (resolution_terminates (l :: t') name follow fuel Hwf') as (n' & Hn' & H2); [unfold fuel, maxSymbolicLinkDepth; lia |].
  rewrite Hl, Hn in Hn'. injection Hn' as <-.
  assert (∀ r, resolution_step (l :: t') follow r = resolution_step (l :: t) follow r) as Hs.
  { intros r. unfold resolution_step, advance, followLink. case_bool_decide; [done |]. destruct (Cut (remaining r)) as [[part rest] found]. by rewrite !Hl. }
  assert (∀ fuel r, loop (resolution_step (l :: t') follow) fuel r = loop (resolution_step (l :: t) follow) fuel r) as Hloop.
  { induction fuel0 as [| f IH]; intros r; cbn [loop]; rewrite Hs; [done |]. destruct (resolution_step (l :: t) follow r); [apply IH | done]. }
  rewrite Hloop, H1 in H2. by injection H2.
Qed.

Lemma put_with_lowers dir b name n b' : (∀ b name b' n, dir b name = inl (b', n) → b'.(lowers) = b.(lowers)) → put_with dir b name n = inl b' → b'.(lowers) = b.(lowers).
Proof.
  intros Hd. unfold put_with. case_bool_decide; [| by intros [= <-]]. destruct (dir b (Dir name)) as [[b1 parent] | e] eqn:E; [| done].
  intros [= <-]. cbn. by eapply Hd.
Qed.

Lemma directory_lowers fuel : ∀ b name b' n, directory fuel b name = inl (b', n) → b'.(lowers) = b.(lowers).
Proof.
  induction fuel as [| fuel IH]; intros b name b' n; cbn [directory].
  - destruct (nodes (top b) !! name) as [m |]; [destruct (IsDir m); [by intros [= <- <-] | done] |].
    destruct (lookup (b_view b) name) as [m |]; [by destruct (IsDir m) | done].
  - destruct (nodes (top b) !! name) as [m |]; [destruct (IsDir m); [by intros [= <- <-] | done] |].
    assert (∀ m, match put_with (directory fuel) b name m with inl b0 => inl (b0, m) | inr e => inr e end = inl (b', n) → lowers b' = lowers b) as Hp.
    { intros m. destruct (put_with (directory fuel) b name m) as [b0 |] eqn:E; [| done]. intros [= <- <-]. by eapply put_with_lowers. }
    destruct (lookup (b_view b) name) as [m |]; [destruct (IsDir m); [apply Hp | done] | apply Hp].
Qed.

Lemma AddSymlink_lowers b name target b' : AddSymlink b name target = inl b' → b'.(lowers) = b.(lowers).
Proof.
  unfold AddSymlink. destruct (normalize _ _ _); [| done]. destruct (_ || _); [done |]. destruct (match lookup _ _ with Some _ => _ | None => _ end); [done |].
  destruct (put b s _) eqn:E; [| done]. intros [= <-]. eapply put_with_lowers; [apply directory_lowers | exact E].
Qed.

Lemma RemoveAll_lowers b name b' : RemoveAll b name = inl b' → b'.(lowers) = b.(lowers).
Proof.
  unfold RemoveAll. destruct (normalize _ _ _); [| done]. case_bool_decide; [by intros [= <-] |].
  destruct (lookup _ _) as [n |]; [| by intros [= <-]]. destruct (negb (IsDir n)); [by intros [= <-] |].
  destruct (directory _ _ _) as [[b1 parent] |] eqn:E; [| done]. intros [= <-]. apply directory_lowers in E. exact E.
Qed.

Section links.
Context (ReadBlob : string → option string) (N : gmap string gitNode) (Hwf : wf_nodes N).
Implicit Types (b : Builder) (M : gmap string gitNode) (ps qs : list string).
Abbreviation raw := (raw_view ReadBlob).

Lemma raw_lookup M name : lookup (raw M) name = raw_node ReadBlob <$> M !! name.
Proof. unfold raw_view. cbn. rewrite lookup_fmap. by destruct (M !! name). Qed.

Lemma raw_wf : wf (raw N).
Proof.
  destruct Hwf as [(n & Hn & Hd) Hname Hparent _]. split.
  - exists (raw_node ReadBlob n). rewrite raw_lookup, Hn. split; [done |]. unfold IsDir. cbn. by rewrite Hd.
  - intros name m. rewrite raw_lookup. intros (k & Hk & _)%fmap_Some. apply Hname. by exists k.
  - intros ps p m Hok. rewrite !raw_lookup. intros (k & Hk & _)%fmap_Some. destruct (Hparent ps p Hok) as (d & Hd' & Hdir); [by exists k |].
    exists (raw_node ReadBlob d). rewrite Hd'. split; [done |]. unfold IsDir. cbn. by rewrite Hdir.
Qed.

Lemma wn_ancestor ps rest : rest ≠ [] → parts_ok (ps ++ rest) → is_Some (N !! path_of (ps ++ rest)) → ∃ d, N !! path_of ps = Some d ∧ d.(g_type) = TDir.
Proof.
  induction rest as [| p rest IH] using rev_ind; intros Hne Hok Hs; [done |]. rewrite app_assoc in Hok, Hs.
  destruct (wn_parent _ Hwf _ _ Hok Hs) as (d & Hd & Hdir). destruct rest as [| q rest]; [rewrite app_nil_r in Hd; eauto |].
  apply parts_ok_app in Hok as [Hok _]. apply IH; [done | done | by exists d].
Qed.

Definition is_link_at (name : string) : Prop := ∃ n, N !! name = Some n ∧ n.(g_type) = TLink.

(** Nothing of the index is below a link. *)
Lemma link_prefix ps qs : parts_ok qs → is_link_at (path_of ps) → is_Some (N !! path_of qs) → ps `prefix_of` qs → qs = ps.
Proof.
  intros Hok (n & Hn & Hl) Hs [rest ->]. destruct rest as [| p rest]; [by rewrite app_nil_r |].
  destruct (wn_ancestor ps (p :: rest)) as (d & Hd & Hdir); [done.. |]. rewrite Hn in Hd. injection Hd as <-. congruence.
Qed.

Definition link_node (l target : string) : node := mkNode (Base l) TLink symbolicLinkMode "" target [].

(** The builder after some of the links: its view has the types of the index, and the links are its own. *)
Record links_inv b (done : list string) : Prop := mkLinksInv {
  li_bwf : bwf b;
  li_lowers : b.(lowers) = raw N;
  li_types : ∀ ps n, parts_ok ps → lookup (b_view b) (path_of ps) = Some n → ∃ m, N !! path_of ps = Some m ∧ n.(n_type) = m.(g_type);
  li_dirs : ∀ ps m, parts_ok ps → N !! path_of ps = Some m → m.(g_type) = TDir → ∃ n, lookup (b_view b) (path_of ps) = Some n ∧ IsDir n = true;
  li_links : ∀ l, l ∈ done → is_link_at l → ∃ target, lookup (b_view b) l = Some (link_node l target);
}.

Lemma IsDir_type n : IsDir n = true ↔ n.(n_type) = TDir.
Proof. apply bool_decide_eq_true. Qed.

Lemma links_step b done l n target b1 b2 : links_inv b done → N !! l = Some n → n.(g_type) = TLink → RemoveAll b l = inl b1 → AddSymlink b1 l target = inl b2 →
  links_inv b2 (l :: done).
Proof.
  intros [Hb Hlow Ht Hd Hk] Hn Hlink Hr Ha. assert (is_link_at l) as Hl by by exists n.
  destruct (wn_name _ Hwf l ltac:(by exists n)) as (ps & Hps & ->).
  pose proof (RemoveAll_inv _ _ _ Hb Hr) as (Hb1 & ps1 & Hps1 & He & Hunder & Hother & Habove). rewrite Clean_path_of in He by done.
  apply path_of_inj in He; [| done..]. subst ps1.
  pose proof (AddSymlink_inv _ _ _ _ Hb1 Ha) as (Hb2 & Hself & ps2 & Hps2 & He & Hdirs & Hrest). rewrite Clean_path_of in He, Hself by done.
  apply path_of_inj in He; [| done..]. subst ps2.
  assert (∀ qs, qs `prefix_of` ps → qs ≠ ps → ∃ d, N !! path_of qs = Some d ∧ d.(g_type) = TDir) as Hanc.
  { intros qs [rest ->] Hne. apply (wn_ancestor qs rest); [by intros ->; rewrite app_nil_r in Hne | done | by exists n]. }
  assert (ps ≠ []) as Hne. { intros ->. destruct (wn_root _ Hwf) as (d & Hd0 & Hdir). cbn [path_of] in Hn. congruence. }
  assert (∀ qs, parts_ok qs → ¬ qs `prefix_of` ps → is_Some (N !! path_of qs) → lookup (b_view b2) (path_of qs) = lookup (b_view b) (path_of qs)) as Hsame.
  { intros qs Hq Hnp Hs. rewrite Hrest by done. apply Hother; [done | | done]. intros Hp. apply Hnp. by rewrite (link_prefix ps qs Hq Hl Hs Hp). }
  split.
  - done.
  - by rewrite (AddSymlink_lowers _ _ _ _ Ha), (RemoveAll_lowers _ _ _ Hr).
  - intros qs m Hq Hm. destruct (decide (qs = ps)) as [-> | Hqp].
    { rewrite Hself in Hm. injection Hm as <-. by exists n. }
    destruct (decide (qs `prefix_of` ps)) as [Hp | Hp].
    { destruct (Hdirs qs Hp Hqp) as (d & Hd1 & Hd2). rewrite Hm in Hd1. injection Hd1 as <-. destruct (Hanc qs Hp Hqp) as (d & Hd3 & Hd4). exists d. split; [done |]. by rewrite Hd4, (proj1 (IsDir_type m)). }
    rewrite Hrest in Hm by done. destruct (decide (ps `prefix_of` qs)) as [Hpq | Hpq].
    { rewrite Hunder in Hm; [done.. |]. intros ->. by apply prefix_nil_inv in Hpq. }
    rewrite Hother in Hm by done. by apply Ht.
  - intros qs m Hq Hm Hdir. destruct (decide (qs `prefix_of` ps)) as [Hp | Hp].
    { apply Hdirs; [done |]. intros ->. congruence. }
    rewrite Hsame by (done || by exists m). by apply (Hd qs m).
  - intros l Hin Hl'. destruct Hl' as (n' & Hn' & Hlk'). destruct (wn_name _ Hwf l ltac:(by exists n')) as (qs & Hq & ->).
    destruct (decide (qs = ps)) as [-> | Hqp]; [by exists target |]. apply elem_of_cons in Hin as [He | Hin].
    { apply path_of_inj in He; done. }
    rewrite Hsame; [apply Hk; [done | by exists n'] | done | | by exists n']. intros Hp. destruct (Hanc qs Hp Hqp) as (d & Hd3 & Hd4). congruence.
Qed.

Lemma resolveLinks_inv names : ∀ b done b', links_inv b done → (∀ l, l ∈ names → is_Some (N !! l)) → foldl (resolve_link ReadBlob N) (inl b) names = inl b' → links_inv b' (reverse names ++ done).
Proof.
  assert (∀ names e b', foldl (resolve_link ReadBlob N) (inr e) names ≠ inl b') as Herr by (induction names0 as [| l names' IH]; intros e b'; [done | apply IH]).
  induction names as [| l names IH]; intros b done b' Hi Hs; cbn [foldl]; [by intros [= <-] |].
  rewrite reverse_cons, <- app_assoc. cbn [app]. destruct (Hs l ltac:(by left)) as [n Hn]. specialize (IH).
  unfold resolve_link at 2. rewrite Hn. case_bool_decide as Hl.
  - unfold ReadLink. rewrite Hn, bool_decide_true by done. destruct (ReadBlob (g_hash n)) as [target |]; [| by intros ?%Herr].
    destruct (RemoveAll b l) as [b1 |] eqn:Er; [| by intros ?%Herr]. destruct (AddSymlink b1 l target) as [b2 |] eqn:Ea; [| by intros ?%Herr].
    apply IH; [by eapply links_step | intros l' Hl'; apply Hs; by right].
  - apply IH; [| intros l' Hl'; apply Hs; by right]. destruct Hi as [H1 H2 H3 H4 H5]. split; try done. intros l' [-> | ?]%elem_of_cons Hl'; [| by apply H5].
    destruct Hl' as (m & Hm & Hm'). congruence.
Qed.

Lemma links_start : links_inv (NewBuilder (Some (raw N))) [].
Proof.
  pose proof (bwf_NewBuilder_over _ raw_wf) as Hb. assert (∀ name, lookup (b_view (NewBuilder (Some (raw N)))) name = raw_node ReadBlob <$> N !! name) as Hl.
  { intros name. rewrite b_lookup. unfold below. cbn [top lowers NewBuilder nodes]. rewrite lookup_empty, raw_lookup.
    assert (∀ fuel p, masked_from ∅ fuel p = false) as Hm; [| unfold masked; cbn [removed]; by rewrite Hm].
    induction fuel as [| fuel IH]; intros p; cbn [masked_from]; rewrite bool_decide_false by apply not_elem_of_empty; [done |]. cbn. case_bool_decide; [done | apply IH]. }
  split; [done | done | | |].
  - intros ps n Hok. rewrite Hl. intros (m & Hm & ->)%fmap_Some. by exists m.
  - intros ps m Hok Hm Hd. exists (raw_node ReadBlob m). rewrite Hl, Hm. split; [done |]. by apply IsDir_type.
  - intros l Hin. by apply elem_of_nil in Hin.
Qed.

(** Writing over links leaves what the builder reads. *)
Lemma links_ext b names M name follow : links_inv b names → (∀ l, is_link_at l → l ∈ names) → (∀ p, M !! p = N !! p ∨ is_link_at p) →
  resolve (b.(top) :: raw M) name follow = resolve (b_view b) name follow.
Proof.
  intros [Hb Hlow Ht Hd Hk] Hall HM. unfold b_view. rewrite Hlow. apply resolve_ext.
  - rewrite <- Hlow. by apply bwf_wf.
  - intros p. destruct (HM p) as [He | Hl].
    + cbn [lookup]. destruct (nodes (top b) !! p); [done |]. unfold raw_view. destruct (masked (top b) p); [done |]. fold (raw M) (raw N). by rewrite !raw_lookup, He.
    + destruct (Hk p (Hall p Hl) Hl) as (target & Hp). rewrite b_lookup in Hp. cbn [lookup]. destruct (nodes (top b) !! p); [done |]. exfalso. revert Hp.
      unfold below. destruct (masked _ _); [done |]. rewrite Hlow, raw_lookup. by intros (m & _ & [= _ _ ? _ _])%fmap_Some.
Qed.

(** A link is resolved to an entry of the index that is no link. *)
Lemma links_resolved b names name p : links_inv b names → Resolve (b_view b) name = inl p → ∃ m, N !! p = Some m ∧ m.(g_type) ≠ TLink.
Proof.
  intros Hi. unfold Resolve. destruct (resolve (b_view b) name true) as [[q n] | e] eqn:Er; [| done]. intros [= ->].
  destruct (resolve_found _ _ _ _ _ (bwf_wf _ (li_bwf _ _ Hi)) Er) as (Hl & Hlk & ps & Hok & -> & _).
  destruct (li_types _ _ Hi ps n Hok Hl) as (m & Hm & Hty). exists m. split; [done |]. rewrite <- Hty. specialize (Hlk eq_refl). unfold is_link in Hlk. by apply bool_decide_eq_false in Hlk.
Qed.
End links.

(** ** Shaping *)

Section shaping.
Context {P Mat : Type} (UpstreamMatch : Mat → list string → bool → bool) (ReadBlob : string → option string).
Context (N : gmap string gitNode) (Hwf : wf_nodes N) (mode : ViewMode) (sparse : list string) (m : Matcher (P := P) (Mat := Mat)).
Implicit Types (ps qs : list string) (M : gmap string gitNode) (s : selected).
Abbreviation sees := (selectVisible UpstreamMatch mode sparse).

(** The layer of the links of a remote base. *)
Definition links_of (l : layer) (names : list string) : Prop :=
  mode = RemoteBase → ∃ b, l = b.(top) ∧ b.(lowers) = raw_view ReadBlob N ∧ links_inv ReadBlob N b names.

(** The object a name of the index is shown as, if it is shown as a file. *)
Definition shown (l : layer) (name : string) : option string :=
  n ← N !! name;
  if bool_decide (n.(g_type) = TDir) || negb (sees name n.(g_type) m) then None
  else if bool_decide (n.(g_type) = TLink) then
    match Resolve (l :: raw_view ReadBlob N) name with
    | inl target => t ← N !! target; if bool_decide (t.(g_type) = TFile) then Some t.(g_hash) else None
    | inr _ => None
    end
  else Some n.(g_hash).

(** What is written over a name: a link that is shown becomes a file. *)
Definition aliased (l : layer) (name : string) : option gitNode :=
  match N !! name, shown l name with
  | Some n, Some hash => if bool_decide (n.(g_type) = TLink) then Some (mkGitNode (Base name) hash TFile []) else Some n
  | o, _ => o
  end.

(** The state after the names of a list. *)
Record selecting (l : layer) s (done : list string) : Prop := mkSelecting {
  se_nodes : ∀ name, s.(s_nodes) !! name = if bool_decide (name ∈ done) then aliased l name else N !! name;
  se_denied : ∀ name, name ∈ s.(denied) ↔ name ∈ done ∧ is_link_at N name ∧ mode ≠ RemoteBase;
  se_kept : ∀ ps, parts_ok ps → path_of ps ∈ s.(kept) ↔ ps = [] ∨ ∃ qs, parts_ok qs ∧ path_of qs ∈ done ∧ ps `prefix_of` qs ∧ is_Some (shown l (path_of qs));
}.

Lemma keep_parents_spec ps : ∀ kept qs, parts_ok ps → parts_ok qs → path_of qs ∈ keep_parents (length ps) (path_of ps) kept ↔ path_of qs ∈ kept ∨ qs ≠ [] ∧ qs `prefix_of` ps.
Proof.
  induction ps as [| p ps IH] using rev_ind; intros kept qs Hps Hqs.
  - cbn. split; [by left |]. intros [? | [Hne ->%prefix_nil_inv]]; done.
  - rewrite length_app, Nat.add_comm. cbn [length Nat.add keep_parents]. rewrite bool_decide_false by (intros He; apply path_of_dot in He; [by destruct ps | done]).
    rewrite Dir_path_of by done. apply parts_ok_app in Hps as Hps'. rewrite IH by tauto. rewrite elem_of_union, elem_of_singleton. split.
    + intros [[He | ?] | [? ?]]; [| by left |].
      * apply path_of_inj in He; [subst | done..]. right. split; [by destruct ps | done].
      * right. split; [done |]. etrans; [done | by apply prefix_app_r].
    + intros [? | [Hne Hp]]; [by left; right |]. apply prefix_snoc_inv in Hp as [-> | Hp]; [by left; left | by right].
Qed.

Lemma aliased_link l name : aliased l name = N !! name ∨ is_link_at N name.
Proof.
  unfold aliased. destruct (N !! name) as [n |] eqn:En; [| by left]. destruct (shown l name); [| by left]. case_bool_decide; [right; by exists n | by left].
Qed.

Lemma nodes_over l s done : selecting l s done → ∀ p, s.(s_nodes) !! p = N !! p ∨ is_link_at N p.
Proof. intros Hs p. rewrite (se_nodes _ _ _ Hs). case_bool_decide; [apply aliased_link | by left]. Qed.

(** A selection of a name over the nodes as they are equals that over the index. *)
Lemma resolveSelected_spec l s done names name n : selecting l s done → links_of l names → (∀ k, is_link_at N k → k ∈ names) → N !! name = Some n →
  bool_decide (n.(g_type) = TDir) || negb (sees name n.(g_type) m) = false →
  match resolveSelectedNode ReadBlob s.(s_nodes) name n l with
  | inl (M, b) => b = bool_decide (is_Some (shown l name)) ∧
      M = (if bool_decide (n.(g_type) = TLink) then match shown l name with Some hash => <[name := mkGitNode (Base name) hash TFile []]> s.(s_nodes) | None => s.(s_nodes) end else s.(s_nodes))
  | inr (NilNode _) => False
  | inr _ => True
  end.
Proof.
  intros Hs Hl Hall Hn Hv. unfold resolveSelectedNode, shown. rewrite Hn. cbn [mbind option_bind]. rewrite Hv.
  destruct (bool_decide_reflect (g_type n = TLink)) as [Hlink | Hlink]; cbn [negb]; [| split; [by rewrite bool_decide_true by by eexists | done]].
  assert (mode = RemoteBase) as Hm.
  { apply orb_false_iff in Hv as [_ Hv]. apply negb_false_iff in Hv. unfold selectVisible, directVisible, sourceVisible in Hv. destruct mode; [| done |]; by rewrite Hlink, bool_decide_true in Hv. }
  destruct (Hl Hm) as (b & -> & Hlow & Hi).
  assert (Resolve (top b :: raw_view ReadBlob s.(s_nodes)) name = Resolve (b_view b) name) as ->.
  { unfold Resolve. by rewrite (links_ext ReadBlob N b names s.(s_nodes) name true Hi Hall (nodes_over _ _ _ Hs)). }
  unfold b_view. rewrite Hlow. destruct (Resolve (top b :: raw_view ReadBlob N) name) as [target | e] eqn:Er.
  2: { destruct (bool_decide (e_err e = ErrEscape) || bool_decide (e_err e = ErrNotExist)); [| done]. by rewrite bool_decide_false by by intros [? ?]. }
  destruct (links_resolved ReadBlob N b names name target Hi) as (t & Ht & Hnl); [unfold b_view; by rewrite Hlow |].
  assert (s.(s_nodes) !! target = Some t) as ->.
  { destruct (nodes_over _ _ _ Hs target) as [-> | (t' & Ht' & Hl')]; [done |]. congruence. }
  rewrite Ht. cbn [mbind option_bind]. destruct (bool_decide_reflect (g_type t = TFile)) as [Hf | Hf].
  - split; [by rewrite bool_decide_true by by eexists | by rewrite Hf].
  - by rewrite bool_decide_false by by intros [? ?].
Qed.

Lemma select_node_spec l s done names name : selecting l s done → links_of l names → (∀ k, is_link_at N k → k ∈ names) → name ∉ done → is_Some (N !! name) →
  match select_node UpstreamMatch ReadBlob mode sparse m l (inl s) name with inl s' => selecting l s' (name :: done) | inr (NilNode _) => False | inr _ => True end.
Proof.
  intros Hs Hl Hall Hnew [n Hn]. destruct (wn_name _ Hwf name ltac:(by exists n)) as (ps0 & Hps0 & Hname). unfold select_node.
  assert (s.(s_nodes) !! name = Some n) as -> by by rewrite (se_nodes _ _ _ Hs), bool_decide_false.
  set (d := if bool_decide (g_type n = TLink) && negb (bool_decide (mode = RemoteBase)) then _ else _).
  assert (∀ x, x ∈ d ↔ x ∈ name :: done ∧ is_link_at N x ∧ mode ≠ RemoteBase) as Hd.
  { intros x. rewrite elem_of_cons. pose proof (se_denied _ _ _ Hs x) as Hx. unfold d.
    destruct (bool_decide_reflect (g_type n = TLink)) as [Hk | Hk], (bool_decide_reflect (mode = RemoteBase)) as [Hm | Hm]; cbn [andb negb]; rewrite ?elem_of_union, ?elem_of_singleton, Hx.
    - tauto.
    - split; [intros [-> | ?]; [split; [by left | split; [by exists n | done]] | tauto] | intros [[-> | ?] ?]; tauto].
    - tauto.
    - split; [tauto |]. intros [[-> | ?] [(n' & Hn' & Hl') ?]]; [congruence | split; [done | split; [by exists n' | done]]]. }
  assert (shown l name = None → ∀ s', s'.(s_nodes) = s.(s_nodes) → s'.(kept) = s.(kept) → s'.(denied) = d → selecting l s' (name :: done)) as Hnone.
  { intros Hsn s' H1 H2 H3. split.
    - intros x. rewrite H1, (se_nodes _ _ _ Hs). destruct (decide (x = name)) as [-> | Hx].
      + rewrite bool_decide_false, bool_decide_true by (done || by left). unfold aliased. by rewrite Hn, Hsn.
      + by rewrite (bool_decide_ext (x ∈ name :: done) (x ∈ done)) by (rewrite elem_of_cons; tauto).
    - intros x. rewrite H3. apply Hd.
    - intros ps Hps. rewrite H2, (se_kept _ _ _ Hs) by done. split; (intros [? | (qs & Hq & Hin & Hp & Hsome)]; [by left | right; exists qs]).
      + split_and!; [done | by right | done | done].
      + apply elem_of_cons in Hin as [He | Hin]; [rewrite He, Hsn in Hsome; by destruct Hsome | done]. }
  destruct (bool_decide (g_type n = TDir) || negb (sees name (g_type n) m)) eqn:Hv.
  { apply Hnone; [| done..]. unfold shown. rewrite Hn. cbn [mbind option_bind]. by rewrite Hv. }
  pose proof (resolveSelected_spec l s done names name n Hs Hl Hall Hn Hv) as Hr.
  destruct (resolveSelectedNode _ _ _ _ _) as [[M b] | e]; [| by destruct e]. destruct Hr as [-> ->].
  destruct (shown l name) as [hash |] eqn:Hsn.
  - rewrite bool_decide_true by by eexists. split; cbn [s_nodes denied kept].
    + intros x. assert (s.(s_nodes) !! name = Some n) as Hsn' by by rewrite (se_nodes _ _ _ Hs), bool_decide_false. destruct (decide (x = name)) as [-> | Hx].
      * rewrite (bool_decide_true (name ∈ name :: done)) by by left. unfold aliased. rewrite Hn, Hsn. destruct (bool_decide (g_type n = TLink)); [by rewrite lookup_insert_eq | done].
      * rewrite (bool_decide_ext (x ∈ name :: done) (x ∈ done)) by (rewrite elem_of_cons; tauto). rewrite <- (se_nodes _ _ _ Hs x). destruct (bool_decide (g_type n = TLink)); [by rewrite lookup_insert_ne | done].
    + apply Hd.
    + intros ps Hps. rewrite Hname. assert (length (Split (path_of ps0)) = length ps0) as ->.
      { destruct ps0; [| by rewrite Split_path_of]. exfalso. destruct (wn_root _ Hwf) as (r & Hr & Hrd). rewrite Hname in Hn. cbn [path_of] in Hn. rewrite Hr in Hn. injection Hn as <-. by rewrite Hrd in Hv. }
      rewrite keep_parents_spec by done. rewrite (se_kept _ _ _ Hs) by done. split.
      * intros [[-> | (qs & Hq & Hin & Hp & Hsome)] | [Hne Hp]]; [by left | right; exists qs; split_and!; [done | by right | done | done] |].
        right. exists ps0. split_and!; [done | by left | done | rewrite <- Hname, Hsn; by eexists].
      * intros [-> | (qs & Hq & Hin & Hp & Hsome)]; [by left; left |]. apply elem_of_cons in Hin as [He | Hin]; [| left; right; by exists qs].
        apply path_of_inj in He; [| done..]. subst qs. destruct (decide (ps = [])) as [-> | Hne]; [by left; left | by right].
  - rewrite bool_decide_false by by intros [? ?]. apply Hnone; [done | | done | done]. cbn. by destruct (bool_decide _).
Qed.
End shaping.

Section shaped.
Context {P Mat : Type} (UpstreamMatch : Mat → list string → bool → bool) (ReadBlob : string → option string).
Context (N : gmap string gitNode) (Hwf : wf_nodes N) (mode : ViewMode) (paths : list string) (m : Matcher (P := P) (Mat := Mat)).
Implicit Types (ps qs : list string) (s : selected) (v : gitView).
Abbreviation show := (shown UpstreamMatch ReadBlob N mode paths m).
Abbreviation chosen := (selecting UpstreamMatch ReadBlob N mode paths m).

Lemma selectNodes_spec l names all : ∀ s past, chosen l s past → links_of ReadBlob N mode l all → (∀ k, is_link_at N k → k ∈ all) → NoDup (names ++ past) → (∀ k, k ∈ names → is_Some (N !! k)) →
  match foldl (select_node UpstreamMatch ReadBlob mode paths m l) (inl s) names with
  | inl s' => chosen l s' (reverse names ++ past)
  | inr (NilNode _) => False
  | inr _ => True
  end.
Proof.
  assert (∀ names e, foldl (select_node UpstreamMatch ReadBlob mode paths m l) (inr e) names = inr e) as Herr by (induction names0 as [| k ks IH]; intros e; [done | apply IH]).
  induction names as [| name names IH]; intros s past Hs Hl Hall Hd Hk; cbn [foldl]; [done |].
  cbn in Hd. apply NoDup_cons in Hd as [Hnew Hd]. rewrite elem_of_app in Hnew.
  pose proof (select_node_spec UpstreamMatch ReadBlob N Hwf mode paths m l s past all name Hs Hl Hall ltac:(tauto) ltac:(apply Hk; by left)) as Hn.
  destruct (select_node _ _ _ _ _ _ (inl s) name) as [s' | e].
  - rewrite reverse_cons, <- app_assoc. apply IH; [done | done | done | | intros k Hin; apply Hk; by right].
    rewrite (Permutation_app_comm names). cbn. apply NoDup_cons. rewrite elem_of_app. split; [tauto |]. by rewrite Permutation_app_comm.
  - by rewrite Herr.
Qed.

(** The nodes that are kept. *)
Definition kept_node (l : layer) name n : Prop := aliased UpstreamMatch ReadBlob N mode paths m l name = Some n ∧
  ∃ ps, parts_ok ps ∧ name = path_of ps ∧ (ps = [] ∨ ∃ qs, parts_ok qs ∧ ps `prefix_of` qs ∧ is_Some (show l (path_of qs))).

Lemma shown_entry l name hash : show l name = Some hash → ∃ n, N !! name = Some n ∧ n.(g_type) ≠ TDir ∧ (n.(g_type) ≠ TLink → n.(g_type) = TFile ∧ n.(g_hash) = hash).
Proof.
  unfold shown. destruct (N !! name) as [n |] eqn:En; [| done]. cbn [mbind option_bind]. intros Hs. exists n. split; [done |].
  destruct (bool_decide_reflect (g_type n = TDir)) as [Hd | Hd]; [done |]. split; [done |]. cbn [orb] in Hs. intros Hl. rewrite (bool_decide_false (g_type n = TLink)) in Hs by done.
  destruct (negb _); [done |]. injection Hs as <-. split; [| done]. pose proof (wn_type _ Hwf _ _ En). by destruct (g_type n).
Qed.

Lemma kept_file l name hash : (∃ n, kept_node l name n ∧ n.(g_type) = TFile ∧ n.(g_hash) = hash) ↔ show l name = Some hash.
Proof.
  split.
  - intros (n & (Ha & ps & Hps & -> & Hkept) & Hty & <-). unfold aliased in Ha. destruct (N !! path_of ps) as [n0 |] eqn:En; [| done].
    destruct (show l (path_of ps)) as [hash |] eqn:Es.
    + destruct (shown_entry _ _ _ Es) as (n1 & Hn1 & _ & Hn2). rewrite En in Hn1. injection Hn1 as <-. case_bool_decide as Hl; injection Ha as <-; [done |]. by rewrite (proj2 (Hn2 Hl)).
    + injection Ha as ->. destruct Hkept as [-> | (qs & Hqs & Hp & [h Hsome])].
      * destruct (wn_root _ Hwf) as (r & Hr & Hd). cbn [path_of] in En. congruence.
      * destruct (decide (qs = ps)) as [-> | Hne]; [congruence |]. destruct Hp as [rest ->]. destruct (shown_entry _ _ _ Hsome) as (n1 & Hn1 & _).
        destruct (wn_ancestor N Hwf ps rest) as (d & Hd & Hdir); [by intros ->; rewrite app_nil_r in Hne | done | by exists n1 |]. congruence.
  - intros Hs. destruct (shown_entry _ _ _ Hs) as (n & Hn & Hd & Hf). destruct (wn_name _ Hwf name ltac:(by exists n)) as (ps & Hps & ->).
    exists (if bool_decide (n.(g_type) = TLink) then mkGitNode (Base (path_of ps)) hash TFile [] else n).
    assert (kept_node l (path_of ps) (if bool_decide (g_type n = TLink) then mkGitNode (Base (path_of ps)) hash TFile [] else n)) as Hk.
    { split; [unfold aliased; rewrite Hn, Hs; by destruct (bool_decide _) |]. exists ps. split; [done |]. split; [done |]. right. exists ps. split_and!; [done | done | by eexists]. }
    split; [done |]. case_bool_decide as Hl; [done |]. by apply Hf.
Qed.

Lemma kept_dir l ps : parts_ok ps →
  (∃ n, kept_node l (path_of ps) n ∧ n.(g_type) = TDir) ↔ ps = [] ∨ ∃ qs, qs ≠ [] ∧ parts_ok (ps ++ qs) ∧ is_Some (show l (path_of (ps ++ qs))).
Proof.
  intros Hps. assert (∀ d, N !! path_of ps = Some d → d.(g_type) = TDir → aliased UpstreamMatch ReadBlob N mode paths m l (path_of ps) = Some d) as Hdir.
  { intros d Hd Ht. unfold aliased. rewrite Hd. destruct (show l (path_of ps)) as [h |] eqn:Es; [| done].
    destruct (shown_entry _ _ _ Es) as (n & Hn & Hnd & _). congruence. }
  split.
  - intros (n & (Ha & ps' & Hps' & He & Hkept) & Hty). apply path_of_inj in He; [subst ps' | done..]. destruct Hkept as [? | (qs & Hqs & [rest ->] & Hsome)]; [by left | right].
    exists rest. split; [| done]. intros ->. rewrite app_nil_r in Hsome. destruct Hsome as [h Hsome]. destruct (proj2 (kept_file l _ h) Hsome) as (n' & (Ha' & _) & Hty' & _). congruence.
  - intros Hc. assert (∃ d, N !! path_of ps = Some d ∧ d.(g_type) = TDir) as (d & Hd & Ht).
    { destruct Hc as [-> | (qs & Hne & Hok & [h Hs])]; [apply (wn_root _ Hwf) |]. destruct (shown_entry _ _ _ Hs) as (n & Hn & _). apply (wn_ancestor N Hwf ps qs); [done | done | by exists n]. }
    exists d. split; [| done]. split; [by apply Hdir |]. exists ps. split; [done |]. split; [done |]. destruct Hc as [? | (qs & Hne & Hok & Hs)]; [by left | right].
    exists (ps ++ qs). split_and!; [done | by apply prefix_app_r | done].
Qed.

Lemma kept_type l name n : kept_node l name n → n.(g_type) = TFile ∨ n.(g_type) = TDir.
Proof.
  intros (Ha & ps & Hps & -> & Hkept). unfold aliased in Ha. destruct (N !! path_of ps) as [n0 |] eqn:En; [| done].
  destruct Hkept as [-> | (qs & Hqs & [rest ->] & Hsome)].
  { destruct (wn_root _ Hwf) as (r & Hr & Hd). cbn [path_of] in *. rewrite Hr in En. injection En as <-. right.
    destruct (show l ".") as [h |] eqn:Es; [| by injection Ha as <-]. destruct (shown_entry _ _ _ Es) as (n' & Hn' & Hnd & _). congruence. }
  destruct (decide (rest = [])) as [-> | Hne].
  - rewrite app_nil_r in Hsome. destruct Hsome as [h Hs]. rewrite Hs in Ha. left. destruct (shown_entry _ _ _ Hs) as (n1 & Hn1 & _ & Hf). rewrite En in Hn1. injection Hn1 as <-.
    case_bool_decide as Hl; injection Ha as <-; [done | by apply Hf].
  - destruct Hsome as [h Hs]. destruct (shown_entry _ _ _ Hs) as (n1 & Hn1 & _). destruct (wn_ancestor N Hwf ps rest) as (d & Hd & Hdir); [done | done | by exists n1 |].
    rewrite En in Hd. injection Hd as <-. right. destruct (show l (path_of ps)) as [h' |] eqn:Es; [| by injection Ha as <-].
    destruct (shown_entry _ _ _ Es) as (n2 & Hn2 & Hnd & _). congruence.
Qed.

Lemma kept_wf l (K : gmap string gitNode) : (∀ name n, K !! name = Some n ↔ kept_node l name n) → wf_nodes K.
Proof.
  intros HK. split.
  - destruct (proj2 (kept_dir l [] ltac:(constructor)) ltac:(by left)) as (n & Hn & Ht). exists n. split; [by apply HK | done].
  - intros name [n Hn]. apply HK in Hn as (_ & ps & Hps & -> & _). by exists ps.
  - intros ps p Hok [n Hn]. apply HK in Hn as (Ha & ps' & Hps' & He & Hkept). apply path_of_inj in He; [subst ps' | done..].
    destruct (proj2 (kept_dir l ps ltac:(by apply parts_ok_app in Hok as [? _]))) as (d & Hd & Hdir); [| exists d; split; [by apply HK | done]].
    right. destruct Hkept as [? | (qs & Hqs & [rest ->] & Hs)]; [by destruct ps |]. rewrite <- app_assoc in Hqs, Hs. by exists ([p] ++ rest).
  - intros name n Hn. apply HK in Hn. apply kept_type in Hn as [-> | ->]; done.
Qed.

Record shaped (l : layer) v : Prop := mkShaped {
  sh_file : ∀ name hash, (∃ n, v.(v_nodes) !! name = Some n ∧ n.(g_type) = TFile ∧ n.(g_hash) = hash) ↔ show l name = Some hash;
  sh_dir : ∀ ps, parts_ok ps → (∃ n, v.(v_nodes) !! path_of ps = Some n ∧ n.(g_type) = TDir) ↔
    ps = [] ∨ ∃ qs, qs ≠ [] ∧ parts_ok (ps ++ qs) ∧ is_Some (show l (path_of (ps ++ qs)));
  sh_node : ∀ name n, v.(v_nodes) !! name = Some n → (∃ ps, parts_ok ps ∧ name = path_of ps) ∧ (n.(g_type) = TFile ∨ n.(g_type) = TDir) ∧
    (∀ c, c ∈ n.(g_children) ↔ is_Some (v.(v_nodes) !! c) ∧ c ≠ "." ∧ Dir c = name) ∧ StronglySorted (λ a b, compare a b = Lt) (map Base n.(g_children));
  sh_denied : ∀ name, name ∈ v.(v_denied) ↔ is_link_at N name ∧ mode ≠ RemoteBase;
}.

(** A shaping never dereferences a missing node, and what it gives is exact. *)
Lemma shape_spec sparse : paths = (if bool_decide (mode = Source) then NormalizeSparsePaths sparse else sparse) → match shape UpstreamMatch ReadBlob mode sparse m N with
  | inl v => ∃ l, shaped l v ∧ (mode = RemoteBase → ∃ b, resolveLinks ReadBlob N (sort_by compare (map_to_list N).*1) = inl b ∧ l :: raw_view ReadBlob N = b_view b ∧
      links_inv ReadBlob N b (reverse (sort_by compare (map_to_list N).*1)))
  | inr (NilNode _) => False
  | inr _ => True
  end.
Proof.
  intros Hpaths. unfold shape. rewrite <- Hpaths. set (names := sort_by compare (map_to_list N).*1).
  assert (∀ k, k ∈ names ↔ is_Some (N !! k)) as Hnames by (intros k; unfold names; by rewrite elem_of_sort_by, keys_elem).
  assert (NoDup names) as Hnd by (unfold names; rewrite sort_by_perm; apply NoDup_fst_map_to_list).
  destruct (if bool_decide (mode = RemoteBase) then _ else _) as [l | e] eqn:El.
  2: { case_bool_decide; [| done]. unfold resolveLinks in El.
    assert (∀ names links e, foldl (resolve_link ReadBlob N) links names = inr e → (∀ x, links ≠ inr (NilNode x)) → ∀ x, e ≠ NilNode x) as Hne.
    { clear. induction names as [| k ks IH]; intros links e; cbn [foldl]; [intros -> Hn x ->; by apply (Hn x) |]. intros Hf Hn. eapply IH; [exact Hf |]. intros x. unfold resolve_link.
      destruct links as [b | e0]; [| intros He; by apply (Hn x)]. destruct (N !! k) as [n |] eqn:En; [| done]. case_bool_decide as Hl; [| done].
      unfold ReadLink. rewrite En, bool_decide_true by done. destruct (ReadBlob (g_hash n)); [| done]. destruct (RemoveAll b k) as [b1 |]; [| done]. by destruct (AddSymlink b1 k s). }
    destruct (foldl _ _ names) as [b | e'] eqn:Ef; [done |]. injection El as ->. specialize (Hne _ _ _ Ef ltac:(done)). destruct e; try done. by destruct (Hne name). }
  assert (mode = RemoteBase → ∃ b, resolveLinks ReadBlob N names = inl b ∧ l :: raw_view ReadBlob N = b_view b ∧ links_inv ReadBlob N b (reverse names)) as Hlinks.
  { intros ->. rewrite bool_decide_true in El by done. destruct (resolveLinks ReadBlob N names) as [b |] eqn:Er; [| done]. injection El as <-. exists b.
    pose proof (resolveLinks_inv ReadBlob N Hwf names _ [] b (links_start ReadBlob N Hwf) ltac:(intros k; apply Hnames) Er) as Hi. rewrite app_nil_r in Hi.
    split; [done |]. split; [| done]. unfold b_view. by rewrite (li_lowers _ _ _ _ Hi). }
  assert (links_of ReadBlob N mode l (reverse names)) as Hl.
  { intros Hm. destruct (Hlinks Hm) as (b & _ & He & Hi). exists b. injection He as -> Hlow. split_and!; [done | by rewrite Hlow | done]. }
  assert (chosen l (mkSelected N ∅ {["."]}) []) as Hstart.
  { split; cbn [s_nodes denied kept].
    - intros name. rewrite bool_decide_false; [done | apply not_elem_of_nil].
    - intros name. rewrite elem_of_empty, elem_of_nil. tauto.
    - intros ps Hps. rewrite elem_of_singleton. split; [intros He; left; by apply path_of_dot | intros [-> | (qs & _ & Hin & _)]; [done | by apply elem_of_nil in Hin]]. }
  pose proof (selectNodes_spec l names (reverse names) (mkSelected N ∅ {["."]}) [] Hstart Hl) as Hs. unfold selectNodes.
  assert (∀ k, is_link_at N k → k ∈ reverse names) as Hall by (intros k (n & Hn & _); apply elem_of_reverse, Hnames; by exists n).
  specialize (Hs Hall ltac:(by rewrite app_nil_r) ltac:(intros k; apply Hnames)). destruct (foldl _ _ names) as [s | e]; [| done].
  rewrite app_nil_r in Hs. exists l. split; [| done].
  assert (∀ name, s.(s_nodes) !! name = aliased UpstreamMatch ReadBlob N mode paths m l name) as Hnodes.
  { intros name. rewrite (se_nodes _ _ _ _ _ _ _ _ _ Hs). destruct (bool_decide_reflect (name ∈ reverse names)) as [Hin | Hin]; [done |]. rewrite elem_of_reverse, Hnames in Hin. apply eq_None_not_Some in Hin. unfold aliased. by rewrite Hin. }
  set (K := filter _ s.(s_nodes)).
  assert (∀ name n, K !! name = Some n ↔ kept_node l name n) as HK.
  { intros name n. unfold K. rewrite map_lookup_filter_Some, Hnodes. cbn [fst]. unfold kept_node. split.
    - intros [Ha Hk]. split; [done |]. assert (is_Some (N !! name)) as Hsome by (unfold aliased in Ha; destruct (N !! name); [by eexists | done]).
      destruct (wn_name _ Hwf name Hsome) as (ps & Hps & ->). exists ps. split; [done |]. split; [done |]. apply (se_kept _ _ _ _ _ _ _ _ _ Hs) in Hk; [| done].
      destruct Hk as [? | (qs & ? & _ & ? & ?)]; [by left | right; by exists qs].
    - intros (Ha & ps & Hps & -> & Hk). split; [done |]. apply (se_kept _ _ _ _ _ _ _ _ _ Hs); [done |]. destruct Hk as [? | (qs & Hq & Hp & Hsh)]; [by left | right].
      exists qs. split_and!; try done. destruct Hsh as [h Hsh]. destruct (shown_entry _ _ _ Hsh) as (n' & Hn' & _). apply elem_of_reverse, Hnames. by exists n'. }
  pose proof (kept_wf l K HK) as HwfK. destruct (list_nodes_spec K HwfK) as [Hsig Hch].
  assert (∀ name n, list_nodes K !! name = Some n → ∃ n0, kept_node l name n0 ∧ sig n = sig n0) as Hfrom.
  { intros name n Hn. pose proof (Hsig name) as Hx. rewrite Hn in Hx. destruct (K !! name) as [n0 |] eqn:Ek; [| done]. injection Hx as H1 H2 H3. exists n0. split; [by apply HK |]. unfold sig. by rewrite H1, H2, H3. }
  assert (∀ name n0, kept_node l name n0 → ∃ n, list_nodes K !! name = Some n ∧ sig n = sig n0) as Hto.
  { intros name n0 Hn0%HK. pose proof (Hsig name) as Hx. rewrite Hn0 in Hx. destruct (list_nodes K !! name) as [n |]; [| done]. injection Hx as H1 H2 H3. exists n. split; [done |]. unfold sig. by rewrite H1, H2, H3. }
  split; cbn [v_nodes v_denied].
  - intros name hash. rewrite <- kept_file. split; intros (n & Hn & Ht & Hh).
    + destruct (Hfrom _ _ Hn) as (n0 & Hn0 & He). injection He as _ He1 He2. exists n0. by rewrite <- He1, <- He2.
    + destruct (Hto _ _ Hn) as (n0 & Hn0 & He). injection He as _ He1 He2. exists n0. by rewrite He1, He2.
  - intros ps Hps. rewrite <- kept_dir by done. split; intros (n & Hn & Ht).
    + destruct (Hfrom _ _ Hn) as (n0 & Hn0 & He). injection He as _ _ He2. exists n0. by rewrite <- He2.
    + destruct (Hto _ _ Hn) as (n0 & Hn0 & He). injection He as _ _ He2. exists n0. by rewrite He2.
  - intros name n Hn. destruct (Hfrom _ _ Hn) as (n0 & Hn0 & He). injection He as _ _ He2. split; [apply (wn_name _ HwfK); exists n0; by apply HK |].
    split; [rewrite He2; by eapply kept_type |]. destruct (Hch _ _ Hn) as [Hc Hsorted]. split; [| done]. intros c. rewrite Hc. split; (intros [[x Hx] ?]; split; [| done]).
    + apply HK in Hx. apply Hto in Hx as (y & -> & _). by eexists.
    + apply Hfrom in Hx as (y & Hy & _). exists y. by apply HK.
  - intros name. rewrite (se_denied _ _ _ _ _ _ _ _ _ Hs), elem_of_reverse, Hnames. split; [tauto |]. intros [Hl' ?]. split; [| done]. destruct Hl' as (n & Hn & _). by exists n.
Qed.
End shaped.

(** ** What a view shows of its commit *)

Lemma TrimPrefix_other p s : HasPrefix p s = false → TrimPrefix p s = p.
Proof. unfold TrimPrefix. by intros ->. Qed.

(** Every sparse path loses one leading dot, whichever is the first with one. *)
Theorem NormalizeSparsePaths_map paths : NormalizeSparsePaths paths = map (λ p, TrimPrefix p "./") paths.
Proof. induction paths as [| p ps IH]; [done |]. cbn [NormalizeSparsePaths]. destruct (HasPrefix p "./") eqn:Hp; [done |]. cbn [map]. by rewrite IH, TrimPrefix_other. Qed.

Section exact.
Context {P Mat : Type} (UpstreamMatch : Mat → list string → bool → bool) (ReadBlob : string → option string) (ObjectSize : string → option Z).
Context (ToOSFileMode : Z → option ntype) (commit : string).
Implicit Types (t : git_tree) (ps qs : list string) (m : Matcher (P := P) (Mat := Mat)) (v : gitView) (N : gmap string gitNode).

(** A file, and a link, of a commit. *)
Definition committed t qs (hash : string) : Prop := ∃ e, entry_at ToOSFileMode t qs = Some (e, TFile) ∧ e.(te_hash) = hash.
Definition committed_link t qs : Prop := ∃ e, entry_at ToOSFileMode t qs = Some (e, TLink).

Definition file_at v (name hash : string) : Prop := ∃ n, v.(v_nodes) !! name = Some n ∧ n.(g_type) = TFile ∧ n.(g_hash) = hash.
Definition dir_at v (name : string) : Prop := ∃ n, v.(v_nodes) !! name = Some n ∧ n.(g_type) = TDir.

Lemma node_entry t N ws qs ty hash : wf_git t → newTree ToOSFileMode commit t = (N, ws, None) → parts_ok qs → ty ≠ TDir →
  (∃ n, N !! path_of qs = Some n ∧ n.(g_type) = ty ∧ n.(g_hash) = hash) ↔ ∃ e, entry_at ToOSFileMode t qs = Some (e, ty) ∧ e.(te_hash) = hash.
Proof.
  intros Hwf Hw Hq Hty. pose proof (newTree_spec ToOSFileMode commit t N ws Hwf Hw (path_of qs)) as Hs. split.
  - intros (n & Hn & <- & <-). destruct (proj1 (Hs (sig n))) as [[He Hx] | Hi]; [by rewrite Hn | |].
    + injection Hx as _ _ Hx. congruence.
    + destruct Hi as (qs' & e & ty & Hq' & Hne & He & Ha & Hx). apply path_of_inj in He; [cbn [app] in He; subst qs' | done..]. injection Hx as _ -> ->. by exists e.
  - intros (e & He & <-). assert (sig <$> N !! path_of qs = Some (te_name e, te_hash e, ty)) as Hn.
    { apply Hs. right. exists qs, e, ty. split_and!; [done | by intros -> | done | done | done]. }
    destruct (N !! path_of qs) as [n |]; [| done]. injection Hn as _ H1 H2. exists n. split; [done | split; [done | done]].
Qed.

Lemma denied_above_spec denied ps : parts_ok ps → denied_above (length ps) denied (path_of ps) = true ↔ ∃ qs, qs `prefix_of` ps ∧ qs ≠ [] ∧ path_of qs ∈ denied.
Proof.
  induction ps as [| p ps IH] using rev_ind; intros Hok.
  { cbn. split; [done |]. intros (qs & ->%prefix_nil_inv & Hne & _). done. }
  rewrite length_app, Nat.add_comm. cbn [length Nat.add denied_above]. rewrite bool_decide_false by (intros He; apply path_of_dot in He; [by destruct ps | done]).
  case_bool_decide as Hin; [split; [| done]; intros _; exists (ps ++ [p]); split_and!; [done | by destruct ps | done] |].
  rewrite Dir_path_of, IH by (done || by apply parts_ok_app in Hok as [? _]). split; intros (qs & Hp & Hne & Hd); exists qs; (split; [| done]).
  - etrans; [exact Hp | by apply prefix_app_r].
  - apply prefix_snoc_inv in Hp as [-> | Hp]; done.
Qed.

Lemma shown_committed t N ws mode paths m l qs hash : wf_git t → newTree ToOSFileMode commit t = (N, ws, None) → parts_ok qs →
  shown UpstreamMatch ReadBlob N mode paths m l (path_of qs) = Some hash ↔
    committed t qs hash ∧ selectVisible UpstreamMatch mode paths (path_of qs) TFile m = true ∨
    mode = RemoteBase ∧ visible (path_of qs) = true ∧ committed_link t qs ∧
      ∃ target n, Resolve (l :: raw_view ReadBlob N) (path_of qs) = inl target ∧ N !! target = Some n ∧ n.(g_type) = TFile ∧ n.(g_hash) = hash.
Proof.
  intros Hwf Hw Hq. pose proof (newTree_wf ToOSFileMode commit t N ws Hwf Hw) as HwfN.
  assert (∀ n, N !! path_of qs = Some n → n.(g_type) = TFile → committed t qs n.(g_hash)) as Hfile.
  { intros n Hn Ht. apply (node_entry t N ws qs TFile n.(g_hash)); try done. by exists n. }
  assert (∀ h, committed t qs h → ∃ n, N !! path_of qs = Some n ∧ n.(g_type) = TFile ∧ n.(g_hash) = h) as Hfile'.
  { intros h Hc. by apply (node_entry t N ws qs TFile h). }
  assert ((∃ n, N !! path_of qs = Some n ∧ n.(g_type) = TLink) ↔ committed_link t qs) as Hlink.
  { unfold committed_link. split.
    - intros (n & Hn & Ht). destruct (proj1 (node_entry t N ws qs TLink n.(g_hash) Hwf Hw Hq ltac:(done)) ltac:(by exists n)) as (e & He & _). by exists e.
    - intros (e & He). destruct (proj2 (node_entry t N ws qs TLink e.(te_hash) Hwf Hw Hq ltac:(done)) ltac:(by exists e)) as (n & Hn & Ht & _). by exists n. }
  unfold shown. destruct (N !! path_of qs) as [n |] eqn:En; cbn [mbind option_bind].
  2: { split; [done |]. intros [[Hc _] | (_ & _ & Hc & _)]; [destruct (Hfile' _ Hc) as (n & Hn & _); congruence | apply Hlink in Hc as (n & Hn & _); congruence]. }
  pose proof (wn_type _ HwfN _ _ En) as Hno. destruct (g_type n) eqn:Et; [| | | done].
  - cbn. split; [done |]. intros [[Hc _] | (_ & _ & Hc & _)]; [destruct (Hfile' _ Hc) as (n' & Hn & Ht & _); congruence | apply Hlink in Hc as (n' & Hn & Ht); congruence].
  - rewrite !bool_decide_false by done. cbn [orb]. destruct (selectVisible _ _ _ _ _ _) eqn:Ev; cbn [negb].
    + split; [intros [= <-]; left; split; [by apply Hfile | done] |]. intros [[Hc _] | (_ & _ & Hc & _)]; [destruct (Hfile' _ Hc) as (n' & Hn & _ & <-); congruence | apply Hlink in Hc as (n' & Hn & Ht); congruence].
    + split; [done |]. intros [[_ ?] | (_ & _ & Hc & _)]; [done | apply Hlink in Hc as (n' & Hn & Ht); congruence].
  - rewrite bool_decide_false, bool_decide_true by done. cbn [orb]. assert (committed_link t qs) as Hc by (apply Hlink; by exists n).
    assert (∀ h, ¬ committed t qs h) as Hnc by (intros h Hh; destruct (Hfile' _ Hh) as (n' & Hn & Ht & _); congruence).
    destruct (selectVisible UpstreamMatch mode paths (path_of qs) TLink m) eqn:Ev; cbn [negb].
    + assert (mode = RemoteBase ∧ visible (path_of qs) = true) as [-> Hv] by (destruct mode; unfold selectVisible, directVisible, sourceVisible in Ev; [by rewrite bool_decide_true in Ev | done | by rewrite bool_decide_true in Ev]).
      destruct (Resolve _ _) as [target | e]; [| split; [done | intros [[? _] | (_ & _ & _ & (? & ? & ? & _))]; [by destruct (Hnc hash) | done]]].
      destruct (N !! target) as [n' |] eqn:En'; cbn [mbind option_bind]; [| split; [done | intros [[? _] | (_ & _ & _ & (? & ? & [= <-] & ? & _))]; [by destruct (Hnc hash) | congruence]]].
      case_bool_decide as Hf; (split; [intros [= <-] |]).
      * right. split_and!; try done. by exists target, n'.
      * intros [[? _] | (_ & _ & _ & (? & ? & [= <-] & Hx & _ & Hh))]; [by destruct (Hnc hash) |]. rewrite En' in Hx. injection Hx as <-. by rewrite Hh.
      * intros [[? _] | (_ & _ & _ & (? & ? & [= <-] & Hx & Hft & _))]; [by destruct (Hnc hash) | congruence].
    + split; [done |]. intros [[? _] | (-> & Hv & _)]; [by destruct (Hnc hash) |]. cbn in Ev. congruence.
Qed.

(** Claim C35: a view shows exactly the files of its commit that its mode selects, and a remote
    base also its links, as the files they resolve to within the commit; its directories are
    those of what it shows, each listed in order and once, it has no link, and a name it lacks
    is forbidden exactly when a link that it leaves out is there or above. *)
Theorem view_exact t N ws mode sparse m v : wf_git t → newTree ToOSFileMode commit t = (N, ws, None) → shape UpstreamMatch ReadBlob mode sparse m N = inl v →
  let paths := if bool_decide (mode = Source) then NormalizeSparsePaths sparse else sparse in
  (∀ qs hash, parts_ok qs → file_at v (path_of qs) hash ↔
    committed t qs hash ∧ selectVisible UpstreamMatch mode paths (path_of qs) TFile m = true ∨
    mode = RemoteBase ∧ visible (path_of qs) = true ∧ committed_link t qs ∧
      ∃ b ts, resolveLinks ReadBlob N (sort_by compare (map_to_list N).*1) = inl b ∧ Resolve (b_view b) (path_of qs) = inl (path_of ts) ∧ parts_ok ts ∧ committed t ts hash) ∧
  (∀ ps, parts_ok ps → dir_at v (path_of ps) ↔ ps = [] ∨ ∃ qs hash, qs ≠ [] ∧ parts_ok (ps ++ qs) ∧ file_at v (path_of (ps ++ qs)) hash) ∧
  (∀ name n, v.(v_nodes) !! name = Some n → (n.(g_type) = TFile ∨ n.(g_type) = TDir) ∧
    (∀ c, c ∈ n.(g_children) ↔ is_Some (v.(v_nodes) !! c) ∧ c ≠ "." ∧ Dir c = name) ∧ StronglySorted (λ a b, compare a b = Lt) (map Base n.(g_children))) ∧
  (∀ qs, parts_ok qs → ValidPath (path_of qs) = true → v.(v_nodes) !! path_of qs = None →
    Lstat ObjectSize v (path_of qs) = inr (PathError "stat" (path_of qs)
      (if bool_decide (mode ≠ RemoteBase) && existsb (λ k, match entry_at ToOSFileMode t (take k qs) with Some (_, TLink) => true | _ => false end) (seq 1 (length qs)) then FsPermission else FsNotExist))).
Proof.
  intros Hwf Hw Hsh paths. pose proof (newTree_wf ToOSFileMode commit t N ws Hwf Hw) as HwfN.
  pose proof (shape_spec UpstreamMatch ReadBlob N HwfN mode paths m sparse eq_refl) as Hs. rewrite Hsh in Hs. destruct Hs as (l & [Hfile Hdir Hnode Hden] & Hlinks).
  assert (∀ qs hash, parts_ok qs → file_at v (path_of qs) hash ↔ shown UpstreamMatch ReadBlob N mode paths m l (path_of qs) = Some hash) as Hat by (intros qs hash _; apply Hfile).
  split_and!.
  - intros qs hash Hq. rewrite Hat, (shown_committed t N ws) by done. split; (intros [? | (Hm & Hv & Hc & Hr)]; [by left | right]).
    + split_and!; [done.. |]. destruct (Hlinks Hm) as (b & Hb & He & Hi). destruct Hr as (target & n & Hr & Hn & Ht & Hh).
      destruct (wn_name _ HwfN target ltac:(by exists n)) as (ts & Hts & ->). exists b, ts. rewrite <- He. split_and!; [done | done | done |].
      apply (node_entry t N ws ts TFile hash); try done. by exists n.
    + split_and!; [done.. |]. destruct (Hlinks Hm) as (b & Hb & He & Hi). destruct Hr as (b' & ts & Hb' & Hr & Hts & Hct). rewrite Hb in Hb'. injection Hb' as <-.
      destruct (proj2 (node_entry t N ws ts TFile hash Hwf Hw Hts ltac:(done)) Hct) as (n & Hn & Ht & Hh). exists (path_of ts), n. by rewrite He.
  - intros ps Hps. unfold dir_at. rewrite Hdir by done. split; (intros [? | H]; [by left | right]).
    + destruct H as (qs & Hne & Hok & [hash Hsome]). exists qs, hash. split_and!; [done | done |]. by apply Hat.
    + destruct H as (qs & hash & Hne & Hok & Hf). exists qs. split_and!; [done | done |]. exists hash. by apply Hat.
  - intros name n Hn. destruct (Hnode _ _ Hn) as (_ & ? & ? & ?). done.
  - intros qs Hq Hv Hn. unfold Lstat. rewrite Hv, Hn. cbn [negb]. unfold missingInfo. do 2 f_equal.
    assert (denied_above (length (Split (path_of qs))) (v_denied v) (path_of qs) = true ↔
      bool_decide (mode ≠ RemoteBase) && existsb (λ k, match entry_at ToOSFileMode t (take k qs) with Some (_, TLink) => true | _ => false end) (seq 1 (length qs)) = true) as Hiff.
    { assert (qs ≠ []) as Hne.
      { intros ->. destruct (proj2 (Hdir [] Hq) ltac:(by left)) as (n & Hn' & _). cbn [path_of] in Hn, Hn'. congruence. }
      rewrite Split_path_of, denied_above_spec, andb_true_iff, bool_decide_eq_true, existsb_exists by done.
      assert (∀ rs, parts_ok rs → path_of rs ∈ v_denied v ↔ committed_link t rs ∧ mode ≠ RemoteBase) as Hd.
      { intros rs Hrs. rewrite Hden. unfold is_link_at, committed_link. split; (intros [Hl ?]; split; [| done]).
        - destruct Hl as (n & Hn' & Ht). destruct (proj1 (node_entry t N ws rs TLink n.(g_hash) Hwf Hw Hrs ltac:(done)) ltac:(by exists n)) as (e & He & _). by exists e.
        - destruct Hl as (e & He). destruct (proj2 (node_entry t N ws rs TLink e.(te_hash) Hwf Hw Hrs ltac:(done)) ltac:(by exists e)) as (n & Hn' & Ht & _). by exists n. }
      split.
      - intros (rs & Hp & Hner & Hin). apply Hd in Hin as [(e & He) Hm]; [| by eapply parts_ok_prefix]. split; [done |]. exists (length rs). split.
        + apply in_seq. destruct Hp as [x ->]. rewrite length_app. destruct rs; [done |]. cbn. lia.
        + destruct Hp as [x ->]. by rewrite take_app_length, He.
      - intros [Hm (k & Hk & He)]. apply in_seq in Hk. exists (take k qs). split_and!; [apply prefix_take | | apply Hd; [eapply parts_ok_prefix; [done | apply prefix_take] |]].
        + destruct k; [lia |]. destruct qs; [done |]. done.
        + split; [| done]. destruct (entry_at _ _ _) as [[e []] |] eqn:Ee; try done. by exists e. }
    by apply eq_true_iff_eq in Hiff as ->.
Qed.

(** Reading a file gives the object it is shown as, when the storage has it. *)
Theorem ReadFile_exact v name data : ValidPath name = true → (∀ n, v.(v_nodes) !! name = Some n → n.(g_type) = TFile ∨ n.(g_type) = TDir) →
  ReadFile ObjectSize ReadBlob v name = inl data ↔ ∃ hash, file_at v name hash ∧ is_Some (ObjectSize hash) ∧ ReadBlob hash = Some data.
Proof.
  intros Hv Hty. unfold ReadFile, Open, Lstat, file_at. rewrite Hv. cbn [negb]. destruct (v_nodes v !! name) as [n |] eqn:En.
  2: { split; [done |]. intros (h & (n & ? & _) & _). done. }
  destruct (Hty n eq_refl) as [Ht | Ht]; rewrite Ht; [rewrite !bool_decide_false by done | rewrite bool_decide_false, bool_decide_true by done].
  - split.
    + destruct (ObjectSize (g_hash n)) eqn:Es; [| done]. rewrite Ht, bool_decide_false by done. destruct (ReadBlob (g_hash n)) eqn:Er; [| done].
      intros [= <-]. exists (g_hash n). split_and!; [by exists n | by rewrite Es; eexists | done].
    + intros (h & (n' & [= <-] & _ & <-) & [z Hz] & Hr). by rewrite Hz, Ht, bool_decide_false, Hr by done.
  - rewrite Ht, bool_decide_true by done. split; [done |]. intros (h & (n' & [= <-] & ? & _) & _). congruence.
Qed.
End exact.

(** Reading a directory by pieces until it ends. *)
Fixpoint drain (fuel : nat) (f : gitFile) (n : Z) : option (list (list string) * read_cause) :=
  match FileReadDir f n with
  | (_, inr e) => Some ([], e)
  | (f, inl es) => match fuel with 0 => None | S fuel => '(more, e) ← drain fuel f n; Some (es :: more, e) end
  end.

(** The pieces of a directory are in order all that is left of it, none of them empty or longer
    than asked, and the end of the file follows. *)
Theorem drain_exact f n : (0 < n)%Z → f.(closed) = false → f.(f_info).(g_type) = TDir → f.(cursor) ≤ length f.(f_entries) →
  ∃ pieces, drain (S (length f.(f_entries) - f.(cursor))) f n = Some (pieces, FsEOF) ∧ concat pieces = drop f.(cursor) f.(f_entries) ∧
    Forall (λ es, es ≠ [] ∧ length es ≤ Z.to_nat n) pieces.
Proof.
  intros Hn Hc Ht. remember (length (f_entries f) - cursor f) as k eqn:Hk. assert (length (f_entries f) - cursor f ≤ k) as Hle by lia. clear Hk.
  revert f Hc Ht Hle. induction k as [k IH] using lt_wf_ind. intros f Hc Ht Hle Hcur.
  assert (FileReadDir f n = if cursor f =? length (f_entries f) then (f, inr FsEOF) else
    let stop := length (f_entries f) `min` (cursor f + Z.to_nat n) in (mkGitFile false (f_info f) (f_reader f) (f_entries f) stop, inl (take (stop - cursor f) (drop (cursor f) (f_entries f))))) as Hr.
  { unfold FileReadDir. rewrite Hc, Ht. cbn [negb]. rewrite bool_decide_true by done. cbn [negb]. by rewrite (proj2 (Z.ltb_lt _ _) Hn). }
  cbn [drain]. rewrite Hr. destruct (Nat.eqb_spec (cursor f) (length (f_entries f))) as [He | He].
  - exists []. split_and!; [done | by rewrite drop_ge by lia | done].
  - cbv zeta. set (stop := length (f_entries f) `min` (cursor f + Z.to_nat n)). assert (cursor f < stop ∧ stop ≤ length (f_entries f) ∧ stop - cursor f ≤ Z.to_nat n) as (H1 & H2 & H3) by (unfold stop; lia).
    destruct k as [| k]; [lia |]. destruct (IH k ltac:(lia) (mkGitFile false (f_info f) (f_reader f) (f_entries f) stop)) as (pieces & Hd & Hcat & Hall); cbn [closed f_info f_entries cursor]; [done | done | lia | lia |].
    rewrite Hd. cbn [mbind option_bind]. eexists. split; [done |]. cbn [concat f_entries cursor] in *. split.
    + rewrite Hcat. transitivity (take (stop - cursor f) (drop (cursor f) (f_entries f)) ++ drop (stop - cursor f) (drop (cursor f) (f_entries f))); [| by rewrite take_drop].
      rewrite drop_drop. do 2 f_equal. lia.
    + constructor; [| done]. rewrite length_take, length_drop. split; [| lia]. intros Hnil. apply (f_equal length) in Hnil. rewrite length_take, length_drop in Hnil. cbn in Hnil. lia.
Qed.

(** ** A commit *)

Definition os_mode (m : Z) : option ntype :=
  if (m =? 16384)%Z || (m =? Submodule)%Z then Some TDir else if (m =? 33188)%Z then Some TFile else if (m =? 40960)%Z then Some TLink else None.

Definition leaf (name hash : string) (mode : Z) : tree_entry * git_tree := (mkTreeEntry name hash mode, MissingTree).
Definition folder (name : string) (es : list (tree_entry * git_tree)) : tree_entry * git_tree := (mkTreeEntry name "" 16384, GitTree es).

Definition example_commit : git_tree := GitTree [
  folder ".hidden" [leaf "x.yaml" "h1" 33188]; leaf "alias" "l1" 40960;
  folder "base" [leaf "b.yaml" "h2" 33188; leaf "a.yaml" "h3" 33188]; leaf "broken" "l2" 40960; leaf "out" "l3" 40960; leaf "sub" "c" Submodule].

Definition example_blob (hash : string) : option string :=
  match hash with "l1" => Some "base/../base/a.yaml" | "l2" => Some "base/none" | "l3" => Some "../etc" | "h3" => Some "kind: A" | _ => Some "text" end.

Definition example_nodes : gmap string gitNode := (newTree os_mode "rev" example_commit).1.1.

(** A policy that ignores the names that end as its pattern does. *)
Definition example_policy : Matcher (P := string) (Mat := string) := mkMatcher "b.yaml" [] [] true [] [].
Definition example_ignores (pattern : string) (parts : list string) (_ : bool) : bool := match last parts with Some p => bool_decide (p = pattern) | None => false end.

Definition example_view (mode : ViewMode) : list (string * string * list string) + view_error :=
  match shape example_ignores example_blob mode ["./base"] example_policy example_nodes with
  | inl v => inl (map (λ name, match v.(v_nodes) !! name with Some n => (name, n.(g_hash), n.(g_children)) | None => (name, "", []) end) (sort_by compare (map_to_list v.(v_nodes)).*1))
  | inr e => inr e
  end.

(** A source view leaves out links, ignored files and what is outside its sparse paths; a remote
    base leaves out hidden directories, and broken links and those that leave the tree. *)
Example example_source : example_view Source = inl [(".", "", ["base"]); ("base", "", ["base/a.yaml"]); ("base/a.yaml", "h3", [])].
Proof. vm_compute. reflexivity. Qed.

Example example_base : example_view RemoteBase =
  inl [(".", "", ["alias"; "base"]); ("alias", "h3", []); ("base", "", ["base/a.yaml"; "base/b.yaml"]); ("base/a.yaml", "h3", []); ("base/b.yaml", "h2", [])].
Proof. vm_compute. reflexivity. Qed.

Lemma example_commit_wf : wf_git example_commit.
Proof.
  constructor; [by apply (bool_decide_unpack _) |]. repeat constructor; cbn; try apply NoDup_nil_2; by apply (bool_decide_unpack _).
Qed.

Definition example_shaped : gitView :=
  match shape example_ignores example_blob RemoteBase [] example_policy example_nodes with inl v => v | inr _ => mkGitView ∅ ∅ end.

Example view_exact_witness : newTree os_mode "rev" example_commit = (example_nodes, [["sub"; "rev"]], None) ∧
  shape example_ignores example_blob RemoteBase [] example_policy example_nodes = inl example_shaped ∧ file_at example_shaped "alias" "h3" ∧
  (file_at example_shaped "alias" "h3" → committed os_mode example_commit ["alias"] "h3" ∨ committed_link os_mode example_commit ["alias"]).
Proof.
  assert (newTree os_mode "rev" example_commit = (example_nodes, [["sub"; "rev"]], None)) as Hw by (vm_compute; reflexivity).
  assert (shape example_ignores example_blob RemoteBase [] example_policy example_nodes = inl example_shaped) as Hs by (vm_compute; reflexivity).
  split; [exact Hw |]. split; [exact Hs |]. split; [eexists; split; [vm_compute; reflexivity | split; reflexivity] |]. intros Hf.
  destruct (view_exact example_ignores example_blob (λ _, Some 1%Z) os_mode "rev" example_commit example_nodes [["sub"; "rev"]] RemoteBase [] example_policy example_shaped example_commit_wf Hw Hs) as [Hfiles _].
  apply (Hfiles ["alias"]) in Hf; [| repeat constructor; discriminate]. destruct Hf as [[Hc _] | (_ & _ & Hc & _)]; [left; exact Hc | right; exact Hc].
Defined.
