(* ===== verification/ConfigData.v ===== *)
(** * ConfigMap and Secret data (pkg/manifest/configmap.go, data.go)

    The [Data] interface the value and substitution code reads, its laws, and its
    two implementations: lazy lookups that decode only the requested key, and the
    filling of absent keys with supplied data.  A Go map is a [gmap]; the key
    iterators yield in the order of [map_to_list], and no result below depends on it.
    [Snapshot] and parsing are not modelled. *)

From Stdlib Require Import Ascii.
From stdpp Require Import pretty.
From S2P Require Import Prelude Resource.

(** A decoded YAML value, as far as [scalarString] tells them apart.  A float is
    carried as the text [fmt.Sprint] gives it. *)
Inductive any :=
  | AString (s : string)
  | ABytes (s : string)
  | ANil
  | ABool (b : bool)
  | AInt (z : Z)
  | AFloat (text : string)
  | AOther (type_name : string).

(** [fmt.Errorf] values: which field, which key, and the cause. *)
Inductive value_cause :=
  | unsupported_type (type_name : string)
  | corrupt_base64.

Record value_error := mkValueError { ve_field : string; ve_key : string; ve_cause : value_cause }.

Definition scalarString (v : any) : string + value_cause :=
  match v with
  | AString s | ABytes s => inl s
  | ANil => inl ""
  | ABool b => inl (if b then "true" else "false")
  | AInt z => inl (pretty z)
  | AFloat t => inl t
  | AOther t => inr (unsupported_type t)
  end.

(** ** [base64.StdEncoding.DecodeString] *)

Definition sextet (c : ascii) : option N :=
  let n := N_of_ascii c in
  if (65 <=? n)%N && (n <=? 90)%N then Some (n - 65)%N
  else if (97 <=? n)%N && (n <=? 122)%N then Some (n - 71)%N
  else if (48 <=? n)%N && (n <=? 57)%N then Some (n + 4)%N
  else if (n =? 43)%N then Some 62%N
  else if (n =? 47)%N then Some 63%N
  else None.

Definition is_pad (c : ascii) : bool := (N_of_ascii c =? 61)%N.

(** Carriage returns and line feeds are skipped wherever they stand. *)
Fixpoint skip_newlines (s : string) : string :=
  match s with
  | "" => ""
  | String c s =>
      if (N_of_ascii c =? 10)%N || (N_of_ascii c =? 13)%N then skip_newlines s
      else String c (skip_newlines s)
  end.

Definition byte (n : N) : ascii := ascii_of_N (n mod 256)%N.

(** Whole quanta, the last one possibly padded; bits under the padding are ignored. *)
Fixpoint decode_quanta (s : string) : option string :=
  match s with
  | "" => Some ""
  | String a (String b (String c (String d s))) =>
      x ← sextet a; y ← sextet b;
      let one := byte (x * 4 + y / 16) in
      if is_pad c then
        if is_pad d && bool_decide (s = "") then Some (String one "") else None
      else
        z ← sextet c;
        let two := byte (y mod 16 * 16 + z / 4) in
        if is_pad d then if bool_decide (s = "") then Some (String one (String two "")) else None
        else
          w ← sextet d;
          rest ← decode_quanta s;
          Some (String one (String two (String (byte (z mod 4 * 64 + w)) rest)))
  | _ => None
  end.

Definition DecodeString (s : string) : option string := decode_quanta (skip_newlines s).

(** ** The interface *)

(** [DataValue] with [Found]: [None] is an absent key. *)
Definition DataValue : Type := option string.

(** A value of the [Data] interface. *)
Record Data := mkData {
  HasKeys : bool;
  Value : string → DataValue + value_error;
  Keys : list string;
}.

(** What its clients rely on. *)
Class LawfulData (d : Data) : Prop := {
  keys_nodup : NoDup d.(Keys);
  keys_value k : k ∈ d.(Keys) ↔ d.(Value) k ≠ inl None;
  keys_has : d.(HasKeys) = true ↔ d.(Keys) ≠ [];
}.

(** ** Supplied data *)

(** [fillSupplied]; [write] acts on the caller's state. *)
Definition fill_key {St} (repository supplied : Data) (write : string → string → St → St)
    (acc : list string * St) (key : string) : list string * St :=
  match repository.(Value) key with
  | inr _ => acc
  | inl (Some _) => (acc.1 ++ [key], acc.2)
  | inl None =>
      (acc.1, write key (match supplied.(Value) key with inl (Some v) => v | _ => "" end) acc.2)
  end.

Definition fillSupplied {St} (repository supplied : Data) (write : string → string → St → St)
    (st : St) : list string * St :=
  let '(overridden, st) := foldl (fill_key repository supplied write) ([], st) supplied.(Keys) in
  (sort_by compare overridden, st).

(** ** ConfigMap *)

Record ConfigMap := mkConfigMap { cm_Name : string; cm_Namespace : string; cm_Data : gmap string any }.

Definition field_value (field key : string) (v : any) : DataValue + value_error :=
  match scalarString v with
  | inl s => inl (Some s)
  | inr e => inr (mkValueError field key e)
  end.

Definition ConfigMap_Value (c : ConfigMap) (key : string) : DataValue + value_error :=
  match c.(cm_Data) !! key with
  | None => inl None
  | Some v => field_value "data" key v
  end.

Definition map_keys {V} (m : gmap string V) : list string := (map_to_list m).*1.

Definition ConfigMap_HasKeys (c : ConfigMap) : bool := bool_decide (c.(cm_Data) ≠ ∅).

Definition ConfigMap_data (c : ConfigMap) : Data :=
  mkData (ConfigMap_HasKeys c) (ConfigMap_Value c) (map_keys c.(cm_Data)).

(** The closure's state is [out.Data]; nil is [None]. *)
Definition ConfigMap_WithSupplied (c : ConfigMap) (supplied : Data) : ConfigMap * list string :=
  let '(overridden, out) :=
    fillSupplied (ConfigMap_data c) supplied
      (λ key value out, Some (<[key := AString value]> (default c.(cm_Data) out))) None in
  (match out with
   | None => c
   | Some m => mkConfigMap c.(cm_Name) c.(cm_Namespace) m
   end, overridden).

(** ** Secret *)

Record Secret := mkSecret {
  s_Name : string;
  s_Namespace : string;
  s_Data : gmap string any;
  s_StringData : gmap string any;
}.

Definition Secret_Value (s : Secret) (key : string) : DataValue + value_error :=
  match s.(s_StringData) !! key with
  | Some v => field_value "stringData" key v
  | None =>
      match s.(s_Data) !! key with
      | None => inl None
      | Some v =>
          match scalarString v with
          | inr e => inr (mkValueError "data" key e)
          | inl value =>
              match DecodeString value with
              | None => inr (mkValueError "data" key corrupt_base64)
              | Some decoded => inl (Some decoded)
              end
          end
      end
  end.

Definition Secret_HasKeys (s : Secret) : bool :=
  bool_decide (s.(s_Data) ≠ ∅) || bool_decide (s.(s_StringData) ≠ ∅).

Definition Secret_Keys (s : Secret) : list string :=
  map_keys s.(s_StringData) ++
  filter (λ k, s.(s_StringData) !! k = None) (map_keys s.(s_Data)).

Definition Secret_data (s : Secret) : Data :=
  mkData (Secret_HasKeys s) (Secret_Value s) (Secret_Keys s).

(** The closure's state is [out.Data] and [out.StringData]. *)
Definition Secret_write (s : Secret) (key value : string)
    (out : option (gmap string any) * option (gmap string any)) :=
  (if bool_decide (is_Some (s.(s_Data) !! key))
   then Some (delete key (default s.(s_Data) out.1)) else out.1,
   Some (<[key := AString value]> (default s.(s_StringData) out.2))).

Definition Secret_WithSupplied (s : Secret) (supplied : Data) : Secret * list string :=
  let '(overridden, out) := fillSupplied (Secret_data s) supplied (Secret_write s) (None, None) in
  (match out.2 with
   | None => s
   | Some sd => mkSecret s.(s_Name) s.(s_Namespace) (default s.(s_Data) out.1) sd
   end, overridden).

(** ** The implementations are lawful *)

Lemma elem_of_map_keys {V} (m : gmap string V) k : k ∈ map_keys m ↔ is_Some (m !! k).
Proof.
  unfold map_keys. rewrite list_elem_of_fmap. split.
  - intros ([k' v] & -> & Hin). apply elem_of_map_to_list in Hin. by exists v.
  - intros [v Hv]. exists (k, v). split; [done|by apply elem_of_map_to_list].
Qed.

Lemma map_keys_nil {V} (m : gmap string V) : map_keys m = [] ↔ m = ∅.
Proof.
  unfold map_keys. split; [|by intros ->; rewrite map_to_list_empty].
  intros Hn. apply fmap_nil_inv in Hn. by apply map_to_list_empty_iff.
Qed.

Lemma field_value_found field key v : field_value field key v ≠ inl None.
Proof. unfold field_value. by destruct (scalarString v). Qed.

#[export] Instance ConfigMap_lawful c : LawfulData (ConfigMap_data c).
Proof.
  split; cbn [ConfigMap_data Keys Value HasKeys].
  - apply NoDup_fst_map_to_list.
  - intros k. rewrite elem_of_map_keys. unfold ConfigMap_Value.
    destruct (cm_Data c !! k) as [v|]; [|split; [by intros [? ?]|done]].
    split; [intros _; apply field_value_found|by eexists].
  - unfold ConfigMap_HasKeys. rewrite bool_decide_eq_true. by rewrite map_keys_nil.
Qed.

#[export] Instance Secret_lawful s : LawfulData (Secret_data s).
Proof.
  split; cbn [Secret_data Keys Value HasKeys].
  - unfold Secret_Keys. apply NoDup_app. split; [apply NoDup_fst_map_to_list|]. split.
    + intros k [v Hv]%elem_of_map_keys [Hn _]%list_elem_of_filter. congruence.
    + apply NoDup_filter, NoDup_fst_map_to_list.
  - intros k. unfold Secret_Keys, Secret_Value.
    rewrite elem_of_app, list_elem_of_filter, !elem_of_map_keys.
    destruct (s_StringData s !! k) as [v|].
    { split; [intros _; apply field_value_found|intros _; left; by eexists]. }
    destruct (s_Data s !! k) as [v|].
    + split; [intros _|intros _; right; split; [done|by eexists]].
      destruct (scalarString v) as [t|]; [|done]. by destruct (DecodeString t).
    + split; [|done]. intros [[? ?]|[_ [? ?]]]; done.
  - unfold Secret_HasKeys, Secret_Keys. rewrite orb_true_iff, !bool_decide_eq_true. split.
    + intros H Happ. apply app_eq_nil in Happ as [H1 H2]. apply map_keys_nil in H1.
      destruct H as [H|H]; [|done]. apply H. apply map_keys_nil. rewrite <-H2, H1.
      rewrite filter_all; [done|]. apply Forall_forall. intros k _. by rewrite lookup_empty.
    + intros H. destruct (decide (s_StringData s = ∅)) as [He|He]; [left|by right].
      intros Hd. apply H. rewrite He, Hd. unfold map_keys. by rewrite map_to_list_empty.
Qed.

(** ** Filling *)

Definition supplied_text (supplied : Data) (key : string) : string :=
  match supplied.(Value) key with inl (Some v) => v | _ => "" end.

Definition found (d : Data) (k : string) : Prop :=
  match d.(Value) k with inl (Some _) => True | _ => False end.
Definition absent (d : Data) (k : string) : Prop := d.(Value) k = inl None.

#[local] Instance found_dec d k : Decision (found d k).
Proof. unfold found. destruct (Value d k) as [[?|]|?]; apply _. Defined.
#[local] Instance absent_dec d k : Decision (absent d k).
Proof.
  unfold absent. destruct (Value d k) as [[v|]|e]; [right|left|right]; done.
Defined.

Lemma fillSupplied_spec {St} repository supplied (write : string → string → St → St) st :
  fillSupplied repository supplied write st =
  (sort_by compare (filter (found repository) supplied.(Keys)),
   foldl (λ st k, write k (supplied_text supplied k) st) st (filter (absent repository) supplied.(Keys))).
Proof.
  unfold fillSupplied.
  assert (∀ keys acc,
    foldl (fill_key repository supplied write) acc keys =
    (acc.1 ++ filter (found repository) keys,
     foldl (λ st k, write k (supplied_text supplied k) st) acc.2 (filter (absent repository) keys))) as Hgen.
  { induction keys as [|k keys IH]; intros [ov s]; [cbn; by rewrite app_nil_r|].
    cbn [foldl]. rewrite IH. unfold fill_key. rewrite !filter_cons.
    destruct (Value repository k) as [[v|]|e] eqn:Hv.
    - rewrite decide_True by (unfold found; by rewrite Hv).
      rewrite decide_False by (unfold absent; congruence). cbn. by rewrite <-app_assoc.
    - rewrite decide_False by (unfold found; rewrite Hv; tauto). by rewrite decide_True.
    - rewrite decide_False by (unfold found; rewrite Hv; tauto).
      by rewrite decide_False by (unfold absent; congruence). }
  by rewrite Hgen.
Qed.

(** Writing the supplied texts into a map, the closures' common part. *)
Definition write_all (supplied : Data) (m : gmap string any) (keys : list string) : gmap string any :=
  foldl (λ m k, <[k := AString (supplied_text supplied k)]> m) m keys.

Lemma lookup_write_all supplied m keys k :
  write_all supplied m keys !! k
  = if decide (k ∈ keys) then Some (AString (supplied_text supplied k)) else m !! k.
Proof.
  unfold write_all. revert m. induction keys as [|k' keys IH]; intros m; cbn [foldl].
  { rewrite decide_False; [done|]. by intros ?%elem_of_nil. }
  rewrite IH. destruct (decide (k ∈ keys)) as [Hk|Hk].
  - rewrite decide_True; [done|]. by right.
  - rewrite lookup_insert. case_decide as He.
    + subst. rewrite decide_True; [done|left].
    + rewrite decide_False; [done|]. intros [?|?]%elem_of_cons; [by apply He|done].
Qed.

Lemma foldl_write_option supplied m keys out :
  foldl (λ out k, Some (<[k := AString (supplied_text supplied k)]> (default m out))) out keys
  = match keys with [] => out | _ => Some (write_all supplied (default m out) keys) end.
Proof.
  revert out. induction keys as [|k keys IH]; intros out; [done|]. cbn [foldl]. rewrite IH.
  by destruct keys.
Qed.

(** A value the caller of [WithSupplied] reads afterwards. *)
Definition merged (repository supplied : Data) (k : string) : DataValue + value_error :=
  match repository.(Value) k with
  | inl None =>
      match supplied.(Value) k with
      | inl None => inl None
      | inl (Some v) => inl (Some v)
      | inr _ => inl (Some "")
      end
  | r => r
  end.

(** [result] is [repository] filled with [supplied], and [overridden] reports the clashes. *)
Definition fills (repository supplied result : Data) (overridden : list string) : Prop :=
  LawfulData result ∧
  (∀ k, result.(Value) k = merged repository supplied k) ∧
  Sorted cmp_le overridden ∧ NoDup overridden ∧
  (∀ k, k ∈ overridden ↔ found repository k ∧ k ∈ supplied.(Keys)).

Lemma overridden_spec repository supplied `{!LawfulData supplied} :
  let overridden := sort_by compare (filter (found repository) supplied.(Keys)) in
  Sorted cmp_le overridden ∧ NoDup overridden ∧
  (∀ k, k ∈ overridden ↔ found repository k ∧ k ∈ supplied.(Keys)).
Proof.
  cbn. split; [apply sort_lawful_sorted|]. split.
  - rewrite sort_by_perm. apply NoDup_filter, keys_nodup.
  - intros k. by rewrite elem_of_sort_by, list_elem_of_filter.
Qed.

(** Keys the repository lacks: written with the supplied text, or absent there too. *)
Lemma merged_absent repository supplied `{!LawfulData supplied} k :
  absent repository k →
  merged repository supplied k
  = if decide (k ∈ filter (absent repository) supplied.(Keys)) then inl (Some (supplied_text supplied k))
    else inl None.
Proof.
  intros Ha. unfold merged. rewrite Ha. unfold supplied_text.
  assert (k ∈ filter (absent repository) supplied.(Keys) ↔ supplied.(Value) k ≠ inl None) as Hk.
  { rewrite list_elem_of_filter, keys_value. tauto. }
  destruct (decide _) as [Hin|Hin].
  - apply Hk in Hin. by destruct (Value supplied k) as [[v|]|e].
  - destruct (Value supplied k) as [[v|]|e]; try done; destruct Hin; by apply Hk.
Qed.

Lemma ConfigMap_WithSupplied_fills c supplied `{!LawfulData supplied} :
  let '(c', overridden) := ConfigMap_WithSupplied c supplied in
  fills (ConfigMap_data c) supplied (ConfigMap_data c') overridden ∧
  c'.(cm_Name) = c.(cm_Name) ∧ c'.(cm_Namespace) = c.(cm_Namespace).
Proof.
  unfold ConfigMap_WithSupplied. rewrite fillSupplied_spec, foldl_write_option. cbn [default].
  set (keys := filter (absent _) _).
  assert (∀ c', c'.(cm_Data) = write_all supplied c.(cm_Data) keys →
    fills (ConfigMap_data c) supplied (ConfigMap_data c')
      (sort_by compare (filter (found (ConfigMap_data c)) supplied.(Keys)))) as Hf.
  { intros c' Hc'. split; [apply _|]. split; [|apply (overridden_spec _ supplied)].
    intros k. cbn [Value ConfigMap_data]. unfold ConfigMap_Value at 1. rewrite Hc', lookup_write_all.
    destruct (decide (absent (ConfigMap_data c) k)) as [Ha|Ha].
    - rewrite (merged_absent _ supplied k Ha). fold keys. destruct (decide (k ∈ keys)); [done|].
      unfold absent in Ha; cbn [Value ConfigMap_data] in Ha. unfold ConfigMap_Value in Ha.
      destruct (cm_Data c !! k) eqn:E; [|done]. by apply field_value_found in Ha.
    - rewrite decide_False by (unfold keys; rewrite list_elem_of_filter; tauto).
      unfold merged. cbn [Value ConfigMap_data]. unfold absent in Ha; cbn [Value ConfigMap_data] in Ha.
      fold (ConfigMap_Value c k). by destruct (ConfigMap_Value c k) as [[v|]|e]. }
  destruct keys as [|k0 ks] eqn:Hk; (split; [by apply Hf|done]).
Qed.

Lemma Secret_absent s k :
  absent (Secret_data s) k ↔ s.(s_StringData) !! k = None ∧ s.(s_Data) !! k = None.
Proof.
  unfold absent. cbn [Value Secret_data]. unfold Secret_Value.
  destruct (s_StringData s !! k) as [v|].
  { split; [intros He; by apply field_value_found in He|by intros [? _]]. }
  destruct (s_Data s !! k) as [v|]; [|by split].
  split; [|by intros [_ ?]]. destruct (scalarString v) as [t|]; [|done]. by destruct (DecodeString t).
Qed.

(** Absent keys are not in [data], so only [stringData] is written. *)
Lemma Secret_foldl_write s supplied keys out :
  Forall (absent (Secret_data s)) keys →
  foldl (λ out k, Secret_write s k (supplied_text supplied k) out) out keys
  = (out.1, foldl (λ out k, Some (<[k := AString (supplied_text supplied k)]> (default s.(s_StringData) out)))
              out.2 keys).
Proof.
  intros Hf. revert out. induction Hf as [|k keys Hk _ IH]; intros [o1 o2]; [done|]. cbn [foldl].
  rewrite IH. unfold Secret_write. apply Secret_absent in Hk as [_ Hk].
  rewrite bool_decide_eq_false_2; [done|]. rewrite Hk. by intros [? ?].
Qed.

Lemma Secret_WithSupplied_fills s supplied `{!LawfulData supplied} :
  let '(s', overridden) := Secret_WithSupplied s supplied in
  fills (Secret_data s) supplied (Secret_data s') overridden ∧
  s'.(s_Name) = s.(s_Name) ∧ s'.(s_Namespace) = s.(s_Namespace) ∧ s'.(s_Data) = s.(s_Data).
Proof.
  unfold Secret_WithSupplied. rewrite fillSupplied_spec. set (keys := filter (absent _) _).
  rewrite Secret_foldl_write, foldl_write_option.
  2:{ apply Forall_forall. by intros k [? _]%list_elem_of_filter. }
  cbn [fst snd default].
  assert (∀ s', s'.(s_Data) = s.(s_Data) → s'.(s_StringData) = write_all supplied s.(s_StringData) keys →
    fills (Secret_data s) supplied (Secret_data s')
      (sort_by compare (filter (found (Secret_data s)) supplied.(Keys)))) as Hf.
  { intros s' Hd Hs'. split; [apply _|]. split; [|apply (overridden_spec _ supplied)].
    intros k. cbn [Value Secret_data]. unfold Secret_Value at 1. rewrite Hs', Hd, lookup_write_all.
    destruct (decide (absent (Secret_data s) k)) as [Ha|Ha].
    - rewrite (merged_absent _ supplied k Ha). fold keys. destruct (decide (k ∈ keys)); [done|].
      apply Secret_absent in Ha as [-> ->]. done.
    - rewrite decide_False by (unfold keys; rewrite list_elem_of_filter; tauto).
      unfold merged. cbn [Value Secret_data]. unfold absent in Ha; cbn [Value Secret_data] in Ha.
      fold (Secret_Value s k). by destruct (Secret_Value s k) as [[v|]|e]. }
  destruct keys as [|k0 ks] eqn:Hk; (split; [by apply Hf|done]).
Qed.

(** ** The base64 reference encoding *)

Definition alphabet (n : N) : ascii :=
  ascii_of_N (if (n <? 26)%N then n + 65 else if (n <? 52)%N then n + 71
              else if (n <? 62)%N then n - 4 else if (n =? 62)%N then 43 else 47)%N.

Definition padding : ascii := ascii_of_N 61.

(** RFC 4648, with padding. *)
Fixpoint EncodeToString (s : string) : string :=
  match s with
  | "" => ""
  | String a (String b (String c s)) =>
      let '(a, b, c) := (N_of_ascii a, N_of_ascii b, N_of_ascii c) in
      String (alphabet (a / 4)) (String (alphabet (a mod 4 * 16 + b / 16))
        (String (alphabet (b mod 16 * 4 + c / 64)) (String (alphabet (c mod 64)) (EncodeToString s))))
  | String a (String b "") =>
      let '(a, b) := (N_of_ascii a, N_of_ascii b) in
      String (alphabet (a / 4)) (String (alphabet (a mod 4 * 16 + b / 16))
        (String (alphabet (b mod 16 * 4)) (String padding "")))
  | String a "" =>
      let a := N_of_ascii a in
      String (alphabet (a / 4)) (String (alphabet (a mod 4 * 16)) (String padding (String padding "")))
  end.

(** A property of the 64 code points, checked on each. *)
Lemma below_64 (P : N → bool) : forallb P (map N.of_nat (seq 0 64)) = true → ∀ n, (n < 64)%N → P n = true.
Proof.
  intros Hall n Hn. rewrite forallb_forall in Hall. apply Hall. apply in_map_iff.
  exists (N.to_nat n). split; [lia|]. apply in_seq. lia.
Qed.

Definition symbol_ok (n : N) : bool :=
  bool_decide (sextet (alphabet n) = Some n) && negb (is_pad (alphabet n)) &&
  negb ((N_of_ascii (alphabet n) =? 10)%N || (N_of_ascii (alphabet n) =? 13)%N).

Lemma alphabet_ok n : (n < 64)%N →
  sextet (alphabet n) = Some n ∧ is_pad (alphabet n) = false ∧
  ((N_of_ascii (alphabet n) =? 10)%N || (N_of_ascii (alphabet n) =? 13)%N) = false.
Proof.
  intros Hn. pose proof (below_64 symbol_ok ltac:(vm_compute; reflexivity) n Hn) as Hok.
  unfold symbol_ok in Hok. apply andb_true_iff in Hok as [[H1 H2]%andb_true_iff H3].
  apply bool_decide_eq_true in H1. by apply negb_true_iff in H2, H3.
Qed.

Lemma byte_of a n : n = N_of_ascii a → byte n = a.
Proof.
  intros ->. unfold byte. rewrite N.mod_small by apply N_ascii_bounded. apply ascii_N_embedding.
Qed.

(** Three-byte induction. *)
Lemma string_ind3 (P : string → Prop) :
  P "" → (∀ a, P (String a "")) → (∀ a b, P (String a (String b ""))) →
  (∀ a b c s, P s → P (String a (String b (String c s)))) → ∀ s, P s.
Proof.
  intros H0 H1 H2 H3. fix IH 1. intros [|a [|b [|c s]]]; [done|done|done|]. apply H3, IH.
Qed.

#[local] Ltac Zify.zify_post_hook ::= Z.to_euclidean_division_equations.

Ltac bytes :=
  repeat match goal with
  | a : ascii |- _ => lazymatch goal with
                      | _ : (N_of_ascii a < 256)%N |- _ => fail
                      | _ => pose proof (N_ascii_bounded a)
                      end
  end.

Lemma skip_newlines_symbol n s : (n < 64)%N →
  skip_newlines (String (alphabet n) s) = String (alphabet n) (skip_newlines s).
Proof. intros Hn. destruct (alphabet_ok n Hn) as (_ & _ & H). cbn [skip_newlines]. by rewrite H. Qed.

Lemma skip_newlines_encoded s : skip_newlines (EncodeToString s) = EncodeToString s.
Proof.
  induction s as [|a|a b|a b c s IH] using string_ind3; [done|..]; cbn [EncodeToString]; bytes;
    rewrite !skip_newlines_symbol by lia; [done|done|by rewrite IH].
Qed.

Lemma decode_encoded s : decode_quanta (EncodeToString s) = Some s.
Proof.
  induction s as [|a|a b|a b c s IH] using string_ind3; [done|..]; cbn [EncodeToString decode_quanta]; bytes.
  - destruct (alphabet_ok (N_of_ascii a / 4)) as (-> & _); [lia|].
    destruct (alphabet_ok (N_of_ascii a mod 4 * 16)) as (-> & _); [lia|].
    cbn -[byte N.mul N.div N.modulo N.add]. do 2 f_equal. apply byte_of. lia.
  - destruct (alphabet_ok (N_of_ascii a / 4)) as (-> & _); [lia|].
    destruct (alphabet_ok (N_of_ascii a mod 4 * 16 + N_of_ascii b / 16)) as (-> & _); [lia|].
    destruct (alphabet_ok (N_of_ascii b mod 16 * 4)) as (-> & -> & _); [lia|].
    cbn -[byte N.mul N.div N.modulo N.add]. do 2 f_equal; [apply byte_of; lia|f_equal; apply byte_of; lia].
  - destruct (alphabet_ok (N_of_ascii a / 4)) as (-> & _); [lia|].
    destruct (alphabet_ok (N_of_ascii a mod 4 * 16 + N_of_ascii b / 16)) as (-> & _); [lia|].
    destruct (alphabet_ok (N_of_ascii b mod 16 * 4 + N_of_ascii c / 64)) as (-> & -> & _); [lia|].
    destruct (alphabet_ok (N_of_ascii c mod 64)) as (-> & -> & _); [lia|].
    rewrite IH. cbn -[byte N.mul N.div N.modulo N.add].
    do 2 f_equal; [apply byte_of; lia|f_equal; [apply byte_of; lia|f_equal; apply byte_of; lia]].
Qed.

(** ** Properties *)

(** WithSupplied on both kinds yields lawful data that reads as the
    repository wherever the repository has the key, errors included, and as the
    supplied data elsewhere; it reports exactly the clashing keys, sorted; the
    identity, and a Secret's encoded data, are kept. *)
Theorem WithSupplied_fills supplied `{!LawfulData supplied} :
  (∀ c, let '(c', overridden) := ConfigMap_WithSupplied c supplied in
     fills (ConfigMap_data c) supplied (ConfigMap_data c') overridden ∧
     c'.(cm_Name) = c.(cm_Name) ∧ c'.(cm_Namespace) = c.(cm_Namespace)) ∧
  (∀ s, let '(s', overridden) := Secret_WithSupplied s supplied in
     fills (Secret_data s) supplied (Secret_data s') overridden ∧
     s'.(s_Name) = s.(s_Name) ∧ s'.(s_Namespace) = s.(s_Namespace) ∧ s'.(s_Data) = s.(s_Data)).
Proof.
  split; [intros c; by apply ConfigMap_WithSupplied_fills|intros s; by apply Secret_WithSupplied_fills].
Qed.

Definition sample_secret : Secret :=
  mkSecret "tokens" "flux-system" {["key" := AString "aGVsbG8="]} {["plain" := AString "x"]}.
Definition sample_map : ConfigMap :=
  mkConfigMap "settings" "flux-system" {["key" := AInt 5; "other" := ANil]}.

Lemma WithSupplied_fills_witness :
  let '(s', overridden) := Secret_WithSupplied sample_secret (ConfigMap_data sample_map) in
  fills (Secret_data sample_secret) (ConfigMap_data sample_map) (Secret_data s') overridden.
Proof.
  pose proof (proj2 (@WithSupplied_fills (ConfigMap_data sample_map) (ConfigMap_lawful sample_map))
                sample_secret) as H.
  destruct (Secret_WithSupplied _ _) as [s' ov]. exact (proj1 H).
Defined.

(** A Secret's encoded value decodes to the bytes that were encoded, wherever
    line breaks wrap the text; a stringData entry of the same key takes precedence,
    undecoded; and no other key's payload is looked at. *)
Theorem Secret_value_roundtrip s key bytes text :
  skip_newlines text = EncodeToString bytes →
  s.(s_Data) !! key = Some (AString text) →
  (s.(s_StringData) !! key = None → Secret_Value s key = inl (Some bytes)) ∧
  (∀ v, s.(s_StringData) !! key = Some (AString v) → Secret_Value s key = inl (Some v)) ∧
  (∀ s', s'.(s_Data) !! key = s.(s_Data) !! key → s'.(s_StringData) !! key = s.(s_StringData) !! key →
     Secret_Value s' key = Secret_Value s key).
Proof.
  intros Ht Hd. split_and!.
  - intros Hs. unfold Secret_Value. rewrite Hs, Hd. cbn [scalarString]. unfold DecodeString.
    by rewrite Ht, decode_encoded.
  - intros v Hs. unfold Secret_Value. by rewrite Hs.
  - intros s' Hd' Hs'. unfold Secret_Value. by rewrite Hd', Hs'.
Qed.

Lemma Secret_value_roundtrip_witness : Secret_Value sample_secret "key" = inl (Some "hello").
Proof.
  refine (proj1 (Secret_value_roundtrip sample_secret "key" "hello" "aGVsbG8=" _ _) _);
    vm_compute; reflexivity.
Defined.
