(* ===== verification/Documents.v ===== *)
(** * Decoded documents (pkg/manifest: parse.go, strip.go, equality.go, emission.go)

    A manifest is a decoded YAML or JSON document: maps, lists and scalars.  The functions
    below read its identity, strip from it what a comparison ignores and compare it.  Those
    that write in place are given a deep copy, whose containers are not shared, so a tree
    stands for it and a write is the tree it leaves; [HelmValues] has the copy itself. *)

From Stdlib Require Import Ascii.
From S2P Require Import Prelude GoPath Resource.

(** ** Trees *)

Inductive tree (A : Type) := TScalar (a : A) | TMap (m : gmap string (tree A)) | TList (l : list (tree A)).
Arguments TScalar {A}.
Arguments TMap {A}.
Arguments TList {A}.

Fixpoint depth {A} (t : tree A) : nat :=
  match t with
  | TScalar _ => 1
  | TMap m => S (map_fold (λ _ t n, depth t `max` n) 0 m)
  | TList l => S (foldr (λ t n, depth t `max` n) 0 l)
  end.

(** ** Documents *)

(** What an [any] that is no map and no list holds; [Other] is a boolean or a number, as [==]
    tells them apart, so not a NaN.  [NilMap] and [NilList] are nil containers of their
    types: they read as empty, and only [ValueEqual] tells them from one. *)
Inductive scalar (A : Type) := Null | Str (s : string) | Other (a : A) | NilMap | NilList.
Arguments Null {A}.
Arguments Str {A}.
Arguments Other {A}.
Arguments NilMap {A}.
Arguments NilList {A}.

#[export] Instance scalar_eq_dec {A} `{EqDecision A} : EqDecision (scalar A).
Proof. solve_decision. Defined.

Abbreviation any A := (tree (scalar A)).
Abbreviation fields A := (gmap string (any A)).

Definition metadataKey := "metadata".
Definition annotationsKey := "annotations".
Definition labelsKey := "labels".
Definition specKey := "spec".

Section documents.
Context {A : Type}.
Implicit Types (m doc : fields A) (v t : any A).

(** The type assertions [v.(map[string]any)] and [v.(string)]. *)
Definition as_map v : option (fields A) :=
  match v with TMap m => Some m | TScalar NilMap => Some ∅ | _ => None end.

Definition as_string v : option string := match v with TScalar (Str s) => Some s | _ => None end.

(** A field that is a map or a string, and the zero value otherwise. *)
Definition map_field m (k : string) : fields A := default ∅ (m !! k ≫= as_map).
Definition string_field m (k : string) : string := default "" (m !! k ≫= as_string).

Definition DocKind doc : string := string_field doc "kind".
Definition DocAPIVersion doc : string := string_field doc "apiVersion".

Definition apiGroup (apiVersion : string) : string :=
  let '(before, _, ok) := Cut apiVersion in if ok : bool then before else "".

(** [DocMetadata]: the name and the namespace as authored. *)
Definition DocMetadata doc : string * string :=
  let md := map_field doc metadataKey in (string_field md "name", string_field md "namespace").

Definition DocIdentity doc : NamedResource :=
  let '(name, namespace) := DocMetadata doc in mkResource (apiGroup (DocAPIVersion doc)) (DocKind doc) namespace name.

(** ** Stripping *)

(** What a write into the map under a key leaves; a nil map has nothing to write. *)
Definition within_map (f : fields A → fields A) (k : string) m : fields A :=
  match m !! k with Some (TMap x) => <[k := TMap (f x)]> m | _ => m end.

(** The same for each map of a list. *)
Definition within_items (f : fields A → fields A) (k : string) m : fields A :=
  match m !! k with
  | Some (TList l) => <[k := TList (map (λ v, match v with TMap x => TMap (f x) | v => v end) l)]> m
  | _ => m
  end.

Fixpoint HasSuffix (s p : string) : bool :=
  bool_decide (s = p) || match s with "" => false | String _ s => HasSuffix s p end.

(** Whether an attribute of the list is the key, or the prefix of it it names. *)
Definition strips (a k : string) : bool := if HasSuffix a "/" then HasPrefix k a else bool_decide (k = a).

Definition strip_attr (val : fields A) (a : string) : fields A :=
  if HasSuffix a "/" then filter (λ kv, HasPrefix kv.1 a = false) val else delete a val.

(** One turn of the loop of [stripObjectMetadata]. *)
Definition strip_key (attrs : list string) (meta : fields A) (key : string) : fields A :=
  match meta !! key with
  | Some (TMap val) =>
      let val := foldl strip_attr val attrs in
      if bool_decide (size val = 0) then delete key meta else <[key := TMap val]> meta
  | _ => meta
  end.

Definition stripObjectMetadata (attrs : list string) : fields A → fields A :=
  within_map (λ meta, foldl (strip_key attrs) meta [annotationsKey; labelsKey]) metadataKey.

(** What [StripResourceAttributes] does under [spec]. *)
Definition strip_job (attrs : list string) (jobTmpl : fields A) : fields A :=
  within_map (within_map (stripObjectMetadata attrs) "template") specKey (stripObjectMetadata attrs jobTmpl).

Definition strip_spec (attrs : list string) (spec : fields A) : fields A :=
  within_items (stripObjectMetadata attrs) "volumeClaimTemplates"
    (within_map (strip_job attrs) "jobTemplate" (within_map (stripObjectMetadata attrs) "template" spec)).

Definition StripResourceAttributes (attrs : list string) (resource : fields A) : fields A :=
  within_map (strip_spec attrs) specKey (stripObjectMetadata attrs resource).

(** [strings.Split] at dots. *)
Fixpoint dots (s : string) : list string :=
  match s with
  | "" => [""]
  | String c s => if bool_decide (c = "."%char) then "" :: dots s
                  else match dots s with p :: ps => String c p :: ps | [] => [String c ""] end
  end.

Fixpoint deleteFieldPath (segs : list string) m : fields A :=
  match segs with
  | [] => m
  | [seg] => delete seg m
  | seg :: segs => within_map (deleteFieldPath segs) seg m
  end.

Definition StripResourceFields (paths : list string) (resource : fields A) : fields A :=
  foldl (λ m p, if bool_decide (p = "") then m else deleteFieldPath (dots p) m) resource paths.

(** ** Comparing *)

(** [removeOutputField]: what the value becomes, and whether its holder drops it. *)
Fixpoint removeOutputField (path : list string) : any A → any A * bool :=
  fix go (value : any A) : any A * bool :=
    match value with
    | TMap m =>
        let m := match path with
                 | [] => m
                 | [key] => delete key m
                 | key :: rest =>
                     match m !! key with
                     | Some child => let '(child, empty) := removeOutputField rest child in
                                     if empty then delete key m else <[key := child]> m
                     | None => m
                     end
                 end in
        (TMap m, bool_decide (size m = 0))
    | TList l =>
        if bool_decide (path = ["*"]) then (TList l, true)
        else let out := map go l in (TList (map fst out), forallb snd out)
    | TScalar NilMap | TScalar NilList => (value, true)
    | TScalar _ => (value, false)
    end.

Definition remove_output_fields (owned_fields : list string) doc : fields A :=
  foldl (λ m field, match removeOutputField (dots field) (TMap m) with (TMap m, _) => m | _ => m end) doc owned_fields.

(** [IsOwnershipLabel]; the labels of the operator's objects are upstream constants. *)
Definition ownershipKeys (operator : string * string) : list (string * string) :=
  [(FluxKustomizeDomain +:+ "/name", FluxKustomizeDomain +:+ "/namespace");
   (HelmReleaseDomain +:+ "/name", HelmReleaseDomain +:+ "/namespace"); operator].

Definition IsOwnershipLabel (operator : string * string) (key : string) : bool :=
  existsb (λ keys, bool_decide (key = keys.1) || bool_decide (key = keys.2)) (ownershipKeys operator).

Definition WithoutOwnershipLabels (operator : string * string) document : fields A :=
  let metadata := map_field document metadataKey in
  let labels := map_field metadata labelsKey in
  let stamps := filter (λ kv, IsOwnershipLabel operator kv.1 = true) labels in
  if bool_decide (size stamps = 0) then document
  else
    let labels := filter (λ kv, IsOwnershipLabel operator kv.1 = false) labels in
    let metadata := if bool_decide (size labels = 0) then delete labelsKey metadata else <[labelsKey := TMap labels]> metadata in
    <[metadataKey := TMap metadata]> document.

Section equality.
Context `{EqDecision A}.

Fixpoint ValueEqual (a b : any A) : bool :=
  match a, b with
  | TMap m, TMap other =>
      bool_decide (size m = size other) &&
      map_fold (λ k v eq, eq && match other !! k with Some w => ValueEqual v w | None => false end) true m
  | TList l, TList other =>
      (fix items (l k : list (any A)) : bool :=
         match l, k with [], [] => true | x :: l, y :: k => ValueEqual x y && items l k | _, _ => false end) l other
  | TScalar x, TScalar y => bool_decide (x = y)
  | _, _ => false
  end.

(** [MapEqualExcept]; the two loops return at the first difference. *)
Definition MapEqualExcept (excluded : string → bool) (a b : fields A) : bool :=
  forallb (λ kv, excluded kv.1 || match b !! kv.1 with Some w => ValueEqual kv.2 w | None => false end) (map_to_list a) &&
  forallb (λ kv, excluded kv.1 || bool_decide (is_Some (a !! kv.1))) (map_to_list b).

(** The last part of [OutputEqual], given the documents of both sides and the leaves the
    kind owns, if it names any. *)
Definition output_of (operator : string * string) (outputFields : list string) doc : fields A :=
  WithoutOwnershipLabels operator (remove_output_fields outputFields doc).

Definition documents_equal (operator : string * string) (outputFields : list string) (a b : fields A) : bool :=
  ValueEqual (TMap (output_of operator outputFields a)) (TMap (output_of operator outputFields b)).
End equality.

End documents.

(** The leaves that do not affect what a Kustomization or a HelmRelease renders. *)
Definition Kustomization_outputFields : list string :=
  ["spec.interval"; "spec.retryInterval"; "spec.timeout"; "spec.wait"; "spec.prune"; "spec.deletionPolicy"; "spec.force";
   "spec.healthChecks.apiVersion"; "spec.healthChecks.kind"; "spec.healthChecks.name"; "spec.healthChecks.namespace";
   "spec.healthCheckExprs.apiVersion"; "spec.healthCheckExprs.kind"; "spec.healthCheckExprs.current";
   "spec.healthCheckExprs.failed"; "spec.healthCheckExprs.inProgress";
   "spec.dependsOn.name"; "spec.dependsOn.namespace"; "spec.dependsOn.readyExpr"].

Definition HelmRelease_outputFields : list string :=
  ["metadata.annotations"; "metadata.labels";
   "spec.interval"; "spec.timeout"; "spec.maxHistory"; "spec.persistentClient";
   "spec.dependsOn.name"; "spec.dependsOn.namespace"; "spec.dependsOn.readyExpr";
   "spec.driftDetection.mode"; "spec.driftDetection.ignore.paths.*"; "spec.driftDetection.ignore.target.group";
   "spec.driftDetection.ignore.target.version"; "spec.driftDetection.ignore.target.kind";
   "spec.driftDetection.ignore.target.namespace"; "spec.driftDetection.ignore.target.name";
   "spec.driftDetection.ignore.target.annotationSelector"; "spec.driftDetection.ignore.target.labelSelector";
   "spec.install.timeout"; "spec.install.strategy.name"; "spec.install.strategy.retryInterval";
   "spec.install.remediation.retries"; "spec.install.remediation.ignoreTestFailures";
   "spec.install.remediation.remediateLastFailure"; "spec.install.disableWait"; "spec.install.disableWaitForJobs";
   "spec.upgrade.timeout"; "spec.upgrade.strategy.name"; "spec.upgrade.strategy.retryInterval";
   "spec.upgrade.remediation.retries"; "spec.upgrade.remediation.ignoreTestFailures";
   "spec.upgrade.remediation.remediateLastFailure"; "spec.upgrade.remediation.strategy"; "spec.upgrade.disableWait";
   "spec.upgrade.disableWaitForJobs"; "spec.upgrade.cleanupOnFail";
   "spec.rollback.timeout"; "spec.rollback.disableWait"; "spec.rollback.disableWaitForJobs"; "spec.rollback.disableHooks";
   "spec.rollback.recreate"; "spec.rollback.force"; "spec.rollback.cleanupOnFail"; "spec.rollback.serverSideApply";
   "spec.uninstall.timeout"; "spec.uninstall.disableHooks"; "spec.uninstall.keepHistory"; "spec.uninstall.disableWait";
   "spec.uninstall.deletionPropagation"].

(** ** Trees *)

Lemma max_fold_le {A} (m : gmap string (tree A)) n : map_fold (λ _ t n, depth t `max` n) 0 m ≤ n ↔ ∀ k t, m !! k = Some t → depth t ≤ n.
Proof.
  induction m as [| k t m Hk Hf IH] using map_first_key_ind; [rewrite map_fold_empty; split; [by intros _ k t ?%lookup_empty_Some | lia] |].
  rewrite map_fold_insert_first_key by done. rewrite Nat.max_lub_iff, IH. split.
  - intros [Ht Hm] k' t' Hk'. apply lookup_insert_Some in Hk' as [[<- <-] | [_ Hk']]; [done | by eapply Hm].
  - intros Hm. split; [eapply Hm, lookup_insert_eq |]. intros k' t' Hk'. apply (Hm k'). rewrite lookup_insert_ne; [done |]. intros ->. congruence.
Qed.

Lemma depth_map {A} (m : gmap string (tree A)) k t : m !! k = Some t → depth t < depth (TMap m).
Proof. intros Hk. cbn. apply Nat.lt_succ_r. by eapply max_fold_le. Qed.

Lemma max_list_le {A} (l : list (tree A)) n : foldr (λ t n, depth t `max` n) 0 l ≤ n ↔ ∀ i t, l !! i = Some t → depth t ≤ n.
Proof.
  induction l as [| t l IH]; [split; [done | cbn; lia] |]. cbn [foldr]. rewrite Nat.max_lub_iff, IH. split.
  - intros [Ht Hl] [| i] t' Hi; [by injection Hi as <- | by eapply Hl].
  - intros Hl. split; [by apply (Hl 0) |]. intros i t' Hi. by apply (Hl (S i)).
Qed.

Lemma depth_list {A} (l : list (tree A)) i t : l !! i = Some t → depth t < depth (TList l).
Proof. intros Hi. cbn. apply Nat.lt_succ_r. by eapply max_list_le. Qed.

Lemma tree_ind' {A} (P : tree A → Prop) : (∀ a, P (TScalar a)) → (∀ m, (∀ k t, m !! k = Some t → P t) → P (TMap m)) →
  (∀ l, (∀ i t, l !! i = Some t → P t) → P (TList l)) → ∀ t, P t.
Proof.
  intros Hs Hm Hl t. remember (depth t) as n eqn:Hn. revert t Hn. induction (lt_wf n) as [n _ IH]. intros [a | m | l] ->; [done | |].
  - apply Hm. intros k t Hk. eapply IH; [by eapply depth_map | done].
  - apply Hl. intros i t Hi. eapply IH; [by eapply depth_list | done].
Qed.

(** ** Leaves *)

(** An address: the keys of maps and the positions of lists on the way to a value. *)
Inductive step := Key (k : string) | Index (i : nat).

#[export] Instance step_eq_dec : EqDecision step.
Proof. solve_decision. Defined.

Section leaves.
Context {A : Type}.
Implicit Types (m meta doc : fields A) (v t : any A) (f : fields A → fields A) (D : list step → bool).

(** The scalar at an address; a nil container is none. *)
Fixpoint leaf t (addr : list step) : option (scalar A) :=
  match addr, t with
  | [], TScalar (NilMap | NilList) => None
  | [], TScalar a => Some a
  | Key k :: addr, TMap m => t ← m !! k; leaf t addr
  | Index i :: addr, TList l => t ← l !! i; leaf t addr
  | _, _ => None
  end.

(** A function on documents removes exactly the leaves at some addresses and keeps the
    others as they are; containers left empty do not count. *)
Definition drops f D : Prop :=
  (∀ addr, D addr = true → ∃ k rest, addr = Key k :: rest) ∧
  ∀ m addr, leaf (TMap (f m)) addr = if D addr then None else leaf (TMap m) addr.

Definition nowhere (addr : list step) : bool := false.

(** The addresses below a key. *)
Definition under (k : string) D (addr : list step) : bool :=
  match addr with Key k' :: rest => bool_decide (k' = k) && D rest | _ => false end.

(** The addresses below the items of a list. *)
Definition in_items D (addr : list step) : bool := match addr with Index _ :: rest => D rest | _ => false end.

(** The addresses below the keys a predicate accepts. *)
Definition keys_where (P : string → bool) (addr : list step) : bool := match addr with Key k :: _ => P k | _ => false end.

Lemma drops_ext f D E : (∀ addr, D addr = E addr) → drops f D → drops f E.
Proof. intros He [Hk Hf]. split; [intros addr Ha; apply Hk; by rewrite He | intros m addr; by rewrite <- He]. Qed.

Lemma drops_fun f g D : (∀ m, f m = g m) → drops f D → drops g D.
Proof. intros He [Hk Hf]. split; [done |]. intros m addr. by rewrite <- He. Qed.

Lemma drops_id : drops (λ m, m) nowhere.
Proof. by split. Qed.

Lemma drops_compose f g D E : drops f D → drops g E → drops (λ m, g (f m)) (λ addr, D addr || E addr).
Proof.
  intros [Hk Hf] [Hk' Hg]. split; [intros addr [?|?]%orb_true_iff; eauto |].
  intros m addr. rewrite Hg, Hf. by destruct (D addr), (E addr).
Qed.

Lemma drops_foldl {X} (f : fields A → X → fields A) (D : X → list step → bool) (l : list X) :
  (∀ x, drops (λ m, f m x) (D x)) → drops (λ m, foldl f m l) (λ addr, existsb (λ x, D x addr) l).
Proof. intros Hf. induction l as [| x l IH]; [apply drops_id | exact (drops_compose _ _ _ _ (Hf x) IH)]. Qed.

Lemma leaf_key m k addr : leaf (TMap m) (Key k :: addr) = (m !! k ≫= λ t, leaf t addr).
Proof. done. Qed.

Lemma drops_within f D k : drops f D → drops (within_map f k) (under k D).
Proof.
  intros [Hk Hf]. split; [intros [| [k' | i] rest]; cbn; [done | eauto | done] |].
  intros m [| [k' | i] rest]; [by destruct (within_map f k m) | | done]. rewrite !leaf_key. unfold within_map. cbn [under].
  destruct (decide (k' = k)) as [-> | Hn].
  - rewrite bool_decide_true by done. cbn [andb]. destruct (m !! k) as [[a | x | l] |] eqn:E; rewrite ?lookup_insert_eq, ?E; cbn [mbind option_bind].
    + destruct (D rest) eqn:Ed; [apply Hk in Ed as (? & ? & ->); done | done].
    + apply Hf.
    + destruct (D rest) eqn:Ed; [apply Hk in Ed as (? & ? & ->); done | done].
    + by destruct (D rest).
  - rewrite bool_decide_false by done. cbn [andb]. destruct (m !! k) as [[a | x | l] |]; rewrite ?lookup_insert_ne by done; done.
Qed.

Lemma drops_items f D k : drops f D → drops (within_items f k) (under k (in_items D)).
Proof.
  intros [Hk Hf]. split; [intros [| [k' | i] rest]; cbn; [done | eauto | done] |].
  intros m [| [k' | i] rest]; [by destruct (within_items f k m) | | done]. rewrite !leaf_key. unfold within_items. cbn [under].
  destruct (decide (k' = k)) as [-> | Hn].
  - rewrite bool_decide_true by done. cbn [andb]. destruct (m !! k) as [[a | x | l] |] eqn:E; rewrite ?lookup_insert_eq, ?E; cbn [mbind option_bind].
    + by destruct rest as [| [] ?]; cbn [in_items leaf]; repeat case_match.
    + destruct rest as [| [] ?]; cbn [in_items leaf]; [done | done | by case_match].
    + destruct rest as [| [k' | i] rest]; [done | done |]. cbn [in_items leaf]. rewrite list_lookup_fmap.
      destruct (l !! i) as [[b | y | l'] |]; cbn [fmap option_fmap option_map mbind option_bind]; [| apply Hf | | by destruct (D rest)].
      * destruct (D rest) eqn:Ed; [apply Hk in Ed as (? & ? & ->); done | done].
      * destruct (D rest) eqn:Ed; [apply Hk in Ed as (? & ? & ->); done | done].
    + by destruct (in_items D rest).
  - rewrite bool_decide_false by done. cbn [andb]. destruct (m !! k) as [[a | x | l] |]; rewrite ?lookup_insert_ne by done; done.
Qed.

Lemma drops_keys f (P : string → bool) : (∀ m k, f m !! k = if P k then None else m !! k) → drops f (keys_where P).
Proof.
  intros Hf. split; [intros [| [k | i] rest]; cbn; [done | eauto | done] |].
  intros m [| [k | i] rest]; [by destruct (f m) | | done]. rewrite !leaf_key, Hf. cbn [keys_where]. by destruct (P k).
Qed.

Lemma drops_delete k : drops (delete k) (keys_where (λ k', bool_decide (k' = k))).
Proof. apply drops_keys. intros m k'. case_bool_decide as Hk; [subst; apply lookup_delete_eq | by apply lookup_delete_ne]. Qed.

(** ** Stripping *)

Lemma drops_strip_attr a : drops (λ val, strip_attr val a) (keys_where (strips a)).
Proof.
  apply drops_keys. intros m k. unfold strip_attr, strips. destruct (HasSuffix a "/").
  - destruct (HasPrefix k a) eqn:Hp.
    + apply map_lookup_filter_None. right. intros v _. cbn [fst]. by rewrite Hp.
    + destruct (m !! k) as [v |] eqn:E; [by apply map_lookup_filter_Some | apply map_lookup_filter_None; by left].
  - case_bool_decide as Hk; [subst; apply lookup_delete_eq | by apply lookup_delete_ne].
Qed.

Lemma size_none m addr : size m = 0 → leaf (TMap m) addr = None.
Proof. intros ->%map_size_empty_inv. destruct addr as [| [] ?]; [done | | done]. rewrite leaf_key. by rewrite lookup_empty. Qed.

(** What the loop over the attributes removes from one of the two maps. *)
Definition stripped (attrs : list string) : list step → bool := keys_where (λ k, existsb (λ a, strips a k) attrs).

Lemma drops_strip_attrs attrs : drops (λ val, foldl strip_attr val attrs) (stripped attrs).
Proof.
  eapply drops_ext; [| apply drops_foldl, drops_strip_attr]. intros [| [k | i] rest]; cbn; [| done |]; by induction attrs.
Qed.

(** A write into the map under a key that drops it once empty. *)
Definition pruned f (key : string) meta : fields A :=
  match meta !! key with
  | Some (TMap val) => if bool_decide (size (f val) = 0) then delete key meta else <[key := TMap (f val)]> meta
  | _ => meta
  end.

Lemma drops_pruned f D key : drops f D → drops (pruned f key) (under key D).
Proof.
  intros Hd. destruct (drops_within _ _ key Hd) as [Hk Hf]. split; [done |]. intros m addr. rewrite <- Hf. unfold pruned, within_map.
  destruct (m !! key) as [[a | val | l] |] eqn:E; [done | | done | done]. case_bool_decide as Hs; [| done].
  destruct addr as [| [k | i] rest]; [done | | done]. rewrite !leaf_key. destruct (decide (k = key)) as [-> | Hn].
  - rewrite lookup_delete_eq, lookup_insert_eq. cbn [mbind option_bind]. by rewrite size_none.
  - by rewrite lookup_delete_ne, lookup_insert_ne.
Qed.

Lemma drops_strip_key attrs key : drops (λ meta, strip_key attrs meta key) (under key (stripped attrs)).
Proof. exact (drops_pruned _ _ key (drops_strip_attrs attrs)). Qed.

(** What is stripped from the metadata of one object. *)
Definition metadata_stripped (attrs : list string) : list step → bool :=
  under metadataKey (λ addr, under annotationsKey (stripped attrs) addr || (under labelsKey (stripped attrs) addr || false)).

Lemma drops_metadata attrs : drops (stripObjectMetadata (A := A) attrs) (metadata_stripped attrs).
Proof. apply drops_within. exact (drops_foldl _ (λ key, under key (stripped attrs)) [annotationsKey; labelsKey] (drops_strip_key attrs)). Qed.

(** What is stripped from a resource: its own metadata, and that of its templates. *)
Definition attributes_stripped (attrs : list string) (addr : list step) : bool :=
  metadata_stripped attrs addr ||
  under specKey (λ addr,
    (under "template" (metadata_stripped attrs) addr ||
     under "jobTemplate" (λ addr, metadata_stripped attrs addr || under specKey (under "template" (metadata_stripped attrs)) addr) addr) ||
    under "volumeClaimTemplates" (in_items (metadata_stripped attrs)) addr) addr.

Lemma drops_attributes attrs : drops (StripResourceAttributes (A := A) attrs) (attributes_stripped attrs).
Proof.
  pose proof (drops_metadata attrs) as Hm.
  assert (drops (strip_job (A := A) attrs) (λ addr, metadata_stripped attrs addr || under specKey (under "template" (metadata_stripped attrs)) addr)) as Hj.
  { exact (drops_compose _ _ _ _ Hm (drops_within _ _ specKey (drops_within _ _ "template" Hm))). }
  pose proof (drops_compose _ _ _ _ (drops_within _ _ "template" Hm) (drops_within _ _ "jobTemplate" Hj)) as Ht.
  exact (drops_compose _ _ _ _ Hm (drops_within _ _ specKey (drops_compose _ _ _ _ Ht (drops_items _ _ "volumeClaimTemplates" Hm)))).
Qed.

(** The addresses a dotted path leads to or through. *)
Fixpoint path_above (segs : list string) (addr : list step) : bool :=
  match segs with
  | [] => false
  | [seg] => keys_where (λ k, bool_decide (k = seg)) addr
  | seg :: segs => under seg (path_above segs) addr
  end.

Lemma drops_path segs : drops (deleteFieldPath (A := A) segs) (path_above segs).
Proof. induction segs as [| seg [| seg' segs] IH]; [apply drops_id | apply drops_delete | by apply drops_within]. Qed.

Definition fields_stripped (paths : list string) (addr : list step) : bool :=
  existsb (λ p, negb (bool_decide (p = "")) && path_above (dots p) addr) paths.

Lemma drops_fields paths : drops (StripResourceFields (A := A) paths) (fields_stripped paths).
Proof.
  apply (drops_foldl _ (λ p addr, negb (bool_decide (p = "")) && path_above (dots p) addr)). intros p.
  case_bool_decide; [apply drops_id | apply drops_path].
Qed.
End leaves.

(** ** Owned leaves *)

Section outputs.
Context {A : Type}.
Implicit Types (m doc : fields A) (v t : any A) (addr : list step).

(** The addresses a field path leads to or through: lists on the way are looked through,
    and a last [*] is all of a list. *)
Fixpoint owned (path : list string) addr : bool :=
  match addr with
  | [] => false
  | Index _ :: addr => bool_decide (path = ["*"]) || owned path addr
  | Key k :: addr =>
      match path with
      | [] => false
      | [key] => bool_decide (k = key)
      | key :: rest => bool_decide (k = key) && owned rest addr
      end
  end.

Lemma removeOutputField_map path m : removeOutputField path (TMap m) =
  let m' := match path with
            | [] => m
            | [key] => delete key m
            | key :: rest =>
                match m !! key with
                | Some child => let '(child, empty) := removeOutputField rest child in
                                if empty : bool then delete key m else <[key := child]> m
                | None => m
                end
            end in
  (TMap m', bool_decide (size m' = 0)).
Proof. by destruct path. Qed.

Lemma removeOutputField_list path l : removeOutputField path (TList l) =
  if bool_decide (path = ["*"]) then (TList l, true)
  else (TList (map (λ v, (removeOutputField path v : any A * bool).1) l), forallb (λ v, (removeOutputField path v).2) l).
Proof.
  assert (∀ g : any A → any A * bool, forallb snd (map g l) = forallb (λ v, (g v).2) l) as Hb by (intros g; induction l as [| x l IH]; cbn; [done | by rewrite IH]).
  destruct path; cbn; case_bool_decide; try done; by rewrite map_map, Hb.
Qed.

Lemma leaf_index (l : list (any A)) i addr : leaf (TList l) (Index i :: addr) = (l !! i ≫= λ t, leaf t addr).
Proof. done. Qed.

(** What its holder keeps of a value has exactly the leaves that are not owned; and a value
    its holder drops has none left, unless all of it was owned. *)
Definition removed_exactly (path : list string) v : Prop :=
  let '(v', empty) := removeOutputField path v in
  (∀ addr, (if empty : bool then None else leaf v' addr) = if owned path addr then None else leaf v addr) ∧
  (empty = true → (path = ["*"] ∧ ∃ l, v = TList l) ∨ ∀ addr, leaf v' addr = None).

Lemma removed_scalar path (a : scalar A) : removed_exactly path (TScalar a).
Proof.
  unfold removed_exactly. destruct path, a; cbn; split; try done; try (intros [| [] ?]; cbn; repeat case_match; done); right; by intros [| [] ?].
Qed.

Lemma removed_map path m : (∀ rest k t, m !! k = Some t → removed_exactly rest t) → removed_exactly path (TMap m).
Proof.
  intros IH. unfold removed_exactly. rewrite removeOutputField_map. cbn zeta.
  set (m' := match path with [] => m | _ => _ end).
  assert (∀ addr, leaf (TMap m') addr = if owned path addr then None else leaf (TMap m) addr) as Hm.
  { intros [| [k | i] addr]; [by destruct path | | by cbn; case_match]. rewrite !leaf_key. subst m'. destruct path as [| key [| key' rest]]; cbn [owned]; [done | |].
    - case_bool_decide as Hk; [subst; by rewrite lookup_delete_eq | by rewrite lookup_delete_ne].
    - destruct (m !! key) as [child |] eqn:E.
      + specialize (IH (key' :: rest) key child E). unfold removed_exactly in IH.
        destruct (removeOutputField (key' :: rest) child) as [c e]. destruct IH as [Hc _]. specialize (Hc addr).
        case_bool_decide as Hk; cbn [andb].
        * subst k. rewrite E. cbn [mbind option_bind]. rewrite <- Hc. destruct e; by rewrite ?lookup_delete_eq, ?lookup_insert_eq.
        * destruct e; by rewrite ?lookup_delete_ne, ?lookup_insert_ne.
      + case_bool_decide as Hk; [| done]. subst. rewrite E. cbn. by case_match. }
  case_bool_decide as Hs; (split; [intros addr; rewrite <- Hm; try done; by rewrite size_none |]); [| done].
  intros _. right. intros addr. by apply size_none.
Qed.

Lemma removed_list path (l : list (any A)) : (∀ i t, l !! i = Some t → removed_exactly path t) → removed_exactly path (TList l).
Proof.
  intros IH. unfold removed_exactly. rewrite removeOutputField_list. case_bool_decide as Hp.
  - split; [| left; eauto]. intros [| [k | i] addr]; cbn [owned leaf]; [done | by case_match |]. by rewrite bool_decide_true.
  - assert (∀ addr, leaf (TList (map (λ v, (removeOutputField path v).1) l)) addr = if owned path addr then None else leaf (TList l) addr) as Hl.
    { intros [| [k | i] addr]; [done | cbn; by case_match |]. rewrite !leaf_index. cbn [owned]. rewrite bool_decide_false by done. cbn [orb].
      rewrite list_lookup_fmap. destruct (l !! i) as [t |] eqn:E; [| cbn; by case_match]. cbn [fmap option_fmap option_map mbind option_bind].
      specialize (IH i t E). unfold removed_exactly in IH. destruct (removeOutputField path t) as [t' e]. destruct IH as [Ht He].
      rewrite <- Ht. destruct e; [| done]. destruct He as [[? _] | He]; [done..|]. apply He. }
    assert (forallb (λ v, (removeOutputField path v).2) l = true → ∀ addr, leaf (TList (map (λ v, (removeOutputField path v).1) l)) addr = None) as Hn.
    { intros Hall [| [k | i] addr]; [done.. |]. rewrite leaf_index, list_lookup_fmap. destruct (l !! i) as [t |] eqn:E; [| done]. cbn [fmap option_fmap option_map mbind option_bind].
      specialize (IH i t E). unfold removed_exactly in IH. assert ((removeOutputField path t).2 = true) as Ht.
      { apply (proj1 (forallb_forall _ _) Hall t), list_elem_of_In. by eapply list_elem_of_lookup_2. }
      destruct (removeOutputField path t) as [t' e]. destruct IH as [_ He]. destruct (He Ht) as [[? _] | Hno]; [done | apply Hno]. }
    split; [| intros Hall; right; by apply Hn]. intros addr. rewrite <- Hl. case_match eqn:Hall; [by rewrite Hn | done].
Qed.

Lemma removeOutputField_spec path v : removed_exactly path v.
Proof.
  revert path. induction v as [a | m IH | l IH] using tree_ind'; intros path.
  - apply removed_scalar.
  - apply removed_map. eauto.
  - apply removed_list. eauto.
Qed.

(** The leaves of a document that a field path owns. *)
Definition owned_leaf (field : string) addr : bool := match addr with Key _ :: _ => owned (dots field) addr | _ => false end.

Lemma drops_output field : drops (A := A) (λ m, match removeOutputField (dots field) (TMap m) with (TMap m, _) => m | _ => m end) (owned_leaf field).
Proof.
  split; [intros [| [k | i] addr]; [done | eauto | done] |].
  intros m addr. pose proof (removeOutputField_spec (dots field) (TMap m)) as Hs. unfold removed_exactly in Hs.
  rewrite removeOutputField_map in *. cbn zeta in *. destruct Hs as [Hl He]. specialize (Hl addr). destruct addr as [| [k | i] addr]; [done | | done].
  cbn [owned_leaf]. rewrite <- Hl. case_bool_decide as Hn; [by apply size_none | done].
Qed.

(** Whether an address is an ownership label. *)
Definition stamp (operator : string * string) : list step → bool := under metadataKey (under labelsKey (keys_where (IsOwnershipLabel operator))).

Lemma leaf_map_field m k k' addr : leaf (TMap m) (Key k :: Key k' :: addr) = leaf (TMap (map_field m k)) (Key k' :: addr).
Proof. unfold map_field. rewrite leaf_key. by destruct (m !! k) as [[[] | x | l] |]. Qed.

Lemma size_filter_empty m (P : string → bool) k : size (filter (λ kv, P kv.1 = true) m) = 0 → P k = true → m !! k = None.
Proof.
  intros Hs%map_size_empty_inv Hk. destruct (m !! k) as [v |] eqn:E; [| done]. exfalso.
  assert (filter (λ kv : string * any A, P kv.1 = true) m !! k = Some v) as Hf by (by apply map_lookup_filter_Some).
  by rewrite Hs, lookup_empty in Hf.
Qed.

Lemma drops_stamps operator : drops (A := A) (WithoutOwnershipLabels operator) (stamp operator).
Proof.
  set (keep := λ val : fields A, filter (λ kv, IsOwnershipLabel operator kv.1 = false) val).
  assert (drops (within_map (pruned keep labelsKey) metadataKey) (stamp operator)) as [Hk Hd].
  { apply drops_within, drops_pruned, drops_keys. intros m k. destruct (IsOwnershipLabel operator k) eqn:Ho.
    - apply map_lookup_filter_None. right. intros v _. cbn [fst]. by rewrite Ho.
    - destruct (m !! k) as [v |] eqn:E; [by apply map_lookup_filter_Some | apply map_lookup_filter_None; by left]. }
  split; [done |]. intros m addr. unfold WithoutOwnershipLabels. cbn zeta. case_bool_decide as Hs.
  - destruct (stamp operator addr) eqn:Ha; [| done]. destruct addr as [| [k | ?] [| [k1 | ?] [| [k2 | ?] addr]]]; cbn [stamp under keys_where andb] in Ha; bool_to_prop; try done. subst.
    by rewrite !leaf_map_field, leaf_key, (size_filter_empty _ (IsOwnershipLabel operator)).
  - rewrite <- Hd. f_equal. f_equal. unfold within_map, pruned. unfold map_field in *. destruct (m !! metadataKey) as [[[] | md | l] |]; try (by destruct Hs).
    cbn [mbind option_bind as_map from_option] in *. unfold id in *. destruct (md !! labelsKey) as [[[] | lb | l] |]; try (by destruct Hs).
    cbn [mbind option_bind as_map from_option] in *. subst keep. cbn beta. by case_bool_decide.
Qed.

Definition output_owned (operator : string * string) (outputFields : list string) addr : bool :=
  existsb (λ field, owned_leaf field addr) outputFields || stamp operator addr.

Lemma drops_output_of operator outputFields : drops (A := A) (output_of operator outputFields) (output_owned operator outputFields).
Proof. exact (drops_compose _ _ _ _ (drops_foldl _ owned_leaf outputFields drops_output) (drops_stamps operator)). Qed.
End outputs.

(** ** Equality *)

Section equal.
Context {A : Type} `{EqDecision A}.
Implicit Types (m doc : fields A) (v t : any A) (addr : list step).

Lemma fold_and {V} (f : string → V → bool) (m : gmap string V) :
  map_fold (λ k (x : V) eq, eq && f k x) true m = true ↔ ∀ k (x : V), m !! k = Some x → f k x = true.
Proof.
  induction m as [| k x m Hk Hf IH] using map_first_key_ind; [rewrite map_fold_empty; split; [by intros _ k' x ?%lookup_empty_Some | done] |].
  rewrite map_fold_insert_first_key by done. rewrite andb_true_iff, IH. split.
  - intros [Hm Hv] k' v' Hk'. apply lookup_insert_Some in Hk' as [[<- <-] | [_ Hk']]; [done | by apply Hm].
  - intros Hm. split; [| apply Hm, lookup_insert_eq]. intros k' v' Hk'. apply Hm. rewrite lookup_insert_ne; [done |]. intros ->. congruence.
Qed.

Lemma same_keys (m n : fields A) : size m = size n → (∀ k v, m !! k = Some v → n !! k = Some v) → m = n.
Proof.
  intros Hs Hm. apply map_eq. intros k. destruct (m !! k) as [v |] eqn:E; [by rewrite (Hm k v) |].
  destruct (n !! k) as [w |] eqn:E'; [| done]. exfalso.
  assert (dom m ⊂ dom n) as Hd.
  { split; [intros k' [v Hv]%elem_of_dom; apply elem_of_dom; eauto | intros Hsub]. apply not_elem_of_dom in E. apply E, Hsub, elem_of_dom. eauto. }
  apply subset_size in Hd. rewrite !size_dom in Hd. lia.
Qed.

(** [ValueEqual] and [reflect.DeepEqual] tell apart exactly what differs. *)
Lemma ValueEqual_spec (a b : any A) : ValueEqual a b = true ↔ a = b.
Proof.
  revert b. induction a as [x | m IH | l IH] using tree_ind'; intros [y | n | k]; cbn [ValueEqual]; try (by split).
  - rewrite bool_decide_eq_true. split; congruence.
  - rewrite andb_true_iff, bool_decide_eq_true, (fold_and (λ k v, match n !! k with Some w => ValueEqual v w | None => false end)). split.
    + intros [Hs Hm]. f_equal. apply same_keys; [done |]. intros k v Hk. specialize (Hm k v Hk). destruct (n !! k) as [w |]; [| done].
      apply (IH k v Hk) in Hm. by subst.
    + intros [= ->]. split; [done |]. intros k v Hk. rewrite Hk. by apply (IH k v Hk).
  - revert k. induction l as [| x l IHl]; intros [| y k]; try (by split). rewrite andb_true_iff, (IH 0 x eq_refl), IHl by (intros i t Hi; exact (IH (S i) t Hi)).
    split; [intros [-> [= ->]] | intros [= -> ->]]; done.
Qed.

#[export] Instance any_eq_dec : EqDecision (any A) := λ a b, match ValueEqual a b as e return (ValueEqual a b = e → _) with
  | true => λ H, left (proj1 (ValueEqual_spec a b) H)
  | false => λ H, right (λ E, Bool.diff_false_true (eq_trans (eq_sym H) (proj2 (ValueEqual_spec a b) E)))
  end eq_refl.

(** [MapEqualExcept] compares what is not excluded. *)
Lemma MapEqualExcept_spec excluded (a b : fields A) :
  MapEqualExcept excluded a b = true ↔ ∀ k, excluded k = false → a !! k = b !! k.
Proof.
  unfold MapEqualExcept. rewrite andb_true_iff, !forallb_forall. split.
  - intros [Ha Hb] k Hk. destruct (a !! k) as [v |] eqn:E.
    + specialize (Ha (k, v)). cbn in Ha. rewrite Hk in Ha. cbn in Ha. destruct (b !! k) as [w |].
      * f_equal. apply ValueEqual_spec, Ha, list_elem_of_In, elem_of_map_to_list, E.
      * discriminate Ha. apply list_elem_of_In, elem_of_map_to_list, E.
    + destruct (b !! k) as [w |] eqn:E'; [| done]. specialize (Hb (k, w)). cbn in Hb. rewrite Hk, E in Hb.
      discriminate Hb. apply list_elem_of_In, elem_of_map_to_list, E'.
  - intros He. split; intros [k v] Hin%list_elem_of_In%elem_of_map_to_list; cbn; destruct (excluded k) eqn:Hk; [done | | done |].
    + rewrite <- He, Hin by done. by apply ValueEqual_spec.
    + apply bool_decide_eq_true. rewrite He, Hin by done. by eexists.
Qed.
End equal.

(** ** Outputs *)

Section claims.
Context {A : Type} `{EqDecision A}.

(** Two declarations render alike exactly when what is left of their documents is
    the same, and what is left has exactly the leaves that the kind does not own and that are
    no ownership labels: an unknown field is significant. *)
Theorem output_exact operator outputFields (a b : fields A) :
  (documents_equal operator outputFields a b = true ↔ output_of operator outputFields a = output_of operator outputFields b) ∧
  ∀ addr, leaf (TMap (output_of operator outputFields a)) addr = if output_owned operator outputFields addr then None else leaf (TMap a) addr.
Proof.
  split; [unfold documents_equal; rewrite ValueEqual_spec; split; congruence |].
  apply drops_output_of.
Qed.
End claims.

(** A field an operator of releases owns does not count, one it does not know does. *)
Example release_outputs :
  let release (interval : string) (extra : fields nat) : fields nat :=
    {["metadata" := TMap {["name" := TScalar (Str "web")]};
      "spec" := TMap ({["interval" := TScalar (Str interval);
                        "dependsOn" := TList [TMap {["name" := TScalar (Str interval)]}]]} ∪ extra)]} in
  let equal := documents_equal ("op/name", "op/namespace") HelmRelease_outputFields in
  equal (release "1m" ∅) (release "2m" ∅) = true ∧ equal (release "1m" ∅) (release "1m" {["chart" := TScalar Null]}) = false.
Proof. split; vm_compute; reflexivity. Qed.
