(* ===== verification/Images.v ===== *)
(** * Image references of documents (pkg/image, internal/imageutil)

    [Extract] walks a rendered document and gathers the references of its image fields, and
    full references anywhere else.  What parses as a reference is decided by the reference
    grammar of the container distribution, a parameter. *)

From Stdlib Require Import Ascii.
From S2P Require Import Prelude GoPath Paths Resource Documents.

Section images.
Context {A : Type}.
(** [reference.ParseNormalizedNamed]: whether what it parses is tagged, and digested. *)
Context (ParseNormalizedNamed : string → option (bool * bool)).

(** [strings.ContainsAny] of a text and two bytes. *)
Fixpoint contains_byte (s : string) (c : ascii) : bool := match s with "" => false | String x s => bool_decide (x = c) || contains_byte s c end.
Definition ContainsAny (s chars : string) : bool := existsb (contains_byte s) (String.list_ascii_of_string chars).

(** [isImageRef]. *)
Definition isImageRef (s : string) (declared : bool) : bool :=
  if negb declared && ((String.length s <? 5) || Paths.Contains s "://" || HasPrefix s "/") then false
  else if negb declared && (negb (ContainsAny s ":@") || Paths.Contains s "${" || negb (Paths.Contains s "/")) then false
  else match ParseNormalizedNamed s with
       | None => false
       | Some (tagged, digested) => declared || tagged || digested
       end.

(** Whether a key names an image. *)
Definition image_key (key : string) : bool := bool_decide (key = "image") || bool_decide (key = "imageName") || HasSuffix key "Image".

Definition is_string (v : any A) : bool := bool_decide (is_Some (as_string v)).

(** Whether the value of a field is declared to be an image. *)
Definition child_declared (declared : bool) (key : string) (child : any A) : bool :=
  if declared && bool_decide (key = "reference") then is_string child else image_key key.

(** [walk], and the set that it leaves. *)
Fixpoint walk (v : any A) (declared : bool) (set : gset string) : gset string :=
  match v with
  | TMap m => map_fold (λ key child set, walk child (child_declared declared key child) set) set m
  | TList l => foldl (λ set item, walk item false set) set l
  | TScalar (Str s) => if isImageRef s declared then {[s]} ∪ set else set
  | TScalar _ => set
  end.

(** [Extract]; nil when it found nothing. *)
Definition Extract (doc : fields A) : list string := sort_by compare (elements (walk (TMap doc) false ∅)).

(** [Collect], over the documents of the batches in order. *)
Definition Collect (batches : list (list (fields A))) : gset string :=
  foldl (λ set batch, foldl (λ set doc, foldl (λ set img, {[img]} ∪ set) set (Extract doc)) set batch) ∅ batches.

(** ** What is found *)

(** Where a value stands, from the last step to it: in an image field, or as the reference
    that an image field holds. *)
Definition declared_step (rev_addr : list step) : bool :=
  match rev_addr with
  | Key k :: rest => image_key k || bool_decide (k = "reference") && match rest with Key k' :: _ => image_key k' | _ => false end
  | _ => false
  end.

Definition declared_at (addr : list step) : bool := declared_step (reverse addr).

(** A reference found in a value below an address. *)
Definition found (above : list step) (declared : bool) (v : any A) (s : string) : Prop :=
  ∃ addr, leaf v addr = Some (Str s) ∧ isImageRef s (match addr with [] => declared | _ => declared_at (above ++ addr) end) = true.

Lemma declared_snoc above k : declared_at (above ++ [Key k]) = image_key k || bool_decide (k = "reference") && match reverse above with Key k' :: _ => image_key k' | _ => false end.
Proof. unfold declared_at. by rewrite reverse_snoc. Qed.

Lemma image_key_reference : image_key "reference" = false.
Proof. done. Qed.
End images.

Section finding.
Context {A : Type} (ParseNormalizedNamed : string → option (bool * bool)).
Notation is_image := (isImageRef ParseNormalizedNamed).
Implicit Types (v : any A) (m : fields A) (above addr : list step) (s : string).

(** The declaration a map passes to a field is that of the field's address, when its own is
    whether its last key names an image. *)
Definition holds_image above : bool := match reverse above with Key k :: _ => image_key k | _ => false end.

Lemma child_declared_string declared above key v : declared = holds_image above → is_string v = true → child_declared declared key v = declared_at (above ++ [Key key]).
Proof.
  intros -> Hs. rewrite declared_snoc. unfold child_declared. fold (holds_image above). rewrite Hs.
  destruct (bool_decide_reflect (key = "reference")) as [-> | Hk]; [rewrite image_key_reference, andb_true_r; cbn [orb andb]; by destruct (holds_image above) | by rewrite andb_false_r, orb_false_r].
Qed.

(** For anything else it says whether the last key names an image. *)
Lemma child_declared_other declared above key v : is_string v = false → child_declared declared key v = holds_image (above ++ [Key key]).
Proof.
  intros Hs. unfold child_declared, holds_image. rewrite Hs, reverse_snoc. destruct (bool_decide_reflect (key = "reference")) as [-> | Hk]; [| by rewrite andb_false_r].
  rewrite andb_true_r, image_key_reference. by destruct declared.
Qed.

Lemma fold_found {K} `{Countable K} (m : gmap K (any A)) (d : K → any A → bool) (set : gset string) (P : K → any A → string → Prop) s :
  (∀ k v set, m !! k = Some v → s ∈ walk ParseNormalizedNamed v (d k v) set ↔ s ∈ set ∨ P k v s) →
  s ∈ map_fold (λ k v set, walk ParseNormalizedNamed v (d k v) set) set m ↔ s ∈ set ∨ ∃ k v, m !! k = Some v ∧ P k v s.
Proof.
  revert set. induction m as [| k v m Hk Hf IH] using map_first_key_ind; intros set Hw.
  - rewrite map_fold_empty. split; [by left | intros [? | (k & v & Hv & _)]; [done | by rewrite lookup_empty in Hv]].
  - rewrite map_fold_insert_first_key by done. rewrite (Hw k v) by apply lookup_insert_eq. rewrite IH.
    + split.
      * intros [[? | (k' & v' & Hv & ?)] | ?]; [by left | right; exists k', v'; split; [rewrite lookup_insert_ne; [done | congruence] | done] | right; exists k, v; split; [apply lookup_insert_eq | done]].
      * intros [? | (k' & v' & Hv & ?)]; [tauto |]. apply lookup_insert_Some in Hv as [[<- <-] | [_ Hv]]; [by right | left; right; by exists k', v'].
    + intros k' v' set' Hv. apply Hw. rewrite lookup_insert_ne; [done | congruence].
Qed.

Lemma foldl_found (l : list (any A)) (set : gset string) (P : nat → any A → string → Prop) s :
  (∀ i v set, l !! i = Some v → s ∈ walk ParseNormalizedNamed v false set ↔ s ∈ set ∨ P i v s) →
  s ∈ foldl (λ set v, walk ParseNormalizedNamed v false set) set l ↔ s ∈ set ∨ ∃ i v, l !! i = Some v ∧ P i v s.
Proof.
  revert set P. induction l as [| v l IH]; intros set P Hw; cbn [foldl].
  - split; [by left | intros [? | (i & v & Hv & _)]; [done | by rewrite lookup_nil in Hv]].
  - rewrite (IH _ (λ i, P (S i))) by (intros i v' set' Hv; by apply (Hw (S i))). rewrite (Hw 0 v) by done. split.
    + intros [[? | ?] | (i & v' & ? & ?)]; [by left | right; by exists 0, v | right; by exists (S i), v'].
    + intros [? | ([| i] & v' & Hv & ?)]; [tauto | cbn in Hv; injection Hv as <-; tauto | right; by exists i, v'].
Qed.

Lemma found_scalar above declared a s : found ParseNormalizedNamed above declared (TScalar a : any A) s ↔ a = Str s ∧ is_image s declared = true.
Proof.
  split.
  - intros ([| [k | i] addr] & Hl & Hi); cbn in Hl; [| done..]. by destruct a; simplify_eq.
  - intros [-> Hi]. by exists [].
Qed.

(** A value below a key or an index, whose own declaration is [d]. *)
Lemma found_below above st d v s : (is_string v = true → d = declared_at (above ++ [st])) →
  found ParseNormalizedNamed (above ++ [st]) d v s ↔ ∃ addr, leaf v addr = Some (Str s) ∧ is_image s (declared_at (above ++ st :: addr)) = true.
Proof.
  intros Hd. assert (leaf v [] = Some (Str s) → d = declared_at (above ++ [st])) as He by (intros Hl; apply Hd, bool_decide_eq_true; destruct v as [[] | |]; (discriminate Hl || by eexists)).
  split; intros ([| x addr] & Hl & Hi); [exists [] | exists (x :: addr) | exists [] | exists (x :: addr)]; (split; [done |]).
  - by rewrite <- He.
  - by rewrite <- app_assoc in Hi.
  - by rewrite He.
  - by rewrite <- app_assoc.
Qed.

Lemma walk_found v : ∀ above declared set s, (is_string v = false → declared = holds_image above) →
  s ∈ walk ParseNormalizedNamed v declared set ↔ s ∈ set ∨ found ParseNormalizedNamed above declared v s.
Proof.
  induction v as [a | m IH | l IH] using tree_ind'; intros above declared set s Hd.
  - rewrite found_scalar. cbn [walk]. destruct a; try (split; [by left | by intros [? | [? _]]]). destruct (is_image s0 declared) eqn:E.
    + rewrite elem_of_union, elem_of_singleton. split; [intros [-> | ?]; [by right | by left] | intros [? | [[= ->] _]]; [by right | by left]].
    + split; [by left |]. intros [? | [[= ->] ?]]; [done | congruence].
  - cbn [walk]. rewrite (fold_found m (child_declared declared) set (λ k v s, found ParseNormalizedNamed (above ++ [Key k]) (child_declared declared k v) v s)).
    + assert ((∃ k v, m !! k = Some v ∧ found ParseNormalizedNamed (above ++ [Key k]) (child_declared declared k v) v s) ↔ found ParseNormalizedNamed above declared (TMap m) s) as ->; [| done]. split.
      * intros (k & v & Hk & Hf). apply found_below in Hf as (addr & Hl & Hi); [| intros Hs; apply child_declared_string; [by apply Hd | done]]. exists (Key k :: addr). rewrite leaf_key, Hk. done.
      * intros ([| [k | i] addr] & Hl & Hi); [done | | done]. rewrite leaf_key in Hl. destruct (m !! k) as [v |] eqn:Hk; [| done]. exists k, v. split; [done |]. apply found_below; [intros Hs; apply child_declared_string; [by apply Hd | done] | by exists addr].
    + intros k v set' Hk. apply (IH k v Hk). by apply child_declared_other.
  - cbn [walk]. rewrite (foldl_found l set (λ i v s, found ParseNormalizedNamed (above ++ [Index i]) false v s)).
    + assert (∀ i, declared_at (above ++ [Index i]) = false) as Hi by (intros i; unfold declared_at; by rewrite reverse_snoc).
      assert ((∃ i v, l !! i = Some v ∧ found ParseNormalizedNamed (above ++ [Index i]) false v s) ↔ found ParseNormalizedNamed above declared (TList l) s) as ->; [| done]. split.
      * intros (i & v & Hv & Hf). apply found_below in Hf as (addr & Hl & Hf); [| by rewrite Hi]. exists (Index i :: addr). rewrite leaf_index, Hv. done.
      * intros ([| [k | i] addr] & Hl & Hf); [done | done |]. rewrite leaf_index in Hl. destruct (l !! i) as [v |] eqn:Hv; [| done]. exists i, v. split; [done |]. apply found_below; [by rewrite Hi | by exists addr].
    + intros i v set' Hv. apply (IH i v Hv). intros _. unfold holds_image. by rewrite reverse_snoc.
Qed.
End finding.

(** Claim C28: the images of a document are, in order and once each, the strings in it that
    are references where they stand: in a field named for an image, or in the reference of
    a map that such a field holds, anything that parses; elsewhere only what has a path and
    a tag or a digest and is no URL, no absolute path and no template. *)
Theorem Extract_exact {A} parse (doc : fields A) : StronglySorted (λ a b, compare a b = Lt) (Extract parse doc) ∧
  ∀ s, s ∈ Extract parse doc ↔ ∃ addr, leaf (TMap doc) addr = Some (Str s) ∧ isImageRef parse s (declared_at addr) = true.
Proof.
  split; [apply sort_by_strict, NoDup_elements |]. intros s. unfold Extract. rewrite elem_of_sort_by, elem_of_elements, (walk_found parse (TMap doc) [] false ∅ s) by done.
  rewrite elem_of_empty. split.
  - intros [[] | (addr & Hl & Hi)]. exists addr. split; [done |]. by destruct addr.
  - intros (addr & Hl & Hi). right. exists addr. split; [done |]. by destruct addr.
Qed.

(** The images of batches are those of their documents. *)
Theorem Collect_exact {A} parse (batches : list (list (fields A))) s : s ∈ Collect parse batches ↔ ∃ batch doc, batch ∈ batches ∧ doc ∈ batch ∧ s ∈ Extract parse doc.
Proof.
  assert (∀ (l : list string) (set : gset string), s ∈ foldl (λ set img, {[img]} ∪ set) set l ↔ s ∈ set ∨ s ∈ l) as Himg.
  { intros l. induction l as [| x l IH]; intros set; cbn [foldl]; [rewrite elem_of_nil; tauto |]. rewrite IH, elem_of_union, elem_of_singleton, elem_of_cons. tauto. }
  assert (∀ (l : list (fields A)) (set : gset string), s ∈ foldl (λ set doc, foldl (λ set img, {[img]} ∪ set) set (Extract parse doc)) set l ↔ s ∈ set ∨ ∃ doc, doc ∈ l ∧ s ∈ Extract parse doc) as Hdoc.
  { intros l. induction l as [| x l IH]; intros set; cbn [foldl]; [setoid_rewrite elem_of_nil; naive_solver |]. rewrite IH, Himg. setoid_rewrite elem_of_cons. naive_solver. }
  assert (∀ (set : gset string), s ∈ foldl (λ set batch, foldl (λ set doc, foldl (λ set img, {[img]} ∪ set) set (Extract parse doc)) set batch) set batches ↔ s ∈ set ∨ ∃ batch doc, batch ∈ batches ∧ doc ∈ batch ∧ s ∈ Extract parse doc) as Hall.
  { induction batches as [| x l IH]; intros set; cbn [foldl]; [setoid_rewrite elem_of_nil; naive_solver |]. rewrite IH, Hdoc. setoid_rewrite elem_of_cons. naive_solver. }
  unfold Collect. rewrite Hall, elem_of_empty. tauto.
Qed.

(** Images by their fields and by their form, and strings that are none. *)
Section example_images.
Let parse (s : string) : option (bool * bool) := if Paths.Contains s " " then None else Some (contains_byte s ":"%char, contains_byte s "@"%char).
Let str (s : string) : any () := TScalar (Str s).

Let dict (l : list (string * any ())) : fields () := list_to_map l.

Example container_images : Extract parse (dict [("spec", TMap (dict [
    ("image", TMap (dict [("reference", str "nginx"); ("tag", str "v1"); ("list", TList [str "alpine"])]));
    ("sidecarImage", str "busybox"); ("images", TList [str "ghcr.io/demo/array:v1"; str "grafana/grafana"]);
    ("url", str "https://ghcr.io/x:1"); ("imageName", str "not one")]))])
  = ["busybox"; "ghcr.io/demo/array:v1"; "nginx"].
Proof. vm_compute. reflexivity. Qed.
End example_images.
