(* ===== verification/Values.v ===== *)
(** * Substitutions and captured values (pkg/values, pkg/manifest/data.go)

    What a Kustomization's postBuild substitutes, the names and texts that need
    substituting, the inline values dependencies agree on, a path resolved from
    declared substitutions, and the provider that captures each referenced object
    once per execution.  [envsubst.Eval] and the upstream strategy getter are not
    this repository's code and are arguments.  The merging of Helm values is
    [HelmValues]. *)

From Stdlib Require Import Ascii.
From S2P Require Import Prelude Resource ConfigData.

(** ** Texts that need substitution *)

Definition dollar (c : ascii) : bool := (N_of_ascii c =? 36)%N.
Definition opening (c : ascii) : bool := (N_of_ascii c =? 123)%N.

(** [hasSubstitution]: at a dollar followed by a brace or a dollar; a dollar
    followed by another byte resumes right after the dollar. *)
Fixpoint hasSubstitution (s : string) : bool :=
  match s with
  | "" => false
  | String c rest =>
      if dollar c then
        match rest with
        | "" => false
        | String d _ => opening d || dollar d || hasSubstitution rest
        end
      else hasSubstitution rest
  end.

(** A decoded document; a [float64] is its 64 bits. *)
Inductive yaml :=
  | YString (s : string)
  | YFloat (bits : Z)
  | YInt (z : Z)
  | YUint (z : Z)
  | YMap (fields : list (string * yaml))
  | YList (items : list yaml)
  | YOther.

Definition floatMantissaBits : Z := 53.

(** [math.IsNaN(v) || math.IsInf(v, 0)]: an exponent of all ones; and [-0]. *)
Definition non_json_float (bits : Z) : bool :=
  (Z.land (Z.shiftr bits 52) 2047 =? 2047)%Z || (bits =? 2 ^ 63)%Z.

Fixpoint NeedsSubstitution (v : yaml) : bool :=
  match v with
  | YString s => hasSubstitution s
  | YFloat bits => non_json_float bits
  | YInt z => (z <? - Z.shiftl 1 floatMantissaBits)%Z || (Z.shiftl 1 floatMantissaBits <? z)%Z
  | YUint z => (Z.shiftl 1 floatMantissaBits <? z)%Z
  | YMap fields => existsb (λ kv, hasSubstitution kv.1 || NeedsSubstitution kv.2) fields
  | YList items => existsb NeedsSubstitution items
  | YOther => false
  end.

(** [varsubRegex]. *)
Definition letter (c : ascii) : bool :=
  let n := N_of_ascii c in
  (n =? 95)%N || ((65 <=? n)%N && (n <=? 90)%N) || ((97 <=? n)%N && (n <=? 122)%N).
Definition digit (c : ascii) : bool :=
  let n := N_of_ascii c in (48 <=? n)%N && (n <=? 57)%N.
Fixpoint all_chars (p : ascii → bool) (s : string) : bool :=
  match s with "" => true | String c s => p c && all_chars p s end.
Definition varsub_name (s : string) : bool :=
  match s with "" => false | String c s => letter c && all_chars (λ c, letter c || digit c) s end.

(** [strings.ReplaceAll(v, newline, "")]. *)
Fixpoint strip_newlines (s : string) : string :=
  match s with
  | "" => ""
  | String c s => if (N_of_ascii c =? 10)%N then strip_newlines s else String c (strip_newlines s)
  end.

Definition VarsMap (vars : gmap string string) : gmap string string := strip_newlines <$> vars.

Definition matchingQuoteWidth : nat := 2.

Fixpoint last_char (c : ascii) (s : string) : ascii :=
  match s with "" => c | String d s => last_char d s end.

(** [stripMatchingQuotes]. *)
Definition stripMatchingQuotes (value : string) : string * bool :=
  match value with
  | String q rest =>
      if (matchingQuoteWidth <=? String.length value) &&
         (((N_of_ascii q =? 39)%N || (N_of_ascii q =? 34)%N) && bool_decide (last_char q rest = q))
      then (String.substring 1 (String.length value - 2) value, true)
      else (value, false)
  | "" => (value, false)
  end.

(** ** postBuild *)

(** [kustomizev1.SubstituteReference]. *)
Record SubstituteReference := mkSubRef { sr_Kind : string; sr_Name : string; sr_Optional : bool }.

Record PostBuild := mkPostBuild {
  Substitute : gmap string string;
  SubstituteFrom : list SubstituteReference;
}.

(** The fields of a Kustomization its substitutions use. *)
Record Kustomization := mkKustomization { k_Namespace : string; k_PostBuild : option PostBuild }.

Inductive values_error :=
  | no_namespace
  | bad_value (e : value_error)
  | invalid_names (names : list string).

(** [Provider.Data]; nil is [None]. *)
Definition Provider : Type := NamedResource → option Data.

(** [resourceData]; [None] is its unsupported-kind error. *)
Definition resourceData (kind namespace name : string) (p : Provider) : option (option Data) :=
  if bool_decide (kind = "Secret") || bool_decide (kind = "ConfigMap")
  then Some (p (mkResource "" kind namespace name)) else None.

(** One key of [mergeSubstitutions]: the values and the failure of the least key. *)
Definition merge_key (data : Data) (acc : gmap string string * option (string * value_error))
    (k : string) : gmap string string * option (string * value_error) :=
  match data.(Value) k with
  | inr e =>
      (acc.1, match acc.2 with
              | Some (key, _) => if bool_decide (compare k key = Lt) then Some (k, e) else acc.2
              | None => Some (k, e)
              end)
  | inl v => (<[k := strip_newlines (default "" v)]> acc.1, acc.2)
  end.

Definition mergeSubstitutions (values : gmap string string) (data : Data)
    : gmap string string * option value_error :=
  let '(values, failure) := foldl (merge_key data) (values, None) data.(Keys) in
  (values, snd <$> failure).

Fixpoint readSubstitutions (namespace : string) (refs : list SubstituteReference) (p : Provider)
    (values : gmap string string) : gmap string string + values_error :=
  match refs with
  | [] => inl values
  | ref :: refs =>
      match resourceData ref.(sr_Kind) namespace ref.(sr_Name) p with
      | None => readSubstitutions namespace refs p values
      | Some None => readSubstitutions namespace refs p values
      | Some (Some data) =>
          if negb data.(HasKeys) then readSubstitutions namespace refs p values
          else match mergeSubstitutions values data with
               | (_, Some e) => inr (bad_value e)
               | (values, None) => readSubstitutions namespace refs p values
               end
      end
  end.

(** The invalid names, sorted; nil when there are none. *)
Definition validateSubstitutions (values : gmap string string) : option values_error :=
  match sort_by compare (filter (λ k, varsub_name k = false) (map_keys values)) with
  | [] => None
  | invalid => Some (invalid_names invalid)
  end.

Definition ExpandPostBuildSubstituteReference (ks : Kustomization) (p : Provider)
    : Kustomization + values_error :=
  match ks.(k_PostBuild) with
  | None => inl ks
  | Some pb =>
      if bool_decide (pb.(SubstituteFrom) = []) && bool_decide (pb.(Substitute) = ∅) then inl ks
      else if bool_decide (pb.(SubstituteFrom) ≠ []) && bool_decide (ks.(k_Namespace) = "")
      then inr no_namespace
      else match readSubstitutions ks.(k_Namespace) pb.(SubstituteFrom) p ∅ with
           | inr e => inr e
           | inl values =>
               let values := pb.(Substitute) ∪ values in
               match validateSubstitutions values with
               | Some e => inr e
               | None => inl (mkKustomization ks.(k_Namespace)
                                (Some (mkPostBuild values pb.(SubstituteFrom))))
               end
           end
  end.

(** ** Static paths *)

Section static.
(** [envsubst.Eval]: its text, whether it succeeded, and the names it looked up. *)
Context (Eval : string → (string → option string) → string * bool * list string).

Definition lookup_in (m : gmap string string) : string → option string := λ n, m !! n.

Definition substitute_of (ks : Kustomization) : gmap string string :=
  match ks.(k_PostBuild) with Some pb => pb.(Substitute) | None => ∅ end.
Definition references_of (ks : Kustomization) : list SubstituteReference :=
  match ks.(k_PostBuild) with Some pb => pb.(SubstituteFrom) | None => [] end.

(** [ResolveStaticPath]; [always] is the parent's substitute strategy. *)
Definition ResolveStaticPath (path : string) (parent : Kustomization) (always : bool) (p : Provider)
    : string * bool :=
  let unknownInputs :=
    existsb (λ ref, bool_decide (p (mkResource "" ref.(sr_Kind) parent.(k_Namespace) ref.(sr_Name)) = None))
      (references_of parent) in
  let inline := substitute_of parent in
  match ExpandPostBuildSubstituteReference parent p with
  | inr _ => (path, false)
  | inl parent =>
      let variables := VarsMap (substitute_of parent) in
      if bool_decide (variables = ∅) && negb always && negb unknownInputs then (path, true)
      else
        let '(resolved, ok, names) := Eval path (lookup_in variables) in
        let incomplete := existsb (λ n, unknownInputs && bool_decide (inline !! n = None)) names in
        (resolved, ok && negb incomplete)
  end.

(** ** Dependency substitutions *)

(** One entry of one Kustomization, over the union and the conflicting keys. *)
Definition union_entry (acc : gmap string string * gset string) (kv : string * string)
    : gmap string string * gset string :=
  let '(union, conflicting) := acc in
  if bool_decide (kv.1 ∈ conflicting) then acc
  else match union !! kv.1 with
       | Some prev => if bool_decide (prev ≠ kv.2) then (delete kv.1 union, {[kv.1]} ∪ conflicting)
                      else (<[kv.1 := kv.2]> union, conflicting)
       | None => (<[kv.1 := kv.2]> union, conflicting)
       end.

Definition union_kustomization (acc : gmap string string * gset string) (ks : Kustomization) :=
  match ks.(k_PostBuild) with
  | None => acc
  | Some pb => foldl union_entry acc (map_to_list (VarsMap pb.(Substitute)))
  end.

Definition NewDependencySubstitutions (kss : list Kustomization) : gmap string string :=
  (foldl union_kustomization (∅, ∅) kss).1.

(** [strings.Contains(text, dollar brace)]. *)
Fixpoint contains_reference (s : string) : bool :=
  match s with
  | String c ((String d _) as rest) => (dollar c && opening d) || contains_reference rest
  | _ => false
  end.

Definition DependencySubstitutions_Resolve (values : gmap string string) (text : string) : string :=
  if contains_reference text then
    let '(out, ok, _) := Eval text (lookup_in values) in if ok then out else text
  else text.

Definition DependencySubstitutions_Equal (d other : gmap string string) : bool := bool_decide (d = other).
End static.

(** ** The capturing provider *)

(** [sort.Search]: binary search for the least index where [f] holds. *)
Fixpoint search_from (f : nat → bool) (fuel i j : nat) : nat :=
  match fuel with
  | O => i
  | S fuel =>
      if i <? j then
        let h := (i + j) / 2 in
        if f h then search_from f fuel i h else search_from f fuel (S h) j
      else i
  end.

Definition Search (n : nat) (f : nat → bool) : nat := search_from f n 0 n.

Section provider.
Context {F : Type}.

(** [capturedInput]. *)
Record capturedInput := mkCaptured { ci_id : NamedResource; ci_input : F }.

(** The scan over the entries of the same name: a hit, or the insertion index. *)
Fixpoint scan (id : NamedResource) (inputs : list capturedInput) (i : nat) : F + nat :=
  match inputs with
  | [] => inr i
  | c :: inputs =>
      if bool_decide (c.(ci_id).(Name) = id.(Name)) then
        if bool_decide (c.(ci_id) = id) then inl c.(ci_input) else scan id inputs (S i)
      else inr i
  end.

(** [StoreProvider.Lookup]; [facts] is what the store answers at the time of the call. *)
Definition Lookup (facts : NamedResource → F) (inputs : list capturedInput) (id : NamedResource)
    : F * list capturedInput :=
  let i := Search (length inputs)
             (λ i, match inputs !! i with
                   | Some c => negb (bool_decide (compare c.(ci_id).(Name) id.(Name) = Lt))
                   | None => true
                   end) in
  match scan id (drop i inputs) i with
  | inl input => (input, inputs)
  | inr i => let input := facts id in
             (input, take i inputs ++ mkCaptured id input :: drop i inputs)
  end.
End provider.

(** ** Texts *)

Lemma hasSubstitution_iff s :
  hasSubstitution s = true ↔
  ∃ pre c d suf, s = pre +:+ String c (String d suf) ∧ dollar c = true ∧ opening d || dollar d = true.
Proof.
  assert (∀ c rest,
    (∃ pre a d suf, String c rest = pre +:+ String a (String d suf) ∧ dollar a = true ∧
       opening d || dollar d = true) ↔
    (dollar c = true ∧ ∃ d suf, rest = String d suf ∧ opening d || dollar d = true) ∨
    (∃ pre a d suf, rest = pre +:+ String a (String d suf) ∧ dollar a = true ∧
       opening d || dollar d = true)) as Hcons.
  { intros c rest. split.
    - intros (pre & a & d & suf & He & Ha & Hd). destruct pre as [|x pre].
      + injection He as -> ->. left. eauto.
      + change (String c rest = String x (pre +:+ String a (String d suf))) in He.
        injection He as _ He. right. exists pre, a, d, suf. auto.
    - intros [(Hc & d & suf & -> & Hd)|(pre & a & d & suf & -> & Ha & Hd)].
      + exists "", c, d, suf. auto.
      + exists (String c pre), a, d, suf. auto. }
  induction s as [|c s IH].
  { split; [done|]. intros (pre & c & d & suf & He & _). by destruct pre. }
  rewrite Hcons, <-IH. clear Hcons. cbn [hasSubstitution]. destruct (dollar c) eqn:Hc.
  - destruct s as [|d s]; [split; [done|]; by intros [(_ & ? & ? & ? & _)|?]|].
    rewrite orb_true_iff. split.
    + intros [Hd|H]; [left|by right]. split; [done|eauto].
    + intros [(_ & d' & suf & He & Hd)|H]; [left|by right]. by injection He as -> ->.
  - split; [by right|]. by intros [[? _]|?].
Qed.

(** ** The capturing provider *)

Lemma search_from_spec f n fuel i j :
  (∀ a b, a ≤ b → b < n → f a = true → f b = true) →
  j - i ≤ fuel → i ≤ j → j ≤ n →
  (∀ k, k < i → f k = false) → (∀ k, j ≤ k → k < n → f k = true) →
  let r := search_from f fuel i j in
  r ≤ n ∧ (∀ k, k < r → f k = false) ∧ (∀ k, r ≤ k → k < n → f k = true).
Proof.
  intros Hmono. revert i j. induction fuel as [|fuel IH]; intros i j Hf Hij Hj Hlo Hhi; cbn [search_from]; cbv zeta.
  { assert (i = j) as -> by lia. split_and!; [lia|done|done]. }
  destruct (Nat.ltb_spec i j); [|assert (i = j) as -> by lia; split_and!; [lia|done|done]].
  pose proof (Nat.div_lt (i + j) 2) as Hd. pose proof (Nat.div_mod_eq (i + j) 2) as Hq.
  pose proof (Nat.mod_upper_bound (i + j) 2) as Hm. set (h := (i + j) / 2) in *.
  assert (i ≤ h < j) as Hh by lia. destruct (f h) eqn:Hfh.
  - apply IH; try lia; try done. intros k Hk Hkn. by apply (Hmono h).
  - apply IH; try lia; try done. intros k Hk. destruct (f k) eqn:Hfk; [|done].
    assert (f h = true) as Ht by (apply (Hmono k); [lia|lia|done]). congruence.
Qed.

Lemma Search_spec f n :
  (∀ a b, a ≤ b → b < n → f a = true → f b = true) →
  Search n f ≤ n ∧ (∀ k, k < Search n f → f k = false) ∧
  (∀ k, Search n f ≤ k → k < n → f k = true).
Proof.
  intros Hm. apply (search_from_spec f n n 0 n); try lia; try done; intros; lia.
Qed.

(** On a list split at the first element where [f] holds, [Search] finds the split. *)
Lemma Search_split {A} (g : A → bool) (l k : list A) :
  Forall (λ x, g x = false) l → Forall (λ x, g x = true) k →
  Search (length (l ++ k)) (λ i, match (l ++ k) !! i with Some x => g x | None => true end) = length l.
Proof.
  intros Hl Hk. set (f := λ i, _).
  assert (∀ i, i < length l → f i = false) as Hlo.
  { intros i Hi. unfold f. rewrite lookup_app_l by done.
    destruct (lookup_lt_is_Some_2 l i Hi) as [x Hx]. rewrite Hx.
    by apply (Forall_lookup_1 _ _ _ _ Hl Hx). }
  assert (∀ i, length l ≤ i → f i = true) as Hhi.
  { intros i Hi. unfold f. rewrite lookup_app_r by done.
    destruct (k !! (i - length l)) as [x|] eqn:Hx; [|done]. by apply (Forall_lookup_1 _ _ _ _ Hk Hx). }
  destruct (Search_spec f (length (l ++ k))) as (H1 & H2 & H3).
  { intros a b Hab Hb Ha. apply Hhi. destruct (decide (length l ≤ a)); [lia|].
    rewrite Hlo in Ha by lia. done. }
  rewrite length_app in *. set (r := Search _ f) in *.
  destruct (lt_eq_lt_dec r (length l)) as [[Hlt|?]|Hgt]; [|done|].
  - assert (f r = true) as Hx by (apply H3; lia). by rewrite Hlo in Hx.
  - assert (f (length l) = false) as Hx by by apply H2. by rewrite Hhi in Hx.
Qed.

Section captured.
Context {F : Type}.

Definition by_name (a b : capturedInput (F:=F)) : Prop := cmp_le a.(ci_id).(Name) b.(ci_id).(Name).

(** Sorted by name, one entry per identity. *)
Definition captured_ok (inputs : list (capturedInput (F:=F))) : Prop :=
  StronglySorted by_name inputs ∧ NoDup (map ci_id inputs).

(** The memo the captured inputs stand for. *)
Definition memo (inputs : list (capturedInput (F:=F))) : gmap NamedResource F :=
  list_to_map (map (λ c, (c.(ci_id), c.(ci_input))) inputs).

(** A sorted list, cut at a name. *)
Lemma split_by_name n (inputs : list (capturedInput (F:=F))) :
  StronglySorted by_name inputs →
  ∃ A B C, inputs = A ++ B ++ C ∧
    Forall (λ c, compare c.(ci_id).(Name) n = Lt) A ∧ Forall (λ c, c.(ci_id).(Name) = n) B ∧
    Forall (λ c, compare c.(ci_id).(Name) n = Gt) C.
Proof.
  induction 1 as [|c inputs _ (A & B & C & -> & HA & HB & HC) Hc].
  { exists [], [], []. split_and!; constructor. }
  destruct (compare (Name (ci_id c)) n) eqn:E.
  - apply compare_eq in E. exists [], (c :: A ++ B), C.
    assert (A = []) as ->.
    { destruct A as [|a A]; [done|]. inversion HA as [|? ? Ha _]; subst.
      cbn in Hc. inversion Hc as [|? ? Hca _]; subst. exfalso. apply Hca.
      by rewrite (compare_opp (Name (ci_id a))), Ha. }
    split_and!; [done|constructor|by constructor|done].
  - exists (c :: A), B, C. split_and!; [done|by constructor|done|done].
  - exists [], [], (c :: A ++ B ++ C).
    split_and!; [done|constructor|constructor|constructor; [done|]].
    eapply Forall_impl; [exact Hc|]. intros x Hx. unfold by_name, cmp_le in Hx.
    apply compare_gt_lt. apply compare_gt_lt in E.
    destruct (compare (Name (ci_id c)) (Name (ci_id x))) eqn:E';
      [apply compare_eq in E'; by rewrite <-E'|by eapply compare_lt_trans|done].
Qed.

(** The scan stops in the block of equal names exactly at the identity. *)
Lemma scan_block id (B C : list (capturedInput (F:=F))) i :
  Forall (λ c, c.(ci_id).(Name) = id.(Name)) B → Forall (λ c, c.(ci_id).(Name) ≠ id.(Name)) C →
  NoDup (map ci_id B) →
  match scan id (B ++ C) i with
  | inl v => memo B !! id = Some v
  | inr j => memo B !! id = None ∧ j = i + length B
  end.
Proof.
  intros HB HC. revert i. induction HB as [|b B Hb _ IH]; intros i Hnd.
  - cbn [app]. destruct HC as [|c C Hc _]; cbn [scan]; [split; [done|cbn; lia]|].
    rewrite bool_decide_eq_false_2 by done. split; [done|cbn; lia].
  - cbn [map] in Hnd. apply NoDup_cons in Hnd as [Hne Hnd]. cbn [app scan].
    rewrite bool_decide_eq_true_2 by done.
    assert (memo (b :: B) = <[ci_id b := ci_input b]> (memo B)) as Hm by done. rewrite Hm.
    case_bool_decide as Hid.
    + by rewrite Hid, lookup_insert_eq.
    + rewrite lookup_insert_ne by done. specialize (IH (S i) Hnd).
      destruct (scan id (B ++ C) (S i)) as [v|j]; [done|]. destruct IH as [Hn ->].
      split; [done|]. cbn [length]. lia.
Qed.

Lemma memo_None (l : list (capturedInput (F:=F))) id : id ∉ map ci_id l → memo l !! id = None.
Proof.
  intros Hn. unfold memo. apply not_elem_of_list_to_map_1. rewrite <-list_fmap_compose. exact Hn.
Qed.

Lemma memo_app (l k : list (capturedInput (F:=F))) : memo (l ++ k) = memo l ∪ memo k.
Proof. unfold memo. rewrite map_app. apply list_to_map_app. Qed.

Lemma names_apart (P : comparison) (l : list (capturedInput (F:=F))) id :
  P ≠ Eq → Forall (λ c, compare c.(ci_id).(Name) id.(Name) = P) l → id ∉ map ci_id l.
Proof.
  intros HP Hf (c & -> & Hc)%list_elem_of_fmap. rewrite Forall_forall in Hf.
  specialize (Hf c Hc). rewrite compare_refl in Hf. by subst.
Qed.

Lemma Lookup_memo facts inputs id :
  captured_ok inputs →
  let '(v, inputs') := Lookup facts inputs id in
  captured_ok inputs' ∧ v = default (facts id) (memo inputs !! id) ∧ memo inputs' = <[id := v]> (memo inputs).
Proof.
  intros [Hs Hnd]. destruct (split_by_name id.(Name) inputs Hs) as (A & B & C & -> & HA & HB & HC).
  unfold Lookup.
  assert (Search (length (A ++ B ++ C))
            (λ i, match (A ++ B ++ C) !! i with
                  | Some c => negb (bool_decide (compare (Name (ci_id c)) (Name id) = Lt))
                  | None => true
                  end) = length A) as ->.
  { apply (Search_split (λ c, negb (bool_decide (compare (Name (ci_id c)) (Name id) = Lt)))).
    - eapply Forall_impl; [exact HA|]. intros c Hc. cbn. by rewrite bool_decide_eq_true_2.
    - apply Forall_app. split.
      + eapply Forall_impl; [exact HB|]. intros c Hc. cbn in *.
        by rewrite Hc, compare_refl, bool_decide_eq_false_2.
      + eapply Forall_impl; [exact HC|]. intros c Hc. cbn in *. by rewrite Hc, bool_decide_eq_false_2. }
  rewrite drop_app_length.
  rewrite !map_app in Hnd. apply NoDup_app in Hnd as (HndA & HdA & Hnd).
  apply NoDup_app in Hnd as (HndB & HdB & HndC).
  assert (Forall (λ c, c.(ci_id).(Name) ≠ id.(Name)) C) as HC'.
  { eapply Forall_impl; [exact HC|]. intros c Hc He. cbn in Hc. by rewrite He, compare_refl in Hc. }
  pose proof (scan_block id B C (length A) HB HC' HndB) as Hscan.
  assert (id ∉ map ci_id A) as HiA by by apply (names_apart Lt).
  assert (id ∉ map ci_id C) as HiC by by apply (names_apart Gt).
  assert (memo (A ++ B ++ C) !! id = memo B !! id) as Hmemo.
  { rewrite !memo_app, lookup_union_r by by apply memo_None.
    rewrite lookup_union. rewrite (memo_None C id HiC). by destruct (memo B !! id). }
  destruct (scan id (B ++ C) (length A)) as [v|j].
  - rewrite Hmemo, Hscan. cbn [default]. split; [split; [done|]|split; [done|]].
    + rewrite !map_app. apply NoDup_app. split; [done|split; [done|]]. by apply NoDup_app.
    + symmetry. apply insert_id. by rewrite Hmemo.
  - destruct Hscan as [Hn ->]. rewrite Hmemo, Hn. cbn [default].
    assert (length A + length B = length (A ++ B)) as -> by by rewrite length_app.
    rewrite app_assoc, take_app_length, drop_app_length.
    assert (id ∉ map ci_id B) as HiB.
    { intros (c & -> & Hc)%list_elem_of_fmap. unfold memo in Hn.
      apply not_elem_of_list_to_map_2 in Hn. apply Hn. rewrite <-list_fmap_compose.
      by apply (list_elem_of_fmap_2 (fst ∘ (λ c, (ci_id c, ci_input c))) B c). }
    split; [split|split; [done|]].
    + rewrite app_assoc in Hs. apply StronglySorted_app in Hs as (Hx & Hab & Hc).
      rewrite Forall_forall in HA, HB, HC.
      apply StronglySorted_app_2; [|done|].
      * intros x y Hxl [->|Hy]%elem_of_cons; [|by apply Hx]. unfold by_name, cmp_le. cbn [ci_id].
        apply elem_of_app in Hxl as [Hxa|Hxb]; [by rewrite (HA x Hxa)|].
        by rewrite (HB x Hxb), compare_refl.
      * constructor; [done|]. apply Forall_forall. intros y Hy. unfold by_name, cmp_le. cbn [ci_id].
        rewrite (compare_opp (Name (ci_id y))). by rewrite (HC y Hy).
    + rewrite !map_app. cbn [map ci_id]. apply NoDup_app. split; [|split].
      * apply NoDup_app. split; [done|split; [|done]]. intros x Hx Hxb. apply (HdA x Hx).
        apply elem_of_app. by left.
      * intros x Hx [->|Hxc]%elem_of_cons; [by apply elem_of_app in Hx as [?|?]|].
        apply elem_of_app in Hx as [Hx|Hx]; [|by apply (HdB x Hx)].
        apply (HdA x Hx). apply elem_of_app. by right.
      * by apply NoDup_cons.
    + rewrite !memo_app. change (memo (mkCaptured id (facts id) :: C)) with (<[id := facts id]> (memo C)).
      rewrite <-insert_union_r; [done|].
      rewrite lookup_union, !memo_None by done. done.
Qed.
End captured.

(** ** Merging referenced data *)

Definition bad (d : Data) (k : string) (e : value_error) : Prop := d.(Value) k = inr e.

(** The least key with a failure, with its failure. *)
Definition least_failure (d : Data) (k : string) (e : value_error) : Prop :=
  bad d k e ∧ ∀ k' e', bad d k' e' → cmp_le k k'.

Lemma merge_fold data keys acc :
  let r := foldl (merge_key data) acc keys in
  (∀ k, r.1 !! k = if decide (k ∈ keys) then
                     match data.(Value) k with
                     | inl v => Some (strip_newlines (default "" v))
                     | inr _ => acc.1 !! k
                     end
                   else acc.1 !! k) ∧
  match r.2 with
  | None => acc.2 = None ∧ ∀ k e, k ∈ keys → ¬ bad data k e
  | Some (k, e) =>
      (acc.2 = Some (k, e) ∨ k ∈ keys ∧ bad data k e) ∧
      (∀ k' e', acc.2 = Some (k', e') → cmp_le k k') ∧
      (∀ k' e', k' ∈ keys → bad data k' e' → cmp_le k k')
  end.
Proof.
  cbv zeta. revert acc. induction keys as [|key keys IH]; intros [vals f]; cbn [foldl fst snd].
  - split; [intros k; rewrite decide_False; [done|by intros ?%elem_of_nil]|].
    destruct f as [[k e]|]; [|by split; [done|intros k e ?%elem_of_nil]].
    split_and!; [by left| |by intros k' e' ?%elem_of_nil]. by intros k' e' [= <- <-].
  - specialize (IH (merge_key data (vals, f) key)). destruct IH as [IH1 IH2]. split.
    + intros k. rewrite IH1. unfold merge_key. cbn [fst snd].
      destruct (decide (k ∈ keys)) as [Hk|Hk].
      * rewrite decide_True by by right. destruct (Value data k) as [v|e] eqn:Hv; [done|].
        destruct (Value data key) as [v'|e'] eqn:Hv'; [|done]. cbn. rewrite lookup_insert_ne; [done|].
        intros ->. congruence.
      * destruct (decide (k = key)) as [->|Hne].
        -- rewrite decide_True by left. destruct (Value data key) as [v|e]; [|done].
           cbn. by rewrite lookup_insert_eq.
        -- rewrite decide_False by by intros [?|?]%elem_of_cons.
           destruct (Value data key) as [v|e]; [|done]. cbn. by rewrite lookup_insert_ne.
    + unfold merge_key in IH2. cbn [fst snd] in IH2. set (r := foldl _ _ _) in *.
      destruct (Value data key) as [v|e] eqn:Hv; cbn [snd] in IH2.
      * destruct r.2 as [[k e]|].
        -- destruct IH2 as (H1 & H2 & H3). split_and!; [|done|].
           ++ destruct H1 as [?|[? ?]]; [by left|right; split; [by right|done]].
           ++ intros k' e' [->|Hk]%elem_of_cons Hb; [unfold bad in Hb; congruence|by eapply H3].
        -- destruct IH2 as [H1 H2]. split; [done|].
           intros k e [->|Hk]%elem_of_cons Hb; [unfold bad in Hb; congruence|by eapply H2].
      * assert (∃ k1 e1, (match f with
            | Some (k0, _) => if bool_decide (compare key k0 = Lt) then Some (key, e) else f
            | None => Some (key, e) end) = Some (k1, e1) ∧ cmp_le k1 key ∧
            (f = Some (k1, e1) ∨ k1 = key ∧ e1 = e) ∧
            (∀ k' e', f = Some (k', e') → cmp_le k1 k')) as (k1 & e1 & Hacc & Hle & Hor & Hf).
        { destruct f as [[k0 e0]|]; [|exists key, e; split_and!; [done|done|by right|done]].
          case_bool_decide as Hlt.
          - exists key, e. split_and!; [done|done|by right|]. intros k' e' [= <- <-].
            unfold cmp_le. by rewrite Hlt.
          - exists k0, e0. split_and!; [done| |by left|by intros k' e' [= <- <-]].
            unfold cmp_le. rewrite (compare_opp key). by destruct (compare key k0). }
        rewrite Hacc in IH2. destruct r.2 as [[k e2]|]; [|by destruct IH2].
        destruct IH2 as (H1 & H2 & H3). specialize (H2 k1 e1 eq_refl). split_and!.
        -- destruct H1 as [[= <- <-]|[? ?]]; [|right; split; [by right|done]].
           destruct Hor as [?|[-> ->]]; [by left|right; split; [left|done]].
        -- intros k' e' Hk'. etrans; [exact H2|by eapply Hf].
        -- intros k' e' [->|Hk]%elem_of_cons Hb; [by etrans|by eapply H3].
Qed.

Lemma mergeSubstitutions_spec values data `{!LawfulData data} :
  match mergeSubstitutions values data with
  | (_, Some e) => ∃ k, least_failure data k e
  | (values', None) =>
      (∀ k e, ¬ bad data k e) ∧
      ∀ k, values' !! k = match data.(Value) k with
                          | inl (Some v) => Some (strip_newlines v)
                          | _ => values !! k
                          end
  end.
Proof.
  unfold mergeSubstitutions. pose proof (merge_fold data data.(Keys) (values, None)) as Hm. cbv zeta in Hm.
  destruct (foldl _ _ _) as [values' failure]. cbn [fst snd] in Hm. destruct Hm as [Hv Hf].
  assert (∀ k e, bad data k e → k ∈ data.(Keys)) as Hin.
  { intros k e Hb. apply keys_value. unfold bad in Hb. by rewrite Hb. }
  destruct failure as [[k e]|]; cbn.
  - destruct Hf as ([?|[_ Hb]] & _ & Hle); [done|]. exists k. split; [done|].
    intros k' e' Hb'. by apply (Hle k' e'); [eapply Hin|].
  - destruct Hf as [_ Hnone]. split; [intros k e Hb; by apply (Hnone k e); [eapply Hin|]|].
    intros k. rewrite Hv. pose proof (keys_value (d:=data) k) as Hk.
    destruct (decide (k ∈ Keys data)) as [Hd|Hd].
    + apply Hk in Hd. by destruct (Value data k) as [[v|]|e].
    + destruct (Value data k) as [[v|]|e]; try done; destruct Hd; by apply Hk.
Qed.

(** The data a reference contributes: nothing when unsupported, missing or empty. *)
Definition ref_data (namespace : string) (p : Provider) (ref : SubstituteReference) : option Data :=
  match resourceData ref.(sr_Kind) namespace ref.(sr_Name) p with
  | Some (Some data) => if data.(HasKeys) then Some data else None
  | _ => None
  end.

(** The value of a name over the references in order, the last one winning. *)
Definition last_value (k : string) (ds : list Data) (base : option string) : option string :=
  foldl (λ acc d, match d.(Value) k with inl (Some v) => Some (strip_newlines v) | _ => acc end) base ds.

(** What an error of the referenced data means: the first failing reference, its least key. *)
Definition first_failure (ds : list Data) (e : value_error) : Prop :=
  ∃ ds1 d ds2 k, ds = ds1 ++ d :: ds2 ∧ (∀ d' k e', d' ∈ ds1 → ¬ bad d' k e') ∧ least_failure d k e.

Lemma readSubstitutions_spec ns refs p values :
  (∀ id d, p id = Some d → LawfulData d) →
  match readSubstitutions ns refs p values with
  | inl values' => (∀ d k e, d ∈ omap (ref_data ns p) refs → ¬ bad d k e) ∧
                   ∀ k, values' !! k = last_value k (omap (ref_data ns p) refs) (values !! k)
  | inr e => ∃ e', e = bad_value e' ∧ first_failure (omap (ref_data ns p) refs) e'
  end.
Proof.
  intros Hp. revert values. induction refs as [|ref refs IH]; intros values.
  { cbn. split; [|done]. by intros d k e ?%elem_of_nil. }
  cbn [readSubstitutions omap list_omap].
  destruct (resourceData (sr_Kind ref) ns (sr_Name ref) p) as [[data|]|] eqn:Hr.
  2,3: assert (ref_data ns p ref = None) as -> by (unfold ref_data; by rewrite Hr); apply IH.
  destruct (HasKeys data) eqn:Hh; cbn [negb].
  2: assert (ref_data ns p ref = None) as -> by (unfold ref_data; by rewrite Hr, Hh); apply IH.
  assert (ref_data ns p ref = Some data) as -> by (unfold ref_data; by rewrite Hr, Hh).
  assert (LawfulData data) as Hlaw.
  { unfold resourceData in Hr. destruct (_ || _); [|done]. injection Hr as Hr. by eapply Hp. }
  pose proof (mergeSubstitutions_spec values data) as Hm.
  destruct (mergeSubstitutions values data) as [values' [e|]].
  - destruct Hm as [k Hk]. exists e. split; [done|]. exists [], data, (omap (ref_data ns p) refs), k.
    split; [done|split; [|done]]. by intros d' k' e' ?%elem_of_nil.
  - destruct Hm as [Hgood Hv]. specialize (IH values').
    destruct (readSubstitutions ns refs p values') as [values''|e].
    + destruct IH as [IH1 IH2]. split.
      * intros d k e [->|Hd]%elem_of_cons; [apply Hgood|by apply IH1].
      * intros k. rewrite IH2, Hv. done.
    + destruct IH as (e' & -> & ds1 & d & ds2 & k & He & Hds & Hk). exists e'. split; [done|].
      exists (data :: ds1), d, ds2, k. split; [by rewrite He|split; [|done]].
      intros d' k' e'' [->|Hd]%elem_of_cons; [apply Hgood|by apply Hds].
Qed.

(** The value of a substitution name: inline first, then the last reference that has it. *)
Definition expanded (ks : Kustomization) (pb : PostBuild) (p : Provider) (k : string) : option string :=
  match pb.(Substitute) !! k with
  | Some v => Some v
  | None => last_value k (omap (ref_data ks.(k_Namespace) p) pb.(SubstituteFrom)) None
  end.

Lemma validateSubstitutions_spec values :
  match validateSubstitutions values with
  | None => ∀ k, is_Some (values !! k) → varsub_name k = true
  | Some (invalid_names names) =>
      names ≠ [] ∧ Sorted cmp_le names ∧ NoDup names ∧
      ∀ k, k ∈ names ↔ is_Some (values !! k) ∧ varsub_name k = false
  | Some _ => False
  end.
Proof.
  unfold validateSubstitutions.
  assert (∀ k, k ∈ sort_by compare (filter (λ k, varsub_name k = false) (map_keys values))
             ↔ is_Some (values !! k) ∧ varsub_name k = false) as Hin.
  { intros k. rewrite elem_of_sort_by, list_elem_of_filter, elem_of_map_keys. tauto. }
  pose proof (sort_lawful_sorted (filter (λ k, varsub_name k = false) (map_keys values))) as Hs.
  assert (NoDup (sort_by compare (filter (λ k, varsub_name k = false) (map_keys values)))) as Hnd.
  { rewrite sort_by_perm. apply NoDup_filter, NoDup_fst_map_to_list. }
  destruct (sort_by compare _) as [|x xs].
  - intros k Hk. destruct (varsub_name k) eqn:Hv; [done|].
    exfalso. apply (not_elem_of_nil k). by apply Hin.
  - done.
Qed.

(** The expansion on every branch. *)
Lemma expand_cases ks pb p :
  (∀ id d, p id = Some d → LawfulData d) → ks.(k_PostBuild) = Some pb →
  match ExpandPostBuildSubstituteReference ks p with
  | inl ks' =>
      ks'.(k_Namespace) = ks.(k_Namespace) ∧
      ∃ pb', ks'.(k_PostBuild) = Some pb' ∧ pb'.(SubstituteFrom) = pb.(SubstituteFrom) ∧
        (∀ k, pb'.(Substitute) !! k = expanded ks pb p k) ∧
        (∀ k, is_Some (expanded ks pb p k) → varsub_name k = true)
  | inr no_namespace => pb.(SubstituteFrom) ≠ [] ∧ ks.(k_Namespace) = ""
  | inr (bad_value e) => first_failure (omap (ref_data ks.(k_Namespace) p) pb.(SubstituteFrom)) e
  | inr (invalid_names names) =>
      names ≠ [] ∧ Sorted cmp_le names ∧ NoDup names ∧
      ∀ k, k ∈ names ↔ is_Some (expanded ks pb p k) ∧ varsub_name k = false
  end.
Proof.
  intros Hp Hpb. unfold ExpandPostBuildSubstituteReference. rewrite Hpb.
  destruct (bool_decide (SubstituteFrom pb = []) && bool_decide (Substitute pb = ∅)) eqn:E1.
  { apply andb_true_iff in E1 as [Hf%bool_decide_eq_true Hs%bool_decide_eq_true].
    split; [done|]. exists pb. unfold expanded. rewrite Hs, Hf. split_and!; try done.
    intros k [v Hv]. by rewrite lookup_empty in Hv. }
  destruct (bool_decide (SubstituteFrom pb ≠ []) && bool_decide (k_Namespace ks = "")) eqn:E2.
  { by apply andb_true_iff in E2 as [?%bool_decide_eq_true ?%bool_decide_eq_true]. }
  pose proof (readSubstitutions_spec ks.(k_Namespace) pb.(SubstituteFrom) p ∅ Hp) as Hr.
  destruct (readSubstitutions _ _ p ∅) as [values|e]; [|by destruct Hr as (e' & -> & ?)].
  destruct Hr as [_ Hv].
  assert (∀ k, (Substitute pb ∪ values) !! k = expanded ks pb p k) as He.
  { intros k. unfold expanded. rewrite lookup_union, Hv, lookup_empty.
    destruct (Substitute pb !! k); [by destruct (last_value _ _ _)|]. by destruct (last_value _ _ _). }
  pose proof (validateSubstitutions_spec (Substitute pb ∪ values)) as Hval.
  destruct (validateSubstitutions _) as [[| |names]|]; try done.
  - destruct Hval as (H1 & H2 & H3 & H4). split_and!; try done. intros k. by rewrite H4, He.
  - split; [done|]. eexists. split; [done|split; [done|split; [done|]]].
    intros k. rewrite <-He. apply Hval.
Qed.

(** ** Properties *)

(** Lookup captures each object once: on inputs sorted by name with one
    entry per identity, it keeps them so, and acts as a memo table: the first call
    for an identity returns and records what the store answers then, and every later
    call returns that, whatever the store has become. *)
Theorem Lookup_captures_once {F} (calls : list (NamedResource * (NamedResource → F))) inputs :
  captured_ok inputs →
  let run := foldl (λ st call, let '(v, inputs) := Lookup call.2 st.2 call.1 in (st.1 ++ [v], inputs))
               ([], inputs) calls in
  let spec := foldl (λ st call,
                let v := default (call.2 call.1) (st.2 !! call.1) in (st.1 ++ [v], <[call.1 := v]> st.2))
               ([], memo inputs) calls in
  captured_ok run.2 ∧ run.1 = spec.1 ∧ memo run.2 = spec.2.
Proof.
  intros Hok. cbv zeta.
  assert (∀ vs inputs, captured_ok inputs →
    let run := foldl (λ st call, let '(v, inputs) := Lookup call.2 st.2 call.1 in (st.1 ++ [v], inputs))
                 (vs, inputs) calls in
    let spec := foldl (λ st call,
                  let v := default (call.2 call.1) (st.2 !! call.1) in (st.1 ++ [v], <[call.1 := v]> st.2))
                 (vs, memo inputs) calls in
    captured_ok run.2 ∧ run.1 = spec.1 ∧ memo run.2 = spec.2) as Hgen; [|by apply Hgen].
  clear Hok inputs. induction calls as [|[id facts] calls IH]; intros vs inputs Hok; [done|].
  cbn [foldl fst snd]. pose proof (Lookup_memo facts inputs id Hok) as Hl.
  destruct (Lookup facts inputs id) as [v inputs']. destruct Hl as (Hok' & -> & Hm).
  rewrite <-Hm. by apply IH.
Qed.

Definition nr (kind name : string) : NamedResource := mkResource "" kind "ns" name.

Lemma Lookup_captures_once_witness :
  (foldl (λ st call, let '(v, inputs) := Lookup call.2 st.2 call.1 in (st.1 ++ [v], inputs))
     ([], []) [(nr "Secret" "b", λ _, 1); (nr "ConfigMap" "a", λ _, 2); (nr "ConfigMap" "b", λ _, 3);
               (nr "Secret" "b", λ _, 4)]).1 = [1; 2; 3; 1].
Proof.
  rewrite (proj1 (proj2 (Lookup_captures_once _ [] (conj (SSorted_nil _) (NoDup_nil_2))))).
  vm_compute. reflexivity.
Defined.

(** The expansion of postBuild on every branch.  It succeeds with exactly the
    inline values over the referenced ones, the last reference winning, newlines
    stripped, and every name valid; it fails for a missing namespace, for the
    least failing key of the first failing reference, or with the sorted list of
    exactly the invalid names.  Unsupported, missing and empty references are skipped. *)
Theorem ExpandPostBuild_spec ks pb p :
  (∀ id d, p id = Some d → LawfulData d) → ks.(k_PostBuild) = Some pb →
  match ExpandPostBuildSubstituteReference ks p with
  | inl ks' =>
      ks'.(k_Namespace) = ks.(k_Namespace) ∧
      ∃ pb', ks'.(k_PostBuild) = Some pb' ∧ pb'.(SubstituteFrom) = pb.(SubstituteFrom) ∧
        (∀ k, pb'.(Substitute) !! k = expanded ks pb p k) ∧
        (∀ k, is_Some (expanded ks pb p k) → varsub_name k = true)
  | inr no_namespace => pb.(SubstituteFrom) ≠ [] ∧ ks.(k_Namespace) = ""
  | inr (bad_value e) => first_failure (omap (ref_data ks.(k_Namespace) p) pb.(SubstituteFrom)) e
  | inr (invalid_names names) =>
      names ≠ [] ∧ Sorted cmp_le names ∧ NoDup names ∧
      ∀ k, k ∈ names ↔ is_Some (expanded ks pb p k) ∧ varsub_name k = false
  end.
Proof. apply expand_cases. Qed.

Definition sample_ks : Kustomization :=
  mkKustomization "flux-system"
    (Some (mkPostBuild {["inline" := "x"]} [mkSubRef "ConfigMap" "settings" false; mkSubRef "Secret" "tokens" true])).

Definition sample_provider : Provider := λ id,
  if bool_decide (id.(Name) = "settings") then Some (ConfigMap_data sample_map)
  else if bool_decide (id.(Name) = "tokens") then Some (Secret_data sample_secret) else None.

Lemma sample_provider_lawful id d : sample_provider id = Some d → LawfulData d.
Proof.
  unfold sample_provider. case_bool_decide; [intros He; injection He as <-; apply ConfigMap_lawful|].
  case_bool_decide; [intros He; injection He as <-; apply Secret_lawful|done].
Qed.

Lemma ExpandPostBuild_spec_witness :
  match ExpandPostBuildSubstituteReference sample_ks sample_provider with
  | inl ks' => ∃ pb', ks'.(k_PostBuild) = Some pb' ∧ pb'.(Substitute) !! "key" = Some "hello"
  | inr _ => False
  end.
Proof.
  pose proof (ExpandPostBuild_spec sample_ks _ sample_provider sample_provider_lawful eq_refl) as H.
  assert (match ExpandPostBuildSubstituteReference sample_ks sample_provider with
          | inl _ => true | inr _ => false end = true) as Hok by (vm_compute; reflexivity).
  destruct (ExpandPostBuildSubstituteReference _ _) as [ks'|e]; [|discriminate Hok].
  destruct H as (_ & pb' & Hpb & _ & Hk & _). exists pb'. split; [exact Hpb|].
  rewrite Hk. vm_compute. reflexivity.
Defined.

(** A text needs substitution exactly when it holds a dollar directly
    followed by an opening brace or by another dollar. *)
Theorem hasSubstitution_exact s :
  hasSubstitution s = true ↔
  ∃ pre c d suf, s = pre +:+ String c (String d suf) ∧ dollar c = true ∧ opening d || dollar d = true.
Proof. apply hasSubstitution_iff. Qed.

(** ** Agreeing declarations *)

(** A Kustomization of the list declares the value inline, newlines stripped. *)
Definition declares (kss : list Kustomization) (k v : string) : Prop :=
  ∃ ks pb, ks ∈ kss ∧ ks.(k_PostBuild) = Some pb ∧ VarsMap pb.(Substitute) !! k = Some v.

Definition entries (kss : list Kustomization) : list (string * string) :=
  concat (map (λ ks, match ks.(k_PostBuild) with
                     | None => []
                     | Some pb => map_to_list (VarsMap pb.(Substitute))
                     end) kss).

Lemma elem_of_entries kss k v : (k, v) ∈ entries kss ↔ declares kss k v.
Proof.
  unfold entries, declares. rewrite elem_of_concat_map. split.
  - intros (ks & Hks & Hin). destruct (k_PostBuild ks) as [pb|] eqn:Hpb; [|by apply elem_of_nil in Hin].
    apply elem_of_map_to_list in Hin. eauto.
  - intros (ks & pb & Hks & Hpb & Hin). exists ks. split; [done|]. rewrite Hpb.
    by apply elem_of_map_to_list.
Qed.

Lemma union_entries kss acc :
  foldl union_kustomization acc kss = foldl union_entry acc (entries kss).
Proof.
  revert acc. induction kss as [|ks kss IH]; intros acc; [done|]. cbn [foldl].
  rewrite IH. unfold entries. cbn [map concat]. rewrite foldl_app. unfold union_kustomization at 1.
  by destruct (k_PostBuild ks).
Qed.

(** The union and the conflicts of a list of entries. *)
Definition union_ok (E : list (string * string)) (acc : gmap string string * gset string) : Prop :=
  ∀ k, (k ∈ acc.2 ↔ ∃ v v', (k, v) ∈ E ∧ (k, v') ∈ E ∧ v ≠ v') ∧
       (k ∈ acc.2 → acc.1 !! k = None) ∧
       (k ∉ acc.2 → ∀ v, acc.1 !! k = Some v ↔ (k, v) ∈ E).

Lemma union_entry_ok E acc kv : union_ok E acc → union_ok (E ++ [kv]) (union_entry acc kv).
Proof.
  destruct kv as [key val]. destruct acc as [U C]. intros Hok.
  assert (∀ k v, (k, v) ∈ E ++ [(key, val)] ↔ (k, v) ∈ E ∨ k = key ∧ v = val) as Hin.
  { intros k v. rewrite elem_of_app, list_elem_of_singleton.
    split; (intros [?|H]; [by left|right]); [by injection H as -> ->|by destruct H as [-> ->]]. }
  assert (∀ U' C', (∀ k, k ≠ key → U' !! k = U !! k ∧ (k ∈ C' ↔ k ∈ C)) →
    ((key ∈ C' ↔ ∃ v v', (key, v) ∈ E ++ [(key, val)] ∧ (key, v') ∈ E ++ [(key, val)] ∧ v ≠ v') ∧
     (key ∈ C' → U' !! key = None) ∧
     (key ∉ C' → ∀ v, U' !! key = Some v ↔ (key, v) ∈ E ++ [(key, val)])) →
    union_ok (E ++ [(key, val)]) (U', C')) as Hother.
  { intros U' C' Ho Hkey k. destruct (decide (k = key)) as [->|Hne]; [exact Hkey|].
    destruct (Ho k Hne) as [HU HC]. destruct (Hok k) as (H1 & H2 & H3). cbn in *. rewrite HU, HC. split_and!.
    - rewrite H1. split; intros (v & v' & Hv & Hv' & Hd); exists v, v'; rewrite !Hin in *; intuition congruence.
    - done.
    - intros Hk v. rewrite (H3 Hk), Hin. split; [by left|]. by intros [?|[? _]]. }
  destruct (Hok key) as (H1 & H2 & H3). cbn in H1, H2, H3. unfold union_entry; cbn [fst snd].
  case_bool_decide as HC.
  - apply Hother; [done|]. split_and!; [|done|done]. split; [|done]. intros _.
    apply H1 in HC as (v & v' & ? & ? & ?). exists v, v'. rewrite !Hin. auto.
  - specialize (H3 HC). destruct (U !! key) as [prev|] eqn:Hu; [case_bool_decide as Hd|].
    + apply Hother.
      { intros k Hk. rewrite lookup_delete_ne by done. set_solver. }
      split_and!; [|intros _; by rewrite lookup_delete_eq|set_solver].
      split; [intros _|set_solver]. exists prev, val. rewrite !Hin. split_and!; [left|by right|done].
      by apply H3.
    + subst prev. apply Hother.
      { intros k Hk. by rewrite lookup_insert_ne. }
      rewrite lookup_insert_eq. split_and!; [|done|].
      * split; [done|]. intros (v & v' & Hv & Hv' & Hne). rewrite Hin in Hv, Hv'.
        assert ((key, val) ∈ E) as Hval by by apply H3.
        assert (∀ w, (key, w) ∈ E ∨ key = key ∧ w = val → w = val) as Hu'.
        { intros w [Hw|[_ ->]]; [|done]. apply H3 in Hw. congruence. }
        by rewrite (Hu' v Hv), (Hu' v' Hv') in Hne.
      * intros _ v. rewrite Hin. split; [intros [= <-]; by right|].
        intros [Hv|[_ ->]]; [|done]. apply H3 in Hv. congruence.
    + apply Hother.
      { intros k Hk. by rewrite lookup_insert_ne. }
      rewrite lookup_insert_eq.
      assert (∀ v, (key, v) ∉ E) as Hno by (intros v Hv; apply H3 in Hv; congruence).
      split_and!; [|done|].
      * split; [done|]. intros (v & v' & Hv & Hv' & Hne). rewrite Hin in Hv, Hv'.
        destruct Hv as [Hv|[_ ->]]; [by apply Hno in Hv|].
        destruct Hv' as [Hv'|[_ ->]]; [by apply Hno in Hv'|done].
      * intros _ v. rewrite Hin. split; [intros [= <-]; by right|].
        intros [Hv|[_ ->]]; [by apply Hno in Hv|done].
Qed.

(** Dependency substitutions hold a name exactly when some Kustomization
    declares it inline and every declaration of it agrees, whatever the order of
    the Kustomizations and of their maps. *)
Theorem NewDependencySubstitutions_agree kss k v :
  NewDependencySubstitutions kss !! k = Some v ↔
  declares kss k v ∧ ∀ v', declares kss k v' → v' = v.
Proof.
  unfold NewDependencySubstitutions. rewrite union_entries.
  assert (∀ E' E acc, union_ok E acc → union_ok (E ++ E') (foldl union_entry acc E')) as Hgen.
  { induction E' as [|kv E' IH]; intros E acc Hok; [by rewrite app_nil_r|]. cbn [foldl].
    replace (E ++ kv :: E') with ((E ++ [kv]) ++ E') by by rewrite <-app_assoc.
    apply IH. by apply union_entry_ok. }
  assert (union_ok [] (∅, ∅)) as H0.
  { intros x. cbn. split_and!.
    - split; [set_solver|]. intros (? & ? & Hn & _). by apply elem_of_nil in Hn.
    - done.
    - intros _ w. rewrite lookup_empty. split; [done|]. by intros ?%elem_of_nil. }
  destruct (Hgen (entries kss) [] (∅, ∅) H0 k) as (H1 & H2 & H3). cbn [app] in *.
  set (r := foldl _ _ _) in *. destruct (decide (k ∈ r.2)) as [Hc|Hc].
  - rewrite (H2 Hc). split; [done|]. intros [Hd Hall].
    apply H1 in Hc as (w & w' & Hw & Hw' & Hne). apply elem_of_entries in Hw, Hw'.
    by rewrite (Hall w Hw), (Hall w' Hw') in Hne.
  - rewrite (H3 Hc v), elem_of_entries. split; [|by intros [? _]].
    intros Hd. split; [done|]. intros v' Hd'. destruct (decide (v' = v)) as [|Hne]; [done|].
    destruct Hc. apply H1. exists v', v. by rewrite !elem_of_entries.
Qed.

(** ** Static paths *)

Section static_path.
Context (Eval : string → (string → option string) → string * bool * list string).
(** [envsubst.Eval] depends on the variables it looks up only. *)
Hypothesis Eval_local : ∀ text f g,
  (∀ n, n ∈ (Eval text f).2 → f n = g n) → Eval text f = Eval text g.

(** The names [ResolveStaticPath] calls unknown. *)
Definition unknown (ks : Kustomization) (p : Provider) : bool :=
  existsb (λ ref, bool_decide (p (mkResource "" ref.(sr_Kind) ks.(k_Namespace) ref.(sr_Name)) = None))
    (references_of ks).

Lemma expand_substitutes ks p ks' :
  (∀ id d, p id = Some d → LawfulData d) → ExpandPostBuildSubstituteReference ks p = inl ks' →
  ∀ k v, substitute_of ks !! k = Some v → substitute_of ks' !! k = Some v.
Proof.
  intros Hp He k v. unfold substitute_of. destruct (k_PostBuild ks) as [pb|] eqn:Hpb; [|done].
  pose proof (expand_cases ks pb p Hp Hpb) as Hs. rewrite He in Hs.
  destruct Hs as (_ & pb' & -> & _ & Hk & _). intros Hv. rewrite Hk. unfold expanded. by rewrite Hv.
Qed.

Lemma readSubstitutions_ext ns refs p p' values :
  Forall (λ ref, p (mkResource "" ref.(sr_Kind) ns ref.(sr_Name)) = p' (mkResource "" ref.(sr_Kind) ns ref.(sr_Name)))
    refs → readSubstitutions ns refs p values = readSubstitutions ns refs p' values.
Proof.
  intros Hf. revert values. induction Hf as [|ref refs Hr _ IH]; intros values; [done|].
  cbn [readSubstitutions]. unfold resourceData. rewrite Hr. destruct (_ || _); [|apply IH].
  destruct (p' _) as [d|]; [|apply IH]. destruct (negb (HasKeys d)); [apply IH|].
  destruct (mergeSubstitutions values d) as [values' [e|]]; [done|apply IH].
Qed.

(** Where nothing is unknown, a provider that knows more answers the same. *)
Lemma known_ext ks p p' :
  unknown ks p = false → (∀ id d, p id = Some d → p' id = Some d) →
  unknown ks p' = false ∧
  ExpandPostBuildSubstituteReference ks p = ExpandPostBuildSubstituteReference ks p'.
Proof.
  intros Hu Hext.
  assert (Forall (λ ref, is_Some (p (mkResource "" ref.(sr_Kind) ks.(k_Namespace) ref.(sr_Name))))
            (references_of ks)) as Hf.
  { apply Forall_forall. intros ref Hin. unfold unknown in Hu.
    destruct (p _) as [d|] eqn:Hd; [done|]. exfalso.
    assert (unknown ks p = true) as Ht; [|unfold unknown in Ht; congruence].
    apply existsb_exists. exists ref. split; [by apply list_elem_of_In|]. rewrite Hd. done. }
  assert (Forall (λ ref, p (mkResource "" ref.(sr_Kind) ks.(k_Namespace) ref.(sr_Name))
                       = p' (mkResource "" ref.(sr_Kind) ks.(k_Namespace) ref.(sr_Name)))
            (references_of ks)) as Heq.
  { eapply Forall_impl; [exact Hf|]. intros ref [d Hd]. by rewrite Hd, (Hext _ _ Hd). }
  split.
  - unfold unknown. destruct (existsb _ _) eqn:E; [|done]. apply existsb_exists in E as (ref & Hin & Hn).
    apply list_elem_of_In in Hin. rewrite Forall_forall in Hf, Heq. destruct (Hf ref Hin) as [d Hd].
    rewrite <-(Heq ref Hin), Hd in Hn. done.
  - unfold ExpandPostBuildSubstituteReference. unfold references_of in Heq.
    destruct (k_PostBuild ks) as [pb|]; [|done]. by rewrite (readSubstitutions_ext _ _ p p').
Qed.

(** A path reported as resolved stays resolved.  If [ResolveStaticPath] settles
    a path although some referenced data are unknown, then whatever those data turn
    out to be, as long as the substitutions remain valid, the path settles to the same
    text, or to itself when they turn out to leave nothing to substitute. *)
Theorem static_path_stable path parent always p p' r :
  (∀ id d, p' id = Some d → LawfulData d) → (∀ id d, p id = Some d → p' id = Some d) →
  ResolveStaticPath Eval path parent always p = (r, true) →
  (∀ e, ExpandPostBuildSubstituteReference parent p' ≠ inr e) →
  ∃ r', ResolveStaticPath Eval path parent always p' = (r', true) ∧ (r' = r ∨ r' = path).
Proof.
  intros Hp' Hext Hr Hok.
  assert (∀ id d, p id = Some d → LawfulData d) as Hp by (intros id d Hd; by apply (Hp' id), Hext).
  destruct (unknown parent p) eqn:Hu.
  2: { destruct (known_ext parent p p' Hu Hext) as [Hu' He]. exists r. split; [|by left].
       rewrite <-Hr. unfold ResolveStaticPath. fold (unknown parent p) (unknown parent p').
       by rewrite Hu, Hu', He. }
  unfold ResolveStaticPath in *. fold (unknown parent p) (unknown parent p') in *. rewrite Hu in Hr.
  destruct (ExpandPostBuildSubstituteReference parent p) as [ks1|] eqn:E1; [|done].
  destruct (ExpandPostBuildSubstituteReference parent p') as [ks2|e] eqn:E2; [|by destruct (Hok e)].
  destruct (_ && negb true) eqn:Ht; [by rewrite andb_false_r in Ht|]. clear Ht.
  destruct (_ && negb (unknown parent p')); [exists path; auto|].
  exists r. split; [|by left].
  destruct (Eval path (lookup_in (VarsMap (substitute_of ks1)))) as [[resolved ok] names] eqn:Hev.
  injection Hr as <- Hgood. apply andb_true_iff in Hgood as [-> Hinc%negb_true_iff].
  assert (∀ n, n ∈ names → ∃ v, substitute_of parent !! n = Some v) as Hfixed.
  { intros n Hn. destruct (substitute_of parent !! n) as [v|] eqn:Hv; [eauto|]. exfalso.
    assert (existsb (λ n, bool_decide (substitute_of parent !! n = None)) names = true) as Ht;
      [|congruence].
    apply existsb_exists. exists n. split; [by apply list_elem_of_In|]. by rewrite Hv. }
  assert (Eval path (lookup_in (VarsMap (substitute_of ks2))) = (resolved, true, names)) as ->.
  { rewrite <-Hev. symmetry. apply Eval_local. rewrite Hev. cbn [snd]. intros n Hn.
    destruct (Hfixed n Hn) as [v Hv]. unfold lookup_in, VarsMap. rewrite !lookup_fmap.
    by rewrite (expand_substitutes parent p ks1 Hp E1 n v Hv),
      (expand_substitutes parent p' ks2 Hp' E2 n v Hv). }
  assert (existsb (λ n, unknown parent p' && bool_decide (substitute_of parent !! n = None)) names = false) as ->;
    [|done].
  apply not_true_is_false. intros (n & Hn & Hb)%existsb_exists.
  apply list_elem_of_In in Hn. destruct (Hfixed n Hn) as [v Hv]. rewrite Hv in Hb.
  by rewrite andb_false_r in Hb.
Qed.
End static_path.

(** A reading of the whole text as one name, which looks up that name only. *)
Definition sample_Eval (text : string) (f : string → option string) : string * bool * list string :=
  (default "" (f text), true, [text]).

Lemma static_path_stable_witness :
  ∃ r', ResolveStaticPath sample_Eval "inline" sample_ks true sample_provider = (r', true) ∧
    (r' = "x" ∨ r' = "inline").
Proof.
  apply (static_path_stable sample_Eval) with (p := λ _, None).
  - intros text f g Hfg. unfold sample_Eval. rewrite (Hfg text (list_elem_of_here _ _)). reflexivity.
  - exact sample_provider_lawful.
  - discriminate.
  - vm_compute. reflexivity.
  - intros e He.
    assert (match ExpandPostBuildSubstituteReference sample_ks sample_provider with
            | inl _ => true | inr _ => false end = true) as Hok by (vm_compute; reflexivity).
    rewrite He in Hok. discriminate Hok.
Defined.
