(* ===== verification/HelmValues.v ===== *)
(** Helm values: src/pkg/values/values.go (DeepMergeInto, Cache, ExpandValueReferences and
    what they call), with DeepCopyMap of src/pkg/manifest/deepcopy.go.

    The maps of a release are shared: the cache keeps what it parsed, a merge borrows nested
    maps of both its arguments, and a value set by its path is written in place.  The model
    has the maps in a heap, and states what an expansion gives as trees.  The Helm functions
    are parameters with what the code relies on as a class of laws: [MergeMaps] returns a new
    map and writes none, [ParseInto] writes only what its map reaches.  So is the decoding of
    YAML. *)

From Stdlib Require Import Ascii.
From S2P Require Import Prelude Resource Documents ConfigData Values.

(** ** The heap *)

Abbreviation loc := nat.

(** An [any]: a scalar, a [map[string]any] or a [[]any]. *)
Inductive value (A : Type) := Scalar (a : A) | VMap (l : loc) | VList (l : loc).
Arguments Scalar {A}.
Arguments VMap {A}.
Arguments VList {A}.

Inductive object (A : Type) := OMap (m : gmap string (value A)) | OList (l : list (value A)).
Arguments OMap {A}.
Arguments OList {A}.

Abbreviation heap A := (gmap loc (object A)).

(** The tree a value stands for. *)
Inductive reads {A} (h : heap A) : value A → tree A → Prop :=
  | reads_scalar a : reads h (Scalar a) (TScalar a)
  | reads_map l m tm : h !! l = Some (OMap m) → (∀ k, is_Some (m !! k) ↔ is_Some (tm !! k)) →
      (∀ k v t, m !! k = Some v → tm !! k = Some t → reads h v t) → reads h (VMap l) (TMap tm)
  | reads_list l vs ts : h !! l = Some (OList vs) → length vs = length ts →
      (∀ i v t, vs !! i = Some v → ts !! i = Some t → reads h v t) → reads h (VList l) (TList ts).

(** What a value holds directly, and all it reaches. *)
Definition holds {A} (o : object A) (v : value A) : Prop :=
  match o with OMap m => ∃ k, m !! k = Some v | OList l => v ∈ l end.

Inductive reach {A} (h : heap A) : value A → loc → Prop :=
  | reach_map l : reach h (VMap l) l
  | reach_list l : reach h (VList l) l
  | reach_in_map l o v l' : h !! l = Some o → holds o v → reach h v l' → reach h (VMap l) l'
  | reach_in_list l o v l' : h !! l = Some o → holds o v → reach h v l' → reach h (VList l) l'.

Definition alloc {A} (o : object A) (h : heap A) : heap A * loc := let l := fresh (dom h) in (<[l := o]> h, l).

(** [Cache]: nil, or the parsed map of each content. *)
Definition Cache : Type := option (gmap string loc).

(** ** Third-party functions *)

(** [MergeMaps] of helm's loader and [ParseInto] of its strvals on the heap (a flag says
    whether a value stays a string), with what they compute on trees; [yaml.Unmarshal] into a
    map, where [None] is an error and [Some None] a document that leaves the map nil; and the
    order in which a map is ranged over. *)
Record helm (A : Type) := mkHelm {
  MergeMaps : heap A → loc → loc → heap A * loc;
  merge_maps : gmap string (tree A) → gmap string (tree A) → gmap string (tree A);
  ParseInto : bool → heap A → string → loc → heap A * bool;
  set_path : bool → string → gmap string (tree A) → option (gmap string (tree A));
  Unmarshal : string → option (option (gmap string (tree A)));
  range : gmap string (value A) → list (string * value A);
}.
Arguments MergeMaps {A}.
Arguments merge_maps {A}.
Arguments ParseInto {A}.
Arguments set_path {A}.
Arguments Unmarshal {A}.
Arguments range {A}.

Class LawfulHelm {A} (H : helm A) : Prop := {
  range_perm m : H.(range) m ≡ₚ map_to_list m;
  merge_maps_lookup a b k : H.(merge_maps) a b !! k =
    match a !! k, b !! k with
    | Some (TMap x), Some (TMap y) => Some (TMap (H.(merge_maps) x y))
    | x, None => x
    | _, y => y
    end;
  MergeMaps_reads h a b ta tb h' c : reads h (VMap a) (TMap ta) → reads h (VMap b) (TMap tb) → H.(MergeMaps) h a b = (h', c) →
    h ⊆ h' ∧ reads h' (VMap c) (TMap (H.(merge_maps) ta tb)) ∧
    ∀ l, reach h' (VMap c) l → l ∉ dom h ∨ reach h (VMap a) l ∨ reach h (VMap b) l;
  ParseInto_reads s h text r tm h' ok : reads h (VMap r) (TMap tm) → H.(ParseInto) s h text r = (h', ok) →
    dom h ⊆ dom h' ∧ (∀ l, l ∈ dom h → ¬ reach h (VMap r) l → h' !! l = h !! l) ∧
    match H.(set_path) s text tm with
    | Some tm' => ok = true ∧ reads h' (VMap r) (TMap tm') ∧ ∀ l, reach h' (VMap r) l → l ∉ dom h ∨ reach h (VMap r) l
    | None => ok = false
    end;
}.

(** ** Copies *)

Section values.
Context {A : Type} (H : helm A).

(** The loops of [DeepCopyMap] and [deepCopyValue] over the fields and items. *)
Fixpoint copy_fields (copy : heap A → value A → option (heap A * value A)) (h : heap A) (fields : list (string * value A))
    (out : gmap string (value A)) : option (heap A * gmap string (value A)) :=
  match fields with
  | [] => Some (h, out)
  | (k, v) :: fields => '(h, v) ← copy h v; copy_fields copy h fields (<[k := v]> out)
  end.

Fixpoint copy_items (copy : heap A → value A → option (heap A * value A)) (h : heap A) (items : list (value A))
    : option (heap A * list (value A)) :=
  match items with
  | [] => Some (h, [])
  | v :: items => '(h, v) ← copy h v; '(h, out) ← copy_items copy h items; Some (h, v :: out)
  end.

(** [deepCopyValue]; the fuel bounds the depth of the value. *)
Fixpoint deepCopyValue (fuel : nat) (h : heap A) (v : value A) : option (heap A * value A) :=
  match fuel with
  | 0 => None
  | S fuel =>
      match v with
      | Scalar a => Some (h, Scalar a)
      | VMap l =>
          match h !! l with
          | Some (OMap m) => '(h, out) ← copy_fields (deepCopyValue fuel) h (H.(range) m) ∅;
                             let '(h, l) := alloc (OMap out) h in Some (h, VMap l)
          | _ => None
          end
      | VList l =>
          match h !! l with
          | Some (OList vs) => '(h, out) ← copy_items (deepCopyValue fuel) h vs;
                               let '(h, l) := alloc (OList out) h in Some (h, VList l)
          | _ => None
          end
      end
  end.

(** A value that stands for a tree has no path longer than the heap. *)
Definition DeepCopyMap (h : heap A) (m : loc) : option (heap A * loc) :=
  '(h, v) ← deepCopyValue (S (size h)) h (VMap m); match v with VMap l => Some (h, l) | _ => None end.

(** ** Merging *)

Definition write_field (l : loc) (k : string) (v : value A) (h : heap A) : heap A :=
  match h !! l with Some (OMap m) => <[l := OMap (<[k := v]> m)]> h | _ => h end.

Definition field (h : heap A) (l : loc) (k : string) : option (value A) :=
  match h !! l with Some (OMap m) => m !! k | _ => None end.

(** One field of [DeepMergeInto]. *)
Definition merge_field (dst : loc) (h : heap A) (kv : string * value A) : heap A :=
  match field h dst kv.1, kv.2 with
  | Some (VMap ebm), VMap vbm => let '(h, c) := H.(MergeMaps) h ebm vbm in write_field dst kv.1 (VMap c) h
  | _, v => write_field dst kv.1 v h
  end.

(** [DeepMergeInto] of a destination that is not nil; a nil override has no fields. *)
Definition DeepMergeInto (h : heap A) (dst : loc) (override : option loc) : heap A :=
  match override with
  | None => h
  | Some o => match h !! o with Some (OMap m) => foldl (merge_field dst) h (H.(range) m) | _ => h end
  end.

(** ** References *)

(** A [ValuesReference]; [vr_Key] is what [GetValuesKey] answers. *)
Record ValuesReference := mkValuesReference {
  vr_Kind : string; vr_Name : string; vr_Key : string; TargetPath : string; vr_Optional : bool; Literal : bool;
}.

Inductive values_failure :=
  | UnsupportedKind (kind : string) | MissingObject (kind namespace name : string) | MissingKey (kind namespace name key : string)
  | BadData (e : value_error) | BadYAML (name key : string) | BadPath (path : string).

(** The failures that are a [missingValueRefError]. *)
Definition is_missing (e : values_failure) : bool :=
  match e with MissingObject _ _ _ | MissingKey _ _ _ _ => true | _ => false end.

Definition lookupValueRef (ref : ValuesReference) (namespace : string) (p : Provider) : string + values_failure :=
  match resourceData ref.(vr_Kind) namespace ref.(vr_Name) p with
  | None => inr (UnsupportedKind ref.(vr_Kind))
  | Some None => inr (MissingObject ref.(vr_Kind) namespace ref.(vr_Name))
  | Some (Some data) =>
      match data.(Value) ref.(vr_Key) with
      | inr e => inr (BadData e)
      | inl (Some v) => inl v
      | inl None => inr (if data.(HasKeys) then MissingKey ref.(vr_Kind) namespace ref.(vr_Name) ref.(vr_Key)
                         else MissingObject ref.(vr_Kind) namespace ref.(vr_Name))
      end
  end.

(** The replacements of [replaceLiteralValueAtPath]. *)
Fixpoint escape (s : string) : string :=
  match s with
  | "" => ""
  | String c s => if bool_decide (c ∈ ["\"; ","; "["; "]"; "{"; "}"]%char) then String "\" (String c (escape s)) else String c (escape s)
  end.

(** The text a reference with a path sets, and whether it stays a string. *)
Definition assignment (ref : ValuesReference) (found : string) : bool * string :=
  if ref.(Literal) then (true, ref.(TargetPath) +:+ "=" +:+ escape found)
  else let '(unquoted, quoted) := stripMatchingQuotes found in
       if quoted then (true, ref.(TargetPath) +:+ "=" +:+ unquoted) else (false, ref.(TargetPath) +:+ "=" +:+ found).

(** [setValueReference]. *)
Definition setValueReference (h : heap A) (values : loc) (ref : ValuesReference) (found : string) : heap A * option values_failure :=
  let '(s, text) := assignment ref found in
  let '(h, ok) := H.(ParseInto) s h text values in
  (h, if ok : bool then None else Some (BadPath ref.(TargetPath))).

(** ** The cache *)

(** What decoding allocates. *)
Fixpoint alloc_tree (t : tree A) (h : heap A) : heap A * value A :=
  match t with
  | TScalar a => (h, Scalar a)
  | TMap m =>
      let '(h, out) := map_fold (λ k t (acc : heap A * gmap string (value A)),
                                  let '(h, v) := alloc_tree t acc.1 in (h, <[k := v]> acc.2)) (h, ∅) m in
      let '(h, l) := alloc (OMap out) h in (h, VMap l)
  | TList ts =>
      let '(h, out) := foldl (λ (acc : heap A * list (value A)) t, let '(h, v) := alloc_tree t acc.1 in (h, acc.2 ++ [v])) (h, []) ts in
      let '(h, l) := alloc (OList out) h in (h, VList l)
  end.

Definition lookup_cache (c : Cache) (key : string) : option loc := m ← c; m !! key.
Definition put (c : Cache) (key : string) (parsed : loc) : Cache := <[key := parsed]> <$> c.

(** [updateHelmReleaseValues]. *)
Definition updateHelmReleaseValues (h : heap A) (c : Cache) (ref : ValuesReference) (found : string) (values : loc)
    : heap A * Cache * option values_failure :=
  match lookup_cache c found with
  | Some parsed => (DeepMergeInto h values (Some parsed), c, None)
  | None =>
      match H.(Unmarshal) found with
      | None => (h, c, Some (BadYAML ref.(vr_Name) ref.(vr_Key)))
      | Some None => (h, c, None)
      | Some (Some decoded) =>
          match alloc_tree (TMap decoded) h with
          | (h, VMap parsed) => (DeepMergeInto h values (Some parsed), put c found parsed, None)
          | (h, _) => (h, c, None)
          end
      end
  end.

(** ** Expansion *)

Record valueExpansion := mkExpansion { ex_values : loc; owned : bool }.

(** [expand]; a result is missing only when the copy ran out of fuel. *)
Definition expand (namespace : string) (provider : Provider) (h : heap A) (c : Cache) (ex : valueExpansion) (ref : ValuesReference)
    : option (heap A * Cache * valueExpansion * option values_failure) :=
  match lookupValueRef ref namespace provider with
  | inr e => Some (h, c, ex, if is_missing e && ref.(vr_Optional) then None else Some e)
  | inl found =>
      if bool_decide (ref.(TargetPath) = "") then
        let '(h, c, e) := updateHelmReleaseValues h c ref found ex.(ex_values) in
        Some (h, c, mkExpansion ex.(ex_values) false, e)
      else
        '(h, ex) ← (if ex.(owned) then Some (h, ex) else '(h, values) ← DeepCopyMap h ex.(ex_values); Some (h, mkExpansion values true));
        let '(h, e) := setValueReference h ex.(ex_values) ref found in
        Some (h, c, ex, e)
  end.

Fixpoint expand_all (namespace : string) (provider : Provider) (h : heap A) (c : Cache) (ex : valueExpansion) (refs : list ValuesReference)
    : option (heap A * Cache * valueExpansion * option values_failure) :=
  match refs with
  | [] => Some (h, c, ex, None)
  | ref :: refs =>
      '(h, c, ex, e) ← expand namespace provider h c ex ref;
      match e with Some e => Some (h, c, ex, Some e) | None => expand_all namespace provider h c ex refs end
  end.

(** The fields of a [HelmRelease] an expansion reads; [Values] may be nil. *)
Record HelmRelease := mkHelmRelease { h_Namespace : string; ValuesFrom : list ValuesReference; h_Values : option loc }.

(** [ExpandValueReferences]: the heap, the cache, the release's values and the error. *)
Definition ExpandValueReferences (h : heap A) (c : Cache) (hr : HelmRelease) (provider : Provider)
    : option (heap A * Cache * option loc * option values_failure) :=
  match hr.(ValuesFrom) with
  | [] => Some (h, c, hr.(h_Values), None)
  | refs =>
      let '(h, values) := alloc (OMap ∅) h in
      '(h, c, ex, e) ← expand_all hr.(h_Namespace) provider h c (mkExpansion values true) refs;
      match e with
      | Some e => Some (h, c, hr.(h_Values), Some e)
      | None => Some (DeepMergeInto h ex.(ex_values) hr.(h_Values), c, Some ex.(ex_values), None)
      end
  end.

End values.

(** ** Trees and heaps *)

Section heaps.
Context {A : Type}.
Implicit Types (h : heap A) (v : value A) (t : tree A).

Lemma reads_det h v t t' : reads h v t → reads h v t' → t = t'.
Proof.
  intros Hr. revert t'. induction Hr as [a | l m tm Hl Hd Hc IH | l vs ts Hl Hlen Hc IH]; intros t' Hr'; inversion Hr' as [| ? m' tm' Hl' Hd' Hc' | ? vs' ts' Hl' Hlen' Hc']; subst; [done | |].
  - rewrite Hl in Hl'. injection Hl' as <-. f_equal. apply map_eq. intros k. destruct (tm !! k) as [t |] eqn:E.
    + destruct (Hd k) as [_ [v Hv]]; [by rewrite E |]. destruct (Hd' k) as [[t' Ht'] _]; [by rewrite Hv |]. rewrite Ht'. f_equal. by eapply IH; [..| eapply Hc'].
    + destruct (tm' !! k) as [t' |] eqn:E'; [| done]. destruct (Hd' k) as [_ [v Hv]]; [by rewrite E' |]. destruct (Hd k) as [[t Ht] _]; [by rewrite Hv | congruence].
  - rewrite Hl in Hl'. injection Hl' as <-. f_equal. apply list_eq_same_length with (length vs); [lia.. |].
    intros i t t' Hi Ht Ht'. destruct (lookup_lt_is_Some_2 vs i Hi) as [v Hv]. by eapply IH; [..| eapply Hc'].
Qed.

Lemma reads_agree h h' v t : reads h v t → (∀ l, reach h v l → h' !! l = h !! l) → reads h' v t.
Proof.
  intros Hr. induction Hr as [a | l m tm Hl Hd Hc IH | l vs ts Hl Hlen Hc IH]; intros Ha; [constructor | |].
  - eapply reads_map; [by rewrite Ha by constructor | done |]. intros k v t Hv Ht. eapply IH; [done.. |]. intros l' Hl'. apply Ha.
    eapply reach_in_map; [done | by exists k | done].
  - eapply reads_list; [by rewrite Ha by constructor | done |]. intros i v t Hv Ht. eapply IH; [done.. |]. intros l' Hl'. apply Ha.
    eapply reach_in_list; [done | by eapply list_elem_of_lookup_2 | done].
Qed.

Lemma reach_agree h h' v l : reach h' v l → (∀ l, reach h v l → h' !! l = h !! l) → reach h v l.
Proof.
  intros Hr. induction Hr as [l | l | l o v l' Hl Ho _ IH | l o v l' Hl Ho _ IH]; intros Ha; try constructor.
  - rewrite Ha in Hl by constructor. eapply reach_in_map; [done.. |]. apply IH. intros l1 H1. apply Ha. by eapply reach_in_map.
  - rewrite Ha in Hl by constructor. eapply reach_in_list; [done.. |]. apply IH. intros l1 H1. apply Ha. by eapply reach_in_list.
Qed.

Lemma reads_dom h v t l : reads h v t → reach h v l → l ∈ dom h.
Proof.
  intros Hr. revert l. induction Hr as [a | l m tm Hl Hd Hc IH | l vs ts Hl Hlen Hc IH]; intros l1 H1; inversion H1; subst; try (by eapply elem_of_dom_2).
  - simplify_eq. match goal with E : holds _ _ |- _ => destruct E as [k Hk] end. destruct (Hd k) as [[t Ht] _]; [by rewrite Hk |]. by eapply IH.
  - simplify_eq. match goal with E : holds _ _ |- _ => apply list_elem_of_lookup in E as [i Hi] end.
    destruct (lookup_lt_is_Some_2 ts i) as [t Ht]; [rewrite <- Hlen; by eapply lookup_lt_Some |]. by eapply IH.
Qed.

Lemma reads_mono h h' v t : h ⊆ h' → reads h v t → reads h' v t.
Proof.
  intros Hs Hr. eapply reads_agree; [done |]. intros l Hl. eapply reads_dom in Hl; [| done]. apply elem_of_dom in Hl as [o Ho]. rewrite Ho. by eapply lookup_weaken.
Qed.

Lemma reach_mono h h' v t l : h ⊆ h' → reads h v t → reach h' v l → reach h v l.
Proof.
  intros Hs Hr Hl. eapply reach_agree; [done |]. intros l' Hl'. eapply reads_dom in Hl'; [| done]. apply elem_of_dom in Hl' as [o Ho]. rewrite Ho. by eapply lookup_weaken.
Qed.

(** What a readable value reaches is readable, and no deeper. *)
Lemma reach_reads h v t l : reads h v t → reach h v l → ∃ t', (reads h (VMap l) t' ∨ reads h (VList l) t') ∧ depth t' ≤ depth t.
Proof.
  intros Hr. revert l. induction Hr as [a | l m tm Hl Hd Hc IH | l vs ts Hl Hlen Hc IH]; intros l1 H1; inversion H1; subst.
  - eexists. split; [left; by eapply reads_map | done].
  - simplify_eq. match goal with E : holds _ _ |- _ => destruct E as [k Hk] end. destruct (Hd k) as [[t Ht] _]; [by rewrite Hk |]. destruct (IH k _ _ Hk Ht l1) as (t' & ? & ?); [done |].
    exists t'. split; [done |]. pose proof (depth_map _ _ _ Ht). lia.
  - eexists. split; [right; by eapply reads_list | done].
  - simplify_eq. match goal with E : holds _ _ |- _ => apply list_elem_of_lookup in E as [i Hi] end.
    destruct (lookup_lt_is_Some_2 ts i) as [t Ht]; [rewrite <- Hlen; by eapply lookup_lt_Some |]. destruct (IH i _ _ Hi Ht l1) as (t' & ? & ?); [done |].
    exists t'. split; [done |]. pose proof (depth_list _ _ _ Ht). lia.
Qed.

(** A readable map is not reached from its fields. *)
Lemma map_acyclic h l m tm k v : reads h (VMap l) (TMap tm) → h !! l = Some (OMap m) → m !! k = Some v → ¬ reach h v l.
Proof.
  intros Hr Hl Hk Hv. inversion Hr as [| ? m' tm' Hl' Hd Hc |]; subst. rewrite Hl in Hl'. injection Hl' as <-.
  destruct (Hd k) as [[t Ht] _]; [by rewrite Hk |]. destruct (reach_reads h v t l (Hc _ _ _ Hk Ht) Hv) as (t' & [Hr' | Hr'] & Hdep).
  - rewrite (reads_det _ _ _ _ Hr' Hr) in Hdep. pose proof (depth_map _ _ _ Ht). lia.
  - inversion Hr'. congruence.
Qed.

Lemma list_acyclic h l vs ts i v : reads h (VList l) (TList ts) → h !! l = Some (OList vs) → vs !! i = Some v → ¬ reach h v l.
Proof.
  intros Hr Hl Hi Hv. inversion Hr as [| | ? vs' ts' Hl' Hlen Hc]; subst. rewrite Hl in Hl'. injection Hl' as <-.
  destruct (lookup_lt_is_Some_2 ts i) as [t Ht]; [rewrite <- Hlen; by eapply lookup_lt_Some |].
  destruct (reach_reads h v t l (Hc _ _ _ Hi Ht) Hv) as (t' & [Hr' | Hr'] & Hdep).
  - inversion Hr'. congruence.
  - rewrite (reads_det _ _ _ _ Hr' Hr) in Hdep. pose proof (depth_list _ _ _ Ht). lia.
Qed.

(** A readable value is no deeper than what it reaches is large. *)
Lemma depth_bound h v t (X : gset loc) : reads h v t → (∀ l, reach h v l → l ∈ X) → depth t ≤ S (size X).
Proof.
  intros Hr. revert X. induction Hr as [a | l m tm Hl Hd Hc IH | l vs ts Hl Hlen Hc IH]; intros X HX; [cbn; lia | |].
  - assert (l ∈ X) as Hin by (apply HX; constructor). assert (size X = S (size (X ∖ {[l]}))) as ->.
    { rewrite size_difference by set_solver. rewrite size_singleton. assert (size X ≠ 0); [| lia]. intros E%size_empty_inv. set_solver. }
    cbn. apply le_n_S, max_fold_le. intros k t Ht. destruct (Hd k) as [_ [v Hv]]; [by rewrite Ht |]. eapply IH; [done.. |]. intros l' Hl'.
    apply elem_of_difference. split; [apply HX; eapply reach_in_map; [done | by exists k | done] |]. intros ->%elem_of_singleton.
    eapply map_acyclic; [by eapply reads_map | done.. ].
  - assert (l ∈ X) as Hin by (apply HX; constructor). assert (size X = S (size (X ∖ {[l]}))) as ->.
    { rewrite size_difference by set_solver. rewrite size_singleton. assert (size X ≠ 0); [| lia]. intros E%size_empty_inv. set_solver. }
    cbn. apply le_n_S, max_list_le. intros i t Ht. destruct (lookup_lt_is_Some_2 vs i) as [v Hv]; [rewrite Hlen; by eapply lookup_lt_Some |].
    eapply IH; [done.. |]. intros l' Hl'. apply elem_of_difference. split; [apply HX; eapply reach_in_list; [done | by eapply list_elem_of_lookup_2 | done] |].
    intros ->%elem_of_singleton. eapply list_acyclic; [by eapply reads_list | done..].
Qed.

Lemma depth_heap h v t : reads h v t → depth t ≤ S (size h).
Proof. intros Hr. rewrite <- size_dom. eapply depth_bound; [done |]. intros l. by apply (reads_dom h v t). Qed.

(** A new value of [h'], none of whose objects was in [h]. *)
Definition new_value (h h' : heap A) (v : value A) (t : tree A) : Prop :=
  h ⊆ h' ∧ reads h' v t ∧ ∀ l, reach h' v l → l ∉ dom h.

Lemma new_value_mono h h1 h2 v t : h1 ⊆ h2 → new_value h h1 v t → new_value h h2 v t.
Proof.
  intros Hs (H1 & H2 & H3). split; [by etrans |]. split; [by eapply reads_mono |]. intros l Hl. apply H3. by apply (reach_mono h1 h2 v t).
Qed.

Lemma new_value_weaken h0 h h' v t : h0 ⊆ h → new_value h h' v t → new_value h0 h' v t.
Proof.
  intros Hs (H1 & H2 & H3). split; [by etrans |]. split; [done |]. intros l Hl H0. apply (H3 l Hl). by eapply subseteq_dom.
Qed.

Lemma alloc_fresh (o : object A) h : let '(h', l) := alloc o h in l ∉ dom h ∧ h' = <[l := o]> h ∧ h ⊆ h'.
Proof. cbn. split; [apply is_fresh |]. split; [done |]. apply insert_subseteq, not_elem_of_dom, is_fresh. Qed.

Lemma alloc_map h h1 (out : gmap string (value A)) (tm : gmap string (tree A)) : h ⊆ h1 →
  (∀ k, is_Some (out !! k) ↔ is_Some (tm !! k)) → (∀ k v t, out !! k = Some v → tm !! k = Some t → new_value h h1 v t) →
  let '(h2, l) := alloc (OMap out) h1 in new_value h h2 (VMap l) (TMap tm).
Proof.
  intros Hs Hd Hc. pose proof (alloc_fresh (OMap out) h1) as Ha. destruct (alloc (OMap out) h1) as [h2 l]. destruct Ha as (Hl & -> & Hs2).
  split; [by etrans |]. split.
  - eapply reads_map; [apply lookup_insert_eq | done |]. intros k v t Hv Ht. eapply reads_mono; [done |]. by apply (Hc k v t).
  - intros l' Hr. inversion Hr as [| | ? o v ? Ho Hv Hr' |]; subst; [intros Hin; apply Hl; by eapply subseteq_dom |].
    rewrite lookup_insert_eq in Ho. injection Ho as <-. destruct Hv as [k Hk]. destruct (Hd k) as [[t Ht] _]; [by rewrite Hk |].
    destruct (Hc k v t Hk Ht) as (_ & Hrd & Hfr). apply Hfr. by apply (reach_mono h1 _ v t _ Hs2).
Qed.

Lemma alloc_list h h1 (out : list (value A)) (ts : list (tree A)) : h ⊆ h1 → Forall2 (new_value h h1) out ts →
  let '(h2, l) := alloc (OList out) h1 in new_value h h2 (VList l) (TList ts).
Proof.
  intros Hs Hc. pose proof (alloc_fresh (OList out) h1) as Ha. destruct (alloc (OList out) h1) as [h2 l]. destruct Ha as (Hl & -> & Hs2).
  split; [by etrans |]. split.
  - eapply reads_list; [apply lookup_insert_eq | by eapply Forall2_length |]. intros i v t Hv Ht. eapply reads_mono; [done |].
    by eapply Forall2_lookup_lr in Hc as (_ & ? & _).
  - intros l' Hr. inversion Hr as [| | | ? o v ? Ho Hv Hr']; subst; [intros Hin; apply Hl; by eapply subseteq_dom |].
    rewrite lookup_insert_eq in Ho. injection Ho as <-. apply list_elem_of_lookup in Hv as [i Hi].
    destruct (Forall2_lookup_l _ _ _ _ _ Hc Hi) as (t & Ht & _ & Hrd & Hfr). apply Hfr. by apply (reach_mono h1 _ v t _ Hs2).
Qed.

End heaps.

Section operations.
Context {A : Type} (H : helm A) `{!LawfulHelm H}.
Implicit Types (h : heap A) (v : value A) (t : tree A).

Lemma range_nodup (m : gmap string (value A)) : NoDup (H.(range) m).*1.
Proof. rewrite range_perm. apply NoDup_fst_map_to_list. Qed.

Lemma elem_of_ranged (m : gmap string (value A)) k v : (k, v) ∈ H.(range) m ↔ m !! k = Some v.
Proof. by rewrite range_perm, elem_of_map_to_list. Qed.

(** ** Copying *)

(** What [copy] does to a value of [h] from any later heap. *)
Definition copies (h : heap A) (copy : heap A → value A → option (heap A * value A)) (v : value A) (t : tree A) : Prop :=
  ∀ h1, h ⊆ h1 → ∃ h2 v', copy h1 v = Some (h2, v') ∧ new_value h1 h2 v' t.

Lemma copy_fields_spec h copy (m : gmap string (value A)) (tm : gmap string (tree A)) fields h0 h1 out : h ⊆ h1 → h0 ⊆ h1 →
  NoDup fields.*1 → (∀ k v, (k, v) ∈ fields → m !! k = Some v ∧ out !! k = None) →
  (∀ k v, m !! k = Some v → ∃ t, tm !! k = Some t ∧ copies h copy v t) →
  (∀ k v, out !! k = Some v → ∃ t, tm !! k = Some t ∧ new_value h0 h1 v t) →
  ∃ h2 out', copy_fields copy h1 fields out = Some (h2, out') ∧ h1 ⊆ h2 ∧
    (∀ k, is_Some (out' !! k) ↔ is_Some (out !! k) ∨ k ∈ fields.*1) ∧
    (∀ k v, out' !! k = Some v → ∃ t, tm !! k = Some t ∧ new_value h0 h2 v t).
Proof.
  revert h1 out. induction fields as [| [k v] fields IH]; intros h1 out Hs Hs0 Hnd Hf Hm Ho.
  - exists h1, out. split; [done |]. split; [done |]. split; [| done]. intros k. rewrite elem_of_nil. tauto.
  - cbn [copy_fields]. destruct (Hf k v) as [Hk Hout]; [by left |]. destruct (Hm k v Hk) as (t & Ht & Hcp). destruct (Hcp h1 Hs) as (h2 & v' & -> & Hn).
    cbn [mbind option_bind]. cbn in Hnd. apply NoDup_cons in Hnd as [Hnk Hnd]. pose proof (proj1 Hn) as Hs2.
    destruct (IH h2 (<[k := v']> out)) as (h3 & out' & E & Hs3 & Hd & Ho').
    + by etrans.
    + by etrans.
    + done.
    + intros k' v2 Hin. split; [apply Hf; by right |]. rewrite lookup_insert_ne; [apply (Hf k' v2); by right |].
      intros ->. apply Hnk, list_elem_of_fmap. by exists (k', v2).
    + done.
    + intros k' v2 [[<- <-] | [Hne Hk']]%lookup_insert_Some; [exists t; split; [done |]; by eapply new_value_weaken |].
      destruct (Ho k' v2 Hk') as (t' & ? & ?). exists t'. split; [done |]. by eapply new_value_mono.
    + exists h3, out'. split; [done |]. split; [by etrans |]. split; [| done]. intros k'. rewrite Hd. cbn. rewrite elem_of_cons, lookup_insert_is_Some.
      destruct (decide (k = k')) as [-> |]; [tauto |]. intuition congruence.
Qed.

Lemma copy_items_spec h copy vs ts h0 h1 : h ⊆ h1 → h0 ⊆ h1 → Forall2 (copies h copy) vs ts →
  ∃ h2 out, copy_items copy h1 vs = Some (h2, out) ∧ h1 ⊆ h2 ∧ Forall2 (new_value h0 h2) out ts.
Proof.
  intros Hs Hs0 Hc. revert h1 Hs Hs0. induction Hc as [| v t vs ts Hv _ IH]; intros h1 Hs Hs0; [exists h1, []; split; [done |]; by split; [| constructor] |].
  cbn [copy_items]. destruct (Hv h1 Hs) as (h2 & v' & -> & Hn). cbn [mbind option_bind]. pose proof (proj1 Hn) as Hs2.
  destruct (IH h2) as (h3 & out & -> & Hs3 & Hf); [by etrans | by etrans |]. cbn [mbind option_bind]. exists h3, (v' :: out).
  split; [done |]. split; [by etrans |]. constructor; [| done]. eapply new_value_mono; [done |]. by eapply new_value_weaken.
Qed.

Lemma deepCopyValue_spec n h v t : reads h v t → depth t ≤ n → copies h (deepCopyValue H n) v t.
Proof.
  revert h v t. induction n as [| n IH]; intros h v t Hr Hn h1 Hs; [destruct t; cbn in Hn; lia |].
  pose proof (reads_mono _ _ _ _ Hs Hr) as Hr1. destruct Hr as [a | l m tm Hl Hd Hc | l vs ts Hl Hlen Hc]; cbn [deepCopyValue].
  - exists h1, (Scalar a). split; [done |]. split; [done |]. split; [constructor |]. intros l Hl. inversion Hl.
  - pose proof (lookup_weaken _ _ _ _ Hl Hs) as Hl1. rewrite Hl1.
    destruct (copy_fields_spec h (deepCopyValue H n) m tm (H.(range) m) h1 h1 ∅) as (h2 & out & -> & Hs2 & Hd2 & Ho); try done.
    + apply range_nodup.
    + intros k v Hk%elem_of_ranged. by split.
    + intros k v Hk. destruct (Hd k) as [[t Ht] _]; [by rewrite Hk |]. exists t. split; [done |]. apply IH; [by eapply Hc |].
      pose proof (depth_map _ _ _ Ht). lia.
    + cbn [mbind option_bind]. pose proof (alloc_map h1 h2 out tm Hs2) as Ha. destruct (alloc (OMap out) h2) as [h3 l3]. exists h3, (VMap l3). split; [done |]. apply Ha.
      * intros k. rewrite Hd2, lookup_empty. rewrite <- Hd. split.
        -- intros [[? [=]] | Hk]. apply list_elem_of_fmap in Hk as ([k' v] & -> & Hk%elem_of_ranged). by exists v.
        -- intros [v Hv]. right. apply list_elem_of_fmap. exists (k, v). split; [done |]. by apply elem_of_ranged.
      * intros k v t Hv Ht. destruct (Ho k v Hv) as (t' & Ht' & Hnv). congruence.
  - pose proof (lookup_weaken _ _ _ _ Hl Hs) as Hl1. rewrite Hl1.
    destruct (copy_items_spec h (deepCopyValue H n) vs ts h1 h1) as (h2 & out & -> & Hs2 & Hf); try done.
    { apply Forall2_same_length_lookup_2; [done |]. intros i v t Hv Ht. apply IH; [by eapply Hc |]. pose proof (depth_list _ _ _ Ht). lia. }
    cbn [mbind option_bind]. pose proof (alloc_list h1 h2 out ts Hs2 Hf) as Ha. destruct (alloc (OList out) h2) as [h3 l3]. by exists h3, (VList l3).
Qed.

Lemma DeepCopyMap_spec h l tm : reads h (VMap l) (TMap tm) → ∃ h' l', DeepCopyMap H h l = Some (h', l') ∧ new_value h h' (VMap l') (TMap tm).
Proof.
  intros Hr. unfold DeepCopyMap. destruct (deepCopyValue_spec (S (size h)) h _ _ Hr (depth_heap _ _ _ Hr) h) as (h' & v & -> & Hn); [done |].
  cbn [mbind option_bind]. pose proof (proj1 (proj2 Hn)) as Hr'. destruct v as [a | l' | l']; [inversion Hr' | by exists h', l' | inversion Hr'].
Qed.

(** ** Decoding *)

Lemma alloc_tree_spec t h : let '(h', v) := alloc_tree t h in new_value h h' v t.
Proof.
  revert h. induction t as [a | m IH | ts IH] using tree_ind'; intros h.
  - split; [done |]. split; [constructor |]. intros l Hl. inversion Hl.
  - cbn [alloc_tree]. set (f := λ (k : string) (t : tree A) (acc : heap A * gmap string (value A)), let '(h, v) := alloc_tree t acc.1 in (h, <[k := v]> acc.2)).
    assert (let '(h1, out) := map_fold f (h, ∅) m in h ⊆ h1 ∧ (∀ k, is_Some (out !! k) ↔ is_Some (m !! k)) ∧
      ∀ k v t, out !! k = Some v → m !! k = Some t → new_value h h1 v t) as Hf.
    { revert IH. induction m as [| k t m Hk Hkf IHm] using map_first_key_ind; intros IH.
      - rewrite map_fold_empty. split; [done |]. split; [intros k; by rewrite !lookup_empty |]. intros k v t Hv. by rewrite lookup_empty in Hv.
      - rewrite map_fold_insert_first_key by done. destruct (map_fold f (h, ∅) m) as [h1 out].
        destruct IHm as (Hs & Hd & Hc). { intros k' t' Hk'. apply (IH k'). rewrite lookup_insert_ne; [done |]. intros ->. congruence. }
        unfold f. cbn [fst snd]. pose proof (IH k t (lookup_insert_eq _ _ _) h1) as Ht. destruct (alloc_tree t h1) as [h2 v].
        pose proof (proj1 Ht) as Hs2. split; [by etrans |]. split.
        + intros k'. rewrite !lookup_insert_is_Some, Hd. tauto.
        + intros k' v' t' Hv' Ht'. destruct (decide (k = k')) as [<- | Hne].
          * rewrite lookup_insert_eq in Hv'. rewrite lookup_insert_eq in Ht'. simplify_eq. by eapply new_value_weaken.
          * rewrite lookup_insert_ne in Hv' by done. rewrite lookup_insert_ne in Ht' by done. eapply new_value_mono; [done |]. by eapply Hc. }
    destruct (map_fold f (h, ∅) m) as [h1 out]. destruct Hf as (Hs & Hd & Hc). pose proof (alloc_map h h1 out m Hs Hd Hc) as Ha.
    by destruct (alloc (OMap out) h1).
  - cbn [alloc_tree]. set (f := λ (acc : heap A * list (value A)) (t : tree A), let '(h, v) := alloc_tree t acc.1 in (h, acc.2 ++ [v])).
    assert (∀ ts1 ts0 h0 out, (∀ i t, ts1 !! i = Some t → ∀ h, let '(h', v) := alloc_tree t h in new_value h h' v t) → h ⊆ h0 → Forall2 (new_value h h0) out ts0 →
      let '(h1, out') := foldl f (h0, out) ts1 in h ⊆ h1 ∧ Forall2 (new_value h h1) out' (ts0 ++ ts1)) as Hf.
    { induction ts1 as [| t ts1 IH1]; intros ts0 h0 out Ht Hs Hf; [by rewrite app_nil_r |]. cbn [foldl]. unfold f at 2. cbn [fst snd].
      pose proof (Ht 0 t eq_refl h0) as Hn. destruct (alloc_tree t h0) as [h1 v]. pose proof (proj1 Hn) as Hs1.
      specialize (IH1 (ts0 ++ [t]) h1 (out ++ [v])). rewrite <- app_assoc in IH1. apply IH1; [intros i t' Hi; by apply (Ht (S i)) | by etrans |].
      apply Forall2_app; [eapply Forall2_impl; [exact Hf |]; intros; by eapply new_value_mono |]. constructor; [by eapply new_value_weaken | constructor]. }
    specialize (Hf ts [] h [] IH ltac:(done) ltac:(constructor)). destruct (foldl f (h, []) ts) as [h1 out]. destruct Hf as [Hs Hf].
    pose proof (alloc_list h h1 out ts Hs Hf) as Ha. by destruct (alloc (OList out) h1).
Qed.

(** ** Merging *)

Lemma write_reads h r d k v t : reads h (VMap r) (TMap d) → reads h v t → ¬ reach h v r →
  reads (write_field r k v h) (VMap r) (TMap (<[k := t]> d)) ∧ (∀ l, l ≠ r → write_field r k v h !! l = h !! l) ∧
  dom (write_field r k v h) = dom h.
Proof.
  intros Hr Hv Hn. inversion Hr as [| ? m ? Hl Hd Hc |]; subst. unfold write_field. rewrite Hl. split; [| split].
  - eapply reads_map; [apply lookup_insert_eq | |].
    + intros k'. by rewrite !lookup_insert_is_Some, Hd.
    + intros k' v' t' Hv' Ht'. destruct (decide (k = k')) as [<- | Hne].
      * rewrite lookup_insert_eq in Hv'. rewrite lookup_insert_eq in Ht'. simplify_eq. eapply reads_agree; [done |].
        intros l Hl'. rewrite lookup_insert_ne; [done |]. by intros ->.
      * rewrite lookup_insert_ne in Hv' by done. rewrite lookup_insert_ne in Ht' by done. eapply reads_agree; [by eapply Hc |].
        intros l Hl'. rewrite lookup_insert_ne; [done |]. intros ->. by apply (map_acyclic h l m d k' v').
  - intros l Hne. by rewrite lookup_insert_ne.
  - apply set_eq. intros l. rewrite dom_insert, elem_of_union, elem_of_singleton. split; [intros [-> |]; [by eapply elem_of_dom_2 | done] | by right].
Qed.

(** What a field of the override becomes over the field of the destination. *)
Definition over (x : option (tree A)) (t : tree A) : tree A :=
  match x, t with Some (TMap x), TMap y => TMap (H.(merge_maps) x y) | _, _ => t end.

(** What a step on the map [r] leaves of [h]. *)
Definition leaves (r : loc) (h h' : heap A) : Prop := dom h ⊆ dom h' ∧ ∀ l, l ∈ dom h → l ≠ r → h' !! l = h !! l.

Lemma leaves_trans r h1 h2 h3 : leaves r h1 h2 → leaves r h2 h3 → leaves r h1 h3.
Proof. intros [H1 H2] [H3 H4]. split; [by etrans |]. intros l Hl Hne. rewrite H4 by (done || by apply H1). by apply H2. Qed.

(** A readable value that [P] covers stays as it is while only [r], outside [P], is written. *)
Lemma covered_reads r (P : gset loc) h h' v t : leaves r h h' → r ∉ P → reads h v t → (∀ l, reach h v l → l ∈ P) →
  reads h' v t ∧ ∀ l, reach h' v l → l ∈ P.
Proof.
  intros [_ Hl] Hr Hv Hp. assert (∀ l, reach h v l → h' !! l = h !! l) as Ha.
  { intros l Hvl. apply Hl; [by eapply reads_dom |]. intros ->. by apply Hr, Hp. }
  split; [by eapply reads_agree |]. intros l Hvl. apply Hp. by eapply reach_agree.
Qed.

Lemma merge_field_spec (P : gset loc) r h d k v t : reads h (VMap r) (TMap d) → reads h v t → (∀ l, reach h v l → l ∈ P) → r ∉ P →
  leaves r h (merge_field H r h (k, v)) ∧ reads (merge_field H r h (k, v)) (VMap r) (TMap (<[k := over (d !! k) t]> d)).
Proof.
  intros Hr Hv Hp HrP. assert (¬ reach h v r) as Hvr by (intros Hx; by apply HrP, Hp).
  assert (leaves r h (write_field r k v h) ∧ reads (write_field r k v h) (VMap r) (TMap (<[k := t]> d))) as Hplain.
  { destruct (write_reads h r d k v t Hr Hv Hvr) as (H1 & H2 & H3). split; [| done]. split; [by rewrite H3 |]. intros l _. apply H2. }
  inversion Hr as [| ? m ? Hl Hd Hc |]; subst. unfold merge_field, field. cbn [fst snd]. rewrite Hl.
  destruct (m !! k) as [x |] eqn:Ek.
  2: { assert (d !! k = None) as ->; [| exact Hplain]. apply eq_None_not_Some. rewrite <- Hd, Ek. by intros [? [=]]. }
  destruct (Hd k) as [[tx Htx] _]; [by rewrite Ek |]. pose proof (Hc _ _ _ Ek Htx) as Hx. rewrite Htx.
  destruct x as [a | ebm | ebl].
  - inversion Hx; subst. exact Hplain.
  - inversion Hx as [| ? me te He Hde Hce |]; subst. destruct v as [a | vbm | vbl].
    + inversion Hv; subst. exact Hplain.
    + inversion Hv as [| ? mv tv Hmv Hdv Hcv |]; subst. destruct (MergeMaps H h ebm vbm) as [h1 c] eqn:Em.
      destruct (MergeMaps_reads h ebm vbm te tv h1 c Hx Hv Em) as (Hs & Hrc & Hf).
      assert (¬ reach h1 (VMap c) r) as Hcr.
      { intros Hin%Hf. destruct Hin as [Hin | [Hin | Hin]]; [by apply Hin; eapply elem_of_dom_2 | by apply (map_acyclic h r m d k (VMap ebm)) | done]. }
      destruct (write_reads h1 r d k (VMap c) _ (reads_mono _ _ _ _ Hs Hr) Hrc Hcr) as (H1 & H2 & H3). split; [| exact H1].
      split; [rewrite H3; by apply subseteq_dom |]. intros l Hin Hne. rewrite H2 by done. apply elem_of_dom in Hin as [o Ho]. rewrite Ho. by eapply lookup_weaken.
    + inversion Hv; subst. exact Hplain.
  - inversion Hx; subst. exact Hplain.
Qed.

Lemma merge_fields_spec (P : gset loc) r (to : gmap string (tree A)) fields h d : reads h (VMap r) (TMap d) → r ∉ P → NoDup fields.*1 →
  (∀ k v, (k, v) ∈ fields → ∃ t, to !! k = Some t ∧ reads h v t ∧ ∀ l, reach h v l → l ∈ P) →
  let h' := foldl (merge_field H r) h fields in leaves r h h' ∧ ∃ d', reads h' (VMap r) (TMap d') ∧
    ∀ k, d' !! k = if decide (k ∈ fields.*1) then over (d !! k) <$> to !! k else d !! k.
Proof.
  cbv zeta. revert h d. induction fields as [| [k v] fields IH]; intros h d Hr HrP Hnd Hf.
  { split; [by split |]. exists d. by split. }
  cbn [foldl]. destruct (Hf k v) as (t & Ht & Hv & Hp); [by left |]. destruct (merge_field_spec P r h d k v t Hr Hv Hp HrP) as [Hlv Hr'].
  cbn in Hnd. apply NoDup_cons in Hnd as [Hk Hnd].
  destruct (IH _ _ Hr' HrP Hnd) as (Hlv' & d' & Hrd & Hd').
  { intros k' v' Hin. destruct (Hf k' v') as (t' & Ht' & Hv' & Hp'); [by right |]. exists t'. split; [done |]. by eapply covered_reads. }
  split; [by eapply leaves_trans |]. exists d'. split; [done |]. intros k'. rewrite Hd'. cbn. destruct (decide (k' = k)) as [-> | Hne].
  - rewrite (decide_False (P := k ∈ fields.*1)) by done. rewrite decide_True by by left. by rewrite lookup_insert_eq, Ht.
  - rewrite lookup_insert_ne by done. apply decide_ext. rewrite elem_of_cons. tauto.
Qed.

(** [DeepMergeInto] agrees with [MergeMaps], and writes its destination alone. *)
Lemma DeepMergeInto_spec (P : gset loc) h r o d to : reads h (VMap r) (TMap d) → reads h (VMap o) (TMap to) →
  (∀ l, reach h (VMap o) l → l ∈ P) → r ∉ P →
  leaves r h (DeepMergeInto H h r (Some o)) ∧ reads (DeepMergeInto H h r (Some o)) (VMap r) (TMap (H.(merge_maps) d to)).
Proof.
  intros Hr Ho Hp HrP. inversion Ho as [| ? m ? Hl Hd Hc |]; subst. unfold DeepMergeInto. rewrite Hl.
  destruct (merge_fields_spec P r to (H.(range) m) h d Hr HrP) as (Hlv & d' & Hr' & Hd').
  - apply range_nodup.
  - intros k v Hk%elem_of_ranged. destruct (Hd k) as [[t Ht] _]; [by rewrite Hk |]. exists t. split; [done |]. split; [by eapply Hc |].
    intros l Hin. apply Hp. eapply reach_in_map; [done | by exists k | done].
  - split; [done |]. assert (d' = H.(merge_maps) d to) as <-; [| done]. apply map_eq. intros k. rewrite Hd', merge_maps_lookup.
    assert (k ∈ (H.(range) m).*1 ↔ is_Some (to !! k)) as Hk.
    { rewrite <- Hd. split.
      - intros ([k' v] & -> & Hin%elem_of_ranged)%list_elem_of_fmap. by exists v.
      - intros [v Hv]. apply list_elem_of_fmap. exists (k, v). split; [done | by apply elem_of_ranged]. }
    destruct (to !! k) as [t |].
    + rewrite decide_True by (apply Hk; by eexists). cbn. unfold over. destruct (d !! k) as [[] |], t; done.
    + rewrite decide_False by (intros [? [=]]%Hk). by destruct (d !! k) as [[] |].
Qed.

(** ** Expansion *)

(** What an expansion is, on trees: no heap and no cache. *)
Definition expand_tree (namespace : string) (p : Provider) (tm : gmap string (tree A)) (ref : ValuesReference)
    : gmap string (tree A) + values_failure :=
  match lookupValueRef ref namespace p with
  | inr e => if is_missing e && ref.(vr_Optional) then inl tm else inr e
  | inl found =>
      if bool_decide (ref.(TargetPath) = "") then
        match H.(Unmarshal) found with
        | None => inr (BadYAML ref.(vr_Name) ref.(vr_Key))
        | Some None => inl tm
        | Some (Some t) => inl (H.(merge_maps) tm t)
        end
      else
        let '(s, text) := assignment ref found in
        match H.(set_path) s text tm with Some tm => inl tm | None => inr (BadPath ref.(TargetPath)) end
  end.

Fixpoint expand_trees (namespace : string) (p : Provider) (tm : gmap string (tree A)) (refs : list ValuesReference)
    : gmap string (tree A) + values_failure :=
  match refs with
  | [] => inl tm
  | ref :: refs => match expand_tree namespace p tm ref with inl tm => expand_trees namespace p tm refs | inr e => inr e end
  end.

(** Each cached map stands for what its content decodes to. *)
Definition cache_ok (h : heap A) (c : Cache) : Prop :=
  ∀ key l, lookup_cache c key = Some l → ∃ to : gmap string (tree A), H.(Unmarshal) key = Some (Some to) ∧ reads h (VMap l) (TMap to).

(** The objects [P] of others: those of [h0], and what is cached. *)
Record kept (h0 : heap A) (P : gset loc) (h : heap A) (c : Cache) : Prop := {
  k_old : dom h0 ⊆ P;
  k_dom : P ⊆ dom h;
  k_same l : l ∈ dom h0 → h !! l = h0 !! l;
  k_cache : cache_ok h c;
  k_cover key l l' : lookup_cache c key = Some l → reach h (VMap l) l' → l' ∈ P;
}.

(** The map under construction is nobody else's, nor anything it reaches when it is owned. *)
Record held (P : gset loc) (h : heap A) (ex : valueExpansion) (tm : gmap string (tree A)) : Prop := {
  e_root : ex.(ex_values) ∉ P;
  e_reads : reads h (VMap ex.(ex_values)) (TMap tm);
  e_owned l : ex.(owned) = true → reach h (VMap ex.(ex_values)) l → l ∉ P;
}.

Lemma kept_change h0 P h h' c : kept h0 P h c → dom h ⊆ dom h' → (∀ l, l ∈ P → h' !! l = h !! l) → kept h0 P h' c.
Proof.
  intros [H1 H2 H3 H4 H5] Hd Hs. split; [done | by etrans | | |].
  - intros l Hl. rewrite Hs by (by apply H1). by apply H3.
  - intros key l Hk. destruct (H4 key l Hk) as (t & Ht & Hr). exists t. split; [done |]. eapply reads_agree; [done |]. intros l' Hl'. by eapply Hs, H5.
  - intros key l l' Hk Hl'. eapply H5; [done |]. eapply reach_agree; [done |]. intros l1 Hl1. by eapply Hs, H5.
Qed.

(** Merging a map that [P] covers. *)
Lemma merge_held h0 P h c ex o tm to : kept h0 P h c → held P h ex tm → reads h (VMap o) (TMap to) → (∀ l, reach h (VMap o) l → l ∈ P) →
  let h' := DeepMergeInto H h ex.(ex_values) (Some o) in
  kept h0 P h' c ∧ held P h' (mkExpansion ex.(ex_values) false) (H.(merge_maps) tm to) ∧ leaves ex.(ex_values) h h'.
Proof.
  intros Hk [Hr Hv _] Ho Hp. cbv zeta. destruct (DeepMergeInto_spec P h _ o tm to Hv Ho Hp Hr) as [Hl Hv'].
  split; [| split; [by split | done]]. eapply kept_change; [done | apply Hl |]. intros l Hin. apply Hl; [by apply (k_dom _ _ _ _ Hk) |]. by intros ->.
Qed.

Lemma update_spec h0 P h c ex tm ref found : kept h0 P h c → held P h ex tm →
  ∃ h' c' e P', updateHelmReleaseValues H h c ref found ex.(ex_values) = (h', c', e) ∧ P ⊆ P' ∧ kept h0 P' h' c' ∧
    match H.(Unmarshal) found with
    | None => e = Some (BadYAML ref.(vr_Name) ref.(vr_Key))
    | Some None => e = None ∧ held P' h' (mkExpansion ex.(ex_values) false) tm
    | Some (Some t) => e = None ∧ held P' h' (mkExpansion ex.(ex_values) false) (H.(merge_maps) tm t)
    end.
Proof.
  intros Hk Hh. unfold updateHelmReleaseValues. destruct (lookup_cache c found) as [parsed |] eqn:El.
  - destruct (k_cache _ _ _ _ Hk _ _ El) as (t & Ht & Hr). rewrite Ht.
    destruct (merge_held h0 P h c ex parsed tm t Hk Hh Hr (λ l, k_cover _ _ _ _ Hk _ _ l El)) as (H1 & H2 & _).
    eexists _, _, _, P. split; [done |]. by split.
  - destruct (H.(Unmarshal) found) as [[t |] |] eqn:Eu.
    + pose proof (alloc_tree_spec (TMap t) h) as Ha. destruct (alloc_tree (TMap t) h) as [h1 v]. destruct Ha as (Hs & Hr & Hf).
      destruct v as [a | parsed | l]; [inversion Hr | | inversion Hr]. set (P' := P ∪ (dom h1 ∖ dom h)). destruct Hh as [Hroot Hrd Hown].
      assert (ex.(ex_values) ∈ dom h) as Hin by (eapply reads_dom; [done | constructor]).
      assert (kept h0 P' h1 c) as Hk1.
      { assert (kept h0 P h1 c) as [K1 K2 K3 K4 K5].
        { eapply kept_change; [done | by apply subseteq_dom |]. intros l Hl%(k_dom _ _ _ _ Hk). apply elem_of_dom in Hl as [o Ho]. rewrite Ho. by eapply lookup_weaken. }
        split; [set_solver | | done | done |].
        - unfold P'. set_solver.
        - intros key l l' Hk' Hl'. apply elem_of_union_l. by eapply K5. }
      assert (held P' h1 (mkExpansion ex.(ex_values) false) tm) as Hh1.
      { split; [unfold P'; cbn; set_solver | by eapply reads_mono | done]. }
      assert (∀ l, reach h1 (VMap parsed) l → l ∈ P') as Hcov.
      { intros l Hl. apply elem_of_union_r, elem_of_difference. split; [by eapply reads_dom | by apply Hf]. }
      destruct (merge_held h0 P' h1 c _ parsed tm t Hk1 Hh1 Hr Hcov) as (H1 & H2 & H3). eexists _, _, _, P'. split; [done |]. split; [set_solver |].
      destruct (covered_reads _ P' _ _ _ _ H3 (e_root _ _ _ _ Hh1) Hr Hcov) as [Hr2 Hcov2]. split; [| by split].
      destruct H1 as [K1 K2 K3 K4 K5]. split; [done | done | done | |].
      * intros key l Hkey. unfold lookup_cache, put in Hkey. destruct c as [m |]; [| done]. cbn in Hkey.
        apply lookup_insert_Some in Hkey as [[<- <-] | [_ Hkey]]; [by exists t | by apply (K4 key l)].
      * intros key l l' Hkey. unfold lookup_cache, put in Hkey. destruct c as [m |]; [| done]. cbn in Hkey.
        apply lookup_insert_Some in Hkey as [[<- <-] | [_ Hkey]]; [by apply Hcov2 | by apply (K5 key l)].
    + eexists _, _, _, P. split; [done |]. split; [done |]. split; [done |]. split; [done |]. destruct Hh. by split.
    + eexists _, _, _, P. by split.
Qed.

Lemma expand_reference_spec h0 P h c ex tm namespace p ref : kept h0 P h c → held P h ex tm →
  ∃ h' c' ex' e P', expand H namespace p h c ex ref = Some (h', c', ex', e) ∧ P ⊆ P' ∧ kept h0 P' h' c' ∧
    match expand_tree namespace p tm ref with inl tm' => e = None ∧ held P' h' ex' tm' | inr er => e = Some er end.
Proof.
  intros Hk Hh. unfold expand, expand_tree. destruct (lookupValueRef ref namespace p) as [found | e].
  2: { eexists _, _, _, _, P. split; [done |]. split; [done |]. split; [done |]. by destruct (is_missing e && _). }
  case_bool_decide.
  - destruct (update_spec h0 P h c ex tm ref found Hk Hh) as (h' & c' & e & P' & -> & Hs & Hk' & Hr). eexists _, _, _, _, P'. split; [done |].
    split; [done |]. split; [done |]. by destruct (Unmarshal H found) as [[t |] |].
  - assert (∃ h1 ex1, (if owned ex then Some (h, ex) else '(h, values) ← DeepCopyMap H h (ex_values ex); Some (h, mkExpansion values true)) = Some (h1, ex1) ∧
      kept h0 P h1 c ∧ held P h1 ex1 tm ∧ owned ex1 = true) as (h1 & ex1 & -> & Hk1 & [Hroot Hrd Hown] & How).
    { destruct (owned ex) eqn:Eo; [by exists h, ex |]. destruct (DeepCopyMap_spec h _ tm (e_reads _ _ _ _ Hh)) as (h1 & l & -> & Hs & Hr & Hf).
      exists h1, (mkExpansion l true). split; [done |]. split; [| split; [| done]].
      - eapply kept_change; [done | by apply subseteq_dom |]. intros l' Hl'%(k_dom _ _ _ _ Hk). apply elem_of_dom in Hl' as [o Ho]. rewrite Ho. by eapply lookup_weaken.
      - split; [| done |]; cbn.
        + intros Hin%(k_dom _ _ _ _ Hk). apply (Hf l); [constructor | done].
        + intros l' _ Hl' Hin%(k_dom _ _ _ _ Hk). by apply (Hf l'). }
    cbn [mbind option_bind]. unfold setValueReference. destruct (assignment ref found) as [s text].
    destruct (ParseInto H s h1 text (ex_values ex1)) as [h2 ok] eqn:Ep.
    destruct (ParseInto_reads s h1 text (ex_values ex1) tm h2 ok Hrd Ep) as (Hd & Hsame & Hset).
    assert (kept h0 P h2 c) as Hk2.
    { eapply kept_change; [exact Hk1 | done |]. intros l Hl. apply Hsame; [by apply (k_dom _ _ _ _ Hk1) |]. intros Hre. by apply (Hown l). }
    eexists _, _, _, _, P. split; [done |]. split; [done |]. split; [done |]. destruct (set_path H s text tm) as [tm' |]; [| by subst].
    destruct Hset as (-> & Hr2 & Hf). split; [done |]. split; [done | done |]. intros l _ Hl Hin. destruct (Hf l Hl) as [Hn | Hn].
    + by apply Hn, (k_dom _ _ _ _ Hk1).
    + by apply (Hown l How Hn).
Qed.

Lemma expand_all_spec refs : ∀ h0 P h c ex tm namespace p, kept h0 P h c → held P h ex tm →
  ∃ h' c' ex' e P', expand_all H namespace p h c ex refs = Some (h', c', ex', e) ∧ P ⊆ P' ∧ kept h0 P' h' c' ∧
    match expand_trees namespace p tm refs with inl tm' => e = None ∧ held P' h' ex' tm' | inr er => e = Some er end.
Proof.
  induction refs as [| ref refs IH]; intros h0 P h c ex tm namespace p Hk Hh.
  { eexists _, _, _, _, P. split; [done |]. by split. }
  cbn [expand_all expand_trees]. destruct (expand_reference_spec h0 P h c ex tm namespace p ref Hk Hh) as (h1 & c1 & ex1 & e1 & P1 & -> & Hs & Hk1 & Hr).
  cbn [mbind option_bind]. destruct (expand_tree namespace p tm ref) as [tm1 | er].
  - destruct Hr as [-> Hh1]. destruct (IH h0 P1 h1 c1 ex1 tm1 namespace p Hk1 Hh1) as (h' & c' & ex' & e' & P' & -> & Hs' & H').
    eexists _, _, _, _, P'. split; [done |]. split; [by etrans | done].
  - subst e1. by eexists _, _, _, _, P1.
Qed.

(** What the release's values become. *)
Definition expanded_tree (hr : HelmRelease) (p : Provider) (own : option (gmap string (tree A))) : gmap string (tree A) + values_failure :=
  match expand_trees hr.(h_Namespace) p ∅ hr.(ValuesFrom) with
  | inl tm => inl (match own with Some own => H.(merge_maps) tm own | None => tm end)
  | inr e => inr e
  end.

(** A release's own values: nil, or a readable map. *)
Definition own_values (h : heap A) (values : option loc) (own : option (gmap string (tree A))) : Prop :=
  match values, own with Some l, Some t => reads h (VMap l) (TMap t) | None, None => True | _, _ => False end.

Lemma Expand_spec h c hr p own : cache_ok h c → own_values h hr.(h_Values) own → hr.(ValuesFrom) ≠ [] →
  ∃ h' c' values e, ExpandValueReferences H h c hr p = Some (h', c', values, e) ∧ h ⊆ h' ∧ cache_ok h' c' ∧
    match expanded_tree hr p own with
    | inl tm => e = None ∧ ∃ l, values = Some l ∧ l ∉ dom h ∧ reads h' (VMap l) (TMap tm)
    | inr er => e = Some er ∧ values = hr.(h_Values)
    end.
Proof.
  intros Hc Hown Hne. unfold ExpandValueReferences, expanded_tree. destruct (ValuesFrom hr) as [| ref refs]; [done |].
  pose proof (alloc_fresh (OMap ∅) h) as Ha. destruct (alloc (OMap ∅) h) as [h1 r]. destruct Ha as (Hr & -> & Hs).
  set (h1 := <[r := OMap ∅]> h) in *.
  assert (∀ l, l ∈ dom h → h1 !! l = h !! l) as Hsame by (intros l Hl; unfold h1; rewrite lookup_insert_ne; [done |]; by intros ->).
  assert (kept h (dom h) h1 c) as Hk.
  { split; [done | by apply subseteq_dom | done | |].
    - intros key l Hkey. destruct (Hc key l Hkey) as (t & ? & ?). exists t. split; [done |]. by eapply reads_mono.
    - intros key l l' Hkey Hl'. destruct (Hc key l Hkey) as (t & _ & Hrd). eapply reads_dom; [done |]. by eapply reach_mono. }
  assert (held (dom h) h1 (mkExpansion r true) ∅) as Hh.
  { split; [done | |].
    - eapply reads_map; [apply lookup_insert_eq | intros k; by rewrite !lookup_empty | intros k v t Hv; by rewrite lookup_empty in Hv].
    - intros l _ Hl. inversion Hl as [| | ? o v ? Ho Hv Hx |]; subst; [done |]. unfold h1 in Ho. rewrite lookup_insert_eq in Ho. injection Ho as <-.
      destruct Hv as [k Hk']. by rewrite lookup_empty in Hk'. }
  destruct (expand_all_spec (ref :: refs) h (dom h) h1 c _ ∅ (h_Namespace hr) p Hk Hh) as (h2 & c2 & ex & e & P & -> & HP & Hk2 & Hres).
  cbn [mbind option_bind].
  assert (∀ h3, (∀ l, l ∈ dom h → h3 !! l = h2 !! l) → h ⊆ h3) as Hsub.
  { intros h3 H3. apply map_subseteq_spec. intros l o Ho. assert (l ∈ dom h) as Hl by by eapply elem_of_dom_2. rewrite H3 by done. by rewrite (k_same _ _ _ _ Hk2 l Hl). }
  destruct (expand_trees (h_Namespace hr) p ∅ (ref :: refs)) as [tm | er].
  - destruct Hres as [-> Hh2]. unfold own_values in Hown. destruct (h_Values hr) as [o |], own as [t |]; try done.
    + assert (reads h2 (VMap o) (TMap t) ∧ ∀ l, reach h2 (VMap o) l → l ∈ P) as [Ho Hcov].
      { assert (∀ l, reach h (VMap o) l → h2 !! l = h !! l) as Hag by (intros l Hl; eapply (k_same _ _ _ _ Hk2), reads_dom; [exact Hown | done]).
        split; [by eapply reads_agree |]. intros l Hl. apply HP. eapply reads_dom; [exact Hown |]. by eapply reach_agree. }
      destruct (merge_held h P h2 c2 ex o tm t Hk2 Hh2 Ho Hcov) as (Hk3 & [Hroot3 Hrd3 _] & Hlv). cbn [ex_values] in *.
      eexists _, _, _, _. split; [done |]. split; [| split; [by destruct Hk3 |]].
      * apply Hsub. intros l Hl. apply Hlv; [by apply (k_dom _ _ _ _ Hk2), HP |]. intros ->. by apply Hroot3, HP.
      * split; [done |]. exists (ex_values ex). split; [done |]. split; [intros Hin; by apply Hroot3, HP | done].
    + eexists _, _, _, _. split; [done |]. split; [by apply Hsub |]. split; [by destruct Hk2 |]. split; [done |]. destruct Hh2 as [Hroot Hrd _].
      exists (ex_values ex). split; [done |]. split; [intros Hin; by apply Hroot, HP | done].
  - subst e. eexists _, _, _, _. split; [done |]. split; [by apply Hsub |]. split; [by destruct Hk2 |]. by split.
Qed.

End operations.

(** ** Properties *)


(** A deep copy stands for the same tree and shares nothing with what existed. *)
Theorem DeepCopyMap_exact {A} (H : helm A) `{!LawfulHelm H} h l tm : reads h (VMap l) (TMap tm) →
  ∃ h' l', DeepCopyMap H h l = Some (h', l') ∧ h ⊆ h' ∧ reads h' (VMap l') (TMap tm) ∧ ∀ x, reach h' (VMap l') x → x ∉ dom h.
Proof. by apply DeepCopyMap_spec. Qed.

(** ** An instance *)

Section instance.

Fixpoint merge_tree (t1 t2 : tree string) {struct t1} : tree string :=
  match t1, t2 with
  | TMap m1, TMap m2 => TMap (merge (λ a b, match a, b with Some a, Some b => Some (merge_tree a b) | Some a, None => Some a | None, b => b end) m1 m2)
  | _, _ => t2
  end.

Definition merged (a b : gmap string (tree string)) : gmap string (tree string) :=
  merge (λ a b, match a, b with Some a, Some b => Some (merge_tree a b) | Some a, None => Some a | None, b => b end) a b.

(** The tree of a value, to a depth. *)
Fixpoint read_back (n : nat) (h : heap string) (v : value string) : option (tree string) :=
  match n with
  | 0 => None
  | S n =>
      match v with
      | Scalar a => Some (TScalar a)
      | VMap l => match h !! l with Some (OMap m) => Some (TMap (omap (read_back n h) m)) | _ => None end
      | VList l => match h !! l with Some (OList vs) => Some (TList (omap (read_back n h) vs)) | _ => None end
      end
  end.

Lemma read_back_spec h v t : reads h v t → ∀ n, depth t ≤ n → read_back n h v = Some t.
Proof.
  intros Hr. induction Hr as [a | l m tm Hl Hd Hc IH | l vs ts Hl Hlen Hc IH]; intros [| n] Hn; try (cbn in Hn; lia); cbn [read_back].
  - done.
  - rewrite Hl. do 2 f_equal. apply map_eq. intros k. rewrite lookup_omap. destruct (tm !! k) as [t |] eqn:Et.
    + destruct (Hd k) as [_ [v Hv]]; [by rewrite Et |]. rewrite Hv. cbn. eapply IH; [done.. |]. pose proof (depth_map _ _ _ Et). lia.
    + destruct (m !! k) as [v |] eqn:Ev; [| done]. destruct (Hd k) as [[t Ht] _]; [by rewrite Ev | congruence].
  - rewrite Hl. do 2 f_equal. assert (∀ i v t, vs !! i = Some v → ts !! i = Some t → read_back n h v = Some t) as Hi.
    { intros i v t Hv Ht. eapply IH; [done.. |]. pose proof (depth_list _ _ _ Ht). lia. }
    clear -Hlen Hi. revert ts Hlen Hi. induction vs as [| v vs IH]; intros [| t ts] Hlen Hi; try done. cbn. rewrite (Hi 0 v t) by done.
    f_equal. apply IH; [by injection Hlen |]. intros i. apply (Hi (S i)).
Qed.

Definition merge_in (h : heap string) (a b : loc) : heap string * loc :=
  match read_back (S (size h)) h (VMap a), read_back (S (size h)) h (VMap b) with
  | Some (TMap x), Some (TMap y) => match alloc_tree (TMap (merged x y)) h with (h, VMap l) => (h, l) | (h, _) => (h, a) end
  | _, _ => (h, a)
  end.

(** Sets a key of the map itself. *)
Fixpoint cut_equals (s : string) : option (string * string) :=
  match s with
  | "" => None
  | String c s => if bool_decide (c = "="%char) then Some ("", s) else '(k, v) ← cut_equals s; Some (String c k, v)
  end.

Definition set_in (s : bool) (h : heap string) (line : string) (r : loc) : heap string * bool :=
  match cut_equals line with Some (k, v) => (write_field r k (Scalar v) h, true) | None => (h, false) end.

Definition set_tree (s : bool) (line : string) (tm : gmap string (tree string)) : option (gmap string (tree string)) :=
  '(k, v) ← cut_equals line; Some (<[k := TScalar v]> tm).

Definition simple_helm (decode : string → option (option (gmap string (tree string)))) : helm string :=
  mkHelm string merge_in merged set_in set_tree decode map_to_list.

Lemma reach_written (h : heap string) r k a v l : reach (write_field r k (Scalar a) h) v l → reach h v l.
Proof.
  unfold write_field. destruct (h !! r) as [[m |] |] eqn:Er; try done. intros Hr.
  induction Hr as [l | l | l o v l' Ho Hh Hr IH | l o v l' Ho Hh Hr IH]; try constructor.
  - apply lookup_insert_Some in Ho as [[<- <-] | [Hne Ho]]; [| by eapply reach_in_map].
    destruct Hh as [k' [[<- <-] | [_ Hk']]%lookup_insert_Some]; [inversion Hr |]. eapply reach_in_map; [done | by exists k' | done].
  - apply lookup_insert_Some in Ho as [[<- <-] | [Hne Ho]]; [| by eapply reach_in_list].
    destruct Hh as [k' [[<- <-] | [_ Hk']]%lookup_insert_Some]; [inversion Hr |]. eapply reach_in_list; [done | by exists k' | done].
Qed.

#[export] Instance simple_lawful decode : LawfulHelm (simple_helm decode).
Proof.
  split.
  - done.
  - intros a b k. cbn. unfold merged. rewrite lookup_merge. unfold diag_None. by destruct (a !! k) as [[] |], (b !! k) as [[] |].
  - intros h a b ta tb h' c Ha Hb. cbn. unfold merge_in.
    rewrite (read_back_spec _ _ _ Ha) by (by apply (depth_heap _ _ _ Ha)). rewrite (read_back_spec _ _ _ Hb) by (by apply (depth_heap _ _ _ Hb)).
    pose proof (alloc_tree_spec (TMap (merged ta tb)) h) as Hn. destruct (alloc_tree (TMap (merged ta tb)) h) as [h1 v].
    destruct Hn as (Hs & Hr & Hf). destruct v as [x | l | l]; [inversion Hr | | inversion Hr]. intros [= <- <-]. split; [done |]. split; [done |].
    intros l' Hl'. left. by apply Hf.
  - intros s h line r tm h' ok Hr. cbn. unfold set_in, set_tree. destruct (cut_equals line) as [[k v] |]; intros [= <- <-]; cbn [mbind option_bind].
    + destruct (write_reads h r tm k (Scalar v) (TScalar v) Hr) as (H1 & H2 & H3); [constructor | intros Hx; inversion Hx |].
      split; [by rewrite H3 |]. split; [intros l _ Hl; apply H2; intros ->; apply Hl; constructor |]. split; [done |]. split; [done |].
      intros l Hl. right. by eapply reach_written.
    + split; [done |]. by split.
Qed.

End instance.

(** ** A release *)

Definition decode_example (s : string) : option (option (gmap string (tree string))) :=
  if bool_decide (s = "one") then Some (Some {["a" := TMap {["x" := TScalar "1"]}; "b" := TScalar "2"]})
  else if bool_decide (s = "two") then Some (Some {["a" := TMap {["y" := TScalar "3"]}]})
  else if bool_decide (s = "") then Some None else None.

Definition example_data : Provider := λ id,
  Some (mkData true (λ k, inl (if bool_decide (k = "k1") then Some "one" else if bool_decide (k = "k2") then Some "two"
                               else if bool_decide (k = "k3") then Some "4" else None)) ["k1"; "k2"; "k3"]).

Definition example_ref (key path : string) : ValuesReference := mkValuesReference "ConfigMap" "cm" key path false false.

Definition example_release : HelmRelease :=
  mkHelmRelease "ns" [example_ref "k1" ""; example_ref "k2" ""; example_ref "k3" "b"] None.

(** The cached map of "one" keeps its field "b" although the release sets its own. *)
Example expansion_example :
  (λ r, let '(h, c, values, e) := r in
        (read_back 9 h (VMap (default 0 values)), read_back 9 h (VMap (default 0 (lookup_cache c "one"))), e)) <$>
    ExpandValueReferences (simple_helm decode_example) ∅ (Some ∅) example_release example_data
  = Some (Some (TMap {["a" := TMap {["x" := TScalar "1"; "y" := TScalar "3"]}; "b" := TScalar "4"]}),
          Some (TMap {["a" := TMap {["x" := TScalar "1"]}; "b" := TScalar "2"]}), None).
Proof. by vm_compute. Qed.

