(* ===== verification/Diff.v ===== *)
(** * Preparing a comparison (internal/diffprep)

    Before two renders are compared, the output of producers that are unavailable
    on a side is withheld on both and disclosed, and the remaining documents are listed
    with their producers.  A document is a parameter here; [Pairing] has the documents. *)

From S2P Require Import Prelude Resource Diagnostic StoreStatus Warnings.

Inductive Side := SideOrig | SideCurrent | SideBoth.

#[export] Instance Side_eq_dec : EqDecision Side.
Proof. solve_decision. Defined.

Definition Side_string (s : Side) : string :=
  match s with SideOrig => "orig" | SideCurrent => "current" | SideBoth => "both" end.

(** [Parent]: a producer and its display path. *)
Record Parent := mkParent { p_id : NamedResource; p_Path : string }.

Definition no_parent : Parent := mkParent no_resource "".

(** A producing object: [Named] and the path of [SourcePath], when it has one. *)
Record object := mkObject { Named : NamedResource; SourcePath : option string }.

(** [strings.TrimPrefix]. *)
Definition TrimPrefix (s p : string) : string :=
  if String.prefix p s then String.substring (String.length p) (String.length s) s else s.

Definition objectParent (obj : option object) : Parent :=
  match obj with
  | None => no_parent
  | Some o => mkParent o.(Named) (match o.(SourcePath) with Some path => TrimPrefix path "./" | None => "" end)
  end.

Section suppress.
Context {M : Type}.

(** [manifest.DocumentBatch]. *)
Record DocumentBatch := mkBatch { b_Parent : option object; Documents_of : list M }.

Record Snapshot := mkSnapshot {
  Subjects : gmap NamedResource DiagnosticIdentity;
  Manifests : list DocumentBatch;
  Unavailable : gmap NamedResource StatusInfo;
  ProducerKeys : gmap NamedResource NamedResource;
}.

Record Suppression := mkSuppression {
  su_Parent : Parent;
  su_Subject : DiagnosticIdentity;
  su_Side : Side;
  su_Count : nat;
  su_Reason : string;
}.

Record suppressionPlan := mkPlan {
  pl_parent : Parent;
  pl_side : Side;
  pl_count : nat;
  pl_reason : string;
  discloseEmpty : bool;
}.

Definition unavailableReason (info : StatusInfo) (side : Side) : string :=
  if bool_decide (Outcome info = OutcomeSuspended) then "suspended on " +:+ Side_string side
  else Side_string side +:+ ": " +:+ StatusInfo_String info.

Definition failed (i : StatusInfo) : bool :=
  bool_decide (Outcome i = OutcomeFailed) || bool_decide (Outcome i = OutcomeBlocked).
Definition suspended (i : StatusInfo) : bool := bool_decide (Outcome i = OutcomeSuspended).

Definition planSuppression (left right : StatusInfo) : option suppressionPlan :=
  let '(lf, rf) := (failed left, failed right) in
  let '(ls, rs) := (suspended left, suspended right) in
  let '(lu, ru) := (IsUnavailable left, IsUnavailable right) in
  let plan side reason disclose := Some (mkPlan no_parent side 0 reason disclose) in
  if lf && rf then
    plan SideBoth ("failed on both sides: orig: " +:+ StatusInfo_String left +:+
                   "; current: " +:+ StatusInfo_String right) true
  else if ls && rs then plan SideBoth "suspended on orig; suspended on current" true
  else if ls && ru || rs && lu then
    plan SideBoth (unavailableReason left SideOrig +:+ "; " +:+ unavailableReason right SideCurrent) true
  else if lu && negb ru then
    if ls then plan SideOrig "suspended on orig" true else plan SideOrig (StatusInfo_String left) false
  else if ru && negb lu then
    if rs then plan SideCurrent "suspended on current" true
    else plan SideCurrent (StatusInfo_String right) false
  else None.

(** One producer of [selectedSuppressionPlans]; a missing status reads as its zero value. *)
Definition add_plan (left right : Snapshot) (plans : gmap NamedResource suppressionPlan)
    (id : NamedResource) : gmap NamedResource suppressionPlan :=
  match planSuppression (default no_info (left.(Unavailable) !! id))
          (default no_info (right.(Unavailable) !! id)) with
  | Some plan =>
      <[id := mkPlan (mkParent id "") plan.(pl_side) plan.(pl_count) plan.(pl_reason)
                plan.(discloseEmpty)]> plans
  | None => plans
  end.

Definition selectedSuppressionPlans (left right : Snapshot) : gmap NamedResource suppressionPlan :=
  let plans := foldl (add_plan left right) ∅ (map_to_list left.(Unavailable)).*1 in
  foldl (λ plans id, if bool_decide (left.(Unavailable) !! id = None) then add_plan left right plans id
                     else plans) plans (map_to_list right.(Unavailable)).*1.

(** The key a batch's producer is planned by. *)
Definition producer_key (s : Snapshot) (id : NamedResource) : NamedResource :=
  default id (s.(ProducerKeys) !! id).

(** One batch of [keep]. *)
Definition keep_batch (s : Snapshot) (side : Side)
    (acc : list DocumentBatch * gmap NamedResource suppressionPlan) (batch : DocumentBatch) :=
  match batch.(b_Parent) with
  | None => (acc.1 ++ [batch], acc.2)
  | Some obj =>
      let key := producer_key s obj.(Named) in
      match acc.2 !! key with
      | None => (acc.1 ++ [batch], acc.2)
      | Some plan =>
          let count := if bool_decide (plan.(pl_side) = SideBoth) || bool_decide (plan.(pl_side) ≠ side)
                       then plan.(pl_count) + length batch.(Documents_of) else plan.(pl_count) in
          (acc.1, <[key := mkPlan (objectParent (Some obj)) plan.(pl_side) count plan.(pl_reason)
                             plan.(discloseEmpty)]> acc.2)
      end
  end.

Definition keep (s : Snapshot) (plans : gmap NamedResource suppressionPlan) (side : Side) :=
  foldl (keep_batch s side) ([], plans) s.(Manifests).

(** [Snapshot.subject]; Go's map iteration order is the order of [map_to_list]. *)
Definition subject (s : Snapshot) (key : NamedResource) : DiagnosticIdentity :=
  match s.(Subjects) !! key with
  | Some d => d
  | None =>
      foldl (λ d kv,
          if bool_decide (kv.2 = key) &&
             (bool_decide (d.(d_ID) = no_resource) || bool_decide (compare kv.1 d.(d_ID) = Lt))
          then default (DiagnosticForAbsent kv.1) (s.(Subjects) !! kv.1) else d)
        zero_identity (map_to_list s.(ProducerKeys))
  end.

(** The disclosure of one plan, when there is something to disclose. *)
Definition disclose (orig current : Snapshot) (plans : gmap NamedResource suppressionPlan)
    (kp : NamedResource * suppressionPlan) : option Suppression :=
  let '(key, plan) := kp in
  if bool_decide (plan.(pl_count) = 0) && negb plan.(discloseEmpty) then None
  else
    let note := match plan.(pl_side) with
                | SideOrig => subject orig key
                | SideCurrent => subject current key
                | SideBoth => if bool_decide ((subject current key).(d_ID) = no_resource)
                              then subject orig key else subject current key
                end in
    let note := if bool_decide (is_Some (plans !! note.(d_ID))) && bool_decide (note.(d_ID) ≠ key)
                then zero_identity else note in
    Some (mkSuppression plan.(pl_parent) note plan.(pl_side) plan.(pl_count) plan.(pl_reason)).

Record SuppressionResult := mkResult {
  r_Orig : list DocumentBatch;
  r_Current : list DocumentBatch;
  r_Suppressed : list Suppression;
}.

Definition Suppress (orig current : Snapshot) : SuppressionResult :=
  let plans := selectedSuppressionPlans orig current in
  let '(l, plans) := keep orig plans SideOrig in
  let '(r, plans) := keep current plans SideCurrent in
  mkResult l r
    (sort_by (λ a b, compare a.(su_Parent).(p_id) b.(su_Parent).(p_id))
       (omap (disclose orig current plans) (map_to_list plans))).

(** [Documents]. *)
Record Doc := mkDoc { d_Manifest : M; d_Parent : Parent }.

Definition Documents (manifests : list DocumentBatch) : list Doc :=
  concat (map (λ batch, map (λ doc, mkDoc doc (objectParent batch.(b_Parent))) batch.(Documents_of)) manifests).
End suppress.
Arguments DocumentBatch : clear implicits.
Arguments Snapshot : clear implicits.
Arguments Doc : clear implicits.

(** ** Plans *)

Section proofs.
Context {M : Type}.
Implicit Types (s orig current : Snapshot M).

(** The status a side reports for a producer. *)
Definition status s (id : NamedResource) : StatusInfo := default no_info (s.(Unavailable) !! id).

Definition planned orig current (id : NamedResource) : option suppressionPlan :=
  (λ plan, mkPlan (mkParent id "") plan.(pl_side) plan.(pl_count) plan.(pl_reason) plan.(discloseEmpty))
    <$> planSuppression (status orig id) (status current id).

Lemma add_plan_lookup orig current plans id k :
  add_plan orig current plans id !! k
  = if decide (k = id) then match planned orig current id with Some p => Some p | None => plans !! k end
    else plans !! k.
Proof.
  unfold add_plan, planned, status.
  destruct (planSuppression _ _) as [plan|]; cbn; [|by destruct (decide _)].
  rewrite lookup_insert. destruct (decide (k = id)) as [->|Hne]; [by rewrite decide_True|].
  by rewrite decide_False.
Qed.

Lemma add_plans_lookup (f : NamedResource → bool) orig current ids plans k :
  foldl (λ plans id, if f id then add_plan orig current plans id else plans) plans ids !! k
  = if decide (k ∈ ids ∧ f k = true)
    then match planned orig current k with Some p => Some p | None => plans !! k end
    else plans !! k.
Proof.
  revert plans. induction ids as [|id ids IH]; intros plans; cbn [foldl].
  { rewrite decide_False; [done|]. by intros [?%elem_of_nil _]. }
  rewrite IH. destruct (decide (k = id)) as [->|Hne].
  - destruct (f id) eqn:Hf.
    + rewrite add_plan_lookup, (decide_True (P:=id = id)) by done.
      rewrite (decide_True (P:=id ∈ id :: ids ∧ _)) by (split; [left|done]).
      destruct (planned orig current id); by destruct (decide _).
    + rewrite (decide_False (P:=id ∈ ids ∧ _)) by by intros [_ ?].
      by rewrite (decide_False (P:=id ∈ id :: ids ∧ _)) by by intros [_ ?].
  - assert ((if f id then add_plan orig current plans id else plans) !! k = plans !! k) as ->.
    { destruct (f id); [|done]. rewrite add_plan_lookup. by rewrite decide_False. }
    destruct (decide (k ∈ ids ∧ f k = true)) as [Hk|Hk].
    + rewrite decide_True; [done|]. split; [right|]; apply Hk.
    + rewrite decide_False; [done|]. intros [[?|?]%elem_of_cons Hf]; [done|]. by apply Hk.
Qed.

Lemma plans_lookup orig current k : selectedSuppressionPlans orig current !! k = planned orig current k.
Proof.
  unfold selectedSuppressionPlans. rewrite (add_plans_lookup (λ id, bool_decide (Unavailable orig !! id = None))).
  pose proof (add_plans_lookup (λ _, true) orig current (map_to_list (Unavailable orig)).*1 ∅ k) as Hl.
  cbv beta iota in Hl. rewrite lookup_empty in Hl.
  change (foldl (λ plans id, add_plan orig current plans id)) with (foldl (add_plan orig current)) in Hl.
  rewrite Hl. clear Hl.
  assert (∀ m : gmap NamedResource StatusInfo, k ∈ (map_to_list m).*1 ↔ is_Some (m !! k)) as Hin.
  { intros m. rewrite list_elem_of_fmap. split.
    - intros ([k' v] & -> & Hk). apply elem_of_map_to_list in Hk. by exists v.
    - intros [v Hv]. exists (k, v). split; [done|by apply elem_of_map_to_list]. }
  destruct (decide (is_Some (Unavailable orig !! k))) as [Hl|Hl].
  - rewrite decide_False; [rewrite decide_True by (split; [by apply Hin|done])|].
    + by destruct (planned orig current k).
    + intros [_ Hn%bool_decide_eq_true]. rewrite Hn in Hl. by destruct Hl.
  - apply eq_None_not_Some in Hl as Hl'.
    rewrite (decide_False (P:=k ∈ (map_to_list (Unavailable orig)).*1 ∧ _)) by by intros [?%Hin _].
    destruct (decide (is_Some (Unavailable current !! k))) as [Hr|Hr].
    + rewrite decide_True by (split; [by apply Hin|by apply bool_decide_eq_true]).
      by destruct (planned orig current k).
    + rewrite decide_False by by intros [?%Hin _].
      apply eq_None_not_Some in Hr. unfold planned, status. by rewrite Hl', Hr.
Qed.

(** ** Withholding *)

(** The documents a side holds for a producer key. *)
Definition docs_of s (key : NamedResource) (batches : list (DocumentBatch M)) : nat :=
  sum_list_with (λ b, match b.(b_Parent) with
                      | Some o => if bool_decide (producer_key s o.(Named) = key)
                                  then length b.(Documents_of) else 0
                      | None => 0
                      end) batches.

Definition counts (plan_side side : Side) : bool :=
  bool_decide (plan_side = SideBoth) || bool_decide (plan_side ≠ side).

(** A batch whose producer is not planned. *)
Definition unplanned s (plans : gmap NamedResource suppressionPlan) (b : DocumentBatch M) : Prop :=
  match b.(b_Parent) with Some o => plans !! producer_key s o.(Named) = None | None => True end.

#[global] Instance unplanned_dec s plans b : Decision (unplanned s plans b).
Proof. unfold unplanned. destruct (b_Parent b); apply _. Defined.

(** The plans after a side: the same keys, with the withheld documents counted. *)
Definition counted s (side : Side) (batches : list (DocumentBatch M))
    (plans plans' : gmap NamedResource suppressionPlan) : Prop :=
  ∀ key, match plans !! key with
         | None => plans' !! key = None
         | Some p => ∃ parent, plans' !! key =
             Some (mkPlan parent p.(pl_side)
                     (p.(pl_count) + if counts p.(pl_side) side then docs_of s key batches else 0)
                     p.(pl_reason) p.(discloseEmpty))
         end.

Lemma keep_batch_cases s side out plans b :
  (keep_batch s side (out, plans) b).1 = out ++ filter (unplanned s plans) [b] ∧
  counted s side [b] plans (keep_batch s side (out, plans) b).2.
Proof.
  unfold keep_batch, counted. cbn [fst snd]. unfold docs_of. cbn [sum_list_with].
  assert (∀ key (P : nat), match plans !! key with
    | None => plans !! key = None
    | Some p => P = 0 → ∃ parent, plans !! key =
        Some (mkPlan parent p.(pl_side) (p.(pl_count) + if counts p.(pl_side) side then P + 0 else 0)
                p.(pl_reason) p.(discloseEmpty)) end) as Hsame.
  { intros key P. destruct (plans !! key) as [[pa si c r d]|]; [|done]. intros ->. exists pa.
    cbn. do 2 f_equal. by destruct (counts _ _); rewrite !Nat.add_0_r. }
  destruct (b_Parent b) as [obj|] eqn:Hp.
  - destruct (plans !! producer_key s (Named obj)) as [plan|] eqn:Hpl.
    + split.
      { rewrite filter_cons_False by (unfold unplanned; by rewrite Hp, Hpl). by rewrite app_nil_r. }
      intros key. cbn [snd].
      destruct (decide (producer_key s (Named obj) = key)) as [<-|Hne].
      * rewrite Hpl, lookup_insert_eq. eexists. do 2 f_equal. unfold counts.
        rewrite (bool_decide_eq_true_2 (producer_key s (Named obj) = _)) by done.
        destruct (_ || _); lia.
      * rewrite lookup_insert_ne by done. specialize (Hsame key).
        rewrite (bool_decide_eq_false_2 (producer_key s (Named obj) = key)) by done.
        destruct (plans !! key) as [p|]; [by apply (Hsame 0)|done].
    + split; [by rewrite filter_cons_True by (unfold unplanned; by rewrite Hp)|].
      intros key. cbn [snd].
      destruct (decide (producer_key s (Named obj) = key)) as [<-|Hne]; [by rewrite Hpl|].
      rewrite (bool_decide_eq_false_2 (producer_key s (Named obj) = key)) by done.
      specialize (Hsame key). destruct (plans !! key) as [p|]; [by apply (Hsame 0)|done].
  - split; [by rewrite filter_cons_True by (unfold unplanned; by rewrite Hp)|].
    intros key. cbn [snd].
    specialize (Hsame key). destruct (plans !! key) as [p|]; [by apply (Hsame 0)|done].
Qed.

Lemma keep_spec s plans side :
  (keep s plans side).1 = filter (unplanned s plans) s.(Manifests) ∧
  counted s side s.(Manifests) plans (keep s plans side).2.
Proof.
  unfold keep.
  assert (∀ batches out plans',
    (∀ key, plans' !! key = None ↔ plans !! key = None) →
    (foldl (keep_batch s side) (out, plans') batches).1 = out ++ filter (unplanned s plans) batches ∧
    counted s side batches plans' (foldl (keep_batch s side) (out, plans') batches).2) as Hgen.
  2:{ by apply (Hgen s.(Manifests) [] plans). }
  induction batches as [|b batches IH]; intros out plans' Hdom; cbn [foldl].
  - split; [by rewrite app_nil_r|]. intros key. unfold docs_of. cbn [sum_list_with snd].
    destruct (plans' !! key) as [[pa si c r d]|] eqn:E; [|done]. exists pa. cbn.
    do 2 f_equal. destruct (counts _ _); by rewrite Nat.add_0_r.
  - destruct (keep_batch_cases s side out plans' b) as [H1 H2].
    destruct (keep_batch s side (out, plans') b) as [out1 plans1]. cbn [fst snd] in H1, H2.
    assert (∀ key, plans1 !! key = None ↔ plans !! key = None) as Hdom1.
    { intros key. rewrite <-Hdom. specialize (H2 key). destruct (plans' !! key) as [p|]; [|by rewrite H2].
      destruct H2 as [pa ->]. done. }
    destruct (IH out1 plans1 Hdom1) as [IH1 IH2]. split.
    + rewrite IH1, H1, <-app_assoc, (filter_app _ [b] batches). do 2 f_equal.
      rewrite !filter_cons, !filter_nil. assert (unplanned s plans' b ↔ unplanned s plans b) as Hu.
      { unfold unplanned. destruct (b_Parent b) as [o|]; [apply Hdom|done]. }
      destruct (decide (unplanned s plans b)) as [Hd|Hd].
      * by rewrite decide_True by by apply Hu.
      * by rewrite decide_False by by rewrite Hu.
    + intros key. specialize (H2 key). specialize (IH2 key).
      destruct (plans' !! key) as [p|]; [|by rewrite H2 in IH2].
      destruct H2 as [pa H2]. rewrite H2 in IH2. destruct IH2 as [pa' IH2]. exists pa'. rewrite IH2.
      cbn [pl_side pl_count pl_reason discloseEmpty]. do 2 f_equal. unfold docs_of. cbn [sum_list_with].
      destruct (counts _ _); lia.
Qed.
(** The documents withheld for a planned key: of the healthy side, or of both. *)
Definition withheld orig current (key : NamedResource) (side : Side) : nat :=
  (if counts side SideOrig then docs_of orig key orig.(Manifests) else 0) +
  (if counts side SideCurrent then docs_of current key current.(Manifests) else 0).

Lemma plan_count left right q : planSuppression left right = Some q → q.(pl_count) = 0.
Proof.
  unfold planSuppression.
  repeat match goal with |- context [if ?b then _ else _] => destruct b end; by intros [= <-].
Qed.

(** The plans once both sides are kept. *)
Lemma kept_plans orig current :
  let plans := (keep current (keep orig (selectedSuppressionPlans orig current) SideOrig).2 SideCurrent).2 in
  ∀ key, match planned orig current key with
         | None => plans !! key = None
         | Some p => ∃ parent, plans !! key =
             Some (mkPlan parent p.(pl_side) (withheld orig current key p.(pl_side)) p.(pl_reason)
                     p.(discloseEmpty))
         end.
Proof.
  cbv zeta. intros key.
  destruct (keep_spec orig (selectedSuppressionPlans orig current) SideOrig) as [_ H1].
  destruct (keep_spec current (keep orig (selectedSuppressionPlans orig current) SideOrig).2 SideCurrent)
    as [_ H2].
  specialize (H1 key). specialize (H2 key). rewrite plans_lookup in H1.
  destruct (planned orig current key) as [p|] eqn:Hp.
  - destruct H1 as [pa H1]. rewrite H1 in H2. destruct H2 as [pa' H2]. exists pa'. rewrite H2.
    cbn [pl_side pl_count pl_reason discloseEmpty]. do 2 f_equal.
    assert (pl_count p = 0) as ->; [|unfold withheld; lia].
    unfold planned in Hp. destruct (planSuppression _ _) as [q|] eqn:Hq; [|done]. injection Hp as <-.
    exact (plan_count _ _ _ Hq).
  - by rewrite H1 in H2.
Qed.

(** What a disclosure says, apart from its parent and display subject. *)
Definition said (n : Suppression) : Side * nat * string := (n.(su_Side), n.(su_Count), n.(su_Reason)).

Lemma disclosed_notes orig current plans (l : list (NamedResource * suppressionPlan)) :
  map said (omap (disclose orig current plans) l)
  = map (λ kp, (kp.2.(pl_side), kp.2.(pl_count), kp.2.(pl_reason)))
      (filter (λ kp, ¬ (kp.2.(pl_count) = 0 ∧ kp.2.(discloseEmpty) = false)) l).
Proof.
  induction l as [|[key p] l IH]; [done|]. cbn [omap list_omap]. unfold disclose at 1.
  destruct (bool_decide (pl_count p = 0) && negb (discloseEmpty p)) eqn:E.
  - apply andb_true_iff in E as [Hc%bool_decide_eq_true Hd%negb_true_iff].
    rewrite filter_cons_False; [exact IH|]. cbn. tauto.
  - rewrite filter_cons_True.
    + cbn. f_equal. exact IH.
    + cbn. intros [Hc Hd]. by rewrite Hc, Hd in E.
Qed.
End proofs.

(** ** Properties *)

(** [planSuppression] withholds a producer exactly when it is unavailable on
    one side only, failed on both, or unavailable on both with a suspension; the
    side it names is the unavailable one, or both; and exchanging the sides
    exchanges the verdict. *)
Theorem planSuppression_exact left right :
  let plan := planSuppression left right in
  (is_Some plan ↔
     IsUnavailable left ≠ IsUnavailable right ∨ failed left && failed right = true ∨
     IsUnavailable left && IsUnavailable right && (suspended left || suspended right) = true) ∧
  (∀ p, plan = Some p →
     p.(pl_side) = (if IsUnavailable left && IsUnavailable right then SideBoth
                    else if IsUnavailable left then SideOrig else SideCurrent) ∧
     ∃ q, planSuppression right left = Some q ∧ q.(discloseEmpty) = p.(discloseEmpty) ∧
       q.(pl_side) = match p.(pl_side) with
                     | SideOrig => SideCurrent | SideCurrent => SideOrig | SideBoth => SideBoth
                     end).
Proof.
  cbv zeta. unfold planSuppression, failed, suspended, IsUnavailable.
  split.
  - destruct (Outcome left), (Outcome right); cbn; split;
      first [by intros [? ?]|by intros [H|[H|H]]|intros _; by left|intros _; by right; left
            |intros _; by right; right|intros _; by eexists].
  - intros p Hp. revert Hp. destruct (Outcome left), (Outcome right); cbn; intros Hp;
      first [discriminate Hp|injection Hp as <-; split; [done|by eexists]].
Qed.

(** Suppress withholds exactly the planned producers.  Each side keeps, in order,
    the ownerless batches and those whose producer is not planned; and there is one
    disclosure, sorted by parent, for each planned producer that withholds a document or
    must be disclosed when empty, with its side, its reason and the exact number of
    documents withheld on the healthy side, or on both. *)
Theorem Suppress_exact {M} (orig current : Snapshot M) :
  let res := Suppress orig current in
  let plans := selectedSuppressionPlans orig current in
  (∀ key, plans !! key = planned orig current key) ∧
  res.(r_Orig) = filter (unplanned orig plans) orig.(Manifests) ∧
  res.(r_Current) = filter (unplanned current plans) current.(Manifests) ∧
  Sorted (λ a b, compare a.(su_Parent).(p_id) b.(su_Parent).(p_id) ≠ Gt) res.(r_Suppressed) ∧
  ∃ keys, NoDup keys ∧
    (∀ key, key ∈ keys ↔ ∃ p, planned orig current key = Some p ∧
       (withheld orig current key p.(pl_side) ≠ 0 ∨ p.(discloseEmpty) = true)) ∧
    map (Some ∘ said) res.(r_Suppressed)
    ≡ₚ map (λ key, (λ p, (p.(pl_side), withheld orig current key p.(pl_side), p.(pl_reason)))
                     <$> planned orig current key) keys.
Proof.
  cbv zeta. set (plans := selectedSuppressionPlans orig current).
  pose proof (kept_plans orig current) as Hk. cbv zeta in Hk. fold plans in Hk.
  pose proof (keep_spec orig plans SideOrig) as [H1 Hc1].
  pose proof (keep_spec current (keep orig plans SideOrig).2 SideCurrent) as [H2 _].
  unfold Suppress. fold plans.
  destruct (keep orig plans SideOrig) as [l plans1]. cbn [fst snd] in *.
  destruct (keep current plans1 SideCurrent) as [r plans2]. cbn [fst snd] in *.
  split; [apply plans_lookup|]. split; [done|]. split.
  { rewrite H2. apply list_filter_iff. intros b. unfold unplanned.
    destruct (b_Parent b) as [o|]; [|done]. specialize (Hc1 (producer_key current (Named o))).
    destruct (plans !! _) as [p|]; [destruct Hc1 as [? ->]; done|by rewrite Hc1]. }
  split; [apply (sort_by_sorted (λ a b : Suppression, compare (p_id (su_Parent a)) (p_id (su_Parent b))));
          intros a b; apply compare_gt_flip|].
  set (P := λ kp : NamedResource * suppressionPlan, ¬ (kp.2.(pl_count) = 0 ∧ kp.2.(discloseEmpty) = false)).
  exists (filter P (map_to_list plans2)).*1. split_and!.
  - eapply sublist_NoDup; [apply (NoDup_fst_map_to_list plans2)|]. apply (fmap_sublist fst), sublist_filter.
  - intros key. specialize (Hk key). rewrite list_elem_of_fmap. split.
    + intros ([key' p] & -> & [Hp Hin%elem_of_map_to_list]%list_elem_of_filter). cbn [fst] in *.
      destruct (planned orig current key') as [q|]; [|congruence]. destruct Hk as [pa Hk].
      exists q. split; [done|]. rewrite Hk in Hin. injection Hin as <-. unfold P in Hp. cbn in Hp.
      destruct (discloseEmpty q); [by right|]. left. tauto.
    + intros (p & Hp & Hor). rewrite Hp in Hk. destruct Hk as [pa Hk]. eexists (key, _).
      split; [done|]. apply list_elem_of_filter. split; [|by apply elem_of_map_to_list].
      unfold P. cbn. intros [H0 Hd]. destruct Hor; congruence.
  - cbn [r_Suppressed]. rewrite sort_by_perm.
    rewrite <-(map_map said Some), disclosed_notes, map_map. fold P.
    assert (∀ kp, kp ∈ filter P (map_to_list plans2) → plans2 !! kp.1 = Some kp.2) as Hin.
    { intros [key p] [_ Hin%elem_of_map_to_list]%list_elem_of_filter. done. }
    induction (filter P (map_to_list plans2)) as [|[key p] ps IH]; [done|].
    rewrite fmap_cons, !map_cons. cbn [fst snd].
    rewrite IH by (intros kp Hkp; apply Hin; by right). clear IH.
    specialize (Hin (key, p) ltac:(left)). cbn [fst snd] in Hin. specialize (Hk key).
    destruct (planned orig current key) as [q|] eqn:Hq; [|congruence]. destruct Hk as [pa Hk].
    rewrite Hk in Hin. injection Hin as <-. reflexivity.
Qed.
