(* ===== verification/Pairing.v ===== *)
(** * Pairing documents (internal/diffprep: normalize.go, pair.go, changes.go, prepare.go)

    The documents of both sides of a comparison are normalized, keyed by their producer and
    their identity, and paired; what a later document shadows is reported.  The copies a
    normalization works on are deep, so a document is its tree ([Documents]). *)

From Stdlib Require Import Ascii.
From stdpp Require Import pretty.
From S2P Require Import Prelude GoPath Resource Diagnostic Warnings ConfigData Documents Diff.

(** ** [strings.TrimSpace] *)

Definition bytes (ns : list nat) : string := foldr (λ n s, String (ascii_of_nat n) s) "" ns.

(** The encodings of the code points of [unicode.IsSpace]. *)
Definition spaces : list string :=
  map bytes ([[9]; [10]; [11]; [12]; [13]; [32]; [194; 133]; [194; 160]; [225; 154; 128]; [226; 128; 168]; [226; 128; 169];
              [226; 128; 175]; [226; 129; 159]; [227; 128; 128]] ++ map (λ n, [226; 128; n]) (seq 128 11)).

Fixpoint rev_string (s acc : string) : string := match s with "" => acc | String c s => rev_string s (String c acc) end.

(** A text without the prefixes of a list it starts with; the fuel is its length. *)
Fixpoint trim_prefixes (ps : list string) (fuel : nat) (s : string) : string :=
  match fuel, List.find (HasPrefix s) ps with
  | S fuel, Some p => trim_prefixes ps fuel (GoPath.TrimPrefix s p)
  | _, _ => s
  end.

Definition TrimSpace (s : string) : string :=
  let s := trim_prefixes spaces (String.length s) s in
  rev_string (trim_prefixes (map (λ p, rev_string p "") spaces) (String.length s) (rev_string s "")) "".

Section pairing.
Context {A : Type} `{EqDecision A}.

(** [manifest.SHA256Hex]; the quoting of [fmt]'s [%q]. *)
Context (SHA256Hex : string → string) (quote : string → string).

Abbreviation document := (option (fields A)).
Implicit Types (m doc : fields A) (d original : Doc document).

(** The projections of a nil map are those of an empty one. *)
Definition read (d : document) : fields A := default ∅ d.

(** ** Normalization *)

Definition binaryDataSummary (v : any A) : string :=
  match as_string v with
  | None => "<redacted binary data>"
  | Some s =>
      match DecodeString (TrimSpace s) with
      | None => "<redacted binary data: " +:+ pretty (String.length s) +:+ " base64 chars sha256:"
                +:+ String.substring 0 16 (SHA256Hex s) +:+ ">"
      | Some decoded => "<redacted binary data: " +:+ pretty (String.length decoded) +:+ " bytes sha256:"
                        +:+ String.substring 0 16 (SHA256Hex decoded) +:+ ">"
      end
  end.

Definition configMapBinaryData m : option (fields A) :=
  if bool_decide (DocKind m ≠ "ConfigMap") then None else v ← m !! "binaryData"; as_map v.

(** [redactBinaryData]; a nil map has no keys to rewrite. *)
Definition redactBinaryData doc : fields A :=
  match configMapBinaryData doc with
  | None => doc
  | Some _ => within_map (fmap (λ v, TScalar (Str (binaryDataSummary v)))) "binaryData" doc
  end.

Definition docsContainBinaryData (docs : list (Doc document)) : bool :=
  existsb (λ d, bool_decide (is_Some (configMapBinaryData (read d.(d_Manifest))))) docs.

(** What [DeepCopyMap] makes of a value: a nil list becomes an empty one. *)
Fixpoint copied (v : any A) : any A :=
  match v with
  | TScalar NilList => TList []
  | TScalar a => TScalar a
  | TMap m => TMap (fmap copied m)
  | TList l => TList (map copied l)
  end.

Definition copied_map : fields A → fields A := fmap copied.

Definition normalizeManifest (attrs paths : list string) (hook : option (fields A → fields A)) (m : document) : document :=
  m ← m;
  let c := redactBinaryData (StripResourceFields paths (StripResourceAttributes attrs (copied_map m))) in
  Some (match hook with Some hook => hook c | None => c end).

(** The documents, and whether they are copies. *)
Definition normalizeDocs (docs : list (Doc document)) (attrs paths : list string) (hook : option (fields A → fields A))
    : list (Doc document) * bool :=
  match attrs, paths, hook with
  | [], [], None =>
      if docsContainBinaryData docs
      then (map (λ d, mkDoc (normalizeManifest attrs paths hook d.(d_Manifest)) d.(d_Parent)) docs, true)
      else (docs, false)
  | _, _, _ => (map (λ d, mkDoc (normalizeManifest attrs paths hook d.(d_Manifest)) d.(d_Parent)) docs, true)
  end.

(** ** Pairs *)

Record Pair := mkPair {
  pr_Parent : Parent;
  pr_Resource : NamedResource;
  APIVersion : string;
  OldPos : nat;
  NewPos : nat;
  Old : document;
  New : document;
  OldChart : string;
  NewChart : string;
}.

Definition pairKey : Type := NamedResource * NamedResource.

Record Options := mkOptions {
  op_Subjects : gmap NamedResource DiagnosticIdentity * gmap NamedResource DiagnosticIdentity;
  op_ProducerKeys : gmap NamedResource NamedResource * gmap NamedResource NamedResource;
  StripAttrs : list string;
  StripFields : list string;
  Normalize : option (fields A → fields A);
}.

(** The element of a side's pair. *)
Definition of_side {X} (side : Side) (p : X * X) : X := match side with SideCurrent => p.2 | _ => p.1 end.

Definition chartLabel (m : document) : string := string_field (map_field (map_field (read m) metadataKey) "labels") "helm.sh/chart".

Definition pair_key (opts : Options) (side : Side) d : pairKey :=
  let parent := d.(d_Parent).(p_id) in
  (default parent (of_side side opts.(op_ProducerKeys) !! parent), DocIdentity (read d.(d_Manifest))).

(** The warning about a document that shadows an earlier one. *)
Definition shadow_warning (opts : Options) (side : Side) d original : Warning :=
  let id := d.(d_Parent).(p_id) in
  let parent := match of_side side opts.(op_Subjects) !! id with Some s => DiagnosticIdentity_String quote s | None => ResourceString id end in
  mkWarning (DocIdentity (read d.(d_Manifest))) zero_identity [] WarnDuplicateDocument
    "duplicate document shadows an earlier document"
    ["side: " +:+ Side_string side; "parent: " +:+ parent; "parent path: " +:+ d.(d_Parent).(p_Path);
     "apiVersion: " +:+ DocAPIVersion (read original.(d_Manifest))] 0.

(** The closure [add] of [Prepare]: the index and the warnings. *)
Definition add (opts : Options) (nleft nright : nat) (st : gmap pairKey Pair * list Warning) (side : Side) d original (pos : nat)
    : gmap pairKey Pair * list Warning :=
  let k := pair_key opts side d in
  let p := default (mkPair no_parent k.2 "" nleft nright None None "" "") (st.1 !! k) in
  let apiVersion := DocAPIVersion (read d.(d_Manifest)) in
  let chart := chartLabel original.(d_Manifest) in
  let shadows := match side with SideCurrent => p.(New) | _ => p.(Old) end in
  let warnings := match shadows with Some _ => st.2 ++ [shadow_warning opts side d original] | None => st.2 end in
  let p := match side with
           | SideCurrent => mkPair d.(d_Parent) p.(pr_Resource) apiVersion p.(OldPos) pos p.(Old) d.(d_Manifest) p.(OldChart) chart
           | _ => mkPair d.(d_Parent) p.(pr_Resource) apiVersion pos p.(NewPos) d.(d_Manifest) p.(New) chart p.(NewChart)
           end in
  (<[k := p]> st.1, warnings).

(** One of its calls: a normalized document with the original and the position. *)
Record item := mkItem { it_side : Side; it_doc : Doc document; it_original : Doc document; it_pos : nat }.

Definition items_of (side : Side) (normalized originals : list (Doc document)) : list item :=
  imap (λ i '(d, o), mkItem side d o i) (zip normalized originals).

Definition add_item (opts : Options) (nleft nright : nat) (st : gmap pairKey Pair * list Warning) (it : item) :=
  add opts nleft nright st it.(it_side) it.(it_doc) it.(it_original) it.(it_pos).

Record Prepared := mkPrepared {
  pd_Subjects : gmap NamedResource DiagnosticIdentity * gmap NamedResource DiagnosticIdentity;
  Pairs : list Pair;
  pd_Warnings : list Warning;
  leftCopied : bool;
  rightCopied : bool;
}.

Definition compare_pairs (a b : Pair) : comparison :=
  cmp_or [compare a.(pr_Parent).(p_id) b.(pr_Parent).(p_id); compare a.(pr_Resource) b.(pr_Resource)].

(** [range] is the order in which Go visits the index. *)
Definition Prepare (range : gmap pairKey Pair → list Pair) (left right : list (Doc document)) (opts : Options) : Prepared :=
  let '(normalizedLeft, leftCopied) := normalizeDocs left opts.(StripAttrs) opts.(StripFields) opts.(Normalize) in
  let '(normalizedRight, rightCopied) := normalizeDocs right opts.(StripAttrs) opts.(StripFields) opts.(Normalize) in
  let '(idx, warnings) := foldl (add_item opts (length left) (length right)) (∅, [])
                            (items_of SideOrig normalizedLeft left ++ items_of SideCurrent normalizedRight right) in
  mkPrepared opts.(op_Subjects) (sort_by compare_pairs (range idx)) (sort_by CompareWarning warnings) leftCopied rightCopied.

(** ** Changes *)

(** [Status]; [reflect.DeepEqual] of two documents is their equality. *)
Definition Status (p : Pair) : string :=
  match p.(Old), p.(New) with
  | None, _ => "added"
  | Some _, None => "removed"
  | Some old, Some new => if ValueEqual (TMap old) (TMap new) then "" else "changed"
  end.

(** The pairs [Changes] yields to a consumer that takes them all. *)
Definition Changes (p : Prepared) : list (Pair * string) :=
  omap (λ pr,
    if bool_decide (Status pr = "") then None
    else Some (mkPair pr.(pr_Parent) pr.(pr_Resource) pr.(APIVersion) pr.(OldPos) pr.(NewPos)
                 (if p.(leftCopied) then pr.(Old) else copied_map <$> pr.(Old))
                 (if p.(rightCopied) then pr.(New) else copied_map <$> pr.(New)) pr.(OldChart) pr.(NewChart), Status pr)) p.(Pairs).

End pairing.

(** ** What pairing means *)

Section spec.
Context {A : Type} `{EqDecision A} (quote : string → string).
Abbreviation document := (option (fields A)).
Abbreviation item := (item (A := A)).
Implicit Types (it : item) (its before : list item) (opts : Options (A := A)).

Definition item_key opts it : pairKey := pair_key opts it.(it_side) it.(it_doc).

(** The last document under a key, and the last one of a side. *)
Definition latest opts (k : pairKey) its : option item := last (filter (λ it, item_key opts it = k) its).
Definition latest_of opts (side : Side) (k : pairKey) its : option item :=
  last (filter (λ it, it.(it_side) = side ∧ item_key opts it = k) its).

Definition item_manifest it : document := it.(it_doc).(d_Manifest).

(** The pair of a key: each side is its last document, and the attribution that of the last
    document of all. *)
Definition pair_of opts (nleft nright : nat) its (k : pairKey) : option (Pair (A := A)) :=
  it ← latest opts k its;
  let l := latest_of opts SideOrig k its in
  let r := latest_of opts SideCurrent k its in
  Some (mkPair it.(it_doc).(d_Parent) k.2 (DocAPIVersion (read (item_manifest it)))
          (default nleft (it_pos <$> l)) (default nright (it_pos <$> r)) (l ≫= item_manifest) (r ≫= item_manifest)
          (default "" ((λ it, chartLabel it.(it_original).(d_Manifest)) <$> l))
          (default "" ((λ it, chartLabel it.(it_original).(d_Manifest)) <$> r))).

(** Whether a document shadows one before it, and the warnings about those that do. *)
Definition shadows opts before it : bool :=
  bool_decide (is_Some (latest_of opts it.(it_side) (item_key opts it) before ≫= item_manifest)).

Fixpoint shadow_warnings opts before its : list Warning :=
  match its with
  | [] => []
  | it :: its =>
      (if shadows opts before it then [shadow_warning quote opts it.(it_side) it.(it_doc) it.(it_original)] else []) ++
      shadow_warnings opts (before ++ [it]) its
  end.

Lemma last_filter_snoc {X} (P : X → Prop) `{∀ x, Decision (P x)} (l : list X) x :
  last (filter P (l ++ [x])) = if bool_decide (P x) then Some x else last (filter P l).
Proof.
  rewrite filter_app. cbn [filter]. case_bool_decide as Hp.
  - rewrite filter_cons_True, filter_nil by done. apply last_snoc.
  - by rewrite filter_cons_False, filter_nil, app_nil_r.
Qed.

Lemma last_filter_none {X} (P : X → Prop) `{∀ x, Decision (P x)} (l : list X) : last (filter P l) = None ↔ ∀ x, x ∈ l → ¬ P x.
Proof.
  rewrite last_None. split.
  - intros Hn x Hx HP. assert (x ∈ filter P l) as Hf by (by apply list_elem_of_filter). rewrite Hn in Hf. by apply elem_of_nil in Hf.
  - intros Hn. destruct (filter P l) as [| x k] eqn:E; [done |]. assert (x ∈ filter P l) as [HP Hx]%list_elem_of_filter by (rewrite E; left).
    by destruct (Hn x).
Qed.

Lemma latest_of_none opts side k its : latest opts k its = None → latest_of opts side k its = None.
Proof. unfold latest, latest_of. rewrite !last_filter_none. intros Hn it Hit [_ Hk]. by eapply Hn. Qed.

Definition two_sided it : Prop := it.(it_side) ≠ SideBoth.

(** The pair [add] starts from. *)
Lemma default_pair opts (nl nr : nat) its (k : pairKey) :
  let p := default (mkPair no_parent k.2 "" nl nr None None "" "") (pair_of opts nl nr its k) in
  let l := latest_of opts SideOrig k its in
  let r := latest_of opts SideCurrent k its in
  p.(pr_Resource) = k.2 ∧ p.(OldPos) = default nl (it_pos <$> l) ∧ p.(NewPos) = default nr (it_pos <$> r) ∧
  p.(Old) = (l ≫= item_manifest) ∧ p.(New) = (r ≫= item_manifest) ∧
  p.(OldChart) = default "" ((λ it, chartLabel it.(it_original).(d_Manifest)) <$> l) ∧
  p.(NewChart) = default "" ((λ it, chartLabel it.(it_original).(d_Manifest)) <$> r).
Proof.
  cbn zeta. unfold pair_of. destruct (latest opts k its) as [it |] eqn:E; [done |].
  by rewrite !latest_of_none.
Qed.

Lemma add_item_spec opts (nl nr : nat) (st : gmap pairKey (Pair (A := A)) * list Warning) before it : two_sided it →
  (∀ k : pairKey, st.1 !! k = pair_of opts nl nr before k) →
  let st' := add_item quote opts nl nr st it in
  (∀ k, st'.1 !! k = pair_of opts nl nr (before ++ [it]) k) ∧
  st'.2 = st.2 ++ (if shadows opts before it then [shadow_warning quote opts it.(it_side) it.(it_doc) it.(it_original)] else []).
Proof.
  intros Hs Hst. cbn zeta. unfold add_item, add. cbn [fst snd]. rewrite Hst.
  pose proof (default_pair opts nl nr before (item_key opts it)) as (Hr & Hop & Hnp & Ho & Hn & Hoc & Hnc).
  change (pair_key opts (it_side it) (it_doc it)) with (item_key opts it) in *. set (k0 := item_key opts it) in *.
  set (p := default _ _) in *. rewrite Hr, Hop, Hnp, Ho, Hn, Hoc, Hnc. unfold shadows. split.
  - intros k. unfold pair_of at 1, latest, latest_of. rewrite !last_filter_snoc. fold (latest opts k before) (latest_of opts SideOrig k before) (latest_of opts SideCurrent k before).
    change (item_key opts it) with k0. destruct (decide (k = k0)) as [-> | Hk].
    + rewrite lookup_insert_eq, (bool_decide_true (k0 = k0)) by done. cbn [mbind option_bind].
      destruct (it_side it) eqn:Es; [| | by destruct Hs].
      * rewrite (bool_decide_true (SideOrig = SideOrig ∧ k0 = k0)), (bool_decide_false (SideOrig = SideCurrent ∧ k0 = k0)) by intuition done. done.
      * rewrite (bool_decide_false (SideCurrent = SideOrig ∧ k0 = k0)), (bool_decide_true (SideCurrent = SideCurrent ∧ k0 = k0)) by intuition done. done.
    + rewrite lookup_insert_ne by done. rewrite !bool_decide_false by (try intros [_ ?]; congruence). apply Hst.
  - fold k0. destruct (it_side it) eqn:Es; [| | by destruct Hs].
    + destruct (latest_of opts SideOrig k0 before ≫= item_manifest); cbn; [done | by rewrite app_nil_r].
    + destruct (latest_of opts SideCurrent k0 before ≫= item_manifest); cbn; [done | by rewrite app_nil_r].
Qed.

Lemma fold_spec opts (nl nr : nat) its (st : gmap pairKey (Pair (A := A)) * list Warning) before : Forall two_sided its →
  (∀ k : pairKey, st.1 !! k = pair_of opts nl nr before k) →
  let st' := foldl (add_item quote opts nl nr) st its in
  (∀ k, st'.1 !! k = pair_of opts nl nr (before ++ its) k) ∧ st'.2 = st.2 ++ shadow_warnings opts before its.
Proof.
  cbn zeta. revert st before. induction its as [| it its IH]; intros st before Hs Hst; cbn [foldl shadow_warnings].
  - by rewrite !app_nil_r.
  - inversion Hs as [| ? ? Hit Hits]; subst. destruct (add_item_spec opts nl nr st before it Hit Hst) as [Hst' Hw].
    destruct (IH _ _ Hits Hst') as [Hi Hws]. rewrite <- app_assoc in Hi. split; [exact Hi |]. by rewrite Hws, Hw, <- app_assoc.
Qed.
End spec.

(** ** What normalization means *)

Section normal.
Context {A : Type} `{EqDecision A} (SHA256Hex : string → string).
Abbreviation document := (option (fields A)).
Implicit Types (m doc : fields A) (v t : any A) (addr : list step).

Lemma leaf_copied v addr : leaf (copied v) addr = leaf v addr.
Proof.
  revert v. induction addr as [| [k | i] addr IH]; intros [a | m | l]; try done; try by destruct a.
  - change (copied (TMap m)) with (TMap (copied_map m)). rewrite !leaf_key. unfold copied_map. rewrite lookup_fmap. destruct (m !! k); [apply IH | done].
  - change (copied (TList l)) with (TList (copied <$> l)). rewrite !leaf_index, list_lookup_fmap. destruct (l !! i); [apply IH | done].
Qed.

Lemma leaf_copied_map m addr : leaf (TMap (copied_map m)) addr = leaf (TMap m) addr.
Proof. exact (leaf_copied (TMap m) addr). Qed.

Definition binary (addr : list step) : bool := under "binaryData" (λ _, true) addr.

Lemma leaf_redact m addr : binary addr = false → leaf (TMap (redactBinaryData SHA256Hex m)) addr = leaf (TMap m) addr.
Proof.
  intros Hb. unfold redactBinaryData. destruct (configMapBinaryData m); [| done]. unfold within_map.
  destruct (m !! "binaryData") as [[a | x | l] |] eqn:E; [done | | done | done].
  destruct addr as [| [k | i] addr]; [done | | done]. cbn [binary under] in Hb. rewrite andb_true_r in Hb. bool_to_prop.
  by rewrite !leaf_key, lookup_insert_ne.
Qed.

(** The addresses a comparison is told to ignore. *)
Definition ignored (attrs paths : list string) addr : bool := attributes_stripped attrs addr || fields_stripped paths addr.

(** Without a hook, normalization changes exactly the leaves that are ignored, and binary data. *)
Lemma normalizeManifest_leaf attrs paths m addr : binary addr = false → ∃ c,
  normalizeManifest SHA256Hex attrs paths None (Some m) = Some c ∧
  leaf (TMap c) addr = if ignored attrs paths addr then None else leaf (TMap m) addr.
Proof.
  intros Hb. eexists. split; [done |]. rewrite leaf_redact by done.
  destruct (drops_compose _ _ _ _ (drops_attributes (A := A) attrs) (drops_fields paths)) as [_ Hd]. rewrite Hd, leaf_copied_map. done.
Qed.

(** [normalizeDocs] gives a document per original, which has its producer, and is absent
    when the original is; without a hook it agrees with it on what is not ignored. *)
Definition normal_of (attrs paths : list string) (d o : Doc document) : Prop :=
  d.(d_Parent) = o.(d_Parent) ∧
  match d.(d_Manifest), o.(d_Manifest) with
  | Some c, Some m => ∀ addr, binary addr = false → ignored attrs paths addr = false → leaf (TMap c) addr = leaf (TMap m) addr
  | None, None => True
  | _, _ => False
  end.

Lemma normalized_doc attrs paths (d : Doc document) :
  normal_of attrs paths (mkDoc (normalizeManifest SHA256Hex attrs paths None d.(d_Manifest)) d.(d_Parent)) d.
Proof.
  split; [done |]. cbn [d_Manifest]. destruct (d_Manifest d) as [m |]; [| done].
  change (match normalizeManifest SHA256Hex attrs paths None (Some m) with Some c => ∀ addr, binary addr = false → ignored attrs paths addr = false → leaf (TMap c) addr = leaf (TMap m) addr | None => False end).
  destruct (normalizeManifest SHA256Hex attrs paths None (Some m)) as [c |] eqn:E; [| discriminate].
  intros addr Hb Hi. destruct (normalizeManifest_leaf attrs paths m addr Hb) as (c' & Hc & Hl). rewrite E in Hc. injection Hc as <-. by rewrite Hl, Hi.
Qed.

Lemma same_doc attrs paths (d : Doc document) : normal_of attrs paths d d.
Proof. split; [done |]. by destruct (d_Manifest d). Qed.

Lemma normalizeDocs_spec attrs paths docs : Forall2 (normal_of attrs paths) (normalizeDocs SHA256Hex docs attrs paths None).1 docs.
Proof.
  assert (Forall2 (normal_of attrs paths) (map (λ d, mkDoc (normalizeManifest SHA256Hex attrs paths None d.(d_Manifest)) d.(d_Parent)) docs) docs) as Hm.
  { induction docs; constructor; [apply normalized_doc | done]. }
  assert (Forall2 (normal_of attrs paths) docs docs) as Hs.
  { induction docs; constructor; [apply same_doc | by apply IHdocs; inversion Hm]. }
  unfold normalizeDocs. by destruct attrs, paths; try destruct (docsContainBinaryData docs).
Qed.
End normal.

(** ** The comparison *)

Section prepare.
Context {A : Type} `{EqDecision A} (SHA256Hex quote : string → string).
Abbreviation document := (option (fields A)).
Abbreviation item := (item (A := A)).
Implicit Types (left right : list (Doc document)) (opts : Options (A := A)).

(** What [Prepare] adds, in order. *)
Definition compared opts left right : list item :=
  items_of SideOrig (normalizeDocs SHA256Hex left opts.(StripAttrs) opts.(StripFields) opts.(Normalize)).1 left ++
  items_of SideCurrent (normalizeDocs SHA256Hex right opts.(StripAttrs) opts.(StripFields) opts.(Normalize)).1 right.

Lemma compare_pairs_key (a b : Pair (A := A)) :
  compare_pairs a b = compare (a.(pr_Parent).(p_id), a.(pr_Resource)) (b.(pr_Parent).(p_id), b.(pr_Resource)).
Proof. reflexivity. Qed.

Lemma items_of_side side normalized originals : side ≠ SideBoth → Forall two_sided (items_of (A := A) side normalized originals).
Proof.
  intros Hs. apply Forall_forall. unfold items_of. intros it (i & [d o] & -> & _)%elem_of_lookup_imap. done.
Qed.

Lemma lookup_keys {V} (m : gmap pairKey V) : omap (λ k, m !! k) (map_to_list m).*1 = (map_to_list m).*2.
Proof.
  assert (∀ l : list (pairKey * V), (∀ k v, (k, v) ∈ l → m !! k = Some v) → omap (λ k, m !! k) l.*1 = l.*2) as Hl.
  { induction l as [| [k v] l IH]; intros Hm; [done |]. cbn. rewrite (Hm k v) by left. f_equal. apply IH. intros k' v' Hk'. apply Hm. by right. }
  apply Hl. intros k v. apply elem_of_map_to_list.
Qed.

Lemma pair_of_Some opts nl nr (its : list item) k : is_Some (pair_of opts nl nr its k) ↔ ∃ it, it ∈ its ∧ item_key opts it = k.
Proof.
  unfold pair_of. destruct (latest opts k its) as [it |] eqn:E; cbn [mbind option_bind].
  - split; [intros _ | by eexists]. unfold latest in E. apply last_Some_elem_of, list_elem_of_filter in E as [Hk Hit]. by exists it.
  - split; [by intros [] | intros (it & Hit & Hk)]. unfold latest in E. rewrite last_filter_none in E. by destruct (E it).
Qed.

Section order.
Context (range : gmap pairKey (Pair (A := A)) → list (Pair (A := A))).
Hypothesis range_perm : ∀ idx, range idx ≡ₚ (map_to_list idx).*2.

Lemma Prepare_spec left right opts :
  let its := compared opts left right in
  let p := Prepare SHA256Hex quote range left right opts in
  ∃ keys, NoDup keys ∧ (∀ k, k ∈ keys ↔ ∃ it, it ∈ its ∧ item_key opts it = k) ∧
    p.(Pairs) ≡ₚ omap (pair_of opts (length left) (length right) its) keys ∧
    Sorted (by_le compare_pairs) p.(Pairs) ∧
    p.(pd_Warnings) = sort_by CompareWarning (shadow_warnings quote opts [] its).
Proof.
  cbn zeta. unfold Prepare, compared.
  destruct (normalizeDocs SHA256Hex left _ _ _) as [nl lc] eqn:El. destruct (normalizeDocs SHA256Hex right _ _ _) as [nr rc] eqn:Er. cbn [fst].
  set (its := items_of SideOrig nl left ++ items_of SideCurrent nr right).
  assert (Forall two_sided its) as Hs by (apply Forall_app; split; by apply items_of_side).
  pose proof (fold_spec quote opts (length left) (length right) its (∅, []) [] Hs (λ k, lookup_empty k)) as [Hi Hw].
  destruct (foldl _ _ its) as [idx ws]. cbn [fst snd app] in Hi, Hw. cbn [Pairs pd_Warnings].
  exists (map_to_list idx).*1. split; [apply NoDup_fst_map_to_list |]. split.
  { intros k. rewrite <- (pair_of_Some opts (length left) (length right)), <- Hi. split.
    - intros ([k' v] & -> & Hkv%elem_of_map_to_list)%list_elem_of_fmap. by eexists.
    - intros [v Hv]. apply list_elem_of_fmap. exists (k, v). by rewrite elem_of_map_to_list. }
  split; [| split].
  - rewrite sort_by_perm, range_perm, <- lookup_keys. apply reflexive_eq. by apply list_omap_ext, Forall_Forall2_diag, Forall_true.
  - apply sort_by_sorted. intros a b. rewrite !compare_pairs_key. apply compare_gt_flip.
  - by rewrite Hw.
Qed.

(** A pair that [Prepare] retains is the only one of its key. *)
Lemma pair_prepared left right opts k pr :
  pair_of opts (length left) (length right) (compared opts left right) k = Some pr →
  pr ∈ (Prepare SHA256Hex quote range left right opts).(Pairs).
Proof.
  intros Hp. destruct (Prepare_spec left right opts) as (keys & _ & Hk & Hps & _). rewrite Hps. apply list_elem_of_omap. exists k. split; [| done].
  apply Hk, (pair_of_Some opts (length left) (length right)). by eexists.
Qed.

Lemma items_normal side opts (docs : list (Doc document)) it : opts.(Normalize) = None →
  it ∈ items_of (A := A) side (normalizeDocs SHA256Hex docs opts.(StripAttrs) opts.(StripFields) opts.(Normalize)).1 docs →
  it.(it_side) = side ∧ docs !! it.(it_pos) = Some it.(it_original) ∧ normal_of opts.(StripAttrs) opts.(StripFields) it.(it_doc) it.(it_original).
Proof.
  intros ->. pose proof (normalizeDocs_spec SHA256Hex opts.(StripAttrs) opts.(StripFields) docs) as Hn. unfold items_of.
  intros (i & [d o] & -> & Hdo)%elem_of_lookup_imap. apply lookup_zip_with_Some in Hdo as (d' & o' & [= -> ->] & Hd & Ho).
  split; [done |]. split; [done |]. by eapply Forall2_lookup_lr.
Qed.

(** Claim C22: [Prepare] retains one pair per key of a normalized document, whose sides are
    the last normalized documents of each side under the key, with their positions and the
    chart labels they had, and whose attribution is that of the last document of all; the
    pairs are in order, and the warnings are those of the documents that shadow one before
    them on their side. *)
Theorem Prepare_exact left right opts :
  let its := compared opts left right in
  let p := Prepare SHA256Hex quote range left right opts in
  ∃ keys, NoDup keys ∧ (∀ k, k ∈ keys ↔ ∃ it, it ∈ its ∧ item_key opts it = k) ∧
    p.(Pairs) ≡ₚ omap (pair_of opts (length left) (length right) its) keys ∧
    Sorted (by_le compare_pairs) p.(Pairs) ∧
    p.(pd_Warnings) = sort_by CompareWarning (shadow_warnings quote opts [] its).
Proof. apply Prepare_spec. Qed.

(** Claim C21: no difference is hidden.  Without a hook, let the documents left on both sides
    under a key come from [ml] and [mr].  Either these agree on every leaf that is not to be
    ignored, binary data aside, or [Changes] yields their pair as changed. *)
Theorem unreported_agree left right opts k l r ml mr : opts.(Normalize) = None →
  latest_of opts SideOrig k (compared opts left right) = Some l → latest_of opts SideCurrent k (compared opts left right) = Some r →
  l.(it_original).(d_Manifest) = Some ml → r.(it_original).(d_Manifest) = Some mr →
  (∀ addr, binary addr = false → ignored opts.(StripAttrs) opts.(StripFields) addr = false → leaf (TMap ml) addr = leaf (TMap mr) addr) ∨
  ∃ pr, (pr, "changed") ∈ Changes (Prepare SHA256Hex quote range left right opts) ∧
    pr.(pr_Resource) = k.2 ∧ pr.(OldPos) = l.(it_pos) ∧ pr.(NewPos) = r.(it_pos).
Proof.
  intros Hn Hl Hr Hml Hmr. set (its := compared opts left right) in *.
  assert (l ∈ items_of SideOrig (normalizeDocs SHA256Hex left opts.(StripAttrs) opts.(StripFields) opts.(Normalize)).1 left ∧
          r ∈ items_of SideCurrent (normalizeDocs SHA256Hex right opts.(StripAttrs) opts.(StripFields) opts.(Normalize)).1 right ∧
          item_key opts l = k) as (Hil & Hir & Hk).
  { unfold latest_of in Hl, Hr. apply last_Some_elem_of, list_elem_of_filter in Hl as [[Hsl Hkl] Hl]. apply last_Some_elem_of, list_elem_of_filter in Hr as [[Hsr Hkr] Hr].
    unfold its, compared in Hl, Hr. rewrite elem_of_app in Hl, Hr.
    destruct Hl as [Hl | Hl]; [| by apply (items_normal _ _ _ _ Hn) in Hl as [? _]; congruence].
    destruct Hr as [Hr | Hr]; [by apply (items_normal _ _ _ _ Hn) in Hr as [? _]; congruence |]. done. }
  destruct (items_normal _ _ _ _ Hn Hil) as (_ & _ & [_ Hdl]). destruct (items_normal _ _ _ _ Hn Hir) as (_ & _ & [_ Hdr]).
  rewrite Hml in Hdl. rewrite Hmr in Hdr. destruct (d_Manifest (it_doc l)) as [cl |] eqn:El; [| done]. destruct (d_Manifest (it_doc r)) as [cr |] eqn:Er; [| done].
  assert (is_Some (pair_of opts (length left) (length right) its k)) as [pr Hpr].
  { apply pair_of_Some. exists l. split; [| done]. unfold latest_of in Hl. by apply last_Some_elem_of, list_elem_of_filter in Hl as [_ ?]. }
  pose proof (pair_prepared _ _ _ _ _ Hpr) as Hin. unfold pair_of in Hpr. destruct (latest opts k its) as [it |]; [| done]. cbn [mbind option_bind] in Hpr.
  rewrite Hl, Hr in Hpr. cbn [mbind option_bind fmap option_fmap option_map from_option] in Hpr. unfold item_manifest at 2 3 in Hpr. rewrite El, Er in Hpr. injection Hpr as <-.
  destruct (ValueEqual (TMap cl) (TMap cr)) eqn:Heq.
  - left. intros addr Hb Hi. apply ValueEqual_spec in Heq. rewrite <- Hdl, <- Hdr by done. by rewrite Heq.
  - right. eexists. split; [| split; [| split]].
    { apply list_elem_of_omap. eexists. split; [exact Hin |]. unfold Status. cbn [Old New]. rewrite Heq. reflexivity. }
    all: done.
Qed.
End order.
End prepare.

(** ** A chart bump *)

Definition ranged {A} (idx : gmap pairKey (Pair (A := A))) : list (Pair (A := A)) := (map_to_list idx).*2.
Definition same_text (s : string) : string := s.

Definition text (s : string) : any nat := TScalar (Str s).

Definition deployment (chart : string) (replicas : nat) : fields nat :=
  {["apiVersion" := text "apps/v1"; "kind" := text "Deployment";
    "metadata" := TMap {["name" := text "web"; "labels" := TMap {["helm.sh/chart" := text chart]}]};
    "spec" := TMap {["replicas" := TScalar (Other replicas);
                     "template" := TMap {["metadata" := TMap {["annotations" := TMap {["checksum/config" := text chart; "team" := text "x"]}]}]}]}]}.

Definition release : Parent := mkParent (mkResource HelmReleaseDomain "HelmRelease" "apps" "web") "apps/web.yaml".
Definition bump_options : Options (A := nat) := mkOptions (∅, ∅) (∅, ∅) ["helm.sh/chart"; "checksum/"] ["spec.replicas"] None.
Definition plain_options : Options (A := nat) := mkOptions (∅, ∅) (∅, ∅) ["helm.sh/chart"; "checksum/"] [] None.
Definition rendered (chart : string) (replicas : nat) : Doc (option (fields nat)) := mkDoc (Some (deployment chart replicas)) release.

(** What rotates with a chart is not reported, nor a stripped field; another field is. *)
Example bump_ignored :
  Changes (Prepare same_text same_text ranged [rendered "web-1" 1] [rendered "web-2" 3] bump_options) = [] ∧
  map (λ c, (c.1.(OldChart), c.1.(NewChart), c.2)) (Changes (Prepare same_text same_text ranged [rendered "web-1" 1] [rendered "web-2" 3] plain_options))
    = [("web-1", "web-2", "changed")].
Proof. split; vm_compute; reflexivity. Qed.

(** A document that shadows another is the one compared, and is reported. *)
Example shadow_reported :
  let p := Prepare same_text same_text ranged [rendered "web-1" 1; rendered "web-2" 2] [rendered "web-2" 2] plain_options in
  Changes p = [] ∧ map w_Detail p.(pd_Warnings) = [["side: orig"; "parent: HelmRelease.helm.toolkit.fluxcd.io/apps/web"; "parent path: apps/web.yaml"; "apiVersion: apps/v1"]].
Proof. split; vm_compute; reflexivity. Qed.

Example redacted : binaryDataSummary (A := nat) same_text (text "aGVsbG8=
") = "<redacted binary data: 5 bytes sha256:hello>".
Proof. vm_compute. reflexivity. Qed.

Example unreported_agree_witness : ∃ l r,
  latest_of bump_options SideOrig (release.(p_id), mkResource "apps" "Deployment" "" "web") (compared same_text bump_options [rendered "web-1" 1] [rendered "web-2" 1]) = Some l ∧
  latest_of bump_options SideCurrent (release.(p_id), mkResource "apps" "Deployment" "" "web") (compared same_text bump_options [rendered "web-1" 1] [rendered "web-2" 1]) = Some r ∧
  ((∀ addr, binary addr = false → ignored ["helm.sh/chart"; "checksum/"] ["spec.replicas"] addr = false →
      leaf (TMap (deployment "web-1" 1)) addr = leaf (TMap (deployment "web-2" 1)) addr) ∨
   ∃ pr, (pr, "changed") ∈ Changes (Prepare same_text same_text ranged [rendered "web-1" 1] [rendered "web-2" 1] bump_options) ∧
     pr.(pr_Resource) = mkResource "apps" "Deployment" "" "web" ∧ pr.(OldPos) = l.(it_pos) ∧ pr.(NewPos) = r.(it_pos)).
Proof.
  eexists _, _. split; [vm_compute; reflexivity |]. split; [vm_compute; reflexivity |].
  eapply (unreported_agree same_text same_text ranged (λ idx, reflexivity _) [rendered "web-1" 1] [rendered "web-2" 1] bump_options
    (release.(p_id), mkResource "apps" "Deployment" "" "web")); [reflexivity | vm_compute; reflexivity | vm_compute; reflexivity | reflexivity | reflexivity].
Defined.

Example Prepare_exact_witness : ∃ keys : list pairKey, NoDup keys ∧
  (Prepare same_text same_text ranged [rendered "web-1" 1] [rendered "web-2" 1] bump_options).(Pairs) ≡ₚ
    omap (pair_of bump_options 1 1 (compared same_text bump_options [rendered "web-1" 1] [rendered "web-2" 1])) keys.
Proof.
  destruct (Prepare_exact same_text same_text ranged (λ idx, reflexivity _) [rendered "web-1" 1] [rendered "web-2" 1] bump_options) as (keys & Hd & _ & Hp & _).
  exists keys. split; [exact Hd | exact Hp].
Defined.
