(* ===== verification/Change.v ===== *)
(** * Detecting changes (pkg/change: detect.go, with_readers.go)

    Two admitted trees are scanned under the ignore policy of each side and compared by
    digest, or by size and hash; files on one side only are read for the declarations they
    hold.  The hashing workers interleave, so the order of their jobs is an argument.  A
    cancelled context only ends a detection early with an error and is left out. *)

From Stdlib Require Import Ascii.
From S2P Require Import Prelude GoPath Paths Resource Documents Root SourceIgnore.

(** ** Names *)

(** [strings.ToLower] as far as it decides the comparisons below. *)
Fixpoint ToLower (s : string) : string :=
  match s with
  | "" => ""
  | String c s => let n := nat_of_ascii c in String (if (65 <=? n) && (n <=? 90) then ascii_of_nat (n + 32) else c) (ToLower s)
  end.

Fixpoint contains_slash (s : string) : bool :=
  match s with "" => false | String c s => bool_decide (c = slash) || contains_slash s end.

(** [filepath.Ext]: from the last dot of the last element. *)
Fixpoint Ext (s : string) : string :=
  match s with
  | "" => ""
  | String c rest =>
      let below := Ext rest in
      if bool_decide (below ≠ "") then below else if bool_decide (c = "."%char) && negb (contains_slash rest) then s else ""
  end.

Section change.
Context {A : Type} `{EqDecision A}.

(** ** Inputs *)

(** A [SourceArtifact]: a Git tree has digests of its files, when it lists them, and a policy
    of its own. *)
Record SourceArtifact := mkArtifact { LocalPath : string; FS : entry; git_tree : bool; FileDigests : option (gmap string string) }.

(** Code outside the repository: upstream's patterns and matchers, hashing, the decoding of
    documents and their fingerprint. *)
Context {P Mat : Type} (ReadPatterns : string → list string → list P) (VCSPatterns : list P).
Context (NewMatcher : list P → Mat) (NewDefaultMatcher : Mat) (UpstreamMatch : Mat → list string → bool → bool) (blank : string → bool).
Context (sha256 : string → string) (DecodeDocs : string → option (list (fields A))) (Fingerprint : fields A → string).
Context (operator : string * string).

Inductive change_error := MissingInput | WalkFailure (name : string) | PolicyFailure (e : policy_error) | HashFailure (name : string) | InputFailure (name : string).

(** ** Scanning *)

(** [WalkDir] with the callback of [scanFiles]: the sizes of the files and the names of the
    ignore files, in order. *)
Fixpoint walk (opposite name base : string) (e : entry) (acc : gmap string Z * list string) : (gmap string Z * list string) + change_error :=
  if bool_decide (name ≠ ".") && (bool_decide (base = ".git") || bool_decide (name = opposite)) then inl acc
  else
    let acc := if bool_decide (base = IgnoreFile) then (acc.1, acc.2 ++ [name]) else acc in
    match e with
    | File size _ => inl (<[name := size]> acc.1, acc.2)
    | Folder lists es =>
        if lists then
          (fix below (es : list (string * entry)) (acc : gmap string Z * list string) : (gmap string Z * list string) + change_error :=
             match es with
             | [] => inl acc
             | (n, e) :: es => match walk opposite (Child name n) n e acc with inl acc => below es acc | inr e => inr e end
             end) es acc
        else inr (WalkFailure name)
    end.

Definition scanFiles (input : entry) (oppositeName : string) : (gmap string Z * list string) + change_error :=
  walk oppositeName "." "." input (∅, []).

(** [scanTree]: a fault of [filepath.Rel] leaves an empty name. *)
Definition scanTree (input opposite : SourceArtifact) (digests : option (gmap string string)) : gmap string Z + change_error :=
  let oppositeName := default "" (Rel input.(LocalPath) opposite.(LocalPath)) in
  match digests with
  | Some digests =>
      inl (fmap (λ _, 0%Z) (filter (λ kv, bool_decide (kv.1 ≠ oppositeName) && negb (HasPrefix kv.1 (oppositeName +:+ "/")) = true) digests))
  | None =>
      match scanFiles input.(FS) oppositeName with
      | inr e => inr e
      | inl (out, files) =>
          match NewFS ReadPatterns VCSPatterns NewMatcher NewDefaultMatcher blank input.(FS) (if input.(git_tree) then None else Some files) "" true with
          | inr e => inr (PolicyFailure e)
          | inl policy => inl (Select VCSPatterns NewMatcher NewDefaultMatcher UpstreamMatch policy out (Some files))
          end
      end
  end.

(** The digests of both sides, when both have them. *)
Definition both_digests (before after : SourceArtifact) : option (gmap string string) * option (gmap string string) :=
  match before.(FileDigests), after.(FileDigests) with Some b, Some a => (Some b, Some a) | _, _ => (None, None) end.

(** ** Comparing *)

Record fileComparison := mkComparison { fc_paths : gset string; jobs : list string; fc_oneSided : list string }.

(** A name of the head: changed, or a job for the hashing. *)
Definition compare_name (before : gmap string Z) (digests : option (gmap string string) * option (gmap string string))
    (acc : fileComparison) (nr : string * Z) : fileComparison :=
  let '(name, size) := nr in
  let changed (one_sided : bool) := mkComparison ({[name]} ∪ acc.(fc_paths)) acc.(jobs) (if one_sided then acc.(fc_oneSided) ++ [name] else acc.(fc_oneSided)) in
  match before !! name with
  | None => changed true
  | Some size' =>
      if negb (size' =? size)%Z then changed false
      else
        match digests with
        | (Some b, a) => if bool_decide (default "" (b !! name) = default "" (a ≫= λ a, a !! name)) then acc else changed false
        | _ => mkComparison acc.(fc_paths) (acc.(jobs) ++ [name]) acc.(fc_oneSided)
        end
  end.

Definition removed_name (after : gmap string Z) (acc : fileComparison) (nl : string * Z) : fileComparison :=
  match after !! nl.1 with
  | Some _ => acc
  | None => mkComparison ({[nl.1]} ∪ acc.(fc_paths)) acc.(jobs) (acc.(fc_oneSided) ++ [nl.1])
  end.

(** [compareScannedFiles]; a map is visited in the order of [map_to_list], and only the order
    of the results depends on it. *)
Definition compareScannedFiles (before after : gmap string Z) (digests : option (gmap string string) * option (gmap string string)) : fileComparison :=
  foldl (removed_name after) (foldl (compare_name before digests) (mkComparison ∅ [] []) (map_to_list after)) (map_to_list before).

Definition hashFile (input : entry) (name : string) : option string :=
  match ReadFile input name with Content data => Some (sha256 data) | _ => None end.

(** The jobs of a worker: from its number, in strides. *)
Fixpoint stride (fuel worker n : nat) : list nat :=
  match fuel with
  | 0 => []
  | S fuel => if worker <? n then worker :: stride fuel (worker + 8) n else []
  end.

Definition worker_jobs (n : nat) : list (list nat) := map (λ worker, stride n worker n) (seq 0 (8 `min` n)).

(** One turn of a worker: the flags of the jobs, or the failure that cancels the others. *)
Definition hash_job (before after : entry) (jobs : list string) (flags : list bool + change_error) (i : nat) : list bool + change_error :=
  match flags, jobs !! i with
  | inl flags, Some name =>
      match hashFile before name, hashFile after name with
      | Some b, Some a => inl (<[i := negb (bool_decide (a = b))]> flags)
      | _, _ => inr (HashFailure name)
      end
  | r, _ => r
  end.

(** [hashJobs] under a schedule of the turns of all workers. *)
Definition hashJobs (before after : entry) (jobs : list string) (schedule : list nat) : list bool + change_error :=
  foldl (hash_job before after jobs) (inl (replicate (length jobs) false)) schedule.

(** ** Declarations of one side *)

Definition inputDeclaration (declared : gmap NamedResource string) (doc : fields A) : gmap NamedResource string :=
  let id := DocIdentity doc in
  if bool_decide (id.(Kind) ≠ "") && bool_decide (id.(Name) ≠ "") && bool_decide (DocAPIVersion doc ≠ "") &&
     negb (HasEnvsubstReference id.(Name)) && negb (HasEnvsubstReference id.(Namespace))
  then
    let fingerprint := Fingerprint (WithoutOwnershipLabels operator doc) in
    let fingerprint := match declared !! id with Some previous => if bool_decide (previous ≠ fingerprint) then "" else fingerprint | None => fingerprint end in
    <[id := fingerprint]> declared
  else declared.

(** [inputDeclarations]; nil and empty maps read alike. *)
Definition inputDeclarations (docs : list (fields A)) : gmap NamedResource string := foldl inputDeclaration ∅ docs.

(** [collectInput]. *)
Definition collectInput (input : entry) (name : string) : gmap NamedResource string + change_error :=
  if bool_decide (ToLower (Ext name) ∈ [".yaml"; ".yml"; ".json"]) then
    match ReadFile input name with
    | Content data => inl (match DecodeDocs data with Some docs => inputDeclarations docs | None => ∅ end)
    | _ => inr (InputFailure name)
    end
  else inl ∅.

(** ** Sets *)

(** The part of a [Set] that [Detect] fills. *)
Record Set_ := mkSet { paths : gset string; oneSided : gmap string (gmap NamedResource string) * gmap string (gmap NamedResource string) }.

(** [CollectInputs]. *)
Definition CollectInputs (s : Set_) (input : entry) (name : string) (before : bool) : Set_ + change_error :=
  match collectInput input name with
  | inr e => inr e
  | inl declared =>
      inl (mkSet s.(paths) (if before then (<[name := declared]> s.(oneSided).1, s.(oneSided).2)
                            else (s.(oneSided).1, <[name := declared]> s.(oneSided).2)))
  end.

(** The loop over the files of one side. *)
Fixpoint collect_all (before after : SourceArtifact) (scanned : gmap string Z) (s : Set_) (names : list string) : Set_ + change_error :=
  match names with
  | [] => inl s
  | name :: names =>
      let onAfter := bool_decide (is_Some (scanned !! name)) in
      match CollectInputs s (if onAfter then after.(FS) else before.(FS)) name (negb onAfter) with
      | inl s => collect_all before after scanned s names
      | inr e => inr e
      end
  end.

(** [Detect] of two admitted inputs; the schedule is that of the hashing workers. *)
Definition Detect (schedule : nat → list nat) (before after : option SourceArtifact) : Set_ + change_error :=
  match before, after with
  | Some before, Some after =>
      let digests := both_digests before after in
      match scanTree before after digests.1, scanTree after before digests.2 with
      | inl bef, inl aft =>
          let comparison := compareScannedFiles bef aft digests in
          match hashJobs before.(FS) after.(FS) comparison.(jobs) (schedule (length comparison.(jobs))) with
          | inr e => inr e
          | inl flags =>
              let changed := foldr (λ '(name, flag) (s : gset string), if flag : bool then {[name]} ∪ s else s) comparison.(fc_paths) (zip comparison.(jobs) flags) in
              collect_all before after aft (mkSet changed (∅, ∅)) (sort_by compare comparison.(fc_oneSided))
          end
      | inr e, _ | _, inr e => inr e
      end
  | _, _ => inr MissingInput
  end.

(** [NewSet], [Len], [Paths] and [Contains]; separators are slashes. *)
Definition NewSet (names : list string) : Set_ := mkSet (list_to_set names) (∅, ∅).
Definition Set_Len (s : option Set_) : nat := match s with Some s => size s.(paths) | None => 0 end.
Definition Set_Paths (s : option Set_) : list string := match s with Some s => sort_by compare (elements s.(paths)) | None => [] end.
Definition Set_Contains (s : option Set_) (rel : string) : bool := match s with Some s => bool_decide (rel ∈ s.(paths)) | None => false end.

End change.

(** ** The hashing workers *)

Lemma stride_spec n fuel worker : n ≤ worker + fuel → ∀ i, i ∈ stride fuel worker n ↔ worker ≤ i ∧ i < n ∧ (i - worker) mod 8 = 0.
Proof.
  revert worker. induction fuel as [| fuel IH]; intros worker Hf i; cbn [stride].
  - rewrite elem_of_nil. lia.
  - destruct (Nat.ltb_spec worker n) as [Hw | Hw]; [| rewrite elem_of_nil; lia]. rewrite elem_of_cons, IH by lia. split.
    + intros [-> | (H1 & H2 & H3)]; [split_and!; [lia.. | by rewrite Nat.sub_diag] |]. split_and!; [lia.. |].
      replace (i - worker) with (i - (worker + 8) + 1 * 8) by lia. by rewrite Nat.Div0.mod_add.
    + intros (H1 & H2 & H3). destruct (decide (i = worker)) as [| Hne]; [by left | right].
      assert (8 ≤ i - worker) by (destruct (Nat.lt_ge_cases (i - worker) 8) as [Hl | Hl]; [rewrite Nat.mod_small in H3 by done; lia | done]).
      split_and!; [lia.. |]. replace (i - worker) with (i - (worker + 8) + 1 * 8) in H3 by lia. by rewrite Nat.Div0.mod_add in H3.
Qed.

Lemma stride_nodup n fuel worker : NoDup (stride fuel worker n) ∧ ∀ i, i ∈ stride fuel worker n → worker ≤ i.
Proof.
  revert worker. induction fuel as [| fuel IH]; intros worker; cbn [stride]; [split; [constructor | by intros i ?%elem_of_nil] |].
  destruct (Nat.ltb_spec worker n); [| split; [constructor | by intros i ?%elem_of_nil]]. destruct (IH (worker + 8)) as [Hd Hle]. split.
  - apply NoDup_cons. split; [intros Hin; apply Hle in Hin; lia | done].
  - intros i [-> | Hi]%elem_of_cons; [lia | apply Hle in Hi; lia].
Qed.

(** The workers share the jobs out, each to one of them. *)
Lemma worker_jobs_spec n : concat (worker_jobs n) ≡ₚ seq 0 n.
Proof.
  apply NoDup_Permutation.
  - unfold worker_jobs. assert (∀ ws, NoDup ws → (∀ w, w ∈ ws → w < 8) → NoDup (concat (map (λ worker, stride n worker n) ws))) as Hn.
    { induction ws as [| w ws IH]; intros Hd Hb; [constructor |]. apply NoDup_cons in Hd as [Hw Hd]. cbn. apply NoDup_app. split_and!.
      - apply stride_nodup.
      - intros i Hi Hc. apply elem_of_concat_map in Hc as (w' & Hw' & Hi'). rewrite stride_spec in Hi, Hi' by lia.
        pose proof (Hb w ltac:(by left)). pose proof (Hb w' ltac:(by right)). destruct Hi as (? & _ & Hm), Hi' as (? & _ & Hm').
        assert (w = w') as <-; [| done]. apply Nat.Div0.mod_divides in Hm as [c Hc]. apply Nat.Div0.mod_divides in Hm' as [c' Hc']. lia.
      - apply IH; [done |]. intros w' Hw'. apply Hb. by right. }
    apply Hn; [apply NoDup_seq |]. intros w Hw%elem_of_seq. lia.
  - apply NoDup_seq.
  - intros i. unfold worker_jobs. rewrite elem_of_concat_map, elem_of_seq. split.
    + intros (w & Hw & Hi). rewrite stride_spec in Hi by lia. lia.
    + intros Hi. exists (i mod 8). rewrite elem_of_seq, stride_spec by lia. pose proof (Nat.mod_upper_bound i 8 ltac:(lia)). pose proof (Nat.Div0.mod_le i 8).
      split; [lia |]. split_and!; [done | lia |]. pose proof (Nat.div_mod_eq i 8). replace (i - i mod 8) with ((i / 8) * 8) by lia. apply Nat.Div0.mod_mul.
Qed.

Section hashing.
Context (sha256 : string → string) (before after : entry) (jobs : list string).

(** Whether the contents of a job differ, if both can be read. *)
Definition hash_differs (name : string) : option bool :=
  b ← hashFile sha256 before name; a ← hashFile sha256 after name; Some (negb (bool_decide (a = b))).

Lemma hash_jobs_spec flags schedule : length flags = length jobs → NoDup schedule → (∀ i, i ∈ schedule → i < length jobs) →
  match foldl (hash_job sha256 before after jobs) (inl flags) schedule with
  | inl flags' => length flags' = length jobs ∧
      ∀ i name, jobs !! i = Some name → if bool_decide (i ∈ schedule) then ∃ d, hash_differs name = Some d ∧ flags' !! i = Some d else flags' !! i = flags !! i
  | inr e => ∃ i name, i ∈ schedule ∧ jobs !! i = Some name ∧ e = HashFailure name ∧ hash_differs name = None
  end.
Proof.
  revert flags. induction schedule as [| i l IH]; intros flags Hlen Hd Hb; cbn [foldl].
  { split; [done |]. intros i name _. rewrite bool_decide_false; [done | apply not_elem_of_nil]. }
  apply NoDup_cons in Hd as [Hi Hd]. destruct (lookup_lt_is_Some_2 jobs i) as [name Hname]; [apply Hb; by left |].
  assert (∀ e, foldl (hash_job sha256 before after jobs) (inr e) l = inr e) as Hstop by (intros e; clear; induction l; done).
  unfold hash_job at 2. rewrite Hname. destruct (hashFile sha256 before name) as [b |] eqn:Eb.
  2:{ rewrite Hstop. exists i, name. split_and!; [by left | done | done |]. unfold hash_differs. by rewrite Eb. }
  destruct (hashFile sha256 after name) as [a |] eqn:Ea.
  2:{ rewrite Hstop. exists i, name. split_and!; [by left | done | done |]. unfold hash_differs. by rewrite Eb, Ea. }
  specialize (IH (<[i := negb (bool_decide (a = b))]> flags)). rewrite length_insert in IH.
  specialize (IH Hlen Hd ltac:(intros j Hj; apply Hb; by right)). destruct (foldl _ _ l) as [flags' | e].
  - destruct IH as [Hl' Hf]. split; [done |]. intros j nm Hj. specialize (Hf j nm Hj). destruct (decide (j = i)) as [-> | Hji].
    + rewrite Hname in Hj. injection Hj as <-. rewrite bool_decide_true by (by left). rewrite bool_decide_false in Hf by done.
      exists (negb (bool_decide (a = b))). split; [unfold hash_differs; by rewrite Eb, Ea |]. rewrite Hf, list_lookup_insert_eq; [done |]. rewrite Hlen. by eapply lookup_lt_Some.
    + rewrite list_lookup_insert_ne in Hf by done. destruct (bool_decide_reflect (j ∈ l)) as [Hjl | Hjl].
      * rewrite bool_decide_true by (by right). done.
      * rewrite bool_decide_false by (rewrite elem_of_cons; tauto). done.
  - destruct IH as (j & nm & Hj & ?). exists j, nm. split; [by right | done].
Qed.

(** Under every schedule of the workers the flags are those of the jobs. *)
Lemma hashJobs_spec schedule : schedule ≡ₚ concat (worker_jobs (length jobs)) →
  match hashJobs sha256 before after jobs schedule with
  | inl flags => length flags = length jobs ∧ ∀ i name, jobs !! i = Some name → ∃ d, hash_differs name = Some d ∧ flags !! i = Some d
  | inr e => ∃ name, name ∈ jobs ∧ e = HashFailure name ∧ hash_differs name = None
  end.
Proof.
  rewrite worker_jobs_spec. intros Hp. assert (∀ i, i ∈ schedule ↔ i < length jobs) as Hin by (intros i; rewrite Hp, elem_of_seq; lia).
  pose proof (hash_jobs_spec (replicate (length jobs) false) schedule) as Hs. rewrite length_replicate in Hs.
  specialize (Hs eq_refl). specialize (Hs ltac:(rewrite Hp; apply NoDup_seq) ltac:(intros i; by apply Hin)). unfold hashJobs.
  destruct (foldl _ _ schedule) as [flags | e].
  - destruct Hs as [Hl Hs]. split; [done |]. intros i name Hi. specialize (Hs i name Hi). rewrite bool_decide_true in Hs; [done |]. apply Hin. by eapply lookup_lt_Some.
  - destruct Hs as (i & name & _ & Hi & ?). exists name. split; [by eapply list_elem_of_lookup_2 | done].
Qed.
End hashing.

(** ** The comparison *)

Section comparing.
Context (before after : gmap string Z) (digests : option (gmap string string) * option (gmap string string)).

(** What the scans and the digests tell of a name: on one side, changed, or to be hashed. *)
Definition told_apart (name : string) : Prop := ∃ x y, before !! name = Some x ∧ after !! name = Some y ∧
  (x ≠ y ∨ ∃ b, digests.1 = Some b ∧ default "" (b !! name) ≠ default "" (digests.2 ≫= λ a, a !! name)).
Definition to_hash (name : string) : Prop := ∃ x, before !! name = Some x ∧ after !! name = Some x ∧ digests.1 = None.

Definition one_side (name : string) : Prop := (before !! name = None ∧ is_Some (after !! name)) ∨ (is_Some (before !! name) ∧ after !! name = None).

(** What one name adds. *)
Definition adds_name (acc c : fileComparison) (n : string) : Prop :=
  (∀ m, m ∈ c.(fc_paths) ↔ m ∈ acc.(fc_paths) ∨ m = n ∧ (before !! n = None ∨ told_apart n)) ∧
  (∀ m, m ∈ c.(jobs) ↔ m ∈ acc.(jobs) ∨ m = n ∧ to_hash n) ∧
  (∀ m, m ∈ c.(fc_oneSided) ↔ m ∈ acc.(fc_oneSided) ∨ m = n ∧ before !! n = None).

Lemma compare_name_spec acc n x : after !! n = Some x → adds_name acc (compare_name before digests acc (n, x)) n.
Proof.
  intros Hn.
  assert (∀ b, digests.1 = Some b → ¬ to_hash n) as Hdig by (intros b Hb (? & _ & _ & ?); congruence).
  unfold adds_name, compare_name. destruct (before !! n) as [x' |] eqn:Eb.
  - assert (told_apart n ↔ x' ≠ x ∨ ∃ b, digests.1 = Some b ∧ default "" (b !! n) ≠ default "" (digests.2 ≫= λ a, a !! n)) as Ht.
    { unfold told_apart. rewrite Eb, Hn. split; [by intros (? & ? & [= <-] & [= <-] & ?) | intros ?; by exists x', x]. }
    assert (x' ≠ x → ¬ to_hash n) as Hne' by (intros Hne (? & ? & ? & _); congruence).
    assert (Some x' ≠ None) as Hs by done.
    destruct (Z.eqb_spec x' x) as [-> | Hne]; cbn [negb fc_paths jobs fc_oneSided].
    + destruct digests as [[b |] a] eqn:Ed; cbn [fst snd fc_paths jobs fc_oneSided] in *.
      * pose proof (Hdig b eq_refl). destruct (bool_decide_reflect (default "" (b !! n) = default "" (a ≫= λ a, a !! n))) as [He | He].
        -- assert (¬ told_apart n) by (rewrite Ht; intros [? | (? & [= <-] & ?)]; done).
           cbn [fc_paths jobs fc_oneSided]. split_and!; intros m; tauto.
        -- assert (told_apart n) by (apply Ht; right; by exists b).
           cbn [fc_paths jobs fc_oneSided]. split_and!; intros m; rewrite ?elem_of_union, ?elem_of_singleton; tauto.
      * assert (¬ told_apart n) by (rewrite Ht; intros [? | (? & ? & ?)]; done). assert (to_hash n) by (exists x; by rewrite Ed).
        split_and!; intros m; rewrite ?elem_of_app, ?list_elem_of_singleton; tauto.
    + assert (told_apart n) by (apply Ht; by left). pose proof (Hne' Hne). split_and!; intros m; rewrite ?elem_of_union, ?elem_of_singleton; tauto.
  - assert (¬ told_apart n ∧ ¬ to_hash n) as [Ht Hh] by (split; [intros (? & ? & ? & _); congruence | intros (? & ? & _); congruence]).
    cbn [fc_paths jobs fc_oneSided]. split_and!; intros m; rewrite ?elem_of_union, ?elem_of_app, ?elem_of_singleton, ?list_elem_of_singleton; tauto.
Qed.

Lemma compare_names_spec l acc : (∀ n x, (n, x) ∈ l → after !! n = Some x) →
  let c := foldl (compare_name before digests) acc l in
  (∀ n, n ∈ c.(fc_paths) ↔ n ∈ acc.(fc_paths) ∨ n ∈ l.*1 ∧ (before !! n = None ∨ told_apart n)) ∧
  (∀ n, n ∈ c.(jobs) ↔ n ∈ acc.(jobs) ∨ n ∈ l.*1 ∧ to_hash n) ∧
  (∀ n, n ∈ c.(fc_oneSided) ↔ n ∈ acc.(fc_oneSided) ∨ n ∈ l.*1 ∧ before !! n = None).
Proof.
  revert acc. induction l as [| [n x] l IH]; intros acc Hl; cbn [foldl].
  { cbn. split_and!; intros m; rewrite elem_of_nil; tauto. }
  destruct (compare_name_spec acc n x) as (Hp1 & Hj1 & Ho1); [apply Hl; by left |].
  destruct (IH (compare_name before digests acc (n, x)) ltac:(intros m y Hm; apply Hl; by right)) as (Hp & Hj & Ho).
  cbn zeta. cbn [fmap list_fmap fst]. split_and!; intros m; rewrite ?Hp, ?Hj, ?Ho, ?Hp1, ?Hj1, ?Ho1, elem_of_cons.
  all: destruct (decide (m = n)) as [-> | Hm]; tauto.
Qed.

Lemma removed_names_spec l acc :
  let c := foldl (removed_name after) acc l in
  (∀ n, n ∈ c.(fc_paths) ↔ n ∈ acc.(fc_paths) ∨ n ∈ l.*1 ∧ after !! n = None) ∧ c.(jobs) = acc.(jobs) ∧
  (∀ n, n ∈ c.(fc_oneSided) ↔ n ∈ acc.(fc_oneSided) ∨ n ∈ l.*1 ∧ after !! n = None).
Proof.
  revert acc. induction l as [| [n x] l IH]; intros acc; cbn [foldl]; cbn zeta; cbn [fmap list_fmap fst].
  { split_and!; [| done |]; intros m; rewrite elem_of_nil; tauto. }
  destruct (IH (removed_name after acc (n, x))) as (Hp & Hj & Ho). rewrite Hj. unfold removed_name in *. cbn [fst] in *.
  split_and!; [intros m; rewrite Hp | | intros m; rewrite Ho]; destruct (after !! n) eqn:E; cbn [fc_paths jobs fc_oneSided];
    rewrite ?elem_of_union, ?elem_of_app, ?elem_of_singleton, ?list_elem_of_singleton, ?elem_of_cons; try done; destruct (decide (m = n)) as [-> | Hm]; try tauto;
    (split; [tauto |]; intros [? | [_ ?]]; [tauto | congruence]).
Qed.

Lemma in_keys {V} (m : gmap string V) n : n ∈ (map_to_list m).*1 ↔ is_Some (m !! n).
Proof.
  split.
  - intros ([k v] & -> & Hkv%elem_of_map_to_list)%list_elem_of_fmap. by eexists.
  - intros [v Hv]. apply list_elem_of_fmap. exists (n, v). by rewrite elem_of_map_to_list.
Qed.

Lemma compareScannedFiles_spec : let c := compareScannedFiles before after digests in
  (∀ n, n ∈ c.(fc_paths) ↔ one_side n ∨ told_apart n) ∧ (∀ n, n ∈ c.(jobs) ↔ to_hash n) ∧ (∀ n, n ∈ c.(fc_oneSided) ↔ one_side n).
Proof.
  cbn zeta. unfold compareScannedFiles.
  destruct (compare_names_spec (map_to_list after) (mkComparison ∅ [] [])) as (Hp & Hj & Ho); [intros n x; apply elem_of_map_to_list |].
  set (c := foldl _ _ (map_to_list after)) in *. destruct (removed_names_spec (map_to_list before) c) as (Hp' & Hj' & Ho'). cbn [fc_paths jobs fc_oneSided] in *.
  split_and!; intros n; rewrite ?Hp', ?Hj', ?Ho', ?Hp, ?Hj, ?Ho, !in_keys || rewrite Hj', Hj, in_keys; rewrite ?elem_of_empty, ?elem_of_nil; unfold one_side.
  - split; [intros [[[] | [? [? | ?]]] | ?]; tauto |]. intros [[? | ?] | (x & y & Hx & Hy & Hd)]; [tauto | tauto |]. left. right. split; [by rewrite Hy | right; by exists x, y].
  - split; [by intros [[] | [_ ?]] |]. intros (x & Hx & Hy & Hd). right. split; [by rewrite Hy | by exists x].
  - tauto.
Qed.
End comparing.

(** ** The scan *)

Section scanning.
Context (opposite : string).
Implicit Types (e : entry) (ps qs : list string) (m : gmap string Z).

(** A directory or file a walk does not enter. *)
Definition excluded ps : Prop := ps ≠ [] ∧ (last ps = Some ".git" ∨ path_of ps = opposite).

(** A file below a node, none of whose parents is excluded. *)
Definition below ps e (name : string) (n : Z) : Prop := ∃ qs c, parts_ok qs ∧ name = path_of (ps ++ qs) ∧ lookup_parts e qs = Some (File n c) ∧
  ∀ k, ¬ excluded (ps ++ take k qs).

Definition clear ps m : Prop := ∀ qs, parts_ok qs → m !! path_of (ps ++ qs) = None.

Lemma excluded_test ps base : parts_ok ps → (∀ p, last ps = Some p → base = p) →
  bool_decide (path_of ps ≠ ".") && (bool_decide (base = ".git") || bool_decide (path_of ps = opposite)) = true ↔ excluded ps.
Proof.
  intros Hps Hb. unfold excluded. rewrite andb_true_iff, orb_true_iff, !bool_decide_eq_true. destruct (last ps) as [p |] eqn:El.
  - rewrite (Hb p eq_refl). assert (ps ≠ []) as Hne by (intros ->; done). assert (path_of ps ≠ ".") as Hd by (intros Hd; by apply path_of_dot in Hd).
    split; [intros [_ [-> | ?]] | intros [_ [[= ->] | ?]]]; tauto.
  - apply last_None in El as ->. split; [by intros [? _] | by intros [? _]].
Qed.

Lemma below_file ps n c name k : parts_ok ps → ¬ excluded ps → below ps (File n c) name k ↔ name = path_of ps ∧ k = n.
Proof.
  intros Hps Hx. split.
  - intros (qs & c' & Hq & -> & Hl & _). destruct qs as [| q qs]; [| done]. injection Hl as -> ->. by rewrite app_nil_r.
  - intros [-> ->]. exists [], c. split_and!; [constructor | by rewrite app_nil_r | done |]. intros j. by rewrite take_nil, app_nil_r.
Qed.

Lemma below_excluded ps e name n : excluded ps → ¬ below ps e name n.
Proof. intros Hx (qs & c & _ & _ & _ & Hk). apply (Hk 0). by rewrite take_0, app_nil_r. Qed.

Lemma find_entry_spec es name e : NoDup es.*1 → find_entry name es = Some e ↔ (name, e) ∈ es.
Proof.
  unfold find_entry. induction es as [| [k e'] es IH]; intros Hd; cbn; [split; [done | by intros ?%elem_of_nil] |].
  apply NoDup_cons in Hd as [Hk Hd]. rewrite elem_of_cons. case_bool_decide as Hn.
  - subst k. split; [intros [= ->]; by left |]. intros [[= ->] | Hin]; [done |]. destruct Hk. apply list_elem_of_fmap. by exists (name, e).
  - rewrite IH by done. split; [by right |]. intros [[= -> ->] | ?]; done.
Qed.

Lemma below_folder ps lists es name n : ¬ excluded ps → NoDup es.*1 → parts_ok es.*1 →
  below ps (Folder lists es) name n ↔ ∃ p e, (p, e) ∈ es ∧ below (ps ++ [p]) e name n.
Proof.
  intros Hx Hd Hok. split.
  - intros (qs & c & Hq & -> & Hl & Hk). destruct qs as [| q qs]; [done |]. cbn [lookup_parts] in Hl.
    destruct (find_entry q es) as [e |] eqn:Ef; [| done]. cbn [mbind option_bind] in Hl. exists q, e. apply find_entry_spec in Ef; [| done]. split; [done |].
    exists qs, c. split; [by apply (parts_ok_app [q]) in Hq as [_ ?] |]. rewrite <- app_assoc. split_and!; [done.. |]. intros k. rewrite <- app_assoc. apply (Hk (S k)).
  - intros (p & e & Hin & qs & c & Hq & -> & Hl & Hk). exists (p :: qs), c. split_and!.
    + apply (parts_ok_app [p]). split; [| done]. constructor; [| constructor]. eapply (proj1 (Forall_forall _ _) Hok). apply list_elem_of_fmap. by exists (p, e).
    + by rewrite <- app_assoc.
    + cbn [lookup_parts]. by rewrite (proj2 (find_entry_spec _ _ _ Hd) Hin).
    + intros [| k]; [by rewrite take_0, app_nil_r |]. cbn [take]. specialize (Hk k). by rewrite <- app_assoc in Hk.
Qed.

Lemma clear_child ps p m : clear ps m → parts_ok [p] → clear (ps ++ [p]) m.
Proof. intros Hc Hp qs Hq. rewrite <- app_assoc. apply Hc. by apply (parts_ok_app [p]). Qed.

Lemma below_other ps p p' e qs n : parts_ok ps → parts_ok [p] → parts_ok [p'] → parts_ok qs → p ≠ p' → ¬ below (ps ++ [p]) e (path_of ((ps ++ [p']) ++ qs)) n.
Proof.
  intros Hps Hp Hp' Hq Hne (rs & c & Hr & He & _). apply path_of_inj in He.
  - rewrite <- !app_assoc in He. apply app_inv_head in He. injection He as ? _. done.
  - rewrite !parts_ok_app. tauto.
  - rewrite !parts_ok_app. tauto.
Qed.

Lemma noted_first (b : bool) (acc : gmap string Z * list string) name : (if b then (acc.1, acc.2 ++ [name]) else acc).1 = acc.1.
Proof. by destruct b. Qed.

Lemma scanned_walk_spec e : ∀ ps base acc acc', parts_ok ps → wf_entry e → (∀ p, last ps = Some p → base = p) → clear ps acc.1 →
  walk opposite (path_of ps) base e acc = inl acc' → ∀ name n, acc'.1 !! name = Some n ↔ acc.1 !! name = Some n ∨ below ps e name n.
Proof.
  induction e as [sz c | lists es IH] using entry_ind'; intros ps base acc acc' Hps Hwf Hbase Hc; cbn [walk].
  - destruct (_ && _) eqn:Ex.
    { intros [= <-] name n. apply excluded_test in Ex; [| done..]. pose proof (below_excluded ps (File sz c) name n Ex). tauto. }
    assert (¬ excluded ps) as Hx by (intros Hx; apply (excluded_test ps base) in Hx; [congruence | done..]).
    intros [= <-] name n. rewrite below_file by done. specialize (Hc [] ltac:(constructor)). rewrite app_nil_r in Hc.
    cbn [fst]. rewrite noted_first.
    destruct (decide (name = path_of ps)) as [-> | Hn].
    + rewrite lookup_insert_eq, Hc. split; [intros [= ->]; by right | intros [? | [_ ->]]; done].
    + rewrite lookup_insert_ne by done. tauto.
  - destruct (_ && _) eqn:Ex.
    { intros [= <-] name n. apply excluded_test in Ex; [| done..]. pose proof (below_excluded ps (Folder lists es) name n Ex). tauto. }
    assert (¬ excluded ps) as Hx by (intros Hx; apply (excluded_test ps base) in Hx; [congruence | done..]).
    destruct lists; [| done]. inversion Hwf as [| ? ? Hnd Hok Hall]; subst.
    set (acc0 := if bool_decide (base = IgnoreFile) then (acc.1, acc.2 ++ [path_of ps]) else acc).
    assert (acc0.1 = acc.1) as Hacc0 by apply noted_first.
    set (loop := fix below (es : list (string * entry)) (acc : gmap string Z * list string) {struct es} : (gmap string Z * list string) + change_error := _).
    assert (∀ (es0 : list (string * entry)) acc acc', NoDup es0.*1 → parts_ok es0.*1 → Forall (λ pe, wf_entry pe.2) es0 →
      Forall (λ pe, ∀ ps base acc acc', parts_ok ps → wf_entry pe.2 → (∀ p, last ps = Some p → base = p) → clear ps acc.1 →
        walk opposite (path_of ps) base pe.2 acc = inl acc' → ∀ name n, acc'.1 !! name = Some n ↔ acc.1 !! name = Some n ∨ below ps pe.2 name n) es0 →
      (∀ p, p ∈ es0.*1 → clear (ps ++ [p]) acc.1) →
      loop es0 acc = inl acc' → ∀ name n, acc'.1 !! name = Some n ↔ acc.1 !! name = Some n ∨ ∃ p e, (p, e) ∈ es0 ∧ below (ps ++ [p]) e name n) as Hloop.
    { clear acc acc0 acc' Hacc0 Hc IH Hwf Hnd Hok Hall. induction es0 as [| [p e] es0 IH0]; intros acc acc' Hd Ho Hw HI Hcl; cbn [loop].
      { intros [= <-] name n. split; [by left |]. intros [? | (p & e & Hin & _)]; [done | by apply elem_of_nil in Hin]. }
      cbn [fmap list_fmap fst] in Hd, Ho. apply NoDup_cons in Hd as [Hpin Hd]. apply (parts_ok_app [p]) in Ho as [Hp Ho].
      inversion Hw as [| ? ? Hwe Hw']; subst. inversion HI as [| ? ? HIe HI']; subst. cbn [snd] in *. rewrite Child_path_of by done.
      destruct (walk opposite (path_of (ps ++ [p])) p e acc) as [acc1 | er] eqn:E1; [| done]. intros Hl name n.
      assert (∀ name n, acc1.1 !! name = Some n ↔ acc.1 !! name = Some n ∨ below (ps ++ [p]) e name n) as H1.
      { eapply HIe; [by apply parts_ok_app | done | | | exact E1]; [intros q; rewrite last_snoc; by intros [= ->] | apply Hcl; cbn; by left]. }
      rewrite (IH0 acc1 acc' Hd Ho Hw' HI'); [| | exact Hl].
      - rewrite H1. split.
        + intros [[? | ?] | (p' & e' & ? & ?)]; [by left | right; exists p, e; split; [by left | done] | right; exists p', e'; split; [by right | done]].
        + intros [? | (p' & e' & [[= -> ->] | ?]%elem_of_cons & ?)]; [by left; left | by left; right | right; by exists p', e'].
      - intros p' Hp' qs Hq. destruct (acc1.1 !! path_of ((ps ++ [p']) ++ qs)) as [z |] eqn:Ez; [| done]. apply H1 in Ez as [Ez | Ez].
        + rewrite (Hcl p' ltac:(cbn; by right) qs Hq) in Ez. done.
        + exfalso. eapply below_other; [.. | exact Ez]; [done | done | | done | by intros ->]. constructor; [| constructor]. by eapply (proj1 (Forall_forall _ _) Ho). }
    intros Hl name n. rewrite (below_folder ps true es) by done. rewrite (Hloop es acc0 acc' Hnd Hok Hall IH); [by rewrite Hacc0 | | exact Hl].
    intros p Hp. rewrite Hacc0. apply clear_child; [done |]. constructor; [| constructor]. by eapply (proj1 (Forall_forall _ _) Hok).
Qed.
End scanning.

(** ** Detection *)

Section detecting.
Context {A P Mat : Type} (ReadPatterns : string → list string → list P) (VCSPatterns : list P).
Context (NewMatcher : list P → Mat) (NewDefaultMatcher : Mat) (UpstreamMatch : Mat → list string → bool → bool) (blank : string → bool).
Context (sha256 : string → string) (DecodeDocs : string → option (list (fields A))) (Fingerprint : fields A → string).
Context (operator : string * string).
Abbreviation scan := (scanTree ReadPatterns VCSPatterns NewMatcher NewDefaultMatcher UpstreamMatch blank).
Abbreviation detect := (Detect ReadPatterns VCSPatterns NewMatcher NewDefaultMatcher UpstreamMatch blank sha256 DecodeDocs Fingerprint operator).
Abbreviation collect := (collectInput DecodeDocs Fingerprint operator).
Implicit Types (s : Set_) (before after : SourceArtifact).

(** What a scan without digests sees: the files of the tree that are under no excluded
    directory and that the policy of the tree lets through. *)
Lemma scanTree_spec input opposite m : wf_entry input.(FS) → scan input opposite None = inl m →
  ∃ mat, ∀ name n, m !! name = Some n ↔
    below (default "" (Rel input.(LocalPath) opposite.(LocalPath))) [] input.(FS) name n ∧ UpstreamMatch mat (Split name) false = false.
Proof.
  intros Hwf Hm. unfold scanTree in Hm. destruct (scanFiles _ _) as [[out files] | e] eqn:Es; [| done].
  destruct (NewFS _ _ _ _ _ _ _ _ _) as [policy | e]; [| done]. injection Hm as <-. unfold scanFiles in Es.
  pose proof (scanned_walk_spec _ input.(FS) [] "." (∅, []) (out, files) ltac:(constructor) Hwf ltac:(done) ltac:(intros qs _; apply lookup_empty) Es) as Hw. cbn [fst] in Hw.
  eexists. intros name n. unfold Select. rewrite map_lookup_filter_Some, Hw. cbn [fst]. rewrite lookup_empty. split.
  - intros [[? | ?] Hf]; [done |]. split; [done |]. exact Hf.
  - intros [? Hf]. split; [by right |]. exact Hf.
Qed.

(** The files read for their declarations. *)
Lemma collect_all_spec before after scanned s names s' :
  collect_all DecodeDocs Fingerprint operator before after scanned s names = inl s' →
  s'.(paths) = s.(paths) ∧
  (∀ name d, s'.(oneSided).1 !! name = Some d ↔ (name ∈ names ∧ scanned !! name = None ∧ collect before.(FS) name = inl d) ∨
     ((name ∉ names ∨ is_Some (scanned !! name)) ∧ s.(oneSided).1 !! name = Some d)) ∧
  (∀ name d, s'.(oneSided).2 !! name = Some d ↔ (name ∈ names ∧ is_Some (scanned !! name) ∧ collect after.(FS) name = inl d) ∨
     ((name ∉ names ∨ scanned !! name = None) ∧ s.(oneSided).2 !! name = Some d)).
Proof.
  revert s. induction names as [| nm names IH]; intros s; cbn [collect_all].
  { intros [= <-]. split_and!; [done | |]; intros name d; rewrite elem_of_nil; (split; [intros ?; right; split; [left; tauto | done] | intros [[[] _] | [_ ?]]; done]). }
  unfold CollectInputs. destruct (bool_decide_reflect (is_Some (scanned !! nm))) as [Hs | Hs]; cbn [negb].
  - destruct (collect after.(FS) nm) as [d0 | e] eqn:Ec; [| done]. intros Hc. destruct (IH _ Hc) as (Hp & H1 & H2). cbn [paths oneSided fst snd] in *.
    split_and!; [done | |]; intros name d; rewrite ?H1, ?H2, !elem_of_cons; destruct (decide (name = nm)) as [-> | Hne].
    + assert (scanned !! nm ≠ None) as Hnn by (intros E; rewrite E in Hs; by destruct Hs).
      split; [intros [(_ & ? & _) | [_ ?]]; [done | right; split; [by right | done]] | intros [(_ & ? & _) | [_ ?]]; [done | right; split; [by right | done]]].
    + split; [intros [(? & ? & ?) | [? ?]]; [left; tauto | right; tauto] | intros [(? & ? & ?) | [? ?]]; [left; tauto | right; tauto]].
    + rewrite lookup_insert_eq. assert (scanned !! nm ≠ None) as Hnn by (intros E; rewrite E in Hs; by destruct Hs). split.
      * intros [(? & ? & ?) | [_ [= ->]]]; left; tauto.
      * intros [(_ & _ & Hd) | [[? | ?] _]]; [| tauto | done]. rewrite Ec in Hd. injection Hd as ->. destruct (decide (nm ∈ names)); [left; tauto | right; tauto].
    + rewrite lookup_insert_ne by done. split; [intros [(? & ? & ?) | [? ?]]; [left; tauto | right; tauto] | intros [(? & ? & ?) | [? ?]]; [left; tauto | right; tauto]].
  - assert (scanned !! nm = None) as Hn by (by apply eq_None_not_Some).
    destruct (collect before.(FS) nm) as [d0 | e] eqn:Ec; [| done]. intros Hc. destruct (IH _ Hc) as (Hp & H1 & H2). cbn [paths oneSided fst snd] in *.
    split_and!; [done | |]; intros name d; rewrite ?H1, ?H2, !elem_of_cons; destruct (decide (name = nm)) as [-> | Hne].
    + rewrite lookup_insert_eq. split.
      * intros [(? & ? & ?) | [_ [= ->]]]; left; tauto.
      * intros [(_ & _ & Hd) | [[? | ?] _]]; [| tauto | done]. rewrite Ec in Hd. injection Hd as ->. destruct (decide (nm ∈ names)); [left; tauto | right; tauto].
    + rewrite lookup_insert_ne by done. split; [intros [(? & ? & ?) | [? ?]]; [left; tauto | right; tauto] | intros [(? & ? & ?) | [? ?]]; [left; tauto | right; tauto]].
    + split; [intros [(_ & ? & _) | [_ ?]]; [done | right; split; [by right | done]] | intros [(_ & ? & _) | [_ ?]]; [done | right; split; [by right | done]]].
    + split; [intros [(? & ? & ?) | [? ?]]; [left; tauto | right; tauto] | intros [(? & ? & ?) | [? ?]]; [left; tauto | right; tauto]].
Qed.

Lemma changed_names (ns : list string) flags (p : gset string) n : length flags = length ns →
  n ∈ foldr (λ '(name, flag) (s : gset string), if flag : bool then {[name]} ∪ s else s) p (zip ns flags) ↔ n ∈ p ∨ ∃ i, ns !! i = Some n ∧ flags !! i = Some true.
Proof.
  revert flags. induction ns as [| m ns IH]; intros [| b flags] Hl; try done; cbn [zip zip_with foldr].
  - split; [by left | intros [? | (i & Hi & _)]; [done | by destruct i]].
  - specialize (IH flags ltac:(by injection Hl)). assert (n ∈ (if b then {[m]} ∪ foldr (λ '(name, flag) (s : gset string), if flag : bool then {[name]} ∪ s else s) p (zip ns flags) else
      foldr (λ '(name, flag) (s : gset string), if flag : bool then {[name]} ∪ s else s) p (zip ns flags)) ↔ (b = true ∧ n = m) ∨ n ∈ foldr (λ '(name, flag) (s : gset string), if flag : bool then {[name]} ∪ s else s) p (zip ns flags)) as ->.
    { destruct b; [rewrite elem_of_union, elem_of_singleton |]; intuition done. }
    rewrite IH. split.
    + intros [[-> ->] | [? | (i & ? & ?)]]; [right; by exists 0 | by left | right; by exists (S i)].
    + intros [? | ([| i] & Hi & Hf)]; [right; by left | left; cbn in *; by simplify_eq | right; right; by exists i].
Qed.

Lemma Detect_spec schedule before after s : (∀ n, schedule n ≡ₚ concat (worker_jobs n)) →
  detect schedule (Some before) (Some after) = inl s →
  let digests := both_digests before after in
  ∃ bef aft, scan before after digests.1 = inl bef ∧ scan after before digests.2 = inl aft ∧
    (∀ name, name ∈ s.(paths) ↔ one_side bef aft name ∨ told_apart bef aft digests name ∨
       to_hash bef aft digests name ∧ hash_differs sha256 before.(FS) after.(FS) name = Some true) ∧
    (∀ name d, s.(oneSided).1 !! name = Some d ↔ is_Some (bef !! name) ∧ aft !! name = None ∧ collect before.(FS) name = inl d) ∧
    (∀ name d, s.(oneSided).2 !! name = Some d ↔ bef !! name = None ∧ is_Some (aft !! name) ∧ collect after.(FS) name = inl d).
Proof.
  intros Hsch. cbn zeta. unfold Detect. destruct (scan before after _) as [bef | e] eqn:Eb; [| done]. destruct (scan after before _) as [aft | e] eqn:Ea; [| done].
  set (digests := both_digests before after) in *. destruct (compareScannedFiles_spec bef aft digests) as (Hp & Hj & Ho).
  set (c := compareScannedFiles bef aft digests) in *. pose proof (hashJobs_spec sha256 before.(FS) after.(FS) c.(jobs) (schedule (length c.(jobs))) (Hsch _)) as Hh.
  destruct (hashJobs sha256 _ _ _ _) as [flags | e]; [| done]. destruct Hh as [Hlen Hflags]. intros Hc.
  destruct (collect_all_spec _ _ _ _ _ _ Hc) as (Hps & H1 & H2). cbn [paths oneSided fst snd] in *. exists bef, aft. split; [done |]. split; [done |].
  assert (∀ name, name ∈ sort_by compare c.(fc_oneSided) ↔ one_side bef aft name) as Hone by (intros name; by rewrite elem_of_sort_by).
  split_and!.
  - intros name. rewrite Hps, changed_names, Hp by done. split.
    + intros [[? | ?] | (i & Hi & Hf)]; [tauto | tauto |]. right. right. split; [apply Hj; by eapply list_elem_of_lookup_2 |].
      destruct (Hflags i name Hi) as (d & Hd & Hfd). congruence.
    + intros [? | [? | [Hth Hd]]]; [tauto | tauto |]. right. apply Hj, list_elem_of_lookup in Hth as [i Hi]. exists i. split; [done |].
      destruct (Hflags i name Hi) as (d & Hd' & Hfd). congruence.
  - intros name d. rewrite H1, Hone, lookup_empty. unfold one_side. destruct (bef !! name), (aft !! name); split; intros; naive_solver.
  - intros name d. rewrite H2, Hone, lookup_empty. unfold one_side. destruct (bef !! name), (aft !! name); split; intros; naive_solver.
Qed.

(** Claim C36: whatever the schedule of the hashing workers, a detection that succeeds holds
    exactly the names that the scans see on one side only, at two sizes or under two digests,
    and those it hashed whose contents hash differently; and it has read exactly the files of
    one side for their declarations. *)
Theorem Detect_exact schedule before after s : (∀ n, schedule n ≡ₚ concat (worker_jobs n)) →
  detect schedule (Some before) (Some after) = inl s →
  let digests := both_digests before after in
  ∃ bef aft, scan before after digests.1 = inl bef ∧ scan after before digests.2 = inl aft ∧
    (∀ name, name ∈ s.(paths) ↔ one_side bef aft name ∨ told_apart bef aft digests name ∨
       to_hash bef aft digests name ∧ hash_differs sha256 before.(FS) after.(FS) name = Some true) ∧
    (∀ name d, s.(oneSided).1 !! name = Some d ↔ is_Some (bef !! name) ∧ aft !! name = None ∧ collect before.(FS) name = inl d) ∧
    (∀ name d, s.(oneSided).2 !! name = Some d ↔ bef !! name = None ∧ is_Some (aft !! name) ∧ collect after.(FS) name = inl d).
Proof. intros Hsch Hd. exact (Detect_spec schedule before after s Hsch Hd). Qed.

(** A file that both scans see at one size and that no digest tells apart is reported exactly
    when its two contents differ, unless the hash does not tell them apart. *)
Theorem Detect_contents schedule before after s name bef aft n b a : (∀ n, schedule n ≡ₚ concat (worker_jobs n)) →
  detect schedule (Some before) (Some after) = inl s → before.(FileDigests) = None →
  scan before after None = inl bef → scan after before None = inl aft → bef !! name = Some n → aft !! name = Some n →
  ReadFile before.(FS) name = Content b → ReadFile after.(FS) name = Content a →
  (name ∈ s.(paths) → b ≠ a) ∧ (b ≠ a → name ∈ s.(paths) ∨ sha256 b = sha256 a).
Proof.
  intros Hsch Hd Hdig Hb Ha Hbn Han Hrb Hra. destruct (Detect_spec schedule before after s Hsch Hd) as (bef' & aft' & Hb' & Ha' & Hp & _).
  unfold both_digests in *. rewrite Hdig in *. cbn [fst snd] in *. rewrite Hb in Hb'. injection Hb' as <-. rewrite Ha in Ha'. injection Ha' as <-. rewrite Hp.
  assert (¬ one_side bef aft name ∧ ¬ told_apart bef aft (None, None) name) as [Ho Ht].
  { split; [intros [[? _] | [_ ?]]; congruence |]. intros (x & y & Hx & Hy & [? | (? & ? & _)]); [congruence | done]. }
  assert (hash_differs sha256 before.(FS) after.(FS) name = Some (negb (bool_decide (sha256 a = sha256 b)))) as Hh.
  { unfold hash_differs, hashFile. by rewrite Hrb, Hra. }
  rewrite Hh. split.
  - intros [? | [? | [_ [= He]]]] ->; [done.. |]. by rewrite bool_decide_true in He.
  - intros Hne. destruct (decide (sha256 a = sha256 b)) as [E | E]; [by right | left]. right. right. split; [by exists n | by rewrite bool_decide_false].
Qed.
End detecting.

(** ** Two trees *)

Definition before_tree : entry := Folder true [(".sourceignore", File 6 (Some "*.md")); ("a.yaml", File 1 (Some "x")); ("b.yaml", File 1 (Some "y"));
  ("gone", Folder true [("c.yaml", File 1 (Some "z"))]); ("notes.md", File 1 (Some "1"))].
Definition after_tree : entry := Folder true [(".git", Folder true [("HEAD", File 3 (Some "abc"))]); (".sourceignore", File 6 (Some "*.md")); ("a.yaml", File 1 (Some "x"));
  ("b.yaml", File 1 (Some "w")); ("notes.md", File 1 (Some "2"))].

Definition example_before : SourceArtifact := mkArtifact "/old" before_tree false None.
Definition example_after : SourceArtifact := mkArtifact "/new" after_tree false None.

(** A matcher that excludes the texts with a last part that ends as its patterns do. *)
Definition example_match (m : list string) (parts : list string) (_ : bool) : bool :=
  existsb (λ p, match last parts with Some l => HasSuffix l p | None => false end) m.

Definition example_detect (schedule : nat → list nat) : Set_ + change_error :=
  Detect (λ data _, [GoPath.TrimPrefix data "*"]) [] (λ ps, ps) [] example_match (λ s, bool_decide (s = "")) (λ s, s)
    (λ data, Some [{["kind" := TScalar (Str "ConfigMap"); "apiVersion" := TScalar (Str "v1"); "metadata" := TMap {["name" := TScalar (Str data)]}]} : fields nat])
    (λ _, "f") ("op/name", "op/namespace") schedule (Some example_before) (Some example_after).

(** What changed and what is gone, under two schedules; the ignored file and Git's own are not seen. *)
Example example_changes :
  (match example_detect (λ n, concat (worker_jobs n)) with inl s => Some (Set_Paths (Some s), (λ kv, (kv.1, map_to_list kv.2)) <$> map_to_list s.(oneSided).1, Set_Len (Some s)) | inr _ => None end)
    = Some (["b.yaml"; "gone/c.yaml"], [("gone/c.yaml", [(mkResource "" "ConfigMap" "" "z", "f")])], 2) ∧
  match example_detect (λ n, reverse (concat (worker_jobs n))), example_detect (λ n, concat (worker_jobs n)) with
  | inl s, inl s' => s = s' | _, _ => False end.
Proof. split; vm_compute; reflexivity. Qed.

Example Detect_exact_witness : ∃ s, example_detect (λ n, concat (worker_jobs n)) = inl s ∧ "b.yaml" ∈ s.(paths) ∧
  ∃ bef aft : gmap string Z, "b.yaml" ∈ s.(paths) ↔ one_side bef aft "b.yaml" ∨ told_apart bef aft (None, None) "b.yaml" ∨
    to_hash bef aft (None, None) "b.yaml" ∧ hash_differs (λ s, s) before_tree after_tree "b.yaml" = Some true.
Proof.
  eexists. split; [vm_compute; reflexivity |]. split; [vm_compute; reflexivity |].
  edestruct (Detect_exact (A := nat) (λ data _, [GoPath.TrimPrefix data "*"]) [] (λ ps, ps) [] example_match (λ s, bool_decide (s = "")) (λ s, s)
    (λ data, Some [{["kind" := TScalar (Str "ConfigMap"); "apiVersion" := TScalar (Str "v1"); "metadata" := TMap {["name" := TScalar (Str data)]}]} : fields nat])
    (λ _, "f") ("op/name", "op/namespace") (λ n, concat (worker_jobs n)) example_before example_after) as (bef & aft & _ & _ & Hp & _); [done | vm_compute; reflexivity |].
  exists bef, aft. apply Hp.
Defined.
