(* ===== verification/Egress.v ===== *)
(** The egress guard, src/pkg/source/ssrfguard/ssrfguard.go: which resolved
    addresses may be dialed while egress is restricted.

    An address is its family with its bits as an integer, and a zone for IPv6,
    as [net/netip] keeps them; the [netip] methods the guard calls are defined
    on those bits.  The specification is a table of address ranges and the five
    ways an IPv6 address carries an IPv4 one; the theorems show that the guard
    decides exactly that table, and what a zone hides from it. *)
From S2P Require Import Prelude.
Open Scope Z_scope.

(** ** [netip.Addr] and [netip.Prefix] *)

Inductive Addr :=
  | Invalid
  | V4 (n : Z)                    (* 32 bits *)
  | V6 (n : Z) (zone : string).   (* 128 bits *)

#[export] Instance Addr_eq_dec : EqDecision Addr.
Proof. solve_decision. Defined.

(** Byte [i] of an IPv4 or IPv6 address, and 16-bit group [i] of an IPv6 one. *)
Definition v4b (n i : Z) : Z := Z.land (Z.shiftr n ((3 - i) * 8)) 0xff.
Definition v6b (n i : Z) : Z := Z.land (Z.shiftr n ((15 - i) * 8)) 0xff.
Definition v6u16 (n i : Z) : Z := Z.land (Z.shiftr n ((7 - i) * 16)) 0xffff.

Definition IsValid (a : Addr) : bool := match a with Invalid => false | _ => true end.
Definition Is4 (a : Addr) : bool := match a with V4 _ => true | _ => false end.
Definition Is6 (a : Addr) : bool := match a with V6 _ _ => true | _ => false end.

Definition Unmap (a : Addr) : Addr :=
  match a with
  | V6 n _ => if Z.shiftr n 32 =? 0xffff then V4 (Z.land n 0xffffffff) else a
  | _ => a
  end.

Definition IsLoopback (a : Addr) : bool :=
  match a with
  | V4 n => v4b n 0 =? 127
  | V6 n _ => n =? 1
  | Invalid => false
  end.

Definition IsPrivate (a : Addr) : bool :=
  match a with
  | V4 n => (v4b n 0 =? 10) || (v4b n 0 =? 172) && (Z.land (v4b n 1) 0xf0 =? 16) ||
            (v4b n 0 =? 192) && (v4b n 1 =? 168)
  | V6 n _ => Z.land (v6b n 0) 0xfe =? 0xfc
  | Invalid => false
  end.

Definition IsLinkLocalUnicast (a : Addr) : bool :=
  match a with
  | V4 n => (v4b n 0 =? 169) && (v4b n 1 =? 254)
  | V6 n _ => Z.land (v6u16 n 0) 0xffc0 =? 0xfe80
  | Invalid => false
  end.

Definition IsLinkLocalMulticast (a : Addr) : bool :=
  match a with
  | V4 n => (v4b n 0 =? 224) && (v4b n 1 =? 0) && (v4b n 2 =? 0)
  | V6 n _ => Z.land (v6u16 n 0) 0xff0f =? 0xff02
  | Invalid => false
  end.

Definition IsMulticast (a : Addr) : bool :=
  match a with
  | V4 n => Z.land (v4b n 0) 0xf0 =? 0xe0
  | V6 n _ => v6b n 0 =? 0xff
  | Invalid => false
  end.

(** An address with a zone is not equal to the unspecified one. *)
Definition IsUnspecified (a : Addr) : bool := bool_decide (a = V4 0) || bool_decide (a = V6 0 "").

Definition As4 (a : Addr) : list Z :=
  match a with V4 n => map (v4b n) [0; 1; 2; 3] | _ => [] end.

Definition As16 (a : Addr) : list Z :=
  match a with
  | V6 n _ => map (v6b n) [0; 1; 2; 3; 4; 5; 6; 7; 8; 9; 10; 11; 12; 13; 14; 15]
  | _ => []
  end.

Definition AddrFrom4 (b : list Z) : Addr :=
  V4 (foldl (λ acc x, Z.lor (Z.shiftl acc 8) x) 0 b).

Record Prefix := mkPrefix { p_ip : Addr; p_bits : Z }.

(** [Prefix.Contains]: prefixes strip zones, so no address with a zone is in one. *)
Definition Contains (p : Prefix) (a : Addr) : bool :=
  match p.(p_ip), a with
  | V4 m, V4 n => Z.shiftr (Z.lxor m n) (32 - p.(p_bits)) =? 0
  | V6 m _, V6 n "" => Z.shiftr (Z.lxor m n) (128 - p.(p_bits)) =? 0
  | _, _ => false
  end.

(** ** The policy *)

Definition cgnat := mkPrefix (V4 0x64400000) 10.
Definition ietfProto := mkPrefix (V4 0xc0000000) 24.
Definition benchmark := mkPrefix (V4 0xc6120000) 15.
Definition nat64 := mkPrefix (V6 (Z.shiftl 0x64ff9b 96) "") 96.
Definition sixToFour := mkPrefix (V6 (Z.shiftl 0x2002 112) "") 16.
Definition teredo := mkPrefix (V6 (Z.shiftl 0x2001 112) "") 32.
Definition broadcastV4 := AddrFrom4 [255; 255; 255; 255].

Definition isV4Compatible (b : list Z) : bool :=
  forallb (λ x, x =? 0) (take 12 b) &&
  negb (Z.lor (Z.lor (Z.lor (nth 12 b 0) (nth 13 b 0)) (nth 14 b 0)) (nth 15 b 0) =? 0).

(** The IPv4 address [embeddedV4Blocked] extracts, if any. *)
Definition embeddedV4 (a : Addr) : option Addr :=
  if negb (Is6 a) then None
  else
    let b := As16 a in
    if Contains nat64 a then Some (AddrFrom4 (take 4 (drop 12 b)))
    else if Contains sixToFour a then Some (AddrFrom4 (take 4 (drop 2 b)))
    else if Contains teredo a
    then Some (AddrFrom4 (map (λ x, Z.lxor x 0xff) (take 4 (drop 12 b))))
    else if isV4Compatible b then Some (AddrFrom4 (take 4 (drop 12 b)))
    else None.

(** The cases of [blocked]'s switch. *)
Definition blocked_case (a : Addr) : bool :=
  negb (IsValid a) || IsLoopback a || IsPrivate a || IsLinkLocalUnicast a ||
  IsLinkLocalMulticast a || IsMulticast a || IsUnspecified a ||
  bool_decide (a = broadcastV4) || (Is4 a && (nth 0 (As4 a) 0 =? 0)) ||
  Contains cgnat a || Contains ietfProto a || Contains benchmark a.

(** [blocked] and [embeddedV4Blocked] call each other; the fuel bounds the calls of
    [blocked], and [None] is its exhaustion. *)
Fixpoint blocked_fuel (fuel : nat) (a : Addr) : option bool :=
  match fuel with
  | O => None
  | S fuel =>
      let a := Unmap a in
      if blocked_case a then Some true
      else match embeddedV4 a with
           | None => Some false
           | Some v4 => blocked_fuel fuel v4
           end
  end.

Definition blocked (a : Addr) : bool := default true (blocked_fuel 2 a).

Definition embeddedV4Blocked (a : Addr) : bool :=
  match embeddedV4 a with None => false | Some v4 => blocked v4 end.

(** ** The dialer's hook *)

Record blockedError := mkBlockedError { be_address : string; be_reason : string }.

Definition blockedError_Error (e : blockedError) : string :=
  if bool_decide (e.(be_reason) ≠ "")
  then "egress to " +:+ e.(be_address) +:+ " blocked: " +:+ e.(be_reason)
  else "egress to " +:+ e.(be_address) +:+
       " blocked by --restrict-egress (private/loopback/link-local/metadata address)".

(** [control] reads the process-wide toggle when a connection is dialed.  The text
    of an address is read by [netip.ParseAddrPort], which is given. *)
Definition control (ParseAddrPort : string → (Addr * Z) + string) (restrict : bool) (address : string)
    : option blockedError :=
  if negb restrict then None
  else match ParseAddrPort address with
       | inr err => Some (mkBlockedError address err)
       | inl ap => if blocked ap.1 then Some (mkBlockedError address "") else None
       end.

(** ** The specification *)

(** The IPv4 ranges that are no legitimate target, by their bounds. *)
Definition v4_table : list (Z * Z) :=
  [ (0x00000000, 0x00ffffff);   (* 0.0.0.0/8 *)
    (0x0a000000, 0x0affffff);   (* 10.0.0.0/8 *)
    (0x64400000, 0x647fffff);   (* 100.64.0.0/10 *)
    (0x7f000000, 0x7fffffff);   (* 127.0.0.0/8 *)
    (0xa9fe0000, 0xa9feffff);   (* 169.254.0.0/16, cloud metadata *)
    (0xac100000, 0xac1fffff);   (* 172.16.0.0/12 *)
    (0xc0000000, 0xc00000ff);   (* 192.0.0.0/24 *)
    (0xc0a80000, 0xc0a8ffff);   (* 192.168.0.0/16 *)
    (0xc6120000, 0xc613ffff);   (* 198.18.0.0/15 *)
    (0xe0000000, 0xefffffff);   (* 224.0.0.0/4 *)
    (0xffffffff, 0xffffffff) ]. (* 255.255.255.255 *)

(** The IPv6 ranges of its own, whatever the zone. *)
Definition v6_table : list (Z * Z) :=
  [ (1, 1);                                                       (* ::1 *)
    (Z.shiftl 0xfc00 112, Z.shiftl 0xfe00 112 - 1);               (* fc00::/7 *)
    (Z.shiftl 0xfe80 112, Z.shiftl 0xfec0 112 - 1);               (* fe80::/10 *)
    (Z.shiftl 0xff00 112, 2 ^ 128 - 1) ].                         (* ff00::/8 *)

Definition in_table (table : list (Z * Z)) (n : Z) : Prop := Exists (λ r, r.1 ≤ n ≤ r.2) table.

(** The IPv4 address an IPv6 address carries in a translation prefix. *)
Inductive translated : Z → Z → Prop :=
  | tr_nat64 v : 0 ≤ v < 2 ^ 32 → translated (0x64ff9b * 2 ^ 96 + v) v
  | tr_6to4 v low : 0 ≤ v < 2 ^ 32 → 0 ≤ low < 2 ^ 80 →
      translated (0x2002 * 2 ^ 112 + v * 2 ^ 80 + low) v
  | tr_teredo v mid : 0 ≤ v < 2 ^ 32 → 0 ≤ mid < 2 ^ 64 →
      translated (0x20010000 * 2 ^ 96 + mid * 2 ^ 32 + (2 ^ 32 - 1 - v)) v.

(** What may not be dialed. *)
Inductive forbidden : Addr → Prop :=
  | fb_invalid : forbidden Invalid
  | fb_v4 n : in_table v4_table n → forbidden (V4 n)
  | fb_v6 n z : in_table v6_table n → forbidden (V6 n z)
  | fb_unspecified : forbidden (V6 0 "")
  | fb_mapped v z : 0 ≤ v < 2 ^ 32 → in_table v4_table v → forbidden (V6 (0xffff * 2 ^ 32 + v) z)
  | fb_compatible v z : 0 < v < 2 ^ 32 → in_table v4_table v → forbidden (V6 v z)
  | fb_translated n v : translated n v → in_table v4_table v → forbidden (V6 n "").

(** The bits fit the family. *)
Definition well_sized (a : Addr) : Prop :=
  match a with
  | Invalid => True
  | V4 n => 0 ≤ n < 2 ^ 32
  | V6 n _ => 0 ≤ n < 2 ^ 128
  end.

(** ** Bytes and prefixes as quotients *)

Lemma low_byte n k : Z.land (Z.shiftr n k) 0xff = (Z.shiftr n k) mod 2 ^ 8.
Proof. exact (Z.land_ones _ 8 ltac:(lia)). Qed.

Lemma v4b_div n i : 0 ≤ i ≤ 3 → v4b n i = n / 2 ^ ((3 - i) * 8) mod 2 ^ 8.
Proof. intros. unfold v4b. by rewrite low_byte, Z.shiftr_div_pow2 by lia. Qed.

Lemma v6b_div n i : 0 ≤ i ≤ 15 → v6b n i = n / 2 ^ ((15 - i) * 8) mod 2 ^ 8.
Proof. intros. unfold v6b. by rewrite low_byte, Z.shiftr_div_pow2 by lia. Qed.

Lemma v6u16_div n : v6u16 n 0 = n / 2 ^ 112 mod 2 ^ 16.
Proof.
  unfold v6u16. rewrite (Z.land_ones _ 16) by lia. by rewrite Z.shiftr_div_pow2 by lia.
Qed.

(** A mask of the [j] bits from bit [k] up selects a quotient. *)
Lemma mask_high x k j : 0 ≤ k → 0 ≤ j → 0 ≤ x < 2 ^ (k + j) →
  Z.land x (Z.shiftl (Z.ones j) k) = x / 2 ^ k * 2 ^ k.
Proof.
  intros Hk Hj Hx. rewrite <- Z.shiftr_div_pow2, <- Z.shiftl_mul_pow2 by done.
  apply Z.bits_inj'; intros i Hi.
  rewrite Z.land_spec, !Z.shiftl_spec by done.
  destruct (decide (i < k)).
  { rewrite !(Z.testbit_neg_r _ (i - k)) by lia. by rewrite andb_false_r. }
  rewrite Z.testbit_ones_nonneg, Z.shiftr_spec by lia. replace (i - k + k) with i by lia.
  destruct (Z.ltb_spec (i - k) j); [by rewrite andb_true_r |].
  rewrite andb_false_r. symmetry.
  destruct (decide (x = 0)) as [-> | ]; [apply Z.bits_0 |]. apply Z.bits_above_log2; [lia |].
  apply Z.log2_lt_pow2; [lia |]. apply Z.lt_le_trans with (2 ^ (k + j)); [lia |].
  apply Z.pow_le_mono_r; lia.
Qed.

Lemma mask_f0 hi x : 0 ≤ x < 256 → hi = 16 ∨ hi = 0xe0 → (Z.land x 0xf0 =? hi) = true ↔ hi ≤ x ≤ hi + 15.
Proof.
  intros Hx Hhi. change 0xf0 with (Z.shiftl (Z.ones 4) 4). rewrite mask_high by lia.
  rewrite Z.eqb_eq. Z.to_euclidean_division_equations; lia.
Qed.

Lemma mask_fe x : 0 ≤ x < 256 → (Z.land x 0xfe =? 0xfc) = true ↔ 0xfc ≤ x ≤ 0xfd.
Proof.
  intros Hx. change 0xfe with (Z.shiftl (Z.ones 7) 1). rewrite mask_high by lia.
  rewrite Z.eqb_eq. Z.to_euclidean_division_equations; lia.
Qed.

Lemma mask_ffc0 x : 0 ≤ x < 65536 → (Z.land x 0xffc0 =? 0xfe80) = true ↔ 0xfe80 ≤ x ≤ 0xfebf.
Proof.
  intros Hx. change 0xffc0 with (Z.shiftl (Z.ones 10) 6). rewrite mask_high by lia.
  rewrite Z.eqb_eq. Z.to_euclidean_division_equations; lia.
Qed.

(** The mask of link-local multicast leaves the top byte. *)
Lemma mask_ff0f x : 0 ≤ x < 65536 → (Z.land x 0xff0f =? 0xff02) = true → 0xff00 ≤ x.
Proof.
  intros Hx Hm. apply Z.eqb_eq in Hm.
  assert (Z.shiftr (Z.land x 0xff0f) 8 = 0xff) as Hs by (by rewrite Hm).
  rewrite Z.shiftr_land in Hs. change (Z.shiftr 0xff0f 8) with (Z.ones 8) in Hs.
  rewrite Z.land_ones, Z.shiftr_div_pow2 in Hs by lia.
  Z.to_euclidean_division_equations; lia.
Qed.

Lemma contains_div m n k : 0 ≤ k → (Z.shiftr (Z.lxor m n) k =? 0) = true ↔ n / 2 ^ k = m / 2 ^ k.
Proof.
  intros Hk. rewrite Z.eqb_eq, Z.shiftr_lxor, Z.lxor_eq_0_iff, !Z.shiftr_div_pow2 by done.
  intuition congruence.
Qed.

(** ** The switch decides the tables *)

(** Quotients of literals. *)
Ltac eval_quots :=
  repeat match goal with
  | |- context [?a / ?b] => let v := eval vm_compute in (a / b) in change (a / b) with v
  end.

Lemma quot_range n k q : 0 ≤ k → n / 2 ^ k = q ↔ q * 2 ^ k ≤ n ≤ q * 2 ^ k + (2 ^ k - 1).
Proof.
  intros Hk. pose proof (Z.pow_pos_nonneg 2 k ltac:(lia) Hk). split.
  - intros <-. pose proof (Z.div_mod n (2 ^ k)). pose proof (Z.mod_pos_bound n (2 ^ k)). lia.
  - intros. symmetry. apply (Z.div_unique_pos _ _ _ (n - q * 2 ^ k)); lia.
Qed.

(** The leading bytes of an address as one quotient. *)
Lemma top_byte n : 0 ≤ n < 2 ^ 32 → v4b n 0 = n / 2 ^ 24.
Proof.
  intros. rewrite v4b_div by lia. apply Z.mod_small. change ((3 - 0) * 8) with 24.
  Z.to_euclidean_division_equations; lia.
Qed.

Lemma two_bytes n a b : 0 ≤ n < 2 ^ 32 → 0 ≤ b < 256 →
  v4b n 0 = a ∧ v4b n 1 = b ↔ n / 2 ^ 16 = a * 256 + b.
Proof.
  intros Hn Hb. rewrite top_byte, v4b_div by lia. change ((3 - 1) * 8) with 16.
  Z.to_euclidean_division_equations; lia.
Qed.

Lemma three_bytes n a b c : 0 ≤ n < 2 ^ 32 → 0 ≤ b < 256 → 0 ≤ c < 256 →
  (v4b n 0 = a ∧ v4b n 1 = b) ∧ v4b n 2 = c ↔ n / 2 ^ 8 = (a * 256 + b) * 256 + c.
Proof.
  intros Hn Hb Hc. rewrite two_bytes, v4b_div by lia. change ((3 - 2) * 8) with 8.
  Z.to_euclidean_division_equations; lia.
Qed.

Lemma v4b_range n i : 0 ≤ i ≤ 3 → 0 ≤ v4b n i < 256.
Proof. intros. rewrite v4b_div by lia. apply Z.mod_pos_bound. lia. Qed.

Lemma v6b_range n i : 0 ≤ i ≤ 15 → 0 ≤ v6b n i < 256.
Proof. intros. rewrite v6b_div by lia. apply Z.mod_pos_bound. lia. Qed.

(** 172.16.0.0/12: a whole byte and the high half of the next. *)
Lemma byte_and_half n a h : 0 ≤ n < 2 ^ 32 → h = 16 →
  v4b n 0 = a ∧ h ≤ v4b n 1 ≤ h + 15 ↔ n / 2 ^ 20 = a * 16 + 1.
Proof.
  intros Hn ->. rewrite top_byte, v4b_div by lia. change ((3 - 1) * 8) with 16.
  Z.to_euclidean_division_equations; lia.
Qed.

Lemma high_half n : 0 ≤ n < 2 ^ 32 → 0xe0 ≤ v4b n 0 ≤ 0xe0 + 15 ↔ n / 2 ^ 28 = 14.
Proof. intros. rewrite top_byte by lia. Z.to_euclidean_division_equations; lia. Qed.

Lemma case_v4 n : 0 ≤ n < 2 ^ 32 → blocked_case (V4 n) = true ↔ in_table v4_table n.
Proof.
  intros Hn. unfold in_table, v4_table. rewrite !Exists_cons, Exists_nil. cbn [fst snd].
  unfold blocked_case, broadcastV4, Contains, IsUnspecified.
  cbn [IsValid IsLoopback IsPrivate IsLinkLocalUnicast IsLinkLocalMulticast IsMulticast Is4 As4
       map nth negb p_ip p_bits cgnat ietfProto benchmark].
  change (AddrFrom4 [255; 255; 255; 255]) with (V4 0xffffffff).
  rewrite !orb_true_iff, !andb_true_iff, !bool_decide_eq_true, !contains_div by lia.
  rewrite !mask_f0 by first [apply v4b_range; lia | by auto].
  rewrite !Z.eqb_eq, byte_and_half, high_half, three_bytes, !two_bytes, !top_byte by lia.
  rewrite !quot_range by lia.
  assert (∀ m, V4 n = V4 m ↔ n = m) as Heq by (split; [by intros [=] | by intros ->]).
  rewrite !Heq. assert (V4 n = V6 0 "" ↔ False) as -> by (split; [by intros [=] | done]).
  assert (false = true ↔ False) as -> by done. assert (true = true ↔ True) as -> by done.
  eval_quots. lia.
Qed.

Lemma v6b_0 n : 0 ≤ n < 2 ^ 128 → v6b n 0 = n / 2 ^ 120.
Proof.
  intros. rewrite v6b_div by lia. apply Z.mod_small. change ((15 - 0) * 8) with 120.
  Z.to_euclidean_division_equations; lia.
Qed.

Lemma v6u16_0 n : 0 ≤ n < 2 ^ 128 → v6u16 n 0 = n / 2 ^ 112.
Proof.
  intros. rewrite v6u16_div. apply Z.mod_small. Z.to_euclidean_division_equations; lia.
Qed.

Lemma case_v6 n z : 0 ≤ n < 2 ^ 128 →
  blocked_case (V6 n z) = true ↔ in_table v6_table n ∨ n = 0 ∧ z = "".
Proof.
  intros Hn. unfold in_table, v6_table. rewrite !Exists_cons, Exists_nil. cbn [fst snd].
  unfold blocked_case, Contains, IsUnspecified.
  cbn [IsValid IsLoopback IsPrivate IsLinkLocalUnicast IsLinkLocalMulticast IsMulticast Is4
       negb p_ip p_bits cgnat ietfProto benchmark andb].
  change broadcastV4 with (V4 0xffffffff).
  assert (0 ≤ v6u16 n 0 < 65536) as Hu.
  { rewrite v6u16_0 by done. Z.to_euclidean_division_equations; lia. }
  pose proof (mask_ff0f _ Hu) as Hmulti.
  rewrite !orb_true_iff, !bool_decide_eq_true, mask_fe, mask_ffc0, !Z.eqb_eq by
    first [apply v6b_range; lia | done].
  rewrite Z.eqb_eq in Hmulti. rewrite v6b_0, v6u16_0 in * by done.
  assert (V6 n z = V6 0 "" ↔ n = 0 ∧ z = "") as -> by (split; [by intros [= -> ->] | by intros [-> ->]]).
  assert (∀ m, V6 n z = V4 m ↔ False) as Hf by (split; done). rewrite !Hf.
  assert (false = true ↔ False) as -> by done.
  rewrite !Z.shiftl_mul_pow2 by lia.
  assert (0xff00 * 2 ^ 112 ≤ n ↔ 0xff00 ≤ n / 2 ^ 112) as Hff
    by (Z.to_euclidean_division_equations; lia).
  assert (n / 2 ^ 120 = 0xff ↔ 0xff00 * 2 ^ 112 ≤ n) as ->
    by (Z.to_euclidean_division_equations; lia).
  assert (0xfc ≤ n / 2 ^ 120 ≤ 0xfd ↔ 0xfc00 * 2 ^ 112 ≤ n ≤ 0xfe00 * 2 ^ 112 - 1) as ->
    by (Z.to_euclidean_division_equations; lia).
  assert (0xfe80 ≤ n / 2 ^ 112 ≤ 0xfebf ↔ 0xfe80 * 2 ^ 112 ≤ n ≤ 0xfec0 * 2 ^ 112 - 1) as ->
    by (Z.to_euclidean_division_equations; lia).
  intuition lia.
Qed.

(** ** The embedded address *)

Lemma lor_byte a b : 0 ≤ b < 256 → Z.lor (Z.shiftl a 8) b = a * 2 ^ 8 + b.
Proof.
  intros Hb. rewrite <- Z.shiftl_mul_pow2 by lia.
  assert (Z.land (Z.shiftl a 8) b = 0) as Hland.
  { apply Z.bits_inj'; intros i Hi. rewrite Z.land_spec, Z.bits_0.
    destruct (decide (i < 8)); [by rewrite Z.shiftl_spec_low |].
    assert (Z.testbit b i = false) as ->; [| apply andb_false_r].
    rewrite <- (Z.mod_small b (2 ^ 8)) by lia. apply Z.mod_pow2_bits_high. lia. }
  by rewrite (Z.add_nocarry_lxor _ _ Hland), (Z.lxor_lor _ _ Hland).
Qed.

Lemma horner m : 0 ≤ m →
  m mod 2 ^ 32 = ((m / 2 ^ 24 mod 2 ^ 8 * 2 ^ 8 + m / 2 ^ 16 mod 2 ^ 8) * 2 ^ 8
                  + m / 2 ^ 8 mod 2 ^ 8) * 2 ^ 8 + m mod 2 ^ 8.
Proof. intros. change (2 ^ 8) with 256. Z.to_euclidean_division_equations; lia. Qed.

Lemma AddrFrom4_slice m : 0 ≤ m →
  AddrFrom4 [m / 2 ^ 24 mod 2 ^ 8; m / 2 ^ 16 mod 2 ^ 8; m / 2 ^ 8 mod 2 ^ 8; m mod 2 ^ 8] = V4 (m mod 2 ^ 32).
Proof.
  intros Hm. unfold AddrFrom4. cbn [foldl].
  rewrite !lor_byte by (apply Z.mod_pos_bound; lia).
  by rewrite (horner m).
Qed.

(** Four bytes in a row are a slice of the address. *)
Lemma bytes_slice n i : 0 ≤ n → 0 ≤ i ≤ 12 →
  AddrFrom4 [v6b n i; v6b n (i + 1); v6b n (i + 2); v6b n (i + 3)]
  = V4 (n / 2 ^ ((12 - i) * 8) mod 2 ^ 32).
Proof.
  intros Hn Hi. rewrite <- AddrFrom4_slice by (apply Z.div_pos; lia).
  rewrite !v6b_div, !Z.div_div, <- !Z.pow_add_r by lia.
  replace ((12 - i) * 8 + 24) with ((15 - i) * 8) by lia.
  replace ((12 - i) * 8 + 16) with ((15 - (i + 1)) * 8) by lia.
  replace ((12 - i) * 8 + 8) with ((15 - (i + 2)) * 8) by lia.
  by replace ((12 - i) * 8) with ((15 - (i + 3)) * 8) by lia.
Qed.

Lemma lxor_byte x : 0 ≤ x < 256 → Z.lxor x 0xff = 255 - x.
Proof.
  intros Hx.
  assert (forallb (λ x, Z.lxor x 0xff =? 255 - x) (seqZ 0 256) = true) as Hall by reflexivity.
  rewrite forallb_forall in Hall. apply Z.eqb_eq, Hall, list_elem_of_In, elem_of_seqZ. lia.
Qed.

Lemma inverted_slice n : 0 ≤ n →
  AddrFrom4 (map (λ x, Z.lxor x 0xff) [v6b n 12; v6b n 13; v6b n 14; v6b n 15])
  = V4 (2 ^ 32 - 1 - n mod 2 ^ 32).
Proof.
  intros Hn. cbn [map]. rewrite !lxor_byte by (apply v6b_range; lia).
  unfold AddrFrom4. cbn [foldl].
  rewrite !lor_byte by (match goal with |- context [v6b n ?i] => pose proof (v6b_range n i) end; lia).
  pose proof (bytes_slice n 12 Hn ltac:(lia)) as Hs. unfold AddrFrom4 in Hs. cbn [foldl] in Hs.
  rewrite !lor_byte in Hs by (apply v6b_range; lia). injection Hs as Hs.
  change (12 + 1) with 13 in Hs. change (12 + 2) with 14 in Hs. change (12 + 3) with 15 in Hs.
  change ((12 - 12) * 8) with 0 in Hs. rewrite Z.div_1_r in Hs. f_equal. lia.
Qed.

Lemma slice_zero n i : 0 ≤ n → 0 ≤ i ≤ 12 →
  (v6b n i = 0 ∧ v6b n (i + 1) = 0) ∧ v6b n (i + 2) = 0 ∧ v6b n (i + 3) = 0
  ↔ n / 2 ^ ((12 - i) * 8) mod 2 ^ 32 = 0.
Proof.
  intros Hn Hi. set (k := (12 - i) * 8). assert (0 ≤ k) by lia.
  rewrite !v6b_div by lia.
  replace ((15 - i) * 8) with (k + 24) by lia. replace ((15 - (i + 1)) * 8) with (k + 16) by lia.
  replace ((15 - (i + 2)) * 8) with (k + 8) by lia. replace ((15 - (i + 3)) * 8) with k by lia.
  rewrite !Z.pow_add_r, <- !Z.div_div by lia.
  assert (0 ≤ n / 2 ^ k) as Hm by (apply Z.div_pos; lia). revert Hm. generalize (n / 2 ^ k).
  intros m Hm. rewrite (horner m) by done.
  pose proof (Z.mod_pos_bound (m / 2 ^ 24) (2 ^ 8)). pose proof (Z.mod_pos_bound (m / 2 ^ 16) (2 ^ 8)).
  pose proof (Z.mod_pos_bound (m / 2 ^ 8) (2 ^ 8)). pose proof (Z.mod_pos_bound m (2 ^ 8)).
  generalize dependent (m / 2 ^ 24 mod 2 ^ 8). generalize dependent (m / 2 ^ 16 mod 2 ^ 8).
  generalize dependent (m / 2 ^ 8 mod 2 ^ 8). generalize dependent (m mod 2 ^ 8). lia.
Qed.

Lemma high_zero n : 0 ≤ n < 2 ^ 128 →
  n < 2 ^ 32 ↔ n / 2 ^ 96 mod 2 ^ 32 = 0 ∧ n / 2 ^ 64 mod 2 ^ 32 = 0 ∧ n / 2 ^ 32 mod 2 ^ 32 = 0.
Proof.
  intros Hn. split.
  - intros Hlt. by rewrite !Z.div_small by lia.
  - assert (∀ k, 0 ≤ k → n < 2 ^ (k + 32) → n / 2 ^ k mod 2 ^ 32 = 0 → n < 2 ^ k) as Hstep.
    { intros k Hk Hlt. rewrite Z.pow_add_r in Hlt by lia.
      rewrite Z.mod_small by (split; [apply Z.div_pos | apply Z.div_lt_upper_bound]; lia).
      intros H0%Z.div_small_iff; lia. }
    intros (H1 & H2 & H3). do 3 (apply Hstep; [lia | | done]). cbn. lia.
Qed.

Lemma isV4Compatible_slice n z : 0 ≤ n < 2 ^ 128 →
  isV4Compatible (As16 (V6 n z)) = bool_decide (0 < n < 2 ^ 32).
Proof.
  intros Hn. apply Bool.eq_iff_eq_true. rewrite bool_decide_eq_true.
  unfold isV4Compatible. cbn [As16 map take forallb nth].
  rewrite !andb_true_iff, negb_true_iff, Z.eqb_neq, !Z.lor_eq_0_iff, !Z.eqb_eq.
  pose proof (high_zero n Hn) as Hhigh.
  rewrite <- (slice_zero n 0), <- (slice_zero n 4), <- (slice_zero n 8) in Hhigh by lia.
  pose proof (slice_zero n 12 ltac:(lia) ltac:(lia)) as H12.
  change ((12 - 12) * 8) with 0 in H12. rewrite Z.div_1_r in H12.
  assert (n < 2 ^ 32 → n mod 2 ^ 32 = n) as Hlow by (intros; apply Z.mod_small; lia).
  split.
  - intros [Hz Hnz]. assert (n < 2 ^ 32) by (apply Hhigh; tauto).
    split; [| done]. rewrite Hlow in H12 by done.
    assert (n ≠ 0); [intros -> | lia]. apply Hnz. tauto.
  - intros [Hpos Hlt]. rewrite Hlow in H12 by done. apply Hhigh in Hlt as Hz.
    split; [tauto |]. intros Hl. assert (n = 0) by tauto. lia.
Qed.

(** What [embeddedV4Blocked] extracts, as quotients of the address. *)
Definition embedded6 (n : Z) (z : string) : option Z :=
  if bool_decide (z = "" ∧ n / 2 ^ 32 = 0x64ff9b * 2 ^ 64) then Some (n mod 2 ^ 32)
  else if bool_decide (z = "" ∧ n / 2 ^ 112 = 0x2002) then Some (n / 2 ^ 80 mod 2 ^ 32)
  else if bool_decide (z = "" ∧ n / 2 ^ 96 = 0x20010000) then Some (2 ^ 32 - 1 - n mod 2 ^ 32)
  else if bool_decide (0 < n < 2 ^ 32) then Some n
  else None.

Lemma Contains6 m bits n z q : 0 ≤ bits ≤ 128 → m / 2 ^ (128 - bits) = q →
  Contains (mkPrefix (V6 m "") bits) (V6 n z) = bool_decide (z = "" ∧ n / 2 ^ (128 - bits) = q).
Proof.
  intros Hb <-. apply Bool.eq_iff_eq_true. rewrite bool_decide_eq_true.
  destruct z; cbn [Contains p_ip p_bits]; [| by split; [| intros []]].
  rewrite contains_div by lia. tauto.
Qed.

Lemma embeddedV4_v6 n z : 0 ≤ n < 2 ^ 128 → embeddedV4 (V6 n z) = V4 <$> embedded6 n z.
Proof.
  intros Hn. unfold embeddedV4, embedded6, nat64, sixToFour, teredo. cbn [Is6 negb].
  rewrite (Contains6 _ 96 n z (0x64ff9b * 2 ^ 64)), (Contains6 _ 16 n z 0x2002),
    (Contains6 _ 32 n z 0x20010000), isV4Compatible_slice by (done || vm_compute; split; congruence).
  change (128 - 96) with 32. change (128 - 16) with 112. change (128 - 32) with 96.
  change (take 4 (drop 12 (As16 (V6 n z)))) with [v6b n 12; v6b n 13; v6b n 14; v6b n 15].
  change (take 4 (drop 2 (As16 (V6 n z)))) with [v6b n 2; v6b n 3; v6b n 4; v6b n 5].
  rewrite inverted_slice by lia.
  pose proof (bytes_slice n 12 ltac:(lia) ltac:(lia)) as H12.
  pose proof (bytes_slice n 2 ltac:(lia) ltac:(lia)) as H2.
  change (AddrFrom4 [v6b n 12; v6b n 13; v6b n 14; v6b n 15] = V4 (n / 1 mod 2 ^ 32)) in H12.
  change (AddrFrom4 [v6b n 2; v6b n 3; v6b n 4; v6b n 5] = V4 (n / 2 ^ 80 mod 2 ^ 32)) in H2.
  rewrite H12, H2, Z.div_1_r.
  repeat case_bool_decide; try done. cbn. by rewrite Z.mod_small by lia.
Qed.

(** The three translation prefixes do not overlap. *)
Lemma translated_quot n v : 0 ≤ n < 2 ^ 128 →
  translated n v ↔
  n / 2 ^ 32 = 0x64ff9b * 2 ^ 64 ∧ v = n mod 2 ^ 32 ∨
  n / 2 ^ 112 = 0x2002 ∧ v = n / 2 ^ 80 mod 2 ^ 32 ∨
  n / 2 ^ 96 = 0x20010000 ∧ v = 2 ^ 32 - 1 - n mod 2 ^ 32.
Proof.
  intros Hn. split.
  - intros [? Hv | ? ? Hv Hlow | ? ? Hv Hmid].
    + left. Z.to_euclidean_division_equations; lia.
    + right; left. Z.to_euclidean_division_equations; lia.
    + right; right. Z.to_euclidean_division_equations; lia.
  - intros [[Hq ->] | [[Hq ->] | [Hq ->]]].
    + replace n with (0x64ff9b * 2 ^ 96 + n mod 2 ^ 32) at 1
        by (Z.to_euclidean_division_equations; lia).
      apply tr_nat64, Z.mod_pos_bound. lia.
    + replace n with (0x2002 * 2 ^ 112 + n / 2 ^ 80 mod 2 ^ 32 * 2 ^ 80 + n mod 2 ^ 80) at 1
        by (Z.to_euclidean_division_equations; lia).
      apply tr_6to4; apply Z.mod_pos_bound; lia.
    + replace n with (0x20010000 * 2 ^ 96 + n / 2 ^ 32 mod 2 ^ 64 * 2 ^ 32
                      + (2 ^ 32 - 1 - (2 ^ 32 - 1 - n mod 2 ^ 32))) at 1
        by (Z.to_euclidean_division_equations; lia).
      pose proof (Z.mod_pos_bound n (2 ^ 32)).
      apply tr_teredo; [lia | apply Z.mod_pos_bound; lia].
Qed.

Lemma embedded6_spec n z v : 0 ≤ n < 2 ^ 128 →
  embedded6 n z = Some v ↔ z = "" ∧ translated n v ∨ 0 < n < 2 ^ 32 ∧ v = n.
Proof.
  intros Hn. rewrite translated_quot by done. unfold embedded6.
  assert (n / 2 ^ 32 = 0x64ff9b * 2 ^ 64 → n / 2 ^ 112 = 0x64 ∧ n / 2 ^ 96 = 0x64ff9b ∧ 2 ^ 32 ≤ n) as H1
    by (Z.to_euclidean_division_equations; lia).
  assert (n / 2 ^ 112 = 0x2002 → 0x20020000 ≤ n / 2 ^ 96 ∧ 2 ^ 32 ≤ n) as H2
    by (Z.to_euclidean_division_equations; lia).
  assert (n / 2 ^ 96 = 0x20010000 → 2 ^ 32 ≤ n) as H3 by (Z.to_euclidean_division_equations; lia).
  assert (∀ x, Some x = Some v ↔ v = x) as Hs by (split; [by intros [=] | by intros ->]).
  repeat case_bool_decide; rewrite ?Hs; intuition (try congruence; try lia).
Qed.

Lemma forbidden_v6 n z : 0 ≤ n < 2 ^ 128 →
  forbidden (V6 n z) ↔
  in_table v6_table n ∨ n = 0 ∧ z = "" ∨
  n / 2 ^ 32 = 0xffff ∧ in_table v4_table (n mod 2 ^ 32) ∨
  ∃ v, embedded6 n z = Some v ∧ in_table v4_table v.
Proof.
  intros Hn. split.
  - inversion 1 as [| | | | v ? Hv | v ? Hv | ? v Htr]; subst; [by left | by auto | | |].
    + right; right; left.
      replace (0xffff * 2 ^ 32 + v) with (v + 0xffff * 2 ^ 32) by lia.
      rewrite Z.div_add, Z.mod_add, Z.div_small, Z.mod_small by lia. done.
    + right; right; right. exists n. rewrite embedded6_spec by done. auto.
    + right; right; right. exists v. rewrite embedded6_spec by done. auto.
  - intros [Ht | [[-> ->] | [[Hq Ht] | (v & Hv & Ht)]]].
    + by apply fb_v6.
    + apply fb_unspecified.
    + rewrite (Z.div_mod n (2 ^ 32)), Hq by lia. rewrite Z.mul_comm.
      apply fb_mapped; [apply Z.mod_pos_bound; lia | done].
    + apply embedded6_spec in Hv as [[-> Htr] | [Hlt ->]]; [| | done].
      * by apply (fb_translated n v).
      * by apply fb_compatible.
Qed.

(** ** [blocked] *)

(** Two calls are enough, as the embedded address is an IPv4 one. *)
Lemma embeddedV4_is4 a v : embeddedV4 a = Some v → Is4 v = true.
Proof.
  unfold embeddedV4. intros Hv.
  destruct (negb (Is6 a)); [discriminate Hv |].
  destruct (Contains nat64 a); [by injection Hv as <- |].
  destruct (Contains sixToFour a); [by injection Hv as <- |].
  destruct (Contains teredo a); [by injection Hv as <- |].
  destruct (isV4Compatible (As16 a)); [by injection Hv as <- | discriminate Hv].
Qed.

Lemma blocked_fuel_enough fuel a : blocked_fuel (S (S fuel)) a = Some (blocked a).
Proof.
  unfold blocked. cbn [blocked_fuel]. destruct (blocked_case (Unmap a)); [done |].
  destruct (embeddedV4 (Unmap a)) as [v |] eqn:Hv; [| done].
  apply embeddedV4_is4 in Hv. destruct v as [| n |]; try done. cbn [Unmap].
  by destruct (blocked_case (V4 n)).
Qed.

Lemma blocked_unfold a :
  blocked a = blocked_case (Unmap a) || embeddedV4Blocked (Unmap a).
Proof.
  assert (∀ b, blocked_fuel 3 a = Some b → blocked a = b) as Heq
    by (rewrite blocked_fuel_enough; by intros b [=]).
  apply Heq. cbn [blocked_fuel]. unfold embeddedV4Blocked.
  destruct (blocked_case (Unmap a)); [done |]. cbn [orb].
  destruct (embeddedV4 (Unmap a)) as [v |]; [| done].
  exact (blocked_fuel_enough 0 v).
Qed.

Lemma blocked_v4 n : 0 ≤ n < 2 ^ 32 → blocked (V4 n) = true ↔ in_table v4_table n.
Proof.
  intros Hn. rewrite blocked_unfold. cbn [Unmap]. rewrite <- case_v4 by done.
  change (embeddedV4Blocked (V4 n)) with false. by rewrite orb_false_r.
Qed.

Lemma Unmap_v6 n z : 0 ≤ n < 2 ^ 128 →
  Unmap (V6 n z) = if bool_decide (n / 2 ^ 32 = 0xffff) then V4 (n mod 2 ^ 32) else V6 n z.
Proof.
  intros Hn. unfold Unmap. rewrite Z.shiftr_div_pow2 by lia. rewrite (Z.land_ones _ 32) by lia.
  case_bool_decide as Hq; [by rewrite Hq | by apply Z.eqb_neq in Hq as ->].
Qed.

Lemma blocked_v6 n z : 0 ≤ n < 2 ^ 128 → blocked (V6 n z) = true ↔ forbidden (V6 n z).
Proof.
  intros Hn. rewrite forbidden_v6 by done.
  assert (∀ v, embedded6 n z = Some v → 0 ≤ v < 2 ^ 32 ∧ n / 2 ^ 32 ≠ 0xffff) as Hemb.
  { intros v [[-> Htr] | [Hlt ->]]%embedded6_spec; [| | done].
    - apply translated_quot in Htr; [| done]. Z.to_euclidean_division_equations; lia.
    - split; [lia |]. rewrite Z.div_small by lia. lia. }
  rewrite blocked_unfold, Unmap_v6 by done.
  case_bool_decide as Hq.
  - pose proof (blocked_unfold (V4 (n mod 2 ^ 32))) as Hu. cbn [Unmap] in Hu.
    rewrite <- Hu, blocked_v4 by (apply Z.mod_pos_bound; lia).
    split; [by auto |]. intros [Ht | [[-> ->] | [[_ Ht] | (v & Hv & _)]]]; try done.
    + exfalso. revert Ht. unfold in_table, v6_table.
      rewrite !Exists_cons, Exists_nil, !Z.shiftl_mul_pow2 by lia. cbn [fst snd].
      Z.to_euclidean_division_equations; lia.
    + by apply Hemb in Hv as [].
  - rewrite orb_true_iff, case_v6 by done.
    unfold embeddedV4Blocked. rewrite embeddedV4_v6 by done.
    destruct (embedded6 n z) as [v |] eqn:Hv; cbn [fmap option_fmap option_map].
    + rewrite blocked_v4 by (by apply Hemb). naive_solver.
    + naive_solver.
Qed.

(** Claim C37: the egress policy is exact: an address is blocked exactly when it is
    invalid, in one of the listed IPv4 or IPv6 ranges, unspecified, or an IPv6
    address carrying a listed IPv4 one: mapped, in the NAT64, 6to4 or Teredo prefix,
    or in the deprecated compatible form. *)
Theorem blocked_exact a : well_sized a → blocked a = true ↔ forbidden a.
Proof.
  destruct a as [| n | n z]; intros Ha.
  - split; [constructor | done].
  - rewrite blocked_v4 by done. split; [by constructor | by inversion 1].
  - by apply blocked_v6.
Qed.

(** Cloud metadata behind NAT64 is blocked; a public address is not. *)
Example blocked_exact_witness :
  forbidden (V6 (Z.shiftl 0x64ff9b 96 + 0xa9fea9fe) "") ∧ ¬ forbidden (V4 0x08080808).
Proof.
  split.
  - apply (blocked_exact (V6 (Z.shiftl 0x64ff9b 96 + 0xa9fea9fe) "")); vm_compute; [| done].
    split; congruence.
  - intros H. apply (blocked_exact (V4 0x08080808)) in H; [| vm_compute; split; congruence].
    vm_compute in H. discriminate H.
Defined.

(** What a zone hides.  A zone takes an address out of the translation prefixes, and makes the unspecified
    address another one: with a zone the guard lets through every address that carries
    an IPv4 one by translation, whatever that is, and "::". *)
Theorem zone_escapes n z v : z ≠ "" → 0 ≤ n < 2 ^ 128 → translated n v ∨ n = 0 → blocked (V6 n z) = false.
Proof.
  intros Hz Hn Hcase. apply not_true_iff_false. rewrite blocked_v6, forbidden_v6 by done.
  intros [Ht | [[_ ?] | [[Hq _] | (w & Hw & _)]]]; [| done | |].
  - revert Ht. unfold in_table, v6_table.
    rewrite !Exists_cons, Exists_nil, !Z.shiftl_mul_pow2 by lia. cbn [fst snd].
    destruct Hcase as [Htr | ->]; [| lia].
    apply translated_quot in Htr; [| done]. Z.to_euclidean_division_equations; lia.
  - destruct Hcase as [Htr | ->]; [| done].
    apply translated_quot in Htr; [| done]. Z.to_euclidean_division_equations; lia.
  - apply embedded6_spec in Hw as [[? _] | [Hlt _]]; [done | | done].
    destruct Hcase as [Htr | ->]; [| lia].
    apply translated_quot in Htr; [| done]. Z.to_euclidean_division_equations; lia.
Qed.

(** The metadata service behind NAT64, and the local host as "::", with a zone. *)
Example zone_escapes_witness :
  blocked (V6 (0x64ff9b * 2 ^ 96 + 0xa9fea9fe) "eth0") = false ∧ blocked (V6 0 "lo") = false.
Proof.
  split.
  - apply (zone_escapes _ _ 0xa9fea9fe); [done | vm_compute; split; congruence |].
    left. apply tr_nat64. vm_compute. split; congruence.
  - apply (zone_escapes _ _ 0); [done | vm_compute; split; congruence | by right].
Defined.

(** While egress is restricted the hook admits a dial exactly when the address
    parses and is not blocked, naming the parse failure otherwise; while it is not
    restricted the hook refuses nothing. *)
Theorem control_exact parse restrict address :
  (restrict = false → control parse restrict address = None) ∧
  (restrict = true →
     (control parse restrict address = None ↔
        ∃ a port, parse address = inl (a, port) ∧ blocked a = false) ∧
     (∀ e, control parse restrict address = Some e → e.(be_address) = address ∧
        (parse address = inr e.(be_reason) ∨
         e.(be_reason) = "" ∧ ∃ a port, parse address = inl (a, port) ∧ blocked a = true))).
Proof.
  unfold control. split; intros ->; [done |]. cbn [negb].
  destruct (parse address) as [[a port] | err]; cbn [fst].
  - destruct (blocked a) eqn:Hb.
    + split; [split; [discriminate |] |].
      * intros (a' & port' & [= <- <-] & Hb'). congruence.
      * intros e [= <-]. split; [done |]. right. by eauto.
    + split; [split; [by eauto | done] | discriminate].
  - split; [split; [discriminate | by intros (? & ? & [=] & _)] |].
    intros e [= <-]. by auto.
Qed.
