(* ===== verification/Artifacts.v ===== *)
(** Artifacts assembled from path patterns:
    src/pkg/controllers/artifactgenerator (pathpattern.go, spec.go, and the paths of copy.go).

    A generator names directories of a source by a pattern with captures, and renders the
    names and copy operations of its outputs from what a directory captures.  A text is a
    string of bytes; regular expressions see it as runes.  The checks of the Kubernetes
    libraries on label keys, label values and names are parameters. *)

From Stdlib Require Import Ascii.
From S2P Require Import Prelude GoPath Paths.

(** ** Runes *)

(** What a rune of a valid text is, by its first byte. *)
Definition second_byte (c c1 : ascii) : bool :=
  if within 224 224 c then within 160 191 c1 else if within 237 237 c then within 128 159 c1
  else if within 240 240 c then within 144 191 c1 else if within 244 244 c then within 128 143 c1 else cont c1.

(** The runes of a text; a byte that does not belong to one stands alone. *)
Fixpoint runes (s : string) : list string :=
  match s with
  | "" => []
  | String c s1 =>
      if within 0 127 c then String c "" :: runes s1
      else match s1 with
           | "" => [String c ""]
           | String c1 s2 =>
               if within 194 223 c then
                 if cont c1 then String c (String c1 "") :: runes s2 else String c "" :: runes s1
               else match s2 with
                    | "" => String c "" :: runes s1
                    | String c2 s3 =>
                        if within 224 239 c then
                          if second_byte c c1 && cont c2 then String c (String c1 (String c2 "")) :: runes s3
                          else String c "" :: runes s1
                        else match s3 with
                             | "" => String c "" :: runes s1
                             | String c3 s4 =>
                                 if within 240 244 c && second_byte c c1 && cont c2 && cont c3
                                 then String c (String c1 (String c2 (String c3 ""))) :: runes s4
                                 else String c "" :: runes s1
                             end
                    end
           end
  end.

Fixpoint text (rs : list string) : string := match rs with [] => "" | r :: rs => r +:+ text rs end.

Definition is_slash (r : string) : bool := bool_decide (r = String slash "").

(** ** Templates *)

Definition brace (c : ascii) : bool := bool_decide (c = "{"%char) || bool_decide (c = "}"%char).

(** The text before the first brace, the brace and what follows it, as [strings.IndexAny] finds it. *)
Fixpoint cut_brace (s : string) : option (string * ascii * string) :=
  match s with
  | "" => None
  | String c s => if brace c then Some ("", c, s)
                  else '(l, b, rest) ← cut_brace s; Some (String c l, b, rest)
  end.

(** [strings.Cut] at a closing brace. *)
Fixpoint cut_close (s : string) : option (string * string) :=
  match s with
  | "" => None
  | String c s => if bool_decide (c = "}"%char) then Some ("", s) else '(n, rest) ← cut_close s; Some (String c n, rest)
  end.

(** What a loop over a template does next: write a text and end, or write a text and treat
    a capture, or fail on a name that is not one ([None] when no brace closes it). *)
Inductive piece := Last (l : string) | Hole (l n rest : string) | Bad (n : string).

Definition next_piece (s : string) : piece :=
  match cut_brace s with
  | None => Last s
  | Some (l, b, rest) =>
      match cut_close rest with
      | Some (n, rest) => if bool_decide (b = "{"%char) then Hole l n rest else Bad n
      | None => Bad rest
      end
  end.

Inductive token := Literal (l : string) | Capture (n : string).

Definition names_of (ts : list token) : list string :=
  omap (λ t, match t with Capture n => Some n | Literal _ => None end) ts.

(** Why an expansion fails. *)
Inductive failure :=
  | InvalidPattern (name : string) | InvalidRegexp | UndefinedCapture (name : string)
  | InvalidSource (value : string) | InvalidArchive | UnknownSource (alias : string)
  | InvalidCapture | InvalidOutput (name : string) | WalkFailed
  | InvalidDestination (value : string) | InvalidArtifact (name : string) | InvalidSelector (value : string)
  | OutOfBounds | UnsupportedKind (kind : string) | UnsupportedStrategy (strategy : string) | InvalidGlob.

(** [captureName]. *)
Definition name_start (c : ascii) : bool := letter c || bool_decide (c = "_"%char).
Definition digit (c : ascii) : bool := within 48 57 c.
Fixpoint every (p : ascii → bool) (s : string) : bool := match s with "" => true | String c s => p c && every p s end.
Definition captureName (s : string) : bool :=
  match s with "" => false | String c s => name_start c && every (λ c, name_start c || digit c) s end.

Section patterns.
Context (IsLabelKey : string → bool).

(** One turn of [compilePathPattern]: the rest of the pattern, the names seen, the expression. *)
Definition compile_step (st : string * list string * list token) : string * list string * list token + (list token + failure) :=
  let '(pattern, seen, expression) := st in
  match pattern with
  | "" => inr (inl expression)
  | _ => match next_piece pattern with
         | Last l => inr (inl (expression ++ [Literal l]))
         | Bad name => inr (inr (InvalidPattern name))
         | Hole l name rest =>
             if negb (captureName name) || bool_decide (name ∈ seen) || negb (IsLabelKey name)
             then inr (inr (InvalidPattern name))
             else inl (rest, name :: seen, expression ++ [Literal l; Capture name])
         end
  end.

(** [compilePathPattern]: the expression is its literals and captures in order; compiling it
    fails on a text that is not valid UTF-8.  Each turn takes a brace. *)
Definition compilePathPattern (pattern : string) : option (list token + failure) :=
  r ← loop compile_step (String.length pattern) (pattern, [], []);
  Some (match r with
        | inl ts => if valid_utf8 pattern then inl ts else inr InvalidRegexp
        | inr e => inr e
        end).

End patterns.

(** One turn of [render]. *)
Definition render_step (captures : gmap string string) (st : string * string) : string * string + (string + failure) :=
  let '(template, out) := st in
  match template with
  | "" => inr (inl out)
  | _ => match next_piece template with
         | Last l => inr (inl (out +:+ l))
         | Bad name => inr (inr (UndefinedCapture name))
         | Hole l name rest =>
             match captures !! name with
             | None => inr (inr (UndefinedCapture name))
             | Some value => inl (rest, out +:+ l +:+ value)
             end
         end
  end.

Definition render (template : string) (captures : gmap string string) : option (string + failure) :=
  loop (render_step captures) (String.length template) (template, "").

(** ** Matching *)

Fixpoint strip_prefix (p rs : list string) : option (list string) :=
  match p, rs with
  | [], _ => Some rs
  | x :: p, r :: rs => if bool_decide (x = r) then strip_prefix p rs else None
  | _ :: _, [] => None
  end.

Fixpoint span (rs : list string) : nat :=
  match rs with r :: rs => if is_slash r then 0 else Datatypes.S (span rs) | [] => 0 end.

(** The first of [l] with an answer. *)
Fixpoint first_some {A B} (f : A → option B) (l : list A) : option B :=
  match l with [] => None | x :: l => match f x with Some y => Some y | None => first_some f l end end.

(** The expression on the runes of a text, from its start to its end: a capture is
    [[^/]+], which tries its longest reading first. *)
Fixpoint match_tokens (ts : list token) (rs : list string) : option (list (string * string)) :=
  match ts with
  | [] => match rs with [] => Some [] | _ => None end
  | Literal l :: ts => rest ← strip_prefix (runes l) rs; match_tokens ts rest
  | Capture n :: ts =>
      first_some (λ k, captures ← match_tokens ts (drop k rs); Some ((n, text (take k rs)) :: captures)) (rev (seq 1 (span rs)))
  end.

(** [FindStringSubmatch], for a valid text. *)
Definition FindStringSubmatch (ts : list token) (name : string) : option (list (string * string)) := match_tokens ts (runes name).

(** ** The grammar of templates *)

(** What a template is, independently of the loops that read it. *)
Inductive parses : string → list token → Prop :=
  | parses_end : parses "" []
  | parses_last s l : s ≠ "" → next_piece s = Last l → parses s [Literal l]
  | parses_hole s l n rest ts : next_piece s = Hole l n rest → parses rest ts → parses s (Literal l :: Capture n :: ts).

Lemma cut_brace_spec s : match cut_brace s with
  | Some (l, b, rest) => s = l +:+ String b rest ∧ brace b = true
  | None => True end.
Proof.
  induction s as [| c s IH]; [done |]. cbn [cut_brace]. destruct (brace c) eqn:E; [done |].
  destruct (cut_brace s) as [[[l b] rest] |]; [| done]. cbn. destruct IH as [-> ?]. done.
Qed.

Lemma cut_close_spec s : match cut_close s with Some (n, rest) => s = n +:+ String "}" rest | None => True end.
Proof.
  induction s as [| c s IH]; [done |]. cbn [cut_close]. case_bool_decide as E; [by subst |].
  destruct (cut_close s) as [[n rest] |]; [| done]. cbn. by rewrite IH.
Qed.

Lemma next_piece_hole s l n rest : next_piece s = Hole l n rest → s = l +:+ "{" +:+ n +:+ "}" +:+ rest.
Proof.
  unfold next_piece. pose proof (cut_brace_spec s) as Hb. destruct (cut_brace s) as [[[l' b] rest'] |]; [| done].
  pose proof (cut_close_spec rest') as Hc. destruct (cut_close rest') as [[n' r'] |]; [| done]. case_bool_decide as Eb; [| done].
  intros [= -> -> ->]. destruct Hb as [-> _]. by rewrite Hc, Eb.
Qed.

Lemma next_piece_last s l : next_piece s = Last l → l = s.
Proof. unfold next_piece. destruct (cut_brace s) as [[[l' b] rest'] |]; [| by intros [= ->]]. destruct (cut_close rest') as [[n' r'] |]; [by case_bool_decide | done]. Qed.

Lemma hole_shorter s l n rest : next_piece s = Hole l n rest → String.length rest < String.length s.
Proof. intros ->%next_piece_hole. rewrite !length_string_app. cbn. lia. Qed.

Lemma parses_inv s ts : parses s ts ↔ match next_piece s with
  | Last l => ts = if bool_decide (s = "") then [] else [Literal l]
  | Bad _ => False
  | Hole l n rest => ∃ ts', ts = Literal l :: Capture n :: ts' ∧ parses rest ts'
  end.
Proof.
  split.
  - intros [| s' l Hs E | s' l n rest ts' E Hp]; [done | rewrite E, bool_decide_false by done; done | rewrite E; eauto].
  - destruct (next_piece s) as [l | l n rest | n] eqn:E; [| | done].
    + intros ->. case_bool_decide as Hs; [subst; constructor | by constructor].
    + intros (ts' & -> & H). by eapply parses_hole.
Qed.

(** The text a template writes when each capture has its value. *)
Fixpoint fill (captures : gmap string string) (ts : list token) : option string :=
  match ts with
  | [] => Some ""
  | Literal l :: ts => s ← fill captures ts; Some (l +:+ s)
  | Capture n :: ts => v ← captures !! n; s ← fill captures ts; Some (v +:+ s)
  end.

Lemma string_app_nil_r s : s +:+ "" = s.
Proof. induction s as [| c s IH]; [done |]. change (String c (s +:+ "") = String c s). by f_equal. Qed.

(** [render] writes what the grammar says, and fails exactly where it has no reading or a
    capture has no value. *)
Lemma render_spec template captures : ∃ r, render template captures = Some r ∧
  match r with
  | inl s => ∃ ts, parses template ts ∧ fill captures ts = Some s
  | inr _ => ∀ ts, parses template ts → fill captures ts = None
  end.
Proof.
  unfold render.
  apply (loop_spec (render_step captures)
    (λ st, (∀ ts s, parses st.1 ts → fill captures ts = Some s → ∃ ts', parses template ts' ∧ fill captures ts' = Some (st.2 +:+ s)) ∧
           ((∀ ts, parses st.1 ts → fill captures ts = None) → ∀ ts, parses template ts → fill captures ts = None))
    (λ st, String.length st.1)).
  - intros [t out] st [Hok Hbad]. cbn [fst snd] in *. unfold render_step. destruct t as [| c t]; [done |].
    destruct (next_piece (String c t)) as [l | l n rest | n] eqn:E; [done | | done]. destruct (captures !! n) as [v |] eqn:Ev; [| done].
    intros [= <-]. cbn [fst snd]. split; [| by eapply hole_shorter]. split.
    + intros ts s Hp Hf. destruct (Hok (Literal l :: Capture n :: ts) (l +:+ v +:+ s)) as (ts' & Hp' & Hf').
      * by eapply parses_hole.
      * cbn. by rewrite Ev, Hf.
      * exists ts'. split; [done |]. rewrite Hf'. by rewrite !string_app_assoc.
    + intros Hn. apply Hbad. intros ts Hp. rewrite parses_inv, E in Hp. destruct Hp as (ts' & -> & Hp). cbn. by rewrite Ev, Hn.
  - intros [t out] r [Hok Hbad]. cbn [fst snd] in *. unfold render_step. destruct t as [| c t].
    + intros [= <-]. destruct (Hok [] "" parses_end eq_refl) as (ts & Hp & Hf). exists ts. split; [done |]. by rewrite string_app_nil_r in Hf.
    + destruct (next_piece (String c t)) as [l | l n rest | n] eqn:E.
      * intros [= <-]. destruct (Hok [Literal l] l) as (ts & Hp & Hf); [by constructor | cbn; by rewrite string_app_nil_r |]. by exists ts.
      * destruct (captures !! n) as [v |] eqn:Ev; [done |]. intros [= <-]. apply Hbad. intros ts Hp.
        rewrite parses_inv, E in Hp. destruct Hp as (ts' & -> & Hp). cbn. by rewrite Ev.
      * intros [= <-]. apply Hbad. intros ts Hp. by rewrite parses_inv, E in Hp.
  - cbn [fst snd]. split; [| done]. intros ts s Hp Hf. by exists ts.
  - done.
Qed.

Section compile.
Context (IsLabelKey : string → bool).

Definition good_name (n : string) : Prop := captureName n = true ∧ IsLabelKey n = true.

Lemma compile_spec pattern : ∃ r, compilePathPattern IsLabelKey pattern = Some r ∧
  match r with
  | inl ts => parses pattern ts ∧ valid_utf8 pattern = true ∧ NoDup (names_of ts) ∧ Forall good_name (names_of ts)
  | inr _ => ∀ ts, parses pattern ts → valid_utf8 pattern = true → ¬ (NoDup (names_of ts) ∧ Forall good_name (names_of ts))
  end.
Proof.
  unfold compilePathPattern.
  destruct (loop_spec (compile_step IsLabelKey)
    (λ st, let '(rest, seen, done) := st in (∀ n, n ∈ seen ↔ n ∈ names_of done) ∧ NoDup (names_of done) ∧ Forall good_name (names_of done) ∧
           ∀ ts, parses pattern ts ↔ ∃ ts', ts = done ++ ts' ∧ parses rest ts')
    (λ st, String.length st.1.1)
    (λ r, match r with
          | inl ts => parses pattern ts ∧ NoDup (names_of ts) ∧ Forall good_name (names_of ts)
          | inr _ => ∀ ts, parses pattern ts → ¬ (NoDup (names_of ts) ∧ Forall good_name (names_of ts))
          end) (String.length pattern) (pattern, [], [])) as (r & -> & Hr).
  - intros [[t seen] done] st (Hs & Hnd & Hg & Hp). unfold compile_step. destruct t as [| c t]; [done |].
    destruct (next_piece (String c t)) as [l | l n rest | n] eqn:E; [done | | done].
    destruct (negb (captureName n) || bool_decide (n ∈ seen) || negb (IsLabelKey n)) eqn:Eb; [done |]. intros [= <-]. cbn [fst].
    split; [| by eapply hole_shorter].
    apply orb_false_iff in Eb as [[Hc%negb_false_iff Hn%bool_decide_eq_false]%orb_false_iff Hk%negb_false_iff].
    unfold names_of in *. rewrite !omap_app. cbn [omap list_omap]. split; [| split; [| split]].
    + intros x. rewrite elem_of_cons, elem_of_app, list_elem_of_singleton, Hs. tauto.
    + apply NoDup_app. split; [done |]. split; [| apply NoDup_singleton]. intros x Hx ->%list_elem_of_singleton. by apply Hn, Hs.
    + apply Forall_app. split; [done |]. by apply Forall_singleton.
    + intros ts. split.
      { intros H. apply Hp in H as (ts' & -> & H). rewrite parses_inv, E in H. destruct H as (ts'' & -> & H). exists ts''. by rewrite <- app_assoc. }
      intros (ts' & -> & H). apply Hp. exists (Literal l :: Capture n :: ts'). split; [by rewrite <- app_assoc | by eapply parses_hole].
  - intros [[t seen] done] r (Hs & Hnd & Hg & Hp). unfold compile_step. destruct t as [| c t].
    + intros [= <-]. split; [apply Hp; exists []; split; [by rewrite app_nil_r | constructor] | by split].
    + destruct (next_piece (String c t)) as [l | l n rest | n] eqn:E.
      * intros [= <-]. unfold names_of in *. rewrite !omap_app. cbn [omap list_omap]. rewrite app_nil_r. split; [apply Hp; exists [Literal l]; split; [done | by constructor] | by split].
      * destruct (negb (captureName n) || bool_decide (n ∈ seen) || negb (IsLabelKey n)) eqn:Eb; [| done]. intros [= <-] ts H [Hnd' Hg'].
        apply Hp in H as (ts' & -> & H). rewrite parses_inv, E in H. destruct H as (ts'' & -> & H).
        unfold names_of in *. rewrite omap_app in Hnd', Hg'. cbn [omap list_omap] in Hnd', Hg'.
        apply Forall_app in Hg' as [_ [[Hc Hk] _]%Forall_cons]. rewrite Hc, Hk in Eb. cbn in Eb. rewrite orb_false_r in Eb.
        apply bool_decide_eq_true, Hs in Eb. apply NoDup_app in Hnd' as (_ & Hd & _). by destruct (Hd n Eb); left.
      * intros [= <-] ts H _. apply Hp in H as (ts' & -> & H). by rewrite parses_inv, E in H.
  - split; [done |]. split; [constructor |]. split; [constructor |]. intros ts. split; [by exists ts | intros (ts' & -> & H); done].
  - done.
  - cbn [mbind option_bind]. destruct r as [ts | e].
    + destruct (valid_utf8 pattern) eqn:Ev; eexists; (split; [reflexivity |]); [tauto | by intros ts' _ ?].
    + eexists. split; [reflexivity |]. intros ts H _. by apply Hr.
Qed.

End compile.

(** ** Matching *)

Lemma first_some_down {B} (f : nat → option B) n : match first_some f (rev (seq 1 n)) with
  | Some y => ∃ k, 1 ≤ k ≤ n ∧ f k = Some y ∧ ∀ j, k < j ≤ n → f j = None
  | None => ∀ j, 1 ≤ j ≤ n → f j = None
  end.
Proof.
  induction n as [| n IH]; [intros j Hj; lia |]. rewrite seq_S, rev_app_distr. cbn [rev app first_some Nat.add].
  destruct (f (S n)) as [y |] eqn:E.
  - exists (S n). split; [lia |]. split; [done |]. intros j Hj. lia.
  - destruct (first_some f (rev (seq 1 n))) as [y |].
    + destruct IH as (k & Hk & Hy & Hj). exists k. split; [lia |]. split; [done |]. intros j Hj'.
      destruct (decide (j = S n)) as [-> |]; [done | apply Hj; lia].
    + intros j Hj'. destruct (decide (j = S n)) as [-> |]; [done | apply IH; lia].
Qed.

Lemma text_app a b : text (a ++ b) = text a +:+ text b.
Proof. induction a as [| r a IH]; [done |]. cbn [app text]. by rewrite IH, string_app_assoc. Qed.

Lemma strip_prefix_spec p rs : match strip_prefix p rs with
  | Some rest => rs = p ++ rest | None => ∀ rest, rs ≠ p ++ rest end.
Proof.
  revert rs. induction p as [| x p IH]; intros rs; [done |]. destruct rs as [| r rs]; [done |]. cbn [strip_prefix].
  case_bool_decide as Hx.
  - subst. specialize (IH rs). destruct (strip_prefix p rs); [by rewrite IH |]. intros rest [= H]. by eapply IH.
  - intros rest [= H _]. done.
Qed.

Definition plain (v : list string) : Prop := v ≠ [] ∧ Forall (λ r, is_slash r = false) v.

Lemma span_spec rs k : k ≤ span rs ↔ k ≤ length rs ∧ Forall (λ r, is_slash r = false) (take k rs).
Proof.
  revert k. induction rs as [| r rs IH]; intros k; [cbn; destruct k; split; intros; repeat split; try lia; constructor |].
  destruct k as [| k]; [cbn; split; [intros _; split; [lia | constructor] | lia] |]. cbn [span length take].
  rewrite Forall_cons. destruct (is_slash r); [split; [lia | by intros (_ & ? & _)] |]. specialize (IH k).
  split; [intros H | intros (H1 & _ & H2)]; [assert (k ≤ span rs) by lia; split; [|split]; try tauto; try lia; apply le_n_S, IH; lia | apply le_n_S, IH; split; [lia | done]].
Qed.

(** The runes an expression reads when its captures read [vs]. *)
Fixpoint spell (ts : list token) (vs : list (list string)) : option (list string) :=
  match ts, vs with
  | [], [] => Some []
  | Literal l :: ts, _ => rs ← spell ts vs; Some (runes l ++ rs)
  | Capture _ :: ts, v :: vs => rs ← spell ts vs; Some (v ++ rs)
  | _, _ => None
  end.

(** [ks] precedes [js] when the expression tries the lengths [js] first. *)
Fixpoint lex_le (ks js : list nat) : Prop :=
  match ks, js with
  | [], _ => True
  | k :: ks, j :: js => k < j ∨ k = j ∧ lex_le ks js
  | _ :: _, [] => False
  end.

(** A match reads the text, each capture a plain name, and of all such readings the one
    whose captures are longest, the first one first; no match means there is none. *)
Lemma match_tokens_spec ts rs : match match_tokens ts rs with
  | Some captures => ∃ vs, spell ts vs = Some rs ∧ Forall plain vs ∧ captures = zip (names_of ts) (map text vs) ∧
      length vs = length (names_of ts) ∧
      ∀ vs', spell ts vs' = Some rs → Forall plain vs' → lex_le (map length vs') (map length vs)
  | None => ∀ vs, Forall plain vs → spell ts vs ≠ Some rs
  end.
Proof.
  revert rs. induction ts as [| [l | n] ts IH]; intros rs.
  - cbn [match_tokens]. destruct rs as [| r rs].
    + exists []. split; [done |]. split; [constructor |]. split; [done |]. split; [done |]. intros [| v vs]; done.
    + intros [| v vs]; done.
  - cbn [match_tokens]. pose proof (strip_prefix_spec (runes l) rs) as Hs. destruct (strip_prefix (runes l) rs) as [rest |]; cbn [mbind option_bind].
    + subst rs. specialize (IH rest). destruct (match_tokens ts rest) as [captures |].
      * destruct IH as (vs & Hsp & Hp & -> & Hlen & Hmax). exists vs. cbn. rewrite Hsp. cbn. repeat split; try done.
        intros vs' H. destruct (spell ts vs') as [rs' |] eqn:E; cbn in H; [| done]. injection H as H. apply app_inv_head in H. subst. by apply Hmax.
      * intros vs Hp. cbn. destruct (spell ts vs) as [rs' |] eqn:E; cbn; [| done]. intros [= H]. apply app_inv_head in H. subst. by apply (IH vs).
    + intros vs Hp. cbn. destruct (spell ts vs) as [rs' |] eqn:E; cbn; [| done]. intros [= H]. by apply (Hs rs').
  - cbn [match_tokens]. set (f := λ k : nat, captures ← match_tokens ts (drop k rs); Some ((n, text (take k rs)) :: captures)).
    assert (∀ k, 1 ≤ k ≤ span rs ↔ k ≤ length rs ∧ plain (take k rs)) as Hplain.
    { intros k. unfold plain. rewrite span_spec. split; [intros (H1 & H2 & H3) | intros (H1 & H2 & H3)].
      - repeat split; try done. intros H. apply (f_equal length) in H. rewrite length_take in H. cbn in H. lia.
      - split; [| done]. destruct k; [done | lia]. }
    pose proof (first_some_down f (span rs)) as Hf. destruct (first_some f _) as [captures |].
    + destruct Hf as (k & Hk & Hfk & Hno). unfold f in Hfk. specialize (IH (drop k rs)) as IHk. destruct (match_tokens ts (drop k rs)) as [captures' |]; [| done].
      cbn in Hfk. injection Hfk as <-. destruct IHk as (vs & Hsp & Hp & -> & Hlen & Hmax). exists (take k rs :: vs). cbn. rewrite Hsp. cbn.
      split; [by rewrite take_drop |]. split; [constructor; [by apply Hplain | done] |]. split; [done |]. split; [by rewrite Hlen |].
      intros [| v' vs']; [done |]. intros H [Hv' Hvs']%Forall_cons. destruct (spell ts vs') as [rs' |] eqn:E; cbn in H; [| done]. injection H as <-.
      cbn [map lex_le].
      assert (1 ≤ length v' ≤ span (v' ++ rs')) as Hlv by (apply Hplain; rewrite length_app; split; [lia | by rewrite take_app_length]).
      rewrite length_take, length_app. rewrite span_spec, length_app in Hk. destruct (decide (length v' < k)) as [| Hge]; [left; lia |].
      destruct (decide (length v' = k)) as [<- | Hne].
      * right. split; [lia |]. apply Hmax; [| done]. by rewrite drop_app_length.
      * exfalso. specialize (Hno (length v') ltac:(lia)). unfold f in Hno. rewrite drop_app_length in Hno.
        specialize (IH rs'). destruct (match_tokens ts rs'); [done |]. by apply (IH vs').
    + intros [| v vs]; [done |]. intros [Hv Hvs]%Forall_cons. cbn. destruct (spell ts vs) as [rs' |] eqn:E; cbn; [| done]. intros [= <-].
      specialize (Hf (length v)). unfold f in Hf. rewrite drop_app_length in Hf. specialize (IH rs').
      destruct (match_tokens ts rs'); [| by apply (IH vs)]. cbn in Hf. enough (1 ≤ length v ≤ span (v ++ rs')) by (by apply Hf in H).
      apply Hplain. rewrite length_app. split; [lia | by rewrite take_app_length].
Qed.

(** The first rune of a text and the rest. *)
Definition first_rune (c : ascii) (s1 : string) : string * string :=
  let alone := (String c "", s1) in
  if within 0 127 c then alone
  else match s1 with
       | "" => alone
       | String c1 s2 =>
           if within 194 223 c then if cont c1 then (String c (String c1 ""), s2) else alone
           else match s2 with
                | "" => alone
                | String c2 s3 =>
                    if within 224 239 c then
                      if second_byte c c1 && cont c2 then (String c (String c1 (String c2 "")), s3) else alone
                    else match s3 with
                         | "" => alone
                         | String c3 s4 =>
                             if within 240 244 c && second_byte c c1 && cont c2 && cont c3
                             then (String c (String c1 (String c2 (String c3 ""))), s4) else alone
                         end
                end
       end.

Lemma runes_first c s : runes (String c s) = (first_rune c s).1 :: runes (first_rune c s).2.
Proof.
  change (runes (String c s)) with (
      if within 0 127 c then String c "" :: runes s
      else match s with
           | "" => [String c ""]
           | String c1 s2 =>
               if within 194 223 c then
                 if cont c1 then String c (String c1 "") :: runes s2 else String c "" :: runes s
               else match s2 with
                    | "" => String c "" :: runes s
                    | String c2 s3 =>
                        if within 224 239 c then
                          if second_byte c c1 && cont c2 then String c (String c1 (String c2 "")) :: runes s3
                          else String c "" :: runes s
                        else match s3 with
                             | "" => String c "" :: runes s
                             | String c3 s4 =>
                                 if within 240 244 c && second_byte c c1 && cont c2 && cont c3
                                 then String c (String c1 (String c2 (String c3 ""))) :: runes s4
                                 else String c "" :: runes s
                             end
                    end
           end).
  unfold first_rune. destruct s as [| c1 [| c2 [| c3 s]]]; repeat match goal with |- context [if ?b then _ else _] => destruct b end; reflexivity.
Qed.

Lemma first_rune_spec c s : (first_rune c s).1 +:+ (first_rune c s).2 = String c s ∧
  String.length (first_rune c s).2 < String.length (String c s).
Proof.
  unfold first_rune. destruct s as [| c1 [| c2 [| c3 s]]]; repeat match goal with |- context [if ?b then _ else _] => destruct b end;
    (split; [reflexivity | cbn; lia]).
Qed.

Lemma rune_ind (P : string → Prop) : P "" → (∀ c s, P (first_rune c s).2 → P (String c s)) → ∀ s, P s.
Proof.
  intros H0 H s. remember (String.length s) as n eqn:Hn. revert s Hn. induction (lt_wf n) as [n _ IH]. intros [| c s] ->; [done |].
  apply H. eapply IH; [| reflexivity]. apply first_rune_spec.
Qed.

Lemma text_runes s : text (runes s) = s.
Proof. induction s as [| c s IH] using rune_ind; [done |]. rewrite runes_first. cbn [text]. rewrite IH. apply first_rune_spec. Qed.

Lemma within_disjoint a b a' b' c : within a b c = true → b < a' → within a' b' c = false.
Proof. unfold within. rewrite andb_true_iff, andb_false_iff, !Nat.leb_le, !Nat.leb_gt. lia. Qed.

Lemma valid_cons c s : valid_utf8 (String c s) =
  (if within 0 127 c then valid_utf8 s
   else match s with
        | "" => false
        | String c1 s =>
            if within 194 223 c then cont c1 && valid_utf8 s
            else match s with
                 | "" => false
                 | String c2 s =>
                     if within 224 239 c
                     then (if within 224 224 c then within 160 191 c1
                           else if within 237 237 c then within 128 159 c1 else cont c1) && cont c2 && valid_utf8 s
                     else match s with
                          | "" => false
                          | String c3 s =>
                              within 240 244 c &&
                              (if within 240 240 c then within 144 191 c1
                               else if within 244 244 c then within 128 143 c1 else cont c1) &&
                              cont c2 && cont c3 && valid_utf8 s
                          end
                 end
        end).
Proof. reflexivity. Qed.

Lemma first_rune_app c s t : valid_utf8 (String c s) = true →
  first_rune c (s +:+ t) = ((first_rune c s).1, (first_rune c s).2 +:+ t) ∧ valid_utf8 (first_rune c s).2 = true.
Proof.
  rewrite valid_cons. unfold first_rune. destruct (within 0 127 c); [by split |]. destruct s as [| c1 s]; [done |].
  change (String c1 s +:+ t) with (String c1 (s +:+ t)). destruct (within 194 223 c).
  { intros [-> Hv]%andb_true_iff. by split. }
  destruct s as [| c2 s]; [done |]. change (String c2 s +:+ t) with (String c2 (s +:+ t)). destruct (within 224 239 c) eqn:E3.
  { assert (second_byte c c1 = if within 224 224 c then within 160 191 c1 else if within 237 237 c then within 128 159 c1 else cont c1) as <-.
    { unfold second_byte. by rewrite (within_disjoint 224 239 240 240), (within_disjoint 224 239 244 244) by (done || lia). }
    intros [-> Hv]%andb_true_iff. by split. }
  destruct s as [| c3 s]; [done |]. change (String c3 s +:+ t) with (String c3 (s +:+ t)). intros [H Hv]%andb_true_iff.
  assert (second_byte c c1 = if within 240 240 c then within 144 191 c1 else if within 244 244 c then within 128 143 c1 else cont c1) as Es.
  { assert (within 240 244 c = true) as H4 by (rewrite !andb_true_iff in H; tauto). unfold second_byte.
    assert (within 224 224 c = false) as -> by (unfold within in *; rewrite andb_true_iff, !Nat.leb_le in H4; rewrite andb_false_iff, !Nat.leb_gt; lia).
    assert (within 237 237 c = false) as -> by (unfold within in *; rewrite andb_true_iff, !Nat.leb_le in H4; rewrite andb_false_iff, !Nat.leb_gt; lia). done. }
  rewrite <- Es in H. rewrite H. by split.
Qed.

Lemma runes_app s t : valid_utf8 s = true → runes (s +:+ t) = runes s ++ runes t.
Proof.
  induction s as [| c s IH] using rune_ind; [done |]. intros Hv. change (String c s +:+ t) with (String c (s +:+ t)).
  rewrite !runes_first. destruct (first_rune_app c s t Hv) as [-> Hv']. cbn [fst snd app]. by rewrite IH.
Qed.

Lemma valid_runes_head s t : valid_utf8 (s +:+ t) = true → valid_utf8 s = true → valid_utf8 t = true.
Proof.
  induction s as [| c s IH] using rune_ind; [done |]. intros Hst Hs. destruct (first_rune_app c s t Hs) as [E Hv].
  change (String c s +:+ t) with (String c (s +:+ t)) in Hst.
  pose proof (first_rune_app c (s +:+ t) "" Hst) as [_ Hv2]. rewrite E in Hv2. by apply IH.
Qed.

(** ** Matching and rendering *)

Lemma ascii_not_second c c1 : within 0 127 c1 = true → within 0 127 c = false → second_byte c c1 = false ∧ cont c1 = false.
Proof.
  unfold second_byte, cont, within. rewrite andb_true_iff, !Nat.leb_le. intros [_ H] _.
  repeat match goal with |- context [if ?b then _ else _] => destruct b end; (split; apply andb_false_iff; rewrite !Nat.leb_gt; lia).
Qed.

(** A text cut before an ASCII character is cut between runes. *)
Lemma valid_before s c t : within 0 127 c = true → valid_utf8 (s +:+ String c t) = true → valid_utf8 s = true.
Proof.
  intros Hc. remember (String.length s) as n eqn:Hn. revert s Hn. induction (lt_wf n) as [n _ IH]. intros [| a s] -> Hv; [done |].
  assert (∀ s', String.length s' < String.length (String a s) → valid_utf8 (s' +:+ String c t) = true → valid_utf8 s' = true) as H by (intros; by eapply IH). clear IH.
  change (String a s +:+ String c t) with (String a (s +:+ String c t)) in Hv. rewrite valid_cons in Hv |- *.
  destruct (within 0 127 a) eqn:Ea; [apply H; [cbn; lia | done] |].
  assert (∀ lo hi, 128 ≤ lo → within lo hi c = false) as Hlow.
  { intros lo hi Hlo. unfold within in *. rewrite andb_true_iff, !Nat.leb_le in Hc. apply andb_false_iff. rewrite !Nat.leb_gt. lia. }
  assert (cont c = false) as Hcont by (by apply (Hlow 128 191)).
  destruct s as [| b s].
  { change ("" +:+ String c t) with (String c t) in Hv. cbv beta iota in Hv. rewrite Hcont, !Hlow in Hv by lia.
    destruct (within 194 223 a); [done |]. destruct t as [| c2 t]; [done |].
    destruct (within 224 239 a); [by destruct (within 224 224 a), (within 237 237 a) |].
    destruct t as [| c3 t]; [done |].
    by destruct (within 240 244 a), (within 240 240 a), (within 244 244 a). }
  change (String b s +:+ String c t) with (String b (s +:+ String c t)) in Hv. cbv beta iota in Hv |- *.
  destruct (within 194 223 a); [apply andb_true_iff in Hv as [-> Hv]; apply H; [cbn; lia | done] |].
  destruct s as [| d s].
  { change ("" +:+ String c t) with (String c t) in Hv. cbv beta iota in Hv. rewrite Hcont in Hv.
    destruct (within 224 239 a); [by rewrite andb_false_r in Hv |]. destruct t as [| c3 t]; [done |]. by rewrite andb_false_r in Hv. }
  change (String d s +:+ String c t) with (String d (s +:+ String c t)) in Hv. cbv beta iota in Hv |- *.
  destruct (within 224 239 a); [apply andb_true_iff in Hv as [-> Hv]; apply H; [cbn; lia | done] |].
  destruct s as [| e s].
  { change ("" +:+ String c t) with (String c t) in Hv. cbv beta iota in Hv. by rewrite Hcont, andb_false_r in Hv. }
  change (String e s +:+ String c t) with (String e (s +:+ String c t)) in Hv. cbv beta iota in Hv |- *.
  apply andb_true_iff in Hv as [-> Hv]. apply H; [cbn; lia | done].
Qed.

Definition literals_valid (ts : list token) : Prop := ∀ l, Literal l ∈ ts → valid_utf8 l = true.

Lemma parses_valid s ts : parses s ts → valid_utf8 s = true → literals_valid ts.
Proof.
  intros H. induction H as [| s l Hs E | s l n rest ts E Hp IH]; intros Hv k Hk.
  - by apply elem_of_nil in Hk.
  - apply list_elem_of_singleton in Hk as [= ->]. by apply next_piece_last in E as ->.
  - apply next_piece_hole in E as ->. change (l +:+ "{" +:+ n +:+ "}" +:+ rest) with (l +:+ String "{" (n +:+ String "}" rest)) in Hv.
    pose proof (valid_before l "{" _ eq_refl Hv) as Hl. pose proof (valid_runes_head _ _ Hv Hl) as Hv'.
    change (valid_utf8 (n +:+ String "}" rest) = true) in Hv'. pose proof (valid_before n "}" _ eq_refl Hv') as Hn.
    pose proof (valid_runes_head _ _ Hv' Hn) as Hr. change (valid_utf8 rest = true) in Hr.
    apply elem_of_cons in Hk as [[= ->] | Hk]; [done |]. apply elem_of_cons in Hk as [? | Hk]; [done |]. by apply IH.
Qed.

Lemma no_slash_app s t : no_slash (s +:+ t) ↔ no_slash s ∧ no_slash t.
Proof.
  induction s as [| c s IH]; [cbn; tauto |]. change (String c s +:+ t) with (String c (s +:+ t)). cbn [no_slash]. rewrite IH. tauto.
Qed.

Lemma no_slash_text rs : no_slash (text rs) ↔ Forall no_slash rs.
Proof. induction rs as [| r rs IH]; [by split |]. cbn [text]. by rewrite no_slash_app, Forall_cons, IH. Qed.

Lemma multibyte_no_slash lo hi c : 128 ≤ lo → within lo hi c = true → c ≠ slash.
Proof. intros Hlo H ->. unfold within in H. apply andb_true_iff in H as [H%Nat.leb_le _]. change (nat_of_ascii slash) with 47 in H. lia. Qed.

Lemma second_no_slash c c1 : second_byte c c1 = true → c1 ≠ slash.
Proof.
  unfold second_byte. repeat match goal with |- context [if ?b then _ else _] => destruct b end;
    first [by apply multibyte_no_slash; lia | by apply (multibyte_no_slash 128 191); lia].
Qed.

Lemma runes_no_slash s r : r ∈ runes s → is_slash r = false → no_slash r.
Proof.
  revert r. induction s as [| c s IH] using rune_ind; intros r Hr; [by apply elem_of_nil in Hr |].
  rewrite runes_first in Hr. apply elem_of_cons in Hr as [-> | Hr]; [| by apply IH]. clear IH.
  assert (is_slash (String c "") = false → no_slash (String c "")) as Hone.
  { intros H%bool_decide_eq_false. split; [| done]. intros ->. done. }
  unfold first_rune. destruct (within 0 127 c) eqn:E0; [exact Hone |].
  assert (c ≠ slash) as Hc by (by intros ->).
  assert (∀ x, cont x = true → x ≠ slash) as Hcont by (intros x; by apply (multibyte_no_slash 128 191); lia).
  destruct s as [| c1 s]; [exact Hone |]. destruct (within 194 223 c).
  { destruct (cont c1) eqn:E1; [| exact Hone]. intros _. repeat (split; [by auto |]); done. }
  destruct s as [| c2 s]; [exact Hone |]. destruct (within 224 239 c).
  { destruct (second_byte c c1 && cont c2) eqn:E1; [| exact Hone]. apply andb_true_iff in E1 as [E1%second_no_slash E2]. intros _. repeat (split; [by auto |]); done. }
  destruct s as [| c3 s]; [exact Hone |]. destruct (within 240 244 c && second_byte c c1 && cont c2 && cont c3) eqn:E1; [| exact Hone].
  rewrite !andb_true_iff in E1. destruct E1 as [[[_ E1%second_no_slash] E2] E3]. intros _. repeat (split; [by auto |]); done.
Qed.

Lemma plain_runes v : v ≠ "" → no_slash v → plain (runes v).
Proof.
  intros Hv Hn. split.
  - destruct v; [done |]. by rewrite runes_first.
  - rewrite <- (text_runes v), no_slash_text in Hn. eapply Forall_impl; [exact Hn |]. intros r Hr. apply bool_decide_eq_false. intros ->. by destruct Hr.
Qed.

(** What a reading writes. *)
Lemma spell_fill ts vs rs : NoDup (names_of ts) → length vs = length (names_of ts) → spell ts vs = Some rs →
  ∀ m : gmap string string, (∀ n v, (n, v) ∈ zip (names_of ts) (map text vs) → m !! n = Some v) → fill m ts = Some (text rs).
Proof.
  revert vs rs. induction ts as [| [l | n] ts IH]; intros vs rs Hnd Hlen Hs m Hm.
  - destruct vs; [| done]. by injection Hs as <-.
  - cbn in Hs. destruct (spell ts vs) as [rs' |] eqn:E; cbn in Hs; [| done]. injection Hs as <-. cbn [fill].
    rewrite (IH vs rs') by done. cbn. by rewrite text_app, text_runes.
  - destruct vs as [| v vs]; [done |]. cbn in Hs. destruct (spell ts vs) as [rs' |] eqn:E; cbn in Hs; [| done]. injection Hs as <-.
    cbn [fill]. rewrite (Hm n (text v)) by (by left). apply NoDup_cons in Hnd as [_ Hnd].
    cbn [mbind option_bind]. rewrite (IH vs rs'); [cbn; by rewrite text_app | done | by injection Hlen | done |]. intros n' v' H. apply Hm. by right.
Qed.

(** The reading a filled template is. *)
Lemma fill_spell ts (m : gmap string string) s : literals_valid ts → (∀ n v, m !! n = Some v → v ≠ "" ∧ no_slash v ∧ valid_utf8 v = true) →
  fill m ts = Some s → ∃ vs, spell ts vs = Some (runes s) ∧ Forall plain vs.
Proof.
  intros Hl Hm. revert s. induction ts as [| [l | n] ts IH]; intros s Hf.
  - injection Hf as <-. exists []. by split.
  - cbn in Hf. destruct (fill m ts) as [s' |]; cbn in Hf; [| done]. injection Hf as <-.
    destruct (IH ltac:(intros k Hk; apply Hl; by right) s' eq_refl) as (vs & Hs & Hp). exists vs. cbn. rewrite Hs. cbn.
    rewrite runes_app; [by split | apply Hl; by left].
  - cbn in Hf. destruct (m !! n) as [v |] eqn:Ev; cbn in Hf; [| done]. destruct (fill m ts) as [s' |]; cbn in Hf; [| done]. injection Hf as <-.
    destruct (Hm n v Ev) as (H1 & H2 & H3). destruct (IH ltac:(intros k Hk; apply Hl; by right) s' eq_refl) as (vs & Hs & Hp).
    exists (runes v :: vs). cbn. rewrite Hs. cbn. rewrite runes_app by done. split; [done |]. constructor; [by apply plain_runes | done].
Qed.

Lemma spell_elem ts vs rs v r : spell ts vs = Some rs → v ∈ vs → r ∈ v → r ∈ rs.
Proof.
  revert vs rs. induction ts as [| [l | n] ts IH]; intros vs rs Hs Hv Hr.
  - destruct vs; [by apply elem_of_nil in Hv | done].
  - cbn in Hs. destruct (spell ts vs) as [rs' |] eqn:E; cbn in Hs; [| done]. injection Hs as <-. apply elem_of_app. right. by eapply IH.
  - destruct vs as [| v' vs]; [done |]. cbn in Hs. destruct (spell ts vs) as [rs' |] eqn:E; cbn in Hs; [| done]. injection Hs as <-.
    apply elem_of_app. apply elem_of_cons in Hv as [-> | Hv]; [by left | right; by eapply IH].
Qed.

(** ** Specifications *)

Record operation := mkOperation { From : string; To : string; Strategy : string; Exclude : list string }.

Record output := mkOutput { o_Name : string; o_Revision : string; OriginRevision : string; Copy : list operation }.

Record source := mkSource { s_Alias : string; s_Name : string; s_Namespace : string; s_Kind : string }.

Record specification := mkSpecification { Sources : list source; PathPattern : string; Artifacts : list output }.

Record request := mkRequest { r_Output : output; Captures : gmap string string }.

(** [aliasName] and [sourceName]: the ends are lower-case letters or digits, what is between
    them may also be of [others]. *)
Definition alnum (c : ascii) : bool := within 97 122 c || digit c.

Fixpoint ends_alnum (s : string) : bool :=
  match s with "" => false | String c "" => alnum c | String _ s => ends_alnum s end.

Definition name_of (others : list ascii) (s : string) : bool :=
  match s with "" => false | String c _ => alnum c end && ends_alnum s && every (λ c, alnum c || bool_decide (c ∈ others)) s.

Definition aliasName : string → bool := name_of ["_"; "-"]%char.
Definition sourceName : string → bool := name_of ["-"]%char.

Definition maxPatternLength : nat := 1024.
Definition maxGlobCommas : Z := 20.

(** [sourcePath]: the alias and the pattern. *)
Definition sourcePath (value : string) : string * string + failure :=
  let '(alias, pattern, ok) := Cut value in
  if negb ok || negb (HasPrefix alias "@") || negb (aliasName (TrimPrefix alias "@")) then inr (InvalidSource value)
  else if negb (bool_decide (pattern = "")) && match ArchiveName pattern with inl _ => false | inr _ => true end then inr InvalidArchive
  else inl (TrimPrefix alias "@", pattern).

Definition destinationPath (value : string) : string + failure :=
  let '(destination, ok) := CutPrefix value "@artifact/" in
  if negb ok then inr (InvalidDestination value)
  else if bool_decide (destination = "") then inl "."
  else match ArchiveName destination with inl name => inl name | inr _ => inr InvalidArchive end.

(** One rune of [validateGlob]. *)
Definition glob_rune (st : Z * Z * bool) (c : string) : Z * Z * bool :=
  let '(commas, depth, escaped) := st in
  if escaped then (commas, depth, false)
  else if bool_decide (c = "\") then (commas, depth, true)
  else if bool_decide (c = "{") then (commas, depth + 1, false)%Z
  else if bool_decide (c = "}") then (commas, depth - 1, false)%Z
  else if bool_decide (c = ",") && (0 <? depth)%Z then (commas + 1, depth, false)%Z
  else (commas, depth, false).

Definition validateGlob (pattern : string) : option failure :=
  if (maxGlobCommas <? (foldl glob_rune (0, 0, false) (runes pattern)).1.1)%Z then Some InvalidGlob else None.

Section specifications.
Context (Match : string → string → option bool).

Definition strategies : list string := [""; "Overwrite"; "Merge"; "Extract"].

Fixpoint first_failure {A} (check : A → option failure) (l : list A) : option failure :=
  match l with [] => None | x :: l => match check x with Some e => Some e | None => first_failure check l end end.

Definition check_exclude (pattern : string) : option failure :=
  if maxPatternLength <? String.length pattern then Some OutOfBounds
  else match validateGlob pattern with
       | Some e => Some e
       | None => match Match pattern "." with Some _ => None | None => Some InvalidGlob end
       end.

Definition validateOperation (op : operation) : option failure :=
  if (String.length op.(From) <? 1) || (maxPatternLength <? String.length op.(From)) ||
     (String.length op.(To) <? 1) || (maxPatternLength <? String.length op.(To)) || (100 <? length op.(Exclude))
  then Some OutOfBounds
  else match sourcePath op.(From) with
       | inr e => Some e
       | inl _ =>
           match destinationPath op.(To) with
           | inr e => Some e
           | inl _ => if negb (bool_decide (op.(Strategy) ∈ strategies)) then Some (UnsupportedStrategy op.(Strategy))
                      else first_failure check_exclude op.(Exclude)
           end
       end.

Definition bad_selector (selector : string) : bool :=
  negb (bool_decide (selector = "")) &&
  ((64 <? String.length selector) || negb (HasPrefix selector "@") || negb (aliasName (TrimPrefix selector "@"))).

(** [validateArtifact] also returns the names with the artifact's added. *)
Definition validateArtifact (artifact : output) (aliases names : gset string) : gset string + failure :=
  if (String.length artifact.(o_Name) <? 1) || (253 <? String.length artifact.(o_Name)) ||
     bool_decide (artifact.(o_Name) ∈ names) || bool_decide (artifact.(Copy) = [])
  then inr (InvalidArtifact artifact.(o_Name))
  else if bad_selector artifact.(o_Revision) then inr (InvalidSelector artifact.(o_Revision))
  else if bad_selector artifact.(OriginRevision) then inr (InvalidSelector artifact.(OriginRevision))
  else if negb (bool_decide (artifact.(o_Revision) = "")) && negb (bool_decide (TrimPrefix artifact.(o_Revision) "@" ∈ aliases))
  then inr (UnknownSource artifact.(o_Revision))
  else match first_failure validateOperation artifact.(Copy) with
       | Some e => inr e
       | None => inl ({[artifact.(o_Name)]} ∪ names)
       end.

Definition source_kinds : list string := ["GitRepository"; "OCIRepository"; "Bucket"; "HelmChart"; "ExternalArtifact"].

(** [validateSource]; [explicit] is whether the document names a namespace. *)
Definition validateSource (input : source) (explicit : bool) (aliases : gset string) : gset string + failure :=
  if (63 <? String.length input.(s_Alias)) || negb (aliasName input.(s_Alias)) || bool_decide (input.(s_Alias) ∈ aliases) ||
     (253 <? String.length input.(s_Name)) || negb (sourceName input.(s_Name)) ||
     explicit && ((63 <? String.length input.(s_Namespace)) || negb (sourceName input.(s_Namespace)))
  then inr (InvalidSource input.(s_Alias))
  else if negb (bool_decide (input.(s_Kind) ∈ source_kinds)) then inr (UnsupportedKind input.(s_Kind))
  else inl ({[input.(s_Alias)]} ∪ aliases).

Fixpoint fold_ok {A S} (f : S → A → S + failure) (s : S) (l : list A) : S + failure :=
  match l with [] => inl s | x :: l => match f s x with inl s => fold_ok f s l | inr e => inr e end end.

(** [decodeSpec] of a decoded specification; [explicit] is the list of raw sources, when it
    is one, and whether each names a namespace. *)
Definition decodeSpec (spec : specification) (explicit : option (list bool)) : option failure :=
  if (length spec.(Sources) <? 1) || (1000 <? length spec.(Sources)) || (length spec.(Artifacts) <? 1) ||
     (1000 <? length spec.(Artifacts)) || (maxPatternLength <? String.length spec.(PathPattern))
  then Some OutOfBounds
  else match explicit with
       | None => Some OutOfBounds
       | Some explicit =>
           match fold_ok (λ aliases se, validateSource se.1 se.2 aliases) ∅ (zip spec.(Sources) explicit) with
           | inr e => Some e
           | inl aliases =>
               match fold_ok (λ names artifact, validateArtifact artifact aliases names) ∅ spec.(Artifacts) with
               | inr e => Some e
               | inl _ => None
               end
           end
       end.

End specifications.

(** ** Expansion *)

Section expansion.
Context (IsLabelKey IsLabelValue IsDNSSubdomain : string → bool).

(** [pathMatcher]: the expression and the entries of its source, when there is a pattern. An
    input is what a walk from its root meets: the name of an entry and whether it is a
    directory, or an error that ends the walk. *)
Definition pathMatcher (patternValue : string) (inputs : gmap string (list (option (string * bool))))
    : option (option (list token * list (option (string * bool))) + failure) :=
  if bool_decide (patternValue = "") then Some (inl None)
  else match sourcePath patternValue with
       | inr e => Some (inr e)
       | inl (alias, pattern) =>
           match inputs !! alias with
           | None => Some (inr (UnknownSource alias))
           | Some input => r ← compilePathPattern IsLabelKey pattern;
                           Some (match r with inl matcher => inl (Some (matcher, input)) | inr e => inr e end)
           end
       end.

Fixpoint render_operations (raw : gmap string string) (ops : list operation) : option (list operation + failure) :=
  match ops with
  | [] => Some (inl [])
  | op :: ops =>
      from ← render op.(From) raw;
      match from with
      | inr e => Some (inr e)
      | inl from =>
          to ← render op.(To) raw;
          match to with
          | inr e => Some (inr e)
          | inl to => r ← render_operations raw ops;
                      Some (match r with
                            | inl ops => inl (mkOperation from to op.(Strategy) op.(Exclude) :: ops)
                            | inr e => inr e
                            end)
          end
      end
  end.

Definition renderCopies (artifact : output) (raw : gmap string string) : option (output + failure) :=
  r ← render_operations raw artifact.(Copy);
  Some (match r with
        | inl ops => inl (mkOutput artifact.(o_Name) artifact.(o_Revision) artifact.(OriginRevision) ops)
        | inr e => inr e
        end).

Record requestExpansion := mkExpansion { requests : list request; x_names : gset string }.

(** One artifact of [add]: it claims its name before its copies are rendered. *)
Definition add_artifact (normalized raw : gmap string string) (x : requestExpansion) (artifact : output)
    : option (requestExpansion * option failure) :=
  r ← render artifact.(o_Name) normalized;
  match r with
  | inr e => Some (x, Some e)
  | inl name =>
      if negb (IsDNSSubdomain name) || bool_decide (name ∈ x.(x_names)) then Some (x, Some (InvalidOutput name))
      else
        let x := mkExpansion x.(requests) ({[name]} ∪ x.(x_names)) in
        r ← renderCopies (mkOutput name artifact.(o_Revision) artifact.(OriginRevision) artifact.(Copy)) raw;
        Some (match r with
              | inl artifact => (mkExpansion (x.(requests) ++ [mkRequest artifact normalized]) x.(x_names), None)
              | inr e => (x, Some e)
              end)
  end.

Fixpoint add_all {A} (f : requestExpansion → A → option (requestExpansion * option failure)) (x : requestExpansion) (l : list A)
    : option (requestExpansion * option failure) :=
  match l with
  | [] => Some (x, None)
  | a :: l => r ← f x a; match r with (x, None) => add_all f x l | (x, Some e) => Some (x, Some e) end
  end.

Definition normalize (raw : gmap string string) : gmap string string := ToLower <$> raw.

Definition add (artifacts : list output) (x : requestExpansion) (raw : gmap string string) : option (requestExpansion * option failure) :=
  if bool_decide (map_Forall (λ _ v, IsLabelValue v = true) (normalize raw))
  then add_all (add_artifact (normalize raw) raw) x artifacts
  else Some (x, Some InvalidCapture).

(** One entry of the walk. *)
Definition visit (artifacts : list output) (matcher : list token) (x : requestExpansion) (entry : option (string * bool))
    : option (requestExpansion * option failure) :=
  match entry with
  | None => Some (x, Some WalkFailed)
  | Some (name, is_dir) =>
      if bool_decide (name = ".") || negb is_dir then Some (x, None)
      else match FindStringSubmatch matcher name with
           | None => Some (x, None)
           | Some captures => add artifacts x (list_to_map captures)
           end
  end.

Definition expand (spec : specification) (inputs : gmap string (list (option (string * bool)))) : option (list request * option failure) :=
  r ← pathMatcher spec.(PathPattern) inputs;
  match r with
  | inr e => Some ([], Some e)
  | inl m =>
      r ← (match m with
           | None => add spec.(Artifacts) (mkExpansion [] ∅) ∅
           | Some (matcher, input) => add_all (visit spec.(Artifacts) matcher) (mkExpansion [] ∅) input
           end);
      Some (requests r.1, r.2)
  end.

End expansion.

(** ** Copies *)

Section copies.
Context (Match : string → string → option bool).

Definition glob_char (c : ascii) : bool := bool_decide (c ∈ ["*"; "?"; "["; "]"]%char).
Fixpoint has_glob (s : string) : bool := match s with "" => false | String c s => glob_char c || has_glob s end.

Fixpoint glob_root (root : string) (components : list string) : string :=
  match components with
  | component :: components => if has_glob component then root else glob_root (Join2 root component) components
  | [] => root
  end.

(** The paths of a [copyPlan]. *)
Record copyPlan := mkPlan { c_alias : string; c_pattern : string; c_destination : string; c_root : string; c_glob : bool; c_to : string }.

(** [prepareCopy] up to the reading of the source; [known] are the aliases it knows. *)
Definition prepareCopy (known : gset string) (op : operation) : copyPlan + failure :=
  match sourcePath op.(From) with
  | inr e => inr e
  | inl (alias, pattern) =>
      let pattern := if bool_decide (pattern = "") then "." else pattern in
      match validateGlob pattern with
      | Some e => inr e
      | None =>
          if negb (bool_decide (alias ∈ known)) then inr (UnknownSource alias)
          else match destinationPath op.(To) with
               | inr e => inr e
               | inl destination =>
                   let glob := has_glob pattern in
                   inl (mkPlan alias pattern destination
                          (if glob then glob_root "." (Split (Clean pattern)) else Clean pattern) glob op.(To))
               end
      end
  end.

(** [strings.CutSuffix]. *)
Fixpoint CutSuffix (s suffix : string) : option string :=
  if bool_decide (s = suffix) then Some ""
  else match s with "" => None | String c s => String c <$> CutSuffix s suffix end.

Definition excluded (name root : string) (patterns : list string) : bool :=
  let relative := TrimPrefix name (default root (CutSuffix root "/") +:+ "/") in
  existsb (λ pattern,
    existsb (λ value, default false (Match pattern value)) [name; relative] ||
    negb (Contains pattern "/") && default false (Match pattern (Base name))) patterns.

(** [copyDestination]: where [name] goes, when [is_dir] it is a directory and [previous] the
    destination already is one. *)
Definition copyDestination (p : copyPlan) (name : string) (is_dir previous : bool) : string :=
  if p.(c_glob) then
    Join2 p.(c_destination) (match CutSuffix p.(c_pattern) "/**" with
                             | Some prefix => TrimPrefix name (prefix +:+ "/")
                             | None => name
                             end)
  else if is_dir || bool_decide (is_Some (CutSuffix p.(c_to) "/")) || previous
  then Join2 p.(c_destination) (Base name)
  else p.(c_destination).

(** The names [apply] copies of the plan's matches, and whether it fails for want of any. *)
Definition selected (p : copyPlan) (exclude : list string) (matches : list string) : list string * bool :=
  let names := filter (λ name, negb (p.(c_glob) && bool_decide (name = ".") || excluded name p.(c_root) exclude) = true) matches in
  (names, p.(c_glob) && bool_decide (names = [])).

End copies.

(** ** What is validated *)

Lemma first_failure_None {A} (check : A → option failure) l : first_failure check l = None ↔ ∀ x, x ∈ l → check x = None.
Proof.
  induction l as [| x l IH]; [split; [by intros _ x ?%elem_of_nil | done] |]. cbn [first_failure]. setoid_rewrite elem_of_cons.
  destruct (check x) eqn:E.
  - split; [done |]. intros H. rewrite H in E by (by left). done.
  - rewrite IH. split; [intros H y [-> |]; auto | auto].
Qed.

(** A fold that accepts elements of distinct keys. *)
Lemma fold_ok_spec {A} (f : gset string → A → gset string + failure) (key : A → string) (ok : A → Prop) l :
  (∀ s x, match f s x with inl s' => s' = {[key x]} ∪ s ∧ key x ∉ s ∧ ok x | inr _ => key x ∈ s ∨ ¬ ok x end) →
  ∀ s, match fold_ok f s l with
       | inl s' => (∀ k, k ∈ s' ↔ k ∈ s ∨ k ∈ map key l) ∧ NoDup (map key l) ∧ (∀ k, k ∈ map key l → k ∉ s) ∧ Forall ok l
       | inr _ => ¬ (NoDup (map key l) ∧ (∀ k, k ∈ map key l → k ∉ s) ∧ Forall ok l)
       end.
Proof.
  intros H. induction l as [| x l IH]; intros s.
  - cbn. split; [intros k; rewrite elem_of_nil; tauto |]. split; [constructor |]. split; [by intros k ?%elem_of_nil | constructor].
  - cbn [fold_ok map]. specialize (H s x). destruct (f s x) as [s1 | e].
    + destruct H as (-> & Hn & Hok). specialize (IH ({[key x]} ∪ s)). destruct (fold_ok f _ l) as [s2 | e].
      * destruct IH as (Hs & Hnd & Hd & Hf). setoid_rewrite elem_of_union in Hd. setoid_rewrite elem_of_singleton in Hd.
        split; [intros k; rewrite Hs, elem_of_union, elem_of_singleton, elem_of_cons; tauto |]. split; [constructor; [| done] |].
        -- intros Hin. apply (Hd _ Hin). by left.
        -- split; [| by constructor]. intros k [-> | Hk]%elem_of_cons; [done |]. intros Hks. apply (Hd k Hk). by right.
      * intros (Hnd & Hd & Hf). apply IH. apply NoDup_cons in Hnd as [Hx Hnd]. apply Forall_cons in Hf as [_ Hf]. split; [done |]. split; [| done].
        intros k Hk. rewrite elem_of_union, elem_of_singleton. intros [-> | Hks]; [done |]. apply (Hd k); [by right | done].
    + intros (_ & Hd & Hf). apply Forall_cons in Hf as [Hok _]. destruct H as [H | H]; [| done]. apply (Hd (key x)); [by left | done].
Qed.

Definition source_ok (se : source * bool) : Prop :=
  let '(s, explicit) := se in
  String.length s.(s_Alias) ≤ 63 ∧ aliasName s.(s_Alias) = true ∧ String.length s.(s_Name) ≤ 253 ∧ sourceName s.(s_Name) = true ∧
  (explicit = true → String.length s.(s_Namespace) ≤ 63 ∧ sourceName s.(s_Namespace) = true) ∧ s.(s_Kind) ∈ source_kinds.

Definition selector_ok (s : string) : Prop :=
  s = "" ∨ String.length s ≤ 64 ∧ HasPrefix s "@" = true ∧ aliasName (TrimPrefix s "@") = true.

Section validity.
Context (Match : string → string → option bool).

(** An operation within the bounds of the API, whose paths are a source and a destination. *)
Definition operation_ok (op : operation) : Prop :=
  1 ≤ String.length op.(From) ≤ maxPatternLength ∧ 1 ≤ String.length op.(To) ≤ maxPatternLength ∧ length op.(Exclude) ≤ 100 ∧
  (∃ s, sourcePath op.(From) = inl s) ∧ (∃ d, destinationPath op.(To) = inl d) ∧ op.(Strategy) ∈ strategies ∧
  ∀ p, p ∈ op.(Exclude) → String.length p ≤ maxPatternLength ∧ validateGlob p = None ∧ is_Some (Match p ".").

Definition artifact_ok (aliases : list string) (a : output) : Prop :=
  1 ≤ String.length a.(o_Name) ≤ 253 ∧ a.(Copy) ≠ [] ∧ selector_ok a.(o_Revision) ∧ selector_ok a.(OriginRevision) ∧
  (a.(o_Revision) ≠ "" → TrimPrefix a.(o_Revision) "@" ∈ aliases) ∧ ∀ op, op ∈ a.(Copy) → operation_ok op.

Lemma bad_selector_spec s : bad_selector s = false ↔ selector_ok s.
Proof.
  unfold bad_selector, selector_ok. rewrite andb_false_iff, !orb_false_iff, !negb_false_iff, bool_decide_eq_true, Nat.ltb_ge. tauto.
Qed.

Lemma validateOperation_spec op : validateOperation Match op = None ↔ operation_ok op.
Proof.
  unfold validateOperation, operation_ok. rewrite <- !Nat.ltb_ge.
  destruct (String.length (From op) <? 1), (maxPatternLength <? String.length (From op)), (String.length (To op) <? 1),
    (maxPatternLength <? String.length (To op)), (100 <? length (Exclude op)); cbn [orb];
    try (split; [done |]; by intros ([? ?] & [? ?] & ? & _)).
  destruct (sourcePath (From op)) as [src | e]; [| split; [done |]; by intros (_ & _ & _ & [? [=]] & _)].
  destruct (destinationPath (To op)) as [dst | e]; [| split; [done |]; by intros (_ & _ & _ & _ & [? [=]] & _)].
  case_bool_decide as Hst; cbn [negb]; [| split; [done |]; tauto]. rewrite first_failure_None.
  assert (∀ p, check_exclude Match p = None ↔ String.length p ≤ maxPatternLength ∧ validateGlob p = None ∧ is_Some (Match p ".")) as Hc.
  { intros p. unfold check_exclude. destruct (Nat.ltb_spec maxPatternLength (String.length p)); [split; [done | lia] |].
    destruct (validateGlob p); [split; [done | by intros (_ & [=] & _)] |].
    destruct (Match p ".") as [b |]; [split; eauto | split; [done | by intros (_ & _ & [? [=]])]]. }
  split.
  - intros H. do 3 (split; [done |]). do 2 (split; [by eexists |]). split; [done |]. intros p Hp. by apply Hc, H.
  - intros (_ & _ & _ & _ & _ & _ & H) p Hp. by apply Hc, H.
Qed.

Lemma validateSource_spec s se : match validateSource se.1 se.2 s with
  | inl s' => s' = {[s_Alias se.1]} ∪ s ∧ s_Alias se.1 ∉ s ∧ source_ok se
  | inr _ => s_Alias se.1 ∈ s ∨ ¬ source_ok se end.
Proof.
  destruct se as [i e]. cbn [fst snd]. unfold validateSource, source_ok.
  destruct (Nat.ltb_spec 63 (String.length (s_Alias i))); cbn [orb]; [right; lia |].
  destruct (aliasName (s_Alias i)); cbn [negb orb]; [| right; tauto || (intros (_ & [=] & _))].
  case_bool_decide; cbn [orb]; [by left |]. destruct (Nat.ltb_spec 253 (String.length (s_Name i))); cbn [orb]; [right; lia |].
  destruct (sourceName (s_Name i)); cbn [negb orb]; [| right; intros (_ & _ & _ & [=] & _)].
  destruct (e && _) eqn:Ee; cbn [orb].
  - right. intros (_ & _ & _ & _ & Hns & _). apply andb_true_iff in Ee as [-> Ee]. destruct (Hns eq_refl) as [Hl Hn].
    rewrite Hn, orb_false_r in Ee. apply Nat.ltb_lt in Ee. lia.
  - case_bool_decide; cbn [negb]; [| right; tauto]. split; [done |]. split; [done |]. do 4 (split; [done |]). split; [| done].
    intros ->. cbn [andb] in Ee. by apply orb_false_iff in Ee as [Hl%Nat.ltb_ge Hn%negb_false_iff].
Qed.

Lemma validateArtifact_spec (aliases : gset string) l s a : (∀ x, x ∈ aliases ↔ x ∈ l) → match validateArtifact Match a aliases s with
  | inl s' => s' = {[o_Name a]} ∪ s ∧ o_Name a ∉ s ∧ artifact_ok l a
  | inr _ => o_Name a ∈ s ∨ ¬ artifact_ok l a end.
Proof.
  intros Hl. assert (artifact_ok l a ↔ 1 ≤ String.length (o_Name a) ≤ 253 ∧ Copy a ≠ [] ∧ bad_selector (o_Revision a) = false ∧
    bad_selector (OriginRevision a) = false ∧ (o_Revision a ≠ "" → TrimPrefix (o_Revision a) "@" ∈ aliases) ∧
    first_failure (validateOperation Match) (Copy a) = None) as Hok.
  { unfold artifact_ok. rewrite !bad_selector_spec, Hl, first_failure_None. by setoid_rewrite validateOperation_spec. }
  unfold validateArtifact.
  destruct (Nat.ltb_spec (String.length (o_Name a)) 1); cbn [orb]; [right; rewrite Hok; lia |].
  destruct (Nat.ltb_spec 253 (String.length (o_Name a))); cbn [orb]; [right; rewrite Hok; lia |].
  case_bool_decide; cbn [orb]; [by left |]. case_bool_decide; [right; rewrite Hok; tauto |].
  destruct (bad_selector (o_Revision a)) eqn:E1; [right; rewrite Hok; intros (_ & _ & [=] & _) |].
  destruct (bad_selector (OriginRevision a)) eqn:E2; [right; rewrite Hok; intros (_ & _ & _ & [=] & _) |].
  destruct (negb (bool_decide (o_Revision a = "")) && negb (bool_decide (TrimPrefix (o_Revision a) "@" ∈ aliases))) eqn:Er.
  - right. rewrite Hok. intros (_ & _ & _ & _ & Hr & _). apply andb_true_iff in Er as [F1%negb_true_iff%bool_decide_eq_false F2%negb_true_iff%bool_decide_eq_false]. auto.
  - destruct (first_failure (validateOperation Match) (Copy a)) eqn:Ef; [right; rewrite Hok; by intros (_ & _ & _ & _ & _ & [=]) |].
    split; [done |]. split; [done |]. rewrite Hok. split; [lia |]. do 3 (split; [done |]). split; [| done].
    intros Hne. apply andb_false_iff in Er. rewrite !negb_false_iff, !bool_decide_eq_true in Er. by destruct Er.
Qed.

(** What a specification the code accepts is. *)
Definition specification_ok (spec : specification) (explicit : list bool) : Prop :=
  1 ≤ length spec.(Sources) ≤ 1000 ∧ 1 ≤ length spec.(Artifacts) ≤ 1000 ∧ String.length spec.(PathPattern) ≤ maxPatternLength ∧
  NoDup (map s_Alias spec.(Sources)) ∧ Forall source_ok (zip spec.(Sources) explicit) ∧
  NoDup (map o_Name spec.(Artifacts)) ∧ Forall (artifact_ok (map s_Alias spec.(Sources))) spec.(Artifacts).

Lemma decodeSpec_spec spec explicit : length explicit = length spec.(Sources) →
  decodeSpec Match spec (Some explicit) = None ↔ specification_ok spec explicit.
Proof.
  intros Hlen. unfold decodeSpec, specification_ok.
  destruct (Nat.ltb_spec (length (Sources spec)) 1); cbn [orb]; [split; [done | lia] |].
  destruct (Nat.ltb_spec 1000 (length (Sources spec))); cbn [orb]; [split; [done | lia] |].
  destruct (Nat.ltb_spec (length (Artifacts spec)) 1); cbn [orb]; [split; [done | lia] |].
  destruct (Nat.ltb_spec 1000 (length (Artifacts spec))); cbn [orb]; [split; [done | lia] |].
  destruct (Nat.ltb_spec maxPatternLength (String.length (PathPattern spec))); [split; [done | lia] |].
  pose proof (fold_ok_spec (λ aliases se, validateSource se.1 se.2 aliases) (λ se, s_Alias se.1) source_ok (zip (Sources spec) explicit)
    validateSource_spec ∅) as Hs.
  assert (map (λ se : source * bool, s_Alias se.1) (zip (Sources spec) explicit) = map s_Alias (Sources spec)) as E.
  { rewrite <- (map_map fst s_Alias). f_equal. apply fst_zip. lia. }
  rewrite E in Hs. destruct (fold_ok _ ∅ (zip _ _)) as [aliases | e].
  - destruct Hs as (Hal & Hnd & _ & Hf).
    pose proof (fold_ok_spec (λ names a, validateArtifact Match a aliases names) o_Name (artifact_ok (map s_Alias (Sources spec))) (Artifacts spec)) as Ha.
    specialize (Ha ltac:(intros s a; apply validateArtifact_spec; intros x; rewrite Hal; set_solver) ∅).
    destruct (fold_ok _ ∅ (Artifacts spec)) as [names | e].
    + destruct Ha as (_ & Hnd' & _ & Hf'). split; [done |]. done.
    + split; [done |]. intros (_ & _ & _ & _ & _ & Hnd' & Hf'). destruct Ha. split; [done |]. split; [set_solver | done].
  - split; [done |]. intros (_ & _ & _ & Hnd & Hf & _). destruct Hs. split; [done |]. split; [set_solver | done].
Qed.

End validity.

(** ** What is expanded *)

Definition request_name (r : request) : string := r.(r_Output).(o_Name).

Definition rendered_operation (raw : gmap string string) (op op' : operation) : Prop :=
  render op.(From) raw = Some (inl op'.(From)) ∧ render op.(To) raw = Some (inl op'.(To)) ∧
  op'.(Strategy) = op.(Strategy) ∧ op'.(Exclude) = op.(Exclude).

Lemma render_operations_spec raw ops : ∃ r, render_operations raw ops = Some r ∧
  match r with inl ops' => Forall2 (rendered_operation raw) ops ops' | inr _ => True end.
Proof.
  induction ops as [| op ops IH]; [eexists; split; [reflexivity | constructor] |]. cbn [render_operations].
  destruct (render_spec (From op) raw) as (f & Hf & _). rewrite Hf. cbn [mbind option_bind]. destruct f as [f | e]; [| by eexists].
  destruct (render_spec (To op) raw) as (t & Ht & _). rewrite Ht. cbn [mbind option_bind]. destruct t as [t | e]; [| by eexists].
  destruct IH as (r & -> & Hr). cbn [mbind option_bind]. eexists. split; [reflexivity |]. destruct r as [ops' | e]; [| done].
  constructor; [| done]. by split.
Qed.

Section expanded.
Context (IsLabelKey IsLabelValue IsDNSSubdomain : string → bool).

(** The request of an artifact for what was captured. *)
Definition rendered (raw : gmap string string) (a : output) (r : request) : Prop :=
  render a.(o_Name) (normalize raw) = Some (inl (request_name r)) ∧ IsDNSSubdomain (request_name r) = true ∧
  r.(Captures) = normalize raw ∧ r.(r_Output).(o_Revision) = a.(o_Revision) ∧ r.(r_Output).(OriginRevision) = a.(OriginRevision) ∧
  Forall2 (rendered_operation raw) a.(Copy) r.(r_Output).(Copy).

(** The names in use are those claimed. *)
Definition claims (x : requestExpansion) : Prop :=
  NoDup (map request_name x.(requests)) ∧ ∀ n, n ∈ map request_name x.(requests) → n ∈ x.(x_names).

(** An operation on expansions that appends what [P] says of its argument when it succeeds. *)
Definition appends {A} (f : requestExpansion → A → option (requestExpansion * option failure)) (P : A → list request → Prop) : Prop :=
  ∀ x a, claims x → ∃ x' e, f x a = Some (x', e) ∧ claims x' ∧
    (e = None → ∃ rs, x'.(requests) = x.(requests) ++ rs ∧ P a rs).

Lemma add_all_appends {A} f (P : A → list request → Prop) : appends f P → appends (add_all f) (λ l rs, ∃ rss, Forall2 P l rss ∧ rs = concat rss).
Proof.
  intros Hf x l. revert x. induction l as [| a l IH]; intros x Hx.
  - exists x, None. split; [done |]. split; [done |]. intros _. exists []. rewrite app_nil_r. split; [done |]. exists []. by split; [constructor |].
  - cbn [add_all]. destruct (Hf x a Hx) as (x1 & e1 & -> & Hx1 & H1). cbn [mbind option_bind]. destruct e1 as [e1 |]; [by exists x1, (Some e1) |].
    destruct (IH x1 Hx1) as (x2 & e2 & -> & Hx2 & H2). exists x2, e2. split; [done |]. split; [done |]. intros He.
    destruct (H1 eq_refl) as (rs1 & E1 & HP1), (H2 He) as (rs2 & E2 & rss & HP2 & ->). exists (rs1 ++ concat rss).
    rewrite E2, E1, app_assoc. split; [done |]. exists (rs1 :: rss). by split; [constructor |].
Qed.

Lemma add_artifact_appends raw : appends (add_artifact IsDNSSubdomain (normalize raw) raw) (λ a rs, ∃ r, rs = [r] ∧ rendered raw a r).
Proof.
  intros x a [Hnd Hin]. unfold add_artifact. destruct (render_spec (o_Name a) (normalize raw)) as (r & Hr & _). rewrite Hr. cbn [mbind option_bind].
  destruct r as [name | e]; [| by exists x, (Some e)].
  destruct (negb (IsDNSSubdomain name) || bool_decide (name ∈ x_names x)) eqn:En; [by exists x, (Some (InvalidOutput name)) |].
  apply orb_false_iff in En as [Hd%negb_false_iff Hn%bool_decide_eq_false]. unfold renderCopies. cbn [Copy o_Name o_Revision OriginRevision].
  destruct (render_operations_spec raw (Copy a)) as (ops & -> & Hops). cbn [mbind option_bind]. destruct ops as [ops | e].
  - eexists _, None. split; [reflexivity |]. split.
    + split; cbn [requests x_names].
      * rewrite map_app. apply NoDup_app. split; [done |]. split; [| apply NoDup_singleton]. intros n Hn1 ->%list_elem_of_singleton. by apply Hn, Hin.
      * intros n. rewrite map_app, elem_of_app. cbn [map]. rewrite list_elem_of_singleton, elem_of_union, elem_of_singleton.
        intros [H | ->]; [right; by apply Hin | by left].
    + intros _. eexists. split; [reflexivity |]. eexists. split; [reflexivity |]. by repeat split.
  - eexists _, (Some e). split; [reflexivity |]. split; [| done]. split; [done |]. cbn [requests x_names]. intros n Hn1. rewrite elem_of_union. right. by apply Hin.
Qed.

(** The requests of what was captured: one per artifact, in order. *)
Definition expanded_from (artifacts : list output) (raw : gmap string string) (rs : list request) : Prop :=
  map_Forall (λ _ v, IsLabelValue v = true) (normalize raw) ∧ Forall2 (rendered raw) artifacts rs.

Lemma add_appends artifacts : appends (add IsLabelValue IsDNSSubdomain artifacts) (expanded_from artifacts).
Proof.
  intros x raw Hx. unfold add. case_bool_decide as Hl; [| by exists x, (Some InvalidCapture)].
  destruct (add_all_appends _ _ (add_artifact_appends raw) x artifacts Hx) as (x' & e & -> & Hx' & H). exists x', e. split; [done |]. split; [done |].
  intros He. destruct (H He) as (rs & E & rss & HF & ->). exists (concat rss). split; [done |]. split; [done |].
  clear -HF. induction HF as [| a rs l rss (r & -> & Hr) _ IH]; [constructor |]. cbn. by constructor.
Qed.

(** What an entry of a walk captures. *)
Definition raw_of (matcher : list token) (entry : option (string * bool)) : option (gmap string string) :=
  match entry with
  | Some (name, true) => if bool_decide (name = ".") then None else list_to_map <$> FindStringSubmatch matcher name
  | _ => None
  end.

Lemma visit_appends artifacts matcher : appends (visit IsLabelValue IsDNSSubdomain artifacts matcher)
  (λ entry rs, is_Some entry ∧ match raw_of matcher entry with Some raw => expanded_from artifacts raw rs | None => rs = [] end).
Proof.
  intros x entry Hx. unfold visit, raw_of. destruct entry as [[name is_dir] |]; [| by exists x, (Some WalkFailed)].
  assert (∃ x' (e : option failure), Some (x, None) = Some (x', e) ∧ claims x' ∧ (e = None → ∃ rs : list request, requests x' = requests x ++ rs ∧ is_Some (Some (name, is_dir)) ∧ rs = [])) as Hskip.
  { exists x, None. split; [done |]. split; [done |]. intros _. exists []. by rewrite app_nil_r. }
  case_bool_decide; cbn [orb]; [by destruct is_dir |]. destruct is_dir; cbn [negb]; [| done].
  destruct (FindStringSubmatch matcher name) as [captures |]; cbn [fmap option_fmap option_map]; [| done].
  destruct (add_appends artifacts x (list_to_map captures) Hx) as (x' & e & -> & Hx' & Hadd). exists x', e. split; [done |]. split; [done |].
  intros He. destruct (Hadd He) as (rs & E & HP). by exists rs.
Qed.

(** What a specification captures of its inputs, in the order of the walk. *)
Definition captured (spec : specification) (inputs : gmap string (list (option (string * bool)))) (raws : list (gmap string string)) : Prop :=
  spec.(PathPattern) = "" ∧ raws = [∅] ∨
  ∃ alias pattern matcher input, sourcePath spec.(PathPattern) = inl (alias, pattern) ∧
    compilePathPattern IsLabelKey pattern = Some (inl matcher) ∧ inputs !! alias = Some input ∧
    Forall is_Some input ∧ raws = omap (raw_of matcher) input.

Lemma expand_spec spec inputs : ∃ rs e, expand IsLabelKey IsLabelValue IsDNSSubdomain spec inputs = Some (rs, e) ∧
  NoDup (map request_name rs) ∧
  (e = None → ∃ raws rss, captured spec inputs raws ∧ Forall2 (expanded_from spec.(Artifacts)) raws rss ∧ rs = concat rss).
Proof.
  unfold expand, pathMatcher. assert (claims (mkExpansion [] ∅)) as H0 by (split; [constructor | by intros n ?%elem_of_nil]).
  case_bool_decide as Hp; cbn [mbind option_bind].
  { destruct (add_appends (Artifacts spec) (mkExpansion [] ∅) ∅ H0) as (x & e & -> & [Hnd _] & H). cbn [mbind option_bind fst snd]. exists (requests x), e.
    split; [done |]. split; [done |]. intros He. destruct (H He) as (rs & E & HP). exists [∅], [rs]. split; [by left |].
    split; [by constructor |]. cbn. by rewrite app_nil_r. }
  destruct (sourcePath (PathPattern spec)) as [[alias pattern] | e] eqn:Es; [| exists [], (Some e); split; [done |]; split; [constructor | done]].
  destruct (inputs !! alias) as [input |] eqn:Ei; [| exists [], (Some (UnknownSource alias)); split; [done |]; split; [constructor | done]].
  destruct (compile_spec IsLabelKey pattern) as (r & Hr & _). rewrite Hr. cbn [mbind option_bind].
  destruct r as [matcher | e]; [| exists [], (Some e); split; [done |]; split; [constructor | done]].
  destruct (add_all_appends _ _ (visit_appends (Artifacts spec) matcher) (mkExpansion [] ∅) input H0) as (x & e & -> & [Hnd _] & H).
  cbn [mbind option_bind fst snd]. exists (requests x), e. split; [done |]. split; [done |]. intros He. destruct (H He) as (rs & E & rss & HF & ->).
  cbn [requests app] in E. rewrite E. clear E H Hnd.
  assert (Forall is_Some input ∧ ∃ rss', Forall2 (expanded_from (Artifacts spec)) (omap (raw_of matcher) input) rss' ∧ concat rss = concat rss') as (Hs & rss' & HF' & E).
  { clear -HF. induction HF as [| entry rs l rss [Hs Hr] _ (IH1 & rss' & IH2 & E)]; [split; [constructor |]; exists []; by split; [constructor |] |].
    split; [by constructor |]. cbn [omap list_omap]. destruct (raw_of matcher entry).
    - exists (rs :: rss'). cbn. rewrite E. by split; [constructor |].
    - exists rss'. subst rs. by split. }
  exists (omap (raw_of matcher) input), rss'. split; [| by split]. right. by exists alias, pattern, matcher, input.
Qed.

End expanded.

(** ** Where copies go *)

Lemma Split_app_slash a b : Split (a +:+ String slash b) = Split a ++ Split b.
Proof.
  pose proof (Split_no_slash a) as Hn. rewrite <- (Join_Split a) at 1. pose proof (Split_nonempty a) as Hne. revert Hn Hne.
  generalize (Split a) as ps. induction ps as [| p ps IH]; [done |]. intros [Hp Hps]%Forall_cons _. destruct ps as [| q ps].
  - cbn [Join app]. by apply Split_app.
  - rewrite Join_cons by done. rewrite string_app_assoc. change (String slash (Join (q :: ps)) +:+ String slash b) with (String slash (Join (q :: ps) +:+ String slash b)).
    rewrite Split_app by done. cbn [app]. f_equal. by apply IH.
Qed.

Lemma Join2_path_of ds qs : parts_ok ds → parts_ok qs → Join2 (path_of ds) (path_of qs) = path_of (ds ++ qs).
Proof.
  intros Hd Hq. unfold Join2. assert (path_of ds ≠ "") as Hne.
  { destruct ds as [| d ds]; [done |]. by apply (Join_first (d :: ds)). }
  rewrite bool_decide_false by done. assert (parts_ok (ds ++ qs)) as Hdq by by apply parts_ok_app.
  rewrite Clean_text. assert (IsAbs (path_of ds +:+ String slash (path_of qs)) = false) as Ha.
  { rewrite IsAbs_app by done. destruct ds as [| d ds]; [done |]. by apply (Join_first (d :: ds)). }
  rewrite Ha. unfold parts. rewrite Ha, Split_app_slash.
  assert (∀ ps out, parts_ok ps → clean_parts false (Split (path_of ps)) out = out ++ ps) as Hcl.
  { intros ps out Hps. destruct ps as [| p ps]; [cbn; by rewrite app_nil_r |]. rewrite Split_path_of by done. apply clean_parts_valid. by apply parts_valid. }
  rewrite clean_parts_app, Hcl, Hcl by done. cbn [app]. by destruct (ds ++ qs).
Qed.

Lemma parts_ok_suffix ps qs : parts_ok (ps ++ qs) → parts_ok qs.
Proof. by intros [_ ?]%parts_ok_app. Qed.

(** What is left of a path of the tree below a prefix is one. *)
Lemma TrimPrefix_path_of ns prefix : parts_ok ns → ∃ qs, parts_ok qs ∧ TrimPrefix (path_of ns) (prefix +:+ "/") = path_of qs.
Proof.
  intros Hn. destruct (HasPrefix (path_of ns) (prefix +:+ "/")) eqn:Hp.
  - apply HasPrefix_app in Hp as [t Ht]. rewrite Ht, TrimPrefix_app. rewrite string_app_assoc in Ht. change ("/" +:+ t) with (String slash t) in Ht.
    destruct ns as [| n ns]. { exfalso. apply (f_equal Split) in Ht. rewrite Split_app_slash in Ht. cbn in Ht. pose proof (Split_nonempty prefix) as H1.
      pose proof (Split_nonempty t) as H2. destruct (Split prefix) as [| ? [|]], (Split t); done. }
    pose proof (Split_path_of _ Hn ltac:(done)) as Hs. rewrite Ht, Split_app_slash in Hs. exists (Split t). rewrite <- Hs in Hn.
    apply parts_ok_suffix in Hn. split; [done |]. pose proof (Split_nonempty t). pose proof (Join_Split t) as Hj. destruct (Split t); [done |]. by rewrite <- Hj.
  - exists ns. split; [done |]. unfold TrimPrefix. by rewrite Hp.
Qed.

Lemma Base_parts ns : parts_ok ns → ∃ qs, parts_ok qs ∧ Base (path_of ns) = path_of qs.
Proof.
  intros Hn. destruct ns as [| n ns] using rev_ind; [exists []; by split; [constructor |] |]. clear IHns. rewrite Base_path_of by done.
  exists [n]. split; [by apply parts_ok_suffix in Hn | done].
Qed.

Lemma ArchiveName_parts name p : ArchiveName name = inl p → ∃ ps, parts_ok ps ∧ p = path_of ps.
Proof. intros (s & Hs & -> & _)%ArchiveName_checked. destruct (checked_clean s Hs) as (ps & Hok & E & _). by exists ps. Qed.

(** Every copy of an accepted plan stays under its destination, itself in the artifact. *)
Lemma copyDestination_spec known op p ns is_dir previous : prepareCopy known op = inl p → parts_ok ns →
  ∃ ds qs, parts_ok (ds ++ qs) ∧ p.(c_destination) = path_of ds ∧ copyDestination p (path_of ns) is_dir previous = path_of (ds ++ qs).
Proof.
  intros H Hn. unfold prepareCopy in H. destruct (sourcePath (From op)) as [[alias pattern] | e]; [| done]. cbv zeta in H.
  destruct (validateGlob _); [done |]. destruct (negb _); [done |]. destruct (destinationPath (To op)) as [destination | e] eqn:Ed; [| done].
  injection H as <-. cbn [c_destination].
  assert (∃ ds, parts_ok ds ∧ destination = path_of ds) as (ds & Hds & ->).
  { unfold destinationPath in Ed. destruct (CutPrefix (To op) "@artifact/") as [d ok]. destruct (negb ok); [done |].
    case_bool_decide; [injection Ed as <-; exists []; by split; [constructor |] |].
    destruct (ArchiveName d) as [name | []] eqn:Ea; [| done]. injection Ed as ->. destruct (ArchiveName_parts _ _ Ea) as (ds & ? & ?). by exists ds. }
  unfold copyDestination. cbn [c_glob c_destination c_pattern c_to].
  assert (∀ qs, parts_ok qs → ∃ ds' qs', parts_ok (ds' ++ qs') ∧ path_of ds = path_of ds' ∧ Join2 (path_of ds) (path_of qs) = path_of (ds' ++ qs')) as Hj.
  { intros qs Hqs. exists ds, qs. rewrite Join2_path_of by done. by rewrite parts_ok_app. }
  destruct (has_glob _).
  - destruct (CutSuffix _ "/**") as [prefix |]; [| by apply Hj]. destruct (TrimPrefix_path_of ns prefix Hn) as (qs & Hqs & ->). by apply Hj.
  - destruct (_ || _); [destruct (Base_parts ns Hn) as (qs & Hqs & ->); by apply Hj |]. exists ds, []. rewrite app_nil_r. by split.
Qed.

Lemma runes_nonempty s r : r ∈ runes s → r ≠ "".
Proof.
  induction s as [| c s IH] using rune_ind; [by intros ?%elem_of_nil |]. rewrite runes_first. intros [-> | Hr]%elem_of_cons; [| by apply IH].
  unfold first_rune. repeat case_match; done.
Qed.

(** A template has one reading. *)
Lemma parses_fun s ts ts' : parses s ts → parses s ts' → ts = ts'.
Proof.
  intros H. revert ts'. induction H as [| s l Hs E | s l n rest ts E Hp IH]; intros ts'; rewrite parses_inv.
  - done.
  - rewrite E, bool_decide_false by done. done.
  - rewrite E. intros (ts'' & -> & H). by rewrite (IH _ H).
Qed.

(** ** Properties *)

(** Claim C18: a compiled path pattern and the rendering of templates agree.  A name it
    matches is written back by the pattern from what it captured, where every capture is a
    non-empty text without a slash; a valid name it does not match is not written by the
    pattern from any such texts. *)
Theorem matched_renders IsLabelKey pattern ts name : compilePathPattern IsLabelKey pattern = Some (inl ts) →
  match FindStringSubmatch ts name with
  | Some captures => map fst captures = names_of ts ∧ Forall (λ nv, nv.2 ≠ "" ∧ no_slash nv.2) captures ∧
      render pattern (list_to_map captures) = Some (inl name)
  | None => valid_utf8 name = true → ∀ m : gmap string string,
      (∀ n v, m !! n = Some v → v ≠ "" ∧ no_slash v ∧ valid_utf8 v = true) → render pattern m ≠ Some (inl name)
  end.
Proof.
  intros Hc. destruct (compile_spec IsLabelKey pattern) as (r & Hr & Hspec). rewrite Hr in Hc. injection Hc as ->.
  destruct Hspec as (Hp & Hv & Hnd & _). unfold FindStringSubmatch. pose proof (match_tokens_spec ts (runes name)) as Hm.
  destruct (match_tokens ts (runes name)) as [captures |].
  - destruct Hm as (vs & Hs & Hpl & -> & Hlen & _). assert (length (names_of ts) = length (map text vs)) as Hlen' by (by rewrite length_map, Hlen).
    split; [by apply fst_zip; rewrite Hlen' |]. split.
    + apply Forall_forall. intros [n v] Hnv. cbn [snd]. apply elem_of_zip_r in Hnv. apply list_elem_of_In, in_map_iff in Hnv as (rs & <- & Hrs%list_elem_of_In).
      pose proof (proj1 (Forall_forall _ _) Hpl rs Hrs) as [Hne Hns]. split.
      * destruct rs as [| r rs]; [done |]. assert (r ∈ runes name) as Hr' by (eapply spell_elem; [exact Hs | exact Hrs | by left]).
        intros E. apply (f_equal String.length) in E. cbn [text] in E. rewrite length_string_app in E.
        assert (r ≠ "") by (by eapply runes_nonempty). destruct r; [done | cbn in E; lia].
      * apply no_slash_text, Forall_forall. intros r Hr'. eapply runes_no_slash; [by eapply spell_elem |]. by eapply Forall_forall in Hr'; [| exact Hns].
    + destruct (render_spec pattern (list_to_map (zip (names_of ts) (map text vs)))) as (o & -> & Ho).
      assert (fill (list_to_map (zip (names_of ts) (map text vs))) ts = Some name) as Hfill.
      { rewrite <- (text_runes name). eapply spell_fill; [done.. |]. intros n v Hnv. apply elem_of_list_to_map_1; [| done]. by rewrite fst_zip by lia. }
      destruct o as [s | e]; [| by rewrite (Ho ts Hp) in Hfill]. destruct Ho as (ts' & Hp' & Hf'). rewrite (parses_fun _ _ _ Hp' Hp), Hfill in Hf'. by injection Hf' as ->.
  - intros Hname m Hm' Hrend. destruct (render_spec pattern m) as (o & Ho & Hspec). rewrite Hrend in Ho. injection Ho as <-.
    destruct Hspec as (ts' & Hp' & Hf). rewrite (parses_fun _ _ _ Hp' Hp) in Hf.
    destruct (fill_spell ts m name (parses_valid _ _ Hp Hv) Hm' Hf) as (vs & Hs & Hpl). by apply (Hm vs).
Qed.

(** Of the readings of a name the match is the one whose captures are longest, the first
    one first, so a pattern captures the same whatever the order of anything else. *)
Theorem match_longest ts name captures vs : FindStringSubmatch ts name = Some captures → spell ts vs = Some (runes name) →
  Forall plain vs → ∃ ks, map text ks = map snd captures ∧ lex_le (map length vs) (map length ks).
Proof.
  unfold FindStringSubmatch. intros Hm Hs Hp. pose proof (match_tokens_spec ts (runes name)) as H. rewrite Hm in H.
  destruct H as (ks & _ & _ & -> & Hlen & Hmax). exists ks. split; [| by apply Hmax]. by rewrite snd_zip by (rewrite length_map; lia).
Qed.

(** The specification of a generator is accepted exactly when its sources,
    artifacts and operations are within the bounds of the API, aliases and names are
    distinct and well formed, selectors are well formed and that of the revision names a
    source, and every operation copies from a path of a source to a path of the artifact
    under valid exclusions. *)
Theorem decodeSpec_exact Match spec explicit : length explicit = length spec.(Sources) →
  decodeSpec Match spec (Some explicit) = None ↔ specification_ok Match spec explicit.
Proof. apply decodeSpec_spec. Qed.

(** Claim C19: an expansion ends; whether or not it fails, no two requests have one name;
    and when it succeeds the requests are, for each directory of the walk that the pattern
    matches (once without a pattern), those of the artifacts in order, each with its name
    rendered from the lower-case captures and its copies from the captures as they are. *)
Theorem expand_exact IsLabelKey IsLabelValue IsDNSSubdomain spec inputs :
  ∃ rs e, expand IsLabelKey IsLabelValue IsDNSSubdomain spec inputs = Some (rs, e) ∧
    NoDup (map request_name rs) ∧
    (e = None → ∃ raws rss, captured IsLabelKey spec inputs raws ∧
       Forall2 (expanded_from IsLabelValue IsDNSSubdomain spec.(Artifacts)) raws rss ∧ rs = concat rss).
Proof. apply expand_spec. Qed.

(** Claim C20: whatever an accepted copy operation selects, the copy of a path of the source
    goes to a path at or below the destination of the operation, without parent components. *)
Theorem copyDestination_confined known op p ns is_dir previous : prepareCopy known op = inl p → parts_ok ns →
  ∃ ds qs, parts_ok (ds ++ qs) ∧ p.(c_destination) = path_of ds ∧ copyDestination p (path_of ns) is_dir previous = path_of (ds ++ qs).
Proof. apply copyDestination_spec. Qed.

(** ** A generator *)

Definition example_ops : list operation := [mkOperation "@repo/apps/{app}/**" "@artifact/{app}/" "" ["*.md"]].

Definition example_spec : specification :=
  mkSpecification [mkSource "repo" "flux-system" "" "GitRepository"] "@repo/apps/{app}" [mkOutput "{app}-out" "@repo" "" example_ops].

Definition example_inputs : gmap string (list (option (string * bool))) :=
  {[ "repo" := [Some (".", true); Some ("apps", true); Some ("apps/Web", true); Some ("apps/Web/x.yaml", false); Some ("apps/api", true)] ]}.

Definition yes (s : string) : bool := true.

Example expand_example :
  (λ r, (map (λ q, (request_name q, map From q.(r_Output).(Copy), map_to_list q.(Captures))) r.1, r.2)) <$> expand yes yes yes example_spec example_inputs
  = Some ([("web-out", ["@repo/apps/Web/**"], [("app", "web")]); ("api-out", ["@repo/apps/api/**"], [("app", "api")])], None).
Proof. by vm_compute. Qed.

Example match_example : compilePathPattern yes "a/{x}-{y}" = Some (inl [Literal "a/"; Capture "x"; Literal "-"; Capture "y"]) ∧
  FindStringSubmatch [Literal "a/"; Capture "x"; Literal "-"; Capture "y"] "a/u-v-w" = Some [("x", "u-v"); ("y", "w")].
Proof. by vm_compute. Qed.

Example matched_renders_witness : compilePathPattern yes "a/{x}-{y}" = Some (inl [Literal "a/"; Capture "x"; Literal "-"; Capture "y"]) ∧
  render "a/{x}-{y}" (list_to_map [("x", "u-v"); ("y", "w")]) = Some (inl "a/u-v-w").
Proof.
  split; [reflexivity |].
  exact (proj2 (proj2 (matched_renders yes "a/{x}-{y}" [Literal "a/"; Capture "x"; Literal "-"; Capture "y"] "a/u-v-w" eq_refl))).
Defined.

Example decodeSpec_exact_witness : specification_ok (λ _ _, Some true) example_spec [false].
Proof. apply (decodeSpec_exact (λ _ _, Some true) example_spec [false] eq_refl). vm_compute. reflexivity. Defined.

Example copyDestination_confined_witness : ∃ p, prepareCopy {["repo"]} (mkOperation "@repo/apps/Web/**" "@artifact/web/" "" []) = inl p ∧
  ∃ ds qs, parts_ok (ds ++ qs) ∧ p.(c_destination) = path_of ds ∧ copyDestination p (path_of ["apps"; "Web"; "x.yaml"]) false false = path_of (ds ++ qs).
Proof.
  eexists. split; [vm_compute; reflexivity |].
  apply (copyDestination_confined {["repo"]} (mkOperation "@repo/apps/Web/**" "@artifact/web/" "" [])); [vm_compute; reflexivity |].
  repeat (constructor; [split; [reflexivity | cbn; repeat split; discriminate] |]). constructor.
Defined.

Example destination_example : ∀ p, prepareCopy {["repo"]} (mkOperation "@repo/apps/Web/**" "@artifact/web/" "" []) = inl p →
  copyDestination p "apps/Web/x.yaml" false false = "web/x.yaml".
Proof. intros p H. vm_compute in H. injection H as <-. by vm_compute. Qed.

(** A closing brace without an opening one hides the commas of the next alternatives. *)
Example unbalanced_brace : validateGlob "{,,,,,,,,,,,,,,,,,,,,,}" = Some InvalidGlob ∧ validateGlob "}{,,,,,,,,,,,,,,,,,,,,,}" = None.
Proof. by vm_compute. Qed.
