(* ===== verification/Tasks.v ===== *)
(** Task lifecycle: src/pkg/task/task.go.

    The services that share one budget are a transition system over goroutines.  A
    step is what one goroutine does between two points where the runtime may switch:
    an operation on the semaphore, a wait group or an atomic, or the passage of a
    body, whose code the environment decides.  Every interleaving is a list of
    steps.  As the code requires, [YieldSlot] is called from a running body. *)
From stdpp Require Import fin_maps.
From S2P Require Import Prelude.

(** ** Services *)

(** Where a goroutine started by [Service.Go] is. *)
Inductive pc :=
  | Queued                       (* at the semaphore *)
  | Running (unwinding : bool)   (* in the body, or unwinding it with a panic *)
  | Yielded                      (* in the function given to [YieldSlot] *)
  | Reacquiring (panicked : bool) (* in [YieldSlot]'s deferred send *)
  | Releasing (panicked : bool)  (* at the deferred receive of [Go] *)
  | Recovering (panicked : bool) (* at the deferred recover *)
  | Leaving.                     (* at the deferred Done *)

#[export] Instance pc_eq_dec : EqDecision pc.
Proof. solve_decision. Defined.

Record goroutine := mkG { g_service : nat; g_pc : pc }.

(** The counters of one [Service]: its wait group and its panics. *)
Record Service := mkService { wgActive : Z; failures : Z }.

(** A budget ([None] is the nil semaphore), what its channel holds, the services
    forked from one another that share it, and their goroutines. *)
Record config := mkConfig {
  workers : option nat;
  sem : nat;
  services : gmap nat Service;
  goroutines : gmap nat goroutine;
}.

Definition NewBounded (w : Z) : config :=
  mkConfig (if (0 <? w)%Z then Some (Z.to_nat w) else None) 0 {[0 := mkService 0 0]} ∅.

Inductive event :=
  | Fork (new : nat)             (* [Service.Fork], giving a service a fresh name *)
  | Go (s g : nat)               (* [Service.Go], by any goroutine *)
  | Acquire (g : nat)
  | Cancelled (g : nat)          (* [ctx.Done] is chosen at the semaphore *)
  | Yield (g : nat)
  | FnReturn (g : nat) (panicked : bool)
  | Reacquire (g : nat)
  | BodyReturn (g : nat)
  | BodyRecover (g : nat)        (* the body itself recovers a panic *)
  | BodyPanic (g : nat)
  | Release (g : nat)
  | Recover (g : nat)
  | Done (g : nat)
  | BlockTillDone (s : nat).     (* [wgActive.Wait] returns *)

Definition set_pc (g : nat) (s : nat) (p : pc) (c : config) : config :=
  mkConfig c.(workers) c.(sem) c.(services) (<[g := mkG s p]> c.(goroutines)).

Definition set_sem (n : nat) (c : config) : config :=
  mkConfig c.(workers) n c.(services) c.(goroutines).

Definition set_service (s : nat) (v : Service) (c : config) : config :=
  mkConfig c.(workers) c.(sem) (<[s := v]> c.(services)) c.(goroutines).

Definition set_goroutines (gs : gmap nat goroutine) (c : config) : config :=
  mkConfig c.(workers) c.(sem) c.(services) gs.

(** A send on the semaphore, when there is one: it blocks while the channel is full. *)
Definition send (c : config) : option config :=
  match c.(workers) with
  | None => Some c
  | Some cap => if decide (c.(sem) < cap) then Some (set_sem (S c.(sem)) c) else None
  end.

(** A receive: it blocks while the channel is empty. *)
Definition receive (c : config) : option config :=
  match c.(workers) with
  | None => Some c
  | Some _ => match c.(sem) with O => None | S n => Some (set_sem n c) end
  end.

(** A step of one goroutine; [None] is a step it cannot take now. *)
Definition move (g : nat) (c : config) (f : goroutine → option config) : option config :=
  n ← c.(goroutines) !! g; f n.

Definition step (c : config) (e : event) : option config :=
  match e with
  | Fork new =>
      if bool_decide (c.(services) !! new = None) then Some (set_service new (mkService 0 0) c) else None
  | Go s g =>
      v ← c.(services) !! s;
      if bool_decide (c.(goroutines) !! g = None)
      then Some (set_pc g s Queued (set_service s (mkService (v.(wgActive) + 1) v.(failures)) c))
      else None
  | Acquire g => move g c (λ n,
      match n.(g_pc) with
      | Queued => set_pc g n.(g_service) (Running false) <$> send c
      | _ => None
      end)
  | Cancelled g => move g c (λ n,
      match n.(g_pc), c.(workers) with
      | Queued, Some _ => Some (set_pc g n.(g_service) (Recovering false) c)
      | _, _ => None
      end)
  | Yield g => move g c (λ n,
      match n.(g_pc) with
      | Running false => set_pc g n.(g_service) Yielded <$> receive c
      | _ => None
      end)
  | FnReturn g p => move g c (λ n,
      match n.(g_pc) with
      | Yielded => Some (set_pc g n.(g_service) (Reacquiring p) c)
      | _ => None
      end)
  | Reacquire g => move g c (λ n,
      match n.(g_pc) with
      | Reacquiring p => set_pc g n.(g_service) (Running p) <$> send c
      | _ => None
      end)
  | BodyReturn g => move g c (λ n,
      match n.(g_pc) with
      | Running false => Some (set_pc g n.(g_service) (Releasing false) c)
      | _ => None
      end)
  | BodyRecover g => move g c (λ n,
      match n.(g_pc) with
      | Running true => Some (set_pc g n.(g_service) (Running false) c)
      | _ => None
      end)
  | BodyPanic g => move g c (λ n,
      match n.(g_pc) with
      | Running _ => Some (set_pc g n.(g_service) (Releasing true) c)
      | _ => None
      end)
  | Release g => move g c (λ n,
      match n.(g_pc) with
      | Releasing p => set_pc g n.(g_service) (Recovering p) <$> receive c
      | _ => None
      end)
  | Recover g => move g c (λ n,
      match n.(g_pc) with
      | Recovering p =>
          v ← c.(services) !! n.(g_service);
          Some (set_pc g n.(g_service) Leaving
                  (if p then set_service n.(g_service) (mkService v.(wgActive) (int64 (v.(failures) + 1))) c
                   else c))
      | _ => None
      end)
  | Done g => move g c (λ n,
      match n.(g_pc) with
      | Leaving =>
          v ← c.(services) !! n.(g_service);
          if (v.(wgActive) <=? 0)%Z then None
          else Some (set_goroutines (delete g c.(goroutines))
                       (set_service n.(g_service) (mkService (v.(wgActive) - 1) v.(failures)) c))
      | _ => None
      end)
  | BlockTillDone s =>
      v ← c.(services) !! s; if (v.(wgActive) =? 0)%Z then Some c else None
  end.

Fixpoint steps (c : config) (es : list event) : option config :=
  match es with
  | [] => Some c
  | e :: es => c ← step c e; steps c es
  end.


(** ** Counting goroutines *)

Definition count (P : goroutine → bool) (gs : gmap nat goroutine) : nat :=
  weigh (λ n, Nat.b2n (P n)) gs.

Lemma count_delete P gs g n : gs !! g = Some n → count P gs = Nat.b2n (P n) + count P (delete g gs).
Proof. apply (weigh_delete (λ n, Nat.b2n (P n))). Qed.

Lemma count_insert P gs g n : count P (<[g := n]> gs) = Nat.b2n (P n) + count P (delete g gs).
Proof. by rewrite (count_delete P _ g n), delete_insert_eq by apply lookup_insert_eq. Qed.

Lemma count_update P gs g n n' : gs !! g = Some n →
  count P (<[g := n']> gs) + Nat.b2n (P n) = count P gs + Nat.b2n (P n').
Proof. intros Hg. rewrite count_insert, (count_delete P gs g n Hg). lia. Qed.

Lemma count_new P gs g n : gs !! g = None → count P (<[g := n]> gs) = Nat.b2n (P n) + count P gs.
Proof. intros Hg. by rewrite count_insert, delete_id. Qed.

Lemma count_pos P gs : 0 < count P gs → ∃ g n, gs !! g = Some n ∧ P n = true.
Proof.
  induction gs as [| g n gs Hg IH] using map_ind.
  { unfold count, weigh. rewrite map_fold_empty. lia. }
  rewrite count_new by done. destruct (P n) eqn:HP; cbn.
  - intros _. exists g, n. by rewrite lookup_insert_eq.
  - intros (g' & n' & Hg' & HP')%IH. exists g', n'. rewrite lookup_insert_ne; [done | congruence].
Qed.

Lemma count_zero P gs g n : count P gs = 0 → gs !! g = Some n → P n = false.
Proof. intros H0 Hg. rewrite (count_delete P gs g n Hg) in H0. by destruct (P n). Qed.

(** ** The invariant *)

(** A goroutine that holds a slot, and one of a service. *)
Definition holding (n : goroutine) : bool :=
  match n.(g_pc) with Running _ | Releasing _ => true | _ => false end.
Definition of_service (s : nat) (n : goroutine) : bool := bool_decide (n.(g_service) = s).

Record inv (c : config) : Prop := {
  i_sem : match c.(workers) with
          | Some cap => c.(sem) = count holding c.(goroutines) ∧ c.(sem) ≤ cap
          | None => True
          end;
  i_active s v : c.(services) !! s = Some v →
    v.(wgActive) = Z.of_nat (count (of_service s) c.(goroutines));
  i_known g n : c.(goroutines) !! g = Some n → is_Some (c.(services) !! n.(g_service));
}.

Lemma NewBounded_inv w : inv (NewBounded w).
Proof.
  assert (∀ P, count P ∅ = 0) as H0 by (intros P; unfold count, weigh; apply map_fold_empty).
  split; cbn.
  - case_match; [| done]. case_match; [| done]. cbn in *. rewrite H0. lia.
  - intros s v [_ <-]%lookup_singleton_Some. by rewrite H0.
  - intros g n Hg. by rewrite lookup_empty in Hg.
Qed.

(** What a channel operation leaves. *)
Definition slots_after (c : config) (k : nat) (before after : bool) : Prop :=
  match c.(workers) with
  | None => True
  | Some cap => k + Nat.b2n before = c.(sem) + Nat.b2n after ∧ k ≤ cap
  end.

Lemma send_Some c c' : send c = Some c' →
  ∃ k, c' = set_sem k c ∧ slots_after c k false true.
Proof.
  unfold send, slots_after. intros Hs. destruct (workers c) as [cap |] eqn:Hw.
  - destruct (decide (sem c < cap)); [| done]. injection Hs as <-. eexists. split; [done |]. cbn. lia.
  - injection Hs as <-. exists (sem c). split; [| done]. by destruct c.
Qed.

Lemma receive_Some c c' : inv c → receive c = Some c' →
  ∃ k, c' = set_sem k c ∧ slots_after c k true false.
Proof.
  intros [Hsem _ _]. unfold receive, slots_after. intros Hs. destruct (workers c) as [cap |] eqn:Hw.
  - destruct (sem c) as [| k]; [done |]. injection Hs as <-. exists k. split; [done |]. cbn. lia.
  - injection Hs as <-. exists (sem c). split; [| done]. by destruct c.
Qed.

(** A goroutine moves inside its service; the slots follow whether it holds one. *)
Lemma move_inv c g n p k :
  inv c → c.(goroutines) !! g = Some n → slots_after c k (holding n) (holding (mkG n.(g_service) p)) →
  inv (set_pc g n.(g_service) p (set_sem k c)).
Proof.
  intros [Hsem Hact Hk] Hg Hslots. split; cbn.
  - unfold slots_after in Hslots. destruct (workers c) as [cap |]; [| done].
    pose proof (count_update holding _ g n (mkG n.(g_service) p) Hg). lia.
  - intros s v Hv. rewrite (Hact s v Hv).
    pose proof (count_update (of_service s) _ g n (mkG n.(g_service) p) Hg) as Hc.
    unfold of_service at 2 4 in Hc. cbn in Hc. lia.
  - intros g' n' [[<- <-] | [? Hg']]%lookup_insert_Some; cbn; eauto.
Qed.

(** The same where no channel is touched. *)
Lemma move_inv_quiet c g n p :
  inv c → c.(goroutines) !! g = Some n → holding n = holding (mkG n.(g_service) p) →
  inv (set_pc g n.(g_service) p c).
Proof.
  intros Hi Hg Hh. replace c with (set_sem c.(sem) c) by (by destruct c).
  apply move_inv; [done | done |]. rewrite <- Hh. unfold slots_after.
  destruct Hi as [Hsem _ _]. destruct (workers c); lia.
Qed.

Lemma set_service_inv c s v v' :
  inv c → c.(services) !! s = Some v → v'.(wgActive) = v.(wgActive) → inv (set_service s v' c).
Proof.
  intros [Hsem Hact Hk] Hv Heq. split; cbn; [done | |].
  - intros s' w [[<- <-] | [? Hw]]%lookup_insert_Some; [| by apply Hact].
    rewrite Heq. by apply Hact.
  - intros g n Hg. apply lookup_insert_is_Some'. right. by eapply Hk.
Qed.

Lemma spawn_inv c s g v :
  inv c → c.(services) !! s = Some v → c.(goroutines) !! g = None →
  inv (set_pc g s Queued (set_service s (mkService (v.(wgActive) + 1) v.(failures)) c)).
Proof.
  intros [Hsem Hact Hk] Hv Hg. split; cbn.
  - by rewrite count_new.
  - intros s' w Hw. rewrite count_new by done. unfold of_service at 1. cbn.
    apply lookup_insert_Some in Hw as [[<- <-] | [Hne Hw]]; cbn.
    + rewrite bool_decide_eq_true_2, (Hact s v Hv) by done. cbn. lia.
    + rewrite bool_decide_eq_false_2, (Hact s' w Hw) by done. done.
  - intros g' n' [[<- <-] | [? Hg']]%lookup_insert_Some; cbn;
      apply lookup_insert_is_Some'; [by left | right; by eapply Hk].
Qed.

Lemma finish_inv c g n v :
  inv c → c.(goroutines) !! g = Some n → holding n = false → c.(services) !! n.(g_service) = Some v →
  inv (set_goroutines (delete g c.(goroutines))
         (set_service n.(g_service) (mkService (v.(wgActive) - 1) v.(failures)) c)).
Proof.
  intros [Hsem Hact Hk] Hg Hh Hv. split; cbn.
  - by rewrite (count_delete holding _ g n Hg), Hh in Hsem.
  - intros s w Hw. pose proof (count_delete (of_service s) _ g n Hg) as Hc.
    unfold of_service at 2 in Hc. apply lookup_insert_Some in Hw as [[<- <-] | [Hne Hw]]; cbn.
    + rewrite bool_decide_eq_true_2 in Hc by done. rewrite (Hact _ v Hv). cbn in Hc. lia.
    + rewrite bool_decide_eq_false_2 in Hc by done. rewrite (Hact s w Hw). cbn in Hc. lia.
  - intros g' n' [_ Hg']%lookup_delete_Some. apply lookup_insert_is_Some'. right. by eapply Hk.
Qed.

(** The shapes a step of a goroutine takes. *)
Ltac open_move Hs n Hg Hp :=
  unfold move in Hs; apply bind_Some in Hs as (n & Hg & Hs); destruct (g_pc n) eqn:Hp; try done.

Lemma service_step_inv c e c' : inv c → step c e = Some c' → inv c'.
Proof.
  intros Hi Hs. destruct e; cbn [step] in Hs.
  - case_bool_decide as Hnew; [| done]. injection Hs as <-. destruct Hi as [Hsem Hact Hk]. split; cbn.
    + done.
    + intros s v [[<- <-] | [? Hv]]%lookup_insert_Some; [| by apply Hact]. cbn.
      destruct (decide (count (of_service new) (goroutines c) = 0)) as [-> | Hpos]; [done |].
      destruct (count_pos (of_service new) (goroutines c)) as (g & n & Hg & Hn); [lia |].
      unfold of_service in Hn. rewrite bool_decide_eq_true in Hn.
      destruct (Hk g n Hg). rewrite Hn in *. congruence.
    + intros g n Hg. apply lookup_insert_is_Some'. right. by eapply Hk.
  - apply bind_Some in Hs as (v & Hv & Hs). case_bool_decide as Hg; [| done]. injection Hs as <-.
    by apply spawn_inv.
  - open_move Hs n Hg Hp. apply fmap_Some in Hs as (c1 & Hsend & ->).
    apply send_Some in Hsend as (k & -> & Hk). apply move_inv; [done | done |].
    unfold holding at 1. by rewrite Hp.
  - open_move Hs n Hg Hp. case_match; [| done]. injection Hs as <-.
    apply move_inv_quiet; [done | done |]. unfold holding. by rewrite Hp.
  - open_move Hs n Hg Hp. case_match; [done |]. apply fmap_Some in Hs as (c1 & Hr & ->).
    apply receive_Some in Hr as (k & -> & Hk); [| done]. apply move_inv; [done | done |].
    unfold holding at 1. by rewrite Hp.
  - open_move Hs n Hg Hp. injection Hs as <-.
    apply move_inv_quiet; [done | done |]. unfold holding. by rewrite Hp.
  - open_move Hs n Hg Hp. apply fmap_Some in Hs as (c1 & Hsend & ->).
    apply send_Some in Hsend as (k & -> & Hk). apply move_inv; [done | done |].
    unfold holding at 1. by rewrite Hp.
  - open_move Hs n Hg Hp. case_match; [done |]. injection Hs as <-.
    apply move_inv_quiet; [done | done |]. unfold holding. by rewrite Hp.
  - open_move Hs n Hg Hp. case_match; [| done]. injection Hs as <-.
    apply move_inv_quiet; [done | done |]. unfold holding. by rewrite Hp.
  - open_move Hs n Hg Hp. injection Hs as <-.
    apply move_inv_quiet; [done | done |]. unfold holding. by rewrite Hp.
  - open_move Hs n Hg Hp. apply fmap_Some in Hs as (c1 & Hr & ->).
    apply receive_Some in Hr as (k & -> & Hk); [| done]. apply move_inv; [done | done |].
    unfold holding at 1. by rewrite Hp.
  - open_move Hs n Hg Hp. apply bind_Some in Hs as (v & Hv & Hs). injection Hs as <-.
    destruct panicked; apply move_inv_quiet; try done; try (unfold holding; by rewrite Hp).
    by apply (set_service_inv _ _ v).
  - open_move Hs n Hg Hp. apply bind_Some in Hs as (v & Hv & Hs).
    destruct (wgActive v <=? 0)%Z; [done |]. injection Hs as <-. apply finish_inv; try done.
    unfold holding. by rewrite Hp.
  - apply bind_Some in Hs as (v & Hv & Hs). by destruct (wgActive v =? 0)%Z; [injection Hs as <- |].
Qed.

Lemma service_steps_inv c es c' : inv c → steps c es = Some c' → inv c'.
Proof.
  revert c. induction es as [| e es IH]; intros c Hi; cbn [steps]; [by intros [= <-] |].
  intros (c1 & H1 & H2)%bind_Some. eapply IH; [| done]. by eapply service_step_inv.
Qed.

(** ** Which steps are enabled *)

Lemma step_workers c e c' : step c e = Some c' → c'.(workers) = c.(workers).
Proof.
  assert (∀ c c', send c = Some c' → c'.(workers) = c.(workers)) as Hsend.
  { intros d d' (k & -> & _)%send_Some. done. }
  assert (∀ c c', receive c = Some c' → c'.(workers) = c.(workers)) as Hrecv.
  { intros d d'. unfold receive. repeat case_match; by intros [= <-]. }
  intros Hs. destruct e; cbn [step] in Hs; unfold move in Hs;
    repeat (case_match || case_bool_decide || apply bind_Some in Hs as (? & ? & Hs) ||
            (apply fmap_Some in Hs as (? & Hs & ->))); try done;
    simplify_eq; cbn; first [done | by apply Hsend | by apply Hrecv].
Qed.

Lemma steps_workers c es c' : steps c es = Some c' → c'.(workers) = c.(workers).
Proof.
  revert c. induction es as [| e es IH]; intros c; cbn [steps]; [by intros [= <-] |].
  intros (c1 & H1%step_workers & H2%IH)%bind_Some. congruence.
Qed.

(** Some slot is free, or there is no bound. *)
Definition free (c : config) : Prop :=
  match c.(workers) with Some cap => count holding c.(goroutines) < cap | None => True end.

Lemma send_free c : inv c → free c → is_Some (send c).
Proof.
  intros [Hsem _ _]. unfold free, send. destruct (workers c) as [cap |]; [| by eauto].
  intros Hlt. rewrite decide_True by lia. by eauto.
Qed.

Lemma acquire_enabled c g n : inv c → free c → c.(goroutines) !! g = Some n → n.(g_pc) = Queued →
  is_Some (step c (Acquire g)).
Proof.
  intros Hi [c1 Hs]%send_free Hg Hp; [| done]. cbn. unfold move. rewrite Hg. cbn. rewrite Hp, Hs. by eauto.
Qed.

Lemma reacquire_enabled c g n p : inv c → free c → c.(goroutines) !! g = Some n →
  n.(g_pc) = Reacquiring p → is_Some (step c (Reacquire g)).
Proof.
  intros Hi [c1 Hs]%send_free Hg Hp; [| done]. cbn. unfold move. rewrite Hg. cbn. rewrite Hp, Hs. by eauto.
Qed.

(** The deferred receive finds the slot its goroutine holds. *)
Lemma release_enabled c g n p : inv c → c.(goroutines) !! g = Some n → n.(g_pc) = Releasing p →
  is_Some (step c (Release g)).
Proof.
  intros [Hsem _ _] Hg Hp. cbn. unfold move. rewrite Hg. cbn. rewrite Hp.
  rewrite fmap_is_Some. unfold receive. destruct (workers c) as [cap |]; [| by eauto].
  rewrite (count_delete holding _ g n Hg) in Hsem. unfold holding at 1 in Hsem. rewrite Hp in Hsem.
  cbn in Hsem. destruct (sem c); [lia | by eauto].
Qed.

Lemma recover_enabled c g n p : inv c → c.(goroutines) !! g = Some n → n.(g_pc) = Recovering p →
  is_Some (step c (Recover g)).
Proof.
  intros [_ _ Hk] Hg Hp. destruct (Hk g n Hg) as [v Hv].
  cbn. unfold move. rewrite Hg. cbn. rewrite Hp, Hv. by eauto.
Qed.

(** The wait group's counter never goes negative. *)
Lemma done_enabled c g n : inv c → c.(goroutines) !! g = Some n → n.(g_pc) = Leaving →
  is_Some (step c (Done g)).
Proof.
  intros [_ Hact Hk] Hg Hp. destruct (Hk g n Hg) as [v Hv].
  cbn. unfold move. rewrite Hg. cbn. rewrite Hp, Hv. cbn.
  rewrite (Hact _ _ Hv), (count_delete (of_service (g_service n)) _ g n Hg).
  unfold of_service at 1. rewrite bool_decide_eq_true_2 by done. cbn [Nat.b2n].
  rewrite (proj2 (Z.leb_gt _ _)) by lia. by eauto.
Qed.

(** Steps of a run from [NewBounded]. *)
Lemma run_facts w es c : steps (NewBounded w) es = Some c →
  inv c ∧ c.(workers) = if (0 <? w)%Z then Some (Z.to_nat w) else None.
Proof.
  intros Hs. split; [by apply service_steps_inv in Hs; [| apply NewBounded_inv] |].
  by apply steps_workers in Hs.
Qed.

Lemma run_free w es c : steps (NewBounded w) es = Some c →
  free c ↔ (w ≤ 0)%Z ∨ (Z.of_nat (count holding c.(goroutines)) < w)%Z.
Proof.
  intros [_ Hw]%run_facts. unfold free. rewrite Hw. destruct (Z.ltb_spec 0 w); [lia |].
  split; [by left | done].
Qed.

(** ** What a service promises *)

(** Claim C38: the budget is exact and shared.  In every interleaving the semaphore holds
    one slot for each body that executes, over all the services forked from one
    another, so at most [workers] bodies execute at once; a body inside [YieldSlot]
    holds none; and a queued goroutine, or one that resumes from [YieldSlot], is
    admitted whenever a slot is free.  Without a bound nothing waits. *)
Theorem budget_exact w es c :
  steps (NewBounded w) es = Some c →
  let executing := count holding c.(goroutines) in
  ((0 < w)%Z → c.(sem) = executing ∧ (Z.of_nat executing ≤ w)%Z) ∧
  (∀ g n, c.(goroutines) !! g = Some n → ((w ≤ 0)%Z ∨ (Z.of_nat executing < w)%Z) →
     (n.(g_pc) = Queued → is_Some (step c (Acquire g))) ∧
     (∀ p, n.(g_pc) = Reacquiring p → is_Some (step c (Reacquire g)))).
Proof.
  intros Hs executing. destruct (run_facts w es c Hs) as [Hi Hw]. split.
  - intros Hpos. destruct Hi as [Hsem _ _]. rewrite Hw, (proj2 (Z.ltb_lt _ _) Hpos) in Hsem.
    unfold executing. lia.
  - intros g n Hg Hfree%(run_free w es c Hs).
    split; [by eapply acquire_enabled | intros p; by eapply reacquire_enabled].
Qed.

(** Two workers, three tasks: two run, the third waits until one yields. *)
Example budget_exact_witness :
  let es := [Fork 1; Go 0 0; Go 1 1; Go 1 2; Acquire 0; Acquire 1] in
  (Z.of_nat (count holding (default (NewBounded 2) (steps (NewBounded 2) es)).(goroutines)) ≤ 2)%Z ∧
  is_Some (steps (NewBounded 2) (es ++ [Yield 0; Acquire 2])) ∧ steps (NewBounded 2) (es ++ [Acquire 2]) = None.
Proof.
  split; [| split; [by eexists | done]].
  destruct (steps (NewBounded 2) [Fork 1; Go 0 0; Go 1 1; Go 1 2; Acquire 0; Acquire 1]) as [c |] eqn:Hs;
    [| discriminate Hs].
  exact (proj2 (proj1 (budget_exact _ _ _ Hs) ltac:(lia))).
Defined.

(** A service never deadlocks.  In every interleaving, while a goroutine is
    left, some goroutine executes code of a body or of a function given to
    [YieldSlot], or one of the service's own waits can end: admission, resumption,
    release, recovery or completion. *)
Theorem service_progress w es c g n :
  steps (NewBounded w) es = Some c → c.(goroutines) !! g = Some n →
  (∃ g' n', c.(goroutines) !! g' = Some n' ∧ (n'.(g_pc) = Yielded ∨ ∃ u, n'.(g_pc) = Running u)) ∨
  ∃ g' e, e ∈ [Acquire g'; Reacquire g'; Release g'; Recover g'; Done g'] ∧ is_Some (step c e).
Proof.
  intros Hs Hg. destruct (run_facts w es c Hs) as [Hi _].
  destruct (decide (0 < count holding c.(goroutines))) as [Hpos | H0].
  { apply count_pos in Hpos as (g' & n' & Hg' & Hh). unfold holding in Hh.
    destruct (g_pc n') as [| u | | | p | |] eqn:Hp; try done; [left; eauto 6 |].
    right. exists g', (Release g'). split; [set_solver |]. by eapply release_enabled. }
  assert (free c) as Hfree by (apply (run_free w es c Hs); lia).
  destruct (g_pc n) as [| u | | p | p | p |] eqn:Hp; [| by left; eauto 6 | by left; eauto 6 | | | |]; right.
  - exists g, (Acquire g). split; [set_solver |]. by eapply acquire_enabled.
  - exists g, (Reacquire g). split; [set_solver |]. by eapply reacquire_enabled.
  - exists g, (Release g). split; [set_solver |]. by eapply release_enabled.
  - exists g, (Recover g). split; [set_solver |]. by eapply recover_enabled.
  - exists g, (Done g). split; [set_solver |]. by eapply done_enabled.
Qed.

(** A body that yields while two others fill the pool. *)
Example service_progress_witness :
  let c := default (NewBounded 1) (steps (NewBounded 1) [Go 0 0; Go 0 1; Acquire 0; Yield 0; Acquire 1]) in
  (∃ g' n', c.(goroutines) !! g' = Some n' ∧ (n'.(g_pc) = Yielded ∨ ∃ u, n'.(g_pc) = Running u)) ∨
  ∃ g' e, e ∈ [Acquire g'; Reacquire g'; Release g'; Recover g'; Done g'] ∧ is_Some (step c e).
Proof.
  apply (service_progress 1 [Go 0 0; Go 0 1; Acquire 0; Yield 0; Acquire 1] _ 0 (mkG 0 Yielded)); reflexivity.
Defined.

(** [BlockTillDone] returns exactly when every goroutine started on that service
    has completed, whatever its siblings do: its body has returned, panicked, or was
    cancelled at the semaphore; and waiting changes nothing. *)
Theorem BlockTillDone_exact w es c s :
  steps (NewBounded w) es = Some c → is_Some (c.(services) !! s) →
  (is_Some (step c (BlockTillDone s)) ↔ ∀ g n, c.(goroutines) !! g = Some n → n.(g_service) ≠ s) ∧
  (∀ c', step c (BlockTillDone s) = Some c' → c' = c).
Proof.
  intros Hs [v Hv]. destruct (run_facts w es c Hs) as [[_ Hact _] _]. cbn. rewrite Hv. cbn.
  rewrite (Hact s v Hv). split.
  - split.
    + intros [c' Hc] g n Hg <-. destruct (Z.eqb_spec (Z.of_nat (count (of_service (g_service n)) (goroutines c))) 0)
        as [H0 |]; [| done].
      apply (count_zero (of_service (g_service n)) _ g n) in Hg; [| lia].
      unfold of_service in Hg. by rewrite bool_decide_eq_true_2 in Hg.
    + intros Hnone. rewrite (proj2 (Z.eqb_eq _ _)); [by eauto |].
      destruct (decide (count (of_service s) (goroutines c) = 0)) as [-> | Hpos]; [done |].
      destruct (count_pos (of_service s) (goroutines c)) as (g & n & Hg & Hn); [lia |].
      unfold of_service in Hn. rewrite bool_decide_eq_true in Hn. by apply Hnone in Hg.
  - intros c' Hc. case_match; congruence.
Qed.

Example BlockTillDone_exact_witness :
  is_Some (steps (NewBounded 1) [Fork 1; Go 1 7; Go 0 0; Acquire 7; BlockTillDone 0]) ↔ False.
Proof.
  destruct (steps (NewBounded 1) [Fork 1; Go 1 7; Go 0 0; Acquire 7]) as [c |] eqn:Hs; [| discriminate Hs].
  pose proof (proj1 (BlockTillDone_exact _ _ c 0 Hs ltac:(injection Hs as <-; by eexists))) as Hex.
  injection Hs as <-. split; [| done]. intros Hc.
  exact (proj1 Hex Hc 0 (mkG 0 Queued) eq_refl eq_refl).
Defined.
