(* ===== verification/KeyLocks.v ===== *)
(** Keyed locks: src/internal/keylock/keylock.go.

    The callers of one [KeyMap] are a transition system: the section under [mu], the
    early check of the context, the select between the lock's channel and the
    cancellation, and the returned release function, interleaved in any order.  As
    its callers do, a release function is called once. *)
From S2P Require Import Prelude.

Section keylock.
Context {K : Type} `{Countable K}.

(** Where a caller of [Acquire] is; a lock is a channel of capacity one, named by a
    number. *)
Inductive pc :=
  | Entered                      (* before the critical section of [mu] *)
  | Found (lock : nat)           (* holding the channel, before [ctx.Err] *)
  | Waiting (lock : nat)         (* at the select *)
  | Holding (lock : nat)         (* returned the release function *)
  | Failed                       (* returned the context's error *)
  | Released.

Record caller := mkCaller { a_key : K; a_cancelled : bool; a_pc : pc }.

Record KeyMap := mkKeyMap {
  locks : gmap K nat;            (* [locks], each channel allocated once *)
  full : gset nat;               (* the channels that hold their element *)
  callers : gmap nat caller;
}.

Definition New : KeyMap := mkKeyMap ∅ ∅ ∅.

Inductive event :=
  | Acquire (g : nat) (key : K)  (* a call *)
  | Cancel (g : nat)             (* its context is cancelled *)
  | Locked (g : nat)             (* the section under [mu] *)
  | CtxErr (g : nat)             (* the early [ctx.Err] *)
  | Send (g : nat)               (* the select takes the lock *)
  | CtxDone (g : nat)            (* the select takes the cancellation *)
  | Release (g : nat).           (* the returned function is called, once *)

Definition set_caller (g : nat) (a : caller) (m : KeyMap) : KeyMap :=
  mkKeyMap m.(locks) m.(full) (<[g := a]> m.(callers)).

Definition to (a : caller) (p : pc) : caller := mkCaller a.(a_key) a.(a_cancelled) p.

(** The channel [Acquire] finds or makes. *)
Definition lock_of (m : KeyMap) (key : K) : nat * gmap K nat :=
  match m.(locks) !! key with
  | Some lock => (lock, m.(locks))
  | None => (size m.(locks), <[key := size m.(locks)]> m.(locks))
  end.

Definition step (m : KeyMap) (e : event) : option KeyMap :=
  match e with
  | Acquire g key =>
      if bool_decide (m.(callers) !! g = None)
      then Some (set_caller g (mkCaller key false Entered) m) else None
  | Cancel g => a ← m.(callers) !! g; Some (set_caller g (mkCaller a.(a_key) true a.(a_pc)) m)
  | Locked g =>
      a ← m.(callers) !! g;
      match a.(a_pc) with
      | Entered =>
          let '(lock, ls) := lock_of m a.(a_key) in
          Some (mkKeyMap ls m.(full) (<[g := to a (Found lock)]> m.(callers)))
      | _ => None
      end
  | CtxErr g =>
      a ← m.(callers) !! g;
      match a.(a_pc) with
      | Found lock => Some (set_caller g (to a (if a.(a_cancelled) then Failed else Waiting lock)) m)
      | _ => None
      end
  | Send g =>
      a ← m.(callers) !! g;
      match a.(a_pc) with
      | Waiting lock =>
          if bool_decide (lock ∈ m.(full)) then None
          else Some (mkKeyMap m.(locks) ({[lock]} ∪ m.(full)) (<[g := to a (Holding lock)]> m.(callers)))
      | _ => None
      end
  | CtxDone g =>
      a ← m.(callers) !! g;
      match a.(a_pc) with
      | Waiting _ => if a.(a_cancelled) then Some (set_caller g (to a Failed) m) else None
      | _ => None
      end
  | Release g =>
      a ← m.(callers) !! g;
      match a.(a_pc) with
      | Holding lock =>
          if bool_decide (lock ∈ m.(full))
          then Some (mkKeyMap m.(locks) (m.(full) ∖ {[lock]}) (<[g := to a Released]> m.(callers)))
          else None
      | _ => None
      end
  end.

Fixpoint steps (m : KeyMap) (es : list event) : option KeyMap :=
  match es with
  | [] => Some m
  | e :: es => m ← step m e; steps m es
  end.

(** ** The invariant *)

(** The channel a caller has found. *)
Definition lock_at (p : pc) : option nat :=
  match p with Found l | Waiting l | Holding l => Some l | _ => None end.

Record inv (m : KeyMap) : Prop := {
  l_bound key l : m.(locks) !! key = Some l → l < size m.(locks);
  l_inj k1 k2 l : m.(locks) !! k1 = Some l → m.(locks) !! k2 = Some l → k1 = k2;
  l_found g a l : m.(callers) !! g = Some a → lock_at a.(a_pc) = Some l →
    m.(locks) !! a.(a_key) = Some l;
  l_full l : l ∈ m.(full) → ∃ g a, m.(callers) !! g = Some a ∧ a.(a_pc) = Holding l;
  l_held g a l : m.(callers) !! g = Some a → a.(a_pc) = Holding l → l ∈ m.(full);
  l_one g1 g2 a1 a2 l : m.(callers) !! g1 = Some a1 → m.(callers) !! g2 = Some a2 →
    a1.(a_pc) = Holding l → a2.(a_pc) = Holding l → g1 = g2;
}.

Lemma New_inv : inv New.
Proof. split; cbn; intros *; by rewrite ?lookup_empty. Qed.

(** A caller that neither takes nor frees a lock. *)
Lemma quiet_inv m g a a' : inv m → m.(callers) !! g = Some a →
  a'.(a_key) = a.(a_key) → (∀ l, lock_at a'.(a_pc) = Some l → lock_at a.(a_pc) = Some l) →
  (∀ l, a'.(a_pc) = Holding l ↔ a.(a_pc) = Holding l) → inv (set_caller g a' m).
Proof.
  intros [Hb Hinj Hfound Hfull Hheld Hone] Hg Hkey Hlock Hhold. split; cbn; [done | done | | | |].
  - intros g' b l [[<- <-] | [_ Hb']]%lookup_insert_Some; [rewrite Hkey | ]; eauto.
  - intros l (g' & b & Hg' & Hp)%Hfull. destruct (decide (g' = g)) as [-> |].
    + exists g, a'. rewrite lookup_insert_eq. split; [done |]. apply Hhold. congruence.
    + exists g', b. by rewrite lookup_insert_ne.
  - intros g' b l [[<- <-] | [_ Hb']]%lookup_insert_Some Hp; [apply Hhold in Hp |]; eauto.
  - intros g1 g2 a1 a2 l [[<- <-] | [_ H1]]%lookup_insert_Some [[<- <-] | [_ H2]]%lookup_insert_Some P1 P2;
      rewrite ?Hhold in *; eauto.
Qed.

Lemma locked_inv m g a : inv m → m.(callers) !! g = Some a → a.(a_pc) = Entered →
  inv (mkKeyMap (lock_of m a.(a_key)).2 m.(full)
         (<[g := to a (Found (lock_of m a.(a_key)).1)]> m.(callers))).
Proof.
  intros [Hb Hinj Hfound Hfull Hheld Hone] Hg Hp.
  assert (∀ k l, m.(locks) !! k = Some l → (lock_of m a.(a_key)).2 !! k = Some l) as Hkeep.
  { intros k l Hk. unfold lock_of. destruct (locks m !! a_key a) eqn:E; [done |]. cbn.
    rewrite lookup_insert_ne; congruence. }
  assert ((lock_of m a.(a_key)).2 !! a.(a_key) = Some (lock_of m a.(a_key)).1) as Hown.
  { unfold lock_of. destruct (locks m !! a_key a) eqn:E; [done |]. apply lookup_insert_eq. }
  split; cbn.
  - intros k l. unfold lock_of. destruct (locks m !! a_key a) eqn:E; cbn; [by apply Hb |].
    rewrite map_size_insert_None by done.
    intros [[_ <-] | [_ Hk%Hb]]%lookup_insert_Some; lia.
  - intros k1 k2 l. unfold lock_of. destruct (locks m !! a_key a) eqn:E; cbn; [by apply Hinj |].
    intros [[<- <-] | [_ H1]]%lookup_insert_Some [[<- H2] | [_ H2]]%lookup_insert_Some; subst; eauto.
    + apply Hb in H2. lia.
    + apply Hb in H1. lia.
  - intros g' b l [[<- <-] | [_ Hb']]%lookup_insert_Some; cbn; [by intros [= <-] | eauto].
  - intros l (g' & b & Hg' & Hp')%Hfull. exists g', b. rewrite lookup_insert_ne; [done | congruence].
  - intros g' b l [[<- <-] | [_ Hb']]%lookup_insert_Some Hp'; [done | eauto].
  - intros g1 g2 a1 a2 l [[<- <-] | [_ H1]]%lookup_insert_Some [[<- <-] | [_ H2]]%lookup_insert_Some P1 P2;
      try done. eauto.
Qed.

Lemma send_inv m g a l : inv m → m.(callers) !! g = Some a → a.(a_pc) = Waiting l → l ∉ m.(full) →
  inv (mkKeyMap m.(locks) ({[l]} ∪ m.(full)) (<[g := to a (Holding l)]> m.(callers))).
Proof.
  intros [Hb Hinj Hfound Hfull Hheld Hone] Hg Hp Hl. split; cbn; [done | done | | | |].
  - intros g' b l' [[<- <-] | [_ Hb']]%lookup_insert_Some; cbn; [| eauto].
    intros [= <-]. eapply Hfound; [done |]. by rewrite Hp.
  - intros l' [->%elem_of_singleton | (g' & b & Hg' & Hp')%Hfull]%elem_of_union.
    + exists g, (to a (Holding l)). by rewrite lookup_insert_eq.
    + exists g', b. rewrite lookup_insert_ne; [done | congruence].
  - intros g' b l' [[<- <-] | [_ Hb']]%lookup_insert_Some; cbn; intros Hp'.
    + injection Hp' as <-. set_solver.
    + apply elem_of_union. right. eauto.
  - intros g1 g2 a1 a2 l' [[<- <-] | [_ H1]]%lookup_insert_Some [[<- <-] | [_ H2]]%lookup_insert_Some;
      cbn; intros P1 P2; [done | | | by eauto].
    + injection P1 as ->. by destruct Hl; eapply Hheld.
    + injection P2 as ->. by destruct Hl; eapply Hheld.
Qed.

Lemma release_inv m g a l : inv m → m.(callers) !! g = Some a → a.(a_pc) = Holding l →
  inv (mkKeyMap m.(locks) (m.(full) ∖ {[l]}) (<[g := to a Released]> m.(callers))).
Proof.
  intros [Hb Hinj Hfound Hfull Hheld Hone] Hg Hp. split; cbn; [done | done | | | |].
  - intros g' b l' [[<- <-] | [_ Hb']]%lookup_insert_Some; cbn; [done | eauto].
  - intros l' [(g' & b & Hg' & Hp')%Hfull Hne%not_elem_of_singleton]%elem_of_difference.
    exists g', b. rewrite lookup_insert_ne; [done |]. intros <-. congruence.
  - intros g' b l' [[<- <-] | [Hne Hb']]%lookup_insert_Some; cbn; intros Hp'; [done |].
    apply elem_of_difference. split; [eauto |]. intros ->%elem_of_singleton. eauto.
  - intros g1 g2 a1 a2 l' [[<- <-] | [_ H1]]%lookup_insert_Some [[<- <-] | [_ H2]]%lookup_insert_Some;
      cbn; intros P1 P2; try done. eauto.
Qed.

Lemma lock_step_inv m e m' : inv m → step m e = Some m' → inv m'.
Proof.
  intros Hi Hs. destruct e; cbn [step] in Hs.
  1: { case_bool_decide as Hg; [| done]. injection Hs as <-.
       destruct Hi as [Hb Hinj Hfound Hfull Hheld Hone]. split; cbn; [done | done | | | |].
       - intros g' b l [[<- <-] | [_ Hb']]%lookup_insert_Some; [done | eauto].
       - intros l (g' & b & Hg' & Hp)%Hfull. exists g', b. rewrite lookup_insert_ne; [done | congruence].
       - intros g' b l [[<- <-] | [_ Hb']]%lookup_insert_Some Hp; [done | eauto].
       - intros g1 g2 a1 a2 l [[<- <-] | [_ H1]]%lookup_insert_Some [[<- <-] | [_ H2]]%lookup_insert_Some P1 P2;
           try done. eauto. }
  all: apply bind_Some in Hs as (a & Hg & Hs).
  - injection Hs as <-. by eapply quiet_inv.
  - destruct (a_pc a) eqn:Hp; try done. pose proof (locked_inv m g a Hi Hg Hp) as Hl.
    destruct (lock_of m (a_key a)). by injection Hs as <-.
  - destruct (a_pc a) eqn:Hp; try done. injection Hs as <-.
    eapply quiet_inv; [done | done | done | |]; rewrite Hp; by destruct (a_cancelled a).
  - destruct (a_pc a) eqn:Hp; try done. case_bool_decide; [done |]. injection Hs as <-. by eapply send_inv.
  - destruct (a_pc a) eqn:Hp; try done. destruct (a_cancelled a); [| done]. injection Hs as <-.
    eapply quiet_inv; [done | done | done | |]; by rewrite Hp.
  - destruct (a_pc a) eqn:Hp; try done. case_bool_decide; [| done]. injection Hs as <-. by eapply release_inv.
Qed.

Lemma lock_steps_inv m es m' : inv m → steps m es = Some m' → inv m'.
Proof.
  revert m. induction es as [| e es IH]; intros m Hi; cbn [steps]; [by intros [= <-] |].
  intros (m1 & H1 & H2)%bind_Some. eapply IH; [| done]. by eapply lock_step_inv.
Qed.

(** Keyed locks exclude exactly the holders of the same key.  In every
    interleaving two callers that hold the lock of one key are the same caller; a
    caller waiting for a key can take its lock exactly when nobody holds that key,
    whatever happens to other keys; a cancelled caller can leave at once; and a
    holder's release never blocks. *)
Theorem keyed_exclusion es m :
  steps New es = Some m →
  let holds g key := ∃ a l, m.(callers) !! g = Some a ∧ a.(a_key) = key ∧ a.(a_pc) = Holding l in
  (∀ g1 g2 key, holds g1 key → holds g2 key → g1 = g2) ∧
  (∀ g a l, m.(callers) !! g = Some a → a.(a_pc) = Waiting l →
     (is_Some (step m (Send g)) ↔ ¬ ∃ g', holds g' a.(a_key)) ∧
     (a.(a_cancelled) = true → is_Some (step m (CtxDone g)))) ∧
  (∀ g key, holds g key → is_Some (step m (Release g))).
Proof.
  intros Hs holds. apply lock_steps_inv in Hs as [Hb Hinj Hfound Hfull Hheld Hone]; [| apply New_inv].
  assert (∀ g a l, callers m !! g = Some a → a_pc a = Holding l → locks m !! a_key a = Some l) as Hlock.
  { intros g a l Hg Hp. eapply Hfound; [done |]. by rewrite Hp. }
  split; [| split].
  - intros g1 g2 key (a1 & l1 & H1 & <- & P1) (a2 & l2 & H2 & Hk & P2).
    assert (l1 = l2) as ->; [| by eapply Hone].
    pose proof (Hlock g1 a1 l1 H1 P1). pose proof (Hlock g2 a2 l2 H2 P2). congruence.
  - intros g a l Hg Hp. assert (locks m !! a_key a = Some l) as Hl.
    { eapply Hfound; [done |]. by rewrite Hp. }
    split; cbn; rewrite Hg; cbn; rewrite Hp.
    + case_bool_decide as Hin; split; try done.
      * intros Hn. destruct Hn. destruct (Hfull l Hin) as (g' & b & Hg' & Hp'). exists g', b, l.
        split; [done |]. split; [| done]. by eapply Hinj; [eapply Hlock |].
      * intros _ (g' & b & l' & Hg' & Hk & Hp'). destruct Hin.
        assert (l' = l) as -> by (pose proof (Hlock g' b l' Hg' Hp'); congruence). by eapply Hheld.
    + intros ->. by eauto.
  - intros g key (a & l & Hg & _ & Hp). cbn. rewrite Hg. cbn. rewrite Hp.
    rewrite bool_decide_eq_true_2 by (by eapply Hheld). by eauto.
Qed.

End keylock.

(** Two callers of one key, and a third of another. *)
Example keyed_exclusion_witness :
  let es := [Acquire 0 5%Z; Acquire 1 5%Z; Acquire 2 6%Z; Locked 0; Locked 1; Locked 2; CtxErr 0; CtxErr 1;
             CtxErr 2; Send 0; Send 2] in
  step (default New (steps New es)) (Send 1) = None.
Proof.
  destruct (steps New [Acquire 0 5%Z; Acquire 1 5%Z; Acquire 2 6%Z; Locked 0; Locked 1; Locked 2; CtxErr 0;
                       CtxErr 1; CtxErr 2; Send 0; Send 2]) as [m |] eqn:Hs; [| discriminate Hs].
  pose proof (keyed_exclusion _ m Hs) as (_ & Hw & _). cbn [default].
  destruct (step m (Send 1)) eqn:E; [| done]. exfalso.
  injection Hs as <-.
  refine (proj1 (proj1 (Hw 1 (mkCaller 5%Z false (Waiting 0)) 0 eq_refl eq_refl)) ltac:(rewrite E; eauto) _).
  by exists 0, (mkCaller 5%Z false (Holding 0)), 0.
Defined.
