(* ===== verification/ResourceSetInputs.v ===== *)
(** * ResourceSet input composition (internal/resourcesetinput)

    [Permute] combines provider groups with Flux's Cartesian semantics through an
    odometer of selected positions; [Combine] chooses between it and plain
    concatenation.  An input set is opaque here ([V]): composition never looks
    inside one.  A Go string is iterated as runes, so provider names are lists of
    code points; ASCII is classified as written in the Unicode tables, other code
    points through the tables of package unicode, which are parameters. *)

From stdpp Require Import pretty.
From S2P Require Import Prelude.

Definition rune := Z.

Section unicode.
(** [unicode.ToLower], [IsSpace] and [IsPunct] beyond ASCII. *)
Context (wide_lower : rune → rune) (wide_space wide_punct : rune → bool).

Local Open Scope Z_scope.

Definition between (lo hi r : rune) : bool := (lo <=? r) && (r <=? hi).

Definition ToLower (r : rune) : rune :=
  if r <? 128 then (if between 65 90 r then r + 32 else r) else wide_lower r.

(** Tab to carriage return, and the space. *)
Definition IsSpace (r : rune) : bool :=
  if r <? 128 then between 9 13 r || (r =? 32) else wide_space r.

(** ASCII punctuation: the symbols $ + < = > ^ ` | ~ are not in class P. *)
Definition IsPunct (r : rune) : bool :=
  if r <? 128 then
    (between 33 47 r && negb (r =? 36) && negb (r =? 43)) || between 58 59 r || between 63 64 r ||
    between 91 93 r || (r =? 95) || (r =? 123) || (r =? 125)
  else wide_punct r.

Definition ascii_of_rune (r : rune) : Ascii.ascii := Ascii.ascii_of_N (Z.to_N r).

(** [normalizeKeyForTemplate]: the runes left, the pending underscore, the buffer. *)
Fixpoint normalize_runes (rs : list rune) (pending : bool) (b : string) : string :=
  match rs with
  | [] => b
  | r :: rs =>
      let r := ToLower r in
      if IsSpace r || IsPunct r then normalize_runes rs true b
      else if between 97 122 r || between 48 57 r then
        let b := if pending && bool_decide (b ≠ "") then b +:+ "_" else b in
        normalize_runes rs false (b +:+ String (ascii_of_rune r) "")
      else normalize_runes rs pending b
  end.

Definition normalizeKeyForTemplate (s : list rune) : string := normalize_runes s false "".
End unicode.

(** [hash/adler32.Checksum]. *)
Definition adler32_step (s : Z * Z) (c : Ascii.ascii) : Z * Z :=
  let a := ((s.1 + Z.of_N (Ascii.N_of_ascii c)) mod 65521)%Z in (a, ((s.2 + a) mod 65521)%Z).

Fixpoint adler32_loop (s : string) (acc : Z * Z) : Z * Z :=
  match s with "" => acc | String c s => adler32_loop s (adler32_step acc c) end.

Definition adler32 (s : string) : Z :=
  let '(a, b) := adler32_loop s (1, 0)%Z in (b * 65536 + a)%Z.

Definition permID (s : string) : string := pretty (adler32 s).

Definition maxPermutations : Z := 10000.

Section permute.
Context {V : Type}.
Context (wide_lower : rune → rune) (wide_space wide_punct : rune → bool).
Let normalize := normalizeKeyForTemplate wide_lower wide_space wide_punct.

(** [Group]. *)
Record Group := mkGroup { g_Name : list rune; Inputs : list V }.

Record scopedProvider := mkScoped { p_name : string; sets : list V }.

(** The values of a permutation's map: an input set, or the [id] string. *)
Inductive entry := EntrySet (v : V) | EntryID (s : string).

Inductive permute_error :=
  | ErrEmptyName (name : list rune)
  | ErrTooMany (name : list rune) (contributes : nat).

(** The scoping loop; [None] is the early [return nil, nil]. *)
Fixpoint scope_groups (groups : list Group) (includeEmpty : bool) (scoped : list scopedProvider)
    (expected : Z) : permute_error + option (list scopedProvider * Z) :=
  match groups with
  | [] => inr (Some (scoped, expected))
  | g :: rest =>
      if bool_decide (length g.(Inputs) = 0) then
        if includeEmpty then inr None else scope_groups rest includeEmpty scoped expected
      else
        let norm := normalize g.(g_Name) in
        if bool_decide (norm = "") then inl (ErrEmptyName g.(g_Name))
        else
          let expected := uint64 (expected * Z.of_nat (length g.(Inputs))) in
          if bool_decide (maxPermutations < expected)%Z
          then inl (ErrTooMany g.(g_Name) (length g.(Inputs)))
          else scope_groups rest includeEmpty (scoped ++ [mkScoped norm g.(Inputs)]) expected
  end.

(** [advancePermutation]: the odometer, last position fastest. *)
Fixpoint advancePermutation (selected : list nat) (sizes : list nat) : list nat * bool :=
  match selected, sizes with
  | s :: selected, n :: sizes =>
      match advancePermutation selected sizes with
      | (selected, true) => (s :: selected, true)
      | (selected, false) => if S s <? n then (S s :: selected, true) else (0 :: selected, false)
      end
  | _, _ => ([], false)
  end.

(** [strings.Join(idParts, "/")]. *)
Definition join_slash (parts : list string) : string :=
  match parts with [] => "" | p :: ps => foldl (λ acc x, acc +:+ "/" +:+ x) p ps end.

(** The map of one selection; later providers of the same name overwrite earlier
    ones, and [id] is written last. *)
Definition perm_sets (scoped : list scopedProvider) (sel : list nat) : gmap string entry :=
  foldl (λ m ps, match ps.1.(sets) !! ps.2 with
                 | Some v => <[ps.1.(p_name) := EntrySet v]> m
                 | None => m
                 end) ∅ (zip scoped sel).

Definition perm_id (scoped : list scopedProvider) (sel : list nat) : string :=
  permID (join_slash (zip_with (λ p i, p.(p_name) +:+ "=" +:+ pretty i) scoped sel)).

Definition permutation (scoped : list scopedProvider) (sel : list nat) : gmap string entry :=
  <["id" := EntryID (perm_id scoped sel)]> (perm_sets scoped sel).

Definition sizes (scoped : list scopedProvider) : list nat := map (λ p, length p.(sets)) scoped.

Definition permute_step (scoped : list scopedProvider)
    (s : list (gmap string entry) * list nat)
    : list (gmap string entry) * list nat + list (gmap string entry) :=
  let out := s.1 ++ [permutation scoped s.2] in
  match advancePermutation s.2 (sizes scoped) with
  | (sel, true) => inl (out, sel)
  | (_, false) => inr out
  end.

(** The number of selections. *)
Definition product (ns : list nat) : nat := foldr Nat.mul 1 ns.

Definition Permute (groups : list Group) (includeEmpty : bool)
    : permute_error + list (gmap string entry) :=
  match scope_groups groups includeEmpty [] 1 with
  | inl e => inl e
  | inr None => inr []
  | inr (Some (scoped, _)) =>
      if bool_decide (scoped = []) then inr []
      else inr (default [] (loop (permute_step scoped) (product (sizes scoped))
                              ([], replicate (length scoped) 0)))
  end.

(** [Combine]; the strategy says whether it is Permute, and whether empty
    providers are included.  The flattened sets are the groups' own. *)
Definition Combine (groups : list Group) (strategy : option (bool * bool))
    : permute_error + list (V + gmap string entry) :=
  match strategy with
  | Some (true, includeEmpty) =>
      match Permute groups includeEmpty with
      | inl e => inl e
      | inr perms => inr (map inr perms)
      end
  | _ => inr (map inl (concat (map Inputs groups)))
  end.

(** ** The odometer enumerates the mixed-radix numbers *)

(** The digits of [v], most significant first. *)
Fixpoint digits (ns : list nat) (v : nat) : list nat :=
  match ns with
  | [] => []
  | _ :: ns => v / product ns :: digits ns (v mod product ns)
  end.

(** The number a selection stands for. *)
Fixpoint number (ns sel : list nat) : nat :=
  match ns, sel with
  | _ :: ns, s :: sel => s * product ns + number ns sel
  | _, _ => 0
  end.

Lemma product_pos ns : Forall (lt 0) ns → 0 < product ns.
Proof. induction 1; simpl; lia. Qed.

Lemma digits_valid ns v :
  Forall (lt 0) ns → v < product ns → Forall2 lt (digits ns v) ns.
Proof.
  intros Hp. revert v. induction Hp as [|n ns Hn Hp IH]; intros v Hv; simpl in *; [constructor|].
  pose proof (product_pos ns Hp). constructor.
  - apply Nat.Div0.div_lt_upper_bound. lia.
  - apply IH. apply Nat.mod_upper_bound. lia.
Qed.

Lemma number_digits ns v : Forall (lt 0) ns → v < product ns → number ns (digits ns v) = v.
Proof.
  intros Hp. revert v. induction Hp as [|n ns Hn Hp IH]; intros v Hv; simpl in *; [lia|].
  pose proof (product_pos ns Hp). rewrite IH by (apply Nat.mod_upper_bound; lia).
  pose proof (Nat.div_mod_eq v (product ns)). lia.
Qed.

Lemma number_lt ns sel : Forall2 lt sel ns → number ns sel < product ns.
Proof. induction 1; simpl; [lia|]. nia. Qed.

Lemma digits_number ns sel : Forall2 lt sel ns → digits ns (number ns sel) = sel.
Proof.
  induction 1 as [|s n sel ns Hs Hv IH]; simpl; [done|].
  pose proof (number_lt _ _ Hv). f_equal.
  - rewrite Nat.div_add_l by lia. rewrite Nat.div_small by done. lia.
  - rewrite Nat.add_comm, Nat.Div0.mod_add, Nat.mod_small by done. done.
Qed.

Lemma digits_zero ns : digits ns 0 = replicate (length ns) 0.
Proof.
  induction ns as [|n ns IH]; simpl; [done|]. by rewrite Nat.Div0.div_0_l, Nat.Div0.mod_0_l, IH.
Qed.

(** One turn of the odometer is the successor. *)
Lemma advance_digits ns v :
  Forall (lt 0) ns → v < product ns →
  advancePermutation (digits ns v) ns
  = if S v <? product ns then (digits ns (S v), true) else (digits ns 0, false).
Proof.
  intros Hp. revert v. induction Hp as [|n ns Hn Hp IH]; intros v Hv; simpl in *.
  { assert (v = 0) as -> by lia. done. }
  pose proof (product_pos ns Hp) as HP. set (P := product ns) in *.
  pose proof (Nat.div_mod_eq v P) as Hdm. pose proof (Nat.mod_upper_bound v P ltac:(lia)) as Hr.
  rewrite IH by done. set (q := v / P) in *. set (r := v mod P) in *.
  destruct (Nat.ltb_spec (S r) P) as [Hlt|Hge].
  - assert (S v = q * P + S r) as -> by lia.
    rewrite Nat.div_add_l, Nat.div_small, Nat.add_0_r by lia.
    rewrite (Nat.add_comm (q * P)), Nat.Div0.mod_add, Nat.mod_small by lia.
    destruct (Nat.ltb_spec (S r + q * P) (n * P)) as [|Hn']; [done|].
    assert (q < n) by (apply Nat.Div0.div_lt_upper_bound; lia). nia.
  - assert (S v = (q + 1) * P) as -> by lia.
    rewrite Nat.div_mul, Nat.Div0.mod_mul by lia. rewrite Nat.Div0.div_0_l, Nat.Div0.mod_0_l.
    rewrite Nat.add_1_r.
    destruct (Nat.ltb_spec (S q) n), (Nat.ltb_spec (S q * P) (n * P)); try done; nia.
Qed.

Lemma permute_loop scoped fuel v out :
  Forall (lt 0) (sizes scoped) → v < product (sizes scoped) →
  product (sizes scoped) - v ≤ fuel →
  loop (permute_step scoped) fuel (out, digits (sizes scoped) v)
  = Some (out ++ map (λ v, permutation scoped (digits (sizes scoped) v))
                   (seq v (product (sizes scoped) - v))).
Proof.
  intros Hp. revert v out. induction fuel as [|fuel IH]; intros v out Hv Hf; [lia|].
  cbn [loop]. unfold permute_step at 1. cbn [fst snd]. rewrite advance_digits by done.
  destruct (product (sizes scoped) - v) as [|k] eqn:Hk; [lia|]. cbn [seq map].
  destruct (Nat.ltb_spec (S v) (product (sizes scoped))).
  - rewrite IH by lia. rewrite <-app_assoc. repeat f_equal. lia.
  - assert (k = 0) as -> by lia. done.
Qed.

(** ** Scoping *)

(** A slice length the machine can hold, with room for one multiplication. *)
Definition small_groups (groups : list Group) : Prop :=
  Forall (λ g, Z.of_nat (length g.(Inputs)) < 2 ^ 50)%Z groups.

Definition scoped_ok (scoped : list scopedProvider) (expected : Z) : Prop :=
  Forall (lt 0) (sizes scoped) ∧ expected = Z.of_nat (product (sizes scoped)) ∧
  (expected ≤ maxPermutations)%Z.

Lemma scoped_nil_ok : scoped_ok [] 1.
Proof. split_and!; [constructor|done|unfold maxPermutations; lia]. Qed.

Lemma product_app ns ms : product (ns ++ ms) = product ns * product ms.
Proof. induction ns as [|n ns IH]; simpl; [lia|]. rewrite IH. lia. Qed.

Lemma scope_groups_ok groups incl scoped expected scoped' expected' :
  small_groups groups → scoped_ok scoped expected →
  scope_groups groups incl scoped expected = inr (Some (scoped', expected')) →
  scoped_ok scoped' expected'.
Proof.
  intros Hs. revert scoped expected.
  induction Hs as [|g groups Hg _ IH]; intros scoped expected Hok; cbn [scope_groups].
  - by intros [= <- <-].
  - case_bool_decide as Hl; [destruct incl; [done|by apply IH]|].
    case_bool_decide; [done|]. case_bool_decide as Hm; [done|]. apply IH.
    destruct Hok as (Hp & He & Hmax). unfold maxPermutations in *.
    assert (uint64 (expected * Z.of_nat (length g.(Inputs))) =
            expected * Z.of_nat (length g.(Inputs)))%Z as Hno.
    { unfold uint64. apply Z.mod_small. nia. }
    unfold scoped_ok, sizes in *. split_and!; rewrite ?map_app; simpl.
    + apply Forall_app. split; [done|]. constructor; [lia|constructor].
    + rewrite product_app. simpl. by rewrite Hno, He, Nat.mul_1_r, Nat2Z.inj_mul.
    + unfold maxPermutations. lia.
Qed.

End permute.

(** ** Properties *)

Lemma digits_enumerate ns :
  Forall (lt 0) ns →
  NoDup (map (digits ns) (seq 0 (product ns))) ∧
  (∀ sel, sel ∈ map (digits ns) (seq 0 (product ns)) ↔ Forall2 lt sel ns).
Proof.
  intros Hp. split.
  - apply NoDup_fmap_2_strong; [|apply NoDup_seq].
    intros x y [_ Hx]%elem_of_seq [_ Hy]%elem_of_seq He.
    rewrite <-(number_digits ns x), <-(number_digits ns y) by done. by rewrite He.
  - intros sel. rewrite list_elem_of_fmap. split.
    + intros (v & -> & [_ Hv]%elem_of_seq). by apply digits_valid.
    + intros Hs. exists (number ns sel). rewrite digits_number by done. split; [done|].
      apply elem_of_seq. pose proof (number_lt _ _ Hs). lia.
Qed.

(** [Permute] terminates with the Cartesian product: when it scopes at
    least one provider without error, its output is one map per selection of one
    input of every scoped provider, each selection exactly once, in odometer
    order, and there are at most [maxPermutations] of them (the 64-bit count does
    not wrap for slices below 2^50 entries). *)
Theorem Permute_cartesian {V} lo sp pu (groups : list (Group (V := V))) incl scoped n :
  small_groups groups →
  scope_groups lo sp pu groups incl [] 1 = inr (Some (scoped, n)) → scoped ≠ [] →
  ∃ sels, Permute lo sp pu groups incl = inr (map (permutation scoped) sels) ∧
    NoDup sels ∧ (∀ sel, sel ∈ sels ↔ Forall2 lt sel (sizes scoped)) ∧
    Z.of_nat (length sels) = n ∧ (n ≤ maxPermutations)%Z.
Proof.
  intros Hsm Hsc Hne.
  destruct (scope_groups_ok _ _ _ _ _ _ _ _ _ Hsm scoped_nil_ok Hsc)
    as (Hp & Hn & Hmax).
  exists (map (digits (sizes scoped)) (seq 0 (product (sizes scoped)))).
  destruct (digits_enumerate _ Hp) as [Hnd Hall].
  split; [|split; [done|split; [done|split; [by rewrite length_map, length_seq|done]]]].
  unfold Permute. rewrite Hsc, bool_decide_eq_false_2 by done. f_equal.
  assert (replicate (length scoped) 0 = digits (sizes scoped) 0) as ->.
  { rewrite digits_zero. unfold sizes. by rewrite length_map. }
  rewrite permute_loop; [|done|by apply product_pos|lia]. simpl.
  by rewrite Nat.sub_0_r, map_map.
Qed.

(** Writing the remaining providers over a map. *)
Definition write_sets {V} (m : gmap string (entry (V := V))) (ps : list (scopedProvider * nat)) :=
  foldl (λ m ps, match ps.1.(sets) !! ps.2 with
                 | Some v => <[ps.1.(p_name) := EntrySet v]> m
                 | None => m
                 end) m ps.

Lemma write_sets_other {V} (ps : list (scopedProvider (V := V) * nat)) m name :
  name ∉ map (λ p, p.1.(p_name)) ps → write_sets m ps !! name = m !! name.
Proof.
  revert m. induction ps as [|[p i] ps IH]; intros m Hn; simpl in *; [done|].
  apply not_elem_of_cons in Hn as [Hn1 Hn2]. unfold write_sets in *. simpl. rewrite IH by done.
  destruct (sets p !! i); [|done]. by rewrite lookup_insert_ne.
Qed.

Lemma write_sets_some {V} (ps : list (scopedProvider (V := V) * nat)) m name :
  Forall (λ p, p.2 < length p.1.(sets)) ps →
  is_Some (write_sets m ps !! name) ↔ is_Some (m !! name) ∨ name ∈ map (λ p, p.1.(p_name)) ps.
Proof.
  intros Hv. revert m. induction Hv as [|[p i] ps Hi _ IH]; intros m; simpl in *.
  { rewrite elem_of_nil. tauto. }
  unfold write_sets in *. simpl. rewrite IH.
  destruct (lookup_lt_is_Some_2 _ _ Hi) as [v ->].
  rewrite lookup_insert_is_Some', elem_of_cons. intuition congruence.
Qed.

Lemma zip_names {V} (scoped : list (scopedProvider (V := V))) sel :
  Forall2 lt sel (sizes scoped) →
  map (λ p, p.1.(p_name)) (zip scoped sel) = map p_name scoped ∧
  Forall (λ p, p.2 < length p.1.(sets)) (zip scoped sel).
Proof.
  revert sel. induction scoped as [|p scoped IH]; intros sel Hs; inversion Hs; subst; simpl.
  - by split.
  - destruct (IH l) as [-> Hf]; [done|]. split; [done|]. by constructor.
Qed.

(** A permutation holds one chosen input set per provider name, the last
    provider of a name winning, and always the [id] of its selection, which
    overwrites a provider that is itself named [id]. *)
Theorem permutation_lookup {V} (scoped : list (scopedProvider (V := V))) sel :
  Forall2 lt sel (sizes scoped) →
  permutation scoped sel !! "id" = Some (EntryID (perm_id scoped sel)) ∧
  (∀ name, name ≠ "id" → is_Some (permutation scoped sel !! name) ↔ name ∈ map p_name scoped) ∧
  (∀ a p b i v, scoped = a ++ p :: b → p.(p_name) ≠ "id" → p.(p_name) ∉ map p_name b →
     sel !! length a = Some i → p.(sets) !! i = Some v →
     permutation scoped sel !! p.(p_name) = Some (EntrySet v)).
Proof.
  intros Hs. destruct (zip_names scoped sel Hs) as [Hn Hf]. unfold permutation.
  change (perm_sets scoped sel) with (write_sets ∅ (zip scoped sel)).
  split_and!; [by rewrite lookup_insert_eq|..].
  - intros name Hid. rewrite lookup_insert_ne by done. rewrite write_sets_some, Hn by done.
    rewrite lookup_empty. split; [by intros [[? [=]]|]|by right].
  - intros a p b i v -> Hid Hb Hsel Hv. rewrite lookup_insert_ne by done.
    apply list_elem_of_split_length in Hsel as (l1 & l2 & -> & Hlen).
    unfold sizes in Hs. rewrite map_app in Hs. simpl in Hs.
    apply Forall2_app_inv in Hs as [_ Hs]; [|by rewrite length_map].
    inversion Hs as [|? ? ? ? _ Hs2]; subst.
    rewrite zip_with_app by done. simpl. unfold write_sets. rewrite foldl_app. simpl. rewrite Hv.
    destruct (zip_names b l2 Hs2) as [Hnb _].
    pose proof (write_sets_other (zip b l2)) as Hw. unfold write_sets in Hw. rewrite Hw by by rewrite Hnb.
    by rewrite lookup_insert_eq.
Qed.

(** The characters a normalized name is made of. *)
Definition key_char (c : Ascii.ascii) : bool :=
  let r := Z.of_N (Ascii.N_of_ascii c) in (between 97 122 r || between 48 57 r)%Z.

Definition underscore : Ascii.ascii := Ascii.ascii_of_nat 95.

(** The shape of the buffer: no leading, trailing or doubled underscore. *)
Record identifier (l : list Ascii.ascii) : Prop := mkIdentifier {
  id_chars : ∀ c, c ∈ l → key_char c = true ∨ c = underscore;
  id_head : head l ≠ Some underscore;
  id_last : last l ≠ Some underscore;
  id_single : ∀ i, l !! i = Some underscore → l !! S i ≠ Some underscore;
}.

Lemma key_not_underscore c : key_char c = true → c ≠ underscore.
Proof. by intros Hk ->. Qed.

Lemma identifier_snoc l c : identifier l → key_char c = true → identifier (l ++ [c]).
Proof.
  intros [H1 H2 H3 H4] Hc. pose proof (key_not_underscore c Hc) as Hu. split.
  - intros x [Hx|Hx%list_elem_of_singleton]%elem_of_app; [by apply H1|subst; by left].
  - destruct l; simpl in *; [by intros [=]|done].
  - rewrite last_snoc. by intros [=].
  - intros i Hi Hsi. assert (S i < length (l ++ [c])) as Hlt by (apply lookup_lt_is_Some; eauto).
    rewrite length_app in Hlt. simpl in Hlt. rewrite lookup_app_l in Hi by lia.
    destruct (decide (S i < length l)) as [Hl|Hl].
    + rewrite lookup_app_l in Hsi by done. exact (H4 i Hi Hsi).
    + rewrite lookup_app_r in Hsi by lia. assert (S i - length l = 0) as E by lia.
      rewrite E in Hsi. simpl in Hsi. congruence.
Qed.

Lemma identifier_join l c :
  identifier l → l ≠ [] → key_char c = true → identifier (l ++ [underscore; c]).
Proof.
  intros [H1 H2 H3 H4] Hl Hc. pose proof (key_not_underscore c Hc) as Hu. split.
  - intros x [Hx|Hx]%elem_of_app; [by apply H1|].
    apply elem_of_cons in Hx as [->| ->%list_elem_of_singleton]; [by right|by left].
  - destruct l; done.
  - change [underscore; c] with ([underscore] ++ [c]). rewrite (assoc_L (++)), last_snoc. by intros [=].
  - intros i Hi Hsi. assert (S i < length (l ++ [underscore; c])) as Hlt
      by (apply lookup_lt_is_Some; eauto). rewrite length_app in Hlt. simpl in Hlt.
    destruct (decide (S i < length l)) as [Hs|Hs].
    + rewrite lookup_app_l in Hsi by done. rewrite lookup_app_l in Hi by lia. exact (H4 i Hi Hsi).
    + destruct (decide (S i = length l)) as [He|He].
      * rewrite lookup_app_l in Hi by lia. apply H3. rewrite last_lookup.
        by replace (Init.Nat.pred (length l)) with i by lia.
      * rewrite lookup_app_r in Hsi by lia. replace (S i - length l) with 1 in Hsi by lia.
        simpl in Hsi. congruence.
Qed.

Lemma list_ascii_app s t :
  String.list_ascii_of_string (s +:+ t)
  = String.list_ascii_of_string s ++ String.list_ascii_of_string t.
Proof. induction s as [|a s IH]; [done|]. simpl. by f_equal. Qed.

Lemma key_rune_char r :
  (between 97 122 r || between 48 57 r)%Z = true → key_char (ascii_of_rune r) = true.
Proof.
  unfold key_char, ascii_of_rune. intros Hr.
  assert (0 ≤ r < 256)%Z as Hb.
  { unfold between in Hr. rewrite orb_true_iff, !andb_true_iff, !Z.leb_le in Hr. lia. }
  rewrite Ascii.N_ascii_embedding by lia. by rewrite Z2N.id by lia.
Qed.

Lemma normalize_runes_identifier lo sp pu rs pending b :
  identifier (String.list_ascii_of_string b) →
  identifier (String.list_ascii_of_string (normalize_runes lo sp pu rs pending b)).
Proof.
  revert pending b. induction rs as [|r rs IH]; intros pending b Hb; cbn [normalize_runes]; [done|].
  destruct (_ || _); [by apply IH|].
  destruct (between 97 122 _ || between 48 57 _)%Z eqn:Hk; [|by apply IH].
  apply key_rune_char in Hk. apply IH. rewrite list_ascii_app. simpl.
  destruct pending; cbn [andb]; [|by apply identifier_snoc].
  case_bool_decide as Hne; [|by apply identifier_snoc].
  rewrite list_ascii_app. rewrite <-(assoc_L (++)). apply identifier_join; [done| |done].
  by destruct b.
Qed.

(** A normalized provider key is a template identifier: it only holds
    lower-case ASCII letters, digits and single underscores between them. *)
Theorem normalize_identifier lo sp pu name :
  let key := String.list_ascii_of_string (normalizeKeyForTemplate lo sp pu name) in
  (∀ c, c ∈ key → key_char c = true ∨ c = underscore) ∧
  head key ≠ Some underscore ∧ last key ≠ Some underscore ∧
  (∀ i, key !! i = Some underscore → key !! S i ≠ Some underscore).
Proof.
  destruct (normalize_runes_identifier lo sp pu name false "") as [? ? ? ?]; [|done].
  split; simpl; try done. by intros c ?%not_elem_of_nil.
Qed.

(** ** Witnesses *)

Definition ascii_lower (r : rune) : rune := r.
Definition no_class (r : rune) : bool := false.

(** Two providers, [team a] with two inputs and [env] with three. *)
Definition two_groups : list (Group (V := nat)) :=
  [mkGroup [84; 101; 97; 109; 32; 97]%Z [10; 11]; mkGroup [101; 110; 118]%Z [20; 21; 22]].

Definition two_scoped : list (scopedProvider (V := nat)) :=
  [mkScoped "team_a" [10; 11]; mkScoped "env" [20; 21; 22]].

Lemma Permute_cartesian_witness :
  ∃ sels, Permute ascii_lower no_class no_class two_groups false
          = inr (map (permutation two_scoped) sels) ∧
    [1; 2] ∈ sels ∧ Z.of_nat (length sels) = 6%Z.
Proof.
  destruct (Permute_cartesian ascii_lower no_class no_class two_groups false two_scoped 6)
    as (sels & HP & _ & Hall & Hlen & _).
  - repeat constructor.
  - vm_compute. reflexivity.
  - discriminate.
  - exists sels. split; [exact HP|]. split; [|exact Hlen]. apply Hall. repeat constructor.
Defined.

Lemma permutation_lookup_witness :
  permutation two_scoped [1; 2] !! "env" = Some (EntrySet 22).
Proof.
  apply (proj2 (proj2 (permutation_lookup two_scoped [1; 2] ltac:(repeat constructor)))
           [mkScoped "team_a" [10; 11]] (mkScoped "env" [20; 21; 22]) [] 2 22);
    [reflexivity|discriminate|apply not_elem_of_nil|reflexivity|reflexivity].
Defined.
