(* ===== verification/Schedule.v ===== *)
(** * The reconciliation scheduler (pkg/schedule/schedule.go)

    [Scheduler] drives every node to a fixpoint: it dispatches runnable nodes in
    sorted order onto the task service, re-queues the ones whose inputs changed,
    and, once nothing is in flight, settles the parked ones at increasing drain
    levels.  The model is a step relation whose steps are the sections the code
    executes under [s.mu] and the calls it makes outside it: [config] holds the
    scheduler, the bodies running on the task service, the position of the
    goroutine that executes [Run], and the calls made to the [Dispatcher] and
    the assessments.  What those (interfaces implemented elsewhere) answer is
    carried by the events. *)

From S2P Require Import Prelude Resource.

(** [Kind]: the retained classification of an invocation. *)
Inductive OutcomeKind := Terminal | Blocked | DependencyFailed.

#[export] Instance OutcomeKind_eq_dec : EqDecision OutcomeKind.
Proof. solve_decision. Defined.

Inductive nodeState := stateRunnable | stateRunning | stateParked | stateTerminal.

#[export] Instance nodeState_eq_dec : EqDecision nodeState.
Proof. solve_decision. Defined.

Definition maxRedispatches : nat := 32.

(** The errors [Run] reports. *)
Inductive sched_error :=
  | ErrContext
  | ErrRedispatch (id : NamedResource)
  | ErrUnresolved.

#[export] Instance sched_error_eq_dec : EqDecision sched_error.
Proof. solve_decision. Defined.

Section scheduler.
(** The assessments are opaque to the scheduler. *)
Context {A : Type}.

Record node := mkNode {
  n_state : nodeState;
  n_assessment : option A;
  n_redispatches : nat;
  n_progressed : bool;
  n_recheck : bool;
}.

(** [&node{id: id, state: stateRunnable}]. *)
Definition fresh_node : node := mkNode stateRunnable None 0 false false.

Record Scheduler := mkScheduler {
  nodes : gmap NamedResource node;
  runq : list NamedResource;
  unsorted : bool;
  inFlight : nat;
  err : option sched_error;
  stopped : bool;
  published : bool;
}.

Definition New : Scheduler := mkScheduler ∅ [] false 0 None false false.

Definition set_nodes (ns : gmap NamedResource node) (s : Scheduler) : Scheduler :=
  mkScheduler ns s.(runq) s.(unsorted) s.(inFlight) s.(err) s.(stopped) s.(published).
Definition set_err (e : option sched_error) (s : Scheduler) : Scheduler :=
  mkScheduler s.(nodes) s.(runq) s.(unsorted) s.(inFlight) e s.(stopped) s.(published).
Definition set_published (b : bool) (s : Scheduler) : Scheduler :=
  mkScheduler s.(nodes) s.(runq) s.(unsorted) s.(inFlight) s.(err) s.(stopped) b.
Definition set_stopped (s : Scheduler) : Scheduler :=
  mkScheduler s.(nodes) s.(runq) s.(unsorted) s.(inFlight) s.(err) true s.(published).

(** The admission of a declaration that has no node yet. *)
Definition admit_node (id : NamedResource) (s : Scheduler) : Scheduler :=
  mkScheduler (<[id := fresh_node]> s.(nodes)) (s.(runq) ++ [id]) true
    s.(inFlight) s.(err) s.(stopped) s.(published).

Definition Seed (ids : list NamedResource) (s : Scheduler) : Scheduler :=
  foldl (λ s id, if bool_decide (s.(nodes) !! id = None) then admit_node id s else s) s ids.

(** [OnArrival], up to its broadcast. *)
Definition OnArrival (id : NamedResource) (runnable : bool) (s : Scheduler) : Scheduler :=
  let s := set_published true s in
  if runnable && bool_decide (s.(err) = None) && negb s.(stopped) &&
     bool_decide (s.(nodes) !! id = None)
  then admit_node id s else s.

Definition requeueLocked (id : NamedResource) (charge : bool) (s : Scheduler) : Scheduler :=
  match s.(nodes) !! id with
  | None => s
  | Some n =>
      if bool_decide (n.(n_state) = stateRunnable) || bool_decide (s.(err) ≠ None) then s
      else
        let charged := charge && n.(n_progressed) in
        if charged && (maxRedispatches <=? n.(n_redispatches))
        then set_err (Some (ErrRedispatch id)) s
        else
          let n' := mkNode stateRunnable n.(n_assessment)
                      (if charged then S n.(n_redispatches) else n.(n_redispatches))
                      n.(n_progressed) n.(n_recheck) in
          mkScheduler (<[id := n']> s.(nodes)) (s.(runq) ++ [id]) true
            s.(inFlight) s.(err) s.(stopped) s.(published)
  end.

Definition OnPublication (s : Scheduler) : Scheduler := set_published true s.

(** What [complete] reads of the assessment it was given. *)
Record observation := mkObs { o_valid : bool; o_outcome : OutcomeKind; o_progressed : bool }.

(** A body on the task service: dispatching, settling, or inside [complete]. *)
Inductive task :=
  | Dispatching (previous : option A)
  | Settling (current : A) (drain : DrainLevel)
  | Settled (current : A)
  | Completing (current : option A) (valid unresolved progressed : bool)
  | Rechecking (current : A) (unresolved progressed : bool).

(** The last section of [complete]. *)
Definition complete_locked (id : NamedResource) (n : node) (current : option A)
    (valid unresolved progressed : bool) (s : Scheduler) : Scheduler :=
  let n' := mkNode (if unresolved then stateParked else stateTerminal) current
              n.(n_redispatches) progressed false in
  let s' := mkScheduler (<[id := n']> s.(nodes)) s.(runq) s.(unsorted) (s.(inFlight) - 1)
              s.(err) s.(stopped) s.(published) in
  if valid then s' else requeueLocked id (negb unresolved) s'.

(** The parked nodes, in the order [settleLocked] receives them. *)
Definition parkedLocked (s : Scheduler) : list NamedResource :=
  sort_by compare
    (elements (dom (filter (λ kn, kn.2.(n_state) = stateParked) s.(nodes)))).

(** ** The goroutine that executes Run *)

Inductive run_pc :=
  | RInit                                        (* Run not called yet *)
  | RLoop (level : DrainLevel)                   (* at the loop head, holding mu *)
  | RWait (level : DrainLevel)                   (* in cond.Wait *)
  | RSweep (level : DrainLevel) (quiescent : bool)
  | RInvalidate (level : DrainLevel) (quiescent changed : bool) (ids : list NamedResource)
  | RValidate (level : DrainLevel) (quiescent changed : bool) (id : NamedResource)
      (current : A) (ids : list NamedResource)
  | RRequeue (level : DrainLevel) (quiescent changed : bool) (id : NamedResource)
      (ids : list NamedResource)
  | RAfter (level : DrainLevel) (quiescent changed : bool)
  | RSettle (level : DrainLevel) (parked : list NamedResource)
  | RDrain                                       (* stopped, in BlockTillDone *)
  | RDone (result : option sched_error).

(** The calls made to the dispatcher and to the assessments. *)
Inductive call :=
  | CallDispatch (id : NamedResource) (previous : option A)
  | CallSettle (id : NamedResource) (a : A) (drain : DrainLevel)
  | CallRetire (a : A)
  | CallClose (a : A)
  | CallSweep (quiescent : bool).

Record config := mkConfig {
  sched : Scheduler;
  tasks : gmap NamedResource task;
  pc : run_pc;
  ctxDone : bool;
  calls : list call;
}.

Definition initial : config := mkConfig New ∅ RInit false [].

Definition upd (c : config) (s : Scheduler) (p : run_pc) : config :=
  mkConfig s c.(tasks) p c.(ctxDone) c.(calls).

(** [s.cond.Broadcast()]: a waiting [Run] resumes at the loop head. *)
Definition broadcast (p : run_pc) : run_pc :=
  match p with RWait level => RLoop level | _ => p end.

(** [ctx.Err()]. *)
Definition ctxErr (c : config) : option sched_error :=
  if c.(ctxDone) then Some ErrContext else None.

Definition or_err (a b : option sched_error) : option sched_error :=
  match a with Some _ => a | None => b end.

(** [dispatchNextLocked], whose task starts when [tasks.Go] is called. *)
Definition dispatchNextLocked (c : config) : option config :=
  let s := c.(sched) in
  let q := if s.(unsorted) then sort_by compare s.(runq) else s.(runq) in
  match q with
  | [] => None
  | id :: rest =>
      match s.(nodes) !! id with
      | None => None
      | Some n =>
          let n' := mkNode stateRunning n.(n_assessment) n.(n_redispatches)
                      n.(n_progressed) n.(n_recheck) in
          Some (mkConfig
            (mkScheduler (<[id := n']> s.(nodes)) rest false (S s.(inFlight))
               s.(err) s.(stopped) s.(published))
            (<[id := Dispatching n.(n_assessment)]> c.(tasks)) (RLoop DrainNone)
            c.(ctxDone) (c.(calls) ++ [CallDispatch id n.(n_assessment)]))
      end
  end.

(** One turn of [Run]'s loop up to the point where it gives the lock up. *)
Definition run_loop (level : DrainLevel) (c : config) : option config :=
  let s := c.(sched) in
  if bool_decide (s.(err) ≠ None) then Some (upd c (set_stopped s) RDrain)
  else if bool_decide (s.(runq) ≠ []) then dispatchNextLocked c
  else
    let quiescent := s.(inFlight) =? 0 in
    if negb quiescent && negb s.(published) then Some (upd c s (RWait level))
    else Some (upd c (set_published false s) (RSweep level quiescent)).

(** The section after [Sweep] and [invalidate]. *)
Definition run_after (level : DrainLevel) (quiescent changed : bool) (c : config) : config :=
  let s := c.(sched) in
  if negb quiescent || changed || s.(published) || bool_decide (s.(runq) ≠ []) ||
     bool_decide (s.(err) ≠ None)
  then upd c s (RLoop level)
  else
    let parked := parkedLocked s in
    if bool_decide (parked = []) then upd c (set_stopped s) RDrain
    else match level with
         | DrainForce => upd c (set_stopped (set_err (Some ErrUnresolved) s)) RDrain
         | DrainCascade => upd c s (RSettle DrainForce parked)
         | DrainNone => upd c s (RSettle DrainCascade parked)
         end.

(** One turn of [settleLocked]; a parked node without an assessment would panic. *)
Definition settle_next (level : DrainLevel) (parked : list NamedResource) (c : config)
    : option config :=
  let s := c.(sched) in
  match parked with
  | [] => Some (upd c s (RLoop level))
  | id :: rest =>
      if bool_decide (s.(err) ≠ None) then Some (upd c s (RLoop level))
      else
        match s.(nodes) !! id with
        | Some (mkNode _ (Some a) r p k) =>
            Some (mkConfig
              (mkScheduler (<[id := mkNode stateRunning (Some a) r p k]> s.(nodes))
                 s.(runq) s.(unsorted) (S s.(inFlight)) s.(err) s.(stopped) s.(published))
              (<[id := Settling a level]> c.(tasks)) (RSettle level rest)
              c.(ctxDone) c.(calls))
        | _ => None
        end
  end.

(** The first section of [invalidate] for one identity. *)
Definition invalidate_read (level : DrainLevel) (quiescent changed : bool) (id : NamedResource)
    (ids : list NamedResource) (c : config) : config :=
  let s := c.(sched) in
  match s.(nodes) !! id with
  | None => upd c s (RInvalidate level quiescent changed ids)
  | Some n =>
      if bool_decide (n.(n_state) = stateRunning) then
        upd c (set_nodes (<[id := mkNode n.(n_state) n.(n_assessment) n.(n_redispatches)
                                   n.(n_progressed) true]> s.(nodes)) s)
          (RInvalidate level quiescent changed ids)
      else match n.(n_assessment) with
           | None => upd c s (RInvalidate level quiescent changed ids)
           | Some a => upd c s (RValidate level quiescent changed id a ids)
           end
  end.

(** Its last section: [requeueLocked(n, n.state != stateParked)]. *)
Definition invalidate_requeue (id : NamedResource) (s : Scheduler) : Scheduler :=
  match s.(nodes) !! id with
  | None => s
  | Some n => requeueLocked id (negb (bool_decide (n.(n_state) = stateParked))) s
  end.

(** ** Events *)

Inductive event :=
  (* calls from the rest of the program *)
  | ESeed (ids : list NamedResource)
  | EArrival (id : NamedResource) (runnable : bool)
  | EPublication
  | ECancel
  | ENotifyCancellation
  (* the goroutine of Run *)
  | ERun
  | ELoop
  | ESweep (changed : list NamedResource)
  | EInvalidate
  | EValidated (valid : bool)
  | ERequeue
  | EAfter
  | ESettleNext
  | EDrained
  (* a body on the task service *)
  | EDispatched (id : NamedResource) (result : option A) (o : observation)
  | ESettle (id : NamedResource) (valid : bool)
  | ESettled (id : NamedResource) (o : observation)
  | EComplete (id : NamedResource)
  | ERechecked (id : NamedResource) (valid : bool).

(** [complete] before its first lock: what is read of the new assessment. *)
Definition completing (current : option A) (o : observation) : task :=
  match current with
  | None => Completing None true false true
  | Some a => Completing (Some a) o.(o_valid) (bool_decide (o.(o_outcome) = Blocked))
                o.(o_progressed)
  end.

Definition set_task (id : NamedResource) (t : task) (c : config) : config :=
  mkConfig c.(sched) (<[id := t]> c.(tasks)) c.(pc) c.(ctxDone) c.(calls).

Definition log (l : list call) (c : config) : config :=
  mkConfig c.(sched) c.(tasks) c.(pc) c.(ctxDone) (c.(calls) ++ l).

(** [complete] once it holds the lock: give it up to check again, or finish. *)
Definition complete_step (id : NamedResource) (current : option A)
    (valid unresolved progressed : bool) (c : config) : option config :=
  let s := c.(sched) in
  match s.(nodes) !! id with
  | None => None
  | Some n =>
      match current with
      | Some a =>
          if n.(n_recheck) && valid then
            let n' := mkNode n.(n_state) n.(n_assessment) n.(n_redispatches)
                        n.(n_progressed) false in
            Some (mkConfig (set_nodes (<[id := n']> s.(nodes)) s)
                    (<[id := Rechecking a unresolved progressed]> c.(tasks))
                    c.(pc) c.(ctxDone) c.(calls))
          else Some (mkConfig (complete_locked id n current valid unresolved progressed s)
                       (delete id c.(tasks)) (broadcast c.(pc)) c.(ctxDone) c.(calls))
      | None => Some (mkConfig (complete_locked id n None valid unresolved progressed s)
                        (delete id c.(tasks)) (broadcast c.(pc)) c.(ctxDone) c.(calls))
      end
  end.

(** The retained assessments [Run] closes once its tasks are done. *)
Definition retained (s : Scheduler) : list call :=
  omap (λ kn, CallClose <$> kn.2.(n_assessment)) (map_to_list s.(nodes)).

Definition step (c : config) (e : event) : option config :=
  let s := c.(sched) in
  match e, c.(pc) with
  | ESeed ids, RInit => Some (upd c (Seed ids s) RInit)
  | EArrival id runnable, p => Some (upd c (OnArrival id runnable s) (broadcast p))
  | EPublication, p => Some (upd c (OnPublication s) (broadcast p))
  | ECancel, p => Some (mkConfig s c.(tasks) p true c.(calls))
  | ENotifyCancellation, p =>
      if c.(ctxDone)
      then Some (upd c (set_err (or_err s.(err) (Some ErrContext)) s) (broadcast p)) else None
  | ERun, RInit => Some (upd c (set_err (or_err s.(err) (ctxErr c)) s) (RLoop DrainNone))
  | ELoop, RLoop level => run_loop level c
  | ESweep ids, RSweep level quiescent =>
      Some (log [CallSweep quiescent]
              (upd c s (RInvalidate level quiescent (bool_decide (ids ≠ [])) ids)))
  | EInvalidate, RInvalidate level quiescent changed [] =>
      Some (upd c s (RAfter level quiescent changed))
  | EInvalidate, RInvalidate level quiescent changed (id :: ids) =>
      Some (invalidate_read level quiescent changed id ids c)
  | EValidated valid, RValidate level quiescent changed id _ ids =>
      Some (upd c s (if valid then RInvalidate level quiescent changed ids
                     else RRequeue level quiescent changed id ids))
  | ERequeue, RRequeue level quiescent changed id ids =>
      Some (upd c (invalidate_requeue id s) (RInvalidate level quiescent changed ids))
  | EAfter, RAfter level quiescent changed => Some (run_after level quiescent changed c)
  | ESettleNext, RSettle level parked => settle_next level parked c
  | EDrained, RDrain =>
      if bool_decide (c.(tasks) = ∅)
      then let result := or_err s.(err) (ctxErr c) in
           Some (log (retained s ++ [CallSweep true]) (upd c (set_err result s) (RDone result)))
      else None
  | EDispatched id result o, _ =>
      match c.(tasks) !! id, s.(nodes) !! id with
      | Some (Dispatching _), Some n =>
          Some (set_task id (completing result o)
                  (log (option_list (CallRetire <$> n.(n_assessment))) c))
      | _, _ => None
      end
  | ESettle id valid, _ =>
      match c.(tasks) !! id with
      | Some (Settling a drain) =>
          Some (set_task id (Settled a)
                  (log (if valid then [CallSettle id a drain] else []) c))
      | _ => None
      end
  | ESettled id o, _ =>
      match c.(tasks) !! id with
      | Some (Settled a) => Some (set_task id (completing (Some a) o) c)
      | _ => None
      end
  | EComplete id, _ =>
      match c.(tasks) !! id with
      | Some (Completing current valid unresolved progressed) =>
          complete_step id current valid unresolved progressed c
      | _ => None
      end
  | ERechecked id valid, _ =>
      match c.(tasks) !! id with
      | Some (Rechecking a unresolved progressed) =>
          Some (set_task id (Completing (Some a) valid unresolved progressed) c)
      | _ => None
      end
  | _, _ => None
  end.

Definition steps (c : config) (es : list event) : option config :=
  foldl (λ oc e, oc ≫= λ c, step c e) (Some c) es.

(** [Results]: the identities and assessments of the completed valid nodes. *)
Definition Results (valid : A → bool) (s : Scheduler) : gmap NamedResource A :=
  omap (λ n, if bool_decide (n.(n_state) = stateTerminal)
             then a ← n.(n_assessment); if valid a then Some a else None
             else None) s.(nodes).

(** ** The invariant *)

Definition in_state (s : Scheduler) (id : NamedResource) (st : nodeState) : Prop :=
  ∃ n, s.(nodes) !! id = Some n ∧ n.(n_state) = st.

Definition node_ok (n : node) : Prop :=
  n.(n_redispatches) ≤ maxRedispatches ∧
  (n.(n_state) = stateParked → n.(n_assessment) ≠ None).

(** Only a body with an assessment can complete unresolved or invalid. *)
Definition task_ok (t : task) : Prop :=
  match t with Completing None valid unresolved _ => valid = true ∧ unresolved = false | _ => True end.

Record core (s : Scheduler) (ts : gmap NamedResource task) : Prop := mkCore {
  core_tasks : ∀ id, id ∈ dom ts ↔ in_state s id stateRunning;
  core_flight : s.(inFlight) = size ts;
  core_nodup : NoDup s.(runq);
  core_runq : ∀ id, id ∈ s.(runq) ↔ in_state s id stateRunnable;
  core_sorted : s.(unsorted) = false → Sorted cmp_le s.(runq);
  core_nodes : ∀ id n, s.(nodes) !! id = Some n → node_ok n;
  core_task : ∀ id t, ts !! id = Some t → task_ok t;
}.

Definition all_terminal (s : Scheduler) : Prop :=
  ∀ id n, s.(nodes) !! id = Some n → n.(n_state) = stateTerminal.

(** What holds at each position of the goroutine that executes [Run]. *)
Definition pc_ok (s : Scheduler) (ts : gmap NamedResource task) (p : run_pc) : Prop :=
  match p with
  | RInit | RLoop _ => True
  | RWait _ => ts ≠ ∅
  | RSweep _ quiescent | RInvalidate _ quiescent _ _ | RAfter _ quiescent _ =>
      quiescent = true → ts = ∅
  | RValidate _ quiescent _ id _ _ | RRequeue _ quiescent _ id _ =>
      (quiescent = true → ts = ∅) ∧ ¬ in_state s id stateRunning
  | RSettle _ parked => NoDup parked ∧ ∀ id, id ∈ parked → in_state s id stateParked
  | RDrain => s.(stopped) = true ∧ (s.(err) = None → all_terminal s)
  | RDone result => s.(stopped) = true ∧ ts = ∅ ∧ (result = None → all_terminal s)
  end.

Definition inv (c : config) : Prop :=
  core c.(sched) c.(tasks) ∧ pc_ok c.(sched) c.(tasks) c.(pc).

Lemma in_state_fun s id a b : in_state s id a → in_state s id b → a = b.
Proof. intros (n & Hn & <-) (n' & Hn' & <-). congruence. Qed.

(** Writing one node, seen through [in_state]. *)
Lemma in_state_insert s s' id n x st :
  s'.(nodes) = <[id := n]> s.(nodes) →
  in_state s' x st ↔ if decide (x = id) then n.(n_state) = st else in_state s x st.
Proof.
  intros Hn. unfold in_state. rewrite Hn. destruct (decide (x = id)) as [->|Hx].
  - rewrite lookup_insert_eq. naive_solver.
  - by rewrite lookup_insert_ne.
Qed.

Lemma core_terminal s ts : core s ts → all_terminal s → ts = ∅ ∧ s.(runq) = [].
Proof.
  intros [Ht _ _ Hr _ _ _] Ha. split.
  - apply dom_empty_iff_L, elem_of_equiv_empty_L. intros x (n & Hn & Hs)%Ht.
    apply Ha in Hn. congruence.
  - destruct s.(runq) as [|x q] eqn:E; [done|]. destruct (proj1 (Hr x)) as (n & Hn & Hs); [left|].
    apply Ha in Hn. congruence.
Qed.

Lemma admit_core s ts id :
  core s ts → s.(nodes) !! id = None → core (admit_node id s) ts.
Proof.
  intros [Ht Hf Hnd Hr Hso Hn Hk] Hid.
  assert (∀ st, ¬ in_state s id st) as Hno by (intros st (n & Hx & _); congruence).
  pose proof (λ x st, in_state_insert s (admit_node id s) id fresh_node x st eq_refl) as Hin.
  split; simpl; try done.
  - intros x. rewrite Hin, Ht. destruct (decide (x = id)) as [->|]; [|done].
    split; [by intros ?%Hno|done].
  - apply NoDup_app. split_and!; [done| |apply NoDup_singleton].
    intros x Hx ->%list_elem_of_singleton. by apply (Hno stateRunnable), Hr.
  - intros x. rewrite Hin, elem_of_app, list_elem_of_singleton, Hr.
    destruct (decide (x = id)); prop_solve.
  - intros x n. rewrite lookup_insert. case_decide; [|by apply Hn].
    intros [= <-]. split; [simpl; lia|done].
Qed.

Lemma Seed_core ids s ts : core s ts → core (Seed ids s) ts.
Proof.
  revert s. induction ids as [|id ids IH]; intros s Hc; [done|]. unfold Seed; simpl. apply IH.
  case_bool_decide; [by apply admit_core|done].
Qed.

(** Fields the core invariant does not read. *)
Lemma core_frame s s' ts :
  s'.(nodes) = s.(nodes) → s'.(runq) = s.(runq) → s'.(unsorted) = s.(unsorted) →
  s'.(inFlight) = s.(inFlight) → core s ts → core s' ts.
Proof.
  intros H1 H2 H3 H4 [? ? ? ? ? ? ?]. split; unfold in_state; rewrite ?H1, ?H2, ?H3, ?H4; done.
Qed.

(** Making a node that is neither running nor runnable runnable again. *)
Lemma push_core id n n' s ts :
  core s ts → s.(nodes) !! id = Some n →
  n.(n_state) ≠ stateRunning → n.(n_state) ≠ stateRunnable →
  n'.(n_state) = stateRunnable → n'.(n_redispatches) ≤ maxRedispatches →
  core (mkScheduler (<[id := n']> s.(nodes)) (s.(runq) ++ [id]) true
          s.(inFlight) s.(err) s.(stopped) s.(published)) ts.
Proof.
  intros [Ht Hf Hnd Hr Hso Hn Hk] Hid Hnr Hnq Hst Hred.
  match goal with |- core ?s' _ =>
    pose proof (λ x st, in_state_insert s s' id n' x st eq_refl) as Hin end.
  assert (∀ st, in_state s id st → st = n.(n_state)) as Hfun
    by (intros st (n0 & ? & <-); congruence).
  split; simpl; try done.
  - intros x. rewrite Hin, Ht. destruct (decide (x = id)) as [->|]; [|done].
    split; [by intros ?%Hfun; congruence|congruence].
  - apply NoDup_app. split_and!; [done| |apply NoDup_singleton].
    intros x Hx ->%list_elem_of_singleton. apply Hr, Hfun in Hx. congruence.
  - intros x. rewrite Hin, elem_of_app, list_elem_of_singleton, Hr.
    destruct (decide (x = id)); prop_solve.
  - intros x n0. rewrite lookup_insert. case_decide; [|by apply Hn].
    intros [= <-]. split; [done|congruence].
Qed.

Lemma requeue_core id charge s ts :
  core s ts → ¬ in_state s id stateRunning → core (requeueLocked id charge s) ts.
Proof.
  intros Hc Hrun. unfold requeueLocked. destruct (s.(nodes) !! id) as [n|] eqn:En; [|done].
  case_bool_decide as Hst; [done|]. case_bool_decide as He; [done|]. cbn [orb].
  assert (n.(n_state) ≠ stateRunning) by (intros ?; apply Hrun; by exists n).
  pose proof (proj1 (core_nodes _ _ Hc id n En)) as Hred.
  destruct (charge && n_progressed n); cbn [andb].
  - destruct (Nat.leb_spec maxRedispatches (n_redispatches n)) as [Hle|Hlt];
      [by apply (core_frame s)|by eapply push_core].
  - by eapply push_core.
Qed.

(** Dispatching or settling: a node that is not running starts a body. *)
Lemma start_core id n n' t q u s ts :
  core s ts → s.(nodes) !! id = Some n → n.(n_state) ≠ stateRunning →
  n'.(n_state) = stateRunning → n'.(n_redispatches) = n.(n_redispatches) → task_ok t →
  NoDup q → (∀ x, x ∈ q ↔ x ∈ s.(runq) ∧ x ≠ id) → (u = false → Sorted cmp_le q) →
  core (mkScheduler (<[id := n']> s.(nodes)) q u (S s.(inFlight)) s.(err) s.(stopped)
          s.(published)) (<[id := t]> ts).
Proof.
  intros [Ht Hf Hnd Hr Hso Hn Hk] Hid Hnr Hst Hred Htok Hqd Hq Hqs.
  match goal with |- core ?s' _ =>
    pose proof (λ x st, in_state_insert s s' id n' x st eq_refl) as Hin end.
  assert (ts !! id = None) as Hnone.
  { apply not_elem_of_dom. rewrite Ht. intros (n0 & ? & ?). congruence. }
  split; simpl; try done.
  - intros x. rewrite Hin, dom_insert, elem_of_union, elem_of_singleton, Ht.
    destruct (decide (x = id)); prop_solve.
  - by rewrite map_size_insert_None, Hf.
  - intros x. rewrite Hin, Hq, Hr. destruct (decide (x = id)); prop_solve.
  - intros x n0. rewrite lookup_insert. case_decide; [|by apply Hn].
    intros [= <-]. split; [|congruence]. rewrite Hred. by apply (Hn id).
  - intros x t0. rewrite lookup_insert. case_decide; [|by apply Hk]. by intros [= <-].
Qed.

(** Replacing the phase of a running body. *)
Lemma set_task_core id t t' s ts :
  core s ts → ts !! id = Some t → task_ok t' → core s (<[id := t']> ts).
Proof.
  intros [Ht Hf Hnd Hr Hso Hn Hk] Hid Hok. split; try done.
  - intros x. rewrite dom_insert_lookup_L by eauto. apply Ht.
  - rewrite map_size_insert_Some; [done|eauto].
  - intros x t0. rewrite lookup_insert. case_decide; [|by apply Hk]. by intros [= <-].
Qed.

(** Flags of a running node. *)
Lemma touch_core id n n' s ts :
  core s ts → s.(nodes) !! id = Some n → n'.(n_state) = n.(n_state) →
  n'.(n_assessment) = n.(n_assessment) → n'.(n_redispatches) = n.(n_redispatches) →
  core (set_nodes (<[id := n']> s.(nodes)) s) ts ∧
  ∀ x st, in_state (set_nodes (<[id := n']> s.(nodes)) s) x st ↔ in_state s x st.
Proof.
  intros [Ht Hf Hnd Hr Hso Hn Hk] Hid Hst Has Hred.
  assert (∀ x st, in_state (set_nodes (<[id := n']> s.(nodes)) s) x st ↔ in_state s x st) as Hin.
  { intros x st. rewrite (in_state_insert s _ id n') by done.
    destruct (decide (x = id)) as [->|]; [|done]. rewrite Hst. unfold in_state. naive_solver. }
  split; [|done]. split; try done.
  - intros x. by rewrite Hin.
  - intros x. by rewrite Hin.
  - intros x n0. simpl. rewrite lookup_insert. case_decide; [|by apply Hn].
    intros [= <-]. unfold node_ok. rewrite Hst, Has, Hred. by apply (Hn id).
Qed.

(** The end of [complete]. *)
Lemma complete_core id n current v u p s ts :
  core s ts → s.(nodes) !! id = Some n → n.(n_state) = stateRunning →
  task_ok (Completing current v u p) →
  core (complete_locked id n current v u p s) (delete id ts).
Proof.
  intros Hc Hid Hst Htok.
  set (n' := mkNode (if u then stateParked else stateTerminal) current
               n.(n_redispatches) p false).
  set (s' := mkScheduler (<[id := n']> s.(nodes)) s.(runq) s.(unsorted) (s.(inFlight) - 1)
               s.(err) s.(stopped) s.(published)).
  assert (core s' (delete id ts)) as Hc'.
  { destruct Hc as [Ht Hf Hnd Hr Hso Hn Hk].
    pose proof (λ x st, in_state_insert s s' id n' x st eq_refl) as Hin.
    assert (is_Some (ts !! id)) as [t Hti] by (apply elem_of_dom, Ht; by exists n).
    split; try done; simpl.
    - intros x. rewrite Hin, dom_delete, elem_of_difference, elem_of_singleton, Ht.
      destruct (decide (x = id)); [|tauto]. split; [tauto|]. by destruct u.
    - rewrite map_size_delete_Some by eauto. lia.
    - intros x. rewrite Hin, Hr. destruct (decide (x = id)) as [->|]; [|done].
      split; [intros (n0 & ? & ?); congruence|]. by destruct u.
    - intros x n0. rewrite lookup_insert. case_decide; [|by apply Hn].
      intros [= <-]. split; simpl; [by apply (Hn id)|].
      destruct u; [|done]. intros _ ->. by destruct Htok.
    - intros x t0 [_ ?]%lookup_delete_Some. by eapply Hk. }
  unfold complete_locked. fold n' s'. destruct v; [done|]. apply requeue_core; [done|].
  rewrite (in_state_insert s s' id n') by done. rewrite decide_True by done. by destruct u.
Qed.

(** What a step of another goroutine may change without disturbing [Run]. *)
Record foreign (s s' : Scheduler) (ts ts' : gmap NamedResource task) : Prop := mkForeign {
  f_empty : ts = ∅ → ts' = ∅;
  f_parked : ∀ x, in_state s x stateParked → in_state s' x stateParked;
  f_running : ∀ x, in_state s' x stateRunning → in_state s x stateRunning;
  f_stopped : s'.(stopped) = s.(stopped);
  f_err : s'.(err) = None → s.(err) = None;
  f_terminal : s.(stopped) = true → all_terminal s → all_terminal s';
}.

Lemma foreign_pc s s' ts ts' p p' :
  foreign s s' ts ts' → pc_ok s ts p →
  (p' = p ∧ (ts ≠ ∅ → ts' ≠ ∅) ∨ p' = broadcast p) → pc_ok s' ts' p'.
Proof.
  intros [He Hp Hr Hs Her Ht] Hok [[-> Hne]| ->]; destruct p; simpl in *; try tauto;
    try (destruct Hok as [? Hl]; split; auto; fail);
    rewrite ?Hs; naive_solver.
Qed.

Lemma in_state_nodes s s' x st : s'.(nodes) = s.(nodes) → in_state s' x st ↔ in_state s x st.
Proof. unfold in_state. by intros ->. Qed.

(** Steps that leave the nodes alone. *)
Lemma foreign_frame s s' ts :
  s'.(nodes) = s.(nodes) → s'.(stopped) = s.(stopped) → (s'.(err) = None → s.(err) = None) →
  foreign s s' ts ts.
Proof.
  intros Hn Hs He. split; try done; try (intros x; by rewrite (in_state_nodes s s')).
  unfold all_terminal. by rewrite Hn.
Qed.

Lemma OnArrival_ok id b s ts :
  core s ts → core (OnArrival id b s) ts ∧ foreign s (OnArrival id b s) ts ts.
Proof.
  intros Hc. unfold OnArrival. simpl. assert (core (set_published true s) ts) as Hp
    by by apply (core_frame s).
  destruct (b && _ && _ && _) eqn:E; [|split; [done|by apply foreign_frame]].
  rewrite !andb_true_iff, !bool_decide_eq_true, negb_true_iff in E. destruct E as [[[_ _] Hs] Hid].
  split; [by apply admit_core|].
  pose proof (λ x st, in_state_insert s (admit_node id (set_published true s)) id fresh_node x st eq_refl)
    as Hin.
  split; try done; simpl; try congruence.
  - intros x Hx. apply Hin. case_decide; [|done]. subst x. destruct Hx as (? & ? & _). congruence.
  - intros x Hx%Hin. by case_decide.
Qed.

(** Re-queueing writes at most the one node, and only sets the error. *)
Lemma requeue_shape id charge n s :
  s.(nodes) !! id = Some n → n.(n_state) ≠ stateRunning →
  ∃ n', (requeueLocked id charge s).(nodes) = <[id := n']> s.(nodes) ∧
    n'.(n_state) ≠ stateRunning ∧ n'.(n_assessment) = n.(n_assessment) ∧
    (requeueLocked id charge s).(stopped) = s.(stopped) ∧
    ((requeueLocked id charge s).(err) = None → s.(err) = None).
Proof.
  intros Hid Hst. unfold requeueLocked. rewrite Hid.
  case_bool_decide as H1; cbn [orb]; [exists n; by rewrite insert_id|].
  case_bool_decide as H2; cbn [orb]; [exists n; by rewrite insert_id|].
  destruct (charge && n_progressed n); cbn [andb].
  - destruct (maxRedispatches <=? n_redispatches n); simpl.
    + exists n. by rewrite insert_id.
    + eexists (mkNode _ _ _ _ _); split; [reflexivity|done].
  - eexists (mkNode _ _ _ _ _); split; [reflexivity|done].
Qed.

Lemma complete_shape id n current v u p s :
  ∃ n', (complete_locked id n current v u p s).(nodes) = <[id := n']> s.(nodes) ∧
    n'.(n_state) ≠ stateRunning ∧ n'.(n_assessment) = current ∧
    (complete_locked id n current v u p s).(stopped) = s.(stopped) ∧
    ((complete_locked id n current v u p s).(err) = None → s.(err) = None).
Proof.
  unfold complete_locked. destruct v; simpl.
  - eexists (mkNode _ _ _ _ _). split; [reflexivity|]. by destruct u.
  - match goal with |- context [requeueLocked id ?b ?s'] =>
      edestruct (requeue_shape id b (mkNode (if u then stateParked else stateTerminal) current
         n.(n_redispatches) p false) s') as (n' & Hn & ? & ? & ? & ?) end;
      [apply lookup_insert_eq|by destruct u|]. simpl in *.
    exists n'. rewrite Hn, insert_insert_eq. done.
Qed.

Lemma complete_foreign id n t current v u p s ts :
  core s ts → s.(nodes) !! id = Some n → ts !! id = Some t →
  foreign s (complete_locked id n current v u p s) ts (delete id ts).
Proof.
  intros Hc Hid Ht.
  assert (in_state s id stateRunning) as Hrun by (apply (core_tasks _ _ Hc), elem_of_dom; eauto).
  destruct (complete_shape id n current v u p s) as (n' & Hns & Hn' & _ & Hss & Hes).
  pose proof (λ x st, in_state_insert s _ id n' x st Hns) as Hin.
  split; try done.
  - intros ->. by rewrite lookup_empty in Ht.
  - intros x Hx. apply Hin. case_decide; [|done]. subst x.
    by pose proof (in_state_fun _ _ _ _ Hrun Hx).
  - intros x Hx%Hin. by case_decide.
  - intros _ Ha. destruct Hrun as (n0 & Hn0 & ?). apply Ha in Hn0. congruence.
Qed.

(** [invalidate]'s request never finds the node running. *)
Lemma invalidate_requeue_core id s ts :
  core s ts → ¬ in_state s id stateRunning → core (invalidate_requeue id s) ts.
Proof.
  intros Hc Hr. unfold invalidate_requeue. case_match; [by apply requeue_core|done].
Qed.

Lemma elem_of_parked s id : id ∈ parkedLocked s ↔ in_state s id stateParked.
Proof.
  unfold parkedLocked. rewrite elem_of_sort_by, elem_of_elements, elem_of_dom.
  unfold in_state, is_Some. setoid_rewrite map_lookup_filter_Some. naive_solver.
Qed.

Lemma NoDup_parked s : NoDup (parkedLocked s).
Proof. unfold parkedLocked. rewrite sort_by_perm. apply NoDup_elements. Qed.

Lemma initial_inv : inv initial.
Proof.
  split; [|done].
  assert (∀ x st, ¬ in_state New x st) as Hno
    by (intros x st (n & Hn & _); simpl in Hn; by rewrite lookup_empty in Hn).
  split; simpl; try done.
  - intros x. rewrite dom_empty_L, elem_of_empty. split; [done|by intros ?%Hno].
  - constructor.
  - intros x. rewrite elem_of_nil. split; [done|by intros ?%Hno].
Qed.

(** Dispatching takes the least queued identity and starts its body. *)
Lemma dispatch_shape c c' :
  core c.(sched) c.(tasks) → dispatchNextLocked c = Some c' →
  ∃ id rest n, id :: rest ≡ₚ c.(sched).(runq) ∧ Sorted cmp_le (id :: rest) ∧
    c.(sched).(nodes) !! id = Some n ∧
    c' = mkConfig
           (mkScheduler (<[id := mkNode stateRunning n.(n_assessment) n.(n_redispatches)
                                   n.(n_progressed) n.(n_recheck)]> c.(sched).(nodes))
              rest false (S c.(sched).(inFlight)) c.(sched).(err) c.(sched).(stopped)
              c.(sched).(published))
           (<[id := Dispatching n.(n_assessment)]> c.(tasks)) (RLoop DrainNone)
           c.(ctxDone) (c.(calls) ++ [CallDispatch id n.(n_assessment)]).
Proof.
  intros Hc. unfold dispatchNextLocked. set (q := if unsorted _ then _ else _). simpl.
  assert (q ≡ₚ (sched c).(runq)) as Hq by (unfold q; case_match; [apply sort_by_perm|done]).
  assert (Sorted cmp_le q) as Hs.
  { unfold q. case_match; [apply sort_lawful_sorted|by apply (core_sorted _ _ Hc)]. }
  clearbody q. destruct q as [|id rest]; [done|].
  destruct (nodes (sched c) !! id) as [n|] eqn:Hid; [|done]. intros [= <-].
  exists id, rest, n. done.
Qed.

Lemma dispatch_inv c c' :
  core c.(sched) c.(tasks) → dispatchNextLocked c = Some c' → inv c'.
Proof.
  intros Hc (id & rest & n & Hq & Hs & Hid & ->)%dispatch_shape; [|done].
  pose proof (core_nodup _ _ Hc) as Hnd. rewrite <-Hq in Hnd. apply NoDup_cons in Hnd as [Hni Hnd].
  assert (in_state (sched c) id stateRunnable) as (n0 & Hn0 & Hst).
  { apply (core_runq _ _ Hc). rewrite <-Hq. left. }
  rewrite Hid in Hn0. injection Hn0 as <-. split; [|done]. simpl. eapply start_core; try done; [congruence| |].
  - intros x. rewrite <-Hq, elem_of_cons. split; [|by intros [[|] ?]].
    intros Hx. split; [by right|]. by intros ->.
  - intros _. by inversion Hs.
Qed.

Lemma run_loop_inv level c c' :
  core c.(sched) c.(tasks) → run_loop level c = Some c' → inv c'.
Proof.
  intros Hc. unfold run_loop. case_bool_decide as He.
  { intros [= <-]. split; [by apply (core_frame c.(sched))|]. simpl. split; [done|]. by intros ?. }
  case_bool_decide as Hq; [by apply dispatch_inv|].
  destruct (Nat.eqb_spec (inFlight (sched c)) 0) as [Hz|Hz]; simpl.
  - intros [= <-]. split; [by apply (core_frame c.(sched))|]. intros _.
    rewrite (core_flight _ _ Hc) in Hz. by apply map_size_empty_inv.
  - destruct (published (sched c)); intros [= <-]; (split; [by apply (core_frame c.(sched))|]); [done|].
    simpl. intros Ht. rewrite (core_flight _ _ Hc), Ht, map_size_empty in Hz. done.
Qed.

Lemma run_after_inv level q ch c :
  core c.(sched) c.(tasks) → (q = true → c.(tasks) = ∅) → inv (run_after level q ch c).
Proof.
  intros Hc Hqt. unfold run_after.
  destruct (negb q || ch || _ || _ || _) eqn:E; [split; [done|done]|].
  rewrite !orb_false_iff, !bool_decide_eq_false, negb_false_iff in E.
  destruct E as [[[[-> _] _] Hq] He]. apply dec_stable in Hq, He.
  case_bool_decide as Hp.
  - split; [by apply (core_frame c.(sched))|]. simpl. split; [done|]. intros _ id n Hn. simpl in Hn.
    destruct (n_state n) eqn:Hst; [| | |done]; exfalso.
    + assert (id ∈ runq (sched c)) as Hin by (apply (core_runq _ _ Hc); by exists n).
      rewrite Hq in Hin. by apply not_elem_of_nil in Hin.
    + assert (id ∈ dom (tasks c)) as Hin by (apply (core_tasks _ _ Hc); by exists n).
      rewrite Hqt, dom_empty_L in Hin by done. by apply not_elem_of_empty in Hin.
    + assert (id ∈ parkedLocked (sched c)) as Hin by (apply elem_of_parked; by exists n).
      rewrite Hp in Hin. by apply not_elem_of_nil in Hin.
  - destruct level.
    1,2: split; [done|]; split; [apply NoDup_parked|]; by intros id ?%elem_of_parked.
    split; [by apply (core_frame c.(sched))|]. by split.
Qed.

Lemma settle_next_inv level parked c c' :
  core c.(sched) c.(tasks) → NoDup parked →
  (∀ id, id ∈ parked → in_state c.(sched) id stateParked) →
  settle_next level parked c = Some c' → inv c'.
Proof.
  intros Hc Hnd Hp. unfold settle_next. destruct parked as [|id rest]; [by intros [= <-]|].
  case_bool_decide; [by intros [= <-]|].
  destruct (nodes (sched c) !! id) as [[st [a|] r p k]|] eqn:Hid; [|done..].
  intros [= <-]. apply NoDup_cons in Hnd as [Hni Hnd].
  destruct (Hp id) as (n0 & Hn0 & Hst); [left|]. rewrite Hid in Hn0. injection Hn0 as <-.
  simpl in Hst. subst st. split; simpl.
  - eapply start_core; try done; try (apply Hc).
    intros x. split; [|tauto]. intros Hx. split; [done|]. intros ->.
    apply (core_runq _ _ Hc) in Hx as (n1 & ? & ?). destruct n1; simpl in *. congruence.
  - split; [done|]. intros x Hx. eapply in_state_insert; [reflexivity|]. simpl.
    case_decide; [by subst|]. apply Hp. by right.
Qed.

(** The position of [Run] after a step of a task body that keeps a body running. *)
Lemma task_step_inv id t t' s' c :
  inv c → c.(tasks) !! id = Some t → task_ok t' →
  core s' c.(tasks) → (∀ x st, in_state s' x st ↔ in_state c.(sched) x st) →
  s'.(stopped) = c.(sched).(stopped) → s'.(err) = c.(sched).(err) →
  (all_terminal c.(sched) → all_terminal s') →
  ∀ l, inv (mkConfig s' (<[id := t']> c.(tasks)) c.(pc) c.(ctxDone) l).
Proof.
  intros [Hc Hp] Ht Hok Hc' Hin Hst He Ha l. split; simpl; [by eapply set_task_core|].
  eapply foreign_pc; [|exact Hp|left; split; [done|by intros _; apply insert_non_empty]].
  split; try done; try (intros x; by rewrite Hin); [|by rewrite He].
  intros E. by rewrite E, lookup_empty in Ht.
Qed.

Lemma complete_step_inv id current v u p c c' :
  inv c → c.(tasks) !! id = Some (Completing current v u p) →
  complete_step id current v u p c = Some c' → inv c'.
Proof.
  intros [Hc Hp] Ht. unfold complete_step.
  destruct (nodes (sched c) !! id) as [n|] eqn:Hid; [|done].
  assert (n_state n = stateRunning) as Hst.
  { destruct (proj1 (core_tasks _ _ Hc id)) as (n0 & ? & ?); [|congruence].
    apply elem_of_dom. eauto. }
  assert (∀ l b, inv (mkConfig (complete_locked id n current v u p (sched c)) (delete id (tasks c))
                  (broadcast (pc c)) b l)) as Hfin.
  { intros l b. split; simpl.
    - eapply complete_core; try done. by apply (core_task _ _ Hc id).
    - eapply foreign_pc; [by eapply complete_foreign|done|by right]. }
  destruct current as [a|]; [|intros [= <-]; apply Hfin].
  destruct (n_recheck n && v); intros [= <-]; [|apply Hfin].
  edestruct (touch_core id n (mkNode (n_state n) (n_assessment n) (n_redispatches n)
    (n_progressed n) false) (sched c) (tasks c)) as [Hc' Hin]; [done..|].
  eapply task_step_inv; [by split|done|done|done|done|done|done|].
  intros Ha. apply Ha in Hid. congruence.
Qed.

Lemma invalidate_inv level q ch id ids c :
  inv c → (q = true → c.(tasks) = ∅) → inv (invalidate_read level q ch id ids c).
Proof.
  intros [Hc _] Hq. unfold invalidate_read.
  destruct (nodes (sched c) !! id) as [n|] eqn:Hid; [|by split].
  case_bool_decide as Hst.
  - split; [|done]. by eapply touch_core.
  - destruct (n_assessment n); [|by split]. split; [done|]. split; [done|].
    intros (n0 & ? & ?). simpl in *. congruence.
Qed.

(** Steps of other goroutines that touch neither nodes nor bodies. *)
Lemma frame_inv s' p' b l c :
  inv c → s'.(nodes) = c.(sched).(nodes) → s'.(runq) = c.(sched).(runq) →
  s'.(unsorted) = c.(sched).(unsorted) → s'.(inFlight) = c.(sched).(inFlight) →
  s'.(stopped) = c.(sched).(stopped) → (s'.(err) = None → c.(sched).(err) = None) →
  p' = c.(pc) ∨ p' = broadcast c.(pc) →
  inv (mkConfig s' c.(tasks) p' b l).
Proof.
  intros [Hc Hp] ? ? ? ? ? ? Hp'. split; simpl; [by apply (core_frame c.(sched))|].
  eapply foreign_pc; [by apply (foreign_frame c.(sched))|exact Hp|].
  destruct Hp' as [->| ->]; [by left|by right].
Qed.

Lemma step_inv c e c' : inv c → step c e = Some c' → inv c'.
Proof.
  intros Hi Hs. destruct c as [s ts p d l]. pose proof Hi as [Hc Hp]. simpl in Hc, Hp.
  destruct e; simpl in Hs.
  - destruct p; try done. injection Hs as <-. split; [by apply Seed_core|done].
  - injection Hs as <-. destruct (OnArrival_ok id runnable s ts Hc) as [Hc' Hf].
    split; [done|]. eapply foreign_pc; [done|exact Hp|by right].
  - injection Hs as <-. apply (frame_inv _ _ _ _ (mkConfig s ts p d l)); simpl; auto.
  - injection Hs as <-. apply (frame_inv _ _ _ _ (mkConfig s ts p d l)); simpl; auto.
  - destruct d; [|done]. injection Hs as <-.
    apply (frame_inv _ _ _ _ (mkConfig s ts p true l)); simpl; auto. by destruct (err s).
  - destruct p; try done. injection Hs as <-. split; [by apply (core_frame s)|done].
  - destruct p; try done. eapply run_loop_inv; [|exact Hs]; exact Hc.
  - destruct p; try done. injection Hs as <-. by split.
  - destruct p as [| | | |level q ch [|id ids]| | | | | |]; try done; injection Hs as <-.
    + by split.
    + by eapply invalidate_inv.
  - destruct p; try done. injection Hs as <-. split; [done|]. destruct Hp. by destruct valid.
  - destruct p; try done. injection Hs as <-. destruct Hp as [Hq Hr].
    split; [by apply invalidate_requeue_core|done].
  - destruct p; try done. injection Hs as <-. by apply run_after_inv.
  - destruct p; try done. destruct Hp as [Hnd Hpk].
    by eapply (settle_next_inv _ _ (mkConfig s ts _ d l)).
  - destruct p; try done. case_bool_decide as Ht; [|done]. simpl in Hs. injection Hs as <-.
    split; [by apply (core_frame s)|]. destruct Hp as [Hst Ha]. simpl.
    split_and!; [done|done|]. intros He. apply Ha. by destruct (err s).
  - destruct (ts !! id) as [[]|] eqn:Ht; try done. destruct (nodes s !! id) eqn:Hn; [|done].
    injection Hs as <-. eapply (task_step_inv id _ _ s (mkConfig s ts p d l)); try done.
    by destruct result.
  - destruct (ts !! id) as [[]|] eqn:Ht; try done.
    injection Hs as <-. by eapply (task_step_inv id _ _ s (mkConfig s ts p d l)).
  - destruct (ts !! id) as [[]|] eqn:Ht; try done.
    injection Hs as <-. by eapply (task_step_inv id _ _ s (mkConfig s ts p d l)).
  - destruct (ts !! id) as [[]|] eqn:Ht; try done. eapply complete_step_inv; [exact Hi|exact Ht|exact Hs].
  - destruct (ts !! id) as [[]|] eqn:Ht; try done.
    injection Hs as <-. by eapply (task_step_inv id _ _ s (mkConfig s ts p d l)).
Qed.

Lemma steps_snoc c es e : steps c (es ++ [e]) = steps c es ≫= λ c, step c e.
Proof. unfold steps. by rewrite foldl_snoc. Qed.

Lemma reachable_inv es c : steps initial es = Some c → inv c.
Proof.
  revert c. induction es as [|e es IH] using rev_ind; intros c.
  - intros [= <-]. apply initial_inv.
  - rewrite steps_snoc. intros (c0 & H0 & Hs)%bind_Some. by eapply step_inv; [apply IH|].
Qed.

(** ** Progress *)

(** Events the scheduler's own goroutines perform. *)
Definition internal (e : event) : bool :=
  match e with ESeed _ | EArrival _ _ | EPublication | ECancel | ENotifyCancellation => false
             | _ => true end.

Lemma body_progress c : inv c → c.(tasks) ≠ ∅ → ∃ e c', internal e = true ∧ step c e = Some c'.
Proof.
  intros [Hc _] (id & t & Ht)%map_choose.
  destruct (proj1 (core_tasks _ _ Hc id)) as (n & Hn & _); [by apply elem_of_dom; eauto|].
  set (o := mkObs true Terminal false).
  destruct t as [pr|a dl|a|cur v u p|a u p].
  - exists (EDispatched id None o). simpl. rewrite Ht, Hn. eauto.
  - exists (ESettle id true). simpl. rewrite Ht. eauto.
  - exists (ESettled id o). simpl. rewrite Ht. eauto.
  - exists (EComplete id). simpl. rewrite Ht. unfold complete_step. rewrite Hn.
    destruct cur; [destruct (_ && _)|]; eauto.
  - exists (ERechecked id true). simpl. rewrite Ht. eauto.
Qed.

Lemma run_loop_progress level c : core c.(sched) c.(tasks) → ∃ c', run_loop level c = Some c'.
Proof.
  intros Hc. unfold run_loop. case_bool_decide; [eauto|]. case_bool_decide as Hq.
  - unfold dispatchNextLocked. set (q := if unsorted _ then _ else _). simpl.
    assert (q ≡ₚ (sched c).(runq)) as Hp by (unfold q; case_match; [apply sort_by_perm|done]).
    clearbody q. destruct q as [|id rest]; [by apply Permutation_nil_l in Hp|].
    destruct (proj1 (core_runq _ _ Hc id)) as (n & -> & _); [rewrite <-Hp; left|]. eauto.
  - destruct (_ && _); eauto.
Qed.

Lemma settle_progress level parked c :
  core c.(sched) c.(tasks) → (∀ id, id ∈ parked → in_state c.(sched) id stateParked) →
  ∃ c', settle_next level parked c = Some c'.
Proof.
  intros Hc Hp. unfold settle_next. destruct parked as [|id rest]; [eauto|].
  case_bool_decide; [eauto|]. destruct (Hp id) as (n & Hn & Hst); [left|].
  pose proof (proj2 (core_nodes _ _ Hc id n Hn) Hst) as Ha. rewrite Hn.
  destruct n as [st [a|] r p k]; [eauto|done].
Qed.

Lemma inv_progress c :
  inv c → (∀ r, c.(pc) ≠ RDone r) → ∃ e c', internal e = true ∧ step c e = Some c'.
Proof.
  intros Hi Hd. destruct (pc c) as [|level|level|level q|level q ch ids|level q ch id a ids
    |level q ch id ids|level q ch|level parked| |r] eqn:Hp; [..|by destruct (Hd r)];
    pose proof Hi as [Hc Hok]; rewrite Hp in Hok; simpl in Hok.
  - exists ERun. simpl. rewrite Hp. eauto.
  - destruct (run_loop_progress level c Hc) as [c' ?]. exists ELoop, c'. simpl. by rewrite Hp.
  - by apply body_progress.
  - exists (ESweep []). simpl. rewrite Hp. eauto.
  - exists EInvalidate. simpl. rewrite Hp. destruct ids; eauto.
  - exists (EValidated true). simpl. rewrite Hp. eauto.
  - exists ERequeue. simpl. rewrite Hp. eauto.
  - exists EAfter. simpl. rewrite Hp. eauto.
  - destruct (settle_progress level parked c Hc) as [c' ?]; [by apply Hok|].
    exists ESettleNext, c'. simpl. by rewrite Hp.
  - destruct (decide (tasks c = ∅)) as [Ht|Ht]; [|by apply body_progress].
    exists EDrained. simpl. rewrite Hp, bool_decide_eq_true_2 by done. eauto.
Qed.
(** ** The calls a step makes *)

Lemma run_loop_calls level c c' :
  core c.(sched) c.(tasks) → run_loop level c = Some c' →
  c'.(calls) = c.(calls) ∨
  ∃ id n q, id :: q ≡ₚ c.(sched).(runq) ∧ Sorted cmp_le (id :: q) ∧
    c'.(calls) = c.(calls) ++ [CallDispatch id n].
Proof.
  intros Hc. unfold run_loop. case_bool_decide; [intros [= <-]; by left|].
  case_bool_decide; [|destruct (_ && _); intros [= <-]; by left].
  intros (id & rest & n & ? & ? & _ & ->)%dispatch_shape; [|done]. right. by eexists _, _, _.
Qed.

(** Final classification is asked by [Run] only, at two positions. *)
Lemma step_calls c e c' :
  core c.(sched) c.(tasks) → step c e = Some c' →
  ∃ l, c'.(calls) = c.(calls) ++ l ∧
    (CallSweep true ∈ l → (∃ level, c.(pc) = RSweep level true) ∨
                          (c.(pc) = RDrain ∧ c.(tasks) = ∅)).
Proof.
  intros Hc Hs. assert (c'.(calls) = c.(calls) → ∃ l, c'.(calls) = c.(calls) ++ l ∧
    (CallSweep true ∈ l → (∃ level, c.(pc) = RSweep level true) ∨
                          (c.(pc) = RDrain ∧ c.(tasks) = ∅))) as Hnil.
  { intros Hl. exists []. rewrite app_nil_r. split; [done|]. by intros ?%not_elem_of_nil. }
  assert (∀ x, x ≠ CallSweep true → c'.(calls) = c.(calls) ++ [x] → ∃ l, c'.(calls) = c.(calls) ++ l ∧
    (CallSweep true ∈ l → (∃ level, c.(pc) = RSweep level true) ∨
                          (c.(pc) = RDrain ∧ c.(tasks) = ∅))) as Hone.
  { intros x Hx Hl. exists [x]. split; [done|]. by intros <-%list_elem_of_singleton. }
  destruct e; simpl in Hs.
  - destruct (pc c); simplify_eq; by apply Hnil.
  - simplify_eq; by apply Hnil.
  - simplify_eq; by apply Hnil.
  - simplify_eq; by apply Hnil.
  - destruct (ctxDone c); simplify_eq; by apply Hnil.
  - destruct (pc c); simplify_eq; by apply Hnil.
  - destruct (pc c); try done.
    destruct (run_loop_calls _ _ _ Hc Hs) as [|(i & n & q & _ & _ & ?)]; [by apply Hnil|].
    (eapply Hone; [|first [reflexivity|eassumption]]; done).
  - destruct (pc c) eqn:Hp; simplify_eq. exists [CallSweep quiescent]. split; [done|].
    intros [= <-]%list_elem_of_singleton. left. eauto.
  - destruct (pc c) as [| | | | ? ? ? [|]| | | | | |]; simplify_eq; apply Hnil; [done|].
    unfold invalidate_read. repeat case_match; done.
  - destruct (pc c); simplify_eq; by apply Hnil.
  - destruct (pc c); simplify_eq; by apply Hnil.
  - destruct (pc c); simplify_eq. apply Hnil. unfold run_after. repeat case_match; done.
  - destruct (pc c); try done. apply Hnil. unfold settle_next in Hs. repeat case_match; by simplify_eq.
  - destruct (pc c) eqn:Hp; try done. case_bool_decide; simplify_eq.
    eexists. split; [reflexivity|]. by right.
  - repeat case_match; simplify_eq. destruct (n_assessment _) as [a|];
      [(eapply Hone; [|first [reflexivity|eassumption]]; done)|apply Hnil; simpl; by rewrite app_nil_r].
  - repeat case_match; simplify_eq; [(eapply Hone; [|first [reflexivity|eassumption]]; done)|apply Hnil; simpl; by rewrite app_nil_r].
  - repeat case_match; simplify_eq; by apply Hnil.
  - apply Hnil. unfold complete_step in Hs. repeat case_match; by simplify_eq.
  - repeat case_match; simplify_eq; by apply Hnil.
Qed.

End scheduler.

(** ** Properties *)

(** Claim C3: when [Run] returns without an error, after any interleaving of
    arrivals, publications, dispatches, settlements and completions, the fixpoint
    is structural: every admitted node is terminal, no body is in flight and
    nothing is left to run. *)
Theorem run_returns_settled {A} (es : list (@event A)) (c : config) :
  steps initial es = Some c → c.(pc) = RDone None →
  all_terminal c.(sched) ∧ c.(tasks) = ∅ ∧ c.(sched).(runq) = [].
Proof.
  intros [Hc Hp]%reachable_inv Hd. rewrite Hd in Hp. destruct Hp as (_ & Ht & Ha).
  specialize (Ha eq_refl). split; [done|]. by apply (core_terminal _ _ Hc).
Qed.



(** Successors are admitted in sorted order and never concurrently with
    themselves: a dispatch names the least queued identity, and no body of that
    identity is in flight. *)
Theorem dispatch_is_least {A} (es : list (@event A)) (c c' : config) id prev :
  steps initial es = Some c → step c ELoop = Some c' →
  c'.(calls) = c.(calls) ++ [CallDispatch id prev] →
  id ∈ c.(sched).(runq) ∧ (∀ x, x ∈ c.(sched).(runq) → cmp_le id x) ∧ id ∉ dom c.(tasks).
Proof.
  intros [Hc _]%reachable_inv Hs Hl. simpl in Hs. destruct (pc c) as [|level| | | | | | | | |]; try done.
  destruct (run_loop_calls level c c' Hc Hs) as [He|(i & n & q & Hq & Hso & Hl')].
  { by rewrite He, <-(app_nil_r (calls c)), <-app_assoc in Hl; apply app_inv_head in Hl. }
  rewrite Hl' in Hl. apply app_inv_head in Hl. injection Hl as <- _.
  assert (i ∈ runq (sched c)) as Hi by (rewrite <-Hq; left).
  split_and!; [done| |].
  - intros x. rewrite <-Hq, elem_of_cons. intros [->|Hx]; [done|].
    apply (Sorted_StronglySorted _), StronglySorted_inv in Hso as [_ Hall].
    rewrite Forall_forall in Hall. auto.
  - intros Hr%(core_tasks _ _ Hc). apply (core_runq _ _ Hc) in Hi.
    by pose proof (in_state_fun _ _ _ _ Hr Hi).
Qed.

(** The dispatcher is asked for final classification ([Sweep] with
    [quiescent]) only while no body is in flight. *)
Theorem sweep_final_quiescent {A} (es : list (@event A)) (c c' : config) e l :
  steps initial es = Some c → step c e = Some c' → c'.(calls) = c.(calls) ++ l →
  CallSweep true ∈ l → c.(tasks) = ∅.
Proof.
  intros [Hc Hp]%reachable_inv Hs Hl Hin.
  destruct (step_calls c e c' Hc Hs) as (l' & Hl' & Hsw). rewrite Hl' in Hl.
  apply app_inv_head in Hl as ->. destruct (Hsw Hin) as [[level He]|[_ Ht]]; [|done].
  rewrite He in Hp. by apply Hp.
Qed.

(** ** A complete run *)

(** Two nodes: [a] completes at once; [b] parks, and is settled at the fixpoint. *)
Definition id_a : NamedResource := mkResource "g" "K" "ns" "a".
Definition id_b : NamedResource := mkResource "g" "K" "ns" "b".
Definition ok_obs := mkObs true Terminal false.
Definition blocked_obs := mkObs true Blocked true.

Definition run_started : list (@event nat) := [ESeed [id_b; id_a]; ERun].
Definition run_dispatched : list (@event nat) := run_started ++ [ELoop; ELoop; ELoop].
Definition run_swept : list (@event nat) := run_dispatched ++
  [EDispatched id_a (Some 1) ok_obs; EComplete id_a; ELoop;
   EDispatched id_b (Some 2) blocked_obs; EComplete id_b; ELoop].
Definition run_complete : list (@event nat) := run_swept ++
  [ESweep []; EInvalidate; EAfter; ESettleNext; ESettleNext; ELoop;
   ESettle id_b true; ESettled id_b ok_obs; EComplete id_b;
   ELoop; ESweep []; EInvalidate; EAfter; EDrained].

Definition after (es : list (@event nat)) : @config nat := default initial (steps initial es).

(** Whether every event of a run is enabled, which a computation decides. *)
Definition runs (es : list (@event nat)) : bool :=
  match steps initial es with Some _ => true | None => false end.

Lemma runs_after es : runs es = true → steps initial es = Some (after es).
Proof. unfold runs, after. by destruct (steps initial es). Qed.

Lemma runs_step es e :
  runs es = true → runs (es ++ [e]) = true → step (after es) e = Some (after (es ++ [e])).
Proof.
  intros H1%runs_after H2%runs_after. by rewrite steps_snoc, H1 in H2.
Qed.

Lemma run_returns_settled_witness :
  (after run_complete).(pc) = RDone None ∧ all_terminal (after run_complete).(sched).
Proof.
  assert ((after run_complete).(pc) = RDone None) as Hp by (vm_compute; reflexivity).
  split; [exact Hp|].
  apply (run_returns_settled run_complete); [apply runs_after; vm_compute; reflexivity|exact Hp].
Defined.



Lemma dispatch_is_least_witness :
  (after run_started).(sched).(runq) = [id_b; id_a] ∧ id_a ∈ (after run_started).(sched).(runq) ∧
  cmp_le id_a id_b.
Proof.
  assert ((after run_started).(sched).(runq) = [id_b; id_a]) as Hq by (vm_compute; reflexivity).
  split; [exact Hq|].
  destruct (dispatch_is_least run_started (after run_started) (after (run_started ++ [ELoop]))
    id_a None) as (H1 & H2 & _).
  - apply runs_after. vm_compute. reflexivity.
  - apply runs_step; vm_compute; reflexivity.
  - vm_compute. reflexivity.
  - split; [exact H1|]. apply H2. rewrite Hq. left.
Defined.

Lemma sweep_final_quiescent_witness :
  (after run_swept).(pc) = RSweep DrainNone true ∧ (after run_swept).(tasks) = ∅.
Proof.
  split; [vm_compute; reflexivity|].
  apply (sweep_final_quiescent run_swept _ (after (run_swept ++ [ESweep []])) (ESweep [])
           [CallSweep true]); [apply runs_after|apply runs_step|..|left]; vm_compute; reflexivity.
Defined.
