(* ===== verification/DepWait.v ===== *)
(** * Dependency classification (pkg/depwait)

    [Classify] decides, without blocking, whether one dependency is ready, has
    failed, or may still become available at a drain level; [Available] does the
    same for a values reference and its materializers.  Both only read a captured
    snapshot ([stateReader]); the one call that can change it is the promotion of
    a discovery record, which hands back the snapshot to continue with.  The CEL
    engine that evaluates a ReadyExpr and the object types are parameters. *)

From S2P Require Import Prelude Resource Diagnostic StoreStatus Schedule.

(** [DependencyRef]; a nil [ReadyExpr] is [None]. *)
Record DependencyRef := mkRef {
  dep_id : NamedResource;
  ReadyExpr : option string;
  Artifact : bool;
  ArtifactOnly : bool;
  ChartSource : bool;
}.

(** [DependencyRef{NamedResource: producer}]. *)
Definition plain_ref (id : NamedResource) : DependencyRef := mkRef id None false false false.

(** What [GetArtifact] yields as a [*SourceArtifact], and whether its [FS] is set. *)
Inductive artifact := NoSource | Source (hasFS : bool).

(** The answer of the expression engine: a value, a compile error (which includes
    a non-bool result), or an evaluation error. *)
Inductive cel_result := CelValue (ok : bool) | CelCompileError (msg : string) | CelEvalError.

Inductive wait_error :=
  | ErrPromote (msg : string)
  | ErrSourceSkipped (msg : string)
  | ErrInput (msg : string)
  | ErrObjectNotFound (msg : string).

Record Classification := mkClassification {
  cl_Kind : OutcomeKind;
  cl_Subject : option DiagnosticIdentity;
  cl_Message : string;
  cl_Causes : list DiagnosticReason;
  cl_Err : option wait_error;
}.

Definition classified (k : OutcomeKind) : Classification := mkClassification k None "" [] None.
(** [Classification{Err: err}]: the zero kind is [Terminal]. *)
Definition class_error (e : wait_error) : Classification :=
  mkClassification Terminal None "" [] (Some e).

Definition dependencyNotFound := "dependency not found".

Record Observation := mkObservation {
  o_info : StatusInfo;
  o_Conditions : list Condition;
  o_Statusful : bool;
}.

(** The interface of the objects: whether existence alone is enough, and the
    display identity captured at their declaration. *)
Class Descriptor (O : Type) := {
  ExistenceOnly : O → bool;
  DiagnosticFor : NamedResource → option O → DiagnosticIdentity;
}.

Section depwait.
Context {O : Type} `{Descriptor O}.

(** [stateReader]: the snapshot a waiter reads. *)
Record stateReader := mkReader {
  artifacts : gmap NamedResource bool;
  objectsOf : gmap NamedResource O;
  statuses : gmap NamedResource StatusInfo;
  Snapshot : NamedResource → bool → option O * Observation;
}.

Definition GetArtifact (s : stateReader) (id : NamedResource) : artifact :=
  match s.(artifacts) !! id with None => NoSource | Some fs => Source fs end.
Definition GetObject (s : stateReader) (id : NamedResource) : option O := s.(objectsOf) !! id.
Definition getStatus (s : stateReader) (id : NamedResource) : option StatusInfo := s.(statuses) !! id.

(** [ExistenceLookup.Promote]: whether the identity was promoted, or the text of an
    error, and the snapshot the waiter reads from then on. *)
Definition lookup_promote : Type := stateReader → NamedResource → (bool + string) * stateReader.

Record Waiter := mkWaiter {
  Parent : NamedResource;
  Materializer : bool;
  AllowMissingCRDs : bool;
}.

Context (quote : string → string).
Context (evaluateReadyExpr :
  stateReader → string → NamedResource → option O → list Condition → cel_result).

Definition hasExpr (dep : DependencyRef) : bool :=
  match dep.(ReadyExpr) with None => false | Some e => bool_decide (e ≠ "") end.

(** [tryReadyExpr]: readiness and the message of a terminal expression failure. *)
Definition tryReadyExpr (s : stateReader) (dep : DependencyRef) (obj : option O)
    (conds : list Condition) : bool * string :=
  match evaluateReadyExpr s (default "" dep.(ReadyExpr)) dep.(dep_id) obj conds with
  | CelCompileError msg => (false, "readyExpr: " +:+ msg)
  | CelEvalError => (false, "")
  | CelValue ok => (ok, "")
  end.

(** [Classification.DiagnosticReason]. *)
Definition class_reason (c : Classification) (id : NamedResource) : DiagnosticReason :=
  if bool_decide (c.(cl_Kind) ≠ DependencyFailed) then zero_reason
  else mkReason (default (DiagnosticForAbsent id) c.(cl_Subject)) c.(cl_Message) c.(cl_Causes).

Definition failedClassification (id : NamedResource) (obj : option O) (message : string)
    (info : option Observation) : Classification :=
  let reason :=
    match info with
    | None => mkReason (DiagnosticFor id obj) message []
    | Some i => DependencyReason i.(o_info) (DiagnosticFor id obj)
    end in
  let subject := reason.(r_Subject) in
  mkClassification DependencyFailed
    (if bool_decide (subject.(d_Resource) ≠ subject.(d_ID)) || bool_decide (subject.(d_Path) ≠ "")
     then Some subject else None)
    reason.(r_Message) reason.(r_Causes) None.

Definition show (id : NamedResource) (obj : option O) : string :=
  DiagnosticIdentity_String quote (DiagnosticFor id obj).

Definition artifactReady (s : stateReader) (dep : DependencyRef) (level : DrainLevel)
    : Classification :=
  if negb dep.(Artifact) then classified Terminal
  else
    let id := dep.(dep_id) in
    let obj := GetObject s id in
    let label := if dep.(ChartSource) then "chart source" else "source" in
    let skipped := match getStatus s id with
                   | Some info => if bool_decide (Outcome info = OutcomeSkipped) then Some info else None
                   | None => None
                   end in
    match skipped with
    | Some info =>
        class_error (ErrSourceSkipped
          (label +:+ " " +:+ show id obj +:+ " skipped: " +:+ StatusInfo_String info))
    | None =>
        if match obj with Some o => ExistenceOnly o | None => false end && negb dep.(ArtifactOnly)
        then classified Terminal
        else
          match GetArtifact s id with
          | Source true => classified Terminal
          | art =>
              if dep.(ArtifactOnly)
              then class_error (ErrInput ("source " +:+ show id obj +:+ " has no readable content"))
              else if negb (drain_lt level DrainCascade)
              then class_error (ErrObjectNotFound
                (match art with
                 | NoSource =>
                     if negb dep.(ChartSource)
                     then "source " +:+ show id obj +:+ " artifact not found"
                     else label +:+ " " +:+ show id obj +:+ " artifact content unavailable"
                 | Source _ => label +:+ " " +:+ show id obj +:+ " artifact content unavailable"
                 end))
              else classified Blocked
          end
    end.

Definition sourceAvailable (s : stateReader) (id : NamedResource) : bool :=
  match GetArtifact s id with Source true => true | _ => false end.

Definition classifyAbsent (w : Waiter) (s : stateReader) (dep : DependencyRef) (level : DrainLevel)
    : Classification :=
  let id := dep.(dep_id) in
  if dep.(Artifact) && match GetArtifact s id with Source _ => true | NoSource => false end
  then artifactReady s dep level
  else if drain_lt level DrainCascade then classified Blocked
  else if w.(AllowMissingCRDs) && IsCRD id then artifactReady s dep level
  else mkClassification DependencyFailed None dependencyNotFound [] None.

Definition classifyPresent (w : Waiter) (s : stateReader) (dep : DependencyRef) (obj : option O)
    (info : Observation) (level : DrainLevel) : Classification :=
  let id := dep.(dep_id) in
  let status := info.(o_info).(i_Status) in
  if negb (hasExpr dep) && bool_decide (status = StatusReady) then artifactReady s dep level
  else if bool_decide (status = StatusFailed) then
    if w.(Materializer) && IsDependencyFailure info.(o_info)
    then failedClassification id obj "declaration not emitted" None
    else failedClassification id obj "" (Some info)
  else if hasExpr dep && negb (drain_lt level DrainCascade)
  then failedClassification id obj "readyExpr timeout: context deadline exceeded" None
  else if negb (hasExpr dep) && negb (drain_lt level DrainForce)
  then failedClassification id obj "not ready" None
  else classified Blocked.

(** [classify], with the snapshot it leaves; [None] is the second result of the
    code, "promoted". *)
Definition classify (w : Waiter) (existence : option lookup_promote) (s : stateReader)
    (dep : DependencyRef) (level : DrainLevel) : option Classification * stateReader :=
  let id := dep.(dep_id) in
  if dep.(ArtifactOnly) && sourceAvailable s id then (Some (classified Terminal), s)
  else
    let '(obj, info) := s.(Snapshot) id (hasExpr dep || w.(Materializer)) in
    let present := bool_decide (is_Some obj) || bool_decide (info.(o_info).(i_Status) ≠ StatusUnset) in
    if negb w.(Materializer) && present && negb info.(o_Statusful)
    then (Some (artifactReady s dep level), s)
    else
      let '(ready, failMsg) :=
        if hasExpr dep then tryReadyExpr s dep obj info.(o_Conditions) else (false, "") in
      if bool_decide (failMsg ≠ "") then (Some (failedClassification id obj failMsg None), s)
      else
        let rest s :=
          if present && ready then artifactReady s dep level
          else if negb present then classifyAbsent w s dep level
          else classifyPresent w s dep obj info level in
        match existence with
        | Some promote =>
            if negb present
            then match promote s id with
                 | (inr msg, s) => (Some (class_error (ErrPromote msg)), s)
                 | (inl true, s) => (None, s)
                 | (inl false, s) => (Some (rest s), s)
                 end
            else (Some (rest s), s)
        | None => (Some (rest s), s)
        end.

(** One turn of [Classify]'s loop: after a promotion the lookup is nil. *)
Definition Classify_step (w : Waiter) (dep : DependencyRef) (level : DrainLevel)
    (st : option lookup_promote * stateReader)
    : option lookup_promote * stateReader + Classification * stateReader :=
  match classify w st.1 st.2 dep level with
  | (Some c, s) => inr (c, s)
  | (None, s) => inl (None, s)
  end.

Definition Classify (w : Waiter) (existence : option lookup_promote) (s : stateReader)
    (dep : DependencyRef) (level : DrainLevel) : Classification * stateReader :=
  default (classified Blocked, s) (loop (Classify_step w dep level) 1 (existence, s)).

(** ** Availability of a values reference (availability.go) *)

(** [store.ReferenceFacts], as far as availability reads it. *)
Record ReferenceFacts := mkFacts {
  HasData : bool;
  Materializers : list NamedResource;
  Generated : bool;
  Offline : bool;
  Private : bool;
}.

Definition AllowsAbsence (f : ReferenceFacts) : bool :=
  f.(Private) || f.(Generated) && negb f.(Offline).

Record DataDependency := mkData {
  data_ref : DependencyRef;
  Input : ReferenceFacts;
  Optional : bool;
  AllowMissing : bool;
}.

Record availability := mkAvail {
  a_Err : option wait_error;
  a_Kind : OutcomeKind;
  a_Reason : DiagnosticReason;
  a_Blocked : list NamedResource;
  a_Failed : list NamedResource;
  a_Omit : bool;
}.

Definition avail (k : OutcomeKind) (r : DiagnosticReason) (blocked failed : list NamedResource)
    (omit : bool) : availability := mkAvail None k r blocked failed omit.
Definition avail_error (e : wait_error) : availability := mkAvail (Some e) Terminal zero_reason [] [] false.

(** One turn of [blocksParent]'s stack; the stack grows at its end. *)
Definition blocks_step (w : Waiter) (s : stateReader)
    (st : gset NamedResource * list NamedResource)
    : gset NamedResource * list NamedResource + bool :=
  let '(seen, pending) := st in
  match reverse pending with
  | [] => inr false
  | current :: rest =>
      let pending := reverse rest in
      if bool_decide (current = w.(Parent)) then inr true
      else if bool_decide (current ∈ seen) then inl (seen, pending)
      else inl ({[current]} ∪ seen,
                pending ++ BlockedBy (default no_info (getStatus s current)))
  end.

(** The blockers recorded in the snapshot, which bound the traversal. *)
Definition total_blockers (m : gmap NamedResource StatusInfo) : nat :=
  weigh (λ i, length (BlockedBy i)) m.

Definition blocksParent (w : Waiter) (s : stateReader) (id : NamedResource) : bool :=
  default false (loop (blocks_step w s) (total_blockers s.(statuses) + 1) (∅, [id])).

Definition absence_allowed (dep : DataDependency) : bool :=
  dep.(Optional) || dep.(AllowMissing) || AllowsAbsence dep.(Input).

(** [materializerFailure]; the second result of the code is the option. *)
Definition materializerFailure (w : Waiter) (s : stateReader) (dep : DataDependency)
    (producer : NamedResource) (cl : Classification) : option availability :=
  if bool_decide (cl.(cl_Kind) ≠ DependencyFailed) || absence_allowed dep then None
  else
    let status := default no_info (getStatus s producer) in
    if bool_decide (status.(i_Status) = StatusFailed) && negb (blocksParent w s producer) then None
    else
      let cl := if bool_decide (status.(i_Status) = StatusFailed)
                then mkClassification cl.(cl_Kind) cl.(cl_Subject) "not ready" [] cl.(cl_Err)
                else cl in
      Some (avail cl.(cl_Kind) (class_reason cl producer) [] [producer] false).

(** The lookup the waiter was built with. *)
Context (existence : option lookup_promote).

Definition availableAbsent (w : Waiter) (s : stateReader) (dep : DataDependency)
    (level : DrainLevel) : availability * stateReader :=
  let id := dep.(data_ref).(dep_id) in
  let allowed := absence_allowed dep in
  let not_found s := mkReason (DiagnosticFor id (GetObject s id)) dependencyNotFound [] in
  if AllowsAbsence dep.(Input) || bool_decide (dep.(Input).(Materializers) ≠ [])
  then (if allowed then avail Terminal zero_reason [] [] true
        else avail DependencyFailed (not_found s) [] [] false, s)
  else if allowed && negb dep.(Input).(Offline) then (avail Terminal zero_reason [] [] true, s)
  else
    let '(cl, s) := Classify w existence s dep.(data_ref) level in
    (match cl.(cl_Err) with
     | Some e => avail_error e
     | None =>
         if bool_decide (cl.(cl_Kind) = Blocked)
         then avail Blocked (class_reason cl id) [id] [] false
         else if allowed then avail Terminal zero_reason [] [] true
         else if bool_decide (cl.(cl_Kind) = Terminal)
         then avail DependencyFailed (not_found s) [] [] false
         else avail cl.(cl_Kind) (class_reason cl id) [] [] false
     end, s).

(** The loop over the materializers, then the verdict.  [pending] holds the
    producers the read set reports as unsettled. *)
Fixpoint available_loop (w : Waiter) (s : stateReader) (dep : DataDependency) (level : DrainLevel)
    (pending producers blocked : list NamedResource) : availability * stateReader :=
  match producers with
  | [] =>
      if bool_decide (blocked ≠ []) then (avail Blocked zero_reason blocked [] false, s)
      else if dep.(Input).(HasData) then (avail Terminal zero_reason [] [] false, s)
      else availableAbsent w s dep level
  | producer :: rest =>
      if bool_decide (producer = w.(Parent))
      then available_loop w s dep level pending rest blocked
      else
        let '(cl, s) := Classify w existence s (plain_ref producer) level in
        match cl.(cl_Err) with
        | Some e => (avail_error e, s)
        | None =>
            let blocked' :=
              if bool_decide (cl.(cl_Kind) = Blocked) ||
                 (bool_decide (cl.(cl_Kind) = Terminal) && drain_lt level DrainForce &&
                  bool_decide (producer ∈ pending))
              then blocked ++ [producer] else blocked in
            match materializerFailure w s dep producer cl with
            | Some failure => (failure, s)
            | None => available_loop w s dep level pending rest blocked'
            end
        end
  end.

(** [Available], with the snapshot it leaves. *)
Definition Available (w : Waiter) (s : stateReader) (dep : DataDependency) (level : DrainLevel)
    (unsettled : list NamedResource) : availability * stateReader :=
  let pending := if dep.(Input).(HasData) then [] else unsettled in
  available_loop w s dep level pending dep.(Input).(Materializers) [].

(** ** Totality *)

Lemma classify_no_lookup w s dep level : is_Some (classify w None s dep level).1.
Proof.
  unfold classify. repeat (case_match; simplify_eq/=; eauto).
Qed.

(** The loop of [Classify] returns, after at most one promotion. *)
Lemma Classify_returns w ex s dep level :
  ∃ c s' s'' ex', loop (Classify_step w dep level) 1 (ex, s) = Some (c, s') ∧
    Classify w ex s dep level = (c, s') ∧
    (ex' = ex ∧ s'' = s ∨
     ex' = None ∧ classify w ex s dep level = (None, s'')) ∧
    classify w ex' s'' dep level = (Some c, s').
Proof.
  unfold Classify. cbn [loop]. unfold Classify_step at 1 3. cbn [fst snd].
  destruct (classify w ex s dep level) as [[c|] s1] eqn:E1.
  - exists c, s1, s, ex. repeat split; try done. by left.
  - destruct (classify_no_lookup w s1 dep level) as [c Hc].
    destruct (classify w None s1 dep level) as [oc s2] eqn:E2. simpl in Hc. subst oc.
    exists c, s2, s1, None. unfold Classify_step. cbn [fst snd]. rewrite E2.
    repeat split; try done. by right.
Qed.

(** ** Drain levels *)

Lemma artifactReady_force s dep level :
  level ≠ DrainNone → cl_Kind (artifactReady s dep level) ≠ Blocked.
Proof.
  intros Hl. unfold artifactReady. destruct level; [done|..]; cbn [drain_lt];
    repeat (case_match; simplify_eq/=; try done).
Qed.

Lemma failedClassification_kind id obj message info :
  cl_Kind (failedClassification id obj message info) = DependencyFailed.
Proof. unfold failedClassification. by destruct info. Qed.

Lemma classifyAbsent_force w s dep level :
  level ≠ DrainNone → cl_Kind (classifyAbsent w s dep level) ≠ Blocked.
Proof.
  intros Hl. unfold classifyAbsent.
  destruct (_ && _); [by apply artifactReady_force|].
  destruct level; [done|..]; cbn; (destruct (_ && _); [by apply artifactReady_force|done]).
Qed.

Lemma classifyPresent_force w s dep obj info :
  cl_Kind (classifyPresent w s dep obj info DrainForce) ≠ Blocked.
Proof.
  unfold classifyPresent. destruct (hasExpr dep); cbn [negb andb drain_lt];
    repeat (case_match; rewrite ?failedClassification_kind; try done);
    by apply artifactReady_force.
Qed.

(** Nothing is left undecided at the last level. *)
Lemma classify_force w ex s dep c s' :
  classify w ex s dep DrainForce = (Some c, s') → cl_Kind c ≠ Blocked.
Proof.
  unfold classify. destruct (_ && sourceAvailable _ _); [by intros [= <- <-]|].
  destruct (Snapshot _ _ _) as [obj info].
  destruct (_ && _); [intros [= <- <-]; by apply artifactReady_force|].
  destruct (if hasExpr dep then _ else _) as [ready msg].
  case_bool_decide; [intros [= <- <-]; by rewrite failedClassification_kind|].
  match goal with |- context [bool_decide (is_Some obj) || ?b] =>
    set (present := bool_decide (is_Some obj) || b) end.
  assert (∀ s1, cl_Kind (if present && ready then artifactReady s1 dep DrainForce
    else if negb present then classifyAbsent w s1 dep DrainForce
    else classifyPresent w s1 dep obj info DrainForce) ≠ Blocked) as Hrest.
  { intros s1. destruct (present && ready); [by apply artifactReady_force|].
    destruct (negb present); [by apply classifyAbsent_force|apply classifyPresent_force]. }
  destruct ex as [promote|]; [|intros [= <- <-]; apply Hrest].
  destruct (negb present) eqn:Hp; [|intros [= <- <-]; apply Hrest].
  destruct (promote s (dep_id dep)) as [[[]|] s1]; intros [= <- <-]; [apply Hrest|done].
Qed.

Lemma Classify_force w ex s dep : cl_Kind (Classify w ex s dep DrainForce).1 ≠ Blocked.
Proof.
  destruct (Classify_returns w ex s dep DrainForce) as (c & s' & s'' & ex' & _ & -> & _ & Hc).
  by eapply classify_force.
Qed.

(** ** Raising the level only decides what was blocked *)

Lemma artifactReady_level s dep l l' :
  drain_value l ≤ drain_value l' → cl_Kind (artifactReady s dep l) ≠ Blocked →
  artifactReady s dep l' = artifactReady s dep l.
Proof.
  unfold artifactReady. intros Hl. destruct (negb (Artifact dep)); [done|].
  destruct (match getStatus s (dep_id dep) with Some _ => _ | None => _ end); [done|].
  destruct (_ && _); [done|]. destruct (GetArtifact s (dep_id dep)) as [|[]]; [|done|];
    (destruct (ArtifactOnly dep); [done|]); destruct l, l'; simpl in *; try done; lia.
Qed.

Lemma classifyAbsent_level w s dep l l' :
  drain_value l ≤ drain_value l' → cl_Kind (classifyAbsent w s dep l) ≠ Blocked →
  classifyAbsent w s dep l' = classifyAbsent w s dep l.
Proof.
  unfold classifyAbsent. intros Hl. destruct (_ && match _ with _ => _ end);
    [by apply artifactReady_level|].
  destruct l, l'; cbn in *; try done; try lia;
    (destruct (_ && _); [apply artifactReady_level; simpl; lia|done]).
Qed.

Lemma classifyPresent_level w s dep obj info l l' :
  drain_value l ≤ drain_value l' → cl_Kind (classifyPresent w s dep obj info l) ≠ Blocked →
  classifyPresent w s dep obj info l' = classifyPresent w s dep obj info l.
Proof.
  unfold classifyPresent. intros Hl. destruct (_ && bool_decide _); [by apply artifactReady_level|].
  case_bool_decide; [done|]. destruct (hasExpr dep), l, l'; cbn in *; try done; lia.
Qed.

Lemma classify_level w ex s dep l l' :
  drain_value l ≤ drain_value l' →
  (∀ c s', classify w ex s dep l = (Some c, s') → cl_Kind c ≠ Blocked) →
  classify w ex s dep l' = classify w ex s dep l.
Proof.
  intros Hl. unfold classify. destruct (_ && sourceAvailable _ _); [done|].
  destruct (Snapshot _ _ _) as [obj info].
  destruct (_ && _); [intros Hc; f_equal; f_equal; apply artifactReady_level; eauto|].
  destruct (if hasExpr dep then _ else _) as [ready msg]. case_bool_decide; [done|].
  match goal with |- context [bool_decide (is_Some obj) || ?b] =>
    set (present := bool_decide (is_Some obj) || b) end.
  set (rest := λ l s1, if present && ready then artifactReady s1 dep l
    else if negb present then classifyAbsent w s1 dep l else classifyPresent w s1 dep obj info l).
  assert (∀ s1, cl_Kind (rest l s1) ≠ Blocked → rest l' s1 = rest l s1) as Hrest.
  { intros s1. unfold rest. destruct (present && ready); [by apply artifactReady_level|].
    destruct (negb present); [by apply classifyAbsent_level|by apply classifyPresent_level]. }
  change (if present && ready then artifactReady s dep l' else _) with (rest l' s).
  change (if present && ready then artifactReady s dep l else _) with (rest l s).
  destruct ex as [promote|]; [|intros Hc; f_equal; f_equal; apply Hrest; eauto].
  destruct (negb present) eqn:Hp; [|intros Hc; f_equal; f_equal; apply Hrest; eauto].
  destruct (promote s (dep_id dep)) as [[[]|] s1]; try done.
  intros Hc. f_equal; f_equal. specialize (Hrest s1). unfold rest in Hrest.
  apply Hrest. eauto.
Qed.

Lemma Classify_level w ex s dep l l' :
  drain_value l ≤ drain_value l' → cl_Kind (Classify w ex s dep l).1 ≠ Blocked →
  Classify w ex s dep l' = Classify w ex s dep l.
Proof.
  intros Hl. unfold Classify. cbn [loop]. unfold Classify_step. cbn [fst snd].
  intros Hb. rewrite (classify_level w ex s dep l l') by first
    [done|intros c s' Hc; by rewrite Hc in Hb].
  destruct (classify w ex s dep l) as [[c|] s1]; [done|]. cbn [fst snd] in *.
  rewrite (classify_level w None s1 dep l l') by first
    [done|intros c s' Hc; by rewrite Hc in Hb]. done.
Qed.

(** ** The failure cycle through the waiter's parent *)

Section blocks.
Context (w : Waiter) (s : stateReader).

(** [b] is an immediate failed dependency recorded in [a]'s status. *)
Definition blocked_on (a b : NamedResource) : Prop :=
  b ∈ BlockedBy (default no_info (getStatus s a)).

Definition blocks_inv (id : NamedResource) (st : gset NamedResource * list NamedResource) : Prop :=
  (∀ x, x ∈ st.2 → rtc blocked_on id x) ∧
  (id ∈ st.1 ∨ id ∈ st.2) ∧ w.(Parent) ∉ st.1 ∧
  (∀ x y, x ∈ st.1 → blocked_on x y → y ∈ st.1 ∨ y ∈ st.2).

Definition blocks_measure (st : gset NamedResource * list NamedResource) : nat :=
  weigh_out (λ i, length (BlockedBy i)) st.1 s.(statuses) + length st.2.

Lemma blocks_step_inl id st st' :
  blocks_inv id st → blocks_step w s st = inl st' →
  blocks_inv id st' ∧ blocks_measure st' < blocks_measure st.
Proof.
  destruct st as [seen pending]. intros (Hreach & Hid & Hpar & Hcl). simpl in *.
  destruct (reverse pending) as [|cur rest] eqn:Erev; [done|].
  apply (f_equal reverse) in Erev. rewrite reverse_involutive, reverse_cons in Erev. subst pending.
  set (below := reverse rest) in *. clearbody below.
  case_bool_decide as Hcp; [done|]. case_bool_decide as Hseen; intros [= <-].
  - split; [split_and!; simpl|unfold blocks_measure; simpl; rewrite length_app; simpl; lia]; [|..|done|].
    + intros x Hx. apply Hreach. rewrite elem_of_app. by left.
    + rewrite elem_of_app, list_elem_of_singleton in Hid. prop_solve.
    + intros x y Hx Hy. specialize (Hcl x y Hx Hy).
      rewrite elem_of_app, list_elem_of_singleton in Hcl. prop_solve.
  - split; [split_and!; simpl|].
    + intros x. rewrite elem_of_app. intros [Hx|Hx]; [apply Hreach; rewrite elem_of_app; by left|].
      eapply rtc_r; [apply Hreach; rewrite elem_of_app; right; by left|]. done.
    + rewrite elem_of_app, list_elem_of_singleton in Hid.
      rewrite elem_of_union, elem_of_singleton, elem_of_app. tauto.
    + rewrite elem_of_union, elem_of_singleton. intros [<-|?]; tauto.
    + intros x y. rewrite elem_of_union, elem_of_singleton. intros [->|Hx] Hy.
      * right. rewrite elem_of_app. by right.
      * specialize (Hcl x y Hx Hy). rewrite elem_of_app, list_elem_of_singleton in Hcl.
        rewrite elem_of_union, elem_of_singleton, elem_of_app. tauto.
    + unfold blocks_measure; simpl. rewrite !length_app. simpl.
      rewrite <-(weigh_out_push _ seen s.(statuses) cur) by done. unfold getStatus.
      destruct (statuses s !! cur); simpl; lia.
Qed.

Lemma blocks_step_inr id st r :
  blocks_inv id st → blocks_step w s st = inr r → r = true ↔ rtc blocked_on id w.(Parent).
Proof.
  destruct st as [seen pending]. intros (Hreach & Hid & Hpar & Hcl). simpl in *.
  destruct (reverse pending) as [|cur rest] eqn:Erev.
  - apply (f_equal reverse) in Erev. rewrite reverse_involutive in Erev. subst pending.
    intros [= <-]. split; [done|]. intros Hp. exfalso. apply Hpar.
    assert (∀ x, rtc blocked_on id x → x ∈ seen) as Hall; [|by apply Hall].
    apply rtc_ind_r; [destruct Hid as [|?%not_elem_of_nil]; done|].
    intros x y _ Hxy Hx. destruct (Hcl x y Hx Hxy) as [|?%not_elem_of_nil]; done.
  - case_bool_decide as Hcp; [|by case_bool_decide]. intros [= <-]. split; [|done]. intros _.
    rewrite <-Hcp. apply Hreach. rewrite <-(reverse_involutive pending), Erev.
    rewrite elem_of_reverse. left.
Qed.

Lemma blocksParent_spec id : blocksParent w s id = true ↔ rtc blocked_on id w.(Parent).
Proof.
  unfold blocksParent.
  destruct (loop_spec (blocks_step w s) (blocks_inv id) blocks_measure
    (λ r, r = true ↔ rtc blocked_on id w.(Parent)) (total_blockers s.(statuses) + 1) (∅, [id]))
    as (r & -> & Hr); [apply blocks_step_inl|apply blocks_step_inr| | |done].
  - split_and!; simpl; [intros x ->%list_elem_of_singleton; done|right; left|set_solver|set_solver].
  - unfold blocks_measure, total_blockers; simpl. by rewrite weigh_out_empty.
Qed.
End blocks.

(** ** Availability *)

Lemma availableAbsent_force w s dep :
  a_Kind (availableAbsent w s dep DrainForce).1 ≠ Blocked.
Proof.
  unfold availableAbsent. destruct (_ || bool_decide _); [by destruct (absence_allowed dep)|].
  destruct (_ && _); [done|].
  pose proof (Classify_force w existence s (data_ref dep)) as Hf.
  destruct (Classify w existence s (data_ref dep) DrainForce) as [cl s']. simpl in Hf.
  destruct (cl_Err cl); [done|]. rewrite bool_decide_eq_false_2 by done.
  destruct (absence_allowed dep); [done|]. case_bool_decide; [done|]. done.
Qed.

Lemma materializerFailure_kind w s dep producer cl r :
  materializerFailure w s dep producer cl = Some r → a_Kind r = DependencyFailed.
Proof.
  unfold materializerFailure. destruct (bool_decide (cl_Kind cl ≠ _)) eqn:E; [done|].
  apply bool_decide_eq_false in E. apply not_ne in E.
  cbn [orb]. destruct (absence_allowed dep); [done|]. destruct (_ && _); [done|].
  intros [= <-]. by case_bool_decide.
Qed.

Lemma available_loop_force w dep pending producers s :
  a_Kind (available_loop w s dep DrainForce pending producers []).1 ≠ Blocked.
Proof.
  revert s. induction producers as [|producer rest IH]; intros s; cbn [available_loop].
  - rewrite bool_decide_eq_false_2 by tauto. destruct (HasData _); [done|].
    apply availableAbsent_force.
  - case_bool_decide; [apply IH|].
    pose proof (Classify_force w existence s (plain_ref producer)) as Hf.
    destruct (Classify w existence s (plain_ref producer) DrainForce) as [cl s']. simpl in Hf.
    destruct (cl_Err cl); [done|]. rewrite (bool_decide_eq_false_2 (cl_Kind cl = Blocked)) by done.
    cbn [drain_lt drain_value Nat.ltb Nat.leb]. rewrite andb_false_r. cbn [orb andb].
    destruct (materializerFailure w s' dep producer cl) as [r|] eqn:Hm; [|apply IH].
    apply materializerFailure_kind in Hm. cbn [fst]. congruence.
Qed.

End depwait.

(** ** Properties *)

(** At the last drain level every dependency is decided: neither [Classify]
    nor [Available] answers [Blocked] at [DrainForce], whatever the snapshot, the
    promotions and the expression engine answer (so the scheduler's settlement
    terminates). *)
Theorem force_decides {O} `{Descriptor O} quote eval w ex (s : stateReader (O := O)) :
  (∀ dep, cl_Kind (Classify quote eval w ex s dep DrainForce).1 ≠ Blocked) ∧
  (∀ dep unsettled, a_Kind (Available quote eval ex w s dep DrainForce unsettled).1 ≠ Blocked).
Proof. split; [apply Classify_force|]. intros dep unsettled. apply available_loop_force. Qed.

(** Drain levels refine: on the same snapshot, raising the level only
    decides what was [Blocked]; every other classification, errors and promotions
    included, is kept. *)
Theorem levels_refine {O} `{Descriptor O} quote eval w ex (s : stateReader (O := O)) dep l l' :
  drain_value l ≤ drain_value l' → cl_Kind (Classify quote eval w ex s dep l).1 ≠ Blocked →
  Classify quote eval w ex s dep l' = Classify quote eval w ex s dep l.
Proof. apply Classify_level. Qed.

(** [Classify]'s retry loop terminates: it classifies once, and once more
    without the discovery lookup if that promoted the dependency. *)
Theorem Classify_terminates {O} `{Descriptor O} quote eval w ex (s : stateReader (O := O)) dep level :
  ∃ c s' s'' ex', Classify quote eval w ex s dep level = (c, s') ∧
    (ex' = ex ∧ s'' = s ∨
     ex' = None ∧ classify quote eval w ex s dep level = (None, s'')) ∧
    classify quote eval w ex' s'' dep level = (Some c, s').
Proof.
  destruct (Classify_returns quote eval w ex s dep level) as (c & s' & s'' & ex' & _ & ? & ? & ?).
  by exists c, s', s'', ex'.
Qed.

(** [blocksParent]'s traversal terminates on any snapshot, cyclic blockers
    included, and answers whether the parent is reachable along recorded
    blockers. *)
Theorem blocksParent_exact {O} `{Descriptor O} w (s : stateReader (O := O)) id :
  blocksParent w s id = true ↔ rtc (blocked_on s) id w.(Parent).
Proof. exact (blocksParent_spec (λ _ _ _ _ _, CelEvalError) w s id). Qed.

(** ** Witnesses *)

#[export] Instance unit_descriptor : Descriptor () := {|
  ExistenceOnly := λ _, false;
  DiagnosticFor := λ id _, DiagnosticForAbsent id;
|}.

Definition empty_reader : stateReader (O := ()) :=
  mkReader ∅ ∅ ∅ (λ _ _, (None, mkObservation no_info [] false)).
Definition hr_waiter : Waiter := mkWaiter hr_app false false.
Definition no_cel : stateReader (O := ()) → string → NamedResource → option () →
  list Condition → cel_result := λ _ _ _ _ _, CelEvalError.

Lemma levels_refine_witness :
  cl_Message (Classify (λ s, s) no_cel hr_waiter None empty_reader (plain_ref hr_db) DrainForce).1
  = dependencyNotFound.
Proof.
  rewrite (levels_refine (λ s, s) no_cel hr_waiter None empty_reader (plain_ref hr_db)
    DrainCascade DrainForce); [reflexivity|simpl; lia|vm_compute; discriminate].
Defined.
