(* ===== verification/ReadInputs.v ===== *)
(** * The inputs of a read set (pkg/store: capture.go, requirements.go)

    An execution records what it reads as inputs, found again by identity: through the last
    one used, by a scan, or in an index once there are many.  Inputs are pointers, so they
    are handles into a heap; one that a caller owns may be attached over another of its
    identity.  An input also holds the readiness gates the execution requires of it. *)

From S2P Require Import Prelude Search Resource Diagnostic StoreStatus Schedule DepWait.

(** ** Inputs *)

Record readinessGate := mkReadinessGate { expr : option string; g_artifact : bool; g_artifactOnly : bool; g_chartSource : bool; g_materializer : bool }.

#[export] Instance readinessGate_eq_dec : EqDecision readinessGate.
Proof. solve_decision. Defined.

(** [Input], without what captures observe; [initialized] is the bit of [derived]. *)
Record Input := mkInput { Ref : DependencyRef; gate : bool; i_materializer : bool; required : bool; qualification : bool; gates : list readinessGate; initialized : bool }.

Definition zero_id : NamedResource := mkResource "" "" "" "".
Definition blank : Input := mkInput (plain_ref zero_id) false false false false [] false.

(** [ReadSet], as far as it is an index: [inputs] is the linked list and [spare] the blank
    inputs that are left of the last block. *)
Record ReadSet := mkReadSet {
  heap : gmap nat Input; inputs : list nat; last : option nat; byID : option (list nat); capacity : nat; spare : list nat; local : option nat; next : nat;
}.

Definition id_at (r : ReadSet) (h : nat) : option NamedResource := (λ i, i.(Ref).(dep_id)) <$> r.(heap) !! h.

Definition with_last (h : nat) (r : ReadSet) : ReadSet := mkReadSet r.(heap) r.(inputs) (Some h) r.(byID) r.(capacity) r.(spare) r.(local) r.(next).
Definition with_index (l : list nat) (r : ReadSet) : ReadSet := mkReadSet r.(heap) r.(inputs) r.(last) (Some l) r.(capacity) r.(spare) r.(local) r.(next).
Definition write (h : nat) (i : Input) (r : ReadSet) : ReadSet := mkReadSet (<[h := i]> r.(heap)) r.(inputs) r.(last) r.(byID) r.(capacity) r.(spare) r.(local) r.(next).

(** [Init], with the inputs its caller lends; the first becomes spare first last. *)
Definition Init (lent : nat) : ReadSet :=
  let hs := seq 1 lent in
  mkReadSet (list_to_map (map (λ h, (h, blank)) (0 :: hs))) [] None None lent (reverse hs) (Some 0) (S lent).

(** The order of handles by identity. *)
Definition compare_at (r : ReadSet) (a b : nat) : comparison :=
  match id_at r a, id_at r b with Some a, Some b => compare a b | _, _ => Eq end.

Definition target_at (r : ReadSet) (id : NamedResource) (h : nat) : comparison := match id_at r h with Some a => compare a id | None => Eq end.

(** [slices.CompactFunc]: an element equal to the one before it is dropped. *)
Fixpoint compact_from {A} (eq : A → A → bool) (prev : A) (l : list A) : list A :=
  match l with
  | [] => []
  | x :: l => if eq prev x then compact_from eq x l else x :: compact_from eq x l
  end.

Definition CompactFunc {A} (eq : A → A → bool) (l : list A) : list A := match l with [] => [] | x :: l => x :: compact_from eq x l end.

Definition same_id (r : ReadSet) (a b : nat) : bool := bool_decide (id_at r a = id_at r b).

(** [indexInputs]. *)
Definition indexInputs (r : ReadSet) : ReadSet := with_index (CompactFunc (same_id r) (sort_by (compare_at r) r.(inputs))) r.

(** The scan of the linked list. *)
Definition linear (r : ReadSet) (id : NamedResource) : option nat := List.find (λ h, bool_decide (id_at r h = Some id)) r.(inputs).

(** [slices.Insert]. *)
Definition Insert {A} (l : list A) (i : nat) (x : A) : list A := take i l ++ x :: drop i l.

(** The block that [allocateInput] makes when nothing is spare. *)
Definition grow (r : ReadSet) : ReadSet :=
  let capacity := 1 `max` (2 * r.(capacity)) in
  let block := seq r.(next) capacity in
  mkReadSet (list_to_map (map (λ h, (h, blank)) block) ∪ r.(heap)) r.(inputs) r.(last) r.(byID) capacity (reverse block) r.(local) (r.(next) + capacity).

(** The input [allocateInput] takes, and the index to insert it at; [None] is a dereference
    of nothing. *)
Definition take_input (r : ReadSet) (id : NamedResource) (index : nat) : option (ReadSet * nat * nat) :=
  match r.(local) with
  | Some h => Some (mkReadSet r.(heap) r.(inputs) r.(last) r.(byID) r.(capacity) r.(spare) None r.(next), h, index)
  | None =>
      '(r, index) ← match r.(spare) with
        | [] =>
            let r := grow r in
            match r.(byID) with
            | None =>
                if 64 <=? r.(capacity) then
                  let r := indexInputs r in
                  '(i, _) ← BinarySearchFunc (target_at r id) (default [] r.(byID)); Some (r, i)
                else Some (r, index)
            | Some _ => Some (r, index)
            end
        | _ => Some (r, index)
        end;
      match r.(spare) with
      | h :: spare => Some (mkReadSet r.(heap) r.(inputs) r.(last) r.(byID) r.(capacity) spare None r.(next), h, index)
      | [] => None
      end
  end.

(** [allocateInput]. *)
Definition allocateInput (r : ReadSet) (id : NamedResource) (index : nat) : option (ReadSet * nat) :=
  '(r, h, index) ← take_input r id index; i ← r.(heap) !! h;
  let ref := i.(Ref) in
  let i := mkInput (mkRef id ref.(ReadyExpr) ref.(Artifact) ref.(ArtifactOnly) ref.(ChartSource)) i.(gate) i.(i_materializer) i.(required) i.(qualification) i.(gates) true in
  Some (mkReadSet (<[h := i]> r.(heap)) (h :: r.(inputs)) (Some h) ((λ l, Insert l index h) <$> r.(byID)) r.(capacity) r.(spare) r.(local) r.(next), h).

(** [input] past the last one used: in the index, or by a scan. *)
Definition find_or_allocate (r : ReadSet) (id : NamedResource) : option (ReadSet * nat) :=
  match r.(byID) with
  | Some l =>
      '(i, found) ← BinarySearchFunc (target_at r id) l;
      if found : bool then h ← l !! i; Some (with_last h r, h) else allocateInput r id i
  | None => match linear r id with Some h => Some (with_last h r, h) | None => allocateInput r id 0 end
  end.

(** [input]: the input of an identity, made when there is none. *)
Definition input (r : ReadSet) (id : NamedResource) : option (ReadSet * nat) :=
  match r.(last) with
  | Some h => if bool_decide (id_at r h = Some id) then Some (r, h) else find_or_allocate r id
  | None => find_or_allocate r id
  end.

(** [findInput]; the outer [None] is a search that does not end. *)
Definition findInput (r : ReadSet) (id : NamedResource) : option (option nat) :=
  match r.(byID) with
  | Some l => '(i, found) ← BinarySearchFunc (target_at r id) l; Some (if found : bool then l !! i else None)
  | None => Some (linear r id)
  end.

(** [attachInput] of an input its caller owns. *)
Definition attachInput (r : ReadSet) (h : nat) : option ReadSet :=
  i ← r.(heap) !! h;
  if i.(initialized) then Some r
  else
    let id := i.(Ref).(dep_id) in
    let last := match r.(last) with Some l => if bool_decide (id_at r l = Some id) then Some h else Some l | None => None end in
    byID ← match r.(byID) with
      | Some l => '(n, found) ← BinarySearchFunc (target_at r id) l; Some (Some (if found : bool then <[n := h]> l else Insert l n h))
      | None => Some None
      end;
    Some (mkReadSet (<[h := mkInput i.(Ref) i.(gate) i.(i_materializer) i.(required) i.(qualification) i.(gates) true]> r.(heap))
            (h :: r.(inputs)) last byID r.(capacity) r.(spare) r.(local) r.(next)).

(** The blocks that [reserve] counts; a remainder below zero ends the count as zero does. *)
Fixpoint count_allocations (fuel remaining capacity : nat) : nat :=
  match fuel with
  | 0 => 0
  | S fuel => if remaining =? 0 then 0 else let capacity := 1 `max` (2 * capacity) in S (count_allocations fuel (remaining - capacity) capacity)
  end.

(** [reserve]: room for a number of inputs at once, unless one block will do. *)
Definition reserve (r : ReadSet) (count : nat) : ReadSet :=
  let count := count - length r.(spare) in
  let allocations := count_allocations count count r.(capacity) in
  if allocations <=? 1 then r
  else
    let block := seq r.(next) count in
    let r := mkReadSet (list_to_map (map (λ h, (h, blank)) block) ∪ r.(heap)) r.(inputs) r.(last) r.(byID) r.(capacity) (reverse block ++ r.(spare)) r.(local) (r.(next) + count) in
    if bool_decide (r.(byID) = None) && (2 <? allocations) then indexInputs r else r.

(** ** Requirements *)

(** [Gate]. *)
Record Gate := mkGate { g_Ref : DependencyRef; Materializer : bool }.

Definition gate_ref (id : NamedResource) (g : readinessGate) : Gate := mkGate (mkRef id g.(expr) g.(g_artifact) g.(g_artifactOnly) g.(g_chartSource)) g.(g_materializer).
Definition ref_gate (ref : DependencyRef) (materializer : bool) : readinessGate :=
  mkReadinessGate ref.(ReadyExpr) ref.(Artifact) ref.(ArtifactOnly) ref.(ChartSource) materializer.

(** The last loop of [require]: a gate is added unless it is there. *)
Fixpoint add_gate (g : readinessGate) (l : list readinessGate) : list readinessGate :=
  match l with [] => [g] | x :: l => if bool_decide (x = g) then x :: l else x :: add_gate g l end.

(** What [require] does to the input of its identity. *)
Definition require_input (ref : DependencyRef) (materializer : bool) (i : Input) : Input :=
  if negb i.(gate) then mkInput ref true materializer true false i.(gates) i.(initialized)
  else if bool_decide (ref_gate i.(Ref) i.(i_materializer) = ref_gate ref materializer) then mkInput i.(Ref) i.(gate) i.(i_materializer) true false i.(gates) i.(initialized)
  else mkInput i.(Ref) i.(gate) i.(i_materializer) true false (add_gate (ref_gate ref materializer) i.(gates)) i.(initialized).

Definition update (r : ReadSet) (id : NamedResource) (f : Input → Input) : option ReadSet :=
  '(r, h) ← input r id; i ← r.(heap) !! h; Some (write h (f i) r).

Definition require (r : ReadSet) (ref : DependencyRef) (materializer : bool) : option ReadSet := update r ref.(dep_id) (require_input ref materializer).
Definition Require_ (r : ReadSet) (ref : DependencyRef) : option ReadSet := require r ref false.
Definition RequireMaterializer (r : ReadSet) (id : NamedResource) : option ReadSet := require r (plain_ref id) true.

Definition RequireData (r : ReadSet) (id : NamedResource) : option ReadSet :=
  update r id (λ i, mkInput i.(Ref) i.(gate) i.(i_materializer) true false i.(gates) i.(initialized)).
Definition RequireQualification (r : ReadSet) (id : NamedResource) : option ReadSet :=
  update r id (λ i, if i.(required) then i else mkInput i.(Ref) i.(gate) i.(i_materializer) true true i.(gates) i.(initialized)).

(** The gates of an input, in [Gates]. *)
Definition input_gates (i : Input) : list Gate :=
  if i.(gate) then mkGate i.(Ref) i.(i_materializer) :: map (gate_ref i.(Ref).(dep_id)) i.(gates) else [].

Definition Gates (r : ReadSet) : list Gate := concat (map (λ h, match r.(heap) !! h with Some i => input_gates i | None => [] end) r.(inputs)).

(** [Required]: the identities required, and whether only to qualify. *)
Definition Required (r : ReadSet) : list (NamedResource * bool) :=
  concat (map (λ h, match r.(heap) !! h with Some i => if i.(required) then [(i.(Ref).(dep_id), i.(qualification))] else [] | None => [] end) r.(inputs)).

(** ** The index *)

Section index.
Implicit Types (r : ReadSet) (id : NamedResource) (h : nat) (l : list nat).

Lemma find_first {A} (f : A → bool) (k : list A) x : List.find f k = Some x → x ∈ k ∧ f x = true.
Proof. intros H. apply List.find_some in H as [H1 H2]. split; [by apply list_elem_of_In | done]. Qed.

Lemma linear_spec r id h : linear r id = Some h → h ∈ r.(inputs) ∧ id_at r h = Some id.
Proof. intros [Hin Hb]%find_first. by apply bool_decide_eq_true in Hb. Qed.

Lemma linear_none r id : linear r id = None ↔ ∀ h, h ∈ r.(inputs) → id_at r h ≠ Some id.
Proof.
  unfold linear. induction r.(inputs) as [| h hs IH]; cbn; [split; [intros _ h ?%elem_of_nil; done | done] |]. case_bool_decide as Hb.
  - split; [done | intros H; by destruct (H h ltac:(by left))].
  - rewrite IH. split; [intros H k [-> | ?]%elem_of_cons; [done | by apply H] | intros H k Hk; apply H; by right].
Qed.

Lemma linear_ext r r' id : r'.(inputs) = r.(inputs) → (∀ h, h ∈ r.(inputs) → id_at r' h = id_at r h) → linear r' id = linear r id.
Proof.
  unfold linear. intros ->. induction r.(inputs) as [| h hs IH]; intros Hid; [done |]. cbn. rewrite Hid by by left. case_bool_decide; [done |]. apply IH. intros k Hk. apply Hid. by right.
Qed.

Lemma linear_cons r r' id h : r'.(inputs) = h :: r.(inputs) → (∀ k, k ∈ r.(inputs) → id_at r' k = id_at r k) →
  linear r' id = if bool_decide (id_at r' h = Some id) then Some h else linear r id.
Proof.
  intros He Hid. unfold linear at 1. rewrite He. cbn. case_bool_decide; [done |]. unfold linear. clear He. induction r.(inputs) as [| k ks IH]; [done |]. cbn.
  rewrite Hid by by left. case_bool_decide; [done |]. apply IH. intros x Hx. apply Hid. by right.
Qed.

Definition before_at r (a b : nat) : Prop := ∃ x y, id_at r a = Some x ∧ id_at r b = Some y ∧ compare x y = Lt.

(** An index holds, in order, the inputs a scan finds. *)
Definition indexes r l : Prop := StronglySorted (before_at r) l ∧ ∀ h, h ∈ l ↔ ∃ id, linear r id = Some h.

Record wf r : Prop := mkWf {
  w_heap : ∀ h, h ∈ r.(inputs) → ∃ i, r.(heap) !! h = Some i ∧ i.(initialized) = true;
  w_nodup : NoDup r.(inputs);
  w_spare : NoDup r.(spare) ∧ ∀ h, h ∈ r.(spare) → r.(heap) !! h = Some blank ∧ r.(local) ≠ Some h;
  w_local : ∀ h, r.(local) = Some h → r.(heap) !! h = Some blank;
  w_next : ∀ h, is_Some (r.(heap) !! h) → h < r.(next);
  w_last : ∀ h, r.(last) = Some h → ∃ id, linear r id = Some h;
  w_index : ∀ l, r.(byID) = Some l → indexes r l;
}.

Lemma in_heap r h : wf r → h ∈ r.(inputs) → ∃ id, id_at r h = Some id.
Proof. intros Hr Hh. destruct (w_heap _ Hr h Hh) as (i & Hi & _). unfold id_at. rewrite Hi. by eexists. Qed.

Lemma blank_out r h : wf r → r.(heap) !! h = Some blank → h ∉ r.(inputs).
Proof. intros Hr Hb Hin. destruct (w_heap _ Hr h Hin) as (i & Hi & Hini). rewrite Hb in Hi. injection Hi as <-. done. Qed.

Lemma indexes_ext r r' l : r'.(inputs) = r.(inputs) → (∀ h, h ∈ r.(inputs) → id_at r' h = id_at r h) → indexes r l → indexes r' l.
Proof.
  intros He Hid [Hs Hm]. assert (∀ h, h ∈ l → h ∈ r.(inputs)) as Hin by (intros h Hh; apply Hm in Hh as (id & Hl); by apply linear_spec in Hl as [? _]). split.
  - clear Hm. induction Hs as [| a l Hs IH Ha]; [constructor |]. constructor; [apply IH; intros h Hh; apply Hin; by right |].
    apply Forall_forall. intros b Hb. rewrite Forall_forall in Ha. destruct (Ha b Hb) as (x & y & Hx & Hy & Hc). exists x, y. rewrite !Hid; [done | apply Hin; by right | apply Hin; by left].
  - intros h. rewrite Hm. split; intros (id & Hl); exists id; [by rewrite (linear_ext r r') | by rewrite <- (linear_ext r r')].
Qed.

(** *** Searching *)

Lemma sorted_at r l a b x y : StronglySorted (before_at r) l → a < b → l !! a = Some x → l !! b = Some y → before_at r x y.
Proof.
  intros Hs. revert a b. induction Hs as [| h l Hs IH Hh]; intros a b Hab Ha Hb; [done |]. destruct b as [| b]; [lia |]. cbn in Hb. destruct a as [| a].
  - injection Ha as <-. rewrite Forall_forall in Hh. apply Hh. by eapply list_elem_of_lookup_2.
  - cbn in Ha. apply (IH a b); [lia | done | done].
Qed.

Lemma index_searchable r l id : StronglySorted (before_at r) l → searchable (target_at r id) l.
Proof.
  intros Hs a b y z Hab Ha Hb Hc. destruct (sorted_at r l a b y z Hs Hab Ha Hb) as (u & v & Hu & Hv & Huv). unfold target_at in *. rewrite Hv in Hc. rewrite Hu.
  destruct (compare v id) eqn:E; [| | done].
  - apply compare_eq in E. by subst.
  - by eapply compare_lt_trans.
Qed.

(** A search finds the input of an identity, or where it would go. *)
Lemma search_spec r l id : (∀ h, h ∈ l → is_Some (id_at r h)) → StronglySorted (before_at r) l → ∃ i found, BinarySearchFunc (target_at r id) l = Some (i, found) ∧
  if found : bool then ∃ h, l !! i = Some h ∧ id_at r h = Some id
  else (∀ h, h ∈ l → id_at r h ≠ Some id) ∧ (∀ h, h ∈ take i l → target_at r id h = Lt) ∧ (∀ h, h ∈ drop i l → target_at r id h = Gt).
Proof.
  intros Hin Hs. destruct (BinarySearchFunc_position _ _ (index_searchable r l id Hs)) as (i & Hb & Hi & Hbefore & Hafter). eexists i, _. split; [exact Hb |].
  assert (∀ h, h ∈ l → target_at r id h = Eq ↔ id_at r h = Some id) as Hq.
  { intros h Hh. destruct (Hin h Hh) as [x Hx]. unfold target_at. rewrite Hx, compare_eq. split; [by intros -> | by intros [= ->]]. }
  destruct (match l !! i with Some y => bool_decide (target_at r id y = Eq) | None => false end) eqn:Ef.
  - destruct (l !! i) as [h |] eqn:El; [| done]. apply bool_decide_eq_true in Ef. exists h. split; [done |]. apply Hq; [by eapply list_elem_of_lookup_2 | done].
  - assert (∀ h, h ∈ take i l → target_at r id h = Lt) as Ht.
    { intros h [k Hk]%list_elem_of_lookup. apply lookup_take_Some in Hk as [Hk Hki]. by apply (Hbefore k). }
    assert (∀ h, h ∈ drop i l → target_at r id h = Gt) as Hd.
    { intros h [k Hk]%list_elem_of_lookup. rewrite lookup_drop in Hk. assert (target_at r id h ≠ Lt) as Hn by (apply (Hafter (i + k)); [lia | done]).
      assert (target_at r id h ≠ Eq) as Hne; [| by destruct (target_at r id h)]. intros He. destruct k as [| k].
      - rewrite Nat.add_0_r in Hk. rewrite Hk in Ef. by apply bool_decide_eq_false in Ef.
      - destruct (lookup_lt_is_Some_2 l i) as [g Hg]; [apply lookup_lt_Some in Hk; lia |]. apply (Hafter i g (le_n i) Hg). apply (index_searchable r l id Hs i (i + S k) g h); [lia | done | done | by rewrite He]. }
    split; [| done]. intros h Hh He. pose proof (proj2 (Hq h Hh) He) as Hx. rewrite <- (take_drop i l), elem_of_app in Hh. destruct Hh as [Hh | Hh]; [apply Ht in Hh | apply Hd in Hh]; congruence.
Qed.

Lemma index_member r l h id : indexes r l → h ∈ l → id_at r h = Some id → linear r id = Some h.
Proof. intros [_ Hm] Hh Hid. apply Hm in Hh as (id' & Hl). pose proof (linear_spec _ _ _ Hl) as [_ Hid']. congruence. Qed.

Lemma index_search r l id : wf r → indexes r l → ∃ i found, BinarySearchFunc (target_at r id) l = Some (i, found) ∧
  if found : bool then ∃ h, l !! i = Some h ∧ linear r id = Some h
  else linear r id = None ∧ (∀ h, h ∈ take i l → target_at r id h = Lt) ∧ (∀ h, h ∈ drop i l → target_at r id h = Gt).
Proof.
  intros Hr Hx. pose proof Hx as [Hs Hm].
  destruct (search_spec r l id) as (i & found & Hb & Hf); [| done |].
  { intros h (id' & Hl)%Hm. apply linear_spec in Hl as [_ ->]. by eexists. }
  exists i, found. split; [done |]. destruct found.
  - destruct Hf as (h & Hh & Hid). exists h. split; [done |]. eapply index_member; [done | by eapply list_elem_of_lookup_2 | done].
  - destruct Hf as (Hn & ? & ?). split; [| done]. destruct (linear r id) as [h |] eqn:El; [| done]. exfalso. apply (Hn h); [apply Hm; by exists id | apply (linear_spec _ _ _ El)].
Qed.

(** Every way to find an input agrees with the scan. *)
Lemma findInput_spec r id : wf r → findInput r id = Some (linear r id).
Proof.
  intros Hr. unfold findInput. destruct (byID r) as [l |] eqn:El; [| done]. destruct (index_search r l id Hr (w_index _ Hr l El)) as (i & found & -> & Hf). cbn [mbind option_bind].
  destruct found; [destruct Hf as (h & -> & ->); done | by destruct Hf as [-> _]].
Qed.
End index.

(** *** Making the index *)

Section indexing.
Implicit Types (r : ReadSet) (id : NamedResource) (h : nat) (l : list nat).

Lemma sort_by_ext {A} (f g : A → A → comparison) (l : list A) : (∀ a b, a ∈ l → b ∈ l → f a b = g a b) → sort_by f l = sort_by g l.
Proof.
  assert (∀ (x : A) k, (∀ b, b ∈ k → f x b = g x b) → insert_by f x k = insert_by g x k) as Hins.
  { intros x k. induction k as [| y k IH]; intros Hk; [done |]. cbn. rewrite Hk by by left. destruct (g x y); [done | done |]. rewrite IH; [done |]. intros b Hb. apply Hk. by right. }
  induction l as [| x l IH]; intros Hl; [done |]. cbn. rewrite IH by (intros a b Ha Hb; apply Hl; by right). apply Hins. intros b Hb. rewrite elem_of_sort_by in Hb. apply Hl; [by left | by right].
Qed.

Lemma find_filter {A} (Q : A → Prop) `{∀ x, Decision (Q x)} (l : list A) : List.find (λ x, bool_decide (Q x)) l = head (filter Q l).
Proof. induction l as [| x l IH]; [done |]. cbn [List.find]. rewrite filter_cons. case_bool_decide as Hx; [by rewrite decide_True | by rewrite decide_False]. Qed.

Definition key r h : NamedResource := default zero_id (id_at r h).
Definition weakly r (a b : nat) : Prop := compare (key r a) (key r b) ≠ Gt.

Lemma key_at r h id : id_at r h = Some id → key r h = id.
Proof. unfold key. by intros ->. Qed.

Lemma before_key r a b : is_Some (id_at r a) → is_Some (id_at r b) → before_at r a b ↔ compare (key r a) (key r b) = Lt.
Proof.
  intros [x Hx] [y Hy]. rewrite (key_at _ _ _ Hx), (key_at _ _ _ Hy). split; [intros (u & v & Hu & Hv & Hc); congruence | intros Hc; by exists x, y].
Qed.

Lemma same_id_key r a b : is_Some (id_at r a) → is_Some (id_at r b) → same_id r a b = true ↔ key r a = key r b.
Proof. intros [x Hx] [y Hy]. unfold same_id. rewrite bool_decide_eq_true, (key_at _ _ _ Hx), (key_at _ _ _ Hy), Hx, Hy. split; [by intros [= ->] | by intros ->]. Qed.

Lemma before_trans r a b c : before_at r a b → before_at r b c → before_at r a c.
Proof. intros (x & y & Hx & Hy & H1) (y' & z & Hy' & Hz & H2). exists x, z. split; [done |]. split; [done |]. assert (y' = y) as -> by congruence. by eapply compare_lt_trans. Qed.

Lemma compact_from_spec r l : ∀ prev, (∀ h, h ∈ prev :: l → is_Some (id_at r h)) → StronglySorted (weakly r) (prev :: l) →
  StronglySorted (before_at r) (compact_from (same_id r) prev l) ∧ Forall (before_at r prev) (compact_from (same_id r) prev l) ∧
  ∀ h, h ∈ compact_from (same_id r) prev l ↔ ∃ id, id_at r prev ≠ Some id ∧ List.find (λ h, bool_decide (id_at r h = Some id)) l = Some h.
Proof.
  induction l as [| x l IH]; intros prev Hin Hs.
  { cbn. split; [constructor |]. split; [constructor |]. intros h. split; [by intros ?%elem_of_nil | by intros (? & _ & ?)]. }
  assert (is_Some (id_at r prev)) as Hp by (apply Hin; by left). assert (is_Some (id_at r x)) as Hx by (apply Hin; right; by left).
  apply StronglySorted_inv in Hs as [Hs Hw]. rewrite Forall_forall in Hw. pose proof (Hw x ltac:(by left)) as Hpx.
  destruct (IH x) as (H1 & H2 & H3); [intros h Hh; apply Hin; by right | done |]. cbn [compact_from List.find].
  destruct (same_id r prev x) eqn:Es.
  - pose proof Es as Hk. apply same_id_key in Hk; [| done..]. assert (id_at r prev = id_at r x) as He by (unfold same_id in Es; by apply bool_decide_eq_true in Es).
    split; [done |]. split.
    + eapply Forall_impl; [exact H2 |]. intros h (u & v & Hu & Hv & Hc). exists u, v. by rewrite He.
    + intros h. rewrite H3, He. split; intros (id & Hn & Hf); exists id; (split; [done |]); by rewrite bool_decide_false in *.
  - assert (before_at r prev x) as Hb.
    { apply before_key; [done..|]. destruct (compare (key r prev) (key r x)) eqn:Ec; [| done | by destruct Hpx]. apply compare_eq in Ec. apply same_id_key in Ec; [congruence | done..]. }
    split; [by constructor |]. split.
    + constructor; [done |]. eapply Forall_impl; [exact H2 |]. intros h Hh. by eapply before_trans.
    + intros h. rewrite elem_of_cons, H3. destruct Hb as (u & v & Hu & Hv & Hc). split.
      * intros [-> | (id & Hn & Hf)].
        -- exists v. split; [intros Hv'; assert (u = v) as -> by congruence; by rewrite compare_refl in Hc |]. by rewrite bool_decide_true.
        -- exists id. rewrite bool_decide_false by done. split; [| done]. intros Hp'. apply find_first in Hf as Hf'. destruct Hf' as [Hin' Hid]. apply bool_decide_eq_true in Hid.
           assert (u = id) as -> by congruence. assert (weakly r x h) as Hxh.
           { apply StronglySorted_inv in Hs as [_ Hs]. rewrite Forall_forall in Hs. by apply Hs. }
           unfold weakly in Hxh. rewrite (key_at _ _ _ Hv), (key_at _ _ _ Hid) in Hxh. apply Hxh. by rewrite (compare_opp id v), Hc.
      * intros (id & Hn & Hf). case_bool_decide as Hid; [injection Hf as ->; by left | right]. by exists id.
Qed.

Lemma CompactFunc_spec r l : (∀ h, h ∈ l → is_Some (id_at r h)) → StronglySorted (weakly r) l →
  StronglySorted (before_at r) (CompactFunc (same_id r) l) ∧ ∀ h, h ∈ CompactFunc (same_id r) l ↔ ∃ id, List.find (λ h, bool_decide (id_at r h = Some id)) l = Some h.
Proof.
  destruct l as [| x l]; intros Hin Hs.
  { cbn. split; [constructor |]. intros h. split; [by intros ?%elem_of_nil | by intros [? ?]]. }
  destruct (compact_from_spec r l x Hin Hs) as (H1 & H2 & H3). cbn [CompactFunc List.find]. split; [by constructor |]. intros h. rewrite elem_of_cons, H3. destruct (Hin x ltac:(by left)) as [v Hv]. split.
  - intros [-> | (id & Hn & Hf)]; [exists v; by rewrite bool_decide_true | exists id; by rewrite bool_decide_false].
  - intros (id & Hf). case_bool_decide as Hid; [injection Hf as ->; by left | right; by exists id].
Qed.

(** A new index has what the scan finds: of the inputs of an identity, the last attached. *)
Lemma indexInputs_spec r : (∀ h, h ∈ r.(inputs) → is_Some (id_at r h)) → ∃ l, indexInputs r = with_index l r ∧ indexes r l.
Proof.
  intros Hin. eexists. split; [reflexivity |]. set (k := sort_by (compare_at r) (inputs r)).
  assert (k = sort_by (λ a b, compare (key r a) (key r b)) (inputs r)) as Hk.
  { apply sort_by_ext. intros a b Ha Hb. unfold compare_at. destruct (Hin a Ha) as [x Hx], (Hin b Hb) as [y Hy]. by rewrite Hx, Hy, (key_at _ _ _ Hx), (key_at _ _ _ Hy). }
  destruct (CompactFunc_spec r k) as [Hs Hm].
  - intros h Hh. apply Hin. unfold k in Hh. by rewrite elem_of_sort_by in Hh.
  - apply Sorted_StronglySorted.
    + intros a b c Hab Hbc. unfold weakly in *. by eapply (transitivity (R := cmp_le)).
    + rewrite Hk. apply (sort_by_sorted (λ a b, compare (key r a) (key r b))). intros a b. apply compare_gt_flip.
  - split; [done |]. intros h. rewrite Hm. split; intros (id & Hf); exists id; rewrite <- Hf; unfold linear; rewrite !find_filter; f_equal; unfold k.
    + symmetry. apply sort_by_stable. intros a b Ha Hb. unfold compare_at. by rewrite Ha, Hb, compare_refl.
    + apply sort_by_stable. intros a b Ha Hb. unfold compare_at. by rewrite Ha, Hb, compare_refl.
Qed.

Lemma Insert_elem {A} (l : list A) i x y : y ∈ Insert l i x ↔ y = x ∨ y ∈ l.
Proof. unfold Insert. rewrite elem_of_app, elem_of_cons. rewrite <- (take_drop i l) at 3. rewrite elem_of_app. tauto. Qed.

Lemma Insert_sorted {A} (R : A → A → Prop) (l : list A) i x : StronglySorted R l → (∀ y, y ∈ take i l → R y x) → (∀ y, y ∈ drop i l → R x y) → StronglySorted R (Insert l i x).
Proof.
  unfold Insert. revert i. induction l as [| y l IH]; intros i Hs Ht Hd.
  { rewrite take_nil, drop_nil. cbn. repeat constructor. }
  apply StronglySorted_inv in Hs as [Hs Hy]. destruct i as [| i]; cbn [take drop app] in *.
  - constructor; [by constructor |]. apply Forall_forall. intros z Hz. by apply Hd.
  - constructor; [apply IH; [done | intros z Hz; apply Ht; by right | done] |]. apply Forall_forall. intros z Hz. change (z ∈ Insert l i x) in Hz. apply Insert_elem in Hz as [-> | Hz]; [apply Ht; by left |].
    rewrite Forall_forall in Hy. by apply Hy.
Qed.
End indexing.

(** *** Attaching and allocating *)

Section attaching.
Implicit Types (r : ReadSet) (id : NamedResource) (h k : nat) (l : list nat).

Lemma sorted_of_lookup {A} (R : A → A → Prop) (l : list A) : (∀ a b x y, a < b → l !! a = Some x → l !! b = Some y → R x y) → StronglySorted R l.
Proof.
  induction l as [| z l IH]; intros Hl; [constructor |]. constructor; [apply IH; intros a b x y Hab Ha Hb; apply (Hl (S a) (S b)); [lia | done | done] |].
  apply Forall_forall. intros y [b Hb]%list_elem_of_lookup. apply (Hl 0 (S b)); [lia | done | done].
Qed.

(** The index after an input of an identity is attached: inserted, or over the one before. *)
Definition index_after r id h l l' : Prop := ∃ n,
  linear r id = None ∧ (∀ k, k ∈ take n l → target_at r id k = Lt) ∧ (∀ k, k ∈ drop n l → target_at r id k = Gt) ∧ l' = Insert l n h ∨
  ∃ k, l !! n = Some k ∧ linear r id = Some k ∧ l' = <[n := h]> l.

Lemma attach_indexes r r' id h l l' : wf r → indexes r l → index_after r id h l l' → id_at r' h = Some id → (∀ k, k ∈ r.(inputs) → id_at r' k = id_at r k) → r'.(inputs) = h :: r.(inputs) → h ∉ r.(inputs) →
  indexes r' l'.
Proof.
  intros Hr [Hs Hm] Hafter Hh Hid Hin Hnew.
  assert (∀ id', linear r' id' = if bool_decide (id' = id) then Some h else linear r id') as Hl.
  { intros id'. rewrite (linear_cons r r' id' h) by done. rewrite Hh. by rewrite (bool_decide_ext (Some id = Some id') (id' = id)) by (split; [by intros [= ->] | by intros ->]). }
  assert (∀ k, k ∈ l → k ∈ r.(inputs)) as Hli by (intros k (id' & Hk)%Hm; by apply linear_spec in Hk as [? _]).
  assert (∀ a b, a ∈ l → b ∈ l → before_at r a b → before_at r' a b) as Hb by (intros a b Ha Hb (x & y & Hx & Hy & Hc); exists x, y; rewrite !Hid by auto; done).
  destruct Hafter as (n & [(Hn & Ht & Hd & ->) | (k & Hk & Hlk & ->)]).
  - assert (∀ a, a ∈ l → is_Some (id_at r a)) as Hsome by (intros a Ha; destruct (in_heap r a Hr (Hli a Ha)) as [x Hx]; by exists x). split.
    + apply Insert_sorted.
      * apply sorted_of_lookup. intros a b x y Hab Hx Hy. apply Hb; [by eapply list_elem_of_lookup_2.. | by eapply (sorted_at r l a b)].
      * intros y Hy. assert (y ∈ l) as Hyl by (rewrite <- (take_drop n l), elem_of_app; by left). destruct (Hsome y Hyl) as [x Hx]. exists x, id. rewrite (Hid y (Hli y Hyl)).
        specialize (Ht y Hy). unfold target_at in Ht. rewrite Hx in Ht. done.
      * intros y Hy. assert (y ∈ l) as Hyl by (rewrite <- (take_drop n l), elem_of_app; by right). destruct (Hsome y Hyl) as [x Hx]. exists id, x. rewrite (Hid y (Hli y Hyl)).
        specialize (Hd y Hy). unfold target_at in Hd. rewrite Hx in Hd. split; [done |]. split; [done |]. by rewrite (compare_opp x id), Hd.
    + intros x. rewrite Insert_elem, Hm. split.
      * intros [-> | (id' & Hx)]; [exists id; by rewrite Hl, bool_decide_true | exists id'; rewrite Hl, bool_decide_false; [done | intros ->; congruence]].
      * intros (id' & Hx). rewrite Hl in Hx. case_bool_decide; [injection Hx as ->; by left | right; by exists id'].
  - assert (n < length l) as Hlen by (by apply lookup_lt_Some in Hk). pose proof (linear_spec _ _ _ Hlk) as [_ Hidk]. split.
    + apply sorted_of_lookup. intros a b x y Hab Hx Hy. destruct (decide (a = n)) as [-> | Ha], (decide (b = n)) as [-> | Hbn]; [lia | | |].
      * rewrite list_lookup_insert_eq in Hx by done. injection Hx as <-. rewrite list_lookup_insert_ne in Hy by done. destruct (sorted_at r l n b k y Hs Hab Hk Hy) as (u & v & Hu & Hv & Hc).
        exists id, v. rewrite (Hid y) by (apply Hli; by eapply list_elem_of_lookup_2). split; [done |]. split; [done |]. congruence.
      * rewrite list_lookup_insert_eq in Hy by done. injection Hy as <-. rewrite list_lookup_insert_ne in Hx by done. destruct (sorted_at r l a n x k Hs Hab Hx Hk) as (u & v & Hu & Hv & Hc).
        exists u, id. rewrite (Hid x) by (apply Hli; by eapply list_elem_of_lookup_2). split; [done |]. split; [done |]. congruence.
      * rewrite list_lookup_insert_ne in Hx, Hy by done. apply Hb; [by eapply list_elem_of_lookup_2.. | by eapply (sorted_at r l a b)].
    + intros x. split.
      * intros [j Hj]%list_elem_of_lookup. destruct (decide (j = n)) as [-> | Hjn].
        -- rewrite list_lookup_insert_eq in Hj by done. injection Hj as <-. exists id. by rewrite Hl, bool_decide_true.
        -- rewrite list_lookup_insert_ne in Hj by done. assert (x ∈ l) as Hx by by eapply list_elem_of_lookup_2. apply Hm in Hx as (id' & Hx). exists id'. rewrite Hl, bool_decide_false; [done |].
           intros ->. assert (x = k) as -> by congruence. destruct (decide (j < n)) as [Hlt | Hge].
           ++ destruct (sorted_at r l j n k k Hs Hlt Hj Hk) as (u & v & Hu & Hv & Hc). assert (u = v) as -> by congruence. by rewrite compare_refl in Hc.
           ++ destruct (sorted_at r l n j k k Hs ltac:(lia) Hk Hj) as (u & v & Hu & Hv & Hc). assert (u = v) as -> by congruence. by rewrite compare_refl in Hc.
      * intros (id' & Hx). rewrite Hl in Hx. case_bool_decide as He.
        -- injection Hx as <-. apply list_elem_of_lookup. exists n. by apply list_lookup_insert_eq.
        -- assert (x ∈ l) as Hxl by (apply Hm; by exists id'). apply list_elem_of_lookup in Hxl as [j Hj]. apply list_elem_of_lookup. exists j. rewrite list_lookup_insert_ne; [done |]. intros ->.
           assert (x = k) as -> by congruence. apply linear_spec in Hx as [_ Hx]. congruence.
Qed.

(** What attaching an input gives: it is found from now on, and every other as before. *)
Definition attached r r' id h : Prop := wf r' ∧ r'.(inputs) = h :: r.(inputs) ∧ id_at r' h = Some id ∧
  (∀ k, k ∈ r.(inputs) → r'.(heap) !! k = r.(heap) !! k) ∧ ∀ id', linear r' id' = if bool_decide (id' = id) then Some h else linear r id'.

Lemma attach_wf r r' id h i : wf r → h ∉ r.(inputs) → r'.(heap) = <[h := i]> r.(heap) → i.(Ref).(dep_id) = id → i.(initialized) = true → r'.(inputs) = h :: r.(inputs) →
  r'.(spare) = r.(spare) → h ∉ r.(spare) → r'.(local) = r.(local) → r.(local) ≠ Some h → r'.(next) = r.(next) → h < r.(next) →
  (∀ k, r'.(last) = Some k → k = h ∨ r.(last) = Some k ∧ id_at r k ≠ Some id) →
  (∀ l', r'.(byID) = Some l' → ∃ l, r.(byID) = Some l ∧ index_after r id h l l') → attached r r' id h.
Proof.
  intros Hr Hnew Hheap Hi Hini Hin Hsp Hnsp Hlo Hnlo Hnx Hlt Hla Hix.
  assert (id_at r' h = Some id) as Hh by (unfold id_at; rewrite Hheap, lookup_insert_eq; cbn; by rewrite Hi).
  assert (∀ k, k ≠ h → r'.(heap) !! k = r.(heap) !! k) as Hother by (intros k Hk; rewrite Hheap; by apply lookup_insert_ne).
  assert (∀ k, k ∈ r.(inputs) → k ≠ h) as Hne by (by intros k Hk ->).
  assert (∀ k, k ∈ r.(inputs) → id_at r' k = id_at r k) as Hid by (intros k Hk; unfold id_at; by rewrite Hother by auto).
  assert (∀ id', linear r' id' = if bool_decide (id' = id) then Some h else linear r id') as Hl.
  { intros id'. rewrite (linear_cons r r' id' h) by done. rewrite Hh. by rewrite (bool_decide_ext (Some id = Some id') (id' = id)) by (split; [by intros [= ->] | by intros ->]). }
  destruct (w_spare _ Hr) as [Hsd Hsb]. split; [| split; [done |]; split; [done |]; split; [intros k Hk; apply Hother; auto | done]]. split.
  - intros k. rewrite Hin, elem_of_cons. intros [-> | Hk]; [exists i; by rewrite Hheap, lookup_insert_eq | rewrite Hother by auto; by apply (w_heap _ Hr)].
  - rewrite Hin. apply NoDup_cons. split; [done | apply (w_nodup _ Hr)].
  - rewrite Hsp, Hlo. split; [done |]. intros k Hk. rewrite Hother by (by intros ->). by apply Hsb.
  - rewrite Hlo. intros k Hk. rewrite Hother by congruence. by apply (w_local _ Hr).
  - intros k. rewrite Hheap, Hnx. destruct (decide (k = h)) as [-> | Hk]; [done |]. rewrite lookup_insert_ne by done. apply (w_next _ Hr).
  - intros k Hk. destruct (Hla k Hk) as [-> | [Hk' Hidk]]; [exists id; by rewrite Hl, bool_decide_true |]. destruct (w_last _ Hr k Hk') as (id' & Hid'). exists id'. rewrite Hl, bool_decide_false; [done |].
    intros ->. apply linear_spec in Hid' as [_ ?]. congruence.
  - intros l' Hl'. destruct (Hix l' Hl') as (l & Hbl & Ha). exact (attach_indexes r r' id h l l' Hr (w_index _ Hr l Hbl) Ha Hh Hid Hin Hnew).
Qed.

(** Attaching an input of the caller's. *)
Lemma attachInput_spec r h i : wf r → r.(heap) !! h = Some i → i.(initialized) = false → h ∉ r.(spare) → r.(local) ≠ Some h →
  ∃ r', attachInput r h = Some r' ∧ attached r r' i.(Ref).(dep_id) h.
Proof.
  intros Hr Hh Hi Hs Hlo. assert (h ∉ r.(inputs)) as Hnew by (intros Hin; destruct (w_heap _ Hr h Hin) as (i' & Hi' & Hini); congruence).
  unfold attachInput. rewrite Hh. cbn [mbind option_bind]. rewrite Hi. set (id := dep_id (Ref i)). set (la := match last r with Some l => _ | None => _ end).
  assert (∀ k, la = Some k → k = h ∨ r.(last) = Some k ∧ id_at r k ≠ Some id) as Hla.
  { intros k. unfold la. destruct (last r) as [x |]; [| done]. case_bool_decide as Hx; intros [= <-]; [by left | by right]. }
  set (i' := mkInput _ _ _ _ _ _ true). destruct (byID r) as [l |] eqn:El.
  - destruct (index_search r l id Hr (w_index _ Hr l El)) as (n & found & -> & Hf). cbn [mbind option_bind]. eexists. split; [reflexivity |].
    eapply (attach_wf r _ id h i'); try done; [by apply (w_next _ Hr); exists i |]. cbn [byID]. intros l' [= <-]. exists l. split; [done |]. exists n. destruct found.
    + right. destruct Hf as (k & Hk & Hl). by exists k.
    + left. destruct Hf as (? & ? & ?). done.
  - cbn [mbind option_bind]. eexists. split; [reflexivity |]. eapply (attach_wf r _ id h i'); try done. by apply (w_next _ Hr); exists i.
Qed.
End attaching.

(** *** Allocating *)

Section allocating.
Implicit Types (r : ReadSet) (id : NamedResource) (h k : nat) (l : list nat).

Lemma blanks_lookup (hs : list nat) k : (list_to_map (map (λ h, (h, blank)) hs) : gmap nat Input) !! k = if bool_decide (k ∈ hs) then Some blank else None.
Proof.
  induction hs as [| h hs IH]; [done |]. cbn [map list_to_map foldr fst snd]. destruct (decide (k = h)) as [-> | Hk].
  - rewrite lookup_insert_eq, bool_decide_true; [done | by left].
  - rewrite lookup_insert_ne by done. rewrite IH. by rewrite (bool_decide_ext (k ∈ h :: hs) (k ∈ hs)) by (rewrite elem_of_cons; tauto).
Qed.

Lemma wf_frame r r' : wf r → r'.(inputs) = r.(inputs) → (∀ k, is_Some (r.(heap) !! k) → r'.(heap) !! k = r.(heap) !! k) →
  (NoDup r'.(spare) ∧ ∀ h, h ∈ r'.(spare) → r'.(heap) !! h = Some blank ∧ r'.(local) ≠ Some h) → (∀ h, r'.(local) = Some h → r'.(heap) !! h = Some blank) →
  (∀ h, is_Some (r'.(heap) !! h) → h < r'.(next)) → r'.(last) = r.(last) → (∀ l, r'.(byID) = Some l → r.(byID) = Some l ∨ indexes r l) → wf r'.
Proof.
  intros Hr Hin Hheap Hs Hlo Hn Hla Hix. assert (∀ k, k ∈ r.(inputs) → r'.(heap) !! k = r.(heap) !! k) as Hk.
  { intros k Hk. destruct (w_heap _ Hr k Hk) as (i & Hi & _). apply Hheap. by exists i. }
  assert (∀ k, k ∈ r.(inputs) → id_at r' k = id_at r k) as Hid by (intros k Hk'; unfold id_at; by rewrite Hk).
  split; try done.
  - intros k. rewrite Hin. intros Hk'. rewrite Hk by done. by apply (w_heap _ Hr).
  - rewrite Hin. apply (w_nodup _ Hr).
  - intros h. rewrite Hla. intros (id & Hl)%(w_last _ Hr). exists id. by rewrite (linear_ext r r').
  - intros l Hl. apply (indexes_ext r); [done | done |]. destruct (Hix l Hl) as [Hb | ?]; [by apply (w_index _ Hr) | done].
Qed.

Lemma linear_frame r r' id : wf r → r'.(inputs) = r.(inputs) → (∀ k, is_Some (r.(heap) !! k) → r'.(heap) !! k = r.(heap) !! k) → linear r' id = linear r id.
Proof.
  intros Hr Hin Hheap. apply linear_ext; [done |]. intros k Hk. unfold id_at. rewrite Hheap; [done |]. destruct (w_heap _ Hr k Hk) as (i & Hi & _). by exists i.
Qed.

(** Where an input of an identity would go in the index, if there is one. *)
Definition placed r id n : Prop := ∀ l, r.(byID) = Some l → (∀ k, k ∈ take n l → target_at r id k = Lt) ∧ ∀ k, k ∈ drop n l → target_at r id k = Gt.

Lemma placed_frame r r' id n : wf r → r'.(byID) = r.(byID) → (∀ k, is_Some (r.(heap) !! k) → r'.(heap) !! k = r.(heap) !! k) → placed r id n → placed r' id n.
Proof.
  intros Hr Hb Hheap Hp l Hl. rewrite Hb in Hl. destruct (Hp l Hl) as [Ht Hd]. destruct (w_index _ Hr l Hl) as [_ Hm].
  assert (∀ k, k ∈ l → target_at r' id k = target_at r id k) as He.
  { intros k (id' & Hk)%Hm. apply linear_spec in Hk as [Hk _]. destruct (w_heap _ Hr k Hk) as (i & Hi & _). unfold target_at, id_at. rewrite Hheap; [done | by exists i]. }
  split; intros k Hk; rewrite He; auto; rewrite <- (take_drop n l), elem_of_app; [by left | by right].
Qed.

(** A block of blank inputs past every handle. *)
Lemma block_spec r c : wf r → let heap' := list_to_map (map (λ h, (h, blank)) (seq r.(next) c)) ∪ r.(heap) in
  (∀ k, is_Some (r.(heap) !! k) → heap' !! k = r.(heap) !! k) ∧ ∀ k, k ∈ seq r.(next) c → heap' !! k = Some blank.
Proof.
  intros Hr. cbn zeta. assert (∀ k, (list_to_map (map (λ h, (h, blank)) (seq (next r) c)) ∪ heap r) !! k = if bool_decide (k ∈ seq (next r) c) then Some blank else heap r !! k) as Hl.
  { intros k. rewrite lookup_union, blanks_lookup. destruct (bool_decide (k ∈ seq (next r) c)); by destruct (heap r !! k). }
  split; intros k Hk; rewrite Hl; [rewrite bool_decide_false; [done |] | by rewrite bool_decide_true]. rewrite elem_of_seq. apply (w_next _ Hr) in Hk. lia.
Qed.

Lemma block_below r c : wf r → ∀ k, is_Some ((list_to_map (map (λ h, (h, blank)) (seq r.(next) c)) ∪ r.(heap)) !! k) → k < r.(next) + c.
Proof.
  intros Hr k. rewrite lookup_union, blanks_lookup. case_bool_decide as Hk; [apply elem_of_seq in Hk; lia |]. rewrite (left_id None (∪)). intros Hk'%(w_next _ Hr). lia.
Qed.

Lemma with_index_wf r l : wf r → indexes r l → wf (with_index l r).
Proof. intros Hr Hl. apply (wf_frame r); cbn [with_index heap inputs last byID spare local next]; try done; [apply (w_spare _ Hr) | apply (w_local _ Hr) | apply (w_next _ Hr) |]. intros l' [= <-]. by right. Qed.

Lemma grow_spec r : wf r → r.(local) = None → wf (grow r) ∧ (∀ k, is_Some (r.(heap) !! k) → (grow r).(heap) !! k = r.(heap) !! k) ∧ (grow r).(spare) ≠ [].
Proof.
  intros Hr Hlo. unfold grow. set (c := 1 `max` (2 * capacity r)). destruct (block_spec r c Hr) as [Hheap Hnew]. split; [| split; [done |]].
  - apply (wf_frame r); cbn [heap inputs last byID spare local next]; try done; [| by rewrite Hlo | by apply block_below | by intros l; left].
    split; [rewrite reverse_Permutation; apply NoDup_seq |]. intros h Hh. rewrite elem_of_reverse in Hh. rewrite Hlo. by split; [apply Hnew |].
  - cbn [spare]. intros He. apply (f_equal length) in He. rewrite length_reverse, length_seq in He. cbn in He. unfold c in He. lia.
Qed.

Lemma take_input_spec r id n : wf r → linear r id = None → placed r id n →
  ∃ r' h n', take_input r id n = Some (r', h, n') ∧ wf r' ∧ r'.(inputs) = r.(inputs) ∧ r'.(heap) !! h = Some blank ∧ h ∉ r'.(spare) ∧ r'.(local) = None ∧ placed r' id n' ∧
    ∀ k, is_Some (r.(heap) !! k) → r'.(heap) !! k = r.(heap) !! k.
Proof.
  intros Hr Hl Hp. unfold take_input. destruct (local r) as [h |] eqn:Elo.
  { eexists _, h, n. split; [reflexivity |]. pose proof (w_local _ Hr h Elo) as Hb. destruct (w_spare _ Hr) as [Hsd Hsb].
    split; [| cbn [inputs heap spare local]; split_and!; [done | done | | done | by eapply placed_frame | done]].
    - apply (wf_frame r); cbn [heap inputs last byID spare local next]; try done; [| apply (w_next _ Hr) | by intros l; left]. split; [done |]. intros k Hk. by destruct (Hsb k Hk).
    - intros Hin. by destruct (Hsb h Hin). }
  assert (∀ r0 n0, wf r0 → r0.(local) = None → r0.(inputs) = r.(inputs) → r0.(spare) ≠ [] → placed r0 id n0 → (∀ k, is_Some (r.(heap) !! k) → r0.(heap) !! k = r.(heap) !! k) →
    ∃ r' h n', match r0.(spare) with h :: spare => Some (mkReadSet r0.(heap) r0.(inputs) r0.(last) r0.(byID) r0.(capacity) spare None r0.(next), h, n0) | [] => None end = Some (r', h, n') ∧
      wf r' ∧ r'.(inputs) = r.(inputs) ∧ r'.(heap) !! h = Some blank ∧ h ∉ r'.(spare) ∧ r'.(local) = None ∧ placed r' id n' ∧ ∀ k, is_Some (r.(heap) !! k) → r'.(heap) !! k = r.(heap) !! k) as Hfin.
  { intros r0 n0 Hr0 Hlo0 Hin0 Hne Hp0 Hh0. destruct (spare r0) as [| h sp] eqn:Es; [done |]. eexists _, h, n0. split; [reflexivity |]. destruct (w_spare _ Hr0) as [Hsd Hsb]. rewrite Es in Hsd, Hsb. apply NoDup_cons in Hsd as [Hnh Hsd].
    split; [| cbn [inputs heap spare local]; split_and!; [done | by apply Hsb; left | done | done | by eapply placed_frame | done]].
    apply (wf_frame r0); cbn [heap inputs last byID spare local next]; try done; [| apply (w_next _ Hr0) | by intros l; left]. split; [done |]. intros k Hk. split; [apply Hsb; by right | done]. }
  destruct (spare r) as [| h sp] eqn:Es.
  2: { cbn [mbind option_bind]. rewrite Es. specialize (Hfin r n Hr Elo eq_refl ltac:(by rewrite Es) Hp ltac:(done)). by rewrite Es in Hfin. }
  destruct (grow_spec r Hr Elo) as (Hg & Hgh & Hgs). assert (linear (grow r) id = None) as Hgl by (rewrite (linear_frame r); done).
  cbn zeta. change (byID (grow r)) with (byID r). destruct (byID r) as [l |] eqn:Eb.
  - cbn [mbind option_bind]. apply (Hfin (grow r) n); try done. apply (placed_frame r); done.
  - destruct (64 <=? capacity (grow r)); [| cbn [mbind option_bind]; apply (Hfin (grow r) n); try done; by intros l Hl'; cbn in Hl'; rewrite Eb in Hl'].
    destruct (indexInputs_spec (grow r)) as (l & Hix & Hil); [intros h Hh; destruct (in_heap _ h Hg Hh) as [x Hx]; by exists x |]. rewrite Hix.
    assert (wf (with_index l (grow r))) as Hw by by apply with_index_wf.
    assert (indexes (with_index l (grow r)) l) as Hil' by (apply (w_index _ Hw); done).
    change (default [] (byID (with_index l (grow r)))) with l.
    destruct (index_search (with_index l (grow r)) l id Hw Hil') as (i & found & -> & Hf). cbn [mbind option_bind].
    change (linear (with_index l (grow r)) id) with (linear (grow r) id) in Hf. rewrite Hgl in Hf.
    apply (Hfin (with_index l (grow r)) i); try done. destruct found; [by destruct Hf as (? & _ & ?) |]. destruct Hf as (_ & ? & ?). intros l' Hl'. injection Hl' as <-. done.
Qed.

(** An allocated input is blank but for its identity. *)
Lemma allocateInput_spec r id n : wf r → linear r id = None → placed r id n →
  ∃ r' h, allocateInput r id n = Some (r', h) ∧ attached r r' id h ∧ r'.(last) = Some h ∧ r'.(heap) !! h = Some (mkInput (plain_ref id) false false false false [] true).
Proof.
  intros Hr Hl Hp. destruct (take_input_spec r id n Hr Hl Hp) as (r0 & h & n0 & He & Hr0 & Hin & Hb & Hs & Hlo & Hp0 & Hh). unfold allocateInput. rewrite He. cbn [mbind option_bind]. rewrite Hb. cbn [mbind option_bind].
  eexists _, h. split; [reflexivity |]. split; [| split; [done | apply lookup_insert_eq]].
  assert (∀ id', linear r0 id' = linear r id') as Hlr by (intros id'; by apply linear_frame).
  set (r' := mkReadSet _ _ _ _ _ _ _ _). assert (attached r0 r' id h) as (Hw & Hi & Hid & Hk & Hli).
  { eapply (attach_wf r0 r' id h); try done; [by apply blank_out | by rewrite Hlo | by apply (w_next _ Hr0); exists blank | by intros k [= <-]; left |].
    intros l'. cbn [r' byID]. intros (l & Hbl & ->)%fmap_Some. exists l. split; [done |]. exists n0. left. rewrite Hlr. destruct (Hp0 l Hbl). done. }
  split; [done |]. split; [by rewrite Hi, Hin |]. split; [done |]. split.
  - intros k Hk'. rewrite Hk by (by rewrite Hin). apply Hh. destruct (w_heap _ Hr k Hk') as (i & Hi' & _). by exists i.
  - intros id'. by rewrite Hli, Hlr.
Qed.

Lemma with_last_wf r h id : wf r → linear r id = Some h → wf (with_last h r).
Proof. intros Hr Hl. destruct Hr as [H1 H2 H3 H4 H5 H6 H7]. split; try done. intros k [= <-]. by exists id. Qed.

Lemma input_spec r id : wf r →
  ∃ r' h, input r id = Some (r', h) ∧
    match linear r id with
    | Some h0 => h = h0 ∧ wf r' ∧ r'.(heap) = r.(heap) ∧ r'.(inputs) = r.(inputs)
    | None => attached r r' id h ∧ r'.(heap) !! h = Some (mkInput (plain_ref id) false false false false [] true)
    end.
Proof.
  intros Hr. unfold input. assert (∃ r' h, find_or_allocate r id = Some (r', h) ∧
    match linear r id with
    | Some h0 => h = h0 ∧ wf r' ∧ r'.(heap) = r.(heap) ∧ r'.(inputs) = r.(inputs)
    | None => attached r r' id h ∧ r'.(heap) !! h = Some (mkInput (plain_ref id) false false false false [] true)
    end) as Hfind.
  { unfold find_or_allocate. destruct (byID r) as [l |] eqn:Eb.
    - destruct (index_search r l id Hr (w_index _ Hr l Eb)) as (i & found & -> & Hf). cbn [mbind option_bind]. destruct found.
      + destruct Hf as (h & -> & Hl). cbn [mbind option_bind]. exists (with_last h r), h. rewrite Hl. split; [done |]. split; [done |]. split; [by eapply with_last_wf | done].
      + destruct Hf as (Hl & Ht & Hd). destruct (allocateInput_spec r id i Hr Hl) as (r' & h & He & Ha & _ & Hh); [intros l' Hl'; by simplify_eq |]. exists r', h. by rewrite Hl.
    - destruct (linear r id) as [h |] eqn:El.
      + exists (with_last h r), h. split; [done |]. split; [done |]. split; [by eapply with_last_wf | done].
      + destruct (allocateInput_spec r id 0 Hr El) as (r' & h & He & Ha & _ & Hh); [by intros l' Hl'; rewrite Eb in Hl' |]. by exists r', h. }
  destruct (last r) as [h |] eqn:Ela; [| done]. case_bool_decide as Hid; [| done]. exists r, h. split; [done |].
  destruct (w_last _ Hr h Ela) as (id' & Hl). pose proof (linear_spec _ _ _ Hl) as [_ Hid']. assert (id' = id) as -> by congruence. by rewrite Hl.
Qed.

Lemma Init_wf lent : wf (Init lent).
Proof.
  assert (∀ k, (Init lent).(heap) !! k = if bool_decide (k < S lent) then Some blank else None) as Hh.
  { intros k. cbn [Init heap]. rewrite blanks_lookup. by rewrite (bool_decide_ext (k ∈ 0 :: seq 1 lent) (k < S lent)) by (rewrite elem_of_cons, elem_of_seq; lia). }
  split; try done.
  - by intros h ?%elem_of_nil.
  - apply NoDup_nil_2.
  - cbn [Init spare local]. split; [rewrite reverse_Permutation; apply NoDup_seq |]. intros h Hin. rewrite elem_of_reverse, elem_of_seq in Hin. split; [| intros [= <-]; lia]. fold (Init lent). rewrite Hh, bool_decide_true by lia. done.
  - intros h [= <-]. rewrite Hh, bool_decide_true by lia. done.
  - intros h. rewrite Hh. case_bool_decide; [done | by intros [? ?]].
Qed.
End allocating.

(** *** Demands *)

(** What an execution asks of its read set, and the input it asks it of. *)
Inductive demand := Reads (id : NamedResource) | Requires (ref : DependencyRef) (materializer : bool) | Data (id : NamedResource) | Qualification (id : NamedResource).

Definition demand_id (d : demand) : NamedResource := match d with Reads id | Data id | Qualification id => id | Requires ref _ => ref.(dep_id) end.

Definition serve (r : ReadSet) (d : demand) : option ReadSet :=
  match d with
  | Reads id => '(r, _) ← input r id; Some r
  | Requires ref materializer => require r ref materializer
  | Data id => RequireData r id
  | Qualification id => RequireQualification r id
  end.

(** Demands in their order, each after room is reserved for a number of inputs. *)
Fixpoint serve_all (r : ReadSet) (ds : list (nat * demand)) : option ReadSet :=
  match ds with [] => Some r | (n, d) :: ds => r ← serve (reserve r n) d; serve_all r ds end.

(** A demand for more than the identity; all but a qualification authorize its producer. *)
Definition full (id : NamedResource) (d : demand) : Prop := demand_id d = id ∧ match d with Requires _ _ | Data _ => True | _ => False end.

Section demands.
Implicit Types (r : ReadSet) (id : NamedResource) (h k : nat) (ds : list demand) (i : Input).

Lemma serve_all_snoc r (nds : list (nat * demand)) n d : serve_all r (nds ++ [(n, d)]) = (r ← serve_all r nds; serve (reserve r n) d).
Proof.
  revert r. induction nds as [| [m x] nds IH]; intros r; cbn [serve_all app]; [cbn; by destruct (serve (reserve r n) d) |].
  destruct (serve (reserve r m) x); cbn [mbind option_bind]; [apply IH | done].
Qed.

(** An input holds exactly what was asked of its identity. *)
Record good ds i : Prop := mkGood {
  g_none : i.(gate) = false → i.(gates) = [];
  g_gates : ∀ g, g ∈ input_gates i ↔ ∃ ref m, Requires ref m ∈ ds ∧ ref.(dep_id) = i.(Ref).(dep_id) ∧ g = mkGate ref m;
  g_required : i.(required) = true ↔ Qualification i.(Ref).(dep_id) ∈ ds ∨ ∃ d, d ∈ ds ∧ full i.(Ref).(dep_id) d;
  g_qualification : i.(qualification) = true → i.(required) = true ∧ ¬ ∃ d, d ∈ ds ∧ full i.(Ref).(dep_id) d;
  g_authorized : i.(required) = true → i.(qualification) = false → ∃ d, d ∈ ds ∧ full i.(Ref).(dep_id) d;
}.

Lemma add_gate_elem g x (l : list readinessGate) : x ∈ add_gate g l ↔ x ∈ l ∨ x = g.
Proof.
  induction l as [| y l IH]; cbn [add_gate]; [rewrite list_elem_of_singleton, elem_of_nil; tauto |]. case_bool_decide as Hy.
  - subst. rewrite elem_of_cons. tauto.
  - rewrite !elem_of_cons, IH. tauto.
Qed.

Lemma gate_ref_inv ref m : gate_ref ref.(dep_id) (ref_gate ref m) = mkGate ref m.
Proof. by destruct ref. Qed.

Lemma require_input_gates ref m i g : i.(Ref).(dep_id) = ref.(dep_id) → (i.(gate) = false → i.(gates) = []) →
  g ∈ input_gates (require_input ref m i) ↔ g ∈ input_gates i ∨ g = mkGate ref m.
Proof.
  intros Hid Hno. unfold require_input. destruct (gate i) eqn:Eg; cbn [negb].
  - case_bool_decide as Hs; unfold input_gates; cbn [gate Ref i_materializer gates]; rewrite Eg.
    + assert (mkGate ref m = mkGate (Ref i) (i_materializer i)) as -> by (rewrite <- (gate_ref_inv ref m), <- Hs, <- Hid; apply gate_ref_inv). rewrite elem_of_cons. tauto.
    + rewrite !elem_of_cons. assert (g ∈ map (gate_ref (dep_id (Ref i))) (add_gate (ref_gate ref m) (gates i)) ↔ g ∈ map (gate_ref (dep_id (Ref i))) (gates i) ∨ g = mkGate ref m) as ->; [| tauto].
      rewrite !list_elem_of_fmap. setoid_rewrite add_gate_elem. split.
      * intros (x & -> & [Hx | ->]); [left; by exists x | right; rewrite Hid; apply gate_ref_inv].
      * intros [(x & -> & Hx) | ->]; [exists x; tauto | exists (ref_gate ref m); rewrite Hid, gate_ref_inv; tauto].
  - unfold input_gates. cbn [gate Ref i_materializer gates]. rewrite Eg, (Hno eq_refl). cbn. rewrite list_elem_of_singleton, elem_of_nil. tauto.
Qed.

Lemma full_snoc ds d id : (∃ x, x ∈ ds ++ [d] ∧ full id x) ↔ (∃ x, x ∈ ds ∧ full id x) ∨ full id d.
Proof.
  setoid_rewrite elem_of_app. setoid_rewrite list_elem_of_singleton. split; [intros (x & [? | ->] & ?); [left; by exists x | by right] | intros [(x & ? & ?) | ?]; [exists x; tauto | by exists d; tauto]].
Qed.

(** An input is good for what is asked of another identity. *)
Lemma good_other ds d i : i.(Ref).(dep_id) ≠ demand_id d → good ds i → good (ds ++ [d]) i.
Proof.
  intros Hne [H1 H2 H3 H4 H5]. assert (¬ full (dep_id (Ref i)) d) as Hnf by (intros [He _]; by rewrite He in Hne).
  split; [done | | | |].
  - intros g. rewrite H2. split; intros (ref & m & Hin & Hid & Hg); exists ref, m; (split; [| done]).
    + apply elem_of_app. by left.
    + apply elem_of_app in Hin as [? | <-%list_elem_of_singleton]; [done |]. by rewrite <- Hid in Hne.
  - rewrite H3, full_snoc, elem_of_app, list_elem_of_singleton. split; [tauto | intros [[? | <-] | [? | ?]]; tauto].
  - intros Hq. destruct (H4 Hq) as [? Hn]. split; [done |]. rewrite full_snoc. tauto.
  - intros Hr Hq. apply full_snoc. left. by apply H5.
Qed.

Lemma good_require ds ref m i : i.(Ref).(dep_id) = ref.(dep_id) → good ds i → good (ds ++ [Requires ref m]) (require_input ref m i).
Proof.
  intros Hid [H1 H2 H3 H4 H5]. assert (dep_id (Ref (require_input ref m i)) = dep_id ref) as Hd by (unfold require_input; destruct (gate i); [cbn [negb]; by case_bool_decide | done]).
  assert (full (dep_id ref) (Requires ref m)) as Hf by done.
  assert (required (require_input ref m i) = true ∧ qualification (require_input ref m i) = false ∧ gate (require_input ref m i) = true) as (Hr & Hq & Hg).
  { unfold require_input. destruct (gate i) eqn:Eg; [cbn [negb]; by case_bool_decide | done]. }
  split; [by rewrite Hg | | | by rewrite Hq |]; rewrite ?Hd.
  - intros g. rewrite require_input_gates, H2, Hid by done. split.
    + intros [(ref' & m' & Hin & ? & ->) | ->]; [exists ref', m' | exists ref, m]; (split; [apply elem_of_app | done]); [by left | right; by apply list_elem_of_singleton].
    + intros (ref' & m' & Hin & ? & ->). apply elem_of_app in Hin as [? | He%list_elem_of_singleton]; [left; by exists ref', m' | right; congruence].
  - rewrite full_snoc. tauto.
  - intros _ _. apply full_snoc. by right.
Qed.

Lemma good_gates_app ds d i : (∀ ref m, d ≠ Requires ref m) → (∀ g, g ∈ input_gates i ↔ ∃ ref m, Requires ref m ∈ ds ∧ ref.(dep_id) = i.(Ref).(dep_id) ∧ g = mkGate ref m) →
  ∀ g, g ∈ input_gates i ↔ ∃ ref m, Requires ref m ∈ ds ++ [d] ∧ ref.(dep_id) = i.(Ref).(dep_id) ∧ g = mkGate ref m.
Proof.
  intros Hd H g. rewrite H. split; intros (ref & m & Hin & Hr); exists ref, m; (split; [| done]); [apply elem_of_app; by left |].
  apply elem_of_app in Hin as [? | He%list_elem_of_singleton]; [done | by destruct (Hd ref m)].
Qed.

Lemma good_data ds id i : i.(Ref).(dep_id) = id → good ds i → good (ds ++ [Data id]) (mkInput i.(Ref) i.(gate) i.(i_materializer) true false i.(gates) i.(initialized)).
Proof.
  intros <- [H1 H2 H3 H4 H5]. assert (full (dep_id (Ref i)) (Data (dep_id (Ref i)))) as Hf by done. split; cbn [gate gates Ref required qualification]; [done | | | done |].
  - exact (good_gates_app ds (Data (dep_id (Ref i))) i ltac:(done) H2).
  - rewrite full_snoc. tauto.
  - intros _ _. apply full_snoc. by right.
Qed.

Lemma good_qualification ds id i : i.(Ref).(dep_id) = id → good ds i →
  good (ds ++ [Qualification id]) (if i.(required) then i else mkInput i.(Ref) i.(gate) i.(i_materializer) true true i.(gates) i.(initialized)).
Proof.
  intros <- [H1 H2 H3 H4 H5]. assert (¬ full (dep_id (Ref i)) (Qualification (dep_id (Ref i)))) as Hf by (by intros [_ ?]). assert (Qualification (dep_id (Ref i)) ∈ ds ++ [Qualification (dep_id (Ref i))]) as Hin by (apply elem_of_app; right; by apply list_elem_of_singleton).
  destruct (required i) eqn:Er; (split; cbn [gate gates Ref required qualification]; [done | exact (good_gates_app ds (Qualification (dep_id (Ref i))) i ltac:(done) H2) | | | ]).
  - tauto.
  - intros Hq. destruct (H4 Hq). split; [done |]. rewrite full_snoc. tauto.
  - intros _ Hq. apply full_snoc. left. by apply H5.
  - tauto.
  - intros _. split; [done |]. rewrite full_snoc. intros [He | ?]; [| done]. enough (false = true) by done. apply H3. by right.
  - done.
Qed.

Lemma good_read ds id i : good ds i → good (ds ++ [Reads id]) i.
Proof.
  intros [H1 H2 H3 H4 H5]. assert (¬ full (dep_id (Ref i)) (Reads id)) as Hf by (by intros [_ ?]). split; [done | by apply good_gates_app | | |].
  - rewrite H3, full_snoc, elem_of_app, list_elem_of_singleton. split; [tauto | intros [[? | He] | [? | ?]]; [tauto | done | tauto | done]].
  - intros Hq. destruct (H4 Hq). split; [done |]. rewrite full_snoc. tauto.
  - intros Hr Hq. apply full_snoc. left. by apply H5.
Qed.
End demands.

Section served.
Implicit Types (r : ReadSet) (id : NamedResource) (h k : nat) (ds : list demand) (i : Input).

(** One input for each identity asked for, and each good for the demands. *)
Record serves ds r : Prop := mkServes {
  s_wf : wf r;
  s_one : ∀ h id, h ∈ r.(inputs) → id_at r h = Some id → linear r id = Some h;
  s_good : ∀ h i, h ∈ r.(inputs) → r.(heap) !! h = Some i → good ds i;
}.

Lemma good_fresh ds id : (∀ d, d ∈ ds → demand_id d ≠ id) → good ds (mkInput (plain_ref id) false false false false [] true).
Proof.
  intros Hds. assert (∀ d, d ∈ ds → ¬ full id d) as Hf by (intros d Hd [He _]; by destruct (Hds d Hd)).
  split; cbn [gate gates required qualification Ref plain_ref dep_id]; try done.
  - intros g. unfold input_gates. cbn. split; [by intros ?%elem_of_nil |]. intros (ref & m & Hin & He & _). by destruct (Hds _ Hin).
  - split; [done |]. intros [Hq | (d & Hd & Hf')]; [by destruct (Hds _ Hq) | by destruct (Hf d Hd)].
Qed.

Lemma linear_id_at r id h : linear r id = Some h → id_at r h = Some id.
Proof. by intros [_ ?]%linear_spec. Qed.

Lemma input_serves r ds id : serves ds r → (is_Some (linear r id) ∨ ∀ d, d ∈ ds → demand_id d ≠ id) →
  ∃ r' h i, input r id = Some (r', h) ∧ serves ds r' ∧ linear r' id = Some h ∧ r'.(heap) !! h = Some i ∧ ∀ id', id' ≠ id → linear r' id' = linear r id'.
Proof.
  intros [Hr Hone Hgood] Hnew. destruct (input_spec r id Hr) as (r' & h & He & Hcase). destruct (linear r id) as [h0 |] eqn:El.
  - destruct Hcase as (-> & Hw & Hheap & Hin). pose proof (linear_spec _ _ _ El) as [Hh Hid].
    assert (∀ id', linear r' id' = linear r id') as Hl by (intros id'; apply linear_ext; [done | intros k _; unfold id_at; by rewrite Hheap]).
    destruct (w_heap _ Hr h0 Hh) as (i & Hi & _). exists r', h0, i. split; [done |]. split; [split; [done | |] | by rewrite Hl, Hheap].
    + intros k id'. rewrite Hin, Hl. unfold id_at. rewrite Hheap. apply Hone.
    + intros k x. rewrite Hin, Hheap. apply Hgood.
  - destruct Hcase as ((Hw & Hin & Hid & Hk & Hl) & Hi). destruct Hnew as [[? ?] | Hnew]; [done |]. exists r', h, (mkInput (plain_ref id) false false false false [] true). split; [done |].
    assert (∀ k, k ∈ r.(inputs) → id_at r' k = id_at r k) as Hka by (intros k Hk'; unfold id_at; by rewrite Hk).
    split; [split; [done | |] | split; [by rewrite Hl, (bool_decide_true (id = id)) | split; [done | intros id' Hne; by rewrite Hl, (bool_decide_false (id' = id))]]].
    + intros k id'. rewrite Hin, elem_of_cons. intros [-> | Hk'] Hida; rewrite Hl.
      * rewrite (bool_decide_true (id' = id)); [done | congruence].
      * rewrite Hka in Hida by done. rewrite (bool_decide_false (id' = id)); [by apply Hone |]. intros ->. rewrite linear_none in El. by destruct (El k Hk').
    + intros k x. rewrite Hin, elem_of_cons. intros [-> | Hk'] Hx; [rewrite Hi in Hx; injection Hx as <-; by apply good_fresh | apply (Hgood k); [done | by rewrite <- Hk]].
Qed.

Lemma write_serves r ds d h i i' : serves ds r → linear r (demand_id d) = Some h → r.(heap) !! h = Some i → i'.(Ref).(dep_id) = i.(Ref).(dep_id) → i'.(initialized) = i.(initialized) →
  (i.(Ref).(dep_id) = demand_id d → good ds i → good (ds ++ [d]) i') → serves (ds ++ [d]) (write h i' r) ∧ ∀ id, linear (write h i' r) id = linear r id.
Proof.
  intros [Hr Hone Hgood] Hl Hi Hid Hini Hstep. pose proof (linear_spec _ _ _ Hl) as [Hin Hida]. set (r' := write h i' r).
  assert (∀ k, id_at r' k = id_at r k) as Hia.
  { intros k. unfold r', id_at, write. cbn [heap]. destruct (decide (k = h)) as [-> | Hk]; [rewrite lookup_insert_eq, Hi; cbn; by rewrite Hid |]. rewrite lookup_insert_ne; done. }
  assert (∀ id, linear r' id = linear r id) as Hlr by (intros id; by apply linear_ext). split; [| done]. split.
  - split.
    + intros k Hk. unfold r', write. cbn [heap]. destruct (decide (k = h)) as [-> | Hkh]; [| rewrite lookup_insert_ne by done; by apply (w_heap _ Hr)].
      exists i'. split; [by rewrite lookup_insert_eq |]. destruct (w_heap _ Hr h Hin) as (x & Hx & ?). rewrite Hini. congruence.
    + apply (w_nodup _ Hr).
    + destruct (w_spare _ Hr) as [Hs1 Hs2]. split; [done |]. intros k Hk. destruct (Hs2 k Hk) as [Hb Hlo]. split; [| done]. unfold r', write. cbn [heap]. rewrite lookup_insert_ne; [done |].
      intros <-. by apply (blank_out r h Hr).
    + intros k Hk. unfold r', write. cbn [heap]. pose proof (w_local _ Hr k Hk) as Hb. rewrite lookup_insert_ne; [done |]. intros <-. by apply (blank_out r h Hr).
    + intros k. unfold r', write. cbn [heap next]. destruct (decide (k = h)) as [-> | Hkh]; [intros _; apply (w_next _ Hr); by exists i | rewrite lookup_insert_ne by done; apply (w_next _ Hr)].
    + intros k Hk. destruct (w_last _ Hr k Hk) as (x & Hx). exists x. by rewrite Hlr.
    + intros l Hl'. apply (indexes_ext r); [done | done | by apply (w_index _ Hr)].
  - intros k id Hk. rewrite Hia, Hlr. by apply Hone.
  - intros k x Hk. unfold r', write. cbn [heap]. destruct (decide (k = h)) as [-> | Hkh].
    + rewrite lookup_insert_eq. intros [= <-]. apply Hstep; [| by apply (Hgood h)]. unfold id_at in Hida. rewrite Hi in Hida. by injection Hida.
    + rewrite lookup_insert_ne by done. intros Hx. apply good_other; [| by apply (Hgood k)]. intros He. assert (linear r (demand_id d) = Some k) as Hk'; [| congruence].
      apply Hone; [done |]. unfold id_at. rewrite Hx. cbn. by rewrite He.
Qed.

Lemma update_serves r ds d f : serves ds r → (is_Some (linear r (demand_id d)) ∨ ∀ x, x ∈ ds → demand_id x ≠ demand_id d) →
  (∀ i, i.(Ref).(dep_id) = demand_id d → (f i).(Ref).(dep_id) = demand_id d ∧ (f i).(initialized) = i.(initialized) ∧ (good ds i → good (ds ++ [d]) (f i))) →
  ∃ r', update r (demand_id d) f = Some r' ∧ serves (ds ++ [d]) r' ∧ is_Some (linear r' (demand_id d)) ∧ ∀ id, id ≠ demand_id d → linear r' id = linear r id.
Proof.
  intros Hr Hnew Hf. destruct (input_serves r ds (demand_id d) Hr Hnew) as (r1 & h & i & He & Hr1 & Hl & Hi & Ho). unfold update. rewrite He. cbn [mbind option_bind]. rewrite Hi. cbn [mbind option_bind].
  pose proof (linear_id_at _ _ _ Hl) as Hid. unfold id_at in Hid. rewrite Hi in Hid. injection Hid as Hid. destruct (Hf i Hid) as (Hfi & Hfn & Hfg).
  destruct (write_serves r1 ds d h i (f i) Hr1 Hl Hi) as [Hs Hlw]; [by rewrite Hfi, Hid | done | done |].
  eexists. split; [reflexivity |]. split; [done |]. split; [rewrite Hlw, Hl; by eexists | intros id Hne; by rewrite Hlw, Ho].
Qed.

Lemma serve_spec r ds d : serves ds r → (∀ id, is_Some (linear r id) ↔ ∃ x, x ∈ ds ∧ demand_id x = id) →
  ∃ r', serve r d = Some r' ∧ serves (ds ++ [d]) r' ∧ is_Some (linear r' (demand_id d)) ∧ ∀ id, id ≠ demand_id d → linear r' id = linear r id.
Proof.
  intros Hr Hk. assert (is_Some (linear r (demand_id d)) ∨ ∀ x, x ∈ ds → demand_id x ≠ demand_id d) as Hnew.
  { destruct (linear r (demand_id d)) as [h |] eqn:El; [left; by exists h | right]. intros x Hx Heq. assert (is_Some (linear r (demand_id d))) as [h Hh] by (apply Hk; by exists x). congruence. }
  destruct d as [id | ref m | id | id]; cbn [serve demand_id] in *.
  - destruct (input_serves r ds id Hr Hnew) as (r1 & h & i & -> & [Hw Hone Hgood] & Hl & Hi & Ho). exists r1. split; [done |]. split; [split; [done | done |] | split; [by exists h | done]].
    intros k x Hin Hx. apply good_read. by apply (Hgood k).
  - apply (update_serves r ds (Requires ref m)); [done | done |]. intros i Hi. cbn [demand_id] in *. split; [| split; [| by apply good_require]]; unfold require_input; (destruct (gate i); [cbn [negb]; by case_bool_decide | done]).
  - apply (update_serves r ds (Data id)); [done | done |]. intros i Hi. split; [done |]. split; [done |]. by apply good_data.
  - apply (update_serves r ds (Qualification id)); [done | done |]. intros i Hi. split; [by destruct (required i) |]. split; [by destruct (required i) |]. by apply good_qualification.
Qed.

(** Room changes nothing that is read. *)
Lemma reserve_serves ds r n : serves ds r → serves ds (reserve r n) ∧ ∀ id, linear (reserve r n) id = linear r id.
Proof.
  intros Hr. pose proof (s_wf _ _ Hr) as Hw. unfold reserve. destruct (_ <=? 1); [done |]. set (c := n - length (spare r)). set (r1 := mkReadSet _ _ _ _ _ _ _ _).
  destruct (block_spec r c Hw) as [Hheap Hnew]. assert (wf r1) as Hw1.
  { apply (wf_frame r); cbn [r1 heap inputs last byID spare local next]; try done; [| | | by intros l; left].
    - destruct (w_spare _ Hw) as [Hs1 Hs2]. assert (∀ h, h ∈ spare r → heap r !! h = Some blank) as Hb by (intros h Hh; by destruct (Hs2 h Hh)). split.
      + apply NoDup_app. split; [rewrite reverse_Permutation; apply NoDup_seq |]. split; [| done]. intros h Hh Hsp. rewrite elem_of_reverse, elem_of_seq in Hh. assert (h < next r) by (apply (w_next _ Hw); exists blank; by apply Hb). lia.
      + intros h [Hh | Hh]%elem_of_app; [rewrite elem_of_reverse in Hh; split; [by apply Hnew |] | rewrite Hheap by (exists blank; by apply Hb); by apply Hs2].
        intros Hlo. assert (h < next r) by (apply (w_next _ Hw); exists blank; by apply (w_local _ Hw)). apply elem_of_seq in Hh. lia.
    - intros h Hh. rewrite Hheap by (exists blank; by apply (w_local _ Hw)). by apply (w_local _ Hw).
    - by apply block_below. }
  assert (serves ds r1) as Hr1.
  { destruct Hr as [_ Hone Hgood]. assert (∀ id, linear r1 id = linear r id) as Hl by (intros id; by apply linear_frame).
    assert (∀ k, k ∈ r.(inputs) → r1.(heap) !! k = r.(heap) !! k) as Hk by (intros k (i & Hi & _)%(w_heap _ Hw); apply Hheap; by exists i). split; [done | |].
    - intros h id Hh. rewrite Hl. unfold id_at. rewrite Hk by done. by apply Hone.
    - intros h i Hh. rewrite Hk by done. by apply Hgood. }
  assert (∀ id, linear r1 id = linear r id) as Hl by (intros id; by apply linear_frame).
  destruct (_ && _); [| done]. destruct (indexInputs_spec r1) as (l & -> & Hil); [intros h Hh; destruct (in_heap _ h Hw1 Hh) as [x Hx]; by exists x |].
  split; [| done]. destruct Hr1 as [_ Hone Hgood]. split; [| done | done]. by apply with_index_wf.
Qed.

Lemma serve_all_spec lent (nds : list (nat * demand)) : ∃ r, serve_all (Init lent) nds = Some r ∧ serves nds.*2 r ∧ ∀ id, is_Some (linear r id) ↔ ∃ d, d ∈ nds.*2 ∧ demand_id d = id.
Proof.
  induction nds as [| [n d] nds IH] using rev_ind.
  - exists (Init lent). split; [done |]. split; [split; [apply Init_wf | by intros h id ?%elem_of_nil | by intros h i ?%elem_of_nil] |].
    intros id. split; [by intros [? ?] | by intros (? & ?%elem_of_nil & _)].
  - destruct IH as (r0 & He & Hs0 & Hk0). rewrite serve_all_snoc, He, fmap_app. cbn [mbind option_bind fmap list_fmap snd]. set (ds := nds.*2) in *.
    destruct (reserve_serves ds r0 n Hs0) as [Hs Hl]. set (r := reserve r0 n) in *. assert (∀ id, is_Some (linear r id) ↔ ∃ d, d ∈ ds ∧ demand_id d = id) as Hk by (intros id; by rewrite Hl).
    destruct (serve_spec r ds d Hs Hk) as (r' & -> & Hs' & Hsome & Ho). exists r'. split; [done |]. split; [done |].
    intros id. destruct (decide (id = demand_id d)) as [-> | Hne].
    + split; [intros _; exists d; split; [apply elem_of_app; right; by apply list_elem_of_singleton | done] | done].
    + rewrite Ho, Hk by done. split; intros (x & Hx & Hid); exists x; (split; [| done]); [apply elem_of_app; by left |]. apply elem_of_app in Hx as [? | ->%list_elem_of_singleton]; [done |]. congruence.
Qed.

Lemma Gates_elem r g : g ∈ Gates r ↔ ∃ h i, h ∈ r.(inputs) ∧ r.(heap) !! h = Some i ∧ g ∈ input_gates i.
Proof.
  unfold Gates. rewrite list_elem_of_In, List.in_concat. split.
  - intros (l & Hl & Hg). apply List.in_map_iff in Hl as (h & <- & Hh). destruct (heap r !! h) as [i |] eqn:Ei; [| done]. exists h, i. by rewrite !list_elem_of_In.
  - intros (h & i & Hh & Hi & Hg). exists (input_gates i). split; [| by apply list_elem_of_In]. apply list_elem_of_In, list_elem_of_fmap. exists h. by rewrite Hi.
Qed.

Lemma Required_elem r id q : (id, q) ∈ Required r ↔ ∃ h i, h ∈ r.(inputs) ∧ r.(heap) !! h = Some i ∧ i.(required) = true ∧ i.(Ref).(dep_id) = id ∧ i.(qualification) = q.
Proof.
  unfold Required. rewrite list_elem_of_In, List.in_concat. split.
  - intros (l & Hl & Hg). apply List.in_map_iff in Hl as (h & <- & Hh). destruct (heap r !! h) as [i |] eqn:Ei; [| done]. destruct (required i) eqn:Er; [| done]. destruct Hg as [[= <- <-] | []].
    exists h, i. by rewrite !list_elem_of_In.
  - intros (h & i & Hh & Hi & Hr & <- & <-). exists [(dep_id (Ref i), qualification i)]. split; [| by left]. apply list_elem_of_In, list_elem_of_fmap. exists h. by rewrite Hi, Hr.
Qed.
End served.

(** ** What a read set promises *)

Section promised.
Implicit Types (r : ReadSet) (id : NamedResource) (h : nat) (ds : list demand).

Lemma asked r ds d : (∀ id, is_Some (linear r id) ↔ ∃ d, d ∈ ds ∧ demand_id d = id) → wf r → d ∈ ds → ∃ h i, h ∈ r.(inputs) ∧ r.(heap) !! h = Some i ∧ i.(Ref).(dep_id) = demand_id d.
Proof.
  intros Hk Hr Hd. assert (is_Some (linear r (demand_id d))) as [h Hl] by (apply Hk; by exists d). pose proof (linear_spec _ _ _ Hl) as [Hin Hid]. destruct (w_heap _ Hr h Hin) as (i & Hi & _).
  exists h, i. split; [done |]. split; [done |]. unfold id_at in Hid. rewrite Hi in Hid. by injection Hid.
Qed.

Lemma required_cases r ds id (q : bool) : serves ds r → (∀ id, is_Some (linear r id) ↔ ∃ d, d ∈ ds ∧ demand_id d = id) →
  (∃ h i, h ∈ r.(inputs) ∧ r.(heap) !! h = Some i ∧ i.(required) = true ∧ i.(Ref).(dep_id) = id ∧ i.(qualification) = q) ↔
  if q then Qualification id ∈ ds ∧ ¬ ∃ d, d ∈ ds ∧ full id d else ∃ d, d ∈ ds ∧ full id d.
Proof.
  intros [Hr Hone Hgood] Hk. split.
  - intros (h & i & Hh & Hi & Hreq & <- & <-). destruct (Hgood h i Hh Hi) as [_ _ H3 H4 H5]. destruct (qualification i); [| by apply H5]. destruct (H4 eq_refl) as [_ Hn]. apply H3 in Hreq as [? | ?]; done.
  - destruct q.
    + intros [Hq Hn]. destruct (asked r ds _ Hk Hr Hq) as (h & i & Hh & Hi & Hid). cbn in Hid. subst id. destruct (Hgood h i Hh Hi) as [_ _ H3 H4 H5]. assert (required i = true) as Hreq by (apply H3; by left).
      exists h, i. split_and!; try done. destruct (qualification i); [done |]. by destruct Hn; apply H5.
    + intros (d & Hd & Hf). destruct (asked r ds d Hk Hr Hd) as (h & i & Hh & Hi & Hid). assert (dep_id (Ref i) = id) as <- by (destruct Hf as [<- _]; done). clear Hid. destruct (Hgood h i Hh Hi) as [_ _ H3 H4 H5].
      assert (∃ d, d ∈ ds ∧ full (dep_id (Ref i)) d) as Hfull by (by exists d). exists h, i. split_and!; try done; [apply H3; by right |]. destruct (qualification i); [| done]. by destruct (H4 eq_refl).
Qed.
End promised.

(** Claim C23: whatever an execution asks of a fresh read set, in any order, with any
    number of inputs lent and any room reserved meanwhile, nothing is dereferenced out of bounds and every search ends.
    Afterwards the index, the last input and the scan agree on every identity; an identity
    has an input exactly when it was asked for, and asking again gives that input.  The
    gates are exactly the readiness expressions required; an identity is required exactly
    when something more than a read was asked of it, and only to qualify exactly when no
    more than a qualification was. *)
Theorem requirements_exact : ∀ lent nds, let ds := nds.*2 in ∃ r, serve_all (Init lent) nds = Some r ∧
  (∀ id, findInput r id = Some (linear r id) ∧ (is_Some (linear r id) ↔ ∃ d, d ∈ ds ∧ demand_id d = id)) ∧
  (∀ id h, findInput r id = Some (Some h) → ∃ r', input r id = Some (r', h) ∧ r'.(heap) = r.(heap) ∧ r'.(inputs) = r.(inputs)) ∧
  (∀ g, g ∈ Gates r ↔ ∃ ref m, Requires ref m ∈ ds ∧ g = mkGate ref m) ∧
  ∀ id q, (id, q) ∈ Required r ↔ if q : bool then Qualification id ∈ ds ∧ ¬ ∃ d, d ∈ ds ∧ full id d else ∃ d, d ∈ ds ∧ full id d.
Proof.
  intros lent nds ds. destruct (serve_all_spec lent nds) as (r & He & [Hr Hone Hgood] & Hk). exists r. split; [done |]. split; [| split; [| split]].
  - intros id. split; [by apply findInput_spec | done].
  - intros id h Hf. rewrite (findInput_spec r id Hr) in Hf. injection Hf as Hl. destruct (input_spec r id Hr) as (r' & h' & Hin & Hcase). rewrite Hl in Hcase. destruct Hcase as (-> & _ & ? & ?). by exists r'.
  - intros g. rewrite Gates_elem. split.
    + intros (h & i & Hh & Hi & Hg). apply (g_gates _ _ (Hgood h i Hh Hi)) in Hg as (ref & m & ? & _ & ->). by exists ref, m.
    + intros (ref & m & Hin & ->). destruct (asked r ds (Requires ref m) Hk Hr Hin) as (h & i & Hh & Hi & Hid). cbn in Hid. exists h, i. split; [done |]. split; [done |]. apply (g_gates _ _ (Hgood h i Hh Hi)). by exists ref, m.
  - intros id q. rewrite Required_elem. by apply required_cases.
Qed.

(** An input its caller owns, attached to a read set, is what its identity is read as from
    then on, in the index too; what every other identity is read as does not change. *)
Theorem attachInput_shadows r h i : wf r → r.(heap) !! h = Some i → i.(initialized) = false → h ∉ r.(spare) → r.(local) ≠ Some h →
  ∃ r', attachInput r h = Some r' ∧ wf r' ∧ ∀ id, findInput r' id = if bool_decide (id = i.(Ref).(dep_id)) then Some (Some h) else findInput r id.
Proof.
  intros Hr Hh Hi Hs Hlo. destruct (attachInput_spec r h i Hr Hh Hi Hs Hlo) as (r' & He & Hw & _ & _ & _ & Hl). exists r'. split; [done |]. split; [done |].
  intros id. rewrite !findInput_spec, Hl by done. by case_bool_decide.
Qed.

(** Seventy inputs, so that an index is made, with a gate required twice and one refined. *)
Section example_reads.
Let name (n : nat) : NamedResource := mkResource "" "ConfigMap" "ns" (String (Ascii.ascii_of_nat (48 + n)) "").
Let kustomization : NamedResource := mkResource "kustomize.toolkit.fluxcd.io" "Kustomization" "flux-system" "apps".

Example seventy_reads :
  let r := serve_all (Init 2) (map (pair 0) (map (λ n, Reads (name n)) (reverse (seq 0 70)) ++
    [Requires (plain_ref kustomization) false; Requires (plain_ref kustomization) false; Requires (plain_ref kustomization) true; Qualification (name 3); Qualification (name 4); Data (name 4)])) in
  match r with
  | Some r => (length r.(inputs), length <$> r.(byID), length (Gates r), Required r, findInput r (name 69), findInput r (name 70))
  | None => (0, None, 0, [], None, None)
  end = (71, Some 71, 2, [(kustomization, false); (name 3, true); (name 4, false)], Some (Some 0), Some None).
Proof. vm_compute. reflexivity. Qed.
End example_reads.
