(* ===== verification/Execution.v ===== *)
(** * The settlement of an execution (pkg/controllers/base: execution.go, dependencies.go)

    A reconcile body requires gates of its read set and asks, at a drain level, whether they
    hold ([classify_gates] over [DepWait]); it may also wait for values inputs ([settle_data])
    or for its declaration to be emitted ([requireDeclaration]).  What it returns is settled
    into the kind the scheduler sees and the status others read ([finish]). *)

From S2P Require Import Prelude Resource Diagnostic StoreStatus Schedule DepWait ReadInputs.

(** ** Gates *)

(** The error of [classify]. *)
Inductive gate_error := GateBlocked (deps : list NamedResource) | GateCause (e : wait_error) | GateFailed (f : DependencyFailedError).

(** What the loop of [classify] has gathered: [blocked], [failed] and [cause] with [causeID]. *)
Record gathering := mkGathering { gg_blocked : list NamedResource; gg_failed : option DependencyFailedError; gg_cause : option (wait_error * NamedResource) }.

Definition nothing : gathering := mkGathering [] None None.

(** The least reason of an identity is kept. *)
Definition add_reason (id : NamedResource) (reason : DiagnosticReason) (reasons : gmap NamedResource DiagnosticReason) : gmap NamedResource DiagnosticReason :=
  match reasons !! id with
  | Some prior => if bool_decide (DiagnosticReason_Compare reason prior = Lt) then <[id := reason]> reasons else reasons
  | None => <[id := reason]> reasons
  end.

(** One turn of the loop, on what the waiter answered. *)
Definition gather (g : gathering) (v : NamedResource * Classification) : gathering :=
  let '(id, cl) := v in
  match cl.(cl_Err) with
  | Some e =>
      match g.(gg_cause) with
      | Some (_, causeID) => if bool_decide (compare id causeID = Lt) then mkGathering g.(gg_blocked) g.(gg_failed) (Some (e, id)) else g
      | None => mkGathering g.(gg_blocked) g.(gg_failed) (Some (e, id))
      end
  | None =>
      match cl.(cl_Kind) with
      | Terminal => g
      | DependencyFailed =>
          let failed := default (mkDependencyFailed [] ∅) g.(gg_failed) in
          mkGathering g.(gg_blocked) (Some (mkDependencyFailed (failed.(Failed) ++ [id]) (add_reason id (class_reason cl id) failed.(Reasons)))) g.(gg_cause)
      | Blocked => mkGathering (g.(gg_blocked) ++ [id]) g.(gg_failed) g.(gg_cause)
      end
  end.

Definition sorted_ids (ids : list NamedResource) : list NamedResource := Compact (sort_by compare ids).

(** What [classify] returns after its loop. *)
Definition conclude (g : gathering) : option gate_error :=
  if bool_decide (g.(gg_blocked) ≠ []) then Some (GateBlocked (sorted_ids g.(gg_blocked)))
  else
    match g.(gg_cause) with
    | Some (e, _) => Some (GateCause e)
    | None => (λ f, GateFailed (mkDependencyFailed (sorted_ids f.(Failed)) f.(Reasons))) <$> g.(gg_failed)
    end.

Section gates.
Context {O : Type} `{Descriptor O} (quote : string → string).
Context (evaluate : stateReader (O := O) → string → NamedResource → option O → list Condition → cel_result).

(** The waiter of an execution; its lookup is [existence]. *)
Definition gate_waiter (parent : NamedResource) (allowMissingCRDs materializer : bool) : Waiter := mkWaiter parent materializer allowMissingCRDs.

(** The answers of the waiter to the gates, each on the snapshot that the last one left. *)
Fixpoint verdicts (parent : NamedResource) (allow : bool) (existence : option lookup_promote) (level : DrainLevel) (s : stateReader) (gates : list Gate)
    : list (NamedResource * Classification) * stateReader :=
  match gates with
  | [] => ([], s)
  | g :: gates =>
      let '(cl, s) := Classify quote evaluate (gate_waiter parent allow g.(Materializer)) existence s g.(g_Ref) level in
      let '(vs, s) := verdicts parent allow existence level s gates in
      ((g.(g_Ref).(dep_id), cl) :: vs, s)
  end.

(** [classify]. *)
Definition classify_gates (parent : NamedResource) (allow : bool) (existence : option lookup_promote) (level : DrainLevel) (s : stateReader) (gates : list Gate)
    : option gate_error * stateReader :=
  let '(vs, s) := verdicts parent allow existence level s gates in (conclude (fold_left gather vs nothing), s).
End gates.

(** ** What the gates conclude *)

Section concluding.
Implicit Types (id : NamedResource) (cl : Classification) (vs : list (NamedResource * Classification)) (g : gathering).

Definition blocks (v : NamedResource * Classification) : Prop := v.2.(cl_Err) = None ∧ v.2.(cl_Kind) = Blocked.
Definition fails (v : NamedResource * Classification) : Prop := v.2.(cl_Err) = None ∧ v.2.(cl_Kind) = DependencyFailed.
Definition errs (v : NamedResource * Classification) : Prop := is_Some v.2.(cl_Err).

(** The reasons kept are the least of those given. *)
Definition least_reasons vs (reasons : gmap NamedResource DiagnosticReason) : Prop := ∀ id,
  match reasons !! id with
  | Some reason => (∃ cl, (id, cl) ∈ vs ∧ fails (id, cl) ∧ reason = class_reason cl id) ∧
      ∀ cl, (id, cl) ∈ vs → fails (id, cl) → DiagnosticReason_Compare reason (class_reason cl id) ≠ Gt
  | None => ∀ cl, (id, cl) ∈ vs → ¬ fails (id, cl)
  end.

Record gathered vs g : Prop := mkGathered {
  gd_blocked : ∀ id, id ∈ g.(gg_blocked) ↔ ∃ cl, (id, cl) ∈ vs ∧ blocks (id, cl);
  gd_cause : match g.(gg_cause) with
    | Some (e, id) => (∃ cl, (id, cl) ∈ vs ∧ cl.(cl_Err) = Some e) ∧ ∀ v, v ∈ vs → errs v → compare id v.1 ≠ Gt
    | None => ∀ v, v ∈ vs → ¬ errs v
    end;
  gd_failed : match g.(gg_failed) with
    | Some f => f.(Failed) ≠ [] ∧ (∀ id, id ∈ f.(Failed) ↔ ∃ cl, (id, cl) ∈ vs ∧ fails (id, cl)) ∧ least_reasons vs f.(Reasons)
    | None => ∀ v, v ∈ vs → ¬ fails v
    end;
}.

Lemma reason_le_trans a b c : DiagnosticReason_Compare a b ≠ Gt → DiagnosticReason_Compare b c ≠ Gt → DiagnosticReason_Compare a c ≠ Gt.
Proof. destruct DiagnosticReason_Compare_order as (_ & Ht & _). apply Ht. Qed.

Lemma reason_le_flip a b : DiagnosticReason_Compare a b ≠ Lt → DiagnosticReason_Compare b a ≠ Gt.
Proof. rewrite (DiagnosticReason_Compare_opp a b). by destruct (DiagnosticReason_Compare a b). Qed.

Lemma reason_le_refl a : DiagnosticReason_Compare a a ≠ Gt.
Proof. pose proof (DiagnosticReason_Compare_opp a a) as Ho. by destruct (DiagnosticReason_Compare a a). Qed.

Lemma elem_snoc {A} (l : list A) x y : y ∈ l ++ [x] ↔ y ∈ l ∨ y = x.
Proof. by rewrite elem_of_app, list_elem_of_singleton. Qed.

Lemma add_reason_least vs id cl reasons : fails (id, cl) → least_reasons vs reasons → least_reasons (vs ++ [(id, cl)]) (add_reason id (class_reason cl id) reasons).
Proof.
  intros Hf Hl x. specialize (Hl x). unfold add_reason. destruct (decide (x = id)) as [-> | Hx].
  - destruct (reasons !! id) as [prior |] eqn:Ep.
    + destruct Hl as [(c & Hc & Hcf & ->) Hmin]. case_bool_decide as Hlt; [rewrite lookup_insert_eq | rewrite Ep].
      * split; [exists cl; split; [apply elem_snoc; by right | done] |]. intros c' [Hc' | [= ->]]%elem_snoc Hf'; [| apply reason_le_refl].
        eapply reason_le_trans; [| by apply Hmin]. by rewrite Hlt.
      * split; [exists c; split; [apply elem_snoc; by left | done] |]. intros c' [Hc' | [= ->]]%elem_snoc Hf'; [by apply Hmin | by apply reason_le_flip].
    + rewrite lookup_insert_eq. split; [exists cl; split; [apply elem_snoc; by right | done] |]. intros c' [Hc' | [= ->]]%elem_snoc Hf'; [by destruct (Hl c') | apply reason_le_refl].
  - assert ((match reasons !! id with Some prior => if bool_decide (DiagnosticReason_Compare (class_reason cl id) prior = Lt) then <[id := class_reason cl id]> reasons else reasons
      | None => <[id := class_reason cl id]> reasons end) !! x = reasons !! x) as -> by (destruct (reasons !! id); [case_bool_decide |]; rewrite ?lookup_insert_ne; done).
    destruct (reasons !! x) as [r |].
    + destruct Hl as [(c & Hc & ?) Hmin]. split; [exists c; split; [apply elem_snoc; by left | done] |]. intros c' [Hc' | [= -> _]]%elem_snoc; [by apply Hmin | done].
    + intros c' [Hc' | [= -> _]]%elem_snoc; [by apply Hl | done].
Qed.

Lemma least_reasons_other vs v reasons : ¬ fails v → least_reasons vs reasons → least_reasons (vs ++ [v]) reasons.
Proof.
  intros Hv Hl x. specialize (Hl x). destruct (reasons !! x) as [r |].
  - destruct Hl as [(c & Hc & ?) Hmin]. split; [exists c; split; [apply elem_snoc; by left | done] |]. intros c' [Hc' | <-]%elem_snoc; [by apply Hmin | done].
  - intros c' [Hc' | <-]%elem_snoc; [by apply Hl | done].
Qed.

Lemma exists_snoc vs v (P : NamedResource * Classification → Prop) id : (∃ cl, (id, cl) ∈ vs ++ [v] ∧ P (id, cl)) ↔ (∃ cl, (id, cl) ∈ vs ∧ P (id, cl)) ∨ v.1 = id ∧ P v.
Proof.
  setoid_rewrite elem_snoc. destruct v as [i c]. split.
  - intros (cl & [? | [= -> ->]] & ?); [left; by exists cl | by right].
  - intros [(cl & ? & ?) | [<- ?]]; [exists cl; tauto | exists c; tauto].
Qed.

Lemma gather_step vs v g : gathered vs g → gathered (vs ++ [v]) (gather g v).
Proof.
  destruct v as [id cl]. intros [Hb Hc Hf]. unfold gather. destruct (cl_Err cl) as [e |] eqn:Ee.
  - assert (¬ blocks (id, cl) ∧ ¬ fails (id, cl)) as [Hnb Hnf] by (split; intros [? _]; cbn in *; congruence).
    assert (∀ g', g'.(gg_blocked) = g.(gg_blocked) → g'.(gg_failed) = g.(gg_failed) →
      match g'.(gg_cause) with Some (e, x) => (∃ cl', (x, cl') ∈ vs ++ [(id, cl)] ∧ cl'.(cl_Err) = Some e) ∧ ∀ v, v ∈ vs ++ [(id, cl)] → errs v → compare x v.1 ≠ Gt
      | None => ∀ v, v ∈ vs ++ [(id, cl)] → ¬ errs v end → gathered (vs ++ [(id, cl)]) g') as Hfin.
    { intros g' Hgb Hgf Hgc. split; [| done |].
      - intros x. rewrite Hgb, Hb, (exists_snoc vs (id, cl) blocks). tauto.
      - rewrite Hgf. destruct (gg_failed g) as [f |]; [| intros v [? | ->]%elem_snoc; [by apply Hf | done]].
        destruct Hf as (? & Hf & Hl). split; [done |]. split; [intros x; rewrite Hf, (exists_snoc vs (id, cl) fails); tauto | by apply least_reasons_other]. }
    destruct (gg_cause g) as [[e0 x] |] eqn:Eg; [case_bool_decide as Hlt |]; apply Hfin; try done; cbn [gg_cause]; rewrite ?Eg.
    + destruct Hc as [_ Hmin]. split; [exists cl; split; [apply elem_snoc; by right | done] |]. intros v [Hv | ->]%elem_snoc Hev; [| change (compare id id ≠ Gt); by rewrite compare_refl].
      assert (cmp_le x v.1) as Hx by (unfold cmp_le; by apply Hmin). assert (cmp_le id x) as Hi by (unfold cmp_le; by rewrite Hlt). change (cmp_le id v.1). by etransitivity.
    + destruct Hc as [(c & Hc & ?) Hmin]. split; [exists c; split; [apply elem_snoc; by left | done] |]. intros v [Hv | ->]%elem_snoc Hev; [by apply Hmin |]. change (compare x id ≠ Gt).
      rewrite (compare_opp id x). by destruct (compare id x).
    + split; [exists cl; split; [apply elem_snoc; by right | done] |]. intros v [Hv | ->]%elem_snoc Hev; [by destruct (Hc v) | change (compare id id ≠ Gt); by rewrite compare_refl].
  - assert (match g.(gg_cause) with Some (e, x) => (∃ cl', (x, cl') ∈ vs ++ [(id, cl)] ∧ cl'.(cl_Err) = Some e) ∧ ∀ v, v ∈ vs ++ [(id, cl)] → errs v → compare x v.1 ≠ Gt
      | None => ∀ v, v ∈ vs ++ [(id, cl)] → ¬ errs v end) as Hcause.
    { assert (¬ errs (id, cl)) as Hne by (intros [? ?]; cbn in *; congruence). destruct (gg_cause g) as [[e0 x] |].
      - destruct Hc as [(c & Hc & ?) Hmin]. split; [exists c; split; [apply elem_snoc; by left | done] |]. intros v [Hv | ->]%elem_snoc; [by apply Hmin | done].
      - intros v [Hv | ->]%elem_snoc; [by apply Hc | done]. }
    assert (¬ fails (id, cl) → match g.(gg_failed) with Some f => f.(Failed) ≠ [] ∧ (∀ x, x ∈ f.(Failed) ↔ ∃ cl', (x, cl') ∈ vs ++ [(id, cl)] ∧ fails (x, cl')) ∧ least_reasons (vs ++ [(id, cl)]) f.(Reasons)
      | None => ∀ v, v ∈ vs ++ [(id, cl)] → ¬ fails v end) as Hfailed.
    { intros Hnf. destruct (gg_failed g) as [f |]; [| intros v [? | ->]%elem_snoc; [by apply Hf | done]].
      destruct Hf as (? & Hf & Hl). split; [done |]. split; [intros x; rewrite Hf, (exists_snoc vs (id, cl) fails); tauto | by apply least_reasons_other]. }
    destruct (cl_Kind cl) eqn:Ek.
    + split; [| done | apply Hfailed; intros [_ ?]; cbn in *; congruence]. intros x. rewrite Hb, (exists_snoc vs (id, cl) blocks). unfold blocks. cbn. rewrite Ek. intuition congruence.
    + split; [| done | apply Hfailed; intros [_ ?]; cbn in *; congruence]. intros x. cbn [gg_blocked]. rewrite elem_snoc, Hb, (exists_snoc vs (id, cl) blocks). unfold blocks at 3. cbn. intuition congruence.
    + assert (fails (id, cl)) as Hfv by done. split; [| done |]; cbn [gg_failed gg_blocked].
      * intros x. rewrite Hb, (exists_snoc vs (id, cl) blocks). unfold blocks at 3. cbn. rewrite Ek. intuition congruence.
      * split; [by intros [_ ?]%app_nil |]. split.
        -- intros x. cbn [Failed]. rewrite elem_snoc, (exists_snoc vs (id, cl) fails). destruct (gg_failed g) as [f |]; cbn [default].
           ++ destruct Hf as (_ & Hf & _). cbn [fst]. rewrite Hf. intuition congruence.
           ++ cbn. rewrite elem_of_nil. split; [intros [[] | ->]; by right | intros [(c & Hc' & Hcf) | [<- _]]; [by destruct (Hf _ Hc') | by right]].
        -- cbn [Reasons]. apply add_reason_least; [done |]. destruct (gg_failed g) as [f |]; cbn [default Reasons]; [by destruct Hf as (_ & _ & ?) |].
           intros x. rewrite lookup_empty. intros c Hc'. by apply Hf.
Qed.

Lemma gather_all vs : gathered vs (fold_left gather vs nothing).
Proof.
  induction vs as [| v vs IH] using rev_ind; [| rewrite fold_left_app; by apply gather_step]. split; cbn.
  - intros id. split; [by intros ?%elem_of_nil | by intros (? & ?%elem_of_nil & _)].
  - by intros v ?%elem_of_nil.
  - by intros v ?%elem_of_nil.
Qed.
End concluding.

(** What [classify] may conclude from the answers of its gates. *)
Definition concludes (vs : list (NamedResource * Classification)) (r : option gate_error) : Prop :=
  match r with
  | Some (GateBlocked deps) => deps ≠ [] ∧ StronglySorted (λ a b, compare a b = Lt) deps ∧ ∀ id, id ∈ deps ↔ ∃ cl, (id, cl) ∈ vs ∧ blocks (id, cl)
  | Some (GateCause e) => (∀ v, v ∈ vs → ¬ blocks v) ∧
      ∃ id, (∃ cl, (id, cl) ∈ vs ∧ cl.(cl_Err) = Some e) ∧ ∀ v, v ∈ vs → errs v → compare id v.1 ≠ Gt
  | Some (GateFailed f) => (∀ v, v ∈ vs → ¬ blocks v ∧ ¬ errs v) ∧
      f.(Failed) ≠ [] ∧ StronglySorted (λ a b, compare a b = Lt) f.(Failed) ∧ (∀ id, id ∈ f.(Failed) ↔ ∃ cl, (id, cl) ∈ vs ∧ fails (id, cl)) ∧ least_reasons vs f.(Reasons)
  | None => ∀ v, v ∈ vs → v.2.(cl_Err) = None ∧ v.2.(cl_Kind) = Terminal
  end.

(** Two conclusions that say the same: of a failure, the same dependencies with reasons that
    differ at most in their display; of an error, one of the same dependency. *)
Definition says_alike (vs : list (NamedResource * Classification)) (a b : option gate_error) : Prop :=
  match a, b with
  | Some (GateBlocked deps), Some (GateBlocked deps') => deps = deps'
  | Some (GateCause e), Some (GateCause e') => ∃ id cl cl', (id, cl) ∈ vs ∧ (id, cl') ∈ vs ∧ cl.(cl_Err) = Some e ∧ cl'.(cl_Err) = Some e'
  | Some (GateFailed f), Some (GateFailed f') => f.(Failed) = f'.(Failed) ∧ ∀ id, bare <$> f.(Reasons) !! id = bare <$> f'.(Reasons) !! id
  | None, None => True
  | _, _ => False
  end.

Section conclusions.
Implicit Types (id : NamedResource) (vs : list (NamedResource * Classification)).

Lemma sorted_ids_sorted ids : StronglySorted (λ a b, compare a b = Lt) (sorted_ids ids).
Proof. apply Compact_sorted, sort_lawful_sorted. Qed.

Lemma elem_of_sorted_ids ids id : id ∈ sorted_ids ids ↔ id ∈ ids.
Proof. apply elem_of_sorted_distinct. Qed.

Lemma nonempty_elem {A} (l : list A) : l ≠ [] ↔ ∃ x, x ∈ l.
Proof. destruct l as [| x l]; [split; [done | intros [x Hx]; by apply elem_of_nil in Hx] | split; [intros _; exists x; by left | done]]. Qed.

Lemma sorted_ids_nonempty ids : ids ≠ [] → sorted_ids ids ≠ [].
Proof. rewrite !nonempty_elem. intros [x Hx]. exists x. by apply elem_of_sorted_ids. Qed.

Lemma conclude_spec vs : concludes vs (conclude (fold_left gather vs nothing)).
Proof.
  destruct (gather_all vs) as [Hb Hc Hf]. unfold conclude. set (g := fold_left gather vs nothing) in *. destruct (bool_decide_reflect (gg_blocked g ≠ [])) as [Hne | Hne].
  { cbn [concludes]. split; [by apply sorted_ids_nonempty |]. split; [apply sorted_ids_sorted |]. intros id. by rewrite elem_of_sorted_ids, Hb. }
  assert (∀ v, v ∈ vs → ¬ blocks v) as Hnb.
  { intros [id cl] Hv Hbl. destruct Hne. rewrite nonempty_elem. exists id. apply Hb. by exists cl. }
  destruct (gg_cause g) as [[e id] |]; [split; [done | by exists id] |]. destruct (gg_failed g) as [f |]; cbn [fmap option_fmap option_map concludes Failed Reasons].
  - destruct Hf as (Hne' & Hf & Hl). split; [intros v Hv; split; [by apply Hnb | by apply Hc] |]. split; [by apply sorted_ids_nonempty |]. split; [apply sorted_ids_sorted |].
    split; [intros id; by rewrite elem_of_sorted_ids |]. done.
  - intros v Hv. assert (cl_Err v.2 = None) as He by (destruct (cl_Err v.2) eqn:E; [destruct (Hc v Hv); by eexists | done]). split; [done |].
    destruct (cl_Kind v.2) eqn:Ek; [done | by destruct (Hnb v Hv) | by destruct (Hf v Hv)].
Qed.

Lemma concludes_ext vs vs' r : (∀ v, v ∈ vs ↔ v ∈ vs') → concludes vs r → concludes vs' r.
Proof.
  intros He. destruct r as [[deps | e | f] |]; cbn [concludes].
  - intros (? & ? & Hd). split_and!; [done | done |]. intros id. rewrite Hd. by setoid_rewrite He.
  - intros (Hn & id & (cl & Hcl & ?) & Hm). split; [intros v Hv; apply Hn; by apply He |]. exists id. split; [exists cl; by rewrite <- He | intros v Hv; apply Hm; by apply He].
  - intros (Hn & ? & ? & Hf & Hl). split; [intros v Hv; apply Hn; by apply He |]. split_and!; [done | done | intros id; rewrite Hf; by setoid_rewrite He |].
    intros id. specialize (Hl id). destruct (Reasons f !! id); [| intros cl Hcl; apply Hl; by apply He]. destruct Hl as [(cl & Hcl & ?) Hm]. split; [exists cl; by rewrite <- He | intros cl' Hcl'; apply Hm; by apply He].
  - intros Hn v Hv. apply Hn. by apply He.
Qed.

Lemma least_alike vs (r r' : gmap NamedResource DiagnosticReason) id : least_reasons vs r → least_reasons vs r' → bare <$> r !! id = bare <$> r' !! id.
Proof.
  intros Hl Hl'. specialize (Hl id). specialize (Hl' id). destruct (r !! id) as [a |], (r' !! id) as [b |]; [| destruct Hl as [(cl & Hcl & Hf & _) _]; by destruct (Hl' cl) | destruct Hl' as [(cl & Hcl & Hf & _) _]; by destruct (Hl cl) | done].
  destruct Hl as [(cl & Hcl & Hf & ->) Hm], Hl' as [(cl' & Hcl' & Hf' & ->) Hm']. cbn. f_equal. apply DiagnosticReason_Compare_eq.
  specialize (Hm cl' Hcl' Hf'). specialize (Hm' cl Hcl Hf). rewrite (DiagnosticReason_Compare_opp (class_reason cl id)) in Hm'. by destruct (DiagnosticReason_Compare (class_reason cl id) (class_reason cl' id)).
Qed.

Lemma concludes_unique vs a b : concludes vs a → concludes vs b → says_alike vs a b.
Proof.
  assert (∀ l, l ≠ [] → (∀ id, id ∈ l ↔ ∃ cl, (id, cl) ∈ vs ∧ blocks (id, cl)) → (∀ v, v ∈ vs → ¬ blocks v) → False) as Hb.
  { intros l [id Hid]%nonempty_elem Hl Hn. apply Hl in Hid as (cl & Hcl & ?). by apply (Hn _ Hcl). }
  assert (∀ l, l ≠ [] → (∀ id, id ∈ l ↔ ∃ cl, (id, cl) ∈ vs ∧ fails (id, cl)) → (∀ v, v ∈ vs → ¬ fails v) → False) as Hf.
  { intros l [id Hid]%nonempty_elem Hl Hn. apply Hl in Hid as (cl & Hcl & ?). by apply (Hn _ Hcl). }
  assert ((∀ v, v ∈ vs → v.2.(cl_Err) = None ∧ v.2.(cl_Kind) = Terminal) → (∀ v, v ∈ vs → ¬ blocks v) ∧ (∀ v, v ∈ vs → ¬ fails v) ∧ ∀ v, v ∈ vs → ¬ errs v) as Ht.
  { intros Hv. split_and!; intros v Hin; destruct (Hv v Hin) as [He Hk]; unfold blocks, fails, errs; rewrite ?He, ?Hk; [by intros [] | by intros [] | by intros [??]]. }
  intros Ha Hb'. destruct a as [[d | e | f] |], b as [[d' | e' | f'] |]; cbn [concludes says_alike] in *.
  - destruct Ha as (_ & Hs & Hd), Hb' as (_ & Hs' & Hd'). apply strictly_sorted_unique; [done.. |]. intros id. by rewrite Hd, Hd'.
  - destruct Ha as (? & _ & ?), Hb' as (? & _). by eapply (Hb d).
  - destruct Ha as (? & _ & ?), Hb' as (Hn & _). eapply (Hb d); [done | done |]. intros v Hv. by apply Hn.
  - destruct Ha as (? & _ & ?), (Ht Hb') as (? & _). by eapply (Hb d).
  - destruct Ha as (? & _), Hb' as (? & _ & ?). by eapply (Hb d').
  - destruct Ha as (_ & id & (cl & Hcl & He) & Hm), Hb' as (_ & id' & (cl' & Hcl' & He') & Hm'). specialize (Hm _ Hcl' ltac:(by exists e')). specialize (Hm' _ Hcl ltac:(by exists e)). cbn [fst] in *.
    assert (id = id') as <-; [| by exists id, cl, cl']. apply compare_eq. rewrite (compare_opp id id') in Hm'. by destruct (compare id id').
  - destruct Ha as (_ & id & (cl & Hcl & He) & _), Hb' as (Hn & _). destruct (Hn _ Hcl) as [_ []]. by exists e.
  - destruct Ha as (_ & id & (cl & Hcl & He) & _), (Ht Hb') as (_ & _ & Hn). destruct (Hn _ Hcl). by exists e.
  - destruct Ha as (Hn & _), Hb' as (? & _ & ?). eapply (Hb d'); [done | done |]. intros v Hv. by apply Hn.
  - destruct Ha as (Hn & _), Hb' as (_ & id & (cl & Hcl & He) & _). destruct (Hn _ Hcl) as [_ []]. by exists e'.
  - destruct Ha as (_ & _ & Hs & Hfa & Hl), Hb' as (_ & _ & Hs' & Hfa' & Hl'). split; [apply strictly_sorted_unique; [done.. |]; intros id; by rewrite Hfa, Hfa' |]. intros id. by apply (least_alike vs).
  - destruct Ha as (_ & ? & _ & ? & _), (Ht Hb') as (_ & ? & _). by eapply (Hf (Failed f)).
  - destruct Hb' as (? & _ & ?), (Ht Ha) as (? & _). by eapply (Hb d').
  - destruct Hb' as (_ & id & (cl & Hcl & He) & _), (Ht Ha) as (_ & _ & Hn). destruct (Hn _ Hcl). by exists e'.
  - destruct Hb' as (_ & ? & _ & ? & _), (Ht Ha) as (_ & ? & _). by eapply (Hf (Failed f')).
  - done.
Qed.
End conclusions.

(** ** Waiting *)

Section waiting.
Context {O : Type} `{Descriptor O} (quote : string → string).
Context (evaluate : stateReader (O := O) → string → NamedResource → option O → list Condition → cel_result).
(** What an execution was made with: its own identity, its policy and its lookup, what the
    selection reconciles already, and what the store says of unsettled producers. *)
Context (self : NamedResource) (allow : bool) (existence : option (lookup_promote (O := O))).
Context (reconciles : NamedResource → bool) (keepEmitted : ReadSet → stateReader (O := O) → option string * stateReader (O := O)).
Context (unsettled : stateReader (O := O) → NamedResource → list NamedResource).

Definition classify_reads (level : DrainLevel) (s : stateReader) (r : ReadSet) : option gate_error * stateReader :=
  classify_gates quote evaluate self allow existence level s (Gates r).

Fixpoint require_all (r : ReadSet) (deps : list DependencyRef) : option ReadSet :=
  match deps with [] => Some r | dep :: deps => r ← Require_ r dep; require_all r deps end.

(** [Require]: the error of the admission, or what the gates conclude. *)
Definition Require (level : DrainLevel) (s : stateReader) (r : ReadSet) (deps : list DependencyRef) : option ((string + option gate_error) * stateReader * ReadSet) :=
  r ← require_all r deps;
  if existsb (λ dep, negb (reconciles dep.(dep_id))) deps then
    match keepEmitted r s with
    | (Some err, s) => Some (inl err, s, r)
    | (None, s) => let '(result, s) := classify_reads level s r in Some (inr result, s, r)
    end
  else let '(result, s) := classify_reads level s r in Some (inr result, s, r).

(** *** Values inputs *)

(** What [Settle] of [pendingDataError] returns; [DataResumed] is its call of [Resume] on the
    inputs that are left out. *)
Inductive data_result :=
  | DataError (e : wait_error) | DataPending (blocked : list NamedResource) | DataFailed (f : DependencyFailedError) | DataGate (e : gate_error)
  | DataResumed (omitted : list NamedResource).

(** The causes of a failing input: its own identity when none are named. *)
Definition charged (causes : list NamedResource) (input : NamedResource) : list NamedResource := match causes with [] => [input] | _ => causes end.

(** [addFailure]. *)
Definition addFailure (failed : option DependencyFailedError) (causes : list NamedResource) (reason : DiagnosticReason) (input : NamedResource) : DependencyFailedError :=
  let failed := default (mkDependencyFailed [] ∅) failed in
  fold_left (λ f cause, mkDependencyFailed (f.(Failed) ++ [cause]) (<[cause := reason]> f.(Reasons))) (charged causes input) failed.

(** What the loop of [Settle] carries: [p.blocked], [failed] and [omitted]. *)
Record progress := mkProgress { p_blocked : list NamedResource; p_failed : option DependencyFailedError; p_omitted : list NamedResource }.

(** One input, by its availability. *)
Definition settle_input (dep : DataDependency) (a : availability) (p : progress) : progress :=
  let id := dep.(data_ref).(dep_id) in
  let p' := if a.(a_Omit) && negb dep.(Optional) then mkProgress p.(p_blocked) p.(p_failed) (p.(p_omitted) ++ [id]) else p in
  match a.(a_Kind) with
  | Blocked => mkProgress (p.(p_blocked) ++ a.(a_Blocked)) p.(p_failed) p.(p_omitted)
  | DependencyFailed => mkProgress p.(p_blocked) (Some (addFailure p.(p_failed) a.(a_Failed) a.(a_Reason) id)) p.(p_omitted)
  | Terminal => p'
  end.

Definition requires_data (dep : DataDependency) (a : availability) : bool :=
  negb dep.(Optional) && negb dep.(DepWait.Input).(Private) && bool_decide (a.(a_Kind) ≠ Blocked) && negb a.(a_Omit).

(** The loop over the inputs: the first error, or what it carries at its end. *)
Fixpoint settle_inputs (level : DrainLevel) (s : stateReader) (r : ReadSet) (inputs : list DataDependency) (p : progress) : option ((wait_error + progress) * stateReader * ReadSet) :=
  match inputs with
  | [] => Some (inr p, s, r)
  | dep :: inputs =>
      let id := dep.(data_ref).(dep_id) in
      let '(a, s) := Available quote evaluate existence (gate_waiter self allow false) s dep level (unsettled s id) in
      match a.(a_Err) with
      | Some e => Some (inl e, s, r)
      | None => r ← (if requires_data dep a then RequireData r id else Some r); settle_inputs level s r inputs (settle_input dep a p)
      end
  end.

(** What the end of the loop returns; [gate] is [gateErr]. *)
Definition settle_result (gate : option gate_error) (p : progress) : data_result :=
  if bool_decide (p.(p_blocked) ≠ []) then DataPending (sorted_ids p.(p_blocked))
  else
    match p.(p_failed), gate with
    | Some f, _ => DataFailed (mkDependencyFailed (sorted_ids f.(Failed)) f.(Reasons))
    | None, Some e => DataGate e
    | None, None => DataResumed (sorted_ids p.(p_omitted))
    end.

Definition initial_progress (gate : option gate_error) : progress :=
  mkProgress (match gate with Some (GateBlocked deps) => deps | _ => [] end) (match gate with Some (GateFailed f) => Some f | _ => None end) [].

(** [Settle] of [pendingDataError]. *)
Definition settle_data (level : DrainLevel) (s : stateReader) (r : ReadSet) (inputs : list DataDependency) : option (data_result * stateReader * ReadSet) :=
  let '(gate, s) := classify_reads level s r in
  '(result, s, r) ← settle_inputs level s r inputs (initial_progress gate);
  Some (match result with inl e => DataError e | inr p => settle_result gate p end, s, r).

(** [AwaitData]. *)
Fixpoint require_data (r : ReadSet) (ids : list NamedResource) : option ReadSet :=
  match ids with [] => Some r | id :: ids => r ← RequireData r id; require_data r ids end.

Definition awaited (inputs : list DataDependency) : list NamedResource :=
  concat (map (λ i, if negb i.(Optional) && negb i.(DepWait.Input).(Private) then i.(DepWait.Input).(Materializers) else []) inputs).

Definition AwaitData (level : DrainLevel) (s : stateReader) (r : ReadSet) (inputs : list DataDependency) : option (data_result * stateReader * ReadSet) :=
  r ← require_data r (awaited inputs); settle_data level s r inputs.

(** *** The declaration *)

Inductive declaration_result := Declared | NoDeclaration | DeclarationPending (deps : list NamedResource) | DeclarationCause (e : wait_error) | DeclarationFailed (f : DependencyFailedError).

Fixpoint require_materializers (r : ReadSet) (owners : list NamedResource) : option ReadSet :=
  match owners with [] => Some r | owner :: owners => r ← RequireMaterializer r owner; require_materializers r owners end.

Definition not_emitted (s : stateReader) (owner : NamedResource) : DiagnosticReason := mkReason (DiagnosticFor owner (GetObject s owner)) "declaration not emitted" [].

Definition charge_owner (s : stateReader) (reasons : gmap NamedResource DiagnosticReason) (owner : NamedResource) : gmap NamedResource DiagnosticReason :=
  match reasons !! owner with Some _ => reasons | None => <[owner := not_emitted s owner]> reasons end.

(** The failure of the gates, if any, with the owners added. *)
Definition declaration_failure (s : stateReader) (owners : list NamedResource) (f : DependencyFailedError) : DependencyFailedError :=
  mkDependencyFailed (sorted_ids (f.(Failed) ++ owners)) (fold_left (charge_owner s) owners f.(Reasons)).

(** [requireDeclaration]: [declared] is whether the declaration is there, [materializers]
    what materializes the productions of the execution's identity. *)
Definition requireDeclaration (declared : bool) (materializers : list NamedResource) (level : DrainLevel) (s : stateReader) (r : ReadSet)
    : option (declaration_result * stateReader * ReadSet) :=
  if declared then Some (Declared, s, r)
  else
    let owners := sorted_ids (filter (λ owner, owner ≠ no_resource ∧ owner ≠ self) materializers) in
    match owners with
    | [] => Some (NoDeclaration, s, r)
    | _ =>
        r ← require_materializers r owners;
        let '(err, s) := classify_reads level s r in
        let failed f := DeclarationFailed (declaration_failure s owners f) in
        Some (match err with
              | Some (GateBlocked deps) => DeclarationPending deps
              | Some (GateCause e) => DeclarationCause e
              | Some (GateFailed f) => failed f
              | None => failed (mkDependencyFailed [] ∅)
              end, s, r)
    end.
End waiting.

Section answers.
Context {O : Type} `{Descriptor O} (quote : string → string).
Context (evaluate : stateReader (O := O) → string → NamedResource → option O → list Condition → cel_result).
Implicit Types (s : stateReader (O := O)) (gates : list Gate).

Lemma Classify_quiet w s dep level : (Classify quote evaluate w None s dep level).2 = s.
Proof.
  assert ((classify quote evaluate w None s dep level).2 = s) as He by (unfold classify; repeat (case_match; simplify_eq/=; try done)).
  unfold Classify. cbn [loop]. unfold Classify_step. cbn [fst snd]. destruct (classify quote evaluate w None s dep level) as [[c |] s'] eqn:E; [done |]. destruct (classify_no_lookup quote evaluate w s dep level) as [c Hc]. by rewrite E in Hc.
Qed.

Lemma verdicts_quiet self allow level s gates : verdicts quote evaluate self allow None level s gates =
  (map (λ g, (g.(g_Ref).(dep_id), (Classify quote evaluate (gate_waiter self allow g.(Materializer)) None s g.(g_Ref) level).1)) gates, s).
Proof.
  induction gates as [| g gates IH]; [done |]. cbn [verdicts map]. pose proof (Classify_quiet (gate_waiter self allow (Materializer g)) s (g_Ref g) level) as Hq.
  destruct (Classify quote evaluate (gate_waiter self allow (Materializer g)) None s (g_Ref g) level) as [cl s']. cbn [snd fst] in *. subst s'. by rewrite IH.
Qed.

Lemma verdicts_ids self allow existence level s gates : (verdicts quote evaluate self allow existence level s gates).1.*1 = map (λ g, g.(g_Ref).(dep_id)) gates.
Proof.
  revert s. induction gates as [| g gates IH]; intros s; [done |]. cbn [verdicts map]. destruct (Classify _ _ _ _ _ _ _) as [cl s']. specialize (IH s'). destruct (verdicts _ _ _ _ _ _ s' gates) as [vs s'']. cbn in *. by rewrite IH.
Qed.

Lemma verdicts_force self allow existence s gates v : v ∈ (verdicts quote evaluate self allow existence DrainForce s gates).1 → ¬ blocks v.
Proof.
  revert s. induction gates as [| g gates IH]; intros s; cbn [verdicts]; [by intros ?%elem_of_nil |]. pose proof (Classify_force quote evaluate (gate_waiter self allow (Materializer g)) existence s (g_Ref g)) as Hf.
  destruct (Classify _ _ _ _ _ _ _) as [cl s']. specialize (IH s'). destruct (verdicts _ _ _ _ _ _ s' gates) as [vs s'']. cbn [fst] in *. intros [-> | ?]%elem_of_cons; [by intros [_ ?] | by apply IH].
Qed.

Lemma classify_gates_concludes self allow existence level s gates :
  concludes (verdicts quote evaluate self allow existence level s gates).1 (classify_gates quote evaluate self allow existence level s gates).1.
Proof. unfold classify_gates. pose proof (conclude_spec (verdicts quote evaluate self allow existence level s gates).1) as Hc. by destruct (verdicts _ _ _ _ _ _ _ _). Qed.

Lemma classify_gates_force self allow existence s gates deps : (classify_gates quote evaluate self allow existence DrainForce s gates).1 ≠ Some (GateBlocked deps).
Proof.
  intros He. pose proof (classify_gates_concludes self allow existence DrainForce s gates) as Hc. rewrite He in Hc. destruct Hc as ([id Hid]%nonempty_elem & _ & Hd). apply Hd in Hid as (cl & Hcl & Hb). by apply (verdicts_force _ _ _ _ _ _ Hcl).
Qed.

Lemma classify_gates_order self allow level s gates gates' : (∀ g, g ∈ gates ↔ g ∈ gates') →
  let vs := (verdicts quote evaluate self allow None level s gates).1 in
  classify_gates quote evaluate self allow None level s gates = ((classify_gates quote evaluate self allow None level s gates).1, s) ∧
  says_alike vs (classify_gates quote evaluate self allow None level s gates).1 (classify_gates quote evaluate self allow None level s gates').1.
Proof.
  intros He vs. split; [unfold classify_gates; by rewrite verdicts_quiet |]. apply concludes_unique; [apply classify_gates_concludes |].
  apply (concludes_ext (verdicts quote evaluate self allow None level s gates').1); [| apply classify_gates_concludes]. intros v. unfold vs. rewrite !verdicts_quiet. cbn [fst]. rewrite !list_elem_of_fmap. by setoid_rewrite He.
Qed.
End answers.

(** *** What a read set keeps *)

Section kept.
Implicit Types (r : ReadSet) (ds : list demand).

Lemma asks_keep (f : NamedResource → demand) (step : ReadSet → NamedResource → option ReadSet) (all : ReadSet → list NamedResource → option ReadSet) :
  (∀ r id, serve r (f id) = step r id) → (∀ r, all r [] = Some r) → (∀ r id ids, all r (id :: ids) = r ← step r id; all r ids) →
  ∀ r ids, all r ids = serve_all r (map (pair 0) (map f ids)).
Proof. intros Hs Hn Hc r ids. revert r. induction ids as [| id ids IH]; intros r; [by rewrite Hn |]. rewrite Hc. cbn [map serve_all]. change (reserve r 0) with r. rewrite Hs. destruct (step r id); [apply IH | done]. Qed.

Lemma require_all_serve r deps : require_all r deps = serve_all r (map (pair 0) (map (λ d, Requires d false) deps)).
Proof. revert r. induction deps as [| d deps IH]; intros r; [done |]. cbn [require_all map serve_all]. change (reserve r 0) with r. change (Require_ r d) with (serve r (Requires d false)). destruct (serve r (Requires d false)); [apply IH | done]. Qed.

Lemma serve_all_app r l1 l2 : serve_all r (l1 ++ l2) = r ← serve_all r l1; serve_all r l2.
Proof. revert r. induction l1 as [| [n d] l1 IH]; intros r; [done |]. cbn [app serve_all]. destruct (serve (reserve r n) d); [apply IH | done]. Qed.

Lemma snd_pair {A} (l : list A) : (map (pair 0) l).*2 = l.
Proof. induction l as [| x l IH]; [done |]. cbn. by f_equal. Qed.

Lemma Gates_serves ds r g : serves ds r → (∀ id, is_Some (linear r id) ↔ ∃ d, d ∈ ds ∧ demand_id d = id) → g ∈ Gates r ↔ ∃ ref m, Requires ref m ∈ ds ∧ g = mkGate ref m.
Proof.
  intros [Hr Hone Hgood] Hk. rewrite Gates_elem. split.
  - intros (h & i & Hh & Hi & Hg). apply (g_gates _ _ (Hgood h i Hh Hi)) in Hg as (ref & m & ? & _ & ->). by exists ref, m.
  - intros (ref & m & Hin & ->). destruct (asked r ds (Requires ref m) Hk Hr Hin) as (h & i & Hh & Hi & Hid). cbn in Hid. exists h, i. split; [done |]. split; [done |]. apply (g_gates _ _ (Hgood h i Hh Hi)). by exists ref, m.
Qed.
End kept.

(** A read set of which exactly these demands were made. *)
Definition reads_of (ds : list demand) (r : ReadSet) : Prop := serves ds r ∧ ∀ id, is_Some (linear r id) ↔ ∃ d, d ∈ ds ∧ demand_id d = id.

Section more.
Implicit Types (r : ReadSet) (ds : list demand).

Lemma reads_init lent : reads_of [] (Init lent).
Proof. destruct (serve_all_spec lent []) as (r & [= <-] & Hs & Hk). by split. Qed.

Lemma reads_serve ds r d : reads_of ds r → ∃ r', serve r d = Some r' ∧ reads_of (ds ++ [d]) r'.
Proof.
  intros [Hs Hk]. destruct (serve_spec r ds d Hs Hk) as (r' & He & Hs' & Hsome & Ho). exists r'. split; [done |]. split; [done |]. intros id. destruct (decide (id = demand_id d)) as [-> | Hne].
  - split; [intros _; exists d; split; [apply elem_snoc; by right | done] | done].
  - rewrite Ho, Hk by done. split; intros (x & Hx & Hid); exists x; (split; [| done]); [apply elem_snoc; by left |]. apply elem_snoc in Hx as [? | ->]; [done | congruence].
Qed.

Lemma reads_all ds r ds' : reads_of ds r → ∃ r', serve_all r (map (pair 0) ds') = Some r' ∧ reads_of (ds ++ ds') r'.
Proof.
  revert ds r. induction ds' as [| d ds' IH]; intros ds r Hr; [exists r; by rewrite app_nil_r |]. cbn [map serve_all]. change (reserve r 0) with r.
  destruct (reads_serve ds r d Hr) as (r1 & -> & H1). cbn [mbind option_bind]. destruct (IH _ _ H1) as (r' & He & Hr'). exists r'. split; [done |]. by rewrite <- app_assoc in Hr'.
Qed.

Lemma reads_require ds r deps : reads_of ds r → ∃ r', require_all r deps = Some r' ∧ reads_of (ds ++ map (λ d, Requires d false) deps) r'.
Proof. intros Hr. rewrite require_all_serve. by apply reads_all. Qed.

Lemma reads_data ds r ids : reads_of ds r → ∃ r', require_data r ids = Some r' ∧ reads_of (ds ++ map Data ids) r'.
Proof. intros Hr. rewrite (asks_keep Data RequireData require_data) by done. by apply reads_all. Qed.

Lemma reads_materializers ds r ids : reads_of ds r → ∃ r', require_materializers r ids = Some r' ∧ reads_of (ds ++ map (λ id, Requires (plain_ref id) true) ids) r'.
Proof. intros Hr. rewrite (asks_keep (λ id, Requires (plain_ref id) true) RequireMaterializer require_materializers) by done. by apply reads_all. Qed.

Lemma reads_gates ds r g : reads_of ds r → g ∈ Gates r ↔ ∃ ref m, Requires ref m ∈ ds ∧ g = mkGate ref m.
Proof. intros [Hs Hk]. by apply Gates_serves. Qed.
End more.

(** ** What the waits conclude *)

Section waits.
Context {O : Type} `{Descriptor O} (quote : string → string).
Context (evaluate : stateReader (O := O) → string → NamedResource → option O → list Condition → cel_result).
Context (self : NamedResource) (allow : bool) (existence : option (lookup_promote (O := O))).
Context (unsettled : stateReader (O := O) → NamedResource → list NamedResource).

(** The availabilities of the inputs, each on the snapshot that the last one left, up to the
    first error. *)
Fixpoint availabilities (level : DrainLevel) (s : stateReader) (inputs : list DataDependency) : list (DataDependency * availability) :=
  match inputs with
  | [] => []
  | dep :: inputs =>
      let '(a, s) := Available quote evaluate existence (gate_waiter self allow false) s dep level (unsettled s dep.(data_ref).(dep_id)) in
      (dep, a) :: if bool_decide (a.(a_Err) = None) then availabilities level s inputs else []
  end.

(** An input that is blocked says on what. *)
Lemma Available_blocked w s dep level un a s' : Available quote evaluate existence w s dep level un = (a, s') → a.(a_Kind) = Blocked → a.(a_Blocked) ≠ [].
Proof.
  unfold Available. set (pending := if HasData _ then _ else _). assert (∀ producers blocked s, available_loop quote evaluate existence w s dep level pending producers blocked = (a, s') → a_Kind a = Blocked → a_Blocked a ≠ []) as Hl; [| by apply Hl].
  clear s. intros producers. induction producers as [| producer rest IH]; intros blocked s; cbn [available_loop].
  - case_bool_decide as Hb0; [intros [= <- _] _; exact Hb0 |]. destruct (HasData _); [intros [= <- _]; discriminate |]. unfold availableAbsent. destruct (_ || bool_decide _); [intros [= <- <-]; by destruct (absence_allowed dep) |].
    destruct (_ && _); [by intros [= <- <-] |]. destruct (Classify _ _ _ _ _ _ _) as [cl s1]. intros [= <- <-]. destruct (cl_Err cl); [done |]. case_bool_decide as Hb; [done |]. destruct (absence_allowed dep); [done |]. by case_bool_decide.
  - case_bool_decide; [apply IH |]. destruct (Classify _ _ _ _ _ _ _) as [cl s1]. destruct (cl_Err cl); [by intros [= <- <-] |]. destruct (materializerFailure w s1 dep producer cl) as [x |] eqn:Em; [| apply IH].
    intros [= <- <-] Hk. apply materializerFailure_kind in Em. congruence.
Qed.

(** The causes that a failing input is charged to. *)
Definition causes_of (d : DataDependency * availability) : list NamedResource := charged d.2.(a_Failed) d.1.(data_ref).(dep_id).

(** An input whose data is required once it is known: it is needed, it is not private to its
    producer, and neither waits nor is left out. *)
Definition data_needed (d : DataDependency * availability) : Prop :=
  d.2.(a_Err) = None ∧ d.1.(Optional) = false ∧ d.1.(DepWait.Input).(Private) = false ∧ d.2.(a_Kind) ≠ Blocked ∧ d.2.(a_Omit) = false.

Lemma data_needed_spec d : data_needed d ↔ d.2.(a_Err) = None ∧ requires_data d.1 d.2 = true.
Proof. unfold data_needed, requires_data. rewrite !andb_true_iff, !negb_true_iff, bool_decide_eq_true. tauto. Qed.

Definition data_fails (d : DataDependency * availability) : Prop := d.2.(a_Err) = None ∧ d.2.(a_Kind) = DependencyFailed.
Definition data_blocks (d : DataDependency * availability) : Prop := d.2.(a_Err) = None ∧ d.2.(a_Kind) = Blocked.
Definition data_omitted (d : DataDependency * availability) : Prop := d.2.(a_Err) = None ∧ d.2.(a_Kind) = Terminal ∧ d.2.(a_Omit) = true ∧ d.1.(Optional) = false.

Record carried (p0 : progress) (ds : list (DataDependency * availability)) (p : progress) : Prop := mkCarried {
  ca_blocked : ∀ id, id ∈ p.(p_blocked) ↔ id ∈ p0.(p_blocked) ∨ ∃ d, d ∈ ds ∧ data_blocks d ∧ id ∈ d.2.(a_Blocked);
  ca_failed : match p.(p_failed) with
    | Some f => (∀ id, id ∈ f.(Failed) ↔ (∃ f0, p0.(p_failed) = Some f0 ∧ id ∈ f0.(Failed)) ∨ ∃ d, d ∈ ds ∧ data_fails d ∧ id ∈ causes_of d) ∧
        ((∃ f0, p0.(p_failed) = Some f0) ∨ ∃ d, d ∈ ds ∧ data_fails d)
    | None => p0.(p_failed) = None ∧ ∀ d, d ∈ ds → ¬ data_fails d
    end;
  ca_omitted : ∀ id, id ∈ p.(p_omitted) ↔ id ∈ p0.(p_omitted) ∨ ∃ d, d ∈ ds ∧ data_omitted d ∧ id = d.1.(data_ref).(dep_id);
}.

Lemma addFailure_ids failed causes reason input id : id ∈ (addFailure failed causes reason input).(Failed) ↔ (∃ f, failed = Some f ∧ id ∈ f.(Failed)) ∨ id ∈ charged causes input.
Proof.
  unfold addFailure. set (l := charged causes input). assert (∀ f l, id ∈ (fold_left (λ f cause, mkDependencyFailed (f.(Failed) ++ [cause]) (<[cause := reason]> f.(Reasons))) l f).(Failed) ↔ id ∈ f.(Failed) ∨ id ∈ l) as Hfold.
  { clear. intros f l. revert f. induction l as [| c l IH]; intros f; cbn [fold_left]; [rewrite elem_of_nil; tauto |]. rewrite IH. cbn [Failed]. rewrite elem_snoc, elem_of_cons. tauto. }
  rewrite Hfold. destruct failed as [f |]; cbn [default Failed]; [| rewrite elem_of_nil]; split; try (intros [? | ?]; [| by right]); try tauto.
  - left. by exists f.
  - by destruct H0 as (f' & [= <-] & ?); left.
  - by destruct H0 as (f' & [=] & _).
Qed.

Lemma exists_cons {A} (x : A) l (P : A → Prop) : (∃ y, y ∈ x :: l ∧ P y) ↔ P x ∨ ∃ y, y ∈ l ∧ P y.
Proof. setoid_rewrite elem_of_cons. split; [intros (y & [-> | ?] & ?); [by left | right; by exists y] | intros [? | (y & ? & ?)]; [exists x; tauto | exists y; tauto]]. Qed.

Lemma settle_input_carried dep a p ds p' : a.(a_Err) = None → carried (settle_input dep a p) ds p' → carried p ((dep, a) :: ds) p'.
Proof.
  intros Ha [Hb Hf Ho]. split.
  - intros id. rewrite Hb, (exists_cons (dep, a)). unfold data_blocks at 2. cbn [fst snd]. unfold settle_input.
    destruct (a_Kind a) eqn:Ek; cbn [p_blocked]; [destruct (_ && _); cbn [p_blocked]; intuition congruence | rewrite elem_of_app; tauto | intuition congruence].
  - assert (∀ l P, (∀ d, d ∈ (dep, a) :: l → ¬ P d) ↔ ¬ P (dep, a) ∧ ∀ d, d ∈ l → ¬ P d) as Hall.
    { intros l P. split; [intros Hl; split; [apply Hl; by left | intros d Hd; apply Hl; by right] | intros [? Hl] d [-> | ?]%elem_of_cons; [done | by apply Hl]]. }
    destruct (decide (a_Kind a = DependencyFailed)) as [Ek | Ek].
    + assert (p_failed (settle_input dep a p) = Some (addFailure (p_failed p) (a_Failed a) (a_Reason a) (dep_id (data_ref dep)))) as He by (unfold settle_input; by rewrite Ek).
      rewrite He in Hf. destruct (p_failed p') as [f |]; [| by destruct Hf]. destruct Hf as [Hf _]. split; [| right; rewrite (exists_cons (dep, a)); by left].
      intros id. rewrite Hf, (exists_cons (dep, a)). assert ((∃ f0, Some (addFailure (p_failed p) (a_Failed a) (a_Reason a) (dep_id (data_ref dep))) = Some f0 ∧ id ∈ Failed f0) ↔
        (∃ f0, p_failed p = Some f0 ∧ id ∈ f0.(Failed)) ∨ id ∈ causes_of (dep, a)) as ->.
      { unfold causes_of. cbn [fst snd]. rewrite <- addFailure_ids. split; [by intros (f0 & [= <-] & ?) | intros ?; by eexists]. }
      unfold data_fails at 2. cbn [fst snd]. tauto.
    + assert (p_failed (settle_input dep a p) = p_failed p) as He by (unfold settle_input; destruct (a_Kind a); [by destruct (_ && _) | done | done]). rewrite He in Hf.
      assert (¬ data_fails (dep, a)) as Hn by (by intros [_ ?]). destruct (p_failed p') as [f |].
      * destruct Hf as [Hf Hx]. split; [intros id; rewrite Hf, (exists_cons (dep, a)); tauto | rewrite (exists_cons (dep, a)); tauto].
      * destruct Hf as [? Hf]. split; [done |]. by apply Hall.
  - intros id. rewrite Ho, (exists_cons (dep, a)). unfold data_omitted at 2. cbn [fst snd]. unfold settle_input. destruct (a_Kind a) eqn:Ek; cbn [p_omitted]; [| intuition congruence | intuition congruence].
    destruct (a_Omit a), (Optional dep); cbn [andb negb p_omitted]; rewrite ?elem_snoc; intuition congruence.
Qed.

Lemma settle_inputs_spec level s r ds inputs p : reads_of ds r → ∃ result s' r' required,
  settle_inputs quote evaluate self allow existence unsettled level s r inputs p = Some (result, s', r') ∧ reads_of (ds ++ map Data required) r' ∧
  (∀ id, id ∈ required ↔ ∃ d, d ∈ availabilities level s inputs ∧ d.2.(a_Err) = None ∧ requires_data d.1 d.2 = true ∧ id = d.1.(data_ref).(dep_id)) ∧
  match result with
  | inl e => ∃ d, d ∈ availabilities level s inputs ∧ d.2.(a_Err) = Some e ∧ ∀ d' e', d' ∈ availabilities level s inputs → d'.2.(a_Err) = Some e' → e' = e
  | inr p' => length (availabilities level s inputs) = length inputs ∧ (∀ d, d ∈ availabilities level s inputs → d.2.(a_Err) = None) ∧ carried p (availabilities level s inputs) p'
  end.
Proof.
  revert s r ds p. induction inputs as [| dep inputs IH]; intros s r ds p Hr; cbn [settle_inputs availabilities].
  { exists (inr p), s, r, []. rewrite app_nil_r. split; [done |]. split; [done |]. split; [intros id; split; [by intros ?%elem_of_nil | by intros (? & ?%elem_of_nil & _)] |]. split; [done |]. split; [by intros d ?%elem_of_nil |].
    split; intros; [| destruct (p_failed p); [split; [| by eauto] | by split; [| intros d ?%elem_of_nil]] |]; try intros id; split; try tauto; try (intros [? | (? & ?%elem_of_nil & _)]; done); [intros ?; left; by eexists | intros [(f0 & [= <-] & ?) | (? & ?%elem_of_nil & _)]; done]. }
  destruct (Available _ _ _ _ _ _ _ _) as [a s1] eqn:Ea. destruct (a_Err a) as [e |] eqn:Ee.
  { exists (inl e), s1, r, []. rewrite app_nil_r. rewrite bool_decide_false by congruence. split; [done |]. split; [done |]. split.
    - intros id. split; [by intros ?%elem_of_nil | intros (d & ->%list_elem_of_singleton & He & _); cbn in He; congruence].
    - exists (dep, a). split; [by left |]. split; [done |]. intros d' e' ->%list_elem_of_singleton He. cbn in He. congruence. }
  rewrite bool_decide_true by done. assert (∃ r1 extra, (if requires_data dep a then RequireData r (dep_id (data_ref dep)) else Some r) = Some r1 ∧ reads_of (ds ++ map Data extra) r1 ∧
    ∀ id, id ∈ extra ↔ requires_data dep a = true ∧ id = dep_id (data_ref dep)) as (r1 & extra & He1 & Hr1 & Hx).
  { destruct (requires_data dep a).
    - destruct (reads_serve ds r (Data (dep_id (data_ref dep))) Hr) as (r1 & He & Hr1). exists r1, [dep_id (data_ref dep)]. split; [done |]. split; [done |]. intros id. rewrite list_elem_of_singleton. naive_solver.
    - exists r, []. rewrite app_nil_r. split; [done |]. split; [done |]. intros id. rewrite elem_of_nil. naive_solver. }
  rewrite He1. cbn [mbind option_bind]. destruct (IH s1 r1 _ (settle_input dep a p) Hr1) as (result & s' & r' & required & -> & Hr' & Hreq & Hres). exists result, s', r', (extra ++ required). split; [done |].
  rewrite map_app, app_assoc. split; [done |]. split; [| destruct result as [e | p']].
  - intros id. rewrite elem_of_app, Hx, Hreq, (exists_cons (dep, a)). cbn [fst snd]. tauto.
  - destruct Hres as (d & Hd & Hde & Hu). exists d. split; [by right |]. split; [done |]. intros d' e' [-> | Hd']%elem_of_cons He'; [cbn in He'; congruence | by apply (Hu d')].
  - destruct Hres as (Hlen & Hn & Hc). split; [cbn; by rewrite Hlen |]. split; [intros d [-> | ?]%elem_of_cons; [done | by apply Hn] |]. by apply settle_input_carried.
Qed.
End waits.

(** What [Settle] may return, from what the gates concluded and how available its inputs are. *)
Definition waits_for (gate : option gate_error) (as_ : list (DataDependency * availability)) (result : data_result) : Prop :=
  let blocked id := (∃ deps, gate = Some (GateBlocked deps) ∧ id ∈ deps) ∨ ∃ d, d ∈ as_ ∧ data_blocks d ∧ id ∈ d.2.(a_Blocked) in
  let failed id := (∃ f, gate = Some (GateFailed f) ∧ id ∈ f.(Failed)) ∨ ∃ d, d ∈ as_ ∧ data_fails d ∧ id ∈ causes_of d in
  let quiet := (∀ d, d ∈ as_ → d.2.(a_Err) = None ∧ d.2.(a_Kind) ≠ Blocked) ∧ ∀ deps, gate ≠ Some (GateBlocked deps) in
  match result with
  | DataError e => ∃ d, d ∈ as_ ∧ d.2.(a_Err) = Some e
  | DataPending l => (∀ d, d ∈ as_ → d.2.(a_Err) = None) ∧ l ≠ [] ∧ StronglySorted (λ a b, compare a b = Lt) l ∧ ∀ id, id ∈ l ↔ blocked id
  | DataFailed f => quiet ∧ ((∃ f, gate = Some (GateFailed f)) ∨ ∃ d, d ∈ as_ ∧ data_fails d) ∧ StronglySorted (λ a b, compare a b = Lt) f.(Failed) ∧ ∀ id, id ∈ f.(Failed) ↔ failed id
  | DataGate e => quiet ∧ gate = Some e ∧ (∃ x, e = GateCause x) ∧ ∀ d, d ∈ as_ → d.2.(a_Kind) = Terminal
  | DataResumed omitted => quiet ∧ gate = None ∧ (∀ d, d ∈ as_ → d.2.(a_Kind) = Terminal) ∧ StronglySorted (λ a b, compare a b = Lt) omitted ∧
      ∀ id, id ∈ omitted ↔ ∃ d, d ∈ as_ ∧ data_omitted d ∧ id = d.1.(data_ref).(dep_id)
  end.

Section settling.
Context {O : Type} `{Descriptor O} (quote : string → string).
Context (evaluate : stateReader (O := O) → string → NamedResource → option O → list Condition → cel_result).
Context (self : NamedResource) (allow : bool) (existence : option (lookup_promote (O := O))).
Context (unsettled : stateReader (O := O) → NamedResource → list NamedResource).

Lemma availabilities_blocked level s inputs d : d ∈ availabilities quote evaluate self allow existence unsettled level s inputs → d.2.(a_Kind) = Blocked → d.2.(a_Blocked) ≠ [].
Proof.
  revert s. induction inputs as [| dep inputs IH]; intros s; cbn [availabilities]; [by intros ?%elem_of_nil |]. destruct (Available _ _ _ _ _ _ _ _) as [a s1] eqn:Ea.
  intros [-> | Hd]%elem_of_cons; [by eapply Available_blocked |]. case_bool_decide; [by apply (IH s1) | by apply elem_of_nil in Hd].
Qed.

Lemma availabilities_force s inputs d : d ∈ availabilities quote evaluate self allow existence unsettled DrainForce s inputs → d.2.(a_Kind) ≠ Blocked.
Proof.
  revert s. induction inputs as [| dep inputs IH]; intros s; cbn [availabilities]; [by intros ?%elem_of_nil |].
  pose proof (available_loop_force quote evaluate existence (gate_waiter self allow false) dep (if HasData (DepWait.Input dep) then [] else unsettled s (dep_id (data_ref dep))) (Materializers (DepWait.Input dep)) s) as Hf.
  unfold Available. destruct (available_loop _ _ _ _ _ _ _ _ _ _) as [a s1]. cbn [fst] in Hf.
  intros [-> | Hd]%elem_of_cons; [done |]. case_bool_decide; [by apply (IH s1) | by apply elem_of_nil in Hd].
Qed.

Lemma settle_result_spec gate as_ p : (∀ d, d ∈ as_ → d.2.(a_Err) = None) → (∀ d, d ∈ as_ → d.2.(a_Kind) = Blocked → d.2.(a_Blocked) ≠ []) → (∀ deps, gate = Some (GateBlocked deps) → deps ≠ []) →
  carried (initial_progress gate) as_ p → waits_for gate as_ (settle_result gate p).
Proof.
  intros He Hb Hg [Hpb Hpf Hpo]. unfold settle_result. destruct (bool_decide_reflect (p_blocked p ≠ [])) as [Hne | Hne].
  { split; [done |]. split; [by apply sorted_ids_nonempty |]. split; [apply sorted_ids_sorted |]. intros id. rewrite elem_of_sorted_ids, Hpb. unfold initial_progress. cbn [p_blocked].
    destruct gate as [[deps | e | f] |]; try (rewrite elem_of_nil; naive_solver). naive_solver. }
  assert ((∀ d, d ∈ as_ → d.2.(a_Err) = None ∧ d.2.(a_Kind) ≠ Blocked) ∧ ∀ deps, gate ≠ Some (GateBlocked deps)) as Hq.
  { split.
    - intros d Hd. split; [by apply He |]. intros Hk. destruct Hne. apply nonempty_elem. destruct (proj1 (nonempty_elem _) (Hb d Hd Hk)) as [id Hid]. exists id. apply Hpb. right. exists d. split; [done |]. split; [split; [by apply He | done] | done].
    - intros deps ->. destruct Hne. apply nonempty_elem. destruct (proj1 (nonempty_elem _) (Hg deps eq_refl)) as [id Hid]. exists id. apply Hpb. by left. }
  destruct (p_failed p) as [f |].
  - destruct Hpf as [Hpf Hx]. split; [done |]. split; [destruct Hx as [(f0 & Hf0) | Hx]; [left | by right]; unfold initial_progress in Hf0; cbn in Hf0; destruct gate as [[] |]; try done; by eexists |].
    split; [apply sorted_ids_sorted |]. intros id. cbn [Failed]. rewrite elem_of_sorted_ids, Hpf. unfold initial_progress. cbn [p_failed]. destruct gate as [[deps | e | f0] |]; naive_solver.
  - destruct Hpf as [Hp0 Hnf]. assert (∀ d, d ∈ as_ → d.2.(a_Kind) = Terminal) as Ht.
    { intros d Hd. destruct Hq as [Hq _]. destruct (Hq d Hd) as [Hde Hdk]. destruct (a_Kind d.2) eqn:Ek; [done | done |]. by destruct (Hnf d Hd). }
    destruct gate as [[deps | e | f] |]; [by destruct Hq as [_ Hq]; destruct (Hq deps) | split; [done |]; split; [done |]; split; [by eexists | done] | done |].
    split; [done |]. split; [done |]. split; [done |]. split; [apply sorted_ids_sorted |]. intros id. rewrite elem_of_sorted_ids, Hpo. cbn [initial_progress p_omitted]. rewrite elem_of_nil. tauto.
Qed.

Lemma classify_reads_nonempty level s r deps : (classify_reads quote evaluate self allow existence level s r).1 = Some (GateBlocked deps) → deps ≠ [].
Proof. intros He. pose proof (classify_gates_concludes quote evaluate self allow existence level s (Gates r)) as Hc. unfold classify_reads in He. rewrite He in Hc. by destruct Hc. Qed.

(** Waiting for inputs: it ends, whatever was asked of the read set, and requires the data
    of exactly the inputs that are needed and known. *)
Lemma AwaitData_spec ds r level s inputs : reads_of ds r → ∃ r1 result s' r' required,
  require_data r (awaited inputs) = Some r1 ∧ (∀ g, g ∈ Gates r1 ↔ ∃ ref m, Requires ref m ∈ ds ∧ g = mkGate ref m) ∧
  AwaitData quote evaluate self allow existence unsettled level s r inputs = Some (result, s', r') ∧
  let '(gate, s1) := classify_reads quote evaluate self allow existence level s r1 in
  let as_ := availabilities quote evaluate self allow existence unsettled level s1 inputs in
  reads_of (ds ++ map Data (awaited inputs ++ required)) r' ∧
  (∀ id, id ∈ required ↔ ∃ d, d ∈ as_ ∧ d.2.(a_Err) = None ∧ requires_data d.1 d.2 = true ∧ id = d.1.(data_ref).(dep_id)) ∧ waits_for gate as_ result.
Proof.
  intros Hr. destruct (reads_data ds r (awaited inputs) Hr) as (r1 & He1 & Hr1). unfold AwaitData. rewrite He1. cbn [mbind option_bind]. unfold settle_data.
  pose proof (classify_reads_nonempty level s r1) as Hne. destruct (classify_reads quote evaluate self allow existence level s r1) as [gate s1] eqn:Eg. cbn [fst] in Hne.
  destruct (settle_inputs_spec quote evaluate self allow existence unsettled level s1 r1 _ inputs (initial_progress gate) Hr1) as (result & s' & r' & required & -> & Hr' & Hreq & Hres). cbn [mbind option_bind].
  exists r1. eexists _, s', r', required. split; [done |]. split; [| split; [reflexivity |]].
  { intros g. rewrite (reads_gates _ _ _ Hr1). split; intros (ref & m & Hin & ->); exists ref, m; (split; [| done]); [apply elem_of_app in Hin as [? | (id & Hid & _)%list_elem_of_fmap]; done | apply elem_of_app; by left]. }
  rewrite Eg. rewrite map_app, app_assoc. split; [done |]. split; [done |]. destruct result as [e | p].
  - destruct Hres as (d & Hd & He & _). by exists d.
  - destruct Hres as (_ & Hn & Hc). apply settle_result_spec; [done | intros d Hd; by eapply availabilities_blocked | by intros deps ->; apply Hne | done].
Qed.
End settling.

(** ** The properties *)

(** Claim C24: whatever was asked of a fresh read set before, requiring readiness gates ends
    and concludes on exactly the gates required so far: blocked on the sorted distinct
    dependencies that may still become ready; else the error of the least dependency that
    has one; else failed over the sorted distinct dependencies that failed, each with its
    least reason; else ready, when every gate is.  Only an admission that is needed can fail
    before, the last drain level blocks on nothing, and without a lookup that promotes what
    it finds, the order of the gates does not matter. *)
Theorem Require_exact {O} `{Descriptor O} quote evaluate self allow existence reconciles keepEmitted lent nds level (s : stateReader (O := O)) deps :
  ∃ r r' result s', serve_all (Init lent) nds = Some r ∧
  Require quote evaluate self allow existence reconciles keepEmitted level s r deps = Some (result, s', r') ∧
  (∀ g, g ∈ Gates r' ↔ (∃ ref m, Requires ref m ∈ nds.*2 ∧ g = mkGate ref m) ∨ ∃ dep, dep ∈ deps ∧ g = mkGate dep false) ∧
  match result with
  | inl err => (∃ dep, dep ∈ deps ∧ reconciles dep.(dep_id) = false) ∧ keepEmitted r' s = (Some err, s')
  | inr c => ∃ s1, ((∀ dep, dep ∈ deps → reconciles dep.(dep_id) = true) ∧ s1 = s ∨ keepEmitted r' s = (None, s1)) ∧
      concludes (verdicts quote evaluate self allow existence level s1 (Gates r')).1 c ∧
      (∀ blocked, level = DrainForce → c ≠ Some (GateBlocked blocked)) ∧
      (existence = None → s' = s1 ∧ ∀ gates, (∀ g, g ∈ Gates r' ↔ g ∈ gates) →
         says_alike (verdicts quote evaluate self allow None level s1 (Gates r')).1 c (classify_gates quote evaluate self allow None level s1 gates).1)
  end.
Proof.
  destruct (serve_all_spec lent nds) as (r & He & Hr). destruct (reads_require _ r deps Hr) as (r' & Hq & Hr'). exists r, r'.
  assert (∀ s1, let '(c, s') := classify_reads quote evaluate self allow existence level s1 r' in
    concludes (verdicts quote evaluate self allow existence level s1 (Gates r')).1 c ∧ (∀ blocked, level = DrainForce → c ≠ Some (GateBlocked blocked)) ∧
    (existence = None → s' = s1 ∧ ∀ gates, (∀ g, g ∈ Gates r' ↔ g ∈ gates) →
       says_alike (verdicts quote evaluate self allow None level s1 (Gates r')).1 c (classify_gates quote evaluate self allow None level s1 gates).1)) as Hc.
  { intros s1. pose proof (classify_gates_concludes quote evaluate self allow existence level s1 (Gates r')) as Hc. pose proof (classify_gates_force quote evaluate self allow existence s1 (Gates r')) as Hf.
    unfold classify_reads. destruct (classify_gates quote evaluate self allow existence level s1 (Gates r')) as [c s'] eqn:E. split; [done |]. split; [intros b -> ->; by rewrite E in Hf; destruct (Hf b) |].
    intros ->. split.
    - destruct (classify_gates_order quote evaluate self allow level s1 (Gates r') (Gates r') ltac:(done)) as [Ho _]. rewrite E in Ho. by injection Ho.
    - intros gates Hg. destruct (classify_gates_order quote evaluate self allow level s1 (Gates r') gates Hg) as [_ Ho]. by rewrite E in Ho. }
  assert (∀ g, g ∈ Gates r' ↔ (∃ ref m, Requires ref m ∈ nds.*2 ∧ g = mkGate ref m) ∨ ∃ dep, dep ∈ deps ∧ g = mkGate dep false) as Hg.
  { intros g. rewrite (reads_gates _ _ _ Hr'). setoid_rewrite elem_of_app. setoid_rewrite list_elem_of_fmap. split.
    - intros (ref & m & [? | (dep & [= -> ->] & ?)] & ->); [left; by exists ref, m | right; by exists dep].
    - intros [(ref & m & ? & ->) | (dep & ? & ->)]; [exists ref, m; tauto | exists dep, false; split; [right; by exists dep | done]]. }
  unfold Require. rewrite Hq. cbn [mbind option_bind]. destruct (existsb _ deps) eqn:Ea.
  - destruct (keepEmitted r' s) as [[err |] s1] eqn:Ek.
    + eexists _, s1. split; [done |]. split; [reflexivity |]. split; [done |]. split; [| done]. apply existsb_exists in Ea as (dep & Hd & Hn). exists dep. split; [by apply list_elem_of_In | by destruct (reconciles (dep_id dep))].
    + specialize (Hc s1). destruct (classify_reads _ _ _ _ _ _ s1 r') as [c s']. eexists _, s'. split; [done |]. split; [reflexivity |]. split; [done |]. exists s1. split; [by right | done].
  - specialize (Hc s). destruct (classify_reads _ _ _ _ _ _ s r') as [c s']. eexists _, s'. split; [done |]. split; [reflexivity |]. split; [done |]. exists s. split; [left; split; [| done] | done].
    intros dep Hd. destruct (reconciles (dep_id dep)) eqn:Er; [done |]. assert (existsb (λ dep, negb (reconciles (dep_id dep))) deps = true) as Ht; [| congruence].
    apply existsb_exists. exists dep. split; [by apply list_elem_of_In | by rewrite Er].
Qed.

(** Claim C25: whatever was asked of a fresh read set before, a wait for values inputs ends.
    It requires the producers of what it needs and then the data of exactly the inputs that
    are needed and known, and the gates it rests on are those required before.  It returns
    the error of an input; else it is pending on the sorted distinct identities that a gate
    or an input still waits for; else it failed over the causes of both; else it has the
    error of a gate; else it resumes without exactly the needed inputs that may be missing.
    The last drain level waits for nothing. *)
Theorem AwaitData_exact {O} `{Descriptor O} quote evaluate self allow existence unsettled lent nds level (s : stateReader (O := O)) inputs :
  ∃ r r1 result s' r' required, serve_all (Init lent) nds = Some r ∧ require_data r (awaited inputs) = Some r1 ∧
  (∀ g, g ∈ Gates r1 ↔ ∃ ref m, Requires ref m ∈ nds.*2 ∧ g = mkGate ref m) ∧
  AwaitData quote evaluate self allow existence unsettled level s r inputs = Some (result, s', r') ∧
  let '(gate, s1) := classify_reads quote evaluate self allow existence level s r1 in
  let as_ := availabilities quote evaluate self allow existence unsettled level s1 inputs in
  reads_of (nds.*2 ++ map Data (awaited inputs ++ required)) r' ∧
  (∀ id, id ∈ required ↔ ∃ d, d ∈ as_ ∧ data_needed d ∧ id = d.1.(data_ref).(dep_id)) ∧
  waits_for gate as_ result ∧ ∀ blocked, level = DrainForce → result ≠ DataPending blocked.
Proof.
  destruct (serve_all_spec lent nds) as (r & He & Hr). destruct (AwaitData_spec quote evaluate self allow existence unsettled _ r level s inputs Hr) as (r1 & result & s' & r' & required & H1 & H2 & H3 & H4).
  exists r, r1, result, s', r', required. split; [done |]. split; [done |]. split; [done |]. split; [done |].
  pose proof (classify_gates_force quote evaluate self allow existence s (Gates r1)) as Hf. unfold classify_reads in *. destruct (classify_gates quote evaluate self allow existence level s (Gates r1)) as [gate s1] eqn:Eg.
  destruct H4 as (H4 & H5 & H6). split; [done |]. split; [intros id; rewrite H5; setoid_rewrite data_needed_spec; naive_solver |]. split; [done |]. intros blocked -> ->. destruct H6 as (_ & [id Hid]%nonempty_elem & _ & Hl). apply Hl in Hid as [(deps & -> & _) | (d & Hd & [_ Hk] & _)].
  - rewrite Eg in Hf. by destruct (Hf deps).
  - by apply availabilities_force in Hd.
Qed.

(** *** The declaration *)

Section declaration.
Context {O : Type} `{Descriptor O} (quote : string → string).
Context (evaluate : stateReader (O := O) → string → NamedResource → option O → list Condition → cel_result).
Context (self : NamedResource) (allow : bool) (existence : option (lookup_promote (O := O))).

Lemma charge_owner_all (s : stateReader (O := O)) owners reasons id : fold_left (charge_owner s) owners reasons !! id =
  match reasons !! id with Some r => Some r | None => if bool_decide (id ∈ owners) then Some (not_emitted s id) else None end.
Proof.
  revert reasons. induction owners as [| o owners IH]; intros reasons; cbn [fold_left]; [by destruct (reasons !! id) |]. rewrite IH. unfold charge_owner.
  destruct (decide (id = o)) as [-> | Hne].
  - destruct (reasons !! o) as [r |] eqn:E; [by rewrite E |]. rewrite lookup_insert_eq, bool_decide_true; [done | by left].
  - assert (match reasons !! o with Some _ => reasons | None => <[o := not_emitted s o]> reasons end !! id = reasons !! id) as -> by (destruct (reasons !! o); rewrite ?lookup_insert_ne; done).
    destruct (reasons !! id); [done |]. by rewrite (bool_decide_ext (id ∈ o :: owners) (id ∈ owners)) by (rewrite elem_of_cons; tauto).
Qed.

(** Who is charged: a failed gate with its reason, or an owner with none. *)
Definition owners_charged (s : stateReader (O := O)) (owners : list NamedResource) (gate : option DependencyFailedError) (f : DependencyFailedError) : Prop :=
  let reasons := match gate with Some g => g.(Reasons) | None => ∅ end in
  StronglySorted (λ a b, compare a b = Lt) f.(Failed) ∧ (∀ id, id ∈ f.(Failed) ↔ (∃ g, gate = Some g ∧ id ∈ g.(Failed)) ∨ id ∈ owners) ∧
  ∀ id, f.(Reasons) !! id = match reasons !! id with Some r => Some r | None => if bool_decide (id ∈ owners) then Some (not_emitted s id) else None end.

Lemma declaration_failure_charged s owners gate : owners_charged s owners gate (declaration_failure s owners (default (mkDependencyFailed [] ∅) gate)).
Proof.
  split; [apply sorted_ids_sorted |]. split.
  - intros id. cbn [declaration_failure Failed]. rewrite elem_of_sorted_ids, elem_of_app. destruct gate as [g |]; cbn [default Failed]; [naive_solver |]. rewrite elem_of_nil. naive_solver.
  - intros id. cbn [declaration_failure Reasons]. rewrite charge_owner_all. by destruct gate.
Qed.

(** An execution without its declaration waits for the owners that would emit it, which is
    not itself: it is refused when there is none, pending or in error as their gates are,
    and else failed, whether or not their gates hold, over each of them and what failed. *)
Theorem requireDeclaration_exact ds r materializers level (s : stateReader (O := O)) : reads_of ds r →
  ∃ result s' r' owners, requireDeclaration quote evaluate self allow existence false materializers level s r = Some (result, s', r') ∧
  (∀ owner, owner ∈ owners ↔ owner ∈ materializers ∧ owner ≠ no_resource ∧ owner ≠ self) ∧
  reads_of (ds ++ map (λ id, Requires (plain_ref id) true) owners) r' ∧
  if bool_decide (owners = []) then result = NoDeclaration
  else
    let gate := (classify_reads quote evaluate self allow existence level s r').1 in
    match result with
    | Declared | NoDeclaration => False
    | DeclarationPending deps => level ≠ DrainForce ∧ gate = Some (GateBlocked deps)
    | DeclarationCause e => gate = Some (GateCause e)
    | DeclarationFailed f => (gate = None ∧ owners_charged s' owners None f) ∨ ∃ g, gate = Some (GateFailed g) ∧ owners_charged s' owners (Some g) f
    end.
Proof.
  intros Hr. unfold requireDeclaration. set (owners := sorted_ids _).
  assert (∀ owner, owner ∈ owners ↔ owner ∈ materializers ∧ owner ≠ no_resource ∧ owner ≠ self) as Ho by (intros owner; unfold owners; rewrite elem_of_sorted_ids, list_elem_of_filter; tauto).
  destruct (reads_materializers ds r owners Hr) as (r' & Hm & Hr'). destruct (decide (owners = [])) as [He | He].
  { exists NoDeclaration, s, r, owners. rewrite He in *. split; [done |]. split; [done |]. split; [by rewrite app_nil_r | done]. }
  pose proof (classify_gates_force quote evaluate self allow existence s (Gates r')) as Hforce.
  destruct (classify_reads quote evaluate self allow existence level s r') as [gate s1] eqn:Eg.
  assert (∀ deps, level = DrainForce → gate ≠ Some (GateBlocked deps)) as Hnb by (intros deps -> ->; unfold classify_reads in Eg; rewrite Eg in Hforce; by destruct (Hforce deps)).
  exists (match gate with
    | Some (GateBlocked deps) => DeclarationPending deps | Some (GateCause e) => DeclarationCause e
    | Some (GateFailed f) => DeclarationFailed (declaration_failure s1 owners f) | None => DeclarationFailed (declaration_failure s1 owners (mkDependencyFailed [] ∅)) end), s1, r', owners. split; [| split; [done |]; split; [done |]].
  - destruct owners as [| o os]; [done |]. rewrite Hm. cbn [mbind option_bind]. rewrite Eg. reflexivity.
  - rewrite (bool_decide_false (owners = [])) by done. rewrite Eg. cbn [fst]. destruct gate as [[deps | e | g] |]; [split; [intros ->; by destruct (Hnb deps) | done] | done | right; exists g | left]; (split; [done |]).
    + apply (declaration_failure_charged s1 owners (Some g)).
    + apply (declaration_failure_charged s1 owners None).
Qed.
End declaration.

(** ** Settlement *)

(** What [errors.AsType] and [errors.Is] find in an error, and its text. *)
Record failure := mkFailure { f_text : string; f_blocked : option (list NamedResource); f_dependency : option DependencyFailedError; f_skipped : bool; f_suspended : bool }.

Definition newline : string := String (Ascii.ascii_of_nat 10) "".

(** [errors.Join] of two errors; the first one is looked into first. *)
Definition Join (a b : failure) : failure :=
  mkFailure (a.(f_text) +:+ newline +:+ b.(f_text)) (match a.(f_blocked) with Some d => Some d | None => b.(f_blocked) end)
    (match a.(f_dependency) with Some d => Some d | None => b.(f_dependency) end) (a.(f_skipped) || b.(f_skipped)) (a.(f_suspended) || b.(f_suspended)).

Inductive AssessmentKind := AssessmentReconciled | AssessmentReused | AssessmentQualificationSettled | AssessmentEntryBinding.

#[export] Instance AssessmentKind_eq_dec : EqDecision AssessmentKind.
Proof. solve_decision. Defined.

(** What [finish] reads and writes of an [Execution]; [accepted] is what its reads were
    accepted as. *)
Record Execution := mkExecution {
  x_id : NamedResource; kind : OutcomeKind; x_blocked : list NamedResource; pending : option failure; resume : bool; Disposition : AssessmentKind; recovering : bool; accepted : option AssessmentKind;
}.

(** What it reads and writes of the store: the statuses, whether the content of the identity
    is readable still, and of its inventory whether it names failures and whether its output
    is valid still. *)
Record world := mkWorld { w_statuses : StoreStatus.Store; w_artifact : option bool; w_inventory : option (bool * bool) }.

Definition with_statuses (s : StoreStatus.Store) (w : world) : world := mkWorld s w.(w_artifact) w.(w_inventory).

Section finishing.
Context (canAdmit : bool).
(** The publication of the execution's inventory, complete or not. *)
Context (publish : Execution → world → bool → option failure * Execution * world).
(** [strings.TrimSpace]. *)
Context (TrimSpace : string → string).

Definition set_status (id : NamedResource) (info : StatusInfo) (w : world) : option world :=
  '(s, _) ← UpdateStatus canAdmit id info w.(w_statuses); Some (with_statuses s w).

(** [finishFailure]. *)
Definition finishFailure (err : failure) (x : Execution) (w : world) : option (Execution * world) :=
  let x := if bool_decide (is_Some err.(f_dependency)) then mkExecution x.(x_id) DependencyFailed x.(x_blocked) x.(pending) x.(resume) x.(Disposition) x.(recovering) x.(accepted) else x in
  let w := match w.(w_artifact) with
    | Some valid => if err.(f_skipped) || negb valid then mkWorld w.(w_statuses) None w.(w_inventory) else w
    | None => w
    end in
  let '(err, x, w) := match w.(w_inventory) with
    | Some (failures, valid) =>
        if failures : bool then (err, x, w)
        else match publish x w (negb valid) with (Some e, x, w) => (Join err e, x, w) | (None, x, w) => (err, x, w) end
    | None => (err, x, w)
    end in
  w ← (if err.(f_skipped) then set_status x.(x_id) (mkInfo StatusReady ReasonSkipped (TrimSpace err.(f_text)) None 0) w
       else '(s, _) ← UpdateFailure canAdmit x.(x_id) err.(f_text) err.(f_dependency) w.(w_statuses); Some (with_statuses s w));
  Some (x, w).

(** Whether a status stands against success: a failure that is not recovered from, or is not
    the one the execution began with ([rewritten]), and a ready status that says more. *)
Definition stands (rewritten : bool) (x : Execution) (info : StatusInfo) : bool :=
  bool_decide (info.(i_Status) = StatusFailed) && (negb x.(recovering) || rewritten) ||
  bool_decide (info.(i_Status) = StatusReady) && (bool_decide (info.(i_Message) ≠ "") || bool_decide (Outcome info ≠ OutcomePassed)).

(** The rest of [finish], on reads that are valid. *)
Definition finish_valid (rewritten : bool) (err : option failure) (x : Execution) (w : world) : option (Execution * world) :=
  match err with
  | Some e =>
      match e.(f_blocked) with
      | Some deps => Some (mkExecution x.(x_id) Blocked deps (Some e) x.(resume) x.(Disposition) x.(recovering) x.(accepted), w)
      | None => if e.(f_suspended) then Some (x, w) else finishFailure e x w
      end
  | None =>
      if bool_decide (x.(Disposition) = AssessmentQualificationSettled) then Some (x, w)
      else
        match GetStatus w.(w_statuses) x.(x_id) with
        | Some info => if stands rewritten x info then Some (x, w) else w ← set_status x.(x_id) (mkInfo StatusReady "" "" None 0) w; Some (x, w)
        | None => w ← set_status x.(x_id) (mkInfo StatusReady "" "" None 0) w; Some (x, w)
        end
  end.

(** [finish]; [cancelled] is [ctx.Err()], and the reads are accepted at the end. *)
Definition finish (valid rewritten : bool) (cancelled err : option failure) (x : Execution) (w : world) : option (Execution * world) :=
  let err := match err with None => cancelled | Some _ => err end in
  let disposition := if bool_decide (is_Some err) && bool_decide (x.(Disposition) = AssessmentQualificationSettled) then AssessmentReconciled else x.(Disposition) in
  let x := match err ≫= f_blocked with
    | Some deps => mkExecution x.(x_id) Blocked deps x.(pending) x.(resume) disposition x.(recovering) x.(accepted)
    | None => mkExecution x.(x_id) x.(kind) x.(x_blocked) None false disposition x.(recovering) x.(accepted)
    end in
  if negb valid then Some (x, w)
  else
    '(x, w) ← finish_valid rewritten err (mkExecution x.(x_id) Terminal [] x.(pending) x.(resume) x.(Disposition) x.(recovering) x.(accepted)) w;
    Some (mkExecution x.(x_id) x.(kind) x.(x_blocked) x.(pending) x.(resume) x.(Disposition) x.(recovering) (Some x.(Disposition)), w).

(** A publication leaves what the scheduler reads. *)
Definition lawful_publish : Prop := ∀ x w complete, let '(_, x', w') := publish x w complete in
  x'.(x_id) = x.(x_id) ∧ x'.(kind) = x.(kind) ∧ x'.(x_blocked) = x.(x_blocked) ∧ x'.(pending) = x.(pending) ∧ x'.(resume) = x.(resume) ∧ x'.(Disposition) = x.(Disposition).

(** The error and the statuses that a failure finds after it published its inventory, if it did. *)
Definition published (e : failure) (s : StoreStatus.Store) (e' : failure) (s1 : StoreStatus.Store) : Prop :=
  (e' = e ∧ s1 = s) ∨ ∃ y v complete p y' v', v.(w_statuses) = s ∧ publish y v complete = (p, y', v') ∧ s1 = v'.(w_statuses) ∧ e' = match p with Some p => Join e p | None => e end.

(** The last write of a failure. *)
Definition failure_written (e : failure) (id : NamedResource) (s s' : StoreStatus.Store) : Prop := ∃ e' s1 ev, published e s e' s1 ∧
  if e'.(f_skipped) then UpdateStatus canAdmit id (mkInfo StatusReady ReasonSkipped (TrimSpace e'.(f_text)) None 0) s1 = Some (s', ev)
  else UpdateFailure canAdmit id e'.(f_text) e'.(f_dependency) s1 = Some (s', ev).

(** The status a settled execution leaves, from the one before and its error. *)
Definition status_after (x : Execution) (err : option failure) (rewritten : bool) (s s' : StoreStatus.Store) : Prop :=
  match err with
  | None =>
      if bool_decide (x.(Disposition) = AssessmentQualificationSettled) || match GetStatus s x.(x_id) with Some info => stands rewritten x info | None => false end then s' = s
      else ∃ ev, UpdateStatus canAdmit x.(x_id) (mkInfo StatusReady "" "" None 0) s = Some (s', ev)
  | Some e =>
      if bool_decide (is_Some e.(f_blocked)) || e.(f_suspended) then s' = s
      else failure_written e x.(x_id) s s'
  end.

Lemma finishFailure_spec err x w x' w' : lawful_publish → finishFailure err x w = Some (x', w') →
  x'.(kind) = (if bool_decide (is_Some err.(f_dependency)) then DependencyFailed else x.(kind)) ∧ x'.(x_blocked) = x.(x_blocked) ∧ x'.(pending) = x.(pending) ∧ x'.(resume) = x.(resume) ∧ x'.(Disposition) = x.(Disposition) ∧
  failure_written err x.(x_id) w.(w_statuses) w'.(w_statuses).
Proof.
  intros Hp. unfold finishFailure. set (x1 := if bool_decide _ then _ else x). set (w1 := match w_artifact w with Some _ => _ | None => _ end).
  assert (x1.(kind) = (if bool_decide (is_Some err.(f_dependency)) then DependencyFailed else x.(kind)) ∧ x1.(x_id) = x.(x_id) ∧ x1.(x_blocked) = x.(x_blocked) ∧ x1.(pending) = x.(pending) ∧ x1.(resume) = x.(resume) ∧ x1.(Disposition) = x.(Disposition)) as (Hk & Hid & Hb & Hpe & Hre & Hd) by (unfold x1; by case_bool_decide).
  assert (w1.(w_statuses) = w.(w_statuses)) as Hw by (unfold w1; destruct (w_artifact w) as [v |]; [by destruct (_ || _) | done]).
  set (write := λ e' x2 w2, w ← (if e'.(f_skipped) then set_status x2.(x_id) (mkInfo StatusReady ReasonSkipped (TrimSpace e'.(f_text)) None 0) w2
       else '(s, _) ← UpdateFailure canAdmit x2.(x_id) e'.(f_text) e'.(f_dependency) w2.(w_statuses); Some (with_statuses s w2)); Some (x2, w)).
  assert (∀ e' x2 w2, write e' x2 w2 = Some (x', w') → x' = x2 ∧ ∃ ev, if e'.(f_skipped) then UpdateStatus canAdmit x2.(x_id) (mkInfo StatusReady ReasonSkipped (TrimSpace e'.(f_text)) None 0) w2.(w_statuses) = Some (w'.(w_statuses), ev)
    else UpdateFailure canAdmit x2.(x_id) e'.(f_text) e'.(f_dependency) w2.(w_statuses) = Some (w'.(w_statuses), ev)) as Hwrite.
  { intros e' x2 w2 H. unfold write, set_status in H. destruct (f_skipped e'); apply bind_Some in H as (w3 & H & [= <- <-]); apply bind_Some in H as ([s ev] & H & [= <-]); (split; [done | by exists ev]). }
  assert (∀ e' x2 w2, published err w.(w_statuses) e' w2.(w_statuses) → x2.(x_id) = x1.(x_id) ∧ x2.(kind) = x1.(kind) ∧ x2.(x_blocked) = x1.(x_blocked) ∧ x2.(pending) = x1.(pending) ∧ x2.(resume) = x1.(resume) ∧ x2.(Disposition) = x1.(Disposition) → write e' x2 w2 = Some (x', w') →
    x'.(kind) = (if bool_decide (is_Some err.(f_dependency)) then DependencyFailed else x.(kind)) ∧ x'.(x_blocked) = x.(x_blocked) ∧ x'.(pending) = x.(pending) ∧ x'.(resume) = x.(resume) ∧ x'.(Disposition) = x.(Disposition) ∧ failure_written err x.(x_id) w.(w_statuses) w'.(w_statuses)) as Hfin.
  { intros e' x2 w2 He' (Hi2 & Hk2 & Hb2 & Hp2 & Hr2 & Hd2) (-> & ev & Hev)%Hwrite. rewrite Hi2, Hid in Hev. split_and!; [congruence.. |]. by exists e', w2.(w_statuses), ev. }
  assert (write err x1 w1 = Some (x', w') → _) as Hquiet by (apply (Hfin err x1 w1); [by left | done]).
  destruct (w_inventory w1) as [[[] v] |]; [done | | done]. specialize (Hp x1 w1 (negb v)). destruct (publish x1 w1 (negb v)) as [[p x2] w2] eqn:Epub.
  destruct p as [e |]; apply Hfin; (try done); right; exists x1, w1, (negb v); eexists _, x2, w2; (split; [done |]); (split; [exact Epub | done]).
Qed.

(** A settlement: reads that are no longer valid settle nothing but what is pending; else
    they are accepted, the execution is blocked exactly on an error that blocks, which is
    kept, and failed on its dependencies exactly on such an error that neither blocks nor
    suspends, and its status is written at most once, as its error says. *)
Theorem finish_exact valid rewritten cancelled err x w x' w' : lawful_publish → finish valid rewritten cancelled err x w = Some (x', w') →
  let err := match err with None => cancelled | Some _ => err end in
  let deps := err ≫= f_blocked in
  (deps = None → x'.(pending) = None ∧ x'.(resume) = false) ∧
  if valid then
    x'.(accepted) = Some x'.(Disposition) ∧ (is_Some err → x'.(Disposition) ≠ AssessmentQualificationSettled) ∧
    (∀ ds, deps = Some ds → x'.(kind) = Blocked ∧ x'.(x_blocked) = ds ∧ x'.(pending) = err ∧ w' = w) ∧
    (deps = None → x'.(x_blocked) = [] ∧
       x'.(kind) = match err with Some e => if bool_decide (is_Some e.(f_dependency)) && negb e.(f_suspended) then DependencyFailed else Terminal | None => Terminal end) ∧
    status_after x err rewritten w.(w_statuses) w'.(w_statuses)
  else w' = w ∧ x'.(accepted) = x.(accepted).
Proof.
  intros Hp. unfold finish. set (err' := match err with None => cancelled | Some _ => err end). set (disposition := if _ && _ then AssessmentReconciled else _).
  assert (is_Some err' → disposition ≠ AssessmentQualificationSettled) as Hdisp.
  { intros Hs. unfold disposition. rewrite (bool_decide_true (is_Some err')) by done. cbn [andb]. by case_bool_decide. }
  destruct valid; cbn [negb]; [| destruct (err' ≫= f_blocked) eqn:Ed; by intros [= <- <-]]. intros H. apply bind_Some in H as ([x1 w1] & Hv & [= <- <-]). cbn [kind x_blocked pending resume Disposition accepted x_id] in *.
  destruct err' as [e |]; cbn [mbind option_bind] in *.
  - destruct (f_blocked e) as [ds |] eqn:Eb; unfold finish_valid in Hv; rewrite Eb in Hv.
    + injection Hv as <- <-. cbn. split; [done |]. split; [done |]. split; [done |]. split; [by intros ? [= <-] |]. split; [done |]. by rewrite Eb.
    + destruct (f_suspended e) eqn:Es.
      * injection Hv as <- <-. cbn. split; [done |]. split; [done |]. split; [done |]. split; [done |]. split; [by rewrite andb_false_r |]. rewrite Eb, Es. done.
      * apply finishFailure_spec in Hv as (Hk & Hb & Hpe & Hre & Hd & Hst); [| done]. cbn [kind x_blocked pending resume Disposition accepted x_id] in *. rewrite Hpe, Hre, Hd, Hb, Hk. cbn [negb]. rewrite andb_true_r.
        split; [done |]. split; [done |]. split; [done |]. split; [done |]. split; [done |]. cbn [status_after]. by rewrite Eb, Es.
  - unfold disposition in *. rewrite (bool_decide_false (is_Some None)) in * by (by intros [? ?]). cbn [andb] in *. unfold finish_valid in Hv. cbn [x_id Disposition] in Hv.
    assert (∀ sx : Execution, sx.(x_id) = x.(x_id) → sx.(recovering) = x.(recovering) → ∀ info, stands rewritten sx info = stands rewritten x info) as Hst by (intros sx _ Hr info; unfold stands; by rewrite Hr).
    unfold status_after. destruct (bool_decide_reflect (Disposition x = AssessmentQualificationSettled)); cbn [orb].
    + injection Hv as <- <-. cbn. split_and!; try done; by intros [? ?].
    + assert (∀ y : option world, (w ← y; Some (mkExecution (x_id x) Terminal [] None false (Disposition x) (recovering x) (accepted x), w)) = Some (x1, w1) → y = Some w1 ∧ x1 = mkExecution (x_id x) Terminal [] None false (Disposition x) (recovering x) (accepted x)) as Hinv.
      { intros y Hy. apply bind_Some in Hy as (w2 & -> & [= <- <-]). done. }
      destruct (GetStatus (w_statuses w) (x_id x)) as [info |]; [rewrite Hst in Hv by done; destruct (stands rewritten x info) |].
      * injection Hv as <- <-. cbn. split_and!; try done; by intros [? ?].
      * apply Hinv in Hv as [Hu ->]. cbn. split_and!; try done; try (by intros [? ?]). unfold set_status in Hu. apply bind_Some in Hu as ([s ev] & Hu & [= <-]). by exists ev.
      * apply Hinv in Hv as [Hu ->]. cbn. split_and!; try done; try (by intros [? ?]). unfold set_status in Hu. apply bind_Some in Hu as ([s ev] & Hu & [= <-]). by exists ev.
Qed.
End finishing.

(** ** What an execution depends on and generates *)

(** [References] of an object, as far as [dependencies] reads them; stages are bit sets. *)
Record Reference := mkReference { ref_dep : DependencyRef; ref_Gate : Z; ref_Optional : bool; ref_Ordering : bool; ArtifactStages : Z }.

Definition GateParents : Z := 0.

(** The dependency of one reference at a stage: its artifact is for the stages that name it. *)
Definition stage_dependency (stage : Z) (ref : Reference) : DependencyRef :=
  let d := ref.(ref_dep) in
  if d.(Artifact) && bool_decide (Z.land ref.(ArtifactStages) stage = 0%Z) then mkRef d.(dep_id) d.(ReadyExpr) false d.(ArtifactOnly) d.(ChartSource) else d.

(** [dependencies]: [keepOrderingDep] keeps a reference that only orders the caller
    needs; an object with no capacity has no references. *)
Definition dependencies (keepOrderingDep : NamedResource → bool) (stage : Z) (capacity : nat) (refs : list Reference) : list DependencyRef :=
  if bool_decide (stage = GateParents) then []
  else if capacity =? 0 then []
  else
    fold_left (λ deps ref,
      if bool_decide (Z.land ref.(ref_Gate) stage = 0%Z) || ref.(ref_Optional) || ref.(ref_Ordering) && negb (keepOrderingDep ref.(ref_dep).(dep_id)) then deps
      else deps ++ [stage_dependency stage ref]) refs [].

(** [generatedChildren]: the generated objects of an execution replace those it had. *)
Definition generatedChildren {A} (generated : A → bool) (mine children : list A) : list A :=
  match children with
  | [] => mine
  | _ =>
      if bool_decide (mine = []) && negb (existsb generated children) then children
      else fold_left (λ current child, if generated child then current else current ++ [child]) children [] ++ mine
  end.

Inductive checkpoint_error := errInputsChanged | errSuspended | ErrPreflight (message : string).

(** [Checkpoint]: [suspended] is what [preGate] answers for the captured object. *)
Definition Checkpoint (valid : bool) (suspended : option bool) (preflight : string) : option checkpoint_error :=
  if negb valid then Some errInputsChanged
  else if default false suspended then Some errSuspended
  else if bool_decide (preflight ≠ "") then Some (ErrPreflight preflight) else None.

Lemma fold_snoc_filter {A B} (keep : A → bool) (f : A → B) (l : list A) acc :
  fold_left (λ out x, if keep x then out ++ [f x] else out) l acc = acc ++ map f (List.filter keep l).
Proof.
  revert acc. induction l as [| x l IH]; intros acc; cbn [fold_left List.filter]; [by rewrite app_nil_r |]. destruct (keep x); rewrite IH; [by rewrite <- app_assoc | done].
Qed.

Lemma fold_snoc_keep {A} (drop : A → bool) (l : list A) : fold_left (λ current x, if drop x then current else current ++ [x]) l [] = List.filter (λ x, negb (drop x)) l.
Proof.
  assert (∀ acc, fold_left (λ current x, if drop x then current else current ++ [x]) l acc = acc ++ List.filter (λ x, negb (drop x)) l) as H; [| apply (H [])].
  induction l as [| x l IH]; intros acc; cbn [fold_left List.filter]; [by rewrite app_nil_r |]. destruct (drop x); cbn [negb]; rewrite IH; [done | by rewrite <- app_assoc].
Qed.

(** The required references of a stage, in order, each with its artifact only where that
    stage needs it. *)
Theorem dependencies_exact keep stage capacity refs : capacity ≠ 0 →
  dependencies keep stage capacity refs =
  map (stage_dependency stage) (List.filter (λ ref, negb (bool_decide (Z.land ref.(ref_Gate) stage = 0%Z) || ref.(ref_Optional) || ref.(ref_Ordering) && negb (keep ref.(ref_dep).(dep_id)))) refs).
Proof.
  intros Hc. unfold dependencies. apply Nat.eqb_neq in Hc. rewrite Hc. case_bool_decide as Hs.
  - subst stage. symmetry. induction refs as [| ref refs IH]; [done |]. cbn [List.filter]. by rewrite Z.land_0_r.
  - rewrite <- (app_nil_l (map _ _)), <- fold_snoc_filter. clear Hc Hs. set (step := λ deps ref, _). set (step' := λ out x, _). assert (∀ deps ref, step deps ref = step' deps ref) as He by (intros deps ref; unfold step, step'; by destruct (_ || _ && _)).
    clearbody step step'. generalize (@nil DependencyRef). induction refs as [| ref refs IH]; intros acc; cbn [fold_left]; [done |]. rewrite He. apply IH.
Qed.

(** Whatever was generated before is gone, and nothing else is. *)
Theorem generatedChildren_exact {A} (generated : A → bool) mine children :
  generatedChildren generated mine children = List.filter (λ c, negb (generated c)) children ++ mine.
Proof.
  unfold generatedChildren. destruct children as [| c children]; [done |]. set (l := c :: children). destruct (bool_decide_reflect (mine = [])) as [-> | Hm]; cbn [andb].
  - destruct (existsb generated l) eqn:Ee; cbn [negb].
    + by rewrite !app_nil_r, fold_snoc_keep.
    + rewrite app_nil_r. symmetry. clearbody l. induction l as [| x l IH]; [done |]. cbn in *. apply orb_false_iff in Ee as [-> Ee]. cbn. by rewrite IH.
  - by rewrite fold_snoc_keep.
Qed.

(** Two missing dependencies, one required twice: blocked at first, failed when the run drains. *)
Section example_gates.
Let answers (level : DrainLevel) : option gate_error :=
  match serve_all (Init 0) [] with
  | Some r =>
      match Require (λ s, s) no_cel hr_app false None (λ _, true) (λ _ s, (None, s)) level empty_reader r [plain_ref hr_db; plain_ref hr_app; mkRef hr_db (Some "") false false false] with
      | Some (inr c, _, _) => c
      | _ => None
      end
  | None => None
  end.

Example missing_dependencies : answers DrainNone = Some (GateBlocked [hr_db; hr_app]) ∧
  match answers DrainForce with Some (GateFailed f) => (f.(Failed), (λ r, r.(r_Message)) <$> f.(Reasons) !! hr_db) | _ => ([], None) end = ([hr_db; hr_app], Some "dependency not found").
Proof. split; vm_compute; reflexivity. Qed.
End example_gates.
